(* ===== verification/_CoqProject ===== *)
-Q . S2P
Prelude.v
Rationals.v
Models.v
Breaker.v
Semaphore.v
Providers.v
Accounts.v
AccountRepo.v
ProbeGate.v
CapacityRestore.v
Rotation.v
AsyncWriter.v
StableSort.v
TokenManager.v
TokenSafety.v
TokenDurability.v
Affinity.v
Strategy.v
LeastUsed.v
Usage.v
Pacing.v
Memos.v
Gates.v
Admission.v
CreditLedger.v
CodexSpend.v
CodexSafety.v
CreditApplier.v
PayloadFrame.v
PayloadWorker.v
PayloadClient.v
PayloadSafety.v
Json.v
Programs.v
Messages.v
OpenAiFormats.v
OpenAiStream.v
OpenAiReply.v
Routing.v
ResolvedRoute.v
RouteSafety.v
AliasRouting.v
AliasSafety.v
ChatStream.v
ChatRelay.v
ChatSafety.v
ChatThrough.v
UpstreamError.v
ChatRequest.v
ChatRequestSafety.v
ChatHandler.v
Login.v
LoginSafety.v
