(* ===== verification/Prelude.v ===== *)
(** * ClankerMux: the state a load balancer must not get wrong

    ClankerMux is a proxy that spreads coding-agent traffic over many provider accounts.
    What makes it correct is a set of stateful components that decide which account serves a
    request, which requests may probe an account or provider that failed, which write may
    touch an account row, what survives a crash or a race, and that a translated stream says
    what the upstream said. This library models those components from the TypeScript sources
    and proves what each of them promises. Paths below are relative to [src/]; file names
    without a directory are under [packages/proxy/src/].

    ** Files and the code they model

    Foundations:
    - [Prelude] (this file): tactics, the insertion-ordered map [jmap] that stands for a
      JavaScript [Map] (iteration order is insertion order, [set] of a present key keeps
      its place), booleans, strings and option lemmas. [Rationals]: minima and maxima.
    - [StableSort]: what [Array.prototype.sort] computes for a consistent comparator, with
      the classes [TotalPreorder] and [Comparator] its clients instantiate.
    - [Programs]: the monad of handlers that mutate a state and may throw.
    - [Json]: JSON values, [JSON.parse] and [JSON.stringify].
    - [Models]: model families, official Anthropic providers, time constants and the
      cooldown backoff ([packages/core/src/model-mappings.ts], [constants.ts]). [Providers]:
      the provider table and its gates ([packages/types/src/provider-config.ts]).

    Accounts and their rows:
    - [Accounts]: the account row, its normalisation, pause reasons and availability
      ([packages/types/src/account.ts], [packages/core/src/strategy.ts], and
      [pause-reasons.ts] and [peek-availability.ts] of [packages/load-balancer/src/strategies/]).
    - [AccountRepo]: every statement that writes the accounts table
      ([packages/database/src/repositories/account.repository.ts]) and the pause-epoch
      trigger of [migrations.ts]; a [db_op] per method and [exec] for sequences of them.
    - [Rotation]: refresh tokens rotated upstream and not yet persisted
      ([handlers/pending-rotation-registry.ts]), over [AccountRepo].
    - [TokenManager]: obtaining a valid token ([handlers/token-manager.ts]): joined
      refreshes, backoff, the exchange, the write of what it minted; not the refreshes on a
      timer of [proactive-token-refresh.ts], which register in the same map. [TokenSafety]: its
      interleavings; [TokenDurability]: the machine together with the provider.

    Health of accounts and providers:
    - [Breaker]: the overload circuit breaker ([provider-overload-cooldown.ts]): one bucket
      per provider or provider and family, closed, open or half-open; single-flight probes.
    - [Semaphore]: the keyed semaphore ([keyed-semaphore.ts]) behind the class
      [SlotSemaphore], and its clients, the overload holds ([overload-hold.ts]) and the
      burst holds and burst marker ([handlers/burst-cooldown.ts]).
    - [ProbeGate]: cooldowns after a 429 and the single-flight recovery probe
      ([handlers/rate-limit-cooldown.ts]). Its database writes are [db_op]s.
    - [CapacityRestore]: the early release of quota cooldowns
      ([apps/server/src/capacity-restored.ts]), over [ProbeGate] and [AccountRepo].

    Choice of an account:
    - [Affinity] and [Strategy]: the session strategy, its pins, selection, ranking,
      automatic resumes and sessions ([packages/load-balancer/src/strategies/index.ts]).
      [LeastUsed]: the other strategy ([least-used.ts]).
    - [Usage]: readings of a subscription's usage ([usage-normalizer.ts], [scoped-limits.ts],
      [weekly-exhaustion.ts] of [packages/core/src/], the capacity signal of
      [packages/providers/src/usage-fetcher.ts]). [Pacing]: the pacing line and the throttle
      ([throttle-utils.ts], [handlers/usage-throttling.ts]). [Memos]: the routing hints in
      memory ([family-weekly-memo.ts], [codex-transient-health.ts],
      [protected-family-demand.ts], [weekly-burn-slope.ts]).
    - [Gates]: the decisions of the routing gates about one account; [Admission]: the gates
      of a request ([admission-gates.ts]) applied to ranked candidates.
    - [Routing]: rules, permissions, destinations and aliases as stored ([routing.ts],
      [model-alias.ts] and others of [packages/core/src/]). [ResolvedRoute]: the frozen route
      of a request ([resolved-route.ts], [request-model-exclusions.ts]); [RouteSafety]: what
      it guarantees. [AliasRouting]: the loop over the stages of an alias
      ([model-alias-routing.ts], with the refusals of [sdk-bridge-refusal.ts]); [AliasSafety]: what its answer means.

    Codex quota:
    - [CreditLedger]: the ledger of banked-reset redemptions
      ([codex-reset-credit-event.repository.ts]).
    - [CodexSpend]: reads and spends of Codex quota ([codex-spend-coordinator.ts],
      [codex-observation-fence.ts]); [CodexSafety]: what they keep in every interleaving.
    - [CreditApplier]: the automatic redemption ([codex-reset-credit-applier.ts],
      [banked-reset-alternative.ts]).

    Writes off the request path:
    - [AsyncWriter]: the write queue and the payload budget
      ([packages/database/src/async-writer.ts]).
    - [PayloadFrame]: the stored form of a request and its responses ([payload-frame.ts],
      [payload-encryption.ts]).
    - [PayloadWorker]: the worker thread that writes payloads ([payload-write-worker.ts]).
      [PayloadClient]: its controller ([payload-write-client.ts]); [PayloadSafety]: that at
      most one worker holds a write.

    Streams:
    - [Messages]: the Messages event stream as a protocol, the contract between the adapters.
    - [OpenAiFormats], [OpenAiStream], [OpenAiReply]: an OpenAI upstream as Messages
      ([packages/openai-formats/src/]): usage and whole responses, streams, and that the two
      agree.
    - [ChatStream]: Messages as chat completions ([packages/openai-chat-adapter/src/stream.ts],
      [errors.ts], the answers of [handler.ts]); [ChatRelay] and [ChatSafety]: what the client
      gets; [ChatThrough]: both translations composed.
    - [ChatRequest]: chat requests as Messages requests ([request.ts] of the same package);
      [ChatRequestSafety]: that they say the same. [UpstreamError]: the text of an upstream's
      error ([packages/types/src/upstream-error.ts]). [ChatHandler]: the endpoint, from the
      bytes of a request to the response ([handler.ts]).

    Management:
    - [Login]: the gate of the management API, its login, first password and sessions
      ([handlers/auth.ts], [services/session-auth-service.ts], [setup-code.ts] and
      [login-throttle.ts] of [packages/http-api/src/], over
      [packages/database/src/repositories/auth.repository.ts]). [LoginSafety]: what it keeps
      in every interleaving.

    ** How the components interact

    A request builds its route ([ResolvedRoute] over [Routing]); selection re-checks the route
    against what is suppressed since, asks [Strategy.select] or [LeastUsed] for the ranking,
    which reads the accounts, resumes those whose pause has run out through the store and
    consults the pins, and [Admission] thins the ranking with [Breaker], [ProbeGate], [Memos],
    [Usage], [Pacing] and [Gates]. For an alias, [AliasRouting] does so stage by stage.
    [Semaphore] bounds how many requests wait. An attempt takes its token from
    [TokenManager], which writes refreshed tokens by compare-and-swap; when the write fails,
    [Rotation] keeps the token until a flush lands. A 429 goes through
    [ProbeGate.applyRateLimitCooldown], which changes memory at once and enqueues a database
    write; a success clears the lock only if it is newer. A usage poll that shows quota again
    goes through [CapacityRestore], which takes a marker in the gate and then
    compares-and-clears the row, while other writers may run between. [CreditApplier] decides
    over [Usage] and dispatches redemptions through [CodexSpend], which books them in
    [CreditLedger]. Everything written off the request path goes through [AsyncWriter], and a
    payload on through [PayloadClient] to [PayloadWorker]. An upstream of another format is
    read by [OpenAiStream], which writes what [Messages] states, and a client of another
    format is served by [ChatStream], which reads it; [ChatHandler] translates its request with
    [ChatRequest], asks the proxy and hands on the answer, and what the request demands of a
    destination is what [ResolvedRoute] checks. The management API shares no state with
    the proxy's; [Login] decides who may use it.

    ** What the theorems show

    - Breaker: probes are single-flight per bucket: nobody else is admitted until the probe's
      deadline, two tokens never own a bucket, and the completion of a token moves exactly the
      buckets it owns, as its outcome says; deadlines stay within bounds, admission is decided
      as the buckets say.
    - Semaphore, Providers, Accounts: counts are the holders and never above the cap; the
      gates deny by default; the read-only availability check agrees with selection.
    - AccountRepo: a refreshed token lands only on the token it was exchanged for; no
      automated write undoes an operator's decision; the pause epoch identifies a pause.
    - Rotation, TokenSafety, TokenDurability: the refreshes of an account that
      refreshAccessTokenSafe starts are one at a time and every call is answered. In the runs
      of [TokenDurability.reached] a rotated token is not lost and a healthy account not
      paused; these runs have no other writer of the account's token, no clearing of its
      caches or its pending entry, no full registry, no answer of the provider while a flush
      of a replaced entry is under way, and no refresh whose write throws after the entry it
      took along was settled. The last condition is needed: what becomes of a rotation whose
      write throws is stated for every state, and a run in which the token is lost and the
      account then paused is exhibited.
    - ProbeGate, CapacityRestore: recovery probes are exclusive; markers refine a stack of
      reservations, whatever the order of rollbacks; a release clears the very lock that was
      read and only on newer evidence, under any interleaved writes.
    - Affinity, Strategy, LeastUsed: the pins are a bounded least-recently-used map; a
      selection offers each available account once, in the ranking order, resumes only what
      it may, and serves a conversation where its pin says; the preview agrees with it.
    - Usage, Pacing, Memos, Gates, Admission: exhaustion and capacity as read; a throttled
      window is on pace when it is released; what each gate holds back and in which order
      it leaves the rest; holding an account back for liveness leaves a peer that can absorb
      the traffic.
    - RouteSafety, AliasSafety: a route holds exactly the accounts every check admits and is
      never replaced; selection narrows it to exactly the accounts still admitted (a
      maintenance route re-checks its destination alone); a retryable refusal means
      substitution; the attempts of an alias are disciplined and its answer says what
      happened, a refusal of the SDK bridge and an attempt that throws included.
    - CreditLedger, CodexSafety, CreditApplier: the attempts on one credit are
      serial; observations are fenced; a request is sent only right after the reads and the claim
      that authorise it; the pool check lets a redemption through only when no other account
      can serve.
    - AsyncWriter, PayloadFrame, PayloadWorker, PayloadSafety: the budget is what is
      outstanding; frames and blobs read back as stored; an acknowledged row is durable, as
      long as a statement loses the transaction only for the errors that the worker knows to
      be fatal (a run where SQLite rolls back for another reason is exhibited); a write is in
      the hands of one worker and settled once; one way to wedge the client is exhibited.
    - OpenAiStream, OpenAiReply: a reply cut anywhere becomes one complete Messages stream
      and is the same message streamed and whole; where chunks are cut does not matter.
    - ChatSafety, ChatThrough: a chat client gets the message that the stream says, or an
      error, whatever the upstream sends (one end has no reason: a stop reason that names a
      property every object inherits); through both translations it gets the upstream's own
      reply, up to the size limit of a whole answer, over which it gets a 502.
    - ChatRequestSafety, ChatHandler, UpstreamError: the upstream is told what the client said,
      as a conversation in which every call is answered; the client reads its own function
      names in the answer; an error shows nothing of a body but its error fields.
    - LoginSafety: a management request gets through only while there is no password or with
      a live session of the one there is; over HTTP only the first password is set, with the
      announced code; attempts are bounded and nobody is locked out; a stored hash verifies
      the password it was made from.

    State machines are run as sequences of operations or a step relation, and the
    invariants are proved for every reachable state; refinement theorems compare a
    component with a smaller specification (per-bucket status, stacks of reservations,
    multisets of holders, an abstract fence, where the live token is, the protocol of
    messages).

    ** How the code is represented

    Module-level or object state is a record and every operation a function on it.
    Instants, durations and counters are [Z]: the code's values stay far below 2^53, where
    JavaScript numbers are exact. Utilizations and headrooms, and the numbers of JSON, are
    rationals. [Date.now()] is the argument [now]. Object identity that the code compares
    ([===] on a lease, a rotation, a reservation) is an explicit reference or generation. A
    callback is an opaque identity, returned when it is invoked. An operation that awaits is
    split at the await, so that other operations run between; a function that awaits often is
    a task of a machine. SQL comparisons with NULL are three-valued. Strings are strings of
    bytes: in [Json] and what reads it the UTF-8 encodings of the code's strings, with lengths
    counted in UTF-16 units; in [PayloadFrame] lists of UTF-16 code units; elsewhere ASCII.
    Log lines are left out everywhere.

    ** Bounds and fuel

    Recursion is structural except for: the walk over rolled-back reservations, whose fuel
    [ProbeGate.walk_fuel] is proved enough for every reachable gate; the ticks of the writer,
    where the theorem gives the number that drains the queue; the parser of [Json], whose fuel
    is the length of the text, and the frames of [ChatStream.drain], whose fuel is the length
    of the buffer: both consume input at each step, and the round trips of printed values and
    of streams are proved with that fuel. The caps of the code (16 and 8 holds, 1000
    rotations, 10,000 leases and pins, 2,000 queued jobs, 1000 payload jobs in 100 MiB, 1 MiB
    frames, 1024 blocks) are its constants; theorems that need less say so.

    ** Parameters

    Code outside the repository and what happens between two steps are arguments: the host's
    calendar ([localDate]), string collation, SHA-256, the JSON parser of [PayloadFrame],
    zstd, AES-GCM; the SQLite connection of [PayloadWorker] (the relation [sql_step]); whether
    [postMessage] and a spawn of [PayloadClient] throw; the provider's answers to exchanges,
    reads and redemptions; the dependencies of [CreditApplier], over an arbitrary world; the
    readings of usage ([UsageFeed]) and the route of an account in [Admission]; the selections
    and answers of [AliasRouting]; the decoded reads of [ChatStream]; the password hasher,
    upper case, text decoding and the random bytes of [Login]; the proxy, decompression, the
    decoders and the client's presence of [ChatHandler]. Hypotheses about them
    state only documented behaviour (a digest is not empty, decompression undoes compression,
    a statement that throws leaves the transaction or rolls it back), and a witness of every
    theorem with hypotheses gives a concrete instance.

    ** Not modelled

    The HTTP pipeline between the decisions (fetches, timers, header and body rewriting,
    recording for the dashboard); the Responses format; the provider adapters apart from the
    OpenAI format; the dashboard and the management endpoints behind their gate; client keys;
    the refreshes on a timer and the report of token health; forecasting and capacity studies, which are floating-point statistics no request depends on
    and which rationals would not model faithfully; the schema history and the other tables;
    the SDK bridge, which drives a third-party process; tests, scripts and generated files. *)

From Stdlib Require Export ZArith Lia.
From stdpp Require Export base list gmap strings pretty.

(** * Tactics *)

(** Case analysis on the innermost test of a [match] or an [if]. *)
Ltac break_match :=
  match goal with
  | |- context [match ?e with _ => _ end] =>
      lazymatch e with
      | context [match _ with _ => _ end] => fail
      | _ => destruct e eqn:?
      end
  end.

Ltac break_match_hyp :=
  match goal with
  | H : context [match ?e with _ => _ end] |- _ =>
      lazymatch e with
      | context [match _ with _ => _ end] => fail
      | _ => destruct e eqn:?
      end
  end.

(** Turns the boolean comparisons of the code into propositions. *)
Ltac prop_bools :=
  repeat match goal with
  | H : _ && _ = true |- _ => apply andb_true_iff in H as [? ?]
  | H : _ || _ = false |- _ => apply orb_false_iff in H as [? ?]
  | H : negb _ = true |- _ => apply negb_true_iff in H
  | H : negb _ = false |- _ => apply negb_false_iff in H
  | H : (_ <? _)%Z = true |- _ => apply Z.ltb_lt in H
  | H : (_ <? _)%Z = false |- _ => apply Z.ltb_ge in H
  | H : (_ <=? _)%Z = true |- _ => apply Z.leb_le in H
  | H : (_ <=? _)%Z = false |- _ => apply Z.leb_gt in H
  | H : (_ =? _)%Z = true |- _ => apply Z.eqb_eq in H
  | H : (_ =? _)%Z = false |- _ => apply Z.eqb_neq in H
  | H : bool_decide _ = true |- _ => apply bool_decide_eq_true in H
  | H : bool_decide _ = false |- _ => apply bool_decide_eq_false in H
  end.

Ltac crush := repeat (simplify_eq/=; try break_match; prop_bools); try lia; eauto.

(** * Lists *)

Lemma filter_all {A} (P : A → Prop) `{!∀ x, Decision (P x)} (l : list A) :
  (∀ x, x ∈ l → P x) → filter P l = l.
Proof.
  induction l as [|x l IH]; intros Hl; [done|].
  rewrite filter_cons_True by (apply Hl; left). f_equal. apply IH. intros y Hy. apply Hl. by right.
Qed.

Lemma filter_none {A} (P : A → Prop) `{!∀ x, Decision (P x)} (l : list A) :
  (∀ x, x ∈ l → ¬ P x) → filter P l = [].
Proof.
  induction l as [|x l IH]; intros Hl; [done|].
  rewrite filter_cons_False by (apply Hl; left). apply IH. intros y Hy. apply Hl. by right.
Qed.

Lemma NoDup_fmap_elem_inj {A B} (f : A → B) (l : list A) x y :
  NoDup (f <$> l) → x ∈ l → y ∈ l → f x = f y → x = y.
Proof.
  induction l as [|z l IH]; csimpl; [by intros _ ?%elem_of_nil|].
  intros [Hnin Hnd]%NoDup_cons [->|Hx]%elem_of_cons [->|Hy]%elem_of_cons Hf; auto.
  - destruct Hnin. rewrite Hf. by apply list_elem_of_fmap_2.
  - destruct Hnin. rewrite <-Hf. by apply list_elem_of_fmap_2.
Qed.

(** * JavaScript strings

    Model ids, provider names and account ids are ASCII in the code's data;
    case folding is therefore the ASCII one. *)

Definition to_lower (c : Ascii.ascii) : Ascii.ascii :=
  let n := Ascii.N_of_ascii c in
  if (65 <=? n)%N && (n <=? 90)%N then Ascii.ascii_of_N (n + 32) else c.

Fixpoint toLowerCase (s : string) : string :=
  match s with
  | EmptyString => EmptyString
  | String c s => String (to_lower c) (toLowerCase s)
  end.

Definition startsWith (s pat : string) : bool := String.prefix pat s.

Fixpoint includes (s pat : string) : bool :=
  String.prefix pat s ||
  match s with EmptyString => false | String _ s' => includes s' pat end.

(** [s.slice(n)] *)
Fixpoint slice_from (n : nat) (s : string) : string :=
  match n, s with
  | S n, String _ s => slice_from n s
  | _, _ => s
  end.

(** [s.trim()] on the ASCII white space. *)
Definition is_space (c : Ascii.ascii) : bool :=
  let n := Ascii.N_of_ascii c in ((9 <=? n) && (n <=? 13))%N || (n =? 32)%N.

Fixpoint trim_start (s : string) : string :=
  match s with
  | String c s' => if is_space c then trim_start s' else s
  | EmptyString => s
  end.

Fixpoint trim_end (s : string) : string :=
  match s with
  | EmptyString => EmptyString
  | String c s' =>
      match trim_end s' with
      | EmptyString => if is_space c then EmptyString else String c EmptyString
      | t => String c t
      end
  end.

Definition trim (s : string) : string := trim_end (trim_start s).

(** [s.split(c)] *)
Fixpoint split_at (c : Ascii.ascii) (s : string) : list string :=
  match s with
  | EmptyString => [EmptyString]
  | String x s =>
      let rest := split_at c s in
      if Ascii.eqb x c then EmptyString :: rest
      else match rest with p :: ps => String x p :: ps | [] => [String x EmptyString] end
  end.

(** [slice(0, indexOf(c))] and what follows it, when it is there *)
Fixpoint cut_at (c : Ascii.ascii) (s : string) : option (string * string) :=
  match s with
  | EmptyString => None
  | String x s =>
      if Ascii.eqb x c then Some (EmptyString, s)
      else '(a, b) ← cut_at c s; Some (String x a, b)
  end.

(** [s ? x : y] on an optional string: absent and empty are both falsy. *)
Definition truthy_string (s : option string) : option string :=
  match s with Some EmptyString => None | _ => s end.

Lemma prefix_app p s : String.prefix p (p +:+ s) = true.
Proof. induction p as [|c p IH]; simpl; [by destruct s|]. by destruct (Ascii.ascii_dec c c). Qed.

Lemma prefix_spec p s : String.prefix p s = true ↔ ∃ r, s = p +:+ r.
Proof.
  split; [|by intros [r ->]; apply prefix_app].
  revert s. induction p as [|c p IH]; intros s; simpl; [by eauto|].
  destruct s as [|c' s]; [done|]. simpl. destruct (Ascii.ascii_dec c c') as [->|Hne].
  - intros [r ->]%IH. by exists r.
  - intros H. discriminate H.
Qed.

Lemma slice_from_app p s : slice_from (String.length p) (p +:+ s) = s.
Proof. induction p; simpl; [by destruct s|done]. Qed.

Lemma string_app_inj_l p s s' : p +:+ s = p +:+ s' → s = s'.
Proof. induction p; simpl; [done|]. intros ?; simplify_eq; auto. Qed.

Lemma string_app_assoc p q r : (p +:+ q) +:+ r = p +:+ q +:+ r.
Proof.
  induction p as [|c p IH]; [done|].
  change (String c ((p +:+ q) +:+ r) = String c (p +:+ q +:+ r)). by rewrite IH.
Qed.

Lemma string_app_cons_ne p c s : p +:+ String c s ≠ p.
Proof. induction p as [|c' p IH]; simpl; [done|]. intros H. injection H. done. Qed.

(** * A state monad

    Code that reads and writes module-level state is written in it; the state
    is threaded through, the result comes first. *)

Definition state (S A : Type) : Type := S → A * S.

Definition run_state {S A} (c : state S A) (s : S) : A * S := c s.
Definition st_ret {S A} (a : A) : state S A := λ s, (a, s).
Definition st_bind {S A B} (c : state S A) (k : A → state S B) : state S B :=
  λ s, let '(a, s') := c s in k a s'.
Definition st_get {S} : state S S := λ s, (s, s).
Definition st_put {S} (s : S) : state S unit := λ _, (tt, s).
Definition st_modify {S} (f : S → S) : state S unit := λ s, (tt, f s).

Declare Scope state_scope.
Delimit Scope state_scope with state.
Notation "x <- c ;; k" := (st_bind c (λ x, k))
  (at level 100, c at next level, right associativity) : state_scope.
Notation "c ;; k" := (st_bind c (λ _, k))
  (at level 100, right associativity) : state_scope.

(** * The JavaScript [Map]

    Iteration follows insertion order; setting a present key keeps its place,
    deleting and setting again moves it to the end. *)

Record jmap (K V : Type) : Type := JMap { entries : list (K * V) }.
Arguments JMap {K V} _.
Arguments entries {K V} _.

Section jmap_ops.
Context {K V : Type} `{!EqDecision K}.

Fixpoint alist_get (k : K) (l : list (K * V)) : option V :=
  match l with
  | [] => None
  | (k', v) :: l => if decide (k' = k) then Some v else alist_get k l
  end.

Fixpoint alist_set (k : K) (v : V) (l : list (K * V)) : list (K * V) :=
  match l with
  | [] => [(k, v)]
  | (k', v') :: l =>
      if decide (k' = k) then (k', v) :: l else (k', v') :: alist_set k v l
  end.

Fixpoint alist_delete (k : K) (l : list (K * V)) : list (K * V) :=
  match l with
  | [] => []
  | (k', v') :: l =>
      if decide (k' = k) then alist_delete k l else (k', v') :: alist_delete k l
  end.

#[global] Instance jmap_empty : Empty (jmap K V) := JMap [].
#[global] Instance jmap_lookup : Lookup K V (jmap K V) := λ k m, alist_get k (entries m).
#[global] Instance jmap_insert : Insert K V (jmap K V) :=
  λ k v m, JMap (alist_set k v (entries m)).
#[global] Instance jmap_delete : Delete K (jmap K V) :=
  λ k m, JMap (alist_delete k (entries m)).

Definition jkeys (m : jmap K V) : list K := (entries m).*1.
Definition jvalues (m : jmap K V) : list V := (entries m).*2.
Definition jsize (m : jmap K V) : Z := Z.of_nat (length (entries m)).
Definition jhas (k : K) (m : jmap K V) : bool := bool_decide (is_Some (m !! k)).

(** Keys are unique: what [set] maintains. *)
Definition jwf (m : jmap K V) : Prop := NoDup (jkeys m).
End jmap_ops.

Section jmap_theory.
Context {K V : Type} `{!EqDecision K}.
Implicit Types (m : jmap K V) (k : K) (v : V) (l : list (K * V)).

Lemma alist_get_set k k' v l :
  alist_get k' (alist_set k v l) = if decide (k = k') then Some v else alist_get k' l.
Proof.
  induction l as [|[k0 v0] l IH]; simpl; [done|].
  repeat (case_decide; simplify_eq/=); done.
Qed.

Lemma alist_get_delete k k' l :
  alist_get k' (alist_delete k l) = if decide (k = k') then None else alist_get k' l.
Proof.
  induction l as [|[k0 v0] l IH]; simpl; [by case_decide|].
  repeat (case_decide; simplify_eq/=); done.
Qed.

Lemma jlookup_insert k k' v m :
  <[k:=v]> m !! k' = if decide (k = k') then Some v else m !! k'.
Proof. apply alist_get_set. Qed.
Lemma jlookup_insert_eq k v m : <[k:=v]> m !! k = Some v.
Proof. rewrite jlookup_insert. by case_decide. Qed.
Lemma jlookup_insert_ne k k' v m : k ≠ k' → <[k:=v]> m !! k' = m !! k'.
Proof. intros. rewrite jlookup_insert. by case_decide. Qed.

Lemma jlookup_delete k k' m :
  delete k m !! k' = if decide (k = k') then None else m !! k'.
Proof. apply alist_get_delete. Qed.
Lemma jlookup_delete_eq k m : delete k m !! k = None.
Proof. rewrite jlookup_delete. by case_decide. Qed.
Lemma jlookup_delete_ne k k' m : k ≠ k' → delete k m !! k' = m !! k'.
Proof. intros. rewrite jlookup_delete. by case_decide. Qed.
Lemma jlookup_empty k : (∅ : jmap K V) !! k = None.
Proof. done. Qed.

Lemma alist_get_In k v l : alist_get k l = Some v → (k, v) ∈ l.
Proof.
  induction l as [|[k0 v0] l IH]; simpl; [done|].
  rewrite elem_of_cons. destruct (decide (k0 = k)); intros; simplify_eq; auto.
Qed.

Lemma alist_In_get k v l : NoDup l.*1 → (k, v) ∈ l → alist_get k l = Some v.
Proof.
  induction l as [|[k0 v0] l IH]; csimpl; [by rewrite elem_of_nil; naive_solver|].
  intros [Hnin Hnd]%NoDup_cons [?|Hin]%elem_of_cons; simplify_eq.
  - by case_decide.
  - case_decide as Hk; [|by apply IH]. subst. destruct Hnin.
    apply list_elem_of_fmap. by exists (k, v).
Qed.

Lemma alist_get_None k l : alist_get k l = None ↔ k ∉ l.*1.
Proof.
  induction l as [|[k0 v0] l IH]; csimpl; [by rewrite elem_of_nil; naive_solver|].
  rewrite elem_of_cons. destruct (decide (k0 = k)); naive_solver.
Qed.

Lemma jelem_of_entries k v m : jwf m → (k, v) ∈ entries m ↔ m !! k = Some v.
Proof. split; [by apply alist_In_get | by apply alist_get_In]. Qed.

Lemma jlookup_None k m : m !! k = None ↔ k ∉ jkeys m.
Proof. apply alist_get_None. Qed.

Lemma jelem_of_keys k m : k ∈ jkeys m ↔ is_Some (m !! k).
Proof.
  rewrite <-not_eq_None_Some, jlookup_None.
  destruct (decide (k ∈ jkeys m)); naive_solver.
Qed.

Lemma alist_set_keys k v l :
  (alist_set k v l).*1 = if decide (k ∈ l.*1) then l.*1 else l.*1 ++ [k].
Proof.
  induction l as [|[k0 v0] l IH]; simpl; [done|].
  destruct (decide (k0 = k)) as [->|Hk]; csimpl.
  - by rewrite decide_True by (apply elem_of_cons; by left).
  - rewrite IH. pose proof (elem_of_cons l.*1 k k0) as Hc.
    destruct (decide (k ∈ l.*1)), (decide (k ∈ k0 :: l.*1)); naive_solver.
Qed.

Lemma alist_delete_keys_sub k k' l : k' ∈ (alist_delete k l).*1 → k' ∈ l.*1 ∧ k' ≠ k.
Proof.
  induction l as [|[k0 v0] l IH]; csimpl; [by rewrite elem_of_nil; naive_solver|].
  rewrite elem_of_cons. destruct (decide (k0 = k)); csimpl; rewrite ?elem_of_cons; naive_solver.
Qed.

Lemma jwf_empty : jwf (∅ : jmap K V).
Proof. constructor. Qed.

Lemma jwf_insert k v m : jwf m → jwf (<[k:=v]> m).
Proof.
  unfold jwf, jkeys. simpl. rewrite alist_set_keys. case_decide; [done|].
  intros. apply NoDup_app; repeat split; [done| |apply NoDup_singleton].
  intros x Hx ->%list_elem_of_singleton. done.
Qed.

Lemma jwf_delete k m : jwf m → jwf (delete k m).
Proof.
  unfold jwf, jkeys. simpl. induction (entries m) as [|[k0 v0] l IH]; simpl; [done|].
  intros [Hnin Hnd]%NoDup_cons. case_decide; [by apply IH|]. simpl.
  apply NoDup_cons. split; [|by apply IH]. intros Hin%alist_delete_keys_sub. naive_solver.
Qed.

Lemma jsize_keys m : jsize m = Z.of_nat (length (jkeys m)).
Proof. unfold jsize, jkeys. by rewrite length_fmap. Qed.

Lemma jsize_insert k v m :
  jsize (<[k:=v]> m) = if decide (is_Some (m !! k)) then jsize m else (jsize m + 1)%Z.
Proof.
  rewrite !jsize_keys. unfold jkeys at 1. simpl. rewrite alist_set_keys.
  pose proof (jelem_of_keys k m) as Hk. unfold jkeys in *.
  destruct (decide (is_Some (m !! k))) as [H|H], (decide (k ∈ (entries m).*1)); try tauto.
  rewrite length_app. simpl. lia.
Qed.

Lemma alist_delete_notin k l : k ∉ l.*1 → alist_delete k l = l.
Proof.
  induction l as [|[k0 v0] l IH]; csimpl; [done|]. rewrite not_elem_of_cons.
  intros [Hk Hl]. rewrite decide_False by done. f_equal. by apply IH.
Qed.

Lemma alist_delete_length k v l :
  NoDup l.*1 → alist_get k l = Some v → length l = S (length (alist_delete k l)).
Proof.
  induction l as [|[k0 v0] l IH]; csimpl; [done|]. intros [Hnin Hnd]%NoDup_cons.
  destruct (decide (k0 = k)) as [->|Hne]; simpl; intros Hg.
  - by rewrite alist_delete_notin.
  - f_equal. by apply IH.
Qed.

Lemma jinsert_insert k v v' m : <[k:=v]> (<[k:=v']> m) = <[k:=v]> m.
Proof.
  unfold insert, jmap_insert. simpl. f_equal. induction (entries m) as [|[k0 v0] l IH]; simpl.
  - by rewrite decide_True.
  - destruct (decide (k0 = k)) as [->|Hne]; simpl; [by rewrite decide_True|].
    rewrite decide_False by done. by rewrite IH.
Qed.

Lemma jdelete_absent k m : m !! k = None → delete k m = m.
Proof.
  intros Hn%jlookup_None. destruct m as [l]. unfold delete, jmap_delete. simpl.
  f_equal. by apply alist_delete_notin.
Qed.

Lemma jsize_delete k m :
  jwf m →
  jsize (delete k m) = if decide (is_Some (m !! k)) then (jsize m - 1)%Z else jsize m.
Proof.
  intros Hwf. destruct (decide (is_Some (m !! k))) as [[v Hv]|Hn].
  - unfold jsize. simpl. rewrite (alist_delete_length k v (entries m)) by done. lia.
  - rewrite jdelete_absent; [done|]. by apply eq_None_not_Some.
Qed.

Lemma jsize_delete_le k m : (jsize (delete k m) <= jsize m)%Z.
Proof.
  unfold jsize. simpl. induction (entries m) as [|[k0 v0] l IH]; simpl; [lia|].
  destruct (decide _); simpl; lia.
Qed.

Lemma jsize_delete_lt k v m : m !! k = Some v → (jsize (delete k m) < jsize m)%Z.
Proof.
  unfold jsize, lookup, jmap_lookup. simpl.
  induction (entries m) as [|[k0 v0] l IH]; simpl; [done|]. destruct (decide (k0 = k)) as [->|].
  - intros _. pose proof (jsize_delete_le k (JMap l)) as Hle. unfold jsize in Hle. simpl in Hle. lia.
  - simpl. intros Hv. specialize (IH Hv). lia.
Qed.

Lemma jhas_spec k m : jhas k m = true ↔ is_Some (m !! k).
Proof. apply bool_decide_eq_true. Qed.

Lemma jkeys_insert_present k v m : is_Some (m !! k) → jkeys (<[k:=v]> m) = jkeys m.
Proof. rewrite <-jelem_of_keys. unfold jkeys. simpl. rewrite alist_set_keys. by intros ?; rewrite decide_True. Qed.

Lemma jkeys_insert_absent k v m : m !! k = None → jkeys (<[k:=v]> m) = jkeys m ++ [k].
Proof. rewrite jlookup_None. unfold jkeys. simpl. rewrite alist_set_keys. by intros ?; rewrite decide_False. Qed.

Lemma jkeys_nil m : jkeys m = [] → m = JMap [].
Proof. destruct m as [[|[k v] l]]; [done|]. discriminate. Qed.

Lemma jkeys_delete k m : jkeys (delete k m) = filter (.≠ k) (jkeys m).
Proof.
  unfold jkeys. simpl. induction (entries m) as [|[k0 v0] l IH]; csimpl; [done|].
  rewrite filter_cons. destruct (decide (k0 = k)) as [->|Hne].
  - by rewrite decide_False by (intros ?; done).
  - rewrite decide_True by done. csimpl. by rewrite IH.
Qed.
End jmap_theory.

#[global] Instance jmap_eq_dec {K V} `{!EqDecision K, !EqDecision V} : EqDecision (jmap K V).
Proof. solve_decision. Defined.

Create HintDb jmap.
Create Rewrite HintDb jmap.
#[export] Hint Resolve jwf_empty jwf_insert jwf_delete : jmap.
#[export] Hint Rewrite @jlookup_insert_eq @jlookup_delete_eq @jlookup_empty : jmap.
#[export] Hint Rewrite @jlookup_insert_ne @jlookup_delete_ne using congruence : jmap.

(** Rewrites map reads and splits on the key comparisons that remain. *)
Ltac jmap_simpl :=
  repeat (autorewrite with jmap in *; simplify_eq/=).
Ltac jmap_cases :=
  repeat (rewrite ?jlookup_insert, ?jlookup_delete in *;
          repeat case_decide; simplify_eq/=).
