(* ===== verification/Rationals.v ===== *)
(** Rationals: the minima and maxima of [Math.min] and [Math.max] on canonical rationals. *)

From Stdlib Require Export QArith.Qcanon Field.
From S2P Require Import Prelude.
Open Scope Z_scope.

Definition Qc_min (x y : Qc) : Qc := if bool_decide (x <= y)%Qc then x else y.
Definition Qc_max (x y : Qc) : Qc := if bool_decide (x <= y)%Qc then y else x.

Lemma Qc_min_lt (x y z : Qc) : (z < Qc_min x y)%Qc ↔ (z < x)%Qc ∧ (z < y)%Qc.
Proof.
  unfold Qc_min. destruct (bool_decide _) eqn:E; prop_bools.
  - split; [|tauto]. intros Hz. split; [done|]. by eapply Qclt_le_trans.
  - apply Qcnot_le_lt in E. split; [|tauto]. intros Hz. split; [|done]. by eapply Qclt_trans.
Qed.

Lemma Qc_max_lt (x y z : Qc) : (Qc_max x y < z)%Qc ↔ (x < z)%Qc ∧ (y < z)%Qc.
Proof.
  unfold Qc_max. destruct (bool_decide _) eqn:E; prop_bools.
  - split; [|tauto]. intros Hz. split; [|done]. by eapply Qcle_lt_trans.
  - apply Qcnot_le_lt in E. split; [|tauto]. intros Hz. split; [done|]. by eapply Qclt_trans.
Qed.

Lemma Qc_min_le_l x y : (Qc_min x y <= x)%Qc.
Proof.
  unfold Qc_min. destruct (bool_decide _) eqn:E; prop_bools; [apply Qcle_refl|].
  by apply Qclt_le_weak, Qcnot_le_lt.
Qed.

Lemma Qc_min_le_r x y : (Qc_min x y <= y)%Qc.
Proof. unfold Qc_min. destruct (bool_decide _) eqn:E; prop_bools; [done|apply Qcle_refl]. Qed.

Lemma Qc_min_cases x y : Qc_min x y = x ∨ Qc_min x y = y.
Proof. unfold Qc_min. destruct (bool_decide _); auto. Qed.

Lemma Qc_min_glb x y z : (z <= x)%Qc → (z <= y)%Qc → (z <= Qc_min x y)%Qc.
Proof. by destruct (Qc_min_cases x y) as [-> | ->]. Qed.

(** The running minimum of a list *)
Lemma foldl_min_spec {A} (f : A → Qc) (l : list A) (m : Qc) :
  let r := foldl (λ m a, Qc_min m (f a)) m l in
  (r <= m)%Qc ∧ (∀ a, a ∈ l → (r <= f a)%Qc) ∧ (r = m ∨ ∃ a, a ∈ l ∧ r = f a).
Proof.
  cbv zeta. revert m. induction l as [|a l IH]; intros m; cbn [foldl].
  { split; [apply Qcle_refl|]. split; [by intros a Ha%elem_of_nil|by left]. }
  destruct (IH (Qc_min m (f a))) as (Hm & Hl & Hor).
  split; [eapply Qcle_trans; [done|apply Qc_min_le_l]|]. split.
  - intros b [->|Hb]%elem_of_cons; [eapply Qcle_trans; [done|apply Qc_min_le_r]|auto].
  - destruct Hor as [Hr|(b & Hb & Hr)]; [|right; exists b; split; [by right|done]].
    destruct (Qc_min_cases m (f a)) as [Hc|Hc]; [left; congruence|].
    right. exists a. split; [by left|congruence].
Qed.

Lemma Qc_max_le_l x y : (x <= Qc_max x y)%Qc.
Proof. unfold Qc_max. destruct (bool_decide _) eqn:E; prop_bools; [done|apply Qcle_refl]. Qed.

Lemma Qc_max_le_r x y : (y <= Qc_max x y)%Qc.
Proof.
  unfold Qc_max. destruct (bool_decide _) eqn:E; prop_bools; [apply Qcle_refl|].
  by apply Qclt_le_weak, Qcnot_le_lt.
Qed.

Lemma Qc_max_cases x y : Qc_max x y = x ∨ Qc_max x y = y.
Proof. unfold Qc_max. destruct (bool_decide _); auto. Qed.

(** The running maximum of a list *)
Lemma foldl_max_spec {A} (f : A → Qc) (l : list A) (m : Qc) :
  let r := foldl (λ m a, Qc_max m (f a)) m l in
  (m <= r)%Qc ∧ (∀ a, a ∈ l → (f a <= r)%Qc) ∧ (r = m ∨ ∃ a, a ∈ l ∧ r = f a).
Proof.
  cbv zeta. revert m. induction l as [|a l IH]; intros m; cbn [foldl].
  { split; [apply Qcle_refl|]. split; [by intros a Ha%elem_of_nil|by left]. }
  destruct (IH (Qc_max m (f a))) as (Hm & Hl & Hor).
  split; [eapply Qcle_trans; [apply Qc_max_le_l|done]|]. split.
  - intros b [->|Hb]%elem_of_cons; [eapply Qcle_trans; [apply Qc_max_le_r|done]|auto].
  - destruct Hor as [Hr|(b & Hb & Hr)]; [|right; exists b; split; [by right|done]].
    destruct (Qc_max_cases m (f a)) as [Hc|Hc]; [left; congruence|].
    right. exists a. split; [by left|congruence].
Qed.

(** Over a list that is not empty, starting from its head *)
Lemma foldl_min_head {A} (f : A → Qc) a (l : list A) :
  let r := foldl (λ m a, Qc_min m (f a)) (f a) l in
  (∀ b, b ∈ a :: l → (r <= f b)%Qc) ∧ ∃ b, b ∈ a :: l ∧ r = f b.
Proof.
  cbv zeta. destruct (foldl_min_spec f l (f a)) as (Hm & Hl & Hor). split.
  - intros b [->|Hb]%elem_of_cons; auto.
  - destruct Hor as [Hr|(b & Hb & Hr)]; [exists a; split; [by left|done]|].
    exists b. split; [by right|done].
Qed.

Lemma foldl_max_head {A} (f : A → Qc) a (l : list A) :
  let r := foldl (λ m a, Qc_max m (f a)) (f a) l in
  (∀ b, b ∈ a :: l → (f b <= r)%Qc) ∧ ∃ b, b ∈ a :: l ∧ r = f b.
Proof.
  cbv zeta. destruct (foldl_max_spec f l (f a)) as (Hm & Hl & Hor). split.
  - intros b [->|Hb]%elem_of_cons; auto.
  - destruct Hor as [Hr|(b & Hb & Hr)]; [exists a; split; [by left|done]|].
    exists b. split; [by right|done].
Qed.

Lemma Qc_sub_le_anti (c x y : Qc) : (x <= y)%Qc → (c - y <= c - x)%Qc.
Proof.
  intros Hxy. unfold Qcminus. apply Qcplus_le_mono_l. by apply Qcopp_le_compat.
Qed.

Lemma Qc_sub_swap (c x y : Qc) : (c - y <= x)%Qc → (c - x <= y)%Qc.
Proof.
  intros Hle. apply (Qc_sub_le_anti c) in Hle. by replace (c - (c - y))%Qc with y in Hle by ring.
Qed.
