(* ===== verification/Models.v ===== *)
(** Model families, provider names and the shared time constants:
    [packages/core/src/model-mappings.ts], [packages/types/src/provider-config.ts],
    [packages/core/src/constants.ts]. *)

From S2P Require Import Prelude.
Open Scope Z_scope.

(** * Model families *)

Inductive ModelFamily : Type := Opus | Sonnet | Haiku | Fable.

#[export] Instance ModelFamily_eq_dec : EqDecision ModelFamily.
Proof. solve_decision. Defined.

(** The string a family is in the code. *)
Definition family_name (f : ModelFamily) : string :=
  match f with
  | Opus => "opus" | Sonnet => "sonnet" | Haiku => "haiku" | Fable => "fable"
  end.

#[export] Instance family_name_inj : Inj (=) (=) family_name.
Proof. by intros [] []. Qed.

Definition KNOWN_PATTERNS : list ModelFamily := [Opus; Haiku; Sonnet; Fable].

Definition getModelFamily (modelId : string) : option ModelFamily :=
  let normalized := toLowerCase modelId in
  if includes normalized "mythos" then Some Fable
  else List.find (λ p, includes normalized (family_name p)) KNOWN_PATTERNS.

Definition FAMILY_PRIORITY : list ModelFamily := [Fable; Opus; Sonnet; Haiku].

Definition PROTECTED_FAMILY : ModelFamily := default Fable (FAMILY_PRIORITY !! 0%nat).

Definition isProtectedFamily (family : option ModelFamily) : bool :=
  bool_decide (family = Some PROTECTED_FAMILY).

(** [model ? getModelFamily(model) : null] *)
Definition familyOf (model : option string) : option ModelFamily :=
  truthy_string model ≫= getModelFamily.

(** * Providers *)

Definition isOfficialAnthropicProvider (provider : string) : bool :=
  bool_decide (provider = "anthropic"%string)
  || bool_decide (provider = "claude-oauth"%string)
  || bool_decide (provider = "claude-console-api"%string).

(** * Time constants, in milliseconds *)

Definition PROXY_REQUEST_TIMEOUT_MS : Z := 30 * 60 * 1000.
Definition STREAM_FORWARD_TOTAL_TIMEOUT_MS : Z := 30 * 60 * 1000.
Definition RATE_LIMIT_BACKOFF_BASE_MS : Z := 30 * 1000.
Definition RATE_LIMIT_BACKOFF_MAX_MS : Z := 5 * 60 * 1000.
Definition RATE_LIMIT_RESET_STABILITY_MS : Z := 5 * 60 * 1000.

Definition computeRateLimitBackoffMs (consecutiveCount : Z) : Z :=
  let n := Z.max 1 consecutiveCount in
  let exp := Z.min (n - 1) 30 in
  Z.min (RATE_LIMIT_BACKOFF_BASE_MS * 2 ^ exp) RATE_LIMIT_BACKOFF_MAX_MS.

Definition getRateLimitResetStabilityMs : Z := RATE_LIMIT_RESET_STABILITY_MS.

Example getModelFamily_mythos : getModelFamily "Claude-Mythos-5" = Some Fable.
Proof. reflexivity. Qed.
Example getModelFamily_haiku : getModelFamily "claude-haiku-4-5" = Some Haiku.
Proof. reflexivity. Qed.
Example getModelFamily_gpt : getModelFamily "gpt-5.6" = None.
Proof. reflexivity. Qed.

(** The ramp of the exponential backoff is monotone and stays in its band. *)
Lemma computeRateLimitBackoffMs_bounds n :
  RATE_LIMIT_BACKOFF_BASE_MS <= computeRateLimitBackoffMs n <= RATE_LIMIT_BACKOFF_MAX_MS.
Proof.
  unfold computeRateLimitBackoffMs. split; [|lia].
  assert (1 <= 2 ^ Z.min (Z.max 1 n - 1) 30) by (apply (Z.pow_le_mono_r 2 0); lia).
  unfold RATE_LIMIT_BACKOFF_BASE_MS, RATE_LIMIT_BACKOFF_MAX_MS. lia.
Qed.

Lemma computeRateLimitBackoffMs_mono n m :
  n <= m -> computeRateLimitBackoffMs n <= computeRateLimitBackoffMs m.
Proof.
  intros. unfold computeRateLimitBackoffMs.
  assert (2 ^ Z.min (Z.max 1 n - 1) 30 <= 2 ^ Z.min (Z.max 1 m - 1) 30)
    by (apply Z.pow_le_mono_r; lia).
  unfold RATE_LIMIT_BACKOFF_BASE_MS. lia.
Qed.
