(* ===== verification/Breaker.v ===== *)
(** The overload circuit breaker: [packages/proxy/src/provider-overload-cooldown.ts].

    Module-level state ([buckets] and the three counters) is the record [breaker].
    [Date.now()] is an argument [now] of every operation. A probe's [onDisplaced]
    callback is an opaque [canceller]; the operations return the cancellers they
    invoke, in order. Log lines are not modelled. *)

From S2P Require Import Prelude Models.
Open Scope Z_scope.

(** The identity of an [onDisplaced] callback. *)
Definition canceller := nat.

Definition DEFAULT_PROVIDER_OVERLOAD_COOLDOWN_MS : Z := 60000.
Definition MAX_PROVIDER_OVERLOAD_COOLDOWN_MS : Z := 5 * 60000.
Definition ANTHROPIC_UPSTREAM_OVERLOAD_KEY : string := "anthropic-upstream".
Definition PROBE_LEASE_SAFETY_MARGIN_MS : Z := 60000.
Definition PROBE_ADMISSION_TTL_MS : Z := DEFAULT_PROVIDER_OVERLOAD_COOLDOWN_MS.

Definition getProbeLeaseSafetyTtlMs : Z :=
  PROXY_REQUEST_TIMEOUT_MS + STREAM_FORWARD_TOTAL_TIMEOUT_MS
  + PROBE_LEASE_SAFETY_MARGIN_MS.

(** * State *)

Inductive OverloadBreakerState : Type := closed | open | half_open.

Record OverloadBreakerStatus := {
  status_state : OverloadBreakerState;
  status_until : option Z;
  status_probeActive : bool
}.

Record ProbeLease := {
  lease_key : string;
  lease_generation : Z;
  lease_leaseId : Z
}.

Record OverloadProbeToken := {
  token_probeId : string;
  token_acquiredAt : Z;
  token_leases : list ProbeLease
}.

Inductive ProbeAdmission : Type :=
  | AdmitProbe (token : option OverloadProbeToken)
  | RefusedOpen (until : Z)
  | RefusedProbeActive.

Inductive ProbeOutcome : Type := recovered | reopened | abandoned.

(** [OverloadBucket.probe] *)
Record Probe := {
  probe_leaseId : Z;
  probe_acquiredAt : Z;
  probe_ttlMs : Z;
  probe_admissionTtlMs : Z;
  probe_probeId : string;
  probe_onDisplaced : option canceller
}.

Record OverloadBucket := {
  until : Z;
  generation : Z;
  probe : option Probe
}.

Record breaker := {
  buckets : jmap string OverloadBucket;
  generationCounter : Z;
  leaseIdCounter : Z;
  probeIdCounter : Z
}.

Definition breaker_init : breaker :=
  {| buckets := ∅; generationCounter := 0; leaseIdCounter := 0; probeIdCounter := 0 |}.

Definition set_buckets (m : jmap string OverloadBucket) (st : breaker) : breaker :=
  {| buckets := m; generationCounter := generationCounter st;
     leaseIdCounter := leaseIdCounter st; probeIdCounter := probeIdCounter st |}.

#[export] Instance ProbeLease_eq_dec : EqDecision ProbeLease.
Proof. solve_decision. Defined.
#[export] Instance Probe_eq_dec : EqDecision Probe.
Proof. solve_decision. Defined.
#[export] Instance OverloadBucket_eq_dec : EqDecision OverloadBucket.
Proof. solve_decision. Defined.
#[export] Instance OverloadProbeToken_eq_dec : EqDecision OverloadProbeToken.
Proof. solve_decision. Defined.

(** * Keys *)

Inductive ResetSource : Type := hint | hint_capped | no_usable_reset_default.

Definition normalizeUntil (candidate : option Z) (now : Z) : Z * ResetSource :=
  match candidate with
  | Some c =>
      if negb (c =? 0) && (now <? c) then
        let capped := now + MAX_PROVIDER_OVERLOAD_COOLDOWN_MS in
        if capped <? c then (capped, hint_capped) else (c, hint)
      else (now + DEFAULT_PROVIDER_OVERLOAD_COOLDOWN_MS, no_usable_reset_default)
  | None => (now + DEFAULT_PROVIDER_OVERLOAD_COOLDOWN_MS, no_usable_reset_default)
  end.

Definition resolveOverloadAttributionModel (candidateModel logicalModel : option string)
    : option string :=
  match familyOf candidateModel with
  | Some _ => candidateModel
  | None => match logicalModel with Some m => Some m | None => candidateModel end
  end.

Definition getProviderOverloadKey (provider : string) : string :=
  if isOfficialAnthropicProvider provider then ANTHROPIC_UPSTREAM_OVERLOAD_KEY
  else provider.

Record OverloadKeyParts := {
  parts_providerKey : string;
  parts_family : option ModelFamily;
  parts_familyKey : option string
}.

Definition family_key (providerKey : string) (f : ModelFamily) : string :=
  providerKey +:+ ":" +:+ family_name f.

Definition resolveOverloadKeyParts (provider : string) (model : option string)
    : OverloadKeyParts :=
  let providerKey := getProviderOverloadKey provider in
  let family := familyOf model in
  {| parts_providerKey := providerKey;
     parts_family := family;
     parts_familyKey := family_key providerKey <$> family |}.

Definition bucketKey (provider : string) (model : option string) : string :=
  let p := resolveOverloadKeyParts provider model in
  default (parts_providerKey p) (parts_familyKey p).

(** [key === providerKey || key.startsWith(`${providerKey}:`)] *)
Definition of_provider (providerKey key : string) : bool :=
  bool_decide (key = providerKey) || startsWith key (providerKey +:+ ":").

Definition relevantKeys (st : breaker) (provider : string) (model : option string)
    : list string :=
  let p := resolveOverloadKeyParts provider model in
  match parts_familyKey p with
  | Some fk => [fk; parts_providerKey p]
  | None => filter (λ k, of_provider (parts_providerKey p) k = true) (jkeys (buckets st))
  end.

Definition isLeaseActive (b : OverloadBucket) (now : Z) : bool :=
  match probe b with
  | Some p => now - probe_acquiredAt p <? probe_ttlMs p
  | None => false
  end.

Definition isLeaseBlockingAdmission (b : OverloadBucket) (now : Z) : bool :=
  match probe b with
  | Some p => now - probe_acquiredAt p <? probe_admissionTtlMs p
  | None => false
  end.

(** * Tripping *)

(** Returns the effective deadline and the canceller fired, if any.
    [contextProbeId] is [context?.probeId]. *)
Definition applyProviderOverloadCooldown (provider : string) (resetTime : option Z)
    (model : option string) (contextProbeId : option string) (now : Z)
    : state breaker (Z * list canceller) := λ st,
  let key := bucketKey provider model in
  let '(cand, _) := normalizeUntil resetTime now in
  let bucket := buckets st !! key in
  let effectiveUntil :=
    match bucket with Some b => Z.max (until b) cand | None => cand end in
  let gen := generationCounter st + 1 in
  let displacedProbe := bucket ≫= probe in
  let cancelDisplaced :=
    match displacedProbe with
    | Some p =>
        if bool_decide (Some (probe_probeId p) ≠ contextProbeId)
        then option_list (probe_onDisplaced p) else []
    | None => []
    end in
  ((effectiveUntil, cancelDisplaced),
   {| buckets := <[key := {| until := effectiveUntil; generation := gen; probe := None |}]>
                   (buckets st);
      generationCounter := gen;
      leaseIdCounter := leaseIdCounter st;
      probeIdCounter := probeIdCounter st |}).

(** * Inspection *)

Definition lookup_bucket (st : breaker) (key : string) : option OverloadBucket :=
  buckets st !! key.

(** One turn of the maximum loop. *)
Definition max_until (now : Z) (acc : option Z) (b : option OverloadBucket) : option Z :=
  match b with
  | Some b =>
      if (now <? until b) && match acc with None => true | Some m => m <? until b end
      then Some (until b) else acc
  | None => acc
  end.

Definition getProviderOverloadUntil (st : breaker) (provider : string) (now : Z)
    (model : option string) : option Z :=
  foldl (λ acc key, max_until now acc (lookup_bucket st key)) None
        (relevantKeys st provider model).

Definition getProviderWideOverloadUntil (st : breaker) (provider : string) (now : Z)
    : option Z :=
  match lookup_bucket st (getProviderOverloadKey provider) with
  | Some b => if now <? until b then Some (until b) else None
  | None => None
  end.

Definition isProviderOverloaded (st : breaker) (provider : string) (now : Z)
    (model : option string) : bool :=
  bool_decide (is_Some (getProviderOverloadUntil st provider now model)).

(** The three accumulators of the loop of [inspectProviderOverload]. *)
Definition inspect_step (st : breaker) (now : Z) (acc : option Z * bool * bool)
    (key : string) : option Z * bool * bool :=
  let '(u, half, act) := acc in
  match lookup_bucket st key with
  | None => acc
  | Some b =>
      let act := act || isLeaseActive b now in
      if now <? until b then
        (if match u with None => true | Some m => m <? until b end
         then Some (until b) else u, half, act)
      else (u, true, act)
  end.

Definition inspectProviderOverload (st : breaker) (provider : string)
    (model : option string) (now : Z) : OverloadBreakerStatus :=
  let '(u, half, act) :=
    foldl (inspect_step st now) (None, false, false) (relevantKeys st provider model) in
  match u with
  | Some _ => {| status_state := open; status_until := u; status_probeActive := act |}
  | None =>
      if half
      then {| status_state := half_open; status_until := None; status_probeActive := act |}
      else {| status_state := closed; status_until := None; status_probeActive := false |}
  end.

Definition getOverloadHoldSlotKey (st : breaker) (provider : string)
    (model : option string) : string :=
  let p := resolveOverloadKeyParts provider model in
  match parts_familyKey p with
  | None => parts_providerKey p
  | Some fk =>
      if jhas (parts_providerKey p) (buckets st) then parts_providerKey p
      else if jhas fk (buckets st) then fk else fk
  end.

(** * Probe admission *)

(** The first loop: [inl] on the early return, [inr] with [halfOpenKeys]. *)
Fixpoint collect_half_open (st : breaker) (now : Z) (keys : list string)
    (acc : list string) : ProbeAdmission + list string :=
  match keys with
  | [] => inr acc
  | key :: keys =>
      match lookup_bucket st key with
      | None => collect_half_open st now keys acc
      | Some b =>
          if isLeaseBlockingAdmission b now then inl RefusedProbeActive
          else collect_half_open st now keys (acc ++ [key])
      end
  end.

(** [Set.add] on the set of cancellers. *)
Definition set_add (c : canceller) (cs : list canceller) : list canceller :=
  if bool_decide (c ∈ cs) then cs else cs ++ [c].

(** The second loop: one lease per half-open bucket. *)
Fixpoint lease_buckets (now ttlMs : Z) (probeId : string) (onDisplaced : option canceller)
    (keys : list string) (leases : list ProbeLease) (cancels : list canceller)
    : state breaker (list ProbeLease * list canceller) := λ st,
  match keys with
  | [] => ((leases, cancels), st)
  | key :: keys =>
      match lookup_bucket st key with
      | None => lease_buckets now ttlMs probeId onDisplaced keys leases cancels st
      | Some b =>
          let cancels :=
            match probe b ≫= probe_onDisplaced with
            | Some c => set_add c cancels
            | None => cancels
            end in
          let leaseId := leaseIdCounter st + 1 in
          let p := {| probe_leaseId := leaseId; probe_acquiredAt := now;
                      probe_ttlMs := ttlMs; probe_admissionTtlMs := PROBE_ADMISSION_TTL_MS;
                      probe_probeId := probeId; probe_onDisplaced := onDisplaced |} in
          let b' := {| until := until b; generation := generation b; probe := Some p |} in
          let lease := {| lease_key := key; lease_generation := generation b;
                          lease_leaseId := leaseId |} in
          lease_buckets now ttlMs probeId onDisplaced keys (leases ++ [lease]) cancels
            {| buckets := <[key := b']> (buckets st);
               generationCounter := generationCounter st;
               leaseIdCounter := leaseId;
               probeIdCounter := probeIdCounter st |}
      end
  end.

(** [`p${n}`] *)
Definition probe_name (n : Z) : string := "p" +:+ pretty n.

Definition bump_probeId (st : breaker) : breaker :=
  {| buckets := buckets st; generationCounter := generationCounter st;
     leaseIdCounter := leaseIdCounter st; probeIdCounter := probeIdCounter st + 1 |}.

Definition tryAcquireProviderOverloadProbe (provider : string) (model : option string)
    (now : Z) (onDisplaced : option canceller)
    : state breaker (ProbeAdmission * list canceller) := λ st,
  let keys := relevantKeys st provider model in
  match getProviderOverloadUntil st provider now model with
  | Some openUntil => ((RefusedOpen openUntil, []), st)
  | None =>
      match collect_half_open st now keys [] with
      | inl refusal => ((refusal, []), st)
      | inr [] => ((AdmitProbe None, []), st)
      | inr halfOpenKeys =>
          let ttlMs := getProbeLeaseSafetyTtlMs in
          let st1 := bump_probeId st in
          let probeId := probe_name (probeIdCounter st1) in
          let '((leases, cancels), st2) :=
            lease_buckets now ttlMs probeId onDisplaced halfOpenKeys [] [] st1 in
          ((AdmitProbe (Some {| token_probeId := probeId; token_acquiredAt := now;
                              token_leases := leases |}), cancels), st2)
      end
  end.

(** * Probe completion *)

(** Does the lease still own its bucket? *)
Definition lease_live (m : jmap string OverloadBucket) (l : ProbeLease) : bool :=
  match m !! lease_key l with
  | Some b =>
      (generation b =? lease_generation l)
      && match probe b with Some p => probe_leaseId p =? lease_leaseId l | None => false end
  | None => false
  end.

(** One turn of the settle loop. *)
Definition settle_lease (outcome : ProbeOutcome) (m : jmap string OverloadBucket)
    (l : ProbeLease) : jmap string OverloadBucket :=
  if lease_live m l then
    match outcome, m !! lease_key l with
    | recovered, _ => delete (lease_key l) m
    | _, Some b =>
        <[lease_key l := {| until := until b; generation := generation b; probe := None |}]> m
    | _, None => m
    end
  else m.

Definition completeProviderOverloadProbe (token : option OverloadProbeToken)
    (outcome : ProbeOutcome) (st : breaker) : breaker :=
  match token with
  | None => st
  | Some t => set_buckets (foldl (settle_lease outcome) (buckets st) (token_leases t)) st
  end.

(** * Diagnostics and operator clear *)

Record DiagnosticLease := {
  diag_id : string; diag_ageMs : Z; diag_ttlMs : Z; diag_admissionTtlMs : Z;
  diag_active : bool; diag_blocksAdmission : bool
}.

Record OverloadDiagnosticBucket := {
  diag_key : string;
  diag_state : OverloadBreakerState;
  diag_until : option Z;
  diag_generation : Z;
  diag_lease : option DiagnosticLease
}.

Definition bucket_state (b : OverloadBucket) (now : Z) : OverloadBreakerState :=
  if now <? until b then open else half_open.
Definition bucket_until (b : OverloadBucket) (now : Z) : option Z :=
  if now <? until b then Some (until b) else None.

Definition getOverloadDiagnostics (st : breaker) (now : Z) : list OverloadDiagnosticBucket :=
  (λ '(key, b),
    {| diag_key := key; diag_state := bucket_state b now; diag_until := bucket_until b now;
       diag_generation := generation b;
       diag_lease :=
         (λ p, {| diag_id := probe_probeId p; diag_ageMs := now - probe_acquiredAt p;
                  diag_ttlMs := probe_ttlMs p; diag_admissionTtlMs := probe_admissionTtlMs p;
                  diag_active := isLeaseActive b now;
                  diag_blocksAdmission := isLeaseBlockingAdmission b now |}) <$> probe b |})
  <$> entries (buckets st).

Definition getOverloadBucketGeneration (st : breaker) (key : string) : option Z :=
  generation <$> buckets st !! key.

Definition clearProviderOverloadCooldown (provider : option string) (st : breaker) : breaker :=
  match truthy_string provider with
  | Some p =>
      let providerKey := getProviderOverloadKey p in
      set_buckets
        (foldl (λ m key, if of_provider providerKey key then delete key m else m)
               (buckets st) (jkeys (buckets st))) st
  | None => set_buckets ∅ st
  end.

Record OverloadBucketSnapshot := {
  snap_family : option string;
  snap_state : OverloadBreakerState;
  snap_until : option Z;
  snap_probeActive : bool
}.

Definition getProviderOverloadSnapshot (st : breaker) (provider : string) (now : Z)
    : list OverloadBucketSnapshot :=
  let providerKey := getProviderOverloadKey provider in
  omap (λ '(key, b),
    if negb (of_provider providerKey key) then None
    else Some
      {| snap_family :=
           if bool_decide (key = providerKey) then None
           else Some (slice_from (String.length providerKey + 1) key);
         snap_state := bucket_state b now;
         snap_until := bucket_until b now;
         snap_probeActive := isLeaseActive b now |})
  (entries (buckets st)).

(** * Executions

    The breaker together with every token it has handed out. Completion is only
    ever called with a token obtained from an admission. *)

Record world := { w_st : breaker; w_minted : list OverloadProbeToken }.

Definition world_init : world := {| w_st := breaker_init; w_minted := [] |}.

Inductive event : Type :=
  | ETrip (provider : string) (resetTime : option Z) (model contextProbeId : option string)
          (now : Z)
  | EAcquire (provider : string) (model : option string) (now : Z)
             (onDisplaced : option canceller)
  | EComplete (t : OverloadProbeToken) (outcome : ProbeOutcome)
  | EClear (provider : option string).

Definition minted_by (a : ProbeAdmission) : list OverloadProbeToken :=
  match a with AdmitProbe (Some t) => [t] | _ => [] end.

(** [step w e cs w']: event [e] fires the cancellers [cs]. *)
Inductive step (w : world) : event → list canceller → world → Prop :=
  | step_trip p r m ctx now u cs st' :
      applyProviderOverloadCooldown p r m ctx now (w_st w) = ((u, cs), st') →
      step w (ETrip p r m ctx now) cs {| w_st := st'; w_minted := w_minted w |}
  | step_acquire p m now od a cs st' :
      tryAcquireProviderOverloadProbe p m now od (w_st w) = ((a, cs), st') →
      step w (EAcquire p m now od) cs {| w_st := st'; w_minted := minted_by a ++ w_minted w |}
  | step_complete t o :
      t ∈ w_minted w →
      step w (EComplete t o) []
           {| w_st := completeProviderOverloadProbe (Some t) o (w_st w);
              w_minted := w_minted w |}
  | step_clear p :
      step w (EClear p) []
           {| w_st := clearProviderOverloadCooldown p (w_st w); w_minted := w_minted w |}.

(** [steps P]: a run all of whose events satisfy [P]. *)
Inductive steps (P : event → Prop) : world → world → Prop :=
  | steps_refl w : steps P w w
  | steps_snoc w w' w'' e cs : steps P w w' → P e → step w' e cs w'' → steps P w w''.

Definition reachable (w : world) : Prop := steps (λ _, True) world_init w.

(** The same run as a function, for concrete executions. *)
Definition exec (e : event) (w : world) : list canceller * world :=
  match e with
  | ETrip p r m ctx now =>
      let '((_, cs), st') := applyProviderOverloadCooldown p r m ctx now (w_st w) in
      (cs, {| w_st := st'; w_minted := w_minted w |})
  | EAcquire p m now od =>
      let '((a, cs), st') := tryAcquireProviderOverloadProbe p m now od (w_st w) in
      (cs, {| w_st := st'; w_minted := minted_by a ++ w_minted w |})
  | EComplete t o =>
      ([], {| w_st := completeProviderOverloadProbe (Some t) o (w_st w);
              w_minted := w_minted w |})
  | EClear p =>
      ([], {| w_st := clearProviderOverloadCooldown p (w_st w); w_minted := w_minted w |})
  end.

Definition enabled (e : event) (w : world) : bool :=
  match e with EComplete t _ => bool_decide (t ∈ w_minted w) | _ => true end.

Fixpoint exec_all (es : list event) (w : world) : option world :=
  match es with
  | [] => Some w
  | e :: es => if enabled e w then exec_all es (exec e w).2 else None
  end.

(** Events that leave the lease [t] holds on [key] alone: no trip of the bucket, no
    operator clear of its provider, no completion of [t], and no admission attempted
    at or after the admission deadline of a probe acquired at [since]. *)
Definition quiet (key : string) (t : OverloadProbeToken) (since : Z) (e : event) : Prop :=
  match e with
  | ETrip p _ m _ _ => bucketKey p m ≠ key
  | EAcquire _ _ now _ => now - since < PROBE_ADMISSION_TTL_MS
  | EComplete t' _ => t' ≠ t
  | EClear (Some p) => p ≠ "" ∧ of_provider (getProviderOverloadKey p) key = false
  | EClear None => False
  end.

(** The invariant of every execution: counters bound everything that was issued
    from them, and lease ids identify a lease of a token. *)
Record inv (w : world) : Prop := {
  inv_jwf : jwf (buckets (w_st w));
  inv_bucket k b :
    buckets (w_st w) !! k = Some b →
    generation b <= generationCounter (w_st w) ∧
    ∀ p, probe b = Some p → probe_leaseId p <= leaseIdCounter (w_st w);
  inv_lease t l :
    t ∈ w_minted w → l ∈ token_leases t →
    lease_generation l <= generationCounter (w_st w) ∧
    lease_leaseId l <= leaseIdCounter (w_st w);
  inv_unique t1 t2 l1 l2 :
    t1 ∈ w_minted w → t2 ∈ w_minted w → l1 ∈ token_leases t1 → l2 ∈ token_leases t2 →
    lease_leaseId l1 = lease_leaseId l2 → t1 = t2 ∧ l1 = l2
}.

(** The probe an admission at [now] with identity [pid] writes under [leaseId]. *)
Definition fresh_probe (now ttl : Z) (pid : string) (od : option canceller) (leaseId : Z)
    : Probe :=
  {| probe_leaseId := leaseId; probe_acquiredAt := now; probe_ttlMs := ttl;
     probe_admissionTtlMs := PROBE_ADMISSION_TTL_MS; probe_probeId := pid;
     probe_onDisplaced := od |}.

Definition lease_of (k : string) (b : OverloadBucket) (p : Probe) : ProbeLease :=
  {| lease_key := k; lease_generation := generation b; lease_leaseId := probe_leaseId p |}.

Definition with_probe (p : option Probe) (b : OverloadBucket) : OverloadBucket :=
  {| until := until b; generation := generation b; probe := p |}.

(** * Lemmas on the admission loops *)

Section lease_buckets.
Context (now ttl : Z) (pid : string) (od : option canceller).

Lemma lease_buckets_counters keys ls cs st ls' cs' st' :
  lease_buckets now ttl pid od keys ls cs st = ((ls', cs'), st') →
  generationCounter st' = generationCounter st ∧
  probeIdCounter st' = probeIdCounter st ∧
  leaseIdCounter st <= leaseIdCounter st'.
Proof.
  revert ls cs st. induction keys as [|k keys IH]; simpl; intros ls cs st H.
  - simplify_eq. lia.
  - unfold lookup_bucket in H. destruct (buckets st !! k); apply IH in H; simpl in H; lia.
Qed.

Lemma lease_buckets_other keys ls cs st ls' cs' st' k :
  lease_buckets now ttl pid od keys ls cs st = ((ls', cs'), st') →
  k ∉ keys → buckets st' !! k = buckets st !! k.
Proof.
  revert ls cs st. induction keys as [|k0 keys IH]; simpl; intros ls cs st H Hk.
  - by simplify_eq.
  - apply not_elem_of_cons in Hk as [Hne Hk]. unfold lookup_bucket in H.
    destruct (buckets st !! k0) eqn:E; apply IH in H; auto.
    rewrite H. simpl. by rewrite jlookup_insert_ne.
Qed.

Lemma lease_buckets_jwf keys ls cs st ls' cs' st' :
  lease_buckets now ttl pid od keys ls cs st = ((ls', cs'), st') →
  jwf (buckets st) → jwf (buckets st').
Proof.
  revert ls cs st. induction keys as [|k keys IH]; simpl; intros ls cs st H Hwf.
  - by simplify_eq.
  - unfold lookup_bucket in H. destruct (buckets st !! k); eapply IH; eauto with jmap.
Qed.

Lemma set_add_In c cs x : x ∈ set_add c cs ↔ x = c ∨ x ∈ cs.
Proof.
  unfold set_add. case_bool_decide; [naive_solver|].
  rewrite elem_of_app, list_elem_of_singleton. tauto.
Qed.

Lemma lease_buckets_acc keys ls cs st ls' cs' st' :
  lease_buckets now ttl pid od keys ls cs st = ((ls', cs'), st') →
  (∀ l, l ∈ ls → l ∈ ls') ∧ (∀ c, c ∈ cs → c ∈ cs').
Proof.
  revert ls cs st. induction keys as [|k keys IH]; simpl; intros ls cs st H.
  - by simplify_eq.
  - unfold lookup_bucket in H. destruct (buckets st !! k) as [b|]; [|by eapply IH].
    apply IH in H as [Hl Hc]. split; intros x Hx.
    + apply Hl, elem_of_app. by left.
    + apply Hc. destruct (probe b ≫= probe_onDisplaced); [|done].
      apply set_add_In. by right.
Qed.

(** Every leased bucket keeps its deadline and generation, holds a fresh probe
    named by a lease of the token, and the canceller it stored is fired. *)
Lemma lease_buckets_lookup keys ls cs st ls' cs' st' k b :
  lease_buckets now ttl pid od keys ls cs st = ((ls', cs'), st') →
  NoDup keys → k ∈ keys → buckets st !! k = Some b →
  (∃ i, leaseIdCounter st < i ∧
        buckets st' !! k = Some (with_probe (Some (fresh_probe now ttl pid od i)) b) ∧
        lease_of k b (fresh_probe now ttl pid od i) ∈ ls') ∧
  (∀ c, probe b ≫= probe_onDisplaced = Some c → c ∈ cs').
Proof.
  revert ls cs st. induction keys as [|k0 keys IH]; simpl; intros ls cs st H Hnd Hk Hb.
  { by apply elem_of_nil in Hk. }
  apply NoDup_cons in Hnd as [Hnin Hnd]. unfold lookup_bucket in H.
  destruct (decide (k0 = k)) as [->|Hne].
  - rewrite Hb in H. pose proof (lease_buckets_acc _ _ _ _ _ _ _ H) as [Hl Hc]. split.
    + exists (leaseIdCounter st + 1). split; [lia|]. split.
      * rewrite (lease_buckets_other _ _ _ _ _ _ _ _ H) by done. apply jlookup_insert_eq.
      * apply Hl, elem_of_app. right. apply list_elem_of_singleton. done.
    + intros c Hp. apply Hc. rewrite Hp. apply set_add_In. by left.
  - apply elem_of_cons in Hk as [?|Hk]; [done|].
    destruct (buckets st !! k0) as [b0|] eqn:E; [|by eapply IH].
    apply IH in H as [(i & Hi & H) Hc]; auto; [|simpl; by rewrite jlookup_insert_ne].
    simpl in Hi. split; [|done]. exists i. split; [lia|done].
Qed.

(** The new leases: fresh ids, all different, for leased keys and their generation. *)
Lemma lease_buckets_new keys ls cs st ls' cs' st' l :
  lease_buckets now ttl pid od keys ls cs st = ((ls', cs'), st') →
  l ∈ ls' → l ∈ ls ∨
  (leaseIdCounter st < lease_leaseId l <= leaseIdCounter st' ∧ lease_key l ∈ keys ∧
   ∃ b, buckets st !! lease_key l = Some b ∧ generation b = lease_generation l).
Proof.
  revert ls cs st. induction keys as [|k0 keys IH]; simpl; intros ls cs st H Hl.
  { simplify_eq. by left. }
  unfold lookup_bucket in H. destruct (buckets st !! k0) as [b0|] eqn:E.
  - pose proof (lease_buckets_counters _ _ _ _ _ _ _ H) as (_ & _ & Hc). simpl in Hc.
    apply IH in H as [[?|Hl']%elem_of_app|(Hi & Hk & b & Hb & Hg)]; auto.
    + apply list_elem_of_singleton in Hl' as ->. right. simpl.
      split; [lia|]. split; [by left|]. eauto.
    + simpl in *. right. split; [lia|]. split; [by right|].
      rewrite jlookup_insert in Hb. case_decide; simplify_eq; eauto.
  - apply IH in H as [?|(Hi & Hk & b)]; auto. right. split; [lia|].
    split; [by right|done].
Qed.

(** Each new lease owns its bucket when the loop ends. *)
Lemma lease_buckets_owned keys ls cs st ls' cs' st' l :
  lease_buckets now ttl pid od keys ls cs st = ((ls', cs'), st') →
  NoDup keys → l ∈ ls' → l ∈ ls ∨
  ∃ b, buckets st' !! lease_key l =
         Some (with_probe (Some (fresh_probe now ttl pid od (lease_leaseId l))) b).
Proof.
  revert ls cs st. induction keys as [|k0 keys IH]; simpl; intros ls cs st H Hnd Hl.
  { simplify_eq. by left. }
  apply NoDup_cons in Hnd as [Hnin Hnd]. unfold lookup_bucket in H.
  destruct (buckets st !! k0) as [b0|] eqn:E; [|by eapply IH].
  pose proof (lease_buckets_other _ _ _ _ _ _ _ k0 H Hnin) as Hk0.
  apply IH in H as [[?|Hl']%elem_of_app|H]; auto.
  apply list_elem_of_singleton in Hl' as ->. right. exists b0. simpl.
  rewrite Hk0. apply jlookup_insert_eq.
Qed.

Lemma lease_buckets_ids_NoDup keys ls cs st ls' cs' st' :
  lease_buckets now ttl pid od keys ls cs st = ((ls', cs'), st') →
  NoDup (lease_leaseId <$> ls) →
  (∀ l, l ∈ ls → lease_leaseId l <= leaseIdCounter st) →
  NoDup (lease_leaseId <$> ls').
Proof.
  revert ls cs st. induction keys as [|k0 keys IH]; simpl; intros ls cs st H Hnd Hle.
  { by simplify_eq. }
  unfold lookup_bucket in H. destruct (buckets st !! k0) as [b0|] eqn:E; [|by eapply IH].
  eapply IH; [exact H| |].
  - rewrite fmap_app. apply NoDup_app. split; [done|]. split; [|apply NoDup_singleton].
    intros i (l & -> & Hl)%list_elem_of_fmap Hi%list_elem_of_singleton.
    apply Hle in Hl. simpl in Hi. lia.
  - intros l [Hl|Hl]%elem_of_app.
    + apply Hle in Hl. simpl. lia.
    + apply list_elem_of_singleton in Hl as ->. simpl. lia.
Qed.
End lease_buckets.

(** A probe with identity [pid] acquired at [now] never equals one already stored:
    the reads of the first loop. *)
Lemma collect_half_open_spec st now keys acc :
  collect_half_open st now keys acc =
    if existsb (λ k, match lookup_bucket st k with
                     | Some b => isLeaseBlockingAdmission b now | None => false end) keys
    then inl RefusedProbeActive
    else inr (acc ++ filter (λ k, is_Some (lookup_bucket st k)) keys).
Proof.
  revert acc. induction keys as [|k keys IH]; intros acc; simpl; [by rewrite app_nil_r|].
  rewrite filter_cons. destruct (lookup_bucket st k) as [b|] eqn:E.
  - destruct (isLeaseBlockingAdmission b now); simpl; [done|].
    rewrite IH. destruct (existsb _ _); [done|].
    by rewrite <-app_assoc.
  - rewrite IH. done.
Qed.

Lemma family_key_ne pk f : family_key pk f ≠ pk.
Proof.
  apply string_app_cons_ne.
Qed.

Lemma relevantKeys_NoDup st p m : jwf (buckets st) → NoDup (relevantKeys st p m).
Proof.
  intros Hwf. unfold relevantKeys. simpl. destruct (familyOf m) as [f|]; simpl.
  - apply NoDup_cons. split; [|apply NoDup_singleton].
    intros H%list_elem_of_singleton. by apply family_key_ne in H.
  - apply NoDup_filter, Hwf.
Qed.

(** * The admission decision *)

Definition half_open_keys (st : breaker) (p : string) (m : option string) : list string :=
  filter (λ k, is_Some (lookup_bucket st k)) (relevantKeys st p m).

Definition some_blocking (st : breaker) (now : Z) (p : string) (m : option string) : bool :=
  existsb (λ k, match lookup_bucket st k with
                | Some b => isLeaseBlockingAdmission b now | None => false end)
          (relevantKeys st p m).

Definition token_of (now : Z) (st : breaker) (ls : list ProbeLease) : OverloadProbeToken :=
  {| token_probeId := probe_name (probeIdCounter st + 1); token_acquiredAt := now;
     token_leases := ls |}.

Inductive acquire_spec (st : breaker) (p : string) (m : option string) (now : Z)
    (od : option canceller) : ProbeAdmission → list canceller → breaker → Prop :=
  | acquire_open u :
      getProviderOverloadUntil st p now m = Some u →
      acquire_spec st p m now od (RefusedOpen u) [] st
  | acquire_probe_active :
      getProviderOverloadUntil st p now m = None → some_blocking st now p m = true →
      acquire_spec st p m now od RefusedProbeActive [] st
  | acquire_free :
      getProviderOverloadUntil st p now m = None → half_open_keys st p m = [] →
      acquire_spec st p m now od (AdmitProbe None) [] st
  | acquire_leased ls cs st' :
      getProviderOverloadUntil st p now m = None → some_blocking st now p m = false →
      half_open_keys st p m ≠ [] →
      lease_buckets now getProbeLeaseSafetyTtlMs (probe_name (probeIdCounter st + 1)) od
        (half_open_keys st p m) [] [] (bump_probeId st) = ((ls, cs), st') →
      acquire_spec st p m now od (AdmitProbe (Some (token_of now st ls))) cs st'.

Lemma acquire_inv st p m now od a cs st' :
  tryAcquireProviderOverloadProbe p m now od st = ((a, cs), st') →
  acquire_spec st p m now od a cs st'.
Proof.
  unfold tryAcquireProviderOverloadProbe.
  destruct (getProviderOverloadUntil _ _ _ _) as [u|] eqn:Eu; intros H.
  { simplify_eq. by apply acquire_open. }
  rewrite collect_half_open_spec in H. fold (some_blocking st now p m) in H.
  fold (half_open_keys st p m) in H.
  destruct (some_blocking st now p m) eqn:Eb.
  { simplify_eq. by apply acquire_probe_active. }
  simpl in H. destruct (half_open_keys st p m) as [|k ks] eqn:Ek.
  { simplify_eq. by apply acquire_free. }
  rewrite <-Ek in H.
  destruct (lease_buckets _ _ _ _ _ _ _ _) as [[ls cs'] st2] eqn:El.
  simplify_eq. apply acquire_leased; auto. by rewrite Ek.
Qed.

Lemma half_open_keys_elem st p m k :
  k ∈ half_open_keys st p m ↔ k ∈ relevantKeys st p m ∧ is_Some (buckets st !! k).
Proof. unfold half_open_keys, lookup_bucket. rewrite list_elem_of_filter. tauto. Qed.

Lemma half_open_keys_NoDup st p m : jwf (buckets st) → NoDup (half_open_keys st p m).
Proof. intros. by apply NoDup_filter, relevantKeys_NoDup. Qed.

Lemma max_until_fold st now keys acc :
  foldl (λ a key, max_until now a (lookup_bucket st key)) acc keys = None ↔
  acc = None ∧ ∀ k b, k ∈ keys → buckets st !! k = Some b → until b <= now.
Proof.
  revert acc. induction keys as [|k keys IH]; intros acc; simpl.
  - split; [|tauto]. intros ->. split; [done|]. by intros ? ? ?%elem_of_nil.
  - rewrite IH. unfold max_until, lookup_bucket. split.
    + intros [Ha Hk]. destruct (buckets st !! k) as [b|] eqn:E.
      * destruct (now <? until b) eqn:El; prop_bools.
        { destruct acc as [z|]; simpl in Ha; [destruct (z <? until b)|]; done. }
        split; [done|]. intros k' b' [->|Hin]%elem_of_cons Hb; simplify_eq; eauto.
      * split; [done|]. intros k' b' [->|Hin]%elem_of_cons Hb; simplify_eq; eauto.
    + intros [-> Hk]. split; [|intros; eapply Hk; eauto; by right].
      destruct (buckets st !! k) as [b|] eqn:E; [|done].
      specialize (Hk k b ltac:(by left) E).
      by destruct (now <? until b) eqn:El; prop_bools; [lia|].
Qed.

(** No deadline blocks the request exactly when every relevant bucket has lapsed. *)
Lemma getProviderOverloadUntil_None st p now m :
  getProviderOverloadUntil st p now m = None ↔
  ∀ k b, k ∈ relevantKeys st p m → buckets st !! k = Some b → until b <= now.
Proof. unfold getProviderOverloadUntil. rewrite max_until_fold. tauto. Qed.

Lemma max_until_fold_Some st now keys acc u :
  foldl (λ a key, max_until now a (lookup_bucket st key)) acc keys = Some u →
  acc = Some u ∨ ∃ k b, k ∈ keys ∧ buckets st !! k = Some b ∧ until b = u ∧ now < u.
Proof.
  revert acc. induction keys as [|k keys IH]; intros acc; simpl; [by left|].
  intros [H|(k' & b & Hin & Hb & Hu)]%IH; [|right; exists k', b; split; [by right|done]].
  unfold max_until, lookup_bucket in H. destruct (buckets st !! k) as [b|] eqn:E; [|by left].
  destruct (_ && _) eqn:Et; [|by left]. prop_bools. simplify_eq.
  right. exists k, b. split; [by left|done].
Qed.

Lemma max_until_fold_ge st now keys acc :
  (∀ a, acc = Some a → ∃ u, foldl (λ a key, max_until now a (lookup_bucket st key)) acc keys
                            = Some u ∧ a <= u) ∧
  (∀ k b, k ∈ keys → buckets st !! k = Some b → now < until b →
     ∃ u, foldl (λ a key, max_until now a (lookup_bucket st key)) acc keys = Some u ∧
          until b <= u).
Proof.
  revert acc. induction keys as [|k keys IH]; intros acc; simpl.
  { split; [intros a ->; exists a; split; [done|lia]|by intros ? ? ?%elem_of_nil]. }
  destruct (IH (max_until now acc (lookup_bucket st k))) as [IH1 IH2]. split.
  - intros a ->. unfold max_until, lookup_bucket in *.
    destruct (buckets st !! k) as [b|]; [|by eauto].
    destruct (_ && _) eqn:Et; [|by eauto]. prop_bools.
    destruct (IH1 _ eq_refl) as (u & -> & Hu). exists u. split; [done|lia].
  - intros k' b [->|Hin]%elem_of_cons Hb Hlt; [|by eauto].
    unfold max_until, lookup_bucket in IH1 |- *. rewrite Hb in IH1 |- *.
    destruct acc as [a|]; simpl in *.
    + destruct (a <? until b) eqn:Ea.
      * rewrite (proj2 (Z.ltb_lt _ _) Hlt) in *. simpl in *. eauto.
      * rewrite andb_false_r in *. prop_bools.
        destruct (IH1 _ eq_refl) as (u & -> & Hu). exists u. split; [done|lia].
    + rewrite (proj2 (Z.ltb_lt _ _) Hlt) in *. simpl in *. eauto.
Qed.

(** * Completion and clearing, one key at a time *)

Lemma settle_lookup o m l k :
  settle_lease o m l !! k =
    if lease_live m l && bool_decide (lease_key l = k)
    then match o with recovered => None | _ => with_probe None <$> m !! k end
    else m !! k.
Proof.
  unfold settle_lease. destruct (lease_live m l) eqn:El; simpl; [|done].
  assert (is_Some (m !! lease_key l)) as [b Hb].
  { unfold lease_live in El. destruct (m !! lease_key l); [eauto|done]. }
  case_bool_decide as Hk.
  - subst. rewrite Hb. destruct o; simpl; by rewrite ?jlookup_delete_eq, ?jlookup_insert_eq.
  - rewrite Hb. destruct o; by rewrite ?jlookup_delete_ne, ?jlookup_insert_ne.
Qed.

Lemma lease_live_ext m m' l :
  m !! lease_key l = m' !! lease_key l → lease_live m l = lease_live m' l.
Proof. unfold lease_live. by intros ->. Qed.

Lemma lease_live_inv m l :
  lease_live m l = true →
  ∃ b p, m !! lease_key l = Some b ∧ probe b = Some p ∧
         generation b = lease_generation l ∧ probe_leaseId p = lease_leaseId l.
Proof.
  unfold lease_live. destruct (m !! lease_key l) as [b|]; [|done].
  intros [Hg Hp]%andb_true_iff. prop_bools. destruct (probe b) as [p|] eqn:E; [|done].
  prop_bools. eauto 10.
Qed.

Lemma lease_live_settled m l o :
  (match o with recovered => None | _ => with_probe None <$> m !! lease_key l end)
    = m !! lease_key l → lease_live m l = false.
Proof.
  unfold lease_live. destruct (m !! lease_key l) as [b|]; [|done].
  destruct o; simpl; intros H; [done| |]; injection H as H; rewrite <-H; simpl;
    by rewrite andb_false_r.
Qed.

(** What a completion does to one bucket: nothing unless one of the token's leases
    still owns it. *)
Lemma settle_fold_lookup o ls m k :
  foldl (settle_lease o) m ls !! k = m !! k ∨
  ∃ l, l ∈ ls ∧ lease_key l = k ∧ lease_live m l = true ∧
       foldl (settle_lease o) m ls !! k =
         match o with recovered => None | _ => with_probe None <$> m !! k end.
Proof.
  revert m. induction ls as [|l ls IH]; intros m; simpl; [by left|].
  pose proof (settle_lookup o m l k) as Hl.
  destruct (lease_live m l && bool_decide (lease_key l = k)) eqn:E.
  - prop_bools. right. exists l. split; [by left|]. split; [done|]. split; [done|].
    destruct (IH (settle_lease o m l)) as [->|(l' & _ & Hk & Hlive & _)]; [done|].
    subst k. exfalso. apply lease_live_inv in Hlive as (b & p & Hb & Hp & _).
    rewrite <-Hk in Hl. rewrite Hb in Hl.
    destruct o; [done| |]; destruct (m !! lease_key l'); simplify_eq/=.
  - destruct (IH (settle_lease o m l)) as [->|(l' & Hin & Hk & Hlive & Hr)]; [by left|].
    right. exists l'. split; [by right|]. split; [done|].
    rewrite <-(lease_live_ext (settle_lease o m l)) by (by rewrite Hk).
    split; [done|]. rewrite Hr. by rewrite Hl.
Qed.

Lemma settle_fold_jwf o ls m : jwf m → jwf (foldl (settle_lease o) m ls).
Proof.
  revert m. induction ls as [|l ls IH]; intros m Hwf; simpl; [done|]. apply IH.
  unfold settle_lease. destruct (lease_live m l); [|done].
  destruct o, (m !! lease_key l); auto with jmap.
Qed.

Lemma clear_fold_lookup pk (ks : list string) (m : jmap string OverloadBucket) k :
  foldl (λ m key, if of_provider pk key then delete key m else m) m ks !! k =
    if of_provider pk k && bool_decide (k ∈ ks) then None else m !! k.
Proof.
  revert m. induction ks as [|k0 ks IH]; intros m; cbn [foldl].
  { case_bool_decide as Hn; [by apply elem_of_nil in Hn|by rewrite andb_false_r]. }
  rewrite IH. destruct (decide (k = k0)) as [->|Hne].
  - rewrite (bool_decide_eq_true_2 (k0 ∈ k0 :: ks)) by (by left). rewrite andb_true_r.
    destruct (of_provider pk k0); simpl; [|done].
    destruct (bool_decide _); [done|]. by rewrite jlookup_delete_eq.
  - assert (bool_decide (k ∈ k0 :: ks) = bool_decide (k ∈ ks)) as ->.
    { apply bool_decide_ext. rewrite elem_of_cons. naive_solver. }
    destruct (_ && _); [done|]. destruct (of_provider pk k0); [|done].
    by rewrite jlookup_delete_ne.
Qed.

Lemma clear_lookup p st k :
  buckets (clearProviderOverloadCooldown (Some p) st) !! k =
    if bool_decide (p = "") || of_provider (getProviderOverloadKey p) k
    then None else buckets st !! k.
Proof.
  unfold clearProviderOverloadCooldown. destruct p as [|c p]; [done|]. simpl.
  rewrite clear_fold_lookup. destruct (of_provider _ k); simpl; [|done].
  case_bool_decide as Hk; [done|]. by apply jlookup_None.
Qed.

Lemma clear_jwf p st : jwf (buckets st) → jwf (buckets (clearProviderOverloadCooldown p st)).
Proof.
  unfold clearProviderOverloadCooldown. destruct (truthy_string p); [|auto with jmap]. simpl.
  generalize (jkeys (buckets st)) as ks. intros ks. generalize (buckets st) as m.
  induction ks as [|k ks IH]; intros m Hwf; simpl; [done|]. apply IH.
  destruct (of_provider _ _); auto with jmap.
Qed.

(** Every event leaves a bucket alone, drops it, or rewrites it in one of three ways. *)
Inductive bucket_change (st st' : breaker)
    : option OverloadBucket → option OverloadBucket → Prop :=
  | change_none ob : bucket_change st st' ob ob
  | change_drop ob : bucket_change st st' ob None
  | change_trip ob u :
      generationCounter st' = generationCounter st + 1 →
      bucket_change st st' ob
        (Some {| until := u; generation := generationCounter st'; probe := None |})
  | change_release b : bucket_change st st' (Some b) (Some (with_probe None b))
  | change_lease b p :
      leaseIdCounter st < probe_leaseId p <= leaseIdCounter st' →
      bucket_change st st' (Some b) (Some (with_probe (Some p) b)).

Lemma with_probe_id b : with_probe (probe b) b = b.
Proof. by destruct b. Qed.

Lemma acquire_lookup st p m now od a cs st' k :
  jwf (buckets st) →
  acquire_spec st p m now od a cs st' →
  (buckets st' !! k = buckets st !! k ∧ (∀ t, a = AdmitProbe (Some t) → k ∉ half_open_keys st p m))
  ∨ ∃ b i ls, buckets st !! k = Some b ∧ a = AdmitProbe (Some (token_of now st ls)) ∧
       k ∈ half_open_keys st p m ∧ leaseIdCounter st < i ∧
       (let pr := fresh_probe now getProbeLeaseSafetyTtlMs
                    (probe_name (probeIdCounter st + 1)) od i in
        buckets st' !! k = Some (with_probe (Some pr) b) ∧ lease_of k b pr ∈ ls ∧
        (∀ c, probe b ≫= probe_onDisplaced = Some c → c ∈ cs)).
Proof.
  intros Hwf [u Hu|Hu Hb|Hu Hk|ls cs' st2 Hu Hb Hk Hl]; [by left|by left|by left|].
  destruct (decide (k ∈ half_open_keys st p m)) as [Hin|Hnin].
  - right. pose proof (proj1 (half_open_keys_elem _ _ _ _) Hin) as [_ [b Hb']].
    destruct (lease_buckets_lookup _ _ _ _ _ _ _ _ _ _ _ k b Hl) as [(i & Hi & Hst & Hls) Hc];
      auto using half_open_keys_NoDup.
    exists b, i, ls. auto 10.
  - left. split; [|done]. by rewrite (lease_buckets_other _ _ _ _ _ _ _ _ _ _ _ _ Hl).
Qed.

Lemma acquire_lease_new st p m now od ls cs st' l :
  acquire_spec st p m now od (AdmitProbe (Some (token_of now st ls))) cs st' → l ∈ ls →
  leaseIdCounter st < lease_leaseId l <= leaseIdCounter st' ∧
  lease_key l ∈ half_open_keys st p m ∧
  ∃ b, buckets st !! lease_key l = Some b ∧ generation b = lease_generation l.
Proof.
  inversion 1 as [| | |? ? ? ? ? ? Hl]; subst. intros Hin.
  eapply lease_buckets_new in Hl as [?%elem_of_nil|Hl]; [done|exact Hl|exact Hin].
Qed.

Lemma acquire_counters st p m now od a cs st' :
  acquire_spec st p m now od a cs st' →
  generationCounter st' = generationCounter st ∧ leaseIdCounter st <= leaseIdCounter st'.
Proof.
  destruct 1 as [| | |ls cs' st2 _ _ _ Hl]; try lia.
  apply lease_buckets_counters in Hl as (Hg & _ & Hc). simpl in *. lia.
Qed.

Lemma step_counters w e cs w' :
  step w e cs w' →
  generationCounter (w_st w) <= generationCounter (w_st w') ∧
  leaseIdCounter (w_st w) <= leaseIdCounter (w_st w').
Proof.
  destruct 1 as [p r m ctx now u cs st' H|p m now od a cs st' H|t o Ht|p]; simpl.
  - unfold applyProviderOverloadCooldown in H. destruct (normalizeUntil _ _).
    simplify_eq/=. lia.
  - apply acquire_inv, acquire_counters in H. lia.
  - unfold completeProviderOverloadProbe. simpl. lia.
  - unfold clearProviderOverloadCooldown. destruct (truthy_string p); simpl; lia.
Qed.

Lemma step_bucket w e cs w' k :
  inv w → step w e cs w' →
  bucket_change (w_st w) (w_st w') (buckets (w_st w) !! k) (buckets (w_st w') !! k).
Proof.
  intros Hinv. destruct 1 as [p r m ctx now u cs st' H|p m now od a cs st' H|t o Ht|p]; simpl.
  - unfold applyProviderOverloadCooldown in H. destruct (normalizeUntil _ _). simplify_eq/=.
    rewrite jlookup_insert. case_decide; [|constructor].
    by apply (change_trip _ {| generationCounter := _ + 1 |}).
  - apply acquire_inv in H. pose proof H as Hs.
    eapply acquire_lookup with (k := k) in H; [|apply Hinv].
    destruct H as [[-> _]|(b & i & ls & Hb & -> & _ & Hi & -> & Hls & _)]; [constructor|].
    eapply acquire_lease_new in Hs as [Hi' _]; [|exact Hls].
    rewrite Hb. by constructor.
  - unfold completeProviderOverloadProbe. simpl.
    destruct (settle_fold_lookup o (token_leases t) (buckets (w_st w)) k)
      as [->|(l & _ & _ & Hlive & ->)]; [constructor|].
    destruct o; [constructor| |]; destruct (_ !! k); constructor.
  - destruct p as [p|]; [|constructor]. rewrite clear_lookup.
    destruct (_ || _); constructor.
Qed.

Lemma step_jwf w e cs w' :
  jwf (buckets (w_st w)) → step w e cs w' → jwf (buckets (w_st w')).
Proof.
  intros Hwf. destruct 1 as [p r m ctx now u cs st' H|p m now od a cs st' H|t o Ht|p]; simpl.
  - unfold applyProviderOverloadCooldown in H. destruct (normalizeUntil _ _). simplify_eq/=.
    auto with jmap.
  - apply acquire_inv in H as [| | |ls cs' st2 _ _ _ Hl]; auto.
    by apply lease_buckets_jwf in Hl.
  - by apply settle_fold_jwf.
  - by apply clear_jwf.
Qed.

(** Each event mints at most one token, with fresh and distinct lease ids. *)
Lemma step_minted w e cs w' t :
  step w e cs w' → t ∈ w_minted w' → t ∈ w_minted w ∨
  (w_minted w' = t :: w_minted w ∧ NoDup (lease_leaseId <$> token_leases t) ∧
   ∀ l, l ∈ token_leases t →
     leaseIdCounter (w_st w) < lease_leaseId l <= leaseIdCounter (w_st w') ∧
     ∃ b, buckets (w_st w) !! lease_key l = Some b ∧ generation b = lease_generation l).
Proof.
  destruct 1 as [p r m ctx now u cs st' H|p m now od a cs st' H|t' o Ht|p]; simpl; auto.
  apply acquire_inv in H as Hs. intros [Hin|?]%elem_of_app; [|by left]. right.
  destruct Hs as [| | |ls cs' st2 Hu Hb Hk Hl]; simpl in Hin;
    [by apply elem_of_nil in Hin..|].
  apply list_elem_of_singleton in Hin as ->. split; [done|]. simpl. split.
  - eapply lease_buckets_ids_NoDup; [exact Hl|constructor|by intros ? ?%elem_of_nil].
  - intros l Hin. eapply acquire_lease_new in Hin as (Hi & _ & Hb'); [eauto|].
    by apply acquire_leased.
Qed.

Lemma inv_init : inv world_init.
Proof.
  split; simpl; [apply jwf_empty|done|by intros ? ? ?%elem_of_nil|].
  by intros ? ? ? ? ?%elem_of_nil.
Qed.

Lemma inv_step w e cs w' : inv w → step w e cs w' → inv w'.
Proof.
  intros Hinv Hstep. pose proof (step_counters _ _ _ _ Hstep) as [Hgc Hlc]. split.
  - eapply step_jwf; [apply Hinv|done].
  - intros k b Hb. pose proof (step_bucket _ _ _ _ k Hinv Hstep) as Hc. rewrite Hb in Hc.
    pose proof (inv_bucket _ Hinv k) as Hold.
    inversion Hc as [? He|?|? u Hg|b0 He|b0 p0 Hp He]; subst; simpl in *.
    + destruct (Hold b) as [? Hp]; [done|]. split; [lia|]. intros p ?%Hp. lia.
    + split; [lia|done].
    + destruct (Hold b0) as [? _]; [done|]. split; [lia|done].
    + destruct (Hold b0) as [? _]; [done|]. split; [lia|]. intros p ?. simplify_eq. lia.
  - intros t l Ht Hl. destruct (step_minted _ _ _ _ _ Hstep Ht) as [Hold|(_ & _ & Hnew)].
    + pose proof (inv_lease _ Hinv t l Hold Hl). lia.
    + destruct (Hnew l Hl) as (Hi & b & Hb & Hg).
      pose proof (inv_bucket _ Hinv _ _ Hb) as [? _]. lia.
  - intros t1 t2 l1 l2 Ht1 Ht2 Hl1 Hl2 Heq.
    destruct (step_minted _ _ _ _ _ Hstep Ht1) as [Ho1|(E1 & Hnd & Hn1)],
             (step_minted _ _ _ _ _ Hstep Ht2) as [Ho2|(E2 & _ & Hn2)].
    + by eapply inv_unique.
    + pose proof (inv_lease _ Hinv _ _ Ho1 Hl1). destruct (Hn2 _ Hl2). lia.
    + pose proof (inv_lease _ Hinv _ _ Ho2 Hl2). destruct (Hn1 _ Hl1). lia.
    + rewrite E1 in E2. simplify_eq. split; [done|].
      eapply NoDup_fmap_elem_inj; eauto.
Qed.

Lemma steps_inv P w w' : inv w → steps P w w' → inv w'.
Proof. induction 2; eauto using inv_step. Qed.

Lemma reachable_inv w : reachable w → inv w.
Proof. apply steps_inv, inv_init. Qed.

Lemma exec_step e w : enabled e w = true → step w e (exec e w).1 (exec e w).2.
Proof.
  destruct e; simpl; intros H.
  - destruct (applyProviderOverloadCooldown _ _ _ _ _ _) as [[u cs] st'] eqn:E.
    by econstructor.
  - destruct (tryAcquireProviderOverloadProbe _ _ _ _ _) as [[a cs] st'] eqn:E.
    by econstructor.
  - constructor. by apply bool_decide_eq_true in H.
  - constructor.
Qed.

Lemma steps_trans P w1 w2 w3 : steps P w1 w2 → steps P w2 w3 → steps P w1 w3.
Proof. induction 2; eauto using steps. Qed.

Lemma exec_all_steps P es w w' :
  Forall P es → exec_all es w = Some w' → steps P w w'.
Proof.
  intros HP. revert w. induction HP as [|e es He HP IH]; simpl; intros w H.
  { simplify_eq. constructor. }
  destruct (enabled e w) eqn:E; [|done].
  eapply steps_trans; [|by apply IH]. eapply steps_snoc; [constructor|done|].
  by apply exec_step.
Qed.

Lemma exec_all_reachable es w : exec_all es world_init = Some w → reachable w.
Proof. apply exec_all_steps. by apply Forall_true. Qed.

(** * Properties *)

(** A token owns a bucket while the bucket carries the probe of one of its leases, in the
    generation that the lease was taken in. *)
Definition owns (st : breaker) (t : OverloadProbeToken) (k : string) : Prop :=
  ∃ l b p, l ∈ token_leases t ∧ lease_key l = k ∧ buckets st !! k = Some b ∧ probe b = Some p ∧
           generation b = lease_generation l ∧ probe_leaseId p = lease_leaseId l.

Lemma lease_live_spec m l :
  lease_live m l = true ↔
  ∃ b p, m !! lease_key l = Some b ∧ probe b = Some p ∧
         generation b = lease_generation l ∧ probe_leaseId p = lease_leaseId l.
Proof.
  split; [apply lease_live_inv|]. intros (b & p & Hb & Hp & Hg & Hi).
  unfold lease_live. by rewrite Hb, Hp, Hg, Hi, !Z.eqb_refl.
Qed.

Lemma owns_live st t k :
  owns st t k ↔ ∃ l, l ∈ token_leases t ∧ lease_key l = k ∧ lease_live (buckets st) l = true.
Proof.
  unfold owns. setoid_rewrite lease_live_spec. split.
  - intros (l & b & p & Hl & <- & Hr). exists l. split; [done|]. split; [done|]. by exists b, p.
  - intros (l & Hl & <- & b & p & Hr). by exists l, b, p.
Qed.

(** No two tokens of an execution own a bucket. *)
Lemma owner_unique w t1 t2 k :
  inv w → t1 ∈ w_minted w → t2 ∈ w_minted w → owns (w_st w) t1 k → owns (w_st w) t2 k → t1 = t2.
Proof.
  intros Hw H1 H2 (l1 & b1 & p1 & Hl1 & _ & Hb1 & Hp1 & _ & Hi1) (l2 & b2 & p2 & Hl2 & _ & Hb2 & Hp2 & _ & Hi2).
  simplify_eq. by destruct (inv_unique w Hw t1 t2 l1 l2) as [-> _]; [..|congruence|].
Qed.

(** What a completion leaves of a bucket that the token owns *)
Definition settled (o : ProbeOutcome) (b : option OverloadBucket) : option OverloadBucket :=
  match o with recovered => None | reopened | abandoned => with_probe None <$> b end.

Lemma settled_stays o ls m k :
  (∀ l, lease_key l = k → lease_live m l = false) → foldl (settle_lease o) m ls !! k = m !! k.
Proof.
  intros Hn. destruct (settle_fold_lookup o ls m k) as [->|(l & _ & Hk & Hl & _)]; [done|].
  by rewrite (Hn l Hk) in Hl.
Qed.

Lemma settle_fold_owned o ls m k l :
  l ∈ ls → lease_key l = k → lease_live m l = true → foldl (settle_lease o) m ls !! k = settled o (m !! k).
Proof.
  revert m. induction ls as [|l0 ls IH]; intros m Hl Hk Hlive; [by apply elem_of_nil in Hl|]. cbn [foldl].
  pose proof (settle_lookup o m l0 k) as H0.
  destruct (lease_live m l0 && bool_decide (lease_key l0 = k)) eqn:E.
  - assert (settle_lease o m l0 !! k = settled o (m !! k)) as Hs by (rewrite H0; by destruct o).
    rewrite settled_stays; [done|]. intros l' Hk'.
    destruct (lease_live (settle_lease o m l0) l') eqn:El'; [|done]. exfalso.
    apply lease_live_inv in El' as (b & p & Hb & Hp & _). rewrite Hk', Hs in Hb.
    destruct o; simpl in Hb; [done| |]; destruct (m !! k); simplify_eq/=.
  - apply elem_of_cons in Hl as [->|Hl].
    { rewrite Hlive, (bool_decide_eq_true_2 _ Hk) in E. done. }
    rewrite <-H0. apply IH; [done|done|]. rewrite <-Hlive. apply lease_live_ext. by rewrite Hk.
Qed.

(** Completing settles exactly the buckets that the token owns. *)
Lemma complete_lookup st t o k :
  (owns st t k → buckets (completeProviderOverloadProbe (Some t) o st) !! k = settled o (buckets st !! k)) ∧
  (¬ owns st t k → buckets (completeProviderOverloadProbe (Some t) o st) !! k = buckets st !! k).
Proof.
  rewrite owns_live. cbn. split.
  - intros (l & Hl & Hk & Hlive). by eapply settle_fold_owned.
  - intros Hno. destruct (settle_fold_lookup o (token_leases t) (buckets st) k) as [->|(l & Hl & Hk & Hlive & _)]; [done|].
    destruct Hno. by exists l.
Qed.

(** After a bucket has been tripped, every bucket found under its key later is of a
    generation above the ones issued before. *)
Lemma trip_generation w p r m ctx now cs w1 w2 b :
  inv w → step w (ETrip p r m ctx now) cs w1 → steps (λ _, True) w1 w2 →
  buckets (w_st w2) !! bucketKey p m = Some b →
  generationCounter (w_st w) < generation b.
Proof.
  intros Hw Hs1 Hs.
  assert (inv w1) as Hw1 by (by eapply inv_step).
  assert (generationCounter (w_st w) < generationCounter (w_st w1) ∧
          ∀ b, buckets (w_st w1) !! bucketKey p m = Some b →
               generationCounter (w_st w) < generation b) as Hbase.
  { inversion Hs1 as [? ? ? ? ? u ? st' H| | |]; subst. simpl.
    unfold applyProviderOverloadCooldown in H. destruct (normalizeUntil _ _).
    simplify_eq/=. split; [lia|]. rewrite jlookup_insert_eq. intros ? ?. simplify_eq/=. lia. }
  clear Hs1. assert (generationCounter (w_st w) < generationCounter (w_st w2) ∧
          ∀ b, buckets (w_st w2) !! bucketKey p m = Some b →
               generationCounter (w_st w) < generation b) as [_ ?]; [|eauto].
  revert Hbase. induction Hs as [|w1 w2 w3 e cs' Hs IH _ Hstep]; [done|].
  intros Hbase. destruct (IH Hw1 Hbase) as [Hg Hb]. clear IH Hbase.
  pose proof (step_counters _ _ _ _ Hstep) as [Hg' _]. split; [lia|]. intros b' Hb'.
  pose proof (step_bucket _ _ _ _ (bucketKey p m) (steps_inv _ _ _ Hw1 Hs) Hstep) as Hc.
  rewrite Hb' in Hc. inversion Hc as [? He|?|? u Hgen|b0 He|b0 p0 Hp He]; subst; simpl; eauto.
  lia.
Qed.

(** completions of tokens issued before a trip are no-ops on the tripped bucket,
    for ever: whatever happens after the trip (clears, new trips, takeovers), no
    outcome of such a token changes or removes that bucket. *)
Theorem stale_token_noop w p r m ctx now cs w1 w2 t o :
  reachable w →
  step w (ETrip p r m ctx now) cs w1 →
  steps (λ _, True) w1 w2 →
  t ∈ w_minted w →
  buckets (completeProviderOverloadProbe (Some t) o (w_st w2)) !! bucketKey p m =
  buckets (w_st w2) !! bucketKey p m.
Proof.
  intros Hw%reachable_inv Hs Hss Ht. simpl.
  destruct (settle_fold_lookup o (token_leases t) (buckets (w_st w2)) (bucketKey p m))
    as [->|(l & Hl & Hk & Hlive & _)]; [done|exfalso].
  apply lease_live_inv in Hlive as (b & pr & Hb & _ & Hg & _). rewrite Hk in Hb.
  pose proof (trip_generation _ _ _ _ _ _ _ _ _ _ Hw Hs Hss Hb).
  pose proof (inv_lease _ Hw _ _ Ht Hl). lia.
Qed.

(** no probing attempt is orphaned. When an admission or a trip overwrites a
    bucket's stored probe, the canceller that probe carried is fired by that very
    event; the only exemption is a trip reported by the probe itself. *)
Theorem displaced_probe_cancelled w e cs w' k b pr c :
  reachable w → step w e cs w' →
  buckets (w_st w) !! k = Some b → probe b = Some pr → probe_onDisplaced pr = Some c →
  (∀ b', buckets (w_st w') !! k = Some b' → probe b' ≠ Some pr) →
  match e with
  | EAcquire _ _ _ _ => True
  | ETrip _ _ _ ctx _ => ctx ≠ Some (probe_probeId pr)
  | _ => False
  end → c ∈ cs.
Proof.
  intros Hw%reachable_inv Hs Hb Hp Hc Hgone He.
  destruct Hs as [p r m ctx now u cs st' H|p m now od a cs st' H|t o Ht|p]; try done.
  - unfold applyProviderOverloadCooldown in H. destruct (normalizeUntil _ _). simplify_eq/=.
    destruct (decide (bucketKey p m = k)) as [<-|Hne].
    + rewrite Hb. simpl. rewrite Hp. rewrite bool_decide_eq_true_2 by congruence.
      rewrite Hc. by left.
    + exfalso. apply (Hgone b); [by rewrite jlookup_insert_ne|done].
  - simpl in *. apply acquire_inv in H. eapply acquire_lookup with (k := k) in H; [|apply Hw].
    destruct H as [[Heq _]|(b0 & i & ls & Hb0 & _ & _ & _ & _ & _ & Hcs)].
    + exfalso. apply (Hgone b); [by rewrite Heq|done].
    + simplify_eq. apply Hcs. by rewrite Hp.
Qed.

(** a trip extends and never shortens its bucket's deadline, which always lies in
    the future and at most five minutes ahead unless an older deadline already lay
    further; no other bucket is touched. *)
Theorem trip_bounds p r m ctx now st u cs st' :
  applyProviderOverloadCooldown p r m ctx now st = ((u, cs), st') →
  buckets st' !! bucketKey p m =
    Some {| until := u; generation := generationCounter st + 1; probe := None |} ∧
  now < u ∧
  (∀ b, buckets st !! bucketKey p m = Some b →
     until b <= u ∧ u <= Z.max (until b) (now + MAX_PROVIDER_OVERLOAD_COOLDOWN_MS)) ∧
  (buckets st !! bucketKey p m = None → u <= now + MAX_PROVIDER_OVERLOAD_COOLDOWN_MS) ∧
  (∀ k, k ≠ bucketKey p m → buckets st' !! k = buckets st !! k).
Proof.
  unfold applyProviderOverloadCooldown.
  destruct (normalizeUntil r now) as [cand src] eqn:Hn. intros H. simplify_eq/=.
  assert (now < cand <= now + MAX_PROVIDER_OVERLOAD_COOLDOWN_MS) as Hcand.
  { unfold normalizeUntil, MAX_PROVIDER_OVERLOAD_COOLDOWN_MS,
      DEFAULT_PROVIDER_OVERLOAD_COOLDOWN_MS in *. repeat break_match_hyp; prop_bools; simplify_eq; lia. }
  split; [apply jlookup_insert_eq|].
  split; [destruct (buckets st !! bucketKey p m); lia|].
  split; [intros b ->; lia|]. split; [intros ->; lia|].
  intros k Hk. by rewrite jlookup_insert_ne.
Qed.

Definition blocking_at (st : breaker) (key : string) (now : Z) : Prop :=
  ∃ b, buckets st !! key = Some b ∧ isLeaseBlockingAdmission b now = true.

Lemma some_blocking_spec st now p m :
  some_blocking st now p m = true ↔
  ∃ k, k ∈ relevantKeys st p m ∧ blocking_at st k now.
Proof.
  unfold some_blocking, blocking_at, lookup_bucket. rewrite existsb_exists. split.
  - intros (k & Hin%list_elem_of_In & Hk). exists k. split; [done|].
    destruct (buckets st !! k); [eauto|done].
  - intros (k & Hin%list_elem_of_In & b & Hb & Hk). exists k. split; [done|]. by rewrite Hb.
Qed.

(** the admission decision, exactly. A request is refused with the latest open
    deadline when a relevant bucket is open; refused as probe-active when none is open
    but one still carries a probe inside its admission window; admitted without a
    token when no relevant bucket exists; and otherwise admitted with a token whose
    leases are live on exactly the relevant half-open buckets. *)
Theorem admission_decision w p m now od a cs st' :
  reachable w →
  tryAcquireProviderOverloadProbe p m now od (w_st w) = ((a, cs), st') →
  let relevant k b := k ∈ relevantKeys (w_st w) p m ∧ buckets (w_st w) !! k = Some b in
  match a with
  | RefusedOpen u =>
      st' = w_st w ∧ now < u ∧ (∃ k b, relevant k b ∧ until b = u) ∧
      (∀ k b, relevant k b → now < until b → until b <= u)
  | RefusedProbeActive =>
      st' = w_st w ∧ (∀ k b, relevant k b → until b <= now) ∧
      ∃ k, k ∈ relevantKeys (w_st w) p m ∧ blocking_at (w_st w) k now
  | AdmitProbe None => st' = w_st w ∧ ∀ k b, ¬ relevant k b
  | AdmitProbe (Some t) =>
      (∀ k b, relevant k b → until b <= now ∧ isLeaseBlockingAdmission b now = false) ∧
      token_leases t ≠ [] ∧
      (∀ l, l ∈ token_leases t → ∃ b, relevant (lease_key l) b) ∧
      (∀ k b, relevant k b →
         ∃ l, l ∈ token_leases t ∧ lease_key l = k ∧ lease_live (buckets st') l = true)
  end.
Proof.
  intros Hw%reachable_inv H relevant. apply acquire_inv in H as Hs.
  destruct Hs as [u Hu|Hu Hb|Hu Hk|ls cs' st2 Hu Hb Hk Hl].
  - split; [done|]. pose proof (max_until_fold_Some _ _ _ _ _ Hu)
      as [?|(k & b & Hin & Hb & He & Hlt)]; [done|].
    split; [done|]. split; [exists k, b; done|]. intros k' b' [Hin' Hb'] Hlt'.
    destruct (max_until_fold_ge (w_st w) now (relevantKeys (w_st w) p m) None)
      as [_ Hge]. destruct (Hge _ _ Hin' Hb' Hlt') as (u' & Hu' & Hle).
    unfold getProviderOverloadUntil in Hu. rewrite Hu in Hu'. by simplify_eq.
  - split; [done|]. split; [|by apply some_blocking_spec].
    intros k b [? ?]. by eapply getProviderOverloadUntil_None.
  - split; [done|]. intros k b [Hin Hb].
    assert (k ∈ half_open_keys (w_st w) p m) as Hin' by (apply half_open_keys_elem; eauto).
    rewrite Hk in Hin'. by apply elem_of_nil in Hin'.
  - assert (∀ k b, relevant k b → ∃ l, l ∈ ls ∧ lease_key l = k ∧
                       lease_live (buckets st2) l = true) as Hlive.
    { intros k b [Hin Hbk].
      destruct (lease_buckets_lookup _ _ _ _ _ _ _ _ _ _ _ k b Hl) as [(i & Hi & Hst & Hls) _];
        [by apply half_open_keys_NoDup, Hw|by apply half_open_keys_elem; eauto|done|].
      eexists. split; [exact Hls|]. split; [done|]. unfold lease_live. simpl.
      rewrite Hst. simpl. by rewrite !Z.eqb_refl. }
    split; [|split; [|split; [|done]]].
    + intros k b [Hin Hbk]. split; [by eapply getProviderOverloadUntil_None|].
      destruct (isLeaseBlockingAdmission b now) eqn:Eb; [|done].
      assert (some_blocking (w_st w) now p m = true); [|congruence].
      apply some_blocking_spec. exists k. split; [done|]. by exists b.
    + simpl. destruct (half_open_keys (w_st w) p m) as [|k ks] eqn:E; [done|].
      assert (k ∈ half_open_keys (w_st w) p m) as Hin by (rewrite E; by left).
      apply half_open_keys_elem in Hin as [Hin [b Hbk]].
      destruct (Hlive k b) as (l & Hl' & _); [done|]. intros ->. by apply elem_of_nil in Hl'.
    + simpl. intros l Hin.
      assert (acquire_spec (w_st w) p m now od (AdmitProbe (Some (token_of now (w_st w) ls)))
                cs' st2) as Hs by (by apply acquire_leased).
      destruct (acquire_lease_new _ _ _ _ _ _ _ _ _ Hs Hin) as (_ & Hkey & b & Hb' & _).
      exists b. split; [|done]. by apply half_open_keys_elem in Hkey as [? _].
Qed.

(** What a quiet run preserves: the lease's bucket still carries its probe. *)
Definition holds_lease (st : breaker) (l : ProbeLease) (since : Z) : Prop :=
  ∃ b pr, buckets st !! lease_key l = Some b ∧ probe b = Some pr ∧
          probe_leaseId pr = lease_leaseId l ∧ probe_acquiredAt pr = since ∧
          probe_admissionTtlMs pr = PROBE_ADMISSION_TTL_MS.

Lemma holds_lease_blocking st l since now :
  holds_lease st l since → now - since < PROBE_ADMISSION_TTL_MS →
  blocking_at st (lease_key l) now.
Proof.
  intros (b & pr & Hb & Hp & _ & Ha & Ht) Hlt. exists b. split; [done|].
  unfold isLeaseBlockingAdmission. rewrite Hp, Ha, Ht. by apply Z.ltb_lt.
Qed.

Lemma blocked_unleased st p m now od a cs st' k :
  jwf (buckets st) → acquire_spec st p m now od a cs st' → blocking_at st k now →
  buckets st' !! k = buckets st !! k.
Proof.
  intros Hwf Hs (b & Hb & Hbl). pose proof Hs as Hl.
  eapply acquire_lookup with (k := k) in Hl; [|done].
  destruct Hl as [[? _]|(b0 & i & ls & Hb0 & -> & Hin & _)]; [done|exfalso].
  inversion Hs as [| | |? ? ? _ Hnb _ _]; subst.
  assert (some_blocking st now p m = true); [|congruence].
  apply some_blocking_spec. exists k. apply half_open_keys_elem in Hin as [Hin _].
  split; [done|]. by exists b.
Qed.

Lemma quiet_step w e cs w' t l since :
  inv w → t ∈ w_minted w → l ∈ token_leases t → holds_lease (w_st w) l since →
  step w e cs w' → quiet (lease_key l) t since e →
  buckets (w_st w') !! lease_key l = buckets (w_st w) !! lease_key l.
Proof.
  intros Hw Ht Hl Hh Hs Hq.
  destruct Hs as [p r m ctx now u cs st' H|p m now od a cs st' H|t' o Ht'|p]; simpl in *.
  - unfold applyProviderOverloadCooldown in H. destruct (normalizeUntil _ _). simplify_eq/=.
    by rewrite jlookup_insert_ne.
  - apply acquire_inv in H. eapply blocked_unleased; [apply Hw|done|].
    by eapply holds_lease_blocking.
  - destruct (settle_fold_lookup o (token_leases t') (buckets (w_st w)) (lease_key l))
      as [?|(l' & Hl' & Hk & Hlive & _)]; [done|exfalso].
    destruct Hh as (b & pr & Hb & Hp & Hi & _).
    apply lease_live_inv in Hlive as (b' & pr' & Hb' & Hp' & _ & Hi'). rewrite Hk in Hb'.
    simplify_eq. apply Hq. eapply inv_unique; [exact Hw|exact Ht'|exact Ht|exact Hl'|exact Hl|].
    congruence.
  - destruct p as [p|]; [|done]. destruct Hq as [Hne Ho]. rewrite clear_lookup, Ho.
    by rewrite bool_decide_eq_false_2.
Qed.

Lemma acquired_holds w p m now od cs w1 t l :
  inv w → step w (EAcquire p m now od) cs w1 →
  w_minted w1 = t :: w_minted w → l ∈ token_leases t →
  holds_lease (w_st w1) l now ∧ owns (w_st w1) t (lease_key l).
Proof.
  intros Hr Hs1 Hm Hl. inversion Hs1 as [|? ? ? ? a0 ? st1 H| |]; subst. simpl in *.
  apply acquire_inv in H as Ha.
  destruct Ha as [| | |ls ? ? ? ? Hk Hls]; simpl in Hm;
    [by apply (f_equal length) in Hm; simpl in Hm; lia..|].
  injection Hm as <-. simpl in Hl.
  pose proof Hls as Hnew. eapply lease_buckets_new in Hnew as [?%elem_of_nil|(_ & Hin & b & Hb & Hg)]; [done| |exact Hl].
  pose proof Hls as Hown. eapply lease_buckets_owned in Hown as [?%elem_of_nil|[b' Hb']];
    [done| |by apply half_open_keys_NoDup, Hr|exact Hl].
  eapply lease_buckets_lookup in Hls as [(i & _ & Hst & _) _];
    [|by apply half_open_keys_NoDup, Hr|exact Hin|exact Hb].
  rewrite Hb' in Hst. injection Hst as _ Hgen _. split.
  - eexists _, _. split; [exact Hb'|]. done.
  - exists l. eexists _, _. split; [exact Hl|]. split; [done|]. split; [exact Hb'|]. split; [done|].
    split; [|done]. simpl. by rewrite Hgen.
Qed.

Lemma minted_mono w e cs w' t : step w e cs w' → t ∈ w_minted w → t ∈ w_minted w'.
Proof. destruct 1; simpl; auto. intros. apply elem_of_app. by right. Qed.

Lemma quiet_steps w w' t l since :
  inv w → t ∈ w_minted w → l ∈ token_leases t → holds_lease (w_st w) l since →
  steps (quiet (lease_key l) t since) w w' →
  t ∈ w_minted w' ∧ buckets (w_st w') !! lease_key l = buckets (w_st w) !! lease_key l.
Proof.
  intros Hw Ht Hl Hh Hs. induction Hs as [|w w1 w2 e cs Hs IH Hq Hstep]; [done|].
  destruct (IH Hw Ht Hh) as [Ht1 Hb1]. split; [by eapply minted_mono|].
  rewrite <-Hb1. eapply quiet_step; [by eapply steps_inv|done|done| |done|done].
  destruct Hh as (b & pr & Hb & Hr). exists b, pr. by rewrite Hb1.
Qed.

Lemma quiet_owner w p m now od cs w1 t l w2 :
  inv w → step w (EAcquire p m now od) cs w1 → w_minted w1 = t :: w_minted w → l ∈ token_leases t →
  steps (quiet (lease_key l) t now) w1 w2 →
  inv w2 ∧ t ∈ w_minted w2 ∧ holds_lease (w_st w2) l now ∧ owns (w_st w2) t (lease_key l).
Proof.
  intros Hr Hs1 Hm Hl Hs. assert (inv w1) as Hw1 by (by eapply inv_step).
  destruct (acquired_holds _ _ _ _ _ _ _ _ _ Hr Hs1 Hm Hl) as [Hh (l1 & b1 & p1 & Ho)].
  destruct (quiet_steps w1 w2 t l now) as [Ht2 Hb]; [done|rewrite Hm; by left|done..|].
  split_and!; [by eapply steps_inv|done|..].
  - destruct Hh as (b & pr & Hh). exists b, pr. by rewrite Hb.
  - exists l1, b1, p1. by rewrite Hb.
Qed.

Lemma held_refuses st p m now od a cs st' l since :
  holds_lease st l since → lease_key l ∈ relevantKeys st p m → now - since < PROBE_ADMISSION_TTL_MS →
  tryAcquireProviderOverloadProbe p m now od st = ((a, cs), st') →
  (a = RefusedProbeActive ∨ ∃ u, a = RefusedOpen u) ∧ cs = [] ∧ st' = st.
Proof.
  intros Hho Hrel Hlt Hacq. apply acquire_inv in Hacq as Ha.
  pose proof (holds_lease_blocking _ _ _ _ Hho Hlt) as Hbl.
  destruct Ha as [u Hu|Hu Hb|Hu Hk|ls cs2 st2 Hu Hb Hk Hls]; eauto.
  - exfalso. destruct Hbl as (b & Hb & _).
    assert (lease_key l ∈ half_open_keys st p m) as Hin by (apply half_open_keys_elem; eauto).
    rewrite Hk in Hin. by apply elem_of_nil in Hin.
  - exfalso. assert (some_blocking st now p m = true); [|congruence].
    apply some_blocking_spec. eauto.
Qed.

(** C1: probing is single-flight. While the probe that a half-open bucket admitted runs, that
    is, short of its completion, a trip of the bucket and an operator clear of its provider,
    and up to the admission deadline: its token owns the bucket and no other token does; every
    request that the bucket gates is refused, and the refusal changes nothing. A completion,
    from any state and of any token, removes exactly the buckets that the token owns when the
    provider recovered, gives exactly those back to probing otherwise, with their deadline and
    generation, and leaves every other bucket as it is. *)
Theorem single_flight w p m now od cs w1 t l w2 :
  reachable w → step w (EAcquire p m now od) cs w1 →
  w_minted w1 = t :: w_minted w → l ∈ token_leases t →
  steps (quiet (lease_key l) t now) w1 w2 →
  (owns (w_st w2) t (lease_key l) ∧ ∀ t', t' ∈ w_minted w2 → owns (w_st w2) t' (lease_key l) → t' = t) ∧
  (∀ p' m' now' od' a cs' st',
     lease_key l ∈ relevantKeys (w_st w2) p' m' → now' - now < PROBE_ADMISSION_TTL_MS →
     tryAcquireProviderOverloadProbe p' m' now' od' (w_st w2) = ((a, cs'), st') →
     (a = RefusedProbeActive ∨ ∃ u, a = RefusedOpen u) ∧ cs' = [] ∧ st' = w_st w2) ∧
  (∀ st t' k,
     let after o := buckets (completeProviderOverloadProbe (Some t') o st) !! k in
     (owns st t' k → after recovered = None ∧
        ∀ o, o ≠ recovered → after o = (λ b, {| until := until b; generation := generation b; probe := None |})
                                         <$> buckets st !! k) ∧
     (¬ owns st t' k → ∀ o, after o = buckets st !! k)).
Proof.
  intros Hr%reachable_inv Hs1 Hm Hl Hs.
  destruct (quiet_owner _ _ _ _ _ _ _ _ _ _ Hr Hs1 Hm Hl Hs) as (Hw2 & Ht2 & Hh & Ho).
  split; [split; [done|]|split].
  - intros t' Ht' Ho'. by eapply owner_unique.
  - intros. by eapply held_refuses.
  - intros st t' k. cbv zeta. split.
    + intros Hown. split; [by apply (complete_lookup st t' recovered k)|]. intros o Hne.
      rewrite (proj1 (complete_lookup st t' o k) Hown). by destruct o.
    + intros Hno o. by apply complete_lookup.
Qed.

Lemma inspect_step_eq st now u half act k :
  inspect_step st now (u, half, act) k =
  (max_until now u (lookup_bucket st k),
   half || match lookup_bucket st k with Some b => until b <=? now | None => false end,
   act || match lookup_bucket st k with Some b => isLeaseActive b now | None => false end).
Proof.
  unfold inspect_step, max_until. destruct (lookup_bucket st k) as [b|];
    [|by rewrite !orb_false_r].
  destruct (now <? until b) eqn:E; prop_bools.
  - rewrite (proj2 (Z.leb_gt _ _) E), orb_false_r. simpl. by destruct u.
  - rewrite (proj2 (Z.leb_le _ _) E), orb_true_r. done.
Qed.

Lemma inspect_fold st now keys u half act :
  foldl (inspect_step st now) (u, half, act) keys =
  (foldl (λ a key, max_until now a (lookup_bucket st key)) u keys,
   half || existsb (λ k, match lookup_bucket st k with
                         | Some b => until b <=? now | None => false end) keys,
   act || existsb (λ k, match lookup_bucket st k with
                        | Some b => isLeaseActive b now | None => false end) keys).
Proof.
  revert u half act. induction keys as [|k keys IH]; intros u half act; cbn [foldl existsb].
  { by rewrite !orb_false_r. }
  by rewrite inspect_step_eq, IH, !orb_assoc.
Qed.

Lemma existsb_bucket (f : OverloadBucket → bool) st keys :
  existsb (λ k, match lookup_bucket st k with Some b => f b | None => false end) keys = true ↔
  ∃ k b, k ∈ keys ∧ buckets st !! k = Some b ∧ f b = true.
Proof.
  unfold lookup_bucket. rewrite existsb_exists. split.
  - intros (k & Hin%list_elem_of_In & Hk). destruct (buckets st !! k) eqn:E; [eauto 10|done].
  - intros (k & b & Hin%list_elem_of_In & Hb & Hf). exists k. by rewrite Hb.
Qed.

(** the combined status refines the per-bucket state machine: open exactly when a
    relevant bucket's deadline is ahead (and then with the blocking deadline of the
    gates), closed exactly when no relevant bucket exists, half-open in between; the
    probe flag is set exactly when a relevant bucket of a non-closed breaker carries a
    live lease. *)
Theorem inspect_decision st p m now :
  let relevant b := ∃ k, k ∈ relevantKeys st p m ∧ buckets st !! k = Some b in
  let s := inspectProviderOverload st p m now in
  status_until s = getProviderOverloadUntil st p now m ∧
  (status_state s = open ↔ ∃ b, relevant b ∧ bucket_state b now = open) ∧
  (status_state s = closed ↔ ∀ b, ¬ relevant b) ∧
  (status_probeActive s = true ↔ ∃ b, relevant b ∧ isLeaseActive b now = true).
Proof.
  intros relevant s. subst s. unfold inspectProviderOverload. rewrite inspect_fold.
  fold (getProviderOverloadUntil st p now m). simpl orb.
  pose proof (getProviderOverloadUntil_None st p now m) as Hnone.
  pose proof (existsb_bucket (λ b, until b <=? now) st (relevantKeys st p m)) as Hhalf.
  pose proof (existsb_bucket (λ b, isLeaseActive b now) st (relevantKeys st p m)) as Hact.
  pose proof (max_until_fold_Some st now (relevantKeys st p m) None) as Hsome.
  fold (getProviderOverloadUntil st p now m) in Hsome.
  destruct (getProviderOverloadUntil st p now m) as [u|]; simpl.
  - destruct (Hsome u eq_refl) as [?|(k & b & Hin & Hb & Hu & Hlt)]; [done|].
    assert (∃ b, relevant b ∧ bucket_state b now = open) as Hopen.
    { exists b. split; [by exists k|]. unfold bucket_state. subst u.
      by rewrite (proj2 (Z.ltb_lt _ _) Hlt). }
    split; [done|]. split; [done|]. split.
    + split; [done|]. intros Hno. exfalso. apply (Hno b). by exists k.
    + rewrite Hact. unfold relevant. naive_solver.
  - assert (¬ ∃ b, relevant b ∧ bucket_state b now = open) as Hno.
    { intros (b & (k & Hin & Hb) & Hopen). unfold bucket_state in Hopen.
      pose proof (proj1 Hnone eq_refl k b Hin Hb).
      by rewrite (proj2 (Z.ltb_ge _ _)) in Hopen. }
    destruct (existsb _ _) eqn:Eh; simpl; (split; [done|]; split; [naive_solver|]).
    + destruct (proj1 Hhalf eq_refl) as (k & b & Hin & Hb & _). split.
      * split; [done|]. intros Hn. exfalso. apply (Hn b). by exists k.
      * rewrite Hact. unfold relevant. naive_solver.
    + assert (∀ b, ¬ relevant b) as Hn.
      { intros b (k & Hin & Hb). pose proof (proj1 Hnone eq_refl k b Hin Hb).
        assert (false = true); [|done]. apply Hhalf. exists k, b. split; [done|].
        split; [done|]. by apply Z.leb_le. }
      split; [done|]. split; [done|]. intros (b & Hb & _). by apply Hn in Hb.
Qed.

Lemma of_provider_spec pk k : of_provider pk k = true ↔ k = pk ∨ ∃ r, k = pk +:+ ":" +:+ r.
Proof.
  unfold of_provider, startsWith. rewrite orb_true_iff, bool_decide_eq_true, prefix_spec.
  by setoid_rewrite string_app_assoc.
Qed.

(** An operator clear of a provider opens its gates completely: afterwards no
    bucket of the provider is left, a request for any of its models is admitted
    without a probe and without a deadline, the dashboard snapshot is empty, every
    outstanding token is a no-op on the cleared keys, and the buckets of other
    providers are untouched. *)
Theorem operator_clear st p m now od t o :
  p ≠ "" →
  let st' := clearProviderOverloadCooldown (Some p) st in
  getProviderOverloadUntil st' p now m = None ∧
  tryAcquireProviderOverloadProbe p m now od st' = ((AdmitProbe None, []), st') ∧
  getProviderOverloadSnapshot st' p now = [] ∧
  (∀ k, of_provider (getProviderOverloadKey p) k = true →
     buckets (completeProviderOverloadProbe (Some t) o st') !! k = None) ∧
  (∀ k, of_provider (getProviderOverloadKey p) k = false → buckets st' !! k = buckets st !! k).
Proof.
  intros Hp st'.
  assert (∀ k, of_provider (getProviderOverloadKey p) k = true → buckets st' !! k = None) as Hgone.
  { intros k Hk. subst st'. by rewrite clear_lookup, Hk, orb_true_r. }
  assert (∀ k, k ∈ relevantKeys st' p m → buckets st' !! k = None) as Hrel.
  { intros k Hk. apply Hgone. unfold relevantKeys in Hk. simpl in Hk.
    destruct (familyOf m) as [f|]; simpl in Hk.
    - apply of_provider_spec. apply elem_of_cons in Hk as [->|Hk].
      + right. by eexists.
      + apply list_elem_of_singleton in Hk. by left.
    - by apply list_elem_of_filter in Hk as [? _]. }
  assert (getProviderOverloadUntil st' p now m = None) as Hu.
  { apply getProviderOverloadUntil_None. intros k b Hin Hb. by rewrite Hrel in Hb. }
  split; [done|]. split; [|split; [|split]].
  - unfold tryAcquireProviderOverloadProbe. rewrite Hu, collect_half_open_spec.
    destruct (existsb _ _) eqn:E.
    { apply existsb_bucket in E as (k & b & Hin & Hb & _). by rewrite Hrel in Hb. }
    fold (half_open_keys st' p m). destruct (half_open_keys st' p m) as [|k ks] eqn:Ek; [done|].
    assert (k ∈ half_open_keys st' p m) as Hin by (rewrite Ek; by left).
    apply half_open_keys_elem in Hin as [Hin [b Hb]]. by rewrite Hrel in Hb.
  - unfold getProviderOverloadSnapshot. apply elem_of_nil_inv. intros x Hx.
    apply list_elem_of_omap in Hx as ([k b] & Hin & Hf).
    destruct (of_provider _ k) eqn:E; simpl in Hf; [|done].
    apply Hgone in E. apply jlookup_None in E. apply E. by apply (list_elem_of_fmap_2 fst) in Hin.
  - intros k Hk. simpl.
    destruct (settle_fold_lookup o (token_leases t) (buckets st') k)
      as [->|(l & _ & Hkey & Hlive & _)]; [by apply Hgone|exfalso].
    apply lease_live_inv in Hlive as (b & _ & Hb & _). rewrite Hkey in Hb. by rewrite Hgone in Hb.
  - intros k Hk. subst st'. rewrite clear_lookup, Hk. by rewrite bool_decide_eq_false_2.
Qed.

(** * Concrete executions

    A haiku 529 at time 0 trips the family bucket for a minute; a probe is admitted at
    60 s and displaced by another one at 120 s. *)

Definition haiku : option string := Some "claude-haiku-4-5".
Definition haiku_key : string := "anthropic-upstream:haiku".

Definition run (es : list event) : world := default world_init (exec_all es world_init).

Definition scenario_tripped : list event := [ETrip "anthropic" None haiku None 0].
Definition scenario_probed : list event :=
  scenario_tripped ++ [EAcquire "claude-oauth" haiku 60000 (Some 7%nat)].
Definition scenario_displaced : list event :=
  scenario_probed ++ [EAcquire "anthropic" haiku 120000 (Some 8%nat)].

Definition first_token (w : world) : OverloadProbeToken :=
  default {| token_probeId := ""; token_acquiredAt := 0; token_leases := [] |} (head (w_minted w)).
Definition first_lease (t : OverloadProbeToken) : ProbeLease :=
  default {| lease_key := ""; lease_generation := 0; lease_leaseId := 0 |}
          (head (token_leases t)).

Lemma run_reachable es : is_Some (exec_all es world_init) → reachable (run es).
Proof.
  intros [w Hw]. unfold run. rewrite Hw. by eapply exec_all_reachable.
Qed.

Ltac reach := apply run_reachable; vm_compute; eexists; reflexivity.

Lemma single_flight_witness :
  let w := run scenario_tripped in
  let w1 := (exec (EAcquire "claude-oauth" haiku 60000 (Some 7%nat)) w).2 in
  let t := first_token (run scenario_probed) in
  (tryAcquireProviderOverloadProbe "anthropic" haiku 100000 None (w_st w1)).2 = w_st w1 ∧
  buckets (completeProviderOverloadProbe (Some t) recovered (w_st w1)) !! haiku_key = None.
Proof.
  cbv zeta. edestruct (single_flight (run scenario_tripped) "claude-oauth" haiku 60000 (Some 7%nat)
      (exec (EAcquire "claude-oauth" haiku 60000 (Some 7%nat)) (run scenario_tripped)).1
      (exec (EAcquire "claude-oauth" haiku 60000 (Some 7%nat)) (run scenario_tripped)).2
      (first_token (run scenario_probed)) (first_lease (first_token (run scenario_probed))))
    as ((Ho & _) & Hrefused & Hcomplete);
    [reach|apply exec_step; reflexivity|reflexivity|vm_compute; left|apply steps_refl|].
  split.
  - eapply (Hrefused "anthropic"%string haiku 100000 None); [vm_compute; left|reflexivity|reflexivity].
  - apply (Hcomplete _ (first_token (run scenario_probed)) haiku_key). exact Ho.
Defined.

Lemma stale_token_noop_witness :
  let w := run scenario_probed in
  let w1 := (exec (ETrip "anthropic" None haiku None 61000) w).2 in
  buckets (completeProviderOverloadProbe (Some (first_token w)) recovered (w_st w1))
    !! haiku_key = buckets (w_st w1) !! haiku_key ∧
  is_Some (buckets (w_st w1) !! haiku_key).
Proof.
  split; [|vm_compute; eexists; reflexivity].
  apply (stale_token_noop (run scenario_probed) "anthropic" None haiku None 61000
           (exec (ETrip "anthropic" None haiku None 61000) (run scenario_probed)).1
           (exec (ETrip "anthropic" None haiku None 61000) (run scenario_probed)).2);
    [reach|apply exec_step; reflexivity|apply steps_refl|vm_compute; left].
Defined.

Lemma displaced_probe_cancelled_witness :
  7%nat ∈ (exec (EAcquire "anthropic" haiku 120000 (Some 8%nat)) (run scenario_probed)).1.
Proof.
  eapply (displaced_probe_cancelled (run scenario_probed)
            (EAcquire "anthropic" haiku 120000 (Some 8%nat)) _ _ haiku_key);
    [reach|apply exec_step; reflexivity|vm_compute; reflexivity|reflexivity|reflexivity
    | |exact I].
  intros b' Hb'. vm_compute in Hb'. injection Hb' as <-. discriminate.
Defined.

Lemma trip_bounds_witness :
  0 < 300000 ∧
  (applyProviderOverloadCooldown "anthropic" (Some 9999999) haiku None 0 breaker_init).1
    = (300000, []).
Proof.
  split; [|reflexivity].
  eapply (trip_bounds "anthropic" (Some 9999999) haiku None 0 breaker_init 300000). reflexivity.
Defined.

Lemma admission_decision_witness :
  let w := run scenario_probed in
  ∃ k, k ∈ relevantKeys (w_st w) "anthropic" haiku ∧ blocking_at (w_st w) k 90000.
Proof.
  eapply (admission_decision (run scenario_probed) "anthropic" haiku 90000 None
            RefusedProbeActive); [reach|reflexivity].
Defined.

Lemma operator_clear_witness :
  getProviderOverloadUntil
    (clearProviderOverloadCooldown (Some "anthropic") (w_st (run scenario_tripped)))
    "anthropic" 1000 haiku = None.
Proof.
  apply (operator_clear (w_st (run scenario_tripped)) "anthropic" haiku 1000 None
           (first_token (run scenario_probed)) recovered). discriminate.
Defined.
