(* ===== verification/Semaphore.v ===== *)
(** Hold slots and the burst marker: [packages/proxy/src/keyed-semaphore.ts],
    [packages/proxy/src/overload-hold.ts], [packages/proxy/src/handlers/burst-cooldown.ts].

    The class [SlotSemaphore] states what the keyed semaphore promises to its two
    clients; [keyed_semaphore] is the implementation and discharges it, and the
    clients' theorems are proved against the class. *)

From S2P Require Import Prelude.
Open Scope Z_scope.

(** * The keyed counting semaphore *)

Abbreviation counts := (jmap string Z).

Definition sem_current (key : string) (m : counts) : Z := default 0 (m !! key).

Definition sem_tryAcquire (key : string) (capOverride : Z) : state counts bool := λ m,
  let current := sem_current key m in
  if capOverride <=? current then (false, m) else (true, <[key := current + 1]> m).

Definition sem_release (key : string) (m : counts) : counts :=
  let current := sem_current key m in
  if current <=? 1 then delete key m else <[key := current - 1]> m.

Definition sem_occupiedKeys (m : counts) : list string := jkeys m.

Definition sem_count (key : option string) (m : counts) : Z :=
  match key with
  | Some k => sem_current k m
  | None => foldl (λ total v, total + v) 0 (jvalues m)
  end.

Definition sem_reset (m : counts) : counts := ∅.

(** * What a slot semaphore promises

    [holds s hs]: the holders outstanding in [s] are [hs], the key of each listed
    once per hold. *)

Class SlotSemaphore (S : Type) := {
  slot_empty : S;
  slot_tryAcquire : string → Z → S → bool * S;
  slot_release : string → S → S;
  slot_count : string → S → Z;
  slot_occupied : S → list string;
  slot_holds : S → list string → Prop;
  slot_holds_empty : slot_holds slot_empty [];
  slot_holds_count s hs k :
    slot_holds s hs → slot_count k s = Z.of_nat (length (filter (k =.) hs));
  slot_holds_occupied s hs k :
    slot_holds s hs → k ∈ slot_occupied s ↔ k ∈ hs;
  slot_acquire_law s hs k cap :
    slot_holds s hs →
    if slot_count k s <? cap
    then (slot_tryAcquire k cap s).1 = true ∧ slot_holds (slot_tryAcquire k cap s).2 (k :: hs)
    else slot_tryAcquire k cap s = (false, s);
  slot_release_law s hs hs' k :
    slot_holds s hs → hs ≡ₚ k :: hs' → slot_holds (slot_release k s) hs';
  slot_release_idle_law s hs k :
    slot_holds s hs → k ∉ hs → slot_holds (slot_release k s) hs
}.

(** Occurrences of a key, as the integer the code counts with. *)
Definition occ (k : string) (hs : list string) : Z := Z.of_nat (length (filter (k =.) hs)).

(** The map holds exactly the positive occurrence counts. *)
Definition counts_holds (m : counts) (hs : list string) : Prop :=
  jwf m ∧ ∀ k, m !! k = if 0 <? occ k hs then Some (occ k hs) else None.

(** * The hold slots of the two clients *)

Definition OVERLOAD_HOLD_MAX_CONCURRENT_PER_BUCKET : Z := 16.
Definition OVERLOAD_HOLD_MAX_MS : Z := 330000.
Definition OVERLOAD_HOLD_MAX_MS_NO_REARM : Z := 120000.
Definition BURST_RETRY_MAX_CONCURRENT_HOLDS : Z := 8.
Definition HOLD_SLOT_KEY : string := "burst-retry".

(** [overrideMs] is the module's [overloadHoldBudgetOverrideMs]. *)
Definition getOverloadHoldBudgetMs (overrideMs : option Z) (canRearmIdleTimeout : bool) : Z :=
  match overrideMs with
  | Some ms => ms
  | None => if canRearmIdleTimeout then OVERLOAD_HOLD_MAX_MS else OVERLOAD_HOLD_MAX_MS_NO_REARM
  end.

Section clients.
Context {S : Type} `{!SlotSemaphore S}.

Definition tryAcquireOverloadHoldSlot (bucketKey : string) (maxConcurrentHolds : Z) (s : S)
    : bool * S :=
  let '(ok, s') := slot_tryAcquire bucketKey maxConcurrentHolds s in
  if negb ok then (false, s') else (true, s').

Definition releaseOverloadHoldSlot (bucketKey : string) (s : S) : S := slot_release bucketKey s.
Definition getActiveOverloadHoldCount (bucketKey : string) (s : S) : Z := slot_count bucketKey s.
Definition getOccupiedOverloadHoldKeys (s : S) : list string := slot_occupied s.

Definition tryAcquireHoldSlot (maxConcurrentHolds : Z) (s : S) : bool * S :=
  slot_tryAcquire HOLD_SLOT_KEY maxConcurrentHolds s.
Definition releaseHoldSlot (s : S) : S := slot_release HOLD_SLOT_KEY s.
Definition getActiveHoldCount (s : S) : Z := slot_count HOLD_SLOT_KEY s.

(** A run of the overload holds: requests acquire a slot for a bucket key and later
    release the one they hold. The index is the list of holders outstanding. *)
Inductive hold_run : S → list string → Prop :=
  | hold_start : hold_run slot_empty []
  | hold_enter s hs k s' :
      hold_run s hs →
      tryAcquireOverloadHoldSlot k OVERLOAD_HOLD_MAX_CONCURRENT_PER_BUCKET s = (true, s') →
      hold_run s' (k :: hs)
  | hold_refused s hs k s' :
      hold_run s hs →
      tryAcquireOverloadHoldSlot k OVERLOAD_HOLD_MAX_CONCURRENT_PER_BUCKET s = (false, s') →
      hold_run s' hs
  | hold_leave s hs k hs' :
      hold_run s hs → hs ≡ₚ k :: hs' → hold_run (releaseOverloadHoldSlot k s) hs'.

(** The same run for the burst-retry holds, under their single key. *)
Inductive burst_run : S → nat → Prop :=
  | burst_start : burst_run slot_empty 0
  | burst_enter s n s' :
      burst_run s n → tryAcquireHoldSlot BURST_RETRY_MAX_CONCURRENT_HOLDS s = (true, s') →
      burst_run s' (Datatypes.S n)
  | burst_refused s n s' :
      burst_run s n → tryAcquireHoldSlot BURST_RETRY_MAX_CONCURRENT_HOLDS s = (false, s') →
      burst_run s' n
  | burst_leave s n : burst_run s (Datatypes.S n) → burst_run (releaseHoldSlot s) n
  | burst_spurious_leave s : burst_run s 0 → burst_run (releaseHoldSlot s) 0.
End clients.

(** * The burst marker *)

Definition BURST_RETRY_MARKER_MS : Z := 120000.
Definition BURST_RETRY_SUMMARY_MS : Z := 30000.

Record burst := {
  anthropicBurstThrottleUntil : option Z;
  burstObservations : Z;
  observationsSinceSummary : Z;
  lastSummaryAt : Z
}.

(** [clearAnthropicBurstThrottle], also the initial state *)
Definition clearAnthropicBurstThrottle : burst :=
  {| anthropicBurstThrottleUntil := None; burstObservations := 0;
     observationsSinceSummary := 0; lastSummaryAt := 0 |}.

Definition markAnthropicBurstThrottle (now markerMs : Z) (st : burst) : burst :=
  let until := now + markerMs in
  let '(st, previous) :=
    match anthropicBurstThrottleUntil st with
    | Some p => if p <=? now then (clearAnthropicBurstThrottle, None) else (st, Some p)
    | None => (st, None)
    end in
  let effectiveUntil := match previous with Some p => Z.max p until | None => until end in
  let obs := burstObservations st + 1 in
  let since := observationsSinceSummary st + 1 in
  match previous with
  | None =>
      {| anthropicBurstThrottleUntil := Some effectiveUntil; burstObservations := obs;
         observationsSinceSummary := 0; lastSummaryAt := now |}
  | Some _ =>
      if BURST_RETRY_SUMMARY_MS <=? now - lastSummaryAt st
      then {| anthropicBurstThrottleUntil := Some effectiveUntil; burstObservations := obs;
              observationsSinceSummary := 0; lastSummaryAt := now |}
      else {| anthropicBurstThrottleUntil := Some effectiveUntil; burstObservations := obs;
              observationsSinceSummary := since; lastSummaryAt := lastSummaryAt st |}
  end.

(** The read clears expired state lazily; a deadline of 0 is falsy. *)
Definition getAnthropicBurstThrottleUntil (now : Z) : state burst (option Z) := λ st,
  match anthropicBurstThrottleUntil st with
  | None => (None, st)
  | Some u =>
      if u =? 0 then (None, st)
      else if u <=? now then (None, clearAnthropicBurstThrottle)
      else (Some u, st)
  end.

Definition isAnthropicBurstThrottleActive (now : Z) : state burst bool :=
  (u <- getAnthropicBurstThrottleUntil now ;; st_ret (bool_decide (is_Some u)))%state.

Inductive burst_event : Type := Mark (now : Z) | Read (now : Z).

Definition event_time (e : burst_event) : Z := match e with Mark t | Read t => t end.

Definition burst_exec (st : burst) (e : burst_event) : burst :=
  match e with
  | Mark t => markAnthropicBurstThrottle t BURST_RETRY_MARKER_MS st
  | Read t => (isAnthropicBurstThrottleActive t st).2
  end.

(** The events of a run under a clock that does not step backwards. *)
Fixpoint clocked (from : Z) (es : list burst_event) : Prop :=
  match es with
  | [] => True
  | e :: es => from <= event_time e ∧ clocked (event_time e) es
  end.

(** * The implementation meets the interface *)

Lemma occ_cons k k' hs : occ k (k' :: hs) = occ k hs + if decide (k = k') then 1 else 0.
Proof. unfold occ. rewrite filter_cons. destruct (decide (k = k')); csimpl; lia. Qed.

Lemma occ_nonneg k hs : 0 <= occ k hs.
Proof. unfold occ. lia. Qed.

Lemma occ_pos k hs : 0 < occ k hs ↔ k ∈ hs.
Proof.
  induction hs as [|k' hs IH].
  - rewrite elem_of_nil. unfold occ. simpl. lia.
  - rewrite occ_cons, elem_of_cons. pose proof (occ_nonneg k hs).
    destruct (decide (k = k')); [naive_solver lia|]. rewrite Z.add_0_r. naive_solver.
Qed.

Lemma occ_perm k hs hs' : hs ≡ₚ hs' → occ k hs = occ k hs'.
Proof. unfold occ. by intros ->. Qed.

Lemma counts_holds_current m hs k : counts_holds m hs → sem_current k m = occ k hs.
Proof.
  intros [_ H]. unfold sem_current. rewrite H. pose proof (occ_nonneg k hs).
  destruct (0 <? occ k hs) eqn:E; simpl; prop_bools; lia.
Qed.

Lemma counts_holds_acquire m hs k :
  counts_holds m hs → counts_holds (<[k := sem_current k m + 1]> m) (k :: hs).
Proof.
  intros Hh. rewrite (counts_holds_current m hs) by done. destruct Hh as [Hwf H].
  split; [auto with jmap|]. intros k'. rewrite jlookup_insert, occ_cons, H.
  pose proof (occ_nonneg k hs). destruct (decide (k = k')) as [->|Hne].
  - rewrite decide_True by done. by rewrite (proj2 (Z.ltb_lt _ _)) by lia.
  - rewrite decide_False by done. by rewrite Z.add_0_r.
Qed.

Lemma counts_holds_release m hs hs' k :
  counts_holds m hs → hs ≡ₚ k :: hs' → counts_holds (sem_release k m) hs'.
Proof.
  intros Hh Hp. unfold sem_release. rewrite (counts_holds_current m hs) by done.
  destruct Hh as [Hwf H].
  assert (∀ k', occ k' hs = occ k' hs' + if decide (k' = k) then 1 else 0) as Ho
    by (intros k'; by rewrite (occ_perm _ _ _ Hp), occ_cons).
  pose proof (occ_nonneg k hs'). rewrite Ho, decide_True by done.
  destruct (occ k hs' + 1 <=? 1) eqn:E; prop_bools; (split; [auto with jmap|]); intros k'.
  - rewrite jlookup_delete, H, Ho. destruct (decide (k = k')) as [->|Hne].
    + by rewrite (proj2 (Z.ltb_ge _ _)) by lia.
    + rewrite decide_False by done. by rewrite Z.add_0_r.
  - rewrite jlookup_insert, H, Ho. destruct (decide (k = k')) as [->|Hne].
    + rewrite (proj2 (Z.ltb_lt _ _)) by lia. f_equal. lia.
    + rewrite decide_False by done. by rewrite Z.add_0_r.
Qed.

#[export] Program Instance keyed_semaphore : SlotSemaphore counts := {
  slot_empty := ∅;
  slot_tryAcquire := sem_tryAcquire;
  slot_release := sem_release;
  slot_count k m := sem_count (Some k) m;
  slot_occupied := sem_occupiedKeys;
  slot_holds := counts_holds
}.
Next Obligation. split; [apply jwf_empty|done]. Qed.
Next Obligation. intros m hs k Hh. by apply counts_holds_current. Qed.
Next Obligation.
  intros m hs k [Hwf H]. unfold sem_occupiedKeys. rewrite jelem_of_keys, H, <-occ_pos.
  destruct (0 <? occ k hs) eqn:E; prop_bools; [naive_solver|].
  split; [by intros [? ?]|lia].
Qed.
Next Obligation.
  intros m hs k cap Hh. unfold sem_tryAcquire, sem_count.
  destruct (sem_current k m <? cap) eqn:E; prop_bools.
  - rewrite (proj2 (Z.leb_gt _ _) E). split; [done|]. by apply counts_holds_acquire.
  - by rewrite (proj2 (Z.leb_le _ _) E).
Qed.
Next Obligation. intros. by eapply counts_holds_release. Qed.
Next Obligation.
  intros m hs k Hh Hk. unfold sem_release. rewrite (counts_holds_current m hs) by done.
  assert (occ k hs = 0) as Hz.
  { pose proof (occ_pos k hs). pose proof (occ_nonneg k hs). destruct (decide (occ k hs = 0)); [done|].
    exfalso. apply Hk, H. lia. }
  rewrite Hz. simpl. destruct Hh as [Hwf H]. split; [auto with jmap|]. intros k'.
  rewrite jlookup_delete. destruct (decide (k = k')) as [<-|?]; [|done].
  by rewrite Hz.
Qed.

(** * The clients, against the interface *)

Section client_theory.
Context {S : Type} `{!SlotSemaphore S}.
Implicit Types (s : S) (hs : list string).

Lemma hold_run_holds s hs : hold_run s hs → slot_holds s hs.
Proof.
  induction 1 as [|s hs k s' _ IH H|s hs k s' _ IH H|s hs k hs' _ IH Hp].
  - apply slot_holds_empty.
  - unfold tryAcquireOverloadHoldSlot in H.
    pose proof (slot_acquire_law s hs k OVERLOAD_HOLD_MAX_CONCURRENT_PER_BUCKET IH) as Hl.
    destruct (slot_tryAcquire _ _ s) as [ok s0]. destruct ok; simpl in H; simplify_eq.
    destruct (_ <? _); [by destruct Hl|done].
  - unfold tryAcquireOverloadHoldSlot in H.
    pose proof (slot_acquire_law s hs k OVERLOAD_HOLD_MAX_CONCURRENT_PER_BUCKET IH) as Hl.
    destruct (slot_tryAcquire _ _ s) as [ok s0]. destruct ok; simpl in H; simplify_eq.
    destruct (_ <? _); [by destruct Hl|by simplify_eq].
  - by eapply slot_release_law.
Qed.

Lemma slot_try_true s hs k cap s' :
  slot_holds s hs → slot_tryAcquire k cap s = (true, s') →
  occ k hs < cap ∧ slot_holds s' (k :: hs).
Proof.
  intros Hh H. pose proof (slot_acquire_law s hs k cap Hh) as Hl. rewrite H in Hl.
  rewrite (slot_holds_count s hs k Hh) in Hl. fold (occ k hs) in Hl.
  destruct (occ k hs <? cap) eqn:E; prop_bools; [by destruct Hl|done].
Qed.

Lemma slot_try_false s hs k cap s' :
  slot_holds s hs → slot_tryAcquire k cap s = (false, s') → cap <= occ k hs ∧ s' = s.
Proof.
  intros Hh H. pose proof (slot_acquire_law s hs k cap Hh) as Hl. rewrite H in Hl.
  rewrite (slot_holds_count s hs k Hh) in Hl. fold (occ k hs) in Hl.
  destruct (occ k hs <? cap) eqn:E; prop_bools; [by destruct Hl|by simplify_eq].
Qed.

Lemma hold_run_capped s hs k :
  hold_run s hs → occ k hs <= OVERLOAD_HOLD_MAX_CONCURRENT_PER_BUCKET.
Proof.
  induction 1 as [|s hs k' s' Hr IH H|s hs k' s' Hr IH H|s hs k' hs' Hr IH Hp].
  - unfold occ. simpl. by vm_compute.
  - unfold tryAcquireOverloadHoldSlot in H.
    destruct (slot_tryAcquire _ _ s) as [[] s0] eqn:Et; simpl in H; simplify_eq.
    apply hold_run_holds in Hr.
    apply (slot_try_true s hs) in Et as [Hlt _]; [|done].
    rewrite occ_cons. destruct (decide (k = k')); subst; lia.
  - done.
  - rewrite (occ_perm k _ _ Hp), occ_cons in IH. destruct (decide _); lia.
Qed.

Lemma hold_run_admits s hs k :
  hold_run s hs →
  (tryAcquireOverloadHoldSlot k OVERLOAD_HOLD_MAX_CONCURRENT_PER_BUCKET s).1 = true ↔
  occ k hs < OVERLOAD_HOLD_MAX_CONCURRENT_PER_BUCKET.
Proof.
  intros Hr%hold_run_holds. unfold tryAcquireOverloadHoldSlot.
  destruct (slot_tryAcquire _ _ s) as [[] s0] eqn:Et; simpl.
  - apply (slot_try_true s hs) in Et as [? _]; done.
  - apply (slot_try_false s hs) in Et as [? _]; [|done]. split; [done|lia].
Qed.

Lemma occ_repeat n : occ HOLD_SLOT_KEY (replicate n HOLD_SLOT_KEY) = Z.of_nat n.
Proof. induction n as [|n IH]; [done|]. simpl. rewrite occ_cons, IH, decide_True by done. lia. Qed.

Lemma burst_run_holds s n :
  burst_run s n →
  slot_holds s (replicate n HOLD_SLOT_KEY) ∧ Z.of_nat n <= BURST_RETRY_MAX_CONCURRENT_HOLDS.
Proof.
  induction 1 as [|s n s' _ [IH Hle] H|s n s' _ [IH Hle] H|s n _ [IH Hle]|s _ [IH Hle]].
  - split; [apply slot_holds_empty|by vm_compute].
  - destruct (slot_try_true s _ _ _ _ IH H) as [Hlt Hh]. rewrite occ_repeat in Hlt.
    split; [exact Hh|lia].
  - destruct (slot_try_false s _ _ _ _ IH H) as [_ ->]. done.
  - split; [|lia]. eapply slot_release_law; [exact IH|done].
  - split; [|done]. apply slot_release_idle_law; [exact IH|]. by intros ?%elem_of_nil.
Qed.
End client_theory.

(** the overload holds never exceed their cap, per bucket: in every run the count
    of a bucket key is the number of requests holding it, at most 16; a further request
    is admitted exactly while fewer than 16 hold; and the keys reported as occupied
    are those with a holder. *)
Theorem overload_holds_capped (s : counts) hs k :
  hold_run s hs →
  getActiveOverloadHoldCount k s = occ k hs ∧
  occ k hs <= OVERLOAD_HOLD_MAX_CONCURRENT_PER_BUCKET ∧
  ((tryAcquireOverloadHoldSlot k OVERLOAD_HOLD_MAX_CONCURRENT_PER_BUCKET s).1 = true ↔
     occ k hs < OVERLOAD_HOLD_MAX_CONCURRENT_PER_BUCKET) ∧
  (k ∈ getOccupiedOverloadHoldKeys s ↔ k ∈ hs).
Proof.
  intros Hr. pose proof (hold_run_holds s hs Hr) as Hh.
  split; [by apply slot_holds_count|]. split; [by eapply hold_run_capped|].
  split; [by apply hold_run_admits|by apply slot_holds_occupied].
Qed.

(** The burst-retry holds are counted exactly and never exceed 8, also when a slot
    is released that nobody holds. *)
Theorem burst_holds_capped (s : counts) n :
  burst_run s n →
  getActiveHoldCount s = Z.of_nat n ∧ Z.of_nat n <= BURST_RETRY_MAX_CONCURRENT_HOLDS ∧
  getActiveHoldCount (releaseHoldSlot s) = Z.max 0 (Z.of_nat n - 1).
Proof.
  intros Hr. pose proof (burst_run_holds s n Hr) as [Hh Hle].
  assert (∀ (s : counts) n, slot_holds s (replicate n HOLD_SLOT_KEY) →
            getActiveHoldCount s = Z.of_nat n) as Hc.
  { intros s0 n0 H0. rewrite <-occ_repeat. by apply slot_holds_count. }
  split; [by apply Hc|]. split; [done|].
  destruct n as [|n].
  - apply (Hc _ 0%nat). eapply burst_run_holds. by apply burst_spurious_leave.
  - rewrite (Hc _ n); [lia|]. eapply burst_run_holds. by apply burst_leave.
Qed.

Definition burst_inv (es : list burst_event) (now : Z) (st : burst) : Prop :=
  match anthropicBurstThrottleUntil st with
  | None => ∀ t, Mark t ∈ es → t + BURST_RETRY_MARKER_MS <= now
  | Some u =>
      0 < u ∧ (∃ t, Mark t ∈ es ∧ u = t + BURST_RETRY_MARKER_MS) ∧
      ∀ t, Mark t ∈ es → t + BURST_RETRY_MARKER_MS <= u
  end.

Lemma mark_until st t :
  anthropicBurstThrottleUntil (markAnthropicBurstThrottle t BURST_RETRY_MARKER_MS st) =
  Some (match anthropicBurstThrottleUntil st with
        | Some p => if p <=? t then t + BURST_RETRY_MARKER_MS
                    else Z.max p (t + BURST_RETRY_MARKER_MS)
        | None => t + BURST_RETRY_MARKER_MS
        end).
Proof.
  unfold markAnthropicBurstThrottle. destruct (anthropicBurstThrottleUntil st) as [p|]; [|done].
  destruct (p <=? t); simpl; [done|]. by destruct (_ <=? _).
Qed.

Lemma burst_inv_exec es now st e :
  0 <= now → now <= event_time e → burst_inv es now st →
  burst_inv (es ++ [e]) (event_time e) (burst_exec st e).
Proof.
  intros Hpos Hle Hinv. unfold burst_inv in *.
  assert (∀ t, Mark t ∈ es ++ [e] ↔ Mark t ∈ es ∨ Mark t = e) as Hin
    by (intros t; rewrite elem_of_app, list_elem_of_singleton; done).
  destruct e as [t|t]; simpl in *.
  - rewrite mark_until.
    destruct (anthropicBurstThrottleUntil st) as [p|].
    + destruct Hinv as (Hp & (t0 & Ht0 & Hu) & Hall).
      assert (0 < BURST_RETRY_MARKER_MS) by done.
      destruct (p <=? t) eqn:E; prop_bools.
      * split; [lia|]. split; [exists t; split; [apply Hin; by right|done]|].
        intros t' [Ht'|Ht']%Hin; [apply Hall in Ht'; lia|by simplify_eq].
      * split; [lia|]. split.
        { destruct (decide (p <= t + BURST_RETRY_MARKER_MS)).
          - exists t. split; [apply Hin; by right|lia].
          - exists t0. split; [apply Hin; by left|lia]. }
        intros t' [Ht'|Ht']%Hin; [apply Hall in Ht'; lia|simplify_eq; lia].
    + assert (0 < BURST_RETRY_MARKER_MS) by done.
      split; [lia|]. split; [exists t; split; [apply Hin; by right|done]|].
      intros t' [Ht'|Ht']%Hin; [apply Hinv in Ht'; lia|by simplify_eq].
  - unfold isAnthropicBurstThrottleActive, st_bind, getAnthropicBurstThrottleUntil.
    destruct (anthropicBurstThrottleUntil st) as [u|] eqn:Eu.
    + destruct Hinv as (Hp & (t0 & Ht0 & Hu) & Hall).
      destruct (u =? 0) eqn:E0; prop_bools; [lia|].
      destruct (u <=? t) eqn:E; prop_bools; simpl.
      * intros t' [Ht'|Ht']%Hin; [apply Hall in Ht'; lia|done].
      * rewrite Eu. split; [done|]. split; [exists t0; split; [apply Hin; by left|done]|].
        intros t' [Ht'|Ht']%Hin; [by apply Hall in Ht'|done].
    + simpl. rewrite Eu. intros t' [Ht'|Ht']%Hin; [apply Hinv in Ht'; lia|done].
Qed.

Fixpoint last_time (from : Z) (es : list burst_event) : Z :=
  match es with [] => from | e :: es => last_time (event_time e) es end.

Lemma burst_inv_run es es0 now st :
  0 <= now → clocked now es → burst_inv es0 now st →
  burst_inv (es0 ++ es) (last_time now es) (foldl burst_exec st es) ∧ 0 <= last_time now es.
Proof.
  revert es0 now st. induction es as [|e es IH]; intros es0 now st Hpos Hc Hi; simpl.
  { by rewrite app_nil_r. }
  destruct Hc as [Hle Hc]. replace (es0 ++ e :: es) with ((es0 ++ [e]) ++ es) by
    (by rewrite <-app_assoc).
  apply IH; [lia|done|]. by eapply burst_inv_exec.
Qed.

(** burst protection follows the evidence. Under a clock that does not step back,
    after any sequence of upstream burst observations and (state-clearing) reads, the
    throttle reads as active exactly when some observation is less than two minutes
    old. *)
Theorem burst_active_iff es now :
  clocked 0 es → last_time 0 es <= now →
  (isAnthropicBurstThrottleActive now (foldl burst_exec clearAnthropicBurstThrottle es)).1 = true
  ↔ ∃ t, Mark t ∈ es ∧ now < t + BURST_RETRY_MARKER_MS.
Proof.
  intros Hc Hle.
  assert (burst_inv [] 0 clearAnthropicBurstThrottle) as H0 by (by intros ? ?%elem_of_nil).
  destruct (burst_inv_run es [] 0 clearAnthropicBurstThrottle ltac:(lia) Hc H0) as [Hi Hpos].
  rewrite app_nil_l in Hi. revert Hi. generalize (foldl burst_exec clearAnthropicBurstThrottle es).
  intros st. unfold burst_inv, isAnthropicBurstThrottleActive, st_bind,
    getAnthropicBurstThrottleUntil.
  destruct (anthropicBurstThrottleUntil st) as [u|].
  - intros (Hp & (t0 & Ht0 & Hu) & Hall).
    destruct (u =? 0) eqn:E0; prop_bools; [lia|].
    destruct (u <=? now) eqn:E; prop_bools; simpl.
    + split; [done|]. intros (t & Ht%Hall & ?). lia.
    + split; [|done]. intros _. exists t0. split; [done|lia].
  - intros Hall. simpl. split; [done|]. intros (t & Ht%Hall & ?). lia.
Qed.

(** * Concrete runs *)

Lemma overload_holds_capped_witness :
  ∃ s : counts, hold_run s ["k"] ∧
    getActiveOverloadHoldCount "k" s = 1.
Proof.
  exists (sem_tryAcquire "k" OVERLOAD_HOLD_MAX_CONCURRENT_PER_BUCKET ∅).2.
  assert (hold_run (S := counts)
            (sem_tryAcquire "k" OVERLOAD_HOLD_MAX_CONCURRENT_PER_BUCKET ∅).2 ["k"]) as Hr.
  { eapply (hold_enter (S := counts) slot_empty []); [apply hold_start|reflexivity]. }
  split; [exact Hr|]. apply (overload_holds_capped _ ["k"] "k" Hr).
Defined.

Lemma burst_holds_capped_witness :
  ∃ s : counts, burst_run s 1 ∧ getActiveHoldCount (releaseHoldSlot s) = 0.
Proof.
  exists (tryAcquireHoldSlot BURST_RETRY_MAX_CONCURRENT_HOLDS (∅ : counts)).2.
  assert (burst_run (S := counts)
    (tryAcquireHoldSlot BURST_RETRY_MAX_CONCURRENT_HOLDS (∅ : counts)).2 1) as Hr.
  { eapply (burst_enter (S := counts) slot_empty 0); [apply burst_start|reflexivity]. }
  split; [exact Hr|]. apply (burst_holds_capped _ 1%nat Hr).
Defined.

Lemma burst_active_iff_witness :
  let es := [Mark 1000; Read 5000; Mark 60000; Read 125000] in
  (isAnthropicBurstThrottleActive 179999
     (foldl burst_exec clearAnthropicBurstThrottle es)).1 = true.
Proof.
  apply (burst_active_iff [Mark 1000; Read 5000; Mark 60000; Read 125000] 179999).
  - simpl. lia.
  - simpl. lia.
  - exists 60000. split; [right; right; left|reflexivity].
Defined.
