(* ===== verification/Providers.v ===== *)
(** The provider table and the gates that read it:
    [packages/types/src/provider-config.ts]. *)

From S2P Require Import Prelude.

(** The values of [PROVIDER_NAMES], in declaration order. *)
Definition PROVIDER_NAMES : list string :=
  ["anthropic";
   "claude-console-api";
   "zai";
   "minimax";
   "anthropic-compatible";
   "openai-compatible";
   "kilo";
   "openrouter";
   "alibaba-coding-plan";
   "codex";
   "devin";
   "qwen";
   "ollama";
   "ollama-cloud";
   "grok";
   "mimo";
   "grok-subscription"].

Definition isKnownProvider (provider : string) : bool := bool_decide (provider ∈ PROVIDER_NAMES).

Record ProviderConfig := {
  cfg_requiresSessionTracking : bool;
  cfg_supportsUsageTracking : bool;
  cfg_supportsUsagePolling : bool;
  cfg_supportsOAuth : bool;
  cfg_honoursCustomEndpoint : bool;
  cfg_defaultEndpoint : option string
}.

Definition PROVIDER_CONFIG : list (string * ProviderConfig) :=
  [("devin",
    {| cfg_requiresSessionTracking := false; cfg_supportsUsageTracking := true;
       cfg_supportsUsagePolling := true; cfg_supportsOAuth := false;
       cfg_honoursCustomEndpoint := true;
       cfg_defaultEndpoint := Some "https://server.codeium.com" |});
   ("anthropic",
    {| cfg_requiresSessionTracking := true; cfg_supportsUsageTracking := true;
       cfg_supportsUsagePolling := true; cfg_supportsOAuth := true;
       cfg_honoursCustomEndpoint := true;
       cfg_defaultEndpoint := Some "https://api.anthropic.com" |});
   ("claude-console-api",
    {| cfg_requiresSessionTracking := false; cfg_supportsUsageTracking := false;
       cfg_supportsUsagePolling := false; cfg_supportsOAuth := false;
       cfg_honoursCustomEndpoint := true;
       cfg_defaultEndpoint := Some "https://api.anthropic.com" |});
   ("zai",
    {| cfg_requiresSessionTracking := true; cfg_supportsUsageTracking := true;
       cfg_supportsUsagePolling := true; cfg_supportsOAuth := false;
       cfg_honoursCustomEndpoint := false;
       cfg_defaultEndpoint := Some "https://api.z.ai/api/anthropic" |});
   ("minimax",
    {| cfg_requiresSessionTracking := false; cfg_supportsUsageTracking := true;
       cfg_supportsUsagePolling := false; cfg_supportsOAuth := false;
       cfg_honoursCustomEndpoint := false;
       cfg_defaultEndpoint := Some "https://api.minimax.io/anthropic" |});
   ("anthropic-compatible",
    {| cfg_requiresSessionTracking := false; cfg_supportsUsageTracking := false;
       cfg_supportsUsagePolling := false; cfg_supportsOAuth := false;
       cfg_honoursCustomEndpoint := true;
       cfg_defaultEndpoint := Some "https://api.anthropic.com" |});
   ("openai-compatible",
    {| cfg_requiresSessionTracking := false; cfg_supportsUsageTracking := false;
       cfg_supportsUsagePolling := false; cfg_supportsOAuth := false;
       cfg_honoursCustomEndpoint := true;
       cfg_defaultEndpoint := Some "https://api.anthropic.com" |});
   ("kilo",
    {| cfg_requiresSessionTracking := false; cfg_supportsUsageTracking := true;
       cfg_supportsUsagePolling := true; cfg_supportsOAuth := false;
       cfg_honoursCustomEndpoint := true;
       cfg_defaultEndpoint := Some "https://api.kilo.ai/api/gateway" |});
   ("openrouter",
    {| cfg_requiresSessionTracking := false; cfg_supportsUsageTracking := false;
       cfg_supportsUsagePolling := false; cfg_supportsOAuth := false;
       cfg_honoursCustomEndpoint := true;
       cfg_defaultEndpoint := Some "https://openrouter.ai/api/v1" |});
   ("alibaba-coding-plan",
    {| cfg_requiresSessionTracking := false; cfg_supportsUsageTracking := false;
       cfg_supportsUsagePolling := false; cfg_supportsOAuth := false;
       cfg_honoursCustomEndpoint := true;
       cfg_defaultEndpoint := Some "https://coding-intl.dashscope.aliyuncs.com/apps/anthropic" |});
   ("codex",
    {| cfg_requiresSessionTracking := true; cfg_supportsUsageTracking := false;
       cfg_supportsUsagePolling := false; cfg_supportsOAuth := true;
       cfg_honoursCustomEndpoint := true;
       cfg_defaultEndpoint := Some "https://chatgpt.com/backend-api/codex/responses" |});
   ("qwen",
    {| cfg_requiresSessionTracking := false; cfg_supportsUsageTracking := true;
       cfg_supportsUsagePolling := false; cfg_supportsOAuth := true;
       cfg_honoursCustomEndpoint := true;
       cfg_defaultEndpoint := Some "https://dashscope.aliyuncs.com/compatible-mode/v1" |});
   ("ollama",
    {| cfg_requiresSessionTracking := false; cfg_supportsUsageTracking := false;
       cfg_supportsUsagePolling := false; cfg_supportsOAuth := false;
       cfg_honoursCustomEndpoint := true;
       cfg_defaultEndpoint := Some "http://localhost:11434" |});
   ("ollama-cloud",
    {| cfg_requiresSessionTracking := false; cfg_supportsUsageTracking := false;
       cfg_supportsUsagePolling := false; cfg_supportsOAuth := false;
       cfg_honoursCustomEndpoint := false;
       cfg_defaultEndpoint := Some "https://ollama.com" |});
   ("grok",
    {| cfg_requiresSessionTracking := false; cfg_supportsUsageTracking := false;
       cfg_supportsUsagePolling := false; cfg_supportsOAuth := false;
       cfg_honoursCustomEndpoint := false;
       cfg_defaultEndpoint := Some "https://api.x.ai" |});
   ("mimo",
    {| cfg_requiresSessionTracking := false; cfg_supportsUsageTracking := false;
       cfg_supportsUsagePolling := false; cfg_supportsOAuth := false;
       cfg_honoursCustomEndpoint := true;
       cfg_defaultEndpoint := Some "https://token-plan-sgp.xiaomimimo.com/anthropic" |});
   ("grok-subscription",
    {| cfg_requiresSessionTracking := false; cfg_supportsUsageTracking := true;
       cfg_supportsUsagePolling := true; cfg_supportsOAuth := true;
       cfg_honoursCustomEndpoint := false;
       cfg_defaultEndpoint := Some "https://cli-chat-proxy.grok.com" |})].

(** [PROVIDER_CONFIG[provider]] *)
Definition provider_config (provider : string) : option ProviderConfig :=
  alist_get provider PROVIDER_CONFIG.

(** The shape the gates share: unknown and unconfigured providers are denied. *)
Definition provider_flag (f : ProviderConfig → bool) (provider : string) : bool :=
  if negb (isKnownProvider provider) then false
  else match provider_config provider with Some c => f c | None => false end.

Definition requiresSessionDurationTracking (provider : string) : bool :=
  provider_flag cfg_requiresSessionTracking provider.
Definition supportsUsageTracking (provider : string) : bool :=
  provider_flag cfg_supportsUsageTracking provider.
Definition supportsUsagePolling (provider : string) : bool :=
  provider_flag cfg_supportsUsagePolling provider.
Definition supportsCustomEndpoint (provider : string) : bool :=
  provider_flag cfg_honoursCustomEndpoint provider.
Definition supportsOAuth (provider : string) : bool :=
  provider_flag cfg_supportsOAuth provider.

Definition FALLBACK_ENDPOINT : string := "https://api.anthropic.com".

Definition getDefaultEndpoint (provider : string) : string :=
  if negb (isKnownProvider provider) then FALLBACK_ENDPOINT
  else match provider_config provider with
       | Some c => match cfg_defaultEndpoint c with
                   | Some "" | None => FALLBACK_ENDPOINT
                   | Some e => e
                   end
       | None => FALLBACK_ENDPOINT
       end.

Lemma known_cases (P : string → Prop) :
  Forall P PROVIDER_NAMES → ∀ p, isKnownProvider p = true → P p.
Proof.
  intros HP p Hp. unfold isKnownProvider in Hp. apply bool_decide_eq_true in Hp.
  rewrite Forall_forall in HP. by apply HP.
Qed.

Lemma provider_flag_known f p : provider_flag f p = true → isKnownProvider p = true.
Proof. unfold provider_flag. by destruct (isKnownProvider p). Qed.

Lemma provider_flag_implies (f g : ProviderConfig → bool) :
  Forall (λ '(_, c), implb (f c) (g c) = true) PROVIDER_CONFIG →
  ∀ p, provider_flag f p = true → provider_flag g p = true.
Proof.
  intros HF p. unfold provider_flag. destruct (negb _); [done|].
  unfold provider_config. destruct (alist_get p PROVIDER_CONFIG) as [c|] eqn:E; [|done].
  apply alist_get_In in E. rewrite Forall_forall in HF. specialize (HF _ E). simpl in HF.
  intros Hf. by rewrite Hf in HF.
Qed.

(** The two flags differ only in one direction, for these two providers. *)
Lemma tracked_not_polled p :
  supportsUsageTracking p = true → supportsUsagePolling p = false →
  p = "qwen" ∨ p = "minimax".
Proof.
  intros Ht. pose proof (provider_flag_known _ _ Ht) as Hk. revert p Hk Ht.
  refine (known_cases (λ p, _ → _ → _) _).
  unfold PROVIDER_NAMES. rewrite !Forall_cons, Forall_nil. repeat split; intros H1 H2; vm_compute in H1, H2;
    try discriminate; auto.
Qed.

(** The provider gates deny by default and agree with each other: an unknown
    provider gets no flag and the Anthropic endpoint; every known provider has a
    configuration with its own endpoint; a provider whose polling may be started is
    always one whose usage is tracked; qwen, codex and minimax are never polled, and of
    the tracked providers only qwen and minimax are not. *)
Theorem provider_gates p :
  (isKnownProvider p = false →
     requiresSessionDurationTracking p = false ∧ supportsUsageTracking p = false ∧
     supportsUsagePolling p = false ∧ supportsCustomEndpoint p = false ∧
     supportsOAuth p = false ∧ getDefaultEndpoint p = FALLBACK_ENDPOINT) ∧
  (isKnownProvider p = true →
     ∃ c e, provider_config p = Some c ∧ cfg_defaultEndpoint c = Some e ∧
            getDefaultEndpoint p = e) ∧
  (supportsUsagePolling p = true →
     supportsUsageTracking p = true ∧ p ≠ "qwen" ∧ p ≠ "codex" ∧ p ≠ "minimax") ∧
  (supportsUsageTracking p = true → supportsUsagePolling p = false →
     p = "qwen" ∨ p = "minimax").
Proof.
  split; [|split; [|split; [|apply tracked_not_polled]]].
  - intros Hk. unfold requiresSessionDurationTracking, supportsUsageTracking,
      supportsUsagePolling, supportsCustomEndpoint, supportsOAuth, getDefaultEndpoint,
      provider_flag. by rewrite Hk.
  - intros Hk. revert p Hk. apply known_cases.
    repeat constructor; eexists _, _; (split; [reflexivity|split; reflexivity]).
  - intros Hp. split; [|split; [|split]; intros ->; by vm_compute in Hp].
    revert Hp. apply provider_flag_implies. by repeat constructor.
Qed.

Lemma provider_gates_witness :
  supportsUsageTracking "anthropic" = true ∧ "anthropic"%string ≠ "qwen".
Proof.
  destruct (provider_gates "anthropic") as (_ & _ & H & _).
  destruct H as (? & ? & _); [reflexivity|]. by split.
Defined.
