(* ===== verification/Accounts.v ===== *)
(** Accounts as stored and as used: [packages/types/src/account.ts] (rate-limit
    reasons, [toAccount]), [packages/core/src/strategy.ts],
    [packages/load-balancer/src/strategies/pause-reasons.ts] and
    [peek-availability.ts], and the list prices of
    [packages/core/src/subscription-pricing.ts].

    A database row groups the columns by what writes them together; booleans are
    SQLite integers, nullable columns are options. *)

From S2P Require Import Prelude Models Providers.
Open Scope Z_scope.

(** * Rate-limit reasons *)

Definition RATE_LIMIT_REASONS : list string :=
  ["upstream_429_with_reset";
   "upstream_429_no_reset_probe_cooldown";
   "model_fallback_429";
   "all_models_exhausted_429";
   "upstream_529_overloaded_with_reset";
   "upstream_529_overloaded_no_reset";
   "out_of_credits";
   "org_permission_denied";
   "family_weekly_exhausted_429";
   "weekly_exhausted_429";
   "session_exhausted_429"]%string.

Definition isRateLimitReason (value : string) : bool :=
  bool_decide (value ∈ RATE_LIMIT_REASONS).

Definition QUOTA_DERIVED_RATE_LIMIT_REASONS : list string :=
  ["weekly_exhausted_429"; "session_exhausted_429"]%string.

Definition isQuotaDerivedRateLimitReason (value : option string) : bool :=
  match value with
  | None => false
  | Some v => bool_decide (v ∈ QUOTA_DERIVED_RATE_LIMIT_REASONS)
  end.

Definition PAUSE_REASON_NEEDS_REAUTH : string := "oauth_invalid_grant".

Definition isSelfHealingPauseReason (reason : option string) : bool :=
  match reason with
  | None => true
  | Some r =>
      bool_decide (r = ""%string) || bool_decide (r = "overage"%string)
      || bool_decide (r = "rate_limit_window"%string)
  end.

(** * The stored row *)

Record identity_cols := {
  identity_external_id : option string;
  identity_email : option string;
  identity_organization_name : option string;
  identity_plan_tier : option string;
  identity_rate_limit_tier : option string;
  identity_organization_uuid : option string;
  identity_subscription_status : option string;
  identity_subscription_started_at : option Z
}.

Record subscription_cols := {
  subscription_ends_at : option Z;
  subscription_will_renew : option Z;
  subscription_grace_ends_at : option Z;
  subscription_checked_at : option Z
}.

Record credential_cols := {
  api_key : option string;
  refresh_token : option string;
  access_token : option string;
  expires_at : option Z;
  refresh_token_issued_at : option Z;
  refresh_token_expires_at : option Z
}.

Record pause_cols := {
  paused : option Z;
  pause_reason : option string;
  pause_epoch : Z;
  pause_changed_at : option Z
}.

Record limit_cols := {
  rate_limited_until : option Z;
  rate_limited_reason : option string;
  rate_limited_at : option Z;
  consecutive_rate_limits : Z;
  rate_limit_status : option string;
  rate_limit_reset : option Z;
  rate_limit_remaining : option Z
}.

Record session_cols := {
  last_used : option Z;
  request_count : option Z;
  total_requests : option Z;
  session_start : option Z;
  session_request_count : option Z
}.

Record renewal_cols := {
  renewal_anchor : option string;
  renewal_anchor_source : option string;
  renewal_cadence : option string;
  renewal_price_usd_micros : option Z;
  renewal_price_source : option string;
  renewal_auto_start_date : option string
}.

Record settings_cols := {
  name : string;
  priority : option Z;
  auto_fallback_enabled : option Z;
  auto_pause_on_overage_enabled : option Z;
  billing_type : option string;
  notes : option string
}.

Record flag_cols := {
  auto_refresh_enabled : option Z;
  peak_hours_pause_enabled : Z;
  codex_auto_apply_reset_credits_enabled : Z;
  codex_auto_apply_reset_on_weekly_limit_enabled : Z;
  codex_fast_mode_enabled : Z;
  anthropic_auto_apply_banked_resets_enabled : Z;
  anthropic_auto_apply_banked_reset_on_weekly_limit_enabled : Z
}.

(** [AccountRow]; [disabled] is NOT NULL. The columns of the usage snapshots
    ([openrouter_metadata_json], [codex_usage_json], [codex_usage_observed_at]) are
    not part of it. *)
Record AccountRow := {
  provider : option string;
  custom_endpoint : option string;
  disabled : Z;
  created_at : Z;
  settings : settings_cols;
  flags : flag_cols;
  creds : credential_cols;
  pause : pause_cols;
  limit : limit_cols;
  session : session_cols;
  ident : identity_cols;
  identity_captured_at : option Z;
  identity_profile_fetched_at : option Z;
  subscription : subscription_cols;
  renewal : renewal_cols
}.

(** * The account requests work with *)

(** The fields of [Account] that routing does not read *)
Record AccountProfile := {
  prof_api_key : option string;
  prof_created_at : Z;
  prof_last_used : option Z;
  prof_request_count : Z;
  prof_total_requests : Z;
  prof_auto_refresh_enabled : bool;
  prof_peak_hours_pause_enabled : bool;
  prof_codex_auto_apply_reset_credits_enabled : bool;
  prof_codex_auto_apply_reset_on_weekly_limit_enabled : bool;
  prof_codex_fast_mode_enabled : bool;
  prof_anthropic_auto_apply_banked_resets_enabled : bool;
  prof_anthropic_auto_apply_banked_reset_on_weekly_limit_enabled : bool;
  prof_billing_type : option string;
  prof_notes : option string;
  prof_refresh_token_issued_at : option Z;
  prof_refresh_token_expires_at : option Z;
  prof_renewal : renewal_cols;
  prof_identity : identity_cols;
  prof_subscription : subscription_cols;
  prof_identity_captured_at : option Z;
  prof_identity_profile_fetched_at : option Z
}.

(** [Account]: the columns after normalisation. *)
Record Account := {
  acc_id : string;
  acc_name : string;
  acc_provider : string;
  acc_refresh_token : option string;
  acc_access_token : option string;
  acc_expires_at : option Z;
  acc_session_start : option Z;
  acc_session_request_count : Z;
  acc_paused : bool;
  acc_disabled : bool;
  acc_pause_reason : option string;
  acc_priority : Z;
  acc_auto_fallback_enabled : bool;
  acc_auto_pause_on_overage_enabled : bool;
  acc_custom_endpoint : option string;
  acc_rate_limited_until : option Z;
  acc_rate_limited_reason : option string;
  acc_rate_limited_at : option Z;
  acc_consecutive_rate_limits : Z;
  acc_rate_limit_status : option string;
  acc_rate_limit_reset : option Z;
  acc_rate_limit_remaining : option Z;
  acc_profile : AccountProfile
}.

(** [Number(v) || 0] on an integer column *)
Definition toNum (v : option Z) : Z := default 0 v.

(** An integer column as a number, with 0 read as absent. *)
Definition toNumOrNull (v : option Z) : option Z :=
  match v with Some n => if n =? 0 then None else Some n | None => None end.

(** [!!v] on an integer column *)
Definition truthy_int (v : option Z) : bool :=
  match v with Some n => negb (n =? 0) | None => false end.

(** [toFlagOrNull] *)
Definition toFlagOrNull (v : option Z) : option Z :=
  (λ n, if n =? 1 then 1 else 0) <$> v.

Definition flag (v : Z) : bool := negb (v =? 0).

Definition toProfile (row : AccountRow) : AccountProfile :=
  let n := renewal row in let i := ident row in let u := subscription row in
  {| prof_api_key := api_key (creds row);
     prof_created_at := created_at row;
     prof_last_used := toNumOrNull (last_used (session row));
     prof_request_count := toNum (request_count (session row));
     prof_total_requests := toNum (total_requests (session row));
     prof_auto_refresh_enabled := truthy_int (auto_refresh_enabled (flags row));
     prof_peak_hours_pause_enabled := flag (peak_hours_pause_enabled (flags row));
     prof_codex_auto_apply_reset_credits_enabled :=
       flag (codex_auto_apply_reset_credits_enabled (flags row));
     prof_codex_auto_apply_reset_on_weekly_limit_enabled :=
       flag (codex_auto_apply_reset_on_weekly_limit_enabled (flags row));
     prof_codex_fast_mode_enabled := flag (codex_fast_mode_enabled (flags row));
     prof_anthropic_auto_apply_banked_resets_enabled :=
       flag (anthropic_auto_apply_banked_resets_enabled (flags row));
     prof_anthropic_auto_apply_banked_reset_on_weekly_limit_enabled :=
       flag (anthropic_auto_apply_banked_reset_on_weekly_limit_enabled (flags row));
     prof_billing_type := truthy_string (billing_type (settings row));
     prof_notes := truthy_string (notes (settings row));
     prof_refresh_token_issued_at := toNumOrNull (refresh_token_issued_at (creds row));
     prof_refresh_token_expires_at := toNumOrNull (refresh_token_expires_at (creds row));
     prof_renewal :=
       {| renewal_anchor := truthy_string (renewal_anchor n);
          renewal_anchor_source := truthy_string (renewal_anchor_source n);
          renewal_cadence := truthy_string (renewal_cadence n);
          renewal_price_usd_micros := toNumOrNull (renewal_price_usd_micros n);
          renewal_price_source := truthy_string (renewal_price_source n);
          renewal_auto_start_date := truthy_string (renewal_auto_start_date n) |};
     prof_identity :=
       {| identity_external_id := identity_external_id i; identity_email := identity_email i;
          identity_organization_name := identity_organization_name i;
          identity_plan_tier := identity_plan_tier i;
          identity_rate_limit_tier := identity_rate_limit_tier i;
          identity_organization_uuid := identity_organization_uuid i;
          identity_subscription_status := identity_subscription_status i;
          identity_subscription_started_at :=
            toNumOrNull (identity_subscription_started_at i) |};
     prof_subscription :=
       {| subscription_ends_at := toNumOrNull (subscription_ends_at u);
          subscription_will_renew := toFlagOrNull (subscription_will_renew u);
          subscription_grace_ends_at := toNumOrNull (subscription_grace_ends_at u);
          subscription_checked_at := toNumOrNull (subscription_checked_at u) |};
     prof_identity_captured_at := toNumOrNull (identity_captured_at row);
     prof_identity_profile_fetched_at := toNumOrNull (identity_profile_fetched_at row) |}.

Definition toAccount (id : string) (row : AccountRow) : Account :=
  {| acc_id := id;
     acc_name := name (settings row);
     acc_provider := default "anthropic"%string (truthy_string (provider row));
     acc_refresh_token := refresh_token (creds row);
     acc_access_token := access_token (creds row);
     acc_expires_at := toNumOrNull (expires_at (creds row));
     acc_session_start := toNumOrNull (session_start (session row));
     acc_session_request_count := toNum (session_request_count (session row));
     acc_paused := truthy_int (paused (pause row));
     acc_disabled := negb (disabled row =? 0);
     acc_pause_reason := truthy_string (pause_reason (pause row));
     acc_priority := toNum (priority (settings row));
     acc_auto_fallback_enabled := truthy_int (auto_fallback_enabled (settings row));
     acc_auto_pause_on_overage_enabled :=
       truthy_int (auto_pause_on_overage_enabled (settings row));
     acc_custom_endpoint := truthy_string (custom_endpoint row);
     acc_rate_limited_until := toNumOrNull (rate_limited_until (limit row));
     acc_rate_limited_reason := rate_limited_reason (limit row);
     acc_rate_limited_at := toNumOrNull (rate_limited_at (limit row));
     acc_consecutive_rate_limits := consecutive_rate_limits (limit row);
     acc_rate_limit_status := truthy_string (rate_limit_status (limit row));
     acc_rate_limit_reset := toNumOrNull (rate_limit_reset (limit row));
     acc_rate_limit_remaining := toNumOrNull (rate_limit_remaining (limit row));
     acc_profile := toProfile row |}.

(** * Availability *)

(** [!until || until < now] on a nullable timestamp *)
Definition lapsed_before (until : option Z) (now : Z) : bool :=
  match until with Some u => (u =? 0) || (u <? now) | None => true end.

Definition isAccountAvailable (a : Account) (now : Z) : bool :=
  negb (acc_disabled a) && negb (acc_paused a)
  && lapsed_before (acc_rate_limited_until a) now.

Definition RATE_LIMIT_RESET_BUFFER_MS : Z := 1000.

Definition supportsWindowResetUnpause (provider : string) : bool :=
  bool_decide (provider = "anthropic"%string) || bool_decide (provider = "codex"%string)
  || bool_decide (provider = "zai"%string).

Definition isAutoUnpauseCandidate (a : Account) (now : Z) : bool :=
  if acc_disabled a || negb (acc_paused a) then false
  else if negb (acc_auto_fallback_enabled a) then false
  else if negb (supportsWindowResetUnpause (acc_provider a)) then false
  else
    let windowReset :=
      match acc_rate_limit_reset a with
      | Some r => r <? now - RATE_LIMIT_RESET_BUFFER_MS
      | None => false
      end in
    if negb windowReset then false
    else
      match acc_rate_limited_until a with
      | Some u => if negb (u =? 0) && (now <=? u) then false else true
      | None => true
      end.

Definition wouldAutoUnpause (a : Account) (now : Z) : bool :=
  isAutoUnpauseCandidate a now && isSelfHealingPauseReason (acc_pause_reason a).

Definition isPeekAvailable (a : Account) (now : Z) : bool :=
  if isAccountAvailable a now then true
  else if negb (wouldAutoUnpause a now) then false
  else lapsed_before (acc_rate_limited_until a) now.

Definition isOAuthAnthropicAccount (a : Account) : bool :=
  bool_decide (acc_provider a = "anthropic"%string)
  && supportsUsageTracking (acc_provider a)
  && match acc_refresh_token a with
     | Some t => negb (bool_decide (t = ""%string))
     | None => false
     end.

(** * Subscription list prices *)

Record SubscriptionPriceInput := {
  price_provider : option string;
  price_planTier : option string;
  price_rateLimitTier : option string;
  price_cadence : option string
}.

Definition USD : Z := 1000000.
Definition ANTHROPIC_MONTHLY_USD_MICROS : list (string * Z) := [("pro", 20 * USD)]%string.
Definition ANTHROPIC_MAX_BY_RATE_LIMIT_TIER : list (string * Z) :=
  [("5x", 100 * USD); ("20x", 200 * USD)]%string.
Definition CODEX_MONTHLY_USD_MICROS : list (string * Z) :=
  [("plus", 20 * USD); ("pro", 200 * USD); ("prolite", 100 * USD)]%string.

Definition normalised (v : option string) : option string :=
  (λ s, toLowerCase (trim s)) <$> v.

(** The three tables are read as plain records: a tier named like a property of
    [Object.prototype] is outside the model. *)
Definition deriveSubscriptionPriceUsdMicros (input : SubscriptionPriceInput) : option Z :=
  let cadence := default ""%string (normalised (price_cadence input)) in
  if negb (bool_decide (cadence = ""%string)) && negb (bool_decide (cadence = "monthly"%string))
  then None
  else
    match truthy_string (normalised (price_planTier input)) with
    | None => None
    | Some planTier =>
        let provider :=
          default "anthropic"%string (truthy_string (normalised (price_provider input))) in
        if bool_decide (provider = "anthropic"%string) then
          if bool_decide (planTier = "max"%string) then
            match truthy_string (normalised (price_rateLimitTier input)) with
            | None => None
            | Some multiplier => alist_get multiplier ANTHROPIC_MAX_BY_RATE_LIMIT_TIER
            end
          else alist_get planTier ANTHROPIC_MONTHLY_USD_MICROS
        else if bool_decide (provider = "codex"%string)
        then alist_get planTier CODEX_MONTHLY_USD_MICROS
        else None
    end.

(** * The read-only availability check *)

(** What selection tests after its auto-unpause: the account resumed. *)
Definition unpaused (a : Account) : Account :=
  {| acc_id := acc_id a; acc_name := acc_name a; acc_provider := acc_provider a;
     acc_refresh_token := acc_refresh_token a; acc_access_token := acc_access_token a;
     acc_expires_at := acc_expires_at a; acc_session_start := acc_session_start a;
     acc_session_request_count := acc_session_request_count a;
     acc_paused := false; acc_disabled := acc_disabled a; acc_pause_reason := None;
     acc_priority := acc_priority a;
     acc_auto_fallback_enabled := acc_auto_fallback_enabled a;
     acc_auto_pause_on_overage_enabled := acc_auto_pause_on_overage_enabled a;
     acc_custom_endpoint := acc_custom_endpoint a;
     acc_rate_limited_until := acc_rate_limited_until a;
     acc_rate_limited_reason := acc_rate_limited_reason a;
     acc_rate_limited_at := acc_rate_limited_at a;
     acc_consecutive_rate_limits := acc_consecutive_rate_limits a;
     acc_rate_limit_status := acc_rate_limit_status a;
     acc_rate_limit_reset := acc_rate_limit_reset a;
     acc_rate_limit_remaining := acc_rate_limit_remaining a;
     acc_profile := acc_profile a |}.

Lemma unpause_candidate_spec a now :
  isAutoUnpauseCandidate a now = true →
  acc_disabled a = false ∧ acc_paused a = true ∧ acc_auto_fallback_enabled a = true ∧
  supportsWindowResetUnpause (acc_provider a) = true ∧
  (∃ r, acc_rate_limit_reset a = Some r ∧ r < now - RATE_LIMIT_RESET_BUFFER_MS) ∧
  lapsed_before (acc_rate_limited_until a) now = true.
Proof.
  unfold isAutoUnpauseCandidate, lapsed_before.
  destruct (acc_disabled a), (acc_paused a); try done.
  destruct (acc_auto_fallback_enabled a), (supportsWindowResetUnpause _); try done. simpl.
  destruct (acc_rate_limit_reset a) as [r|]; [|done].
  destruct (r <? now - RATE_LIMIT_RESET_BUFFER_MS) eqn:Er; [|done]. prop_bools. simpl.
  intros Hu. repeat split; [by exists r|].
  destruct (acc_rate_limited_until a) as [u|]; [|done].
  destruct (u =? 0) eqn:E0; [done|]. simpl in *. destruct (now <=? u) eqn:Eu; [done|].
  prop_bools. by apply Z.ltb_lt.
Qed.

(** the read-only availability check agrees with selection: it reports available
    exactly the accounts that are available once the auto-unpause selection would apply
    has been applied. In particular it never reports a disabled account, a durable
    (manual, failed or re-auth) pause, or a running cooldown as available. *)
Theorem peek_agrees (a : Account) now :
  isPeekAvailable a now =
    isAccountAvailable (if wouldAutoUnpause a now then unpaused a else a) now ∧
  (isPeekAvailable a now = true →
     acc_disabled a = false ∧ lapsed_before (acc_rate_limited_until a) now = true ∧
     (acc_paused a = true → isSelfHealingPauseReason (acc_pause_reason a) = true)).
Proof.
  unfold isPeekAvailable. destruct (wouldAutoUnpause a now) eqn:Ew.
  - unfold wouldAutoUnpause in Ew. prop_bools.
    destruct (unpause_candidate_spec a now) as (Hd & Hp & _ & _ & _ & Hl); [done|].
    unfold isAccountAvailable. simpl. rewrite Hd, Hp, Hl. simpl. by repeat split.
  - simpl. destruct (isAccountAvailable a now) eqn:Ea; [|done].
    split; [done|]. intros _. unfold isAccountAvailable in Ea. prop_bools.
    repeat split; [done|done|congruence].
Qed.

Definition demo_profile : AccountProfile :=
  {| prof_api_key := None; prof_created_at := 1; prof_last_used := None;
     prof_request_count := 0; prof_total_requests := 0; prof_auto_refresh_enabled := false;
     prof_peak_hours_pause_enabled := false;
     prof_codex_auto_apply_reset_credits_enabled := false;
     prof_codex_auto_apply_reset_on_weekly_limit_enabled := false;
     prof_codex_fast_mode_enabled := false;
     prof_anthropic_auto_apply_banked_resets_enabled := false;
     prof_anthropic_auto_apply_banked_reset_on_weekly_limit_enabled := false;
     prof_billing_type := None; prof_notes := None; prof_refresh_token_issued_at := None;
     prof_refresh_token_expires_at := None;
     prof_renewal := {| renewal_anchor := None; renewal_anchor_source := None;
                        renewal_cadence := None; renewal_price_usd_micros := None;
                        renewal_price_source := None; renewal_auto_start_date := None |};
     prof_identity := {| identity_external_id := None; identity_email := None;
                         identity_organization_name := None; identity_plan_tier := None;
                         identity_rate_limit_tier := None; identity_organization_uuid := None;
                         identity_subscription_status := None;
                         identity_subscription_started_at := None |};
     prof_subscription := {| subscription_ends_at := None; subscription_will_renew := None;
                             subscription_grace_ends_at := None;
                             subscription_checked_at := None |};
     prof_identity_captured_at := None; prof_identity_profile_fetched_at := None |}.

Definition demo_account : Account :=
  {| acc_id := "a1"; acc_name := "one"; acc_provider := "anthropic";
     acc_refresh_token := Some "rt"; acc_access_token := None; acc_expires_at := None;
     acc_session_start := None; acc_session_request_count := 0;
     acc_paused := true; acc_disabled := false; acc_pause_reason := Some "overage";
     acc_priority := 0; acc_auto_fallback_enabled := true;
     acc_auto_pause_on_overage_enabled := true; acc_custom_endpoint := None;
     acc_rate_limited_until := Some 5000; acc_rate_limited_reason := None;
     acc_rate_limited_at := None; acc_consecutive_rate_limits := 0;
     acc_rate_limit_status := None; acc_rate_limit_reset := Some 6000;
     acc_rate_limit_remaining := None; acc_profile := demo_profile |}%string.

Lemma peek_agrees_witness :
  isPeekAvailable demo_account 8000 = true ∧ acc_disabled demo_account = false.
Proof.
  split; [reflexivity|]. apply (peek_agrees demo_account 8000). reflexivity.
Defined.
