(* ===== verification/AccountRepo.v ===== *)
(** The accounts table and its writers:
    [packages/database/src/repositories/account.repository.ts], with the
    [accounts_pause_epoch] trigger of [packages/database/src/migrations.ts].

    Each statement is an update of the rows its WHERE selects, with SQL's
    three-valued comparisons ([= ?] and [< ?] on a NULL column are never true,
    [IS ?] is). [Date.now()] and the trigger's clock are the argument [now]. The
    host's calendar ([Date]'s local year, month and day of an instant) is the
    argument [localDate]. *)

From S2P Require Import Prelude Providers Accounts.
Open Scope Z_scope.

(** * Rows under update *)

Definition with_pause (p : pause_cols) (r : AccountRow) : AccountRow :=
  {| provider := provider r; custom_endpoint := custom_endpoint r; disabled := disabled r;
     created_at := created_at r; settings := settings r; flags := flags r; creds := creds r; pause := p;
     limit := limit r; session := session r; ident := ident r;
     identity_captured_at := identity_captured_at r;
     identity_profile_fetched_at := identity_profile_fetched_at r;
     subscription := subscription r; renewal := renewal r |}.

Definition with_limit (l : limit_cols) (r : AccountRow) : AccountRow :=
  {| provider := provider r; custom_endpoint := custom_endpoint r; disabled := disabled r;
     created_at := created_at r; settings := settings r; flags := flags r; creds := creds r; pause := pause r;
     limit := l; session := session r; ident := ident r;
     identity_captured_at := identity_captured_at r;
     identity_profile_fetched_at := identity_profile_fetched_at r;
     subscription := subscription r; renewal := renewal r |}.

Definition with_session (s : session_cols) (r : AccountRow) : AccountRow :=
  {| provider := provider r; custom_endpoint := custom_endpoint r; disabled := disabled r;
     created_at := created_at r; settings := settings r; flags := flags r; creds := creds r; pause := pause r;
     limit := limit r; session := s; ident := ident r;
     identity_captured_at := identity_captured_at r;
     identity_profile_fetched_at := identity_profile_fetched_at r;
     subscription := subscription r; renewal := renewal r |}.

Definition with_creds (c : credential_cols) (r : AccountRow) : AccountRow :=
  {| provider := provider r; custom_endpoint := custom_endpoint r; disabled := disabled r;
     created_at := created_at r; settings := settings r; flags := flags r; creds := c; pause := pause r;
     limit := limit r; session := session r; ident := ident r;
     identity_captured_at := identity_captured_at r;
     identity_profile_fetched_at := identity_profile_fetched_at r;
     subscription := subscription r; renewal := renewal r |}.

Definition with_ident (i : identity_cols) (captured fetched : option Z) (r : AccountRow)
    : AccountRow :=
  {| provider := provider r; custom_endpoint := custom_endpoint r; disabled := disabled r;
     created_at := created_at r; settings := settings r; flags := flags r; creds := creds r; pause := pause r;
     limit := limit r; session := session r; ident := i;
     identity_captured_at := captured; identity_profile_fetched_at := fetched;
     subscription := subscription r; renewal := renewal r |}.

Definition with_subscription (s : subscription_cols) (r : AccountRow) : AccountRow :=
  {| provider := provider r; custom_endpoint := custom_endpoint r; disabled := disabled r;
     created_at := created_at r; settings := settings r; flags := flags r; creds := creds r; pause := pause r;
     limit := limit r; session := session r; ident := ident r;
     identity_captured_at := identity_captured_at r;
     identity_profile_fetched_at := identity_profile_fetched_at r;
     subscription := s; renewal := renewal r |}.

Definition with_renewal (n : renewal_cols) (r : AccountRow) : AccountRow :=
  {| provider := provider r; custom_endpoint := custom_endpoint r; disabled := disabled r;
     created_at := created_at r; settings := settings r; flags := flags r; creds := creds r; pause := pause r;
     limit := limit r; session := session r; ident := ident r;
     identity_captured_at := identity_captured_at r;
     identity_profile_fetched_at := identity_profile_fetched_at r;
     subscription := subscription r; renewal := n |}.

Definition with_settings (s : settings_cols) (r : AccountRow) : AccountRow :=
  {| provider := provider r; custom_endpoint := custom_endpoint r; disabled := disabled r;
     created_at := created_at r; settings := s; flags := flags r; creds := creds r; pause := pause r;
     limit := limit r; session := session r; ident := ident r;
     identity_captured_at := identity_captured_at r;
     identity_profile_fetched_at := identity_profile_fetched_at r;
     subscription := subscription r; renewal := renewal r |}.

Definition with_disabled (d : Z) (r : AccountRow) : AccountRow :=
  {| provider := provider r; custom_endpoint := custom_endpoint r; disabled := d;
     created_at := created_at r; settings := settings r; flags := flags r; creds := creds r; pause := pause r;
     limit := limit r; session := session r; ident := ident r;
     identity_captured_at := identity_captured_at r;
     identity_profile_fetched_at := identity_profile_fetched_at r;
     subscription := subscription r; renewal := renewal r |}.

(** * SQL *)

Section sql.
Context {A : Type} `{!EqDecision A}.

(** [col = ?], with [?] possibly NULL *)
Definition sql_eq (c v : option A) : bool :=
  match c, v with Some x, Some y => bool_decide (x = y) | _, _ => false end.
(** [col IS ?] *)
Definition sql_is (c v : option A) : bool := bool_decide (c = v).
(** [COALESCE(?, col)] *)
Definition coalesce (v c : option A) : option A := match v with Some _ => v | None => c end.
End sql.

Definition sql_lt (c : option Z) (v : Z) : bool :=
  match c with Some x => x <? v | None => false end.
Definition sql_le (c : option Z) (v : Z) : bool :=
  match c with Some x => x <=? v | None => false end.
Definition sql_gt (c : option Z) (v : Z) : bool :=
  match c with Some x => v <? x | None => false end.
Definition sql_bool (b : bool) : Z := if b then 1 else 0.

Record TierHistoryRow := {
  th_account_id : string;
  th_observed_at : Z;
  th_plan_tier : option string;
  th_rate_limit_tier : option string
}.

Record database := {
  accounts : gmap string AccountRow;
  tier_history : list TierHistoryRow
}.

Definition set_account (id : string) (r : AccountRow) (db : database) : database :=
  {| accounts := <[id := r]> (accounts db); tier_history := tier_history db |}.

(** The trigger [accounts_pause_epoch]: a change of [paused] or [pause_reason]
    advances the epoch and stamps the change. *)
Definition pause_trigger (now : Z) (old new : AccountRow) : AccountRow :=
  if bool_decide (paused (pause old) = paused (pause new)) &&
     bool_decide (pause_reason (pause old) = pause_reason (pause new))
  then new
  else with_pause {| paused := paused (pause new); pause_reason := pause_reason (pause new);
                     pause_epoch := pause_epoch (pause new) + 1;
                     pause_changed_at := Some now |} new.

(** [UPDATE accounts SET f WHERE id = ? AND guard]: the changed-row count. *)
Definition sql_update (now : Z) (id : string) (guard : AccountRow → bool)
    (f : AccountRow → AccountRow) : state database Z := λ db,
  match accounts db !! id with
  | Some r => if guard r then (1, set_account id (pause_trigger now r (f r)) db) else (0, db)
  | None => (0, db)
  end.

(** [runWithChanges(...) > 0] *)
Definition changed (c : state database Z) : state database bool :=
  (n <- c ;; st_ret (0 <? n))%state.

Definition always (_ : AccountRow) : bool := true.

(** * Rate-limit columns *)

Definition set_limit_lock (until : Z) (reason : string) (now bump : Z) (l : limit_cols)
    : limit_cols :=
  {| rate_limited_until := Some until; rate_limited_reason := Some reason;
     rate_limited_at := Some now;
     consecutive_rate_limits := consecutive_rate_limits l + bump;
     rate_limit_status := rate_limit_status l; rate_limit_reset := rate_limit_reset l;
     rate_limit_remaining := rate_limit_remaining l |}.

(** The UPDATE, then the read-back of the counter. *)
Definition setRateLimited (id : string) (until : Z) (reason : string) (now : Z)
    : state database Z :=
  (_ <- sql_update now id always
         (λ r, with_limit (set_limit_lock until reason now 1 (limit r)) r) ;;
   λ db, (match accounts db !! id with
          | Some r => consecutive_rate_limits (limit r)
          | None => 0
          end, db))%state.

Definition setRateLimitedDeadlineOnly (id : string) (until : Z) (reason : string) (now : Z)
    : state database unit :=
  (_ <- sql_update now id always
         (λ r, with_limit (set_limit_lock until reason now 0 (limit r)) r) ;; st_ret tt)%state.

Definition reset_streak (l : limit_cols) : limit_cols :=
  {| rate_limited_until := rate_limited_until l; rate_limited_reason := rate_limited_reason l;
     rate_limited_at := None; consecutive_rate_limits := 0;
     rate_limit_status := rate_limit_status l; rate_limit_reset := rate_limit_reset l;
     rate_limit_remaining := rate_limit_remaining l |}.

Definition resetConsecutiveRateLimits (id : string) (notAfterMs : option Z) (now : Z)
    : state database unit :=
  (_ <- match notAfterMs with
        | None => sql_update now id always (λ r, with_limit (reset_streak (limit r)) r)
        | Some b =>
            sql_update now id
              (λ r, bool_decide (rate_limited_at (limit r) = None)
                    || sql_lt (rate_limited_at (limit r)) b)
              (λ r, with_limit (reset_streak (limit r)) r)
        end ;; st_ret tt)%state.

Definition updateRateLimitMeta (id status : string) (reset remaining : option Z) (now : Z)
    : state database unit :=
  (_ <- sql_update now id always (λ r,
          let l := limit r in
          with_limit
            {| rate_limited_until := rate_limited_until l;
               rate_limited_reason := rate_limited_reason l;
               rate_limited_at := rate_limited_at l;
               consecutive_rate_limits := consecutive_rate_limits l;
               rate_limit_status := Some status; rate_limit_reset := reset;
               rate_limit_remaining := remaining |} r) ;; st_ret tt)%state.

Definition set_reset (v : option Z) (l : limit_cols) : limit_cols :=
  {| rate_limited_until := rate_limited_until l; rate_limited_reason := rate_limited_reason l;
     rate_limited_at := rate_limited_at l;
     consecutive_rate_limits := consecutive_rate_limits l;
     rate_limit_status := rate_limit_status l; rate_limit_reset := v;
     rate_limit_remaining := rate_limit_remaining l |}.

Definition setObservedWindowReset (id : string) (resetMs : Z) (expectedReset : option Z)
    (now : Z) : state database bool :=
  changed (sql_update now id
    (λ r, sql_is (rate_limit_reset (limit r)) expectedReset
          && (toNum (paused (pause r)) =? 0))
    (λ r, with_limit (set_reset (Some resetMs) (limit r)) r)).

Definition clearRateLimitState (id : string) (now : Z) : state database Z :=
  sql_update now id always (λ r,
    with_limit
      {| rate_limited_until := None; rate_limited_reason := None; rate_limited_at := None;
         consecutive_rate_limits := consecutive_rate_limits (limit r);
         rate_limit_status := None; rate_limit_reset := None;
         rate_limit_remaining := None |} r).

Definition released_limit (l : limit_cols) : limit_cols :=
  {| rate_limited_until := None; rate_limited_reason := None; rate_limited_at := None;
     consecutive_rate_limits := 0; rate_limit_status := None;
     rate_limit_reset := rate_limit_reset l; rate_limit_remaining := None |}.

(** The WHERE of the compare-and-clear *)
Definition release_guard (until : Z) (at_ : option Z) (reason : string) (evidence : Z)
    (r : AccountRow) : bool :=
  sql_eq (rate_limited_until (limit r)) (Some until)
  && sql_is (rate_limited_at (limit r)) at_
  && sql_eq (rate_limited_reason (limit r)) (Some reason)
  && sql_lt (rate_limited_at (limit r)) evidence.

Definition clearRateLimitOnCapacityRestore (id : string) (expectedRateLimitedUntil : Z)
    (expectedRateLimitedAt : option Z) (expectedRateLimitedReason : string)
    (evidenceFetchStartedAt : Z) (now : Z) : state database bool :=
  changed (sql_update now id
    (release_guard expectedRateLimitedUntil expectedRateLimitedAt expectedRateLimitedReason
                   evidenceFetchStartedAt)
    (λ r, with_limit (released_limit (limit r)) r)).

Definition stampObservedRateLimitReset (id : string) (expectedReset observedAt : Z) (now : Z)
    : state database bool :=
  changed (sql_update now id
    (λ r, sql_eq (rate_limit_reset (limit r)) (Some expectedReset)
          && sql_gt (rate_limit_reset (limit r)) observedAt
          && (toNum (paused (pause r)) =? 1))
    (λ r, with_limit (set_reset (Some observedAt) (limit r)) r)).

Definition clear_until (l : limit_cols) : limit_cols :=
  {| rate_limited_until := None; rate_limited_reason := rate_limited_reason l;
     rate_limited_at := rate_limited_at l;
     consecutive_rate_limits := consecutive_rate_limits l;
     rate_limit_status := rate_limit_status l; rate_limit_reset := rate_limit_reset l;
     rate_limit_remaining := rate_limit_remaining l |}.

(** [UPDATE accounts SET rate_limited_until = NULL WHERE rate_limited_until <= ?] *)
Definition clearExpiredRateLimits (now : Z) : state database Z := λ db,
  let expired r := sql_le (rate_limited_until (limit r)) now in
  (Z.of_nat (size (filter (λ '(_, r), expired r = true) (accounts db))),
   {| accounts := (λ r, if expired r then with_limit (clear_until (limit r)) r else r)
                    <$> accounts db;
      tier_history := tier_history db |}).

(** The update [applySuccessRateLimitClear] issues (handlers/rate-limit-cooldown.ts) *)
Definition clearLockOnSuccess (id : string) (clearBoundMs now : Z) : state database Z :=
  sql_update now id
    (λ r, (negb (bool_decide (rate_limited_until (limit r) = None))
           || negb (bool_decide (rate_limited_reason (limit r) = None)))
          && (bool_decide (rate_limited_at (limit r) = None)
              || sql_lt (rate_limited_at (limit r)) clearBoundMs))
    (λ r, let l := limit r in
      with_limit
        {| rate_limited_until := None; rate_limited_reason := None;
           rate_limited_at := rate_limited_at l;
           consecutive_rate_limits := consecutive_rate_limits l;
           rate_limit_status := rate_limit_status l; rate_limit_reset := rate_limit_reset l;
           rate_limit_remaining := rate_limit_remaining l |} r).

(** * Pauses *)

(** [SET paused = ?, pause_reason = ?] *)
Definition set_pause (p : Z) (reason : option string) (r : AccountRow) : AccountRow :=
  with_pause {| paused := Some p; pause_reason := reason;
                pause_epoch := pause_epoch (pause r);
                pause_changed_at := pause_changed_at (pause r) |} r.

Definition is_active (r : AccountRow) : bool := toNum (paused (pause r)) =? 0.
Definition is_paused (r : AccountRow) : bool := sql_eq (paused (pause r)) (Some 1).
Definition paused_for (reason : string) (r : AccountRow) : bool :=
  sql_eq (pause_reason (pause r)) (Some reason).

Definition pause_account (id reason : string) (now : Z) : state database unit :=
  (_ <- sql_update now id always (set_pause 1 (Some reason)) ;; st_ret tt)%state.

Definition pauseIfActive (id reason : string) (expectedRefreshToken : option string) (now : Z)
    : state database bool :=
  match expectedRefreshToken with
  | Some t =>
      changed (sql_update now id
        (λ r, is_active r && sql_eq (refresh_token (creds r)) (Some t))
        (set_pause 1 (Some reason)))
  | None => changed (sql_update now id is_active (set_pause 1 (Some reason)))
  end.

(** [refresh_token IS NOT NULL AND refresh_token != ''] *)
Definition has_refresh_token (r : AccountRow) : bool :=
  match refresh_token (creds r) with
  | Some t => negb (bool_decide (t = ""%string))
  | None => false
  end.

Definition recordAnthropicUsageAccess (id expectedAccessToken : string)
    (permissionDenied : bool) (now : Z) : state database bool :=
  let held r := sql_eq (provider r) (Some "anthropic"%string) && has_refresh_token r
                && sql_eq (access_token (creds r)) (Some expectedAccessToken) in
  if permissionDenied then
    changed (sql_update now id (λ r, held r && is_active r)
      (set_pause 1 (Some "usage_permission_denied"%string)))
  else
    changed (sql_update now id
      (λ r, held r && is_paused r
            && (paused_for "usage_permission_denied" r || paused_for "subscription_expired" r))
      (set_pause 0 None)).

Definition resume (id : string) (now : Z) : state database unit :=
  (_ <- sql_update now id always (set_pause 0 None) ;; st_ret tt)%state.

Definition resumeIfPausedWithReason (id reason : string) (now : Z) : state database bool :=
  changed (sql_update now id (λ r, is_paused r && paused_for reason r) (set_pause 0 None)).

Definition overage_paused (r : AccountRow) : bool :=
  is_paused r && (toNum (auto_pause_on_overage_enabled (settings r)) =? 1)
  && (bool_decide (pause_reason (pause r) = None) || paused_for "overage" r).

Definition resumeIfOveragePaused (id : string) (now : Z) : state database bool :=
  changed (sql_update now id overage_paused (set_pause 0 None)).

Definition resumeIfOveragePausedAt (id : string) (epoch : Z) (now : Z)
    : state database bool :=
  changed (sql_update now id (λ r, overage_paused r && (pause_epoch (pause r) =? epoch))
                      (set_pause 0 None)).

Record AccountPauseMarker := {
  marker_paused : bool;
  marker_pauseReason : option string;
  marker_autoPauseOnOverageEnabled : bool;
  marker_pauseEpoch : Z;
  marker_pauseChangedAt : option Z
}.

Definition getPauseMarker (id : string) (db : database) : option AccountPauseMarker :=
  (λ r, {| marker_paused := toNum (paused (pause r)) =? 1;
           marker_pauseReason := pause_reason (pause r);
           marker_autoPauseOnOverageEnabled :=
             toNum (auto_pause_on_overage_enabled (settings r)) =? 1;
           marker_pauseEpoch := pause_epoch (pause r);
           marker_pauseChangedAt := pause_changed_at (pause r) |}) <$> accounts db !! id.

Definition pauseDevinAccountForReauth (id expectedApiKey : string)
    (expectedEndpoint : option string) (now : Z) : state database bool :=
  changed (sql_update now id
    (λ r, sql_eq (provider r) (Some "devin"%string) && is_active r
          && sql_eq (api_key (creds r)) (Some expectedApiKey)
          && sql_is (custom_endpoint r) expectedEndpoint)
    (set_pause 1 (Some PAUSE_REASON_NEEDS_REAUTH))).

(** * Sessions and settings *)

Definition incrementUsage (id : string) (sessionDurationMs now : Z) : state database unit :=
  (_ <- sql_update now id always (λ r,
          let s := session r in
          let fresh := bool_decide (session_start s = None)
                       || (sessionDurationMs <=? now - toNum (session_start s)) in
          with_session
            {| last_used := Some now;
               request_count := Some (toNum (request_count s) + 1);
               total_requests := Some (toNum (total_requests s) + 1);
               session_start := if fresh then Some now else session_start s;
               session_request_count :=
                 if fresh then Some 1 else Some (toNum (session_request_count s) + 1) |} r) ;;
   st_ret tt)%state.

Definition set_session (start count : option Z) (r : AccountRow) : AccountRow :=
  with_session {| last_used := last_used (session r);
                  request_count := request_count (session r);
                  total_requests := total_requests (session r);
                  session_start := start; session_request_count := count |} r.

Definition resetSession (id : string) (timestamp now : Z) : state database unit :=
  (_ <- sql_update now id always (set_session (Some timestamp) (Some 0)) ;; st_ret tt)%state.

Definition clearSessionAnchor (id : string) (now : Z) : state database Z :=
  sql_update now id always (set_session None (Some 0)).

Definition updateRequestCount (id : string) (count now : Z) : state database unit :=
  (_ <- sql_update now id always (λ r, set_session (session_start (session r)) (Some count) r) ;;
   st_ret tt)%state.

(** The single-column settings writers *)
Inductive setting : Type :=
  | Rename (newName : string)
  | UpdatePriority (p : Z)
  | SetAutoFallbackEnabled (enabled : bool)
  | SetAutoPauseOnOverageEnabled (enabled : bool)
  | SetBillingType (t : option string)
  | SetNotes (n : option string).

Definition apply_setting (c : setting) (s : settings_cols) : settings_cols :=
  let mk n p f o b t := {| name := n; priority := p; auto_fallback_enabled := f;
                           auto_pause_on_overage_enabled := o; billing_type := b; notes := t |} in
  let '(n, p, f, o, b, t) :=
    (name s, priority s, auto_fallback_enabled s, auto_pause_on_overage_enabled s,
     billing_type s, notes s) in
  match c with
  | Rename n' => mk n' p f o b t
  | UpdatePriority p' => mk n (Some p') f o b t
  | SetAutoFallbackEnabled e => mk n p (Some (sql_bool e)) o b t
  | SetAutoPauseOnOverageEnabled e => mk n p f (Some (sql_bool e)) b t
  | SetBillingType b' => mk n p f o b' t
  | SetNotes t' => mk n p f o b t'
  end.

Definition updateSetting (id : string) (c : setting) (now : Z) : state database unit :=
  (_ <- sql_update now id always (λ r, with_settings (apply_setting c (settings r)) r) ;;
   st_ret tt)%state.

(** * Renewals *)

Definition set_renewal_price (price : option Z) (source : option string) (r : AccountRow)
    : AccountRow :=
  let n := renewal r in
  with_renewal {| renewal_anchor := renewal_anchor n;
                  renewal_anchor_source := renewal_anchor_source n;
                  renewal_cadence := renewal_cadence n;
                  renewal_price_usd_micros := price; renewal_price_source := source;
                  renewal_auto_start_date := renewal_auto_start_date n |} r.

Definition set_renewal_anchor (anchor source cadence : option string) (r : AccountRow)
    : AccountRow :=
  let n := renewal r in
  with_renewal {| renewal_anchor := anchor; renewal_anchor_source := source;
                  renewal_cadence := cadence;
                  renewal_price_usd_micros := renewal_price_usd_micros n;
                  renewal_price_source := renewal_price_source n;
                  renewal_auto_start_date := renewal_auto_start_date n |} r.

(** [undefined] is the outer [None]. *)
Definition derivedPriceFor (r : AccountRow) : option (option Z) :=
  let n := renewal r in
  let isFirstSeed := bool_decide (renewal_price_usd_micros n = None)
                     && bool_decide (renewal_price_source n = None) in
  let isDerived := bool_decide (renewal_price_source n = Some "derived"%string) in
  if negb isFirstSeed && negb isDerived then None
  else
    let price := deriveSubscriptionPriceUsdMicros
      {| price_provider := provider r; price_planTier := identity_plan_tier (ident r);
         price_rateLimitTier := identity_rate_limit_tier (ident r);
         price_cadence := renewal_cadence n |} in
    if bool_decide (price = renewal_price_usd_micros n) then None
    else if bool_decide (price = None) && isFirstSeed then None
    else Some price.

(** [derivedPriceParams] *)
Definition price_source_of (price : option Z) : option string :=
  match price with Some _ => Some "derived"%string | None => None end.

(** [seedDerivedRenewalPrice] and [resyncDerivedRenewalPrice] *)
Definition seedDerivedRenewalPrice (id : string) (now : Z) : state database unit := λ db,
  match accounts db !! id with
  | None => (tt, db)
  | Some r =>
      match derivedPriceFor r with
      | None => (tt, db)
      | Some price =>
          (tt, (sql_update now id always (set_renewal_price price (price_source_of price)) db).2)
      end
  end.

Section calendar.
(** Local year, month index and day of an instant; [None] for an invalid date. *)
Variable localDate : Z → option (Z * Z * Z).

Definition pad2 (n : Z) : string :=
  let s := pretty n in if (String.length s <? 2)%nat then "0" +:+ s else s.

Definition formatLocalDate (year monthIndex day : Z) : string :=
  pretty year +:+ "-" +:+ pad2 (monthIndex + 1) +:+ "-" +:+ pad2 day.

Definition anchorDateFromInstant (ms : Z) : option string :=
  match localDate ms with
  | Some (y, m, d) => Some (formatLocalDate y m d)
  | None => None
  end.

(** * Identity writes *)

(** [AccountIdentity], a missing field being null *)
Record AccountIdentity := {
  id_cols : identity_cols;
  id_anthropicSubscriptionExpired : bool
}.

(** [IDENTITY_COALESCE_SET] *)
Definition merge_identity (i c : identity_cols) : identity_cols :=
  {| identity_external_id := coalesce (identity_external_id i) (identity_external_id c);
     identity_email := coalesce (identity_email i) (identity_email c);
     identity_organization_name :=
       coalesce (identity_organization_name i) (identity_organization_name c);
     identity_plan_tier := coalesce (identity_plan_tier i) (identity_plan_tier c);
     identity_rate_limit_tier :=
       coalesce (identity_rate_limit_tier i) (identity_rate_limit_tier c);
     identity_organization_uuid :=
       coalesce (identity_organization_uuid i) (identity_organization_uuid c);
     identity_subscription_status :=
       coalesce (identity_subscription_status i) (identity_subscription_status c);
     identity_subscription_started_at :=
       coalesce (identity_subscription_started_at i) (identity_subscription_started_at c) |}.

Definition SEEDED_RENEWAL_CADENCE : string := "monthly".
Definition PROVIDER_FALLBACK_CADENCE : string := "monthly".

Definition seedRenewalAnchorFromSubscription (id : string) (identity : AccountIdentity)
    (now : Z) : state database unit := λ db,
  match identity_subscription_started_at (id_cols identity) with
  | None => (tt, db)
  | Some startedAt =>
      match anchorDateFromInstant startedAt with
      | None => (tt, db)
      | Some anchor =>
          match accounts db !! id with
          | None => (tt, db)
          | Some r =>
              if negb (bool_decide (default "anthropic"%string (truthy_string (provider r))
                                    = "anthropic"%string))
              then (tt, db)
              else
                let n := renewal r in
                let isFirstSeed := bool_decide (renewal_anchor n = None)
                                   && bool_decide (renewal_anchor_source n = None) in
                let isStaleDerivation :=
                  bool_decide (renewal_anchor_source n = Some "derived"%string)
                  && negb (bool_decide (renewal_anchor n = Some anchor)) in
                if negb isFirstSeed && negb isStaleDerivation then (tt, db)
                else
                  (tt, (sql_update now id always
                          (set_renewal_anchor (Some anchor) (Some "derived"%string)
                                              (Some SEEDED_RENEWAL_CADENCE)) db).2)
          end
      end
  end.

(** One transaction: the write, the renewal seeds, and the tier history row. *)
Definition writeIdentityWithTierHistory (id : string) (guard : AccountRow → bool)
    (f : AccountRow → AccountRow) (identity : option AccountIdentity) (now : Z)
    : state database Z := λ db,
  match identity with
  | None => sql_update now id guard f db
  | Some identity =>
      let before := accounts db !! id in
      let '(changes, db1) := sql_update now id guard f db in
      match before with
      | None => (changes, db1)
      | Some before =>
          if changes =? 0 then (changes, db1)
          else
            let db2 := (seedRenewalAnchorFromSubscription id identity now db1).2 in
            let db3 := (seedDerivedRenewalPrice id now db2).2 in
            let plan0 := identity_plan_tier (ident before) in
            let rate0 := identity_rate_limit_tier (ident before) in
            let plan := coalesce (identity_plan_tier (id_cols identity)) plan0 in
            let rate := coalesce (identity_rate_limit_tier (id_cols identity)) rate0 in
            if bool_decide (plan = plan0) && bool_decide (rate = rate0) then (changes, db3)
            else
              (changes,
               {| accounts := accounts db3;
                  tier_history := tier_history db3 ++
                    [{| th_account_id := id; th_observed_at := now;
                        th_plan_tier := plan; th_rate_limit_tier := rate |}] |})
      end
  end.

(** The identity part of an UPDATE, when an identity is given. *)
Definition set_identity (identity : option AccountIdentity) (now : Z) (r : AccountRow)
    : AccountRow :=
  match identity with
  | Some i => with_ident (merge_identity (id_cols i) (ident r)) (Some now)
                         (identity_profile_fetched_at r) r
  | None => r
  end.

Definition cas_token (expected : option string) (r : AccountRow) : bool :=
  match expected with
  | Some t => sql_eq (refresh_token (creds r)) (Some t)
  | None => true
  end.

Definition set_tokens (accessToken : string) (expiresAt : Z) (refreshToken : option string)
    (refreshTokenExpiresAt : option Z) (now : Z) (c : credential_cols) : credential_cols :=
  match truthy_string refreshToken with
  | Some t =>
      {| api_key := api_key c; refresh_token := Some t; access_token := Some accessToken;
         expires_at := Some expiresAt; refresh_token_issued_at := Some now;
         refresh_token_expires_at :=
           match refreshTokenExpiresAt with
           | Some d => Some d
           | None => if sql_eq (refresh_token c) (Some t) then refresh_token_expires_at c
                     else None
           end |}
  | None =>
      {| api_key := api_key c; refresh_token := refresh_token c;
         access_token := Some accessToken; expires_at := Some expiresAt;
         refresh_token_issued_at := refresh_token_issued_at c;
         refresh_token_expires_at := refresh_token_expires_at c |}
  end.

Definition updateTokens (id accessToken : string) (expiresAt : Z)
    (refreshToken : option string) (identity : option AccountIdentity)
    (expectedRefreshToken : option string) (refreshTokenExpiresAt : option Z) (now : Z)
    : state database bool :=
  changed (writeIdentityWithTierHistory id (cas_token expectedRefreshToken)
    (λ r, set_identity identity now
            (with_creds (set_tokens accessToken expiresAt refreshToken refreshTokenExpiresAt now
                                    (creds r)) r))
    identity now).

Definition setAccountIdentityFromProfile (id : string) (identity : AccountIdentity)
    (expectedAccessToken : option string) (now : Z) : state database bool :=
  changed (writeIdentityWithTierHistory id
    (λ r, match expectedAccessToken with
          | Some t => sql_eq (access_token (creds r)) (Some t)
          | None => true
          end)
    (λ r,
      let m := merge_identity (id_cols identity) (ident r) in
      let anthropic := sql_eq (provider r) (Some "anthropic"%string) in
      let cols :=
        {| identity_external_id := identity_external_id m; identity_email := identity_email m;
           identity_organization_name := identity_organization_name m;
           identity_plan_tier := identity_plan_tier m;
           identity_rate_limit_tier := identity_rate_limit_tier m;
           identity_organization_uuid := identity_organization_uuid m;
           identity_subscription_status :=
             coalesce (identity_subscription_status (id_cols identity))
               (if anthropic then None else identity_subscription_status (ident r));
           identity_subscription_started_at := identity_subscription_started_at m |} in
      let expired := anthropic && has_refresh_token r
                     && id_anthropicSubscriptionExpired identity && is_paused r
                     && paused_for "usage_permission_denied" r in
      let p := pause r in
      with_ident cols (Some now) (Some now)
        (with_pause {| paused := paused p;
                       pause_reason := if expired then Some "subscription_expired"%string
                                       else pause_reason p;
                       pause_epoch := pause_epoch p;
                       pause_changed_at := pause_changed_at p |} r))
    (Some identity) now).

Definition setAccountIdentity (id : string) (identity : AccountIdentity) (now : Z)
    : state database unit :=
  (_ <- writeIdentityWithTierHistory id always (set_identity (Some identity) now)
          (Some identity) now ;; st_ret tt)%state.

(** [CASE WHEN pause_reason = 'oauth_invalid_grant' THEN ...] *)
Definition lift_reauth_pause (r : AccountRow) : AccountRow :=
  if paused_for PAUSE_REASON_NEEDS_REAUTH r then set_pause 0 None r else r.

Definition fetched_now (now : Z) (r : AccountRow) : AccountRow :=
  with_ident (ident r) (identity_captured_at r) (Some now) r.

Definition set_keys (key : string) (mirror : bool) (expiresAt : option Z) (c : credential_cols)
    : credential_cols :=
  {| api_key := Some key;
     refresh_token := if mirror then Some key else refresh_token c;
     access_token := if mirror then Some key else access_token c;
     expires_at := expiresAt; refresh_token_issued_at := refresh_token_issued_at c;
     refresh_token_expires_at := refresh_token_expires_at c |}.

Definition reconnectDevinAccount (id apiKey : string) (expiresAt : option Z)
    (identity : AccountIdentity) (expectedApiKey expectedEndpoint expectedExternalId : option string)
    (now : Z) : state database bool :=
  changed (writeIdentityWithTierHistory id
    (λ r, sql_eq (provider r) (Some "devin"%string)
          && sql_is (api_key (creds r)) expectedApiKey
          && sql_is (custom_endpoint r) expectedEndpoint
          && sql_is (identity_external_id (ident r)) expectedExternalId)
    (λ r, lift_reauth_pause (fetched_now now (set_identity (Some identity) now
            (with_creds (set_keys apiKey false expiresAt (creds r)) r))))
    (Some identity) now).

Definition reconnectZaiAccount (id apiKey : string) (expiresAt : Z)
    (identity : option AccountIdentity) (expectedApiKey expectedExternalId : option string)
    (now : Z) : state database bool :=
  changed (writeIdentityWithTierHistory id
    (λ r, sql_eq (provider r) (Some "zai"%string)
          && sql_is (api_key (creds r)) expectedApiKey
          && sql_is (identity_external_id (ident r)) expectedExternalId)
    (λ r, lift_reauth_pause
            (let r1 := set_identity identity now
                         (with_creds (set_keys apiKey true (Some expiresAt) (creds r)) r) in
             match identity with Some _ => fetched_now now r1 | None => r1 end))
    identity now).

Definition updateDevinSessionExpiry (id expectedApiKey : string)
    (expectedEndpoint : option string) (expiresAt : option Z) (now : Z) : state database bool :=
  changed (sql_update now id
    (λ r, sql_eq (provider r) (Some "devin"%string)
          && sql_eq (api_key (creds r)) (Some expectedApiKey)
          && sql_is (custom_endpoint r) expectedEndpoint)
    (λ r, let c := creds r in
      with_creds {| api_key := api_key c; refresh_token := refresh_token c;
                    access_token := access_token c; expires_at := expiresAt;
                    refresh_token_issued_at := refresh_token_issued_at c;
                    refresh_token_expires_at := refresh_token_expires_at c |} r)).

(** * Subscription state and the renewal schedule *)

Record ProviderRenewalAnchorSync := {
  sync_endsAtMs : option Z;
  sync_cadence : option string;
  sync_graceEndsAtMs : option Z
}.

Definition anchor_open_to_provider (r : AccountRow) : bool :=
  let n := renewal r in
  sql_eq (renewal_anchor_source n) (Some "provider"%string)
  || sql_eq (renewal_anchor_source n) (Some "derived"%string)
  || (bool_decide (renewal_anchor_source n = None) && bool_decide (renewal_anchor n = None)).

Definition syncProviderRenewalAnchor (id : string) (sync : ProviderRenewalAnchorSync)
    (nowMs : Z) : state database bool := λ db,
  match sync_endsAtMs sync with
  | None => (false, db)
  | Some endsAtMs =>
      let inGracePeriod := sql_gt (sync_graceEndsAtMs sync) nowMs in
      if (endsAtMs <? nowMs) && negb inGracePeriod then (false, db)
      else
        match anchorDateFromInstant endsAtMs with
        | None => (false, db)
        | Some anchor =>
            let '(changes, db1) :=
              sql_update nowMs id anchor_open_to_provider
                (set_renewal_anchor (Some anchor) (Some "provider"%string)
                   (Some (default PROVIDER_FALLBACK_CADENCE (sync_cadence sync)))) db in
            let db2 := if 0 <? changes then (seedDerivedRenewalPrice id nowMs db1).2 else db1 in
            (0 <? changes, db2)
        end
  end.
End calendar.

Definition setRenewal (id : string) (anchor cadence : option string)
    (priceUsdMicros : option Z) (autoStartDate : option string) (now : Z)
    : state database unit :=
  (_ <- sql_update now id always (with_renewal
          {| renewal_anchor := anchor; renewal_anchor_source := Some "manual"%string;
             renewal_cadence := cadence; renewal_price_usd_micros := priceUsdMicros;
             renewal_price_source := Some "manual"%string;
             renewal_auto_start_date := autoStartDate |}) ;; st_ret tt)%state.

Definition resetRenewalToAutomatic (id : string) (now : Z) : state database unit :=
  (_ <- sql_update now id always (with_renewal
          {| renewal_anchor := None; renewal_anchor_source := None; renewal_cadence := None;
             renewal_price_usd_micros := None; renewal_price_source := None;
             renewal_auto_start_date := None |}) ;; st_ret tt)%state.

Definition setAccountSubscriptionState (id : string) (s : subscription_cols) (now : Z)
    : state database unit :=
  (_ <- sql_update now id always (with_subscription s) ;; st_ret tt)%state.

Definition set_checked (v : Z) (r : AccountRow) : AccountRow :=
  let s := subscription r in
  with_subscription {| subscription_ends_at := subscription_ends_at s;
                       subscription_will_renew := subscription_will_renew s;
                       subscription_grace_ends_at := subscription_grace_ends_at s;
                       subscription_checked_at := Some v |} r.

Definition touchAccountSubscriptionCheck (id : string) (checkedAtMs now : Z)
    : state database unit :=
  (_ <- sql_update now id always (set_checked checkedAtMs) ;; st_ret tt)%state.

Definition claimAnthropicSubscriptionCheck (id : string) (nowMs throttleMs : Z)
    : state database bool :=
  changed (sql_update nowMs id
    (λ r, sql_eq (provider r) (Some "anthropic"%string) && has_refresh_token r
          && (bool_decide (subscription_checked_at (subscription r) = None)
              || sql_le (subscription_checked_at (subscription r)) (nowMs - throttleMs)))
    (set_checked nowMs)).

(** [MAX] of ISO dates is the later in string order. *)
Definition setDisabled (id : string) (dis : bool) (enabledOn : string) (now : Z)
    : state database bool :=
  changed (sql_update now id (λ r, negb (disabled r =? sql_bool dis))
    (λ r,
      let n := renewal r in
      let floor := default enabledOn (renewal_auto_start_date n) in
      with_disabled (sql_bool dis)
        (with_renewal {| renewal_anchor := renewal_anchor n;
                         renewal_anchor_source := renewal_anchor_source n;
                         renewal_cadence := renewal_cadence n;
                         renewal_price_usd_micros := renewal_price_usd_micros n;
                         renewal_price_source := renewal_price_source n;
                         renewal_auto_start_date :=
                           if dis then renewal_auto_start_date n
                           else Some (if String.leb floor enabledOn then enabledOn else floor)
                      |} r))).

Definition findById (id : string) (db : database) : option Account :=
  toAccount id <$> accounts db !! id.

Definition hasAccountsForProvider (p : string) (db : database) : bool :=
  negb (bool_decide (filter (λ '(_, r), (disabled r =? 0) && sql_eq (provider r) (Some p) = true)
                            (accounts db) = ∅)).

(** * Every writer as one operation *)

Inductive db_op : Type :=
  (* rate-limit columns *)
  | OSetRateLimited (id : string) (until : Z) (reason : string)
  | OSetDeadlineOnly (id : string) (until : Z) (reason : string)
  | OResetStreak (id : string) (notAfter : option Z)
  | OUpdateMeta (id status : string) (reset remaining : option Z)
  | OObservedReset (id : string) (resetMs : Z) (expected : option Z)
  | OClearState (id : string)
  | ORelease (id : string) (until : Z) (at_ : option Z) (reason : string) (evidence : Z)
  | OStampReset (id : string) (expected observedAt : Z)
  | OClearExpired
  | OSuccessClear (id : string) (bound : Z)
  (* conditional pauses and resumes *)
  | OPauseIfActive (id reason : string) (token : option string)
  | OUsageAccess (id token : string) (denied : bool)
  | OResumeWithReason (id reason : string)
  | OResumeOverage (id : string)
  | OResumeOverageAt (id : string) (epoch : Z)
  | ODevinReauth (id key : string) (endpoint : option string)
  (* sessions *)
  | OIncrementUsage (id : string) (duration : Z)
  | OResetSession (id : string) (timestamp : Z)
  | OClearAnchor (id : string)
  | ORequestCount (id : string) (count : Z)
  (* credentials and identity *)
  | OUpdateTokens (id token : string) (expires : Z) (refresh : option string)
      (identity : option AccountIdentity) (expected : option string) (deadline : option Z)
  | OProfile (id : string) (identity : AccountIdentity) (expected : option string)
  | OIdentity (id : string) (identity : AccountIdentity)
  | OReconnectDevin (id key : string) (expires : option Z) (identity : AccountIdentity)
      (expectedKey expectedEndpoint expectedExternal : option string)
  | OReconnectZai (id key : string) (expires : Z) (identity : option AccountIdentity)
      (expectedKey expectedExternal : option string)
  | ODevinExpiry (id key : string) (endpoint : option string) (expires : option Z)
  (* subscription *)
  | OSubscription (id : string) (s : subscription_cols)
  | OTouchCheck (id : string) (at_ : Z)
  | OClaimCheck (id : string) (throttle : Z)
  | OSyncAnchor (id : string) (sync : ProviderRenewalAnchorSync)
  (* the operator *)
  | OPause (id reason : string)
  | OResume (id : string)
  | OSetting (id : string) (c : setting)
  | OSetRenewal (id : string) (anchor cadence : option string) (price : option Z)
      (start : option string)
  | OResetRenewal (id : string)
  | OSetDisabled (id : string) (dis : bool) (enabledOn : string).

Section exec.
Variable localDate : Z → option (Z * Z * Z).

Definition exec (now : Z) (db : database) (op : db_op) : database :=
  match op with
  | OSetRateLimited id u r => (setRateLimited id u r now db).2
  | OSetDeadlineOnly id u r => (setRateLimitedDeadlineOnly id u r now db).2
  | OResetStreak id b => (resetConsecutiveRateLimits id b now db).2
  | OUpdateMeta id s re rm => (updateRateLimitMeta id s re rm now db).2
  | OObservedReset id re e => (setObservedWindowReset id re e now db).2
  | OClearState id => (clearRateLimitState id now db).2
  | ORelease id u a r e => (clearRateLimitOnCapacityRestore id u a r e now db).2
  | OStampReset id e o => (stampObservedRateLimitReset id e o now db).2
  | OClearExpired => (clearExpiredRateLimits now db).2
  | OSuccessClear id b => (clearLockOnSuccess id b now db).2
  | OPauseIfActive id r t => (pauseIfActive id r t now db).2
  | OUsageAccess id t d => (recordAnthropicUsageAccess id t d now db).2
  | OResumeWithReason id r => (resumeIfPausedWithReason id r now db).2
  | OResumeOverage id => (resumeIfOveragePaused id now db).2
  | OResumeOverageAt id e => (resumeIfOveragePausedAt id e now db).2
  | ODevinReauth id k e => (pauseDevinAccountForReauth id k e now db).2
  | OIncrementUsage id d => (incrementUsage id d now db).2
  | OResetSession id t => (resetSession id t now db).2
  | OClearAnchor id => (clearSessionAnchor id now db).2
  | ORequestCount id c => (updateRequestCount id c now db).2
  | OUpdateTokens id t x r i e d => (updateTokens localDate id t x r i e d now db).2
  | OProfile id i e => (setAccountIdentityFromProfile localDate id i e now db).2
  | OIdentity id i => (setAccountIdentity localDate id i now db).2
  | OReconnectDevin id k x i a b c => (reconnectDevinAccount localDate id k x i a b c now db).2
  | OReconnectZai id k x i a b => (reconnectZaiAccount localDate id k x i a b now db).2
  | ODevinExpiry id k e x => (updateDevinSessionExpiry id k e x now db).2
  | OSubscription id s => (setAccountSubscriptionState id s now db).2
  | OTouchCheck id a => (touchAccountSubscriptionCheck id a now db).2
  | OClaimCheck id t => (claimAnthropicSubscriptionCheck id now t db).2
  | OSyncAnchor id s => (syncProviderRenewalAnchor localDate id s now db).2
  | OPause id r => (pause_account id r now db).2
  | OResume id => (resume id now db).2
  | OSetting id c => (updateSetting id c now db).2
  | OSetRenewal id a c p s => (setRenewal id a c p s now db).2
  | OResetRenewal id => (resetRenewalToAutomatic id now db).2
  | OSetDisabled id d e => (setDisabled id d e now db).2
  end.

(** A run: operations with the clock they run at. *)
Definition exec_all (db : database) (ops : list (Z * db_op)) : database :=
  foldl (λ db '(now, op), exec now db op) db ops.
End exec.

(** What the proxy does on its own: everything but the operator's writes, and no
    reason-keyed resume for the operator's own reason. *)
Definition automated (op : db_op) : bool :=
  match op with
  | OPause _ _ | OResume _ | OSetting _ _ | OSetRenewal _ _ _ _ _ | OResetRenewal _
  | OSetDisabled _ _ _ => false
  | OResumeWithReason _ r => negb (bool_decide (r = "manual"%string))
  | _ => true
  end.

(** * Rows across operations *)

(** Rows survive with the relation between old and new. *)
Definition row_rel (R : AccountRow → AccountRow → Prop) (db db' : database) : Prop :=
  ∀ k r, accounts db !! k = Some r → ∃ r', accounts db' !! k = Some r' ∧ R r r'.

Section row_rel.
Context (R : AccountRow → AccountRow → Prop) `{!Reflexive R, !Transitive R}.

Lemma row_rel_refl db : row_rel R db db.
Proof. intros k r H. eauto. Qed.

Lemma row_rel_trans db1 db2 db3 : row_rel R db1 db2 → row_rel R db2 db3 → row_rel R db1 db3.
Proof.
  intros H1 H2 k r Hk. destruct (H1 k r Hk) as (r' & Hk' & HR).
  destruct (H2 k r' Hk') as (r'' & ? & ?). eauto.
Qed.

Lemma row_rel_accounts db1 db2 db2' :
  accounts db2 = accounts db2' → row_rel R db1 db2 → row_rel R db1 db2'.
Proof. unfold row_rel. by intros ->. Qed.

Lemma row_rel_update now id guard f db :
  (∀ r, guard r = true → R r (pause_trigger now r (f r))) →
  row_rel R db (sql_update now id guard f db).2.
Proof.
  intros HR k r Hk. unfold sql_update. destruct (accounts db !! id) as [r0|] eqn:E; [|eauto].
  destruct (guard r0) eqn:Eg; [|eauto]. simpl. destruct (decide (id = k)) as [<-|Hne].
  - rewrite lookup_insert_eq. simplify_eq. eauto.
  - rewrite lookup_insert_ne by done. eauto.
Qed.
End row_rel.

Lemma changed_state (c : state database Z) db : (changed c db).2 = (c db).2.
Proof. unfold changed, st_bind, st_ret. by destruct (c db). Qed.

Lemma bind_unit_state (c : state database Z) db :
  ((_ <- c ;; st_ret tt)%state db).2 = (c db).2.
Proof. unfold st_bind, st_ret. by destruct (c db). Qed.

Lemma pause_trigger_same now r r' : pause r' = pause r → pause_trigger now r r' = r'.
Proof. intros H. unfold pause_trigger. by rewrite H, !bool_decide_eq_true_2. Qed.

Section steps.
Variable localDate : Z → option (Z * Z * Z).
Context (R : AccountRow → AccountRow → Prop) `{!Reflexive R, !Transitive R}.
Hypothesis R_anchor : ∀ now r a s c,
  renewal_anchor_source (renewal r) ≠ Some "manual"%string →
  R r (pause_trigger now r (set_renewal_anchor a s c r)).
Hypothesis R_price : ∀ now r p s,
  renewal_price_source (renewal r) ≠ Some "manual"%string →
  R r (pause_trigger now r (set_renewal_price p s r)).

Lemma always_update_at now id f db r :
  accounts db !! id = Some r → R r (pause_trigger now r (f r)) →
  row_rel R db (sql_update now id always f db).2.
Proof.
  intros E HR k r0 Hk. unfold sql_update. rewrite E. simpl. destruct (decide (id = k)) as [<-|Hne].
  - rewrite lookup_insert_eq. simplify_eq. eauto.
  - rewrite lookup_insert_ne by done. eauto.
Qed.

Lemma seed_anchor_rel now id identity db :
  row_rel R db (seedRenewalAnchorFromSubscription localDate id identity now db).2.
Proof.
  unfold seedRenewalAnchorFromSubscription.
  destruct (identity_subscription_started_at _) as [t|]; [|by apply row_rel_refl].
  destruct (anchorDateFromInstant _ t) as [a|]; [|by apply row_rel_refl].
  destruct (accounts db !! id) as [r|] eqn:E; [|by apply row_rel_refl].
  destruct (negb _); [by apply row_rel_refl|]. destruct (_ && _) eqn:Eg; [by apply row_rel_refl|].
  eapply always_update_at; [exact E|]. apply R_anchor. intros Hm. revert Eg. rewrite Hm.
  by rewrite (bool_decide_eq_false_2 (Some "manual"%string = None)), andb_false_r by done.
Qed.

Lemma seed_price_rel now id db : row_rel R db (seedDerivedRenewalPrice id now db).2.
Proof.
  unfold seedDerivedRenewalPrice.
  destruct (accounts db !! id) as [r|] eqn:E; [|by apply row_rel_refl].
  destruct (derivedPriceFor r) as [p|] eqn:Ep; [|by apply row_rel_refl].
  eapply always_update_at; [exact E|]. apply R_price. intros Hm. revert Ep.
  unfold derivedPriceFor. rewrite Hm.
  by rewrite (bool_decide_eq_false_2 (Some "manual"%string = None)), andb_false_r by done.
Qed.

Lemma write_identity_rel now id guard f identity db :
  (∀ r, guard r = true → R r (pause_trigger now r (f r))) →
  row_rel R db (writeIdentityWithTierHistory localDate id guard f identity now db).2.
Proof.
  intros Hf. unfold writeIdentityWithTierHistory.
  destruct identity as [i|]; [|by apply row_rel_update].
  pose proof (row_rel_update R now id guard f db Hf) as H1.
  destruct (sql_update now id guard f db) as [n db1]. simpl in H1.
  destruct (accounts db !! id); [|done]. destruct (n =? 0); [done|].
  assert (row_rel R db (seedDerivedRenewalPrice id now
    (seedRenewalAnchorFromSubscription localDate id i now db1).2).2) as H2.
  { eapply row_rel_trans; [exact _|exact H1|]. eapply row_rel_trans; [exact _| |apply seed_price_rel].
    apply seed_anchor_rel. }
  by destruct (_ && _).
Qed.

Lemma sync_anchor_rel now id sync db :
  row_rel R db (syncProviderRenewalAnchor localDate id sync now db).2.
Proof.
  unfold syncProviderRenewalAnchor.
  destruct (sync_endsAtMs sync) as [t|]; [|by apply row_rel_refl].
  destruct (_ && _); [by apply row_rel_refl|].
  destruct (anchorDateFromInstant _ t) as [a|]; [|by apply row_rel_refl].
  match goal with |- context [sql_update ?n ?i ?g ?f db] =>
    assert (row_rel R db (sql_update n i g f db).2) as H1; [|destruct (sql_update n i g f db) as [c db1]]
  end.
  { apply row_rel_update; [done|]. intros r Hg. apply R_anchor. intros Hm. revert Hg.
    unfold anchor_open_to_provider. by rewrite Hm. }
  simpl in *. destruct (0 <? c); [|done].
  eapply row_rel_trans; [exact _|exact H1|apply seed_price_rel].
Qed.

Lemma expired_rel now db :
  (∀ r, R r (with_limit (clear_until (limit r)) r)) →
  row_rel R db (clearExpiredRateLimits now db).2.
Proof.
  intros HR k r Hk. simpl. rewrite lookup_fmap, Hk. simpl. eexists. split; [done|].
  by destruct (sql_le _ _).
Qed.
End steps.

(** The epoch identifies the pause: it never falls, and while it stays the pause
    columns stay. *)
Definition epoch_rel (r r' : AccountRow) : Prop :=
  pause_epoch (pause r) <= pause_epoch (pause r') ∧
  (pause_epoch (pause r') = pause_epoch (pause r) →
     paused (pause r') = paused (pause r) ∧ pause_reason (pause r') = pause_reason (pause r)).

#[export] Instance epoch_rel_refl : Reflexive epoch_rel.
Proof. intros r. split; [lia|done]. Qed.
#[export] Instance epoch_rel_trans : Transitive epoch_rel.
Proof.
  intros r1 r2 r3 [H1 H1'] [H2 H2']. split; [lia|]. intros He.
  destruct (H1' ltac:(lia)) as [? ?]. destruct (H2' ltac:(lia)) as [? ?]. split; congruence.
Qed.

Lemma epoch_rel_trigger now r r' :
  pause_epoch (pause r') = pause_epoch (pause r) → epoch_rel r (pause_trigger now r r').
Proof.
  intros He. unfold pause_trigger. destruct (_ && _) eqn:E.
  - prop_bools. split; [lia|]. done.
  - unfold epoch_rel. simpl. split; [lia|]. lia.
Qed.

(** What no automated operation overrides: a manual pause, a manual anchor, a manual
    price. *)
Definition operator_rel (r r' : AccountRow) : Prop :=
  (is_paused r = true → pause_reason (pause r) = Some "manual"%string →
     pause r' = pause r) ∧
  (renewal_anchor_source (renewal r) = Some "manual"%string →
     renewal_anchor_source (renewal r') = Some "manual"%string ∧
     renewal_anchor (renewal r') = renewal_anchor (renewal r) ∧
     renewal_cadence (renewal r') = renewal_cadence (renewal r)) ∧
  (renewal_price_source (renewal r) = Some "manual"%string →
     renewal_price_source (renewal r') = Some "manual"%string ∧
     renewal_price_usd_micros (renewal r') = renewal_price_usd_micros (renewal r)).

#[export] Instance operator_rel_refl : Reflexive operator_rel.
Proof. intros r. unfold operator_rel. tauto. Qed.
#[export] Instance operator_rel_trans : Transitive operator_rel.
Proof.
  intros r1 r2 r3 (P1 & A1 & M1) (P2 & A2 & M2). split; [|split].
  - intros Hp Hr. specialize (P1 Hp Hr). rewrite <-P1. apply P2; [|by rewrite P1].
    unfold is_paused in *. by rewrite P1.
  - intros Hm. destruct (A1 Hm) as (Hm' & ? & ?). destruct (A2 Hm') as (? & ? & ?).
    repeat split; congruence.
  - intros Hm. destruct (M1 Hm) as (Hm' & ?). destruct (M2 Hm') as (? & ?). split; congruence.
Qed.

Lemma operator_rel_same now r r' :
  pause r' = pause r → renewal r' = renewal r → operator_rel r (pause_trigger now r r').
Proof.
  intros Hp Hn. rewrite (pause_trigger_same now r r' Hp). unfold operator_rel.
  rewrite Hp, Hn. tauto.
Qed.

Lemma operator_rel_pause now r r' :
  renewal r' = renewal r → is_paused r && paused_for "manual" r = false →
  operator_rel r (pause_trigger now r r').
Proof.
  intros Hn Hg.
  assert (renewal (pause_trigger now r r') = renewal r') as Hr.
  { unfold pause_trigger. by destruct (bool_decide _ && bool_decide _). }
  unfold operator_rel. rewrite Hr, Hn. split; [|tauto]. intros Hp Hm.
  unfold paused_for in Hg. by rewrite Hp, Hm in Hg.
Qed.

Lemma set_identity_pause i now r : pause (set_identity i now r) = pause r.
Proof. by destruct i. Qed.
Lemma set_identity_renewal i now r : renewal (set_identity i now r) = renewal r.
Proof. by destruct i. Qed.
Lemma lift_reauth_epoch r : pause_epoch (pause (lift_reauth_pause r)) = pause_epoch (pause r).
Proof. unfold lift_reauth_pause. by destruct (paused_for _ r). Qed.
Lemma lift_reauth_renewal r : renewal (lift_reauth_pause r) = renewal r.
Proof. unfold lift_reauth_pause. by destruct (paused_for _ r). Qed.
Lemma zai_row_pause (i : option AccountIdentity) now r :
  pause (match i with Some _ => fetched_now now r | None => r end) = pause r.
Proof. by destruct i. Qed.
Lemma zai_row_renewal (i : option AccountIdentity) now r :
  renewal (match i with Some _ => fetched_now now r | None => r end) = renewal r.
Proof. by destruct i. Qed.

Create Rewrite HintDb repo.
#[export] Hint Rewrite changed_state bind_unit_state : repo.
#[export] Hint Rewrite set_identity_pause set_identity_renewal lift_reauth_epoch
  lift_reauth_renewal zai_row_pause zai_row_renewal : repo.

(** Reduces an operation to the row relation of its update. *)
Ltac repo_step :=
  unfold setRateLimitedDeadlineOnly, resetConsecutiveRateLimits, updateRateLimitMeta,
    setObservedWindowReset, clearRateLimitState, clearRateLimitOnCapacityRestore,
    stampObservedRateLimitReset, clearLockOnSuccess, pauseIfActive,
    recordAnthropicUsageAccess, resumeIfPausedWithReason, resumeIfOveragePaused,
    resumeIfOveragePausedAt, pauseDevinAccountForReauth, incrementUsage, resetSession,
    clearSessionAnchor, updateRequestCount, updateTokens, setAccountIdentityFromProfile,
    setAccountIdentity, reconnectDevinAccount, reconnectZaiAccount,
    updateDevinSessionExpiry, setAccountSubscriptionState, touchAccountSubscriptionCheck,
    claimAnthropicSubscriptionCheck, pause_account, resume, updateSetting, setRenewal,
    resetRenewalToAutomatic, setDisabled;
  repeat match goal with
  | |- row_rel _ _ (match ?x with _ => _ end _).2 => destruct x
  | |- row_rel _ _ (changed _ _).2 => rewrite changed_state
  | |- row_rel _ _ ((_ <- _ ;; st_ret tt)%state _).2 => rewrite bind_unit_state
  | |- row_rel _ _ (changed (match ?x with _ => _ end) _).2 => destruct x
  end.

Lemma setRateLimited_state now id u r db :
  (setRateLimited id u r now db).2 =
    (sql_update now id always (λ x, with_limit (set_limit_lock u r now 1 (limit x)) x) db).2.
Proof. unfold setRateLimited, st_bind. by destruct (sql_update _ _ _ _ db). Qed.

Section runs.
Variable localDate : Z → option (Z * Z * Z).

Lemma exec_epoch now db op : row_rel epoch_rel db (exec localDate now db op).
Proof.
  destruct op; simpl exec; try (rewrite setRateLimited_state); repo_step;
    try (apply row_rel_update; [exact _|]; intros r _; apply epoch_rel_trigger;
         autorewrite with repo; try reflexivity).
  all: try (apply write_identity_rel; [exact _|exact _|intros; by apply epoch_rel_trigger
            |intros; by apply epoch_rel_trigger|]; intros r _; apply epoch_rel_trigger;
            autorewrite with repo; reflexivity).
  - apply expired_rel; [exact _|]. intros r. by split.
  - apply sync_anchor_rel; [exact _|exact _|intros; by apply epoch_rel_trigger..].
Qed.

Lemma operator_rel_trigger now r r' :
  renewal r' = renewal r →
  pause r' = pause r ∨ is_paused r && paused_for "manual" r = false →
  operator_rel r (pause_trigger now r r').
Proof. intros ? [?|?]; [by apply operator_rel_same|by apply operator_rel_pause]. Qed.

Lemma active_not_manual r : is_active r = true → is_paused r && paused_for "manual" r = false.
Proof.
  unfold is_active, is_paused, sql_eq. destruct (paused (pause r)) as [p|]; [|done]. simpl.
  intros Hp. prop_bools. subst. done.
Qed.

Lemma other_reason_not_manual reason r :
  paused_for reason r = true → reason ≠ "manual"%string →
  is_paused r && paused_for "manual" r = false.
Proof.
  unfold paused_for, sql_eq. destruct (pause_reason (pause r)) as [x|]; [|done]. intros Hr Hne.
  prop_bools. subst x. by rewrite bool_decide_eq_false_2, andb_false_r by done.
Qed.

Lemma overage_not_manual r :
  overage_paused r = true → is_paused r && paused_for "manual" r = false.
Proof.
  unfold overage_paused. intros H. prop_bools. apply orb_true_iff in H0 as [H0|H0].
  - prop_bools. unfold paused_for. by rewrite H0, andb_false_r.
  - by eapply other_reason_not_manual.
Qed.

Lemma lift_reauth_operator r0 r :
  pause r = pause r0 →
  pause (lift_reauth_pause r) = pause r0 ∨ is_paused r0 && paused_for "manual" r0 = false.
Proof.
  intros Hp. unfold lift_reauth_pause. destruct (paused_for _ r) eqn:E; [|by left].
  right. apply (other_reason_not_manual PAUSE_REASON_NEEDS_REAUTH); [|done].
  unfold paused_for in *. by rewrite <-Hp.
Qed.

Lemma operator_rel_anchor now r a s c :
  renewal_anchor_source (renewal r) ≠ Some "manual"%string →
  operator_rel r (pause_trigger now r (set_renewal_anchor a s c r)).
Proof. intros H. rewrite pause_trigger_same by done. unfold operator_rel. simpl. tauto. Qed.

Lemma operator_rel_price now r p s :
  renewal_price_source (renewal r) ≠ Some "manual"%string →
  operator_rel r (pause_trigger now r (set_renewal_price p s r)).
Proof. intros H. rewrite pause_trigger_same by done. unfold operator_rel. simpl. tauto. Qed.

(** The guard of a conditional pause or resume excludes the manual pause. *)
Ltac guard_not_manual :=
  intros; prop_bools; subst; simpl; autorewrite with repo;
  first
    [ left; done
    | right; first
        [ by apply active_not_manual
        | by apply overage_not_manual
        | by eapply other_reason_not_manual ]
    | by apply lift_reauth_operator ].

Lemma pause_eta p :
  {| paused := paused p; pause_reason := pause_reason p; pause_epoch := pause_epoch p;
     pause_changed_at := pause_changed_at p |} = p.
Proof. by destruct p. Qed.

Lemma write_operator now id guard f identity db :
  (∀ r, guard r = true → renewal (f r) = renewal r) →
  (∀ r, guard r = true →
     pause (f r) = pause r ∨ is_paused r && paused_for "manual" r = false) →
  row_rel operator_rel db
    (writeIdentityWithTierHistory localDate id guard f identity now db).2.
Proof.
  intros Hn Hp. apply write_identity_rel; [exact _|exact _|..].
  - intros. by apply operator_rel_anchor.
  - intros. by apply operator_rel_price.
  - intros r Hg. apply operator_rel_trigger; auto.
Qed.

Lemma exec_operator now db op :
  automated op = true → row_rel operator_rel db (exec localDate now db op).
Proof.
  intros Ha. destruct op; try discriminate Ha; simpl exec; try (rewrite setRateLimited_state);
    repo_step;
    try (apply row_rel_update; [exact _|]; intros r Hg; apply operator_rel_trigger;
         [autorewrite with repo; reflexivity|]; guard_not_manual).
  - apply (expired_rel operator_rel now). intros r. unfold operator_rel. simpl. tauto.
  - apply row_rel_update; [exact _|]. intros r Hg. apply operator_rel_trigger; [done|]. right.
    prop_bools. apply orb_true_iff in H0 as [H0|H0]; by eapply other_reason_not_manual.
  - apply row_rel_update; [exact _|]. intros r Hg. apply operator_rel_trigger; [done|]. right.
    prop_bools. simpl in Ha. prop_bools. by eapply other_reason_not_manual.
  - apply write_operator; intros; autorewrite with repo; auto.
  - apply write_operator; [done|]. intros r _. simpl.
    destruct (_ && paused_for "usage_permission_denied" r) eqn:E; [|left; apply pause_eta].
    right. apply andb_true_iff in E as [_ E]. by eapply other_reason_not_manual.
  - apply write_operator; intros; autorewrite with repo; auto.
  - apply write_operator; intros; autorewrite with repo; [done|]. by apply lift_reauth_operator.
  - apply write_operator; intros; autorewrite with repo; [done|].
    apply lift_reauth_operator. by destruct identity.
  - apply sync_anchor_rel; [exact _|exact _| |]; intros.
    + by apply operator_rel_anchor.
    + by apply operator_rel_price.
Qed.

Lemma exec_all_rel R `{!Reflexive R, !Transitive R} ops db :
  (∀ now op db, (now, op) ∈ ops → row_rel R db (exec localDate now db op)) →
  row_rel R db (exec_all localDate db ops).
Proof.
  revert db. induction ops as [|[now op] ops IH]; intros db H; simpl.
  - by apply row_rel_refl.
  - eapply row_rel_trans; [exact _| |apply IH].
    + apply H. by left.
    + intros. apply H. by right.
Qed.
End runs.

(** * Properties *)

(** the operator's decisions stand. Whatever the proxy does on its own, in any
    order, an account paused by hand stays paused by hand (with the same pause epoch),
    a renewal date and cadence set by hand stay, and so does a price set by hand: only
    the operator's own writes touch them. *)
Theorem operator_decisions_kept localDate db ops id r :
  Forall (λ '(_, op), automated op = true) ops →
  accounts db !! id = Some r →
  ∃ r', accounts (exec_all localDate db ops) !! id = Some r' ∧
    (is_paused r = true → pause_reason (pause r) = Some "manual"%string →
       pause r' = pause r) ∧
    (renewal_anchor_source (renewal r) = Some "manual"%string →
       renewal_anchor (renewal r') = renewal_anchor (renewal r) ∧
       renewal_cadence (renewal r') = renewal_cadence (renewal r)) ∧
    (renewal_price_source (renewal r) = Some "manual"%string →
       renewal_price_usd_micros (renewal r') = renewal_price_usd_micros (renewal r)).
Proof.
  intros Ha Hr. rewrite Forall_forall in Ha.
  destruct (exec_all_rel localDate operator_rel ops db) with (k := id) (r := r)
    as (r' & Hr' & Hp & Hn & Hm); [|done|].
  { intros now op db' Hin. apply exec_operator. apply (Ha (now, op) Hin). }
  exists r'. naive_solver.
Qed.

(** a pause epoch identifies a pause. Over any sequence of writes, the operator's
    included, the epoch never falls, and while it is the same the pause is the same; so
    a resume owed to one pause (its epoch) lifts an account only if the pause it finds
    is still that very pause, and is refused, changing nothing, otherwise. *)
Theorem pause_epoch_identity localDate db ops id m now :
  getPauseMarker id db = Some m →
  let db' := exec_all localDate db ops in
  ∃ m', getPauseMarker id db' = Some m' ∧
    marker_pauseEpoch m <= marker_pauseEpoch m' ∧
    (marker_pauseEpoch m' = marker_pauseEpoch m →
       marker_paused m' = marker_paused m ∧ marker_pauseReason m' = marker_pauseReason m) ∧
    (marker_pauseEpoch m' ≠ marker_pauseEpoch m →
       resumeIfOveragePausedAt id (marker_pauseEpoch m) now db' = (false, db')) ∧
    ((resumeIfOveragePausedAt id (marker_pauseEpoch m) now db').1 = true →
       marker_paused m = true ∧
       (marker_pauseReason m = None ∨ marker_pauseReason m = Some "overage"%string)).
Proof.
  intros Hm db'. unfold getPauseMarker in *.
  destruct (accounts db !! id) as [r|] eqn:Hr; simplify_eq/=.
  destruct (exec_all_rel localDate epoch_rel ops db) with (k := id) (r := r)
    as (r' & Hr' & Hle & Heq); [|done|].
  { intros. apply exec_epoch. }
  fold db' in Hr'. rewrite Hr'. simpl. eexists. split; [done|]. simpl.
  split; [done|]. split; [|split].
  - intros He. destruct (Heq He) as [-> ->]. done.
  - intros Hne. unfold resumeIfOveragePausedAt, changed, st_bind, st_ret, sql_update.
    rewrite Hr'. rewrite (proj2 (Z.eqb_neq _ _) Hne). by rewrite andb_false_r.
  - unfold resumeIfOveragePausedAt, changed, st_bind, st_ret, sql_update. rewrite Hr'.
    destruct (overage_paused r' && _) eqn:Eg; [|done]. intros _. prop_bools.
    destruct (Heq ltac:(done)) as [Hp Hre]. unfold overage_paused, is_paused, paused_for in *.
    rewrite Hp, Hre in *. prop_bools. apply orb_true_iff in H1. unfold sql_eq in *.
    destruct (paused (pause r)) as [p|]; [|done]. prop_bools. subst p. split; [done|].
    destruct (pause_reason (pause r)) as [x|]; [|by left]. right.
    destruct H1 as [H1|H1]; prop_bools; congruence.
Qed.

(** ** Token writes *)

(** Everything but the renewal schedule *)
Definition same_but_renewal (r r' : AccountRow) : Prop := r = with_renewal (renewal r) r'.

#[export] Instance same_but_renewal_refl : Reflexive same_but_renewal.
Proof. intros []. done. Qed.
#[export] Instance same_but_renewal_trans : Transitive same_but_renewal.
Proof. intros r1 r2 r3 H1 H2. unfold same_but_renewal in *. rewrite H1, H2. by destruct r3. Qed.

Lemma sql_update_ne now id guard f db k :
  k ≠ id → accounts (sql_update now id guard f db).2 !! k = accounts db !! k.
Proof.
  intros Hk. unfold sql_update. destruct (accounts db !! id); [|done].
  destruct (guard _); [|done]. simpl. by rewrite lookup_insert_ne.
Qed.

Lemma sql_update_history now id guard f db :
  tier_history (sql_update now id guard f db).2 = tier_history db.
Proof. unfold sql_update. destruct (accounts db !! id); [|done]. by destruct (guard _). Qed.

Section tokens.
Variable localDate : Z → option (Z * Z * Z).

(** The two seeds after an identity write *)
Definition seeds (id : string) (i : AccountIdentity) (now : Z) (db : database) : database :=
  (seedDerivedRenewalPrice id now (seedRenewalAnchorFromSubscription localDate id i now db).2).2.

Lemma seed_price_frame id now db k :
  tier_history (seedDerivedRenewalPrice id now db).2 = tier_history db ∧
  (k ≠ id → accounts (seedDerivedRenewalPrice id now db).2 !! k = accounts db !! k).
Proof.
  unfold seedDerivedRenewalPrice. destruct (accounts db !! id) as [r|]; [|done].
  destruct (derivedPriceFor r); [|done]. cbn [snd].
  split; [apply sql_update_history|apply sql_update_ne].
Qed.

Lemma seed_anchor_frame id i now db k :
  let db' := (seedRenewalAnchorFromSubscription localDate id i now db).2 in
  tier_history db' = tier_history db ∧ (k ≠ id → accounts db' !! k = accounts db !! k).
Proof.
  unfold seedRenewalAnchorFromSubscription.
  destruct (identity_subscription_started_at _); [|done].
  destruct (anchorDateFromInstant _ _); [|done]. destruct (accounts db !! id) as [r|]; [|done].
  destruct (negb _); [done|]. destruct (_ && _); [done|]. cbn [snd].
  split; [apply sql_update_history|apply sql_update_ne].
Qed.

Lemma seeds_frame id i now db k :
  tier_history (seeds id i now db) = tier_history db ∧
  (k ≠ id → accounts (seeds id i now db) !! k = accounts db !! k).
Proof.
  unfold seeds. destruct (seed_anchor_frame id i now db k) as [H1 H2].
  destruct (seed_price_frame id now (seedRenewalAnchorFromSubscription localDate id i now db).2 k)
    as [H3 H4].
  split; [congruence|]. intros Hk. rewrite H4 by done. by apply H2.
Qed.

Lemma seeds_rel id i now db : row_rel same_but_renewal db (seeds id i now db).
Proof.
  unfold seeds. eapply row_rel_trans; [exact _| |].
  - apply seed_anchor_rel; [exact _|]. intros. rewrite pause_trigger_same by done.
    unfold same_but_renewal. by destruct r.
  - apply seed_price_rel; [exact _|]. intros. rewrite pause_trigger_same by done.
    unfold same_but_renewal. by destruct r.
Qed.

Definition history_of (id : string) (now : Z) (identity : option AccountIdentity)
    (r : AccountRow) : list TierHistoryRow :=
  match identity with
  | None => []
  | Some i =>
      let plan := coalesce (identity_plan_tier (id_cols i)) (identity_plan_tier (ident r)) in
      let rate := coalesce (identity_rate_limit_tier (id_cols i))
                           (identity_rate_limit_tier (ident r)) in
      if bool_decide (plan = identity_plan_tier (ident r))
         && bool_decide (rate = identity_rate_limit_tier (ident r)) then []
      else [{| th_account_id := id; th_observed_at := now;
               th_plan_tier := plan; th_rate_limit_tier := rate |}]
  end.

Lemma write_identity_spec now id guard f identity db r :
  accounts db !! id = Some r →
  let '(n, db') := writeIdentityWithTierHistory localDate id guard f identity now db in
  if guard r then
    n = 1 ∧ (∃ r', accounts db' !! id = Some r' ∧
               same_but_renewal (pause_trigger now r (f r)) r' ∧
               (identity = None → r' = pause_trigger now r (f r))) ∧
    (∀ k, k ≠ id → accounts db' !! k = accounts db !! k) ∧
    tier_history db' = tier_history db ++ history_of id now identity r
  else n = 0 ∧ db' = db.
Proof.
  intros Hr. unfold writeIdentityWithTierHistory, sql_update, history_of. rewrite Hr.
  destruct identity as [i|]; (destruct (guard r); [|done]).
  - simpl. fold (seeds id i now (set_account id (pause_trigger now r (f r)) db)).
    set (db1 := set_account id (pause_trigger now r (f r)) db).
    destruct (seeds_rel id i now db1 id (pause_trigger now r (f r))) as (r' & Hr' & Hs).
    { simpl. apply lookup_insert_eq. }
    assert (∀ k, k ≠ id → accounts (seeds id i now db1) !! k = accounts db !! k) as Hk.
    { intros k Hk. rewrite (proj2 (seeds_frame id i now db1 k)) by done. simpl.
      by rewrite lookup_insert_ne. }
    pose proof (proj1 (seeds_frame id i now db1 id)) as Hh.
    destruct (_ && _); simpl; (split; [done|]); (split; [by exists r'|]); (split; [done|]).
    + rewrite Hh. by rewrite app_nil_r.
    + by rewrite Hh.
  - simpl. split; [done|]. split; [|split; [|by rewrite app_nil_r]].
    + eexists. split; [apply lookup_insert_eq|]. done.
    + intros k Hk. by rewrite lookup_insert_ne.
Qed.
End tokens.

(** The credentials after a token write, for the components that refresh tokens *)
Lemma tokens_cas_core localDate db id token expires refresh identity expected deadline now r :
  accounts db !! id = Some r →
  let res := updateTokens localDate id token expires refresh identity expected deadline now db in
  if cas_token expected r then
    res.1 = true ∧ ∃ r', accounts res.2 !! id = Some r' ∧
      creds r' = set_tokens token expires refresh deadline now (creds r)
  else res = (false, db).
Proof.
  intros Hr res. subst res. unfold updateTokens, changed, st_bind, st_ret.
  match goal with |- context [writeIdentityWithTierHistory ?l ?i ?g ?f ?d ?n db] =>
    pose proof (write_identity_spec l n i g f d db r Hr) as Hs;
    destruct (writeIdentityWithTierHistory l i g f d n db) as [c db'] end.
  destruct (cas_token expected r).
  - destruct Hs as (-> & (r' & Hr' & Hs & _) & _). simpl. split; [done|]. exists r'. split; [done|].
    revert Hs. rewrite pause_trigger_same by (by destruct identity). unfold same_but_renewal.
    destruct identity, r'; intros Hs; injection Hs; intros; subst; simpl; congruence.
  - destruct Hs as [-> ->]. done.
Qed.

Lemma cas_token_spec expected r :
  cas_token expected r = match expected with
                         | Some t => bool_decide (refresh_token (creds r) = Some t)
                         | None => true
                         end.
Proof.
  destruct expected as [t|]; simpl; [|done].
  unfold sql_eq. destruct (refresh_token (creds r)); [|done].
  apply bool_decide_ext. naive_solver.
Qed.

Lemma set_tokens_spec token expires refresh deadline now c :
  let c' := set_tokens token expires refresh deadline now c in
  api_key c' = api_key c ∧ access_token c' = Some token ∧ expires_at c' = Some expires ∧
  match truthy_string refresh with
  | None => refresh_token c' = refresh_token c ∧
      refresh_token_issued_at c' = refresh_token_issued_at c ∧
      refresh_token_expires_at c' = refresh_token_expires_at c
  | Some t => refresh_token c' = Some t ∧ refresh_token_issued_at c' = Some now ∧
      (∀ d, deadline = Some d → refresh_token_expires_at c' = Some d) ∧
      (deadline = None → refresh_token_expires_at c' =
         if bool_decide (refresh_token c = Some t) then refresh_token_expires_at c else None)
  end.
Proof.
  unfold set_tokens. destruct (truthy_string refresh) as [t|]; simpl; [|done].
  repeat split; intros; subst; simpl; [done|].
  unfold sql_eq. destruct (refresh_token c) as [u|]; simpl; [|done].
  destruct (decide (u = t)) as [->|Hn]; [by rewrite !bool_decide_eq_true_2|].
  by rewrite !bool_decide_eq_false_2 by congruence.
Qed.

(** C7: a refreshed token is a compare-and-swap on the token it was exchanged for. When
    an expected refresh token is given and the row holds another one (or the account is
    gone), nothing is written: not the row, not the tier history. When it applies, the
    access token and its expiry are the new ones; a rotated refresh token arrives with
    its deadline, an unreported deadline is kept for an unchanged token and cleared for
    a rotated one; the identity is merged so a captured field is never erased; pauses,
    cooldowns and other accounts are untouched; and a tier history row is appended
    exactly when the effective tier pair changed. *)
Theorem tokens_cas localDate db id token expires refresh identity expected deadline now :
  let res := updateTokens localDate id token expires refresh identity expected deadline now db in
  match accounts db !! id with
  | None => res = (false, db)
  | Some r =>
      if match expected with
         | Some t => bool_decide (refresh_token (creds r) = Some t)
         | None => true
         end then
        res.1 = true ∧
        (∃ r', accounts res.2 !! id = Some r' ∧
           api_key (creds r') = api_key (creds r) ∧
           access_token (creds r') = Some token ∧ expires_at (creds r') = Some expires ∧
           match truthy_string refresh with
           | None => refresh_token (creds r') = refresh_token (creds r) ∧
               refresh_token_issued_at (creds r') = refresh_token_issued_at (creds r) ∧
               refresh_token_expires_at (creds r') = refresh_token_expires_at (creds r)
           | Some t => refresh_token (creds r') = Some t ∧
               refresh_token_issued_at (creds r') = Some now ∧
               (∀ d, deadline = Some d → refresh_token_expires_at (creds r') = Some d) ∧
               (deadline = None → refresh_token_expires_at (creds r') =
                  if bool_decide (refresh_token (creds r) = Some t)
                  then refresh_token_expires_at (creds r) else None)
           end ∧
           ident r' = match identity with
                      | Some i => merge_identity (id_cols i) (ident r)
                      | None => ident r
                      end ∧
           pause r' = pause r ∧ limit r' = limit r ∧ session r' = session r) ∧
        (∀ k, k ≠ id → accounts res.2 !! k = accounts db !! k) ∧
        tier_history res.2 = tier_history db ++ history_of id now identity r
      else res = (false, db)
  end.
Proof.
  intros res. subst res. unfold updateTokens, changed, st_bind, st_ret.
  destruct (accounts db !! id) as [r|] eqn:Hr.
  - match goal with |- context [writeIdentityWithTierHistory ?l ?i ?g ?f ?d ?n db] =>
      pose proof (write_identity_spec l n i g f d db r Hr) as Hs;
      destruct (writeIdentityWithTierHistory l i g f d n db) as [c db'] end.
    rewrite <-cas_token_spec. destruct (cas_token expected r).
    + destruct Hs as (-> & (r' & Hr' & Hs & _) & Hk & Hh). simpl.
      split; [done|]. split; [|by split]. exists r'. split; [done|]. revert Hs.
      rewrite pause_trigger_same by (by destruct identity). unfold same_but_renewal.
      intros Hs. assert (creds r' = set_tokens token expires refresh deadline now (creds r) ∧
        ident r' = match identity with
                   | Some i => merge_identity (id_cols i) (ident r)
                   | None => ident r
                   end ∧
        pause r' = pause r ∧ limit r' = limit r ∧ session r' = session r)
        as (Ec & Ei & Ep & El & Es).
      { revert Hs. destruct identity, r'; intros Hs; injection Hs; intros; subst; simpl;
          repeat split; congruence. }
      pose proof (set_tokens_spec token expires refresh deadline now (creds r)) as Ht.
      rewrite <-Ec in Ht. naive_solver.
    + destruct Hs as [-> ->]. done.
  - unfold writeIdentityWithTierHistory, sql_update. rewrite Hr. by destruct identity.
Qed.

(** * Concrete runs *)

Definition demo_row (p : option Z) (reason : option string) (epoch : Z) : AccountRow :=
  {| provider := Some "anthropic"; custom_endpoint := None; disabled := 0; created_at := 1;
     settings := {| name := "one"; priority := Some 0; auto_fallback_enabled := Some 1;
                    auto_pause_on_overage_enabled := Some 1; billing_type := None;
                    notes := None |};
     flags := {| auto_refresh_enabled := None; peak_hours_pause_enabled := 0;
                 codex_auto_apply_reset_credits_enabled := 0;
                 codex_auto_apply_reset_on_weekly_limit_enabled := 0;
                 codex_fast_mode_enabled := 0;
                 anthropic_auto_apply_banked_resets_enabled := 0;
                 anthropic_auto_apply_banked_reset_on_weekly_limit_enabled := 0 |};
     creds := {| api_key := None; refresh_token := Some "rt1"; access_token := Some "at1";
                 expires_at := Some 100; refresh_token_issued_at := Some 1;
                 refresh_token_expires_at := Some 900 |};
     pause := {| paused := p; pause_reason := reason; pause_epoch := epoch;
                 pause_changed_at := None |};
     limit := {| rate_limited_until := None; rate_limited_reason := None;
                 rate_limited_at := None; consecutive_rate_limits := 0;
                 rate_limit_status := None; rate_limit_reset := None;
                 rate_limit_remaining := None |};
     session := {| last_used := None; request_count := None; total_requests := None;
                   session_start := None; session_request_count := None |};
     ident := {| identity_external_id := None; identity_email := None;
                 identity_organization_name := None; identity_plan_tier := Some "max";
                 identity_rate_limit_tier := None; identity_organization_uuid := None;
                 identity_subscription_status := None;
                 identity_subscription_started_at := None |};
     identity_captured_at := None; identity_profile_fetched_at := None;
     subscription := {| subscription_ends_at := None; subscription_will_renew := None;
                        subscription_grace_ends_at := None; subscription_checked_at := None |};
     renewal := {| renewal_anchor := None; renewal_anchor_source := Some "manual";
                   renewal_cadence := None; renewal_price_usd_micros := None;
                   renewal_price_source := None; renewal_auto_start_date := None |}
  |}%string.

Definition demo_db (r : AccountRow) : database :=
  {| accounts := {[ "a1"%string := r ]}; tier_history := [] |}.

Definition no_calendar (_ : Z) : option (Z * Z * Z) := None.

Lemma operator_decisions_kept_witness :
  ∃ r', accounts (exec_all no_calendar (demo_db (demo_row (Some 1) (Some "manual"%string) 3))
                    [(10, OResumeOverage "a1"); (20, OClearExpired)]) !! "a1"%string = Some r' ∧
    pause_epoch (pause r') = 3.
Proof.
  destruct (operator_decisions_kept no_calendar
              (demo_db (demo_row (Some 1) (Some "manual"%string) 3))
              [(10, OResumeOverage "a1"); (20, OClearExpired)] "a1"
              (demo_row (Some 1) (Some "manual"%string) 3)) as (r' & Hr & Hp & _).
  - repeat constructor.
  - reflexivity.
  - exists r'. split; [exact Hr|]. rewrite Hp; reflexivity.
Defined.

Lemma pause_epoch_identity_witness :
  let db := demo_db (demo_row (Some 1) (Some "overage"%string) 3) in
  (resumeIfOveragePausedAt "a1" 3 40
     (exec_all no_calendar db [(10, OResume "a1"); (20, OPauseIfActive "a1" "overage" None)])).1
  = false.
Proof.
  set (ops := [(10, OResume "a1"); (20, OPauseIfActive "a1" "overage" None)]).
  destruct (pause_epoch_identity no_calendar
              (demo_db (demo_row (Some 1) (Some "overage"%string) 3)) ops "a1"
              {| marker_paused := true; marker_pauseReason := Some "overage"%string;
                 marker_autoPauseOnOverageEnabled := true; marker_pauseEpoch := 3;
                 marker_pauseChangedAt := None |} 40) as (m' & Hm & _ & _ & Hne & _).
  - reflexivity.
  - simpl marker_pauseEpoch in Hne. cbv zeta. unfold ops in *. rewrite Hne; [reflexivity|].
    vm_compute in Hm. injection Hm as Hm. rewrite <-Hm. discriminate.
Defined.
