(* ===== verification/ProbeGate.v ===== *)
(** The rate-limit cooldown and its single-flight recovery probe:
    [packages/proxy/src/handlers/rate-limit-cooldown.ts].

    Module state is the record [gate]. Object identity matters in two places and is
    explicit: a probe lease carries its identity [lease_ref], and a capacity
    reservation lives in a heap addressed by its generation, which is unique, with its
    [previous] link an address. Log lines and the emitted [RateLimitError] are left
    out; a write handed to the async writer is a [db_op] of AccountRepo. *)

From S2P Require Import Prelude Models Providers Accounts AccountRepo.
Open Scope Z_scope.

Definition MATURE_COOLDOWN_STREAK : Z := 5.
Definition PROBE_LEASE_MS : Z := 2 * 60 * 1000.
Definition MAX_PROBE_GATES : Z := 10000.

(** * State *)

Record RateLimitProbeLease := {
  lease_ref : Z;
  lease_accountId : string;
  lease_leaseUntil : Z;
  lease_capacityGeneration : option Z
}.

Record CapacityProbeReservation := {
  res_accountId : string;
  res_previous : option Z;
  res_cooldownUntil : option Z;
  res_rolledBack : bool
}.

Record gate := {
  probeLeases : jmap string RateLimitProbeLease;
  capacityRestoredPending : jmap string Z;
  reservations : gmap Z CapacityProbeReservation;
  capacityGenerationCounter : Z;
  leaseCounter : Z;
  attemptLeases : gmap Z (jmap string RateLimitProbeLease)
}.

Definition gate_init : gate :=
  {| probeLeases := ∅; capacityRestoredPending := ∅; reservations := ∅;
     capacityGenerationCounter := 0; leaseCounter := 0; attemptLeases := ∅ |}.

#[export] Instance lease_eq_dec : EqDecision RateLimitProbeLease.
Proof. solve_decision. Defined.

Definition set_leases (m : jmap string RateLimitProbeLease) (g : gate) : gate :=
  {| probeLeases := m; capacityRestoredPending := capacityRestoredPending g;
     reservations := reservations g;
     capacityGenerationCounter := capacityGenerationCounter g;
     leaseCounter := leaseCounter g; attemptLeases := attemptLeases g |}.

Definition set_pending (m : jmap string Z) (g : gate) : gate :=
  {| probeLeases := probeLeases g; capacityRestoredPending := m;
     reservations := reservations g;
     capacityGenerationCounter := capacityGenerationCounter g;
     leaseCounter := leaseCounter g; attemptLeases := attemptLeases g |}.

Definition set_reservations (h : gmap Z CapacityProbeReservation) (g : gate) : gate :=
  {| probeLeases := probeLeases g; capacityRestoredPending := capacityRestoredPending g;
     reservations := h; capacityGenerationCounter := capacityGenerationCounter g;
     leaseCounter := leaseCounter g; attemptLeases := attemptLeases g |}.

Definition set_attempts (m : gmap Z (jmap string RateLimitProbeLease)) (g : gate) : gate :=
  {| probeLeases := probeLeases g; capacityRestoredPending := capacityRestoredPending g;
     reservations := reservations g;
     capacityGenerationCounter := capacityGenerationCounter g;
     leaseCounter := leaseCounter g; attemptLeases := m |}.

(** * Capacity-restored markers *)

(** The walk to the first reservation not rolled back. [None]: out of fuel;
    [Some None]: every ancestor failed. *)
Fixpoint firstLiveReservation (fuel : nat) (h : gmap Z CapacityProbeReservation)
    (from : option Z) : option (option Z) :=
  match fuel with
  | O => None
  | S fuel =>
      match from with
      | None => Some None
      | Some gen =>
          match h !! gen with
          | None => Some None
          | Some r =>
              if res_rolledBack r then firstLiveReservation fuel h (res_previous r)
              else Some (Some gen)
          end
      end
  end.

(** Stores a new reservation under the next generation and makes it the marker. *)
Definition push_reservation (id : string) (previous cooldownUntil : option Z) (g : gate)
    : Z * gate :=
  let gen := capacityGenerationCounter g + 1 in
  (gen,
   {| probeLeases := probeLeases g;
      capacityRestoredPending := <[id := gen]> (capacityRestoredPending g);
      reservations :=
        <[gen := {| res_accountId := id; res_previous := previous;
                    res_cooldownUntil := cooldownUntil; res_rolledBack := false |}]>
          (reservations g);
      capacityGenerationCounter := gen;
      leaseCounter := leaseCounter g; attemptLeases := attemptLeases g |}).

Definition markCapacityRestoredProbePending (id : string) : state gate Z := λ g,
  push_reservation id (capacityRestoredPending g !! id) None g.

Definition armBurstRecoveryProbe (a : Account) (cooldownUntil : Z) (g : gate) : gate :=
  (push_reservation (acc_id a) None (Some cooldownUntil) g).2.

Definition mark_rolled_back (gen : Z) (h : gmap Z CapacityProbeReservation)
    : gmap Z CapacityProbeReservation :=
  alter (λ r, {| res_accountId := res_accountId r; res_previous := res_previous r;
                 res_cooldownUntil := res_cooldownUntil r; res_rolledBack := true |}) gen h.

(** The walk visits strictly older generations, so the counter bounds it. *)
Definition walk_fuel (g : gate) : nat := S (S (Z.to_nat (capacityGenerationCounter g))).

Definition rollbackCapacityRestoredProbePending (gen : Z) (g : gate) : gate :=
  match reservations g !! gen with
  | None => g
  | Some r =>
      let g := set_reservations (mark_rolled_back gen (reservations g)) g in
      let id := res_accountId r in
      if negb (bool_decide (capacityRestoredPending g !! id = Some gen)) then g
      else
        match firstLiveReservation (walk_fuel g) (reservations g) (res_previous r) with
        | None => g
        | Some None => set_pending (delete id (capacityRestoredPending g)) g
        | Some (Some restored) =>
            set_pending (<[id := restored]> (capacityRestoredPending g)) g
        end
  end.

Definition clearCapacityRestoredProbePending (id : string) (g : gate) : gate :=
  set_pending (delete id (capacityRestoredPending g)) g.

Definition hasCapacityRestoredProbePending (id : string) (g : gate) : bool :=
  jhas id (capacityRestoredPending g).

(** * Admission *)

(** [while (size >= MAX) delete oldest] *)
Fixpoint evict_oldest (l : list (string * RateLimitProbeLease))
    : list (string * RateLimitProbeLease) :=
  match l with
  | [] => []
  | _ :: l' => if MAX_PROBE_GATES <=? Z.of_nat (length l) then evict_oldest l' else l
  end.

Definition pruneProbeLeases (now : Z) (g : gate) : gate :=
  set_leases
    (JMap (evict_oldest (filter (λ '(_, l), (lease_leaseUntil l <=? now) = false)
                                (entries (probeLeases g))))) g.

Record ProbeGateInspection := {
  gatingRequired : bool;
  capacityGeneration : option Z;
  coolingDown : bool
}.

Definition inspectProbeGate (a : Account) (now : Z) (g : gate) : ProbeGateInspection :=
  let expiredMatureCooldown :=
    (MATURE_COOLDOWN_STREAK <=? acc_consecutive_rate_limits a)
    && sql_le (acc_rate_limited_until a) now in
  let generation := capacityRestoredPending g !! acc_id a in
  let reservation := generation ≫= λ gen, reservations g !! gen in
  {| gatingRequired :=
       expiredMatureCooldown
       || bool_decide (is_Some generation)
       || (bool_decide (acc_rate_limited_reason a = Some "org_permission_denied"%string)
           && match acc_rate_limited_until a with
              | Some u => (u =? 0) || (u <=? now)
              | None => true
              end);
     capacityGeneration := generation;
     coolingDown := now <? default 0 (reservation ≫= res_cooldownUntil) |}.

Inductive RateLimitProbeAdmission : Type :=
  | NotRequired
  | Suppressed
  | AdmittedProbe (lease : RateLimitProbeLease).

Definition lease_live (now : Z) (o : option RateLimitProbeLease) : bool :=
  match o with Some l => now <? lease_leaseUntil l | None => false end.

Definition getRateLimitProbeAdmission (a : Account) (now : Z) (reprobe : bool)
    : state gate RateLimitProbeAdmission := λ g,
  let i := inspectProbeGate a now g in
  if negb (gatingRequired i) then (NotRequired, g)
  else if coolingDown i && negb reprobe then (Suppressed, g)
  else
    let g := pruneProbeLeases now g in
    if lease_live now (probeLeases g !! acc_id a) then (Suppressed, g)
    else
      let lease := {| lease_ref := leaseCounter g; lease_accountId := acc_id a;
                      lease_leaseUntil := now + PROBE_LEASE_MS;
                      lease_capacityGeneration := capacityGeneration i |} in
      (AdmittedProbe lease,
       {| probeLeases := <[acc_id a := lease]> (probeLeases g);
          capacityRestoredPending := capacityRestoredPending g;
          reservations := reservations g;
          capacityGenerationCounter := capacityGenerationCounter g;
          leaseCounter := leaseCounter g + 1; attemptLeases := attemptLeases g |}).

Definition wouldSuppressProbe (a : Account) (now : Z) (g : gate) : bool :=
  let i := inspectProbeGate a now g in
  if negb (gatingRequired i) then false
  else if coolingDown i then true
  else lease_live now (probeLeases g !! acc_id a).

(** * Settlement *)

Inductive ProbeOutcome : Type := recovered | cooldown_reapplied | abandoned.

Definition releaseProbeLease (id : string) (outcome : ProbeOutcome)
    (lease : RateLimitProbeLease) (g : gate) : gate :=
  let g := set_leases (delete id (probeLeases g)) g in
  match outcome with
  | recovered =>
      if bool_decide (is_Some (lease_capacityGeneration lease))
         && bool_decide (capacityRestoredPending g !! id = lease_capacityGeneration lease)
      then set_pending (delete id (capacityRestoredPending g)) g
      else g
  | cooldown_reapplied | abandoned => g
  end.

(** [probeLeases.get(id) === lease]: the same object *)
Definition owns_lease (id : string) (lease : RateLimitProbeLease) (g : gate) : bool :=
  match probeLeases g !! id with
  | Some l => lease_ref l =? lease_ref lease
  | None => false
  end.

Definition completeRateLimitProbe (id : string) (outcome : ProbeOutcome)
    (lease : option RateLimitProbeLease) (g : gate) : gate :=
  match lease with
  | None => g
  | Some l => if owns_lease id l g then releaseProbeLease id outcome l g else g
  end.

(** ** Custody: the lease a request holds, by request identity *)

Definition holdRateLimitProbeLease (scope : Z) (lease : RateLimitProbeLease) (g : gate) : gate :=
  let held := default ∅ (attemptLeases g !! scope) in
  set_attempts (<[scope := <[lease_accountId lease := lease]> held]> (attemptLeases g)) g.

Definition findRateLimitProbeLease (scope : option Z) (id : string) (g : gate)
    : option RateLimitProbeLease :=
  match scope with
  | None => None
  | Some s => attemptLeases g !! s ≫= λ held, held !! id
  end.

Definition dropRateLimitProbeLease (scope : Z) (id : string) (g : gate) : gate :=
  match attemptLeases g !! scope with
  | None => g
  | Some held =>
      let held := delete id held in
      if jsize held =? 0 then set_attempts (delete scope (attemptLeases g)) g
      else set_attempts (<[scope := held]> (attemptLeases g)) g
  end.

(** * Cooldowns *)

Record RateLimitInfo := {
  info_resetTime : option Z;
  info_reason : option string;
  info_floorUntil : option Z
}.

Definition with_lock (until : option Z) (reason : option string) (at_ : option Z) (streak : Z)
    (a : Account) : Account :=
  {| acc_id := acc_id a; acc_name := acc_name a; acc_provider := acc_provider a;
     acc_refresh_token := acc_refresh_token a; acc_access_token := acc_access_token a;
     acc_expires_at := acc_expires_at a; acc_session_start := acc_session_start a;
     acc_session_request_count := acc_session_request_count a;
     acc_paused := acc_paused a; acc_disabled := acc_disabled a;
     acc_pause_reason := acc_pause_reason a; acc_priority := acc_priority a;
     acc_auto_fallback_enabled := acc_auto_fallback_enabled a;
     acc_auto_pause_on_overage_enabled := acc_auto_pause_on_overage_enabled a;
     acc_custom_endpoint := acc_custom_endpoint a;
     acc_rate_limited_until := until; acc_rate_limited_reason := reason;
     acc_rate_limited_at := at_; acc_consecutive_rate_limits := streak;
     acc_rate_limit_status := acc_rate_limit_status a;
     acc_rate_limit_reset := acc_rate_limit_reset a;
     acc_rate_limit_remaining := acc_rate_limit_remaining a;
     acc_profile := acc_profile a |}.

(** A timestamp as a truth value: absent and 0 are both falsy. *)
Definition truthy_time (t : option Z) : option Z :=
  match t with Some n => if n =? 0 then None else Some n | None => None end.

Record CooldownResult := {
  cd_account : Account;
  cd_gate : gate;
  cd_writes : list db_op;
  cd_noteAccountWide : bool   (* usageCache.noteAccountWideCooldown *)
}.

Definition arm_if_burst (reason : string) (a : Account) (until : Z) (g : gate) : gate :=
  if bool_decide (reason = "model_fallback_429"%string) && isOAuthAnthropicAccount a
  then armBurstRecoveryProbe a until g else g.

Definition applyRateLimitCooldown (a : Account) (info : RateLimitInfo) (reprobe : bool)
    (probeLease : option RateLimitProbeLease) (now : Z) (g : gate) : CooldownResult :=
  let resetTime := truthy_time (info_resetTime info) in
  let floorUntil := truthy_time (info_floorUntil info) in
  if reprobe then
    {| cd_account :=
         match resetTime with
         | Some r =>
             if now <? r
             then with_lock (Some r) (acc_rate_limited_reason a) (acc_rate_limited_at a)
                            (acc_consecutive_rate_limits a) a
             else a
         | None => a
         end;
       cd_gate := g; cd_writes := []; cd_noteAccountWide := false |}
  else
    let note := bool_decide (acc_provider a = "anthropic"%string)
                && bool_decide (truthy_string (acc_custom_endpoint a) = None)
                && isQuotaDerivedRateLimitReason (info_reason info) in
    let g := completeRateLimitProbe (acc_id a) cooldown_reapplied probeLease g in
    let directed := match resetTime, floorUntil with
                    | Some r, None => if now <? r then Some r else None
                    | _, _ => None
                    end in
    match directed with
    | Some r =>
        let reason := default "upstream_429_with_reset"%string (info_reason info) in
        let a' := with_lock (Some r) (Some reason) (Some now) (acc_consecutive_rate_limits a) a in
        {| cd_account := a'; cd_gate := arm_if_burst reason a' r g;
           cd_writes := [OSetDeadlineOnly (acc_id a) r reason]; cd_noteAccountWide := note |}
    | None =>
        let nextCount := acc_consecutive_rate_limits a + 1 in
        let candidateUntil := now + computeRateLimitBackoffMs nextCount in
        let capped := match resetTime with
                      | Some r => Z.min r candidateUntil
                      | None => candidateUntil
                      end in
        let cooldownUntil := match floorUntil with
                             | Some f => if capped <? f then f else capped
                             | None => capped
                             end in
        let reason := match info_reason info with
                      | Some r => r
                      | None => match resetTime with
                                | Some _ => "upstream_429_with_reset"%string
                                | None => "upstream_429_no_reset_probe_cooldown"%string
                                end
                      end in
        let a' := with_lock (Some cooldownUntil) (Some reason) (Some now) nextCount a in
        {| cd_account := a'; cd_gate := arm_if_burst reason a' cooldownUntil g;
           cd_writes := [OSetRateLimited (acc_id a) cooldownUntil reason];
           cd_noteAccountWide := note |}
    end.

(** The write's reconciliation: the stored counter replaces the estimate. *)
Definition reconcile_streak (persistedCount : Z) (a : Account) : Account :=
  with_lock (acc_rate_limited_until a) (acc_rate_limited_reason a) (acc_rate_limited_at a)
            persistedCount a.

(** * Success *)

Definition applySuccessRateLimitClear (a : Account) (clearBoundMs now : Z)
    : Account * list db_op :=
  let newerLimitExists := match acc_rate_limited_at a with
                          | Some t => clearBoundMs <=? t
                          | None => false
                          end in
  if newerLimitExists then (a, [])
  else
    let '(a, w1) :=
      match truthy_time (acc_rate_limited_at a) with
      | Some t =>
          if getRateLimitResetStabilityMs <? now - t
          then (with_lock (acc_rate_limited_until a) (acc_rate_limited_reason a) None 0 a,
                [OResetStreak (acc_id a) (Some clearBoundMs)])
          else (a, [])
      | None => (a, [])
      end in
    if bool_decide (truthy_time (acc_rate_limited_until a) = None)
       && bool_decide (truthy_string (acc_rate_limited_reason a) = None)
    then (a, w1)
    else (with_lock None None (acc_rate_limited_at a) (acc_consecutive_rate_limits a) a,
          w1 ++ [OSuccessClear (acc_id a) clearBoundMs]).

(** * Runs of the gate *)

Inductive gate_op : Type :=
  | GMark (id : string)
  | GRollback (gen : Z)
  | GClear (id : string)
  | GAdmit (a : Account) (now : Z) (reprobe : bool)
  | GComplete (id : string) (outcome : ProbeOutcome) (lease : option RateLimitProbeLease)
  | GCooldown (a : Account) (info : RateLimitInfo) (reprobe : bool)
      (lease : option RateLimitProbeLease) (now : Z).

Definition gate_exec (g : gate) (op : gate_op) : gate :=
  match op with
  | GMark id => (markCapacityRestoredProbePending id g).2
  | GRollback gen => rollbackCapacityRestoredProbePending gen g
  | GClear id => clearCapacityRestoredProbePending id g
  | GAdmit a now rp => (getRateLimitProbeAdmission a now rp g).2
  | GComplete id o l => completeRateLimitProbe id o l g
  | GCooldown a info rp l now => cd_gate (applyRateLimitCooldown a info rp l now g)
  end.

Definition gate_run (g : gate) (ops : list gate_op) : gate := foldl gate_exec g ops.

(** ** The specification of the markers: a stack per account *)

Definition stacks : Type := string → list Z.

Definition set_stack (id : string) (l : list Z) (st : stacks) : stacks :=
  λ id', if decide (id = id') then l else st id'.

(** Whether a cooldown arms the marker: a burst 429 of an OAuth account. *)
Definition arms_marker (a : Account) (info : RateLimitInfo) (reprobe : bool) : bool :=
  negb reprobe && bool_decide (info_reason info = Some "model_fallback_429"%string)
  && isOAuthAnthropicAccount a.

(** A reservation is pushed; a rollback removes it wherever it is; a proven recovery
    of the newest one, a removal, and a fresh cooldown's arming start over. *)
Definition spec_exec (g : gate) (st : stacks) (op : gate_op) : stacks :=
  match op with
  | GMark id => set_stack id (capacityGenerationCounter g + 1 :: st id) st
  | GRollback gen => λ id, filter (λ x, x ≠ gen) (st id)
  | GClear id => set_stack id [] st
  | GAdmit _ _ _ => st
  | GComplete id recovered (Some l) =>
      if owns_lease id l g && bool_decide (is_Some (lease_capacityGeneration l))
         && bool_decide (head (st id) = lease_capacityGeneration l)
      then set_stack id [] st else st
  | GComplete _ _ _ => st
  | GCooldown a info rp _ _ =>
      if arms_marker a info rp then set_stack (acc_id a) [capacityGenerationCounter g + 1] st
      else st
  end.

Fixpoint spec_run (g : gate) (st : stacks) (ops : list gate_op) : stacks :=
  match ops with
  | [] => st
  | op :: ops => spec_run (gate_exec g op) (spec_exec g st op) ops
  end.

(** ** The reservations reachable from an address, live ones listed *)

Inductive chain_live (h : gmap Z CapacityProbeReservation) : option Z → list Z → Prop :=
  | chain_end : chain_live h None []
  | chain_here gen r l :
      h !! gen = Some r → res_rolledBack r = false → chain_live h (res_previous r) l →
      chain_live h (Some gen) (gen :: l)
  | chain_dead gen r l :
      h !! gen = Some r → res_rolledBack r = true → chain_live h (res_previous r) l →
      chain_live h (Some gen) l.

Definition heap_ok (g : gate) : Prop :=
  ∀ gen r, reservations g !! gen = Some r →
    0 < gen <= capacityGenerationCounter g ∧
    ∀ p, res_previous r = Some p →
      p < gen ∧ ∃ rp, reservations g !! p = Some rp ∧ res_accountId rp = res_accountId r.

Definition marker_rel (g : gate) (st : stacks) : Prop :=
  0 <= capacityGenerationCounter g ∧ heap_ok g ∧
  ∀ id,
    chain_live (reservations g) (capacityRestoredPending g !! id) (st id) ∧
    head (st id) = capacityRestoredPending g !! id ∧
    ∀ gen, capacityRestoredPending g !! id = Some gen →
      ∃ r, reservations g !! gen = Some r ∧ res_accountId r = id.

Lemma chain_insert h from l gen r :
  h !! gen = None → chain_live h from l → chain_live (<[gen := r]> h) from l.
Proof.
  intros Hn. induction 1 as [|g r' l Hg Hr _ IH|g r' l Hg Hr _ IH]; [constructor|..].
  - eapply chain_here; [|done|done]. rewrite lookup_insert_ne; [done|congruence].
  - eapply chain_dead; [|done|done]. rewrite lookup_insert_ne; [done|congruence].
Qed.

Lemma chain_rollback h from l gen :
  chain_live h from l →
  chain_live (mark_rolled_back gen h) from (filter (λ x, x ≠ gen) l).
Proof.
  unfold mark_rolled_back.
  induction 1 as [|g r l Hg Hr _ IH|g r l Hg Hr _ IH]; [constructor|..].
  - rewrite filter_cons. destruct (decide (g ≠ gen)) as [Hne|He].
    + eapply chain_here; [by rewrite lookup_alter_ne|done|done].
    + apply dec_stable in He as ->. eapply chain_dead.
      * rewrite lookup_alter_eq, Hg. done.
      * done.
      * done.
  - destruct (decide (g = gen)) as [->|Hne].
    + eapply chain_dead; [by rewrite lookup_alter_eq, Hg|done|done].
    + eapply chain_dead; [by rewrite lookup_alter_ne|done|done].
Qed.

Lemma chain_head h from l : chain_live h from l → chain_live h (head l) l.
Proof.
  induction 1 as [|g r l Hg Hr Hc IH|g r l Hg Hr Hc IH]; [constructor| |done].
  simpl. by eapply chain_here.
Qed.

(** The fuel is enough: the walk finds the first live reservation. *)
Lemma first_live_spec h from l fuel :
  (∀ gen r, h !! gen = Some r → 0 < gen ∧ ∀ p, res_previous r = Some p → p < gen) →
  chain_live h from l →
  (∀ gen, from = Some gen → (Z.to_nat gen + 2 <= fuel)%nat) → (0 < fuel)%nat →
  firstLiveReservation fuel h from = Some (head l).
Proof.
  intros Hwf Hc. revert fuel.
  induction Hc as [|g r l Hg Hr _ IH|g r l Hg Hr _ IH]; intros [|fuel] Hf H0; simpl; try lia.
  - done.
  - by rewrite Hg, Hr.
  - rewrite Hg, Hr. destruct (Hwf g r Hg) as [Hpos Hp]. apply IH.
    + intros p Hpp. specialize (Hp p Hpp). specialize (Hf g eq_refl). lia.
    + specialize (Hf g eq_refl). lia.
Qed.

Lemma heap_fresh g : heap_ok g → reservations g !! (capacityGenerationCounter g + 1) = None.
Proof.
  intros H. destruct (reservations g !! _) as [r|] eqn:E; [|done].
  destruct (H _ _ E) as [? _]. lia.
Qed.

Lemma push_rel g st id prev cd l :
  marker_rel g st → chain_live (reservations g) prev l →
  (∀ p, prev = Some p → p <= capacityGenerationCounter g ∧
     ∃ rp, reservations g !! p = Some rp ∧ res_accountId rp = id) →
  marker_rel (push_reservation id prev cd g).2
             (set_stack id (capacityGenerationCounter g + 1 :: l) st).
Proof.
  intros (Hc & Hh & Hm) Hl Hp. pose proof (heap_fresh g Hh) as Hn.
  assert (∀ p rp, reservations g !! p = Some rp →
    (reservations (push_reservation id prev cd g).2) !! p = Some rp) as Hkeep.
  { intros p rp Hr. simpl. rewrite lookup_insert_ne; [done|congruence]. }
  split; [simpl; lia|]. split.
  - intros gen r. simpl. destruct (decide (capacityGenerationCounter g + 1 = gen)) as [<-|Hne].
    + rewrite lookup_insert_eq. intros [= <-]. simpl. split; [lia|].
      intros p Hpp. destruct (Hp p Hpp) as (? & rp & Hr & Hid). split; [lia|].
      exists rp. split; [by apply Hkeep|done].
    + rewrite lookup_insert_ne by done. intros Hr. destruct (Hh gen r Hr) as [? Hprev].
      split; [lia|]. intros p Hpp. destruct (Hprev p Hpp) as (? & rp & ? & ?).
      split; [done|]. exists rp. split; [by apply Hkeep|done].
  - intros id'. simpl. unfold set_stack. rewrite jlookup_insert.
    destruct (decide (id = id')) as [<-|Hne].
    + split; [|split; [done|]].
      * eapply chain_here; [by rewrite lookup_insert_eq|done|]. simpl. by apply chain_insert.
      * intros gen [= <-]. rewrite lookup_insert_eq. eauto.
    + destruct (Hm id') as (H1 & H2 & H3). split; [by apply chain_insert|]. split; [done|].
      intros gen Hg. destruct (H3 gen Hg) as (r & Hr & ?). exists r. split; [by apply Hkeep|done].
Qed.

Lemma marker_rel_unmark g st id :
  marker_rel g st →
  marker_rel (set_pending (delete id (capacityRestoredPending g)) g) (set_stack id [] st).
Proof.
  intros (Hc & Hh & Hm). split; [done|]. split; [done|]. intros id'. simpl. unfold set_stack.
  rewrite jlookup_delete. destruct (decide (id = id')) as [<-|Hne]; [|apply Hm].
  split; [constructor|]. done.
Qed.

Lemma marker_rel_leases g st m : marker_rel g st → marker_rel (set_leases m g) st.
Proof. done. Qed.

Lemma rolled_back_id h gen g r :
  h !! g = Some r →
  ∃ r', mark_rolled_back gen h !! g = Some r' ∧ res_accountId r' = res_accountId r ∧
        res_previous r' = res_previous r.
Proof.
  intros Hg. unfold mark_rolled_back. destruct (decide (g = gen)) as [->|Hne].
  - rewrite lookup_alter_eq, Hg. simpl. eauto.
  - rewrite lookup_alter_ne by done. eauto.
Qed.

Lemma rolled_back_inv h gen g r' :
  mark_rolled_back gen h !! g = Some r' →
  ∃ r, h !! g = Some r ∧ res_previous r' = res_previous r.
Proof.
  unfold mark_rolled_back. destruct (decide (g = gen)) as [->|Hne].
  - rewrite lookup_alter_eq. destruct (h !! gen) as [r|]; [|done]. intros [= <-]. eauto.
  - rewrite lookup_alter_ne by done. eauto.
Qed.

Lemma filter_head_ne gen (l : list Z) :
  head l ≠ Some gen → head (filter (λ x, x ≠ gen) l) = head l.
Proof.
  destruct l as [|x l]; [done|]. simpl. intros Hne. rewrite filter_cons, decide_True; [done|congruence].
Qed.

Lemma heap_ok_rollback g gen :
  heap_ok g → heap_ok (set_reservations (mark_rolled_back gen (reservations g)) g).
Proof.
  intros Hh k r'. simpl. intros Hk. destruct (rolled_back_inv _ _ _ _ Hk) as (r & Hr & Hp).
  destruct (rolled_back_id _ gen _ _ Hr) as (r'' & Hk' & Hid & _). simplify_eq.
  destruct (Hh k r Hr) as [? Hprev]. split; [done|]. rewrite Hp. intros p Hpp.
  destruct (Hprev p Hpp) as (? & rp & Hrp & ?). split; [done|].
  destruct (rolled_back_id _ gen _ _ Hrp) as (rp' & ? & ? & _). exists rp'. split; [done|congruence].
Qed.

Lemma chain_head_id h from l id gen :
  (∀ g r p, h !! g = Some r → res_previous r = Some p →
     ∃ rp, h !! p = Some rp ∧ res_accountId rp = res_accountId r) →
  (∀ g, from = Some g → ∃ r, h !! g = Some r ∧ res_accountId r = id) →
  chain_live h from l → gen ∈ l → ∃ r, h !! gen = Some r ∧ res_accountId r = id.
Proof.
  intros Hid Hf Hc. revert Hf. induction Hc as [|g r l Hg Hr _ IH|g r l Hg Hr _ IH]; intros Hf.
  - by rewrite elem_of_nil.
  - intros [->|Hin]%elem_of_cons; [by apply Hf|]. apply IH; [|done].
    intros p Hp. destruct (Hid g r p Hg Hp) as (rp & ? & ?). destruct (Hf g eq_refl) as (r0 & ? & ?).
    exists rp. split; [done|]. congruence.
  - intros Hin. apply IH; [|done].
    intros p Hp. destruct (Hid g r p Hg Hp) as (rp & ? & ?). destruct (Hf g eq_refl) as (r0 & ? & ?).
    exists rp. split; [done|]. congruence.
Qed.

(** A generation the heap does not know is in no stack *)
Lemma chain_live_known h from l gen : chain_live h from l → h !! gen = None → gen ∉ l.
Proof.
  intros H Hn. induction H as [|x y l Hx _ _ IH|]; [by intros ?%elem_of_nil| |done].
  intros [->|?]%elem_of_cons; [congruence|done].
Qed.

Lemma filter_notin (gen : Z) (l : list Z) : gen ∉ l → filter (λ x, x ≠ gen) l = l.
Proof.
  induction l as [|x l IH]; [done|]. intros [? ?]%not_elem_of_cons.
  rewrite filter_cons, decide_True by done. f_equal. auto.
Qed.

(** What marking a generation rolled back leaves of the relation: the chains lose that
    generation, the slots still name their own account, and only the slot that names the
    generation itself is out of date *)
Lemma mark_rolled_back_rel g st gen id :
  marker_rel g st →
  chain_live (mark_rolled_back gen (reservations g)) (capacityRestoredPending g !! id)
             (filter (λ x, x ≠ gen) (st id)) ∧
  (capacityRestoredPending g !! id ≠ Some gen →
     head (filter (λ x, x ≠ gen) (st id)) = capacityRestoredPending g !! id) ∧
  (∀ k, capacityRestoredPending g !! id = Some k →
     ∃ r, mark_rolled_back gen (reservations g) !! k = Some r ∧ res_accountId r = id).
Proof.
  intros (_ & _ & Hm). destruct (Hm id) as (H1 & H2 & H3). split; [by apply chain_rollback|].
  split; [intros Hne; rewrite filter_head_ne; congruence|].
  intros k Hk. destruct (H3 k Hk) as (rk & Hrk & Hid).
  destruct (rolled_back_id _ gen _ _ Hrk) as (rk' & ? & ? & _). exists rk'. by split; [|congruence].
Qed.

(** The walk of a rollback from the generation its account's slot names: it finds the newest
    live ancestor, a reservation of the same account *)
Lemma rollback_walk g st gen r :
  marker_rel g st → reservations g !! gen = Some r →
  capacityRestoredPending g !! res_accountId r = Some gen →
  let h := mark_rolled_back gen (reservations g) in
  let l := filter (λ x, x ≠ gen) (st (res_accountId r)) in
  firstLiveReservation (walk_fuel (set_reservations h g)) h (res_previous r) = Some (head l) ∧
  chain_live h (res_previous r) l ∧
  ∀ k, head l = Some k → ∃ rk, h !! k = Some rk ∧ res_accountId rk = res_accountId r.
Proof.
  intros Hrel Hr Eo. cbv zeta. pose proof Hrel as (_ & Hh & _).
  pose proof (heap_ok_rollback g gen Hh) as Hh1.
  destruct (mark_rolled_back_rel g st gen (res_accountId r) Hrel) as (Hown & _ & _). rewrite Eo in Hown.
  destruct (rolled_back_id _ gen _ _ Hr) as (r1 & Hr1 & Hid1 & Hprev1).
  assert (chain_live (mark_rolled_back gen (reservations g)) (res_previous r)
            (filter (λ x, x ≠ gen) (st (res_accountId r)))) as Hprev.
  { inversion Hown as [|? r2 ? Hg2 Hlive|? r2 ? Hg2 Hdead Hp2]; subst.
    - exfalso. unfold mark_rolled_back in Hg2. rewrite lookup_alter_eq, Hr in Hg2.
      simpl in Hg2. by simplify_eq.
    - simplify_eq. by rewrite <-Hprev1. }
  split; [|split; [done|]].
  - apply first_live_spec; [|done| |unfold walk_fuel; lia].
    + intros k rk Hk. destruct (Hh1 k rk Hk) as [? Hpp]. split; [lia|]. intros p Hp. by apply Hpp.
    + intros p Hp. destruct (Hh gen r Hr) as [Hb Hpp]. destruct (Hpp p Hp) as [? _].
      unfold walk_fuel. simpl. lia.
  - intros k Hk. eapply chain_head_id; [| |exact Hprev|].
    + intros k' r' p' Hk' Hp'. by apply (Hh1 k' r' Hk').
    + intros p Hp. destruct (Hh1 gen r1 Hr1) as [_ Hpp]. rewrite Hprev1 in Hpp.
      destruct (Hpp p Hp) as (_ & rp & ? & ?). exists rp. split; [done|congruence].
    + destruct (filter _ _) as [|x l]; simplify_eq/=. by left.
Qed.

Lemma rollback_rel g st gen :
  marker_rel g st →
  marker_rel (rollbackCapacityRestoredProbePending gen g)
             (λ id, filter (λ x, x ≠ gen) (st id)).
Proof.
  intros Hrel. pose proof Hrel as (Hc & Hh & Hm). unfold rollbackCapacityRestoredProbePending.
  destruct (reservations g !! gen) as [r|] eqn:Hr.
  2:{ split; [done|]. split; [done|]. intros id. destruct (Hm id) as (H1 & ? & ?).
      rewrite filter_notin by (by eapply chain_live_known). done. }
  pose proof (heap_ok_rollback g gen Hh) as Hh1.
  assert (∀ id p, capacityRestoredPending g !! res_accountId r = Some p → res_accountId r ≠ id →
            capacityRestoredPending g !! id ≠ Some p) as Hother.
  { intros id p Hp Hne Hid. destruct (Hm id) as (_ & _ & H3). destruct (H3 p Hid) as (? & ? & <-).
    destruct (Hm (res_accountId r)) as (_ & _ & H4). destruct (H4 p Hp) as (? & ? & ?). congruence. }
  cbv zeta. cbn [capacityRestoredPending set_reservations].
  destruct (bool_decide _) eqn:Eo; prop_bools; cbn [negb].
  2:{ split; [done|]. split; [done|]. intros id.
      destruct (mark_rolled_back_rel g st gen id Hrel) as (H1 & H2 & H3). split; [done|].
      split; [|done]. apply H2. intros Hp. apply Eo. destruct (Hm id) as (_ & _ & H4).
      destruct (H4 gen Hp) as (r0 & Hr0 & <-). by simplify_eq. }
  destruct (rollback_walk g st gen r Hrel Hr Eo) as (Hw & Hprev & Hhd).
  cbn [reservations set_reservations] in Hw |- *. rewrite Hw.
  destruct (head (filter (λ x, x ≠ gen) (st (res_accountId r)))) as [k|] eqn:Ek.
  - split; [done|]. split; [done|]. intros id. simpl. rewrite jlookup_insert.
    destruct (decide (res_accountId r = id)) as [<-|Hne].
    + rewrite <-Ek. split; [by eapply chain_head|]. split; [done|]. rewrite Ek.
      intros ? [= <-]. by apply Hhd.
    + destruct (mark_rolled_back_rel g st gen id Hrel) as (H1 & H2 & H3). eauto.
  - split; [done|]. split; [done|]. intros id. simpl. rewrite jlookup_delete.
    destruct (decide (res_accountId r = id)) as [<-|Hne].
    + destruct (filter _ _) as [|x l] eqn:El; simplify_eq/=. split; [constructor|done].
    + destruct (mark_rolled_back_rel g st gen id Hrel) as (H1 & H2 & H3). eauto.
Qed.

(** The marker part of a gate *)
Lemma marker_rel_ext g g' st :
  capacityRestoredPending g' = capacityRestoredPending g → reservations g' = reservations g →
  capacityGenerationCounter g' = capacityGenerationCounter g →
  marker_rel g st → marker_rel g' st.
Proof. unfold marker_rel, heap_ok. by intros -> -> ->. Qed.

Lemma admit_markers a now rp g :
  let g' := (getRateLimitProbeAdmission a now rp g).2 in
  capacityRestoredPending g' = capacityRestoredPending g ∧ reservations g' = reservations g ∧
  capacityGenerationCounter g' = capacityGenerationCounter g.
Proof.
  unfold getRateLimitProbeAdmission. destruct (negb _); [done|]. destruct (_ && negb rp); [done|].
  cbv zeta. by destruct (lease_live now _).
Qed.

Lemma complete_rel id outcome lease g st :
  marker_rel g st →
  marker_rel (completeRateLimitProbe id outcome lease g)
             (spec_exec g st (GComplete id outcome lease)).
Proof.
  intros H. destruct lease as [l|]; [|by destruct outcome]. unfold completeRateLimitProbe.
  destruct outcome; simpl; destruct (owns_lease id l g); try done. simpl.
  destruct H as (Hc & Hh & Hm). destruct (Hm id) as (_ & -> & _).
  destruct (_ && _); [|done]. by apply (marker_rel_unmark (set_leases _ g)).
Qed.

Lemma complete_reapplied_counter id lease g :
  let g' := completeRateLimitProbe id cooldown_reapplied lease g in
  capacityRestoredPending g' = capacityRestoredPending g ∧ reservations g' = reservations g ∧
  capacityGenerationCounter g' = capacityGenerationCounter g.
Proof. destruct lease as [l|]; simpl; [|done]. by destruct (owns_lease id l g). Qed.

Lemma arm_rel a until g st :
  marker_rel g st →
  marker_rel (armBurstRecoveryProbe a until g)
             (set_stack (acc_id a) [capacityGenerationCounter g + 1] st).
Proof. intros H. by apply push_rel; [|constructor|]. Qed.

Lemma arm_if_burst_rel reason (r0 : option string) a0 a until g st :
  marker_rel g st → acc_id a = acc_id a0 →
  isOAuthAnthropicAccount a = isOAuthAnthropicAccount a0 →
  bool_decide (reason = "model_fallback_429"%string)
    = bool_decide (r0 = Some "model_fallback_429"%string) →
  marker_rel (arm_if_burst reason a until g)
    (if bool_decide (r0 = Some "model_fallback_429"%string) && isOAuthAnthropicAccount a0
     then set_stack (acc_id a0) [capacityGenerationCounter g + 1] st else st).
Proof.
  intros H Hid Ho Hr. unfold arm_if_burst. rewrite Hr, Ho. destruct (_ && _); [|done].
  rewrite <-Hid. by apply arm_rel.
Qed.

Lemma default_reason (d : string) (r : option string) :
  d ≠ "model_fallback_429"%string →
  bool_decide (default d r = "model_fallback_429"%string)
    = bool_decide (r = Some "model_fallback_429"%string).
Proof.
  intros Hd. destruct r; simpl; [apply bool_decide_ext; naive_solver congruence|].
  by apply bool_decide_eq_false_2.
Qed.

Lemma cooldown_rel a info rp lease now g st :
  marker_rel g st →
  marker_rel (cd_gate (applyRateLimitCooldown a info rp lease now g))
             (spec_exec g st (GCooldown a info rp lease now)).
Proof.
  intros H. unfold applyRateLimitCooldown, spec_exec, arms_marker. destruct rp; [done|].
  cbv zeta. simpl negb. rewrite andb_true_l.
  destruct (complete_reapplied_counter (acc_id a) lease g) as (H1 & H2 & H3). rewrite <-H3.
  assert (marker_rel (completeRateLimitProbe (acc_id a) cooldown_reapplied lease g) st) as H'
    by (by eapply marker_rel_ext).
  destruct (match truthy_time (info_resetTime info) with Some _ => _ | None => _ end) as [r|].
  - apply arm_if_burst_rel; [done|done|done|]. by apply default_reason.
  - apply arm_if_burst_rel; [done|done|done|].
    destruct (info_reason info) as [x|] eqn:Er.
    + apply bool_decide_ext. naive_solver congruence.
    + by destruct (truthy_time (info_resetTime info)).
Qed.

Lemma gate_exec_rel g st op : marker_rel g st → marker_rel (gate_exec g op) (spec_exec g st op).
Proof.
  intros H. destruct op as [id|gen|id|a now rp|id o l|a info rp l now]; simpl gate_exec.
  - destruct H as (Hc & Hh & Hm). destruct (Hm id) as (H1 & H2 & H3).
    apply push_rel; [done|done|]. intros p Hp. destruct (H3 p Hp) as (r & Hr & Hid).
    destruct (Hh p r Hr) as [? _]. split; [lia|]. by exists r.
  - by apply rollback_rel.
  - by apply marker_rel_unmark.
  - destruct (admit_markers a now rp g) as (? & ? & ?). by eapply marker_rel_ext.
  - by apply complete_rel.
  - by apply cooldown_rel.
Qed.

Lemma marker_rel_init : marker_rel gate_init (λ _, []).
Proof.
  split; [done|]. split; [by intros ? ? ?|]. intros id. split; [constructor|done].
Qed.

Lemma gate_run_rel ops g st :
  marker_rel g st → marker_rel (gate_run g ops) (spec_run g st ops).
Proof.
  revert g st. induction ops as [|op ops IH]; intros g st H; [done|]. simpl.
  apply IH. by apply gate_exec_rel.
Qed.

(** the capacity-restored markers refine a stack of live reservations per account.
    In every run of reservations, rollbacks (in any order, also overlapping ones),
    removals, admissions, settlements and cooldowns, an account owes a recovery probe
    exactly when some reservation of it is still live, the generation a probe is
    admitted for is the newest live one, and rolling back a reservation leaves the
    newest one that has not failed: a rollback never erases a committed restore's
    marker, and never revives a failed one. The bounded walk always finds it. *)
Theorem markers_refine_stacks ops id :
  let g := gate_run gate_init ops in
  let st := spec_run gate_init (λ _, []) ops in
  hasCapacityRestoredProbePending id g = negb (bool_decide (st id = [])) ∧
  (∀ a now, acc_id a = id → capacityGeneration (inspectProbeGate a now g) = head (st id)) ∧
  (∀ gen, capacityRestoredPending (rollbackCapacityRestoredProbePending gen g) !! id
            = head (filter (λ x, x ≠ gen) (st id))) ∧
  (∀ r, reservations g !! r ≠ None →
     firstLiveReservation (walk_fuel g) (reservations g) (Some r) ≠ None).
Proof.
  intros g st. assert (marker_rel g st) as H by (apply gate_run_rel, marker_rel_init).
  destruct H as (Hc & Hh & Hm). destruct (Hm id) as (H1 & H2 & H3).
  split; [|split; [|split]].
  - unfold hasCapacityRestoredProbePending, jhas. rewrite <-H2.
    destruct (st id); simpl; [|done]. done.
  - intros a now <-. simpl. by rewrite H2.
  - intros gen. assert (marker_rel g st) as H by done.
    apply (rollback_rel g st gen) in H as (_ & _ & H). destruct (H id) as (_ & <- & _). done.
  - intros k Hk. destruct (reservations g !! k) as [r|] eqn:Hr; [|done]. clear Hk.
    assert (∀ fuel k r, reservations g !! k = Some r → (Z.to_nat k < fuel)%nat →
              firstLiveReservation (S fuel) (reservations g) (Some k) ≠ None) as Hf.
    { clear k r Hr. induction fuel as [|fuel IH]; intros k r Hr Hlt; [lia|].
      cbn [firstLiveReservation]. rewrite Hr. destruct (res_rolledBack r); [|done].
      destruct (Hh k r Hr) as [Hb Hp]. destruct (res_previous r) as [p|]; [|done].
      destruct (Hp p eq_refl) as (Hlt' & rp & Hrp & _). eapply IH; [exact Hrp|].
      destruct (Hh p rp Hrp) as [? _]. lia. }
    unfold walk_fuel. eapply Hf; [exact Hr|]. destruct (Hh k r Hr) as [? _]. lia.
Qed.

(** * The lease map *)

(** The accounts an operation concerns *)
Definition op_account (op : gate_op) : string :=
  match op with
  | GMark id | GClear id | GComplete id _ _ => id
  | GRollback _ => ""
  | GAdmit a _ _ | GCooldown a _ _ _ _ => acc_id a
  end.

Definition leases_ok (pop : list string) (g : gate) : Prop :=
  jwf (probeLeases g) ∧ (∀ id, id ∈ jkeys (probeLeases g) → id ∈ pop) ∧
  (∀ id l, probeLeases g !! id = Some l → lease_ref l < leaseCounter g).

Lemma leases_ok_size pop g : leases_ok pop g → jsize (probeLeases g) <= Z.of_nat (length pop).
Proof.
  intros (Hwf & Hk & _). rewrite jsize_keys. apply Nat2Z.inj_le.
  apply NoDup_incl_length; [by apply NoDup_ListNoDup|].
  intros x Hx. apply list_elem_of_In, Hk, list_elem_of_In, Hx.
Qed.

Lemma evict_small l : Z.of_nat (length l) < MAX_PROBE_GATES → evict_oldest l = l.
Proof. intros H. destruct l as [|x l]; [done|]. cbn [evict_oldest]. by rewrite (proj2 (Z.leb_gt _ _) H). Qed.

Lemma evict_suffix l : ∃ l0, l = l0 ++ evict_oldest l.
Proof.
  induction l as [|x l [l0 IH]]; [by exists []|]. cbn [evict_oldest]. destruct (_ <=? _); [|by exists []].
  exists (x :: l0). simpl. by f_equal.
Qed.

Lemma evict_length l : Z.of_nat (length (evict_oldest l)) < MAX_PROBE_GATES.
Proof.
  induction l as [|x l IH]; [done|]. cbn [evict_oldest].
  destruct (_ <=? _) eqn:E; prop_bools; [done|exact E].
Qed.

Lemma filter_fst_sub {V} (P : string * V → Prop) `{!∀ x, Decision (P x)} (l : list (string * V)) :
  sublist (filter P l).*1 l.*1.
Proof. apply fmap_sublist, sublist_filter. Qed.

Lemma prune_entries_sub now g :
  sublist (entries (probeLeases (pruneProbeLeases now g))) (entries (probeLeases g)).
Proof.
  simpl. match goal with |- sublist (evict_oldest ?l) _ =>
    destruct (evict_suffix l) as [l0 Hl]; transitivity l; [|apply sublist_filter];
    rewrite Hl at 2 end.
  by apply sublist_inserts_l.
Qed.

Lemma prune_ok pop now g : leases_ok pop g → leases_ok pop (pruneProbeLeases now g).
Proof.
  intros (Hwf & Hk & Hr). pose proof (prune_entries_sub now g) as Hs.
  assert (sublist (jkeys (probeLeases (pruneProbeLeases now g))) (jkeys (probeLeases g))) as Hsk
    by (by apply fmap_sublist).
  split; [by eapply sublist_NoDup|]. split.
  - intros id Hid. apply Hk. by eapply elem_of_sublist.
  - intros id l Hl. apply (Hr id). apply alist_In_get; [done|].
    eapply elem_of_sublist; [|exact Hs]. by apply alist_get_In.
Qed.

(** Below the cap, pruning drops exactly the expired leases. *)
Lemma prune_lookup now g id :
  jwf (probeLeases g) → jsize (probeLeases g) < MAX_PROBE_GATES →
  probeLeases (pruneProbeLeases now g) !! id =
    match probeLeases g !! id with
    | Some l => if now <? lease_leaseUntil l then Some l else None
    | None => None
    end.
Proof.
  intros Hwf Hsz. unfold pruneProbeLeases, set_leases. cbn [probeLeases].
  set (l := filter _ _). assert (evict_oldest l = l) as ->.
  { apply evict_small. unfold jsize in Hsz. unfold l.
    pose proof (length_filter (λ '(_, l), (lease_leaseUntil l <=? now) = false)
                  (entries (probeLeases g))). lia. }
  change (alist_get id l = match alist_get id (entries (probeLeases g)) with
    | Some l => if now <? lease_leaseUntil l then Some l else None | None => None end).
  unfold l, jwf, jkeys in *. clear l Hsz. induction (entries (probeLeases g)) as [|[k v] es IH]; [done|].
  rewrite filter_cons. revert Hwf. csimpl. intros [Hnin Hnd]%NoDup_cons. specialize (IH Hnd).
  destruct (decide ((lease_leaseUntil v <=? now) = false)) as [Hd|Hd]; simpl; destruct (decide (k = id)) as [<-|Hne].
  - prop_bools. by rewrite (proj2 (Z.ltb_lt _ _) Hd).
  - done.
  - apply not_false_iff_true in Hd. prop_bools. rewrite (proj2 (Z.ltb_ge _ _) Hd), IH.
    by rewrite (proj2 (alist_get_None k es) Hnin).
  - done.
Qed.

Lemma admit_cases a now rp g :
  (∃ o, getRateLimitProbeAdmission a now rp g = (o, g) ∧ (o = NotRequired ∨ o = Suppressed)) ∨
  getRateLimitProbeAdmission a now rp g = (Suppressed, pruneProbeLeases now g) ∨
  (lease_live now (probeLeases (pruneProbeLeases now g) !! acc_id a) = false ∧
   ∃ l g', getRateLimitProbeAdmission a now rp g = (AdmittedProbe l, g') ∧
     lease_ref l = leaseCounter g ∧ lease_leaseUntil l = now + PROBE_LEASE_MS ∧
     probeLeases g' = <[acc_id a := l]> (probeLeases (pruneProbeLeases now g)) ∧
     leaseCounter g' = leaseCounter g + 1).
Proof.
  unfold getRateLimitProbeAdmission. destruct (negb _); [left; eauto|].
  destruct (_ && negb rp); [left; eauto|]. cbv zeta.
  destruct (lease_live now _); [by right; left|]. right; right. split; [done|].
  eexists _, _. repeat split; done.
Qed.

Lemma complete_cases id o lease g :
  let g' := completeRateLimitProbe id o lease g in
  leaseCounter g' = leaseCounter g ∧
  (probeLeases g' = probeLeases g ∨
   probeLeases g' = delete id (probeLeases g) ∧ ∃ l, lease = Some l ∧ owns_lease id l g = true).
Proof.
  destruct lease as [l|]; simpl; [|by split; [|left]].
  destruct (owns_lease id l g) eqn:E; [|by split; [|left]].
  unfold releaseProbeLease. destruct o; try destruct (_ && _); simpl; (split; [done|]); right; eauto.
Qed.

Lemma arm_if_burst_leases r a u g :
  probeLeases (arm_if_burst r a u g) = probeLeases g ∧
  leaseCounter (arm_if_burst r a u g) = leaseCounter g.
Proof. unfold arm_if_burst. by destruct (_ && _). Qed.

(** What the lease map does in a step that is not an admission *)
Lemma exec_leases g op :
  match op with GAdmit _ _ _ => False | _ => True end →
  leaseCounter (gate_exec g op) = leaseCounter g ∧
  (probeLeases (gate_exec g op) = probeLeases g ∨
   ∃ l, probeLeases (gate_exec g op) = delete (op_account op) (probeLeases g) ∧
     owns_lease (op_account op) l g = true ∧
     match op with
     | GComplete _ _ o => o = Some l
     | GCooldown _ _ rp o _ => rp = false ∧ o = Some l
     | _ => False
     end).
Proof.
  destruct op as [id|gen|id|a now rp|id o l|a info rp l now]; intros Hna; try done; simpl gate_exec.
  - split; [done|by left].
  - unfold rollbackCapacityRestoredProbePending. destruct (reservations g !! gen); [|by split; [|left]].
    cbv zeta. destruct (negb _); [by split; [|left]|].
    destruct (firstLiveReservation _ _ _) as [[?|]|]; by split; [|left].
  - split; [done|by left].
  - destruct (complete_cases id o l g) as [H1 [H2|(H2 & l' & ? & ?)]]; (split; [done|]);
      [by left|right; eauto].
  - unfold applyRateLimitCooldown. destruct rp; [by split; [|left]|]. cbv zeta.
    destruct (complete_cases (acc_id a) cooldown_reapplied l g) as [H1 Hc].
    destruct (match truthy_time (info_resetTime info) with Some _ => _ | None => _ end); simpl cd_gate;
      (match goal with |- context [arm_if_burst ?r ?x ?u ?g0] =>
         destruct (arm_if_burst_leases r x u g0) as [-> ->] end);
      (split; [done|]); destruct Hc as [Hc|(Hc & l' & ? & ?)]; [by left|right; eauto|by left|right; eauto].
Qed.

Lemma leases_ok_exec pop g op :
  (∀ a n rp, op = GAdmit a n rp → acc_id a ∈ pop) →
  leases_ok pop g → leases_ok pop (gate_exec g op).
Proof.
  intros Hpop Hok.
  destruct op as [id|gen|id|a now rp|id o l|a info rp l now] eqn:Eop;
    try (destruct (exec_leases g op) as [H1 H2]; [by rewrite Eop|]; rewrite <-Eop;
         destruct Hok as (Hwf & Hk & Hr); unfold leases_ok; rewrite H1;
         destruct H2 as [->|(l' & -> & _)]; [done|];
         split; [by apply jwf_delete|]; split;
         [intros id'; rewrite jelem_of_keys, jlookup_delete; destruct (decide _);
            [by intros [? ?]|]; rewrite <-jelem_of_keys; apply Hk
         |intros id' l''; rewrite jlookup_delete; destruct (decide _); [done|]; apply Hr]).
  simpl. destruct (admit_cases a now rp g) as [(o & -> & _)|[->|(_ & l & g' & -> & Hl & _ & Hm & Hc)]];
    [done|by apply prune_ok|].
  destruct (prune_ok pop now g Hok) as (Hwf & Hk & Hr). simpl. unfold leases_ok. rewrite Hm, Hc.
  split; [by apply jwf_insert|]. split.
  - intros id'. rewrite jelem_of_keys, jlookup_insert. destruct (decide _) as [<-|].
    + intros _. by eapply Hpop.
    + rewrite <-jelem_of_keys. apply Hk.
  - intros id' l'. rewrite jlookup_insert. destruct (decide _) as [<-|].
    + intros [= <-]. lia.
    + intros H'. apply Hr in H'. simpl in H'. lia.
Qed.

Definition in_population (pop : list string) (op : gate_op) : Prop :=
  ∀ a now rp, op = GAdmit a now rp → acc_id a ∈ pop.

Lemma leases_ok_run pop g ops :
  Forall (in_population pop) ops → leases_ok pop g → leases_ok pop (gate_run g ops).
Proof.
  intros H. revert g. induction H as [|op ops Hop _ IH]; intros g Hg; [done|].
  simpl. apply IH. by apply leases_ok_exec.
Qed.

Lemma leases_ok_init pop : leases_ok pop gate_init.
Proof. split; [apply jwf_empty|]. split; [by intros ? ?%elem_of_nil|done]. Qed.

(** The operation does not settle the lease, and runs before it expires. *)
Definition spares (L : RateLimitProbeLease) (op : gate_op) : Prop :=
  match op with
  | GAdmit _ now _ => now < lease_leaseUntil L
  | GComplete _ _ (Some l) | GCooldown _ _ _ (Some l) _ => lease_ref l ≠ lease_ref L
  | _ => True
  end.

Lemma held_admit pop a now rp g id L :
  leases_ok pop g → Z.of_nat (length pop) < MAX_PROBE_GATES →
  probeLeases g !! id = Some L → now < lease_leaseUntil L →
  probeLeases (getRateLimitProbeAdmission a now rp g).2 !! id = Some L ∧
  (acc_id a = id → ∀ l, (getRateLimitProbeAdmission a now rp g).1 ≠ AdmittedProbe l).
Proof.
  intros Hok Hpop HL Hnow. pose proof (leases_ok_size pop g Hok) as Hsz.
  assert (probeLeases (pruneProbeLeases now g) !! id = Some L) as Hp.
  { rewrite prune_lookup by (destruct Hok; lia || done). rewrite HL.
    by rewrite (proj2 (Z.ltb_lt _ _) Hnow). }
  destruct (admit_cases a now rp g) as [(o & -> & [-> | ->])|[->|(Hl & l & g' & -> & _ & _ & Hm & _)]];
    [done..|]. simpl. rewrite Hm.
  assert (acc_id a ≠ id) as Hne.
  { intros He. rewrite He, Hp in Hl. simpl in Hl. prop_bools. lia. }
  split; [|done]. by rewrite jlookup_insert_ne.
Qed.

Lemma held_exec pop g id L op :
  leases_ok pop g → Z.of_nat (length pop) < MAX_PROBE_GATES →
  probeLeases g !! id = Some L → spares L op → probeLeases (gate_exec g op) !! id = Some L.
Proof.
  intros Hok Hpop HL Hs. destruct op as [| | |a now rp| |] eqn:Eop;
    [..|by apply (held_admit pop)| |];
    (destruct (exec_leases g op) as [_ [H|(l & H & Ho & Hl)]]; rewrite ?Eop in *; [done|by rewrite H|]);
    try done; rewrite H, jlookup_delete; destruct (decide _) as [He|]; try done; exfalso;
    unfold owns_lease in Ho; rewrite He, HL in Ho; prop_bools; simpl in Hs.
  - by subst.
  - destruct Hl as [_ ->]. congruence.
Qed.

(** C8: the recovery probe of an account is single-flight. In any run that follows the
    admission of a probe, as long as its two-minute lease has not expired and its owner
    has not settled it, every further admission of the account is refused, whatever the
    requests' own copies of the account say, whoever settles other leases, applies
    cooldowns, or moves the restore markers in between; and the lease is still there
    for the owner to settle. (Up to 10,000 gated accounts: the cap evicts beyond.) *)
Theorem recovery_probe_exclusive pop ops1 a t rp L g2 ops2 b now rp' :
  Z.of_nat (length pop) < MAX_PROBE_GATES →
  Forall (in_population pop) (ops1 ++ GAdmit a t rp :: ops2) →
  getRateLimitProbeAdmission a t rp (gate_run gate_init ops1) = (AdmittedProbe L, g2) →
  Forall (spares L) ops2 → acc_id b = acc_id a → now < t + PROBE_LEASE_MS →
  let g := gate_run g2 ops2 in
  (∀ L', (getRateLimitProbeAdmission b now rp' g).1 ≠ AdmittedProbe L') ∧
  owns_lease (acc_id a) L g = true ∧
  (gatingRequired (inspectProbeGate b now g) = true → wouldSuppressProbe b now g = true).
Proof.
  intros Hsz Hpop Ha Hsp Hb Hnow g.
  apply Forall_app in Hpop as [Hp1 [Hpa Hp2]%Forall_cons].
  pose proof (leases_ok_run pop gate_init ops1 Hp1 (leases_ok_init pop)) as Hok1.
  assert (g2 = gate_exec (gate_run gate_init ops1) (GAdmit a t rp)) as Hg2 by (simpl; by rewrite Ha).
  assert (leases_ok pop g2) as Hok2 by (rewrite Hg2; by apply leases_ok_exec).
  assert (probeLeases g2 !! acc_id a = Some L ∧ lease_leaseUntil L = t + PROBE_LEASE_MS)
    as [HL Hu].
  { destruct (admit_cases a t rp (gate_run gate_init ops1))
      as [(o & E & [-> | ->])|[E|(_ & l & g' & E & _ & Hu & Hm & _)]];
      rewrite Ha in E; try done. injection E as <- <-. by rewrite Hm, jlookup_insert_eq. }
  assert (leases_ok pop g ∧ probeLeases g !! acc_id a = Some L) as [Hok Hheld].
  { unfold g. clear g Ha Hg2. revert g2 Hok2 HL. induction ops2 as [|op ops IH]; intros g2 Hok2 HL; [done|].
    apply Forall_cons in Hsp as [? ?], Hp2 as [? ?]. simpl. apply IH; [done|done| |].
    - by apply leases_ok_exec.
    - by apply (held_exec pop). }
  split; [|split].
  - apply (held_admit pop b now rp' g (acc_id a) L); auto; lia.
  - unfold owns_lease. rewrite Hheld. apply Z.eqb_refl.
  - intros Hg. unfold wouldSuppressProbe. rewrite Hg. simpl. rewrite Hb, Hheld. simpl.
    rewrite Hu. rewrite (proj2 (Z.ltb_lt _ _) Hnow). by destruct (now <? _).
Qed.

Lemma size_capped_exec g op :
  jsize (probeLeases g) <= MAX_PROBE_GATES →
  jsize (probeLeases (gate_exec g op)) <= MAX_PROBE_GATES.
Proof.
  intros Hs. destruct op as [| | |a now rp| |] eqn:Eop;
    try (destruct (exec_leases g op) as [_ [H|(l & H & _)]]; rewrite Eop in *; [done|by rewrite H|];
         rewrite H; pose proof (jsize_delete_le (op_account op) (probeLeases g));
         rewrite Eop in *; lia).
  simpl. assert (jsize (probeLeases (pruneProbeLeases now g)) < MAX_PROBE_GATES) as Hp
    by apply evict_length.
  destruct (admit_cases a now rp g) as [(o & -> & _)|[->|(_ & l & g' & -> & _ & _ & Hm & _)]];
    [done|simpl in *; lia|]. simpl. rewrite Hm, jsize_insert. destruct (decide _); lia.
Qed.

(** the read-only predicate never disagrees with the gate: in every reachable state
    (up to 10,000 gated accounts) it says an account would be suppressed exactly when
    asking for admission is answered with a suppression; and in every reachable state,
    without that bound, the lease map holds at most 10,000 leases. *)
Theorem would_suppress_agrees pop ops a now :
  let g := gate_run gate_init ops in
  jsize (probeLeases g) <= MAX_PROBE_GATES ∧
  (Z.of_nat (length pop) < MAX_PROBE_GATES → Forall (in_population pop) ops →
   wouldSuppressProbe a now g = true ↔
     (getRateLimitProbeAdmission a now false g).1 = Suppressed).
Proof.
  intros g. split.
  { unfold g, gate_run. assert (jsize (probeLeases gate_init) <= MAX_PROBE_GATES) as H by done.
    clear g. revert H. generalize gate_init. induction ops as [|op ops IH]; intros g H; [done|].
    simpl. apply IH. by apply size_capped_exec. }
  intros Hsz Hpop.
  pose proof (leases_ok_run pop gate_init ops Hpop (leases_ok_init pop)) as Hok. fold g in Hok.
  pose proof (leases_ok_size pop g Hok) as Hs.
  unfold wouldSuppressProbe, getRateLimitProbeAdmission.
  destruct (gatingRequired _); simpl negb; [|done]. destruct (coolingDown _); [done|].
  cbn [andb negb]. cbv zeta. rewrite prune_lookup by (destruct Hok; lia || done).
  destruct (probeLeases g !! acc_id a) as [l|]; simpl; [|done].
  destruct (now <? lease_leaseUntil l) eqn:E; simpl; rewrite ?E; done.
Qed.

(** * What a cooldown does *)

Definition server_directed (info : RateLimitInfo) (now : Z) : option Z :=
  match truthy_time (info_resetTime info), truthy_time (info_floorUntil info) with
  | Some r, None => if now <? r then Some r else None
  | _, _ => None
  end.

(** a 429 cools the account down by its kind. A re-probe of a held account only moves
    the deadline to a later upstream reset: streak, its timestamp, the reason, the gate
    and the database stay. An upstream reset in the future is honoured to the
    millisecond and does not escalate the streak. Any other 429 escalates it by one and
    waits at least the backoff base and at most the backoff ceiling, except that a known
    reset may only shorten the wait and a floor (credits spent) may only lengthen it. *)
Theorem cooldown_effect a info lease now g :
  let res rp := applyRateLimitCooldown a info rp lease now g in
  let a' rp := cd_account (res rp) in
  (cd_gate (res true) = g ∧ cd_writes (res true) = [] ∧
   acc_consecutive_rate_limits (a' true) = acc_consecutive_rate_limits a ∧
   acc_rate_limited_at (a' true) = acc_rate_limited_at a ∧
   acc_rate_limited_reason (a' true) = acc_rate_limited_reason a ∧
   acc_rate_limited_until (a' true) =
     match truthy_time (info_resetTime info) with
     | Some r => if now <? r then Some r else acc_rate_limited_until a
     | None => acc_rate_limited_until a
     end) ∧
  acc_rate_limited_at (a' false) = Some now ∧
  match server_directed info now with
  | Some r =>
      acc_rate_limited_until (a' false) = Some r ∧ info_resetTime info = Some r ∧ now < r ∧
      acc_consecutive_rate_limits (a' false) = acc_consecutive_rate_limits a
  | None =>
      acc_consecutive_rate_limits (a' false) = acc_consecutive_rate_limits a + 1 ∧
      ∃ u, acc_rate_limited_until (a' false) = Some u ∧
        (∀ f, truthy_time (info_floorUntil info) = Some f → f <= u) ∧
        u <= Z.max (default 0 (info_floorUntil info)) (now + RATE_LIMIT_BACKOFF_MAX_MS) ∧
        (truthy_time (info_resetTime info) = None → now + RATE_LIMIT_BACKOFF_BASE_MS <= u) ∧
        (truthy_time (info_floorUntil info) = None →
           ∀ r, truthy_time (info_resetTime info) = Some r → u <= r)
  end.
Proof.
  cbv zeta. split; [|split].
  - unfold applyRateLimitCooldown. simpl. repeat split;
      destruct (truthy_time (info_resetTime info)) as [r|]; try done; by destruct (now <? r).
  - unfold applyRateLimitCooldown. cbv zeta.
    by destruct (match truthy_time (info_resetTime info) with Some _ => _ | None => _ end).
  - unfold applyRateLimitCooldown. cbv zeta. fold (server_directed info now).
    destruct (server_directed info now) as [r|] eqn:Er; simpl.
    + unfold server_directed, truthy_time in Er. destruct (info_resetTime info) as [x|]; [|done].
      destruct (x =? 0); [done|]. destruct (match info_floorUntil info with Some _ => _ | None => _ end);
        [done|]. destruct (now <? x) eqn:E; [|done]. injection Er as ->. prop_bools. done.
    + split; [done|]. eexists. split; [done|].
      pose proof (computeRateLimitBackoffMs_bounds (acc_consecutive_rate_limits a + 1)) as Hb.
      unfold truthy_time.
      destruct (info_resetTime info) as [x|], (info_floorUntil info) as [y|]; simpl;
        repeat match goal with
        | |- context [?p =? 0] => destruct (p =? 0) eqn:?
        | |- context [?p <? ?q] => destruct (p <? q) eqn:?
        end; prop_bools; repeat split; intros; simplify_eq; lia.
Qed.

(** what a cooldown leaves in memory is what its write leaves in the database: when
    the row and the request's account agree on the streak, executing the write at the
    instant of the 429 gives the row exactly the account's deadline, reason, timestamp
    and streak. *)
Theorem cooldown_persisted localDate a info lease now g db r :
  accounts db !! acc_id a = Some r →
  consecutive_rate_limits (limit r) = acc_consecutive_rate_limits a →
  let res := applyRateLimitCooldown a info false lease now g in
  let a' := cd_account res in
  ∃ r', accounts (exec_all localDate db ((λ w, (now, w)) <$> cd_writes res)) !! acc_id a
          = Some r' ∧
    rate_limited_until (limit r') = acc_rate_limited_until a' ∧
    rate_limited_reason (limit r') = acc_rate_limited_reason a' ∧
    rate_limited_at (limit r') = acc_rate_limited_at a' ∧
    consecutive_rate_limits (limit r') = acc_consecutive_rate_limits a' ∧
    pause r' = pause r ∧ creds r' = creds r.
Proof.
  intros Hr Hs. cbv zeta. unfold applyRateLimitCooldown. cbv zeta. fold (server_directed info now).
  destruct (server_directed info now) as [u|]; simpl.
  - unfold setRateLimitedDeadlineOnly. rewrite bind_unit_state. unfold sql_update. rewrite Hr. simpl.
    rewrite lookup_insert_eq, pause_trigger_same by done. eexists. split; [done|]. simpl.
    repeat split; lia || done.
  - rewrite setRateLimited_state. unfold sql_update. rewrite Hr. simpl.
    rewrite lookup_insert_eq, pause_trigger_same by done. eexists. split; [done|]. simpl.
    repeat split; lia || done.
Qed.

(** a slow success never erases a newer 429. If the account's last 429 is at or after
    the moment the successful request started, nothing happens in memory and nothing is
    written; and every write a success does enqueue leaves untouched a row whose 429 is
    that recent, whenever it runs and whatever ran before it, so no order of the writer
    queue launders a stale clear. When the success is newer, the lock and its reason are
    both gone from the account. *)
Theorem stale_success_noop localDate a bound now :
  let '(a', writes) := applySuccessRateLimitClear a bound now in
  (∀ t, acc_rate_limited_at a = Some t → bound <= t → a' = a ∧ writes = []) ∧
  (∀ w db r t n, w ∈ writes → accounts db !! acc_id a = Some r →
     rate_limited_at (limit r) = Some t → bound <= t → exec localDate n db w = db) ∧
  ((∀ t, acc_rate_limited_at a = Some t → t < bound) →
     truthy_time (acc_rate_limited_until a') = None ∧
     truthy_string (acc_rate_limited_reason a') = None).
Proof.
  assert (∀ w db r t n,
    w = OResetStreak (acc_id a) (Some bound) ∨ w = OSuccessClear (acc_id a) bound →
    accounts db !! acc_id a = Some r → rate_limited_at (limit r) = Some t → bound <= t →
    exec localDate n db w = db) as Hw.
  { intros w db r t n Hor Hr Ht Hle. destruct Hor as [-> | ->]; simpl;
      unfold resetConsecutiveRateLimits, clearLockOnSuccess; rewrite ?bind_unit_state;
      unfold sql_update; rewrite Hr, Ht; simpl; rewrite (proj2 (Z.ltb_ge _ _) Hle);
      by rewrite ?andb_false_r. }
  unfold applySuccessRateLimitClear.
  destruct (match acc_rate_limited_at a with Some _ => _ | None => _ end) eqn:Enew.
  { split; [done|]. split; [by intros ? ? ? ? ? ?%elem_of_nil|]. intros Hlt.
    destruct (acc_rate_limited_at a) as [t|]; [|done]. specialize (Hlt t eq_refl). prop_bools. lia. }
  set (p := match truthy_time (acc_rate_limited_at a) with Some _ => _ | None => _ end).
  assert (∀ w, w ∈ p.2 → w = OResetStreak (acc_id a) (Some bound)) as Hp.
  { unfold p. intros w. destruct (truthy_time _) as [t|]; [|by intros ?%elem_of_nil].
    destruct (_ <? _); [|by intros ?%elem_of_nil]. by intros ?%list_elem_of_singleton. }
  assert (acc_id p.1 = acc_id a) as Hid.
  { unfold p. destruct (truthy_time _); [|done]. by destruct (_ <? _). }
  destruct p as [a1 w1]. simpl in Hp, Hid.
  destruct (bool_decide _ && bool_decide _) eqn:Eb; (split; [|split]).
  - intros t Ht Hle. rewrite Ht in Enew. prop_bools. lia.
  - intros w db r t n Hin. apply Hw. left. by apply Hp.
  - prop_bools. done.
  - intros t Ht Hle. rewrite Ht in Enew. prop_bools. lia.
  - intros w db r t n Hin. apply Hw. apply elem_of_app in Hin as [Hin|Hin%list_elem_of_singleton].
    + left. by apply Hp.
    + right. by rewrite Hin, Hid.
  - done.
Qed.

(** * Concrete runs *)

Definition mature_account : Account :=
  with_lock (Some 1000) (Some "model_fallback_429"%string) (Some 500) 5 demo_account.

Definition demo_admission : RateLimitProbeAdmission * gate :=
  getRateLimitProbeAdmission mature_account 2000 false gate_init.

Definition demo_lease : RateLimitProbeLease :=
  {| lease_ref := 0; lease_accountId := "a1"; lease_leaseUntil := 122000;
     lease_capacityGeneration := None |}.

Lemma recovery_probe_exclusive_witness :
  demo_admission.1 = AdmittedProbe demo_lease ∧
  (∀ L', (getRateLimitProbeAdmission mature_account 60000 true
            (gate_run demo_admission.2 [GMark "a1"; GAdmit mature_account 30000 false])).1
         ≠ AdmittedProbe L').
Proof.
  split; [reflexivity|].
  apply (recovery_probe_exclusive ["a1"%string] [] mature_account 2000 false demo_lease
           demo_admission.2 [GMark "a1"; GAdmit mature_account 30000 false]
           mature_account 60000 true).
  - reflexivity.
  - simpl. rewrite !Forall_cons. split; [|split; [|split; [|apply Forall_nil_2]]];
      intros ? ? ? [=]; subst; by left.
  - reflexivity.
  - rewrite !Forall_cons. split; [exact I|split; [reflexivity|apply Forall_nil_2]].
  - reflexivity.
  - reflexivity.
Defined.

Lemma cooldown_persisted_witness :
  let info := {| info_resetTime := None; info_reason := None; info_floorUntil := None |} in
  let a := with_lock None None None 0 demo_account in
  let res := applyRateLimitCooldown a info false None 1000 gate_init in
  ∃ r', accounts (exec_all no_calendar (demo_db (demo_row None None 0))
                    ((λ w, (1000, w)) <$> cd_writes res)) !! "a1"%string = Some r' ∧
    rate_limited_until (limit r') = Some 31000.
Proof.
  intros info a res.
  destruct (cooldown_persisted no_calendar a info None 1000 gate_init
              (demo_db (demo_row None None 0)) (demo_row None None 0)) as (r' & Hr & Hu & _).
  - reflexivity.
  - reflexivity.
  - exists r'. split; [exact Hr|]. rewrite Hu. reflexivity.
Defined.
