(* ===== verification/CapacityRestore.v ===== *)
(** Early release of quota cooldowns: [apps/server/src/capacity-restored.ts].

    Both handlers await the database; each stretch between awaits is a definition,
    so that other writers can be interleaved: the decision taken on a snapshot of the
    account ([decide_capacity_restored], [decide_banked_reset]), the compare-and-clear
    ([attempt_release]), and the correction of a stranded reset ([attempt_stamp]). The
    logger is not modelled; utilizations are rationals. *)

From Stdlib Require Import QArith.
From S2P Require Import Prelude Providers Accounts AccountRepo ProbeGate.
Open Scope Z_scope.

Definition LOCK_CONTRADICTION_MIN_REMAINING_MS : Z := 30 * 60 * 1000.
Definition LOCK_CONTRADICTION_DEDUPE_MAX : Z := 64.
Definition RESET_MATCH_TOLERANCE_MS : Z := 1000.

Record ObservedWindow := { win_resetMs : Z; win_utilization : option Q }.

Record CapacityRestoredEvidence := {
  ev_accountId : string;
  ev_fetchStartedAt : Z;
  ev_observedWindows : list ObservedWindow
}.

Record world := {
  w_db : database;
  w_gate : gate;
  w_warned : jmap string string
}.

Definition with_db (db : database) (w : world) : world :=
  {| w_db := db; w_gate := w_gate w; w_warned := w_warned w |}.
Definition with_gate (g : gate) (w : world) : world :=
  {| w_db := w_db w; w_gate := g; w_warned := w_warned w |}.
Definition with_warned (m : jmap string string) (w : world) : world :=
  {| w_db := w_db w; w_gate := w_gate w; w_warned := m |}.

(** The exact lock read, and the instant its evidence began *)
Record ReleaseRequest := {
  rel_account : Account;
  rel_reason : string;
  rel_until : Z;
  rel_at : Z;
  rel_boundary : Z;
  rel_reservation : Z
}.

(** What a handler goes on to do after its synchronous part *)
Inductive continuation : Type :=
  | Finished
  | TryStamp (a : Account)
  | TryRelease (req : ReleaseRequest).

(** ** Releasing a lock *)

(** The synchronous part of [releaseQuotaLockPredating]: the guards, then the
    reservation of the single-flight marker. *)
Definition begin_release (a : Account) (reason : string) (until boundary : Z) (w : world)
    : continuation * world :=
  match acc_rate_limited_at a with
  | None => (Finished, w)
  | Some at_ =>
      if boundary <=? at_ then (Finished, w)
      else
        let '(gen, g) := markCapacityRestoredProbePending (acc_id a) (w_gate w) in
        (TryRelease {| rel_account := a; rel_reason := reason; rel_until := until;
                       rel_at := at_; rel_boundary := boundary; rel_reservation := gen |},
         with_gate g w)
  end.

(** The compare-and-clear and its continuation. [fails]: the database throws, which
    also rolls back. *)
Definition attempt_release (req : ReleaseRequest) (fails : bool) (now : Z) (w : world)
    : bool * world :=
  if fails then
    (false, with_gate (rollbackCapacityRestoredProbePending (rel_reservation req) (w_gate w)) w)
  else
    let '(cleared, db) :=
      clearRateLimitOnCapacityRestore (acc_id (rel_account req)) (rel_until req)
        (Some (rel_at req)) (rel_reason req) (rel_boundary req) now (w_db w) in
    let w := with_db db w in
    if cleared then (true, w)
    else (false,
          with_gate (rollbackCapacityRestoredProbePending (rel_reservation req) (w_gate w)) w).

(** ** A stranded reset *)

Definition isStaleRecordedReset (recordedReset : Z) (observedWindows : list ObservedWindow)
    : bool :=
  negb (existsb (λ w,
    (Z.abs (win_resetMs w - recordedReset) <=? RESET_MATCH_TOLERANCE_MS)
    && match win_utilization w with None => true | Some u => Qle_bool 100 u end)
    observedWindows).

(** The guards of [stampStaleResetIfStranded]: the reset to correct. *)
Definition stranded_reset (a : Account) (ev : CapacityRestoredEvidence) : option Z :=
  if negb (acc_paused a) then None
  else if negb (acc_auto_fallback_enabled a) then None
  else if negb (supportsWindowResetUnpause (acc_provider a)) then None
  else if negb (isSelfHealingPauseReason (acc_pause_reason a)) then None
  else
    let reset := toNum (acc_rate_limit_reset a) in   (* Number(null) is 0 *)
    if reset <=? ev_fetchStartedAt ev then None
    else if negb (isStaleRecordedReset reset (ev_observedWindows ev)) then None
    else Some reset.

Definition attempt_stamp (a : Account) (ev : CapacityRestoredEvidence) (now : Z) (w : world)
    : bool * world :=
  match stranded_reset a ev with
  | None => (false, w)
  | Some reset =>
      let '(stamped, db) :=
        stampObservedRateLimitReset (acc_id a) reset (ev_fetchStartedAt ev) now (w_db w) in
      (stamped, with_db db w)
  end.

(** ** The handlers *)

Definition lockIdentity (a : Account) : string :=
  pretty (toNum (acc_rate_limited_until a)) +:+ ":"
  +:+ match acc_rate_limited_at a with Some t => pretty t | None => "null"%string end +:+ ":"
  +:+ default "null"%string (acc_rate_limited_reason a).

(** The dedupe of the lock-contradiction warning, bounded by eviction of the oldest:
    whether to warn, and the map after. *)
Definition note_contradiction (a : Account) (remainingMs : Z) (m : jmap string string)
    : bool * jmap string string :=
  if negb (bool_decide (acc_rate_limited_reason a = Some "out_of_credits"%string))
     && (LOCK_CONTRADICTION_MIN_REMAINING_MS <? remainingMs)
     && negb (bool_decide (m !! acc_id a = Some (lockIdentity a)))
  then
    let m := <[acc_id a := lockIdentity a]> (delete (acc_id a) m) in
    (true, if LOCK_CONTRADICTION_DEDUPE_MAX <? jsize m
           then match jkeys m with oldest :: _ => delete oldest m | [] => m end
           else m)
  else (false, m).

(** A running lock: [rate_limited_until] set and after now *)
Definition running_lock (a : Account) (now : Z) : option Z :=
  match acc_rate_limited_until a with
  | Some u => if (u =? 0) || (u <=? now) then None else Some u
  | None => None
  end.

Definition decide_capacity_restored (acc : option Account) (ev : CapacityRestoredEvidence)
    (now : Z) (w : world) : continuation * world :=
  let id := ev_accountId ev in
  match acc with
  | None => (Finished, with_warned (delete id (w_warned w)) w)
  | Some a =>
      match running_lock a now with
      | None => (TryStamp a, with_warned (delete id (w_warned w)) w)
      | Some until =>
          match acc_rate_limited_reason a with
          | Some reason =>
              if isQuotaDerivedRateLimitReason (Some reason)
              then begin_release a reason until (ev_fetchStartedAt ev) w
              else (Finished,
                    with_warned (note_contradiction a (until - now) (w_warned w)).2 w)
          | None =>
              (Finished, with_warned (note_contradiction a (until - now) (w_warned w)).2 w)
          end
      end
  end.

(** [clearRateLimitOnCapacityRestored] when nothing else runs between its awaits *)
Definition clearRateLimitOnCapacityRestored (ev : CapacityRestoredEvidence) (fails : bool)
    (now : Z) (w : world) : world :=
  let '(k, w) := decide_capacity_restored (findById (ev_accountId ev) (w_db w)) ev now w in
  match k with
  | Finished => w
  | TryStamp a => (attempt_stamp a ev now w).2
  | TryRelease req =>
      let '(released, w) := attempt_release req fails now w in
      if released then (attempt_stamp (rel_account req) ev now w).2 else w
  end.

Definition BANKED_RESET_WINDOWS_BY_REASON : list (string * list string) :=
  [("weekly_exhausted_429", ["seven_day"; "seven_day_overage_included"]);
   ("session_exhausted_429", ["five_hour"])]%string.

Record BankedClaim := {
  claim_accountId : string;
  claim_cleared : list string;
  claim_startedAt : Z
}.

Definition decide_banked_reset (acc : option Account) (claim : BankedClaim) (now : Z)
    (w : world) : continuation * world :=
  match acc with
  | None => (Finished, w)
  | Some a =>
      match running_lock a now, acc_rate_limited_reason a with
      | Some until, Some reason =>
          if negb (isQuotaDerivedRateLimitReason (Some reason))
             || negb (existsb (λ x, bool_decide (x ∈ claim_cleared claim))
                        (default [] (alist_get reason BANKED_RESET_WINDOWS_BY_REASON)))
          then (Finished, w)
          else begin_release a reason until (claim_startedAt claim) w
      | _, _ => (Finished, w)
      end
  end.

Definition clearRateLimitOnBankedReset (claim : BankedClaim) (fails : bool) (now : Z)
    (w : world) : world :=
  let '(k, w) := decide_banked_reset (findById (claim_accountId claim) (w_db w)) claim now w in
  match k with
  | TryRelease req => (attempt_release req fails now w).2
  | _ => w
  end.

(** * Lemmas *)

Lemma begin_release_spec a reason until boundary w req w' :
  begin_release a reason until boundary w = (TryRelease req, w') →
  rel_account req = a ∧ rel_reason req = reason ∧ rel_until req = until ∧
  acc_rate_limited_at a = Some (rel_at req) ∧ rel_at req < boundary ∧
  rel_boundary req = boundary ∧
  w_gate w' = gate_exec (w_gate w) (GMark (acc_id a)) ∧
  rel_reservation req = capacityGenerationCounter (w_gate w) + 1 ∧
  w_db w' = w_db w.
Proof.
  unfold begin_release. destruct (acc_rate_limited_at a) as [t|]; [|done].
  destruct (boundary <=? t) eqn:E; [done|]. prop_bools. simpl. intros H. by simplify_eq/=.
Qed.

Lemma decide_capacity_release a ev now w req w' :
  decide_capacity_restored (Some a) ev now w = (TryRelease req, w') →
  ∃ until reason, running_lock a now = Some until ∧ acc_rate_limited_reason a = Some reason ∧
    isQuotaDerivedRateLimitReason (Some reason) = true ∧
    begin_release a reason until (ev_fetchStartedAt ev) w = (TryRelease req, w').
Proof.
  unfold decide_capacity_restored. destruct (running_lock a now) as [u|] eqn:Eu; [|done].
  destruct (acc_rate_limited_reason a) as [r|] eqn:Er; [|done].
  destruct (isQuotaDerivedRateLimitReason (Some r)) eqn:Eq; [|done]. intros H.
  exists u, r. done.
Qed.

Lemma release_row req now w :
  let '(ok, w') := attempt_release req false now w in
  if ok then
    ∃ r, accounts (w_db w) !! acc_id (rel_account req) = Some r ∧
      rate_limited_until (limit r) = Some (rel_until req) ∧
      rate_limited_at (limit r) = Some (rel_at req) ∧
      rate_limited_reason (limit r) = Some (rel_reason req) ∧
      rel_at req < rel_boundary req ∧
      w_db w' = set_account (acc_id (rel_account req))
                  (with_limit (released_limit (limit r)) r) (w_db w) ∧
      w_gate w' = w_gate w
  else w_db w' = w_db w ∧
       w_gate w' = gate_exec (w_gate w) (GRollback (rel_reservation req)).
Proof.
  unfold attempt_release, clearRateLimitOnCapacityRestore, changed, st_bind, st_ret, sql_update.
  destruct (accounts (w_db w) !! acc_id (rel_account req)) as [r|] eqn:Hr; [|done].
  destruct (release_guard _ _ _ _ r) eqn:Eg; [|done]. simpl. exists r.
  unfold release_guard, sql_eq, sql_is, sql_lt in Eg. rewrite pause_trigger_same by done.
  destruct (rate_limited_until (limit r)); [|done].
  destruct (rate_limited_reason (limit r)); [|by rewrite andb_false_r in Eg].
  prop_bools. destruct (rate_limited_at (limit r)); [|done]. prop_bools.
  simplify_eq. by repeat split.
Qed.

Lemma stranded_reset_spec a ev reset :
  stranded_reset a ev = Some reset →
  acc_auto_fallback_enabled a = true ∧ supportsWindowResetUnpause (acc_provider a) = true ∧
  isSelfHealingPauseReason (acc_pause_reason a) = true ∧
  isStaleRecordedReset reset (ev_observedWindows ev) = true ∧
  ev_fetchStartedAt ev < reset.
Proof.
  unfold stranded_reset. destruct (acc_paused a), (acc_auto_fallback_enabled a); try done.
  destruct (supportsWindowResetUnpause _); [|done]. destruct (isSelfHealingPauseReason _); [|done].
  simpl. destruct (_ <=? _) eqn:E; [done|]. destruct (isStaleRecordedReset _ _) eqn:Es; [|done].
  simpl. intros [= <-]. by prop_bools.
Qed.

(** Operations that leave the account's newest reservations alone: no removal of the
    account, no proven recovery, and only rollbacks of reservations older than [gen]. *)
Definition keeps_marker (id : string) (gen : Z) (op : gate_op) : Prop :=
  match op with
  | GClear id' => id' ≠ id
  | GComplete id' recovered _ => id' ≠ id
  | GRollback gen' => gen' < gen
  | _ => True
  end.

Lemma spec_keeps id gen g st op :
  marker_rel g st → gen <= capacityGenerationCounter g →
  (∃ x, x ∈ st id ∧ gen <= x) → keeps_marker id gen op →
  ∃ x, x ∈ spec_exec g st op id ∧ gen <= x.
Proof.
  intros Hm Hgen (x & Hx & Hle) Hk.
  destruct op as [i|k|i|a n rp|i o l|a info rp l n]; simpl in *.
  - unfold set_stack. destruct (decide (i = id)) as [<-|]; [|eauto].
    exists x. split; [by right|done].
  - exists x. split; [|done]. apply list_elem_of_filter. split; [lia|done].
  - unfold set_stack. rewrite decide_False by done. eauto.
  - eauto.
  - destruct o; [|by eauto..]. destruct l as [l|]; [|by eauto].
    destruct (_ && _); [|by eauto]. unfold set_stack. rewrite decide_False by done. eauto.
  - destruct (arms_marker a info rp); [|by eauto]. unfold set_stack.
    destruct (decide (acc_id a = id)); [|by eauto].
    exists (capacityGenerationCounter g + 1). split; [by left|lia].
Qed.

Lemma gate_counter_mono g op :
  capacityGenerationCounter g <= capacityGenerationCounter (gate_exec g op).
Proof.
  destruct op as [i|k|i|a n rp|i o l|a info rp l n]; simpl.
  - lia.
  - unfold rollbackCapacityRestoredProbePending. destruct (reservations g !! k); [|lia].
    cbv zeta. destruct (negb _); [simpl; lia|].
    destruct (firstLiveReservation _ _ _) as [[?|]|]; simpl; lia.
  - lia.
  - destruct (admit_markers a n rp g) as (_ & _ & ->). lia.
  - destruct l as [l|]; simpl; [|lia]. destruct (owns_lease i l g); [|lia].
    unfold releaseProbeLease. destruct o; try destruct (_ && _); simpl; lia.
  - unfold applyRateLimitCooldown. destruct rp; [simpl; lia|]. cbv zeta.
    destruct (complete_reapplied_counter (acc_id a) l g) as (_ & _ & <-).
    destruct (match truthy_time (info_resetTime info) with Some _ => _ | None => _ end); simpl;
      unfold arm_if_burst; destruct (_ && _); simpl; lia.
Qed.

Lemma run_keeps ops id gen g st :
  marker_rel g st → gen <= capacityGenerationCounter g →
  (∃ x, x ∈ st id ∧ gen <= x) → Forall (keeps_marker id gen) ops →
  hasCapacityRestoredProbePending id (gate_run g ops) = true.
Proof.
  revert g st. induction ops as [|op ops IH]; intros g st Hm Hgen Hx Hf.
  - destruct Hm as (_ & _ & Hm). destruct (Hm id) as (_ & Hh & _).
    destruct Hx as (x & Hx & _). simpl. unfold hasCapacityRestoredProbePending, jhas.
    rewrite <-Hh. destruct (st id); [by apply elem_of_nil in Hx|]. done.
  - apply Forall_cons in Hf as [Hop Hf]. simpl. eapply IH; [by apply gate_exec_rel| | |done].
    + pose proof (gate_counter_mono g op). lia.
    + by apply (spec_keeps _ gen).
Qed.

(** * Properties *)

(** C9: an early release clears exactly the lock its evidence refutes. Whatever other
    writers did between the handler's read of the account and its compare-and-clear, if
    the clear lands, the row still held the very deadline, timestamp and reason that were
    read, the reason was derived from a quota window, and the lock was written strictly
    before the evidence was gathered; then the lock and the streak go, the recorded
    window reset stays, and no other row changes. Otherwise the database is unchanged and
    the marker reserved for it is rolled back. *)
Theorem early_release_exact a ev now w req w0 now1 w1 :
  decide_capacity_restored (Some a) ev now w = (TryRelease req, w0) →
  let '(ok, w2) := attempt_release req false now1 w1 in
  if ok then
    ∃ r until at_ reason,
      acc_rate_limited_until a = Some until ∧ acc_rate_limited_at a = Some at_ ∧
      acc_rate_limited_reason a = Some reason ∧
      accounts (w_db w1) !! acc_id a = Some r ∧
      rate_limited_until (limit r) = Some until ∧ rate_limited_at (limit r) = Some at_ ∧
      rate_limited_reason (limit r) = Some reason ∧
      isQuotaDerivedRateLimitReason (Some reason) = true ∧
      at_ < ev_fetchStartedAt ev ∧ now < until ∧
      w_db w2 = set_account (acc_id a) (with_limit (released_limit (limit r)) r) (w_db w1) ∧
      rate_limit_reset (released_limit (limit r)) = rate_limit_reset (limit r)
  else w_db w2 = w_db w1 ∧
       w_gate w2 = rollbackCapacityRestoredProbePending (rel_reservation req) (w_gate w1).
Proof.
  intros Hd. destruct (decide_capacity_release _ _ _ _ _ _ Hd) as (u & reason & Hu & Hr & Hq & Hb).
  destruct (begin_release_spec _ _ _ _ _ _ _ Hb) as (Ha & Hre & Hun & Hat & Hlt & Hbo & _).
  pose proof (release_row req now1 w1) as Hrow. destruct (attempt_release req false now1 w1) as [ok w2].
  destruct ok; [|done]. destruct Hrow as (r & Hrow & H1 & H2 & H3 & _ & Hdb & _).
  unfold running_lock in Hu. destruct (acc_rate_limited_until a) as [u'|] eqn:Eu; [|done].
  destruct (_ || _) eqn:E; [done|]. prop_bools. injection Hu as ->.
  exists r, u, (rel_at req), reason. rewrite Ha in Hrow, Hdb. rewrite Hun in H1. rewrite Hre in H3.
  by repeat split.
Qed.

(** a released account is never unmarked. From the instant a handler decides to
    release an account, and until its probe is proven or the account is removed, the
    account owes a single-flight probe, whatever admissions, cooldowns, newer releases
    and failures of older releases happen meanwhile: there is no window in which the
    cleared account is open to everyone. *)
Theorem release_stays_marked ops0 ops1 a ev now w req w' :
  w_gate w = gate_run gate_init ops0 →
  decide_capacity_restored (Some a) ev now w = (TryRelease req, w') →
  Forall (keeps_marker (acc_id a) (rel_reservation req)) ops1 →
  hasCapacityRestoredProbePending (acc_id a) (gate_run (w_gate w') ops1) = true ∧
  ∀ b t, acc_id b = acc_id a →
    gatingRequired (inspectProbeGate b t (gate_run (w_gate w') ops1)) = true.
Proof.
  intros Hg Hd Hops. destruct (decide_capacity_release _ _ _ _ _ _ Hd) as (u & reason & _ & _ & _ & Hb).
  destruct (begin_release_spec _ _ _ _ _ _ _ Hb) as (_ & _ & _ & _ & _ & _ & Hm & Hgen & _).
  pose proof (gate_run_rel ops0 gate_init (λ _, []) marker_rel_init) as Hrel. rewrite <-Hg in Hrel.
  pose proof (gate_exec_rel _ _ (GMark (acc_id a)) Hrel) as Hrel'. rewrite <-Hm in Hrel'.
  assert (hasCapacityRestoredProbePending (acc_id a) (gate_run (w_gate w') ops1) = true) as Hp.
  { eapply (run_keeps _ _ (rel_reservation req)); [exact Hrel'| | |done].
    - rewrite Hm, Hgen. simpl. lia.
    - exists (rel_reservation req). split; [|lia]. rewrite Hgen. simpl. unfold set_stack.
      rewrite decide_True by done. by left. }
  split; [done|]. intros b t Hid. unfold inspectProbeGate. simpl. rewrite Hid.
  unfold hasCapacityRestoredProbePending in Hp. rewrite jhas_spec in Hp.
  rewrite (bool_decide_eq_true_2 _ Hp). by rewrite orb_true_r.
Qed.

(** A lock the evidence cannot refute stays. Against a running lock whose reason is
    not derived from a quota window (a burst, an overload, a credits floor, a missing
    reason), or one without a timestamp or written after the evidence began, the handler
    changes neither the database nor the gate; and the dedupe of its warning never
    exceeds its bound. *)
Theorem ineligible_lock_stays ev fails now w a until :
  findById (ev_accountId ev) (w_db w) = Some a → running_lock a now = Some until →
  isQuotaDerivedRateLimitReason (acc_rate_limited_reason a) = false ∨
  acc_rate_limited_at a = None ∨
  (∃ t, acc_rate_limited_at a = Some t ∧ ev_fetchStartedAt ev <= t) →
  let w' := clearRateLimitOnCapacityRestored ev fails now w in
  w_db w' = w_db w ∧ w_gate w' = w_gate w ∧
  (jsize (w_warned w) <= LOCK_CONTRADICTION_DEDUPE_MAX →
     jsize (w_warned w') <= LOCK_CONTRADICTION_DEDUPE_MAX).
Proof.
  intros Hf Hu Hor. unfold clearRateLimitOnCapacityRestored, decide_capacity_restored.
  rewrite Hf, Hu. clear Hf.
  assert (∀ m rem, jsize m <= LOCK_CONTRADICTION_DEDUPE_MAX →
            jsize (note_contradiction a rem m).2 <= LOCK_CONTRADICTION_DEDUPE_MAX) as Hn.
  { intros m rem Hm. unfold note_contradiction. destruct (_ && _); [|done]. simpl snd.
    set (m' := <[acc_id a := lockIdentity a]> (delete (acc_id a) m)).
    assert (jsize m' <= LOCK_CONTRADICTION_DEDUPE_MAX + 1) as Hm'.
    { unfold m'. rewrite jsize_insert. pose proof (jsize_delete_le (acc_id a) m).
      destruct (decide _); lia. }
    destruct (_ <? jsize m') eqn:E; [|by prop_bools]. prop_bools.
    destruct (jkeys m') as [|k ks] eqn:Ek.
    - rewrite jsize_keys, Ek in E. simpl in E. unfold LOCK_CONTRADICTION_DEDUPE_MAX in E. lia.
    - assert (is_Some (m' !! k)) as [v Hv] by (apply jelem_of_keys; rewrite Ek; by left).
      pose proof (jsize_delete_lt k v m' Hv). lia. }
  assert (∀ reason, acc_rate_limited_at a = None ∨
            (∃ t, acc_rate_limited_at a = Some t ∧ ev_fetchStartedAt ev <= t) →
            begin_release a reason until (ev_fetchStartedAt ev) w = (Finished, w)) as Hb.
  { intros reason [Hat|(t & Hat & Hle)]; unfold begin_release; rewrite Hat; [done|].
    by rewrite (proj2 (Z.leb_le _ _) Hle). }
  destruct (acc_rate_limited_reason a) as [reason|] eqn:Er; simpl; [|split; [done|split; [done|apply Hn]]].
  destruct (bool_decide (reason ∈ QUOTA_DERIVED_RATE_LIMIT_REASONS)) eqn:Eq.
  - destruct Hor as [Hq|Hor]; [simpl in Hq; congruence|]. by rewrite Hb.
  - split; [done|split; [done|apply Hn]].
Qed.

(** correcting a stranded reset reopens auto-unpause. When the handler stamps an
    account it just read, the account was paused for a self-healing reason with a
    recorded reset in the future that no reported window still owns; afterwards selection
    would resume it as soon as a second has passed and no cooldown runs; and the stamp
    touches nothing but that column. *)
Theorem stamp_reopens ev now w a w' :
  0 < ev_fetchStartedAt ev → findById (ev_accountId ev) (w_db w) = Some a →
  attempt_stamp a ev now w = (true, w') →
  (∃ reset, acc_rate_limit_reset a = Some reset ∧ ev_fetchStartedAt ev < reset ∧
     isStaleRecordedReset reset (ev_observedWindows ev) = true) ∧
  ∃ r r', accounts (w_db w) !! ev_accountId ev = Some r ∧
    w_db w' = set_account (ev_accountId ev) r' (w_db w) ∧
    r' = with_limit (set_reset (Some (ev_fetchStartedAt ev)) (limit r)) r ∧
    ∀ t, acc_disabled a = false →
      ev_fetchStartedAt ev + RATE_LIMIT_RESET_BUFFER_MS < t →
      lapsed_before (acc_rate_limited_until a) t = true →
      wouldAutoUnpause (toAccount (ev_accountId ev) r') t = true.
Proof.
  intros Hpos. unfold findById.
  destruct (accounts (w_db w) !! ev_accountId ev) as [r|] eqn:Hr; [|done]. intros [= Ha] Hs. unfold attempt_stamp in Hs.
  destruct (stranded_reset a ev) as [reset|] eqn:Est; [|done].
  destruct (stranded_reset_spec a ev reset Est) as (Hf & Hp & Hh & Hst & Hlt).
  unfold stampObservedRateLimitReset, changed, st_bind, st_ret, sql_update in Hs.
  assert (acc_id a = ev_accountId ev) as Hid by (by rewrite <-Ha).
  rewrite Hid, Hr in Hs. destruct (_ && _) eqn:Eg; [|done]. simpl in Hs.
  rewrite pause_trigger_same in Hs by done. injection Hs as <-. simpl.
  unfold sql_eq, sql_gt in Eg. destruct (rate_limit_reset (limit r)) as [x|] eqn:Ex; [|done].
  prop_bools. subst x. split.
  - exists reset. rewrite <-Ha. simpl. rewrite Ex. simpl. destruct (reset =? 0) eqn:E0; [|done].
    prop_bools. lia.
  - exists r. eexists. split; [done|]. split; [done|]. split; [done|].
    intros t Hd Ht Hl. unfold wouldAutoUnpause, isAutoUnpauseCandidate.
    rewrite <-Ha in *. simpl in *. rewrite Hd, Hf, Hp, Hh.
    assert (truthy_int (paused (pause r)) = true) as ->.
    { unfold truthy_int, toNum in *. destruct (paused (pause r)) as [p|]; simpl in *; by subst. }
    simpl. rewrite (proj2 (Z.eqb_neq _ _)) by lia.
    rewrite (proj2 (Z.ltb_lt _ _)) by (unfold RATE_LIMIT_RESET_BUFFER_MS in *; lia). simpl.
    unfold lapsed_before in Hl. destruct (toNumOrNull _) as [u|]; [|done].
    destruct (u =? 0); [done|]. simpl in *. prop_bools.
    by rewrite (proj2 (Z.leb_gt _ _) Hl).
Qed.

(** * Concrete runs *)

Definition demo_locked (p : option Z) (reason : option string) (reset : option Z) : AccountRow :=
  with_limit {| rate_limited_until := Some 900000; rate_limited_reason := reason;
                rate_limited_at := Some 1000; consecutive_rate_limits := 2;
                rate_limit_status := None; rate_limit_reset := reset;
                rate_limit_remaining := None |}
             (demo_row p (Some "overage"%string) 1).

Definition demo_world (r : AccountRow) : world :=
  {| w_db := demo_db r; w_gate := gate_init; w_warned := ∅ |}.

Definition demo_evidence : CapacityRestoredEvidence :=
  {| ev_accountId := "a1"; ev_fetchStartedAt := 5000; ev_observedWindows := [] |}.

Definition demo_quota_row : AccountRow :=
  demo_locked (Some 0) (Some "weekly_exhausted_429"%string) (Some 900000).

Definition demo_decision : continuation * world :=
  decide_capacity_restored (Some (toAccount "a1" demo_quota_row)) demo_evidence 6000
                           (demo_world demo_quota_row).

Definition demo_request : ReleaseRequest :=
  {| rel_account := toAccount "a1" demo_quota_row; rel_reason := "weekly_exhausted_429";
     rel_until := 900000; rel_at := 1000; rel_boundary := 5000; rel_reservation := 1 |}.

Lemma early_release_exact_witness :
  demo_decision.1 = TryRelease demo_request ∧
  ∃ r, accounts (w_db demo_decision.2) !! "a1"%string = Some r ∧
    rate_limited_until (limit r) = Some 900000.
Proof.
  split; [reflexivity|].
  pose proof (early_release_exact (toAccount "a1" demo_quota_row) demo_evidence 6000
                (demo_world demo_quota_row) demo_request demo_decision.2 7000 demo_decision.2
                eq_refl) as H.
  assert ((attempt_release demo_request false 7000 demo_decision.2).1 = true) as Hok
    by reflexivity.
  destruct (attempt_release demo_request false 7000 demo_decision.2) as [[] w2]; [|discriminate Hok].
  destruct H as (r & until & at_ & reason & Hu & _ & _ & Hr & Hru & _).
  exists r. split; [exact Hr|]. rewrite Hru, <-Hu. reflexivity.
Defined.

Lemma release_stays_marked_witness :
  hasCapacityRestoredProbePending "a1"
    (gate_run (w_gate demo_decision.2) [GAdmit demo_account 6500 false; GMark "a1"]) = true.
Proof.
  apply (release_stays_marked [] [GAdmit demo_account 6500 false; GMark "a1"]
           (toAccount "a1" demo_quota_row) demo_evidence 6000 (demo_world demo_quota_row)
           demo_request demo_decision.2).
  - reflexivity.
  - reflexivity.
  - repeat constructor.
Defined.

Lemma ineligible_lock_stays_witness :
  let w := demo_world (demo_locked (Some 0) (Some "out_of_credits"%string) None) in
  w_db (clearRateLimitOnCapacityRestored demo_evidence false 6000 w) = w_db w.
Proof.
  intros w.
  apply (ineligible_lock_stays demo_evidence false 6000 w
           (toAccount "a1" (demo_locked (Some 0) (Some "out_of_credits"%string) None)) 900000).
  - reflexivity.
  - reflexivity.
  - left. reflexivity.
Defined.

Lemma stamp_reopens_witness :
  let r := with_limit {| rate_limited_until := None; rate_limited_reason := None;
                         rate_limited_at := None; consecutive_rate_limits := 0;
                         rate_limit_status := None; rate_limit_reset := Some 800000;
                         rate_limit_remaining := None |}
             (demo_row (Some 1) (Some "overage"%string) 1) in
  ∃ reset, acc_rate_limit_reset (toAccount "a1" r) = Some reset ∧ 5000 < reset.
Proof.
  intros r.
  destruct (stamp_reopens demo_evidence 6000 (demo_world r) (toAccount "a1" r)
              (attempt_stamp (toAccount "a1" r) demo_evidence 6000 (demo_world r)).2)
    as [(reset & H1 & H2 & _) _].
  - reflexivity.
  - reflexivity.
  - reflexivity.
  - exists reset. split; [exact H1|exact H2].
Defined.
