(* ===== verification/Rotation.v ===== *)
(** Unpersisted refresh-token rotations:
    [packages/proxy/src/handlers/pending-rotation-registry.ts].

    An entry carries its object identity [pr_ref]: recording and rebasing create a new
    object, and the settle operations compare identities. A flush awaits the database
    between its start (the snapshot) and its settlement, so it is three definitions:
    [flush_entry], the compare-and-swap of AccountRepo, and [flush_settle]. Empty and
    absent refresh tokens are kept apart, as in the code. Log lines are left out, and
    so is the timer's jitter; whether the timer is armed is state. *)

From S2P Require Import Prelude Accounts AccountRepo.
Open Scope Z_scope.

Definition MAX_PENDING_ROTATIONS : Z := 1000.

Record PendingRotation := {
  pr_ref : Z;
  pr_accessToken : string;
  pr_expiresAt : Z;
  pr_refreshToken : option string;
  pr_refreshTokenExpiresAt : option Z;
  pr_identity : option AccountIdentity;
  pr_attemptedRefreshToken : string;
  pr_recordedAt : Z
}.

(** [Omit<PendingRotation, "recordedAt">], the anchor possibly empty *)
Record Rotation := {
  rot_accessToken : string;
  rot_expiresAt : Z;
  rot_refreshToken : option string;
  rot_refreshTokenExpiresAt : option Z;
  rot_identity : option AccountIdentity;
  rot_attemptedRefreshToken : string
}.

Record registry := {
  reg_pending : jmap string PendingRotation;
  reg_nextRef : Z;
  reg_timerArmed : bool
}.

Definition registry_init : registry :=
  {| reg_pending := ∅; reg_nextRef := 0; reg_timerArmed := false |}.

Definition set_reg_pending (m : jmap string PendingRotation) (r : registry) : registry :=
  {| reg_pending := m; reg_nextRef := reg_nextRef r; reg_timerArmed := reg_timerArmed r |}.

Definition refreshTokenDeadlineFor (refreshToken : option string)
    (resultToken : option string) (resultDeadline : option Z)
    (pending : option PendingRotation) : option Z :=
  match refreshToken with
  | None => None
  | Some _ =>
      if bool_decide (resultToken = refreshToken) && bool_decide (is_Some resultDeadline)
      then resultDeadline
      else
        match pending with
        | Some p => if bool_decide (pr_refreshToken p = refreshToken)
                    then pr_refreshTokenExpiresAt p else None
        | None => None
        end
  end.

Definition armRetryTimer (r : registry) : registry :=
  if reg_timerArmed r || (jsize (reg_pending r) =? 0) then r
  else {| reg_pending := reg_pending r; reg_nextRef := reg_nextRef r; reg_timerArmed := true |}.

Definition disarmRetryTimerIfIdle (r : registry) : registry :=
  if (0 <? jsize (reg_pending r)) || negb (reg_timerArmed r) then r
  else {| reg_pending := reg_pending r; reg_nextRef := reg_nextRef r; reg_timerArmed := false |}.

Definition evictOldestPendingRotation (m : jmap string PendingRotation)
    : jmap string PendingRotation :=
  match jkeys m with oldest :: _ => delete oldest m | [] => m end.

Definition recordPendingRotation (id : string) (rot : Rotation) (now : Z) (r : registry)
    : registry :=
  let existing := reg_pending r !! id in
  let anchor := match existing with
                | Some e => pr_attemptedRefreshToken e
                | None => rot_attemptedRefreshToken rot
                end in
  if bool_decide (anchor = ""%string) then r
  else
    let m := if bool_decide (existing = None)
                && (MAX_PENDING_ROTATIONS <=? jsize (reg_pending r))
             then evictOldestPendingRotation (reg_pending r) else reg_pending r in
    let entry :=
      {| pr_ref := reg_nextRef r;
         pr_accessToken := rot_accessToken rot; pr_expiresAt := rot_expiresAt rot;
         pr_refreshToken := rot_refreshToken rot;
         pr_refreshTokenExpiresAt :=
           refreshTokenDeadlineFor (rot_refreshToken rot) (rot_refreshToken rot)
             (rot_refreshTokenExpiresAt rot) existing;
         pr_identity := match rot_identity rot with
                        | Some i => Some i
                        | None => existing ≫= pr_identity
                        end;
         pr_attemptedRefreshToken := anchor;
         pr_recordedAt := match existing with Some e => pr_recordedAt e | None => now end |} in
    armRetryTimer {| reg_pending := <[id := entry]> m; reg_nextRef := reg_nextRef r + 1;
                     reg_timerArmed := reg_timerArmed r |}.

Definition getPendingRotation (id : string) (r : registry) : option PendingRotation :=
  reg_pending r !! id.
Definition getPendingRotationAnchor (id : string) (r : registry) : option string :=
  pr_attemptedRefreshToken <$> reg_pending r !! id.

(** [pending.get(id) === snapshot] *)
Definition is_current (id : string) (snapshot : PendingRotation) (r : registry) : bool :=
  match reg_pending r !! id with
  | Some e => pr_ref e =? pr_ref snapshot
  | None => false
  end.

Definition drop_pending (id : string) (r : registry) : registry :=
  disarmRetryTimerIfIdle (set_reg_pending (delete id (reg_pending r)) r).

Definition rebased (anchor : string) (ref : Z) (e : PendingRotation) : PendingRotation :=
  {| pr_ref := ref; pr_accessToken := pr_accessToken e; pr_expiresAt := pr_expiresAt e;
     pr_refreshToken := pr_refreshToken e;
     pr_refreshTokenExpiresAt := pr_refreshTokenExpiresAt e;
     pr_identity := pr_identity e; pr_attemptedRefreshToken := anchor;
     pr_recordedAt := pr_recordedAt e |}.

Definition resolvePendingAfterPersist (id : string) (snapshot : PendingRotation)
    (persisted : option string) (r : registry) : registry :=
  match reg_pending r !! id with
  | None => r
  | Some current =>
      if is_current id snapshot r then drop_pending id r
      else
        match truthy_string persisted with
        | None => r
        | Some t =>
            {| reg_pending := <[id := rebased t (reg_nextRef r) current]> (reg_pending r);
               reg_nextRef := reg_nextRef r + 1; reg_timerArmed := reg_timerArmed r |}
        end
  end.

Definition clearPendingRotationIfCurrent (id : string) (snapshot : PendingRotation)
    (r : registry) : registry :=
  if is_current id snapshot r then drop_pending id r else r.

Definition clearPendingRotation (id : string) (r : registry) : registry :=
  if jhas id (reg_pending r) then drop_pending id r else r.

(** * Flushing *)

Inductive FlushWrite : Type := Persisted | Superseded | Threw.

(** The token a flush of the entry leaves in the row *)
Definition written_token (e : PendingRotation) : string :=
  default (pr_attemptedRefreshToken e) (pr_refreshToken e).

(** The write: the repository's compare-and-swap on the anchor. *)
Definition flush_write (localDate : Z → option (Z * Z * Z)) (id : string)
    (e : PendingRotation) (now : Z) (db : database) : FlushWrite * database :=
  let '(ok, db') :=
    updateTokens localDate id (pr_accessToken e) (pr_expiresAt e) (pr_refreshToken e)
      (pr_identity e) (Some (pr_attemptedRefreshToken e)) (pr_refreshTokenExpiresAt e) now db in
  (if ok then Persisted else Superseded, db').

Definition flush_settle (id : string) (e : PendingRotation) (w : FlushWrite) (r : registry)
    : registry :=
  match w with
  | Persisted => resolvePendingAfterPersist id e (Some (written_token e)) r
  | Superseded => clearPendingRotationIfCurrent id e r
  | Threw => r
  end.

Inductive FlushOutcome : Type :=
  | FlushNone | FlushPersisted (e : PendingRotation) | FlushSuperseded (e : PendingRotation)
  | FlushFailed (e : PendingRotation).

(** A flush nothing interleaves with; [throws]: the write fails. *)
Definition flushPendingRotation (localDate : Z → option (Z * Z * Z)) (id : string)
    (throws : bool) (now : Z) (w : registry * database) : FlushOutcome * (registry * database) :=
  let '(r, db) := w in
  match reg_pending r !! id with
  | None => (FlushNone, w)
  | Some e =>
      if throws then (FlushFailed e, w)
      else
        match flush_write localDate id e now db with
        | (Persisted, db') => (FlushPersisted e, (flush_settle id e Persisted r, db'))
        | (k, db') => (FlushSuperseded e, (flush_settle id e k r, db'))
        end
  end.

(** The retry sweep: every account pending when it starts, in order. *)
Definition runRetrySweep (localDate : Z → option (Z * Z * Z)) (throws : string → bool)
    (now : Z) (w : registry * database) : registry * database :=
  let '(r, db) :=
    foldl (λ w id, (flushPendingRotation localDate id (throws id) now w).2) w
          (jkeys (reg_pending w.1)) in
  (disarmRetryTimerIfIdle r, db).

(** * Runs of the registry *)

Inductive reg_op : Type :=
  | RRecord (id : string) (rot : Rotation) (now : Z)
  | RResolve (id : string) (snapshot : PendingRotation) (persisted : option string)
  | RClearIfCurrent (id : string) (snapshot : PendingRotation)
  | RClear (id : string).

Definition reg_exec (r : registry) (op : reg_op) : registry :=
  match op with
  | RRecord id rot now => recordPendingRotation id rot now r
  | RResolve id s t => resolvePendingAfterPersist id s t r
  | RClearIfCurrent id s => clearPendingRotationIfCurrent id s r
  | RClear id => clearPendingRotation id r
  end.

Definition reg_run (r : registry) (ops : list reg_op) : registry := foldl reg_exec r ops.

(** Identities are fresh, anchors usable, the map bounded, the timer exactly as needed. *)
Definition reg_ok (r : registry) : Prop :=
  jwf (reg_pending r) ∧ jsize (reg_pending r) <= MAX_PENDING_ROTATIONS ∧
  (∀ id e, reg_pending r !! id = Some e →
     pr_ref e < reg_nextRef r ∧ pr_attemptedRefreshToken e ≠ ""%string) ∧
  (reg_timerArmed r = true ↔ 0 < jsize (reg_pending r)).

(** * Lemmas *)

Lemma arm_pending r : reg_pending (armRetryTimer r) = reg_pending r.
Proof. unfold armRetryTimer. by destruct (_ || _). Qed.
Lemma arm_ref r : reg_nextRef (armRetryTimer r) = reg_nextRef r.
Proof. unfold armRetryTimer. by destruct (_ || _). Qed.
Lemma disarm_pending r : reg_pending (disarmRetryTimerIfIdle r) = reg_pending r.
Proof. unfold disarmRetryTimerIfIdle. by destruct (_ || _). Qed.
Lemma disarm_ref r : reg_nextRef (disarmRetryTimerIfIdle r) = reg_nextRef r.
Proof. unfold disarmRetryTimerIfIdle. by destruct (_ || _). Qed.
#[export] Hint Rewrite arm_pending arm_ref disarm_pending disarm_ref : repo.

Lemma jsize_nonneg {K V} `{!EqDecision K} (m : jmap K V) : 0 <= jsize m.
Proof. unfold jsize. lia. Qed.

Lemma jsize_pos {K V} `{!EqDecision K} (m : jmap K V) k : is_Some (m !! k) → 0 < jsize m.
Proof.
  intros Hk. apply jelem_of_keys in Hk. rewrite jsize_keys. destruct (jkeys m); [by apply elem_of_nil in Hk|].
  simpl. lia.
Qed.

Lemma evict_rotation_lookup m id e :
  evictOldestPendingRotation m !! id = Some e → m !! id = Some e.
Proof.
  unfold evictOldestPendingRotation. destruct (jkeys m) as [|k ks]; [done|].
  rewrite jlookup_delete. by destruct (decide _).
Qed.

Lemma evict_rotation_wf m : jwf m → jwf (evictOldestPendingRotation m).
Proof.
  intros. unfold evictOldestPendingRotation. destruct (jkeys m); [done|]. by apply jwf_delete.
Qed.

Lemma evict_rotation_size m :
  0 < jsize m → jsize (evictOldestPendingRotation m) < jsize m.
Proof.
  intros Hp. unfold evictOldestPendingRotation. destruct (jkeys m) as [|k ks] eqn:E.
  - rewrite jsize_keys, E in Hp. simpl in Hp. lia.
  - assert (is_Some (m !! k)) as [v Hv] by (apply jelem_of_keys; rewrite E; by left).
    by apply (jsize_delete_lt k v).
Qed.

(** The timer after arming or disarming is what the map needs. *)
Lemma arm_exact r :
  (reg_timerArmed r = true → 0 < jsize (reg_pending r)) →
  reg_timerArmed (armRetryTimer r) = true ↔ 0 < jsize (reg_pending r).
Proof.
  intros H. unfold armRetryTimer. pose proof (jsize_nonneg (reg_pending r)).
  destruct (reg_timerArmed r) eqn:E; simpl; [rewrite E; naive_solver|].
  destruct (_ =? 0) eqn:Ez; prop_bools; simpl; [rewrite E; split; [done|lia]|]. split; [lia|done].
Qed.

Lemma disarm_exact r :
  (0 < jsize (reg_pending r) → reg_timerArmed r = true) →
  reg_timerArmed (disarmRetryTimerIfIdle r) = true ↔ 0 < jsize (reg_pending r).
Proof.
  intros H. unfold disarmRetryTimerIfIdle.
  destruct (0 <? jsize (reg_pending r)) eqn:E; prop_bools; simpl.
  - split; [done|]. auto.
  - destruct (reg_timerArmed r) eqn:Et; simpl; rewrite ?Et; split; (done || lia).
Qed.

Lemma reg_ok_drop id r : reg_ok r → is_Some (reg_pending r !! id) → reg_ok (drop_pending id r).
Proof.
  intros (Hwf & Hs & He & Ht) Hid. unfold drop_pending, reg_ok.
  rewrite disarm_exact; autorewrite with repo; simpl.
  - split; [by apply jwf_delete|]. split; [pose proof (jsize_delete_le id (reg_pending r)); lia|].
    split; [|done]. intros id' e. rewrite jlookup_delete. destruct (decide _); [done|]. apply He.
  - intros _. apply Ht. by eapply jsize_pos.
Qed.

Lemma reg_ok_record id rot now r : reg_ok r → reg_ok (recordPendingRotation id rot now r).
Proof.
  intros (Hwf & Hs & He & Ht). unfold recordPendingRotation. cbv zeta.
  destruct (bool_decide (_ = ""%string)) eqn:Ea; [done|]. prop_bools.
  set (m := if _ && _ then evictOldestPendingRotation _ else _).
  assert (jwf m ∧ (∀ id' e, m !! id' = Some e → reg_pending r !! id' = Some e) ∧
          jsize m <= MAX_PENDING_ROTATIONS ∧
          (reg_pending r !! id = None → jsize m < MAX_PENDING_ROTATIONS)) as (Hm1 & Hm2 & Hm3 & Hm4).
  { unfold m. destruct (bool_decide (reg_pending r !! id = None)) eqn:En; simpl; prop_bools.
    - destruct (MAX_PENDING_ROTATIONS <=? jsize (reg_pending r)) eqn:El; prop_bools.
      + pose proof (evict_rotation_size (reg_pending r)) as Hev.
        unfold MAX_PENDING_ROTATIONS in *.
        split; [by apply evict_rotation_wf|]. split; [apply evict_rotation_lookup|]. lia.
      + split; [done|]. split; [done|]. lia.
    - done. }
  unfold reg_ok. rewrite arm_exact; autorewrite with repo; simpl.
  - split; [by apply jwf_insert|]. split; [|split; [|done]].
    + rewrite jsize_insert. destruct (decide _) as [|Hn]; [done|].
      destruct (reg_pending r !! id) eqn:E; [|specialize (Hm4 eq_refl); lia].
      unfold m. simpl. exfalso. apply Hn. unfold m. rewrite bool_decide_eq_false_2 by done.
      simpl. by rewrite E.
    + intros id' e. rewrite jlookup_insert. destruct (decide _) as [<-|].
      * intros [= <-]. simpl. split; [lia|done].
      * intros H'%Hm2. apply He in H' as [? ?]. split; [lia|done].
  - intros _. eapply (jsize_pos _ id). by rewrite jlookup_insert_eq.
Qed.

Lemma reg_ok_exec r op : reg_ok r → reg_ok (reg_exec r op).
Proof.
  intros Hok. destruct op as [id rot now|id s t|id s|id]; simpl.
  - by apply reg_ok_record.
  - unfold resolvePendingAfterPersist. destruct (reg_pending r !! id) as [c|] eqn:E; [|done].
    destruct (is_current id s r); [by apply reg_ok_drop; [|rewrite E]|].
    destruct (truthy_string t) as [t'|] eqn:Et; [|done].
    destruct Hok as (Hwf & Hs & He & Ht). split; [by apply jwf_insert|]. simpl.
    rewrite jsize_insert, decide_True by (by rewrite E). split; [done|]. split; [|done].
    intros id' e. rewrite jlookup_insert. destruct (decide _) as [<-|].
    + intros [= <-]. simpl. split; [lia|]. intros ->. destruct t as [[]|]; simpl in Et; congruence.
    + intros H'. apply He in H' as [? ?]. split; [lia|done].
  - unfold clearPendingRotationIfCurrent, is_current.
    destruct (reg_pending r !! id) eqn:E; [|done]. destruct (_ =? _); [|done].
    by apply reg_ok_drop; [|rewrite E].
  - unfold clearPendingRotation. destruct (jhas id _) eqn:E; [|done].
    apply reg_ok_drop; [done|]. by apply jhas_spec.
Qed.

Lemma reg_ok_init : reg_ok registry_init.
Proof.
  split; [apply jwf_empty|]. split; [done|]. split; [done|]. split; [done|].
  unfold registry_init, jsize. simpl. lia.
Qed.

Lemma reg_ok_run ops r : reg_ok r → reg_ok (reg_run r ops).
Proof. revert r. induction ops as [|op ops IH]; intros r H; [done|]. apply IH. by apply reg_ok_exec. Qed.

(** * Properties *)

(** The registry of unpersisted rotations stays sound in every run: at most 1000
    entries, one per account; no entry ever has an empty anchor (which the repository
    would read as an unconditional or a never-matching write); the retry timer is armed
    exactly while something is pending; and recording an account that is already
    pending never evicts another account's only copy. *)
Theorem registry_sound ops id rot now :
  let r := reg_run registry_init ops in
  jsize (reg_pending r) <= MAX_PENDING_ROTATIONS ∧
  (∀ id' e, reg_pending r !! id' = Some e → pr_attemptedRefreshToken e ≠ ""%string) ∧
  (reg_timerArmed r = true ↔ 0 < jsize (reg_pending r)) ∧
  (is_Some (reg_pending r !! id) →
   ∀ id', id' ≠ id →
     reg_pending (recordPendingRotation id rot now r) !! id' = reg_pending r !! id').
Proof.
  intros r. destruct (reg_ok_run ops _ reg_ok_init) as (Hwf & Hs & He & Ht). fold r in Hwf, Hs, He, Ht.
  split; [done|]. split; [intros id' e H; by apply (He id')|]. split; [done|].
  intros [e Hid] id' Hne. unfold recordPendingRotation. cbv zeta. rewrite Hid.
  destruct (bool_decide (_ = ""%string)); [done|]. rewrite (bool_decide_eq_false_2 (Some e = None)) by done.
  simpl. autorewrite with repo. simpl. by rewrite jlookup_insert_ne.
Qed.

(** Rotations of one account, recorded one after the other *)
Definition record_chain (id : string) (rots : list (Rotation * Z)) (r : registry) : registry :=
  foldl (λ r '(rot, now), recordPendingRotation id rot now r) r rots.

Lemma record_known id rot now r e :
  reg_pending r !! id = Some e → pr_attemptedRefreshToken e ≠ ""%string →
  ∃ e', reg_pending (recordPendingRotation id rot now r) !! id = Some e' ∧
    pr_attemptedRefreshToken e' = pr_attemptedRefreshToken e ∧
    pr_recordedAt e' = pr_recordedAt e ∧
    pr_accessToken e' = rot_accessToken rot ∧ pr_refreshToken e' = rot_refreshToken rot ∧
    pr_identity e' = match rot_identity rot with Some i => Some i | None => pr_identity e end ∧
    pr_refreshTokenExpiresAt e' =
      refreshTokenDeadlineFor (rot_refreshToken rot) (rot_refreshToken rot)
        (rot_refreshTokenExpiresAt rot) (Some e).
Proof.
  intros He Ha. unfold recordPendingRotation. cbv zeta. rewrite He, bool_decide_eq_false_2 by done.
  autorewrite with repo. cbn [reg_pending]. rewrite jlookup_insert_eq. eexists. split; [done|]. done.
Qed.

(** chained rotations compress onto the row. However many rotations of an account
    fail to persist in a row, the one entry kept names the token the database still
    holds (the first anchor) and keeps its place in the queue (the first time), carries
    the newest credentials, and never forgets an identity an earlier rotation captured
    nor the deadline of the token it carries. *)
Theorem rotation_chain id rot now rots r :
  reg_pending r !! id = None → rot_attemptedRefreshToken rot ≠ ""%string →
  ∃ e, reg_pending (record_chain id ((rot, now) :: rots) r) !! id = Some e ∧
    let newest := (List.last ((rot, now) :: rots) (rot, now)).1 in
    pr_attemptedRefreshToken e = rot_attemptedRefreshToken rot ∧ pr_recordedAt e = now ∧
    pr_accessToken e = rot_accessToken newest ∧ pr_refreshToken e = rot_refreshToken newest ∧
    (Exists (λ p, is_Some (rot_identity p.1)) ((rot, now) :: rots) → is_Some (pr_identity e)) ∧
    (is_Some (rot_refreshToken newest) → is_Some (rot_refreshTokenExpiresAt newest) →
       pr_refreshTokenExpiresAt e = rot_refreshTokenExpiresAt newest).
Proof.
  intros Hid Ha. unfold record_chain. cbn [foldl].
  assert (∃ e, reg_pending (recordPendingRotation id rot now r) !! id = Some e ∧
    pr_attemptedRefreshToken e = rot_attemptedRefreshToken rot ∧ pr_recordedAt e = now ∧
    pr_accessToken e = rot_accessToken rot ∧ pr_refreshToken e = rot_refreshToken rot ∧
    (is_Some (rot_identity rot) → is_Some (pr_identity e)) ∧
    pr_refreshTokenExpiresAt e = refreshTokenDeadlineFor (rot_refreshToken rot)
      (rot_refreshToken rot) (rot_refreshTokenExpiresAt rot) None) as Hbase.
  { unfold recordPendingRotation. cbv zeta. rewrite Hid, bool_decide_eq_false_2 by done.
    autorewrite with repo. cbn [reg_pending]. rewrite jlookup_insert_eq. eexists. split; [done|]. simpl.
    repeat split; try done. intros [i ->]. by eexists. }
  assert (∀ x pend, is_Some (rot_refreshToken x) → is_Some (rot_refreshTokenExpiresAt x) →
    refreshTokenDeadlineFor (rot_refreshToken x) (rot_refreshToken x)
      (rot_refreshTokenExpiresAt x) pend = rot_refreshTokenExpiresAt x) as Hdl.
  { intros x pend [t ->] [d ->]. simpl. rewrite bool_decide_eq_true_2 by done. done. }
  destruct Hbase as (e & He & H1 & H2 & H3 & H4 & H5 & H6).
  induction rots as [|[rot' now'] rots IH] using rev_ind.
  - exists e. simpl. split; [done|]. split; [done|]. split; [done|]. split; [done|]. split; [done|].
    split; [rewrite Exists_cons, Exists_nil; naive_solver|]. intros ? ?. rewrite H6. by apply Hdl.
  - destruct IH as (e0 & He0 & G1 & G2 & G3 & G4 & G5 & _). rewrite foldl_app. cbn [foldl].
    destruct (record_known id rot' now' _ e0 He0) as (e' & He' & K1 & K2 & K3 & K4 & K5 & K6); [congruence|].
    exists e'. split; [done|]. cbv zeta. rewrite app_comm_cons, last_last. simpl fst.
    split; [congruence|]. split; [congruence|]. split; [done|]. split; [done|]. split.
    + rewrite K5. destruct (rot_identity rot') as [i|] eqn:Ei; [by eexists|].
      intros [Hex|[Hex|Hex%Exists_nil]%Exists_cons]%Exists_app; [by apply G5| |done].
      destruct Hex as [? ?]. simpl in *. congruence.
    + intros. rewrite K6. by apply Hdl.
Qed.

(** The entry with a snapshot's identity is the snapshot. *)
Definition identity_ok (id : string) (e : PendingRotation) (r : registry) : Prop :=
  pr_ref e < reg_nextRef r ∧
  ∀ e', reg_pending r !! id = Some e' → pr_ref e' = pr_ref e → e' = e.

Lemma drop_identity id id' e r : identity_ok id e r → identity_ok id e (drop_pending id' r).
Proof.
  intros [Hr He]. unfold identity_ok, drop_pending. autorewrite with repo. simpl. split; [done|].
  intros e'. rewrite jlookup_delete. destruct (decide _); [done|]. apply He.
Qed.

Lemma identity_ok_exec id e r op : identity_ok id e r → identity_ok id e (reg_exec r op).
Proof.
  intros [Hr He]. destruct op as [id' rot now|id' s t|id' s|id']; simpl.
  - unfold recordPendingRotation. cbv zeta. destruct (bool_decide (_ = ""%string)); [done|].
    unfold identity_ok. autorewrite with repo. simpl. split; [lia|]. intros e'.
    rewrite jlookup_insert. destruct (decide _).
    + intros [= <-]. simpl. lia.
    + destruct (_ && _); [intros H%evict_rotation_lookup|intros H]; by apply He.
  - unfold resolvePendingAfterPersist. destruct (reg_pending r !! id') as [c|]; [|done].
    destruct (is_current id' s r); [by apply drop_identity|].
    destruct (truthy_string t); [|done]. split; [simpl; lia|]. intros e'. simpl.
    rewrite jlookup_insert. destruct (decide _); [|apply He]. intros [= <-]. simpl. lia.
  - unfold clearPendingRotationIfCurrent. destruct (is_current _ _ _); [by apply drop_identity|done].
  - unfold clearPendingRotation. destruct (jhas _ _); [by apply drop_identity|done].
Qed.

Lemma identity_ok_run id e ops r : identity_ok id e r → identity_ok id e (reg_run r ops).
Proof. revert r. induction ops as [|op ops IH]; intros r H; [done|]. apply IH. by apply identity_ok_exec. Qed.

Lemma reg_refs_run ops r :
  (∀ id e, reg_pending r !! id = Some e → pr_ref e < reg_nextRef r) →
  ∀ id e, reg_pending (reg_run r ops) !! id = Some e → pr_ref e < reg_nextRef (reg_run r ops).
Proof.
  revert r. induction ops as [|op ops IH]; intros r H; [done|]. apply IH. clear IH ops.
  assert (∀ i, ∀ id e, reg_pending (drop_pending i r) !! id = Some e →
            pr_ref e < reg_nextRef (drop_pending i r)) as Hd.
  { intros i id e. unfold drop_pending. autorewrite with repo. simpl. rewrite jlookup_delete.
    destruct (decide _); [done|]. apply H. }
  destruct op as [i rot now|i s t|i s|i]; simpl.
  - unfold recordPendingRotation. cbv zeta. destruct (bool_decide (_ = ""%string)); [done|].
    intros id e. autorewrite with repo. simpl. rewrite jlookup_insert. destruct (decide _).
    + intros [= <-]. simpl. lia.
    + intros He. assert (reg_pending r !! id = Some e) as He' by
        (destruct (_ && _); [by apply evict_rotation_lookup|done]).
      apply H in He'. lia.
  - unfold resolvePendingAfterPersist. destruct (reg_pending r !! i) as [c|] eqn:E; [|done].
    destruct (is_current i s r); [apply Hd|]. destruct (truthy_string t); [|done].
    intros id e. simpl. rewrite jlookup_insert. destruct (decide _).
    + intros [= <-]. simpl. lia.
    + intros He%H. lia.
  - unfold clearPendingRotationIfCurrent. destruct (is_current _ _ _); [apply Hd|done].
  - unfold clearPendingRotation. destruct (jhas _ _); [apply Hd|done].
Qed.

(** What the repository's compare-and-swap does for a flush *)
Lemma flush_write_spec localDate id e now db row :
  accounts db !! id = Some row →
  let '(k, db') := flush_write localDate id e now db in
  if bool_decide (refresh_token (creds row) = Some (pr_attemptedRefreshToken e)) then
    k = Persisted ∧ ∃ row', accounts db' !! id = Some row' ∧
      access_token (creds row') = Some (pr_accessToken e) ∧
      (pr_refreshToken e ≠ Some ""%string →
         refresh_token (creds row') = Some (written_token e))
  else k = Superseded ∧ db' = db.
Proof.
  intros Hr. unfold flush_write.
  pose proof (tokens_cas_core localDate db id (pr_accessToken e) (pr_expiresAt e)
    (pr_refreshToken e) (pr_identity e) (Some (pr_attemptedRefreshToken e))
    (pr_refreshTokenExpiresAt e) now row Hr) as H.
  destruct (updateTokens _ _ _ _ _ _ _ _ _ db) as [ok db']. cbv zeta in H. cbn [fst snd] in H.
  assert (cas_token (Some (pr_attemptedRefreshToken e)) row =
    bool_decide (refresh_token (creds row) = Some (pr_attemptedRefreshToken e))) as Hc.
  { simpl. unfold sql_eq. destruct (refresh_token (creds row)); [|by rewrite bool_decide_eq_false_2].
    apply bool_decide_ext. naive_solver. }
  rewrite Hc in H. destruct (bool_decide _) eqn:Eb.
  - destruct H as (-> & row' & Hr' & Hcr). split; [done|]. exists row'. split; [done|]. prop_bools.
    rewrite Hcr. unfold set_tokens, written_token. split; [by destruct (truthy_string _)|].
    intros Hne. destruct (pr_refreshToken e) as [[]|]; simpl; congruence.
  - by injection H as -> ->.
Qed.

(** the newest rotation survives a flush of an older one. Start flushing an entry,
    let anything happen to the registry while the write is in flight, then let the write
    land (the row still held the anchor) and settle. The row holds the flushed token; if
    the entry was still current it is gone; if a newer rotation had replaced it, that one
    survives with its own credentials, rebased onto exactly the token the row now holds,
    so that its own flush lands too; and a concurrent flush that had started from the
    survivor before the rebase cannot drop it. Where the row had moved on (a re-auth),
    nothing is written and only the flushed entry itself can be dropped. *)
Theorem survivor_lands localDate id e ops r1 now now' db row :
  reg_ok r1 → reg_pending r1 !! id = Some e → accounts db !! id = Some row →
  pr_refreshToken e ≠ Some ""%string →
  let r2 := reg_run r1 ops in
  let '(k, db1) := flush_write localDate id e now db in
  let r3 := flush_settle id e k r2 in
  if bool_decide (refresh_token (creds row) = Some (pr_attemptedRefreshToken e)) then
    k = Persisted ∧
    match reg_pending r2 !! id with
    | None => reg_pending r3 !! id = None
    | Some e2 =>
        (e2 = e ∧ reg_pending r3 !! id = None) ∨
        ∃ e3, reg_pending r3 !! id = Some e3 ∧
          pr_refreshToken e3 = pr_refreshToken e2 ∧ pr_accessToken e3 = pr_accessToken e2 ∧
          pr_attemptedRefreshToken e3 = written_token e ∧
          flush_settle id e2 Superseded r3 = r3 ∧
          let '(k', db2) := flush_write localDate id e3 now' db1 in
          k' = Persisted ∧
          (pr_refreshToken e2 ≠ Some ""%string → ∃ row2, accounts db2 !! id = Some row2 ∧
             refresh_token (creds row2) = Some (written_token e3))
    end
  else
    k = Superseded ∧ db1 = db ∧
    (reg_pending r2 !! id ≠ Some e → r3 = r2).
Proof.
  intros Hok He Hr Hne r2.
  pose proof (flush_write_spec localDate id e now db row Hr) as Hw.
  destruct (flush_write localDate id e now db) as [k db1]. cbv zeta.
  destruct Hok as (_ & _ & Hent & _). destruct (Hent id e He) as [Href Hanchor].
  assert (identity_ok id e r2) as [Href2 Hid].
  { apply identity_ok_run. split; [done|]. intros e' He'. congruence. }
  destruct (bool_decide _) eqn:Eb.
  2:{ destruct Hw as [-> ->]. split; [done|]. split; [done|]. intros Hn. simpl.
      unfold clearPendingRotationIfCurrent, is_current.
      destruct (reg_pending r2 !! id) as [e'|]; [|done]. destruct (_ =? _) eqn:E; [|done].
      prop_bools. by rewrite (Hid e') in Hn. }
  destruct Hw as (-> & row1 & Hr1 & _ & Ht1). specialize (Ht1 Hne). split; [done|].
  unfold flush_settle, resolvePendingAfterPersist, is_current.
  destruct (reg_pending r2 !! id) as [e2|] eqn:E2; [|done].
  destruct (pr_ref e2 =? pr_ref e) eqn:E.
  { left. prop_bools. split; [by apply Hid|]. unfold drop_pending. autorewrite with repo. simpl.
    by rewrite jlookup_delete_eq. }
  right. assert (truthy_string (Some (written_token e)) = Some (written_token e)) as ->.
  { unfold written_token. destruct (pr_refreshToken e) as [[]|]; simpl; try done.
    by destruct (pr_attemptedRefreshToken e). }
  exists (rebased (written_token e) (reg_nextRef r2) e2). simpl. rewrite jlookup_insert_eq.
  split; [done|]. split; [done|]. split; [done|]. split; [done|]. split.
  - unfold clearPendingRotationIfCurrent, is_current. simpl. rewrite jlookup_insert_eq. simpl.
    assert (pr_ref e2 < reg_nextRef r2) as Hlt.
    { pose proof (reg_refs_run ops r1 (λ i x H, proj1 (Hent i x H))) as Hrun. by apply (Hrun id). }
    by rewrite (proj2 (Z.eqb_neq _ _)) by lia.
  - pose proof (flush_write_spec localDate id (rebased (written_token e) (reg_nextRef r2) e2)
                  now' db1 row1 Hr1) as Hw2.
    destruct (flush_write _ _ _ now' db1) as [k' db2]. simpl in Hw2.
    rewrite bool_decide_eq_true_2 in Hw2 by done. destruct Hw2 as (-> & row2 & Hr2 & _ & Ht2).
    split; [done|]. intros Hne2. exists row2. split; [done|]. by apply Ht2.
Qed.

(** * Concrete runs *)

Definition demo_rotation (token anchor : string) : Rotation :=
  {| rot_accessToken := "at_" +:+ token; rot_expiresAt := 1000; rot_refreshToken := Some token;
     rot_refreshTokenExpiresAt := None; rot_identity := None;
     rot_attemptedRefreshToken := anchor |}.

Lemma rotation_chain_witness :
  ∃ e, reg_pending (record_chain "a1" [(demo_rotation "rt2" "rt1", 10);
                                       (demo_rotation "rt3" "rt2", 20)] registry_init)
         !! "a1"%string = Some e ∧ pr_attemptedRefreshToken e = "rt1"%string.
Proof.
  destruct (rotation_chain "a1" (demo_rotation "rt2" "rt1") 10
              [(demo_rotation "rt3" "rt2", 20)] registry_init) as (e & He & Ha & _).
  - reflexivity.
  - discriminate.
  - exists e. split; [exact He|]. rewrite Ha. reflexivity.
Defined.

Definition demo_registry : registry :=
  reg_run registry_init [RRecord "a1" (demo_rotation "rt2" "rt1") 10].

Definition demo_entry : PendingRotation :=
  {| pr_ref := 0; pr_accessToken := "at_rt2"; pr_expiresAt := 1000;
     pr_refreshToken := Some "rt2"%string; pr_refreshTokenExpiresAt := None;
     pr_identity := None; pr_attemptedRefreshToken := "rt1"; pr_recordedAt := 10 |}.

Lemma survivor_lands_witness :
  (flush_write no_calendar "a1" demo_entry 30 (demo_db (demo_row None None 0))).1 = Persisted.
Proof.
  pose proof (survivor_lands no_calendar "a1" demo_entry
                [RRecord "a1" (demo_rotation "rt3" "rt2") 20] demo_registry 30 40
                (demo_db (demo_row None None 0)) (demo_row None None 0)
                (reg_ok_run [RRecord "a1" (demo_rotation "rt2" "rt1") 10] registry_init reg_ok_init)
                eq_refl eq_refl) as H.
  assert (pr_refreshToken demo_entry ≠ Some ""%string) as Hne by discriminate.
  specialize (H Hne). cbv zeta in H.
  destruct (flush_write no_calendar "a1" demo_entry 30 (demo_db (demo_row None None 0))) as [k db1].
  simpl. rewrite bool_decide_eq_true_2 in H by reflexivity. exact (proj1 H).
Defined.
