(* ===== verification/AsyncWriter.v ===== *)
(** The asynchronous database writer: [packages/database/src/async-writer.ts].

    Its state is the record [writer]: the metadata FIFO, the payload budget and the
    counters. A metadata job is an opaque identity with its enqueue time. The
    off-thread payload writer is reached through an interface, so its answers are
    arguments: whether it accepts work, whether a publication succeeds, fails or throws,
    and its statistics; it answers a publication before it reports it settled.
    [performance.now()] is an argument in whole milliseconds, so the rounding of an age
    does nothing. Log lines and what only they use (the previous health sample, the
    unavailable-writer flag), the job watchdog, the macrotask yield inside a tick and the
    [beginDisposeDrain] notice to the writer are left out. *)

From S2P Require Import Prelude.
Open Scope Z_scope.

Definition MAX_PAYLOAD_ENTRY_BYTES : Z := 16 * 1024 * 1024.
Definition METADATA_QUEUE_CAP : Z := 2000.
Definition PAYLOAD_QUEUE_HARD_CAP : Z := 1000.
Definition PAYLOAD_BYTES_CAP : Z := 100 * 1024 * 1024.
Definition MAX_JOBS_PER_TICK : nat := 50.
Definition MAX_DRAIN_MS_PER_TICK : Z := 250.

Record MetadataJob := { job_enqueuedAt : Z; job_run : nat }.

(** A [ReservationToken]: its identity and the bytes it holds. *)
Record PayloadReservation := { tok_id : Z; tok_reservedBytes : Z }.

Record PayloadEnqueueInput := { in_transportBytes : Z; in_payloadBytes : Z }.

Record writer := {
  metadataQueue : list MetadataJob;
  payloadReservedBytes : Z;
  payloadReservedCount : Z;
  payloadInFlightBytes : Z;
  payloadInFlightOriginalBytes : Z;
  payloadInFlightCount : Z;
  metadataDropped : Z;
  payloadDropped : Z;
  payloadDroppedBytes : Z;
  payloadCommitted : Z;
  payloadExpired : Z;
  payloadAbandoned : Z;
  droppedJobsSinceLastLog : Z;
  payloadDroppedSinceLastLog : Z;
  lastIntervalDrops : Z;
  closingForDispose : bool;
  disposed : bool;
  hasPayloadWriter : bool;
  unsettled : gset Z;          (* the tokens whose [settled] is false *)
  nextToken : Z
}.

Definition writer_init : writer :=
  {| metadataQueue := []; payloadReservedBytes := 0; payloadReservedCount := 0;
     payloadInFlightBytes := 0; payloadInFlightOriginalBytes := 0; payloadInFlightCount := 0;
     metadataDropped := 0; payloadDropped := 0; payloadDroppedBytes := 0;
     payloadCommitted := 0; payloadExpired := 0; payloadAbandoned := 0;
     droppedJobsSinceLastLog := 0; payloadDroppedSinceLastLog := 0; lastIntervalDrops := 0;
     closingForDispose := false; disposed := false; hasPayloadWriter := false;
     unsettled := ∅; nextToken := 0 |}.

(** ** Field updates *)

Definition set_queue (q : list MetadataJob) (w : writer) : writer :=
  {| metadataQueue := q; payloadReservedBytes := payloadReservedBytes w;
     payloadReservedCount := payloadReservedCount w;
     payloadInFlightBytes := payloadInFlightBytes w;
     payloadInFlightOriginalBytes := payloadInFlightOriginalBytes w;
     payloadInFlightCount := payloadInFlightCount w; metadataDropped := metadataDropped w;
     payloadDropped := payloadDropped w; payloadDroppedBytes := payloadDroppedBytes w;
     payloadCommitted := payloadCommitted w; payloadExpired := payloadExpired w;
     payloadAbandoned := payloadAbandoned w;
     droppedJobsSinceLastLog := droppedJobsSinceLastLog w;
     payloadDroppedSinceLastLog := payloadDroppedSinceLastLog w;
     lastIntervalDrops := lastIntervalDrops w; closingForDispose := closingForDispose w;
     disposed := disposed w; hasPayloadWriter := hasPayloadWriter w;
     unsettled := unsettled w; nextToken := nextToken w |}.

(** Moves the reserved budget: bytes, slots, the unsettled tokens, the next token. *)
Definition set_reserved (bytes count : Z) (toks : gset Z) (next : Z) (w : writer) : writer :=
  {| metadataQueue := metadataQueue w; payloadReservedBytes := bytes;
     payloadReservedCount := count; payloadInFlightBytes := payloadInFlightBytes w;
     payloadInFlightOriginalBytes := payloadInFlightOriginalBytes w;
     payloadInFlightCount := payloadInFlightCount w; metadataDropped := metadataDropped w;
     payloadDropped := payloadDropped w; payloadDroppedBytes := payloadDroppedBytes w;
     payloadCommitted := payloadCommitted w; payloadExpired := payloadExpired w;
     payloadAbandoned := payloadAbandoned w;
     droppedJobsSinceLastLog := droppedJobsSinceLastLog w;
     payloadDroppedSinceLastLog := payloadDroppedSinceLastLog w;
     lastIntervalDrops := lastIntervalDrops w; closingForDispose := closingForDispose w;
     disposed := disposed w; hasPayloadWriter := hasPayloadWriter w;
     unsettled := toks; nextToken := next |}.

Definition add_in_flight (transport payload n : Z) (w : writer) : writer :=
  {| metadataQueue := metadataQueue w; payloadReservedBytes := payloadReservedBytes w;
     payloadReservedCount := payloadReservedCount w;
     payloadInFlightBytes := payloadInFlightBytes w + transport;
     payloadInFlightOriginalBytes := payloadInFlightOriginalBytes w + payload;
     payloadInFlightCount := payloadInFlightCount w + n; metadataDropped := metadataDropped w;
     payloadDropped := payloadDropped w; payloadDroppedBytes := payloadDroppedBytes w;
     payloadCommitted := payloadCommitted w; payloadExpired := payloadExpired w;
     payloadAbandoned := payloadAbandoned w;
     droppedJobsSinceLastLog := droppedJobsSinceLastLog w;
     payloadDroppedSinceLastLog := payloadDroppedSinceLastLog w;
     lastIntervalDrops := lastIntervalDrops w; closingForDispose := closingForDispose w;
     disposed := disposed w; hasPayloadWriter := hasPayloadWriter w;
     unsettled := unsettled w; nextToken := nextToken w |}.

Definition add_counters (mDrop pDrop pDropBytes committed expired abandoned : Z) (w : writer)
    : writer :=
  {| metadataQueue := metadataQueue w; payloadReservedBytes := payloadReservedBytes w;
     payloadReservedCount := payloadReservedCount w;
     payloadInFlightBytes := payloadInFlightBytes w;
     payloadInFlightOriginalBytes := payloadInFlightOriginalBytes w;
     payloadInFlightCount := payloadInFlightCount w;
     metadataDropped := metadataDropped w + mDrop;
     payloadDropped := payloadDropped w + pDrop;
     payloadDroppedBytes := payloadDroppedBytes w + pDropBytes;
     payloadCommitted := payloadCommitted w + committed;
     payloadExpired := payloadExpired w + expired;
     payloadAbandoned := payloadAbandoned w + abandoned;
     droppedJobsSinceLastLog := droppedJobsSinceLastLog w + mDrop;
     payloadDroppedSinceLastLog := payloadDroppedSinceLastLog w + pDrop;
     lastIntervalDrops := lastIntervalDrops w; closingForDispose := closingForDispose w;
     disposed := disposed w; hasPayloadWriter := hasPayloadWriter w;
     unsettled := unsettled w; nextToken := nextToken w |}.

Definition set_interval (drops : Z) (w : writer) : writer :=
  {| metadataQueue := metadataQueue w; payloadReservedBytes := payloadReservedBytes w;
     payloadReservedCount := payloadReservedCount w;
     payloadInFlightBytes := payloadInFlightBytes w;
     payloadInFlightOriginalBytes := payloadInFlightOriginalBytes w;
     payloadInFlightCount := payloadInFlightCount w; metadataDropped := metadataDropped w;
     payloadDropped := payloadDropped w; payloadDroppedBytes := payloadDroppedBytes w;
     payloadCommitted := payloadCommitted w; payloadExpired := payloadExpired w;
     payloadAbandoned := payloadAbandoned w;
     droppedJobsSinceLastLog := 0; payloadDroppedSinceLastLog := 0;
     lastIntervalDrops := drops; closingForDispose := closingForDispose w;
     disposed := disposed w; hasPayloadWriter := hasPayloadWriter w;
     unsettled := unsettled w; nextToken := nextToken w |}.

Definition set_phase (closing disp hasWriter : bool) (w : writer) : writer :=
  {| metadataQueue := metadataQueue w; payloadReservedBytes := payloadReservedBytes w;
     payloadReservedCount := payloadReservedCount w;
     payloadInFlightBytes := payloadInFlightBytes w;
     payloadInFlightOriginalBytes := payloadInFlightOriginalBytes w;
     payloadInFlightCount := payloadInFlightCount w; metadataDropped := metadataDropped w;
     payloadDropped := payloadDropped w; payloadDroppedBytes := payloadDroppedBytes w;
     payloadCommitted := payloadCommitted w; payloadExpired := payloadExpired w;
     payloadAbandoned := payloadAbandoned w;
     droppedJobsSinceLastLog := droppedJobsSinceLastLog w;
     payloadDroppedSinceLastLog := payloadDroppedSinceLastLog w;
     lastIntervalDrops := lastIntervalDrops w; closingForDispose := closing;
     disposed := disp; hasPayloadWriter := hasWriter;
     unsettled := unsettled w; nextToken := nextToken w |}.

(** * The metadata queue *)

Definition queue_length (w : writer) : Z := Z.of_nat (length (metadataQueue w)).

(** [kickQueue] only starts a tick; the tick is [runTick]. *)
Definition enqueue (now : Z) (job : nat) : state writer bool := λ w,
  if METADATA_QUEUE_CAP <=? queue_length w
  then (false, add_counters 1 0 0 0 0 0 w)
  else (true, set_queue (metadataQueue w ++ [{| job_enqueuedAt := now; job_run := job |}]) w).

Definition enqueueShutdownBatch (now : Z) (job : nat) : state writer bool := λ w,
  if disposed w then (false, w)
  else (true, set_queue (metadataQueue w ++ [{| job_enqueuedAt := now; job_run := job |}]) w).

Definition canAcceptMetadata (w : writer) : bool := queue_length w <? METADATA_QUEUE_CAP.

(** The loop of a tick: [elapsed i] is the time since its start at the [i]-th test, and
    [arrivals i] the jobs enqueued from when the [i]-th job leaves the queue to when the
    next one does. *)
Fixpoint tick_loop (budget i : nat) (elapsed : nat → Z) (arrivals : nat → list MetadataJob)
    (q : list MetadataJob) : list MetadataJob * list MetadataJob :=
  match budget with
  | O => ([], q)
  | S budget =>
      match q with
      | [] => ([], [])
      | job :: q' =>
          if elapsed i <? MAX_DRAIN_MS_PER_TICK then
            let '(ran, rest) := tick_loop budget (S i) elapsed arrivals (q' ++ arrivals i) in
            (job :: ran, rest)
          else ([], q)
      end
  end.

(** The jobs run, in order, and the writer after. *)
Definition runTick (elapsed : nat → Z) (arrivals : nat → list MetadataJob)
    : state writer (list MetadataJob) := λ w,
  let '(ran, rest) := tick_loop MAX_JOBS_PER_TICK 0 elapsed arrivals (metadataQueue w) in
  (ran, set_queue rest w).

(** The drain of [dispose]: ticks until the queue is empty; [elapsed n] is the clock of
    the [n]-th tick. *)
Fixpoint drain (ticks : nat) (elapsed : nat → nat → Z) (w : writer)
    : list MetadataJob * writer :=
  match ticks with
  | O => ([], w)
  | S n =>
      match metadataQueue w with
      | [] => ([], w)
      | _ => let '(ran, w1) := runTick (elapsed n) (λ _, []) w in
             let '(ran', w2) := drain n elapsed w1 in (ran ++ ran', w2)
      end
  end.

(** * The payload budget *)

Definition payloadBytesPending (w : writer) : Z := payloadReservedBytes w + payloadInFlightBytes w.
Definition payloadJobCount (w : writer) : Z := payloadReservedCount w + payloadInFlightCount w.

(** [accepts]: [payloadWriter.acceptsWork()]. *)
Definition canAcceptPayload (estimatedBytes : Z) (accepts : bool) (w : writer) : bool :=
  if disposed w || closingForDispose w then false
  else if MAX_PAYLOAD_ENTRY_BYTES <? estimatedBytes then false
  else if PAYLOAD_QUEUE_HARD_CAP <=? payloadJobCount w then false
  else if PAYLOAD_BYTES_CAP <? payloadBytesPending w + estimatedBytes then false
  else if hasPayloadWriter w && negb accepts then false
  else true.

Definition reservePayload (estimatedBytes : Z) (accepts : bool)
    : state writer (option PayloadReservation) := λ w,
  if negb (canAcceptPayload estimatedBytes accepts w) then (None, w)
  else (Some {| tok_id := nextToken w; tok_reservedBytes := estimatedBytes |},
        set_reserved (payloadReservedBytes w + estimatedBytes) (payloadReservedCount w + 1)
                     ({[nextToken w]} ∪ unsettled w) (nextToken w + 1) w).

(** [consume]: settles the token once. *)
Definition consume (t : PayloadReservation) : state writer bool := λ w,
  if bool_decide (tok_id t ∈ unsettled w)
  then (true, set_reserved (payloadReservedBytes w - tok_reservedBytes t)
                           (payloadReservedCount w - 1)
                           (unsettled w ∖ {[tok_id t]}) (nextToken w) w)
  else (false, w).

Definition release (t : PayloadReservation) (w : writer) : writer := (consume t w).2.

Definition recordPayloadDrop (bytes : Z) (w : writer) : writer := add_counters 0 1 bytes 0 0 0 w.

(** Whether a payload writer is there after [ensurePayloadWriter]; [factory]: one can be
    created. *)
Definition ensurePayloadWriter (factory : bool) : state writer bool := λ w,
  if hasPayloadWriter w then (true, w)
  else if negb factory then (false, w)
  else (true, set_phase (closingForDispose w) (disposed w) true w).

Inductive Publication : Type := PublishAccepted | PublishRefused | PublishThrew.

Definition enqueuePayload (t : PayloadReservation) (entry : PayloadEnqueueInput)
    (factory : bool) (publication : Publication) : state writer bool := λ w,
  let '(ok, w) := consume t w in
  if negb ok then (false, w)
  else
    let bytes := in_transportBytes entry in
    if MAX_PAYLOAD_ENTRY_BYTES <? bytes then (false, recordPayloadDrop bytes w)
    else if disposed w || (PAYLOAD_QUEUE_HARD_CAP <=? payloadInFlightCount w)
            || (PAYLOAD_BYTES_CAP <? payloadBytesPending w + bytes)
    then (false, recordPayloadDrop bytes w)
    else
      let '(there, w) := ensurePayloadWriter factory w in
      if negb there then (false, recordPayloadDrop bytes w)
      else
        let w := add_in_flight bytes (in_payloadBytes entry) 1 w in
        match publication with
        | PublishAccepted => (true, w)
        | PublishRefused | PublishThrew =>
            (false, recordPayloadDrop bytes
                      (add_in_flight (- bytes) (- in_payloadBytes entry) (-1) w))
        end.

Inductive PayloadOutcome : Type := committed | dropped | expired | abandoned.

Definition onPayloadSettled (outcome : PayloadOutcome) (s : PayloadEnqueueInput) (w : writer)
    : writer :=
  let w := add_in_flight (- in_transportBytes s) (- in_payloadBytes s) (-1) w in
  match outcome with
  | committed => add_counters 0 0 0 1 0 0 w
  | dropped => recordPayloadDrop (in_transportBytes s) w
  | expired => add_counters 0 0 0 0 1 0 w
  | abandoned => add_counters 0 0 0 0 0 1 w
  end.

(** The state part of the 30 s health sample. *)
Definition sampleInterval (w : writer) : writer :=
  set_interval (droppedJobsSinceLastLog w + payloadDroppedSinceLastLog w) w.

(** The phases of [dispose], before and after its drain. *)
Definition beginDispose (w : writer) : writer := set_phase true (disposed w) (hasPayloadWriter w) w.
Definition endDispose (w : writer) : writer :=
  set_phase (closingForDispose w) true (hasPayloadWriter w) w.

(** * Health *)

Record WriterStats := {
  stats_healthy : bool;
  stats_oldestUnackedAgeMs : Z;
  stats_admissionSuspended : bool;
  stats_writerFatal : option string
}.

Record AsyncWriterHealth := {
  healthy : bool;
  failureCount : Z;
  recentDrops : Z;
  queuedJobs : Z;
  metadataQueuedJobs : Z;
  payloadQueuedJobs : Z;
  payloadInFlightJobs : Z;
  h_payloadBytesPending : Z;
  h_payloadReservedBytes : Z;
  h_payloadInFlightBytes : Z;
  h_payloadInFlightOriginalBytes : Z;
  oldestMetadataAgeMs : Z;
  oldestPayloadAgeMs : Z;
  h_metadataDropped : Z;
  h_payloadDropped : Z;
  h_payloadDroppedBytes : Z;
  h_payloadCommitted : Z;
  h_payloadExpired : Z;
  h_payloadAbandoned : Z;
  payloadWriterHealthy : bool;
  payloadWriterSuspended : bool;
  payloadWriterFatal : option string
}.

(** [stats]: the payload writer's, when there is one. The thresholds are 0.8 of the caps,
    which are integers. *)
Definition getHealth (now : Z) (stats : option WriterStats) (w : writer) : AsyncWriterHealth :=
  let writerHealthy := match stats with Some s => stats_healthy s | None => true end in
  {| healthy := (queue_length w <? 1600) && (payloadJobCount w <? 800)
                && (payloadBytesPending w <? 80 * 1024 * 1024) && writerHealthy
                && (lastIntervalDrops w =? 0);
     failureCount := metadataDropped w + payloadDropped w;
     recentDrops := lastIntervalDrops w;
     queuedJobs := queue_length w + payloadJobCount w;
     metadataQueuedJobs := queue_length w;
     payloadQueuedJobs := payloadReservedCount w;
     payloadInFlightJobs := payloadInFlightCount w;
     h_payloadBytesPending := payloadBytesPending w;
     h_payloadReservedBytes := payloadReservedBytes w;
     h_payloadInFlightBytes := payloadInFlightBytes w;
     h_payloadInFlightOriginalBytes := payloadInFlightOriginalBytes w;
     oldestMetadataAgeMs := match metadataQueue w with
                            | j :: _ => now - job_enqueuedAt j
                            | [] => 0
                            end;
     oldestPayloadAgeMs := match stats with Some s => stats_oldestUnackedAgeMs s | None => 0 end;
     h_metadataDropped := metadataDropped w;
     h_payloadDropped := payloadDropped w;
     h_payloadDroppedBytes := payloadDroppedBytes w;
     h_payloadCommitted := payloadCommitted w;
     h_payloadExpired := payloadExpired w;
     h_payloadAbandoned := payloadAbandoned w;
     payloadWriterHealthy := writerHealthy;
     payloadWriterSuspended :=
       match stats with Some s => stats_admissionSuspended s | None => false end;
     payloadWriterFatal := stats ≫= stats_writerFatal |}.

Definition shouldLogAsyncWriterHealth (h : AsyncWriterHealth) (drops : Z) : bool :=
  (0 <? queuedJobs h) || (0 <? drops) || (0 <? h_payloadBytesPending h)
  || (0 <? payloadInFlightJobs h) || negb (payloadWriterHealthy h).

Definition shouldWarnAsyncWriterHealth (h : AsyncWriterHealth)
    (previous : option AsyncWriterHealth) : bool :=
  negb (healthy h) || negb (payloadWriterHealthy h) || payloadWriterSuspended h
  || bool_decide (is_Some (payloadWriterFatal h)) || (0 <? recentDrops h)
  || (5000 <=? oldestMetadataAgeMs h) || (5000 <=? oldestPayloadAgeMs h)
  || (100 <=? queuedJobs h)
  || match previous with
     | Some p => (10 <=? queuedJobs h - queuedJobs p)
                 || (1024 * 1024 <=? h_payloadBytesPending h - h_payloadBytesPending p)
     | None => false
     end.

(** * Runs of the payload budget *)

Definition sumZ {A} (f : A → Z) (l : list A) : Z := foldr (λ x acc, f x + acc) 0 l.

(** [budget_run w T F]: a run reaches [w] with the tokens [T] outstanding and the payloads
    [F] published and not yet reported by the worker. *)
Inductive budget_run : writer → list PayloadReservation → list PayloadEnqueueInput → Prop :=
  | run_start : budget_run writer_init [] []
  | run_reserve w T F est accepts t w' :
      budget_run w T F → 0 <= est → reservePayload est accepts w = (Some t, w') →
      budget_run w' (t :: T) F
  | run_reserve_refused w T F est accepts w' :
      budget_run w T F → reservePayload est accepts w = (None, w') → budget_run w' T F
  | run_release w T F t T' :
      budget_run w T F → T ≡ₚ t :: T' → budget_run (release t w) T' F
  | run_release_again w T F t :
      budget_run w T F → tok_id t ∉ tok_id <$> T → budget_run (release t w) T F
  | run_publish w T F t T' e factory p w' :
      budget_run w T F → T ≡ₚ t :: T' → 0 <= in_transportBytes e →
      enqueuePayload t e factory p w = (true, w') → budget_run w' T' (e :: F)
  | run_publish_refused w T F t T' e factory p w' :
      budget_run w T F → T ≡ₚ t :: T' → 0 <= in_transportBytes e →
      enqueuePayload t e factory p w = (false, w') → budget_run w' T' F
  | run_publish_again w T F t e factory p w' :
      budget_run w T F → tok_id t ∉ tok_id <$> T →
      enqueuePayload t e factory p w = (false, w') → budget_run w' T F
  | run_settle w T F o e F' :
      budget_run w T F → F ≡ₚ e :: F' → budget_run (onPayloadSettled o e w) T F'
  | run_enqueue w T F now job : budget_run w T F → budget_run (enqueue now job w).2 T F
  | run_shutdown w T F now job :
      budget_run w T F → budget_run (enqueueShutdownBatch now job w).2 T F
  | run_tick w T F el arr : budget_run w T F → budget_run (runTick el arr w).2 T F
  | run_sample w T F : budget_run w T F → budget_run (sampleInterval w) T F
  | run_begin w T F : budget_run w T F → budget_run (beginDispose w) T F
  | run_end w T F : budget_run w T F → budget_run (endDispose w) T F.

(** The counters are sums over what is outstanding, within the caps. *)
Record budget_ok (w : writer) (T : list PayloadReservation) (F : list PayloadEnqueueInput)
    : Prop := {
  ok_reserved : payloadReservedBytes w = sumZ tok_reservedBytes T;
  ok_reserved_count : payloadReservedCount w = Z.of_nat (length T);
  ok_inflight : payloadInFlightBytes w = sumZ in_transportBytes F;
  ok_original : payloadInFlightOriginalBytes w = sumZ in_payloadBytes F;
  ok_inflight_count : payloadInFlightCount w = Z.of_nat (length F);
  ok_tokens : ∀ i, i ∈ unsettled w ↔ i ∈ tok_id <$> T;
  ok_nodup : NoDup (tok_id <$> T);
  ok_fresh : ∀ i, i ∈ tok_id <$> T → i < nextToken w;
  ok_nonneg_T : Forall (λ t, 0 <= tok_reservedBytes t) T;
  ok_nonneg_F : Forall (λ e, 0 <= in_transportBytes e) F;
  ok_jobs : payloadJobCount w <= PAYLOAD_QUEUE_HARD_CAP;
  ok_bytes : payloadBytesPending w <= PAYLOAD_BYTES_CAP
}.

Lemma sumZ_perm {A} (f : A → Z) l l' : l ≡ₚ l' → sumZ f l = sumZ f l'.
Proof. unfold sumZ. induction 1; simpl; lia. Qed.

Lemma sumZ_nonneg {A} (f : A → Z) l : Forall (λ x, 0 <= f x) l → 0 <= sumZ f l.
Proof. unfold sumZ. induction 1; simpl; lia. Qed.

Lemma budget_ok_perm w T T' F F' :
  T ≡ₚ T' → F ≡ₚ F' → budget_ok w T F → budget_ok w T' F'.
Proof.
  intros HT HF [].
  pose proof (sumZ_perm tok_reservedBytes _ _ HT). pose proof (sumZ_perm in_transportBytes _ _ HF).
  pose proof (sumZ_perm in_payloadBytes _ _ HF).
  pose proof (Permutation_length HT). pose proof (Permutation_length HF).
  split; try congruence.
  - intros i. by rewrite <-HT.
  - by rewrite <-HT.
  - intros i. rewrite <-HT. auto.
  - by rewrite <-HT.
  - by rewrite <-HF.
Qed.

(** Operations that leave the budget fields alone *)
Lemma budget_ok_frame w w' T F :
  payloadReservedBytes w' = payloadReservedBytes w →
  payloadReservedCount w' = payloadReservedCount w →
  payloadInFlightBytes w' = payloadInFlightBytes w →
  payloadInFlightOriginalBytes w' = payloadInFlightOriginalBytes w →
  payloadInFlightCount w' = payloadInFlightCount w →
  unsettled w' = unsettled w → nextToken w' = nextToken w →
  budget_ok w T F → budget_ok w' T F.
Proof.
  intros E1 E2 E3 E4 E5 E6 E7 []. split; unfold payloadJobCount, payloadBytesPending in *;
    rewrite ?E1, ?E2, ?E3, ?E4, ?E5, ?E6, ?E7; done.
Qed.

Lemma budget_ok_consume w t T F :
  budget_ok w (t :: T) F →
  (consume t w).1 = true ∧ budget_ok (consume t w).2 T F ∧
  payloadJobCount (consume t w).2 + 1 <= PAYLOAD_QUEUE_HARD_CAP.
Proof.
  intros []. unfold consume. unfold payloadJobCount, payloadBytesPending in *. csimpl in *.
  rewrite bool_decide_eq_true_2 by (apply ok_tokens0; by left). split; [done|].
  inversion ok_nodup0 as [|? ? Hnin Hnd]; subst. apply Forall_cons in ok_nonneg_T0 as [Ht HT].
  unfold sumZ in ok_reserved0. simpl in ok_reserved0. split; [|simpl; lia].
  split; simpl; unfold payloadJobCount, payloadBytesPending; simpl; try done; try lia.
  - rewrite ok_reserved0. unfold sumZ. lia.
  - intros i. rewrite elem_of_difference, elem_of_singleton, ok_tokens0, elem_of_cons. naive_solver.
  - intros i Hi. apply ok_fresh0. by right.
Qed.

Lemma consume_settled w t T F :
  budget_ok w T F → tok_id t ∉ tok_id <$> T → consume t w = (false, w).
Proof.
  intros [] Hn. unfold consume. rewrite bool_decide_eq_false_2; [done|]. by rewrite ok_tokens0.
Qed.

Lemma budget_ok_reserve w T F est accepts t w' :
  budget_ok w T F → 0 <= est → reservePayload est accepts w = (Some t, w') →
  budget_ok w' (t :: T) F.
Proof.
  intros [] Hest. unfold reservePayload.
  destruct (canAcceptPayload est accepts w) eqn:E; [|done]. simpl. intros [= <- <-].
  assert (payloadJobCount w < PAYLOAD_QUEUE_HARD_CAP ∧
          payloadBytesPending w + est <= PAYLOAD_BYTES_CAP) as [Hj Hb].
  { unfold canAcceptPayload in E. destruct (_ || _); [done|].
    destruct (_ <? est); [done|]. destruct (_ <=? payloadJobCount w) eqn:E1; [done|].
    destruct (_ <? payloadBytesPending w + est) eqn:E2; [done|]. by prop_bools. }
  unfold payloadJobCount, payloadBytesPending in *.
  split; unfold payloadJobCount, payloadBytesPending; csimpl; try done; try lia.
  - intros i. rewrite elem_of_union, elem_of_singleton, ok_tokens0, elem_of_cons. done.
  - constructor; [|done]. intros Hin%ok_fresh0. lia.
  - intros i [->|Hi]%elem_of_cons; [lia|]. apply ok_fresh0 in Hi. lia.
  - by constructor.
Qed.

Lemma budget_ok_publish w T F t e factory p :
  budget_ok w (t :: T) F → 0 <= in_transportBytes e →
  let '(ok, w') := enqueuePayload t e factory p w in
  budget_ok w' T (if ok then e :: F else F).
Proof.
  intros Hok He. apply budget_ok_consume in Hok as (Hc & Hok & Hj). unfold enqueuePayload.
  destruct (consume t w) as [c w1]. simpl in Hc, Hok, Hj. subst c. simpl.
  assert (∀ w2, budget_ok w2 T F → budget_ok (recordPayloadDrop (in_transportBytes e) w2) T F)
    as Hdrop by (intros w2; apply budget_ok_frame; done).
  destruct (_ <? in_transportBytes e); [by apply Hdrop|].
  destruct (disposed w1 || _ || _) eqn:Eg; [by apply Hdrop|].
  apply orb_false_iff in Eg as [Eg Eb]. apply orb_false_iff in Eg as [_ Ec]. prop_bools.
  assert (budget_ok (ensurePayloadWriter factory w1).2 T F ∧
    payloadInFlightCount (ensurePayloadWriter factory w1).2 = payloadInFlightCount w1 ∧
    payloadBytesPending (ensurePayloadWriter factory w1).2 = payloadBytesPending w1 ∧
    payloadReservedCount (ensurePayloadWriter factory w1).2 = payloadReservedCount w1)
    as (Hok2 & E1 & E2 & E3).
  { unfold ensurePayloadWriter. destruct (hasPayloadWriter w1); [done|]. destruct factory; [|done].
    simpl. split; [|done]. by apply (budget_ok_frame w1). }
  destruct (ensurePayloadWriter factory w1) as [there w2]. simpl in Hok2, E1, E2, E3.
  destruct there; [|by apply Hdrop]. simpl.
  assert (∀ b o, budget_ok (add_in_flight (- b) (- o) (-1) (add_in_flight b o 1 w2)) T F)
    as Hundo.
  { intros b o. apply (budget_ok_frame w2); simpl; lia || done. }
  destruct p; [|by apply Hdrop|by apply Hdrop].
  destruct Hok2. unfold payloadJobCount, payloadBytesPending in *.
  split; unfold payloadJobCount, payloadBytesPending; simpl; try done; try lia.
  by constructor.
Qed.

Lemma budget_ok_settle w T F o e :
  budget_ok w T (e :: F) → budget_ok (onPayloadSettled o e w) T F.
Proof.
  intros H. assert (budget_ok (add_in_flight (- in_transportBytes e) (- in_payloadBytes e) (-1) w) T F)
    as H'.
  { destruct H. apply Forall_cons in ok_nonneg_F0 as [He HF].
    unfold payloadJobCount, payloadBytesPending, sumZ in *. simpl in *.
    split; unfold payloadJobCount, payloadBytesPending, sumZ; simpl; try done; lia. }
  unfold onPayloadSettled. destruct o;
    (eapply (budget_ok_frame (add_in_flight (- in_transportBytes e) (- in_payloadBytes e) (-1) w));
     [..|exact H']; done).
Qed.

Lemma budget_run_ok w T F : budget_run w T F → budget_ok w T F.
Proof.
  induction 1 as [|w T F est acc t w' _ IH He H|w T F est acc w' _ IH H|w T F t T' _ IH HT
    |w T F t _ IH Hn|w T F t T' e f p w' _ IH HT He H|w T F t T' e f p w' _ IH HT He H
    |w T F t e f p w' _ IH Hn H|w T F o e F' _ IH HF|w T F n j _ IH|w T F n j _ IH
    |w T F el arr _ IH|w T F _ IH|w T F _ IH|w T F _ IH].
  - split; csimpl; try done; try apply NoDup_nil_2; try apply Forall_nil_2;
      intros i; rewrite elem_of_nil; rewrite ?elem_of_empty; done.
  - by eapply budget_ok_reserve.
  - unfold reservePayload in H. destruct (negb _); [|done]. by injection H as <-.
  - apply (budget_ok_perm _ _ _ _ _ HT (Permutation_refl F)) in IH.
    by destruct (budget_ok_consume _ _ _ _ IH) as (_ & ? & _).
  - unfold release. by rewrite (consume_settled w t T F).
  - apply (budget_ok_perm _ _ _ _ _ HT (Permutation_refl F)) in IH.
    pose proof (budget_ok_publish w T' F t e f p IH He) as Hp. by rewrite H in Hp.
  - apply (budget_ok_perm _ _ _ _ _ HT (Permutation_refl F)) in IH.
    pose proof (budget_ok_publish w T' F t e f p IH He) as Hp. by rewrite H in Hp.
  - unfold enqueuePayload in H. rewrite (consume_settled w t T F) in H by done.
    by injection H as <-.
  - apply (budget_ok_perm _ _ _ _ _ (Permutation_refl T) HF) in IH. by apply budget_ok_settle.
  - unfold enqueue. destruct (_ <=? _); by apply (budget_ok_frame w).
  - unfold enqueueShutdownBatch. destruct (disposed w); by apply (budget_ok_frame w).
  - unfold runTick. destruct (tick_loop _ _ _ _ _). by apply (budget_ok_frame w).
  - by apply (budget_ok_frame w).
  - by apply (budget_ok_frame w).
  - by apply (budget_ok_frame w).
Qed.

(** * Properties *)

(** the payload budget is conserved and never exceeded. In every run of
    reservations, releases, publications (accepted, refused, thrown) and worker reports,
    the reserved bytes and slots are exactly those of the outstanding tokens, the
    in-flight ones exactly those of the published payloads; together they stay within
    100 MiB and 1000 jobs, and none is negative; settling a token again, or publishing
    with a settled token, changes nothing; and once every token is released and every
    payload reported the budget is whole again. *)
Theorem payload_budget w T F :
  budget_run w T F →
  payloadReservedBytes w = sumZ tok_reservedBytes T ∧
  payloadReservedCount w = Z.of_nat (length T) ∧
  payloadInFlightBytes w = sumZ in_transportBytes F ∧
  payloadInFlightCount w = Z.of_nat (length F) ∧
  0 <= payloadBytesPending w <= PAYLOAD_BYTES_CAP ∧
  payloadJobCount w <= PAYLOAD_QUEUE_HARD_CAP ∧
  (∀ t, tok_id t ∉ tok_id <$> T →
     release t w = w ∧ ∀ e f p, enqueuePayload t e f p w = (false, w)) ∧
  (T = [] → F = [] → payloadBytesPending w = 0 ∧ payloadJobCount w = 0 ∧
     payloadInFlightOriginalBytes w = 0).
Proof.
  intros Hr%budget_run_ok. pose proof Hr as [].
  split; [done|]. split; [done|]. split; [done|]. split; [done|]. split.
  { split; [|done]. unfold payloadBytesPending. rewrite ok_reserved0, ok_inflight0.
    pose proof (sumZ_nonneg _ _ ok_nonneg_T0). pose proof (sumZ_nonneg _ _ ok_nonneg_F0). lia. }
  split; [done|]. split.
  - intros t Hn. pose proof (consume_settled w t T F Hr Hn) as Hc. split.
    + unfold release. by rewrite Hc.
    + intros e f p. unfold enqueuePayload. by rewrite Hc.
  - intros -> ->. unfold payloadBytesPending, payloadJobCount.
    rewrite ok_reserved0, ok_inflight0, ok_reserved_count0, ok_inflight_count0, ok_original0. done.
Qed.

Lemma tick_loop_fifo budget i el arr q :
  let '(ran, rest) := tick_loop budget i el arr q in
  ran ++ rest = q ++ concat (arr <$> seq i (length ran)) ∧ (length ran <= budget)%nat.
Proof.
  revert i q. induction budget as [|n IH]; intros i q; simpl; [by rewrite app_nil_r|].
  destruct q as [|j q]; simpl; [by split; [|lia]|].
  destruct (el i <? _); simpl; [|split; [by rewrite app_nil_r|lia]].
  specialize (IH (S i) (q ++ arr i)). destruct (tick_loop n (S i) el arr (q ++ arr i)) as [ran rest].
  destruct IH as [IH1 IH2]. split; [|simpl; lia]. simpl. f_equal. rewrite IH1. by rewrite <-app_assoc.
Qed.

Lemma tick_loop_runs budget el arr q :
  el 0%nat < MAX_DRAIN_MS_PER_TICK → q ≠ [] → (tick_loop (S budget) 0 el arr q).1 ≠ [].
Proof.
  intros He%Z.ltb_lt Hq. destruct q as [|j q]; [done|]. cbn [tick_loop]. rewrite He.
  by destruct (tick_loop _ _ _ _ _).
Qed.

(** the metadata queue is a bounded FIFO. An ordinary enqueue is refused exactly at
    the cap (as the probe says) and counted as a drop, and otherwise goes to the tail; a
    shutdown batch is exempt from the cap until disposal; a tick runs jobs strictly in
    queue order, those enqueued while it runs after those already waiting, at most fifty
    of them, and at least one when there is one and its clock starts at zero. *)
Theorem metadata_fifo w now job elapsed arrivals :
  ((enqueue now job w).1 = canAcceptMetadata w) ∧
  (let '(ok, w') := enqueue now job w in
   if ok then map job_run (metadataQueue w') = map job_run (metadataQueue w) ++ [job] ∧
              metadataDropped w' = metadataDropped w
   else metadataQueue w' = metadataQueue w ∧ metadataDropped w' = metadataDropped w + 1) ∧
  ((enqueueShutdownBatch now job w).1 = negb (disposed w) ∧
   (disposed w = false → map job_run (metadataQueue (enqueueShutdownBatch now job w).2)
                         = map job_run (metadataQueue w) ++ [job])) ∧
  (let '(ran, w') := runTick elapsed arrivals w in
   ran ++ metadataQueue w' = metadataQueue w ++ concat (arrivals <$> seq 0 (length ran)) ∧
   (length ran <= 50)%nat ∧
   (elapsed 0%nat < MAX_DRAIN_MS_PER_TICK → metadataQueue w ≠ [] → ran ≠ [])).
Proof.
  split; [|split; [|split]].
  - unfold enqueue, canAcceptMetadata. rewrite Z.ltb_antisym. by destruct (_ <=? _).
  - unfold enqueue. destruct (_ <=? _); simpl; [done|]. by rewrite map_app.
  - unfold enqueueShutdownBatch. destruct (disposed w); simpl; [done|]. split; [done|].
    intros _. by rewrite map_app.
  - unfold runTick. pose proof (tick_loop_fifo MAX_JOBS_PER_TICK 0 elapsed arrivals (metadataQueue w)) as H.
    pose proof (tick_loop_runs 49 elapsed arrivals (metadataQueue w)) as Hp.
    change (S 49) with MAX_JOBS_PER_TICK in Hp.
    destruct (tick_loop _ _ _ _ _) as [ran rest]. destruct H. done.
Qed.

(** A tick while nothing arrives *)
Lemma metadata_tick w el :
  let '(ran, w') := runTick el (λ _, []) w in
  ran ++ metadataQueue w' = metadataQueue w ∧
  (el 0%nat < MAX_DRAIN_MS_PER_TICK → metadataQueue w ≠ [] → ran ≠ []).
Proof.
  unfold runTick.
  pose proof (tick_loop_fifo MAX_JOBS_PER_TICK 0 el (λ _, []) (metadataQueue w)) as H.
  pose proof (tick_loop_runs 49 el (λ _, []) (metadataQueue w)) as Hp.
  change (S 49) with MAX_JOBS_PER_TICK in Hp.
  destruct (tick_loop _ _ _ _ _) as [ran rest]. destruct H as [H _]. split; [|done]. simpl. rewrite H.
  replace (concat _) with (@nil MetadataJob); [by rewrite app_nil_r|].
  generalize (seq 0 (length ran)). intros l. by induction l.
Qed.

Lemma drain_all ticks el w :
  (∀ n, el n 0%nat < MAX_DRAIN_MS_PER_TICK) → (length (metadataQueue w) <= ticks)%nat →
  (drain ticks el w).1 = metadataQueue w ∧ metadataQueue (drain ticks el w).2 = [].
Proof.
  intros He. revert w. induction ticks as [|n IH]; intros w Hl; simpl.
  { by destruct (metadataQueue w); simpl in Hl; [|lia]. }
  destruct (metadataQueue w) as [|j q] eqn:Eq; [done|].
  pose proof (metadata_tick w (el n)) as Ht. destruct (runTick (el n) (λ _, []) w) as [ran w1].
  destruct Ht as (Hcat & Hne). rewrite Eq in Hcat. specialize (Hne (He n)).
  assert (ran ≠ []) as Hr by (apply Hne; by rewrite Eq).
  assert (length (metadataQueue w1) <= n)%nat as Hl1.
  { apply (f_equal length) in Hcat. rewrite length_app in Hcat. simpl in *.
    destruct ran; [done|]. simpl in Hcat. lia. }
  destruct (IH w1 Hl1) as [H1 H2]. destruct (drain n el w1) as [ran' w2]. simpl in *.
  split; [|done]. by rewrite H1.
Qed.

(** disposal drains the queue. With nothing new arriving, as many ticks as there are
    jobs are enough, whatever the clocks of the ticks do after their start: the drain
    runs every queued job, in order, and leaves the queue empty. *)
Theorem drain_completes el w :
  (∀ n, el n 0%nat < MAX_DRAIN_MS_PER_TICK) →
  let '(ran, w') := drain (length (metadataQueue w)) el (beginDispose w) in
  ran = metadataQueue w ∧ metadataQueue w' = [] ∧
  (∀ est acc, (reservePayload est acc (beginDispose w)).1 = None).
Proof.
  intros He. destruct (drain_all (length (metadataQueue w)) el (beginDispose w) He) as [H1 H2]; [done|].
  destruct (drain _ _ _) as [ran w']. simpl in *. split; [done|]. split; [done|].
  intros est acc. unfold reservePayload, canAcceptPayload. simpl. by rewrite orb_true_r.
Qed.

(** * Witnesses *)

Lemma payload_budget_witness :
  let w := (reservePayload 100 true writer_init).2 in
  let t := {| tok_id := 0; tok_reservedBytes := 100 |} in
  payloadReservedBytes w = 100 ∧ release t (release t w) = release t w ∧
  payloadBytesPending (release t w) = 0.
Proof.
  pose proof (run_reserve writer_init [] [] 100 true {| tok_id := 0; tok_reservedBytes := 100 |}
    (reservePayload 100 true writer_init).2 run_start ltac:(lia) eq_refl) as H.
  pose proof (payload_budget _ _ _ H) as (H1 & _).
  pose proof (run_release _ _ _ _ [] H (Permutation_refl _)) as H'.
  pose proof (payload_budget _ _ _ H') as (_ & _ & _ & _ & _ & _ & Hs & Hz).
  split; [exact H1|]. split.
  - apply Hs. intros Hin. inversion Hin.
  - by apply Hz.
Defined.

Lemma drain_completes_witness :
  let w := (enqueue 5 1 (enqueue 5 0 writer_init).2).2 in
  (drain 2 (λ _ i, 300 * Z.of_nat i) (beginDispose w)).1
  = [ {| job_enqueuedAt := 5; job_run := 0 |}; {| job_enqueuedAt := 5; job_run := 1 |} ].
Proof.
  pose proof (drain_completes (λ _ i, 300 * Z.of_nat i)
    (enqueue 5 1 (enqueue 5 0 writer_init).2).2 ltac:(intros n; reflexivity)) as H.
  cbv zeta. vm_compute in H. vm_compute. apply H.
Defined.
