(* ===== verification/StableSort.v ===== *)
(** [Array.prototype.sort] with a comparator, which ECMAScript requires to be stable:
    [stable_sort leb] for the test [leb x y] that says the comparator of [x] and [y] is not
    positive. For a consistent comparator (a total preorder) the stable sorted permutation
    is unique, so insertion sort stands for whatever algorithm the engine runs. *)

From S2P Require Import Prelude.
From stdpp Require Export sorting.

Section stable_sort.
Context {A : Type} (leb : A → A → bool).

Fixpoint sort_insert (x : A) (l : list A) : list A :=
  match l with
  | [] => [x]
  | y :: l' => if leb x y then x :: l else y :: sort_insert x l'
  end.

Definition stable_sort (l : list A) : list A := foldr sort_insert [] l.

Lemma sort_insert_perm x l : sort_insert x l ≡ₚ x :: l.
Proof.
  induction l as [|y l IH]; simpl; [done|]. destruct (leb x y); [done|].
  rewrite IH. apply Permutation_swap.
Qed.

Lemma stable_sort_perm l : stable_sort l ≡ₚ l.
Proof. induction l as [|x l IH]; simpl; [done|]. by rewrite sort_insert_perm, IH. Qed.

Lemma elem_of_stable_sort x l : x ∈ stable_sort l ↔ x ∈ l.
Proof. by rewrite stable_sort_perm. Qed.

Lemma stable_sort_nil l : stable_sort l = [] ↔ l = [].
Proof.
  split; [|by intros ->]. intros H. apply Permutation_nil_r. by rewrite <-(stable_sort_perm l), H.
Qed.

Lemma length_stable_sort l : length (stable_sort l) = length l.
Proof. apply Permutation_length, stable_sort_perm. Qed.

(** A total preorder, what a consistent comparator is. *)
Class TotalPreorder : Prop := {
  leb_total : ∀ x y, leb x y = true ∨ leb y x = true;
  leb_trans : ∀ x y z, leb x y = true → leb y z = true → leb x z = true
}.

Context `{!TotalPreorder}.

Lemma leb_refl x : leb x x = true.
Proof. by destruct (leb_total x x). Qed.

Lemma leb_flip x y : leb x y = false → leb y x = true.
Proof. destruct (leb_total x y); congruence. Qed.

Lemma sort_insert_sorted x l : StronglySorted (λ x y, leb x y = true) l → StronglySorted (λ x y, leb x y = true) (sort_insert x l).
Proof.
  induction 1 as [|y l Hs IH Hy]; simpl.
  { repeat constructor. }
  destruct (leb x y) eqn:E.
  - constructor; [by constructor|]. constructor; [done|].
    eapply Forall_impl; [exact Hy|]. intros z Hz. by eapply leb_trans.
  - constructor; [done|]. rewrite sort_insert_perm. constructor; [by apply leb_flip|done].
Qed.

Lemma stable_sort_sorted l : StronglySorted (λ x y, leb x y = true) (stable_sort l).
Proof. induction l; simpl; [constructor|by apply sort_insert_sorted]. Qed.

Lemma stable_sort_head l x rest :
  stable_sort l = x :: rest → x ∈ l ∧ ∀ y, y ∈ l → leb x y = true.
Proof.
  intros E. split; [rewrite <-elem_of_stable_sort, E; by left|].
  intros y Hy. rewrite <-elem_of_stable_sort, E in Hy.
  pose proof (stable_sort_sorted l) as Hs. rewrite E in Hs.
  apply StronglySorted_inv in Hs as [_ Hf]. apply elem_of_cons in Hy as [->|Hy]; [apply leb_refl|].
  by eapply Forall_forall in Hf.
Qed.

(** Sorting a sorted list again does nothing. *)
Lemma sort_insert_least x l : Forall (λ y, leb x y = true) l → sort_insert x l = x :: l.
Proof. destruct 1; simpl; [done|]. by destruct (leb x x0). Qed.

Lemma stable_sort_id l : StronglySorted (λ x y, leb x y = true) l → stable_sort l = l.
Proof. induction 1 as [|x l _ IH Hx]; simpl; [done|]. by rewrite IH, sort_insert_least. Qed.

(** Stability: elements the comparator does not separate keep their order. *)
Definition tied (x y : A) : bool := leb x y && leb y x.

Lemma sort_insert_stable z x l :
  StronglySorted (λ x y, leb x y = true) l →
  filter (λ y, tied z y = true) (sort_insert x l) = filter (λ y, tied z y = true) (x :: l).
Proof.
  induction 1 as [|y l Hs IH Hy]; [done|]. cbn [sort_insert].
  destruct (leb x y) eqn:E; [done|]. rewrite !filter_cons, IH, filter_cons.
  destruct (decide (tied z x = true)) as [Hx|Hx], (decide (tied z y = true)) as [Hz|Hz]; try done.
  exfalso. unfold tied in *. apply andb_true_iff in Hx as [H1 H2], Hz as [H3 H4].
  enough (leb x y = true) by congruence. by eapply leb_trans.
Qed.

Lemma stable_sort_stable z l :
  filter (λ y, tied z y = true) (stable_sort l) = filter (λ y, tied z y = true) l.
Proof.
  induction l as [|x l IH]; [done|]. cbn [stable_sort foldr]. fold (stable_sort l).
  rewrite sort_insert_stable by apply stable_sort_sorted. rewrite !filter_cons. by rewrite IH.
Qed.
End stable_sort.

Arguments stable_sort {A} leb l : simpl never.

(** Comparators that agree on the list sort it alike. *)
Lemma sort_insert_ext {A} (leb leb' : A → A → bool) x l :
  (∀ y, y ∈ l → leb x y = leb' x y) → sort_insert leb x l = sort_insert leb' x l.
Proof.
  induction l as [|y l IH]; intros H; simpl; [done|].
  rewrite (H y) by (by left). destruct (leb' x y); [done|]. f_equal. apply IH.
  intros z Hz. apply H. by right.
Qed.

Lemma stable_sort_ext {A} (leb leb' : A → A → bool) l :
  (∀ x y, x ∈ l → y ∈ l → leb x y = leb' x y) → stable_sort leb l = stable_sort leb' l.
Proof.
  induction l as [|x l IH]; intros H; [done|].
  change (sort_insert leb x (stable_sort leb l) = sort_insert leb' x (stable_sort leb' l)).
  rewrite <-IH.
  - apply sort_insert_ext. intros y Hy%elem_of_stable_sort. apply H; [by left|by right].
  - intros y z Hy Hz. apply H; by right.
Qed.

(** Sorting commutes with a map that respects the comparators. *)
Lemma stable_sort_fmap {A B} (f : A → B) (leb : A → A → bool) (leb' : B → B → bool) l :
  (∀ x y, leb' (f x) (f y) = leb x y) → stable_sort leb' (f <$> l) = f <$> stable_sort leb l.
Proof.
  intros H. unfold stable_sort. induction l as [|x l IH]; csimpl; [done|]. rewrite IH.
  generalize (foldr (sort_insert leb) [] l). intros k. induction k as [|y k IHk]; csimpl; [done|].
  rewrite H. destruct (leb x y); csimpl; [done|]. by rewrite IHk.
Qed.

(** * Comparators

    [if (k(x) !== k(y)) return k(x) - k(y)] and then the next key: the lexicographic
    composition of the comparisons of the keys. *)

Definition then_compare (c d : comparison) : comparison :=
  match c with Eq => d | _ => c end.

Definition not_gt (c : comparison) : bool := match c with Gt => false | _ => true end.

(** Comparison functions that order: antisymmetric and transitive in each outcome. *)
Class Comparator {A} (cmp : A → A → comparison) : Prop := {
  cmp_opp : ∀ x y, cmp y x = CompOpp (cmp x y);
  cmp_eq_l : ∀ x y z, cmp x y = Eq → cmp x z = cmp y z;
  cmp_lt_trans : ∀ x y z, cmp x y = Lt → cmp y z = Lt → cmp x z = Lt
}.

#[export] Instance comparator_preorder {A} (cmp : A → A → comparison) `{!Comparator cmp} :
  TotalPreorder (λ x y, not_gt (cmp x y)).
Proof.
  split.
  - intros x y. rewrite (cmp_opp x y). destruct (cmp x y); simpl; auto.
  - intros x y z. destruct (cmp x y) eqn:E1; simpl; [|intros _|done].
    + by rewrite (cmp_eq_l _ _ z E1).
    + destruct (cmp y z) eqn:E2; simpl; [intros _|intros _|done].
      * assert (cmp z x = Gt) as Hzx; [|by rewrite (cmp_opp z x), Hzx].
        assert (cmp z y = Eq) as Hzy by (by rewrite (cmp_opp y z), E2).
        rewrite (cmp_eq_l _ _ x Hzy). by rewrite (cmp_opp x y), E1.
      * by rewrite (cmp_lt_trans _ _ _ E1 E2).
Qed.

#[export] Instance comparator_Z : Comparator Z.compare.
Proof.
  split.
  - intros x y. apply Z.compare_antisym.
  - intros x y z ->%Z.compare_eq_iff. done.
  - intros x y z. rewrite !Z.compare_lt_iff. lia.
Qed.

(** Comparing images under a key. *)
#[export] Instance comparator_key {A B} (k : A → B) (cmp : B → B → comparison) `{!Comparator cmp} :
  Comparator (λ x y, cmp (k x) (k y)).
Proof.
  split.
  - intros x y. apply cmp_opp.
  - intros x y z. apply cmp_eq_l.
  - intros x y z. apply cmp_lt_trans.
Qed.

(** The reversed order. *)
#[export] Instance comparator_flip {A} (cmp : A → A → comparison) `{!Comparator cmp} :
  Comparator (λ x y, cmp y x) | 10.
Proof.
  split.
  - intros x y. apply cmp_opp.
  - intros x y z H. rewrite (cmp_opp x z), (cmp_opp y z). f_equal. apply cmp_eq_l.
    by rewrite (cmp_opp y x), H.
  - intros x y z H1 H2. by apply (cmp_lt_trans z y x).
Qed.

(** A first comparison, then one that may depend on what the first one ties. *)
Lemma comparator_then_on {A} (c : A → A → comparison) (d : A → A → comparison) `{!Comparator c} :
  (∀ x y, c x y = Eq → d y x = CompOpp (d x y)) →
  (∀ x y z, c x y = Eq → c x z = Eq → d x y = Eq → d x z = d y z) →
  (∀ x y z, c x y = Eq → c x z = Eq → d x y = Lt → d y z = Lt → d x z = Lt) →
  Comparator (λ x y, then_compare (c x y) (d x y)).
Proof.
  intros Ho He Ht. split.
  - intros x y. rewrite (cmp_opp x y). destruct (c x y) eqn:E; simpl; [by apply Ho|done|done].
  - intros x y z. destruct (c x y) eqn:E; simpl; [|done|done]. intros Hd.
    rewrite (cmp_eq_l _ _ z E). destruct (c y z) eqn:E2; simpl; [|done|done].
    apply He; [done| |done]. by rewrite (cmp_eq_l _ _ z E).
  - intros x y z. destruct (c x y) eqn:E1; simpl; [| |done].
    + intros Hd. rewrite (cmp_eq_l _ _ z E1). destruct (c y z) eqn:E2; simpl; [|done|done].
      apply Ht; [done| |done]. by rewrite (cmp_eq_l _ _ z E1).
    + intros _. destruct (c y z) eqn:E2; simpl; [intros _|intros _|done].
      * assert (c z x = Gt) as Hzx; [|by rewrite (cmp_opp z x), Hzx].
        assert (c z y = Eq) as Hzy by (by rewrite (cmp_opp y z), E2).
        rewrite (cmp_eq_l _ _ x Hzy). by rewrite (cmp_opp x y), E1.
      * by rewrite (cmp_lt_trans _ _ _ E1 E2).
Qed.

#[export] Instance comparator_then {A} (c d : A → A → comparison)
  `{!Comparator c, !Comparator d} : Comparator (λ x y, then_compare (c x y) (d x y)).
Proof.
  apply (comparator_then_on c d); intros.
  - apply cmp_opp.
  - by apply cmp_eq_l.
  - by eapply cmp_lt_trans.
Qed.
