(* ===== verification/TokenManager.v ===== *)
(** Refreshing access tokens: [packages/proxy/src/handlers/token-manager.ts].

    The module keeps failures, backoff counters and very recent refreshes by account; the
    server keeps the refreshes in flight, and requests share in-memory account objects with
    pollers. A call of [refreshAccessTokenSafe] (a [caller]), the refresh it may start (a
    [promise]) and a flush of the pending-rotation registry (a [flush_task]) each stop at
    every [await]: their program counter names the await, and the steps of all of them
    interleave freely. An awaited statement runs ([TAnswer]) and is continued later
    ([TContinue]); the awaits of an async function that has already returned are steps too.
    The provider's answer to an exchange is an event ([TExchange]). Log lines and the texts
    of error messages are left out. So are the refreshes that proactive-token-refresh.ts
    starts on a timer: it calls the provider itself and registers its promise in the same
    [refreshInFlight], which it tests before an await and sets after it; no step of this
    machine stands for them. *)

From S2P Require Import Prelude Accounts AccountRepo Rotation StableSort.
Open Scope Z_scope.

Definition TOKEN_SAFETY_WINDOW_MS : Z := 30 * 60 * 1000.
Definition TOKEN_REFRESH_BACKOFF_MS : Z := 60000.
Definition FAILURE_TTL_MS : Z := 5 * 60 * 1000.
Definition MAX_FAILURE_RECORDS : Z := 1000.
Definition MAX_BACKOFF_RETRIES : Z := 10.
Definition REFRESH_COALESCE_WINDOW_MS : Z := 10000.
Definition RECENT_REFRESH_MIN_HEADROOM_MS : Z := 60000.

Definition INVALID_GRANT_MARKERS : list string :=
  ["invalid_grant"; "invalid_refresh_token"; "refresh_token_reused";
   "refresh token not found or invalid";
   "oauth authentication is currently not supported"]%string.

Definition isInvalidGrantMessage (message : string) : bool :=
  existsb (includes (toLowerCase message)) INVALID_GRANT_MARKERS.

Definition OAUTH_REACTIVE_REFRESH_PROVIDERS : list string :=
  ["anthropic"; "claude-oauth"; "codex"; "grok-subscription"]%string.

Definition canAttemptStaleTokenRefresh (account : Account) : bool :=
  bool_decide (is_Some (truthy_string (acc_refresh_token account)))
  && bool_decide (acc_provider account ∈ OAUTH_REACTIVE_REFRESH_PROVIDERS).

(** * The state of the module and of the server *)

Record RecentRefresh := { rr_accessToken : string; rr_expiresAt : Z; rr_at : Z }.

Record caches := {
  refreshFailures : jmap string Z;
  backoffCounters : jmap string Z;
  recentRefreshes : jmap string RecentRefresh
}.

Definition caches_init : caches :=
  {| refreshFailures := ∅; backoffCounters := ∅; recentRefreshes := ∅ |}.

(** [TokenRefreshResult] *)
Record TokenRefreshResult := {
  res_accessToken : string;
  res_expiresAt : Z;
  res_refreshToken : option string;
  res_refreshTokenExpiresAt : option Z;
  res_identity : option AccountIdentity
}.

(** What the provider throws: an [OAuthRefreshTokenError] or some other error *)
Record refresh_error := { err_typed : bool; err_message : string }.

Definition isInvalidGrant (e : refresh_error) : bool :=
  err_typed e || isInvalidGrantMessage (err_message e).

(** The errors a call ends in *)
Inductive failure : Type :=
  | AccountDisabled
  | ReadFailed
  | InBackoff
  | RefreshNotFound
  | TokenRefreshError (invalidGrant : bool).

Inductive outcome : Type := Token (t : string) | Failed (e : failure).

(** The answer to an awaited request *)
Inductive reply (A : Type) : Type := waiting | threw | answered (a : A).
Arguments waiting {A}.
Arguments threw {A}.
Arguments answered {A} a.

(** * In-memory accounts *)

Definition acc_refresh_token_issued_at (a : Account) : option Z :=
  prof_refresh_token_issued_at (acc_profile a).

Definition set_profile_stamps (issuedAt lastUsed : option Z) (p : AccountProfile)
    : AccountProfile :=
  {| prof_api_key := prof_api_key p; prof_created_at := prof_created_at p;
     prof_last_used := lastUsed; prof_request_count := prof_request_count p;
     prof_total_requests := prof_total_requests p;
     prof_auto_refresh_enabled := prof_auto_refresh_enabled p;
     prof_peak_hours_pause_enabled := prof_peak_hours_pause_enabled p;
     prof_codex_auto_apply_reset_credits_enabled :=
       prof_codex_auto_apply_reset_credits_enabled p;
     prof_codex_auto_apply_reset_on_weekly_limit_enabled :=
       prof_codex_auto_apply_reset_on_weekly_limit_enabled p;
     prof_codex_fast_mode_enabled := prof_codex_fast_mode_enabled p;
     prof_anthropic_auto_apply_banked_resets_enabled :=
       prof_anthropic_auto_apply_banked_resets_enabled p;
     prof_anthropic_auto_apply_banked_reset_on_weekly_limit_enabled :=
       prof_anthropic_auto_apply_banked_reset_on_weekly_limit_enabled p;
     prof_billing_type := prof_billing_type p; prof_notes := prof_notes p;
     prof_refresh_token_issued_at := issuedAt;
     prof_refresh_token_expires_at := prof_refresh_token_expires_at p;
     prof_renewal := prof_renewal p; prof_identity := prof_identity p;
     prof_subscription := prof_subscription p;
     prof_identity_captured_at := prof_identity_captured_at p;
     prof_identity_profile_fetched_at := prof_identity_profile_fetched_at p |}.

Definition set_credentials (refresh access : option string) (expires issuedAt lastUsed : option Z)
    (a : Account) : Account :=
  {| acc_id := acc_id a; acc_name := acc_name a; acc_provider := acc_provider a;
     acc_refresh_token := refresh; acc_access_token := access; acc_expires_at := expires;
     acc_session_start := acc_session_start a;
     acc_session_request_count := acc_session_request_count a;
     acc_paused := acc_paused a; acc_disabled := acc_disabled a;
     acc_pause_reason := acc_pause_reason a; acc_priority := acc_priority a;
     acc_auto_fallback_enabled := acc_auto_fallback_enabled a;
     acc_auto_pause_on_overage_enabled := acc_auto_pause_on_overage_enabled a;
     acc_custom_endpoint := acc_custom_endpoint a;
     acc_rate_limited_until := acc_rate_limited_until a;
     acc_rate_limited_reason := acc_rate_limited_reason a;
     acc_rate_limited_at := acc_rate_limited_at a;
     acc_consecutive_rate_limits := acc_consecutive_rate_limits a;
     acc_rate_limit_status := acc_rate_limit_status a;
     acc_rate_limit_reset := acc_rate_limit_reset a;
     acc_rate_limit_remaining := acc_rate_limit_remaining a;
     acc_profile := set_profile_stamps issuedAt lastUsed (acc_profile a) |}.

(** [account.access_token = t; account.expires_at = e] *)
Definition set_access (t : string) (e : option Z) (a : Account) : Account :=
  set_credentials (acc_refresh_token a) (Some t) e (acc_refresh_token_issued_at a)
    (prof_last_used (acc_profile a)) a.
(** [account.refresh_token = t; account.refresh_token_issued_at = s] *)
Definition set_refresh (t : option string) (s : option Z) (a : Account) : Account :=
  set_credentials t (acc_access_token a) (acc_expires_at a) s (prof_last_used (acc_profile a)) a.
Definition set_last_used (now : Z) (a : Account) : Account :=
  set_credentials (acc_refresh_token a) (acc_access_token a) (acc_expires_at a)
    (acc_refresh_token_issued_at a) (Some now) a.

(** The row's access token and expiry, when they are still worth serving *)
Definition servable_row (row : Account) (now : Z) : option (string * Z) :=
  match acc_access_token row, acc_expires_at row with
  | Some t, Some e => if TOKEN_SAFETY_WINDOW_MS <? e - now then Some (t, e) else None
  | _, _ => None
  end.

(** [adoptAuthoritativeAccountTokens] once the row has been read: the account and the
    token adopted *)
Definition adoptAuthoritativeAccountTokens (row : reply (option Account)) (now : Z) (a : Account)
    : Account * option string :=
  match row with
  | answered (Some r) =>
      let a := match truthy_string (acc_refresh_token r) with
               | Some _ => set_refresh (acc_refresh_token r) (acc_refresh_token_issued_at r) a
               | None => a
               end in
      match servable_row r now with
      | Some (t, e) => (set_access t (Some e) a, Some t)
      | None => (a, None)
      end
  | _ => (a, None)
  end.

Definition isPendingAccessTokenServable (e : PendingRotation) (now : Z) : bool :=
  TOKEN_SAFETY_WINDOW_MS <? pr_expiresAt e - now.

Definition installPendingRefreshGeneration (e : PendingRotation) (a : Account) : Account :=
  set_refresh (match truthy_string (pr_refreshToken e) with
               | Some t => Some t
               | None => acc_refresh_token a
               end) (Some (pr_recordedAt e)) a.

Definition installPendingRotationCredentials (e : PendingRotation) (a : Account) : Account :=
  installPendingRefreshGeneration e
    (set_access (pr_accessToken e) (Some (pr_expiresAt e)) a).

(** * The caches *)

Definition recordRecentRefresh (id accessToken : string) (expiresAt now : Z) (c : caches)
    : caches :=
  {| refreshFailures := refreshFailures c; backoffCounters := backoffCounters c;
     recentRefreshes :=
       <[id := {| rr_accessToken := accessToken; rr_expiresAt := expiresAt; rr_at := now |}]>
         (recentRefreshes c) |}.

Definition getCoalescibleRecentRefresh (id : string) (current : option string) (now : Z)
    (c : caches) : option (string * Z) :=
  match recentRefreshes c !! id with
  | Some r =>
      if (now - rr_at r <? REFRESH_COALESCE_WINDOW_MS)
         && (RECENT_REFRESH_MIN_HEADROOM_MS <? rr_expiresAt r - now)
         && negb (bool_decide (Some (rr_accessToken r) = current))
      then Some (rr_accessToken r, rr_expiresAt r) else None
  | None => None
  end.

Definition set_failures (f b : jmap string Z) (c : caches) : caches :=
  {| refreshFailures := f; backoffCounters := b; recentRefreshes := recentRefreshes c |}.

(** [refreshFailures.delete(id)] *)
Definition forget_failure (id : string) (c : caches) : caches :=
  set_failures (delete id (refreshFailures c)) (backoffCounters c) c.
(** [refreshFailures.delete(id); backoffCounters.delete(id)] *)
Definition forget_backoff (id : string) (c : caches) : caches :=
  set_failures (delete id (refreshFailures c)) (delete id (backoffCounters c)) c.
(** [recentRefreshes.delete(id)] *)
Definition forget_recent (id : string) (c : caches) : caches :=
  {| refreshFailures := refreshFailures c; backoffCounters := backoffCounters c;
     recentRefreshes := delete id (recentRefreshes c) |}.

Definition cleanupExpiredFailures (now : Z) (c : caches) : caches :=
  let expired := (filter (λ kt : string * Z, FAILURE_TTL_MS < now - kt.2)
                    (entries (refreshFailures c))).*1 in
  let stale := (filter (λ kr : string * RecentRefresh,
                          REFRESH_COALESCE_WINDOW_MS < now - rr_at kr.2)
                  (entries (recentRefreshes c))).*1 in
  {| refreshFailures := foldl (λ m k, delete k m) (refreshFailures c) expired;
     backoffCounters := foldl (λ m k, delete k m) (backoffCounters c) expired;
     recentRefreshes := foldl (λ m k, delete k m) (recentRefreshes c) stale |}.

Definition enforceMaxSize (c : caches) : caches :=
  let size := jsize (refreshFailures c) in
  if MAX_FAILURE_RECORDS <? size then
    let oldest := take (Z.to_nat (size - MAX_FAILURE_RECORDS + 1))
                    (stable_sort (λ x y : string * Z, x.2 <=? y.2)
                       (entries (refreshFailures c))) in
    set_failures (foldl (λ m kt, delete kt.1 m) (refreshFailures c) oldest)
                 (foldl (λ m kt, delete kt.1 m) (backoffCounters c) oldest) c
  else c.

(** The periodic cleanup *)
Definition cleanup_tick (now : Z) (c : caches) : caches :=
  enforceMaxSize (cleanupExpiredFailures now c).

(** * Awaits *)

(** What the handlers of a refresh carry across their awaits: the provider's result, the
    mint stamp and the pending rotation as it was then *)
Record persist_ctx := {
  px_result : TokenRefreshResult;
  px_mintedAt : Z;
  px_pending : option PendingRotation
}.

(** [OwnFlushedRotationRetry] *)
Inductive retry_outcome : Type :=
  | RetryPersisted | RetrySuperseded | RetryFailed | RetryNotOurs.

Inductive promise_pc : Type :=
  | PExchange (r : option TokenRefreshResult)
  | PRejected (e : refresh_error)
  | PPersist (x : persist_ctx) (r : reply bool)
  | PRetryRead (x : persist_ctx) (r : reply (option Account))
  | PRetryWrite (x : persist_ctx) (r : reply bool)
  | PRetried (x : persist_ctx) (o : retry_outcome)
  | PAdopt (x : persist_ctx) (r : reply (option Account))
  | PAdopted (x : persist_ctx) (t : option string)
  | PPause (key : option string) (r : reply bool)
  | PPaused (invalidGrant paused : bool)
  | PFinally (o : outcome)
  | PSettled (o : outcome).

(** A refresh: the account object it works on, the refresh token it exchanges *)
Record promise := {
  p_id : string;
  p_object : Z;
  p_exchanged : option string;
  p_pc : promise_pc
}.

Definition set_promise_pc (pc : promise_pc) (p : promise) : promise :=
  {| p_id := p_id p; p_object := p_object p; p_exchanged := p_exchanged p; p_pc := pc |}.

Definition persistAnchor (p : promise) (x : persist_ctx) : option string :=
  match px_pending x with
  | Some e => Some (pr_attemptedRefreshToken e)
  | None => p_exchanged p
  end.

Definition effectiveRefreshToken (x : persist_ctx) : option string :=
  match res_refreshToken (px_result x) with
  | Some t => Some t
  | None => px_pending x ≫= pr_refreshToken
  end.

Definition effectiveRefreshTokenExpiresAt (x : persist_ctx) : option Z :=
  refreshTokenDeadlineFor (effectiveRefreshToken x) (res_refreshToken (px_result x))
    (res_refreshTokenExpiresAt (px_result x)) (px_pending x).

(** The token a flush of the pending entry writes *)
Definition pendingWrittenToken (x : persist_ctx) : option string :=
  written_token <$> px_pending x.

(** The rotation recorded when the write failed *)
Definition unpersisted (anchor : string) (x : persist_ctx) : Rotation :=
  {| rot_accessToken := res_accessToken (px_result x);
     rot_expiresAt := res_expiresAt (px_result x);
     rot_refreshToken := effectiveRefreshToken x;
     rot_refreshTokenExpiresAt := effectiveRefreshTokenExpiresAt x;
     rot_identity := res_identity (px_result x);
     rot_attemptedRefreshToken := anchor |}.

(** Where a call joins a refresh in flight: at its start, after the re-read, at its end *)
Inductive join_stage : Type := JoinFirst | JoinAfterAdopt | JoinFinal.

Inductive caller_pc : Type :=
  | CCheck (r : reply (option Account))
  | CJoin (g : join_stage) (p : Z)
  | CNoJoin (g : join_stage)
  | CJoinSync (joined : string) (r : reply (option Account))
  | CJoinSynced (joined : string) (adopted : option string)
  | CBackoffRead (r : reply (option Account))
  | CFlushWrite (e : PendingRotation) (r : reply bool)
  | CFlushed (o : FlushOutcome)
  | CReread (r : reply (option Account))
  | CAdopted (t : option string)
  | CDone (o : outcome).

Record caller := { c_id : string; c_object : Z; c_pc : caller_pc }.

Definition set_caller_pc (pc : caller_pc) (c : caller) : caller :=
  {| c_id := c_id c; c_object := c_object c; c_pc := pc |}.

(** A flush of the registry by another touchpoint, the retry sweep for one *)
Record flush_task := { f_id : string; f_entry : PendingRotation; f_reply : reply bool }.

(** * The machine *)

Record tm := {
  tm_caches : caches;
  refreshInFlight : jmap string Z;
  tm_registry : registry;
  tm_db : database;
  tm_objects : gmap Z Account;
  tm_promises : gmap Z promise;
  tm_callers : gmap Z caller;
  tm_flushes : gmap Z flush_task;
  tm_nextPromise : Z
}.

Definition set_caches (c : caches) (s : tm) : tm :=
  {| tm_caches := c; refreshInFlight := refreshInFlight s; tm_registry := tm_registry s;
     tm_db := tm_db s; tm_objects := tm_objects s; tm_promises := tm_promises s;
     tm_callers := tm_callers s; tm_flushes := tm_flushes s;
     tm_nextPromise := tm_nextPromise s |}.
Definition set_inflight (m : jmap string Z) (s : tm) : tm :=
  {| tm_caches := tm_caches s; refreshInFlight := m; tm_registry := tm_registry s;
     tm_db := tm_db s; tm_objects := tm_objects s; tm_promises := tm_promises s;
     tm_callers := tm_callers s; tm_flushes := tm_flushes s;
     tm_nextPromise := tm_nextPromise s |}.
Definition set_registry (r : registry) (s : tm) : tm :=
  {| tm_caches := tm_caches s; refreshInFlight := refreshInFlight s; tm_registry := r;
     tm_db := tm_db s; tm_objects := tm_objects s; tm_promises := tm_promises s;
     tm_callers := tm_callers s; tm_flushes := tm_flushes s;
     tm_nextPromise := tm_nextPromise s |}.
Definition set_db (d : database) (s : tm) : tm :=
  {| tm_caches := tm_caches s; refreshInFlight := refreshInFlight s;
     tm_registry := tm_registry s; tm_db := d; tm_objects := tm_objects s;
     tm_promises := tm_promises s; tm_callers := tm_callers s; tm_flushes := tm_flushes s;
     tm_nextPromise := tm_nextPromise s |}.
Definition set_objects (o : gmap Z Account) (s : tm) : tm :=
  {| tm_caches := tm_caches s; refreshInFlight := refreshInFlight s;
     tm_registry := tm_registry s; tm_db := tm_db s; tm_objects := o;
     tm_promises := tm_promises s; tm_callers := tm_callers s; tm_flushes := tm_flushes s;
     tm_nextPromise := tm_nextPromise s |}.
Definition set_promises (m : gmap Z promise) (s : tm) : tm :=
  {| tm_caches := tm_caches s; refreshInFlight := refreshInFlight s;
     tm_registry := tm_registry s; tm_db := tm_db s; tm_objects := tm_objects s;
     tm_promises := m; tm_callers := tm_callers s; tm_flushes := tm_flushes s;
     tm_nextPromise := tm_nextPromise s |}.
Definition set_callers (m : gmap Z caller) (s : tm) : tm :=
  {| tm_caches := tm_caches s; refreshInFlight := refreshInFlight s;
     tm_registry := tm_registry s; tm_db := tm_db s; tm_objects := tm_objects s;
     tm_promises := tm_promises s; tm_callers := m; tm_flushes := tm_flushes s;
     tm_nextPromise := tm_nextPromise s |}.
Definition set_flushes (m : gmap Z flush_task) (s : tm) : tm :=
  {| tm_caches := tm_caches s; refreshInFlight := refreshInFlight s;
     tm_registry := tm_registry s; tm_db := tm_db s; tm_objects := tm_objects s;
     tm_promises := tm_promises s; tm_callers := tm_callers s; tm_flushes := m;
     tm_nextPromise := tm_nextPromise s |}.

Definition on_caches (f : caches → caches) (s : tm) : tm := set_caches (f (tm_caches s)) s.
Definition on_registry (f : registry → registry) (s : tm) : tm :=
  set_registry (f (tm_registry s)) s.
Definition on_object (o : Z) (f : Account → Account) (s : tm) : tm :=
  set_objects (alter f o (tm_objects s)) s.

(** The pc of a task *)
Definition goto_promise (k : Z) (pc : promise_pc) (s : tm) : tm :=
  set_promises (alter (set_promise_pc pc) k (tm_promises s)) s.
Definition goto_caller (k : Z) (pc : caller_pc) (s : tm) : tm :=
  set_callers (alter (set_caller_pc pc) k (tm_callers s)) s.

Definition read_account (id : string) (db : database) : option Account :=
  toAccount id <$> accounts db !! id.

Definition object_access (o : Z) (s : tm) : option string := tm_objects s !! o ≫= acc_access_token.
Definition object_refresh (o : Z) (s : tm) : option string := tm_objects s !! o ≫= acc_refresh_token.

(** * A refresh: the handlers of [provider.refreshToken(...)] *)

(** The end of the success handler: the minted credentials are installed and cached. *)
Definition install_minted (k : Z) (p : promise) (x : persist_ctx) (now : Z) (s : tm) : tm :=
  let r := px_result x in
  let install a :=
    let a := set_access (res_accessToken r) (Some (res_expiresAt r)) a in
    let a := match truthy_string (effectiveRefreshToken x) with
             | Some t => set_refresh (Some t) (Some (px_mintedAt x)) a
             | None => a
             end in
    set_last_used now a in
  goto_promise k (PFinally (Token (res_accessToken r)))
    (on_caches (recordRecentRefresh (p_id p) (res_accessToken r) (res_expiresAt r) now)
       (on_object (p_object p) install s)).

(** A write that landed settles the entry it carried. *)
Definition persisted_refresh (k : Z) (p : promise) (x : persist_ctx) (now : Z) (s : tm) : tm :=
  let s := match px_pending x with
           | Some e => on_registry (resolvePendingAfterPersist (p_id p) e (effectiveRefreshToken x)) s
           | None => s
           end in
  install_minted k p x now s.

Definition failed_refresh (k : Z) (p : promise) (x : persist_ctx) (anchor : string) (now : Z)
    (s : tm) : tm :=
  install_minted k p x now
    (on_registry (recordPendingRotation (p_id p) (unpersisted anchor x) now) s).

(** A lost compare-and-swap: a newer rotation in memory is served, or the row is read. *)
Definition superseded_refresh (k : Z) (p : promise) (x : persist_ctx)
    (survivor : option PendingRotation) (now : Z) (s : tm) : tm :=
  match survivor with
  | Some e =>
      let s := on_object (p_object p)
                 (λ a, set_last_used now (installPendingRotationCredentials e a)) s in
      if isPendingAccessTokenServable e now
      then goto_promise k (PFinally (Token (pr_accessToken e))) s
      else goto_promise k (PAdopt x waiting) s
  | None => goto_promise k (PAdopt x waiting) s
  end.

Definition continue_persist (k : Z) (p : promise) (x : persist_ctx) (r : reply bool) (now : Z)
    (s : tm) : option tm :=
  match r with
  | waiting => None
  | threw =>
      let s := on_registry (recordPendingRotation (p_id p)
                 (unpersisted (default ""%string (persistAnchor p x)) x) now) s in
      Some (install_minted k p x now (on_caches (forget_failure (p_id p)) s))
  | answered true =>
      Some (persisted_refresh k p x now (on_caches (forget_failure (p_id p)) s))
  | answered false =>
      let s := on_caches (forget_failure (p_id p)) s in
      let s := match px_pending x with
               | Some e => on_registry (clearPendingRotationIfCurrent (p_id p) e) s
               | None => s
               end in
      match getPendingRotation (p_id p) (tm_registry s), truthy_string (pendingWrittenToken x) with
      | None, Some _ => Some (goto_promise k (PRetryRead x waiting) s)
      | survivor, _ => Some (superseded_refresh k p x survivor now s)
      end
  end.

Definition continue_retried (k : Z) (p : promise) (x : persist_ctx) (o : retry_outcome) (now : Z)
    (s : tm) : tm :=
  match o with
  | RetryPersisted => persisted_refresh k p x now s
  | RetryFailed => failed_refresh k p x (default ""%string (pendingWrittenToken x)) now s
  | RetrySuperseded =>
      superseded_refresh k p x (getPendingRotation (p_id p) (tm_registry s)) now s
  | RetryNotOurs => superseded_refresh k p x None now s
  end.

(** The error handler up to its await *)
Definition continue_rejected (k : Z) (p : promise) (e : refresh_error) (now : Z) (s : tm) : tm :=
  let s := on_caches (λ c, enforceMaxSize
             (set_failures (<[p_id p := now]> (refreshFailures c)) (backoffCounters c) c)) s in
  let pendingAtFailure := getPendingRotation (p_id p) (tm_registry s) in
  let pendingGeneration := written_token <$> pendingAtFailure in
  if negb (isInvalidGrant e) then goto_promise k (PPaused false false) s
  else
    match pendingAtFailure with
    | Some entry =>
        if negb (bool_decide (p_exchanged p = pendingGeneration)) then
          goto_promise k (PFinally (Failed (TokenRefreshError true)))
            (on_caches (forget_failure (p_id p)) s)
        else
          goto_promise k (PPause (Some (pr_attemptedRefreshToken entry)) waiting)
            (on_registry (clearPendingRotationIfCurrent (p_id p) entry) s)
    | None => goto_promise k (PPause (p_exchanged p) waiting) s
    end.

Definition continue_paused (k : Z) (p : promise) (invalidGrant paused : bool) (s : tm) : tm :=
  let s := if paused then on_caches (forget_recent (p_id p)) s
           else if invalidGrant then on_caches (forget_failure (p_id p)) s
           else s in
  goto_promise k (PFinally (Failed (TokenRefreshError invalidGrant))) s.

Definition continue_promise (k : Z) (p : promise) (now : Z) (s : tm) : option tm :=
  match p_pc p with
  | PExchange (Some res) =>
      Some (goto_promise k
        (PPersist {| px_result := res; px_mintedAt := now;
                     px_pending := getPendingRotation (p_id p) (tm_registry s) |} waiting) s)
  | PRejected e => Some (continue_rejected k p e now s)
  | PPersist x r => continue_persist k p x r now s
  | PRetryRead x threw => Some (goto_promise k (PRetried x RetryFailed) s)
  | PRetryRead x (answered row) =>
      if bool_decide (row ≫= acc_refresh_token = pendingWrittenToken x)
      then Some (goto_promise k (PRetryWrite x waiting) s)
      else Some (goto_promise k (PRetried x RetryNotOurs) s)
  | PRetryWrite x threw => Some (goto_promise k (PRetried x RetryFailed) s)
  | PRetryWrite x (answered true) => Some (goto_promise k (PRetried x RetryPersisted) s)
  | PRetryWrite x (answered false) => Some (goto_promise k (PRetried x RetrySuperseded) s)
  | PRetried x o => Some (continue_retried k p x o now s)
  | PAdopt x waiting => None
  | PAdopt x row =>
      let adopted := tm_objects s !! p_object p ≫=
                     λ a, (adoptAuthoritativeAccountTokens row now a).2 in
      Some (goto_promise k (PAdopted x adopted)
              (on_object (p_object p) (λ a, (adoptAuthoritativeAccountTokens row now a).1) s))
  | PAdopted x t =>
      match truthy_string t with
      | Some t => Some (goto_promise k (PFinally (Token t)) s)
      | None =>
          let r := px_result x in
          Some (goto_promise k (PFinally (Token (res_accessToken r)))
                  (on_object (p_object p)
                     (λ a, set_last_used now
                             (set_access (res_accessToken r) (Some (res_expiresAt r)) a)) s))
      end
  | PPause _ threw => Some (goto_promise k (PPaused true false) s)
  | PPause _ (answered b) => Some (goto_promise k (PPaused true b) s)
  | PPaused inv b => Some (continue_paused k p inv b s)
  | PFinally o =>
      let s := if bool_decide (refreshInFlight s !! p_id p = Some k)
               then set_inflight (delete (p_id p) (refreshInFlight s)) s else s in
      Some (goto_promise k (PSettled o) s)
  | _ => None
  end.

(** * A call of [refreshAccessTokenSafe] *)

Definition finish_call (k : Z) (o : outcome) (s : tm) : tm := goto_caller k (CDone o) s.

(** [joinInFlightRefresh] up to its await *)
Definition start_join (k : Z) (id : string) (g : join_stage) (s : tm) : tm :=
  match refreshInFlight s !! id with
  | Some p => goto_caller k (CJoin g p) s
  | None => goto_caller k (CNoJoin g) s
  end.

(** The refresh joined has settled: the caller's account is synced to its token. *)
Definition continue_join (k : Z) (c : caller) (o : outcome) (s : tm) : tm :=
  match o with
  | Failed e => finish_call k (Failed e) s
  | Token t =>
      match recentRefreshes (tm_caches s) !! c_id c with
      | Some r =>
          if bool_decide (rr_accessToken r = t)
          then finish_call k (Token t)
                 (on_object (c_object c) (set_access t (Some (rr_expiresAt r))) s)
          else if bool_decide (object_access (c_object c) s = Some t)
          then finish_call k (Token t) s
          else goto_caller k (CJoinSync t waiting) s
      | None =>
          if bool_decide (object_access (c_object c) s = Some t)
          then finish_call k (Token t) s
          else goto_caller k (CJoinSync t waiting) s
      end
  end.

(** The two coalesce short-circuits *)
Definition try_coalesce (k : Z) (c : caller) (now : Z) (s : tm) (next : tm) : tm :=
  match getCoalescibleRecentRefresh (c_id c) (object_access (c_object c) s) now (tm_caches s) with
  | Some (t, e) => finish_call k (Token t) (on_object (c_object c) (set_access t (Some e)) s)
  | None => next
  end.

(** [adoptDbTokensIfFresher] up to its first await: the flush takes its snapshot. *)
Definition start_adopt (k : Z) (c : caller) (s : tm) : tm :=
  match getPendingRotation (c_id c) (tm_registry s) with
  | Some e => goto_caller k (CFlushWrite e waiting) s
  | None => goto_caller k (CFlushed FlushNone) s
  end.

(** The backoff gate *)
Definition backoff_gate (k : Z) (c : caller) (now : Z) (s : tm) : tm :=
  let s := on_caches (cleanupExpiredFailures now) s in
  let ca := tm_caches s in
  let lastFailure := default 0 (refreshFailures ca !! c_id c) in
  if negb (lastFailure =? 0) && (now - lastFailure <? TOKEN_REFRESH_BACKOFF_MS) then
    let newCount := default 0 (backoffCounters ca !! c_id c) + 1 in
    let s := on_caches (λ ca, set_failures (refreshFailures ca)
                                (<[c_id c := newCount]> (backoffCounters ca)) ca) s in
    if MAX_BACKOFF_RETRIES <=? newCount then goto_caller k (CBackoffRead waiting) s
    else finish_call k (Failed InBackoff) s
  else
    start_adopt k c
      (on_caches (λ ca, set_failures (refreshFailures ca)
                          (delete (c_id c) (backoffCounters ca)) ca) s).

(** Ten hits of the backoff: a newer token in the row ends it. *)
Definition continue_backoff (k : Z) (c : caller) (row : option Account) (now : Z) (s : tm) : tm :=
  match row ≫= λ r, (λ te, (r, te)) <$> servable_row r now with
  | Some (r, (t, e)) =>
      if bool_decide (Some t = object_access (c_object c) s)
      then finish_call k (Failed InBackoff) s
      else
        let adopt a :=
          let a := set_access t (Some e) a in
          let a := match truthy_string (acc_refresh_token r) with
                   | Some rt => set_refresh (Some rt) (acc_refresh_token_issued_at a) a
                   | None => a
                   end in
          set_last_used now a in
        let s := on_caches (forget_backoff (c_id c)) (on_object (c_object c) adopt s) in
        match truthy_string (Some t) with
        | Some t => finish_call k (Token t) s
        | None => finish_call k (Failed InBackoff) s
        end
  | None => finish_call k (Failed InBackoff) s
  end.

(** A flush has settled: what the registry holds now outranks its snapshot and the row. *)
Definition continue_flushed (k : Z) (c : caller) (o : FlushOutcome) (now : Z) (s : tm) : tm :=
  match getPendingRotation (c_id c) (tm_registry s) with
  | Some live =>
      if isPendingAccessTokenServable live now
      then goto_caller k (CAdopted (Some (pr_accessToken live)))
             (on_object (c_object c) (installPendingRotationCredentials live) s)
      else goto_caller k (CAdopted None)
             (on_object (c_object c) (installPendingRefreshGeneration live) s)
  | None =>
      match o with
      | FlushPersisted e =>
          let s := on_object (c_object c) (installPendingRotationCredentials e) s in
          if isPendingAccessTokenServable e now
          then goto_caller k (CAdopted (Some (pr_accessToken e)))
                 (on_caches (forget_backoff (c_id c)) s)
          else goto_caller k (CAdopted None) s
      | _ => goto_caller k (CReread waiting) s
      end
  end.

(** [dbIssuedAt >= memIssuedAt], an unstamped snapshot deferring to the row *)
Definition dbRefreshNotOlder (db mem : option Z) : bool :=
  match mem, db with
  | None, _ => true
  | Some m, Some d => m <=? d
  | Some _, None => false
  end.

Definition dbGenerationStrictlyNewer (db a : Account) : bool :=
  match acc_refresh_token_issued_at db with
  | None => false
  | Some d =>
      match acc_refresh_token_issued_at a with None => true | Some m => m <? d end
      && negb (bool_decide (acc_access_token db = acc_access_token a))
  end.

(** The re-read of [adoptDbTokensIfFresher]: the account and the token adopted *)
Definition adopt_row (db : Account) (now : Z) (a : Account) : Account * option string :=
  let notOlder := dbRefreshNotOlder (acc_refresh_token_issued_at db)
                    (acc_refresh_token_issued_at a) in
  let has_token := bool_decide (is_Some (truthy_string (acc_refresh_token db))) in
  let adopt_refresh a' :=
    set_refresh (acc_refresh_token db) (acc_refresh_token_issued_at db) a' in
  match servable_row db now with
  | Some (t, e) =>
      if (default 0 (acc_expires_at a) <? e) || dbGenerationStrictlyNewer db a then
        let a' := set_access t (Some e) a in
        (if has_token && notOlder then adopt_refresh a' else a', Some t)
      else if has_token && negb (bool_decide (acc_refresh_token db = acc_refresh_token a)) && notOlder
      then (adopt_refresh a, None) else (a, None)
  | None =>
      if has_token && negb (bool_decide (acc_refresh_token db = acc_refresh_token a)) && notOlder
      then (adopt_refresh a, None) else (a, None)
  end.

Definition continue_reread (k : Z) (c : caller) (row : reply (option Account)) (now : Z)
    (s : tm) : option tm :=
  match row with
  | waiting => None
  | threw | answered None => Some (goto_caller k (CAdopted None) s)
  | answered (Some r) =>
      let adopted := tm_objects s !! c_object c ≫= λ a, (adopt_row r now a).2 in
      let s := on_object (c_object c) (λ a, (adopt_row r now a).1) s in
      let s := match adopted with
               | Some _ => on_caches (forget_backoff (c_id c)) s
               | None => s
               end in
      Some (goto_caller k (CAdopted adopted) s)
  end.

(** The creation of the refresh, unless one appeared meanwhile *)
Definition start_refresh (c : caller) (s : tm) : tm :=
  if jhas (c_id c) (refreshInFlight s) then s
  else
    let p := {| p_id := c_id c; p_object := c_object c;
                p_exchanged := object_refresh (c_object c) s; p_pc := PExchange None |} in
    {| tm_caches := tm_caches s;
       refreshInFlight := <[c_id c := tm_nextPromise s]> (refreshInFlight s);
       tm_registry := tm_registry s; tm_db := tm_db s; tm_objects := tm_objects s;
       tm_promises := <[tm_nextPromise s := p]> (tm_promises s);
       tm_callers := tm_callers s; tm_flushes := tm_flushes s;
       tm_nextPromise := tm_nextPromise s + 1 |}.

Definition continue_nojoin (k : Z) (c : caller) (g : join_stage) (now : Z) (s : tm) : tm :=
  match g with
  | JoinFirst => try_coalesce k c now s (backoff_gate k c now s)
  | JoinAfterAdopt =>
      try_coalesce k c now s (start_join k (c_id c) JoinFinal (start_refresh c s))
  | JoinFinal => finish_call k (Failed RefreshNotFound) s
  end.

Definition continue_caller (k : Z) (c : caller) (now : Z) (s : tm) : option tm :=
  match c_pc c with
  | CCheck threw => Some (finish_call k (Failed ReadFailed) s)
  | CCheck (answered row) =>
      if from_option acc_disabled false row then Some (finish_call k (Failed AccountDisabled) s)
      else Some (start_join k (c_id c) JoinFirst s)
  | CJoin g p =>
      match p_pc <$> tm_promises s !! p with
      | Some (PSettled o) => Some (continue_join k c o s)
      | _ => None
      end
  | CNoJoin g => Some (continue_nojoin k c g now s)
  | CJoinSync t waiting => None
  | CJoinSync t row =>
      let adopted := tm_objects s !! c_object c ≫=
                     λ a, (adoptAuthoritativeAccountTokens row now a).2 in
      Some (goto_caller k (CJoinSynced t adopted)
              (on_object (c_object c) (λ a, (adoptAuthoritativeAccountTokens row now a).1) s))
  | CJoinSynced t adopted =>
      match truthy_string adopted with
      | Some t' => Some (finish_call k (Token t') s)
      | None => Some (finish_call k (Token t) (on_object (c_object c) (set_access t None) s))
      end
  | CBackoffRead threw => Some (finish_call k (Failed InBackoff) s)
  | CBackoffRead (answered row) => Some (continue_backoff k c row now s)
  | CFlushWrite e (answered true) =>
      Some (goto_caller k (CFlushed (FlushPersisted e))
              (on_registry (flush_settle (c_id c) e Persisted) s))
  | CFlushWrite e (answered false) =>
      Some (goto_caller k (CFlushed (FlushSuperseded e))
              (on_registry (flush_settle (c_id c) e Superseded) s))
  | CFlushWrite e threw => Some (goto_caller k (CFlushed (FlushFailed e)) s)
  | CFlushed o => Some (continue_flushed k c o now s)
  | CReread row => continue_reread k c row now s
  | CAdopted t =>
      match truthy_string t with
      | Some t => Some (finish_call k (Token t) s)
      | None => Some (start_join k (c_id c) JoinAfterAdopt s)
      end
  | _ => None
  end.

(** A call on an account object; a disabled account is refused at once. *)
Definition call (k : Z) (o : Z) (s : tm) : option tm :=
  match tm_objects s !! o, tm_callers s !! k with
  | Some a, None =>
      let pc := if acc_disabled a then CDone (Failed AccountDisabled) else CCheck waiting in
      Some (set_callers (<[k := {| c_id := acc_id a; c_object := o; c_pc := pc |}]>
                           (tm_callers s)) s)
  | _, _ => None
  end.

(** * Other entry points *)

(** [clearAccountRefreshCache] with the server's clearer *)
Definition clearAccountRefreshCache (id : string) (s : tm) : tm :=
  set_inflight (delete id (refreshInFlight s))
    (on_caches (λ c, forget_recent id (forget_backoff id c)) s).

(** [getValidAccessToken]: the token at hand, or a refresh *)
Inductive token_source : Type :=
  | UseToken (t : string) | NoApiKey | Disabled | NeedsRefresh.

Definition API_KEY_PROVIDERS : list string :=
  ["openai-compatible"; "zai"; "claude-console-api"; "anthropic-compatible"; "minimax"]%string.

Definition getValidAccessToken (a : Account) (now : Z) : token_source :=
  let key := truthy_string (prof_api_key (acc_profile a)) in
  if acc_disabled a then Disabled
  else if bool_decide (acc_provider a ∈ API_KEY_PROVIDERS) then
    match key with Some k => UseToken k | None => NoApiKey end
  else
    match truthy_string (acc_refresh_token a), key with
    | None, Some _ => UseToken ""
    | _, _ =>
        match truthy_string (acc_access_token a), acc_expires_at a with
        | Some t, Some e =>
            if negb (e =? 0) && (TOKEN_SAFETY_WINDOW_MS <? e - now) then UseToken t
            else NeedsRefresh
        | _, _ => NeedsRefresh
        end
    end.

(** * Events *)

Inductive task : Type := Promise (k : Z) | Caller (k : Z) | Flush (k : Z).

Inductive event : Type :=
  | TCall (k : Z) (o : Z)
  | TExchange (k : Z) (r : TokenRefreshResult + refresh_error)
  | TAnswer (t : task) (throws : bool) (now : Z)
  | TContinue (t : task) (now : Z)
  | TFlush (k : Z) (id : string)
  | TForeign (now : Z) (op : db_op)
  | TObject (o : Z) (a : Account)
  | TClearCache (id : string)
  | TClearPending (id : string)
  | TCleanup (now : Z).

Section run.
Variable localDate : Z → option (Z * Z * Z).

(** The token write a refresh awaits, keyed on [anchor] *)
Definition write_minted (p : promise) (x : persist_ctx) (anchor : option string) (now : Z)
    (db : database) : bool * database :=
  let r := px_result x in
  updateTokens localDate (p_id p) (res_accessToken r) (res_expiresAt r)
    (effectiveRefreshToken x) (res_identity r) anchor (effectiveRefreshTokenExpiresAt x) now db.

Definition ran {A} (throws : bool) (run : A * database) (db : database) : reply A * database :=
  if throws then (threw, db) else (answered run.1, run.2).

(** The statement of an awaiting refresh runs. *)
Definition answer_promise (p : promise) (throws : bool) (now : Z) (db : database)
    : option (promise_pc * database) :=
  match p_pc p with
  | PPersist x waiting =>
      let '(r, db) := ran throws (write_minted p x (persistAnchor p x) now db) db in
      Some (PPersist x r, db)
  | PRetryRead x waiting =>
      let '(r, db) := ran throws (read_account (p_id p) db, db) db in Some (PRetryRead x r, db)
  | PRetryWrite x waiting =>
      let '(r, db) := ran throws (write_minted p x (pendingWrittenToken x) now db) db in
      Some (PRetryWrite x r, db)
  | PAdopt x waiting =>
      let '(r, db) := ran throws (read_account (p_id p) db, db) db in Some (PAdopt x r, db)
  | PPause key waiting =>
      let '(r, db) :=
        ran throws (pauseIfActive (p_id p) PAUSE_REASON_NEEDS_REAUTH key now db) db in
      Some (PPause key r, db)
  | _ => None
  end.

Definition is_persisted (w : FlushWrite) : bool := match w with Persisted => true | _ => false end.

(** The write of [flushPendingRotation] *)
Definition run_flush_write (id : string) (e : PendingRotation) (now : Z) (db : database)
    : bool * database :=
  let '(w, db) := flush_write localDate id e now db in (is_persisted w, db).

Definition answer_caller (c : caller) (throws : bool) (now : Z) (db : database)
    : option (caller_pc * database) :=
  match c_pc c with
  | CCheck waiting =>
      let '(r, db) := ran throws (read_account (c_id c) db, db) db in Some (CCheck r, db)
  | CJoinSync t waiting =>
      let '(r, db) := ran throws (read_account (c_id c) db, db) db in Some (CJoinSync t r, db)
  | CBackoffRead waiting =>
      let '(r, db) := ran throws (read_account (c_id c) db, db) db in Some (CBackoffRead r, db)
  | CFlushWrite e waiting =>
      let '(r, db) := ran throws (run_flush_write (c_id c) e now db) db in
      Some (CFlushWrite e r, db)
  | CReread waiting =>
      let '(r, db) := ran throws (read_account (c_id c) db, db) db in Some (CReread r, db)
  | _ => None
  end.

Definition answer_flush (f : flush_task) (throws : bool) (now : Z) (db : database)
    : option (flush_task * database) :=
  match f_reply f with
  | waiting =>
      let '(r, db) := ran throws (run_flush_write (f_id f) (f_entry f) now db) db in
      Some ({| f_id := f_id f; f_entry := f_entry f; f_reply := r |}, db)
  | _ => None
  end.

(** A flush of another touchpoint settles and is done. *)
Definition continue_flush (k : Z) (f : flush_task) (s : tm) : option tm :=
  let s' := set_flushes (delete k (tm_flushes s)) s in
  match f_reply f with
  | waiting => None
  | threw => Some s'
  | answered b =>
      Some (on_registry (flush_settle (f_id f) (f_entry f) (if b then Persisted else Superseded)) s')
  end.

Definition step (ev : event) (s : tm) : option tm :=
  match ev with
  | TCall k o => call k o s
  | TExchange k r =>
      match tm_promises s !! k with
      | Some p =>
          match p_pc p with
          | PExchange None =>
              Some (goto_promise k match r with
                                   | inl res => PExchange (Some res)
                                   | inr e => PRejected e
                                   end s)
          | _ => None
          end
      | None => None
      end
  | TAnswer (Promise k) throws now =>
      p ← tm_promises s !! k; '(pc, db) ← answer_promise p throws now (tm_db s);
      Some (goto_promise k pc (set_db db s))
  | TAnswer (Caller k) throws now =>
      c ← tm_callers s !! k; '(pc, db) ← answer_caller c throws now (tm_db s);
      Some (goto_caller k pc (set_db db s))
  | TAnswer (Flush k) throws now =>
      f ← tm_flushes s !! k; '(f, db) ← answer_flush f throws now (tm_db s);
      Some (set_flushes (<[k := f]> (tm_flushes s)) (set_db db s))
  | TContinue (Promise k) now => p ← tm_promises s !! k; continue_promise k p now s
  | TContinue (Caller k) now => c ← tm_callers s !! k; continue_caller k c now s
  | TContinue (Flush k) now => f ← tm_flushes s !! k; continue_flush k f s
  | TFlush k id =>
      match tm_flushes s !! k, getPendingRotation id (tm_registry s) with
      | None, Some e =>
          Some (set_flushes (<[k := {| f_id := id; f_entry := e; f_reply := waiting |}]>
                               (tm_flushes s)) s)
      | _, _ => None
      end
  | TForeign now op => Some (set_db (exec localDate now (tm_db s) op) s)
  | TObject o a => Some (set_objects (<[o := a]> (tm_objects s)) s)
  | TClearCache id => Some (clearAccountRefreshCache id s)
  | TClearPending id => Some (on_registry (clearPendingRotation id) s)
  | TCleanup now => Some (on_caches (cleanup_tick now) s)
  end.

Fixpoint run (evs : list event) (s : tm) : option tm :=
  match evs with
  | [] => Some s
  | ev :: evs => s ← step ev s; run evs s
  end.
End run.

(** At start nothing is refreshed; the in-memory accounts appear with [TObject]. *)
Definition tm_init (db : database) : tm :=
  {| tm_caches := caches_init; refreshInFlight := ∅; tm_registry := registry_init; tm_db := db;
     tm_objects := ∅; tm_promises := ∅; tm_callers := ∅; tm_flushes := ∅; tm_nextPromise := 0 |}.
