(* ===== verification/TokenSafety.v ===== *)
(** What the refreshes of TokenManager guarantee in every interleaving of the calls of
    refreshAccessTokenSafe, the flushes and the other events of its machine: one refresh of an
    account at a time, an answer for every call, and that a rotated refresh token is not
    lost and a healthy account not paused, as far as the code ensures it. *)

From S2P Require Import Prelude Accounts AccountRepo Rotation StableSort TokenManager.
Open Scope Z_scope.

(** * What a step of one task touches *)

Definition settled (p : promise) : Prop := ∃ o, p_pc p = PSettled o.

#[global] Instance settled_dec p : Decision (settled p).
Proof.
  unfold settled. destruct (p_pc p); try (right; intros [? ?]; done). left. by eexists.
Defined.

(** How many steps a task can take at most before it is done *)
Definition reply_rank {A} (r : reply A) : nat := match r with waiting => 1 | _ => 0 end.

Definition promise_rank (pc : promise_pc) : nat :=
  match pc with
  | PExchange None => 15
  | PExchange (Some _) => 14
  | PPersist _ r => 12 + reply_rank r
  | PRetryRead _ r => 10 + reply_rank r
  | PRetryWrite _ r => 8 + reply_rank r
  | PRetried _ _ => 7
  | PRejected _ => 6
  | PAdopt _ r => 5 + reply_rank r
  | PAdopted _ _ => 4
  | PPause _ r => 4 + reply_rank r
  | PPaused _ _ => 3
  | PFinally _ => 2
  | PSettled _ => 0
  end.

Definition caller_rank (pc : caller_pc) : nat :=
  match pc with
  | CCheck r => 29 + reply_rank r
  | CNoJoin JoinFirst => 28
  | CFlushWrite _ r => 26 + reply_rank r
  | CFlushed _ => 25
  | CReread r => 23 + reply_rank r
  | CAdopted _ => 22
  | CNoJoin JoinAfterAdopt => 21
  | CJoin _ _ => 5
  | CJoinSync _ r => 3 + reply_rank r
  | CBackoffRead r => 3 + reply_rank r
  | CJoinSynced _ _ => 2
  | CNoJoin JoinFinal => 1
  | CDone _ => 0
  end.

Definition flush_rank (f : flush_task) : nat := 1 + reply_rank (f_reply f).

(** What the continuation of a refresh leaves alone *)
Record promise_step (k : Z) (p : promise) (pc : promise_pc) (s s' : tm) : Prop := {
  ps_promises : tm_promises s' = alter (set_promise_pc pc) k (tm_promises s);
  ps_callers : tm_callers s' = tm_callers s;
  ps_flushes : tm_flushes s' = tm_flushes s;
  ps_db : tm_db s' = tm_db s;
  ps_next : tm_nextPromise s' = tm_nextPromise s;
  ps_inflight : match pc with
                | PSettled o =>
                    p_pc p = PFinally o ∧
                    refreshInFlight s' =
                      if bool_decide (refreshInFlight s !! p_id p = Some k)
                      then delete (p_id p) (refreshInFlight s) else refreshInFlight s
                | _ => refreshInFlight s' = refreshInFlight s
                end;
  ps_found : pc ≠ PFinally (Failed RefreshNotFound)
}.

Lemma install_minted_step k p x now s :
  promise_step k p (PFinally (Token (res_accessToken (px_result x)))) s (install_minted k p x now s).
Proof. by constructor. Qed.

Lemma promise_step_on k p pc s s0 s' :
  promise_step k p pc s0 s' →
  tm_promises s0 = tm_promises s → tm_callers s0 = tm_callers s → tm_flushes s0 = tm_flushes s →
  tm_db s0 = tm_db s → tm_nextPromise s0 = tm_nextPromise s →
  refreshInFlight s0 = refreshInFlight s →
  promise_step k p pc s s'.
Proof.
  intros [H1 H2 H3 H4 H5 H6 H7] E1 E2 E3 E4 E5 E6. rewrite E1 in H1. rewrite E6 in H6.
  constructor; congruence || done.
Qed.

Definition unsettled_pc (pc : promise_pc) : Prop := ∀ o, pc ≠ PSettled o.

(** The step goes to a pc of a rank below [n], not the settled one unless it settles the
    refresh. *)
Definition promise_goes (n : nat) (k : Z) (p : promise) (s s' : tm) : Prop :=
  ∃ pc, promise_step k p pc s s' ∧
    (unsettled_pc pc ∨ ∃ o, p_pc p = PFinally o ∧ pc = PSettled o) ∧ (promise_rank pc < n)%nat.

Ltac frame_step := eexists; split; [by constructor|split; [by left|simpl; lia]].

Lemma persisted_goes k p x now s : promise_goes 3 k p s (persisted_refresh k p x now s).
Proof. unfold persisted_refresh. destruct (px_pending x); frame_step. Qed.
Lemma superseded_goes k p x survivor now s :
  promise_goes 7 k p s (superseded_refresh k p x survivor now s).
Proof. unfold superseded_refresh. destruct survivor; [destruct (isPendingAccessTokenServable _ _)|]; frame_step. Qed.
Lemma promise_goes_le n n' k p s s' :
  promise_goes n k p s s' → (n <= n')%nat → promise_goes n' k p s s'.
Proof. intros (pc & H & Hpc & Hn) Hle. exists pc. split; [done|]. split; [done|lia]. Qed.

Lemma retried_goes k p x o now s : promise_goes 7 k p s (continue_retried k p x o now s).
Proof.
  destruct o; cbn [continue_retried]; try apply superseded_goes; [|frame_step].
  eapply promise_goes_le; [apply persisted_goes|lia].
Qed.
Lemma rejected_goes k p e now s : promise_goes 6 k p s (continue_rejected k p e now s).
Proof. unfold continue_rejected. repeat case_match; frame_step. Qed.

Lemma promise_goes_on n k p s s0 s' :
  promise_goes n k p s0 s' →
  tm_promises s0 = tm_promises s → tm_callers s0 = tm_callers s → tm_flushes s0 = tm_flushes s →
  tm_db s0 = tm_db s → tm_nextPromise s0 = tm_nextPromise s →
  refreshInFlight s0 = refreshInFlight s → promise_goes n k p s s'.
Proof. intros (pc & H & Hpc) ??????. exists pc. split; [|done]. by eapply promise_step_on. Qed.

Lemma persist_goes k p x r now s s' :
  continue_persist k p x r now s = Some s' → promise_goes 12 k p s s'.
Proof.
  unfold continue_persist. destruct r as [| |[]]; intros; simplify_eq/=.
  - frame_step.
  - by eapply promise_goes_on; [eapply promise_goes_le; [apply persisted_goes|lia]|..].
  - repeat case_match; simplify_eq; try frame_step;
      by eapply promise_goes_on; [eapply promise_goes_le; [apply superseded_goes|lia]|..].
Qed.

Lemma continue_promise_goes k p now s s' :
  continue_promise k p now s = Some s' → promise_goes (promise_rank (p_pc p)) k p s s'.
Proof.
  unfold continue_promise. intros Hc.
  destruct (p_pc p) as [[]|e|x r|x [| |row]|x [| |[]]|x o|x []|x t|key []|inv b|o|o] eqn:Epc;
    simplify_eq/=; eauto using rejected_goes, retried_goes; try frame_step.
  - eapply promise_goes_le; [by eapply persist_goes|lia].
  - case_match; simplify_eq; frame_step.
  - case_match; simplify_eq; frame_step.
  - unfold continue_paused. destruct b, inv; frame_step.
  - exists (PSettled o). split; [|split; [by right; eauto|simpl; lia]]. destruct (bool_decide _) eqn:E; constructor; try done; simpl; by rewrite ?E.
Qed.

(** What the continuation of a call leaves alone; the refreshes are as they were or one was
    started. *)
Record caller_step (k : Z) (c : caller) (pc : caller_pc) (s s' : tm) : Prop := {
  cs_callers : tm_callers s' = alter (set_caller_pc pc) k (tm_callers s);
  cs_flushes : tm_flushes s' = tm_flushes s;
  cs_db : tm_db s' = tm_db s;
  cs_promises :
    (tm_promises s' = tm_promises s ∧ tm_nextPromise s' = tm_nextPromise s ∧
     refreshInFlight s' = refreshInFlight s) ∨
    (refreshInFlight s !! c_id c = None ∧ c_pc c = CNoJoin JoinAfterAdopt ∧
     (∃ e, tm_promises s' = <[tm_nextPromise s :=
        {| p_id := c_id c; p_object := c_object c; p_exchanged := e; p_pc := PExchange None |}]>
        (tm_promises s)) ∧
     tm_nextPromise s' = tm_nextPromise s + 1 ∧
     refreshInFlight s' = <[c_id c := tm_nextPromise s]> (refreshInFlight s));
  cs_join : match pc with
            | CJoin _ p => refreshInFlight s' !! c_id c = Some p
            | CNoJoin g => g ≠ JoinFinal
            | CDone (Failed RefreshNotFound) =>
                c_pc c = CNoJoin JoinFinal ∨
                ∃ g p, c_pc c = CJoin g p ∧
                  p_pc <$> tm_promises s !! p = Some (PSettled (Failed RefreshNotFound))
            | _ => True
            end
}.

(** The rank of a call pays for the refresh it starts. *)
Definition caller_goes (n : nat) (k : Z) (c : caller) (s s' : tm) : Prop :=
  ∃ pc, caller_step k c pc s s' ∧
    (caller_rank pc + (if bool_decide (tm_nextPromise s' = tm_nextPromise s) then 0 else 15) < n)%nat.

Ltac frame_rank := simpl; rewrite bool_decide_eq_true_2 by done; simpl; lia.
Ltac frame_call := eexists; split; [constructor; try done; by left|frame_rank].

Lemma caller_goes_le n n' k c s s' :
  caller_goes n k c s s' → (n <= n')%nat → caller_goes n' k c s s'.
Proof. intros (pc & H & Hn) Hle. exists pc. split; [done|lia]. Qed.

Lemma start_join_goes k c g s :
  g ≠ JoinFinal → caller_goes (S (caller_rank (CNoJoin g))) k c s (start_join k (c_id c) g s).
Proof.
  intros Hg. unfold start_join. destruct (refreshInFlight s !! c_id c) eqn:E;
    (eexists; split; [constructor; try done; by left|]); destruct g; try done; frame_rank.
Qed.

Lemma start_adopt_goes k c s : caller_goes 28 k c s (start_adopt k c s).
Proof. unfold start_adopt. destruct (getPendingRotation _ _); frame_call. Qed.

Lemma caller_goes_on n k c s s0 s' :
  caller_goes n k c s0 s' →
  tm_promises s0 = tm_promises s → tm_callers s0 = tm_callers s → tm_flushes s0 = tm_flushes s →
  tm_db s0 = tm_db s → tm_nextPromise s0 = tm_nextPromise s →
  refreshInFlight s0 = refreshInFlight s → caller_goes n k c s s'.
Proof.
  intros (pc & [H1 H2 H3 H4 H5] & Hn) E1 E2 E3 E4 E5 E6. exists pc. split; [|by rewrite <-E5].
  rewrite E2 in H1. rewrite E1, E5, E6 in H4. rewrite E1 in H5. constructor; congruence || done.
Qed.

Lemma backoff_gate_goes k c now s : caller_goes 28 k c s (backoff_gate k c now s).
Proof.
  unfold backoff_gate. repeat case_match; try frame_call.
  by eapply caller_goes_on; [apply start_adopt_goes|..].
Qed.

Lemma coalesce_goes n k c now s next :
  (0 < n)%nat → caller_goes n k c s next → caller_goes n k c s (try_coalesce k c now s next).
Proof. intros Hn H. unfold try_coalesce. repeat case_match; [frame_call|done]. Qed.

Lemma start_refresh_goes k c s :
  c_pc c = CNoJoin JoinAfterAdopt →
  caller_goes 21 k c s (start_join k (c_id c) JoinFinal (start_refresh c s)).
Proof.
  intros Hpc. unfold start_refresh, start_join, jhas.
  destruct (refreshInFlight s !! c_id c) as [p|] eqn:E.
  - rewrite bool_decide_eq_true_2 by eauto. rewrite E. frame_call.
  - rewrite bool_decide_eq_false_2 by (by intros [? ?]). simpl. rewrite jlookup_insert_eq.
    eexists; split; [constructor; try done; simpl; [|by rewrite jlookup_insert_eq]|].
    + right. split; [done|]. split; [done|]. split; [by eexists|]. done.
    + simpl. case_bool_decide; simpl; lia.
Qed.

Lemma continue_caller_goes k c now s s' :
  continue_caller k c now s = Some s' → caller_goes (caller_rank (c_pc c)) k c s s'.
Proof.
  unfold continue_caller. intros Hc.
  destruct (c_pc c) as [[]|g p|g|t []|t ad|[]|e [| |[]]|o|[]|t|o] eqn:Epc; simplify_eq/=;
    try frame_call.
  - case_match; simplify_eq; [frame_call|].
    eapply caller_goes_le; [by apply start_join_goes|simpl; lia].
  - destruct (tm_promises s !! p) as [pr|] eqn:Ep; simpl in Hc; [|done].
    destruct (p_pc pr) eqn:Epp; simplify_eq. unfold continue_join.
    repeat case_match; simplify_eq; try frame_call.
    eexists; split; [constructor; try done; [by left|]|frame_rank]. simpl. destruct e; try done. right.
    exists g, p. split; [done|]. rewrite Ep. simpl. by rewrite Epp.
  - destruct g; simpl.
    + apply coalesce_goes, backoff_gate_goes. lia.
    + apply coalesce_goes; [lia|by apply start_refresh_goes].
    + eexists; split; [constructor; try done; [by left|by left]|frame_rank].
  - case_match; simplify_eq; frame_call.
  - unfold continue_backoff. repeat case_match; frame_call.
  - unfold continue_flushed. repeat case_match; frame_call.
  - repeat case_match; simplify_eq; frame_call.
  - case_match; simplify_eq; [frame_call|].
    eapply caller_goes_le; [by apply start_join_goes|simpl; lia].
Qed.

(** * Well-formed states *)

Record tm_wf (s : tm) : Prop := {
  wf_inflight id k : refreshInFlight s !! id = Some k →
    ∃ p, tm_promises s !! k = Some p ∧ p_id p = id ∧ ¬ settled p;
  wf_fresh k : is_Some (tm_promises s !! k) → k < tm_nextPromise s;
  wf_promise k p : tm_promises s !! k = Some p →
    p_pc p ≠ PFinally (Failed RefreshNotFound) ∧ p_pc p ≠ PSettled (Failed RefreshNotFound);
  wf_caller k c : tm_callers s !! k = Some c →
    c_pc c ≠ CNoJoin JoinFinal ∧ c_pc c ≠ CDone (Failed RefreshNotFound) ∧
    ∀ g j, c_pc c = CJoin g j → is_Some (tm_promises s !! j)
}.

Lemma wf_init db : tm_wf (tm_init db).
Proof.
  split; intros *; simpl; rewrite ?lookup_empty; by (intros H; done) || intros [? ?].
Qed.

Lemma set_pc_settled pc p : settled (set_promise_pc pc p) ↔ ∃ o, pc = PSettled o.
Proof. done. Qed.

(** Promises persist. *)
Lemma alter_is_Some {A} (m : gmap Z A) f i k : is_Some (m !! k) → is_Some (alter f i m !! k).
Proof. intros [x Hx]. destruct (decide (i = k)) as [->|]; [rewrite lookup_alter_eq|rewrite lookup_alter_ne by done]; rewrite Hx; by eexists. Qed.

Lemma wf_promise_step k p pc s s' :
  tm_wf s → tm_promises s !! k = Some p → promise_step k p pc s s' →
  (unsettled_pc pc ∨ ∃ o, p_pc p = PFinally o ∧ pc = PSettled o) → tm_wf s'.
Proof.
  intros [W1 W2 W3 W4] Hk [E1 E2 E3 E4 E5 E6 E7] Hpc. split.
  - intros id j Hj. assert (refreshInFlight s !! id = Some j ∧ (j = k → unsettled_pc pc)) as [Hj' Hn].
    { destruct Hpc as [Hu|(o & Ho & ->)].
      - destruct pc; try (by rewrite E6 in Hj). by destruct (Hu o).
      - destruct E6 as [_ E6]. rewrite E6 in Hj. case_bool_decide as Hb.
        + rewrite jlookup_delete in Hj. case_decide as Hd; [done|]. split; [done|]. intros ->.
          destruct (W1 _ _ Hj) as (q & Hq & <- & _). congruence.
        + split; [done|]. intros ->. destruct (W1 _ _ Hj) as (q & Hq & <- & _). congruence. }
    destruct (W1 _ _ Hj') as (q & Hq & Hid & Hs). rewrite E1. destruct (decide (k = j)) as [<-|Hne].
    + rewrite lookup_alter_eq, Hq. simpl. eexists. split; [done|]. split; [done|]. intros [o Ho].
      simpl in Ho. by destruct (Hn eq_refl o).
    + rewrite lookup_alter_ne by done. by exists q.
  - intros j Hj. rewrite E5. apply W2. rewrite E1 in Hj. destruct (decide (k = j)) as [<-|Hne].
    + by eexists.
    + by rewrite lookup_alter_ne in Hj.
  - intros j q. rewrite E1. intros [(<- & x & Hx & ->)|(Hne & Hq)]%lookup_alter_Some; [|by eapply W3].
    simpl. split; [done|]. intros ->. destruct Hpc as [Hu|(o & Ho & [= <-])]; [by destruct (Hu (Failed RefreshNotFound))|].
    by destruct (W3 _ _ Hk).
  - intros j c. rewrite E2. intros Hc. destruct (W4 _ _ Hc) as (? & ? & Hg).
    split; [done|]. split; [done|]. intros g i Hi. rewrite E1. by eapply alter_is_Some, Hg.
Qed.

Lemma wf_caller_step k c pc s s' :
  tm_wf s → tm_callers s !! k = Some c → caller_step k c pc s s' → tm_wf s'.
Proof.
  intros [W1 W2 W3 W4] Hk [E1 E2 E3 E4 E5].
  assert (∀ i, is_Some (tm_promises s !! i) → is_Some (tm_promises s' !! i)) as Hmono.
  { intros i Hi. destruct E4 as [(-> & _)|(_ & _ & (e & ->) & _)]; [done|].
    rewrite lookup_insert_is_Some. destruct (decide (tm_nextPromise s = i)); auto. }
  assert (∀ i, is_Some (tm_promises s !! i) → tm_promises s' !! i = tm_promises s !! i) as Hsame.
  { intros i Hi. destruct E4 as [(-> & _)|(_ & _ & (e & ->) & _)]; [done|].
    apply lookup_insert_ne. apply W2 in Hi. lia. }
  assert (∀ id j, refreshInFlight s' !! id = Some j →
    ∃ p, tm_promises s' !! j = Some p ∧ p_id p = id ∧ ¬ settled p) as H1.
  { intros id j Hj. destruct E4 as [(-> & _ & Ef)|(_ & _ & (e & ->) & _ & Ef)]; rewrite Ef in Hj; [by apply W1|].
    rewrite jlookup_insert in Hj. case_decide as Hd; simplify_eq.
    - rewrite lookup_insert_eq. eexists. split; [done|]. split; [done|]. by intros [? ?].
    - destruct (W1 _ _ Hj) as (p & Hp & Hr). exists p. split; [|done].
      rewrite lookup_insert_ne; [done|]. assert (j < tm_nextPromise s) by (apply W2; eauto). lia. }
  split; [done|..].
  - intros j Hj. destruct E4 as [(Ep & -> & _)|(_ & _ & (e & Ep) & -> & _)]; rewrite Ep in Hj; [by apply W2|].
    apply lookup_insert_is_Some in Hj as [->|[_ Hj]]; [lia|]. apply W2 in Hj. lia.
  - intros j p. destruct E4 as [(-> & _)|(_ & _ & (e & ->) & _)]; [by apply W3|].
    rewrite lookup_insert. case_decide; [|by apply W3]. intros [= <-]. done.
  - intros j d. rewrite E1. intros [(<- & x & Hx & ->)|(Hne & Hd)]%lookup_alter_Some.
    + simpl. simplify_eq. destruct (W4 _ _ Hk) as (Hn & Hd & Hg). split; [intros ->; done|]. split.
      * intros ->. destruct E5 as [?|(g & i & Hi & Hs)]; [done|].
        destruct (tm_promises s !! i) as [pr|] eqn:Ei; [|done]. simpl in Hs. simplify_eq.
        destruct (W3 _ _ Ei). congruence.
      * intros g i ->. destruct (H1 _ _ E5) as (p & Hp & _). by eexists.
    + destruct (W4 _ _ Hd) as (? & ? & Hg). split; [done|]. split; [done|]. intros. by eapply Hmono, Hg.
Qed.

Lemma wf_ext s s' :
  tm_wf s → tm_promises s' = tm_promises s → tm_callers s' = tm_callers s →
  refreshInFlight s' = refreshInFlight s → tm_nextPromise s' = tm_nextPromise s → tm_wf s'.
Proof. intros [W1 W2 W3 W4] E1 E2 E3 E4. split; rewrite ?E1, ?E2, ?E3, ?E4; done. Qed.

Section runs.
Context (localDate : Z → option (Z * Z * Z)).

(** Steps whose statement or answer moves a refresh or a call on *)
Lemma answer_promise_step k p throws now s pc db :
  answer_promise localDate p throws now (tm_db s) = Some (pc, db) →
  unsettled_pc pc ∧ promise_step k p pc (set_db db s) (goto_promise k pc (set_db db s)) ∧
  (promise_rank pc < promise_rank (p_pc p))%nat.
Proof.
  unfold answer_promise. intros Ha.
  destruct (p_pc p) as [r|e|x r|x r|x r|x o|x r|x t|key r|inv b|o|o]; try done; destruct r; try done;
    (destruct (ran throws _ _) as [rr db'] eqn:E; simplify_eq; split; [done|split; [by constructor|]]).
  all: unfold ran in E; destruct throws; simplify_eq/=; lia.
Qed.

Lemma answer_caller_step k c throws now s pc db :
  answer_caller localDate c throws now (tm_db s) = Some (pc, db) →
  caller_step k c pc (set_db db s) (goto_caller k pc (set_db db s)) ∧
  (caller_rank pc < caller_rank (c_pc c))%nat.
Proof.
  unfold answer_caller. intros Ha.
  destruct (c_pc c) as [r|g p|g|t r|t ad|r|e r|o|r|t|o]; try done; destruct r; try done;
    (destruct (ran throws _ _) as [rr db'] eqn:E; simplify_eq; split; [constructor; try done; by left|]).
  all: unfold ran in E; destruct throws; simplify_eq/=; lia.
Qed.

Lemma wf_step ev s s' : tm_wf s → step localDate ev s = Some s' → tm_wf s'.
Proof.
  intros Hwf Hs. destruct ev as [k o|k r|[k|k|k] throws now|[k|k|k] now|k id|now op|o a|id|id|now];
    simpl in Hs.
  - unfold call in Hs. repeat case_match; simplify_eq; destruct Hwf as [W1 W2 W3 W4]; (split; try done);
      intros j c; simpl; rewrite lookup_insert; (case_decide; [intros [= <-]; done|apply W4]).
  - destruct (tm_promises s !! k) as [p|] eqn:Ep; [|done].
    destruct (p_pc p) as [[]| | | | | | | | | | |] eqn:Epc; simplify_eq.
    eapply (wf_promise_step _ _ (match r with inl res => PExchange (Some res) | inr e => PRejected e end));
      [done..| |left; by destruct r]. destruct r; by constructor.
  - destruct (tm_promises s !! k) as [p|] eqn:Ep; [|done]. simpl in Hs.
    destruct (answer_promise _ _ _ _ _) as [[pc db]|] eqn:Ea; simplify_eq/=.
    apply answer_promise_step with (k := k) in Ea as (Hu & Hst & _).
    eapply (wf_promise_step k p pc (set_db db s)); [|exact Ep|exact Hst|by left]. by apply (wf_ext s).
  - destruct (tm_callers s !! k) as [c|] eqn:Ec; [|done]. simpl in Hs.
    destruct (answer_caller _ _ _ _ _) as [[pc db]|] eqn:Ea; simplify_eq/=.
    apply answer_caller_step with (k := k) in Ea as [Ea _].
    eapply (wf_caller_step k c pc (set_db db s)); [|exact Ec|exact Ea]. by apply (wf_ext s).
  - destruct (tm_flushes s !! k) as [f|]; [|done]. simpl in Hs.
    destruct (answer_flush _ _ _ _ _) as [[f' db]|]; simplify_eq/=. by apply (wf_ext s).
  - destruct (tm_promises s !! k) as [p|] eqn:Ep; [|done]. simpl in Hs.
    apply continue_promise_goes in Hs as (pc & Hst & Hpc & _). by eapply wf_promise_step.
  - destruct (tm_callers s !! k) as [c|] eqn:Ec; [|done]. simpl in Hs.
    apply continue_caller_goes in Hs as (pc & Hst & _). by eapply wf_caller_step.
  - destruct (tm_flushes s !! k) as [f|]; [|done]. simpl in Hs. unfold continue_flush in Hs.
    destruct (f_reply f); simplify_eq; by apply (wf_ext s).
  - repeat case_match; simplify_eq. by apply (wf_ext s).
  - simplify_eq. by apply (wf_ext s).
  - simplify_eq. by apply (wf_ext s).
  - simplify_eq. destruct Hwf as [W1 W2 W3 W4]. split; try done. intros i j Hj. simpl in Hj.
    rewrite jlookup_delete in Hj. case_decide; [done|]. by apply W1.
  - simplify_eq. by apply (wf_ext s).
  - simplify_eq. by apply (wf_ext s).
Qed.

Lemma run_app evs evs' s :
  TokenManager.run localDate (evs ++ evs') s =
    (TokenManager.run localDate evs s ≫= TokenManager.run localDate evs').
Proof.
  revert s. induction evs as [|ev evs IH]; intros s; [done|]. simpl.
  destruct (step localDate ev s); simpl; [apply IH|done].
Qed.

(** An invariant of steps is an invariant of runs. *)
Lemma run_invariant (P : tm → Prop) (ok : event → Prop) evs s s' :
  (∀ ev s s', ok ev → P s → step localDate ev s = Some s' → P s') →
  Forall ok evs → P s → TokenManager.run localDate evs s = Some s' → P s'.
Proof.
  intros Hstep Hok. revert s. induction Hok as [|ev evs Hev Hok IH]; intros s Hp Hr; simpl in Hr; [congruence|].
  destruct (step localDate ev s) as [s1|] eqn:E; [|done]. simpl in Hr. eapply IH; [|done]. by eapply Hstep.
Qed.

Lemma wf_run evs s s' : tm_wf s → TokenManager.run localDate evs s = Some s' → tm_wf s'.
Proof.
  intros Hwf Hr. eapply (run_invariant tm_wf (λ _, True)); [|by apply Forall_true|done..].
  intros ev s1 s2 _. apply wf_step.
Qed.

(** * One refresh at a time *)

(** Every refresh of the account under way is the one callers join. *)
Definition sole_refresh (id : string) (s : tm) : Prop :=
  ∀ k p, tm_promises s !! k = Some p → p_id p = id → ¬ settled p →
    refreshInFlight s !! id = Some k.

Lemma sole_promise_step id k p pc s s' :
  sole_refresh id s → tm_promises s !! k = Some p → promise_step k p pc s s' → ¬ settled p →
  sole_refresh id s'.
Proof.
  intros Hsole Hk [E1 E2 E3 E4 E5 E6 E7] Hlive j q Hj Hid Hns. rewrite E1 in Hj.
  apply lookup_alter_Some in Hj as [(<- & x & Hx & ->)|(Hne & Hj)].
  - simplify_eq/=. destruct pc; try (by rewrite E6; eapply Hsole). destruct Hns. by eexists.
  - specialize (Hsole _ _ Hj Hid Hns).
    destruct pc; try (by rewrite E6). destruct E6 as [_ E6]. rewrite E6. case_bool_decide as Hb; [|done].
    rewrite jlookup_delete. case_decide as Hd; [|done]. exfalso. rewrite Hd in Hb. congruence.
Qed.

Lemma answer_promise_live p throws now db pc db' :
  answer_promise localDate p throws now db = Some (pc, db') → ¬ settled p.
Proof. unfold answer_promise. by intros Ha [o Ho]; rewrite Ho in Ha. Qed.

Lemma continue_promise_live k p now s s' : continue_promise k p now s = Some s' → ¬ settled p.
Proof. unfold continue_promise. by intros Ha [o Ho]; rewrite Ho in Ha. Qed.

Lemma sole_caller_step id k c pc s s' :
  tm_wf s → sole_refresh id s → caller_step k c pc s s' → sole_refresh id s'.
Proof.
  intros Hwf Hsole [E1 E2 E3 E4 E5] j q Hj Hid Hns.
  destruct E4 as [(Ep & _ & Ef)|(Hn & _ & (e & Ep) & _ & Ef)]; rewrite Ep in Hj; rewrite Ef; [by eapply Hsole|].
  rewrite lookup_insert in Hj. case_decide as Hd; simplify_eq/=.
  - by rewrite jlookup_insert_eq.
  - pose proof (Hsole _ _ Hj eq_refl Hns). rewrite jlookup_insert_ne; [done|]. congruence.
Qed.

Definition keeps_cache (id : string) (ev : event) : Prop := ev ≠ TClearCache id.

Lemma sole_step id ev s s' :
  keeps_cache id ev → tm_wf s ∧ sole_refresh id s → step localDate ev s = Some s' →
  tm_wf s' ∧ sole_refresh id s'.
Proof.
  intros Hev [Hwf Hsole] Hs. split; [by eapply wf_step|].
  destruct ev as [k o|k r|[k|k|k] throws now|[k|k|k] now|k i|now op|o a|i|i|now]; simpl in Hs.
  - unfold call in Hs. repeat case_match; simplify_eq; done.
  - destruct (tm_promises s !! k) as [p|] eqn:Ep; [|done].
    destruct (p_pc p) as [[]| | | | | | | | | | |] eqn:Epc; simplify_eq.
    eapply (sole_promise_step _ k p (match r with inl res => PExchange (Some res) | inr e => PRejected e end));
      [done..| |by intros [o Ho]; rewrite Ho in Epc]. destruct r; by constructor.
  - destruct (tm_promises s !! k) as [p|] eqn:Ep; [|done]. simpl in Hs.
    destruct (answer_promise _ _ _ _ _) as [[pc db]|] eqn:Ea; simplify_eq/=.
    pose proof (answer_promise_live _ _ _ _ _ _ Ea). apply answer_promise_step with (k := k) in Ea as (Hu & Hst & _).
    by eapply (sole_promise_step _ k p pc (set_db db s)); [|exact Ep|exact Hst|].
  - destruct (tm_callers s !! k) as [c|] eqn:Ec; [|done]. simpl in Hs.
    destruct (answer_caller _ _ _ _ _) as [[pc db]|] eqn:Ea; simplify_eq/=. done.
  - destruct (tm_flushes s !! k) as [f|]; [|done]. simpl in Hs.
    destruct (answer_flush _ _ _ _ _) as [[f' db]|]; simplify_eq/=. done.
  - destruct (tm_promises s !! k) as [p|] eqn:Ep; [|done]. simpl in Hs.
    pose proof (continue_promise_live _ _ _ _ _ Hs).
    apply continue_promise_goes in Hs as (pc & Hst & Hpc & _). by eapply sole_promise_step.
  - destruct (tm_callers s !! k) as [c|] eqn:Ec; [|done]. simpl in Hs.
    apply continue_caller_goes in Hs as (pc & Hst & _). by eapply sole_caller_step.
  - destruct (tm_flushes s !! k) as [f|]; [|done]. simpl in Hs. unfold continue_flush in Hs.
    destruct (f_reply f); simplify_eq; done.
  - repeat case_match; simplify_eq. done.
  - by simplify_eq.
  - by simplify_eq.
  - simplify_eq. intros j q Hj Hid Hns. simpl. rewrite jlookup_delete_ne; [by eapply Hsole|].
    intros ->. by apply Hev.
  - by simplify_eq.
  - by simplify_eq.
Qed.

(** C24: A refresh at a time, among the refreshes that refreshAccessTokenSafe starts (those of
    proactive-token-refresh.ts are not in the machine). While its refresh cache is not
    cleared, an account never has two under way: of one refresh token no second exchange is sent before the first
    has been answered and its result handled. In any run, cleared or not, whatever is
    registered as in flight is a refresh of that very account that has not ended, so a call
    never joins one that is over or another account's. *)
Theorem refresh_single_flight db evs s id :
  TokenManager.run localDate evs (tm_init db) = Some s →
  (∀ k, refreshInFlight s !! id = Some k →
     ∃ p, tm_promises s !! k = Some p ∧ p_id p = id ∧ ¬ settled p) ∧
  (Forall (keeps_cache id) evs → ∀ k k' p p',
     tm_promises s !! k = Some p → tm_promises s !! k' = Some p' → p_id p = id → p_id p' = id →
     ¬ settled p → ¬ settled p' → k = k').
Proof.
  intros Hr. pose proof (wf_run _ _ _ (wf_init db) Hr) as Hwf. split; [apply Hwf|].
  intros Hok k k' p p' Hk Hk' Hid Hid' Hs Hs'.
  assert (tm_wf s ∧ sole_refresh id s) as [_ Hsole].
  { eapply (run_invariant (λ s, tm_wf s ∧ sole_refresh id s)); [apply sole_step|done| |done].
    split; [apply wf_init|]. intros j q Hj. simpl in Hj. by rewrite lookup_empty in Hj. }
  pose proof (Hsole _ _ Hk Hid Hs). pose proof (Hsole _ _ Hk' Hid' Hs'). congruence.
Qed.

(** * Every call is answered *)

(** The outside world and the host's queue at work: no new call, no other writer *)
Definition answering (ev : event) : Prop :=
  match ev with TExchange _ _ | TAnswer _ _ _ | TContinue _ _ => True | _ => False end.

(** The sum of a rank over the tasks of one kind *)
Definition msum {A} (f : A → nat) (m : gmap Z A) : nat := map_fold (λ _ x n, f x + n)%nat 0%nat m.

Definition work (s : tm) : nat :=
  (msum (promise_rank ∘ p_pc) (tm_promises s) + msum (caller_rank ∘ c_pc) (tm_callers s)
   + msum flush_rank (tm_flushes s))%nat.

Lemma msum_insert {A} (f : A → nat) m k x :
  m !! k = None → msum f (<[k := x]> m) = (f x + msum f m)%nat.
Proof. intros Hk. unfold msum. apply (map_fold_insert_L (λ (_ : Z) x n, (f x + n)%nat)); [intros; lia|done]. Qed.

Lemma msum_delete {A} (f : A → nat) m k x :
  m !! k = Some x → msum f m = (f x + msum f (delete k m))%nat.
Proof. intros Hk. unfold msum. apply (map_fold_delete_L (λ (_ : Z) x n, (f x + n)%nat)); [intros; lia|done]. Qed.

Lemma msum_replace {A} (f : A → nat) m k x y :
  m !! k = Some x → (msum f (<[k := y]> m) + f x = msum f m + f y)%nat.
Proof.
  intros Hk. rewrite <-insert_delete_eq, msum_insert by apply lookup_delete_eq.
  rewrite (msum_delete f m k x) by done. lia.
Qed.

Lemma msum_alter {A} (f : A → nat) m g k x :
  m !! k = Some x → (msum f (alter g k m) + f x = msum f m + f (g x))%nat.
Proof.
  intros Hk. replace (alter g k m) with (<[k := g x]> m); [by apply msum_replace|].
  apply map_eq. intros i. rewrite lookup_insert, lookup_alter. case_decide; simplify_eq; by rewrite ?Hk.
Qed.

Lemma promise_step_work k p pc s s' :
  tm_promises s !! k = Some p → promise_step k p pc s s' →
  (promise_rank pc < promise_rank (p_pc p))%nat → (work s' < work s)%nat.
Proof.
  intros Hk [E1 E2 E3 E4 E5 E6 E7] Hn. unfold work. rewrite E1, E2, E3.
  pose proof (msum_alter (promise_rank ∘ p_pc) _ (set_promise_pc pc) _ _ Hk) as Hm. simpl in Hm. lia.
Qed.

Lemma caller_step_work k c pc s s' :
  tm_wf s → tm_callers s !! k = Some c → caller_step k c pc s s' →
  (caller_rank pc + (if bool_decide (tm_nextPromise s' = tm_nextPromise s) then 0 else 15)
     < caller_rank (c_pc c))%nat → (work s' < work s)%nat.
Proof.
  intros Hwf Hk [E1 E2 E3 E4 E5] Hn. unfold work. rewrite E1, E2.
  pose proof (msum_alter (caller_rank ∘ c_pc) _ (set_caller_pc pc) _ _ Hk) as Hm. simpl in Hm.
  destruct E4 as [(-> & _)|(_ & _ & (e & ->) & Ex & _)]; [lia|].
  rewrite msum_insert.
  - rewrite bool_decide_eq_false_2 in Hn by lia. simpl. lia.
  - apply eq_None_not_Some. intros Hs%(wf_fresh _ Hwf). lia.
Qed.

(** Each answer is progress. *)
Lemma answering_work ev s s' :
  answering ev → tm_wf s → step localDate ev s = Some s' → (work s' < work s)%nat.
Proof.
  intros Hev Hwf Hs. destruct ev as [k o|k r|[k|k|k] throws now|[k|k|k] now|k i|now op|o a|i|i|now];
    try done; simpl in Hs.
  - destruct (tm_promises s !! k) as [p|] eqn:Ep; [|done].
    destruct (p_pc p) as [[]| | | | | | | | | | |] eqn:Epc; simplify_eq.
    eapply (promise_step_work k p (match r with inl res => PExchange (Some res) | inr e => PRejected e end));
      [done| |rewrite Epc; destruct r; simpl; lia]. destruct r; by constructor.
  - destruct (tm_promises s !! k) as [p|] eqn:Ep; [|done]. simpl in Hs.
    destruct (answer_promise _ _ _ _ _) as [[pc db]|] eqn:Ea; simplify_eq/=.
    apply answer_promise_step with (k := k) in Ea as (_ & Hst & Hn).
    by apply (promise_step_work k p pc (set_db db s)).
  - destruct (tm_callers s !! k) as [c|] eqn:Ec; [|done]. simpl in Hs.
    destruct (answer_caller _ _ _ _ _) as [[pc db]|] eqn:Ea; simplify_eq/=.
    apply answer_caller_step with (k := k) in Ea as [Hst Hn].
    apply (caller_step_work k c pc (set_db db s)); [by apply (wf_ext s)|done..|].
    simpl. rewrite bool_decide_eq_true_2 by done. lia.
  - destruct (tm_flushes s !! k) as [f|] eqn:Ef; [|done]. simpl in Hs. unfold answer_flush in Hs.
    destruct (f_reply f) eqn:Er; try done. destruct (ran _ _ _) as [r db] eqn:E; simplify_eq/=.
    unfold work. simpl. match goal with |- context [<[k:=?f']> _] =>
      pose proof (msum_replace flush_rank _ _ _ f' Ef) as Hm end.
    unfold flush_rank in Hm at 2 4. rewrite Er in Hm.
    unfold ran in E; destruct throws; simplify_eq/=; lia.
  - destruct (tm_promises s !! k) as [p|] eqn:Ep; [|done]. simpl in Hs.
    apply continue_promise_goes in Hs as (pc & Hst & _ & Hn). by eapply promise_step_work.
  - destruct (tm_callers s !! k) as [c|] eqn:Ec; [|done]. simpl in Hs.
    apply continue_caller_goes in Hs as (pc & Hst & Hn). by eapply caller_step_work.
  - destruct (tm_flushes s !! k) as [f|] eqn:Ef; [|done]. simpl in Hs. unfold continue_flush in Hs.
    pose proof (msum_delete flush_rank _ _ _ Ef) as Hm. unfold flush_rank in Hm at 2.
    unfold work. destruct (f_reply f); simplify_eq/=; lia.
Qed.

(** Whatever is not done can move, whatever the world answers. *)
Lemma promise_enabled k p s :
  tm_promises s !! k = Some p → ¬ settled p →
  ∃ ev, answering ev ∧ is_Some (step localDate ev s).
Proof.
  intros Hk Hs.
  assert (∀ pc, p_pc p = pc → match pc with
      | PExchange None | PPersist _ waiting | PRetryRead _ waiting | PRetryWrite _ waiting
      | PAdopt _ waiting | PPause _ waiting | PSettled _ => True
      | _ => ∃ s', continue_promise k p 0 s = Some s' end) as Hc.
  { intros pc Epc. unfold continue_promise. rewrite Epc.
    destruct pc as [[]|e|x [| |[]]|x [| |row]|x [| |[]]|x o|x []|x t|key []|inv b|o|o]; try done; try (by eexists).
    all: simpl; repeat case_match; by eexists. }
  destruct (p_pc p) as [[]|e|x [| |b]|x [| |row]|x [| |b]|x o|x []|x t|key []|inv b|o|o] eqn:Epc;
    try (pose proof (Hc _ eq_refl) as Hp; cbn iota beta in Hp;
         lazymatch type of Hp with ex _ => destruct Hp as [s' Hs'] end;
         exists (TContinue (Promise k) 0); simpl; rewrite Hk; simpl;
         rewrite Hs'; split; [done|by eexists]).
  1: { exists (TExchange k (inr {| err_typed := false; err_message := "" |})). simpl. rewrite Hk, Epc.
       split; [done|by eexists]. }
  1-5: exists (TAnswer (Promise k) true 0); simpl; rewrite Hk; unfold answer_promise; simpl; rewrite Epc;
       split; [done|by eexists].
  destruct Hs. by eexists.
Qed.

Lemma caller_enabled k c s :
  tm_wf s → tm_callers s !! k = Some c → (∃ o, c_pc c = CDone o) ∨
  ∃ ev, answering ev ∧ is_Some (step localDate ev s).
Proof.
  intros Hwf Hk. destruct (c_pc c) as [[]|g j|g|t []|t ad|[]|e [| |b]|o|[]|t|o] eqn:Ec;
    try (by left; eexists); right.
  all: try (exists (TAnswer (Caller k) true 0); simpl; rewrite Hk; unfold answer_caller; simpl; rewrite Ec;
            split; [done|by eexists]).
  all: try (exists (TContinue (Caller k) 0); simpl; rewrite Hk; unfold continue_caller; simpl; rewrite Ec;
            split; [done|]; simpl; repeat case_match; by eexists).
  destruct (wf_caller _ Hwf _ _ Hk) as (_ & _ & Hj). destruct (Hj _ _ Ec) as [p Hp].
  destruct (decide (settled p)) as [[o Ho]|Hs]; [|by eapply promise_enabled].
  exists (TContinue (Caller k) 0). split; [done|]. simpl. rewrite Hk. simpl. unfold continue_caller.
  rewrite Ec, Hp. simpl. rewrite Ho. by eexists.
Qed.

(** C25: Every call is answered. From any state a run reaches, the answers of the provider and
    of the database, errors included, and the continuations they wake go on only for a
    bounded number of steps; and when nothing is left to answer or continue, every call has
    ended, in a token or an error of its own, never because a refresh it should have joined
    is missing. *)
Theorem refresh_answers db evs s :
  TokenManager.run localDate evs (tm_init db) = Some s →
  ∀ evs' s', Forall answering evs' → TokenManager.run localDate evs' s = Some s' →
  (length evs' <= work s)%nat ∧
  ((∀ ev, answering ev → step localDate ev s' = None) →
   ∀ k c, tm_callers s' !! k = Some c → ∃ o, c_pc c = CDone o ∧ o ≠ Failed RefreshNotFound).
Proof.
  intros Hr evs' s' Hans Hr'. pose proof (wf_run _ _ _ (wf_init db) Hr) as Hwf. split.
  - clear Hr. revert s Hwf Hr'. induction Hans as [|ev evs' Hev Hans IH]; intros s Hwf Hr'; simpl in *; [lia|].
    destruct (step localDate ev s) as [s1|] eqn:E; [|done]. simpl in Hr'.
    pose proof (answering_work _ _ _ Hev Hwf E). specialize (IH s1 (wf_step _ _ _ Hwf E) Hr'). lia.
  - intros Hstop k c Hk. pose proof (wf_run _ _ _ Hwf Hr') as Hwf'.
    destruct (caller_enabled k c s' Hwf' Hk) as [[o Ho]|(ev & Hev & [s2 Hs2])].
    + exists o. split; [done|]. intros ->. by destruct (wf_caller _ Hwf' _ _ Hk) as (_ & ? & _).
    + by rewrite (Hstop ev Hev) in Hs2.
Qed.
End runs.

(** * Concrete runs *)

(** Calls on one account object, from a row whose access token has expired *)
Definition demo_object : event := TObject 1 (toAccount "a1" (demo_row None None 0)).

Definition mint (n : string) : TokenRefreshResult :=
  {| res_accessToken := "at-" ++ n; res_expiresAt := 100000000; res_refreshToken := Some n;
     res_refreshTokenExpiresAt := None; res_identity := None |}.

(** A call up to its flush of a pending entry *)
Definition demo_call (k now : Z) : list event :=
  [TCall k 1; TAnswer (Caller k) false now; TContinue (Caller k) now; TContinue (Caller k) now].
(** Nothing is pending: it reads the row and finds nothing newer. *)
Definition demo_reread (k now : Z) : list event :=
  [TContinue (Caller k) now; TAnswer (Caller k) false now; TContinue (Caller k) now;
   TContinue (Caller k) now].
(** The refresh [p] gets the refresh token [n]; its write lands or [throws]. *)
Definition demo_exchange (p now : Z) (n : string) : list event :=
  [TExchange p (inl (mint n)); TContinue (Promise p) now].
Definition demo_end (k p now : Z) (throws : bool) : list event :=
  [TAnswer (Promise p) throws now; TContinue (Promise p) now; TContinue (Promise p) now;
   TContinue (Caller k) now].

Definition demo_start : list event :=
  demo_object :: demo_call 1 1000 ++ demo_reread 1 1000 ++ [TContinue (Caller 1) 1000].
Definition demo_first (throws : bool) : list event :=
  demo_start ++ demo_exchange 0 2000 "rt2" ++ demo_end 1 0 3000 throws.

(** The tasks of a state *)
Definition tasks (s : tm) : list (Z * promise_pc) * list (Z * caller_pc) :=
  (map_to_list (p_pc <$> tm_promises s), map_to_list (c_pc <$> tm_callers s)).

(** A second call joins the refresh of the first. *)
Definition demo_two : list event := demo_start ++ [TCall 2 1; TAnswer (Caller 2) false 1500; TContinue (Caller 2) 1500].

Lemma demo_two_runs :
  tasks <$> TokenManager.run no_calendar demo_two (tm_init (demo_db (demo_row None None 0))) =
    Some ([(0, PExchange None)], [(2, CJoin JoinFirst 0); (1, CJoin JoinFinal 0)]).
Proof. vm_compute. reflexivity. Qed.

Lemma refresh_single_flight_witness :
  ∃ s, TokenManager.run no_calendar demo_two (tm_init (demo_db (demo_row None None 0))) = Some s ∧
    tasks s = ([(0, PExchange None)], [(2, CJoin JoinFirst 0); (1, CJoin JoinFinal 0)]) ∧
    ∀ k k' p p', tm_promises s !! k = Some p → tm_promises s !! k' = Some p' →
      p_id p = "a1"%string → p_id p' = "a1"%string → ¬ settled p → ¬ settled p' → k = k'.
Proof.
  pose proof demo_two_runs as H. destruct (TokenManager.run _ _ _) as [s|] eqn:E; [|done].
  exists s. simpl in H. split; [done|]. split; [congruence|].
  apply (refresh_single_flight no_calendar _ _ _ "a1" E).
  repeat (constructor; [done|]). constructor.
Defined.

Definition demo_answers : list event :=
  demo_exchange 0 2000 "rt2" ++ demo_end 1 0 3000 false ++ [TContinue (Caller 2) 4000].

Lemma demo_answers_run :
  tasks <$> TokenManager.run no_calendar (demo_two ++ demo_answers)
              (tm_init (demo_db (demo_row None None 0))) =
    Some ([(0, PSettled (Token "at-rt2"))],
          [(2, CDone (Token "at-rt2")); (1, CDone (Token "at-rt2"))]).
Proof. vm_compute. reflexivity. Qed.

Lemma refresh_answers_witness :
  ∃ s s', TokenManager.run no_calendar demo_two (tm_init (demo_db (demo_row None None 0))) = Some s ∧
    TokenManager.run no_calendar demo_answers s = Some s' ∧
    tasks s' = ([(0, PSettled (Token "at-rt2"))],
                [(2, CDone (Token "at-rt2")); (1, CDone (Token "at-rt2"))]) ∧
    (length demo_answers <= work s)%nat.
Proof.
  pose proof demo_answers_run as H. rewrite run_app in H.
  destruct (TokenManager.run no_calendar demo_two _) as [s|] eqn:E; [|done]. cbn [mbind option_bind] in H.
  destruct (TokenManager.run no_calendar demo_answers s) as [s'|] eqn:E'; [|done].
  exists s, s'. split; [done|]. split; [done|]. split; [by apply (inj Some) in H|].
  apply (refresh_answers no_calendar _ _ _ E demo_answers s'); [|done].
  repeat (constructor; [done|]). constructor.
Defined.
