(* ===== verification/TokenDurability.v ===== *)
(** Where the live refresh token is while TokenManager refreshes: in the row, in the
    pending-rotation registry, or in the refresh that has just minted it.

    The provider is a second component: it holds one live refresh token of the account, an
    exchange of any other is an invalid grant, and a token it mints is new. For one account
    the state is abstracted to the token of its row, its pending entry and its flushes in
    flight ([core], one predicate for each stage of a refresh); the steps of the machine move
    between the stages. *)

From S2P Require Import Prelude Accounts AccountRepo Rotation StableSort TokenManager TokenSafety.
Open Scope Z_scope.

Abbreviation entry := PendingRotation.
Abbreviation anchor := pr_attemptedRefreshToken.

(** The flushes of the account in flight: an entry and the answer to its write *)
Abbreviation flights := (entry → reply bool → Prop).

(** Where the refresh of the account stands *)
Inductive stage : Type :=
  | Idle                                   (* nothing minted that is not accounted for *)
  | Pre (β : string) (W : option entry)    (* minted by exchanging β, not yet written *)
  | Wrote (W : option entry)               (* the write landed *)
  | Missed (e : entry).                    (* the write missed: a flush of e had landed *)

Definition only (W : option entry) (F : flights) : Prop := ∀ f r, F f r → W = Some f.

(** The entry, or the row, holds the token μ; the entry names the token of the row, or is
    about to be rebased by a flush that landed. *)
Definition base (μ : string) (ρ : option string) (E : option entry) (F : flights) : Prop :=
  (E = None → ρ = Some μ) ∧
  (∀ e, E = Some e → written_token e = μ ∧
     (ρ = Some (anchor e) ∨
      ∃ f, F f (answered true) ∧ ρ = Some (written_token f) ∧ anchor f = anchor e)) ∧
  (∀ f, F f (answered false) → E ≠ Some f).

Definition core (λv : string) (st : stage) (ρ : option string) (E : option entry) (F : flights)
    : Prop :=
  match st with
  | Idle =>
      base λv ρ E F ∧
      (∀ f, F f (answered true) → ρ = Some (written_token f) ∨ E = None)
  | Pre β W =>
      base β ρ E F ∧ (∀ f, F f (answered true) → ρ = Some (written_token f)) ∧
      only W F ∧ (E = W ∨ E = None) ∧
      (∀ f r, F f r → anchor f = β → written_token f = β)
  | Wrote W => ρ = Some λv ∧ only W F ∧ (E = W ∨ E = None)
  | Missed e =>
      ρ = Some (written_token e) ∧ anchor e ≠ written_token e ∧ only (Some e) F ∧
      (E = Some e ∨ E = None)
  end.

(** A flush whose anchor is the live token writes the live token. *)
Definition harmless (λv : string) (F : flights) : Prop :=
  ∀ f r, F f r → anchor f = λv → written_token f = λv.

(** One flush changes: from [r0] to [r'], absent before or after if [None]. *)
Record moves (F F' : flights) (e : entry) (r0 r' : option (reply bool)) : Prop := {
  mv_new f r : F' f r → F f r ∨ (f = e ∧ r' = Some r);
  mv_old f r : F f r → F' f r ∨ (f = e ∧ r0 = Some r);
  mv_to r : r' = Some r → F' e r;
  mv_from r : r0 = Some r → F e r
}.

Definition landed_or_missed (r : option (reply bool)) : Prop :=
  match r with Some (answered _) => True | _ => False end.

(** What the settlement of a flush of [f] does to the pending entry; [n] is the identity of
    a rebased one. *)
Definition settle_entry (f : entry) (b : bool) (n : Z) (E : option entry) : option entry :=
  match E with
  | None => None
  | Some e =>
      if bool_decide (pr_ref e = pr_ref f) then None
      else if b then Some (rebased (written_token f) n e) else Some e
  end.

Lemma base_mono μ ρ E F F' :
  (∀ f b, F' f (answered b) → F f (answered b)) → (∀ f, F f (answered true) → F' f (answered true)) →
  base μ ρ E F → base μ ρ E F'.
Proof.
  intros H1 H2 (B1 & B2 & B3). split; [done|]. split; [|intros f Hf; by apply B3, H1].
  intros e He. destruct (B2 e He) as [Hw [Ha|(f & Hf & ?)]]; (split; [done|]); [by left|].
  right. exists f. split; [by apply H2|done].
Qed.

(** A flush that starts, and one whose write throws *)
Section quiet.
Context (E : option entry) (F F' : flights) (e : entry) (r0 r' : option (reply bool)).
Context (Hmv : moves F F' e r0 r') (Hr0 : ¬ landed_or_missed r0) (Hr' : ¬ landed_or_missed r').
Context (He : E = Some e ∨ is_Some r0).

Lemma quiet_answered f b : F' f (answered b) ↔ F f (answered b).
Proof.
  split; [intros [?|[-> ->]]%(mv_new _ _ _ _ _ Hmv)|intros [?|[-> ->]]%(mv_old _ _ _ _ _ Hmv)]; try done.
Qed.

Lemma quiet_in f r : F' f r → (∃ r1, F f r1) ∨ E = Some f.
Proof.
  intros [?|[-> Hr]]%(mv_new _ _ _ _ _ Hmv); [by left; eexists|]. destruct He as [?|[x Hx]]; [by right|].
  left. exists x. by eapply mv_from.
Qed.

Lemma quiet_only W : E = W ∨ E = None → only W F → only W F'.
Proof. intros HW Ho f r [[r1 Hf]|Hf]%quiet_in; [by eapply Ho|]. destruct HW; congruence. Qed.

Lemma core_quiet λv st ρ : core λv st ρ E F → core λv st ρ E F'.
Proof.
  assert (∀ μ, base μ ρ E F → base μ ρ E F') as Hb.
  { intros μ. apply base_mono; intros *; apply quiet_answered. }
  destruct st as [|β W|W|e0]; simpl.
  - intros [H1 H2]. split; [by apply Hb|]. intros f Hf. by apply H2, quiet_answered.
  - intros (H1 & H2 & H3 & H4 & H5). split; [by apply Hb|]. split; [intros f Hf; by apply H2, quiet_answered|].
    split; [by apply quiet_only|]. split; [done|]. intros f r [[r1 Hf]|Hf]%quiet_in Ha; [by eapply H5|].
    by apply H1.
  - intros (H1 & H2 & H3). split; [done|]. split; [by apply quiet_only|done].
  - intros (H1 & H2 & H3 & H4). split; [done|]. split; [done|]. split; [by apply quiet_only|done].
Qed.

Lemma harmless_quiet λv :
  (∀ f, E = Some f → anchor f = λv → written_token f = λv) → harmless λv F → harmless λv F'.
Proof. intros HE Hh f r [[r1 Hf]|Hf]%quiet_in Ha; [by eapply Hh|by apply HE]. Qed.
End quiet.

(** The write of a flush runs: it lands exactly if the row still holds the anchor. *)
Lemma core_answer λv st ρ E F F' e b :
  moves F F' e (Some waiting) (Some (answered b)) →
  b = bool_decide (ρ = Some (anchor e)) → (∀ f b, ¬ F f (answered b)) → harmless λv F →
  core λv st ρ E F →
  core λv st (if b then Some (written_token e) else ρ) E F'.
Proof.
  intros [M1 M2 M3 M4] Hb Hno Hh Hc.
  assert (F e waiting) as He by by apply M4.
  assert (∀ f b', F' f (answered b') → f = e ∧ b' = b) as Hn.
  { intros f b' [Hf|[-> [= ->]]]%M1; [by destruct (Hno _ _ Hf)|done]. }
  assert (∀ W, only W F → only W F') as Ho.
  { intros W Ho f r [Hf|[-> _]]%M1; [by eapply Ho|by eapply Ho]. }
  assert (∀ μ, (anchor e = μ → written_token e = μ) → base μ ρ E F →
    base μ (if b then Some (written_token e) else ρ) E F') as Hbase.
  { intros μ Hμ (B1 & B2 & B3). destruct b; symmetry in Hb; [apply bool_decide_eq_true in Hb|apply bool_decide_eq_false in Hb].
    - split; [intros HE; rewrite Hμ; [done|]; specialize (B1 HE); congruence|]. split.
      + intros e1 He1. destruct (B2 _ He1) as [Hw [Ha|(f & Hf & _)]]; [|by destruct (Hno _ _ Hf)].
        split; [done|]. right. exists e. split; [by apply M3|]. split; [done|congruence].
      + intros f Hf. by apply Hn in Hf as [_ ?].
    - split; [done|]. split.
      + intros e1 He1. destruct (B2 _ He1) as [Hw [Ha|(f & Hf & _)]]; [|by destruct (Hno _ _ Hf)]. auto.
      + intros f Hf HE. apply Hn in Hf as [-> _]. destruct (B2 _ HE) as [_ [Ha|(f & Hf & _)]]; [done|].
        by destruct (Hno _ _ Hf). }
  assert (∀ f, F' f (answered true) → (if b then Some (written_token e) else ρ) = Some (written_token f)) as Hland.
  { intros f Hf. apply Hn in Hf as [-> <-]. done. }
  destruct st as [|β W|W|e0]; simpl in *.
  - destruct Hc as [H1 H2]. split; [apply Hbase; [by eapply Hh|done]|]. intros f Hf. left. by apply Hland.
  - destruct Hc as (H1 & H2 & H3 & H4 & H5). split; [apply Hbase; [by eapply H5|done]|].
    split; [done|]. split; [by apply Ho|]. split; [done|].
    intros f r [Hf|[-> _]]%M1; [by eapply H5|by eapply H5].
  - destruct Hc as (H1 & H2 & H3). split; [|split; [by apply Ho|done]].
    destruct b; [|done]. symmetry in Hb. apply bool_decide_eq_true in Hb. f_equal.
    eapply Hh; [done|]. congruence.
  - destruct Hc as (H1 & H2 & H3 & H4). destruct b.
    + symmetry in Hb. apply bool_decide_eq_true in Hb. specialize (H3 _ _ He). congruence.
    + split; [done|]. split; [done|]. split; [by apply Ho|done].
Qed.

(** A flush settles. *)
Lemma core_settle λv st ρ E F F' e b n :
  moves F F' e (Some (answered b)) None →
  (∀ f r, F f r → pr_ref f < n) → (∀ f, E = Some f → pr_ref f = pr_ref e → f = e) → harmless λv F →
  core λv st ρ E F → core λv st ρ (settle_entry e b n E) F'.
Proof.
  intros [M1 M2 M3 M4] Hfresh Hid Hh Hc.
  assert (F e (answered b)) as He by by apply M4.
  assert (∀ f r, F' f r → F f r) as Hsub by (intros f r [?|[_ ?]]%M1; done).
  assert (∀ f r, F f r → r ≠ answered b → F' f r) as Hkeep.
  { intros f r [?|[-> [= <-]]]%M2 ?; done. }
  assert (∀ W, only W F → only W F') as Ho by (intros W Ho f r Hf; by eapply Ho, Hsub).
  assert (∀ W, only W F → E = W ∨ E = None → settle_entry e b n E = W ∨ settle_entry e b n E = None) as HW.
  { intros W HoW HE. specialize (HoW _ _ He) as ->. destruct HE as [->| ->]; [|by right].
    simpl. rewrite bool_decide_eq_true_2 by done. by right. }
  assert (∀ μ, (anchor e = μ → written_token e = μ) → (∀ f, F f (answered true) → anchor f = μ → written_token f = μ) →
    (E ≠ None → ∀ f, F f (answered true) → ρ = Some (written_token f)) →
    base μ ρ E F → base μ ρ (settle_entry e b n E) F') as Hbase.
  { intros μ Hμ Hμs Hland (B1 & B2 & B3). destruct E as [e1|]; simpl.
    2: { split; [done|]. split; [done|]. intros f Hf. by apply B3, Hsub. }
    specialize (Hland ltac:(done)). destruct (B2 e1 eq_refl) as [Hw Hd]. case_bool_decide as Hr.
    - apply Hid in Hr as ->; [|done]. destruct b.
      + split; [intros _; rewrite (Hland e) by done; congruence|]. split; [done|]. done.
      + by destruct (B3 e He).
    - destruct b.
      + specialize (Hland e He). split; [done|]. split; [|intros f Hf [= <-]; apply Hsub, Hfresh in Hf; simpl in Hf; lia].
        intros e2 [= <-]. split; [|by left]. unfold written_token in *. simpl. destruct (pr_refreshToken e1) as [t|]; [done|].
        simpl in Hw. destruct Hd as [Ha|(f & Hf & Ha & Hfa)]; [simpl in *; congruence|].
        simpl in Hw. rewrite Hland in Ha. injection Ha as Ha. simpl. rewrite Ha. apply Hμs; [done|congruence].
      + split; [done|]. split; [|intros f Hf; by apply B3, Hsub].
        intros e2 [= <-]. split; [done|]. destruct Hd as [Ha|(f & Hf & Ha)]; [by left|].
        right. exists f. split; [by apply Hkeep|done]. }
  destruct st as [|β W|W|e0]; simpl in *.
  - destruct Hc as [H1 H2]. split.
    + apply Hbase; [by eapply Hh|intros f Hf; by eapply Hh| |done].
      intros HE f Hf. by destruct (H2 f Hf).
    + intros f Hf. destruct (H2 f (Hsub _ _ Hf)) as [?| ->]; [by left|by right].
  - destruct Hc as (H1 & H2 & H3 & H4 & H5). split.
    + apply Hbase; [by eapply H5|intros f Hf; by eapply H5|by intros _|done].
    + split; [intros f Hf; by apply H2, Hsub|]. split; [by apply Ho|]. split; [by apply HW|].
      intros f r Hf. by eapply H5, Hsub.
  - destruct Hc as (H1 & H2 & H3). split; [done|]. split; [by apply Ho|by apply HW].
  - destruct Hc as (H1 & H2 & H3 & H4). split; [done|]. split; [done|]. split; [by apply Ho|].
    by apply HW.
Qed.

(** * One account of the machine *)

Record provider := { live : string; seen : gset string }.

(** What the provider answers to an exchange of [t]. An invalid grant means that [t] was not
    the live token; a success that it was, and that the token is kept, echoed, or replaced
    by one never seen before. *)
Definition provider_answer (g : provider) (t : option string)
    (r : TokenRefreshResult + refresh_error) (g' : provider) : Prop :=
  match r with
  | inr e => g' = g ∧ (isInvalidGrant e = true → t ≠ None ∧ t ≠ Some (live g))
  | inl res =>
      t = Some (live g) ∧
      match res_refreshToken res with
      | None => g' = g
      | Some n => (n = live g ∧ g' = g) ∨
                  (n ≠ ""%string ∧ (n ∉ seen g) ∧ g' = {| live := n; seen := {[n]} ∪ seen g |})
      end
  end.

Definition ok_entry (known : gset string) (e : entry) : Prop :=
  anchor e ≠ ""%string ∧ written_token e ≠ ""%string ∧ anchor e ∈ known ∧ written_token e ∈ known.

(** The token the write of a refresh leaves in a row holding its anchor *)
Definition minted (p : promise) (x : persist_ctx) : string :=
  default (default ""%string (persistAnchor p x)) (effectiveRefreshToken x).

(** The pending entry a refresh carries, taken when the entry was [W] *)
Definition carries (W E S : option entry) (β : string) : Prop :=
  (S = W ∨ S = None ∧ E = None) ∧ ∀ e, S = Some e → written_token e = β.

(** Which stage a program counter belongs to *)
Definition agrees (λv : string) (E : option entry) (st : stage) (p : promise) : Prop :=
  match st, p_pc p with
  | Idle, PExchange None | Idle, PFinally _ => True
  | Idle, PRejected e =>
      isInvalidGrant e = true → p_exchanged p ≠ None ∧ p_exchanged p ≠ Some λv
  | Idle, PPause key r => E = None ∧ r ≠ answered true ∧ ∃ t, key = Some t ∧ t ≠ λv
  | Idle, PPaused _ b => b = false
  | Pre β W, PExchange (Some res) => p_exchanged p = Some β ∧ (default β (res_refreshToken res) = λv)
  | Pre β W, PPersist x (waiting | threw) =>
      p_exchanged p = Some β ∧ minted p x = λv ∧ carries W E (px_pending x) β
  | Wrote W, PPersist x (answered true) => px_pending x = W ∨ px_pending x = None ∧ E = None
  | Wrote W, PRetryWrite x (answered true) | Wrote W, PRetried x RetryPersisted => E = None
  | Missed e, PPersist x (answered false) =>
      px_pending x = Some e ∧ effectiveRefreshToken x = Some λv
  | Missed e, PRetryRead x r =>
      px_pending x = Some e ∧ effectiveRefreshToken x = Some λv ∧ E = None ∧
      ∀ row, r = answered row → (row ≫= acc_refresh_token) = Some (written_token e)
  | Missed e, PRetryWrite x (waiting | threw) | Missed e, PRetried x RetryFailed =>
      px_pending x = Some e ∧ effectiveRefreshToken x = Some λv ∧ E = None
  | _, _ => False
  end.

Definition reg_op_id (op : reg_op) : string :=
  match op with RRecord id _ _ | RResolve id _ _ | RClearIfCurrent id _ | RClear id => id end.

(** At most one operation on the entry of [id] *)
Definition reg_step (id : string) (r r' : registry) : Prop :=
  r' = r ∨ ∃ op, reg_op_id op = id ∧ r' = reg_exec r op.

Lemma reg_exec_next r op : reg_nextRef r <= reg_nextRef (reg_exec r op).
Proof.
  destruct op as [id rot now|id s t|id s|id]; simpl.
  - unfold recordPendingRotation. cbv zeta. case_bool_decide; [lia|]. autorewrite with repo. simpl. lia.
  - unfold resolvePendingAfterPersist, drop_pending. repeat case_match; autorewrite with repo; simpl; lia.
  - unfold clearPendingRotationIfCurrent, drop_pending. case_match; autorewrite with repo; simpl; lia.
  - unfold clearPendingRotation, drop_pending. case_match; autorewrite with repo; simpl; lia.
Qed.

Lemma reg_exec_other r op a :
  reg_op_id op ≠ a → jsize (reg_pending r) < MAX_PENDING_ROTATIONS →
  reg_pending (reg_exec r op) !! a = reg_pending r !! a.
Proof.
  intros Hne Hs.
  assert (∀ id, id ≠ a → reg_pending (drop_pending id r) !! a = reg_pending r !! a) as Hd.
  { intros id Hid. unfold drop_pending. autorewrite with repo. simpl. by rewrite jlookup_delete_ne. }
  destruct op as [id rot now|id s t|id s|id]; simpl in *.
  - unfold recordPendingRotation. cbv zeta. case_bool_decide; [done|]. autorewrite with repo. simpl.
    rewrite jlookup_insert_ne by done. replace (MAX_PENDING_ROTATIONS <=? _) with false by lia.
    by rewrite andb_false_r.
  - unfold resolvePendingAfterPersist. repeat case_match; auto. simpl. by rewrite jlookup_insert_ne.
  - unfold clearPendingRotationIfCurrent. case_match; auto.
  - unfold clearPendingRotation. case_match; auto.
Qed.

Lemma reg_step_other a id r r' :
  id ≠ a → jsize (reg_pending r) < MAX_PENDING_ROTATIONS → reg_step id r r' →
  reg_pending r' !! a = reg_pending r !! a.
Proof. intros Hne Hs [->|(op & <- & ->)]; [done|]. by apply reg_exec_other. Qed.

Lemma reg_step_next id r r' : reg_step id r r' → reg_nextRef r <= reg_nextRef r'.
Proof. intros [->|(op & _ & ->)]; [lia|]. apply reg_exec_next. Qed.

Lemma reg_step_identity id a f r r' : reg_step id r r' → identity_ok a f r → identity_ok a f r'.
Proof. intros [->|(op & _ & ->)]; [done|]. apply identity_ok_exec. Qed.

(** The registry in the steps of the machine *)
Lemma flush_settle_step id e b r :
  reg_step id r (flush_settle id e (if b : bool then Persisted else Superseded) r).
Proof.
  right. destruct b; [by exists (RResolve id e (Some (written_token e)))|by exists (RClearIfCurrent id e)].
Qed.

Lemma continue_promise_registry k p now s s' :
  continue_promise k p now s = Some s' → reg_step (p_id p) (tm_registry s) (tm_registry s').
Proof.
  unfold continue_promise. intros Hc.
  assert (∀ x s0, tm_registry (install_minted k p x now s0) = tm_registry s0) as Hi by done.
  assert (∀ x s0, tm_registry s0 = tm_registry s →
    reg_step (p_id p) (tm_registry s) (tm_registry (persisted_refresh k p x now s0))) as Hp.
  { intros x s0 Hs0. unfold persisted_refresh. rewrite Hi. destruct (px_pending x) as [e|]; [|by left].
    right. exists (RResolve (p_id p) e (effectiveRefreshToken x)). simpl. by rewrite Hs0. }
  assert (∀ x o s0, tm_registry (superseded_refresh k p x o now s0) = tm_registry s0) as Hsup.
  { intros x o s0. unfold superseded_refresh. by repeat case_match. }
  assert (∀ rot, reg_step (p_id p) (tm_registry s) (recordPendingRotation (p_id p) rot now (tm_registry s))) as Hrec.
  { intros rot. right. by exists (RRecord (p_id p) rot now). }
  destruct (p_pc p) as [[]|e|x r|x [| |row]|x [| |[]]|x o|x []|x t|key []|inv b|o|o] eqn:Epc;
    simplify_eq; try (by left).
  - unfold continue_rejected. repeat case_match; try (by left). simpl. right.
    by exists (RClearIfCurrent (p_id p) p0).
  - unfold continue_persist in Hc. destruct r as [| |[]]; simplify_eq/=; [apply Hrec|by apply Hp|].
    assert (∀ s0 : tm, tm_registry s0 = match px_pending x with
        | Some e => clearPendingRotationIfCurrent (p_id p) e (tm_registry s) | None => tm_registry s end →
      reg_step (p_id p) (tm_registry s) (tm_registry s0)) as Hcl.
    { intros s0 ->. destruct (px_pending x) as [e|]; [|by left]. right. by exists (RClearIfCurrent (p_id p) e). }
    repeat case_match; simplify_eq; rewrite ?Hsup; apply Hcl; by simpl.
  - case_match; simplify_eq; by left.
  - destruct o; simpl; rewrite ?Hsup; [by apply Hp|by left|apply Hrec|by left].
  - case_match; simplify_eq; by left.
  - unfold continue_paused. repeat case_match; by left.
  - case_bool_decide; by left.
Qed.

(** A call moves to [pc] with the registry as it was. *)
Definition caller_moves (k : Z) (c : caller) (s s' : tm) : Prop :=
  ∃ c', tm_callers s' !! k = Some c' ∧ c_id c' = c_id c ∧ tm_registry s' = tm_registry s ∧
    ((∀ f r', c_pc c' ≠ CFlushWrite f r') ∨
     ∃ e, c_pc c' = CFlushWrite e waiting ∧ reg_pending (tm_registry s) !! c_id c = Some e).

Lemma goto_moves k c pc s s0 :
  tm_callers s !! k = Some c → tm_callers s0 = tm_callers s → tm_registry s0 = tm_registry s →
  (∀ f r', pc ≠ CFlushWrite f r') → caller_moves k c s (goto_caller k pc s0).
Proof.
  intros Hk Hc Hr Hpc. exists (set_caller_pc pc c). simpl. rewrite Hc, lookup_alter_eq, Hk.
  split; [done|]. split; [done|]. split; [done|]. by left.
Qed.

Lemma start_join_moves k c g s s0 :
  tm_callers s !! k = Some c → tm_callers s0 = tm_callers s → tm_registry s0 = tm_registry s →
  caller_moves k c s (start_join k (c_id c) g s0).
Proof. intros. unfold start_join. case_match; by apply goto_moves. Qed.

Lemma start_adopt_moves k c s s0 :
  tm_callers s !! k = Some c → tm_callers s0 = tm_callers s → tm_registry s0 = tm_registry s →
  caller_moves k c s (start_adopt k c s0).
Proof.
  intros Hk Hc Hr. unfold start_adopt, getPendingRotation. rewrite Hr.
  destruct (reg_pending (tm_registry s) !! c_id c) as [e|] eqn:E; [|by apply goto_moves].
  exists (set_caller_pc (CFlushWrite e waiting) c). simpl. rewrite Hc, lookup_alter_eq, Hk.
  split; [done|]. split; [done|]. split; [done|]. right. by exists e.
Qed.

Lemma nojoin_moves k c g now s :
  tm_callers s !! k = Some c → caller_moves k c s (continue_nojoin k c g now s).
Proof.
  intros Hk. destruct g; simpl; unfold try_coalesce, finish_call.
  - repeat case_match; try by apply goto_moves. unfold backoff_gate, finish_call.
    repeat case_match; try (by apply goto_moves); by apply start_adopt_moves.
  - repeat case_match; try by apply goto_moves. unfold start_refresh.
    case_match; by apply start_join_moves.
  - by apply goto_moves.
Qed.

Lemma continue_caller_moves k c now s s' :
  tm_callers s !! k = Some c → continue_caller k c now s = Some s' →
  match c_pc c with
  | CFlushWrite e r =>
      ∃ pc, (∀ f r', pc ≠ CFlushWrite f r') ∧
      match r with
      | answered b => s' = goto_caller k pc
          (on_registry (flush_settle (c_id c) e (if b then Persisted else Superseded)) s)
      | threw => s' = goto_caller k pc s
      | waiting => False
      end
  | _ => caller_moves k c s s'
  end.
Proof.
  unfold continue_caller, finish_call. intros Hk Hc.
  destruct (c_pc c) as [[]|g p|g|t []|t ad|[]|e [| |[]]|o|[]|t|o] eqn:Epc; simplify_eq/=;
    try (by apply goto_moves); try (eexists; split; [|reflexivity]; done).
  - case_match; simplify_eq; [by apply goto_moves|by apply start_join_moves].
  - repeat case_match; simplify_eq. unfold continue_join, finish_call.
    repeat case_match; by apply goto_moves.
  - by apply nojoin_moves.
  - case_match; simplify_eq; by apply goto_moves.
  - unfold continue_backoff, finish_call. repeat case_match; by apply goto_moves.
  - unfold continue_flushed. repeat case_match; by apply goto_moves.
  - repeat case_match; simplify_eq; by apply goto_moves.
  - case_match; simplify_eq; [by apply goto_moves|by apply start_join_moves].
Qed.

(** * The flushes in flight *)

Section account.
Context (localDate : Z → option (Z * Z * Z)) (a : string).

Definition row_token (db : database) : option string :=
  accounts db !! a ≫= λ r, refresh_token (creds r).
Definition pending (s : tm) : option entry := reg_pending (tm_registry s) !! a.

Definition caller_flight (c : caller) : option (entry * reply bool) :=
  match c_pc c with
  | CFlushWrite e r => if decide (c_id c = a) then Some (e, r) else None
  | _ => None
  end.
Definition task_flight (t : flush_task) : option (entry * reply bool) :=
  if decide (f_id t = a) then Some (f_entry t, f_reply t) else None.

Definition in_flight (s : tm) : flights := λ f r,
  (∃ k c, tm_callers s !! k = Some c ∧ caller_flight c = Some (f, r)) ∨
  (∃ k t, tm_flushes s !! k = Some t ∧ task_flight t = Some (f, r)).

(** One task of one kind changes. *)
Lemma moves_at {A} (π : A → option (entry * reply bool)) (G : flights) (m m' : gmap Z A) k e r0 r' :
  (∀ j, j ≠ k → m' !! j = m !! j) →
  (m !! k ≫= π) = (λ r, (e, r)) <$> r0 → (m' !! k ≫= π) = (λ r, (e, r)) <$> r' →
  moves (λ f r, (∃ j c, m !! j = Some c ∧ π c = Some (f, r)) ∨ G f r)
        (λ f r, (∃ j c, m' !! j = Some c ∧ π c = Some (f, r)) ∨ G f r) e r0 r'.
Proof.
  intros Hne H0 H'.
  assert (∀ (m1 m2 : gmap Z A) r2, (∀ j, j ≠ k → m2 !! j = m1 !! j) →
    (m2 !! k ≫= π) = (λ r, (e, r)) <$> r2 →
    ∀ f r, (∃ j c, m2 !! j = Some c ∧ π c = Some (f, r)) ∨ G f r →
    ((∃ j c, m1 !! j = Some c ∧ π c = Some (f, r)) ∨ G f r) ∨ (f = e ∧ r2 = Some r)) as Hw.
  { intros m1 m2 r2 Hj Hk f r [(j & c & Hc & Hf)|?]; [|by left; right]. destruct (decide (j = k)) as [->|Hn].
    - right. rewrite Hc in Hk. simpl in Hk. rewrite Hf in Hk. destruct r2; simplify_eq/=. done.
    - left. left. exists j, c. by rewrite <-Hj. }
  assert (∀ (m2 : gmap Z A) r2, (m2 !! k ≫= π) = (λ r, (e, r)) <$> r2 →
    ∀ r, r2 = Some r → (∃ j c, m2 !! j = Some c ∧ π c = Some (e, r)) ∨ G e r) as Ht.
  { intros m2 r2 Hk r ->. destruct (m2 !! k) as [c|] eqn:E; simpl in Hk; [|done]. left. by exists k, c. }
  split; [by apply Hw| |by apply Ht|by apply Ht]. apply Hw; [|done]. intros j Hj. by rewrite Hne.
Qed.

Lemma moves_caller s s' k e r0 r' :
  (∀ j, j ≠ k → tm_callers s' !! j = tm_callers s !! j) → tm_flushes s' = tm_flushes s →
  (tm_callers s !! k ≫= caller_flight) = (λ r, (e, r)) <$> r0 →
  (tm_callers s' !! k ≫= caller_flight) = (λ r, (e, r)) <$> r' →
  moves (in_flight s) (in_flight s') e r0 r'.
Proof. intros H1 H2 H3 H4. unfold in_flight. rewrite H2. by eapply moves_at. Qed.

Lemma moves_swap (F F' G G' : flights) e r0 r' :
  (∀ f r, F f r ↔ G f r) → (∀ f r, F' f r ↔ G' f r) → moves F F' e r0 r' → moves G G' e r0 r'.
Proof.
  intros H H' [M1 M2 M3 M4]. split.
  - intros f r ?%H'. rewrite <-H. auto.
  - intros f r ?%H. rewrite <-H'. auto.
  - intros r ?. rewrite <-H'. auto.
  - intros r ?. rewrite <-H. auto.
Qed.

Lemma moves_flush s s' k e r0 r' :
  (∀ j, j ≠ k → tm_flushes s' !! j = tm_flushes s !! j) → tm_callers s' = tm_callers s →
  (tm_flushes s !! k ≫= task_flight) = (λ r, (e, r)) <$> r0 →
  (tm_flushes s' !! k ≫= task_flight) = (λ r, (e, r)) <$> r' →
  moves (in_flight s) (in_flight s') e r0 r'.
Proof.
  intros H1 H2 H3 H4. unfold in_flight. rewrite H2.
  eapply moves_swap; [| |eapply (moves_at _ (λ f r, ∃ k c, tm_callers s !! k = Some c ∧ caller_flight c = Some (f, r))); [exact H1|exact H3|exact H4]];
    intros f r; tauto.
Qed.

Lemma same_flights s s' : tm_callers s' = tm_callers s → tm_flushes s' = tm_flushes s →
  in_flight s' = in_flight s.
Proof. intros H1 H2. unfold in_flight. by rewrite H1, H2. Qed.

(** Nothing of the account's flushes changes. *)
Lemma moves_none F F' e : moves F F' e None None → ∀ f r, F' f r ↔ F f r.
Proof. intros [M1 M2 _ _] f r. split; [by intros [?|[_ ?]]%M1|by intros [?|[_ ?]]%M2]. Qed.

Lemma core_ext λv st ρ E F F' : (∀ f r, F' f r ↔ F f r) → core λv st ρ E F → core λv st ρ E F'.
Proof.
  intros HF. assert (∀ μ, base μ ρ E F → base μ ρ E F') as Hb by (intros μ; apply base_mono; intros; by apply HF).
  assert (∀ W, only W F → only W F') as Ho by (intros W H f r ?%HF; by eapply H).
  destruct st; simpl.
  - intros [H1 H2]. split; [auto|]. intros f ?%HF. auto.
  - intros (H1 & H2 & H3 & H4 & H5). split; [auto|]. split; [intros f ?%HF; auto|]. split; [auto|].
    split; [auto|]. intros f r ?%HF. eauto.
  - intros (H1 & H2 & H3). auto.
  - intros (H1 & H2 & H3 & H4). auto.
Qed.

(** * The invariant *)

Definition known (g : provider) (st : stage) : Prop :=
  match st with
  | Pre β W => β ∈ seen g ∧ β ≠ ""%string ∧ ∀ e, W = Some e → ok_entry (seen g) e
  | Missed e => ok_entry (seen g) e
  | _ => True
  end.

Record durable (g : provider) (s : tm) : Prop := {
  du_wf : tm_wf s;
  du_sole : sole_refresh a s;
  du_live : live g ∈ seen g ∧ live g ≠ ""%string;
  du_refs e : pending s = Some e → pr_ref e < reg_nextRef (tm_registry s);
  du_known e : pending s = Some e →
    ok_entry (seen g) e ∧ (anchor e = live g → written_token e = live g);
  du_flights f r : in_flight s f r → ok_entry (seen g) f ∧ identity_ok a f (tm_registry s);
  du_harmless : harmless (live g) (in_flight s);
  du_stage : ∃ st, known g st ∧ core (live g) st (row_token (tm_db s)) (pending s) (in_flight s) ∧
    (∀ k p, tm_promises s !! k = Some p → p_id p = a → ¬ settled p →
       agrees (live g) (pending s) st p) ∧
    (st = Idle ∨ ∃ k p, tm_promises s !! k = Some p ∧ p_id p = a ∧ ¬ settled p)
}.

(** The refreshes of the account are as they were, or a new one has just begun. *)
Definition same_refreshes (s s' : tm) : Prop :=
  (∀ k p, tm_promises s !! k = Some p → p_id p = a → tm_promises s' !! k = Some p) ∧
  (∀ k p, tm_promises s' !! k = Some p → p_id p = a →
     tm_promises s !! k = Some p ∨
     p_pc p = PExchange None ∧ ∀ j q, tm_promises s !! j = Some q → p_id q = a → settled q).

Lemma agrees_None λv E st p : agrees λv E st p → agrees λv None st p.
Proof.
  unfold agrees, carries. destruct st, (p_pc p) as [[]|?|? [| |[]]|? ?|? [| |[]]|? []|? ?|? ?|? ?|? ?|?|?]; naive_solver.
Qed.

Lemma agrees_Some λv e E st p : agrees λv (Some e) st p → agrees λv E st p.
Proof.
  unfold agrees, carries. destruct st, (p_pc p) as [[]|?|? [| |[]]|? ?|? [| |[]]|? []|? ?|? ?|? ?|? ?|?|?]; naive_solver.
Qed.

(** A step of the flushes, the registry or the row, the refreshes left alone *)
Lemma durable_step g s s' e r0 r' :
  durable g s → tm_wf s' → sole_refresh a s' → same_refreshes s s' →
  moves (in_flight s) (in_flight s') e r0 r' →
  (is_Some r' → pending s = Some e ∨ is_Some r0) →
  (∀ f, identity_ok a f (tm_registry s) → identity_ok a f (tm_registry s')) →
  reg_nextRef (tm_registry s) <= reg_nextRef (tm_registry s') →
  (pending s' = pending s ∨ pending s' = None ∨
   pending s ≠ None ∧ ∃ e1, pending s' = Some e1 ∧ pr_ref e1 < reg_nextRef (tm_registry s') ∧
     ok_entry (seen g) e1 ∧ (anchor e1 = live g → written_token e1 = live g)) →
  (∀ st, core (live g) st (row_token (tm_db s)) (pending s) (in_flight s) →
     core (live g) st (row_token (tm_db s')) (pending s') (in_flight s')) →
  durable g s'.
Proof.
  intros [D1 D2 D3 D4 D5 D6 D7 (st & D0 & D8 & D9 & D10)] Hwf Hsole [Hold Hnew] Hmv Hr Hid Hnext Hpend Hcore.
  assert (∀ f r, in_flight s' f r → (∃ r1, in_flight s f r1) ∨ pending s = Some f) as Hin.
  { intros f r [?|[-> Hr']]%(mv_new _ _ _ _ _ Hmv); [by left; eexists|].
    destruct Hr as [?|[x Hx]]; [by eexists|by right|]. left. exists x. by eapply mv_from. }
  split; [done|done|done|..].
  - intros e1 He1. destruct Hpend as [Hp|[Hp|(_ & e2 & Hp & Hlt & _)]]; rewrite Hp in He1; [|done|congruence].
    apply D4 in He1. lia.
  - intros e1 He1. destruct Hpend as [Hp|[Hp|(_ & e2 & Hp & _ & ?)]]; rewrite Hp in He1; [by apply D5|done|congruence].
  - intros f r [[r1 Hf]|Hf]%Hin; [destruct (D6 _ _ Hf); auto|]. split; [by apply D5|]. apply Hid.
    split; [by apply D4|]. intros e' He' _. unfold pending in Hf. congruence.
  - intros f r [[r1 Hf]|Hf]%Hin Ha; [by eapply D7|by apply D5].
  - exists st. split; [done|]. split; [by apply Hcore|]. split.
    + intros k p Hk Hpid Hns. destruct (Hnew _ _ Hk Hpid) as [Hk'|[Hpc Hall]].
      * specialize (D9 _ _ Hk' Hpid Hns). destruct Hpend as [->|[->|(Hp & e1 & -> & _)]]; [done|by eapply agrees_None|].
        destruct (pending s) as [e0|]; [|done]. by eapply agrees_Some.
      * destruct D10 as [->|(j & q & Hj & Hq & Hqs)]; [unfold agrees; by rewrite Hpc|]. by destruct Hqs; eapply Hall.
    + destruct D10 as [->|(j & q & Hj & Hq & Hqs)]; [by left|]. right. exists j, q. auto.
Qed.

(** A step that touches nothing of the account *)
Lemma durable_same g s s' :
  durable g s → tm_wf s' → sole_refresh a s' → same_refreshes s s' →
  (∀ f r, in_flight s' f r ↔ in_flight s f r) → row_token (tm_db s') = row_token (tm_db s) →
  pending s' = pending s → reg_nextRef (tm_registry s) <= reg_nextRef (tm_registry s') →
  (∀ f, identity_ok a f (tm_registry s) → identity_ok a f (tm_registry s')) →
  durable g s'.
Proof.
  intros Hd Hwf Hsole Hsame HF Hrow Hp Hn Hid.
  assert (∀ e, moves (in_flight s) (in_flight s') e None None) as Hmv.
  { intros e. split; intros *; rewrite ?HF; by auto. }
  set (e := {| pr_ref := 0; pr_accessToken := ""; pr_expiresAt := 0; pr_refreshToken := None;
               pr_refreshTokenExpiresAt := None; pr_identity := None;
               pr_attemptedRefreshToken := ""; pr_recordedAt := 0 |}).
  apply (durable_step g s s' e None None); try done; [by left|].
  intros st. rewrite Hrow, Hp. by apply core_ext.
Qed.
(** * The statements *)

Lemma write_row token expires refresh identity α deadline now db :
  refresh ≠ Some ""%string →
  let res := updateTokens localDate a token expires refresh identity (Some α) deadline now db in
  res.1 = bool_decide (row_token db = Some α) ∧
  row_token res.2 = if res.1 then Some (default α refresh) else row_token db.
Proof.
  intros Hne. unfold row_token. destruct (accounts db !! a) as [r|] eqn:Er; simpl.
  - pose proof (tokens_cas_core localDate db a token expires refresh identity (Some α) deadline now r Er) as H.
    cbv zeta in H. rewrite cas_token_spec in H. case_bool_decide as Hc.
    + destruct H as (-> & r' & -> & Hcr). split; [done|]. simpl. rewrite Hcr. unfold set_tokens.
      destruct refresh as [[|]|]; simpl; congruence.
    + rewrite H. simpl. by rewrite Er.
  - unfold updateTokens, changed, writeIdentityWithTierHistory, sql_update, st_bind, st_ret. rewrite Er.
    destruct identity; simpl; by rewrite Er.
Qed.

Lemma write_other id token expires refresh identity expected deadline now db :
  id ≠ a →
  row_token (updateTokens localDate id token expires refresh identity expected deadline now db).2
    = row_token db.
Proof.
  intros Hne. unfold row_token, updateTokens, changed, st_bind, st_ret.
  match goal with |- context [writeIdentityWithTierHistory ?l ?i ?g ?f ?d ?n db] =>
    assert (accounts (writeIdentityWithTierHistory l i g f d n db).2 !! a = accounts db !! a) as H;
    [|destruct (writeIdentityWithTierHistory l i g f d n db); simpl in *; by rewrite H] end.
  destruct (accounts db !! id) as [r|] eqn:Er.
  - match goal with |- context [writeIdentityWithTierHistory ?l ?i ?g ?f ?d ?n db] =>
      pose proof (write_identity_spec l n i g f d db r Er) as Hs;
      destruct (writeIdentityWithTierHistory l i g f d n db) as [c db'] end.
    case_match; [destruct Hs as (_ & _ & Hk & _); by apply Hk|by destruct Hs as [_ ->]].
  - unfold writeIdentityWithTierHistory, sql_update. rewrite Er. by destruct identity.
Qed.

Lemma pause_misses reason t now db :
  row_token db ≠ Some t → pauseIfActive a reason (Some t) now db = (false, db).
Proof.
  intros Ht. unfold pauseIfActive, changed, st_bind, st_ret, sql_update.
  destruct (accounts db !! a) as [r|] eqn:E; [|done].
  replace (sql_eq _ _) with false; [by rewrite andb_false_r|]. symmetry. unfold row_token in Ht. rewrite E in Ht.
  simpl in Ht. unfold sql_eq. destruct (refresh_token (creds r)); [|done]. apply bool_decide_eq_false. congruence.
Qed.

Lemma pause_row id reason key now db :
  row_token (pauseIfActive id reason key now db).2 = row_token db ∧
  (id = a → ∀ t, key = Some t → row_token db ≠ Some t → (pauseIfActive id reason key now db).1 = false).
Proof.
  assert (∀ guard, row_token (changed (sql_update now id guard (set_pause 1 (Some reason))) db).2 = row_token db) as Hrow.
  { intros guard. unfold changed, st_bind, st_ret, sql_update, row_token. destruct (accounts db !! id) as [r|] eqn:E; [|done].
    destruct (guard r); [|done]. simpl. destruct (decide (id = a)) as [<-|Hn]; [|by rewrite lookup_insert_ne].
    rewrite lookup_insert_eq, E. simpl. unfold pause_trigger. by case_match. }
  split; [destruct key; apply Hrow|]. intros -> t -> Ht. by rewrite pause_misses.
Qed.

Lemma flush_row e now db :
  written_token e ≠ ""%string →
  let res := run_flush_write localDate a e now db in
  res.1 = bool_decide (row_token db = Some (anchor e)) ∧
  row_token res.2 = if res.1 then Some (written_token e) else row_token db.
Proof.
  intros Hne. unfold run_flush_write, flush_write.
  pose proof (write_row (pr_accessToken e) (pr_expiresAt e) (pr_refreshToken e) (pr_identity e) (anchor e)
    (pr_refreshTokenExpiresAt e) now db) as H.
  destruct (updateTokens _ _ _ _ _ _ _ _ _ _) as [b db']. simpl in H |- *.
  unfold written_token in Hne. destruct H as [H1 H2]; [by destruct (pr_refreshToken e) as [[|]|]|].
  by destruct b.
Qed.

Lemma flush_other id e now db :
  id ≠ a → row_token (run_flush_write localDate id e now db).2 = row_token db.
Proof.
  intros Hne. unfold run_flush_write, flush_write.
  pose proof (write_other id (pr_accessToken e) (pr_expiresAt e) (pr_refreshToken e) (pr_identity e)
    (Some (anchor e)) (pr_refreshTokenExpiresAt e) now db Hne) as H.
  by destruct (updateTokens _ _ _ _ _ _ _ _ _ _) as [[] db'].
Qed.

(** A statement that throws leaves the row as it was. *)
Lemma ran_row {A} throws (res : A * database) db r db' :
  ran throws res db = (r, db') →
  (throws = true ∧ r = threw ∧ db' = db) ∨ (throws = false ∧ r = answered res.1 ∧ db' = res.2).
Proof. unfold ran. destruct throws; intros [= <- <-]; auto. Qed.
(** * The steps of the flushes *)

Lemma settle_pending e b r :
  written_token e ≠ ""%string →
  reg_pending (flush_settle a e (if b : bool then Persisted else Superseded) r) !! a =
    settle_entry e b (reg_nextRef r) (reg_pending r !! a).
Proof.
  intros Hne. destruct b; simpl.
  - unfold resolvePendingAfterPersist, is_current, drop_pending.
    destruct (reg_pending r !! a) as [c|] eqn:E; simpl; [|by rewrite E].
    destruct (Z.eqb_spec (pr_ref c) (pr_ref e)).
    + rewrite bool_decide_eq_true_2 by done. autorewrite with repo. simpl. by rewrite jlookup_delete_eq.
    + rewrite bool_decide_eq_false_2 by done.
      destruct (written_token e) as [|ch t] eqn:Ew; [done|]. simpl. by rewrite jlookup_insert_eq.
  - unfold clearPendingRotationIfCurrent, is_current, drop_pending.
    destruct (reg_pending r !! a) as [c|] eqn:E; simpl; [|by rewrite E].
    destruct (Z.eqb_spec (pr_ref c) (pr_ref e)).
    + rewrite bool_decide_eq_true_2 by done. autorewrite with repo. simpl. by rewrite jlookup_delete_eq.
    + by rewrite bool_decide_eq_false_2.
Qed.

Lemma settle_next e b r :
  is_Some (settle_entry e b (reg_nextRef r) (reg_pending r !! a)) → b = true →
  written_token e ≠ ""%string → reg_nextRef (flush_settle a e Persisted r) = reg_nextRef r + 1.
Proof.
  intros Hs -> Hne. simpl. unfold resolvePendingAfterPersist, is_current.
  destruct (reg_pending r !! a) as [c|] eqn:E; simpl in *; [|by destruct Hs].
  case_bool_decide as Hb; [by destruct Hs|]. replace (_ =? _) with false by lia.
  by destruct (written_token e).
Qed.

Lemma same_refreshes_refl s s' : tm_promises s' = tm_promises s → same_refreshes s s'.
Proof. intros E. split; rewrite E; auto. Qed.

(** The write of a flush has run. *)
Lemma durable_answered g s s' e r :
  durable g s → tm_wf s' → sole_refresh a s' → tm_promises s' = tm_promises s →
  tm_registry s' = tm_registry s → moves (in_flight s) (in_flight s') e (Some waiting) (Some r) →
  (r = threw ∧ row_token (tm_db s') = row_token (tm_db s) ∨
   ∃ b, r = answered b ∧ b = bool_decide (row_token (tm_db s) = Some (anchor e)) ∧
     row_token (tm_db s') = if b then Some (written_token e) else row_token (tm_db s)) →
  (∀ f b, ¬ in_flight s f (answered b)) → durable g s'.
Proof.
  intros Hd Hwf Hsole Hp Hreg Hmv Hr Hno. pose proof (same_refreshes_refl _ _ Hp) as Hsame.
  apply (durable_step g s s' e (Some waiting) (Some r)); try done.
  - intros _. right. by eexists.
  - by rewrite Hreg.
  - by rewrite Hreg.
  - left. unfold pending. by rewrite Hreg.
  - intros st Hc. unfold pending in *. rewrite Hreg. destruct Hr as [[-> ->]|(b & -> & Hb & ->)].
    + eapply core_quiet; [exact Hmv|by intros []..|right; by eexists|done].
    + eapply core_answer; [exact Hmv|done|done|apply (du_harmless _ _ Hd)|done].
Qed.

(** A flush has settled. *)
Lemma durable_settled g s s' e b :
  durable g s → tm_wf s' → sole_refresh a s' → tm_promises s' = tm_promises s →
  tm_registry s' = flush_settle a e (if b : bool then Persisted else Superseded) (tm_registry s) →
  moves (in_flight s) (in_flight s') e (Some (answered b)) None →
  row_token (tm_db s') = row_token (tm_db s) → durable g s'.
Proof.
  intros Hd Hwf Hsole Hp Hreg Hmv Hrow. pose proof (same_refreshes_refl _ _ Hp) as Hsame.
  assert (in_flight s e (answered b)) as He by by eapply mv_from.
  destruct (du_flights _ _ Hd _ _ He) as [(Ha & Hw & Hka & Hkw) Hide].
  assert (pending s' = settle_entry e b (reg_nextRef (tm_registry s)) (pending s)) as Hpend.
  { unfold pending. rewrite Hreg. by apply settle_pending. }
  assert (∀ st, core (live g) st (row_token (tm_db s)) (pending s) (in_flight s) →
     core (live g) st (row_token (tm_db s')) (pending s') (in_flight s')) as Hcore.
  { intros st Hc. rewrite Hrow, Hpend. eapply core_settle; [exact Hmv| | |apply (du_harmless _ _ Hd)|done].
    - intros f r Hf. by destruct (du_flights _ _ Hd _ _ Hf) as [_ [? _]].
    - intros f Hf Href. by apply Hide. }
  apply (durable_step g s s' e (Some (answered b)) None); try done.
  - intros f. rewrite Hreg. apply reg_step_identity with a. apply flush_settle_step.
  - rewrite Hreg. eapply (reg_step_next a), flush_settle_step.
  - rewrite Hpend. destruct (pending s) as [e0|] eqn:Ep; simpl; [|by left].
    case_bool_decide as Hb; [by right; left|]. destruct b; [|by left]. right; right. split; [done|].
    eexists. split; [done|]. destruct (du_known _ _ Hd _ Ep) as [(Ha0 & Hw0 & Hka0 & Hkw0) Hl0].
    split; [rewrite Hreg, (settle_next e true); [simpl; lia| |done|done]|].
    { unfold pending in Ep. rewrite Ep. simpl. rewrite bool_decide_eq_false_2 by done. by eexists. }
    assert (written_token (rebased (written_token e) (reg_nextRef (tm_registry s)) e0) ∈ seen g ∧
            written_token (rebased (written_token e) (reg_nextRef (tm_registry s)) e0) ≠ ""%string) as [Hk1 Hk2].
    { unfold written_token in *. simpl. by destruct (pr_refreshToken e0). }
    split; [done|]. intros Hl. destruct (du_stage _ _ Hd) as ([|β W|W|e1] & _ & Hc & _); rewrite Ep in Hc.
    + apply Hcore in Hc. rewrite Hpend in Hc. simpl in Hc. rewrite bool_decide_eq_false_2 in Hc by done.
      by apply Hc.
    + exfalso. destruct Hc as (_ & _ & Ho & HW & _). apply Ho in He as ->. by destruct HW; simplify_eq.
    + exfalso. destruct Hc as (_ & Ho & HW). apply Ho in He as ->. by destruct HW; simplify_eq.
    + exfalso. destruct Hc as (_ & _ & Ho & HW). apply Ho in He as [= ->]. by destruct HW; simplify_eq.
Qed.
(** * The steps of the refreshes *)

(** A task waiting for the write of a flush of the account *)
Definition awaits_flush (t : task) (s : tm) : Prop :=
  match t with
  | Promise _ => False
  | Caller k => ∃ e, (tm_callers s !! k ≫= caller_flight) = Some (e, waiting)
  | Flush k => ∃ e, (tm_flushes s !! k ≫= task_flight) = Some (e, waiting)
  end.

(** The steps considered, which are not all that can happen. The provider answers as it does; nobody else writes the refresh
    token of the account or clears its caches, and the registry has room. The host delivers
    what a landed flush left to do before the next flush of the account runs its write, and
    the provider's answer while no flush of a replaced entry is under way. *)
Definition admissible (g : provider) (s : tm) (ev : event) (g' : provider) : Prop :=
  jsize (reg_pending (tm_registry s)) < MAX_PENDING_ROTATIONS ∧
  match ev with
  | TExchange k r =>
      match tm_promises s !! k with
      | Some p =>
          if decide (p_id p = a)
          then provider_answer g (p_exchanged p) r g' ∧ only (pending s) (in_flight s)
          else g' = g
      | None => g' = g
      end
  | TAnswer t _ _ =>
      g' = g ∧ (awaits_flush t s → ∀ f b, ¬ in_flight s f (answered b))
  | TForeign now op =>
      g' = g ∧ row_token (exec localDate now (tm_db s) op) = row_token (tm_db s)
  | TClearCache id | TClearPending id => g' = g ∧ id ≠ a
  | _ => g' = g
  end.

(** A refresh whose write throws still finds the pending entry it carried. *)
Definition entry_kept (s : tm) (ev : event) : Prop :=
  match ev with
  | TContinue (Promise k) _ =>
      ∀ p x e, tm_promises s !! k = Some p → p_id p = a → p_pc p = PPersist x threw →
        px_pending x = Some e → is_current a e (tm_registry s) = true
  | _ => True
  end.

(** A refresh of the account moves to [pc]; flushes in flight are as they were. *)
Lemma durable_refresh g g' s s' k p pc st' :
  durable g s → tm_wf s' → sole_refresh a s' → tm_promises s !! k = Some p → p_id p = a → ¬ settled p →
  tm_promises s' = alter (set_promise_pc pc) k (tm_promises s) →
  tm_callers s' = tm_callers s → tm_flushes s' = tm_flushes s →
  (∀ f, identity_ok a f (tm_registry s) → identity_ok a f (tm_registry s')) →
  seen g ⊆ seen g' → live g' ∈ seen g' → live g' ≠ ""%string →
  (∀ e, pending s' = Some e → pr_ref e < reg_nextRef (tm_registry s') ∧ ok_entry (seen g') e ∧
     (anchor e = live g' → written_token e = live g')) →
  harmless (live g') (in_flight s) → known g' st' →
  core (live g') st' (row_token (tm_db s')) (pending s') (in_flight s) →
  (unsettled_pc pc → agrees (live g') (pending s') st' (set_promise_pc pc p)) →
  (st' = Idle ∨ unsettled_pc pc) →
  durable g' s'.
Proof.
  intros [D1 D2 D3 D4 D5 D6 D7 _] Hwf Hsole Hk Hid Hlive Hps Hc Hf Hident Hseen Hl1 Hl2 Hpend Hh Hkn Hcore Hag Hst.
  assert (in_flight s' = in_flight s) as HF by by apply same_flights.
  assert (∀ j q, tm_promises s' !! j = Some q → p_id q = a → ¬ settled q → q = set_promise_pc pc p ∧ unsettled_pc pc) as Hall.
  { intros j q Hj Hq Hqs. rewrite Hps in Hj. apply lookup_alter_Some in Hj as [(<- & q0 & Hq0 & ->)|(Hne & Hj)].
    - simplify_eq. split; [done|]. intros o ->. apply Hqs. by eexists.
    - destruct Hne. pose proof (D2 _ _ Hj Hq Hqs). pose proof (D2 _ _ Hk Hid Hlive). congruence. }
  split; try done.
  - intros e He. by apply Hpend.
  - intros e He. by apply Hpend.
  - intros f r Hfr. rewrite HF in Hfr. destruct (D6 _ _ Hfr) as [(? & ? & ? & ?) ?].
    split; [|by apply Hident]. repeat split; set_solver.
  - by rewrite HF.
  - exists st'. rewrite HF. split; [done|]. split; [done|]. split.
    + intros j q Hj Hq Hqs. destruct (Hall _ _ Hj Hq Hqs) as [-> Hu]. by apply Hag.
    + destruct Hst as [->|Hu]; [by left|]. right. exists k, (set_promise_pc pc p). rewrite Hps, lookup_alter_eq, Hk.
      split; [done|]. split; [done|]. intros [o Ho]. by destruct (Hu o).
Qed.

(** As above, with the provider and the entry unchanged *)
Lemma durable_moves g s s' k p pc st' :
  durable g s → tm_wf s' → sole_refresh a s' → tm_promises s !! k = Some p → p_id p = a → ¬ settled p →
  promise_step k p pc s s' → tm_registry s' = tm_registry s → known g st' →
  core (live g) st' (row_token (tm_db s)) (pending s) (in_flight s) →
  (unsettled_pc pc → agrees (live g) (pending s) st' (set_promise_pc pc p)) →
  (st' = Idle ∨ unsettled_pc pc) →
  durable g s'.
Proof.
  intros Hd Hwf Hsole Hk Hid Hlive [E1 E2 E3 E4 E5 E6 E7] Hreg Hkn Hcore Hag Hst.
  assert (pending s' = pending s) as Hp by (unfold pending; by rewrite Hreg).
  eapply (durable_refresh g g s s' k p pc st'); try done; rewrite ?Hp, ?E4, ?Hreg; try done.
  - apply (du_live _ _ Hd).
  - apply (du_live _ _ Hd).
  - intros e He. split; [by apply (du_refs _ _ Hd)|]. by apply (du_known _ _ Hd).
  - apply (du_harmless _ _ Hd).
Qed.
(** The stage a refresh of the account under way agrees with *)
Lemma stage_of g s k p :
  durable g s → tm_promises s !! k = Some p → p_id p = a → ¬ settled p →
  ∃ st, known g st ∧ core (live g) st (row_token (tm_db s)) (pending s) (in_flight s) ∧
        agrees (live g) (pending s) st p.
Proof. intros Hd Hk Hid Hs. destruct (du_stage _ _ Hd) as (st & Hkn & Hc & Ha & _). exists st. eauto. Qed.

(** The provider answers an exchange. *)
Lemma durable_exchange g g' s k p r :
  durable g s → tm_promises s !! k = Some p → p_id p = a → p_pc p = PExchange None →
  provider_answer g (p_exchanged p) r g' → only (pending s) (in_flight s) →
  let s' := goto_promise k match r with inl res => PExchange (Some res) | inr e => PRejected e end s in
  tm_wf s' → sole_refresh a s' → durable g' s'.
Proof.
  intros Hd Hk Hid Hpc Hr Honly s' Hwf Hsole.
  assert (¬ settled p) as Hs by (intros [o Ho]; congruence).
  destruct (stage_of _ _ _ _ Hd Hk Hid Hs) as ([] & Hkn & Hc & Ha); unfold agrees in Ha; rewrite Hpc in Ha; try done.
  destruct (du_live _ _ Hd) as [Hl1 Hl2]. destruct r as [res|e].
  - destruct Hr as [Hex Hr]. destruct Hc as [Hb Hland].
    assert (seen g ⊆ seen g' ∧ live g' ∈ seen g' ∧ live g' ≠ ""%string ∧
            default (live g) (res_refreshToken res) = live g' ∧ (live g' = live g ∨ live g' ∉ seen g))
      as (Hse & Hg1 & Hg2 & Hg3 & Hg4).
    { destruct (res_refreshToken res) as [n|]; simpl; [destruct Hr as [[-> ->]|(Hn1 & Hn2 & ->)]|subst g']; simpl; set_solver. }
    assert (∀ e, ok_entry (seen g) e → (anchor e = live g → written_token e = live g) →
      anchor e = live g' → written_token e = live g') as Hent.
    { intros e (? & ? & ? & ?) He Ha'. destruct Hg4 as [Hg4|Hg4]; [rewrite Hg4 in *; auto|]. congruence. }
    eapply (durable_refresh g g' s s' k p (PExchange (Some res)) (Pre (live g) (pending s))); try done.
    + intros e He. split; [by apply (du_refs _ _ Hd)|]. destruct (du_known _ _ Hd e He) as [(? & ? & ? & ?) ?].
      split; [repeat split; set_solver|]. by apply Hent.
    + intros f r Hf. apply Hent; [by apply (du_flights _ _ Hd f r)|by eapply (du_harmless _ _ Hd)].
    + split; [set_solver|]. split; [done|]. intros e He.
      destruct (du_known _ _ Hd e He) as [(? & ? & ? & ?) ?]. repeat split; set_solver.
    + simpl. split; [done|]. split; [|split; [done|split; [by left|apply (du_harmless _ _ Hd)]]].
      intros f Hf. specialize (Honly _ _ Hf). destruct (Hland f Hf); [done|]. unfold pending in *. congruence.
    + by right.
  - destruct Hr as [-> Hr]. eapply (durable_moves g s s' k p (PRejected e) Idle); try done; first [by constructor|by left].
Qed.

Lemma read_row db : (read_account a db ≫= acc_refresh_token) = row_token db.
Proof. unfold read_account, row_token. by destruct (accounts db !! a). Qed.

Lemma minted_row p x α now db :
  p_id p = a → effectiveRefreshToken x ≠ Some ""%string →
  let res := write_minted localDate p x (Some α) now db in
  res.1 = bool_decide (row_token db = Some α) ∧
  row_token res.2 = if res.1 then Some (default α (effectiveRefreshToken x)) else row_token db.
Proof. intros Hid Hne. unfold write_minted. rewrite Hid. by apply write_row. Qed.

(** A statement of a refresh has run. *)
Lemma durable_statement g s k p throws now pc db :
  durable g s → tm_promises s !! k = Some p → p_id p = a →
  answer_promise localDate p throws now (tm_db s) = Some (pc, db) →
  let s' := goto_promise k pc (set_db db s) in
  tm_wf s' → sole_refresh a s' → durable g s'.
Proof.
  intros Hd Hk Hid Han s' Hwf Hsole.
  pose proof (answer_promise_live _ _ _ _ _ _ _ Han) as Hs.
  destruct (stage_of _ _ _ _ Hd Hk Hid Hs) as (st & Hkn & Hc & Ha). destruct (du_live _ _ Hd) as [Hl1 Hl2].
  assert (∀ st', known g st' → core (live g) st' (row_token db) (pending s) (in_flight s) →
    agrees (live g) (pending s) st' (set_promise_pc pc p) → unsettled_pc pc → durable g s') as Hgo.
  { intros st' Hkn' Hc' Ha' Hu. eapply (durable_refresh g g s s' k p pc st'); try done.
    - intros e He. split; [by apply (du_refs _ _ Hd)|]. by apply (du_known _ _ Hd).
    - apply (du_harmless _ _ Hd).
    - by right. }
  unfold answer_promise in Han. unfold agrees in Ha.
  destruct (p_pc p) as [r|e|x r|x r|x r|x o|x r|x t|key r|inv b|o|o] eqn:Epc; try done; destruct r; try done;
    destruct (ran throws _ _) as [rr db'] eqn:E; simplify_eq; apply ran_row in E.
  - destruct st as [|β W|W|e0]; try done. destruct Ha as (Hex & Hm & HS & Hw).
    destruct E as [(_ & -> & ->)|(_ & Hrr & Hdb)]; [by apply (Hgo (Pre β W))|].
    assert (∃ α, persistAnchor p x = Some α) as [α Hα].
    { unfold persistAnchor. destruct (px_pending x); [by eexists|by exists β]. }
    unfold minted in Hm. rewrite Hα in Hm, Hrr, Hdb. simpl in Hm.
    destruct (minted_row p x α now (tm_db s) Hid) as [Hb Hrow];
      [by intros He; rewrite He in Hm; simpl in Hm; congruence|].
    destruct Hc as ((B1 & B2 & B3) & H2 & H3 & H4 & H5).
    destruct (write_minted _ _ _ _ _ _) as [[] db']; simpl in *; subst rr db.
    + apply (Hgo (Wrote W)); [done| |exact HS|done]. simpl. rewrite Hrow. split; [congruence|done].
    + symmetry in Hb. apply bool_decide_eq_false in Hb. unfold persistAnchor in Hα.
      assert (pending s = None → row_token (tm_db s) = Some β) as HN by done.
      destruct (px_pending x) as [e|] eqn:Ex; simplify_eq.
      * assert (W = Some e) as -> by (destruct HS as [?|[? _]]; done).
        assert (row_token (tm_db s) = Some (written_token e)) as Hρ.
        { rewrite (Hw e eq_refl). destruct H4 as [HE|HE]; [|by apply HN].
          destruct (B2 _ HE) as [Hwe [?|(f & Hf & Hρ & _)]]; [done|]. apply H3 in Hf as [= ->]. congruence. }
        apply (Hgo (Missed e)); [by apply Hkn| |split; [done|]|done].
        { simpl. rewrite Hrow. split; [done|]. split; [congruence|done]. }
        unfold effectiveRefreshToken, written_token in *. rewrite Ex in *. simpl in *.
        destruct (res_refreshToken _); simpl in *; [by subst|]. destruct (pr_refreshToken e); simpl in *; congruence.
      * destruct Hb. apply HN.
        destruct HS as [<-|[_ ?]]; [by destruct H4|done].
  - destruct st as [|β W|W|e0]; try done. destruct Ha as (H1 & H2 & H3 & H4).
    assert (db = tm_db s) as -> by (destruct E as [(_ & _ & ->)|(_ & _ & ->)]; done).
    apply (Hgo (Missed e0)); [done|done| |done]. split; [done|]. split; [done|]. split; [done|].
    intros row ->. destruct E as [(_ & ? & _)|(_ & [= ->] & _)]; [done|]. simpl. rewrite Hid, read_row. apply Hc.
  - destruct st as [|β W|W|e0]; try done. destruct Ha as (H1 & H2 & H3).
    destruct E as [(_ & -> & ->)|(_ & Hrr & Hdb)]; [by apply (Hgo (Missed e0))|].
    unfold pendingWrittenToken in Hrr, Hdb. rewrite H1 in Hrr, Hdb. simpl in Hrr, Hdb.
    destruct (minted_row p x (written_token e0) now (tm_db s) Hid) as [Hb Hrow]; [by rewrite H2; congruence|].
    destruct Hc as (C1 & C2 & C3 & C4). rewrite bool_decide_eq_true_2 in Hb by done. rewrite Hb in Hrow.
    destruct (write_minted _ _ _ _ _ _) as [b db']; simpl in *. subst b rr db.
    apply (Hgo (Wrote (Some e0))); [done| |done|done]. simpl. rewrite Hrow, H2. done.
  - destruct st; done.
  - destruct st as [|β W|W|e0]; try done. destruct Ha as (H1 & H2 & t & -> & Ht).
    destruct (pause_row (p_id p) PAUSE_REASON_NEEDS_REAUTH (Some t) now (tm_db s)) as [Hrow Hf].
    assert (row_token db = row_token (tm_db s)) as Hdb by (by destruct E as [(_ & _ & ->)|(_ & _ & ->)]).
    apply (Hgo Idle); [done|by rewrite Hdb| |done]. split; [done|]. split; [|by exists t].
    destruct E as [(_ & -> & _)|(_ & -> & _)]; [done|]. rewrite (Hf Hid t eq_refl); [done|].
    destruct Hc as [(B1 & _) _]. rewrite B1 by done. congruence.
Qed.
(** The entry a record leaves, and where it stands *)
Lemma record_pending rot now r :
  jsize (reg_pending r) < MAX_PENDING_ROTATIONS →
  let α := match reg_pending r !! a with
           | Some e => anchor e
           | None => rot_attemptedRefreshToken rot
           end in
  α ≠ ""%string →
  let r' := recordPendingRotation a rot now r in
  reg_nextRef r' = reg_nextRef r + 1 ∧
  ∃ e, reg_pending r' !! a = Some e ∧ anchor e = α ∧ pr_ref e = reg_nextRef r ∧
       written_token e = default α (rot_refreshToken rot).
Proof.
  intros Hs α Hα. unfold recordPendingRotation. cbv zeta. fold α.
  rewrite bool_decide_eq_false_2 by done. autorewrite with repo. simpl. split; [done|].
  rewrite jlookup_insert_eq. eexists. split; [done|]. done.
Qed.

(** A refresh whose write threw leaves its rotation pending. *)
Lemma durable_record g s s' k p x rot now o :
  durable g s → tm_wf s' → sole_refresh a s' → tm_promises s !! k = Some p → p_id p = a → ¬ settled p →
  promise_step k p (PFinally o) s s' →
  tm_registry s' = recordPendingRotation a rot now (tm_registry s) →
  jsize (reg_pending (tm_registry s)) < MAX_PENDING_ROTATIONS →
  rot_refreshToken rot = effectiveRefreshToken x →
  match pending s with
  | Some e => default (anchor e) (effectiveRefreshToken x) = live g ∧
      (row_token (tm_db s) = Some (anchor e) ∨
       ∃ f, in_flight s f (answered true) ∧ row_token (tm_db s) = Some (written_token f) ∧
            anchor f = anchor e)
  | None => row_token (tm_db s) = Some (rot_attemptedRefreshToken rot) ∧
      rot_attemptedRefreshToken rot ≠ ""%string ∧ rot_attemptedRefreshToken rot ∈ seen g ∧
      default (rot_attemptedRefreshToken rot) (effectiveRefreshToken x) = live g
  end →
  (∀ f, in_flight s f (answered true) → row_token (tm_db s) = Some (written_token f)) →
  durable g s'.
Proof.
  intros Hd Hwf Hsole Hk Hid Hlive [E1 E2 E3 E4 E5 E6 E7] Hreg Hsize Hrot Hcase Hland.
  destruct (du_live _ _ Hd) as [Hl1 Hl2].
  set (α := match pending s with Some e => anchor e | None => rot_attemptedRefreshToken rot end).
  assert (α ≠ ""%string ∧ α ∈ seen g ∧ default α (effectiveRefreshToken x) = live g) as (Hα & Hαs & Hw).
  { unfold α. destruct (pending s) as [e|] eqn:Ep; [|tauto].
    destruct (du_known _ _ Hd e Ep) as [(? & ? & ? & ?) ?]. tauto. }
  destruct (record_pending rot now (tm_registry s) Hsize Hα) as (Hn & e' & He' & Ha' & Hr' & Hw').
  fold (pending s) in Ha', Hw'. fold α in Ha', Hw'. rewrite Hrot, Hw in Hw'.
  assert (pending s' = Some e') as Hp by (unfold pending; by rewrite Hreg).
  eapply (durable_refresh g g s s' k p (PFinally o) Idle); try done.
  - intros f. rewrite Hreg. apply (identity_ok_exec _ _ _ (RRecord a rot now)).
  - intros e. rewrite Hp. intros [= <-]. rewrite Hreg, Hn, Hr'. split; [lia|]. split; [|done].
    split; [congruence|]. split; [congruence|]. split; [congruence|]. by rewrite Hw'.
  - apply (du_harmless _ _ Hd).
  - rewrite E4, Hp. split; [|intros f Hf; left; by apply Hland]. split; [done|]. split.
    + intros e [= <-]. split; [done|]. rewrite Ha'. unfold α. destruct (pending s); [apply Hcase|left; apply Hcase].
    + intros f Hf [= <-]. destruct (du_flights _ _ Hd _ _ Hf) as [_ [Hlt _]]. lia.
  - by left.
Qed.

(** A refresh whose write landed drops the entry it carried. *)
Lemma durable_clear g s s' k p pc st' :
  durable g s → tm_wf s' → sole_refresh a s' → tm_promises s !! k = Some p → p_id p = a → ¬ settled p →
  promise_step k p pc s s' →
  reg_step a (tm_registry s) (tm_registry s') → pending s' = None → known g st' →
  core (live g) st' (row_token (tm_db s)) None (in_flight s) →
  agrees (live g) None st' (set_promise_pc pc p) → unsettled_pc pc → durable g s'.
Proof.
  intros Hd Hwf Hsole Hk Hid Hlive [E1 E2 E3 E4 E5 E6 E7] Hreg Hp Hkn Hcore Hag Hu.
  eapply (durable_refresh g g s s' k p pc st'); try done; rewrite ?Hp, ?E4; try done.
  - intros f. by apply reg_step_identity with a.
  - apply (du_live _ _ Hd).
  - apply (du_live _ _ Hd).
  - apply (du_harmless _ _ Hd).
  - by right.
Qed.
Lemma clear_pending_None e r :
  reg_pending r !! a = Some e ∨ reg_pending r !! a = None →
  reg_pending (clearPendingRotationIfCurrent a e r) !! a = None.
Proof.
  unfold clearPendingRotationIfCurrent, is_current, drop_pending. intros [H|H]; rewrite ?H; [|done].
  rewrite Z.eqb_refl. autorewrite with repo. simpl. by rewrite jlookup_delete_eq.
Qed.

Lemma resolve_pending_None e t r :
  reg_pending r !! a = Some e ∨ reg_pending r !! a = None →
  reg_pending (resolvePendingAfterPersist a e t r) !! a = None.
Proof.
  unfold resolvePendingAfterPersist, is_current, drop_pending. intros [H|H]; rewrite ?H; [|done].
  rewrite Z.eqb_refl. autorewrite with repo. simpl. by rewrite jlookup_delete_eq.
Qed.

Lemma core_idle_None λv F : core λv Idle (Some λv) None F.
Proof. split; [split; [done|split; [done|done]]|]. intros f Hf. by right. Qed.

Lemma durable_persisted g s s0 k p x now W :
  let s' := persisted_refresh k p x now s0 in
  durable g s → tm_wf s' → sole_refresh a s' → tm_promises s !! k = Some p → p_id p = a → ¬ settled p →
  tm_promises s0 = tm_promises s → tm_callers s0 = tm_callers s → tm_flushes s0 = tm_flushes s →
  tm_db s0 = tm_db s → tm_nextPromise s0 = tm_nextPromise s →
  refreshInFlight s0 = refreshInFlight s → tm_registry s0 = tm_registry s →
  core (live g) (Wrote W) (row_token (tm_db s)) (pending s) (in_flight s) →
  (px_pending x = W ∨ pending s = None) → durable g s'.
Proof.
  intros s' Hd Hwf Hsole Hk Hid Hlive E1 E2 E3 E4 E5 E6 E7 (Hρ & Ho & HW) HS.
  apply (durable_clear g s s' k p (PFinally (Token (res_accessToken (px_result x)))) Idle); try done.
  - eapply promise_step_on; [|exact E1|exact E2|exact E3|exact E4|exact E5|exact E6].
    unfold s', persisted_refresh. by destruct (px_pending x).
  - unfold s', persisted_refresh. destruct (px_pending x) as [e|]; [|by left]. right.
    exists (RResolve a e (effectiveRefreshToken x)). split; [done|]. simpl. by rewrite Hid, E7.
  - unfold s', persisted_refresh, pending in *. destruct (px_pending x) as [e|]; simpl; rewrite ?Hid, E7.
    + apply resolve_pending_None. destruct HS as [<-|?]; auto.
    + destruct HS as [<-|?]; [by destruct HW|done].
  - rewrite Hρ. apply core_idle_None.
Qed.

Lemma durable_continue g s k p now s' :
  durable g s → tm_promises s !! k = Some p → p_id p = a →
  jsize (reg_pending (tm_registry s)) < MAX_PENDING_ROTATIONS →
  (∀ x e, p_pc p = PPersist x threw → px_pending x = Some e → is_current a e (tm_registry s) = true) →
  continue_promise k p now s = Some s' → tm_wf s' → sole_refresh a s' → durable g s'.
Proof.
  intros Hd Hk Hid Hsize Hcur Hc Hwf Hsole.
  pose proof (continue_promise_live _ _ _ _ _ Hc) as Hs.
  destruct (stage_of _ _ _ _ Hd Hk Hid Hs) as (st & Hkn & Hcore & Ha). destruct (du_live _ _ Hd) as [Hl1 Hl2].
  assert (∀ pc st' s0, s' = goto_promise k pc s0 → tm_promises s0 = tm_promises s →
    tm_callers s0 = tm_callers s → tm_flushes s0 = tm_flushes s → tm_db s0 = tm_db s →
    tm_nextPromise s0 = tm_nextPromise s → refreshInFlight s0 = refreshInFlight s →
    tm_registry s0 = tm_registry s → unsettled_pc pc → pc ≠ PFinally (Failed RefreshNotFound) →
    known g st' → core (live g) st' (row_token (tm_db s)) (pending s) (in_flight s) →
    agrees (live g) (pending s) st' (set_promise_pc pc p) → durable g s') as Hgo.
  { intros pc st' s0 -> E1 E2 E3 E4 E5 E6 E7 Hu Hf Hkn' Hc' Ha'.
    eapply (durable_moves g s _ k p pc st'); try done; [|by right].
    eapply promise_step_on; [|exact E1|exact E2|exact E3|exact E4|exact E5|exact E6].
    constructor; try done. destruct pc; try done. by destruct (Hu o). }
  unfold continue_promise in Hc. unfold agrees in Ha.
  destruct (p_pc p) as [[res|]|e|x r|x [| |row]|x [| |[]]|x o|x r|x t|key []|inv b|o|o] eqn:Epc;
    try done; destruct st as [|β W|W|e0]; try done.
  - destruct Ha as [Hex Hl]. injection Hc as Hc. eapply (Hgo _ (Pre β W)); [by rewrite <-Hc|done..|].
    destruct Hcore as ((B1 & B2 & B3) & H2 & H3 & H4 & H5). simpl. split; [done|].
    assert (∀ e, pending s = Some e → written_token e = β) as Hw by (intros e He; by apply B2).
    rewrite Hid. change (getPendingRotation a (tm_registry s)) with (pending s). split; [|split; [|done]].
    + unfold minted, persistAnchor, effectiveRefreshToken. simpl. destruct (res_refreshToken res) as [t|]; [done|].
      simpl in *. destruct (pending s) as [e|] eqn:Ep; simpl; [|by rewrite Hex]. rewrite <-(Hw e eq_refl) in Hl. done.
    + destruct H4 as [->| ->]; [by left|]. by right.
  - injection Hc as Hc. destruct Hcore as [(B1 & B2 & B3) H2]. unfold continue_rejected in Hc.
    destruct (isInvalidGrant e); simpl in Hc; [|by eapply (Hgo (PPaused false false) Idle); [symmetry; exact Hc|try done..]].
    destruct (Ha eq_refl) as [Hne Hl]. rewrite Hid in Hc. unfold getPendingRotation in Hc.
    simpl in Hc. change (reg_pending (tm_registry s) !! a) with (pending s) in Hc.
    destruct (pending s) as [ent|] eqn:Ep; simpl in Hc.
    + destruct (B2 ent eq_refl) as [Hw _]. assert (bool_decide (p_exchanged p = Some (written_token ent)) = false) as Hb
        by (apply bool_decide_eq_false; congruence).
      simpl in Hc. rewrite Hb in Hc. simpl in Hc.
      by eapply (Hgo (PFinally (Failed (TokenRefreshError true))) Idle); [symmetry; exact Hc|try done..].
    + destruct (p_exchanged p) as [t|]; [|done].
      eapply (Hgo (PPause (Some t) waiting) Idle); [by rewrite <-Hc|done..|]. simpl. split; [done|]. split; [done|].
      exists t. split; [done|]. congruence.
  - destruct r; try done. destruct Ha as (Hex & Hm & HS & Hw). simpl in Hc. injection Hc as Hc.
    destruct Hcore as ((B1 & B2 & B3) & H2 & H3 & H4 & H5).
    eapply (durable_record g s s' k p x (unpersisted (default ""%string (persistAnchor p x)) x) now); try done.
    + rewrite <-Hc. by constructor.
    + rewrite <-Hc. simpl. by rewrite Hid.
    + unfold minted, persistAnchor in Hm. unfold persistAnchor. simpl.
      destruct (px_pending x) as [e|] eqn:Ex; simpl in *.
      * specialize (Hcur x e eq_refl Ex). assert (W = Some e) as -> by (destruct HS as [?|[? _]]; done).
        unfold is_current in Hcur. fold (pending s) in Hcur. destruct H4 as [HE|HE]; rewrite HE in *; [|done].
        split; [done|]. by apply B2.
      * assert (pending s = None) as HE by (destruct HS as [<-|[_ ?]]; [by destruct H4|done]). rewrite HE in *.
        rewrite Hex in *. simpl in *. destruct Hkn as (? & ? & _). auto.
  - destruct r as [| |[]]; try done. simpl in Hc. injection Hc as Hc.
    rewrite <-Hc. rewrite <-Hc in Hwf, Hsole. eapply (durable_persisted g s _ k p x now W); try done. tauto.
  - destruct r as [| |[]]; try done. destruct Ha as [Hx He]. simpl in Hc. rewrite Hx in Hc.
    destruct Hcore as (C1 & C2 & C3 & C4).
    assert (reg_pending (clearPendingRotationIfCurrent a e0 (tm_registry s)) !! a = None) as Hcl
      by (by apply clear_pending_None).
    unfold getPendingRotation, pendingWrittenToken in Hc. simpl in Hc. rewrite Hid, Hcl, Hx in Hc. simpl in Hc.
    destruct (written_token e0) as [|ch t] eqn:Ew; [by destruct Hkn as (_ & ? & _)|]. simpl in Hc. injection Hc as Hc.
    eapply (durable_clear g s s' k p (PRetryRead x waiting) (Missed e0)); try done.
    + rewrite <-Hc. by constructor.
    + rewrite <-Hc. right. by exists (RClearIfCurrent a e0).
    + rewrite <-Hc. done.
    + simpl. rewrite Ew. split; [done|]. split; [done|]. split; [done|]. by right.
  - destruct Ha as (H1 & H2 & H3 & H4). injection Hc as Hc.
    by eapply (Hgo (PRetried x RetryFailed) (Missed e0)); [symmetry; exact Hc|try done..].
  - destruct Ha as (H1 & H2 & H3 & H4). unfold pendingWrittenToken in Hc. rewrite H1 in Hc. simpl in Hc.
    rewrite bool_decide_eq_true_2 in Hc by (by apply H4). injection Hc as Hc.
    by eapply (Hgo (PRetryWrite x waiting) (Missed e0)); [symmetry; exact Hc|try done..].
  - injection Hc as Hc. by eapply (Hgo (PRetried x RetryFailed) (Missed e0)); [symmetry; exact Hc|try done..].
  - injection Hc as Hc. by eapply (Hgo (PRetried x RetryPersisted) (Wrote W)); [symmetry; exact Hc|try done..].
  - destruct o; try done. simpl in Hc. injection Hc as Hc.
    rewrite <-Hc. rewrite <-Hc in Hwf, Hsole. eapply (durable_persisted g s _ k p x now W); try done. by right.
  - destruct o; try done. destruct Ha as (H1 & H2 & H3). simpl in Hc. injection Hc as Hc.
    destruct Hcore as (C1 & C2 & C3 & C4).
    eapply (durable_record g s s' k p x (unpersisted (default ""%string (pendingWrittenToken x)) x) now); try done.
    + rewrite <-Hc. by constructor.
    + rewrite <-Hc. simpl. by rewrite Hid.
    + rewrite H3. unfold pendingWrittenToken. rewrite H1. simpl. destruct Hkn as (_ & Hk1 & _ & Hk2). by rewrite H2.
    + intros f Hf. apply C3 in Hf as [= ->]. done.
  - injection Hc as Hc. by eapply (Hgo (PPaused true false) Idle); [symmetry; exact Hc|try done..].
  - injection Hc as Hc. destruct Ha as (H1 & H2 & H3). destruct a0; [done|].
    by eapply (Hgo (PPaused true false) Idle); [symmetry; exact Hc|try done..].
  - injection Hc as Hc. unfold continue_paused in Hc. simpl in Ha. subst b.
    eapply (Hgo (PFinally (Failed (TokenRefreshError inv))) Idle); [symmetry; exact Hc|..]; try done; by destruct inv.
  - injection Hc as Hc.
    assert (tm_promises s' = alter (set_promise_pc (PSettled o)) k (tm_promises s) ∧
      tm_callers s' = tm_callers s ∧ tm_flushes s' = tm_flushes s ∧ tm_registry s' = tm_registry s ∧
      tm_db s' = tm_db s) as (E1 & E2 & E3 & E4 & E5) by (rewrite <-Hc; by case_bool_decide).
    assert (pending s' = pending s) as Hp by (unfold pending; by rewrite E4).
    eapply (durable_refresh g g s s' k p (PSettled o) Idle); try done; rewrite ?E4, ?E5, ?Hp; try done.
    + intros e He. split; [by apply (du_refs _ _ Hd)|]. by apply (du_known _ _ Hd).
    + apply (du_harmless _ _ Hd).
    + intros Hu. by destruct (Hu o).
    + by left.
Qed.

(** * Every step *)

Lemma same_flights_iff s s' : tm_callers s' = tm_callers s → tm_flushes s' = tm_flushes s →
  ∀ f r, in_flight s' f r ↔ in_flight s f r.
Proof. intros H1 H2 f r. by rewrite (same_flights s s' H1 H2). Qed.

Lemma same_promise_step k p pc s s' :
  tm_promises s !! k = Some p → p_id p ≠ a →
  tm_promises s' = alter (set_promise_pc pc) k (tm_promises s) → same_refreshes s s'.
Proof.
  intros Hk Hid E. split; rewrite E.
  - intros j q Hj Hq. rewrite lookup_alter_ne; [done|]. intros ->. congruence.
  - intros j q [(<- & q0 & Hq0 & ->)|(Hne & Hj)]%lookup_alter_Some Hq; [simpl in *; congruence|by left].
Qed.

(** A step of another account's refresh *)
Lemma durable_other g s s' k p pc :
  durable g s → tm_wf s' → sole_refresh a s' → tm_promises s !! k = Some p → p_id p ≠ a →
  tm_promises s' = alter (set_promise_pc pc) k (tm_promises s) →
  tm_callers s' = tm_callers s → tm_flushes s' = tm_flushes s →
  row_token (tm_db s') = row_token (tm_db s) →
  jsize (reg_pending (tm_registry s)) < MAX_PENDING_ROTATIONS →
  reg_step (p_id p) (tm_registry s) (tm_registry s') → durable g s'.
Proof.
  intros Hd Hwf Hsole Hk Hid E1 E2 E3 Hrow Hsize Hreg.
  apply (durable_same g s s' Hd Hwf Hsole); [by eapply same_promise_step|by apply same_flights_iff|done|..].
  - unfold pending. by eapply reg_step_other.
  - by eapply reg_step_next.
  - intros f. by eapply reg_step_identity.
Qed.

Lemma caller_promises k c pc s s' :
  caller_step k c pc s s' → tm_wf s → sole_refresh a s → same_refreshes s s'.
Proof.
  intros [_ _ _ E _] Hwf Hsole.
  destruct E as [(E & _)|(Hn & _ & (x & E) & _)]; split; rewrite E; try by auto.
  - intros j q Hj Hq. rewrite lookup_insert_ne; [done|].
    assert (j < tm_nextPromise s) by (apply (wf_fresh _ Hwf); eauto). lia.
  - intros j q Hj Hq. rewrite lookup_insert in Hj. case_decide; simplify_eq/=; [|by left]. right.
    split; [done|]. intros i q0 Hi Hq0. destruct (decide (settled q0)) as [|Hs]; [done|].
    pose proof (Hsole _ _ Hi Hq0 Hs). congruence.
Qed.

Lemma caller_flight_none c : (∀ f r, c_pc c ≠ CFlushWrite f r) → caller_flight c = None.
Proof. intros H. unfold caller_flight. destruct (c_pc c) eqn:E; try done. by destruct (H e r). Qed.

Lemma caller_flight_other c : c_id c ≠ a → caller_flight c = None.
Proof. intros H. unfold caller_flight. destruct (c_pc c); try done. by rewrite decide_False. Qed.

(** A call that is not in a flush of the account before or after *)
Lemma durable_caller_same g s s' k c c' :
  durable g s → tm_wf s' → sole_refresh a s' → same_refreshes s s' →
  tm_callers s !! k = Some c → tm_callers s' !! k = Some c' →
  (∀ j, j ≠ k → tm_callers s' !! j = tm_callers s !! j) → tm_flushes s' = tm_flushes s →
  caller_flight c = None → caller_flight c' = None → row_token (tm_db s') = row_token (tm_db s) →
  jsize (reg_pending (tm_registry s)) < MAX_PENDING_ROTATIONS →
  (tm_registry s' = tm_registry s ∨ c_id c ≠ a ∧ reg_step (c_id c) (tm_registry s) (tm_registry s')) →
  durable g s'.
Proof.
  intros Hd Hwf Hsole Hsame Hk Hk' Hne Hf Hc Hc' Hrow Hsize Hreg.
  assert (∀ f r, in_flight s' f r ↔ in_flight s f r) as HF.
  { set (e := {| pr_ref := 0; pr_accessToken := ""; pr_expiresAt := 0; pr_refreshToken := None;
                 pr_refreshTokenExpiresAt := None; pr_identity := None;
                 pr_attemptedRefreshToken := ""; pr_recordedAt := 0 |}).
    eapply (moves_none _ _ e), (moves_caller s s' k); [done|done|by rewrite Hk|by rewrite Hk']. }
  apply (durable_same g s s' Hd Hwf Hsole); try done.
  - unfold pending. destruct Hreg as [->|[Hn Hr]]; [done|]. by eapply reg_step_other.
  - destruct Hreg as [->|[Hn Hr]]; [lia|]. by eapply reg_step_next.
  - intros f. destruct Hreg as [->|[Hn Hr]]; [done|]. by eapply reg_step_identity.
Qed.

(** A flush of the account starts. *)
Lemma durable_started g s s' e :
  durable g s → tm_wf s' → sole_refresh a s' → same_refreshes s s' → pending s = Some e →
  tm_registry s' = tm_registry s → row_token (tm_db s') = row_token (tm_db s) →
  moves (in_flight s) (in_flight s') e None (Some waiting) → durable g s'.
Proof.
  intros Hd Hwf Hsole Hsame Hp Hreg Hrow Hmv.
  eapply (durable_step g s s' e None (Some waiting)); try done; rewrite ?Hreg; try done.
  - by left.
  - left. unfold pending. by rewrite Hreg.
  - intros st Hc. unfold pending. rewrite Hreg, Hrow. fold (pending s).
    eapply core_quiet; [exact Hmv|by intros []..|by left|done].
Qed.

(** A call of the machine moves on. *)
Lemma durable_caller g s k c now s' :
  durable g s → tm_callers s !! k = Some c → continue_caller k c now s = Some s' →
  jsize (reg_pending (tm_registry s)) < MAX_PENDING_ROTATIONS → tm_wf s' → sole_refresh a s' →
  durable g s'.
Proof.
  intros Hd Hk Hc Hsize Hwf Hsole.
  pose proof (continue_caller_goes _ _ _ _ _ Hc) as (pc & Hst & _).
  pose proof (caller_promises _ _ _ _ _ Hst (du_wf _ _ Hd) (du_sole _ _ Hd)) as Hsame.
  pose proof (continue_caller_moves _ _ _ _ _ Hk Hc) as Hm. destruct Hst as [E1 E2 E3 _ _].
  assert (∀ j, j ≠ k → tm_callers s' !! j = tm_callers s !! j) as Hne.
  { intros j Hj. rewrite E1. by apply lookup_alter_ne. }
  assert (caller_moves k c s s' → (∀ f r, c_pc c ≠ CFlushWrite f r) → durable g s') as Hmoves.
  { intros (c' & Hk' & Hid & Hreg & Hpc) Hnf. pose proof (caller_flight_none _ Hnf) as Hcn.
    destruct Hpc as [Hpc|(e & Hpc & He)].
    - eapply (durable_caller_same g s s' k c c'); try done; [by apply caller_flight_none|by rewrite E3|by left].
    - destruct (decide (c_id c = a)) as [Ha|Ha].
      + eapply (durable_started g s s' e); try done; [unfold pending; by rewrite <-Ha|by rewrite E3|].
        eapply (moves_caller s s' k); [done|done|by rewrite Hk|]. rewrite Hk'. simpl. unfold caller_flight.
        rewrite Hpc, Hid. by rewrite decide_True.
      + eapply (durable_caller_same g s s' k c c'); try done;
          [apply caller_flight_other; congruence|by rewrite E3|by left]. }
  destruct (c_pc c) as [r|g0 j|g0|t r|t ad|r|e r|o|r|t|o] eqn:Epc; try by apply Hmoves.
  destruct Hm as (pc' & Hpc' & Hm).
  assert (tm_callers s' !! k = Some (set_caller_pc pc' c) ∧ tm_promises s' = tm_promises s ∧
          tm_db s' = tm_db s) as (Hk' & Hp & Hdb).
  { destruct r; [done|..]; subst s'; simpl; by rewrite lookup_alter_eq, Hk. }
  assert (caller_flight (set_caller_pc pc' c) = None) as Hn' by (by apply caller_flight_none).
  destruct (decide (c_id c = a)) as [Ha|Ha].
  - assert (∀ r0, c_pc c = CFlushWrite e r0 → moves (in_flight s) (in_flight s') e (Some r0) None) as Hmv.
    { intros r0 Hr0. eapply (moves_caller s s' k); [done|done| |by rewrite Hk'; simpl].
      rewrite Hk. simpl. unfold caller_flight. rewrite Hr0. by rewrite decide_True. }
    specialize (Hmv r Epc). destruct r as [| |b]; [done| |].
    + assert (tm_registry s' = tm_registry s) as Hreg by by subst s'.
      eapply (durable_step g s s' e (Some threw) None); try done; rewrite ?Hreg; try done.
      * left. unfold pending. by rewrite Hreg.
      * intros st Hco. unfold pending. rewrite Hreg, Hdb. fold (pending s).
        eapply core_quiet; [exact Hmv|by intros []..|right; by eexists|done].
    + eapply (durable_settled g s s' e b); try done; [|by rewrite Hdb]. subst s'. simpl. by rewrite Ha.
  - eapply (durable_caller_same g s s' k c _); try done; [by apply caller_flight_other|by rewrite Hdb|].
    right. split; [done|]. destruct r as [| |b]; [done|by subst s'; left|]. subst s'. simpl.
    apply flush_settle_step.
Qed.

(** The statements of other accounts' tasks leave the row as it is. *)
Lemma answer_promise_other p throws now db pc db' :
  p_id p ≠ a → answer_promise localDate p throws now db = Some (pc, db') →
  row_token db' = row_token db.
Proof.
  intros Hne Ha. unfold answer_promise in Ha.
  assert (∀ x α, row_token (write_minted localDate p x α now db).2 = row_token db) as Hw
    by (intros x α; by apply write_other).
  destruct (p_pc p) as [r|e|x r|x r|x r|x o|x r|x t|key r|inv b|o|o]; try done; destruct r; try done;
    destruct (ran throws _ _) as [rr db1] eqn:E; simplify_eq; apply ran_row in E;
    destruct E as [(_ & _ & ->)|(_ & _ & ->)]; auto.
  apply pause_row.
Qed.

Lemma durable_answer_promise g s k p throws now pc db :
  durable g s → tm_promises s !! k = Some p →
  jsize (reg_pending (tm_registry s)) < MAX_PENDING_ROTATIONS →
  answer_promise localDate p throws now (tm_db s) = Some (pc, db) →
  let s' := goto_promise k pc (set_db db s) in
  tm_wf s' → sole_refresh a s' → durable g s'.
Proof.
  intros Hd Hk Hsize Ha s' Hwf Hsole. destruct (decide (p_id p = a)) as [Hid|Hid].
  - by eapply durable_statement.
  - eapply (durable_other g s s' k p pc); try done; [|by left]. by eapply answer_promise_other.
Qed.

Lemma durable_continue_promise g s k p now s' :
  durable g s → tm_promises s !! k = Some p →
  jsize (reg_pending (tm_registry s)) < MAX_PENDING_ROTATIONS →
  (∀ x e, p_id p = a → p_pc p = PPersist x threw → px_pending x = Some e →
     is_current a e (tm_registry s) = true) →
  continue_promise k p now s = Some s' → tm_wf s' → sole_refresh a s' → durable g s'.
Proof.
  intros Hd Hk Hsize Hcur Hc Hwf Hsole. destruct (decide (p_id p = a)) as [Hid|Hid].
  - eapply (durable_continue g s k p now s'); try done. intros x e. by apply Hcur.
  - pose proof (continue_promise_goes _ _ _ _ _ Hc) as (pc & [E1 E2 E3 E4 E5 E6 E7] & _).
    eapply (durable_other g s s' k p pc); try done; [by rewrite E4|].
    by eapply continue_promise_registry.
Qed.

(** The answer to a read of a call, and to the write of its flush *)
Lemma answer_caller_spec c throws now db pc db' :
  answer_caller localDate c throws now db = Some (pc, db') →
  (db' = db ∧ (∀ f r, c_pc c ≠ CFlushWrite f r) ∧ ∀ f r, pc ≠ CFlushWrite f r) ∨
  ∃ e r, c_pc c = CFlushWrite e waiting ∧ pc = CFlushWrite e r ∧
    ran throws (run_flush_write localDate (c_id c) e now db) db = (r, db').
Proof.
  unfold answer_caller. intros Ha.
  destruct (c_pc c) as [r|g j|g|t r|t ad|r|e r|o|r|t|o]; try done; destruct r; try done;
    destruct (ran throws _ _) as [rr db1] eqn:E; simplify_eq.
  4: { right. by exists e, rr. }
  all: left; apply ran_row in E; split; [by destruct E as [(_ & _ & ->)|(_ & _ & ->)]|done].
Qed.

(** What the write of a flush of the account does to the row *)
Lemma flush_ran g s throws e now r db :
  durable g s → in_flight s e waiting →
  ran throws (run_flush_write localDate a e now (tm_db s)) (tm_db s) = (r, db) →
  r = threw ∧ row_token db = row_token (tm_db s) ∨
  ∃ b, r = answered b ∧ b = bool_decide (row_token (tm_db s) = Some (anchor e)) ∧
    row_token db = if b then Some (written_token e) else row_token (tm_db s).
Proof.
  intros Hd He [(_ & -> & ->)|(_ & -> & ->)]%ran_row; [by left|right].
  destruct (du_flights _ _ Hd _ _ He) as [(_ & Hw & _) _].
  destruct (flush_row e now (tm_db s) Hw) as [H1 H2]. eexists. split; [done|]. split; [done|].
  done.
Qed.

Lemma durable_answer_caller g s k c throws now pc db :
  durable g s → tm_callers s !! k = Some c →
  jsize (reg_pending (tm_registry s)) < MAX_PENDING_ROTATIONS →
  (awaits_flush (Caller k) s → ∀ f b, ¬ in_flight s f (answered b)) →
  answer_caller localDate c throws now (tm_db s) = Some (pc, db) →
  let s' := goto_caller k pc (set_db db s) in
  tm_wf s' → sole_refresh a s' → durable g s'.
Proof.
  intros Hd Hk Hsize Hno Ha s' Hwf Hsole.
  assert (tm_callers s' !! k = Some (set_caller_pc pc c)) as Hk' by (simpl; by rewrite lookup_alter_eq, Hk).
  assert (∀ j, j ≠ k → tm_callers s' !! j = tm_callers s !! j) as Hne by (intros; by apply lookup_alter_ne).
  assert (same_refreshes s s') as Hsame by by apply same_refreshes_refl.
  destruct (answer_caller_spec _ _ _ _ _ _ Ha) as [(-> & H1 & H2)|(e & r & Epc & -> & Hran)].
  - eapply (durable_caller_same g s s' k c _); try done; try (by apply caller_flight_none); by left.
  - destruct (decide (c_id c = a)) as [Hid|Hid].
    + assert (caller_flight c = Some (e, waiting)) as Hf by (unfold caller_flight; rewrite Epc; by rewrite decide_True).
      assert (moves (in_flight s) (in_flight s') e (Some waiting) (Some r)) as Hmv.
      { apply (moves_caller s s' k); [done|done|by rewrite Hk|]. rewrite Hk'. simpl. unfold caller_flight.
        simpl. by rewrite decide_True. }
      assert (in_flight s e waiting) as He by by eapply mv_from.
      eapply (durable_answered g s s' e r); try done.
      * rewrite Hid in Hran. by eapply flush_ran.
      * apply Hno. exists e. by rewrite Hk.
    + eapply (durable_caller_same g s s' k c _); try done; [by apply caller_flight_other..| |by left].
      simpl. apply ran_row in Hran as [(_ & _ & ->)|(_ & _ & ->)]; [done|]. by apply flush_other.
Qed.

(** A flush by another touchpoint, of another account *)
Lemma durable_flush_other g s s' k id :
  durable g s → tm_wf s' → sole_refresh a s' → tm_promises s' = tm_promises s →
  tm_callers s' = tm_callers s → (∀ j, j ≠ k → tm_flushes s' !! j = tm_flushes s !! j) → id ≠ a →
  (∀ f, tm_flushes s !! k = Some f → f_id f = id) → (∀ f, tm_flushes s' !! k = Some f → f_id f = id) →
  row_token (tm_db s') = row_token (tm_db s) →
  jsize (reg_pending (tm_registry s)) < MAX_PENDING_ROTATIONS →
  reg_step id (tm_registry s) (tm_registry s') → durable g s'.
Proof.
  intros Hd Hwf Hsole Hp Hc Hne Hid H0 H1 Hrow Hsize Hreg.
  assert (∀ t, f_id t = id → task_flight t = None) as Hnone.
  { intros t <-. unfold task_flight. by rewrite decide_False. }
  apply (durable_same g s s' Hd Hwf Hsole); [by apply same_refreshes_refl| |done|..].
  - set (e := {| pr_ref := 0; pr_accessToken := ""; pr_expiresAt := 0; pr_refreshToken := None;
                 pr_refreshTokenExpiresAt := None; pr_identity := None;
                 pr_attemptedRefreshToken := ""; pr_recordedAt := 0 |}).
    eapply (moves_none _ _ e), (moves_flush s s' k); [done|done|..].
    + destruct (tm_flushes s !! k) as [t|]; [|done]. simpl. by rewrite Hnone by auto.
    + destruct (tm_flushes s' !! k) as [t|]; [|done]. simpl. by rewrite Hnone by auto.
  - unfold pending. by eapply reg_step_other.
  - by eapply reg_step_next.
  - intros f. by eapply reg_step_identity.
Qed.

Lemma task_flight_at t : f_id t = a → task_flight t = Some (f_entry t, f_reply t).
Proof. intros H. unfold task_flight. by rewrite decide_True. Qed.

Lemma durable_answer_flush g s k f throws now f' db :
  durable g s → tm_flushes s !! k = Some f →
  jsize (reg_pending (tm_registry s)) < MAX_PENDING_ROTATIONS →
  (awaits_flush (Flush k) s → ∀ f b, ¬ in_flight s f (answered b)) →
  answer_flush localDate f throws now (tm_db s) = Some (f', db) →
  let s' := set_flushes (<[k := f']> (tm_flushes s)) (set_db db s) in
  tm_wf s' → sole_refresh a s' → durable g s'.
Proof.
  intros Hd Hk Hsize Hno Ha s' Hwf Hsole. unfold answer_flush in Ha.
  destruct (f_reply f) eqn:Er; try done. destruct (ran _ _ _) as [r db1] eqn:E. injection Ha as <- <-.
  assert (∀ j, j ≠ k → tm_flushes s' !! j = tm_flushes s !! j) as Hne by (intros; by apply lookup_insert_ne).
  destruct (decide (f_id f = a)) as [Hid|Hid].
  - assert (moves (in_flight s) (in_flight s') (f_entry f) (Some waiting) (Some r)) as Hmv.
    { apply (moves_flush s s' k); [done|done|rewrite Hk; simpl; by rewrite task_flight_at, Er|].
      simpl. rewrite lookup_insert_eq. simpl. by rewrite task_flight_at. }
    assert (in_flight s (f_entry f) waiting) as He by by eapply mv_from.
    eapply (durable_answered g s s' (f_entry f) r); try done.
    + rewrite Hid in E. by eapply flush_ran.
    + apply Hno. exists (f_entry f). rewrite Hk. simpl. by rewrite task_flight_at, Er.
  - eapply (durable_flush_other g s s' k (f_id f)); try done; [by intros; simplify_eq| | |by left].
    + simpl. rewrite lookup_insert_eq. by intros ? [= <-].
    + simpl. apply ran_row in E as [(_ & _ & ->)|(_ & _ & ->)]; [done|]. by apply flush_other.
Qed.

Lemma durable_continue_flush g s k f s' :
  durable g s → tm_flushes s !! k = Some f →
  jsize (reg_pending (tm_registry s)) < MAX_PENDING_ROTATIONS →
  continue_flush k f s = Some s' → tm_wf s' → sole_refresh a s' → durable g s'.
Proof.
  intros Hd Hk Hsize Hc Hwf Hsole. unfold continue_flush in Hc.
  assert (tm_flushes s' = delete k (tm_flushes s) ∧ tm_promises s' = tm_promises s ∧
          tm_callers s' = tm_callers s ∧ tm_db s' = tm_db s) as (Ef & Ep & Ec & Edb).
  { destruct (f_reply f); simplify_eq/=; done. }
  assert (∀ j, j ≠ k → tm_flushes s' !! j = tm_flushes s !! j) as Hne.
  { intros j Hj. rewrite Ef. by apply lookup_delete_ne. }
  destruct (decide (f_id f = a)) as [Hid|Hid].
  - assert (∀ r, f_reply f = r → moves (in_flight s) (in_flight s') (f_entry f) (Some r) None) as Hmv.
    { intros r <-. apply (moves_flush s s' k); [done|done|rewrite Hk; simpl; by rewrite task_flight_at|].
      by rewrite Ef, lookup_delete_eq. }
    specialize (Hmv _ eq_refl). destruct (f_reply f) as [| |b] eqn:Er; [done| |].
    + assert (tm_registry s' = tm_registry s) as Hreg by by simplify_eq.
      eapply (durable_step g s s' (f_entry f) (Some threw) None); try done; rewrite ?Hreg; try done.
      * by apply same_refreshes_refl.
      * left. unfold pending. by rewrite Hreg.
      * intros st Hco. unfold pending. rewrite Hreg, Edb. fold (pending s).
        eapply core_quiet; [exact Hmv|by intros []..|right; by eexists|done].
    + eapply (durable_settled g s s' (f_entry f) b); try done; [|by rewrite Edb].
      injection Hc as <-. simpl. by rewrite Hid.
  - eapply (durable_flush_other g s s' k (f_id f)); try done; [by intros; simplify_eq| |by rewrite Edb|].
    + rewrite Ef, lookup_delete_eq. done.
    + destruct (f_reply f) as [| |b]; [done|..]; injection Hc as <-; [by left|]. simpl. apply flush_settle_step.
Qed.

Lemma durable_start_flush g s k id e :
  durable g s → tm_flushes s !! k = None → reg_pending (tm_registry s) !! id = Some e →
  jsize (reg_pending (tm_registry s)) < MAX_PENDING_ROTATIONS →
  let s' := set_flushes (<[k := {| f_id := id; f_entry := e; f_reply := waiting |}]> (tm_flushes s)) s in
  tm_wf s' → sole_refresh a s' → durable g s'.
Proof.
  intros Hd Hk He Hsize s' Hwf Hsole.
  assert (∀ j, j ≠ k → tm_flushes s' !! j = tm_flushes s !! j) as Hne by (intros; by apply lookup_insert_ne).
  destruct (decide (id = a)) as [->|Hid].
  - eapply (durable_started g s s' e); try done; [by apply same_refreshes_refl|].
    apply (moves_flush s s' k); [done|done|by rewrite Hk|]. simpl. rewrite lookup_insert_eq. simpl.
    by rewrite task_flight_at.
  - eapply (durable_flush_other g s s' k id); try done; [by rewrite Hk| |by left]. simpl.
    rewrite lookup_insert_eq. by intros ? [= <-].
Qed.

(** * Runs *)

Lemma pending_clear id s :
  id ≠ a → jsize (reg_pending (tm_registry s)) < MAX_PENDING_ROTATIONS →
  pending (on_registry (clearPendingRotation id) s) = pending s.
Proof. intros Hne Hs. apply (reg_exec_other (tm_registry s) (RClear id)); done. Qed.

Lemma call_moves k o s s' :
  call k o s = Some s' →
  ∃ pc c, s' = set_callers (<[k := c]> (tm_callers s)) s ∧ c_pc c = pc ∧ tm_callers s !! k = None ∧
    ∀ f r, pc ≠ CFlushWrite f r.
Proof.
  unfold call. intros Hc. destruct (tm_objects s !! o) as [ac|]; [|done].
  destruct (tm_callers s !! k) eqn:E; [done|]. injection Hc as <-. eexists _, _.
  split; [done|]. split; [done|]. split; [done|]. simpl. by case_match.
Qed.

Lemma durable_call g s k o s' :
  durable g s → call k o s = Some s' → tm_wf s' → sole_refresh a s' → durable g s'.
Proof.
  intros Hd (pc & c & -> & Hpc & Hk & Hnf)%call_moves Hwf Hsole.
  apply (durable_same g s _ Hd Hwf Hsole); try done; [by apply same_refreshes_refl|].
  set (e := {| pr_ref := 0; pr_accessToken := ""; pr_expiresAt := 0; pr_refreshToken := None;
               pr_refreshTokenExpiresAt := None; pr_identity := None;
               pr_attemptedRefreshToken := ""; pr_recordedAt := 0 |}).
  apply (moves_none _ _ e), (moves_caller s _ k); simpl; [intros; by apply lookup_insert_ne|done|by rewrite Hk|].
  rewrite lookup_insert_eq. simpl. apply caller_flight_none. by rewrite Hpc.
Qed.

Lemma durable_event g s ev g' s' :
  durable g s → admissible g s ev g' → entry_kept s ev → step localDate ev s = Some s' →
  durable g' s'.
Proof.
  intros Hd [Hsize Had] Hkept Hs.
  assert (tm_wf s' ∧ sole_refresh a s') as [Hwf Hsole].
  { eapply sole_step; [|split; [apply (du_wf _ _ Hd)|apply (du_sole _ _ Hd)]|exact Hs].
    intros ->. by destruct Had. }
  destruct ev as [k o|k r|[k|k|k] throws now|[k|k|k] now|k id|now op|o ob|id|id|now]; simpl in Hs, Had.
  - subst g'. by eapply durable_call.
  - destruct (tm_promises s !! k) as [p|] eqn:Ep; [|done].
    destruct (p_pc p) as [[]| | | | | | | | | | |] eqn:Epc; try done. injection Hs as <-.
    case_decide as Hid; [destruct Had; by eapply durable_exchange|]. subst g'.
    eapply (durable_other g s _ k p (match r with inl res => PExchange (Some res) | inr e => PRejected e end));
      try done. by left.
  - destruct Had as [-> _]. destruct (tm_promises s !! k) as [p|] eqn:Ep; [|done]. simpl in Hs.
    destruct (answer_promise _ _ _ _ _) as [[pc db]|] eqn:Ea; [|done]. injection Hs as <-.
    by eapply durable_answer_promise.
  - destruct Had as [-> Hno]. destruct (tm_callers s !! k) as [c|] eqn:Ek; [|done]. simpl in Hs.
    destruct (answer_caller _ _ _ _ _) as [[pc db]|] eqn:Ea; [|done]. injection Hs as <-.
    eapply durable_answer_caller; try done. intros Hw. apply Hno. by rewrite <-Ek.
  - destruct Had as [-> Hno]. destruct (tm_flushes s !! k) as [f|] eqn:Ek; [|done]. simpl in Hs.
    destruct (answer_flush _ _ _ _ _) as [[f' db]|] eqn:Ea; [|done]. injection Hs as <-.
    eapply durable_answer_flush; try done. intros Hw. apply Hno. by rewrite <-Ek.
  - subst g'. destruct (tm_promises s !! k) as [p|] eqn:Ep; [|done]. simpl in Hs.
    eapply durable_continue_promise; try done. intros x e ???. by eapply Hkept.
  - subst g'. destruct (tm_callers s !! k) as [c|] eqn:Ek; [|done]. simpl in Hs. by eapply durable_caller.
  - subst g'. destruct (tm_flushes s !! k) as [f|] eqn:Ek; [|done]. simpl in Hs.
    by eapply durable_continue_flush.
  - subst g'. destruct (tm_flushes s !! k) eqn:Ek; [done|].
    destruct (getPendingRotation id (tm_registry s)) as [e|] eqn:Ee; [|done]. injection Hs as <-.
    by eapply durable_start_flush.
  - destruct Had as [-> Hrow]. injection Hs as <-.
    by apply (durable_same g s _ Hd Hwf Hsole); try done; apply same_refreshes_refl.
  - subst g'. injection Hs as <-. by apply (durable_same g s _ Hd Hwf Hsole); try done; apply same_refreshes_refl.
  - destruct Had as [-> Hne]. injection Hs as <-.
    by apply (durable_same g s _ Hd Hwf Hsole); try done; apply same_refreshes_refl.
  - destruct Had as [-> Hne]. injection Hs as <-.
    apply (durable_same g s _ Hd Hwf Hsole); try done; [by apply same_refreshes_refl|by apply pending_clear|..].
    + apply (reg_exec_next (tm_registry s) (RClear id)).
    + intros f. apply (identity_ok_exec a f (tm_registry s) (RClear id)).
  - subst g'. injection Hs as <-. by apply (durable_same g s _ Hd Hwf Hsole); try done; apply same_refreshes_refl.
Qed.

(** The provider and the server together, from a server start with the live token in the
    row; [strict]: a refresh whose write throws still finds its entry. *)
Inductive world (strict : bool) : provider → tm → Prop :=
  | world_start l db :
      row_token db = Some l → l ≠ ""%string →
      world strict {| live := l; seen := {[l]} |} (tm_init db)
  | world_next g s ev g' s' :
      world strict g s → admissible g s ev g' → (strict = true → entry_kept s ev) →
      step localDate ev s = Some s' → world strict g' s'.
Abbreviation reached := (world true).

Lemma durable_start l db :
  row_token db = Some l → l ≠ ""%string → durable {| live := l; seen := {[l]} |} (tm_init db).
Proof.
  intros Hrow Hl.
  assert (∀ f r, ¬ in_flight (tm_init db) f r) as HF.
  { intros f r [(k & c & Hk & _)|(k & t & Hk & _)]; simpl in Hk; by rewrite lookup_empty in Hk. }
  split; try done.
  - apply wf_init.
  - simpl. split; [set_solver|done].
  - by intros f r Hf%HF.
  - by intros f r Hf%HF.
  - exists Idle. split; [done|]. split; [|split; [|by left]].
    + split; [|by intros f Hf%HF]. split; [done|]. split; [done|]. by intros f Hf%HF.
    + intros k p Hk. simpl in Hk. by rewrite lookup_empty in Hk.
Qed.

Lemma reached_durable g s : reached g s → durable g s.
Proof. induction 1; [by apply durable_start|]. eapply durable_event; [done..| |done]. auto. Qed.

(** ** Runs, executed *)

(** What the provider holds after it has answered [r] to an exchange of [t] *)
Definition provider_exchange (g : provider) (t : option string)
    (r : TokenRefreshResult + refresh_error) : option provider :=
  match r with
  | inr e =>
      if isInvalidGrant e && (bool_decide (t = None) || bool_decide (t = Some (live g))) then None
      else Some g
  | inl res =>
      if negb (bool_decide (t = Some (live g))) then None
      else
        match res_refreshToken res with
        | None => Some g
        | Some n =>
            if bool_decide (n = live g) then Some g
            else if bool_decide (n = ""%string) || bool_decide (n ∈ seen g) then None
            else Some {| live := n; seen := {[n]} ∪ seen g |}
        end
  end.

Lemma provider_exchange_spec g t r g' :
  provider_exchange g t r = Some g' → provider_answer g t r g'.
Proof.
  unfold provider_exchange, provider_answer. destruct r as [res|e]; intros H.
  - destruct (bool_decide_reflect (t = Some (live g))) as [->|]; [|done]. split; [done|]. simpl in H.
    destruct (res_refreshToken res) as [n|]; [|congruence].
    destruct (bool_decide_reflect (n = live g)) as [Hn|]; [left; split; congruence|].
    destruct (bool_decide_reflect (n = ""%string)); [done|].
    destruct (bool_decide_reflect (n ∈ seen g)); [done|]. simplify_eq/=. by right.
  - destruct (isInvalidGrant e); simpl in H; [|split; [congruence|done]].
    destruct (bool_decide_reflect (t = None)); [done|].
    destruct (bool_decide_reflect (t = Some (live g))); [done|]. simplify_eq/=. done.
Qed.

(** A test of every flush of the account *)
Definition flights_all (P : reply bool → bool) (s : tm) : bool :=
  let ok o := match o with Some (_, r) => P r | None => true end in
  forallb (λ kc : Z * caller, ok (caller_flight kc.2)) (map_to_list (tm_callers s))
  && forallb (λ kt : Z * flush_task, ok (task_flight kt.2)) (map_to_list (tm_flushes s)).

Lemma flights_all_spec P s f r : flights_all P s = true → in_flight s f r → P r = true.
Proof.
  unfold flights_all. rewrite andb_true_iff, !forallb_forall. intros [H1 H2] [(k & c & Hk & Hf)|(k & c & Hk & Hf)].
  - specialize (H1 (k, c)). simpl in H1. rewrite Hf in H1. apply H1, list_elem_of_In, elem_of_map_to_list, Hk.
  - specialize (H2 (k, c)). simpl in H2. rewrite Hf in H2. apply H2, list_elem_of_In, elem_of_map_to_list, Hk.
Qed.

Definition is_answered (r : reply bool) : bool := match r with answered _ => true | _ => false end.

(** A step of the world; the events of other writers are left out. *)
Definition world_step (strict : bool) (ev : event) (w : provider * tm) : option (provider * tm) :=
  let '(g, s) := w in
  if negb (jsize (reg_pending (tm_registry s)) <? MAX_PENDING_ROTATIONS) then None
  else
    g' ← match ev with
         | TExchange k r =>
             match tm_promises s !! k with
             | Some p =>
                 if decide (p_id p = a)
                 then if flights_all (λ _, false) s then provider_exchange g (p_exchanged p) r else None
                 else Some g
             | None => Some g
             end
         | TAnswer (Promise _) _ _ => Some g
         | TAnswer _ _ _ => if flights_all (negb ∘ is_answered) s then Some g else None
         | TContinue (Promise k) _ =>
             match p_pc <$> tm_promises s !! k with
             | Some (PPersist x threw) =>
                 match px_pending x with
                 | Some e => if negb strict || is_current a e (tm_registry s) then Some g else None
                 | None => Some g
                 end
             | _ => Some g
             end
         | TForeign _ _ | TClearCache _ | TClearPending _ => None
         | _ => Some g
         end;
    s' ← step localDate ev s; Some (g', s').

Fixpoint world_run (strict : bool) (evs : list event) (w : provider * tm) : option (provider * tm) :=
  match evs with
  | [] => Some w
  | ev :: evs => w ← world_step strict ev w; world_run strict evs w
  end.

Lemma world_step_ok strict ev g s g' s' :
  world_step strict ev (g, s) = Some (g', s') →
  step localDate ev s = Some s' ∧ admissible g s ev g' ∧ (strict = true → entry_kept s ev).
Proof.
  unfold world_step. destruct (Z.ltb_spec (jsize (reg_pending (tm_registry s))) MAX_PENDING_ROTATIONS); [|done].
  simpl. intros H1. apply bind_Some in H1 as (g1 & Hg & H1). apply bind_Some in H1 as (s1 & Hs & [= -> ->]).
  split; [done|]. unfold admissible, entry_kept.
  destruct ev as [k o|k r|[k|k|k] throws now|[k|k|k] now|k id|now op|o ob|id|id|now]; simplify_eq/=; try done.
  - split; [|done]. split; [done|]. destruct (tm_promises s !! k) as [p|]; [|congruence].
    case_decide; [|congruence]. destruct (flights_all _ s) eqn:E; [|done].
    split; [by apply provider_exchange_spec|]. intros f r' Hf. by apply (flights_all_spec _ _ _ _ E) in Hf.
  - destruct (flights_all _ s) eqn:E; [|done]. split; [|done]. split; [done|]. split; [congruence|].
    intros _ f b Hf. by apply (flights_all_spec _ _ _ _ E) in Hf.
  - destruct (flights_all _ s) eqn:E; [|done]. split; [|done]. split; [done|]. split; [congruence|].
    intros _ f b Hf. by apply (flights_all_spec _ _ _ _ E) in Hf.
  - assert (g' = g) as -> by (repeat case_match; congruence). split; [done|]. intros -> p x e Hp _ Hpc Hx.
    rewrite Hp in Hg. simpl in Hg. rewrite Hpc, Hx in Hg. simpl in Hg. by destruct (is_current a e (tm_registry s)).
Qed.

Lemma world_run_ok strict evs g s g' s' :
  world strict g s → world_run strict evs (g, s) = Some (g', s') → world strict g' s'.
Proof.
  revert g s. induction evs as [|ev evs IH]; intros g s Hw H; cbn [world_run] in H; [congruence|].
  apply bind_Some in H as ([g1 s1] & H1 & H). apply world_step_ok in H1 as (? & ? & ?).
  eapply IH; [|exact H]. by eapply world_next.
Qed.

(** The refresh token a refresh under way holds *)
Definition carrying (p : promise) : option string :=
  match p_pc p with
  | PExchange (Some res) =>
      match res_refreshToken res with Some n => Some n | None => p_exchanged p end
  | PPersist x _ => Some (minted p x)
  | PRetryRead x _ | PRetryWrite x _ | PRetried x _ => effectiveRefreshToken x
  | _ => None
  end.

Lemma agrees_carrying λv E st p :
  agrees λv E st p → match st with Pre _ _ | Missed _ => carrying p = Some λv | _ => True end.
Proof.
  unfold agrees, carrying.
  destruct st, (p_pc p) as [[res|]|er|x [| |[]]|x r|x [| |[]]|x []|x r|x t|key r|inv b|o|o]; try done.
  1: destruct (res_refreshToken res); intros [? ?]; simpl in *; congruence.
  all: intros H; decompose [and] H; try congruence. unfold minted. destruct H as [_ ->]. done.
Qed.

(** C22: A rotated refresh token is not lost in a run that keeps these conditions ([reached]).
    It starts with the live token in the row, and every refresh of the account is one of
    refreshAccessTokenSafe. No other writer changes the account's refresh token, nobody clears
    its caches or its pending entry, and the registry is not full. The provider answers an
    exchange only while no flush of a replaced entry is under way, and a flush that landed is
    settled before another flush of the account runs its write. A refresh whose write throws
    still finds the pending entry it took along; without that one condition the token can be
    lost. At every point of such a run the live token, the last the provider has minted, is
    in the account's row, or in its pending entry, or in a refresh under way that has yet to
    write it. Once no refresh and no flush of the account is under way, one flush whose write
    goes through leaves the live token in the row and nothing pending: whatever statements of
    the database failed in between, the next server start finds it. *)
Theorem rotation_not_lost g s :
  reached g s →
  (row_token (tm_db s) = Some (live g) ∨
   (∃ e, pending s = Some e ∧ written_token e = live g) ∨
   ∃ k p, tm_promises s !! k = Some p ∧ p_id p = a ∧ ¬ settled p ∧ carrying p = Some (live g)) ∧
  ((∀ k p, tm_promises s !! k = Some p → p_id p = a → settled p) → (∀ f r, ¬ in_flight s f r) →
   ∀ now, let '(_, (r, db)) := flushPendingRotation localDate a false now (tm_registry s, tm_db s) in
     row_token db = Some (live g) ∧ reg_pending r !! a = None).
Proof.
  intros Hr. pose proof (reached_durable _ _ Hr) as Hd.
  destruct (du_stage _ _ Hd) as (st & Hkn & Hc & Ha & Hst). split.
  - assert (match st with Pre _ _ | Missed _ => True | _ => False end →
      ∃ k p, tm_promises s !! k = Some p ∧ p_id p = a ∧ ¬ settled p ∧ carrying p = Some (live g)) as Hin.
    { intros H. destruct Hst as [->|(k & p & Hk & Hid & Hs)]; [done|]. exists k, p.
      specialize (Ha _ _ Hk Hid Hs). apply agrees_carrying in Ha. by destruct st. }
    destruct st as [|β W|W|e0]; [|by right; right; apply Hin| |by right; right; apply Hin].
    + destruct Hc as [(B1 & B2 & _) _]. destruct (pending s) as [e|]; [|left; by apply B1].
      right; left. exists e. split; [done|]. by apply B2.
    + left. apply Hc.
  - intros Hset Hfl now. destruct Hst as [->|(k & p & Hk & Hid & Hs)]; [|destruct Hs; by eapply Hset].
    destruct Hc as [(B1 & B2 & _) _]. unfold flushPendingRotation. fold (pending s).
    destruct (pending s) as [e|] eqn:Ep; [|split; [by apply B1|done]].
    destruct (B2 e eq_refl) as [Hw [Hrow|(f & Hf & _)]]; [|by destruct (Hfl _ _ Hf)].
    destruct (du_known _ _ Hd e Ep) as [(_ & Hne & _) _].
    destruct (flush_row e now (tm_db s) Hne) as [H1 H2]. rewrite bool_decide_eq_true_2 in H1 by done.
    unfold run_flush_write in H1, H2. destruct (flush_write _ _ _ _ _) as [[] db]; simpl in *; try done.
    split; [by rewrite H2, Hw|]. apply resolve_pending_None. by left.
Qed.

(** C23: A healthy account is not paused in a run that keeps the same conditions, and where
    the provider has revoked nothing: an invalid grant means that the token exchanged was not
    the live one. Whatever refresh tokens stale account objects present, and however the
    calls, the sweeps and the failing statements interleave within those conditions, no
    refresh ends in having paused the account, and a pause statement it runs matches no row.
    A run that loses the live token to a write that throws after a flush of the entry it took
    along is not among them: there the account is paused. *)
Theorem healthy_never_paused g s k p :
  reached g s → tm_promises s !! k = Some p → p_id p = a →
  (∀ b, p_pc p ≠ PPaused b true) ∧
  ∀ key now, p_pc p = PPause key waiting →
    pauseIfActive a PAUSE_REASON_NEEDS_REAUTH key now (tm_db s) = (false, tm_db s).
Proof.
  intros Hr Hk Hid. pose proof (reached_durable _ _ Hr) as Hd.
  assert (settled p ∨ ∃ st, core (live g) st (row_token (tm_db s)) (pending s) (in_flight s) ∧
                            agrees (live g) (pending s) st p) as [[o Ho]|(st & Hc & Ha)].
  { destruct (decide (settled p)); [by left|]. right.
    destruct (stage_of _ _ _ _ Hd Hk Hid ltac:(done)) as (st & _ & ? & ?). by exists st. }
  - split; congruence.
  - split.
    + intros b Hpc. unfold agrees in Ha. rewrite Hpc in Ha. by destruct st.
    + intros key now Hpc. unfold agrees in Ha. rewrite Hpc in Ha. destruct st; try done.
      destruct Ha as (HE & _ & t & -> & Ht). destruct Hc as [(B1 & _) _]. specialize (B1 HE).
      apply pause_misses. congruence.
Qed.

(** What a rotation is recorded under when its write throws: the anchor of the entry pending
    then, else that of the entry the refresh carries, else the token it exchanged. *)
Definition recorded_anchor (E : option entry) (p : promise) (x : persist_ctx) : string :=
  match E, px_pending x with
  | Some e, _ | None, Some e => anchor e
  | None, None => default ""%string (p_exchanged p)
  end.

Lemma thrown_write_records s k p x now s1 :
  p_pc p = PPersist x threw → p_id p = a → recorded_anchor (pending s) p x ≠ ""%string →
  continue_promise k p now s = Some s1 →
  tm_db s1 = tm_db s ∧
  ∃ e, pending s1 = Some e ∧ anchor e = recorded_anchor (pending s) p x ∧
    pr_accessToken e = res_accessToken (px_result x) ∧
    pr_refreshToken e = effectiveRefreshToken x.
Proof.
  unfold continue_promise, recorded_anchor, pending. intros -> Hid Ha. cbn [continue_persist]. intros [= <-].
  split; [done|]. simpl. rewrite Hid. unfold recordPendingRotation. cbv zeta. unfold persistAnchor, unpersisted.
  destruct (reg_pending (tm_registry s) !! a) as [e0|], (px_pending x) as [e1|]; simpl in *;
    rewrite bool_decide_eq_false_2 by done; autorewrite with repo; cbn [reg_pending];
    rewrite jlookup_insert_eq; by eexists.
Qed.

(** A flush nothing interleaves with: the entry goes to the row that still holds its anchor,
    and is dropped over any other. *)
Lemma flush_exact e now r db :
  reg_pending r !! a = Some e → written_token e ≠ ""%string →
  let '(o, (r', db')) := flushPendingRotation localDate a false now (r, db) in
  reg_pending r' !! a = None ∧
  (row_token db = Some (anchor e) → o = FlushPersisted e ∧ row_token db' = Some (written_token e)) ∧
  (row_token db ≠ Some (anchor e) → o = FlushSuperseded e ∧ row_token db' = row_token db).
Proof.
  intros He Hne. unfold flushPendingRotation. rewrite He. destruct (flush_row e now db Hne) as [H1 H2].
  unfold run_flush_write in H1, H2.
  assert ((flush_write localDate a e now db).1 ≠ Threw) as Hth.
  { unfold flush_write. destruct (updateTokens _ _ _ _ _ _ _ _ _ _) as [[] ?]; done. }
  destruct (flush_write _ _ _ _ _) as [[] db']; simpl in *; [| |done]; symmetry in H1.
  - apply bool_decide_eq_true in H1. split; [|by split].
    apply resolve_pending_None. by left.
  - apply bool_decide_eq_false in H1. split; [|by split].
    unfold clearPendingRotationIfCurrent, is_current, drop_pending. rewrite He, Z.eqb_refl.
    autorewrite with repo. simpl. by rewrite jlookup_delete_eq.
Qed.

End account.

(** * Concrete runs *)

Definition demo_world : provider * tm :=
  ({| live := "rt1"; seen := {["rt1"%string]} |}, tm_init (demo_db (demo_row None None 0))).

(** Where the live token is: the token, the row's, the pending entry's, and the refreshes *)
Definition report (w : provider * tm) :=
  (live w.1, row_token "a1" (tm_db w.2), written_token <$> pending "a1" w.2,
   map_to_list (p_pc <$> tm_promises w.2), flights_all "a1" (λ _, false) w.2).

Lemma demo_world_start strict : world no_calendar "a1" strict demo_world.1 demo_world.2.
Proof. by constructor. Qed.

(** From a report to a world that has it *)
Lemma reported strict evs x :
  report <$> world_run no_calendar "a1" strict evs demo_world = Some x →
  ∃ g s, world no_calendar "a1" strict g s ∧ report (g, s) = x.
Proof.
  intros H. apply fmap_Some in H as ([g s] & E & ->). exists g, s. split; [|done].
  eapply world_run_ok; [apply (demo_world_start strict)|exact E].
Qed.

Lemma reported_idle (g : provider) (s : tm) l r e (pcs : list (Z * promise_pc)) :
  report (g, s) = (l, r, e, pcs, true) →
  Forall (λ kp : Z * promise_pc, ∃ o, kp.2 = PSettled o) pcs →
  live g = l ∧ row_token "a1" (tm_db s) = r ∧ (written_token <$> pending "a1" s) = e ∧
  (∀ k p, tm_promises s !! k = Some p → settled p) ∧ ∀ f r, ¬ in_flight "a1" s f r.
Proof.
  intros [= <- <- <- <- Hf] Hall. split; [done|]. split; [done|]. split; [done|]. split.
  - intros k p Hk. rewrite Forall_forall in Hall.
    destruct (Hall (k, p_pc p)) as [o Ho]; [|by exists o].
    apply elem_of_map_to_list. by rewrite lookup_fmap, Hk.
  - intros f r' Hin. by apply (flights_all_spec _ _ _ _ _ Hf) in Hin.
Qed.

(** The write of a refresh throws; a flush lands it. *)
Lemma rotation_not_lost_witness :
  ∃ g s, world no_calendar "a1" true g s ∧ live g = "rt2"%string ∧
    row_token "a1" (tm_db s) = Some "rt1"%string ∧
    let '(_, (r, db)) := flushPendingRotation no_calendar "a1" false 4000 (tm_registry s, tm_db s) in
    row_token "a1" db = Some "rt2"%string ∧ reg_pending r !! "a1"%string = None.
Proof.
  destruct (reported true (demo_first true)
    ("rt2", Some "rt1", Some "rt2", [(0, PSettled (Token "at-rt2"))], true)%string)
    as (g & s & Hr & H); [vm_compute; reflexivity|].
  destruct (reported_idle _ _ _ _ _ _ H) as (Hl & Hrow & _ & Hset & Hno); [by repeat econstructor|].
  exists g, s. split; [done|]. split; [done|]. split; [done|].
  pose proof (rotation_not_lost no_calendar "a1" g s Hr) as [_ Hflush]. rewrite <-Hl.
  apply Hflush; [|done]. intros k p Hk _. by eapply Hset.
Defined.

(** A stale account object replays the consumed token of a row that has moved on. *)
Definition demo_replay : list event :=
  demo_first false ++ demo_call 2 200000000 ++ demo_reread 2 200000000 ++
  [demo_object; TContinue (Caller 2) 200000000;
   TExchange 1 (inr {| err_typed := true; err_message := "" |});
   TContinue (Promise 1) 200000000].

Lemma healthy_never_paused_witness :
  ∃ g s p, world no_calendar "a1" true g s ∧ tm_promises s !! 1 = Some p ∧
    p_pc p = PPause (Some "rt1"%string) waiting ∧
    pauseIfActive "a1" PAUSE_REASON_NEEDS_REAUTH (Some "rt1"%string) 200000000 (tm_db s) =
      (false, tm_db s).
Proof.
  assert (∃ g s p, world no_calendar "a1" true g s ∧ tm_promises s !! 1 = Some p ∧
    p_id p = "a1"%string ∧ p_pc p = PPause (Some "rt1"%string) waiting)
    as (g & s & p & Hr & Hk & Hid & Hpc).
  { assert ((λ w, (λ p, (p_id p, p_pc p)) <$> tm_promises w.2 !! 1) <$>
      world_run no_calendar "a1" true demo_replay demo_world =
      Some (Some ("a1"%string, PPause (Some "rt1"%string) waiting))) as H by (vm_compute; reflexivity).
    apply fmap_Some in H as ([g s] & E & H). symmetry in H. apply fmap_Some in H as (p & Hp & H).
    exists g, s, p. split; [eapply world_run_ok; [apply (demo_world_start true)|exact E]|].
    clear E. injection H as H1 H2. done. }
  exists g, s, p. split; [done|]. split; [done|]. split; [done|].
  by apply (healthy_never_paused no_calendar "a1" g s 1 p Hr Hk Hid).
Defined.

(** A flush of the entry lands and settles while a refresh that carries it awaits its write;
    the write throws; a later flush writes nothing. *)
Definition demo_outage (k now : Z) : list event :=
  [TAnswer (Caller k) true now; TContinue (Caller k) now; TContinue (Caller k) now;
   TContinue (Caller k) now; TContinue (Caller k) now].
Definition demo_flush (k now : Z) : list event :=
  [TFlush k "a1"; TAnswer (Flush k) false now; TContinue (Flush k) now].
Definition demo_thrown : list event :=
  demo_first true ++ demo_call 2 200000000 ++ demo_outage 2 200000000 ++
  demo_exchange 1 200000000 "rt3" ++ demo_flush 7 200001000 ++ [TAnswer (Promise 1) true 200002000].
Definition demo_stale : list event :=
  demo_thrown ++
  [TContinue (Promise 1) 200002000; TContinue (Promise 1) 200002000; TContinue (Caller 2) 200002000] ++
  demo_flush 8 200003000.

(** The entry that refresh took along, and what it minted *)
Definition demo_carried : entry :=
  {| pr_ref := 0; pr_accessToken := "at-rt2"; pr_expiresAt := 100000000;
     pr_refreshToken := Some "rt2"%string; pr_refreshTokenExpiresAt := None; pr_identity := None;
     pr_attemptedRefreshToken := "rt1"; pr_recordedAt := 3000 |}.
Definition demo_ctx : persist_ctx :=
  {| px_result := mint "rt3"; px_mintedAt := 200000000; px_pending := Some demo_carried |}.


(** That run to its end: nothing is under way or pending any more, the live token is rt3 and
    the row holds the consumed rt2. *)
Theorem stale_anchor_loses_rotation :
  ∃ g s, world no_calendar "a1" false g s ∧ live g = "rt3"%string ∧
    row_token "a1" (tm_db s) = Some "rt2"%string ∧ pending "a1" s = None ∧
    (∀ k p, tm_promises s !! k = Some p → settled p) ∧ ∀ f r, ¬ in_flight "a1" s f r.
Proof.
  destruct (reported false demo_stale
    ("rt3", Some "rt2", None, [(1, PSettled (Token "at-rt3")); (0, PSettled (Token "at-rt2"))], true)%string)
    as (g & s & Hr & H); [vm_compute; reflexivity|].
  destruct (reported_idle _ _ _ _ _ _ H) as (Hl & Hrow & Hp & Hset & Hno); [by repeat econstructor|].
  exists g, s. split; [done|]. split; [done|]. split; [done|]. split; [by apply fmap_None in Hp|]. done.
Qed.

(** The next refresh of an account object read from the row: the provider refuses the consumed
    token, and the account is paused although it has lost nothing. *)
Definition demo_paused : list event :=
  demo_stale ++ [demo_object] ++ demo_call 3 400000000 ++ demo_reread 3 400000000 ++
  [TContinue (Caller 3) 400000000;
   TExchange 2 (inr {| err_typed := true; err_message := "" |});
   TContinue (Promise 2) 400000000; TAnswer (Promise 2) false 400000000;
   TContinue (Promise 2) 400000000].

Theorem stale_anchor_pauses_healthy :
  ∃ g s p, world no_calendar "a1" false g s ∧ live g = "rt3"%string ∧
    tm_promises s !! 2 = Some p ∧ p_exchanged p = Some "rt2"%string ∧ p_pc p = PPaused true true ∧
    acc_paused <$> read_account "a1" (tm_db s) = Some true.
Proof.
  assert ((λ w, (live w.1, (λ p, (p_exchanged p, p_pc p)) <$> tm_promises w.2 !! 2,
                 acc_paused <$> read_account "a1" (tm_db w.2))) <$>
    world_run no_calendar "a1" false demo_paused demo_world =
    Some ("rt3"%string, Some (Some "rt2"%string, PPaused true true), Some true)) as H
    by (vm_compute; reflexivity).
  apply fmap_Some in H as ([g s] & E & H). simpl in H. injection H as Hl Hp Hacc.
  symmetry in Hp. apply fmap_Some in Hp as (p & Hk & [= Hex Hpc]).
  exists g, s, p. split; [eapply world_run_ok; [apply (demo_world_start false)|exact E]|].
  clear E. split; [congruence|]. split; [exact Hk|]. split; [congruence|]. split; [congruence|].
  congruence.
Qed.
