(* ===== verification/Affinity.v ===== *)
(** Conversation affinity, the session strategy's pins:
    [packages/load-balancer/src/strategies/index.ts] (the [affinityByKey] map of
    [SessionStrategy] and the methods that read and write it) and
    [packages/core/src/affinity-key-hash.ts].

    The map is a [jmap]: its insertion order is the recency order the sweep relies on.
    SHA-256 is Node's; it is a parameter. Strings are trimmed of ASCII white space. *)

From S2P Require Import Prelude StableSort Accounts.
Open Scope Z_scope.

Definition AFFINITY_REASSIGN_MIN_COOLDOWN_MS : Z := 15 * 60 * 1000.
Definition MAX_AFFINITY_ENTRIES : Z := 10000.
Definition MODEL_PIN_SEPARATOR : string := String (Ascii.ascii_of_N 0) EmptyString.

Definition TRANSIENT_RATE_LIMIT_REASONS : list string :=
  ["upstream_529_overloaded_with_reset"; "upstream_529_overloaded_no_reset";
   "upstream_429_no_reset_probe_cooldown"]%string.

(** * Requests *)

(** What selection reads of a request: whether it is internal, its bypass header, and
    where its affinity key comes from. *)
Record RequestMeta := {
  meta_internal : bool;
  meta_bypassHeader : option string;
  meta_affinityKey : option string;
  meta_affinityScope : option string;
  meta_affinityPartition : option string;
  meta_affinityModel : option string;
  meta_project : option string
}.

(** [v?.trim()], then a test for truth *)
Definition trimmed (v : option string) : option string := truthy_string (trim <$> v).

Definition getAffinityKey (m : RequestMeta) : option string :=
  let prefix := match trimmed (meta_affinityPartition m) with
                | Some p => "partition:" +:+ p +:+ ":"
                | None => ""
                end%string in
  match trimmed (meta_affinityKey m), truthy_string (meta_affinityScope m) with
  | Some k, Some scope => Some (prefix +:+ scope +:+ ":" +:+ k)%string
  | _, _ =>
      match trimmed (meta_project m) with
      | Some p => Some (prefix +:+ "project:" +:+ p)%string
      | None => None
      end
  end.

Definition getAffinityModel (m : RequestMeta) : option string := trimmed (meta_affinityModel m).

Definition getAffinityScope (m : RequestMeta) : option string :=
  match trimmed (meta_affinityKey m), truthy_string (meta_affinityScope m) with
  | Some _, Some scope => Some scope
  | _, _ => match trimmed (meta_project m) with Some _ => Some "project"%string | None => None end
  end.

Record MapKeys := { key_pin : string; key_anchor : option string }.

(** * The pins *)

Record AffinityEntry := { aff_accountId : string; aff_lastUsedAt : Z }.

Record affinity := {
  affinityByKey : jmap string AffinityEntry;
  affinityChanges : Z;
  lastAffinityStamp : Z
}.

Definition affinity_init : affinity :=
  {| affinityByKey := ∅; affinityChanges := 0; lastAffinityStamp := 0 |}.

Definition set_pins (m : jmap string AffinityEntry) (s : affinity) : affinity :=
  {| affinityByKey := m; affinityChanges := affinityChanges s;
     lastAffinityStamp := lastAffinityStamp s |}.

Definition bump_changes (s : affinity) : affinity :=
  {| affinityByKey := affinityByKey s; affinityChanges := affinityChanges s + 1;
     lastAffinityStamp := lastAffinityStamp s |}.

Record AffinityPin := { pin_keyHash : string; pin_accountId : string; pin_lastUsedAt : Z }.

(** The sweep of the stale entries: it stops at the first live one. *)
Fixpoint prune_stale (staleBefore : Z) (l : list (string * AffinityEntry))
    (m : jmap string AffinityEntry) : jmap string AffinityEntry :=
  match l with
  | [] => m
  | (key, e) :: l =>
      if staleBefore <=? aff_lastUsedAt e then m else prune_stale staleBefore l (delete key m)
  end.

(** The eviction of the oldest entries above the bound. *)
Definition prune_overflow (m : jmap string AffinityEntry) : jmap string AffinityEntry :=
  let overflow := Z.to_nat (jsize m - MAX_AFFINITY_ENTRIES) in
  foldl (λ m key, delete key m) m (take overflow (jkeys m)).

Inductive AffinityResolution : Type :=
  | Hit (a : Account)
  | Hold (heldAccountId : string)
  | Miss
  | Reassign (previousAccountId : string).

Definition find_account (id : string) (accounts : list Account) : option Account :=
  head (filter (λ a, acc_id a = id) accounts).

(** A cooldown that is running: the test [!until || until <= now] negated. *)
Definition running_until (until : option Z) (now : Z) : option Z :=
  match toNumOrNull until with
  | Some u => if u <=? now then None else Some u
  | None => None
  end.

Definition isAffinityBreakingUnavailability (a : Account) (now : Z) : bool :=
  if acc_paused a then true
  else if bool_decide (acc_rate_limited_reason a = Some "org_permission_denied"%string) then true
  else
    match running_until (acc_rate_limited_until a) now with
    | None => false
    | Some until =>
        match truthy_string (acc_rate_limited_reason a) with
        | Some reason =>
            if bool_decide (reason ∈ TRANSIENT_RATE_LIMIT_REASONS) then false
            else AFFINITY_REASSIGN_MIN_COOLDOWN_MS <? until - now
        | None => AFFINITY_REASSIGN_MIN_COOLDOWN_MS <? until - now
        end
    end.

Section affinity.
Context (sha256 : string → string) (sessionDurationMs : Z).

Definition hashRoutingAffinityKey (value : option string) : option string :=
  sha256 <$> truthy_string value.

Definition getAffinityMapKeys (m : RequestMeta) : option MapKeys :=
  let conversation := getAffinityKey m in
  match conversation, truthy_string (hashRoutingAffinityKey conversation) with
  | Some c, Some conversationKey =>
      match getAffinityModel m with
      | None => Some {| key_pin := conversationKey; key_anchor := None |}
      | Some model =>
          Some {| key_pin := sha256 (c +:+ MODEL_PIN_SEPARATOR +:+ model);
                  key_anchor := Some conversationKey |}
      end
  | _, _ => None
  end.

Definition pruneAffinity (now : Z) (s : affinity) : affinity :=
  let staleBefore := now - sessionDurationMs in
  let sizeBefore := jsize (affinityByKey s) in
  let m := prune_stale staleBefore (entries (affinityByKey s)) (affinityByKey s) in
  let s := set_pins m s in
  let s := if jsize m =? sizeBefore then s else bump_changes s in
  if jsize m <=? MAX_AFFINITY_ENTRIES then s
  else bump_changes (set_pins (prune_overflow m) s).

(** [delete] then [set]: the entry moves to the back. *)
Definition touch (key : string) (e : AffinityEntry) (m : jmap string AffinityEntry)
    : jmap string AffinityEntry :=
  <[key := e]> (delete key m).

Definition rememberAffinity (m : RequestMeta) (accountId : string) (now : Z) (s : affinity)
    : affinity :=
  match getAffinityMapKeys m with
  | None => s
  | Some keys =>
      let stamp := if lastAffinityStamp s <? now then now else lastAffinityStamp s in
      let pins := touch (key_pin keys) {| aff_accountId := accountId; aff_lastUsedAt := stamp |}
                        (affinityByKey s) in
      let pins :=
        match key_anchor keys with
        | None => pins
        | Some anchor =>
            let anchorAccountId :=
              match pins !! anchor with Some e => aff_accountId e | None => accountId end in
            touch anchor {| aff_accountId := anchorAccountId; aff_lastUsedAt := stamp |} pins
        end in
      pruneAffinity now
        {| affinityByKey := pins; affinityChanges := affinityChanges s + 1;
           lastAffinityStamp := stamp |}
  end.

Definition clearAffinityForAccount (accountId : string) : state affinity Z := λ s,
  let doomed := filter (λ ke, aff_accountId ke.2 = accountId) (entries (affinityByKey s)) in
  let m := foldl (λ m ke, delete ke.1 m) (affinityByKey s) doomed in
  let cleared := Z.of_nat (length doomed) in
  (cleared, if 0 <? cleared then bump_changes (set_pins m s) else set_pins m s).

Definition exportAffinity (s : affinity) : list AffinityPin :=
  (λ ke, {| pin_keyHash := ke.1; pin_accountId := aff_accountId ke.2;
            pin_lastUsedAt := aff_lastUsedAt ke.2 |}) <$> entries (affinityByKey s).

(** One pin of an import: whether it changed the merged map. *)
Definition import_pin (now : Z) (acc : jmap string AffinityEntry * bool) (p : AffinityPin)
    : jmap string AffinityEntry * bool :=
  let '(merged, changed) := acc in
  let lastUsedAt := Z.min (pin_lastUsedAt p) now in
  if negb (now - sessionDurationMs <=? lastUsedAt) then (merged, changed)
  else if match merged !! pin_keyHash p with
          | Some current => lastUsedAt <=? aff_lastUsedAt current
          | None => false
          end
  then (merged, changed)
  else (touch (pin_keyHash p)
          {| aff_accountId := pin_accountId p; aff_lastUsedAt := lastUsedAt |} merged, true).

Definition by_stamp (x y : string * AffinityEntry) : bool :=
  not_gt (Z.compare (aff_lastUsedAt x.2) (aff_lastUsedAt y.2)).

(** [l.slice(-n)] *)
Definition slice_last {A} (n : nat) (l : list A) : list A := drop (length l - n) l.

Definition importAffinity (pins : list AffinityPin) (now : Z) (s : affinity) : affinity :=
  let '(merged, changed) := foldl (import_pin now) (affinityByKey s, false) pins in
  if negb changed then s
  else
    let ordered := slice_last (Z.to_nat MAX_AFFINITY_ENTRIES)
                              (stable_sort by_stamp (entries merged)) in
    {| affinityByKey := foldl (λ m ke, <[ke.1 := ke.2]> m) ∅ ordered;
       affinityChanges := affinityChanges s + 1;
       lastAffinityStamp :=
         foldl (λ t ke, if t <? aff_lastUsedAt ke.2 then aff_lastUsedAt ke.2 else t)
               (lastAffinityStamp s) ordered |}.

Definition resolveAffinity (accounts : list Account) (key : option string) (now : Z)
    (isAvailable : Account → bool) : state affinity AffinityResolution := λ s,
  let s := pruneAffinity now s in
  match truthy_string key ≫= λ k, (λ e, (k, e)) <$> affinityByKey s !! k with
  | None => (Miss, s)
  | Some (k, e) =>
      match find_account (aff_accountId e) accounts with
      | None => (Reassign (aff_accountId e), bump_changes (set_pins (delete k (affinityByKey s)) s))
      | Some a =>
          if isAvailable a then (Hit a, s)
          else if isAffinityBreakingUnavailability a now
          then (Reassign (aff_accountId e),
                bump_changes (set_pins (delete k (affinityByKey s)) s))
          else (Hold (aff_accountId e), s)
      end
  end.

Definition resolveAnchor (accounts : list Account) (anchorKey : string)
    (isAvailable : Account → bool) (s : affinity) : option Account :=
  e ← affinityByKey s !! anchorKey;
  a ← find_account (aff_accountId e) accounts;
  if isAvailable a then Some a else None.
End affinity.

(** * Lemmas *)

Definition no_newer (x y : string * AffinityEntry) : Prop :=
  aff_lastUsedAt x.2 <= aff_lastUsedAt y.2.

Lemma StronglySorted_filter {A} (R : relation A) (P : A → Prop) `{!∀ x, Decision (P x)} (l : list A) :
  StronglySorted R l → StronglySorted R (filter P l).
Proof.
  induction 1 as [|x l _ IH Hx]; [constructor|]. rewrite filter_cons. destruct (decide (P x)); [|done].
  constructor; [done|]. rewrite Forall_forall in Hx. apply Forall_forall. intros y Hy.
  apply list_elem_of_filter in Hy as [_ Hy]. by apply Hx.
Qed.

Lemma StronglySorted_drop {A} (R : relation A) n l :
  StronglySorted R l → StronglySorted R (drop n l).
Proof.
  intros H. rewrite <-(take_drop n l) in H. by eapply StronglySorted_app_1_r.
Qed.

Lemma alist_delete_filter {K V} `{!EqDecision K} (k : K) (l : list (K * V)) :
  alist_delete k l = filter (λ ke, ke.1 ≠ k) l.
Proof.
  induction l as [|[k0 v0] l IH]; [done|]. rewrite filter_cons. simpl. rewrite IH.
  repeat case_decide; done.
Qed.

Lemma alist_set_absent {K V} `{!EqDecision K} (k : K) (v : V) l :
  k ∉ l.*1 → alist_set k v l = l ++ [(k, v)].
Proof.
  induction l as [|[k0 v0] l IH]; csimpl; [done|]. rewrite not_elem_of_cons. intros [Hk Hl].
  rewrite decide_False by done. by rewrite IH.
Qed.

Lemma entries_touch k e m :
  entries (touch k e m) = filter (λ ke, ke.1 ≠ k) (entries m) ++ [(k, e)].
Proof.
  unfold touch. simpl. rewrite alist_set_absent, alist_delete_filter; [done|].
  intros H%alist_delete_keys_sub. naive_solver.
Qed.

Lemma jwf_touch k e m : jwf m → jwf (touch k e m).
Proof. intros. unfold touch. auto with jmap. Qed.

Lemma jlookup_touch k k' e m : touch k e m !! k' = if decide (k = k') then Some e else m !! k'.
Proof. unfold touch. rewrite jlookup_insert, jlookup_delete. by case_decide. Qed.

Lemma jsize_touch k e m : jwf m → jsize (touch k e m) <= jsize m + 1.
Proof.
  intros Hm. unfold touch. rewrite jsize_insert, jlookup_delete_eq.
  rewrite decide_False by (by intros [? ?]). pose proof (jsize_delete_le k m). lia.
Qed.

Lemma prune_stale_spec sb l :
  NoDup l.*1 → StronglySorted no_newer l →
  prune_stale sb l (JMap l) = JMap (filter (λ ke, sb <= aff_lastUsedAt ke.2) l).
Proof.
  induction l as [|[k e] l IH]; csimpl; [done|]. intros [Hnin Hnd]%NoDup_cons [Hs Hall]%StronglySorted_inv.
  destruct (sb <=? aff_lastUsedAt e) eqn:E; prop_bools.
  - f_equal. symmetry. apply filter_all. intros [k' e'] Hin. csimpl.
    apply elem_of_cons in Hin as [[= -> ->]|Hin]; [done|].
    eapply Forall_forall in Hall; [|exact Hin]. unfold no_newer in Hall. simpl in Hall. lia.
  - rewrite filter_cons_False by (simpl; lia).
    replace (delete k (JMap ((k, e) :: l))) with (JMap l); [by apply IH|].
    unfold delete, jmap_delete. simpl. rewrite decide_True by done. by rewrite alist_delete_notin.
Qed.

Lemma foldl_delete_take {V} n (l : list (string * V)) :
  NoDup l.*1 → foldl (λ m k, delete k m) (JMap l) (take n l.*1) = JMap (drop n l).
Proof.
  revert n. induction l as [|[k v] l IH]; intros n; [by destruct n|].
  destruct n as [|n]; [done|]. csimpl. intros [Hnin Hnd]%NoDup_cons. rewrite <-IH by done. f_equal.
  unfold delete, jmap_delete. simpl. rewrite decide_True by done. by rewrite alist_delete_notin.
Qed.

Lemma max_entries_pos : 2 <= MAX_AFFINITY_ENTRIES.
Proof. unfold MAX_AFFINITY_ENTRIES. lia. Qed.

Lemma prune_overflow_spec m :
  jwf m → entries (prune_overflow m) = slice_last (Z.to_nat MAX_AFFINITY_ENTRIES) (entries m).
Proof.
  intros Hm. unfold prune_overflow, jkeys. destruct m as [l]. rewrite foldl_delete_take by exact Hm.
  unfold slice_last. simpl. f_equal. unfold jsize. simpl. pose proof max_entries_pos. lia.
Qed.

Lemma jwf_sublist {V} (l l' : list (string * V)) :
  jwf (JMap l) → l' `sublist_of` l → jwf (JMap l').
Proof.
  unfold jwf, jkeys. simpl. intros Hl Hs. eapply sublist_NoDup; [exact Hl|].
  by apply fmap_sublist.
Qed.

(** What the map always is: unique keys, stamps ascending in recency order and never
    above the highest stamp written. *)
Record aff_wf (s : affinity) : Prop := {
  aff_keys : jwf (affinityByKey s);
  aff_sorted : StronglySorted no_newer (entries (affinityByKey s));
  aff_bound : Forall (λ ke, aff_lastUsedAt ke.2 <= lastAffinityStamp s) (entries (affinityByKey s))
}.

Definition aff_ok (s : affinity) : Prop :=
  aff_wf s ∧ jsize (affinityByKey s) <= MAX_AFFINITY_ENTRIES.

Definition live_pins (staleBefore : Z) (m : jmap string AffinityEntry)
    : list (string * AffinityEntry) :=
  filter (λ ke, staleBefore <= aff_lastUsedAt ke.2) (entries m).

Lemma slice_last_id {A} n (l : list A) : (length l <= n)%nat → slice_last n l = l.
Proof. intros. unfold slice_last. by replace (length l - n)%nat with 0%nat by lia. Qed.

Lemma length_slice_last {A} n (l : list A) : (length (slice_last n l) <= n)%nat.
Proof. unfold slice_last. rewrite length_drop. lia. Qed.

Lemma slice_last_sub {A} n (l : list A) x : x ∈ slice_last n l → x ∈ l.
Proof. unfold slice_last. intros H. rewrite <-(take_drop (length l - n) l). apply elem_of_app. by right. Qed.

Lemma prune_entries d now s :
  aff_wf s →
  entries (affinityByKey (pruneAffinity d now s)) =
    slice_last (Z.to_nat MAX_AFFINITY_ENTRIES) (live_pins (now - d) (affinityByKey s)) ∧
  lastAffinityStamp (pruneAffinity d now s) = lastAffinityStamp s.
Proof.
  intros [Hk Hs _]. unfold pruneAffinity. destruct (affinityByKey s) as [l] eqn:E. simpl entries.
  rewrite prune_stale_spec by done. set (m := JMap _).
  assert (jwf m) as Hm.
  { by apply (jwf_sublist l), sublist_filter. }
  destruct (jsize m <=? _) eqn:Em; prop_bools.
  - assert (slice_last (Z.to_nat MAX_AFFINITY_ENTRIES) (live_pins (now - d) (JMap l)) = entries m) as ->.
    { unfold live_pins. simpl. apply slice_last_id. unfold jsize in Em. simpl in Em. pose proof max_entries_pos. lia. }
    by destruct (_ =? _).
  - destruct (jsize m =? _); simpl; (split; [by rewrite prune_overflow_spec|done]).
Qed.

Lemma slice_last_sublist {A} n (l : list A) : slice_last n l `sublist_of` l.
Proof. apply sublist_drop. Qed.

Lemma Forall_sublist {A} (P : A → Prop) l l' : l' `sublist_of` l → Forall P l → Forall P l'.
Proof. rewrite !Forall_forall. intros Hs H x Hx. apply H. by eapply elem_of_sublist. Qed.

Lemma aff_ok_prune d now s : aff_wf s → aff_ok (pruneAffinity d now s).
Proof.
  intros Hwf. destruct (prune_entries d now s Hwf) as [He Hl]. destruct Hwf as [Hk Hs Hb].
  destruct (affinityByKey (pruneAffinity d now s)) as [l'] eqn:E. simpl in He.
  assert (l' `sublist_of` entries (affinityByKey s)) as Hsub.
  { rewrite He. etrans; [apply slice_last_sublist|apply sublist_filter]. }
  split; [split|].
  - rewrite E. destruct (affinityByKey s) as [l]. by eapply jwf_sublist.
  - rewrite E. simpl. rewrite He. by apply StronglySorted_drop, StronglySorted_filter.
  - rewrite E, Hl. by eapply Forall_sublist.
  - rewrite E. unfold jsize. simpl. rewrite He.
    pose proof (length_slice_last (Z.to_nat MAX_AFFINITY_ENTRIES) (live_pins (now - d) (affinityByKey s))).
    pose proof max_entries_pos. lia.
Qed.

(** A pin written with a stamp at least the highest keeps the order. *)
Lemma aff_wf_touch k e pins changes stamp :
  aff_wf {| affinityByKey := pins; affinityChanges := changes; lastAffinityStamp := stamp |} →
  aff_lastUsedAt e = stamp →
  aff_wf {| affinityByKey := touch k e pins; affinityChanges := changes;
            lastAffinityStamp := stamp |}.
Proof.
  intros [Hk Hs Hb] He. simpl in *. split; cbn [affinityByKey lastAffinityStamp].
  - by apply jwf_touch.
  - rewrite entries_touch. apply StronglySorted_app_2; [|by apply StronglySorted_filter|].
    + intros x y Hx ->%list_elem_of_singleton. apply list_elem_of_filter in Hx as [_ Hx].
      eapply Forall_forall in Hb; [|exact Hx]. unfold no_newer. simpl in *. lia.
    + repeat constructor.
  - rewrite entries_touch. apply Forall_app. split; [|constructor; [simpl; lia|constructor]].
    eapply Forall_sublist; [apply sublist_filter|done].
Qed.

Lemma aff_wf_stamp pins ch s stamp :
  aff_wf s → lastAffinityStamp s <= stamp → pins = affinityByKey s →
  aff_wf {| affinityByKey := pins; affinityChanges := ch; lastAffinityStamp := stamp |}.
Proof.
  intros [Hk Hs Hb] Hle ->. split; simpl; [done|done|].
  eapply Forall_impl; [exact Hb|]. simpl. lia.
Qed.

Lemma StronglySorted_sublist {A} (R : relation A) l l' :
  l' `sublist_of` l → StronglySorted R l → StronglySorted R l'.
Proof.
  induction 1 as [|x l1 l2 Hsub IH|x l1 l2 _ IH]; [done| |].
  - intros [Hs Hx]%StronglySorted_inv. constructor; [by apply IH|]. by eapply Forall_sublist.
  - intros [Hs _]%StronglySorted_inv. by apply IH.
Qed.

Lemma StronglySorted_impl {A} (R R' : relation A) l :
  (∀ x y, R x y → R' x y) → StronglySorted R l → StronglySorted R' l.
Proof.
  intros H. induction 1 as [|x l _ IH Hx]; constructor; [done|].
  eapply Forall_impl; [exact Hx|]. intros y. apply H.
Qed.

(** Keeping some of the pins. *)
Lemma aff_ok_sub s m ch :
  aff_ok s → entries m `sublist_of` entries (affinityByKey s) →
  aff_ok {| affinityByKey := m; affinityChanges := ch; lastAffinityStamp := lastAffinityStamp s |}.
Proof.
  intros [[Hk Hs Hb] Hn] Hsub. destruct m as [l'], (affinityByKey s) as [l]; simpl in *.
  split; [split|]; simpl.
  - by eapply jwf_sublist.
  - by eapply StronglySorted_sublist.
  - by eapply Forall_sublist.
  - apply sublist_length in Hsub. unfold jsize in *. simpl in *. lia.
Qed.

Lemma entries_delete_sublist {V} k (m : jmap string V) :
  entries (delete k m) `sublist_of` entries m.
Proof. simpl. rewrite alist_delete_filter. apply sublist_filter. Qed.

Lemma entries_foldl_delete_sublist {V} (l : list (string * V)) (m : jmap string V) :
  entries (foldl (λ m ke, delete ke.1 m) m l) `sublist_of` entries m.
Proof.
  revert m. induction l as [|ke l IH]; intros m; [done|]. simpl. rewrite IH.
  apply (entries_delete_sublist ke.1 m).
Qed.

Lemma aff_ok_clear id s : aff_ok s → aff_ok (clearAffinityForAccount id s).2.
Proof.
  intros H. unfold clearAffinityForAccount. simpl.
  destruct (0 <? _); by apply (aff_ok_sub s), entries_foldl_delete_sublist.
Qed.

Lemma aff_ok_remember sha d m id now s : aff_ok s → aff_ok (rememberAffinity sha d m id now s).
Proof.
  intros [Hwf Hn]. unfold rememberAffinity. destruct (getAffinityMapKeys sha m) as [[pin anchor]|]; [|done].
  simpl. set (stamp := if _ <? now then now else _).
  assert (lastAffinityStamp s <= stamp) as Hst.
  { unfold stamp. destruct (_ <? now) eqn:E; prop_bools; lia. }
  apply aff_ok_prune. pose proof (aff_wf_stamp _ (affinityChanges s + 1) s stamp Hwf Hst eq_refl) as H0.
  pose proof (aff_wf_touch pin {| aff_accountId := id; aff_lastUsedAt := stamp |} _ _ _ H0 eq_refl) as H1.
  destruct anchor as [anchor|]; [|done]. by apply aff_wf_touch.
Qed.

Lemma aff_ok_resolve d accounts key now av s :
  aff_ok s → aff_ok (resolveAffinity d accounts key now av s).2.
Proof.
  intros [Hwf _]. pose proof (aff_ok_prune d now s Hwf) as Hok. unfold resolveAffinity.
  assert (∀ k ch, aff_ok {| affinityByKey := delete k (affinityByKey (pruneAffinity d now s));
    affinityChanges := ch; lastAffinityStamp := lastAffinityStamp (pruneAffinity d now s) |}) as Hd.
  { intros k ch. apply (aff_ok_sub (pruneAffinity d now s)); [done|]. apply entries_delete_sublist. }
  destruct (truthy_string key ≫= _) as [[k e]|]; [|done]. destruct (find_account _ _); [|apply Hd].
  destruct (av _); [done|]. destruct (isAffinityBreakingUnavailability _ _); [apply Hd|done].
Qed.

(** ** Imports *)

#[export] Instance by_stamp_preorder : TotalPreorder by_stamp.
Proof.
  apply (comparator_preorder (λ x y : string * AffinityEntry,
    Z.compare (aff_lastUsedAt x.2) (aff_lastUsedAt y.2))).
Qed.

Lemma by_stamp_spec x y : by_stamp x y = true ↔ no_newer x y.
Proof.
  unfold by_stamp, not_gt, no_newer. destruct (Z.compare_spec (aff_lastUsedAt x.2) (aff_lastUsedAt y.2));
    split; intros; try done; lia.
Qed.

Lemma jwf_import d now pins acc :
  jwf acc.1 → jwf (foldl (import_pin d now) acc pins).1.
Proof.
  revert acc. induction pins as [|p pins IH]; intros [m c] Hm; [done|]. simpl. apply IH.
  unfold import_pin. destruct (negb _); [done|]. destruct (match _ with Some _ => _ | None => _ end); [done|].
  by apply jwf_touch.
Qed.

Lemma foldl_insert_fresh {V} (l : list (string * V)) l0 :
  NoDup (l0 ++ l).*1 → foldl (λ m ke, <[ke.1 := ke.2]> m) (JMap l0) l = JMap (l0 ++ l).
Proof.
  revert l0. induction l as [|[k v] l IH]; intros l0 Hnd; [by rewrite app_nil_r|]. simpl.
  assert (k ∉ l0.*1) as Hk.
  { rewrite fmap_app in Hnd. apply NoDup_app in Hnd as (_ & Hd & _). intros Hin.
    apply (Hd k Hin). csimpl. by left. }
  replace (<[k:=v]> (JMap l0)) with (JMap (l0 ++ [(k, v)])).
  - rewrite IH by (by rewrite <-app_assoc). by rewrite <-app_assoc.
  - unfold insert, jmap_insert. simpl. by rewrite alist_set_absent.
Qed.

Lemma foldl_stamp_max l t :
  let t' := foldl (λ (t : Z) (ke : string * AffinityEntry),
    if t <? aff_lastUsedAt ke.2 then aff_lastUsedAt ke.2 else t) t l in
  t <= t' ∧ Forall (λ ke, aff_lastUsedAt ke.2 <= t') l.
Proof.
  revert t. induction l as [|[k e] l IH]; intros t; [by split; [simpl; lia|constructor]|]. cbn [foldl].
  destruct (IH (if t <? aff_lastUsedAt e then aff_lastUsedAt e else t)) as [H1 H2].
  simpl in *. destruct (t <? aff_lastUsedAt e) eqn:E; prop_bools; (split; [lia|]); constructor;
    simpl; [lia|done|lia|done].
Qed.

Lemma aff_ok_import d pins now s : aff_ok s → aff_ok (importAffinity d pins now s).
Proof.
  intros Hok. unfold importAffinity.
  pose proof (jwf_import d now pins (affinityByKey s, false) (aff_keys _ (proj1 Hok))) as Hm.
  destruct (foldl _ _ _) as [merged changed]. simpl in Hm. destruct changed; [|done]. simpl negb. cbv iota.
  set (ordered := slice_last _ _).
  assert (NoDup ordered.*1) as Hnd.
  { eapply sublist_NoDup; [|apply fmap_sublist, slice_last_sublist]. by rewrite stable_sort_perm. }
  destruct (foldl_stamp_max ordered (lastAffinityStamp s)) as [_ Hmax].
  split; [split|]; cbn [affinityByKey lastAffinityStamp];
    change (∅ : jmap string AffinityEntry) with (JMap ([] : list (string * AffinityEntry)));
    rewrite foldl_insert_fresh by done.
  - exact Hnd.
  - apply StronglySorted_drop. apply (StronglySorted_impl (λ x y, by_stamp x y = true)).
    + intros x y. apply by_stamp_spec.
    + apply (stable_sort_sorted by_stamp).
  - done.
  - unfold jsize. simpl. subst ordered. pose proof (length_slice_last (Z.to_nat MAX_AFFINITY_ENTRIES)
      (stable_sort by_stamp (entries merged))). pose proof max_entries_pos. lia.
Qed.

(** ** What pruning and writing do to the pins *)

Lemma prune_lookup_sub d now s k e :
  aff_wf s → affinityByKey (pruneAffinity d now s) !! k = Some e →
  affinityByKey s !! k = Some e ∧ now - d <= aff_lastUsedAt e.
Proof.
  intros Hwf H. apply alist_get_In in H. rewrite (proj1 (prune_entries d now s Hwf)) in H.
  apply slice_last_sub, list_elem_of_filter in H as [Hl H].
  split; [|done]. by apply jelem_of_entries; [apply Hwf|].
Qed.

Lemma pins_prune_lookup d now s k :
  aff_ok s →
  affinityByKey (pruneAffinity d now s) !! k =
    (e ← affinityByKey s !! k; if now - d <=? aff_lastUsedAt e then Some e else None).
Proof.
  intros [Hwf Hn]. pose proof (prune_lookup_sub d now s k) as Hsub.
  destruct (affinityByKey (pruneAffinity d now s) !! k) as [e|] eqn:E.
  - destruct (Hsub e Hwf eq_refl) as [-> Hl]. simpl. by rewrite (proj2 (Z.leb_le _ _) Hl).
  - destruct (affinityByKey s !! k) as [e|] eqn:Es; [|done]. simpl.
    destruct (_ <=? _) eqn:El; [|done]. prop_bools. exfalso. apply alist_get_None in E. apply E.
    rewrite (proj1 (prune_entries d now s Hwf)), slice_last_id.
    + apply list_elem_of_fmap. exists (k, e). split; [done|]. apply list_elem_of_filter.
      split; [done|]. by apply alist_get_In.
    + pose proof (sublist_length _ _ (sublist_filter
        (λ ke : string * AffinityEntry, now - d <= aff_lastUsedAt ke.2) (entries (affinityByKey s)))).
      unfold live_pins, jsize in *. lia.
Qed.

Lemma slice_last_app {A} n (l k : list A) :
  (length k <= n)%nat → slice_last n (l ++ k) = slice_last (n - length k) l ++ k.
Proof.
  intros Hk. unfold slice_last. rewrite length_app, drop_app_le by lia.
  f_equal. f_equal. lia.
Qed.

Lemma prune_keeps_newest d now s pre suf :
  aff_wf s → entries (affinityByKey s) = pre ++ suf →
  Forall (λ ke, now - d <= aff_lastUsedAt ke.2) suf → Z.of_nat (length suf) <= MAX_AFFINITY_ENTRIES →
  ∀ k e, (k, e) ∈ suf → affinityByKey (pruneAffinity d now s) !! k = Some e.
Proof.
  intros Hwf He Hl Hn k e Hin. apply jelem_of_entries; [apply (aff_ok_prune d now s Hwf)|].
  rewrite (proj1 (prune_entries d now s Hwf)). unfold live_pins. rewrite He, filter_app.
  rewrite (filter_all _ suf) by (rewrite Forall_forall in Hl; done).
  rewrite slice_last_app by lia. apply elem_of_app. by right.
Qed.

Lemma prune_others d now s (m : jmap string AffinityEntry) k :
  aff_wf s → affinityByKey s !! k = m !! k →
  affinityByKey (pruneAffinity d now s) !! k = m !! k ∨
  affinityByKey (pruneAffinity d now s) !! k = None.
Proof.
  intros Hwf <-. pose proof (prune_lookup_sub d now s k) as Hsub.
  destruct (affinityByKey (pruneAffinity d now s) !! k) as [x|]; [|by right].
  left. symmetry. by apply (Hsub x).
Qed.

Lemma entries_touch_touch k k' e e' m :
  k' ≠ k → ∃ pre, entries (touch k' e' (touch k e m)) = pre ++ [(k, e); (k', e')].
Proof.
  intros Hne. eexists. rewrite !entries_touch, filter_app.
  rewrite (filter_cons_True (λ ke : string * AffinityEntry, ke.1 ≠ k') (k, e) []) by (simpl; congruence).
  rewrite <-app_assoc. done.
Qed.

Section remember.
Context (sha : string → string) (d : Z) (m : RequestMeta) (keys : MapKeys).
Hypothesis (Hkeys : getAffinityMapKeys sha m = Some keys) (Hd : 0 <= d).

Lemma remember_unfold id now s :
  let stamp := Z.max now (lastAffinityStamp s) in
  let e := {| aff_accountId := id; aff_lastUsedAt := stamp |} in
  rememberAffinity sha d m id now s =
    pruneAffinity d now
      {| affinityByKey :=
           match key_anchor keys with
           | None => touch (key_pin keys) e (affinityByKey s)
           | Some a =>
               touch a {| aff_accountId :=
                            match touch (key_pin keys) e (affinityByKey s) !! a with
                            | Some e => aff_accountId e
                            | None => id
                            end; aff_lastUsedAt := stamp |}
                     (touch (key_pin keys) e (affinityByKey s))
           end;
         affinityChanges := affinityChanges s + 1; lastAffinityStamp := stamp |}.
Proof.
  intros stamp e. unfold rememberAffinity. rewrite Hkeys.
  replace (if lastAffinityStamp s <? now then now else lastAffinityStamp s) with stamp; [done|].
  subst stamp. destruct (_ <? now) eqn:E; prop_bools; lia.
Qed.

Lemma remember_pins id now s :
  aff_ok s →
  let s' := rememberAffinity sha d m id now s in
  (∃ e, affinityByKey s' !! key_pin keys = Some e ∧ aff_accountId e = id ∧ now <= aff_lastUsedAt e) ∧
  (∀ a, key_anchor keys = Some a → a ≠ key_pin keys →
     ∃ e, affinityByKey s' !! a = Some e ∧
       aff_accountId e = default id (aff_accountId <$> affinityByKey s !! a)) ∧
  (∀ k, k ≠ key_pin keys → key_anchor keys ≠ Some k →
     affinityByKey s' !! k = affinityByKey s !! k ∨ affinityByKey s' !! k = None).
Proof.
  intros [Hwf _] s'. subst s'. rewrite remember_unfold. cbv zeta.
  set (stamp := Z.max now _). set (e := {| aff_accountId := id; aff_lastUsedAt := stamp |}).
  assert (now <= stamp ∧ lastAffinityStamp s <= stamp) as [Hst Hst'] by (subst stamp; lia).
  pose proof (aff_wf_stamp _ (affinityChanges s + 1) s stamp Hwf Hst' eq_refl) as H0.
  pose proof (aff_wf_touch (key_pin keys) e _ _ _ H0 eq_refl) as H1.
  pose proof max_entries_pos as Hmax.
  destruct (key_anchor keys) as [a|] eqn:Ea.
  - set (e' := {| aff_accountId := match _ with Some _ => _ | None => _ end; aff_lastUsedAt := stamp |}).
    pose proof (aff_wf_touch a e' _ _ _ H1 eq_refl) as H2.
    match type of H2 with aff_wf ?x => set (s2 := x) in * end.
    destruct (decide (a = key_pin keys)) as [->|Hne].
    + assert (e' = e) as He' by (unfold e'; by rewrite jlookup_touch, decide_True).
      assert (affinityByKey (pruneAffinity d now s2) !! key_pin keys = Some e') as Hp.
      { apply (prune_keeps_newest d now s2 _ [(key_pin keys, e')] H2 (entries_touch _ _ _));
          [repeat constructor; simpl; lia|simpl; lia|by left]. }
      split; [exists e'; rewrite He' in *; done|]. split; [congruence|].
      intros k Hk _. apply prune_others; [done|]. unfold s2. cbn [affinityByKey].
      by rewrite !jlookup_touch, !decide_False by congruence.
    + destruct (entries_touch_touch (key_pin keys) a e e' (affinityByKey s) Hne) as [pre Hent].
      assert (∀ k x, (k, x) ∈ [(key_pin keys, e); (a, e')] →
        affinityByKey (pruneAffinity d now s2) !! k = Some x) as Hp.
      { apply (prune_keeps_newest d now s2 _ _ H2 Hent);
          [repeat constructor; simpl; lia|simpl; lia]. }
      split; [exists e; split; [apply Hp; by left|done]|]. split.
      * intros a' [= <-] _. exists e'. split; [apply Hp; right; by left|]. unfold e'. cbn [aff_accountId].
        rewrite jlookup_touch, decide_False by congruence. by destruct (affinityByKey s !! a).
      * intros k Hk Hka. apply prune_others; [done|]. unfold s2. cbn [affinityByKey].
        by rewrite !jlookup_touch, !decide_False by congruence.
  - match type of H1 with aff_wf ?x => set (s1 := x) in * end.
    assert (affinityByKey (pruneAffinity d now s1) !! key_pin keys = Some e) as Hp.
    { apply (prune_keeps_newest d now s1 _ [(key_pin keys, e)] H1 (entries_touch _ _ _));
        [repeat constructor; simpl; lia|simpl; lia|by left]. }
    split; [by exists e|]. split; [done|]. intros k Hk _. apply prune_others; [done|].
    unfold s1. cbn [affinityByKey]. by rewrite jlookup_touch, decide_False by congruence.
Qed.
End remember.

(** ** What an import does to the pins *)

(** Where an imported pin comes from: a pin of the snapshot that is not stale, with its
    stamp brought back to the present, newer than the pin held before. *)
Definition imported_from (d now : Z) (pins : list AffinityPin) (old : option AffinityEntry)
    (k : string) (e : AffinityEntry) : Prop :=
  ∃ p, p ∈ pins ∧ pin_keyHash p = k ∧
    e = {| aff_accountId := pin_accountId p; aff_lastUsedAt := Z.min (pin_lastUsedAt p) now |} ∧
    now - d <= aff_lastUsedAt e ∧
    (∀ e0, old = Some e0 → aff_lastUsedAt e0 < aff_lastUsedAt e).

Definition merge_ok (d now : Z) (pins : list AffinityPin) (m0 m : jmap string AffinityEntry)
    : Prop :=
  ∀ k, match m !! k with
       | Some e => (m0 !! k = Some e ∨ imported_from d now pins (m0 !! k) k e) ∧
                   (∀ e0, m0 !! k = Some e0 → aff_lastUsedAt e0 <= aff_lastUsedAt e)
       | None => m0 !! k = None
       end.

Lemma merge_ok_pin d now pins m0 acc p :
  p ∈ pins → merge_ok d now pins m0 acc.1 → merge_ok d now pins m0 (import_pin d now acc p).1.
Proof.
  intros Hp. destruct acc as [m c]. simpl. intros Hm. unfold import_pin.
  destruct (negb _) eqn:El; [done|]. apply negb_false_iff, Z.leb_le in El.
  destruct (match m !! pin_keyHash p with Some _ => _ | None => _ end) eqn:Ec; [done|].
  simpl. intros k. rewrite jlookup_touch. case_decide as Hk; [subst k|apply Hm].
  specialize (Hm (pin_keyHash p)). cbn [aff_lastUsedAt].
  assert (∀ e0, m0 !! pin_keyHash p = Some e0 →
    aff_lastUsedAt e0 < Z.min (pin_lastUsedAt p) now) as Hlt.
  { intros e0 He0. destruct (m !! pin_keyHash p) as [e|]; [|congruence]. destruct Hm as [_ Hm].
    apply Z.leb_gt in Ec. specialize (Hm e0 He0). lia. }
  split; [right; exists p; by split_and!|]. intros e0 He0. specialize (Hlt e0 He0). lia.
Qed.

Lemma merge_ok_pins d now pins m0 l acc :
  (∀ p, p ∈ l → p ∈ pins) → merge_ok d now pins m0 acc.1 →
  merge_ok d now pins m0 (foldl (import_pin d now) acc l).1.
Proof.
  revert acc. induction l as [|p l IH]; intros acc Hl H; [done|]. apply IH.
  - intros q Hq. apply Hl. by right.
  - apply merge_ok_pin; [apply Hl; by left|done].
Qed.

Lemma import_lookup d pins now s k e :
  aff_ok s → affinityByKey (importAffinity d pins now s) !! k = Some e →
  affinityByKey s !! k = Some e ∨ imported_from d now pins (affinityByKey s !! k) k e.
Proof.
  intros Hok. unfold importAffinity.
  pose proof (jwf_import d now pins (affinityByKey s, false) (aff_keys _ (proj1 Hok))) as Hwf.
  assert (merge_ok d now pins (affinityByKey s) (affinityByKey s)) as Hm.
  { intros k'. destruct (affinityByKey s !! k'); [|done]. split; [by left|]. by intros ? [= ->]. }
  apply (merge_ok_pins d now pins _ pins (affinityByKey s, false)) in Hm; [|done].
  destruct (foldl _ _ _) as [merged changed]. simpl in Hwf, Hm.
  destruct changed; simpl negb; cbv iota; [|by left]. cbn [affinityByKey].
  change (∅ : jmap string AffinityEntry) with (JMap ([] : list (string * AffinityEntry))).
  rewrite foldl_insert_fresh.
  - intros Hk%alist_get_In. simpl in Hk. apply slice_last_sub in Hk.
    rewrite elem_of_stable_sort, jelem_of_entries in Hk by done.
    specialize (Hm k). rewrite Hk in Hm. apply Hm.
  - simpl. eapply sublist_NoDup; [|apply fmap_sublist, slice_last_sublist].
    by rewrite stable_sort_perm.
Qed.

(** ** Clearing *)

Lemma foldl_delete_lookup {V} (l : list (string * V)) (m : jmap string V) k :
  foldl (λ m ke, delete ke.1 m) m l !! k = if decide (k ∈ l.*1) then None else m !! k.
Proof.
  revert m. induction l as [|[k0 v0] l IH]; intros m; csimpl; [done|].
  rewrite IH, jlookup_delete. pose proof (elem_of_cons l.*1 k k0) as Hc.
  repeat case_decide; naive_solver.
Qed.

Lemma pins_clear_lookup id s k :
  aff_wf s →
  affinityByKey (clearAffinityForAccount id s).2 !! k =
    (e ← affinityByKey s !! k; if decide (aff_accountId e = id) then None else Some e).
Proof.
  intros Hwf. unfold clearAffinityForAccount. cbn [snd].
  set (doomed := filter _ _).
  assert (affinityByKey (if 0 <? Z.of_nat (length doomed)
     then bump_changes (set_pins (foldl (λ m ke, delete ke.1 m) (affinityByKey s) doomed) s)
     else set_pins (foldl (λ m ke, delete ke.1 m) (affinityByKey s) doomed) s)
    = foldl (λ m ke, delete ke.1 m) (affinityByKey s) doomed) as -> by (by destruct (0 <? _)).
  rewrite foldl_delete_lookup. pose proof (λ e, jelem_of_entries k e (affinityByKey s) (aff_keys s Hwf)) as Hent.
  case_decide as Hin.
  - apply list_elem_of_fmap in Hin as ([k' e] & -> & Hin).
    apply list_elem_of_filter in Hin as [He Hin]. apply Hent in Hin.
    simpl in He. cbn [fst] in Hin |- *. rewrite Hin. unfold mbind, option_bind. by rewrite decide_True.
  - destruct (affinityByKey s !! k) as [e|] eqn:E; [|done]. unfold mbind, option_bind. case_decide as He; [|done].
    destruct Hin. apply list_elem_of_fmap. exists (k, e). split; [done|]. apply list_elem_of_filter.
    split; [done|]. by apply Hent.
Qed.

(** * Properties *)

Inductive affinity_op : Type :=
  | PinRemember (m : RequestMeta) (accountId : string) (now : Z)
  | PinResolve (accounts : list Account) (key : option string) (now : Z)
               (isAvailable : Account → bool)
  | PinClear (accountId : string)
  | PinImport (pins : list AffinityPin) (now : Z).

Definition aff_exec (sha : string → string) (d : Z) (s : affinity) (op : affinity_op) : affinity :=
  match op with
  | PinRemember m id now => rememberAffinity sha d m id now s
  | PinResolve accounts key now av => (resolveAffinity d accounts key now av s).2
  | PinClear id => (clearAffinityForAccount id s).2
  | PinImport pins now => importAffinity d pins now s
  end.

Lemma aff_ok_init : aff_ok affinity_init.
Proof. split; [split; [apply jwf_empty|constructor|constructor]|]. vm_compute. discriminate. Qed.

Lemma aff_ok_exec sha d ops s : aff_ok s → aff_ok (foldl (aff_exec sha d) s ops).
Proof.
  revert s. induction ops as [|op ops IH]; intros s H; [done|]. apply IH.
  destruct op; cbn [aff_exec];
    [by apply aff_ok_remember|by apply aff_ok_resolve|by apply aff_ok_clear|by apply aff_ok_import].
Qed.

(** the pins are a bounded least-recently-used map, in every run of writes,
    resolutions, clears and imports, with clocks that may step backwards. Keys are
    unique, at most ten thousand, and the stamps ascend in recency order, which makes the
    early-stopping sweep exact: pruning removes precisely the pins idle for longer than
    the session duration. A write pins its request's key to the served account and leaves
    the conversation's anchor on the account it already had; every other pin is kept as
    it was or evicted. Clearing an account leaves no pin on it and keeps the others. An
    import only adds pins that are not stale and newer than the ones held. *)
Theorem pins_lru sha d ops :
  let s := foldl (aff_exec sha d) affinity_init ops in
  NoDup (pin_keyHash <$> exportAffinity s) ∧
  StronglySorted Z.le (pin_lastUsedAt <$> exportAffinity s) ∧
  Z.of_nat (length (exportAffinity s)) <= MAX_AFFINITY_ENTRIES ∧
  (∀ now k, affinityByKey (pruneAffinity d now s) !! k =
     (e ← affinityByKey s !! k; if now - d <=? aff_lastUsedAt e then Some e else None)) ∧
  (∀ m keys id now, getAffinityMapKeys sha m = Some keys → 0 <= d →
     let s' := rememberAffinity sha d m id now s in
     (∃ e, affinityByKey s' !! key_pin keys = Some e ∧ aff_accountId e = id ∧
           now <= aff_lastUsedAt e) ∧
     (∀ a, key_anchor keys = Some a → a ≠ key_pin keys →
        ∃ e, affinityByKey s' !! a = Some e ∧
          aff_accountId e = default id (aff_accountId <$> affinityByKey s !! a)) ∧
     (∀ k, k ≠ key_pin keys → key_anchor keys ≠ Some k →
        affinityByKey s' !! k = affinityByKey s !! k ∨ affinityByKey s' !! k = None)) ∧
  (∀ id k, affinityByKey (clearAffinityForAccount id s).2 !! k =
     (e ← affinityByKey s !! k; if decide (aff_accountId e = id) then None else Some e)) ∧
  (∀ pins now k e, affinityByKey (importAffinity d pins now s) !! k = Some e →
     affinityByKey s !! k = Some e ∨ imported_from d now pins (affinityByKey s !! k) k e).
Proof.
  intros s. pose proof (aff_ok_exec sha d ops affinity_init aff_ok_init) as Hok. fold s in Hok.
  pose proof Hok as [[Hk Hs Hb] Hn]. unfold exportAffinity. split_and!.
  - rewrite <-list_fmap_compose. exact Hk.
  - rewrite <-list_fmap_compose. eapply StronglySorted_fmap; [|exact Hs]. done.
  - rewrite length_fmap. exact Hn.
  - intros now k. by apply pins_prune_lookup.
  - intros m keys id now Hkeys Hd. by apply remember_pins.
  - intros id k. apply pins_clear_lookup. by apply Hok.
  - intros pins now k e. by apply import_lookup.
Qed.
