(* ===== verification/Strategy.v ===== *)
(** The session strategy: [packages/load-balancer/src/strategies/index.ts]
    ([SessionStrategy.select], [peekRanked], the capacity ranking and the session clock)
    and [packages/core/src/subscription-end.ts]. The pins are in [Affinity].

    Accounts are rows with distinct ids, mutated in place by a selection; the model
    replaces the row of that id in the list. The store is reached through an interface:
    its capacity and utilization feeds are functions, its writes are recorded in order.
    Utilizations and headrooms are rationals, instants integers, an infinite deadline
    [None]. A selection reads [Date.now()] once and [resetSessionIfExpired] again, within the
    same synchronous call; one argument [now] stands for both. Log lines are left out. The
    availability cache of a selection is filled only after the resumes, from fields
    nothing later in the selection changes, so the test itself stands for it. *)

From Stdlib Require Export QArith.Qcanon.
From S2P Require Import Prelude StableSort Providers Accounts Affinity.
Open Scope Z_scope.

Definition HEADROOM_EPS : Qc := Qc_of_Z 5.

(** [CAPACITY_BUCKET] *)
Definition HARVEST : Z := 0.
Definition UNKNOWN : Z := 1.
Definition NEAR_LIMIT : Z := 2.

Record CapacitySignal := {
  minHeadroom : Qc;
  sessionHeadroom : Qc;
  soonestResetMs : option Z;
  bindingUtilization : Qc;
  weeklyResetMs : option Z;
  bindingWeeklyResetMs : option Z;
  weeklyHeadroom : Qc;
  sessionResetMs : option Z;
  extraUsageUtilization : option Qc
}.

(** The part of [StrategyStore] the strategy uses: the two feeds, each optional, and
    whether accounts can be resumed. *)
Record StrategyStore := {
  store_capacity : option (string → string → Z → option CapacitySignal);
  store_utilization : option (string → string → Z → option Qc);
  store_canResume : bool
}.

Inductive store_op : Type :=
  | ResetAccountSession (id : string) (timestamp : Z)
  | ResumeAccount (id : string).

(** * The session clock *)

Definition with_session (start : option Z) (count : Z) (a : Account) : Account :=
  {| acc_id := acc_id a; acc_name := acc_name a; acc_provider := acc_provider a;
     acc_refresh_token := acc_refresh_token a; acc_access_token := acc_access_token a;
     acc_expires_at := acc_expires_at a; acc_session_start := start;
     acc_session_request_count := count;
     acc_paused := acc_paused a; acc_disabled := acc_disabled a;
     acc_pause_reason := acc_pause_reason a; acc_priority := acc_priority a;
     acc_auto_fallback_enabled := acc_auto_fallback_enabled a;
     acc_auto_pause_on_overage_enabled := acc_auto_pause_on_overage_enabled a;
     acc_custom_endpoint := acc_custom_endpoint a;
     acc_rate_limited_until := acc_rate_limited_until a;
     acc_rate_limited_reason := acc_rate_limited_reason a;
     acc_rate_limited_at := acc_rate_limited_at a;
     acc_consecutive_rate_limits := acc_consecutive_rate_limits a;
     acc_rate_limit_status := acc_rate_limit_status a;
     acc_rate_limit_reset := acc_rate_limit_reset a;
     acc_rate_limit_remaining := acc_rate_limit_remaining a;
     acc_profile := acc_profile a |}.

(** [account.paused = false] *)
Definition with_paused_false (a : Account) : Account :=
  {| acc_id := acc_id a; acc_name := acc_name a; acc_provider := acc_provider a;
     acc_refresh_token := acc_refresh_token a; acc_access_token := acc_access_token a;
     acc_expires_at := acc_expires_at a; acc_session_start := acc_session_start a;
     acc_session_request_count := acc_session_request_count a;
     acc_paused := false; acc_disabled := acc_disabled a;
     acc_pause_reason := acc_pause_reason a; acc_priority := acc_priority a;
     acc_auto_fallback_enabled := acc_auto_fallback_enabled a;
     acc_auto_pause_on_overage_enabled := acc_auto_pause_on_overage_enabled a;
     acc_custom_endpoint := acc_custom_endpoint a;
     acc_rate_limited_until := acc_rate_limited_until a;
     acc_rate_limited_reason := acc_rate_limited_reason a;
     acc_rate_limited_at := acc_rate_limited_at a;
     acc_consecutive_rate_limits := acc_consecutive_rate_limits a;
     acc_rate_limit_status := acc_rate_limit_status a;
     acc_rate_limit_reset := acc_rate_limit_reset a;
     acc_rate_limit_remaining := acc_rate_limit_remaining a;
     acc_profile := acc_profile a |}.

Definition update_account (a' : Account) (accounts : list Account) : list Account :=
  (λ a, if decide (acc_id a = acc_id a') then a' else a) <$> accounts.

(** Whether the usage window of an account rolled over, once per boundary. *)
Definition rateLimitWindowReset (a : Account) (now : Z) : bool :=
  (bool_decide (acc_provider a = "anthropic"%string)
   || bool_decide (acc_provider a = "codex"%string))
  && match toNumOrNull (acc_rate_limit_reset a) with
     | Some reset =>
         (reset <? now - 1000)
         && match toNumOrNull (acc_session_start a) with
            | Some start => start <? reset + 1000
            | None => true
            end
     | None => false
     end.

Definition nonRenewingSubscriptionEnd (a : Account) (now : Z) : option Z :=
  let u := prof_subscription (acc_profile a) in
  if negb (bool_decide (acc_provider a = "codex"%string)) then None
  else if negb (bool_decide (subscription_will_renew u = Some 0)) then None
  else match subscription_ends_at u with
       | None => None
       | Some e => if e <=? now then None else Some e
       end.

(** * Strategy state *)

Record strategy := {
  pins : affinity;
  pickSeq : Z;
  lastPickedSeq : gmap string Z
}.

Definition strategy_init : strategy :=
  {| pins := affinity_init; pickSeq := 0; lastPickedSeq := ∅ |}.

Definition with_pins (p : affinity) (s : strategy) : strategy :=
  {| pins := p; pickSeq := pickSeq s; lastPickedSeq := lastPickedSeq s |}.

Definition recordComparatorPick (id : string) (s : strategy) : strategy :=
  {| pins := pins s; pickSeq := pickSeq s + 1;
     lastPickedSeq := <[id := pickSeq s + 1]> (lastPickedSeq s) |}.

(** * Capacity ranking *)

Inductive DeadlineSource : Type := weekly_reset | subscription_end.

Record CapacityMetric := {
  m_bucket : Z;
  m_harvestDeadline : option Z;
  m_harvestDeadlineSource : DeadlineSource;
  m_weeklyHeadroom : Qc;
  m_sessionReset : option Z;
  m_minHeadroom : Qc;
  m_binding : Qc;
  m_util : Qc;
  m_recoveryDeadline : option Z
}.

(** When a near-limit account stops being near its limit; [None] is never. *)
Definition recovery_deadline (s : CapacitySignal) : option Z :=
  let extraBound := match extraUsageUtilization s with
                    | Some u => bool_decide (Qc_of_Z 100 - HEADROOM_EPS < u)%Qc
                    | None => false
                    end in
  let sessionBound := bool_decide (sessionHeadroom s <= HEADROOM_EPS)%Qc in
  let weeklyBound := bool_decide (weeklyHeadroom s <= HEADROOM_EPS)%Qc in
  if extraBound || (negb sessionBound && negb weeklyBound) then None
  else
    let bounds := (if sessionBound then [sessionResetMs s] else [])
                  ++ (if weeklyBound then [bindingWeeklyResetMs s] else []) in
    match mapM id bounds with
    | None => None
    | Some [] => None
    | Some (b :: bs) => Some (foldl Z.max b bs)
    end.

Definition capacity_bucket (s : option CapacitySignal) : Z :=
  match s with
  | None => UNKNOWN
  | Some s =>
      if bool_decide (minHeadroom s <= HEADROOM_EPS)%Qc
         || bool_decide (Qc_of_Z 100 - HEADROOM_EPS < bindingUtilization s)%Qc
      then NEAR_LIMIT
      else match weeklyResetMs s with None => UNKNOWN | Some _ => HARVEST end
  end.

Definition capacityMetricFor (store : option StrategyStore) (a : Account) (now : Z)
    : CapacityMetric :=
  let s := cap ← store ≫= store_capacity; cap (acc_id a) (acc_provider a) now in
  let util := default 0%Qc (f ← store ≫= store_utilization; f (acc_id a) (acc_provider a) now) in
  let bucket := capacity_bucket s in
  let weekly := s ≫= weeklyResetMs in
  let sub := if bucket =? HARVEST then nonRenewingSubscriptionEnd a now else None in
  let '(deadline, source) :=
    match sub with
    | Some e => if match weekly with Some w => e <? w | None => true end
                then (Some e, subscription_end) else (weekly, weekly_reset)
    | None => (weekly, weekly_reset)
    end in
  {| m_bucket := bucket;
     m_harvestDeadline := deadline;
     m_harvestDeadlineSource := source;
     m_weeklyHeadroom := match s with Some s => weeklyHeadroom s | None => (Qc_of_Z 100) end;
     m_sessionReset := s ≫= sessionResetMs;
     m_minHeadroom := match s with Some s => minHeadroom s | None => 0%Qc end;
     m_binding := match s with Some s => bindingUtilization s | None => 0%Qc end;
     m_util := util;
     m_recoveryDeadline := if bucket =? NEAR_LIMIT then s ≫= recovery_deadline else None |}.

(** The fallback of [metricsFor]. *)
Definition default_metric : CapacityMetric * Z :=
  ({| m_bucket := UNKNOWN; m_harvestDeadline := None; m_harvestDeadlineSource := weekly_reset;
      m_weeklyHeadroom := (Qc_of_Z 100); m_sessionReset := None; m_minHeadroom := 0%Qc;
      m_binding := 0%Qc; m_util := 0%Qc; m_recoveryDeadline := None |}, 0).

(** Deadlines compared, an absent one being infinitely late. *)
Definition compare_deadline (x y : option Z) : comparison :=
  match x, y with
  | Some x, Some y => x ?= y
  | Some _, None => Lt
  | None, Some _ => Gt
  | None, None => Eq
  end.

(** The comparator below the priority and the bucket, in the bucket of [x]. *)
Definition compare_in_bucket (x y : CapacityMetric * Z) : comparison :=
  let seq := x.2 ?= y.2 in
  if m_bucket x.1 =? HARVEST then
    then_compare (compare_deadline (m_harvestDeadline x.1) (m_harvestDeadline y.1))
      (then_compare (m_weeklyHeadroom y.1 ?= m_weeklyHeadroom x.1)%Qc seq)
  else if m_bucket x.1 =? UNKNOWN then
    then_compare (m_util x.1 ?= m_util y.1)%Qc seq
  else
    then_compare (compare_deadline (m_recoveryDeadline x.1) (m_recoveryDeadline y.1))
      (then_compare (m_binding x.1 ?= m_binding y.1)%Qc seq).

(** The whole comparator, on a priority and the metrics snapshot. *)
Definition compare_ranked (x y : Z * (CapacityMetric * Z)) : comparison :=
  then_compare (then_compare (x.1 ?= y.1) (m_bucket x.2.1 ?= m_bucket y.2.1))
    (compare_in_bucket x.2 y.2).

Definition snapshot (store : option StrategyStore) (s : strategy) (now : Z)
    (avail : list Account) : gmap string (CapacityMetric * Z) :=
  foldl (λ info a, <[acc_id a := (capacityMetricFor store a now,
                                  default 0 (lastPickedSeq s !! acc_id a))]> info) ∅ avail.

Definition metricsFor (info : gmap string (CapacityMetric * Z)) (a : Account)
    : Z * (CapacityMetric * Z) :=
  (acc_priority a, default default_metric (info !! acc_id a)).

Definition sortAvailableAccounts (store : option StrategyStore) (s : strategy)
    (accounts : list Account) (isAvailable : Account → bool) (now : Z) : list Account :=
  let avail := filter (λ a, isAvailable a = true) accounts in
  let info := snapshot store s now avail in
  stable_sort (λ x y, not_gt (compare_ranked (metricsFor info x) (metricsFor info y))) avail.

Definition peekRanked (store : option StrategyStore) (s : strategy) (accounts : list Account)
    (now : Z) : list Account :=
  sortAvailableAccounts store s accounts (λ a, isPeekAvailable a now) now.

Definition peek (store : option StrategyStore) (s : strategy) (accounts : list Account)
    (now : Z) : option string :=
  acc_id <$> head (peekRanked store s accounts now).

(** * Selection *)

(** The telemetry a selection writes; [primaryAttemptAccountId] is set by later gates. *)
Record RequestRoutingMeta := {
  rt_strategy : string;
  rt_decision : string;
  rt_affinityScope : option string;
  rt_affinityKey : option string;
  rt_selectedAccountId : option string;
  rt_previousAccountId : option string;
  rt_candidatesCount : Z;
  rt_failoverReason : option string;
  rt_heldAccountId : option string
}.

(** What a selection reads and writes: the strategy, the rows it was given, the writes
    it asked the store for, and the routing telemetry of the request. *)
Record world := {
  w_strategy : strategy;
  w_accounts : list Account;
  w_ops : list store_op;
  w_routing : option RequestRoutingMeta
}.

Definition w_set_strategy (s : strategy) (w : world) : world :=
  {| w_strategy := s; w_accounts := w_accounts w; w_ops := w_ops w; w_routing := w_routing w |}.

Definition w_update (a : Account) (op : store_op) (w : world) : world :=
  {| w_strategy := w_strategy w; w_accounts := update_account a (w_accounts w);
     w_ops := w_ops w ++ [op]; w_routing := w_routing w |}.

Definition w_set_routing (r : RequestRoutingMeta) (w : world) : world :=
  {| w_strategy := w_strategy w; w_accounts := w_accounts w; w_ops := w_ops w;
     w_routing := Some r |}.

Definition w_on_pins (f : affinity → affinity) (w : world) : world :=
  w_set_strategy (with_pins (f (pins (w_strategy w))) (w_strategy w)) w.

Definition routing_meta (m : RequestMeta) (decision : string) (selected : option Account)
    (candidatesCount : nat) (previous held : option string) : RequestRoutingMeta :=
  {| rt_strategy := "session"; rt_decision := decision;
     rt_affinityScope := getAffinityScope m; rt_affinityKey := getAffinityKey m;
     rt_selectedAccountId := acc_id <$> selected; rt_previousAccountId := previous;
     rt_candidatesCount := Z.of_nat candidatesCount; rt_failoverReason := None;
     rt_heldAccountId := held |}.

Definition by_priority (x y : Account) : bool := acc_priority x <=? acc_priority y.

Definition checkForAutoFallbackAccounts (accounts : list Account) (now : Z) : list Account :=
  stable_sort by_priority (filter (λ a, isAutoUnpauseCandidate a now = true) accounts).

Section select.
Context (sha256 : string → string) (sessionDurationMs : Z) (store : option StrategyStore).

Definition resetSessionIfExpired (a : Account) (now : Z) : state world Account := λ w,
  let fixedDurationExpired :=
    requiresSessionDurationTracking (acc_provider a)
    && match toNumOrNull (acc_session_start a) with
       | None => true
       | Some start => sessionDurationMs <=? now - start
       end in
  if fixedDurationExpired || rateLimitWindowReset a now then
    match store with
    | Some _ =>
        let a' := with_session (Some now) 0 a in
        (a', w_update a' (ResetAccountSession (acc_id a) now) w)
    | None => (a, w)
    end
  else (a, w).

Definition hasActiveSession (a : Account) (now : Z) : bool :=
  if negb (requiresSessionDurationTracking (acc_provider a)) then false
  else if bool_decide (is_Some (running_until (acc_rate_limited_until a) now)) then false
  else match toNumOrNull (acc_session_start a) with
       | Some start => now - start <? sessionDurationMs
       | None => false
       end.

(** The most recently started active session. *)
Definition findActive (accounts : list Account) (now : Z) : option Account :=
  (foldl (λ (best : option Account * Z) a,
            match toNumOrNull (acc_session_start a) with
            | Some start =>
                if hasActiveSession a now && (best.2 <? start) then (Some a, start) else best
            | None => best
            end) (None, 0) accounts).1.

Definition resume_one (c : Account) (w : world) : world :=
  if acc_paused c && match store with Some s => store_canResume s | None => false end
  then if isSelfHealingPauseReason (acc_pause_reason c)
       then w_update (with_paused_false c) (ResumeAccount (acc_id c)) w else w
  else w.

Definition auto_unpause (now : Z) (w : world) : world :=
  foldl (λ w c, resume_one c w) w (checkForAutoFallbackAccounts (w_accounts w) now).

Definition sorted_available (now : Z) (accounts : list Account) (w : world) : list Account :=
  sortAvailableAccounts store (w_strategy w) accounts (λ a, isAccountAvailable a now) now.

Definition without (a : Account) (l : list Account) : list Account :=
  filter (λ b, acc_id b ≠ acc_id a) l.

(** The selection of an affined account. *)
Definition select_hit (m : RequestMeta) (a : Account) (previous : option string) (now : Z)
    : state world (list Account) := λ w,
  let '(a, w) := resetSessionIfExpired a now w in
  let w := w_on_pins (rememberAffinity sha256 sessionDurationMs m (acc_id a) now) w in
  let others := sorted_available now (without a (w_accounts w)) w in
  (a :: others,
   w_set_routing (routing_meta m "affinity_hit" (Some a) (S (length others)) previous
                    (Some (acc_id a))) w).

(** Serving while the affined account cools down: its pin stays. *)
Definition select_hold (m : RequestMeta) (heldAccountId : string) (previous : option string)
    (now : Z) : state world (list Account) := λ w,
  match sorted_available now (w_accounts w) w with
  | [] => ([], w_set_routing (routing_meta m "affinity_hold" None 0 previous
                                (Some heldAccountId)) w)
  | (chosen :: _) as available =>
      let '(chosen, w) := resetSessionIfExpired chosen now w in
      let w := w_set_routing (routing_meta m "affinity_hold" (Some chosen) (length available)
                                previous (Some heldAccountId)) w in
      let w := w_set_strategy (recordComparatorPick (acc_id chosen) (w_strategy w)) w in
      (chosen :: without chosen available, w)
  end.

(** A fresh pick, pinned. *)
Definition select_fresh (m : RequestMeta) (decision : string) (previous : option string)
    (now : Z) : state world (list Account) := λ w,
  match sorted_available now (w_accounts w) w with
  | [] => ([], w)
  | (chosen :: _) as available =>
      let '(chosen, w) := resetSessionIfExpired chosen now w in
      let w := w_on_pins (rememberAffinity sha256 sessionDurationMs m (acc_id chosen) now) w in
      let w := w_set_routing (routing_meta m decision (Some chosen) (length available)
                                previous None) w in
      let w := w_set_strategy (recordComparatorPick (acc_id chosen) (w_strategy w)) w in
      (chosen :: without chosen available, w)
  end.

(** [resetSessionIfExpired] and [rememberAffinity], unless session tracking is bypassed. *)
Definition start_session (m : RequestMeta) (bypassSession : bool) (a : Account) (now : Z)
    : state world Account := λ w,
  if bypassSession then (a, w)
  else let '(a, w) := resetSessionIfExpired a now w in
       (a, w_on_pins (rememberAffinity sha256 sessionDurationMs m (acc_id a) now) w).

(** The first of the ranking. *)
Definition select_ranked (m : RequestMeta) (bypassSession : bool) (now : Z)
    : state world (list Account) := λ w,
  match sorted_available now (w_accounts w) w with
  | [] => ([], w)
  | (chosen :: _) as available =>
      let '(chosen, w) := start_session m bypassSession chosen now w in
      let w := w_set_routing (routing_meta m "priority_utilization" (Some chosen)
                                (length available) None None) w in
      let w := w_set_strategy (recordComparatorPick (acc_id chosen) (w_strategy w)) w in
      (chosen :: without chosen available, w)
  end.

(** The selection of a request without a pin to follow: the most recent active session,
    otherwise the ranking. *)
Definition select_unpinned (m : RequestMeta) (bypassSession : bool) (now : Z)
    : state world (list Account) := λ w,
  match findActive (w_accounts w) now with
  | Some active =>
      if isAccountAvailable active now then
        let '(active, w) := start_session m bypassSession active now w in
        let others := sorted_available now (without active (w_accounts w)) w in
        (active :: others,
         w_set_routing (routing_meta m "global_session" (Some active) (S (length others))
                          None None) w)
      else select_ranked m bypassSession now w
  | None => select_ranked m bypassSession now w
  end.

(** The resolution of the request's pin, or of its conversation's anchor. *)
Definition resolve (m : RequestMeta) (now : Z)
    : state world (AffinityResolution * option string) := λ w,
  let keys := getAffinityMapKeys sha256 m in
  let isAvailable a := isAccountAvailable a now in
  let previous := k ← keys; aff_accountId <$> affinityByKey (pins (w_strategy w)) !! key_pin k in
  let '(resolution, p) :=
    resolveAffinity sessionDurationMs (w_accounts w) (key_pin <$> keys) now isAvailable
                    (pins (w_strategy w)) in
  let w := w_on_pins (λ _, p) w in
  match resolution, truthy_string (keys ≫= key_anchor) with
  | Miss, Some anchor =>
      match resolveAnchor (w_accounts w) anchor isAvailable p with
      | Some a => ((Hit a, Some (acc_id a)), w)
      | None => ((resolution, previous), w)
      end
  | _, _ => ((resolution, previous), w)
  end.

Definition bypasses (m : RequestMeta) : bool :=
  meta_internal m && bool_decide (meta_bypassHeader m = Some "true"%string).

Definition select (m : RequestMeta) (now : Z) : state world (list Account) := λ w,
  let w := auto_unpause now w in
  if bypasses m then select_unpinned m true now w
  else
    let '((resolution, previous), w) := resolve m now w in
    match resolution with
    | Hit a => select_hit m a previous now w
    | Hold held => select_hold m held previous now w
    | Miss =>
        match getAffinityKey m with
        | Some _ => select_fresh m "affinity_miss" previous now w
        | None => select_unpinned m false now w
        end
    | Reassign _ =>
        match getAffinityKey m with
        | Some _ => select_fresh m "affinity_reassigned" previous now w
        | None => select_unpinned m false now w
        end
    end.

(** Rebinding a conversation after a durable exclusion. *)
Definition reassignAffinity (m : RequestMeta) (a : Account) (now : Z) (w : world) : world :=
  match w_routing w, getAffinityKey m with
  | Some r, Some _ =>
      if negb (bool_decide (rt_strategy r = "session"%string)) then w
      else
        let previous := match rt_heldAccountId r with
                        | Some h => Some h
                        | None => rt_selectedAccountId r
                        end in
        let '(a, w) := resetSessionIfExpired a now w in
        let w := w_on_pins (rememberAffinity sha256 sessionDurationMs m (acc_id a) now) w in
        w_set_routing
          {| rt_strategy := rt_strategy r; rt_decision := "affinity_reassigned";
             rt_affinityScope := rt_affinityScope r; rt_affinityKey := rt_affinityKey r;
             rt_selectedAccountId := Some (acc_id a); rt_previousAccountId := previous;
             rt_candidatesCount := rt_candidatesCount r;
             rt_failoverReason := rt_failoverReason r;
             rt_heldAccountId := Some (acc_id a) |} w
  | _, _ => w
  end.

(** Moving the pin to the account that served, unless it moved since. *)
Definition followAffinity (m : RequestMeta) (fromAccountId : string) (a : Account) (now : Z)
    (w : world) : world :=
  match w_routing w, getAffinityMapKeys sha256 m with
  | Some r, Some keys =>
      if negb (bool_decide (rt_strategy r = "session"%string)) then w
      else if bool_decide (aff_accountId <$> affinityByKey (pins (w_strategy w)) !! key_pin keys
                           = Some fromAccountId)
      then w_on_pins (rememberAffinity sha256 sessionDurationMs m (acc_id a) now) w
      else w
  | _, _ => w
  end.
End select.

(** * The ranking orders *)

#[export] Instance comparator_Qc : Comparator Qccompare.
Proof.
  split.
  - intros x y. symmetry. apply QArith_base.Qcompare_antisym.
  - intros x y z ->%Qceq_alt. done.
  - intros x y z. rewrite <-!Qclt_alt. apply Qclt_trans.
Qed.

#[export] Instance comparator_deadline : Comparator compare_deadline.
Proof.
  split.
  - intros [x|] [y|]; simpl; try done. apply Z.compare_antisym.
  - intros [x|] [y|] [z|]; simpl; try done. by intros ->%Z.compare_eq_iff.
  - intros [x|] [y|] [z|]; simpl; try done. rewrite !Z.compare_lt_iff. lia.
Qed.

(** The comparator of one bucket. *)
Definition in_bucket (b : Z) (x y : CapacityMetric * Z) : comparison :=
  let seq := x.2 ?= y.2 in
  if b =? HARVEST then
    then_compare (compare_deadline (m_harvestDeadline x.1) (m_harvestDeadline y.1))
      (then_compare (m_weeklyHeadroom y.1 ?= m_weeklyHeadroom x.1)%Qc seq)
  else if b =? UNKNOWN then
    then_compare (m_util x.1 ?= m_util y.1)%Qc seq
  else
    then_compare (compare_deadline (m_recoveryDeadline x.1) (m_recoveryDeadline y.1))
      (then_compare (m_binding x.1 ?= m_binding y.1)%Qc seq).

#[export] Instance comparator_in_bucket b : Comparator (in_bucket b).
Proof.
  pose proof (comparator_key (λ x : CapacityMetric * Z, x.2) Z.compare) as Hseq.
  unfold in_bucket. destruct (b =? HARVEST); [|destruct (b =? UNKNOWN)].
  - apply comparator_then; [apply (comparator_key (λ x, m_harvestDeadline x.1) compare_deadline)|].
    apply comparator_then; [|done].
    apply (comparator_flip (λ x y, (m_weeklyHeadroom x.1 ?= m_weeklyHeadroom y.1)%Qc)).
  - apply comparator_then; [|done]. apply (comparator_key (λ x, m_util x.1) Qccompare).
  - apply comparator_then; [apply (comparator_key (λ x, m_recoveryDeadline x.1) compare_deadline)|].
    apply comparator_then; [|done]. apply (comparator_key (λ x, m_binding x.1) Qccompare).
Qed.

Lemma same_bucket (x y : Z * (CapacityMetric * Z)) :
  then_compare (x.1 ?= y.1) (m_bucket x.2.1 ?= m_bucket y.2.1) = Eq →
  m_bucket x.2.1 = m_bucket y.2.1.
Proof.
  destruct (x.1 ?= y.1); simpl; [|done|done]. by intros ?%Z.compare_eq_iff.
Qed.

#[export] Instance comparator_priority_bucket :
  Comparator (λ x y : Z * (CapacityMetric * Z),
    then_compare (x.1 ?= y.1) (m_bucket x.2.1 ?= m_bucket y.2.1)).
Proof.
  pose proof (comparator_key (A := Z * (CapacityMetric * Z)) fst Z.compare) as H1.
  pose proof (comparator_key (λ x : Z * (CapacityMetric * Z), m_bucket x.2.1) Z.compare) as H2.
  exact (comparator_then _ _).
Qed.

#[export] Instance comparator_ranked : Comparator compare_ranked.
Proof.
  apply (comparator_then_on
    (λ x y : Z * (CapacityMetric * Z),
       then_compare (x.1 ?= y.1) (m_bucket x.2.1 ?= m_bucket y.2.1))
    (λ x y, compare_in_bucket x.2 y.2)).
  - intros x y Hb%same_bucket. change (in_bucket (m_bucket y.2.1) y.2 x.2 =
      CompOpp (in_bucket (m_bucket x.2.1) x.2 y.2)). rewrite Hb. apply cmp_opp.
  - intros x y z Hb%same_bucket _. change (in_bucket (m_bucket x.2.1) x.2 y.2 = Eq →
      in_bucket (m_bucket x.2.1) x.2 z.2 = in_bucket (m_bucket y.2.1) y.2 z.2).
    rewrite Hb. apply cmp_eq_l.
  - intros x y z Hb%same_bucket _. change (in_bucket (m_bucket x.2.1) x.2 y.2 = Lt →
      in_bucket (m_bucket y.2.1) y.2 z.2 = Lt → in_bucket (m_bucket x.2.1) x.2 z.2 = Lt).
    rewrite Hb. apply cmp_lt_trans.
Qed.

(** The rank of an account: its priority, its metrics and its last pick. *)
Definition rank_of (store : option StrategyStore) (s : strategy) (now : Z) (a : Account)
    : Z * (CapacityMetric * Z) :=
  (acc_priority a, (capacityMetricFor store a now, default 0 (lastPickedSeq s !! acc_id a))).

Definition rank_leb (store : option StrategyStore) (s : strategy) (now : Z) (x y : Account)
    : bool := not_gt (compare_ranked (rank_of store s now x) (rank_of store s now y)).

#[export] Instance rank_leb_preorder store s now : TotalPreorder (rank_leb store s now).
Proof.
  apply (comparator_preorder (λ x y, compare_ranked (rank_of store s now x) (rank_of store s now y))).
Qed.

(** ** The sorted list *)

Lemma NoDup_filter_ids (P : Account → Prop) `{!∀ a, Decision (P a)} (l : list Account) :
  NoDup (acc_id <$> l) → NoDup (acc_id <$> filter P l).
Proof. intros Hnd. eapply sublist_NoDup; [exact Hnd|]. apply fmap_sublist, sublist_filter. Qed.

Lemma snapshot_lookup store s now avail a :
  NoDup (acc_id <$> avail) → a ∈ avail →
  snapshot store s now avail !! acc_id a =
    Some (capacityMetricFor store a now, default 0 (lastPickedSeq s !! acc_id a)).
Proof.
  unfold snapshot. generalize (∅ : gmap string (CapacityMetric * Z)).
  assert (∀ l (info : gmap string (CapacityMetric * Z)) k, k ∉ acc_id <$> l →
    foldl (λ info a, <[acc_id a := (capacityMetricFor store a now,
       default 0 (lastPickedSeq s !! acc_id a))]> info) info l !! k = info !! k) as Hout.
  { intros l. induction l as [|b l IH]; intros info k; csimpl; [done|].
    rewrite not_elem_of_cons. intros [Hk Hl]. by rewrite IH, lookup_insert_ne. }
  induction avail as [|b l IH]; intros info; csimpl; [by intros _ ?%elem_of_nil|].
  intros [Hnin Hnd]%NoDup_cons [->|Ha]%elem_of_cons; [|by apply IH].
  rewrite Hout by done. apply lookup_insert_eq.
Qed.

Lemma sortAvailable_eq store s accounts av now :
  NoDup (acc_id <$> accounts) →
  sortAvailableAccounts store s accounts av now =
    stable_sort (rank_leb store s now) (filter (λ a, av a = true) accounts).
Proof.
  intros Hnd. apply stable_sort_ext. intros x y Hx Hy. unfold rank_leb, metricsFor.
  apply (NoDup_filter_ids (λ a, av a = true)) in Hnd. by rewrite !snapshot_lookup.
Qed.

Lemma sortAvailable_perm store s accounts av now :
  NoDup (acc_id <$> accounts) →
  sortAvailableAccounts store s accounts av now ≡ₚ filter (λ a, av a = true) accounts.
Proof. intros H. rewrite sortAvailable_eq by done. apply stable_sort_perm. Qed.

(** The order the ranking promises. *)
Definition deadline_before (x y : option Z) : Prop :=
  match x, y with
  | Some x, Some y => x < y
  | Some _, None => True
  | None, _ => False
  end.

Definition served_before (store : option StrategyStore) (s : strategy) (now : Z)
    (x y : Account) : Prop :=
  let mx := capacityMetricFor store x now in
  let my := capacityMetricFor store y now in
  let seq a := default 0 (lastPickedSeq s !! acc_id a) in
  acc_priority x < acc_priority y ∨
  (acc_priority x = acc_priority y ∧
   (m_bucket mx < m_bucket my ∨
    (m_bucket mx = m_bucket my ∧
     if m_bucket mx =? HARVEST then
       deadline_before (m_harvestDeadline mx) (m_harvestDeadline my) ∨
       (m_harvestDeadline mx = m_harvestDeadline my ∧
        ((m_weeklyHeadroom my < m_weeklyHeadroom mx)%Qc ∨
         (m_weeklyHeadroom mx = m_weeklyHeadroom my ∧ seq x <= seq y)))
     else if m_bucket mx =? UNKNOWN then
       (m_util mx < m_util my)%Qc ∨ (m_util mx = m_util my ∧ seq x <= seq y)
     else
       deadline_before (m_recoveryDeadline mx) (m_recoveryDeadline my) ∨
       (m_recoveryDeadline mx = m_recoveryDeadline my ∧
        ((m_binding mx < m_binding my)%Qc ∨
         (m_binding mx = m_binding my ∧ seq x <= seq y)))))).

Lemma not_gt_then (c d : comparison) (P Q R : Prop) :
  (c = Lt ↔ P) → (c = Eq ↔ Q) → (not_gt d = true ↔ R) →
  (not_gt (then_compare c d) = true ↔ P ∨ (Q ∧ R)).
Proof. destruct c; simpl; intuition congruence. Qed.

Lemma not_gt_Z x y : not_gt (x ?= y) = true ↔ x <= y.
Proof. destruct (Z.compare_spec x y); simpl; intuition (done || lia). Qed.

Lemma compare_deadline_lt x y : compare_deadline x y = Lt ↔ deadline_before x y.
Proof. by destruct x, y. Qed.

Lemma compare_deadline_eq x y : compare_deadline x y = Eq ↔ x = y.
Proof. destruct x, y; simpl; try done. rewrite Z.compare_eq_iff. naive_solver. Qed.

Lemma rank_leb_spec store s now x y :
  rank_leb store s now x y = true ↔ served_before store s now x y.
Proof.
  unfold rank_leb, compare_ranked, rank_of, served_before, compare_in_bucket. cbn [fst snd].
  set (mx := capacityMetricFor store x now). set (my := capacityMetricFor store y now).
  replace (then_compare (then_compare (acc_priority x ?= acc_priority y)
     (m_bucket mx ?= m_bucket my)) _) with
    (then_compare (acc_priority x ?= acc_priority y) (then_compare (m_bucket mx ?= m_bucket my)
      (compare_in_bucket (mx, default 0 (lastPickedSeq s !! acc_id x))
                         (my, default 0 (lastPickedSeq s !! acc_id y)))))
    by (unfold compare_in_bucket; by destruct (acc_priority x ?= acc_priority y)).
  apply not_gt_then; [apply Z.compare_lt_iff|apply Z.compare_eq_iff|].
  apply not_gt_then; [apply Z.compare_lt_iff|apply Z.compare_eq_iff|].
  unfold compare_in_bucket. cbn [fst snd].
  destruct (m_bucket mx =? HARVEST); [|destruct (m_bucket mx =? UNKNOWN)];
    (apply not_gt_then; [apply compare_deadline_lt || by rewrite Qclt_alt
                        |apply compare_deadline_eq || by rewrite Qceq_alt|]).
  - apply not_gt_then; [by rewrite Qclt_alt|rewrite <-Qceq_alt; naive_solver|apply not_gt_Z].
  - apply not_gt_Z.
  - apply not_gt_then; [by rewrite Qclt_alt|by rewrite Qceq_alt|apply not_gt_Z].
Qed.

(** * Rows *)

Lemma update_account_ids a' l : acc_id <$> update_account a' l = acc_id <$> l.
Proof.
  unfold update_account. rewrite <-list_fmap_compose. apply list_fmap_ext. intros i a _. simpl.
  case_decide; congruence.
Qed.

Lemma elem_of_update a' a l :
  a ∈ l → acc_id a = acc_id a' → a' ∈ update_account a' l.
Proof.
  intros Ha Hid. apply list_elem_of_fmap. exists a. split; [|done]. by rewrite decide_True.
Qed.

Lemma without_update a a' l : acc_id a = acc_id a' → without a (update_account a' l) = without a l.
Proof.
  intros Hid. unfold without, update_account. induction l as [|b l IH]; [done|]. csimpl.
  rewrite !filter_cons, IH. destruct (decide (acc_id b = acc_id a')) as [Hb|Hb].
  - rewrite !decide_False by (intros Hn; apply Hn; congruence). done.
  - done.
Qed.

Lemma without_notin a l : acc_id a ∉ acc_id <$> l → without a l = l.
Proof.
  intros Hn. apply filter_all. intros b Hb Heq. apply Hn. rewrite <-Heq.
  by apply list_elem_of_fmap_2.
Qed.

Lemma without_cons a l : NoDup (acc_id <$> a :: l) → without a (a :: l) = l.
Proof.
  csimpl. intros [Hn _]%NoDup_cons. unfold without. rewrite filter_cons_False by (intros H; by apply H).
  by apply without_notin.
Qed.

(** A row first, then the others. *)
Lemma filter_row_first (P : Account → Prop) `{!∀ a, Decision (P a)} a l :
  NoDup (acc_id <$> l) → a ∈ l → P a → filter P l ≡ₚ a :: filter P (without a l).
Proof.
  induction l as [|b l IH]; csimpl; [by intros _ ?%elem_of_nil|]. intros Hnd Ha Hp.
  pose proof Hnd as [Hnin Hnd']%NoDup_cons. apply elem_of_cons in Ha as [->|Ha].
  - rewrite without_cons by done. by rewrite filter_cons_True.
  - assert (acc_id b ≠ acc_id a) as Hne.
    { intros He. apply Hnin. rewrite He. by apply list_elem_of_fmap_2. }
    unfold without. rewrite (filter_cons_True (λ b, acc_id b ≠ acc_id a)) by done.
    rewrite !(filter_cons P). fold (without a l). specialize (IH Hnd' Ha Hp).
    destruct (decide (P b)); [|done]. rewrite IH. apply Permutation_swap.
Qed.

Lemma row_unique l a b :
  NoDup (acc_id <$> l) → a ∈ l → b ∈ l → acc_id a = acc_id b → a = b.
Proof. apply NoDup_fmap_elem_inj. Qed.

Lemma find_account_spec id l a :
  NoDup (acc_id <$> l) → find_account id l = Some a ↔ a ∈ l ∧ acc_id a = id.
Proof.
  intros Hnd. unfold find_account. destruct (filter (λ a, acc_id a = id) l) as [|b r] eqn:E; simpl.
  - split; [done|]. intros [Ha Hid]. assert (a ∈ filter (λ a, acc_id a = id) l) as Hin
      by (by apply list_elem_of_filter). rewrite E in Hin. by apply elem_of_nil in Hin.
  - assert (b ∈ filter (λ a, acc_id a = id) l) as Hb by (rewrite E; by left).
    apply list_elem_of_filter in Hb as [Hbid Hb]. split; [by intros [= ->]|].
    intros [Ha Hid]. f_equal. apply (row_unique l); congruence.
Qed.

(** ** A session reset changes the clock of one row only *)

Record reset_spec (a a' : Account) (now : Z) (w w' : world) : Prop := {
  rs_id : acc_id a' = acc_id a;
  rs_avail : isAccountAvailable a' now = isAccountAvailable a now;
  rs_in : a' ∈ w_accounts w';
  rs_ids : acc_id <$> w_accounts w' = acc_id <$> w_accounts w;
  rs_others : without a' (w_accounts w') = without a (w_accounts w);
  rs_strategy : w_strategy w' = w_strategy w;
  rs_ops : w_ops w' = w_ops w ∨ w_ops w' = w_ops w ++ [ResetAccountSession (acc_id a) now]
}.

Lemma reset_ok d store a now w :
  a ∈ w_accounts w →
  let '(a', w') := resetSessionIfExpired d store a now w in reset_spec a a' now w w'.
Proof.
  intros Ha. unfold resetSessionIfExpired.
  assert (reset_spec a a now w w) as Hsame by (split; auto).
  destruct (_ || _); [|done]. destruct store; [|done].
  split; simpl; auto.
  - by apply (elem_of_update _ a).
  - by rewrite update_account_ids.
  - exact (without_update a (with_session (Some now) 0 a) (w_accounts w) eq_refl).
Qed.

(** * What each selection returns *)

(** The candidates [l] are the available rows, those after the first in ranking order,
    and only sessions were reset. *)
Record serves (store : option StrategyStore) (now : Z) (w : world) (l : list Account)
    (w' : world) : Prop := {
  sv_perm : l ≡ₚ filter (λ a, isAccountAvailable a now = true) (w_accounts w');
  sv_ids : acc_id <$> w_accounts w' = acc_id <$> w_accounts w;
  sv_avail : acc_id <$> l ≡ₚ acc_id <$> filter (λ a, isAccountAvailable a now = true) (w_accounts w);
  sv_tail : StronglySorted (served_before store (w_strategy w) now) (tail l);
  sv_ops : ∃ ops, w_ops w' = w_ops w ++ ops ∧
             ∀ op, op ∈ ops → ∃ id, op = ResetAccountSession id now
}.

Lemma rank_leb_sorted store s now l :
  StronglySorted (λ x y, rank_leb store s now x y = true) l →
  StronglySorted (served_before store s now) l.
Proof. apply StronglySorted_impl. intros x y. apply rank_leb_spec. Qed.

Lemma sorted_available_sorted store s accounts av now :
  NoDup (acc_id <$> accounts) →
  StronglySorted (served_before store s now) (sortAvailableAccounts store s accounts av now).
Proof.
  intros Hnd. rewrite sortAvailable_eq by done. apply rank_leb_sorted, stable_sort_sorted, _.
Qed.

Lemma reset_ops a a' now w w' :
  reset_spec a a' now w w' →
  ∃ ops, w_ops w' = w_ops w ++ ops ∧ ∀ op, op ∈ ops → ∃ id, op = ResetAccountSession id now.
Proof.
  intros [_ _ _ _ _ _ [->| ->]].
  - exists []. split; [by rewrite app_nil_r|]. by intros op ?%elem_of_nil.
  - eexists. split; [done|]. intros op ->%list_elem_of_singleton. by eexists.
Qed.

(** An account first, then the ranking of the others. *)
Lemma serves_first store now w w' a a' s'' w'' :
  NoDup (acc_id <$> w_accounts w) → a ∈ w_accounts w → isAccountAvailable a now = true →
  reset_spec a a' now w w' →
  w_accounts w'' = w_accounts w' → w_ops w'' = w_ops w' → lastPickedSeq s'' = lastPickedSeq (w_strategy w) →
  serves store now w
    (a' :: sortAvailableAccounts store s'' (without a' (w_accounts w')) (λ a, isAccountAvailable a now) now)
    w''.
Proof.
  intros Hnd Ha Hav Hr Eacc Eops Eseq. pose proof Hr as [Hid Hav' Hin Hids Hoth Hs _].
  assert (NoDup (acc_id <$> w_accounts w')) as Hnd' by (by rewrite Hids).
  assert (NoDup (acc_id <$> without a' (w_accounts w'))) as Hnd'' by (by apply NoDup_filter_ids).
  split.
  - rewrite sortAvailable_perm, Eacc by done. symmetry.
    apply filter_row_first; [done|done|by rewrite Hav'].
  - by rewrite Eacc, Hids.
  - csimpl. rewrite sortAvailable_perm, Hoth, Hid by done.
    rewrite (filter_row_first _ a (w_accounts w)) by done. done.
  - simpl. apply (StronglySorted_impl (served_before store s'' now)).
    + intros x y. unfold served_before. by rewrite Eseq.
    + by apply sorted_available_sorted.
  - rewrite Eops. by eapply reset_ops.
Qed.

(** The first of the ranking, then the rest of it. *)
Lemma serves_ranked store now w w' chosen rest a' w'' :
  NoDup (acc_id <$> w_accounts w) →
  sortAvailableAccounts store (w_strategy w) (w_accounts w) (λ a, isAccountAvailable a now) now
    = chosen :: rest →
  reset_spec chosen a' now w w' →
  w_accounts w'' = w_accounts w' → w_ops w'' = w_ops w' →
  serves store now w (a' :: without a' (chosen :: rest)) w'' ∧
  acc_id <$> a' :: without a' (chosen :: rest) = acc_id <$> chosen :: rest.
Proof.
  intros Hnd Hsort Hr Eacc Eops. pose proof Hr as [Hid Hav' Hin Hids Hoth Hs _].
  pose proof (sortAvailable_perm store (w_strategy w) (w_accounts w) (λ a, isAccountAvailable a now) now Hnd)
    as Hperm. rewrite Hsort in Hperm.
  assert (NoDup (acc_id <$> chosen :: rest)) as Hndr.
  { rewrite Hperm. by apply NoDup_filter_ids. }
  assert (without a' (chosen :: rest) = rest) as Hw.
  { rewrite <-(without_cons chosen rest Hndr) at 2. unfold without. apply list_filter_iff.
    intros b. by rewrite Hid. }
  assert (chosen ∈ filter (λ a, isAccountAvailable a now = true) (w_accounts w)) as Hc
    by (rewrite <-Hperm; by left).
  apply list_elem_of_filter in Hc as [Hcav Hcin].
  rewrite Hw. split; [|csimpl; by rewrite Hid]. split.
  - rewrite Eacc. rewrite (filter_row_first _ a' (w_accounts w')); [|by rewrite Hids|done|by rewrite Hav'].
    f_equiv. rewrite Hoth. apply (Permutation_cons_inv (a := chosen)).
    rewrite Hperm. by apply filter_row_first.
  - by rewrite Eacc.
  - csimpl. rewrite Hid, <-Hperm. done.
  - simpl. pose proof (sorted_available_sorted store (w_strategy w) (w_accounts w)
      (λ a, isAccountAvailable a now) now Hnd) as Hss. rewrite Hsort in Hss.
    by apply StronglySorted_inv in Hss as [? _].
  - rewrite Eops. by eapply reset_ops.
Qed.

Lemma serves_none store now w w' :
  NoDup (acc_id <$> w_accounts w) →
  sortAvailableAccounts store (w_strategy w) (w_accounts w) (λ a, isAccountAvailable a now) now = [] →
  w_accounts w' = w_accounts w → w_ops w' = w_ops w → serves store now w [] w'.
Proof.
  intros Hnd Hsort Ea Eo. split.
  - rewrite Ea, <-(sortAvailable_perm store (w_strategy w)), Hsort by done. done.
  - by rewrite Ea.
  - rewrite <-(sortAvailable_perm store (w_strategy w)), Hsort by done. done.
  - constructor.
  - exists []. rewrite Eo, app_nil_r. split; [done|]. by intros op ?%elem_of_nil.
Qed.

(** ** The branches of a selection *)

Section branches.
Context (sha256 : string → string) (d : Z) (store : option StrategyStore).
Context (m : RequestMeta) (now : Z) (w : world).
Hypothesis (Hnd : NoDup (acc_id <$> w_accounts w)).

Lemma hit_serves a previous :
  a ∈ w_accounts w → isAccountAvailable a now = true →
  let '(l, w') := select_hit sha256 d store m a previous now w in
  serves store now w l w' ∧ acc_id <$> head l = Some (acc_id a) ∧
  pins (w_strategy w') = rememberAffinity sha256 d m (acc_id a) now (pins (w_strategy w)) ∧
  ∃ n, w_routing w' = Some (routing_meta m "affinity_hit" (head l) n previous (Some (acc_id a))).
Proof.
  intros Ha Hav. unfold select_hit. pose proof (reset_ok d store a now w Ha) as Hr.
  destruct (resetSessionIfExpired d store a now w) as [a' w1]. pose proof Hr as [Hid _ _ _ _ Hs _].
  split_and!.
  - apply (serves_first store now w w1 a a'); try done. simpl. by rewrite Hs.
  - simpl. by rewrite Hid.
  - simpl. by rewrite Hs, Hid.
  - eexists. simpl. by rewrite Hid.
Qed.

Lemma chosen_in chosen rest :
  sorted_available store now (w_accounts w) w = chosen :: rest → chosen ∈ w_accounts w.
Proof.
  intros Hsort. pose proof (sortAvailable_perm store (w_strategy w) (w_accounts w)
    (λ a, isAccountAvailable a now) now Hnd) as Hp.
  unfold sorted_available in Hsort. rewrite Hsort in Hp.
  assert (chosen ∈ filter (λ a, isAccountAvailable a now = true) (w_accounts w)) as Hc
    by (rewrite <-Hp; by left).
  by apply list_elem_of_filter in Hc as [_ ?].
Qed.

Lemma hold_serves held previous :
  let '(l, w') := select_hold d store m held previous now w in
  serves store now w l w' ∧ acc_id <$> l = acc_id <$> sorted_available store now (w_accounts w) w ∧
  pins (w_strategy w') = pins (w_strategy w) ∧
  ∃ n, w_routing w' = Some (routing_meta m "affinity_hold" (head l) n previous (Some held)).
Proof.
  unfold select_hold. destruct (sorted_available store now (w_accounts w) w) as [|chosen rest] eqn:Hsort.
  { split_and!; [by apply serves_none|done|done|by eexists]. }
  pose proof (reset_ok d store chosen now w (chosen_in _ _ Hsort)) as Hr.
  destruct (resetSessionIfExpired d store chosen now w) as [a' w1]. pose proof Hr as [_ _ _ _ _ Hs _].
  match goal with |- serves _ _ _ _ ?x ∧ _ => pose proof (serves_ranked store now w w1 chosen rest a' x
    Hnd Hsort Hr eq_refl eq_refl) as [H1 H2] end.
  split_and!; [done|done|simpl; by rewrite Hs|by eexists].
Qed.

Lemma fresh_serves decision previous :
  let '(l, w') := select_fresh sha256 d store m decision previous now w in
  serves store now w l w' ∧ acc_id <$> l = acc_id <$> sorted_available store now (w_accounts w) w ∧
  match l with
  | [] => w_strategy w' = w_strategy w ∧ w_routing w' = w_routing w
  | a :: _ =>
      pins (w_strategy w') = rememberAffinity sha256 d m (acc_id a) now (pins (w_strategy w)) ∧
      ∃ n, w_routing w' = Some (routing_meta m decision (Some a) n previous None)
  end.
Proof.
  unfold select_fresh. destruct (sorted_available store now (w_accounts w) w) as [|chosen rest] eqn:Hsort.
  { split_and!; [by apply serves_none|done|done|done]. }
  pose proof (reset_ok d store chosen now w (chosen_in _ _ Hsort)) as Hr.
  destruct (resetSessionIfExpired d store chosen now w) as [a' w1]. pose proof Hr as [_ _ _ _ _ Hs _].
  match goal with |- serves _ _ _ _ ?x ∧ _ => pose proof (serves_ranked store now w w1 chosen rest a' x
    Hnd Hsort Hr eq_refl eq_refl) as [H1 H2] end.
  split_and!; [done|done|simpl; by rewrite Hs|by eexists].
Qed.

Lemma start_ok bypass a :
  a ∈ w_accounts w →
  let '(a', w') := start_session sha256 d store m bypass a now w in
  ∃ w1, reset_spec a a' now w w1 ∧ w_accounts w' = w_accounts w1 ∧ w_ops w' = w_ops w1 ∧
    lastPickedSeq (w_strategy w') = lastPickedSeq (w_strategy w).
Proof.
  intros Ha. unfold start_session. destruct bypass.
  { exists w. split; [|done]. split; auto. }
  pose proof (reset_ok d store a now w Ha) as Hr.
  destruct (resetSessionIfExpired d store a now w) as [a' w1]. exists w1.
  pose proof Hr as [_ _ _ _ _ Hs _]. split_and!; [done..|]. simpl. by rewrite Hs.
Qed.

Lemma ranked_serves bypass :
  let '(l, w') := select_ranked sha256 d store m bypass now w in serves store now w l w'.
Proof.
  unfold select_ranked. destruct (sorted_available store now (w_accounts w) w) as [|chosen rest] eqn:Hsort.
  { by apply serves_none. }
  pose proof (start_ok bypass chosen (chosen_in _ _ Hsort)) as Hst.
  destruct (start_session sha256 d store m bypass chosen now w) as [a' w'].
  destruct Hst as (w1 & Hr & Ea & Eo & _).
  by apply (serves_ranked store now w w1 chosen rest a').
Qed.

Lemma findActive_in l a : findActive d l now = Some a → a ∈ l.
Proof.
  unfold findActive.
  assert (∀ best, (foldl (λ (best : option Account * Z) a,
            match toNumOrNull (acc_session_start a) with
            | Some start =>
                if hasActiveSession d a now && (best.2 <? start) then (Some a, start) else best
            | None => best
            end) best l).1 = Some a → best.1 = Some a ∨ a ∈ l) as Hf.
  { induction l as [|b l IH]; intros best; simpl; [by left|]. intros H. apply IH in H as [H|H];
      [|right; by right].
    destruct (toNumOrNull _); [|by left]. destruct (_ && _); [|by left].
    simpl in H. injection H as ->. right. by left. }
  intros H. by apply Hf in H as [?|?].
Qed.

Lemma unpinned_serves bypass :
  let '(l, w') := select_unpinned sha256 d store m bypass now w in serves store now w l w'.
Proof.
  unfold select_unpinned. destruct (findActive d (w_accounts w) now) as [a|] eqn:Ef; [|by apply ranked_serves].
  apply findActive_in in Ef. destruct (isAccountAvailable a now) eqn:Hav; [|by apply ranked_serves].
  pose proof (start_ok bypass a Ef) as Hst.
  destruct (start_session sha256 d store m bypass a now w) as [a' w'].
  destruct Hst as (w1 & Hr & Ea & Eo & Es). rewrite Ea. by apply (serves_first store now w w1 a a').
Qed.
End branches.

(** ** The rows after the automatic resumes *)

Lemma filter_fmap_comm {A B} (f : A → B) (P : B → Prop) `{!∀ b, Decision (P b)} (l : list A) :
  filter P (f <$> l) = f <$> filter (λ a, P (f a)) l.
Proof.
  induction l as [|a l IH]; [done|]. csimpl. rewrite !filter_cons, IH.
  by destruct (decide (P (f a))).
Qed.

Definition resumable (store : option StrategyStore) (now : Z) (a : Account) : bool :=
  wouldAutoUnpause a now && match store with Some s => store_canResume s | None => false end.

Definition resumed (store : option StrategyStore) (now : Z) (a : Account) : Account :=
  if resumable store now a then with_paused_false a else a.

Lemma resumed_id store now a : acc_id (resumed store now a) = acc_id a.
Proof. unfold resumed. by destruct (resumable _ _ _). Qed.

Lemma resumed_ids store now (l : list Account) : acc_id <$> (resumed store now <$> l) = acc_id <$> l.
Proof.
  rewrite <-list_fmap_compose. apply list_fmap_ext. intros i a _. apply resumed_id.
Qed.

Lemma candidate_paused a now : isAutoUnpauseCandidate a now = true → acc_paused a = true.
Proof.
  unfold isAutoUnpauseCandidate. destruct (acc_disabled a); [done|]. by destruct (acc_paused a).
Qed.

Lemma resume_one_eq store now c w :
  isAutoUnpauseCandidate c now = true →
  resume_one store c w =
    if resumable store now c then w_update (with_paused_false c) (ResumeAccount (acc_id c)) w else w.
Proof.
  intros Hc. unfold resume_one, resumable, wouldAutoUnpause. rewrite Hc, (candidate_paused c now Hc).
  simpl. destruct store as [s|]; simpl; [|by destruct (isSelfHealingPauseReason _)].
  by destruct (store_canResume s), (isSelfHealingPauseReason _).
Qed.

(** The rows of [original] with those in [ids] resumed. *)
Definition resumed_in (store : option StrategyStore) (now : Z) (ids : list string)
    (original : list Account) : list Account :=
  (λ a, if decide (acc_id a ∈ ids) then resumed store now a else a) <$> original.

Lemma resumed_in_snoc store now ids c original :
  NoDup (acc_id <$> original) → c ∈ original → acc_id c ∉ ids →
  resumed_in store now (ids ++ [acc_id c]) original =
    if resumable store now c then update_account (with_paused_false c) (resumed_in store now ids original)
    else resumed_in store now ids original.
Proof.
  intros Hnd Hc Hnot.
  assert (∀ a, a ∈ original → acc_id a ∈ ids ++ [acc_id c] ↔ acc_id a ∈ ids ∨ a = c) as Hel.
  { intros a Ha. rewrite elem_of_app, list_elem_of_singleton. split; [|naive_solver].
    intros [?|?]; [by left|right]. by apply (row_unique original). }
  assert (∀ a, a ∈ original → acc_id a = acc_id c ↔ a = c) as Heq.
  { intros a Ha. split; [|by intros ->]. by apply (row_unique original). }
  destruct (resumable store now c) eqn:Er; unfold resumed_in, update_account;
    rewrite <-?list_fmap_compose; apply list_fmap_ext; intros i a Ha%list_elem_of_lookup_2;
    specialize (Hel a Ha); specialize (Heq a Ha); unfold compose.
  - assert (acc_id (if decide (acc_id a ∈ ids) then resumed store now a else a) = acc_id a) as ->
      by (case_decide; [apply resumed_id|done]).
    change (acc_id (with_paused_false c)) with (acc_id c).
    destruct (decide (acc_id a = acc_id c)) as [H|H]; destruct (decide (acc_id a ∈ ids ++ _)) as [H'|H'];
      try tauto.
    + apply Heq in H as ->. unfold resumed. by rewrite Er.
    + rewrite decide_True by tauto. done.
    + rewrite decide_False by tauto. done.
  - destruct (decide (acc_id a ∈ ids ++ _)) as [H'|H']; [|rewrite decide_False by tauto; done].
    apply Hel in H' as [H'| ->]; [by rewrite decide_True|].
    rewrite decide_False by done. unfold resumed. by rewrite Er.
Qed.

Lemma resume_fold store now cs w original ids :
  NoDup (acc_id <$> original) → NoDup (acc_id <$> cs) →
  (∀ c, c ∈ cs → c ∈ original ∧ isAutoUnpauseCandidate c now = true ∧ acc_id c ∉ ids) →
  w_accounts w = resumed_in store now ids original →
  let w' := foldl (λ w c, resume_one store c w) w cs in
  w_accounts w' = resumed_in store now (ids ++ (acc_id <$> cs)) original ∧
  w_strategy w' = w_strategy w ∧ w_routing w' = w_routing w ∧
  w_ops w' = w_ops w ++ ((λ c, ResumeAccount (acc_id c)) <$> filter (λ c, resumable store now c = true) cs).
Proof.
  revert w ids. induction cs as [|c cs IH]; intros w ids Hnd Hcs Hc Hw w'; subst w'.
  { csimpl. by rewrite !app_nil_r. }
  cbn [foldl]. csimpl in Hcs. pose proof Hcs as [Hnin Hcs']%NoDup_cons.
  destruct (Hc c) as (Hin & Hcand & Hnot); [by left|].
  assert (w_accounts (resume_one store c w) = resumed_in store now (ids ++ [acc_id c]) original) as Hw1.
  { rewrite (resume_one_eq store now), resumed_in_snoc by done.
    destruct (resumable store now c); simpl; by rewrite <-Hw. }
  destruct (IH (resume_one store c w) (ids ++ [acc_id c]) Hnd Hcs') as (H1 & H2 & H3 & H4); [|done|].
  { intros c' Hc'. destruct (Hc c') as (?&?&?); [by right|]. split_and!; [done|done|].
    rewrite not_elem_of_app, list_elem_of_singleton. split; [done|]. intros He. apply Hnin.
    rewrite <-He. by apply list_elem_of_fmap_2. }
  rewrite H1, H2, H3, H4, (resume_one_eq store now) by done. csimpl. rewrite <-app_assoc.
  split; [done|]. rewrite filter_cons. destruct (resumable store now c); simpl; [|done].
  by rewrite <-app_assoc.
Qed.

(** The automatic resumes: exactly the rows that would be unpaused. *)
Lemma auto_unpause_ok store now w :
  NoDup (acc_id <$> w_accounts w) →
  let w' := auto_unpause store now w in
  w_accounts w' = resumed store now <$> w_accounts w ∧
  w_strategy w' = w_strategy w ∧ w_routing w' = w_routing w ∧
  ∃ rs, w_ops w' = w_ops w ++ ((λ c, ResumeAccount (acc_id c)) <$> rs) ∧
    rs ≡ₚ filter (λ a, resumable store now a = true) (w_accounts w).
Proof.
  intros Hnd w'. subst w'. unfold auto_unpause.
  set (cs := checkForAutoFallbackAccounts (w_accounts w) now).
  assert (cs ≡ₚ filter (λ a, isAutoUnpauseCandidate a now = true) (w_accounts w)) as Hcs
    by apply stable_sort_perm.
  destruct (resume_fold store now cs w (w_accounts w) []) as (H1 & H2 & H3 & H4); [done|..].
  - rewrite Hcs. by apply NoDup_filter_ids.
  - intros c Hc. rewrite Hcs in Hc. apply list_elem_of_filter in Hc as [? ?].
    split_and!; [done|done|apply not_elem_of_nil].
  - unfold resumed_in. rewrite <-(list_fmap_id (w_accounts w)) at 1. apply list_fmap_ext.
    intros i a _. rewrite decide_False by apply not_elem_of_nil. done.
  - rewrite H1, H2, H3, H4. split_and!; [|done|done|eexists; split; [done|]].
    + apply list_fmap_ext. intros i a Ha%list_elem_of_lookup_2. case_decide as Hin; [done|].
      unfold resumed. destruct (resumable store now a) eqn:Er; [|done]. destruct Hin. simpl.
      apply list_elem_of_fmap_2. rewrite Hcs. apply list_elem_of_filter. split; [|done].
      unfold resumable, wouldAutoUnpause in Er. by prop_bools.
    + rewrite Hcs, list_filter_filter. apply reflexive_eq, list_filter_iff. intros a.
      unfold resumable, wouldAutoUnpause. split; [naive_solver|]. intros H. split; [done|]. by prop_bools.
Qed.

(** ** The resolution leaves rows and ranking alone *)

Definition same_rows (w w' : world) : Prop :=
  w_accounts w' = w_accounts w ∧ w_ops w' = w_ops w ∧ w_routing w' = w_routing w ∧
  lastPickedSeq (w_strategy w') = lastPickedSeq (w_strategy w) ∧
  pickSeq (w_strategy w') = pickSeq (w_strategy w).

Lemma resolve_rows sha d m now w : same_rows w (resolve sha d m now w).2.
Proof.
  unfold resolve. destruct (resolveAffinity _ _ _ _ _ _) as [r p].
  destruct r; try done. destruct (truthy_string _); [|done]. by destruct (resolveAnchor _ _ _ _).
Qed.

Lemma serves_same_rows store now w w1 l w' :
  same_rows w w1 → serves store now w1 l w' → serves store now w l w'.
Proof.
  intros (Ea & Eo & _ & Es & _) [H1 H2 H3 H4 H5]. rewrite Ea in H2, H3. rewrite Eo in H5. split; try done.
  eapply StronglySorted_impl; [|exact H4]. intros x y. unfold served_before. by rewrite Es.
Qed.

(** The affined account of a resolution is an available row. *)
Lemma resolve_hit sha d m now w a prev w' :
  NoDup (acc_id <$> w_accounts w) → resolve sha d m now w = ((Hit a, prev), w') →
  a ∈ w_accounts w ∧ isAccountAvailable a now = true.
Proof.
  intros Hnd. unfold resolve, resolveAffinity.
  destruct (truthy_string (key_pin <$> getAffinityMapKeys sha m) ≫= _) as [[k e]|].
  - destruct (find_account _ _) as [b|] eqn:Ef; [|done].
    destruct (isAccountAvailable b now) eqn:Eb.
    + intros [= <- <- <-]. by apply find_account_spec in Ef as [? _].
    + by destruct (isAffinityBreakingUnavailability _ _).
  - destruct (truthy_string _); [|done]. unfold resolveAnchor.
    destruct (affinityByKey _ !! _) as [e|]; [|done]. simpl.
    destruct (find_account _ _) as [b|] eqn:Ef; [|done]. simpl.
    destruct (isAccountAvailable b now) eqn:Eb; [|done].
    intros [= <- <- <-]. by apply find_account_spec in Ef as [? _].
Qed.

(** After the resumes, a selection serves the rows. *)
Lemma select_serves sha d store m now w :
  NoDup (acc_id <$> w_accounts w) →
  let '(l, w') := select sha d store m now w in serves store now (auto_unpause store now w) l w'.
Proof.
  intros Hnd. unfold select. pose proof (auto_unpause_ok store now w Hnd) as (Hacc & _).
  set (w0 := auto_unpause store now w) in *.
  assert (NoDup (acc_id <$> w_accounts w0)) as Hnd0.
  { by rewrite Hacc, resumed_ids. }
  destruct (bypasses m); [by apply unpinned_serves|].
  pose proof (resolve_rows sha d m now w0) as Hrows. pose proof (resolve_hit sha d m now w0) as Hhit.
  destruct (resolve sha d m now w0) as [[r prev] w1]. simpl in Hrows.
  assert (NoDup (acc_id <$> w_accounts w1)) as Hnd1 by (by rewrite (proj1 Hrows)).
  assert (∀ (c : state world (list Account)), (let '(l, w') := c w1 in serves store now w1 l w') →
    let '(l, w') := c w1 in serves store now w0 l w') as Hlift.
  { intros c. destruct (c w1). by apply serves_same_rows. }
  destruct r as [a|held| |prev'].
  - apply Hlift. destruct (Hhit a prev w1) as [Hin Hav]; [done|done|].
    rewrite <-(proj1 Hrows) in Hin. pose proof (hit_serves sha d store m now w1 Hnd1 a prev Hin Hav) as H.
    destruct (select_hit _ _ _ _ _ _ _ _). apply H.
  - apply Hlift. pose proof (hold_serves d store m now w1 Hnd1 held prev) as H.
    destruct (select_hold _ _ _ _ _ _ _). apply H.
  - destruct (getAffinityKey m); apply Hlift; [|by apply unpinned_serves].
    pose proof (fresh_serves sha d store m now w1 Hnd1 "affinity_miss" prev) as H.
    destruct (select_fresh _ _ _ _ _ _ _ _). apply H.
  - destruct (getAffinityKey m); apply Hlift; [|by apply unpinned_serves].
    pose proof (fresh_serves sha d store m now w1 Hnd1 "affinity_reassigned" prev) as H.
    destruct (select_fresh _ _ _ _ _ _ _ _). apply H.
Qed.

(** * Properties *)

Definition ranking_tie (store : option StrategyStore) (s : strategy) (now : Z) (x y : Account)
    : Prop := served_before store s now x y ∧ served_before store s now y x.

#[export] Instance ranking_tie_dec store s now x y : Decision (ranking_tie store s now x y).
Proof.
  refine (cast_if (decide (rank_leb store s now x y && rank_leb store s now y x = true)));
    unfold ranking_tie; rewrite <-!rank_leb_spec; [by apply andb_true_iff|].
  intros H. by apply n, andb_true_iff.
Defined.

(** the ranking of a selection orders exactly the available rows, first-expiring
    first. A row is never behind one of a higher priority number; within a priority the
    accounts worth harvesting come first, by the deadline at which their quota is lost,
    then by weekly headroom; then those of unknown capacity, least used first; then those
    near a limit, soonest to recover first, then least bound; what remains tied is served
    least recently picked first, and full ties keep the order they came in. The order is
    total and transitive, so the comparator is consistent. *)
Theorem fefo_order store s accounts isAvailable now :
  NoDup (acc_id <$> accounts) →
  let l := sortAvailableAccounts store s accounts isAvailable now in
  let candidates := filter (λ a, isAvailable a = true) accounts in
  l ≡ₚ candidates ∧
  StronglySorted (served_before store s now) l ∧
  (∀ z, filter (ranking_tie store s now z) l = filter (ranking_tie store s now z) candidates) ∧
  (∀ x y, served_before store s now x y ∨ served_before store s now y x) ∧
  (∀ x y z, served_before store s now x y → served_before store s now y z →
     served_before store s now x z).
Proof.
  intros Hnd l candidates. split_and!.
  - by apply sortAvailable_perm.
  - by apply sorted_available_sorted.
  - intros z. unfold l. rewrite sortAvailable_eq by done. fold candidates.
    assert (∀ k : list Account, filter (ranking_tie store s now z) k =
                 filter (λ y, tied (rank_leb store s now) z y = true) k) as Ht.
    { intros k. apply list_filter_iff. intros y. unfold ranking_tie, tied.
      rewrite <-!rank_leb_spec. symmetry. apply andb_true_iff. }
    rewrite !Ht. apply (stable_sort_stable (rank_leb store s now)).
  - intros x y. rewrite <-!rank_leb_spec. apply leb_total, _.
  - intros x y z. rewrite <-!rank_leb_spec. apply leb_trans, _.
Qed.

(** C10: a selection offers every usable account and no other. Its candidates are exactly
    the rows available after the automatic resumes (never a disabled or paused row or one
    cooling down), each once, the ones after the first in ranking order. The store is
    asked to resume exactly the accounts an elapsed window lets it unpause, and beyond
    that only to restart session clocks. *)
Theorem select_complete sha d store m now w :
  NoDup (acc_id <$> w_accounts w) →
  let '(l, w') := select sha d store m now w in
  l ≡ₚ filter (λ a, isAccountAvailable a now = true) (w_accounts w') ∧
  acc_id <$> l ≡ₚ acc_id <$> filter (λ a, isAccountAvailable (resumed store now a) now = true)
                                    (w_accounts w) ∧
  NoDup (acc_id <$> l) ∧
  StronglySorted (served_before store (w_strategy w) now) (tail l) ∧
  ∃ rs resets, w_ops w' = w_ops w ++ ((λ a, ResumeAccount (acc_id a)) <$> rs) ++ resets ∧
    rs ≡ₚ filter (λ a, resumable store now a = true) (w_accounts w) ∧
    ∀ op, op ∈ resets → ∃ id, op = ResetAccountSession id now.
Proof.
  intros Hnd. pose proof (select_serves sha d store m now w Hnd) as Hs.
  destruct (auto_unpause_ok store now w Hnd) as (Ha & Hst & _ & rs & Hops & Hrs).
  destruct (select sha d store m now w) as [l w']. destruct Hs as [H1 H2 H3 H4 (resets & H5 & H6)].
  rewrite Ha in H2, H3. rewrite Hst in H4.
  assert (acc_id <$> filter (λ a, isAccountAvailable a now = true) (resumed store now <$> w_accounts w) =
    acc_id <$> filter (λ a, isAccountAvailable (resumed store now a) now = true) (w_accounts w)) as Hf.
  { rewrite (filter_fmap_comm (resumed store now)). apply resumed_ids. }
  split_and!; [done|by rewrite H3, Hf| |done|].
  - rewrite H3. apply NoDup_filter_ids. by rewrite resumed_ids.
  - exists rs, resets. split_and!; [|done|done]. by rewrite H5, Hops, app_assoc.
Qed.

(** The account a live pin points at. *)
Definition live_pin (d now : Z) (s : affinity) (k : string) : option string :=
  e ← affinityByKey s !! k;
  if now - d <=? aff_lastUsedAt e then Some (aff_accountId e) else None.

Definition pinned (w : world) (k : string) : option string :=
  aff_accountId <$> affinityByKey (pins (w_strategy w)) !! k.

(** Served by [a], which the conversation is then pinned to. *)
Definition served_on (keys : MapKeys) (a : Account) (l : list Account) (w' : world) : Prop :=
  acc_id <$> head l = Some (acc_id a) ∧ pinned w' (key_pin keys) = Some (acc_id a) ∧
  rt_decision <$> w_routing w' = Some "affinity_hit"%string.

(** Served by the ranking, whose first account the conversation is then pinned to. *)
Definition served_fresh (keys : MapKeys) (ranking : list Account) (decision : string)
    (l : list Account) (w' : world) : Prop :=
  acc_id <$> l = acc_id <$> ranking ∧
  (l ≠ [] → pinned w' (key_pin keys) = acc_id <$> head l ∧
            rt_decision <$> w_routing w' = Some decision).

(** Served by the ranking while the pin stays where it is. *)
Definition served_held (keys : MapKeys) (a : Account) (ranking : list Account)
    (l : list Account) (w w' : world) : Prop :=
  acc_id <$> l = acc_id <$> ranking ∧
  affinityByKey (pins (w_strategy w')) !! key_pin keys =
    affinityByKey (pins (w_strategy w)) !! key_pin keys ∧
  rt_decision <$> w_routing w' = Some "affinity_hold"%string ∧
  w_routing w' ≫= rt_heldAccountId = Some (acc_id a).

Lemma resolveAnchor_live d now rows k s :
  aff_ok s →
  resolveAnchor rows k (λ a, isAccountAvailable a now) (pruneAffinity d now s) =
    (id ← live_pin d now s k; a ← find_account id rows;
     if isAccountAvailable a now then Some a else None).
Proof.
  intros Hok. unfold resolveAnchor, live_pin. rewrite pins_prune_lookup by done.
  destruct (affinityByKey s !! k) as [e|]; [|done]. simpl. by destruct (_ <=? _).
Qed.

Lemma resolveAffinity_live d now rows k s :
  aff_ok s → truthy_string (Some k) = Some k →
  resolveAffinity d rows (Some k) now (λ a, isAccountAvailable a now) s =
    let s1 := pruneAffinity d now s in
    match live_pin d now s k with
    | None => (Miss, s1)
    | Some id =>
        let gone := (Reassign id, bump_changes (set_pins (delete k (affinityByKey s1)) s1)) in
        match find_account id rows with
        | None => gone
        | Some a =>
            if isAccountAvailable a now then (Hit a, s1)
            else if isAffinityBreakingUnavailability a now then gone else (Hold id, s1)
        end
    end.
Proof.
  intros Hok Hk. unfold resolveAffinity, live_pin. rewrite Hk. cbn [mbind option_bind].
  rewrite pins_prune_lookup by done. destruct (affinityByKey s !! k) as [e|]; [|done]. simpl.
  by destruct (_ <=? _).
Qed.

Section decides.
Context (sha : string → string) (d : Z) (store : option StrategyStore).
Context (m : RequestMeta) (keys : MapKeys) (now : Z) (w : world).
Hypothesis (Hsha : ∀ x, sha x ≠ ""%string).
Hypothesis (Hkeys : getAffinityMapKeys sha m = Some keys) (Hd : 0 <= d).
Hypothesis (Hnd : NoDup (acc_id <$> w_accounts w)) (Hok : aff_ok (pins (w_strategy w))).

Lemma key_pin_truthy : truthy_string (Some (key_pin keys)) = Some (key_pin keys).
Proof.
  revert Hkeys. unfold getAffinityMapKeys. destruct (getAffinityKey m) as [c|]; [|done].
  destruct (truthy_string (hashRoutingAffinityKey sha (Some c))) as [h|] eqn:E; [|done].
  assert (h ≠ ""%string) as Hh.
  { intros ->. unfold truthy_string in E. destruct (hashRoutingAffinityKey _ _) as [[]|]; done. }
  destruct (getAffinityModel m) as [model|]; intros [= <-]; simpl.
  - pose proof (Hsha (c +:+ MODEL_PIN_SEPARATOR +:+ model)). by destruct (sha _).
  - by destruct h.
Qed.

Lemma key_anchor_truthy : truthy_string (key_anchor keys) = key_anchor keys.
Proof.
  revert Hkeys. unfold getAffinityMapKeys. destruct (getAffinityKey m) as [c|]; [|done].
  destruct (truthy_string (hashRoutingAffinityKey sha (Some c))) as [h|] eqn:E; [|done].
  assert (h ≠ ""%string) as Hh.
  { intros ->. unfold truthy_string in E. destruct (hashRoutingAffinityKey _ _) as [[]|]; done. }
  destruct (getAffinityModel m) as [model|]; intros [= <-]; simpl; [by destruct h|done].
Qed.

Lemma affinity_key_some : is_Some (getAffinityKey m).
Proof. revert Hkeys. unfold getAffinityMapKeys. destruct (getAffinityKey m); [by eexists|done]. Qed.

(** The outcome of the resolution, from the live pin, the live anchor and the rows. *)
Definition resolution (rows : list Account) : AffinityResolution :=
  match live_pin d now (pins (w_strategy w)) (key_pin keys) with
  | Some id =>
      match find_account id rows with
      | Some a => if isAccountAvailable a now then Hit a
                  else if isAffinityBreakingUnavailability a now then Reassign id else Hold id
      | None => Reassign id
      end
  | None =>
      match (k ← key_anchor keys; id ← live_pin d now (pins (w_strategy w)) k;
             a ← find_account id rows; if isAccountAvailable a now then Some a else None) with
      | Some a => Hit a
      | None => Miss
      end
  end.

Lemma resolve_ok :
  let '((r, prev), w') := resolve sha d m now w in
  r = resolution (w_accounts w) ∧ aff_ok (pins (w_strategy w')) ∧
  (∀ id, r = Hold id → affinityByKey (pins (w_strategy w')) !! key_pin keys =
                       affinityByKey (pins (w_strategy w)) !! key_pin keys).
Proof.
  unfold resolve, resolution. rewrite Hkeys. cbn [fmap option_fmap option_map mbind option_bind].
  pose proof (aff_ok_resolve d (w_accounts w) (Some (key_pin keys)) now
    (λ a, isAccountAvailable a now) _ Hok) as Hres. revert Hres.
  rewrite resolveAffinity_live, key_anchor_truthy by (done || apply key_pin_truthy).
  destruct (live_pin d now (pins (w_strategy w)) (key_pin keys)) as [id|] eqn:El.
  - destruct (find_account id (w_accounts w)) as [a|]; [|by intros ?].
    destruct (isAccountAvailable a now); [by intros ?|].
    destruct (isAffinityBreakingUnavailability a now); [by intros ?|].
    intros Hres. split_and!; [done|done|]. intros _ _. simpl. rewrite pins_prune_lookup by done.
    revert El. unfold live_pin. destruct (affinityByKey _ !! _) as [e|]; [|done]. simpl. by destruct (_ <=? _).
  - intros Hres. destruct (key_anchor keys) as [k|]; [|by split_and!].
    cbn [mbind option_bind snd w_accounts w_on_pins w_set_strategy] in *.
    rewrite resolveAnchor_live by done.
    destruct (id ← live_pin d now (pins (w_strategy w)) k; a ← find_account id (w_accounts w);
              if isAccountAvailable a now then Some a else None); by split_and!.
Qed.
End decides.

Lemma sortAvailable_seq store s s' accounts av now :
  lastPickedSeq s = lastPickedSeq s' →
  sortAvailableAccounts store s accounts av now = sortAvailableAccounts store s' accounts av now.
Proof. intros E. unfold sortAvailableAccounts, snapshot. by rewrite E. Qed.

Section decide_cases.
Context (sha : string → string) (d : Z) (store : option StrategyStore).
Context (m : RequestMeta) (keys : MapKeys) (now : Z) (w0 : world).
Hypothesis (Hkeys : getAffinityMapKeys sha m = Some keys) (Hd : 0 <= d).
Hypothesis (Hnd : NoDup (acc_id <$> w_accounts w0)) (Hok : aff_ok (pins (w_strategy w0))).

Lemma pinned_after id (w' : world) :
  pins (w_strategy w') = rememberAffinity sha d m id now (pins (w_strategy w0)) →
  pinned w' (key_pin keys) = Some id.
Proof.
  intros E. unfold pinned. rewrite E.
  by destruct (remember_pins sha d m keys Hkeys Hd id now _ Hok) as [(e & -> & <- & _) _].
Qed.

Lemma case_hit a prev :
  a ∈ w_accounts w0 → isAccountAvailable a now = true →
  let '(l, w') := select_hit sha d store m a prev now w0 in served_on keys a l w'.
Proof.
  intros Hin Hav. pose proof (hit_serves sha d store m now w0 Hnd a prev Hin Hav) as H.
  destruct (select_hit _ _ _ _ _ _ _ _) as [l w']. destruct H as (_ & Hh & Hp & n & Hr).
  split_and!; [done|by apply pinned_after|by rewrite Hr].
Qed.

Lemma case_fresh decision prev :
  let '(l, w') := select_fresh sha d store m decision prev now w0 in
  served_fresh keys (sorted_available store now (w_accounts w0) w0) decision l w'.
Proof.
  pose proof (fresh_serves sha d store m now w0 Hnd decision prev) as H.
  destruct (select_fresh _ _ _ _ _ _ _ _) as [l w']. destruct H as (_ & Hl & H).
  split; [done|]. intros Hne. destruct l as [|a l]; [done|]. destruct H as (Hp & n & Hr).
  split; [simpl; by apply pinned_after|by rewrite Hr].
Qed.

Lemma case_hold a prev :
  let '(l, w') := select_hold d store m (acc_id a) prev now w0 in
  served_held keys a (sorted_available store now (w_accounts w0) w0) l w0 w'.
Proof.
  pose proof (hold_serves d store m now w0 Hnd (acc_id a) prev) as H.
  destruct (select_hold _ _ _ _ _ _ _) as [l w']. destruct H as (_ & Hl & Hp & n & Hr).
  split_and!; [done|by rewrite Hp|by rewrite Hr|by rewrite Hr].
Qed.
End decide_cases.

(** A selection acts on the outcome of the resolution. *)
Lemma select_acts sha d store m keys now w :
  (∀ x, sha x ≠ ""%string) → bypasses m = false → getAffinityMapKeys sha m = Some keys →
  0 <= d → NoDup (acc_id <$> w_accounts w) → aff_ok (pins (w_strategy w)) →
  let rows := resumed store now <$> w_accounts w in
  let ranking :=
    sortAvailableAccounts store (w_strategy w) rows (λ a, isAccountAvailable a now) now in
  let '(l, w') := select sha d store m now w in
  match resolution d keys now w rows with
  | Hit a => served_on keys a l w'
  | Hold id => ∀ a, acc_id a = id → served_held keys a ranking l w w'
  | Miss => served_fresh keys ranking "affinity_miss" l w'
  | Reassign _ => served_fresh keys ranking "affinity_reassigned" l w'
  end.
Proof.
  intros Hsha Hb Hkeys Hd Hnd Hok rows ranking. unfold select. rewrite Hb.
  destruct (auto_unpause_ok store now w Hnd) as (Hacc & Hst & _). fold rows in Hacc.
  set (w0 := auto_unpause store now w) in *.
  assert (NoDup (acc_id <$> w_accounts w0)) as Hnd0 by (unfold rows in Hacc; by rewrite Hacc, resumed_ids).
  pose proof (resolve_ok sha d m keys now w0 Hsha Hkeys ltac:(by rewrite Hst)) as Hr.
  pose proof (resolve_rows sha d m now w0) as Hrows. pose proof (resolve_hit sha d m now w0) as Hhit.
  destruct (resolve sha d m now w0) as [[r prev] w1]. cbn [snd] in Hrows. destruct Hr as (Hres & Hok1 & Hheld).
  assert (resolution d keys now w0 (w_accounts w0) = resolution d keys now w rows) as Hw
    by (unfold resolution; by rewrite Hacc, Hst).
  rewrite Hw in Hres. rewrite <-Hres. clear Hres Hw.
  assert (NoDup (acc_id <$> w_accounts w1)) as Hnd1 by (by rewrite (proj1 Hrows)).
  assert (sorted_available store now (w_accounts w1) w1 = ranking) as Hrank.
  { unfold sorted_available. rewrite (proj1 Hrows), Hacc. apply sortAvailable_seq.
    destruct Hrows as (_ & _ & _ & -> & _). by rewrite Hst. }
  destruct (affinity_key_some sha m keys Hkeys) as [c Hc]. rewrite Hc.
  pose proof (λ dec, case_fresh sha d store m keys now w1 Hkeys Hd Hnd1 Hok1 dec prev) as Hfresh.
  rewrite Hrank in Hfresh. destruct r as [a|id| |id]; [| |apply Hfresh|apply Hfresh].
  - destruct (Hhit a prev w1 Hnd0 eq_refl) as [Hin Hav].
    rewrite <-(proj1 Hrows) in Hin. by apply case_hit.
  - pose proof (λ a, case_hold d store m keys now w1 Hnd1 a prev) as Hh. rewrite Hrank in Hh.
    destruct (select_hold d store m id prev now w1) as [l w'] eqn:E.
    intros a <-. specialize (Hh a). rewrite E in Hh.
    destruct Hh as (H1 & H2 & H3 & H4). split_and!; [done| |done|done].
    rewrite H2, (Hheld (acc_id a) eq_refl). by rewrite Hst.
Qed.

(** C4: where a conversation with an affinity key is served. A live pin on an available
    account always wins, whatever the priorities and capacities say, and is renewed. A
    pin on an account that is only briefly unavailable stays untouched while the ranking
    serves the request, and the telemetry names the held account. A pin on an account
    that is paused, out for long, forbidden or gone is replaced by the first account of
    the ranking. A model without a live pin of its own starts on its conversation's
    account when that one is available, otherwise on the first of the ranking. In every
    case that serves by pin or by ranking, the conversation is afterwards pinned to the
    account that serves it. *)
Theorem affinity_decides sha d store m keys now w :
  (∀ x, sha x ≠ ""%string) → bypasses m = false → getAffinityMapKeys sha m = Some keys →
  0 <= d → NoDup (acc_id <$> w_accounts w) → aff_ok (pins (w_strategy w)) →
  let rows := resumed store now <$> w_accounts w in
  let ranking :=
    sortAvailableAccounts store (w_strategy w) rows (λ a, isAccountAvailable a now) now in
  let live := live_pin d now (pins (w_strategy w)) in
  let '(l, w') := select sha d store m now w in
  match live (key_pin keys) with
  | Some id =>
      match find_account id rows with
      | Some a =>
          if isAccountAvailable a now then served_on keys a l w'
          else if isAffinityBreakingUnavailability a now
          then served_fresh keys ranking "affinity_reassigned" l w'
          else served_held keys a ranking l w w'
      | None => served_fresh keys ranking "affinity_reassigned" l w'
      end
  | None =>
      match (k ← key_anchor keys; id ← live k; a ← find_account id rows;
             if isAccountAvailable a now then Some a else None) with
      | Some a => served_on keys a l w'
      | None => served_fresh keys ranking "affinity_miss" l w'
      end
  end.
Proof.
  intros Hsha Hb Hkeys Hd Hnd Hok rows ranking live.
  pose proof (select_acts sha d store m keys now w Hsha Hb Hkeys Hd Hnd Hok) as H. cbv zeta in H.
  fold rows in H. fold ranking in H. destruct (select sha d store m now w) as [l w'].
  unfold resolution in H. fold live in H. destruct (live (key_pin keys)) as [id|].
  - destruct (find_account id rows) as [a|] eqn:Ef; [|exact H].
    destruct (isAccountAvailable a now); [exact H|].
    destruct (isAffinityBreakingUnavailability a now); [exact H|]. apply H.
    apply find_account_spec in Ef; [apply Ef|]. unfold rows. by rewrite resumed_ids.
  - destruct (k ← key_anchor keys; _) as [a|]; exact H.
Qed.

(** ** Previews *)

Lemma peek_available store st now a :
  store = Some st → store_canResume st = true →
  isPeekAvailable a now = isAccountAvailable (resumed store now a) now.
Proof.
  intros -> Hr. unfold isPeekAvailable, resumed, resumable. rewrite Hr, andb_true_r.
  destruct (wouldAutoUnpause a now) eqn:Ew; [|by destruct (isAccountAvailable a now)].
  unfold wouldAutoUnpause in Ew. prop_bools.
  destruct (unpause_candidate_spec a now) as (Hd & Hp & _ & _ & _ & Hl); [done|].
  unfold isAccountAvailable. simpl. by rewrite Hd, Hp, Hl.
Qed.

Lemma rank_resumed store s now st a :
  rank_of store s now (resumed st now a) = rank_of store s now a.
Proof. unfold resumed. by destruct (resumable st now a). Qed.

Lemma peek_ranking store st s now accounts :
  NoDup (acc_id <$> accounts) → store = Some st → store_canResume st = true →
  acc_id <$> peekRanked store s accounts now =
    acc_id <$> sortAvailableAccounts store s (resumed store now <$> accounts)
                 (λ a, isAccountAvailable a now) now.
Proof.
  intros Hnd Hst Hr. unfold peekRanked. rewrite !sortAvailable_eq by (done || by rewrite resumed_ids).
  rewrite (filter_fmap_comm (resumed store now)).
  rewrite (stable_sort_fmap (resumed store now) (rank_leb store s now)).
  - rewrite resumed_ids. do 2 f_equal. apply list_filter_iff. intros a.
    by rewrite (peek_available store st).
  - intros x y. unfold rank_leb. by rewrite !rank_resumed.
Qed.

(** the preview is where a fresh conversation goes. For a request with an affinity key
    whose conversation has no live pin or usable anchor, a selection serves the very
    accounts [peekRanked] lists, in that order, although the selection resumes accounts
    and the preview changes nothing; the preview's first is the account it pins. *)
Theorem peek_is_fresh_pick sha d store st m keys now w :
  (∀ x, sha x ≠ ""%string) → bypasses m = false → getAffinityMapKeys sha m = Some keys →
  0 <= d → NoDup (acc_id <$> w_accounts w) → aff_ok (pins (w_strategy w)) →
  store = Some st → store_canResume st = true →
  live_pin d now (pins (w_strategy w)) (key_pin keys) = None →
  (k ← key_anchor keys; live_pin d now (pins (w_strategy w)) k) = None →
  let '(l, w') := select sha d store m now w in
  acc_id <$> l = acc_id <$> peekRanked store (w_strategy w) (w_accounts w) now ∧
  peek store (w_strategy w) (w_accounts w) now = acc_id <$> head l ∧
  (l ≠ [] → pinned w' (key_pin keys) = peek store (w_strategy w) (w_accounts w) now).
Proof.
  intros Hsha Hb Hkeys Hd Hnd Hok Hst Hr Hpin Hanchor.
  pose proof (select_acts sha d store m keys now w Hsha Hb Hkeys Hd Hnd Hok) as H. cbv zeta in H.
  unfold resolution in H. rewrite Hpin in H.
  replace (k ← key_anchor keys; id ← live_pin d now (pins (w_strategy w)) k;
           a ← find_account id (resumed store now <$> w_accounts w);
           if isAccountAvailable a now then Some a else None) with (@None Account) in H.
  2: { destruct (key_anchor keys) as [k|]; [|done]. simpl in *. by rewrite Hanchor. }
  destruct (select sha d store m now w) as [l w']. destruct H as [Hl H].
  assert (acc_id <$> l = acc_id <$> peekRanked store (w_strategy w) (w_accounts w) now) as Heq.
  { by rewrite Hl, (peek_ranking store st). }
  assert (peek store (w_strategy w) (w_accounts w) now = acc_id <$> head l) as Hpeek.
  { unfold peek. destruct l, (peekRanked _ _ _ _); simpl in *; congruence. }
  split_and!; [done|done|]. intros Hne. rewrite Hpeek. by apply H.
Qed.

(** * Witnesses *)

Definition demo_row (id : string) (prio : Z) : Account :=
  {| acc_id := id; acc_name := id; acc_provider := "anthropic"; acc_refresh_token := None;
     acc_access_token := None; acc_expires_at := None; acc_session_start := None;
     acc_session_request_count := 0; acc_paused := false; acc_disabled := false;
     acc_pause_reason := None; acc_priority := prio; acc_auto_fallback_enabled := true;
     acc_auto_pause_on_overage_enabled := false; acc_custom_endpoint := None;
     acc_rate_limited_until := None; acc_rate_limited_reason := None;
     acc_rate_limited_at := None; acc_consecutive_rate_limits := 0;
     acc_rate_limit_status := None; acc_rate_limit_reset := None;
     acc_rate_limit_remaining := None; acc_profile := demo_profile |}%string.

Definition demo_sha (s : string) : string := ("h:" +:+ s)%string.

Definition demo_store : StrategyStore :=
  {| store_capacity := None; store_utilization := None; store_canResume := true |}.

Definition demo_meta : RequestMeta :=
  {| meta_internal := false; meta_bypassHeader := None; meta_affinityKey := Some "conv";
     meta_affinityScope := Some "client_session"; meta_affinityPartition := None;
     meta_affinityModel := Some "m"; meta_project := None |}%string.

Definition demo_keys : MapKeys :=
  {| key_pin := demo_sha ("client_session:conv" +:+ MODEL_PIN_SEPARATOR +:+ "m");
     key_anchor := Some (demo_sha "client_session:conv") |}%string.

Definition demo_rows : list Account :=
  [demo_row "low" 5; unpaused (demo_row "high" 1); demo_account]%string.

Definition demo_world : world :=
  {| w_strategy := strategy_init; w_accounts := demo_rows; w_ops := []; w_routing := None |}.

(** The conversation pinned to the account of the lower priority. *)
Definition demo_pinned : world :=
  w_on_pins (rememberAffinity demo_sha 18000000 demo_meta "low"%string 8000) demo_world.

Lemma demo_ids : NoDup (acc_id <$> demo_rows).
Proof. apply (bool_decide_unpack _). vm_compute. exact I. Qed.

Lemma fefo_order_witness :
  acc_id <$> sortAvailableAccounts None strategy_init demo_rows (λ a, isAccountAvailable a 9000) 9000
    = ["high"; "low"]%string ∧
  StronglySorted (served_before None strategy_init 9000)
    (sortAvailableAccounts None strategy_init demo_rows (λ a, isAccountAvailable a 9000) 9000).
Proof.
  split; [reflexivity|].
  apply (fefo_order None strategy_init demo_rows (λ a, isAccountAvailable a 9000) 9000 demo_ids).
Defined.

Lemma select_complete_witness :
  acc_id <$> (select demo_sha 18000000 (Some demo_store) demo_meta 9000 demo_world).1
    = ["a1"; "high"; "low"]%string ∧
  NoDup (acc_id <$> (select demo_sha 18000000 (Some demo_store) demo_meta 9000 demo_world).1).
Proof.
  pose proof (select_complete demo_sha 18000000 (Some demo_store) demo_meta 9000 demo_world demo_ids) as H.
  split; [vm_compute; reflexivity|].
  destruct (select demo_sha 18000000 (Some demo_store) demo_meta 9000 demo_world). apply H.
Defined.

Lemma demo_sha_ne x : demo_sha x ≠ ""%string.
Proof. done. Qed.

Lemma demo_pinned_ok : aff_ok (pins (w_strategy demo_pinned)).
Proof. apply aff_ok_remember, aff_ok_init. Qed.

Lemma affinity_decides_witness :
  (let '(l, w') := select demo_sha 18000000 (Some demo_store) demo_meta 9000 demo_pinned in
   served_on demo_keys (demo_row "low" 5) l w') ∧
  acc_id <$> head (select demo_sha 18000000 (Some demo_store) demo_meta 9000 demo_pinned).1
    = Some "low"%string.
Proof.
  split; [|vm_compute; reflexivity].
  exact (affinity_decides demo_sha 18000000 (Some demo_store) demo_meta demo_keys 9000 demo_pinned
    demo_sha_ne eq_refl eq_refl ltac:(lia) demo_ids demo_pinned_ok).
Defined.

Lemma peek_is_fresh_pick_witness :
  acc_id <$> (select demo_sha 18000000 (Some demo_store) demo_meta 9000 demo_world).1
    = acc_id <$> peekRanked (Some demo_store) strategy_init demo_rows 9000 ∧
  peek (Some demo_store) strategy_init demo_rows 9000 = Some "a1"%string.
Proof.
  split; [|vm_compute; reflexivity].
  pose proof (peek_is_fresh_pick demo_sha 18000000 (Some demo_store) demo_store demo_meta demo_keys 9000
    demo_world demo_sha_ne eq_refl eq_refl ltac:(lia) demo_ids aff_ok_init eq_refl eq_refl eq_refl eq_refl) as H.
  destruct (select _ _ _ _ _ _). apply H.
Defined.
