(* ===== verification/LeastUsed.v ===== *)
(** The least-used strategy: [packages/load-balancer/src/strategies/least-used.ts].

    Rows, store and telemetry are those of [Strategy]; the strategy's own state is when each
    account was last picked. Utilizations are rationals. [Date.now()] is read once per
    selection; log lines are left out. *)

From S2P Require Import Prelude StableSort Accounts Affinity Strategy.
Open Scope Z_scope.

Definition RECENT_PICK_WINDOW_MS : Z := 500.
Definition RECENT_PICK_PENALTY : Qc := Qc_of_Z 100.

Record lu_world := {
  lastPickedAt : gmap string Z;
  lu_accounts : list Account;
  lu_ops : list store_op;
  lu_routing : option RequestRoutingMeta
}.

Section least_used.
Context (store : option StrategyStore).

Definition util_of (a : Account) (now : Z) : Qc :=
  default 0%Qc (f ← store ≫= store_utilization; f (acc_id a) (acc_provider a) now).

Definition recently_picked (picked : gmap string Z) (a : Account) (now : Z) : bool :=
  now - default 0 (picked !! acc_id a) <? RECENT_PICK_WINDOW_MS.

Definition score (picked : gmap string Z) (now : Z) (a : Account) : Qc :=
  (util_of a now + if recently_picked picked a now then RECENT_PICK_PENALTY else 0)%Qc.

(** The comparator, on an account and its score *)
Definition compare_scored (x y : Account * Qc) : comparison :=
  then_compare (acc_priority x.1 ?= acc_priority y.1) (x.2 ?= y.2)%Qc.

Definition sort_scored (picked : gmap string Z) (now : Z) (available : list Account)
    : list Account :=
  fst <$> stable_sort (λ x y, not_gt (compare_scored x y))
            ((λ a, (a, score picked now a)) <$> available).

Definition lu_peekRanked (picked : gmap string Z) (accounts : list Account) (now : Z)
    : list Account :=
  sort_scored picked now (filter (λ a, isPeekAvailable a now = true) accounts).

Definition lu_peek (picked : gmap string Z) (accounts : list Account) (now : Z)
    : option string :=
  acc_id <$> head (lu_peekRanked picked accounts now).

Definition lu_resume (now : Z) (w : lu_world) (a : Account) : lu_world :=
  if wouldAutoUnpause a now then
    {| lastPickedAt := lastPickedAt w;
       lu_accounts := update_account (with_paused_false a) (lu_accounts w);
       lu_ops := lu_ops w ++ [ResumeAccount (acc_id a)]; lu_routing := lu_routing w |}
  else w.

Definition autoUnpauseElapsedAccounts (now : Z) (w : lu_world) : lu_world :=
  if match store with Some s => store_canResume s | None => false end
  then foldl (lu_resume now) w (lu_accounts w) else w.

(** The stamp of the primary, and the sweep of stamps ten windows old *)
Definition mark_picked (id : string) (now : Z) (picked : gmap string Z) : gmap string Z :=
  filter (λ p, ¬ p.2 < now - RECENT_PICK_WINDOW_MS * 10) (<[id := now]> picked).

Definition lu_select (now : Z) (w : lu_world) : list Account * lu_world :=
  let w := autoUnpauseElapsedAccounts now w in
  let available := filter (λ a, isAccountAvailable a now = true) (lu_accounts w) in
  match available with
  | [] => ([], w)
  | _ =>
      let sorted := sort_scored (lastPickedAt w) now available in
      match sorted with
      | [] => ([], w)
      | primary :: _ =>
          (sorted,
           {| lastPickedAt := mark_picked (acc_id primary) now (lastPickedAt w);
              lu_accounts := lu_accounts w; lu_ops := lu_ops w;
              lu_routing := Some
                {| rt_strategy := "least-used"; rt_decision := "least_used";
                   rt_affinityScope := None; rt_affinityKey := None;
                   rt_selectedAccountId := Some (acc_id primary);
                   rt_previousAccountId := None;
                   rt_candidatesCount := Z.of_nat (length sorted);
                   rt_failoverReason := None; rt_heldAccountId := None |} |})
      end
  end.

End least_used.

(** * The ranking *)

#[export] Instance compare_scored_comparator : Comparator compare_scored.
Proof. unfold compare_scored. apply _. Qed.

Section ranking.
Context (store : option StrategyStore).

(** The ranking without the intermediate pairs *)
Definition lu_leb (picked : gmap string Z) (now : Z) (x y : Account) : bool :=
  not_gt (compare_scored (x, score store picked now x) (y, score store picked now y)).

Lemma sort_scored_eq picked now l :
  sort_scored store picked now l = stable_sort (lu_leb picked now) l.
Proof.
  unfold sort_scored. rewrite (stable_sort_fmap _ (lu_leb picked now)) by done.
  rewrite <-list_fmap_compose. apply list_fmap_id.
Qed.

#[local] Instance lu_preorder picked now : TotalPreorder (lu_leb picked now).
Proof.
  pose proof (comparator_preorder (A := Account)
    (λ x y, compare_scored (x, score store picked now x) (y, score store picked now y))) as H.
  apply H.
Qed.

Definition prefers (picked : gmap string Z) (now : Z) (x y : Account) : Prop :=
  acc_priority x < acc_priority y ∨
  (acc_priority x = acc_priority y ∧
   (score store picked now x <= score store picked now y)%Qc).

Lemma lu_leb_spec picked now x y : lu_leb picked now x y = true ↔ prefers picked now x y.
Proof.
  unfold lu_leb, compare_scored, prefers. cbn [fst snd].
  apply not_gt_then; [apply Z.compare_lt_iff|apply Z.compare_eq_iff|].
  rewrite Qcle_alt. by destruct (_ ?= _)%Qc.
Qed.

Lemma sort_scored_sorted picked now l :
  StronglySorted (prefers picked now) (sort_scored store picked now l).
Proof.
  rewrite sort_scored_eq.
  eapply StronglySorted_impl; [|apply (stable_sort_sorted (lu_leb picked now))].
  intros x y. apply lu_leb_spec.
Qed.

Lemma sort_scored_perm picked now l : sort_scored store picked now l ≡ₚ l.
Proof. rewrite sort_scored_eq. apply stable_sort_perm. Qed.

Lemma sort_scored_head picked now l x rest :
  sort_scored store picked now l = x :: rest → x ∈ l ∧ ∀ y, y ∈ l → prefers picked now x y.
Proof.
  rewrite sort_scored_eq. intros [Hx Hy]%stable_sort_head; [|apply _].
  split; [done|]. intros y ?. by apply lu_leb_spec, Hy.
Qed.

(** ** The automatic resumes *)

Lemma lu_resume_fold now cs w original ids :
  NoDup (acc_id <$> original) → NoDup (acc_id <$> cs) →
  match store with Some s => store_canResume s | None => false end = true →
  (∀ c, c ∈ cs → c ∈ original ∧ acc_id c ∉ ids) →
  lu_accounts w = resumed_in store now ids original →
  let w' := foldl (lu_resume now) w cs in
  lu_accounts w' = resumed_in store now (ids ++ (acc_id <$> cs)) original ∧
  lastPickedAt w' = lastPickedAt w ∧ lu_routing w' = lu_routing w ∧
  lu_ops w' = lu_ops w ++
    ((λ c, ResumeAccount (acc_id c)) <$> filter (λ c, resumable store now c = true) cs).
Proof.
  revert w ids. induction cs as [|c cs IH]; intros w ids Hnd Hcs Hr Hc Hw w'; subst w'.
  { csimpl. by rewrite !app_nil_r. }
  cbn [foldl]. csimpl in Hcs. pose proof Hcs as [Hnin Hcs']%NoDup_cons.
  destruct (Hc c) as (Hin & Hnot); [by left|].
  assert (wouldAutoUnpause c now = resumable store now c) as Hw'.
  { unfold resumable. by rewrite Hr, andb_true_r. }
  assert (lu_accounts (lu_resume now w c) = resumed_in store now (ids ++ [acc_id c]) original) as Hw1.
  { unfold lu_resume. rewrite Hw', resumed_in_snoc by done.
    destruct (resumable store now c); simpl; by rewrite <-Hw. }
  destruct (IH (lu_resume now w c) (ids ++ [acc_id c]) Hnd Hcs' Hr) as (H1 & H2 & H3 & H4); [|done|].
  { intros c' Hc'. destruct (Hc c') as (?&?); [by right|]. split; [done|].
    rewrite not_elem_of_app, list_elem_of_singleton. split; [done|]. intros He. apply Hnin.
    rewrite <-He. by apply list_elem_of_fmap_2. }
  rewrite H1, H2, H3, H4. csimpl. rewrite <-app_assoc, filter_cons. unfold lu_resume.
  rewrite Hw'. destruct (resumable store now c); simpl; [|done]. by rewrite <-app_assoc.
Qed.

Lemma autoUnpause_ok now w :
  NoDup (acc_id <$> lu_accounts w) →
  let w' := autoUnpauseElapsedAccounts store now w in
  lu_accounts w' = resumed store now <$> lu_accounts w ∧
  lastPickedAt w' = lastPickedAt w ∧ lu_routing w' = lu_routing w ∧
  lu_ops w' = lu_ops w ++
    ((λ c, ResumeAccount (acc_id c)) <$> filter (λ c, resumable store now c = true) (lu_accounts w)).
Proof.
  intros Hnd w'. subst w'. unfold autoUnpauseElapsedAccounts.
  destruct (match store with Some s => store_canResume s | None => false end) eqn:Hr.
  - destruct (lu_resume_fold now (lu_accounts w) w (lu_accounts w) []) as (-> & -> & -> & ->);
      try done.
    + intros c ?. split; [done|apply not_elem_of_nil].
    + unfold resumed_in. rewrite <-(list_fmap_id (lu_accounts w)) at 1. apply list_fmap_ext.
      intros i a _. by rewrite decide_False by apply not_elem_of_nil.
    + split; [|done]. apply list_fmap_ext. intros i a Ha%list_elem_of_lookup_2.
      rewrite decide_True; [done|]. by apply list_elem_of_fmap_2.
  - assert (∀ a, resumable store now a = false) as Hn.
    { intros a. unfold resumable. by rewrite Hr, andb_false_r. }
    rewrite filter_none by (intros a _; rewrite Hn; done). csimpl. rewrite app_nil_r.
    split; [|done]. rewrite <-(list_fmap_id (lu_accounts w)) at 1. apply list_fmap_ext.
    intros i a _. unfold resumed. by rewrite Hn.
Qed.

(** The rows a selection chooses among *)
Definition lu_candidates (now : Z) (w : lu_world) : list Account :=
  filter (λ a, isAccountAvailable a now = true) (resumed store now <$> lu_accounts w).

Lemma lu_select_eq now w :
  NoDup (acc_id <$> lu_accounts w) →
  let l := (lu_select store now w).1 in
  let w' := (lu_select store now w).2 in
  l = sort_scored store (lastPickedAt w) now (lu_candidates now w) ∧
  lu_accounts w' = resumed store now <$> lu_accounts w ∧
  lu_ops w' = lu_ops w ++
    ((λ c, ResumeAccount (acc_id c)) <$> filter (λ c, resumable store now c = true) (lu_accounts w)) ∧
  lastPickedAt w' =
    match l with [] => lastPickedAt w | a :: _ => mark_picked (acc_id a) now (lastPickedAt w) end.
Proof.
  intros Hnd. destruct (autoUnpause_ok now w Hnd) as (Ha & Hp & _ & Ho). cbv zeta.
  unfold lu_select, lu_candidates. rewrite <-Ha, <-Ho, <-Hp.
  destruct (filter (λ a, isAccountAvailable a now = true) _) as [|a l] eqn:E; [done|].
  destruct (sort_scored _ _ _ _) as [|b k] eqn:Es; [|done].
  pose proof (sort_scored_perm (lastPickedAt (autoUnpauseElapsedAccounts store now w)) now (a :: l)) as H.
  rewrite Es in H. by apply Permutation_nil_cons in H.
Qed.

Lemma lookup_mark_picked id now picked id' t :
  mark_picked id now picked !! id' = Some t ↔
  (if decide (id = id') then t = now else picked !! id' = Some t) ∧
  now - RECENT_PICK_WINDOW_MS * 10 <= t.
Proof.
  unfold mark_picked. rewrite map_lookup_filter_Some. simpl.
  destruct (decide (id = id')) as [<-|]; [rewrite lookup_insert_eq|rewrite lookup_insert_ne by done];
    (split; intros [H ?]; [split; [congruence|lia]|split; [congruence|lia]]).
Qed.
End ranking.

(** the least-used ranking. A selection returns exactly the rows available after the
    automatic resumes, each once, sorted by priority and then by utilization plus the
    penalty of a pick within the last 500 ms, ties in the given order; it resumes exactly
    the accounts an elapsed window lets it unpause, in order. It stamps the first and
    forgets stamps ten windows old, and nothing else; with no row available it stamps
    nothing. The preview lists the very same accounts, without changing anything, and its
    first is the account the selection stamps. *)
Theorem least_used_order store now w :
  NoDup (acc_id <$> lu_accounts w) →
  let '(l, w') := lu_select store now w in
  let cands := lu_candidates store now w in
  l ≡ₚ cands ∧
  StronglySorted (prefers store (lastPickedAt w) now) l ∧
  (∀ z, filter (λ y, tied (lu_leb store (lastPickedAt w) now) z y = true) l =
        filter (λ y, tied (lu_leb store (lastPickedAt w) now) z y = true) cands) ∧
  lu_ops w' = lu_ops w ++ (ResumeAccount <$> (acc_id <$>
    filter (λ a, resumable store now a = true) (lu_accounts w))) ∧
  (∀ id t, lastPickedAt w' !! id = Some t ↔
     if bool_decide (l = []) then lastPickedAt w !! id = Some t
     else (if decide (acc_id <$> head l = Some id) then t = now else lastPickedAt w !! id = Some t) ∧
          now - 5000 <= t) ∧
  (∀ st, store = Some st → store_canResume st = true →
     acc_id <$> l = acc_id <$> lu_peekRanked store (lastPickedAt w) (lu_accounts w) now ∧
     lu_peek store (lastPickedAt w) (lu_accounts w) now = acc_id <$> head l).
Proof.
  intros Hnd. pose proof (lu_select_eq store now w Hnd) as H. cbv zeta in H.
  destruct (lu_select store now w) as [l w']. cbn [fst snd] in H.
  destruct H as (Hl & Ha & Ho & Hp). subst l. split_and!.
  - apply sort_scored_perm.
  - apply sort_scored_sorted.
  - intros z. rewrite sort_scored_eq. apply (stable_sort_stable (lu_leb store _ now)).
  - by rewrite Ho, <-list_fmap_compose.
  - intros id t. rewrite Hp. destruct (sort_scored _ _ _ _) as [|a l]; [done|].
    rewrite bool_decide_false by done. rewrite lookup_mark_picked. simpl.
    change (RECENT_PICK_WINDOW_MS * 10) with 5000.
    destruct (decide (acc_id a = id)), (decide (Some (acc_id a) = Some id)); naive_solver.
  - intros st Hst Hr.
    assert (acc_id <$> sort_scored store (lastPickedAt w) now (lu_candidates store now w) =
            acc_id <$> lu_peekRanked store (lastPickedAt w) (lu_accounts w) now) as Heq.
    { unfold lu_peekRanked, lu_candidates. rewrite (filter_fmap_comm (resumed store now)), !sort_scored_eq.
      rewrite (stable_sort_fmap (resumed store now) (lu_leb store (lastPickedAt w) now)).
      - rewrite resumed_ids. do 2 f_equal. apply list_filter_iff. intros a.
        by rewrite (peek_available store st).
      - intros x y. unfold lu_leb, score, util_of, recently_picked, resumed.
        by destruct (resumable store now x), (resumable store now y). }
    split; [done|]. unfold lu_peek. destruct (lu_peekRanked _ _ _ _), (sort_scored _ _ _ _);
      simpl in *; congruence.
Qed.

(** * Bursts *)

Section burst.
Context (store : option StrategyStore) (t0 : Z).

(** The primaries of selections at the instants [ts] *)
Fixpoint burst (ts : list Z) (w : lu_world) : list string :=
  match ts with
  | [] => []
  | t :: ts =>
      let '(l, w') := lu_select store t w in
      option_list (acc_id <$> head l) ++ burst ts w'
  end.

(** A tier of accounts that stays on top of the pool: at each instant nothing is resumed,
    the accounts of [ids] are available with a utilization below 100, and the other
    available rows have a lower priority. *)
Record top_tier (p : Z) (ids : list string) (ts : list Z) (rows : list Account) : Prop := {
  tier_rows : NoDup (acc_id <$> rows);
  tier_ids : NoDup ids;
  tier_due t a : t ∈ ts → a ∈ rows → resumable store t a = false;
  tier_available t id : t ∈ ts → id ∈ ids →
    ∃ a, a ∈ rows ∧ acc_id a = id ∧ isAccountAvailable a t = true ∧ acc_priority a = p;
  tier_used t a : t ∈ ts → a ∈ rows → acc_id a ∈ ids →
    (0 <= util_of store a t)%Qc ∧ (util_of store a t < Qc_of_Z 100)%Qc;
  tier_rest t a : t ∈ ts → a ∈ rows → isAccountAvailable a t = true → acc_id a ∉ ids →
    p < acc_priority a
}.

Lemma tier_candidates p ids t ts w :
  top_tier p ids (t :: ts) (lu_accounts w) →
  lu_candidates store t w = filter (λ a, isAccountAvailable a t = true) (lu_accounts w) ∧
  resumed store t <$> lu_accounts w = lu_accounts w.
Proof.
  intros Ht. assert (resumed store t <$> lu_accounts w = lu_accounts w) as E.
  { rewrite <-(list_fmap_id (lu_accounts w)) at 2. apply list_fmap_ext.
    intros i a Ha%list_elem_of_lookup_2. unfold resumed.
    by rewrite (tier_due _ _ _ _ Ht t a ltac:(left) Ha). }
  split; [|done]. unfold lu_candidates. by rewrite E.
Qed.

(** An account of the tier that was not picked in the window beats one that was. *)
Lemma fresh_beats_recent p ids ts t w x y :
  top_tier p ids ts (lu_accounts w) → t ∈ ts → x ∈ lu_accounts w → y ∈ lu_accounts w →
  acc_id x ∈ ids → acc_id y ∈ ids → acc_priority x = acc_priority y →
  recently_picked (lastPickedAt w) y t = false →
  prefers store (lastPickedAt w) t x y → recently_picked (lastPickedAt w) x t = false.
Proof.
  intros Ht Hin Hx Hy Hxi Hyi Hp Hny [Hlt|[_ Hle]]; [lia|].
  destruct (recently_picked (lastPickedAt w) x t) eqn:E; [|done]. exfalso.
  unfold score in Hle. rewrite E, Hny in Hle.
  destruct (tier_used _ _ _ _ Ht t x Hin Hx Hxi) as [H0 _].
  destruct (tier_used _ _ _ _ Ht t y Hin Hy Hyi) as [_ H1].
  apply (Qclt_not_le _ _ H1). rewrite Qcplus_0_r in Hle.
  eapply Qcle_trans; [|exact Hle]. unfold RECENT_PICK_PENALTY.
  rewrite <-(Qcplus_0_l (Qc_of_Z 100)) at 1. apply Qcplus_le_compat; [done|apply Qcle_refl].
Qed.

Definition stamped_in_window (w : lu_world) (id : string) : Prop :=
  ∃ t, lastPickedAt w !! id = Some t ∧ t0 <= t < t0 + RECENT_PICK_WINDOW_MS.

(** One selection of a burst: with an account of the tier still unpicked, one of those. *)
Lemma burst_step p ids t ts w dn rest :
  top_tier p ids (t :: ts) (lu_accounts w) → ids ≡ₚ dn ++ rest → rest ≠ [] →
  t0 <= t < t0 + RECENT_PICK_WINDOW_MS →
  (∀ id, id ∈ dn → stamped_in_window w id) →
  (∀ id, id ∈ rest → RECENT_PICK_WINDOW_MS <= t - default 0 (lastPickedAt w !! id)) →
  ∃ a l, (lu_select store t w).1 = a :: l ∧ acc_id a ∈ rest.
Proof.
  intros Ht Hp Hne Hw Hd Hr. pose proof (tier_rows _ _ _ _ Ht) as Hnd.
  destruct (lu_select_eq store t w Hnd) as (Hl & _). cbv zeta in Hl.
  destruct (tier_candidates p ids t ts w Ht) as [Hc _].
  destruct rest as [|r rest]; [done|].
  assert (t ∈ t :: ts) as Hin by left.
  destruct (tier_available _ _ _ _ Ht t r Hin) as (y & Hy & Hyr & Hya & Hyp).
  { rewrite Hp. apply elem_of_app. right. left. }
  assert (y ∈ lu_candidates store t w) as Hyc by (rewrite Hc; by apply list_elem_of_filter).
  destruct (lu_select store t w).1 as [|a l]; [|exists a, l; split; [done|]].
  { symmetry in Hl. pose proof (sort_scored_perm store (lastPickedAt w) t (lu_candidates store t w)) as E.
    rewrite Hl in E. apply Permutation_nil_l in E. rewrite <-E in Hyc. by apply not_elem_of_nil in Hyc. }
  symmetry in Hl. apply sort_scored_head in Hl as [Ha Hleast]. specialize (Hleast y Hyc).
  rewrite Hc in Ha. apply list_elem_of_filter in Ha as [Haa Ha].
  assert (acc_id a ∈ ids) as Hai.
  { destruct (decide (acc_id a ∈ ids)) as [|Hn]; [done|]. exfalso.
    pose proof (tier_rest _ _ _ _ Ht t a Hin Ha Haa Hn). destruct Hleast as [?|[? _]]; lia. }
  assert (acc_priority a = acc_priority y) as Hpa.
  { destruct (tier_available _ _ _ _ Ht t (acc_id a) Hin Hai) as (b & Hb & Hba & _ & Hbp).
    assert (b = a) as -> by (by apply (row_unique (lu_accounts w))). congruence. }
  assert (recently_picked (lastPickedAt w) a t = false) as Hna.
  { apply (fresh_beats_recent p ids (t :: ts) t w a y); try done.
    - rewrite Hyr, Hp. apply elem_of_app. right. left.
    - unfold recently_picked. rewrite Hyr. apply Z.ltb_ge. apply Hr. left. }
  rewrite Hp in Hai. apply elem_of_app in Hai as [Hai|Hai]; [|done].
  destruct (Hd _ Hai) as (t' & E & Hb). unfold recently_picked in Hna. rewrite E in Hna. simpl in Hna.
  unfold RECENT_PICK_WINDOW_MS in *. lia.
Qed.

Lemma burst_run p ids ts dn rest w :
  top_tier p ids ts (lu_accounts w) → ids ≡ₚ dn ++ rest → (length ts <= length rest)%nat →
  (∀ t, t ∈ ts → t0 <= t < t0 + RECENT_PICK_WINDOW_MS) → RECENT_PICK_WINDOW_MS <= t0 →
  (∀ id, id ∈ dn → stamped_in_window w id) →
  (∀ id t, id ∈ rest → t ∈ ts → RECENT_PICK_WINDOW_MS <= t - default 0 (lastPickedAt w !! id)) →
  ∃ lft, rest ≡ₚ burst ts w ++ lft ∧ length (burst ts w) = length ts.
Proof.
  intros Ht Hp Hlen Hts H0. revert dn rest w Ht Hp Hlen.
  induction ts as [|t ts IH]; intros dn rest w Ht Hp Hlen Hd Hr; [by exists rest|].
  assert (t0 <= t < t0 + RECENT_PICK_WINDOW_MS) as Hw by (apply Hts; left).
  destruct (burst_step p ids t ts w dn rest) as (a & l & Hl & Hin); try done.
  { by destruct rest; simpl in *; [lia|]. }
  { intros id Hid. apply Hr; [done|left]. }
  pose proof (lu_select_eq store t w (tier_rows _ _ _ _ Ht)) as (_ & Ha & _ & Hpk). cbv zeta in Ha, Hpk.
  rewrite (proj2 (tier_candidates p ids t ts w Ht)) in Ha. rewrite Hl in Hpk.
  cbn [burst]. destruct (lu_select store t w) as [l0 w']. cbn [fst snd] in Hl, Ha, Hpk. subst l0.
  cbn [head fmap option_fmap option_map option_list].
  apply list_elem_of_split in Hin as (r1 & r2 & Er).
  assert (rest ≡ₚ acc_id a :: (r1 ++ r2)) as Er' by (rewrite Er; symmetry; apply Permutation_middle).
  assert (NoDup (dn ++ acc_id a :: (r1 ++ r2))) as Hnd.
  { rewrite <-Er', <-Hp. apply (tier_ids _ _ _ _ Ht). }
  assert (∀ id, id ∈ dn ++ (r1 ++ r2) → acc_id a ≠ id) as Hne.
  { intros id Hid <-. rewrite <-Permutation_middle in Hnd. by apply NoDup_cons in Hnd as [? _]. }
  destruct (IH ltac:(intros; apply Hts; by right) (acc_id a :: dn) (r1 ++ r2) w') as (lft & Hpl & Hll).
  - rewrite Ha. destruct Ht. split; try done; intros; eauto using list_elem_of_further.
  - rewrite Hp, Er'. simpl. symmetry. apply Permutation_middle.
  - apply Permutation_length in Er'. simpl in *. lia.
  - intros id [->|Hid]%elem_of_cons.
    + exists t. rewrite Hpk, lookup_mark_picked, decide_True by done. split; [|done].
      split; [done|]. unfold RECENT_PICK_WINDOW_MS. lia.
    + destruct (Hd id Hid) as (t' & E & Hb). exists t'. split; [|done].
      rewrite Hpk, lookup_mark_picked, decide_False.
      * split; [done|]. unfold RECENT_PICK_WINDOW_MS in *. lia.
      * apply Hne, elem_of_app. by left.
  - intros id t' Hid Ht'. assert (t' ∈ t :: ts) as Ht'' by by right.
    assert (id ∈ rest) as Hid' by (rewrite Er'; by right).
    specialize (Hr id t' Hid' Ht''). destruct (lastPickedAt w' !! id) as [t1|] eqn:E; simpl.
    + rewrite Hpk in E. apply lookup_mark_picked in E as [E _]. rewrite decide_False in E.
      * by rewrite E in Hr.
      * apply Hne, elem_of_app. by right.
    + pose proof (Hts t' Ht''). lia.
  - exists lft. simpl. rewrite Er', Hpl, Hll. done.
Qed.

(** a burst is spread over the pool. Selections made within 500 ms of each other, over a top
    tier of accounts with utilizations below 100 and not picked just before, take a
    different account of the tier each time, until every account of the tier has been
    taken once. *)
Theorem burst_spreads p ids ts w :
  top_tier p ids ts (lu_accounts w) →
  (∀ t, t ∈ ts → t0 <= t < t0 + RECENT_PICK_WINDOW_MS) → RECENT_PICK_WINDOW_MS <= t0 →
  (∀ id t, id ∈ ids → t ∈ ts → RECENT_PICK_WINDOW_MS <= t - default 0 (lastPickedAt w !! id)) →
  (length ts <= length ids)%nat →
  let picks := burst ts w in
  NoDup picks ∧ length picks = length ts ∧ picks ⊆ ids ∧
  (length ts = length ids → picks ≡ₚ ids).
Proof.
  intros Ht Hts H0 Hr Hlen. pose proof (tier_ids _ _ _ _ Ht) as Hnd.
  destruct (burst_run p ids ts [] ids w) as (lft & Hp & Hl); try done.
  { by intros id ?%not_elem_of_nil. }
  rewrite Hp in Hnd. apply NoDup_app in Hnd as (Hnd & _ & _).
  cbv zeta. split; [done|]. split; [done|]. split.
  - intros x Hx. rewrite Hp. apply elem_of_app. by left.
  - intros He. assert (lft = []) as ->.
    { apply Permutation_length in Hp. rewrite length_app in Hp. destruct lft; [done|simpl in *; lia]. }
    by rewrite app_nil_r in Hp.
Qed.
End burst.

(** * Witnesses *)

Definition busy_store : StrategyStore :=
  {| store_capacity := None;
     store_utilization := Some (λ id _ _,
       if decide (id = "a"%string) then Some (Qc_of_Z 90)
       else if decide (id = "b"%string) then Some (Qc_of_Z 10) else None);
     store_canResume := true |}.

Definition busy_world : lu_world :=
  {| lastPickedAt := {[ "b"%string := 9000 ]};
     lu_accounts := [demo_row "a" 1; demo_row "b" 1; demo_row "c" 1; demo_row "spare" 5]%string;
     lu_ops := []; lu_routing := None |}.

Lemma least_used_order_witness :
  acc_id <$> (lu_select (Some busy_store) 9100 busy_world).1 = ["c"; "a"; "b"; "spare"]%string ∧
  acc_id <$> lu_peekRanked (Some busy_store) (lastPickedAt busy_world) (lu_accounts busy_world) 9100
    = ["c"; "a"; "b"; "spare"]%string.
Proof.
  pose proof (least_used_order (Some busy_store) 9100 busy_world) as H.
  destruct (lu_select (Some busy_store) 9100 busy_world) as [l w'] eqn:E.
  destruct H as (_ & _ & _ & _ & _ & H).
  { apply (bool_decide_unpack _). vm_compute. exact I. }
  destruct (H busy_store eq_refl eq_refl) as [<- _].
  assert (acc_id <$> l = ["c"; "a"; "b"; "spare"]%string) as Hl; [|split; exact Hl].
  replace l with (lu_select (Some busy_store) 9100 busy_world).1 by by rewrite E.
  vm_compute. reflexivity.
Defined.

Lemma burst_spreads_witness :
  burst (Some busy_store) [10000; 10000; 10250] busy_world = ["c"; "b"; "a"]%string ∧
  NoDup (burst (Some busy_store) [10000; 10000; 10250] busy_world).
Proof.
  split; [vm_compute; reflexivity|].
  assert (∀ t, t ∈ [10000; 10000; 10250] → t = 10000 ∨ t = 10250) as Hts.
  { intros t. rewrite !elem_of_cons, elem_of_nil. intuition. }
  assert (∀ id, id ∈ ["a"; "b"; "c"]%string → id = "a"%string ∨ id = "b"%string ∨ id = "c"%string)
    as Hids.
  { intros id. rewrite !elem_of_cons, elem_of_nil. intuition. }
  assert (∀ a, a ∈ lu_accounts busy_world → ∃ n, n = acc_id a ∧ (a = demo_row "a" 1 ∨ a = demo_row "b" 1 ∨
    a = demo_row "c" 1 ∨ a = demo_row "spare" 5)%string) as Hrows.
  { intros a. simpl. rewrite !elem_of_cons, elem_of_nil. exists (acc_id a). intuition. }
  destruct (burst_spreads (Some busy_store) 10000 1 ["a"; "b"; "c"]%string [10000; 10000; 10250]
    busy_world) as [H _]; [|..|exact H].
  - split.
    + apply (bool_decide_unpack _). vm_compute. exact I.
    + apply (bool_decide_unpack _). vm_compute. exact I.
    + intros t a [->| ->]%Hts (n & _ & [->|[->|[->| ->]]])%Hrows; reflexivity.
    + intros t id Ht Hid. exists (demo_row id 1).
      apply Hids in Hid as [->|[->| ->]]; apply Hts in Ht as [->| ->];
        (split; [simpl; rewrite !elem_of_cons; tauto|done]).
    + intros t a _ (n & _ & [->|[->|[->| ->]]])%Hrows _; split; vm_compute; congruence.
    + intros t a _ (n & _ & [->|[->|[->| ->]]])%Hrows _ Hin; try done; destruct Hin;
        rewrite !elem_of_cons; simpl; tauto.
  - intros t [->| ->]%Hts; unfold RECENT_PICK_WINDOW_MS; lia.
  - done.
  - intros id t [->|[->| ->]]%Hids [->| ->]%Hts; vm_compute; congruence.
  - simpl. lia.
Defined.
