(* ===== verification/Usage.v ===== *)
(** Readings of a subscription's usage: [packages/core/src/usage-normalizer.ts],
    [packages/core/src/scoped-limits.ts], [packages/core/src/weekly-exhaustion.ts] and the
    capacity signal of [packages/providers/src/usage-fetcher.ts].

    A percentage is a rational, absent when the payload's field is not a number; a payload
    comes from JSON, whose numbers are finite. A timestamp field that is present holds the
    instant [Date.parse] makes of it, [None] when it makes none. A reading is taken to have
    the shape of its account's provider, which the code's casts assume. *)

From S2P Require Import Prelude Rationals Models Strategy.
Open Scope Z_scope.

(** * Payloads *)

Record UsageWindowData := {
  utilization : option Qc;
  resets_at : option (option Z)
}.

Record AnthropicLimitEntry := {
  kind : string;
  percent : option Qc;
  limit_resets_at : option (option Z);
  display_name : option string;
  is_active : bool
}.

(** The keys of the two flat windows are told apart from their values, which may be null. *)
Record AnthropicUsageData := {
  five_hour : option (option UsageWindowData);
  seven_day : option (option UsageWindowData);
  seven_day_oauth_apps : option UsageWindowData;
  limits : list AnthropicLimitEntry;
  extra_usage : option Qc
}.

Record ZaiUsageWindow := { percentage : option Qc; resetAt : option Z }.

Record ZaiUsageData := {
  tokens_limit : option ZaiUsageWindow;
  tokens_limit_weekly : option ZaiUsageWindow
}.

Record DevinWindow := { dw_utilization : option Qc; dw_resetAt : option Z }.

Record DevinUsageData := { daily : option DevinWindow; weekly : option DevinWindow }.

Record GrokSubscriptionUsageData := {
  weeklyUtilization : option Qc;
  weeklyResetAt : option Z
}.

Record AlibabaQuotaWindow := { percentUsed : option Qc; aq_resetAt : option Z }.

Record AlibabaCodingPlanUsageData := {
  al_five_hour : AlibabaQuotaWindow;
  al_weekly : AlibabaQuotaWindow;
  al_monthly : AlibabaQuotaWindow
}.

Record MinimaxWindow := {
  mm_utilization : option Qc;
  mm_resetAt : option Z;
  mm_intervalMs : option Z
}.

Record MinimaxUsageData := {
  mm_five_hour : option MinimaxWindow;
  mm_seven_day : option MinimaxWindow
}.

Inductive AnyUsageData : Type :=
  | AnthropicShape (d : AnthropicUsageData)
  | ZaiShape (d : ZaiUsageData)
  | DevinShape (d : DevinUsageData)
  | GrokShape (d : GrokSubscriptionUsageData)
  | AlibabaShape (d : AlibabaCodingPlanUsageData)
  | MinimaxShape (d : MinimaxUsageData)
  | OtherShape.

(** The cast to [AnthropicUsageData], whose fields another shape lacks *)
Definition no_anthropic : AnthropicUsageData :=
  {| five_hour := None; seven_day := None; seven_day_oauth_apps := None; limits := [];
     extra_usage := None |}.

Definition as_anthropic (u : option AnyUsageData) : AnthropicUsageData :=
  match u with Some (AnthropicShape d) => d | _ => no_anthropic end.

(** * Normalizing *)

(** [five_hour] or [seven_day] as a key, or a limit *)
Definition isAnthropicUsageShape (d : AnthropicUsageData) : bool :=
  bool_decide (is_Some (five_hour d)) || bool_decide (is_Some (seven_day d))
  || negb (bool_decide (length (limits d) = 0%nat)).

(** No 5-hour window at all: the key is null and no limit is of that kind. *)
Definition reportsNoSessionWindow (d : AnthropicUsageData) : bool :=
  bool_decide (is_Some (five_hour d)) && negb (bool_decide (is_Some (mjoin (five_hour d))))
  && negb (existsb (λ e, bool_decide (kind e = "session"%string)) (limits d)).

Record window := { util : Qc; resetMs : option Z }.

Definition parseResetMs (resetsAt : option (option Z)) : option Z := mjoin resetsAt.

(** The first entry of a kind with a percentage *)
Definition limit_of_kind (k : string) (l : list AnthropicLimitEntry) : option window :=
  head (omap (λ e, if bool_decide (kind e = k)
                   then (λ p, {| util := p; resetMs := parseResetMs (limit_resets_at e) |})
                          <$> percent e
                   else None) l).

Definition flat_window (w : option UsageWindowData) : option window :=
  w ≫= λ w, (λ u, {| util := u; resetMs := parseResetMs (resets_at w) |}) <$> utilization w.

Definition flat_or_limit (flat : option UsageWindowData) (k : string)
    (l : list AnthropicLimitEntry) : option window :=
  match flat_window flat with
  | Some w => Some w
  | None => limit_of_kind k l
  end.

Definition normalizeSession (data : AnthropicUsageData) : option window :=
  flat_or_limit (mjoin (five_hour data)) "session" (limits data).

Definition normalizeWeeklyAll (data : AnthropicUsageData) : option window :=
  flat_or_limit (mjoin (seven_day data)) "weekly_all" (limits data).

Record ScopedFamilyLimit := {
  sl_family : ModelFamily;
  sl_percent : Qc;
  sl_resetsAtMs : Z;
  sl_isActive : bool;
  sl_displayName : string
}.

Record scoped := {
  readings : list ScopedFamilyLimit;
  present : list ModelFamily;
  idle : list ModelFamily
}.

Definition add_new (f : ModelFamily) (l : list ModelFamily) : list ModelFamily :=
  if bool_decide (f ∈ l) then l else l ++ [f].

(** The loop of [normalizeWeeklyScoped] *)
Definition scoped_entry (nowMs : Z) (s : scoped) (e : AnthropicLimitEntry) : scoped :=
  if negb (bool_decide (kind e = "weekly_scoped"%string)) then s
  else
    let displayName := default ""%string (display_name e) in
    match getModelFamily displayName with
    | None => s
    | Some family =>
        let present' := add_new family (present s) in
        let idle' := if bool_decide (percent e = Some 0%Qc)
                        && bool_decide (limit_resets_at e = None)
                     then add_new family (idle s) else idle s in
        let readings' :=
          match percent e, parseResetMs (limit_resets_at e) with
          | Some p, Some r =>
              if r <=? nowMs then readings s
              else readings s ++ [{| sl_family := family; sl_percent := p; sl_resetsAtMs := r;
                                     sl_isActive := is_active e; sl_displayName := displayName |}]
          | _, _ => readings s
          end in
        {| readings := readings'; present := present'; idle := idle' |}
    end.

Definition normalizeWeeklyScoped (data : AnthropicUsageData) (nowMs : Z) : scoped :=
  foldl (scoped_entry nowMs) {| readings := []; present := []; idle := [] |} (limits data).

Record NormalizedAnthropicUsage := {
  session : option window;
  weeklyAll : option window;
  weeklyScoped : list ScopedFamilyLimit;
  weeklyScopedPresent : list ModelFamily;
  weeklyScopedIdle : list ModelFamily
}.

Definition normalizeAnthropicUsage (data : AnthropicUsageData) (nowMs : Z)
    : NormalizedAnthropicUsage :=
  let s := normalizeWeeklyScoped data nowMs in
  {| session := normalizeSession data; weeklyAll := normalizeWeeklyAll data;
     weeklyScoped := readings s; weeklyScopedPresent := present s; weeklyScopedIdle := idle s |}.

Definition getRepresentativeUtilization (n : NormalizedAnthropicUsage) : option Qc :=
  match session n, weeklyAll n with
  | Some s, Some w => Some (Qc_max (util s) (util w))
  | Some s, None => Some (util s)
  | None, Some w => Some (util w)
  | None, None => None
  end.

(** * Exhaustion *)

Definition FAMILY_WEEKLY_EXHAUSTED_THRESHOLD_PERCENT : Qc := Qc_of_Z 100.

Definition getExhaustedFamilies (data : AnthropicUsageData) (now : Z) : list ScopedFamilyLimit :=
  filter (λ l, FAMILY_WEEKLY_EXHAUSTED_THRESHOLD_PERCENT <= sl_percent l)%Qc
    (weeklyScoped (normalizeAnthropicUsage data now)).

Definition getScopedFamilyLimits (data : AnthropicUsageData) (family : ModelFamily) (now : Z)
    : list ScopedFamilyLimit :=
  filter (λ l, sl_family l = family) (weeklyScoped (normalizeAnthropicUsage data now)).

Definition isFamilyWeeklyExhaustedWithHeadroom (data : AnthropicUsageData)
    (capacity : option CapacitySignal) (family : ModelFamily) (now : Z) : bool :=
  match capacity with
  | None => false
  | Some c =>
      if bool_decide (minHeadroom c <= 0)%Qc then false
      else existsb (λ l, bool_decide (sl_family l = family)) (getExhaustedFamilies data now)
  end.

Definition flatOauthAppsWindow (data : AnthropicUsageData) : option window :=
  flat_window (seven_day_oauth_apps data).

Definition future_reset (now : Z) (w : window) : option Z :=
  r ← resetMs w; if now <? r then Some r else None.

(** A window is spent at 100% with a known future reset. *)
Definition spent (now : Z) (w : window) : option Z :=
  if bool_decide (Qc_of_Z 100 <= util w)%Qc then future_reset now w else None.

Definition max_reset (m : option Z) (r : Z) : option Z :=
  Some (match m with None => r | Some m => Z.max m r end).

(** [exhausted] is whether there is a reset. *)
Definition weeklyExhaustion (data : AnthropicUsageData) (now : Z) : option Z :=
  foldl max_reset None
    (omap (spent now)
       (option_list (weeklyAll (normalizeAnthropicUsage data now))
        ++ option_list (flatOauthAppsWindow data))).

Inductive UsageExhaustionBinding : Type := binding_weekly | binding_session.

Definition accountWideExhaustion (data : AnthropicUsageData) (now : Z)
    (sessionUsage : AnthropicUsageData) : option (UsageExhaustionBinding * Z) :=
  match weeklyExhaustion data now with
  | Some r => Some (binding_weekly, r)
  | None =>
      (λ r, (binding_session, r))
        <$> (session (normalizeAnthropicUsage sessionUsage now) ≫= spent now)
  end.

(** * The capacity signal *)

Definition hundred : Qc := Qc_of_Z 100.

Definition headroom (w : window) : Qc := (hundred - util w)%Qc.

Definition min_reset (m : option Z) (w : window) : option Z :=
  match resetMs w with
  | None => m
  | Some r => Some (match m with None => r | Some m => Z.min m r end)
  end.

(** A window already past its reset: the reading predates it *)
Definition rolled (now : Z) (w : window) : bool :=
  match resetMs w with Some r => r <=? now | None => false end.

(** The reset of the most used windows, the latest when several tie, unknown when one of
    them has none *)
Definition bindingWeeklyReset (ws : list window) : option Z :=
  match ws with
  | [] => None
  | w :: ws' =>
      let maxUtil := foldl (λ m w, Qc_max m (util w)) (util w) ws' in
      mapM resetMs (filter (λ w, util w = maxUtil) ws)
      ≫= λ rs, foldl max_reset None rs
  end.

Definition windowed_capacity (n_session n_weeklyAll oauthWindow : option window)
    (extra : option Qc) (now : Z) : option CapacitySignal :=
  let hard := option_list n_session ++ option_list n_weeklyAll ++ option_list oauthWindow in
  if bool_decide (hard = []) then None
  else if existsb (rolled now) hard then None
  else
    let binding := foldl (λ m w, Qc_max m (util w)) 0%Qc hard in
    let weeklyWindows := option_list n_weeklyAll ++ option_list oauthWindow in
    Some {| minHeadroom := foldl (λ m w, Qc_min m (headroom w)) hundred hard;
            sessionHeadroom := match n_session with Some w => headroom w | None => hundred end;
            soonestResetMs := foldl min_reset None hard;
            bindingUtilization := match extra with Some u => Qc_max binding u | None => binding end;
            weeklyResetMs := foldl min_reset None weeklyWindows;
            bindingWeeklyResetMs := bindingWeeklyReset weeklyWindows;
            weeklyHeadroom := foldl (λ m w, Qc_min m (headroom w)) hundred weeklyWindows;
            sessionResetMs := n_session ≫= resetMs;
            extraUsageUtilization := extra |}.

Definition anthropicCapacity (d : AnthropicUsageData) (now : Z) : option CapacitySignal :=
  let n := normalizeAnthropicUsage d now in
  windowed_capacity (session n) (weeklyAll n) (flatOauthAppsWindow d) (extra_usage d) now.

Definition readZaiWindow (w : option ZaiUsageWindow) : option window :=
  w ≫= λ w, (λ u, {| util := u; resetMs := resetAt w |}) <$> percentage w.

(** [Math.min(...)] and [Math.max(...)] of a list that is not empty *)
Definition min_of {A} (f : A → Qc) (a : A) (l : list A) : Qc :=
  foldl (λ m a, Qc_min m (f a)) (f a) l.
Definition max_of {A} (f : A → Qc) (a : A) (l : list A) : Qc :=
  foldl (λ m a, Qc_max m (f a)) (f a) l.

Definition zaiCapacity (usage : ZaiUsageData) (now : Z) : option CapacitySignal :=
  let s := readZaiWindow (tokens_limit usage) in
  let w := readZaiWindow (tokens_limit_weekly usage) in
  match option_list s ++ option_list w with
  | [] => None
  | h :: hs =>
      if existsb (rolled now) (h :: hs) then None
      else
        Some {| minHeadroom := min_of headroom h hs;
                sessionHeadroom := match s with Some s => headroom s | None => hundred end;
                soonestResetMs := foldl min_reset None (h :: hs);
                bindingUtilization := max_of util h hs;
                weeklyResetMs := w ≫= resetMs;
                bindingWeeklyResetMs := w ≫= resetMs;
                weeklyHeadroom := match w with Some w => headroom w | None => hundred end;
                sessionResetMs := s ≫= resetMs;
                extraUsageUtilization := None |}
  end.

Definition read_devin (w : option DevinWindow) : option window :=
  w ≫= λ w, (λ u, {| util := u; resetMs := dw_resetAt w |}) <$> dw_utilization w.

Definition devinCapacity (usage : DevinUsageData) (now : Z) : option CapacitySignal :=
  let w := read_devin (weekly usage) in
  match option_list (read_devin (daily usage)) ++ option_list w with
  | [] => None
  | h :: hs =>
      if existsb (rolled now) (h :: hs) then None
      else
        let binding := max_of util h hs in
        Some {| minHeadroom := (hundred - binding)%Qc;
                sessionHeadroom := hundred;
                soonestResetMs := foldl min_reset None (h :: hs);
                bindingUtilization := binding;
                weeklyResetMs := w ≫= resetMs;
                bindingWeeklyResetMs := w ≫= resetMs;
                weeklyHeadroom := match w with Some w => headroom w | None => hundred end;
                sessionResetMs := None;
                extraUsageUtilization := None |}
  end.

Definition grokSubscriptionCapacity (usage : GrokSubscriptionUsageData) (now : Z)
    : option CapacitySignal :=
  match weeklyUtilization usage with
  | None => None
  | Some u =>
      let w := {| util := u; resetMs := weeklyResetAt usage |} in
      if rolled now w then None
      else
        Some {| minHeadroom := headroom w; sessionHeadroom := hundred;
                soonestResetMs := resetMs w; bindingUtilization := u;
                weeklyResetMs := resetMs w; bindingWeeklyResetMs := resetMs w;
                weeklyHeadroom := headroom w; sessionResetMs := None;
                extraUsageUtilization := None |}
  end.

Definition getAccountCapacitySignal (data : option AnyUsageData) (provider : string) (now : Z)
    : option CapacitySignal :=
  match data with
  | None => None
  | Some u =>
      if bool_decide (provider = "devin"%string)
      then match u with DevinShape d => devinCapacity d now | _ => None end
      else if bool_decide (provider = "zai"%string)
      then match u with ZaiShape d => zaiCapacity d now | _ => None end
      else if bool_decide (provider = "grok-subscription"%string)
      then match u with GrokShape d => grokSubscriptionCapacity d now | _ => None end
      else if bool_decide (provider = "anthropic"%string)
              || bool_decide (provider = "codex"%string)
      then anthropicCapacity (as_anthropic data) now
      else None
  end.

(** * Resets *)

Lemma foldl_min_reset_spec ws m :
  let r := foldl min_reset m ws in
  (∀ w x, w ∈ ws → resetMs w = Some x → ∃ s, r = Some s ∧ s <= x)
  ∧ (∀ x, m = Some x → ∃ s, r = Some s ∧ s <= x)
  ∧ (∀ s, r = Some s → m = Some s ∨ ∃ w, w ∈ ws ∧ resetMs w = Some s).
Proof.
  cbv zeta. revert m. induction ws as [|w ws IH]; intros m; cbn [foldl].
  { split; [by intros ? ? ?%elem_of_nil|]. split; [|by left]. intros x ->. by exists x. }
  destruct (IH (min_reset m w)) as (Hin & Hm & Hex).
  assert (∀ x, (m = Some x ∨ resetMs w = Some x) → ∃ s, min_reset m w = Some s ∧ s <= x) as Hle.
  { intros x Hx. unfold min_reset. destruct Hx as [-> | ->].
    - destruct (resetMs w); eexists; (split; [done|lia]).
    - destruct m; eexists; (split; [done|lia]). }
  assert (∀ x, (m = Some x ∨ resetMs w = Some x) →
          ∃ s, foldl min_reset (min_reset m w) ws = Some s ∧ s <= x) as Hall.
  { intros x (s & Hs & ?)%Hle. destruct (Hm s Hs) as (t & -> & ?). exists t. split; [done|lia]. }
  split; [|split].
  - intros v x [->|Hv]%elem_of_cons Hx; [apply Hall; by right|by eapply Hin].
  - intros x Hx. apply Hall. by left.
  - intros s [Hs|(v & Hv & Hs)]%Hex; [|right; exists v; split; [by right|done]].
    unfold min_reset in Hs. destruct (resetMs w) as [r|] eqn:Er; [|by left].
    assert (m = Some s ∨ r = s) as [Hms | ->]; [|by left|right; exists w; split; [by left|done]].
    destruct m as [m|]; [|right; congruence]. injection Hs as <-.
    destruct (Z.min_spec m r) as [[_ ->]|[_ ->]]; [by left|by right].
Qed.

Lemma foldl_max_reset_spec rs m s :
  foldl max_reset m rs = Some s →
  (m = Some s ∨ s ∈ rs) ∧ (∀ x, x ∈ rs → x <= s) ∧ (∀ x, m = Some x → x <= s).
Proof.
  revert m. induction rs as [|r rs IH]; intros m; cbn [foldl].
  { intros ->. split; [by left|]. split; [by intros ? ?%elem_of_nil|intros ? [= <-]; lia]. }
  intros (Hor & Hin & Hm)%IH. clear IH. unfold max_reset in *.
  specialize (Hm _ eq_refl). split; [|split].
  - destruct Hor as [[= Hs]|]; [|right; by right].
    destruct m as [m|]; [|right; apply elem_of_cons; left; congruence].
    destruct (Z.max_spec m r) as [[_ Hr]|[_ Hr]]; rewrite Hr in Hs; subst;
      [right; by left|by left].
  - intros x [->|Hx]%elem_of_cons; [destruct m; lia|by apply Hin].
  - intros x ->. lia.
Qed.

Lemma foldl_max_reset_None rs m : foldl max_reset m rs = None ↔ m = None ∧ rs = [].
Proof.
  revert m. induction rs as [|r rs IH]; intros m; cbn [foldl]; [tauto|].
  rewrite IH. unfold max_reset. split; [intros [[=] _]|intros [_ [=]]].
Qed.

Lemma rolled_false now w :
  rolled now w = false ↔ ∀ r, resetMs w = Some r → now < r.
Proof.
  unfold rolled. destruct (resetMs w) as [r|]; [|split; [intros _ ? [=]|done]].
  rewrite Z.leb_gt. split; [intros ? ? [= <-]|]; eauto.
Qed.

Lemma not_rolled now ws w r :
  existsb (rolled now) ws = false → w ∈ ws → resetMs w = Some r → now < r.
Proof.
  intros Hws Hw. apply rolled_false. apply not_true_iff_false. intros Hr.
  apply not_true_iff_false in Hws. apply Hws, existsb_exists. exists w.
  split; [by apply list_elem_of_In|done].
Qed.

Lemma elem_of_option_list {A} (x : A) (o : option A) : x ∈ option_list o ↔ o = Some x.
Proof.
  destruct o; cbn; [rewrite list_elem_of_singleton|rewrite elem_of_nil]; split; try congruence; done.
Qed.

Lemma foldl_min_reset_future now ws s :
  existsb (rolled now) ws = false → foldl min_reset None ws = Some s → now < s.
Proof.
  intros Hws Hs. destruct (foldl_min_reset_spec ws None) as (_ & _ & Hex).
  destruct (Hex s Hs) as [[=]|(w & Hw & Hr)]. by eapply not_rolled.
Qed.

(** The binding reset is one of a most used window. *)
Lemma bindingWeeklyReset_in ws b :
  bindingWeeklyReset ws = Some b →
  ∃ w, w ∈ ws ∧ resetMs w = Some b ∧ ∀ v, v ∈ ws → (util v <= util w)%Qc.
Proof.
  destruct ws as [|w ws]; [done|]. cbn [bindingWeeklyReset].
  destruct (foldl_max_head util w ws) as (Hmax & _).
  set (u := foldl _ _ ws) in *. clearbody u. intros Hb.
  apply bind_Some in Hb as (rs & Hrs & Hb).
  apply foldl_max_reset_spec in Hb as ([[=]|Hin] & _).
  apply mapM_Some in Hrs. apply list_elem_of_lookup in Hin as (i & Hi).
  destruct (Forall2_lookup_r _ _ _ _ _ Hrs Hi) as (v & Hv & Hr).
  apply list_elem_of_lookup_2, list_elem_of_filter in Hv as [Hu Hv].
  exists v. split_and!; [done|done|]. by rewrite Hu.
Qed.

(** * What a capacity signal promises *)

Record signal_ok (now : Z) (c : CapacitySignal) : Prop := {
  session_axis : sessionHeadroom c = hundred ∨ (minHeadroom c <= sessionHeadroom c)%Qc;
  weekly_axis : weeklyHeadroom c = hundred ∨ (minHeadroom c <= weeklyHeadroom c)%Qc;
  binding_axis : (hundred - minHeadroom c <= bindingUtilization c)%Qc;
  soonest_future : ∀ s, soonestResetMs c = Some s → now < s;
  soonest_first : ∀ r,
    r ∈ option_list (weeklyResetMs c) ++ option_list (bindingWeeklyResetMs c)
        ++ option_list (sessionResetMs c) →
    ∃ s, soonestResetMs c = Some s ∧ s <= r;
  weekly_before_binding : ∀ b, bindingWeeklyResetMs c = Some b →
    ∃ r, weeklyResetMs c = Some r ∧ r <= b
}.

(** The axes of a signal read off its windows *)
Lemma signal_ok_of now c hard :
  existsb (rolled now) hard = false →
  soonestResetMs c = foldl min_reset None hard →
  (∀ w, w ∈ hard → (minHeadroom c <= headroom w)%Qc) →
  (∃ u, minHeadroom c = (hundred - u)%Qc ∧ (u <= bindingUtilization c)%Qc) →
  (sessionHeadroom c = hundred ∨ ∃ w, w ∈ hard ∧ sessionHeadroom c = headroom w) →
  (weeklyHeadroom c = hundred ∨ ∃ w, w ∈ hard ∧ weeklyHeadroom c = headroom w) →
  (∀ r, r ∈ option_list (weeklyResetMs c) ++ option_list (bindingWeeklyResetMs c)
            ++ option_list (sessionResetMs c) →
   ∃ w, w ∈ hard ∧ resetMs w = Some r) →
  (∀ b, bindingWeeklyResetMs c = Some b → ∃ r, weeklyResetMs c = Some r ∧ r <= b) →
  signal_ok now c.
Proof.
  intros Hfresh Hsoon Hmin (u & Hu & Hbind) Hses Hwk Hresets Hwb. split.
  - destruct Hses as [?|(w & Hw & ->)]; [by left|right; by apply Hmin].
  - destruct Hwk as [?|(w & Hw & ->)]; [by left|right; by apply Hmin].
  - rewrite Hu. by replace (hundred - (hundred - u))%Qc with u by ring.
  - intros s. rewrite Hsoon. by apply foldl_min_reset_future.
  - intros r (w & Hw & Hr)%Hresets. rewrite Hsoon.
    destruct (foldl_min_reset_spec hard None) as (Hin & _). by eapply Hin.
  - exact Hwb.
Qed.

Lemma windowed_capacity_ok s w o extra now c :
  windowed_capacity s w o extra now = Some c → signal_ok now c.
Proof.
  unfold windowed_capacity. cbv zeta.
  set (hard := option_list s ++ option_list w ++ option_list o).
  set (wk := option_list w ++ option_list o).
  destruct (bool_decide (hard = [])); [done|].
  destruct (existsb (rolled now) hard) eqn:Hfresh; [done|]. intros [= <-].
  destruct (foldl_min_spec headroom hard hundred) as (_ & Hmin & Hminor).
  destruct (foldl_min_spec headroom wk hundred) as (_ & _ & Hwkor).
  destruct (foldl_max_spec util hard 0%Qc) as (Hb0 & Hbin & _).
  destruct (foldl_min_reset_spec wk None) as (Hwkle & _ & Hwkex).
  assert (∀ v, v ∈ wk → v ∈ hard) as Hsub by (intros v; unfold hard; set_solver).
  apply (signal_ok_of _ _ hard); cbn [minHeadroom sessionHeadroom soonestResetMs
    bindingUtilization weeklyResetMs bindingWeeklyResetMs weeklyHeadroom sessionResetMs]; try done.
  - assert (∀ x, (x <= foldl (λ m w, Qc_max m (util w)) 0 hard)%Qc →
      (x <= match extra with
            | Some u => Qc_max (foldl (λ m w, Qc_max m (util w)) 0%Qc hard) u
            | None => foldl (λ m w, Qc_max m (util w)) 0%Qc hard end)%Qc) as Hext.
    { intros x Hx. destruct extra; [|done]. eapply Qcle_trans; [done|apply Qc_max_le_l]. }
    destruct Hminor as [->|(v & Hv & ->)].
    + exists 0%Qc. split; [ring|by apply Hext].
    + exists (util v). split; [done|by apply Hext, Hbin].
  - destruct s as [v|]; [right; exists v; split; [|done]|by left].
    unfold hard. cbn. by left.
  - destruct Hwkor as [->|(v & Hv & ->)]; [by left|right; exists v; auto].
  - intros r. rewrite !elem_of_app, !elem_of_option_list. intros [Hr|[Hr|Hr]].
    + destruct (Hwkex r Hr) as [[=]|(v & Hv & ?)]. exists v. auto.
    + apply bindingWeeklyReset_in in Hr as (v & Hv & ? & _). exists v. auto.
    + destruct s as [v|]; [|done]. exists v. split; [unfold hard; cbn; by left|done].
  - intros b (v & Hv & Hr & _)%bindingWeeklyReset_in. by eapply Hwkle.
Qed.

(** Zai and Devin: at most one session or daily window [s] and one weekly window [w] *)
Lemma two_windows_ok now c (s w : option window) h hs :
  option_list s ++ option_list w = h :: hs →
  existsb (rolled now) (h :: hs) = false →
  soonestResetMs c = foldl min_reset None (h :: hs) →
  minHeadroom c = (hundred - max_of util h hs)%Qc →
  bindingUtilization c = max_of util h hs →
  (sessionHeadroom c = hundred ∨ ∃ v, s = Some v ∧ sessionHeadroom c = headroom v) →
  weeklyHeadroom c = match w with Some w => headroom w | None => hundred end →
  weeklyResetMs c = (w ≫= resetMs) →
  bindingWeeklyResetMs c = (w ≫= resetMs) →
  (sessionResetMs c = None ∨ sessionResetMs c = (s ≫= resetMs)) →
  signal_ok now c.
Proof.
  intros Hhard Hfresh Hsoon Hmin Hbind Hses Hwk Hwr Hbr Hsr.
  assert (∀ v, v ∈ h :: hs ↔ s = Some v ∨ w = Some v) as Hin.
  { intros v. by rewrite <-Hhard, elem_of_app, !elem_of_option_list. }
  destruct (foldl_max_head util h hs) as (Hmax & _).
  apply (signal_ok_of _ _ (h :: hs)); [done|done| | | | | |].
  - intros v Hv. rewrite Hmin. by apply Qc_sub_le_anti, Hmax.
  - exists (max_of util h hs). rewrite Hbind. split; [done|apply Qcle_refl].
  - destruct Hses as [?|(v & Hv & ?)]; [by left|right; exists v; split; [apply Hin; by left|done]].
  - rewrite Hwk. destruct w as [v|]; [right; exists v; split; [apply Hin; by right|done]|by left].
  - intros r. rewrite Hwr, Hbr, !elem_of_app, !elem_of_option_list.
    assert (∀ o, (o = s ∨ o = w) → o ≫= resetMs = Some r → ∃ v, v ∈ h :: hs ∧ resetMs v = Some r)
      as Hreset.
    { intros o Ho (v & Hv & ?)%bind_Some. exists v. split; [|done]. apply Hin.
      destruct Ho as [-> | ->]; auto. }
    intros [?|[?|Hs]]; [eauto..|]. destruct Hsr as [Hsr|Hsr]; rewrite Hsr in Hs; [done|eauto].
  - intros b Hb. exists b. split; [congruence|lia].
Qed.

Lemma min_headroom h hs : min_of headroom h hs = (hundred - max_of util h hs)%Qc.
Proof.
  destruct (foldl_min_head headroom h hs) as (Hmin & v & Hv & Hveq).
  destruct (foldl_max_head util h hs) as (Hmax & u & Hu & Hueq).
  unfold min_of, max_of. rewrite Hueq. apply Qcle_antisym.
  - change (hundred - util u)%Qc with (headroom u). by apply Hmin.
  - rewrite Hveq. unfold headroom. apply Qc_sub_le_anti. rewrite <-Hueq. by apply Hmax.
Qed.

Lemma zaiCapacity_ok d now c : zaiCapacity d now = Some c → signal_ok now c.
Proof.
  unfold zaiCapacity. cbv zeta. destruct (_ ++ _) as [|h hs] eqn:Hhard; [done|].
  destruct (existsb _ _) eqn:Hfresh; [done|]. intros [= <-].
  eapply two_windows_ok; [done|done|..]; cbn; try done.
  - apply min_headroom.
  - destruct (readZaiWindow (tokens_limit d)) as [v|]; [right; by exists v|by left].
  - by right.
Qed.

Lemma devinCapacity_ok d now c : devinCapacity d now = Some c → signal_ok now c.
Proof.
  unfold devinCapacity. cbv zeta. destruct (_ ++ _) as [|h hs] eqn:Hhard; [done|].
  destruct (existsb _ _) eqn:Hfresh; [done|]. intros [= <-].
  eapply two_windows_ok; [done|done|..]; cbn; auto.
Qed.

Lemma grokSubscriptionCapacity_ok d now c :
  grokSubscriptionCapacity d now = Some c → signal_ok now c.
Proof.
  unfold grokSubscriptionCapacity. destruct (weeklyUtilization d) as [u|]; [|done]. cbv zeta.
  set (w := {| util := u; resetMs := weeklyResetAt d |}).
  destruct (rolled now w) eqn:Hfresh; [done|]. intros [= <-].
  apply (two_windows_ok now _ None (Some w) w []); cbn; auto.
  - by rewrite Hfresh.
  - unfold min_reset. cbn. by destruct (weeklyResetAt d).
Qed.

Lemma getAccountCapacitySignal_ok data provider now c :
  getAccountCapacitySignal data provider now = Some c → signal_ok now c.
Proof.
  unfold getAccountCapacitySignal. destruct data as [u|]; [|done].
  destruct (bool_decide (provider = "devin"%string));
    [destruct u; try done; apply devinCapacity_ok|].
  destruct (bool_decide (provider = "zai"%string));
    [destruct u; try done; apply zaiCapacity_ok|].
  destruct (bool_decide (provider = "grok-subscription"%string));
    [destruct u; try done; apply grokSubscriptionCapacity_ok|].
  destruct (_ || _); [|done]. apply windowed_capacity_ok.
Qed.

(** The capacity signal. Whatever the provider, the least headroom of a signal bounds
    its session and weekly headroom (or that axis is unconstrained), the binding
    utilization covers the least headroom, every reset lies in the future with the soonest
    one first, and the reset of the binding weekly window is not before the first weekly
    reset. *)
Theorem capacity_signal_sound data provider now c :
  getAccountCapacitySignal data provider now = Some c → signal_ok now c.
Proof. apply getAccountCapacitySignal_ok. Qed.

(** * Scoped windows *)

Lemma elem_of_add_new f g l : f ∈ add_new g l ↔ f = g ∨ f ∈ l.
Proof.
  unfold add_new. destruct (bool_decide _) eqn:E; prop_bools; [|set_solver].
  split; [by right|by intros [->|?]].
Qed.

(** The family an entry is about *)
Definition scoped_to (e : AnthropicLimitEntry) : option ModelFamily :=
  if bool_decide (kind e = "weekly_scoped"%string)
  then getModelFamily (default ""%string (display_name e)) else None.

Definition idle_entry (e : AnthropicLimitEntry) : Prop :=
  percent e = Some 0%Qc ∧ limit_resets_at e = None.

(** The reading an entry gives *)
Definition reading_of (nowMs : Z) (e : AnthropicLimitEntry) (x : ScopedFamilyLimit) : Prop :=
  scoped_to e = Some (sl_family x) ∧ percent e = Some (sl_percent x)
  ∧ parseResetMs (limit_resets_at e) = Some (sl_resetsAtMs x) ∧ nowMs < sl_resetsAtMs x
  ∧ is_active e = sl_isActive x ∧ default ""%string (display_name e) = sl_displayName x.

Lemma scoped_entry_spec nowMs s e :
  let r := scoped_entry nowMs s e in
  (∀ f, f ∈ present r ↔ f ∈ present s ∨ scoped_to e = Some f)
  ∧ (∀ f, f ∈ idle r ↔ f ∈ idle s ∨ (scoped_to e = Some f ∧ idle_entry e))
  ∧ (∀ x, x ∈ readings r ↔ x ∈ readings s ∨ reading_of nowMs e x).
Proof.
  cbv zeta. unfold scoped_entry, reading_of, scoped_to, idle_entry.
  destruct (bool_decide (kind e = _)); cbn [negb]; [|split_and!; intros ?; intuition congruence].
  cbv zeta. set (dn := default ""%string (display_name e)).
  destruct (getModelFamily dn) as [g|]; [|split_and!; intros ?; intuition congruence].
  cbn [present idle readings]. split_and!.
  - intros f. rewrite elem_of_add_new. split; [intros [->|?]|intros [?|[= ->]]]; auto.
  - intros f. destruct (_ && _) eqn:E.
    + rewrite andb_true_iff, !bool_decide_eq_true in E. rewrite elem_of_add_new.
      split; [intros [->|?]|intros [?|[[= ->] _]]]; auto.
    + rewrite andb_false_iff, !bool_decide_eq_false in E. split; [by left|]. intuition.
  - intros x. destruct (percent e) as [p|]; [|intuition congruence].
    destruct (parseResetMs _) as [r|]; [|intuition congruence].
    destruct (r <=? nowMs) eqn:E; prop_bools.
    + split; [by left|]. intros [?|(_ & _ & [= ->] & ? & _)]; [done|lia].
    + rewrite elem_of_app, list_elem_of_singleton. split.
      * intros [?| ->]; [by left|right]. cbn. split_and!; done || lia.
      * intros [?|([= ->] & [= ->] & [= ->] & _ & -> & ->)]; [by left|right]. by destruct x.
Qed.

Lemma normalizeWeeklyScoped_spec nowMs l s :
  let r := foldl (scoped_entry nowMs) s l in
  (∀ f, f ∈ present r ↔ f ∈ present s ∨ ∃ e, e ∈ l ∧ scoped_to e = Some f)
  ∧ (∀ f, f ∈ idle r ↔ f ∈ idle s ∨ ∃ e, e ∈ l ∧ scoped_to e = Some f ∧ idle_entry e)
  ∧ (∀ x, x ∈ readings r ↔ x ∈ readings s ∨ ∃ e, e ∈ l ∧ reading_of nowMs e x).
Proof.
  cbv zeta. revert s. induction l as [|e l IH]; intros s; cbn [foldl].
  { split_and!; intros x; (split; [by left|intros [?|(? & []%elem_of_nil & _)]; done]). }
  destruct (IH (scoped_entry nowMs s e)) as (IHp & IHi & IHr).
  destruct (scoped_entry_spec nowMs s e) as (Hp & Hi & Hr).
  assert (∀ P : AnthropicLimitEntry → Prop,
    (∃ v, v ∈ e :: l ∧ P v) ↔ P e ∨ ∃ v, v ∈ l ∧ P v) as Hcons.
  { intros P. split.
    - intros (v & [->|Hv]%elem_of_cons & HP); [by left|right; eauto].
    - intros [HP|(v & Hv & HP)]; [exists e; split; [by left|done]|].
      exists v. split; [by right|done]. }
  split_and!; intros x; rewrite Hcons.
  - rewrite IHp, Hp. tauto.
  - rewrite IHi, Hi. tauto.
  - rewrite IHr, Hr. tauto.
Qed.

Lemma elem_of_weeklyScoped data nowMs x :
  x ∈ weeklyScoped (normalizeAnthropicUsage data nowMs)
  ↔ ∃ e, e ∈ limits data ∧ reading_of nowMs e x.
Proof.
  cbn [normalizeAnthropicUsage weeklyScoped]. unfold normalizeWeeklyScoped.
  destruct (normalizeWeeklyScoped_spec nowMs (limits data)
              {| readings := []; present := []; idle := [] |}) as (_ & _ & Hr).
  rewrite Hr. cbn. rewrite elem_of_nil. tauto.
Qed.

Lemma elem_of_exhausted data now x :
  x ∈ getExhaustedFamilies data now
  ↔ (hundred <= sl_percent x)%Qc ∧ ∃ e, e ∈ limits data ∧ reading_of now e x.
Proof. unfold getExhaustedFamilies. by rewrite list_elem_of_filter, elem_of_weeklyScoped. Qed.

Lemma exhausted_family_iff data now f :
  existsb (λ l, bool_decide (sl_family l = f)) (getExhaustedFamilies data now) = true
  ↔ ∃ e x, e ∈ limits data ∧ reading_of now e x ∧ sl_family x = f ∧ (hundred <= sl_percent x)%Qc.
Proof.
  rewrite existsb_exists. split.
  - intros (x & [Hpc (e & He & Hx)]%list_elem_of_In%elem_of_exhausted & Hf%bool_decide_eq_true).
    by exists e, x.
  - intros (e & x & He & Hx & Hf & Hpc). exists x. split; [|by apply bool_decide_eq_true].
    apply list_elem_of_In, elem_of_exhausted. eauto.
Qed.

Lemma family_exhausted_iff data c f now :
  isFamilyWeeklyExhaustedWithHeadroom data (Some c) f now = true
  ↔ (0 < minHeadroom c)%Qc
    ∧ ∃ e x, e ∈ limits data ∧ reading_of now e x ∧ sl_family x = f
             ∧ (hundred <= sl_percent x)%Qc.
Proof.
  unfold isFamilyWeeklyExhaustedWithHeadroom.
  destruct (bool_decide (minHeadroom c <= 0)%Qc) eqn:E; prop_bools.
  - split; [done|]. by intros [Hlt%Qclt_not_le _].
  - apply Qcnot_le_lt in E. rewrite exhausted_family_iff. tauto.
Qed.

(** The scoped weekly windows of a payload. A family is present exactly when an entry of
    the scoped kind names it, idle exactly when such an entry shows nothing spent and no
    reset, and the readings are exactly the entries that name a family, have a percentage
    and reset in the future; a family counts as exhausted on such a reading of 100% or
    more only. *)
Theorem scoped_windows_exact data nowMs :
  let n := normalizeAnthropicUsage data nowMs in
  (∀ f, f ∈ weeklyScopedPresent n ↔ ∃ e, e ∈ limits data ∧ scoped_to e = Some f)
  ∧ (∀ f, f ∈ weeklyScopedIdle n ↔ ∃ e, e ∈ limits data ∧ scoped_to e = Some f ∧ idle_entry e)
  ∧ (∀ x, x ∈ weeklyScoped n ↔ ∃ e, e ∈ limits data ∧ reading_of nowMs e x)
  ∧ (∀ c f, isFamilyWeeklyExhaustedWithHeadroom data (Some c) f nowMs = true
            ↔ (0 < minHeadroom c)%Qc
              ∧ ∃ e x, e ∈ limits data ∧ reading_of nowMs e x ∧ sl_family x = f
                       ∧ (hundred <= sl_percent x)%Qc).
Proof.
  cbv zeta. destruct (normalizeWeeklyScoped_spec nowMs (limits data)
              {| readings := []; present := []; idle := [] |}) as (Hp & Hi & _).
  split_and!; intros x.
  - cbn. unfold normalizeWeeklyScoped. rewrite Hp. cbn. rewrite elem_of_nil. tauto.
  - cbn. unfold normalizeWeeklyScoped. rewrite Hi. cbn. rewrite elem_of_nil. tauto.
  - apply elem_of_weeklyScoped.
  - intros f. apply family_exhausted_iff.
Qed.

(** * Exhaustion and the capacity signal *)

Lemma spent_Some now w r :
  spent now w = Some r ↔ (hundred <= util w)%Qc ∧ resetMs w = Some r ∧ now < r.
Proof.
  unfold spent, future_reset, hundred. destruct (bool_decide _) eqn:E; prop_bools.
  - destruct (resetMs w) as [x|]; cbn [mbind option_bind]; [|naive_solver].
    destruct (now <? x) eqn:E'; prop_bools; [naive_solver|].
    split; [done|]. intros (_ & [= ->] & ?). lia.
  - naive_solver.
Qed.

Definition hard_windows (d : AnthropicUsageData) (now : Z) : list window :=
  let n := normalizeAnthropicUsage d now in
  option_list (session n) ++ option_list (weeklyAll n) ++ option_list (flatOauthAppsWindow d).

Lemma headroom_spent w : (hundred <= util w)%Qc ↔ (headroom w <= 0)%Qc.
Proof.
  unfold headroom, Qcminus. by rewrite (Qcplus_le_mono_r hundred (util w) (- util w)), Qcplus_opp_r.
Qed.

Section exhaustion.
Context (now : Z) (s w o : option window) (extra : option Qc) (c : CapacitySignal).
Context (Hc : windowed_capacity s w o extra now = Some c).
Let hard := option_list s ++ option_list w ++ option_list o.
Let wk := option_list w ++ option_list o.

Lemma windowed_fields :
  existsb (rolled now) hard = false
  ∧ minHeadroom c = foldl (λ m w, Qc_min m (headroom w)) hundred hard
  ∧ weeklyHeadroom c = foldl (λ m w, Qc_min m (headroom w)) hundred wk
  ∧ bindingWeeklyResetMs c = bindingWeeklyReset wk
  ∧ sessionHeadroom c = match s with Some w => headroom w | None => hundred end
  ∧ sessionResetMs c = (s ≫= resetMs).
Proof using Hc.
  revert Hc. unfold windowed_capacity. cbv zeta. fold hard wk.
  destruct (bool_decide (hard = [])); [done|].
  destruct (existsb (rolled now) hard) eqn:Hfresh; [done|]. by intros [= <-].
Qed.

(** A spent weekly window *)
Lemma weekly_spent r :
  foldl max_reset None (omap (spent now) wk) = Some r →
  now < r ∧ (minHeadroom c <= 0)%Qc ∧ (weeklyHeadroom c <= 0)%Qc
  ∧ ∀ x, bindingWeeklyResetMs c = Some x → x <= r.
Proof using Hc.
  destruct windowed_fields as (Hfresh & -> & -> & -> & _).
  intros ([[=]|Hr] & Hmax & _)%foldl_max_reset_spec.
  apply list_elem_of_omap in Hr as (v & Hv & (Hu & Hreset & Hnow)%spent_Some).
  assert (∀ u, u ∈ wk → u ∈ hard) as Hsub by (intros u; unfold hard; set_solver).
  destruct (foldl_min_spec headroom hard hundred) as (_ & Hmin & _).
  destruct (foldl_min_spec headroom wk hundred) as (_ & Hwk & _).
  apply headroom_spent in Hu as Hh.
  split; [done|]. split; [eapply Qcle_trans; [|done]; auto|].
  split; [eapply Qcle_trans; [|done]; auto|].
  intros x (b & Hb & Hx & Hmost)%bindingWeeklyReset_in. apply Hmax, list_elem_of_omap.
  exists b. split; [done|]. apply spent_Some. split; [|split; [done|]].
  - eapply Qcle_trans; [exact Hu|by apply Hmost].
  - eapply not_rolled; eauto.
Qed.

(** Nothing spent although an axis has no headroom: a reset is missing. *)
Lemma none_spent :
  (∀ v, v ∈ hard → spent now v = None) →
  (0 < minHeadroom c)%Qc ∨ ∃ v, v ∈ hard ∧ (hundred <= util v)%Qc ∧ resetMs v = None.
Proof using Hc.
  destruct windowed_fields as (Hfresh & -> & _). intros Hnone.
  destruct (foldl_min_spec headroom hard hundred) as (_ & _ & [->|(v & Hv & ->)]); [by left|].
  destruct (decide (0 < headroom v)%Qc) as [?|Hle%Qcnot_lt_le]; [by left|right].
  apply headroom_spent in Hle. exists v. split_and!; [done|done|].
  destruct (resetMs v) as [r|] eqn:Hr; [|done]. exfalso.
  specialize (Hnone v Hv). assert (spent now v = Some r) as ?; [|congruence].
  apply spent_Some. split_and!; [done|done|]. eapply not_rolled; eauto.
Qed.
End exhaustion.

(** Exhaustion and capacity agree. An account whose account-wide windows are found
    exhausted has no headroom left in its capacity signal, on the axis that binds, until the
    reset reported, which lies in the future and not before that of the binding weekly
    window; one not found exhausted has headroom, unless a window at 100% has no known
    reset. *)
Theorem exhaustion_agrees data now c :
  getAccountCapacitySignal (Some (AnthropicShape data)) "anthropic" now = Some c →
  match accountWideExhaustion data now data with
  | Some (b, r) =>
      now < r ∧ (minHeadroom c <= 0)%Qc
      ∧ match b with
        | binding_weekly => (weeklyHeadroom c <= 0)%Qc
                            ∧ ∀ x, bindingWeeklyResetMs c = Some x → x <= r
        | binding_session => (sessionHeadroom c <= 0)%Qc ∧ sessionResetMs c = Some r
        end
  | None =>
      (0 < minHeadroom c)%Qc
      ∨ ∃ w, w ∈ hard_windows data now ∧ (hundred <= util w)%Qc ∧ resetMs w = None
  end.
Proof.
  unfold getAccountCapacitySignal. cbn -[anthropicCapacity accountWideExhaustion].
  unfold anthropicCapacity. intros Hc.
  unfold accountWideExhaustion, weeklyExhaustion, hard_windows.
  set (n := normalizeAnthropicUsage data now) in *.
  destruct (foldl max_reset None _) as [r|] eqn:Hweekly.
  { destruct (weekly_spent _ _ _ _ _ _ Hc r Hweekly) as (? & ? & ? & ?). auto. }
  apply foldl_max_reset_None in Hweekly as [_ Hweekly].
  destruct (windowed_fields _ _ _ _ _ _ Hc) as (_ & Hmin & _ & _ & Hses & Hreset).
  destruct (session n ≫= spent now) as [r|] eqn:Hspent; cbn [fmap option_fmap option_map].
  - apply bind_Some in Hspent as (v & Hv & (Hu & Hr & Hnow)%spent_Some).
    apply headroom_spent in Hu. rewrite Hses, Hreset, Hv. cbn. split_and!; [done| |done..].
    rewrite Hmin, Hv. destruct (foldl_min_spec headroom
      (option_list (Some v) ++ option_list (weeklyAll n) ++ option_list (flatOauthAppsWindow data))
      hundred) as (_ & Hle & _).
    eapply Qcle_trans; [apply Hle|done]. by left.
  - eapply none_spent; [exact Hc|]. intros v. rewrite elem_of_app. intros [Hv|Hv].
    + apply elem_of_option_list in Hv. rewrite Hv in Hspent. exact Hspent.
    + destruct (spent now v) as [r|] eqn:Hr; [|done]. exfalso.
      apply (not_elem_of_nil r). rewrite <-Hweekly. apply list_elem_of_omap. by exists v.
Qed.

(** * Examples *)

Definition demo_usage : AnthropicUsageData :=
  {| five_hour := Some (Some {| utilization := Some (Qc_of_Z 20);
                            resets_at := Some (Some 1000) |});
     seven_day := Some (Some {| utilization := Some (Qc_of_Z 100);
                            resets_at := Some (Some 5000) |});
     seven_day_oauth_apps := None;
     limits := [ {| kind := "weekly_scoped"; percent := Some (Qc_of_Z 100);
                    limit_resets_at := Some (Some 5000); display_name := Some "Claude Opus"%string;
                    is_active := true |};
                 {| kind := "weekly_scoped"; percent := Some 0%Qc;
                    limit_resets_at := None; display_name := Some "Fable"%string;
                    is_active := false |} ];
     extra_usage := None |}.

Definition demo_capacity : CapacitySignal :=
  {| minHeadroom := 0%Qc; sessionHeadroom := Qc_of_Z 80; soonestResetMs := Some 1000;
     bindingUtilization := Qc_of_Z 100; weeklyResetMs := Some 5000;
     bindingWeeklyResetMs := Some 5000; weeklyHeadroom := 0%Qc; sessionResetMs := Some 1000;
     extraUsageUtilization := None |}.

Lemma demo_capacity_eq :
  getAccountCapacitySignal (Some (AnthropicShape demo_usage)) "anthropic" 10 = Some demo_capacity.
Proof.
  change (getAccountCapacitySignal _ _ _) with (anthropicCapacity demo_usage 10).
  unfold anthropicCapacity, windowed_capacity, demo_capacity. cbv zeta.
  rewrite bool_decide_eq_false_2 by done. f_equal. f_equal; try reflexivity;
    apply Qc_is_canon; reflexivity.
Qed.

Example demo_exhausted :
  accountWideExhaustion demo_usage 10 demo_usage = Some (binding_weekly, 5000).
Proof. reflexivity. Qed.

Lemma capacity_signal_sound_witness : signal_ok 10 demo_capacity.
Proof. exact (capacity_signal_sound _ _ _ _ demo_capacity_eq). Defined.

Lemma exhaustion_agrees_witness :
  10 < 5000 ∧ (minHeadroom demo_capacity <= 0)%Qc
  ∧ (weeklyHeadroom demo_capacity <= 0)%Qc
  ∧ ∀ x, bindingWeeklyResetMs demo_capacity = Some x → x <= 5000.
Proof.
  pose proof (exhaustion_agrees demo_usage 10 demo_capacity demo_capacity_eq) as H.
  rewrite demo_exhausted in H. exact H.
Defined.
