(* ===== verification/Pacing.v ===== *)
(** Pacing: when an even burn catches up with a usage window
    ([packages/core/src/throttle-utils.ts]) and the throttle of an account
    ([packages/proxy/src/handlers/usage-throttling.ts]).

    Instants are integers, utilizations and the instants interpolated from them rationals.
    A monthly window is taken to reset after the year 100,
    below which [Date.UTC] adds 1900 to a year. *)

From S2P Require Import Prelude Rationals Usage.
Open Scope Z_scope.

(** * Windows *)

Definition HOUR_MS : Z := 60 * 60 * 1000.
Definition DAY_MS : Z := 24 * HOUR_MS.

Definition FIXED_WINDOW_DURATION_MS (window : string) : option Z :=
  if bool_decide (window = "five_hour"%string) then Some (5 * HOUR_MS)
  else if bool_decide (window = "seven_day"%string) then Some (7 * DAY_MS)
  else if bool_decide (window = "seven_day_opus"%string) then Some (7 * DAY_MS)
  else if bool_decide (window = "seven_day_sonnet"%string) then Some (7 * DAY_MS)
  else if bool_decide (window = "seven_day_scoped"%string) then Some (7 * DAY_MS)
  else if bool_decide (window = "weekly"%string) then Some (7 * DAY_MS)
  else if bool_decide (window = "daily"%string) then Some (24 * HOUR_MS)
  else if bool_decide (window = "tokens_limit"%string) then Some (5 * HOUR_MS)
  else if bool_decide (window = "tokens_limit_weekly"%string) then Some (7 * DAY_MS)
  else None.

Definition windowResetsOnCalendar (window : option string) : bool :=
  bool_decide (window = Some "daily"%string).

Definition isWeeklyPacedWindow (window : string) : bool :=
  bool_decide (window = "tokens_limit_weekly"%string)
  || bool_decide (window = "seven_day"%string)
  || bool_decide (window = "weekly"%string)
  || bool_decide (window = "monthly"%string).

(** ** The calendar of [Date]

    The number of the day a year begins on, the year and the month (from 0) of a day:
    [DayFromYear], [YearFromTime] and [MonthFromTime] of ECMAScript. *)

Definition day_from_year (y : Z) : Z :=
  365 * (y - 1970) + (y - 1969) / 4 - (y - 1901) / 100 + (y - 1601) / 400.

Definition leap_year (y : Z) : bool :=
  (y mod 4 =? 0) && (negb (y mod 100 =? 0) || (y mod 400 =? 0)).

Definition days_in_year (y : Z) : Z := if leap_year y then 366 else 365.

(** The estimate from the mean length of a year is off by one at most. *)
Definition year_from_day (d : Z) : Z :=
  let y := 1970 + d * 400 / 146097 in
  if d <? day_from_year y then y - 1
  else if day_from_year (y + 1) <=? d then y + 1
  else y.

(** The day of the year each month begins on *)
Definition month_starts (leap : bool) : list Z :=
  let l := Z.b2z leap in
  [0; 31; 59 + l; 90 + l; 120 + l; 151 + l; 181 + l; 212 + l; 243 + l; 273 + l; 304 + l; 334 + l].

Definition month_from_day (d : Z) : Z :=
  let y := year_from_day d in
  Z.of_nat (length (filter (λ s, s <= d - day_from_year y) (month_starts (leap_year y)))) - 1.

(** [Date.UTC(y, m, 1)] in days; [m] may be one month out of range. *)
Definition day_of_month_start (y m : Z) : Z :=
  let y := y + m / 12 in
  day_from_year y + default 0 (month_starts (leap_year y) !! Z.to_nat (m mod 12)).

Definition monthly_duration (resetMs : Z) : Z :=
  let d := resetMs / DAY_MS in
  let y := year_from_day d in
  let m := month_from_day d in
  (day_of_month_start y m - day_of_month_start y (m - 1)) * DAY_MS.

Definition computeWindowStartMs (resetMs : Z) (window : string) (durationMs : option Z)
    : option Z :=
  match durationMs with
  | Some d => if 0 <? d then Some (resetMs - d)
              else if bool_decide (window = "monthly"%string)
                   then Some (resetMs - monthly_duration resetMs)
                   else (λ d, resetMs - d) <$> FIXED_WINDOW_DURATION_MS window
  | None => if bool_decide (window = "monthly"%string)
            then Some (resetMs - monthly_duration resetMs)
            else (λ d, resetMs - d) <$> FIXED_WINDOW_DURATION_MS window
  end.

Definition resolvePaceEndMs (resetMs : Z) (window : string) (startMs now : Z)
    (budgetEndMs : option Z) : Z :=
  match budgetEndMs with
  | Some b =>
      if (now <? b) && (b <? resetMs) && (0 <? b - startMs) && isWeeklyPacedWindow window
      then b else resetMs
  | None => resetMs
  end.

Definition computeExpectedPct (resetMs : Z) (window : string) (now : Z)
    (windowDurationMs budgetEndMs : option Z) : option Qc :=
  startMs ← computeWindowStartMs resetMs window windowDurationMs;
  let endMs := resolvePaceEndMs resetMs window startMs now budgetEndMs in
  let durationMs := endMs - startMs in
  if durationMs <=? 0 then None
  else
    Some (Qc_min (Qc_of_Z 100)
            (Qc_max 0 ((Qc_of_Z (now - startMs) / Qc_of_Z durationMs) * Qc_of_Z 100)))%Qc.

Definition computeThrottleResumeAt (resetMs : Z) (window : string) (utilizationPct : Qc)
    (now : Z) (windowDurationMs budgetEndMs : option Z) : option Qc :=
  if resetMs <=? now then None
  else
    startMs ← computeWindowStartMs resetMs window windowDurationMs;
    if resetMs <=? startMs then None
    else if now - startMs <=? 0 then None
    else
      expectedPct ← computeExpectedPct resetMs window now windowDurationMs budgetEndMs;
      if bool_decide (utilizationPct <= expectedPct)%Qc then None
      else
        let endMs := resolvePaceEndMs resetMs window startMs now budgetEndMs in
        let durationMs := endMs - startMs in
        let resumeAt := Qc_min (Qc_of_Z startMs + (utilizationPct / Qc_of_Z 100) * Qc_of_Z durationMs)%Qc
                               (Qc_of_Z endMs) in
        if bool_decide (Qc_of_Z now < resumeAt)%Qc then Some resumeAt else None.

(** ** The throttle of an account *)

Record UsageWindowSnapshot := {
  win_utilization : Qc;
  win_resetAtMs : Z;
  win_window : string;
  win_durationMs : option Z
}.

(** [pushWindow] *)
Definition pushWindow (name : string) (utilization : option Qc) (resetAtMs : option Z)
    (durationMs : option Z) : list UsageWindowSnapshot :=
  match utilization, resetAtMs with
  | Some u, Some r => [{| win_utilization := u; win_resetAtMs := r; win_window := name;
                          win_durationMs := durationMs |}]
  | _, _ => []
  end.

Definition push_minimax (name : string) (w : option MinimaxWindow) : list UsageWindowSnapshot :=
  match w with
  | None => []
  | Some w => match mm_intervalMs w with
              | None => []
              | Some i => if i <=? 0 then []
                          else pushWindow name (mm_utilization w) (mm_resetAt w) (Some i)
              end
  end.

Definition push_flat (name : string) (w : option UsageWindowData) : list UsageWindowSnapshot :=
  pushWindow name (w ≫= utilization) (w ≫= λ w, parseResetMs (resets_at w)) None.

Definition push_normalized (name : string) (w : option window) : list UsageWindowSnapshot :=
  match w with Some w => pushWindow name (Some (util w)) (resetMs w) None | None => [] end.

Definition collectWindows (data : option AnyUsageData) (now : Z) (provider : string)
    : list UsageWindowSnapshot :=
  match data with
  | None => []
  | Some u =>
      if bool_decide (provider = "minimax"%string)
      then match u with
           | MinimaxShape d => push_minimax "five_hour" (mm_five_hour d)
                               ++ push_minimax "seven_day" (mm_seven_day d)
           | _ => []
           end
      else
        match u with
        | AnthropicShape d =>
            if bool_decide (is_Some (five_hour d)) && bool_decide (is_Some (seven_day d))
            then push_flat "five_hour" (mjoin (five_hour d))
                 ++ push_flat "seven_day" (mjoin (seven_day d))
            else if isAnthropicUsageShape d
            then let n := normalizeAnthropicUsage d now in
                 push_normalized "five_hour" (session n) ++ push_normalized "seven_day" (weeklyAll n)
            else []
        | ZaiShape d =>
            pushWindow "tokens_limit" (tokens_limit d ≫= percentage) (tokens_limit d ≫= resetAt) None
            ++ pushWindow "tokens_limit_weekly" (tokens_limit_weekly d ≫= percentage)
                 (tokens_limit_weekly d ≫= resetAt) None
        | AlibabaShape d =>
            pushWindow "five_hour" (percentUsed (al_five_hour d)) (aq_resetAt (al_five_hour d)) None
            ++ pushWindow "weekly" (percentUsed (al_weekly d)) (aq_resetAt (al_weekly d)) None
            ++ pushWindow "monthly" (percentUsed (al_monthly d)) (aq_resetAt (al_monthly d)) None
        | MinimaxShape _ | DevinShape _ | GrokShape _ | OtherShape => []
        end
  end.

Record UsageThrottleSettings := { fiveHourEnabled : bool; weeklyEnabled : bool }.

Definition isWindowThrottlingEnabled (window : string) (settings : UsageThrottleSettings)
    : bool :=
  if isWeeklyPacedWindow window then weeklyEnabled settings else fiveHourEnabled settings.

(** The later of an instant and one not known yet *)
Definition latest (m : option Qc) (t : Qc) : option Qc :=
  match m with
  | None => Some t
  | Some u => if bool_decide (u < t)%Qc then Some t else Some u
  end.

(** The loop of [getUsageThrottleStatus] *)
Definition throttle_window (settings : UsageThrottleSettings) (now : Z) (budgetEndMs : option Z)
    (st : option Qc * list string) (w : UsageWindowSnapshot) : option Qc * list string :=
  if negb (isWindowThrottlingEnabled (win_window w) settings) then st
  else
    match computeThrottleResumeAt (win_resetAtMs w) (win_window w) (win_utilization w) now
            (win_durationMs w) budgetEndMs with
    | None => st
    | Some t => (latest st.1 t, st.2 ++ [win_window w])
    end.

Definition getUsageThrottleStatus (data : option AnyUsageData)
    (settings : UsageThrottleSettings) (now : Z) (provider : string) (budgetEndMs : option Z)
    : option Qc * list string :=
  foldl (throttle_window settings now budgetEndMs) (None, []) (collectWindows data now provider).

Definition getUsageThrottleUntil (data : option AnyUsageData)
    (settings : UsageThrottleSettings) (now : Z) (provider : string) (budgetEndMs : option Z)
    : option Qc :=
  (getUsageThrottleStatus data settings now provider budgetEndMs).1.

(** * The calendar *)

Lemma year_from_day_spec d :
  day_from_year (year_from_day d) <= d < day_from_year (year_from_day d + 1).
Proof.
  unfold year_from_day. cbv zeta. set (y := 1970 + d * 400 / 146097).
  assert (day_from_year (y - 1) <= d < day_from_year (y + 2)) as Hy.
  { unfold y, day_from_year. Z.to_euclidean_division_equations. lia. }
  replace (y + 2) with (y + 1 + 1) in Hy by lia.
  destruct (d <? day_from_year y) eqn:E1; [replace (y - 1 + 1) with y by lia|
    destruct (day_from_year (y + 1) <=? d) eqn:E2]; prop_bools; lia.
Qed.

Lemma leap_year_spec y :
  leap_year y = true ↔ y mod 4 = 0 ∧ (y mod 100 ≠ 0 ∨ y mod 400 = 0).
Proof. unfold leap_year. rewrite andb_true_iff, orb_true_iff, negb_true_iff, !Z.eqb_eq, Z.eqb_neq. tauto. Qed.

Lemma days_in_year_spec y : day_from_year (y + 1) - day_from_year y = days_in_year y.
Proof.
  unfold days_in_year, day_from_year.
  destruct (leap_year y) eqn:E; [apply leap_year_spec in E|
    apply not_true_iff_false in E; rewrite leap_year_spec in E];
    Z.to_euclidean_division_equations; lia.
Qed.

(** The lengths of the months of a year *)
Definition month_lengths (leap : bool) : list Z :=
  [31; 28 + Z.b2z leap; 31; 30; 31; 30; 31; 31; 30; 31; 30; 31].

Local Ltac eval_index :=
  repeat match goal with
  | |- context [Z.to_nat ?k] => let v := eval vm_compute in (Z.to_nat k) in
      progress change (Z.to_nat k) with v
  | |- context [Z.add _ (?k / 12)] => let v := eval vm_compute in (k / 12) in
      progress change (k / 12) with v
  end;
  unfold month_starts, month_lengths; cbv zeta;
  cbn [lookup list_lookup default from_option]; rewrite ?Z.add_0_r; f_equal.

Lemma month_length_before y m :
  0 <= m <= 11 →
  Some (day_of_month_start y m - day_of_month_start y (m - 1))
  = month_lengths (leap_year (y + (m - 1) / 12)) !! Z.to_nat ((m - 1) mod 12).
Proof.
  intros Hm. unfold day_of_month_start. cbv zeta.
  assert (m = 0 ∨ m = 1 ∨ m = 2 ∨ m = 3 ∨ m = 4 ∨ m = 5 ∨ m = 6 ∨ m = 7 ∨ m = 8 ∨ m = 9
    ∨ m = 10 ∨ m = 11) as Hcases by lia. clear Hm.
  destruct Hcases as [->|Hcases].
  - change ((0 - 1) / 12) with (-1). change (0 / 12) with 0.
    replace (y + 0) with (y + -1 + 1) by lia. eval_index.
    pose proof (days_in_year_spec (y + -1)) as Hy. unfold days_in_year in Hy.
    destruct (leap_year (y + -1)); cbn [Z.b2z id] in *; lia.
  - repeat (destruct Hcases as [->|Hcases]); try subst m; eval_index;
      cbn [id]; lia.
Qed.

(** Every day of a common or leap year lies in the month found for it. *)
Lemma month_table (leap : bool) x :
  0 <= x < 365 + Z.b2z leap →
  let m := Z.of_nat (length (filter (λ s, s <= x) (month_starts leap))) - 1 in
  0 <= m <= 11
  ∧ default 0 (month_starts leap !! Z.to_nat m) <= x
  ∧ x < (if m =? 11 then 365 + Z.b2z leap else default 0 (month_starts leap !! Z.to_nat (m + 1))).
Proof.
  revert x. assert (forallb (λ x,
    let m := Z.of_nat (length (filter (λ s, s <= x) (month_starts leap))) - 1 in
    (0 <=? m) && (m <=? 11) && (default 0 (month_starts leap !! Z.to_nat m) <=? x)
    && (x <? (if m =? 11 then 365 + Z.b2z leap
              else default 0 (month_starts leap !! Z.to_nat (m + 1)))))
    (seqZ 0 (365 + Z.b2z leap)) = true) as Hall by (destruct leap; vm_compute; reflexivity).
  intros x Hx. rewrite forallb_forall in Hall.
  specialize (Hall x). cbv zeta in *. rewrite !andb_true_iff, !Z.leb_le, Z.ltb_lt in Hall.
  destruct Hall as [[[??]?]?]; [|auto].
  apply list_elem_of_In, elem_of_seqZ. lia.
Qed.

Lemma day_month_spec d :
  let y := year_from_day d in
  0 <= month_from_day d <= 11
  ∧ day_of_month_start y (month_from_day d) <= d < day_of_month_start y (month_from_day d + 1).
Proof.
  cbv zeta. pose proof (year_from_day_spec d) as Hd.
  pose proof (days_in_year_spec (year_from_day d)) as Hy. unfold days_in_year in Hy.
  set (y := year_from_day d) in *.
  pose proof (month_table (leap_year y) (d - day_from_year y)) as Hm.
  change (Z.of_nat _ - 1) with (month_from_day d) in Hm. cbv zeta in Hm.
  set (m := month_from_day d) in *.
  destruct Hm as (Hm & Hlo & Hhi); [destruct (leap_year y); cbn; lia|].
  unfold day_of_month_start. cbv zeta.
  rewrite (Z.div_small m), (Z.mod_small m), Z.add_0_r by lia.
  split; [done|]. split; [lia|].
  destruct (m =? 11) eqn:E; prop_bools.
  - rewrite E. change ((11 + 1) / 12) with 1. change (Z.to_nat ((11 + 1) mod 12)) with 0%nat.
    cbn [month_starts lookup list_lookup default from_option id] in *. cbv zeta. cbn. lia.
  - rewrite (Z.div_small (m + 1)), (Z.mod_small (m + 1)), Z.add_0_r by lia. lia.
Qed.

(** A monthly window is as long as the calendar month before the one it resets in. *)
Lemma monthly_duration_spec resetMs :
  let d := resetMs / DAY_MS in
  let y := year_from_day d in
  let m := month_from_day d in
  Some (monthly_duration resetMs)
  = (λ n, n * DAY_MS)
    <$> (month_lengths (leap_year (y + (m - 1) / 12)) !! Z.to_nat ((m - 1) mod 12)).
Proof.
  cbv zeta. pose proof (day_month_spec (resetMs / DAY_MS)) as [Hm _].
  rewrite <-month_length_before by done. done.
Qed.

Lemma monthly_duration_bounds resetMs : 28 * DAY_MS <= monthly_duration resetMs <= 31 * DAY_MS.
Proof.
  pose proof (monthly_duration_spec resetMs) as H. cbv zeta in H.
  destruct (month_lengths _ !! _) as [n|] eqn:E; [|done]. injection H as ->.
  assert (28 <= n <= 31) as Hn.
  { apply list_elem_of_lookup_2 in E. set (l := leap_year _) in *. clearbody l.
    revert E. unfold month_lengths. rewrite !elem_of_cons, elem_of_nil.
    destruct l; cbn [Z.b2z]; lia. }
  unfold DAY_MS, HOUR_MS. lia.
Qed.

Lemma computeWindowStartMs_before resetMs window durationMs startMs :
  computeWindowStartMs resetMs window durationMs = Some startMs → startMs < resetMs.
Proof.
  assert (∀ s, (if bool_decide (window = "monthly"%string)
                then Some (resetMs - monthly_duration resetMs)
                else (λ d, resetMs - d) <$> FIXED_WINDOW_DURATION_MS window) = Some s →
          s < resetMs) as Hnamed.
  { intros s. pose proof (monthly_duration_bounds resetMs) as Hb.
    destruct (bool_decide _); [intros [= <-]; unfold DAY_MS, HOUR_MS in Hb; lia|].
    unfold FIXED_WINDOW_DURATION_MS. repeat case_bool_decide; cbn; intros [= <-];
      unfold DAY_MS, HOUR_MS; lia. }
  unfold computeWindowStartMs. destruct durationMs as [d|]; [|apply Hnamed].
  destruct (0 <? d) eqn:E; [|apply Hnamed]. intros [= <-]. prop_bools. lia.
Qed.

Lemma resolvePaceEndMs_bounds resetMs window startMs now budgetEndMs :
  startMs < resetMs → now < resetMs →
  let e := resolvePaceEndMs resetMs window startMs now budgetEndMs in
  startMs < e ∧ now < e ∧ e <= resetMs.
Proof.
  intros Hs Hn. cbv zeta. unfold resolvePaceEndMs. destruct budgetEndMs as [b|]; [|lia].
  destruct (_ && _) eqn:E; [|lia]. rewrite !andb_true_iff, !Z.ltb_lt in E. lia.
Qed.

(** * The throttle *)

(** The share of an even burn from [s] to [e], in percent, reached at [t] *)
Definition even_burn (s e : Z) (t : Qc) : Qc :=
  ((t - Qc_of_Z s) / Qc_of_Z (e - s) * Qc_of_Z 100)%Qc.

Section even_burn.
Context (s e : Z) (Hse : s < e).

Lemma span_pos : (0 < Qc_of_Z (e - s))%Qc.
Proof using Hse. rewrite <-Z2Qc_inj_0, <-Z2Qc_inj_lt. lia. Qed.

Lemma even_burn_point u : even_burn s e (Qc_of_Z s + u / Qc_of_Z 100 * Qc_of_Z (e - s)) = u.
Proof using Hse.
  pose proof span_pos as Hp. unfold even_burn. field.
  split; [discriminate|by intros Hd; rewrite Hd in Hp].
Qed.

Lemma even_burn_end : even_burn s e (Qc_of_Z e) = Qc_of_Z 100.
Proof using Hse.
  pose proof span_pos as Hp. unfold even_burn. rewrite Z2Qc_inj_sub in Hp |- *. field.
  by intros Hd; rewrite Hd in Hp.
Qed.

Lemma even_burn_lt t u : (even_burn s e t < even_burn s e u)%Qc ↔ (t < u)%Qc.
Proof using Hse.
  pose proof span_pos as Hp.
  assert (0 < Qc_of_Z 100 / Qc_of_Z (e - s))%Qc as Hk.
  { apply Qcmult_pos_pos; [done|by apply Qcinv_pos]. }
  assert (∀ t, even_burn s e t = (t - Qc_of_Z s) * (Qc_of_Z 100 / Qc_of_Z (e - s)))%Qc as Heq.
  { intros x. unfold even_burn. field.
  by intros Hd; rewrite Hd in Hp. }
  rewrite !Heq, <-Qcmult_lt_mono_pos_r by done. unfold Qcminus. by rewrite <-Qcplus_lt_mono_r.
Qed.
End even_burn.

Lemma even_burn_le s e t u : s < e → (even_burn s e t <= even_burn s e u)%Qc ↔ (t <= u)%Qc.
Proof.
  intros Hse. split; intros Hle; apply Qcnot_lt_le; intros Hlt;
    [apply (proj2 (even_burn_lt s e Hse u t)) in Hlt|apply (proj1 (even_burn_lt s e Hse u t)) in Hlt];
    by apply (Qclt_not_le _ _ Hlt).
Qed.

Lemma even_burn_inj s e t u : s < e → even_burn s e t = even_burn s e u → t = u.
Proof. intros Hse Heq. apply Qcle_antisym; apply (even_burn_le s e); by rewrite ?Heq. Qed.

Lemma even_burn_min s e u :
  s < e →
  even_burn s e (Qc_min (Qc_of_Z s + u / Qc_of_Z 100 * Qc_of_Z (e - s)) (Qc_of_Z e))
  = Qc_min u (Qc_of_Z 100).
Proof.
  intros Hse. unfold Qc_min at 1. destruct (bool_decide _) eqn:E; prop_bools.
  - apply (proj2 (even_burn_le s e _ _ Hse)) in E.
    rewrite even_burn_end, even_burn_point in * by done. unfold Qc_min.
    by rewrite bool_decide_eq_true_2.
  - apply Qcnot_le_lt, (proj2 (even_burn_lt s e Hse _ _)) in E.
    rewrite even_burn_end, even_burn_point in * by done. unfold Qc_min.
    rewrite bool_decide_eq_false_2; [done|]. by apply Qclt_not_le.
Qed.

(** The expected share is the even burn's. *)
Lemma computeExpectedPct_even resetMs window now durationMs budgetEndMs startMs :
  computeWindowStartMs resetMs window durationMs = Some startMs →
  startMs < now < resetMs →
  computeExpectedPct resetMs window now durationMs budgetEndMs
  = Some (even_burn startMs (resolvePaceEndMs resetMs window startMs now budgetEndMs)
            (Qc_of_Z now)).
Proof.
  intros Hs Hn. unfold computeExpectedPct. rewrite Hs. cbn [mbind option_bind].
  destruct (resolvePaceEndMs_bounds resetMs window startMs now budgetEndMs)
    as (Hse & Hne & _); [lia..|].
  set (e := resolvePaceEndMs _ _ _ _ _) in *. clearbody e.
  destruct (_ <=? 0) eqn:E; prop_bools; [lia|]. rewrite Z2Qc_inj_sub at 1.
  change (_ * Qc_of_Z 100)%Qc with (even_burn startMs e (Qc_of_Z now)). f_equal.
  assert (even_burn startMs e (Qc_of_Z startMs) = 0)%Qc as H0.
  { unfold even_burn. unfold Qcminus. by rewrite Qcplus_opp_r. }
  assert (0 < even_burn startMs e (Qc_of_Z now))%Qc as Hlo.
  { rewrite <-H0, even_burn_lt, <-Z2Qc_inj_lt by done. lia. }
  assert (even_burn startMs e (Qc_of_Z now) < Qc_of_Z 100)%Qc as Hhi.
  { rewrite <-(even_burn_end startMs e), even_burn_lt, <-Z2Qc_inj_lt by done. lia. }
  unfold Qc_max. rewrite bool_decide_eq_true_2 by by apply Qclt_le_weak.
  unfold Qc_min. rewrite bool_decide_eq_false_2; [done|]. by apply Qclt_not_le.
Qed.

Lemma throttle_resume_iff resetMs window util now durationMs budgetEndMs r :
  computeThrottleResumeAt resetMs window util now durationMs budgetEndMs = Some r
  ↔ ∃ startMs,
      computeWindowStartMs resetMs window durationMs = Some startMs
      ∧ startMs < now < resetMs
      ∧ let burn := even_burn startMs (resolvePaceEndMs resetMs window startMs now budgetEndMs) in
        (burn (Qc_of_Z now) < Qc_min util (Qc_of_Z 100))%Qc
        ∧ burn r = Qc_min util (Qc_of_Z 100).
Proof.
  unfold computeThrottleResumeAt. cbv zeta.
  destruct (resetMs <=? now) eqn:Hr; prop_bools; [split; [done|intros (?&?&?&?); lia]|].
  destruct (computeWindowStartMs resetMs window durationMs) as [s|] eqn:Hs; cbn [mbind option_bind];
    [|split; [done|by intros (?&[=]&?)]].
  pose proof (computeWindowStartMs_before _ _ _ _ Hs) as Hsr.
  destruct (resetMs <=? s) eqn:E; prop_bools; [lia|]. clear E.
  destruct (now - s <=? 0) eqn:E; prop_bools; [split; [done|intros (?&[= <-]&?&?); lia]|].
  rewrite (computeExpectedPct_even _ _ _ _ _ s) by (done || lia). cbn [mbind option_bind].
  destruct (resolvePaceEndMs_bounds resetMs window s now budgetEndMs) as (Hse & Hne & _); [lia..|].
  remember (resolvePaceEndMs resetMs window s now budgetEndMs) as e eqn:He.
  pose proof (even_burn_min s e util Hse) as Hmin. set (p := Qc_min (_ + _)%Qc _) in *. clearbody p.
  assert (even_burn s e (Qc_of_Z now) < Qc_of_Z 100)%Qc as Hhi.
  { rewrite <-(even_burn_end s e), even_burn_lt, <-Z2Qc_inj_lt by done. lia. }
  set (burn := even_burn s e) in *.
  assert (bool_decide (util <= burn (Qc_of_Z now))%Qc = false
          ↔ (burn (Qc_of_Z now) < Qc_min util (Qc_of_Z 100))%Qc) as Hahead.
  { rewrite Qc_min_lt, bool_decide_eq_false. split; [intros H%Qcnot_le_lt; by split|].
    intros [? _]. by apply Qclt_not_le. }
  assert ((Qc_of_Z now < p)%Qc ↔ (burn (Qc_of_Z now) < Qc_min util (Qc_of_Z 100))%Qc) as Hnow.
  { rewrite <-Hmin. symmetry. by apply even_burn_lt. }
  split.
  - intros Hres. exists s. destruct (bool_decide (util <= _)%Qc); [done|].
    destruct (bool_decide (Qc_of_Z now < p)%Qc) eqn:Ep; prop_bools; [|done].
    injection Hres as <-. split; [done|]. split; [lia|]. rewrite <-He. split; [|done]. by apply Hahead.
  - intros (? & [= <-] & Hn & Hlt & Hburn). rewrite <-He in Hlt, Hburn.
    rewrite (proj2 Hahead Hlt), bool_decide_eq_true_2 by by apply Hnow.
    f_equal. apply (even_burn_inj s e); [done|]. unfold burn in *. congruence.
Qed.

(** A window ahead of its pace line is throttled. *)
Lemma throttle_resumes resetMs window util now durationMs budgetEndMs startMs :
  computeWindowStartMs resetMs window durationMs = Some startMs →
  startMs < now < resetMs →
  (even_burn startMs (resolvePaceEndMs resetMs window startMs now budgetEndMs) (Qc_of_Z now)
   < Qc_min util (Qc_of_Z 100))%Qc →
  is_Some (computeThrottleResumeAt resetMs window util now durationMs budgetEndMs).
Proof.
  intros Hs Hn Hlt.
  destruct (resolvePaceEndMs_bounds resetMs window startMs now budgetEndMs)
    as (Hse & _); [lia..|].
  eexists. apply throttle_resume_iff. exists startMs. split; [done|]. split; [done|].
  split; [done|]. by apply even_burn_min.
Qed.

Definition window_resume (settings : UsageThrottleSettings) (now : Z) (budgetEndMs : option Z)
    (w : UsageWindowSnapshot) : option Qc :=
  if isWindowThrottlingEnabled (win_window w) settings
  then computeThrottleResumeAt (win_resetAtMs w) (win_window w) (win_utilization w) now
         (win_durationMs w) budgetEndMs
  else None.

Lemma latest_max m t :
  ∃ u, latest m t = Some u ∧ (t <= u)%Qc ∧ (∀ v, m = Some v → (v <= u)%Qc)
       ∧ (u = t ∨ m = Some u).
Proof.
  unfold latest. destruct m as [v|].
  - destruct (bool_decide (v < t)%Qc) eqn:E; prop_bools.
    + exists t. split_and!; [done|apply Qcle_refl| |by left]. intros ? [= <-]. by apply Qclt_le_weak.
    + exists v. split_and!; [done|by apply Qcnot_lt_le| |by right]. intros ? [= <-]. apply Qcle_refl.
  - exists t. split_and!; [done|apply Qcle_refl|done|by left].
Qed.

Lemma foldl_latest_spec {A} (f : A → option Qc) (l : list A) m :
  let r := foldl (λ m a, match f a with None => m | Some t => latest m t end) m l in
  (∀ t, t ∈ omap f l ∨ m = Some t → ∃ u, r = Some u ∧ (t <= u)%Qc)
  ∧ (∀ u, r = Some u → u ∈ omap f l ∨ m = Some u).
Proof.
  cbv zeta. revert m. induction l as [|a l IH]; intros m; cbn [foldl].
  { split; [|auto]. intros t [Ht%elem_of_nil|Ht]; [done|]. exists t. by split. }
  cbn [omap list_omap]. destruct (f a) as [t|]; [|apply IH].
  destruct (IH (latest m t)) as [Hle Hin]. destruct (latest_max m t) as (v & Hv & Htv & Hm & Hor).
  split.
  - assert (∃ u, foldl (λ m a, match f a with None => m | Some t => latest m t end) (latest m t) l
                 = Some u ∧ (v <= u)%Qc) as (u & Hu & Hvu) by (apply Hle; by right).
    intros x [[->|Hx]%elem_of_cons|Hx].
    + exists u. split; [done|]. by eapply Qcle_trans.
    + apply Hle. by left.
    + exists u. split; [done|]. eapply Qcle_trans; [by apply Hm|done].
  - intros u [Hu|Hu]%Hin; [left; by right|]. rewrite Hv in Hu. injection Hu as <-.
    destruct Hor as [-> | ?]; [left; by left|by right].
Qed.

(** The loop keeps the latest of the resumes and names their windows, in order. *)
Lemma throttle_window_resume settings now budget st w :
  throttle_window settings now budget st w
  = match window_resume settings now budget w with
    | None => st | Some t => (latest st.1 t, st.2 ++ [win_window w]) end.
Proof. unfold throttle_window, window_resume. by destruct (isWindowThrottlingEnabled _ _). Qed.

Lemma getUsageThrottleStatus_fold settings now budget ws st :
  let fin := foldl (throttle_window settings now budget) st ws in
  fin.1 = foldl (λ m w, match window_resume settings now budget w with
                        | None => m | Some t => latest m t end) st.1 ws
  ∧ fin.2 = st.2 ++ (win_window <$> filter (λ w, is_Some (window_resume settings now budget w)) ws).
Proof.
  cbv zeta. revert st. induction ws as [|w ws IH]; intros st; cbn [foldl].
  { cbn. by rewrite app_nil_r. }
  rewrite throttle_window_resume.
  destruct (window_resume settings now budget w) as [t|] eqn:E.
  - rewrite filter_cons_True by by rewrite E.
    destruct (IH (latest st.1 t, st.2 ++ [win_window w])) as [-> ->].
    cbn [fst snd fmap list_fmap]. by rewrite <-app_assoc.
  - rewrite filter_cons_False by (rewrite E; by intros [? [=]]). apply IH.
Qed.

(** A window that is throttled: enabled, running and ahead of its even burn *)
Definition ahead (settings : UsageThrottleSettings) (now : Z) (budget : option Z)
    (w : UsageWindowSnapshot) : Prop :=
  isWindowThrottlingEnabled (win_window w) settings = true
  ∧ ∃ s, computeWindowStartMs (win_resetAtMs w) (win_window w) (win_durationMs w) = Some s
      ∧ s < now < win_resetAtMs w
      ∧ (even_burn s (resolvePaceEndMs (win_resetAtMs w) (win_window w) s now budget) (Qc_of_Z now)
         < Qc_min (win_utilization w) (Qc_of_Z 100))%Qc.

Lemma window_resume_ahead settings now budget w :
  is_Some (window_resume settings now budget w) ↔ ahead settings now budget w.
Proof.
  unfold window_resume, ahead. destruct (isWindowThrottlingEnabled _ _).
  - split.
    + intros [t (s & Hs & Hn & Hlt & _)%throttle_resume_iff]. split; [done|]. by exists s.
    + intros (_ & s & Hs & Hn & Hlt). by eapply throttle_resumes.
  - split; [by intros [? [=]]|by intros [[=] _]].
Qed.

Lemma window_resume_future settings now budget w t :
  window_resume settings now budget w = Some t → (Qc_of_Z now < t)%Qc.
Proof.
  unfold window_resume. destruct (isWindowThrottlingEnabled _ _); [|done].
  intros (s & Hs & Hn & Hlt & Hburn)%throttle_resume_iff.
  destruct (resolvePaceEndMs_bounds (win_resetAtMs w) (win_window w) s now budget)
    as (Hse & _); [lia..|].
  rewrite <-Hburn in Hlt. by apply even_burn_lt in Hlt.
Qed.

Lemma getUsageThrottleUntil_ahead data settings now provider budget :
  match getUsageThrottleUntil data settings now provider budget with
  | Some t => (Qc_of_Z now < t)%Qc
              ∧ ∃ w, w ∈ collectWindows data now provider ∧ ahead settings now budget w
  | None => ∀ w, w ∈ collectWindows data now provider → ¬ ahead settings now budget w
  end.
Proof.
  unfold getUsageThrottleUntil, getUsageThrottleStatus.
  set (ws := collectWindows data now provider).
  destruct (getUsageThrottleStatus_fold settings now budget ws (None, [])) as [-> _].
  cbn [fst]. destruct (foldl_latest_spec (window_resume settings now budget) ws None) as [Hmax Hin].
  destruct (foldl _ None ws) as [t|].
  - destruct (Hin t eq_refl) as [Ht|[=]]. apply list_elem_of_omap in Ht as (w & Hw & Ht).
    split; [by eapply window_resume_future|]. exists w. split; [done|].
    apply window_resume_ahead. by exists t.
  - intros w Hw [t Ht]%window_resume_ahead. destruct (Hmax t) as (? & [=] & _).
    left. apply list_elem_of_omap. by exists w.
Qed.

(** The throttle of an account delays a request until every window is on pace. When a
    request is delayed, it is to a later instant, at which the even burn of every enabled
    window that has started and not reset has caught up with that window's utilization,
    and of one of them only just. *)
Theorem throttle_releases_on_pace data settings now provider budget r :
  getUsageThrottleUntil data settings now provider budget = Some r →
  let ws := collectWindows data now provider in
  let enabled w s :=
    isWindowThrottlingEnabled (win_window w) settings = true
    ∧ computeWindowStartMs (win_resetAtMs w) (win_window w) (win_durationMs w) = Some s
    ∧ s < now < win_resetAtMs w in
  let burn w s :=
    even_burn s (resolvePaceEndMs (win_resetAtMs w) (win_window w) s now budget) in
  (Qc_of_Z now < r)%Qc
  ∧ (∀ w s, w ∈ ws → enabled w s →
      (Qc_min (win_utilization w) (Qc_of_Z 100) <= burn w s r)%Qc)
  ∧ (∃ w s, w ∈ ws ∧ enabled w s ∧ burn w s r = Qc_min (win_utilization w) (Qc_of_Z 100)).
Proof.
  unfold getUsageThrottleUntil, getUsageThrottleStatus. cbv zeta.
  set (ws := collectWindows data now provider). intros Hr.
  destruct (getUsageThrottleStatus_fold settings now budget ws (None, [])) as [Hfold _].
  rewrite Hr in Hfold. cbn [fst] in Hfold.
  destruct (foldl_latest_spec (window_resume settings now budget) ws None) as [Hmax Hin].
  rewrite <-Hfold in Hmax, Hin.
  specialize (Hin r eq_refl) as [Hin|[=]]. apply list_elem_of_omap in Hin as (w & Hw & Hwr).
  assert (∀ w t, window_resume settings now budget w = Some t →
          isWindowThrottlingEnabled (win_window w) settings = true
          ∧ computeThrottleResumeAt (win_resetAtMs w) (win_window w) (win_utilization w) now
              (win_durationMs w) budget = Some t) as Hres.
  { intros w' t'. unfold window_resume. by destruct (isWindowThrottlingEnabled _ _). }
  destruct (Hres _ _ Hwr) as [Hen (s & Hs & Hn & Hlt & Hburn)%throttle_resume_iff].
  destruct (resolvePaceEndMs_bounds (win_resetAtMs w) (win_window w) s now budget)
    as (Hse & _); [lia..|].
  split; [|split].
  - rewrite <-Hburn, even_burn_lt in Hlt by done. done.
  - intros w' s' Hw' (Hen' & Hs' & Hn').
    destruct (resolvePaceEndMs_bounds (win_resetAtMs w') (win_window w') s' now budget)
      as (Hse' & _); [lia..|].
    destruct (computeThrottleResumeAt (win_resetAtMs w') (win_window w') (win_utilization w') now
                (win_durationMs w') budget) as [t'|] eqn:Et'.
    + assert (t' ∈ omap (window_resume settings now budget) ws) as Hin'.
      { apply list_elem_of_omap. exists w'. split; [done|]. unfold window_resume. by rewrite Hen'. }
      destruct (Hmax t' (or_introl Hin')) as (? & [= <-] & Hle).
      apply throttle_resume_iff in Et' as (? & Hs'' & _ & _ & <-).
      rewrite Hs' in Hs''. injection Hs'' as <-. by apply even_burn_le.
    + eapply Qcle_trans; [|apply even_burn_le, Qclt_le_weak; [done|]; by rewrite <-Hburn, even_burn_lt in Hlt].
      apply Qcnot_lt_le. intros Hahead.
      destruct (throttle_resumes _ _ _ _ _ budget _ Hs' Hn' Hahead) as [? Ht']. by rewrite Ht' in Et'.
  - exists w, s. auto.
Qed.

(** The throttle's release. A window is throttled exactly when it has started, has not
    reset and its utilization is ahead of an even burn of the window (or of the part of it
    the budget covers), and the instant it is released is the one at which the even burn
    has caught up with that utilization, the end of the pace line for one of 100% and more. *)
Theorem throttle_catches_up resetMs window util now durationMs budgetEndMs r :
  computeThrottleResumeAt resetMs window util now durationMs budgetEndMs = Some r
  ↔ ∃ startMs,
      computeWindowStartMs resetMs window durationMs = Some startMs
      ∧ startMs < now < resetMs
      ∧ let burn := even_burn startMs (resolvePaceEndMs resetMs window startMs now budgetEndMs) in
        (burn (Qc_of_Z now) < Qc_min util (Qc_of_Z 100))%Qc
        ∧ burn r = Qc_min util (Qc_of_Z 100).
Proof. exact (throttle_resume_iff resetMs window util now durationMs budgetEndMs r). Qed.

(** * Examples *)

(** A five-hour window 80% used at half time *)
Definition demo_windows : AnthropicUsageData :=
  {| five_hour := Some (Some {| utilization := Some (Qc_of_Z 80);
                                resets_at := Some (Some 18000000) |});
     seven_day := Some (Some {| utilization := Some (Qc_of_Z 3);
                                resets_at := Some (Some 20000000) |});
     seven_day_oauth_apps := None; limits := []; extra_usage := None |}.

Definition demo_settings : UsageThrottleSettings :=
  {| fiveHourEnabled := true; weeklyEnabled := true |}.

Example demo_resume :
  (λ r : Qc, this r) <$> getUsageThrottleUntil (Some (AnthropicShape demo_windows)) demo_settings
                           9000000 "anthropic" None
  = Some (QArith_base.inject_Z 14400000).
Proof. vm_compute. reflexivity. Qed.

Lemma throttle_releases_on_pace_witness :
  ∃ r, getUsageThrottleUntil (Some (AnthropicShape demo_windows)) demo_settings 9000000
         "anthropic" None = Some r
       ∧ (Qc_of_Z 9000000 < r)%Qc.
Proof.
  destruct (getUsageThrottleUntil (Some (AnthropicShape demo_windows)) demo_settings 9000000
              "anthropic" None) as [r|] eqn:E.
  - exists r. split; [done|]. exact (proj1 (throttle_releases_on_pace _ _ _ _ _ _ E)).
  - exfalso. vm_compute in E. discriminate E.
Defined.
