(* ===== verification/Memos.v ===== *)
(** The routing hints kept in memory: [packages/proxy/src/family-weekly-memo.ts],
    [codex-transient-health.ts], [protected-family-demand.ts], [weekly-burn-slope.ts].

    Each is a module-level [Map]; a reader may delete the entry it finds expired, so a read
    returns the map too. *)

From S2P Require Import Prelude Rationals Models Strategy.
Open Scope Z_scope.

(** * Family exhaustion learned from a 429 *)

Record FamilyWeeklyMemoEntry := { me_resetAt : Z; me_observedAt : Z }.

Definition MAX_MEMO_ENTRIES : Z := 1000.
Definition MAX_MEMO_HORIZON_MS : Z := 14 * 86400000.

Abbreviation memo := (jmap string FamilyWeeklyMemoEntry).

Definition keyFor (accountId : string) (family : ModelFamily) : string :=
  accountId +:+ ":" +:+ family_name family.

(** Deleting the entries [P] holds of while iterating *)
Definition jfilter {V} (P : string → V → bool) (m : jmap string V) : jmap string V :=
  JMap (filter (λ kv, P kv.1 kv.2 = false) (entries m)).

Definition pruneExpired (now : Z) (m : memo) : memo :=
  jfilter (λ _ e, me_resetAt e <=? now) m.

Definition recordFamilyWeeklyExhausted (accountId : string) (family : ModelFamily)
    (resetAt now : Z) (m : memo) : bool * memo :=
  if resetAt <=? now then (false, m)
  else if now + MAX_MEMO_HORIZON_MS <? resetAt then (false, m)
  else
    let m := pruneExpired now m in
    let key := keyFor accountId family in
    let known := jhas key m in
    if (MAX_MEMO_ENTRIES <=? jsize m) && negb known then (false, m)
    else (negb known, <[key := {| me_resetAt := resetAt; me_observedAt := now |}]> m).

Definition getFamilyWeeklyExhaustedUntil (accountId : string) (family : ModelFamily) (now : Z)
    (m : memo) : option Z * memo :=
  let key := keyFor accountId family in
  match m !! key with
  | None => (None, m)
  | Some e => if me_resetAt e <=? now then (None, delete key m) else (Some (me_resetAt e), m)
  end.

Definition clearFamilyWeeklyExhausted (accountId : string) (family : ModelFamily)
    (observedAfter : Z) (m : memo) : memo :=
  let key := keyFor accountId family in
  match m !! key with
  | None => m
  | Some e => if observedAfter <=? me_observedAt e then m else delete key m
  end.

Definition isFamilyWeeklyMemoExhausted (id provider : string) (model : option string) (now : Z)
    (m : memo) : bool * memo :=
  if negb (bool_decide (provider = "anthropic"%string)) then (false, m)
  else match getModelFamily (default ""%string model) with
       | None => (false, m)
       | Some family => let '(r, m) := getFamilyWeeklyExhaustedUntil id family now m in
                        (bool_decide (is_Some r), m)
       end.

Definition clearFamilyWeeklyExhaustedForAccount (accountId : string) (m : memo) : memo :=
  jfilter (λ k _, startsWith k (accountId +:+ ":")) m.

(** * Transient failures of Codex accounts *)

Record transient := { tr_until : Z; tr_observedAt : Z }.

Definition DEMOTION_MS : Z := 60000.
Definition MAX_ENTRIES : Z := 1000.

Abbreviation failures := (jmap string transient).

Definition isCodexTransientError (reason : option string) : bool :=
  bool_decide (reason = Some "server_error"%string)
  || bool_decide (reason = Some "service_unavailable_error"%string)
  || bool_decide (reason = Some "server_is_overloaded"%string).

Definition evict_one (m : failures) : failures :=
  if MAX_ENTRIES <=? jsize m
  then match jkeys m with [] => m | oldest :: _ => delete oldest m end
  else m.

Definition recordCodexTransientFailure (accountId : string) (now : Z) (m : failures) : failures :=
  let m := jfilter (λ _ e, tr_until e <=? now) m in
  let m := evict_one (delete accountId m) in
  <[accountId := {| tr_until := now + DEMOTION_MS; tr_observedAt := now |}]> m.

Definition getCodexTransientFailureUntil (accountId : string) (now : Z) (m : failures)
    : option Z * failures :=
  match m !! accountId with
  | None => (None, m)
  | Some e => if tr_until e <=? now then (None, delete accountId m) else (Some (tr_until e), m)
  end.

Definition clearCodexTransientFailure (accountId : string) (requestStartedAt : Z) (m : failures)
    : failures :=
  match m !! accountId with
  | Some e => if tr_observedAt e <? requestStartedAt then delete accountId m else m
  | None => m
  end.

(** * Demand for the protected family *)

Abbreviation demand := (jmap string Z).

Definition recordProtectedFamilyDemand (accountId : string) (now : Z) (m : demand) : demand :=
  <[accountId := now]> m.

Definition getLastProtectedFamilyDemand (accountId : string) (m : demand) : option Z :=
  m !! accountId.

(** * The weekly burn *)

Definition WEEKLY_SLOPE_MAX_AGE_MS : Z := 15 * 60 * 1000.
Definition WEEKLY_SLOPE_RESET_MATCH_TOLERANCE_MS : Z := 5 * 60 * 1000.

(** The numbers of a record may be [NaN] or infinite: [None]. *)
Record WeeklyBurnSlopeRecord := {
  slopePctPerHour : option Qc;
  lowConfidence : bool;
  observedAt : option Z;
  windowResetMs : option Z
}.

Abbreviation slopes := (jmap string WeeklyBurnSlopeRecord).

Definition recordWeeklyBurnSlope (accountId : string) (r : WeeklyBurnSlopeRecord) (m : slopes)
    : slopes := <[accountId := r]> m.

Definition clearWeeklyBurnSlopes (accountId : option string) (m : slopes) : slopes :=
  match accountId with None => ∅ | Some a => delete a m end.

Definition pruneWeeklyBurnSlopes (live : list string) (m : slopes) : slopes :=
  jfilter (λ k _, negb (bool_decide (k ∈ live))) m.

Definition getWeeklyBurnSlope (accountId : string) (now : Z) (m : slopes)
    : option (Qc * option Z) :=
  match m !! accountId with
  | None => None
  | Some e =>
      if lowConfidence e then None
      else match slopePctPerHour e, observedAt e with
           | Some s, Some o => if WEEKLY_SLOPE_MAX_AGE_MS <? now - o then None
                               else Some (s, windowResetMs e)
           | _, _ => None
           end
  end.

Definition resolveEffectiveWeeklySlope (accountId : string) (capacity : option CapacitySignal)
    (now : Z) (m : slopes) : option Qc :=
  match capacity ≫= bindingWeeklyResetMs with
  | None => None
  | Some bindingReset =>
      match getWeeklyBurnSlope accountId now m with
      | Some (s, Some w) =>
          if WEEKLY_SLOPE_RESET_MATCH_TOLERANCE_MS <? Z.abs (w - bindingReset) then None
          else Some s
      | _ => None
      end
  end.

(** * Filtering a map *)

Section jfilter.
Context {V : Type} (P : string → V → bool).

Lemma alist_get_filter k (l : list (string * V)) :
  NoDup l.*1 →
  alist_get k (filter (λ kv, P kv.1 kv.2 = false) l)
  = match alist_get k l with Some v => if P k v then None else Some v | None => None end.
Proof.
  induction l as [|[k' v] l IH]; intros Hnd; [done|].
  cbn in Hnd. apply NoDup_cons in Hnd as [Hnotin Hnd]. specialize (IH Hnd).
  cbn [alist_get]. destruct (decide (k' = k)) as [->|Hne].
  - apply alist_get_None in Hnotin. destruct (P k v) eqn:E.
    + rewrite filter_cons_False by (cbn; congruence). by rewrite IH, Hnotin.
    + rewrite filter_cons_True by done. cbn [alist_get]. by rewrite decide_True.
  - destruct (decide (P k' v = false)) as [E|E].
    + rewrite filter_cons_True by done. cbn [alist_get]. by rewrite decide_False.
    + by rewrite filter_cons_False.
Qed.

Lemma jlookup_filter k m :
  jwf m →
  jfilter P m !! k = match m !! k with Some v => if P k v then None else Some v | None => None end.
Proof. apply alist_get_filter. Qed.

Lemma jwf_filter m : jwf m → jwf (jfilter P m).
Proof.
  unfold jwf, jkeys, jfilter. cbn [entries]. intros Hnd.
  eapply sublist_NoDup; [exact Hnd|]. apply fmap_sublist, sublist_filter.
Qed.

Lemma jsize_filter m : jsize (jfilter P m) <= jsize m.
Proof. unfold jsize, jfilter. cbn [entries]. apply Nat2Z.inj_le, length_filter. Qed.
End jfilter.

(** * Keys *)

Lemma list_ascii_app s t :
  String.list_ascii_of_string (s +:+ t)
  = String.list_ascii_of_string s ++ String.list_ascii_of_string t.
Proof. induction s as [|c s IH]; [done|]. cbn. by rewrite <-IH. Qed.

(** The names of the families end in different letters, so a key determines its pair. *)
Lemma keyFor_inj a f a' f' : keyFor a f = keyFor a' f' → a = a' ∧ f = f'.
Proof.
  intros Hk. assert (f = f') as ->.
  { unfold keyFor in Hk. apply (f_equal (last ∘ String.list_ascii_of_string)) in Hk.
    unfold compose in Hk. rewrite !list_ascii_app, !last_app in Hk.
    destruct f, f'; try done; cbn in Hk; discriminate Hk. }
  split; [|done]. unfold keyFor in Hk. apply (f_equal String.list_ascii_of_string) in Hk.
  rewrite !(list_ascii_app _ (":" +:+ _)) in Hk. apply app_inv_tail in Hk.
  apply (f_equal String.string_of_list_ascii) in Hk.
  by rewrite !String.string_of_list_ascii_of_string in Hk.
Qed.

(** * The family memo *)

Record memo_wf (m : memo) : Prop := {
  memo_keys : jwf m;
  memo_bound : jsize m <= MAX_MEMO_ENTRIES;
  memo_horizon : ∀ k e, m !! k = Some e →
    me_observedAt e < me_resetAt e <= me_observedAt e + MAX_MEMO_HORIZON_MS
}.

Lemma memo_wf_empty : memo_wf ∅.
Proof. split; [apply jwf_empty|done|done]. Qed.

Lemma memo_wf_filter P m : memo_wf m → memo_wf (jfilter P m).
Proof.
  intros [Hk Hb Hh]. split; [by apply jwf_filter| |].
  - pose proof (jsize_filter P m). lia.
  - intros k e. rewrite jlookup_filter by done. destruct (m !! k) as [v|] eqn:E; [|done].
    destruct (P k v); [done|]. intros [= <-]. by eapply Hh.
Qed.

Lemma memo_wf_delete k m : memo_wf m → memo_wf (delete k m).
Proof.
  intros [Hk Hb Hh]. split; [by apply jwf_delete| |].
  - pose proof (jsize_delete_le k m). lia.
  - intros k' e. destruct (decide (k = k')) as [->|Hne].
    + by rewrite jlookup_delete_eq.
    + rewrite jlookup_delete_ne by done. apply Hh.
Qed.

Inductive memo_op : Type :=
  | MRecord (accountId : string) (family : ModelFamily) (resetAt now : Z)
  | MGet (accountId : string) (family : ModelFamily) (now : Z)
  | MClear (accountId : string) (family : ModelFamily) (observedAfter : Z)
  | MRemove (accountId : string).

Definition memo_step (m : memo) (op : memo_op) : memo :=
  match op with
  | MRecord a f r now => (recordFamilyWeeklyExhausted a f r now m).2
  | MGet a f now => (getFamilyWeeklyExhaustedUntil a f now m).2
  | MClear a f o => clearFamilyWeeklyExhausted a f o m
  | MRemove a => clearFamilyWeeklyExhaustedForAccount a m
  end.

Lemma memo_step_wf m op : memo_wf m → memo_wf (memo_step m op).
Proof.
  intros Hm. destruct op as [a f r now|a f now|a f o|a]; cbn [memo_step].
  - unfold recordFamilyWeeklyExhausted. destruct (r <=? now) eqn:E1; [done|].
    destruct (_ <? r) eqn:E2; [done|]. prop_bools. cbv zeta.
    pose proof (memo_wf_filter (λ _ e, me_resetAt e <=? now) m Hm) as Hp.
    fold (pruneExpired now m) in Hp. set (p := pruneExpired now m) in *. clearbody p.
    destruct (_ && _) eqn:E; [done|]. cbn [snd]. destruct Hp as [Hk Hb Hh].
    split; [by apply jwf_insert| |].
    + rewrite jsize_insert. rewrite andb_false_iff, negb_false_iff, jhas_spec, Z.leb_gt in E.
      destruct (decide _) as [?|Hno]; [done|]. destruct E as [E|?]; [lia|done].
    + intros k e. destruct (decide (keyFor a f = k)) as [<-|Hne].
      * rewrite jlookup_insert_eq. intros [= <-]. cbn. lia.
      * rewrite jlookup_insert_ne by done. apply Hh.
  - unfold getFamilyWeeklyExhaustedUntil. destruct (m !! _) as [e|]; [|done].
    destruct (_ <=? _); [by apply memo_wf_delete|done].
  - unfold clearFamilyWeeklyExhausted. destruct (m !! _) as [e|]; [|done].
    destruct (_ <=? _); [done|by apply memo_wf_delete].
  - by apply memo_wf_filter.
Qed.

(** What leaves a finding about [a] and [f], observed at [t] and good until [reset], alone:
    nothing at or after [reset], another finding only about another pair, a success only
    of a request that did not start after the finding, the removal only of another
    account. *)
Definition leaves (a : string) (f : ModelFamily) (t reset : Z) (op : memo_op) : Prop :=
  match op with
  | MRecord a' f' _ now => now < reset ∧ (a', f') ≠ (a, f)
  | MGet a' f' now => now < reset
  | MClear a' f' o => (a', f') = (a, f) → o <= t
  | MRemove a' => startsWith (keyFor a f) (a' +:+ ":") = false
  end.

Lemma keyFor_ne a f a' f' : (a', f') ≠ (a, f) → keyFor a' f' ≠ keyFor a f.
Proof. intros Hne Hk. apply keyFor_inj in Hk as [-> ->]. done. Qed.

Lemma memo_step_leaves a f t reset m op :
  memo_wf m →
  m !! keyFor a f = Some {| me_resetAt := reset; me_observedAt := t |} →
  leaves a f t reset op →
  memo_step m op !! keyFor a f = Some {| me_resetAt := reset; me_observedAt := t |}.
Proof.
  intros Hm Hl. destruct op as [a' f' r now|a' f' now|a' f' o|a']; cbn [leaves memo_step].
  - intros [Hnow Hne%keyFor_ne]. unfold recordFamilyWeeklyExhausted.
    destruct (r <=? now); [done|]. destruct (_ <? r); [done|]. cbv zeta.
    assert (pruneExpired now m !! keyFor a f
            = Some {| me_resetAt := reset; me_observedAt := t |}) as Hp.
    { unfold pruneExpired. rewrite jlookup_filter, Hl by apply Hm. cbn.
      destruct (reset <=? now) eqn:E; [prop_bools; lia|done]. }
    destruct (_ && _); cbn [snd]; [done|]. by rewrite jlookup_insert_ne.
  - intros Hnow. unfold getFamilyWeeklyExhaustedUntil.
    destruct (m !! keyFor a' f') as [e|] eqn:E; [|done].
    destruct (me_resetAt e <=? now) eqn:Ee; [|done]. prop_bools. cbn [snd].
    rewrite jlookup_delete_ne; [done|]. intros Hk. rewrite Hk, Hl in E.
    injection E as <-. cbn in Ee. lia.
  - intros Ho. unfold clearFamilyWeeklyExhausted.
    destruct (m !! keyFor a' f') as [e|] eqn:E; [|done].
    destruct (o <=? me_observedAt e) eqn:Ee; [done|]. prop_bools.
    rewrite jlookup_delete_ne; [done|]. intros Hk. rewrite Hk, Hl in E. injection E as <-.
    apply keyFor_inj in Hk as [-> ->]. cbn in Ee. specialize (Ho eq_refl). lia.
  - intros Hpre. unfold clearFamilyWeeklyExhaustedForAccount.
    rewrite jlookup_filter, Hl by apply Hm. by rewrite Hpre.
Qed.

Lemma memo_run_leaves a f t reset ops m :
  memo_wf m →
  m !! keyFor a f = Some {| me_resetAt := reset; me_observedAt := t |} →
  Forall (leaves a f t reset) ops →
  foldl memo_step m ops !! keyFor a f = Some {| me_resetAt := reset; me_observedAt := t |}.
Proof.
  intros Hm Hl Hops. revert m Hm Hl. induction Hops as [|op ops Hop _ IH]; intros m Hm Hl; [done|].
  cbn [foldl]. apply IH; [by apply memo_step_wf|by apply memo_step_leaves].
Qed.

(** A 429 is remembered. A finding recorded in time, with the memo not full, is what
    every read of that account and family returns until the window resets, whatever else is
    recorded, read, cleared or removed in between: in particular a success of a request that
    had started before the finding does not erase it. *)
Theorem memo_remembers a f reset now m ops t :
  memo_wf m →
  now < reset <= now + MAX_MEMO_HORIZON_MS →
  jsize m < MAX_MEMO_ENTRIES →
  Forall (leaves a f now reset) ops →
  t < reset →
  let m' := (recordFamilyWeeklyExhausted a f reset now m).2 in
  (getFamilyWeeklyExhaustedUntil a f t (foldl memo_step m' ops)).1 = Some reset.
Proof.
  intros Hm Hreset Hsize Hops Ht. cbv zeta.
  assert ((recordFamilyWeeklyExhausted a f reset now m).2 !! keyFor a f
          = Some {| me_resetAt := reset; me_observedAt := now |}) as Hl.
  { unfold recordFamilyWeeklyExhausted. destruct (reset <=? now) eqn:E1; [prop_bools; lia|].
    destruct (_ <? reset) eqn:E2; [prop_bools; lia|]. cbv zeta.
    pose proof (jsize_filter (λ _ e, me_resetAt e <=? now) m) as Hp.
    fold (pruneExpired now m) in Hp.
    destruct (_ <=? jsize _) eqn:E3; [prop_bools; lia|]. cbn [andb snd].
    by rewrite jlookup_insert_eq. }
  apply (memo_run_leaves a f now reset ops) in Hl; [|by apply (memo_step_wf m (MRecord a f reset now))|done].
  unfold getFamilyWeeklyExhaustedUntil. rewrite Hl. cbn [me_resetAt].
  destruct (reset <=? t) eqn:E; [prop_bools; lia|done].
Qed.

Lemma memo_run_wf m ops : memo_wf m → memo_wf (foldl memo_step m ops).
Proof.
  revert m. induction ops as [|op ops IH]; intros m Hm; [done|]. by apply IH, memo_step_wf.
Qed.

(** What does not take the finding observed at [t] back *)
Definition keeps (a : string) (f : ModelFamily) (t : Z) (op : memo_op) : Prop :=
  match op with
  | MClear a' f' o => (a', f') = (a, f) → o <= t
  | MRemove a' => startsWith (keyFor a f) (a' +:+ ":") = false
  | _ => True
  end.

Lemma memo_step_lookup a f m op e :
  memo_wf m →
  memo_step m op !! keyFor a f = Some e →
  (op = MRecord a f (me_resetAt e) (me_observedAt e))
  ∨ (m !! keyFor a f = Some e ∧ keeps a f (me_observedAt e) op).
Proof.
  intros Hm. destruct op as [a' f' r now|a' f' now|a' f' o|a']; cbn [memo_step keeps].
  - unfold recordFamilyWeeklyExhausted.
    destruct (r <=? now); [by right|]. destruct (_ <? r); [by right|]. cbv zeta.
    assert (pruneExpired now m !! keyFor a f = Some e → m !! keyFor a f = Some e) as Hp.
    { unfold pruneExpired. rewrite jlookup_filter by apply Hm.
      destruct (m !! keyFor a f); [|done]. by destruct (_ <=? _). }
    destruct (_ && _); cbn [snd]; [auto|].
    destruct (decide (keyFor a' f' = keyFor a f)) as [Hk|Hk].
    + rewrite Hk, jlookup_insert_eq. intros [= <-]. apply keyFor_inj in Hk as [-> ->]. by left.
    + rewrite jlookup_insert_ne by done. auto.
  - unfold getFamilyWeeklyExhaustedUntil.
    destruct (m !! keyFor a' f') as [e'|] eqn:E; [|by right].
    destruct (_ <=? _); [|by right]. cbn [snd].
    destruct (decide (keyFor a' f' = keyFor a f)) as [Hk|Hk].
    + by rewrite Hk, jlookup_delete_eq.
    + rewrite jlookup_delete_ne by done. by right.
  - unfold clearFamilyWeeklyExhausted. destruct (m !! keyFor a' f') as [e'|] eqn:E.
    + destruct (o <=? me_observedAt e') eqn:Eo; prop_bools.
      * intros Hl. right. split; [done|]. intros [= -> ->]. rewrite Hl in E. by injection E as <-.
      * destruct (decide (keyFor a' f' = keyFor a f)) as [Hk|Hk].
        -- by rewrite Hk, jlookup_delete_eq.
        -- rewrite jlookup_delete_ne by done. right. split; [done|]. by intros [= -> ->].
    + intros Hl. right. split; [done|]. intros [= -> ->]. by rewrite Hl in E.
  - unfold clearFamilyWeeklyExhaustedForAccount. rewrite jlookup_filter by apply Hm.
    destruct (m !! keyFor a f) as [e'|]; [|done].
    destruct (startsWith _ _); [done|]. intros [= ->]. by right.
Qed.

Lemma memo_run_lookup a f ops e :
  foldl memo_step ∅ ops !! keyFor a f = Some e →
  ∃ pre post, ops = pre ++ MRecord a f (me_resetAt e) (me_observedAt e) :: post
    ∧ Forall (keeps a f (me_observedAt e)) post.
Proof.
  induction ops as [|op ops IH] using rev_ind; [done|].
  rewrite foldl_app. cbn [foldl]. intros Hl.
  assert (memo_wf (foldl memo_step ∅ ops)) as Hwf by apply memo_run_wf, memo_wf_empty.
  apply memo_step_lookup in Hl as [->|[(pre & post & -> & Hpost)%IH Hk]]; [by exists ops, []| |done].
  exists pre, (post ++ [op]). split; [by rewrite <-app_assoc|].
  apply Forall_app. auto.
Qed.

(** Nothing else is remembered. In a memo reached from the empty one, a read returns only
    a reset that some 429 taught, still in the future and at most two weeks after that 429,
    with neither a success of a request started after it nor the removal of the account
    since. *)
Theorem memo_reads_justified a f ops now r :
  (getFamilyWeeklyExhaustedUntil a f now (foldl memo_step ∅ ops)).1 = Some r →
  now < r ∧ ∃ pre post t,
    ops = pre ++ MRecord a f r t :: post
    ∧ t < r <= t + MAX_MEMO_HORIZON_MS
    ∧ Forall (keeps a f t) post.
Proof.
  unfold getFamilyWeeklyExhaustedUntil.
  pose proof (memo_run_wf ∅ ops memo_wf_empty) as Hwf.
  destruct (foldl memo_step ∅ ops !! keyFor a f) as [e|] eqn:El; [|done].
  destruct (me_resetAt e <=? now) eqn:E; [done|]. prop_bools. intros [= <-].
  split; [done|]. pose proof (memo_horizon _ Hwf _ _ El).
  apply memo_run_lookup in El as (pre & post & -> & Hpost).
  by exists pre, post, (me_observedAt e).
Qed.

(** * Transient failures *)

Definition failures_ok (m : failures) : Prop := jwf m ∧ jsize m <= MAX_ENTRIES.

Lemma failures_ok_delete k m : failures_ok m → failures_ok (delete k m).
Proof.
  intros [Hk Hb]. split; [by apply jwf_delete|]. pose proof (jsize_delete_le k m). lia.
Qed.

Lemma evict_one_spec m : failures_ok m → jwf (evict_one m) ∧ jsize (evict_one m) < MAX_ENTRIES.
Proof.
  intros [Hk Hb]. unfold evict_one. destruct (_ <=? jsize m) eqn:E; prop_bools; [|done].
  destruct (jkeys m) as [|k ks] eqn:Eks.
  - apply jkeys_nil in Eks as ->. done.
  - split; [by apply jwf_delete|]. assert (is_Some (m !! k)) as [v Hv].
    { apply jelem_of_keys. rewrite Eks. by left. }
    pose proof (jsize_delete_lt k v m Hv). lia.
Qed.

(** Transient failures. A failure demotes its account for exactly the next minute, the
    map never holds more than a thousand accounts, and a success takes the demotion back
    exactly when its request started after the failure. *)
Theorem transient_failure_demotes accountId now m started t :
  failures_ok m →
  let m' := recordCodexTransientFailure accountId now m in
  failures_ok m'
  ∧ (getCodexTransientFailureUntil accountId t (clearCodexTransientFailure accountId started m')).1
    = (if (now <? started) || (now + DEMOTION_MS <=? t) then None else Some (now + DEMOTION_MS)).
Proof.
  intros Hm. cbv zeta. unfold recordCodexTransientFailure. cbv zeta.
  set (p := jfilter _ m).
  assert (failures_ok p) as Hp.
  { destruct Hm as [Hk Hb]. split; [by apply jwf_filter|].
    pose proof (jsize_filter (λ _ e, tr_until e <=? now) m). unfold p. lia. }
  clearbody p. apply (failures_ok_delete accountId) in Hp.
  destruct (evict_one_spec _ Hp) as [Hwf Hlt]. set (q := evict_one _) in *. clearbody q.
  split.
  - split; [by apply jwf_insert|]. rewrite jsize_insert. destruct (decide _); lia.
  - unfold clearCodexTransientFailure. rewrite jlookup_insert_eq. cbn [tr_observedAt].
    unfold getCodexTransientFailureUntil. destruct (now <? started); cbn [orb].
    + by rewrite jlookup_delete_eq.
    + rewrite jlookup_insert_eq. cbn [tr_until]. by destruct (_ <=? t).
Qed.

(** * The weekly burn *)

Lemma resolveEffectiveWeeklySlope_spec a c now m s :
  resolveEffectiveWeeklySlope a (Some c) now m = Some s ↔
  ∃ e b o w, m !! a = Some e ∧ lowConfidence e = false ∧ slopePctPerHour e = Some s
    ∧ observedAt e = Some o ∧ now - o <= WEEKLY_SLOPE_MAX_AGE_MS
    ∧ bindingWeeklyResetMs c = Some b ∧ windowResetMs e = Some w
    ∧ Z.abs (w - b) <= WEEKLY_SLOPE_RESET_MATCH_TOLERANCE_MS.
Proof.
  unfold resolveEffectiveWeeklySlope, getWeeklyBurnSlope. cbn [mbind option_bind].
  split.
  - destruct (bindingWeeklyResetMs c) as [b|]; [|done].
    destruct (m !! a) as [e|]; [|done]. destruct (lowConfidence e) eqn:El; [done|].
    destruct (slopePctPerHour e) as [x|] eqn:Es, (observedAt e) as [o|] eqn:Eo; try done.
    destruct (_ <? now - o) eqn:Ea; [done|].
    destruct (windowResetMs e) as [w|] eqn:Ew; [|done].
    destruct (_ <? Z.abs _) eqn:Eb; [done|]. intros [= ->]. prop_bools.
    exists e, b, o, w. auto 10.
  - intros (e & b & o & w & -> & -> & -> & -> & Ho & -> & -> & Hw).
    destruct (_ <? now - o) eqn:Ea; [prop_bools; lia|].
    destruct (_ <? Z.abs _) eqn:Eb; [prop_bools; lia|done].
Qed.

(** * Examples *)

Definition demo_memo : memo :=
  (recordFamilyWeeklyExhausted "a" Fable 5000 100 ∅).2.

Lemma memo_remembers_witness :
  (getFamilyWeeklyExhaustedUntil "a" Fable 4000
     (foldl memo_step demo_memo
        [MRecord "a" Opus 9000 200; MClear "a" Fable 90; MGet "b" Fable 300; MRemove "b"])).1
  = Some 5000.
Proof.
  apply (memo_remembers "a" Fable 5000 100 ∅); [apply memo_wf_empty|vm_compute; done|done| |done].
  repeat (apply Forall_cons; split); cbn [leaves]; try done; lia.
Defined.

Lemma memo_reads_justified_witness :
  (getFamilyWeeklyExhaustedUntil "a" Fable 4000
     (foldl memo_step ∅ [MRecord "a" Fable 5000 100])).1 = Some 5000
  ∧ 4000 < 5000.
Proof.
  assert ((getFamilyWeeklyExhaustedUntil "a" Fable 4000
     (foldl memo_step ∅ [MRecord "a" Fable 5000 100])).1 = Some 5000) as H by reflexivity.
  split; [exact H|]. exact (proj1 (memo_reads_justified _ _ _ _ _ H)).
Defined.

Lemma transient_failure_demotes_witness :
  (getCodexTransientFailureUntil "a" 60999
     (clearCodexTransientFailure "a" 500 (recordCodexTransientFailure "a" 1000 ∅))).1
  = Some 61000.
Proof.
  assert (failures_ok ∅) as H by (split; [apply jwf_empty|done]).
  exact (proj2 (transient_failure_demotes "a" 1000 ∅ 500 60999 H)).
Defined.
