(* ===== verification/Gates.v ===== *)
(** The decisions of the routing gates about one account:
    [packages/proxy/src/handlers/family-reservation-gate.ts], [pool-liveness-gate.ts] and
    [family-weekly-gate.ts] (without the evidence it reads off response headers and the
    bodies of its refusals). [Admission] applies them to the candidates of a request. *)

From S2P Require Import Prelude Rationals Models Accounts Strategy Pacing Usage.
Open Scope Z_scope.

(** * The shared-window reservation *)

Definition SESSION_RESERVE_HEADROOM_PCT : Qc := Qc_of_Z 25.
Definition WEEKLY_RESERVE_HEADROOM_PCT : Qc := Qc_of_Z 40.
Definition PROTECTED_FAMILY_DEMAND_LOOKBACK_MS : Z := 43200000.
Definition WEEKLY_HARVEST_YIELD_HORIZON_MS : Z := 7200000.

Definition resolveReservationDemotion (account : Account) (modelForGate : option string)
    (usageData : option AnyUsageData) (capacity : option CapacitySignal)
    (lastProtectedDemandMs : option Z) (now : Z) : bool :=
  match familyOf modelForGate with
  | None => false
  | Some family =>
      if isProtectedFamily (Some family) then false
      else if negb (bool_decide (acc_provider account = "anthropic"%string)) then false
      else
        match capacity with
        | None => false
        | Some c =>
            if existsb (λ e, bool_decide (sl_family e = PROTECTED_FAMILY))
                 (getExhaustedFamilies (as_anthropic usageData) now)
            then false
            else if bool_decide (sessionHeadroom c < SESSION_RESERVE_HEADROOM_PCT)%Qc then true
            else if bool_decide (weeklyHeadroom c < WEEKLY_RESERVE_HEADROOM_PCT)%Qc
            then
              let recentDemand :=
                match lastProtectedDemandMs with
                | Some d => now - d <=? PROTECTED_FAMILY_DEMAND_LOOKBACK_MS
                | None => false
                end in
              let nearReset :=
                match bindingWeeklyResetMs c with
                | None => true
                | Some r => r - now <=? WEEKLY_HARVEST_YIELD_HORIZON_MS
                end in
              recentDemand && negb nearReset
            else false
        end
  end.

(** * The pool-liveness reserve *)

Definition LIVENESS_RESERVE_HEADROOM_PCT : Qc := Qc_of_Z 20.
Definition LIVENESS_RESERVE_PROTECTED_HEADROOM_PCT : Qc := Qc_of_Z 10.
Definition LIVENESS_RELEASE_HORIZON_MIN_MS : Z := 12 * HOUR_MS.
Definition LIVENESS_RELEASE_HORIZON_MAX_MS : Z := 36 * HOUR_MS.
(** 0.66 *)
Definition LIVENESS_DESIGN_SLOPE_PCT_PER_HOUR : Qc := (Qc_of_Z 66 / Qc_of_Z 100)%Qc.

Record PoolLivenessOptions := {
  reserveThresholdPct : Qc;
  weeklySlopePctPerHour : option Qc;
  subscriptionEndMs : option Z
}.

Definition resolveLivenessReserveThreshold (protectedRequest : bool) : Qc :=
  if protectedRequest then LIVENESS_RESERVE_PROTECTED_HEADROOM_PCT
  else LIVENESS_RESERVE_HEADROOM_PCT.

Definition isAbsorbablePeer (capacity : option CapacitySignal) (familyReserved : bool)
    (owesRecoveryProbe : bool) (threshold : Qc) : bool :=
  match capacity with
  | None => false
  | Some c => negb (bool_decide (minHeadroom c < threshold)%Qc)
              && negb familyReserved && negb owesRecoveryProbe
  end.

Definition resolveReleaseHorizonMs (headroom : Qc) (opts : PoolLivenessOptions) : Qc :=
  let static := (reserveThresholdPct opts / LIVENESS_DESIGN_SLOPE_PCT_PER_HOUR
                 * Qc_of_Z HOUR_MS)%Qc in
  match weeklySlopePctPerHour opts with
  | Some slope =>
      if bool_decide (0 < slope)%Qc
      then
        let drainMs := (headroom / slope * Qc_of_Z HOUR_MS)%Qc in
        Qc_min (Qc_of_Z LIVENESS_RELEASE_HORIZON_MAX_MS)
               (Qc_max (Qc_of_Z LIVENESS_RELEASE_HORIZON_MIN_MS) drainMs)
      else static
  | None => static
  end.

Definition resolvePoolLivenessDemotion (capacity : option CapacitySignal)
    (absorbablePeerCount : Z) (now : Z) (opts : PoolLivenessOptions) : bool :=
  match capacity with
  | None => false
  | Some c =>
      if bool_decide (reserveThresholdPct opts <= weeklyHeadroom c)%Qc then false
      else if absorbablePeerCount <? 1 then false
      else
        match bindingWeeklyResetMs c with
        | None => false
        | Some reset =>
            let horizonMs := resolveReleaseHorizonMs (weeklyHeadroom c) opts in
            let lostAt := match subscriptionEndMs opts with
                          | Some e => Z.min reset e
                          | None => reset
                          end in
            negb (bool_decide (Qc_of_Z (lostAt - now) <= horizonMs)%Qc)
        end
  end.

(** * The family-weekly gate *)

Definition FAMILY_WEEKLY_MAX_USAGE_AGE_MS : Z := 180000.

Record FamilyWeeklyExcludedAccount := {
  fx_account : Account;
  fx_family : ModelFamily;
  fx_resetAt : Z
}.

Definition resolveFamilyWeeklyExclusion (account : Account) (modelForGate : option string)
    (usageData : option AnyUsageData) (capacity : option CapacitySignal) (now : Z)
    : option FamilyWeeklyExcludedAccount :=
  match familyOf modelForGate with
  | None => None
  | Some family =>
      let data := as_anthropic usageData in
      if negb (isFamilyWeeklyExhaustedWithHeadroom data capacity family now) then None
      else
        let found := List.find (λ e, bool_decide (sl_family e = family))
                       (getExhaustedFamilies data now) in
        Some {| fx_account := account; fx_family := family;
                fx_resetAt := match found with Some e => sl_resetsAtMs e | None => now end |}
  end.

Record FamilyWeeklyPacedAccount := {
  fp_account : Account;
  fp_family : ModelFamily;
  fp_resumeAt : Qc
}.

(** The instant one entry is paced to *)
Definition entry_resume (now : Z) (e : ScopedFamilyLimit) : option Qc :=
  if bool_decide (FAMILY_WEEKLY_EXHAUSTED_THRESHOLD_PERCENT <= sl_percent e)%Qc then None
  else computeThrottleResumeAt (sl_resetsAtMs e) "seven_day_scoped" (sl_percent e) now None None.

Definition resolveFamilyWeeklyPacing (account : Account) (modelForGate : option string)
    (usageData : option AnyUsageData) (capacity : option CapacitySignal) (now : Z)
    : option FamilyWeeklyPacedAccount :=
  match familyOf modelForGate with
  | None => None
  | Some family =>
      match capacity with
      | None => None
      | Some c =>
          if bool_decide (minHeadroom c <= 0)%Qc then None
          else
            let resumeAt :=
              foldl (λ m e, match entry_resume now e with None => m | Some t => latest m t end)
                None (getScopedFamilyLimits (as_anthropic usageData) family now) in
            (λ t, {| fp_account := account; fp_family := family; fp_resumeAt := t |}) <$> resumeAt
      end
  end.

Record TransientlyCooledFamilySibling := {
  ts_account : Account;
  ts_family : ModelFamily;
  ts_availableAt : Z
}.

(** A deadline in the future, or 0 *)
Definition pending_until (d : option Z) (now : Z) : Z :=
  match d with Some d => if now <? d then d else 0 | None => 0 end.

Definition resolveTransientlyCooledFamilySibling (account : Account) (family : ModelFamily)
    (usageData : option AnyUsageData) (rateLimitedUntil providerOverloadUntil : option Z)
    (now : Z) : option TransientlyCooledFamilySibling :=
  if negb (bool_decide (acc_provider account = "anthropic"%string)) then None
  else if acc_paused account
          || bool_decide (acc_rate_limited_reason account = Some "org_permission_denied"%string)
  then None
  else
    let availableAt := Z.max (pending_until rateLimitedUntil now)
                             (pending_until providerOverloadUntil now) in
    if availableAt <=? now then None
    else if existsb (λ e, bool_decide (sl_family e = family))
              (getExhaustedFamilies (as_anthropic usageData) now)
    then None
    else Some {| ts_account := account; ts_family := family; ts_availableAt := availableAt |}.

(** * The decisions *)

Lemma find_exhausted data now family x :
  List.find (λ e, bool_decide (sl_family e = family)) (getExhaustedFamilies data now) = Some x →
  sl_family x = family ∧ (hundred <= sl_percent x)%Qc
  ∧ ∃ e, e ∈ limits data ∧ reading_of now e x.
Proof.
  intros [Hin Hf]%find_some. apply bool_decide_eq_true in Hf.
  by apply list_elem_of_In, elem_of_exhausted in Hin as [Hpc Hin].
Qed.

(** The family-weekly exclusion. An account is held back from a request exactly when the
    requested model has a family, the account has headroom left for others and a scoped
    window of that family is spent; the deadline it is held back to is the reset of such a
    window, in the future. *)
Theorem exclusion_exact account model usage capacity now :
  (is_Some (resolveFamilyWeeklyExclusion account model usage capacity now)
   ↔ ∃ family c e x, familyOf model = Some family ∧ capacity = Some c
       ∧ (0 < minHeadroom c)%Qc ∧ e ∈ limits (as_anthropic usage) ∧ reading_of now e x
       ∧ sl_family x = family ∧ (hundred <= sl_percent x)%Qc)
  ∧ (∀ fx, resolveFamilyWeeklyExclusion account model usage capacity now = Some fx →
       fx_account fx = account ∧ familyOf model = Some (fx_family fx) ∧ now < fx_resetAt fx
       ∧ ∃ e x, e ∈ limits (as_anthropic usage) ∧ reading_of now e x
           ∧ sl_family x = fx_family fx ∧ (hundred <= sl_percent x)%Qc
           ∧ fx_resetAt fx = sl_resetsAtMs x).
Proof.
  unfold resolveFamilyWeeklyExclusion. destruct (familyOf model) as [family|].
  2:{ split; [|done]. split; [by intros [? [=]]|by intros (?&?&?&?&[=]&?)]. }
  set (data := as_anthropic usage). cbv zeta.
  assert (isFamilyWeeklyExhaustedWithHeadroom data capacity family now = true
    ↔ ∃ c e x, capacity = Some c ∧ (0 < minHeadroom c)%Qc ∧ e ∈ limits data
        ∧ reading_of now e x ∧ sl_family x = family ∧ (hundred <= sl_percent x)%Qc) as Hex.
  { destruct capacity as [c|]; [|split; [done|by intros (?&?&?&[=]&?)]].
    rewrite family_exhausted_iff. split.
    - intros (Hc & e & x & ?). exists c, e, x. tauto.
    - intros (? & e & x & [= <-] & Hc & ?). split; [done|]. by exists e, x. }
  destruct (isFamilyWeeklyExhaustedWithHeadroom data capacity family now) eqn:E; cbn [negb].
  - destruct (proj1 Hex eq_refl) as (c & e & x & -> & Hc & He & Hx & Hf & Hpc).
    split; [split; [intros _|done]; by exists family, c, e, x|].
    intros fx [= <-]. cbn [fx_account fx_family fx_resetAt].
    destruct (List.find _ _) as [y|] eqn:Hfind.
    + apply find_exhausted in Hfind as (Hyf & Hypc & e' & He' & Hy).
      split_and!; [done|done|apply Hy|]. by exists e', y.
    + exfalso. assert (x ∈ getExhaustedFamilies data now) as Hx' by (apply elem_of_exhausted; eauto).
      apply list_elem_of_In in Hx'. apply (find_none _ _ Hfind) in Hx'.
      by apply bool_decide_eq_false in Hx'.
  - split; [|done]. split; [by intros [? [=]]|].
    intros (family' & c & e & x & [= <-] & -> & H). assert (false = true); [|done].
    apply Hex. exists c, e, x. tauto.
Qed.

Lemma entry_resume_Some now e t :
  entry_resume now e = Some t ↔
  (sl_percent e < hundred)%Qc
  ∧ ∃ s, computeWindowStartMs (sl_resetsAtMs e) "seven_day_scoped" None = Some s
      ∧ s < now < sl_resetsAtMs e
      ∧ let burn := even_burn s (sl_resetsAtMs e) in
        (burn (Qc_of_Z now) < sl_percent e)%Qc ∧ burn t = sl_percent e.
Proof.
  unfold entry_resume. destruct (bool_decide _) eqn:E; prop_bools.
  { split; [done|]. by intros [Hlt%Qclt_not_le _]. }
  apply Qcnot_le_lt in E. change FAMILY_WEEKLY_EXHAUSTED_THRESHOLD_PERCENT with hundred in E.
  rewrite throttle_resume_iff. cbn [resolvePaceEndMs]. cbv zeta.
  assert (Qc_min (sl_percent e) (Qc_of_Z 100) = sl_percent e) as ->; [|tauto].
  unfold Qc_min. rewrite bool_decide_eq_true_2; [done|]. by apply Qclt_le_weak.
Qed.

Lemma seven_days_start resetMs :
  computeWindowStartMs resetMs "seven_day_scoped" None = Some (resetMs - 7 * DAY_MS).
Proof. reflexivity. Qed.

(** The family-weekly pacing. A request is held back from an account for pacing only when
    the account has headroom and a window of the requested family, not yet spent, is ahead
    of an even burn of its week; it is held to an instant in the future at which the even
    burn has caught up with every such window of the family, with one of them only just. *)
Theorem pacing_holds_until_on_pace account model usage capacity now fp :
  resolveFamilyWeeklyPacing account model usage capacity now = Some fp →
  let windows := getScopedFamilyLimits (as_anthropic usage) (fp_family fp) now in
  let burn x := even_burn (sl_resetsAtMs x - 7 * DAY_MS) (sl_resetsAtMs x) in
  fp_account fp = account ∧ familyOf model = Some (fp_family fp)
  ∧ (∃ c, capacity = Some c ∧ (0 < minHeadroom c)%Qc)
  ∧ (Qc_of_Z now < fp_resumeAt fp)%Qc
  ∧ (∀ x, x ∈ windows → (sl_percent x < hundred)%Qc → sl_resetsAtMs x - 7 * DAY_MS < now →
       (sl_percent x <= burn x (fp_resumeAt fp))%Qc)
  ∧ ∃ x, x ∈ windows ∧ (sl_percent x < hundred)%Qc
         ∧ burn x (fp_resumeAt fp) = sl_percent x.
Proof.
  unfold resolveFamilyWeeklyPacing. destruct (familyOf model) as [family|]; [|done].
  destruct capacity as [c|]; [|done].
  destruct (bool_decide (minHeadroom c <= 0)%Qc) eqn:Ec; [done|]. prop_bools.
  apply Qcnot_le_lt in Ec. cbv zeta. intros (r & Hr & ->)%fmap_Some.
  cbn [fp_account fp_family fp_resumeAt].
  set (windows := getScopedFamilyLimits _ _ _) in *.
  assert (∀ x, x ∈ windows → now < sl_resetsAtMs x) as Hfuture.
  { intros x [_ (e & _ & Hx)%elem_of_weeklyScoped]%list_elem_of_filter. apply Hx. }
  assert (∀ x, sl_resetsAtMs x - 7 * DAY_MS < sl_resetsAtMs x) as Hweek
    by (intros x; unfold DAY_MS, HOUR_MS; lia).
  destruct (foldl_latest_spec (entry_resume now) windows None) as [Hmax Hin].
  rewrite Hr in Hmax, Hin. destruct (Hin r eq_refl) as [Hr'|[=]].
  apply list_elem_of_omap in Hr' as (x & Hx & (Hpc & s & Hs & Hn & Hlt & Hburn)%entry_resume_Some).
  rewrite seven_days_start in Hs. injection Hs as <-.
  assert (Qc_of_Z now < r)%Qc as Hnow.
  { apply (even_burn_lt _ _ (Hweek x)). by rewrite Hburn. }
  split_and!; [done|done|by exists c|done| |by exists x].
  intros y Hy Hypc Hstart. destruct (entry_resume now y) as [t|] eqn:Et.
  - destruct (Hmax t) as (? & [= <-] & Hle); [left; apply list_elem_of_omap; by exists y|].
    apply entry_resume_Some in Et as (_ & s & Hs & _ & _ & <-).
    rewrite seven_days_start in Hs. injection Hs as <-. by apply even_burn_le.
  - eapply Qcle_trans; [|by apply even_burn_le; [|apply Qclt_le_weak, Hnow]].
    apply Qcnot_lt_le. intros Hahead.
    set (burn := even_burn (sl_resetsAtMs y - 7 * DAY_MS) (sl_resetsAtMs y)) in *.
    assert (is_Some (entry_resume now y)) as [? ?]; [|congruence].
    unfold entry_resume. rewrite bool_decide_eq_false_2 by by apply Qclt_not_le.
    eapply throttle_resumes; [apply seven_days_start|split; [done|by apply Hfuture]|].
    cbn [resolvePaceEndMs]. fold burn. apply Qc_min_lt. split; [done|]. by eapply Qclt_trans.
Qed.

(** * Reservation and liveness *)

(** What the reservation holds. Only a request for an unprotected family is moved off an
    account, only off an Anthropic account with a reading on which the protected family is
    not spent, and only on low session headroom or on low weekly headroom with the
    protected family in recent demand and the binding reset known to be beyond the
    horizon. *)
Theorem reservation_exact account model usage c lastDemand now :
  resolveReservationDemotion account model usage (Some c) lastDemand now = true ↔
  (∃ family, familyOf model = Some family ∧ family ≠ PROTECTED_FAMILY)
  ∧ acc_provider account = "anthropic"%string
  ∧ (¬ ∃ e x, e ∈ limits (as_anthropic usage) ∧ reading_of now e x
        ∧ sl_family x = PROTECTED_FAMILY ∧ (hundred <= sl_percent x)%Qc)
  ∧ ((sessionHeadroom c < SESSION_RESERVE_HEADROOM_PCT)%Qc
     ∨ (weeklyHeadroom c < WEEKLY_RESERVE_HEADROOM_PCT)%Qc
       ∧ (∃ d, lastDemand = Some d ∧ now - d <= PROTECTED_FAMILY_DEMAND_LOOKBACK_MS)
       ∧ ∃ r, bindingWeeklyResetMs c = Some r ∧ WEEKLY_HARVEST_YIELD_HORIZON_MS < r - now).
Proof.
  unfold resolveReservationDemotion. destruct (familyOf model) as [family|];
    [|split; [done|by intros [(? & [=] & _) _]]].
  unfold isProtectedFamily. destruct (bool_decide (Some family = _)) eqn:Ef; prop_bools.
  { split; [done|]. intros [(? & [= <-] & Hne) _]. congruence. }
  destruct (bool_decide (acc_provider account = _)) eqn:Ep; prop_bools; cbn [negb];
    [|split; [done|tauto]].
  rewrite <-exhausted_family_iff. destruct (existsb _ _); [split; [done|tauto]|].
  assert (∃ f, Some family = Some f ∧ f ≠ PROTECTED_FAMILY) as Hfam
    by (exists family; split; [done|congruence]).
  destruct (bool_decide (sessionHeadroom c < _)%Qc) eqn:Es; prop_bools.
  { split; [|done]. intros _. split_and!; [done|done|done|by left]. }
  destruct (bool_decide (weeklyHeadroom c < _)%Qc) eqn:Ew; prop_bools; [|split; [done|tauto]].
  rewrite andb_true_iff, negb_true_iff. split.
  - intros [Hd Hr]. split_and!; [done|done|done|right]. split_and!; [done| |].
    + destruct lastDemand as [d|]; [|done]. exists d. prop_bools. done.
    + destruct (bindingWeeklyResetMs c) as [r|]; [|done]. exists r. prop_bools. done.
  - intros (_ & _ & _ & [?|(_ & (d & -> & Hd) & r & -> & Hr)]); [done|].
    split; [by apply Z.leb_le|by apply Z.leb_gt].
Qed.

Lemma liveness_demotes c n now opts :
  resolvePoolLivenessDemotion (Some c) n now opts = true →
  (weeklyHeadroom c < reserveThresholdPct opts)%Qc ∧ 1 <= n
  ∧ ∃ reset, bindingWeeklyResetMs c = Some reset
      ∧ (resolveReleaseHorizonMs (weeklyHeadroom c) opts
         < Qc_of_Z (match subscriptionEndMs opts with
                    | Some e => Z.min reset e | None => reset end - now))%Qc.
Proof.
  unfold resolvePoolLivenessDemotion. destruct (bool_decide _) eqn:E; [done|]. prop_bools.
  apply Qcnot_le_lt in E. destruct (n <? 1) eqn:En; [done|]. prop_bools.
  destruct (bindingWeeklyResetMs c) as [reset|]; [|done]. cbv zeta.
  destruct (bool_decide _) eqn:Eh; [done|]. prop_bools. intros _.
  split; [done|]. split; [done|]. exists reset. split; [done|]. by apply Qcnot_le_lt.
Qed.

Lemma threshold_below_hundred p : (resolveLivenessReserveThreshold p < hundred)%Qc.
Proof. by destruct p. Qed.

(** An absorbing peer is not held back at its tier or a lower one. *)
Lemma absorbing_not_demoted now c t t' n opts res owes :
  signal_ok now c →
  isAbsorbablePeer (Some c) res owes t = true →
  (t' <= t)%Qc → (t' < hundred)%Qc →
  reserveThresholdPct opts = t' →
  resolvePoolLivenessDemotion (Some c) n now opts = false.
Proof.
  intros Hok Habs Htt Ht Hopts. apply not_true_iff_false. intros Hdem.
  apply liveness_demotes in Hdem as (Hlow & _). rewrite Hopts in Hlow.
  unfold isAbsorbablePeer in Habs. rewrite !andb_true_iff, !negb_true_iff in Habs.
  destruct Habs as [[Hmin _] _]. prop_bools. apply Qcnot_lt_le in Hmin.
  destruct (weekly_axis _ _ Hok) as [Heq|Hle].
  - rewrite Heq in Hlow. by apply (Qclt_not_le _ _ Hlow), Qclt_le_weak.
  - apply (Qclt_not_le _ _ Hlow). eapply Qcle_trans; [exact Htt|]. by eapply Qcle_trans.
Qed.

(** The release horizon lies between half a day and a day and a half when there is a burn to
    go by, and is the tier's static estimate otherwise. *)
Lemma horizon_bounds headroom opts s :
  weeklySlopePctPerHour opts = Some s → (0 < s)%Qc →
  (Qc_of_Z LIVENESS_RELEASE_HORIZON_MIN_MS <= resolveReleaseHorizonMs headroom opts)%Qc
  ∧ (resolveReleaseHorizonMs headroom opts <= Qc_of_Z LIVENESS_RELEASE_HORIZON_MAX_MS)%Qc.
Proof.
  intros Hs Hpos. unfold resolveReleaseHorizonMs. rewrite Hs, bool_decide_eq_true_2 by done.
  cbv zeta. split; [|apply Qc_min_le_l]. apply Qc_min_glb; [done|apply Qc_max_le_l].
Qed.

(** The sibling worth waiting for is an Anthropic account, neither paused nor barred, held
    only by a cooldown and not known to have spent the family, and the instant it is waited
    for is the first at which both its cooldowns have passed. *)
Theorem sibling_exact account family usage rl ov now ts :
  0 <= now →
  resolveTransientlyCooledFamilySibling account family usage rl ov now = Some ts →
  ts_account ts = account ∧ ts_family ts = family
  ∧ acc_provider account = "anthropic"%string ∧ acc_paused account = false
  ∧ acc_rate_limited_reason account ≠ Some "org_permission_denied"%string
  ∧ (¬ ∃ e x, e ∈ limits (as_anthropic usage) ∧ reading_of now e x
        ∧ sl_family x = family ∧ (hundred <= sl_percent x)%Qc)
  ∧ now < ts_availableAt ts
  ∧ (∀ d, rl = Some d ∨ ov = Some d → d <= ts_availableAt ts)
  ∧ (rl = Some (ts_availableAt ts) ∨ ov = Some (ts_availableAt ts)).
Proof.
  intros H0. unfold resolveTransientlyCooledFamilySibling.
  destruct (bool_decide (acc_provider account = _)) eqn:Ep; cbn [negb]; [|done].
  destruct (acc_paused account) eqn:Epa; cbn [orb]; [done|].
  destruct (bool_decide (acc_rate_limited_reason account = _)) eqn:Er; [done|]. cbv zeta.
  destruct (_ <=? now) eqn:Ea; [done|]. prop_bools.
  destruct (existsb _ _) eqn:Ex; [done|]. intros [= <-]. cbn [ts_account ts_family ts_availableAt].
  rewrite <-exhausted_family_iff, Ex.
  assert (∀ d x, d = Some x → x <= now ∨ pending_until d now = x) as Hpend.
  { intros d x ->. unfold pending_until. destruct (now <? x) eqn:E; prop_bools; auto. }
  assert (∀ d, now < pending_until d now → d = Some (pending_until d now)) as Hback.
  { intros [d|]; cbn; [|lia]. destruct (now <? d) eqn:E; [done|lia]. }
  prop_bools. split_and!; try done.
  - intros d [Hd|Hd]; destruct (Hpend _ _ Hd) as [?|<-]; lia.
  - destruct (Z.max_spec (pending_until rl now) (pending_until ov now)) as [[_ Hm]|[_ Hm]];
      rewrite Hm in *; [right|left]; by apply Hback.
Qed.

(** * Examples *)

(** Opus 80% used at half of its week *)
Definition demo_scoped : AnthropicUsageData :=
  {| five_hour := None; seven_day := None; seven_day_oauth_apps := None;
     limits := [ {| kind := "weekly_scoped"; percent := Some (Qc_of_Z 80);
                    limit_resets_at := Some (Some (7 * DAY_MS)); display_name := Some "Opus"%string;
                    is_active := true |} ];
     extra_usage := None |}.

Lemma pacing_holds_until_on_pace_witness :
  ∃ fp, resolveFamilyWeeklyPacing (demo_row "a" 0) (Some "claude-opus-5"%string)
          (Some (AnthropicShape demo_scoped)) (Some demo_capacity) 1 = None
        ∧ resolveFamilyWeeklyPacing (demo_row "a" 0) (Some "claude-opus-5"%string)
          (Some (AnthropicShape demo_scoped))
          (Some {| minHeadroom := Qc_of_Z 50; sessionHeadroom := Qc_of_Z 80;
                   soonestResetMs := None; bindingUtilization := Qc_of_Z 50;
                   weeklyResetMs := None; bindingWeeklyResetMs := None;
                   weeklyHeadroom := Qc_of_Z 50; sessionResetMs := None;
                   extraUsageUtilization := None |}) (3 * DAY_MS) = Some fp
        ∧ (Qc_of_Z (3 * DAY_MS) < fp_resumeAt fp)%Qc.
Proof.
  destruct (resolveFamilyWeeklyPacing (demo_row "a" 0) (Some "claude-opus-5"%string)
              (Some (AnthropicShape demo_scoped))
              (Some {| minHeadroom := Qc_of_Z 50; sessionHeadroom := Qc_of_Z 80;
                   soonestResetMs := None; bindingUtilization := Qc_of_Z 50;
                   weeklyResetMs := None; bindingWeeklyResetMs := None;
                   weeklyHeadroom := Qc_of_Z 50; sessionResetMs := None;
                   extraUsageUtilization := None |}) (3 * DAY_MS)) as [fp|] eqn:E.
  - exists fp. split; [reflexivity|]. split; [reflexivity|].
    destruct (pacing_holds_until_on_pace _ _ _ _ _ _ E) as (_ & _ & _ & H & _). exact H.
  - exfalso. vm_compute in E. discriminate E.
Defined.

Lemma sibling_exact_witness :
  ∃ ts, resolveTransientlyCooledFamilySibling (demo_row "a" 0) Fable
          (Some (AnthropicShape demo_scoped)) (Some 5000) (Some 50) 100 = Some ts
        ∧ 100 < ts_availableAt ts.
Proof.
  eexists. split; [reflexivity|].
  eapply (sibling_exact (demo_row "a" 0) Fable (Some (AnthropicShape demo_scoped)) (Some 5000)
            (Some 50) 100); [lia|reflexivity].
Defined.
