(* ===== verification/Admission.v ===== *)
(** The admission gates of a request: [packages/proxy/src/admission-gates.ts].

    The gates read the breaker, the recovery probes, the failure memos, the protected
    demand, the weekly slopes and the readings of usage, and order or thin the candidates
    the strategy ranked. The readings come through an interface, [UsageFeed], and the
    upstream model of an account through [route], the frozen route of the request, which
    names one for every candidate. The clock is read once per gate. *)

From S2P Require Import Prelude Rationals Models Breaker Accounts ProbeGate Affinity.
From S2P Require Import Strategy Usage Pacing Memos Gates.
Open Scope Z_scope.

(** * Context windows: [packages/core/src/model-mappings.ts] and [models.ts] *)

Definition MODEL_CONTEXT_WINDOWS : list (string * Z) :=
  [("gpt-5.5", 272000); ("gpt-5.4", 272000); ("gpt-5.4-mini", 272000);
   ("gpt-5.3-codex-spark", 128000); ("gpt-5.6-sol", 272000); ("gpt-5.6-terra", 272000);
   ("gpt-5.6-luna", 272000); ("gpt-6-astra", 272000); ("gpt-6.1-sol", 272000);
   ("gpt-6-sol", 272000); ("gpt-6-luna", 272000)]%string.

Definition MODEL_MAX_CONTEXT_WINDOWS : list (string * Z) := [("gpt-6-astra", 872000)]%string.

Definition is_digit (c : Ascii.ascii) : bool :=
  let n := Ascii.N_of_ascii c in (48 <=? n)%N && (n <=? 57)%N.

(** [-YYYY-MM-DD] *)
Definition dated_suffix (s : string) : bool :=
  match String.list_ascii_of_string s with
  | [d1; y1; y2; y3; y4; d2; m1; m2; d3; a1; a2] =>
      forallb (Ascii.eqb (Ascii.ascii_of_nat 45)) [d1; d2; d3] && forallb is_digit [y1; y2; y3; y4; m1; m2; a1; a2]
  | _ => false
  end.

Definition stripDatedModelSuffix (modelId : string) : option string :=
  let n := String.length modelId in
  if bool_decide (11 < n)%nat && dated_suffix (String.substring (n - 11) 11 modelId)
  then Some (String.substring 0 (n - 11) modelId) else None.

Definition window_lookup (table : list (string * Z)) (model : string) : option Z :=
  match alist_get model table with
  | Some w => Some w
  | None => stripDatedModelSuffix model ≫= λ base, alist_get base table
  end.

Definition resolveModelContextWindow (model : string) : option Z :=
  window_lookup MODEL_CONTEXT_WINDOWS model.

Definition resolveModelMaxContextWindow (model : string) : option Z :=
  match window_lookup MODEL_MAX_CONTEXT_WINDOWS model with
  | Some w => Some w
  | None => resolveModelContextWindow model
  end.

(** [Math.floor(window * SAFETY_MARGIN)]; 0.97 of every window above is an integer, which
    the product of doubles gives exactly. *)
Definition admitted_tokens (window : Z) : Z := window * 97 / 100.

(** * Requests and readings *)

(** The [usageCache] *)
Record UsageFeed := {
  peek : string → option AnyUsageData;
  peekPollFreshAt : string → Z → option Z;
  routing_usage : string → string → Z → Z → option AnyUsageData
}.

Definition USAGE_CACHE_TTL_MS : Z := 10 * 60 * 1000.

Definition getFreshPollCapacity (cache : UsageFeed) (accountId provider : string)
    (now maxAgeMs : Z) : option CapacitySignal :=
  match peekPollFreshAt cache accountId now with
  | None => None
  | Some freshAt => if maxAgeMs <? now - freshAt then None
                    else getAccountCapacitySignal (peek cache accountId) provider now
  end.

Definition getFreshRoutingCapacity (cache : UsageFeed) (accountId provider : string)
    (now maxAgeMs : Z) : option CapacitySignal :=
  getAccountCapacitySignal (routing_usage cache accountId provider now maxAgeMs) provider now.

(** [AdmissionGateDeps] beside the metadata and the strategy *)
Record AdmissionGateDeps := {
  dep_path : string;
  gateTokenEstimate : Z;
  isSyntheticProbeRequest : bool;
  throttling : UsageThrottleSettings
}.

(** What the gates read of the other modules *)
Record modules := {
  mod_breaker : breaker;
  mod_gate : gate;
  mod_memo : memo;
  mod_failures : failures;
  mod_demand : demand;
  mod_slopes : slopes
}.

(** The state one request accumulates *)
Record gates := {
  contextExcludedAccounts : list (Account * string);
  familyWeeklyExcludedAccounts : list FamilyWeeklyExcludedAccount;
  familyWeeklyPacedAccounts : list FamilyWeeklyPacedAccount;
  softDemotionReasons : jmap string string;
  softDemotionHead : option Account;
  livenessHeldAtEveryTier : list string
}.

Definition gates_init : gates :=
  {| contextExcludedAccounts := []; familyWeeklyExcludedAccounts := [];
     familyWeeklyPacedAccounts := []; softDemotionReasons := ∅; softDemotionHead := None;
     livenessHeldAtEveryTier := [] |}.

Definition add_context (x : Account * string) (g : gates) : gates :=
  if existsb (λ y, bool_decide (acc_id y.1 = acc_id x.1)) (contextExcludedAccounts g) then g
  else {| contextExcludedAccounts := contextExcludedAccounts g ++ [x];
          familyWeeklyExcludedAccounts := familyWeeklyExcludedAccounts g;
          familyWeeklyPacedAccounts := familyWeeklyPacedAccounts g;
          softDemotionReasons := softDemotionReasons g; softDemotionHead := softDemotionHead g;
          livenessHeldAtEveryTier := livenessHeldAtEveryTier g |}.

Definition add_excluded (x : FamilyWeeklyExcludedAccount) (g : gates) : gates :=
  if existsb (λ y, bool_decide (acc_id (fx_account y) = acc_id (fx_account x)))
       (familyWeeklyExcludedAccounts g) then g
  else {| contextExcludedAccounts := contextExcludedAccounts g;
          familyWeeklyExcludedAccounts := familyWeeklyExcludedAccounts g ++ [x];
          familyWeeklyPacedAccounts := familyWeeklyPacedAccounts g;
          softDemotionReasons := softDemotionReasons g; softDemotionHead := softDemotionHead g;
          livenessHeldAtEveryTier := livenessHeldAtEveryTier g |}.

Definition add_paced (x : FamilyWeeklyPacedAccount) (g : gates) : gates :=
  if existsb (λ y, bool_decide (acc_id (fp_account y) = acc_id (fp_account x)))
       (familyWeeklyPacedAccounts g) then g
  else {| contextExcludedAccounts := contextExcludedAccounts g;
          familyWeeklyExcludedAccounts := familyWeeklyExcludedAccounts g;
          familyWeeklyPacedAccounts := familyWeeklyPacedAccounts g ++ [x];
          softDemotionReasons := softDemotionReasons g; softDemotionHead := softDemotionHead g;
          livenessHeldAtEveryTier := livenessHeldAtEveryTier g |}.

Section gates.
Context (cache : UsageFeed) (route : Account → string) (deps : AdmissionGateDeps).

Definition modelForAccount (a : Account) : string := route a.

(** * The gates that thin the candidates *)

(** [if (overloadedUntil)]: an instant that is not 0 *)
Definition truthy_instant (t : option Z) : option Z :=
  t ≫= λ t, if t =? 0 then None else Some t.

Definition applyProviderOverloadGate (accounts : list Account) (now : Z) (m : modules)
    : list Account * list (Account * Z) :=
  foldl (λ acc a,
    match truthy_instant (getProviderOverloadUntil (mod_breaker m) (acc_provider a) now
                            (Some (modelForAccount a))) with
    | Some t => (acc.1, acc.2 ++ [(a, t)])
    | None => (acc.1 ++ [a], acc.2)
    end) ([], []) accounts.

Definition shouldForwardProviderOverloadIfNoCrossProviderFallback (candidates : list Account)
    (index : nat) (now : Z) (m : modules) : bool :=
  match candidates !! index with
  | None => false
  | Some current =>
      let key := getProviderOverloadKey (acc_provider current) in
      if negb (bool_decide (key = ANTHROPIC_UPSTREAM_OVERLOAD_KEY)) then false
      else
        negb (existsb (λ a,
          negb (bool_decide (getProviderOverloadKey (acc_provider a) = key))
          && negb (isProviderOverloaded (mod_breaker m) (acc_provider a) now
                     (Some (modelForAccount a))))
          (drop (S index) candidates))
  end.

Definition everyRemainingCandidateUnattemptable (candidates : list Account) (index : nat)
    (now : Z) (m : modules) : bool :=
  forallb (λ a,
    negb (isAccountAvailable a now) || wouldSuppressProbe a now (mod_gate m)
    || isProviderOverloaded (mod_breaker m) (acc_provider a) now (Some (modelForAccount a)))
    (drop (S index) candidates).

Definition applyUsageThrottling (accounts : list Account) (now : Z)
    : list Account * list Account :=
  if isSyntheticProbeRequest deps then (accounts, [])
  else if negb (fiveHourEnabled (throttling deps)) && negb (weeklyEnabled (throttling deps))
  then (accounts, [])
  else
    foldl (λ acc a,
      let throttleUntil :=
        getUsageThrottleUntil
          (routing_usage cache (acc_id a) (acc_provider a) now USAGE_CACHE_TTL_MS)
          (throttling deps) now (acc_provider a) (nonRenewingSubscriptionEnd a now) in
      match throttleUntil with
      | Some t => if negb (bool_decide (t = 0%Qc)) && bool_decide (Qc_of_Z now < t)%Qc
                  then (acc.1, acc.2 ++ [a]) else (acc.1 ++ [a], acc.2)
      | None => (acc.1 ++ [a], acc.2)
      end) ([], []) accounts.

Definition context_excludes (a : Account) : bool :=
  match resolveModelMaxContextWindow (modelForAccount a) with
  | Some w => admitted_tokens w <? gateTokenEstimate deps
  | None => false
  end.

Definition applyContextWindowGate (candidates : list Account) (g : gates)
    : list Account * gates :=
  foldl (λ acc a,
    if negb (bool_decide (acc_provider a = "codex"%string)) then (acc.1 ++ [a], acc.2)
    else if context_excludes a then (acc.1, add_context (a, modelForAccount a) acc.2)
    else (acc.1 ++ [a], acc.2)) ([], g) candidates.

(** What the family-weekly gate finds about an account *)
Definition family_verdict (a : Account) (now : Z)
    : option FamilyWeeklyExcludedAccount * option FamilyWeeklyPacedAccount :=
  if negb (bool_decide (acc_provider a = "anthropic"%string)) then (None, None)
  else
    let pacingEnabled := negb (isSyntheticProbeRequest deps) && weeklyEnabled (throttling deps) in
    let model := Some (modelForAccount a) in
    let capacity := getFreshPollCapacity cache (acc_id a) (acc_provider a) now
                      FAMILY_WEEKLY_MAX_USAGE_AGE_MS in
    let usageData := peek cache (acc_id a) in
    match resolveFamilyWeeklyExclusion a model usageData capacity now with
    | Some x => (Some x, None)
    | None => (None, if pacingEnabled
                     then resolveFamilyWeeklyPacing a model usageData capacity now else None)
    end.

Definition applyFamilyWeeklyGate (candidates : list Account) (now : Z) (g : gates)
    : list Account * gates :=
  foldl (λ acc a,
    match family_verdict a now with
    | (Some x, _) => (acc.1, add_excluded x acc.2)
    | (None, Some p) => (acc.1, add_paced p acc.2)
    | (None, None) => (acc.1 ++ [a], acc.2)
    end) ([], g) candidates.

(** * The reorders *)

(** Whether a failure is remembered for the account; the memos drop what has expired. *)
Definition memo_demotes (a : Account) (now : Z) (m : modules) : bool * modules :=
  let '(transientUntil, failures') :=
    if bool_decide (acc_provider a = "codex"%string) && negb (isSyntheticProbeRequest deps)
    then getCodexTransientFailureUntil (acc_id a) now (mod_failures m)
    else (None, mod_failures m) in
  let family := if bool_decide (acc_provider a = "anthropic"%string)
                then getModelFamily (modelForAccount a) else None in
  let '(resetAt, memo') :=
    match family with
    | Some f => getFamilyWeeklyExhaustedUntil (acc_id a) f now (mod_memo m)
    | None => (None, mod_memo m)
    end in
  (bool_decide (is_Some transientUntil) || bool_decide (is_Some resetAt),
   {| mod_breaker := mod_breaker m; mod_gate := mod_gate m; mod_memo := memo';
      mod_failures := failures'; mod_demand := mod_demand m; mod_slopes := mod_slopes m |}).

Definition memo_partition (candidates : list Account) (now : Z) (m : modules)
    : list Account * list Account * modules :=
  foldl (λ acc a,
    let '(kept, demoted, m) := acc in
    let '(d, m) := memo_demotes a now m in
    if (d : bool) then (kept, demoted ++ [a], m) else (kept ++ [a], demoted, m))
    ([], [], m) candidates.

Definition applyFailureMemoDemotion (candidates : list Account) (now : Z) (m : modules)
    : list Account * modules :=
  let '(kept, demoted, m) := memo_partition candidates now m in
  (match demoted with [] => candidates | _ => kept ++ demoted end, m).

Definition capacity_of (a : Account) (now : Z) : option CapacitySignal :=
  getFreshRoutingCapacity cache (acc_id a) (acc_provider a) now FAMILY_WEEKLY_MAX_USAGE_AGE_MS.

(** [capacityById], [familyDemote] and [livenessThreshold]: the last account of an id wins,
    as in the [Map] *)
Definition of_id (candidates : list Account) (id : string) : option Account :=
  last (filter (λ a, acc_id a = id) candidates).

Definition capacityById (candidates : list Account) (now : Z) (id : string)
    : option CapacitySignal :=
  of_id candidates id ≫= λ a, capacity_of a now.

Definition familyDemote (candidates : list Account) (now : Z) (m : modules) (id : string) : bool :=
  match of_id candidates id with
  | None => false
  | Some a =>
      resolveReservationDemotion a (Some (modelForAccount a)) (peek cache id)
        (capacityById candidates now id) (getLastProtectedFamilyDemand id (mod_demand m)) now
  end.

Definition livenessThreshold (candidates : list Account) (id : string) : Qc :=
  match of_id candidates id with
  | None => resolveLivenessReserveThreshold false
  | Some a => resolveLivenessReserveThreshold
                (isProtectedFamily (getModelFamily (modelForAccount a)))
  end.

Definition absorbs (candidates : list Account) (now : Z) (m : modules) (threshold : Qc)
    (peer : Account) : bool :=
  isAbsorbablePeer (capacityById candidates now (acc_id peer))
    (familyDemote candidates now m (acc_id peer))
    (hasCapacityRestoredProbePending (acc_id peer) (mod_gate m)) threshold.

Definition countAbsorbablePeers (candidates : list Account) (now : Z) (m : modules)
    (a : Account) (threshold : Qc) : Z :=
  Z.of_nat (length (filter (λ p, acc_id p ≠ acc_id a ∧ absorbs candidates now m threshold p = true)
                      candidates)).

Definition livenessDemotes (candidates : list Account) (now : Z) (m : modules) (a : Account)
    (threshold : Qc) : bool :=
  let c := capacityById candidates now (acc_id a) in
  resolvePoolLivenessDemotion c (countAbsorbablePeers candidates now m a threshold) now
    {| reserveThresholdPct := threshold;
       weeklySlopePctPerHour := resolveEffectiveWeeklySlope (acc_id a) c now (mod_slopes m);
       subscriptionEndMs := nonRenewingSubscriptionEnd a now |}.

(** The liveness decision at the account's own tier *)
Definition liveness (candidates : list Account) (now : Z) (m : modules) (a : Account) : bool :=
  livenessDemotes candidates now m a (livenessThreshold candidates (acc_id a)).

Definition held_at_every_tier (candidates : list Account) (now : Z) (m : modules) (a : Account)
    : bool :=
  liveness candidates now m a
  && (bool_decide (livenessThreshold candidates (acc_id a)
                   = LIVENESS_RESERVE_PROTECTED_HEADROOM_PCT)
      || livenessDemotes candidates now m a LIVENESS_RESERVE_PROTECTED_HEADROOM_PCT).

Definition demotion_reason (candidates : list Account) (now : Z) (m : modules) (a : Account)
    : option string :=
  match familyDemote candidates now m (acc_id a), liveness candidates now m a with
  | true, true => Some "both"%string
  | true, false => Some "family reservation"%string
  | false, true => Some "pool liveness"%string
  | false, false => None
  end.

(** The loop: kept, demoted, reasons, held at every tier *)
Definition soft_step (candidates : list Account) (now : Z) (m : modules)
    (acc : list Account * list Account * jmap string string * list string) (a : Account)
    : list Account * list Account * jmap string string * list string :=
  let '(kept, demoted, reasons, held) := acc in
  let held := if held_at_every_tier candidates now m a then held ++ [acc_id a] else held in
  match demotion_reason candidates now m a with
  | Some r => (kept, demoted ++ [a], <[acc_id a := r]> reasons, held)
  | None => (kept ++ [a], demoted, reasons, held)
  end.

Definition applySoftDemotionReorder (candidates : list Account) (now : Z) (m : modules)
    (g : gates) : list Account * gates :=
  let '(kept, demoted, reasons, held) :=
    foldl (soft_step candidates now m) ([], [], ∅, []) candidates in
  (kept ++ demoted,
   {| contextExcludedAccounts := contextExcludedAccounts g;
      familyWeeklyExcludedAccounts := familyWeeklyExcludedAccounts g;
      familyWeeklyPacedAccounts := familyWeeklyPacedAccounts g;
      softDemotionReasons := reasons; softDemotionHead := head kept;
      livenessHeldAtEveryTier := held |}).

(** * The pin *)

Context (sha256 : string → string) (sessionDurationMs : Z) (store : option StrategyStore)
  (meta : RequestMeta).

(** [heldAccountId ?? selectedAccountId] *)
Definition routed_account (r : RequestRoutingMeta) : option string :=
  match rt_heldAccountId r with Some h => Some h | None => rt_selectedAccountId r end.

Definition durably_excluded (id : string) (g : gates) : bool :=
  existsb (λ x, bool_decide (acc_id x.1 = id)) (contextExcludedAccounts g)
  || existsb (λ x, bool_decide (acc_id (fx_account x) = id)) (familyWeeklyExcludedAccounts g).

Definition reconcileAffinity (candidates : list Account) (now : Z) (g : gates)
    (w : Strategy.world) : Strategy.world :=
  match w_routing w with
  | None => w
  | Some r =>
      if isSyntheticProbeRequest deps || negb (bool_decide (rt_strategy r = "session"%string))
      then w
      else
        match truthy_string (routed_account r), candidates with
        | Some original, first :: _ =>
            if existsb (λ a, bool_decide (acc_id a = original)) candidates then w
            else if durably_excluded original g
            then reassignAffinity sha256 sessionDurationMs store meta first now w
            else w
        | _, _ => w
        end
  end.

Definition FOLLOWABLE_AFFINITY_DECISIONS : list string :=
  ["affinity_hit"; "affinity_miss"; "affinity_reassigned"]%string.

(** The pinned account and the head the callback closes over *)
Definition prepareSoftDemotionFollow (candidates : list Account) (g : gates)
    (w : Strategy.world) : option (Account * Account) :=
  match w_routing w with
  | None => None
  | Some r =>
      if isSyntheticProbeRequest deps
         || bool_decide (dep_path deps = "/v1/messages/count_tokens"%string)
         || negb (bool_decide (rt_strategy r = "session"%string))
         || negb (bool_decide (rt_decision r ∈ FOLLOWABLE_AFFINITY_DECISIONS))
      then None
      else
        match List.find (λ a, bool_decide (Some (acc_id a) = routed_account r)) candidates,
              softDemotionHead g with
        | Some pinned, Some head =>
            match truthy_string (softDemotionReasons g !! acc_id pinned) with
            | None => None
            | Some reason =>
                if negb (bool_decide (acc_id <$> List.head candidates = Some (acc_id head)))
                   || bool_decide (acc_id head = acc_id pinned)
                   || negb (bool_decide (acc_provider head = acc_provider pinned))
                   || (negb (bool_decide (is_Some (getAffinityModel meta)))
                       && (negb (bool_decide (reason = "pool liveness"%string))
                           || negb (bool_decide (acc_id pinned ∈ livenessHeldAtEveryTier g))))
                then None else Some (pinned, head)
            end
        | _, _ => None
        end
  end.

(** The callback, once [served] has answered the request *)
Definition follow (served : Account) (f : Account * Account) (now : Z) (w : Strategy.world)
    : Strategy.world :=
  if bool_decide (acc_id served = acc_id f.2)
  then followAffinity sha256 sessionDurationMs meta (acc_id f.1) f.2 now w else w.
End gates.

(** * Partitions *)

Lemma filter_both {A} (P : A → Prop) `{!∀ x, Decision (P x)} (l : list A) :
  filter (λ x, ¬ P x) l ++ filter P l ≡ₚ l.
Proof.
  induction l as [|x l IH]; [done|]. destruct (decide (P x)) as [Hp|Hp].
  - rewrite filter_cons_False, filter_cons_True by tauto. by rewrite <-Permutation_middle, IH.
  - rewrite filter_cons_True, filter_cons_False by tauto. cbn. by rewrite IH.
Qed.

(** Nothing to move: the order is kept. *)
Lemma partition_or_same {A} (P : A → Prop) `{!∀ x, Decision (P x)} (l : list A) :
  match filter P l with [] => l | _ => filter (λ x, ¬ P x) l ++ filter P l end
  = filter (λ x, ¬ P x) l ++ filter P l.
Proof.
  destruct (filter P l) as [|a l'] eqn:E; [|done]. rewrite app_nil_r. symmetry.
  apply filter_all. intros x Hx Hp. apply (not_elem_of_nil x). rewrite <-E.
  by apply list_elem_of_filter.
Qed.

Lemma head_filter_elem {A} (P : A → Prop) `{!∀ x, Decision (P x)} (l : list A) x :
  x ∈ l → P x → ∃ h, head (filter P l) = Some h ∧ h ∈ l ∧ P h.
Proof.
  intros Hx Hp. assert (x ∈ filter P l) as Hin by (by apply list_elem_of_filter).
  destruct (filter P l) as [|h t] eqn:E; [by apply elem_of_nil in Hin|].
  exists h. split; [done|]. assert (h ∈ filter P l) as Hh by (rewrite E; by left).
  apply list_elem_of_filter in Hh. tauto.
Qed.

Section soft_theory.
Context (cache : UsageFeed) (route : Account → string).
Context (candidates : list Account) (now : Z) (m : modules).

Abbreviation reason := (demotion_reason cache route candidates now m).
Abbreviation stays := (λ a, reason a = None).

Definition note_reason (rs : jmap string string) (a : Account) : jmap string string :=
  match reason a with Some r => <[acc_id a := r]> rs | None => rs end.
Abbreviation note := note_reason.

Lemma soft_fold (l : list Account) kept demoted reasons held :
  foldl (soft_step cache route candidates now m) (kept, demoted, reasons, held) l
  = (kept ++ filter stays l, demoted ++ filter (λ a, ¬ stays a) l,
     foldl note reasons l,
     held ++ (acc_id <$> filter (λ a, held_at_every_tier cache route candidates now m a = true) l)).
Proof.
  revert kept demoted reasons held. induction l as [|a l IH]; intros kept demoted reasons held.
  { cbn. by rewrite !app_nil_r. }
  cbn [foldl]. unfold soft_step at 2. unfold note at 2.
  assert ((acc_id <$> filter (λ a, held_at_every_tier cache route candidates now m a = true)
                   (a :: l))
    = (if held_at_every_tier cache route candidates now m a then [acc_id a] else [])
      ++ (acc_id <$> filter (λ a, held_at_every_tier cache route candidates now m a = true) l))
    as ->.
  { destruct (held_at_every_tier cache route candidates now m a) eqn:E.
    - by rewrite filter_cons_True.
    - rewrite filter_cons_False; [done|]. by rewrite E. }
  destruct (reason a) as [r|] eqn:Er; rewrite IH.
  - rewrite filter_cons_False, filter_cons_True by (rewrite Er; auto).
    by destruct (held_at_every_tier _ _ _ _ _ a); rewrite <-?app_assoc.
  - rewrite filter_cons_True, filter_cons_False by (rewrite Er; auto).
    by destruct (held_at_every_tier _ _ _ _ _ a); rewrite <-?app_assoc.
Qed.

Lemma reasons_lookup (l : list Account) (rs : jmap string string) (a : Account) :
  NoDup (acc_id <$> l) → a ∈ l → rs !! acc_id a = None →
  foldl note rs l
    !! acc_id a = reason a.
Proof.
  assert (∀ (l : list Account) (rs : jmap string string) (id : string), id ∉ acc_id <$> l →
    foldl note rs l !! id
    = rs !! id) as Hother.
  { clear l rs a. induction l as [|b l IH]; intros rs id Hid; [done|].
    cbn [fmap list_fmap] in Hid. apply not_elem_of_cons in Hid as [Hne Hid].
    cbn [foldl]. rewrite IH by done. unfold note. destruct (reason b); [|done].
    by rewrite jlookup_insert_ne. }
  revert rs. induction l as [|b l IH]; intros rs Hnd Ha Hrs; [by apply elem_of_nil in Ha|].
  cbn [fmap list_fmap] in Hnd. apply NoDup_cons in Hnd as [Hb Hnd]. cbn [foldl].
  apply elem_of_cons in Ha as [->|Ha].
  - rewrite Hother by done. unfold note. destruct (reason b); [by rewrite jlookup_insert_eq|done].
  - apply IH; [done|done|]. unfold note. destruct (reason b); [|done].
    rewrite jlookup_insert_ne; [done|]. intros Heq. apply Hb. rewrite Heq.
    by apply list_elem_of_fmap_2.
Qed.

Lemma soft_reorder_eq g :
  applySoftDemotionReorder cache route candidates now m g
  = (filter stays candidates ++ filter (λ a, ¬ stays a) candidates,
     {| contextExcludedAccounts := contextExcludedAccounts g;
        familyWeeklyExcludedAccounts := familyWeeklyExcludedAccounts g;
        familyWeeklyPacedAccounts := familyWeeklyPacedAccounts g;
        softDemotionReasons :=
          foldl note
            ∅ candidates;
        softDemotionHead := head (filter stays candidates);
        livenessHeldAtEveryTier :=
          acc_id <$> filter (λ a, held_at_every_tier cache route candidates now m a = true)
                       candidates |}).
Proof. unfold applySoftDemotionReorder. by rewrite soft_fold. Qed.

(** ** Someone stays *)

Context (Hnd : NoDup (acc_id <$> candidates)).

Lemma of_id_candidate a : a ∈ candidates → of_id candidates (acc_id a) = Some a.
Proof using Hnd.
  intros Ha. unfold of_id.
  assert (filter (λ b, acc_id b = acc_id a) candidates = [a]) as ->; [|done].
  clear -Hnd Ha. induction candidates as [|b l IH]; [by apply elem_of_nil in Ha|].
  cbn [fmap list_fmap] in Hnd. apply NoDup_cons in Hnd as [Hb Hl].
  apply elem_of_cons in Ha as [->|Ha].
  - rewrite filter_cons_True by done. f_equal. apply filter_none.
    intros c Hc Heq. apply Hb. rewrite <-Heq. by apply list_elem_of_fmap_2.
  - rewrite filter_cons_False; [by apply IH|]. intros Heq. apply Hb. rewrite Heq.
    by apply list_elem_of_fmap_2.
Qed.

Lemma capacityById_ok id c : capacityById cache candidates now id = Some c → signal_ok now c.
Proof.
  unfold capacityById. intros (a & _ & Hc)%bind_Some. by eapply getAccountCapacitySignal_ok.
Qed.

Lemma threshold_cases id :
  livenessThreshold route candidates id = LIVENESS_RESERVE_PROTECTED_HEADROOM_PCT
  ∨ livenessThreshold route candidates id = LIVENESS_RESERVE_HEADROOM_PCT.
Proof.
  unfold livenessThreshold, resolveLivenessReserveThreshold.
  destruct (of_id candidates id); [destruct (isProtectedFamily _)|]; auto.
Qed.

Abbreviation absorber := (λ t p, absorbs cache route candidates now m t p = true).

Lemma absorber_capacity t p :
  absorber t p →
  ∃ c, capacityById cache candidates now (acc_id p) = Some c ∧ (t <= minHeadroom c)%Qc
    ∧ familyDemote cache route candidates now m (acc_id p) = false
    ∧ hasCapacityRestoredProbePending (acc_id p) (mod_gate m) = false.
Proof.
  unfold absorbs, isAbsorbablePeer.
  destruct (capacityById cache candidates now (acc_id p)) as [c|]; [|done].
  rewrite !andb_true_iff, !negb_true_iff. intros [[Hc%bool_decide_eq_false ?] ?].
  exists c. split_and!; try done. by apply Qcnot_lt_le.
Qed.

Lemma absorber_lower t t' p : (t' <= t)%Qc → absorber t p → absorber t' p.
Proof.
  intros Hle Hp. destruct (absorber_capacity _ _ Hp) as (c & Hc & Hmin & Hf & Ho).
  unfold absorbs, isAbsorbablePeer. rewrite Hc, Hf, Ho.
  rewrite bool_decide_eq_false_2; [done|]. apply Qcle_not_lt. by eapply Qcle_trans.
Qed.

(** An account that absorbs at a tier at least its own is not held back. *)
Lemma absorber_liveness t p :
  absorber t p → (livenessThreshold route candidates (acc_id p) <= t)%Qc →
  liveness cache route candidates now m p = false.
Proof.
  intros Hp Hle. destruct (absorber_capacity _ _ Hp) as (c & Hc & _).
  unfold liveness, livenessDemotes. cbv zeta. rewrite Hc.
  eapply (absorbing_not_demoted now c t); [by eapply capacityById_ok| |exact Hle| |done].
  - unfold absorbs in Hp. rewrite Hc in Hp. exact Hp.
  - by destruct (threshold_cases (acc_id p)) as [-> | ->].
Qed.

Lemma liveness_peer a :
  liveness cache route candidates now m a = true →
  ∃ p, p ∈ candidates ∧ acc_id p ≠ acc_id a
       ∧ absorber (livenessThreshold route candidates (acc_id a)) p.
Proof.
  unfold liveness, livenessDemotes. cbv zeta.
  destruct (capacityById cache candidates now (acc_id a)) as [c|]; [|done].
  intros (_ & Hn & _)%liveness_demotes. unfold countAbsorbablePeers in Hn.
  destruct (filter _ candidates) as [|p ps] eqn:E; [cbn in Hn; lia|].
  assert (p ∈ filter (λ p, acc_id p ≠ acc_id a
    ∧ absorbs cache route candidates now m (livenessThreshold route candidates (acc_id a)) p = true)
    candidates) as Hp by (rewrite E; by left).
  apply list_elem_of_filter in Hp as [[Hne Hp] Hin]. by exists p.
Qed.

(** Whoever is held back for liveness leaves a peer that is not held back. *)
Lemma liveness_keeps_absorber a :
  a ∈ candidates → liveness cache route candidates now m a = true →
  ∃ p, p ∈ candidates ∧ acc_id p ≠ acc_id a ∧ reason p = None
       ∧ absorber LIVENESS_RESERVE_PROTECTED_HEADROOM_PCT p.
Proof.
  intros Ha Hlive. destruct (liveness_peer a Hlive) as (p & Hp & Hne & Habs).
  assert (∀ q, absorber LIVENESS_RESERVE_PROTECTED_HEADROOM_PCT q →
          liveness cache route candidates now m q = false → reason q = None) as Hstays.
  { intros q (c & _ & _ & Hf & _)%absorber_capacity Hq. unfold demotion_reason. by rewrite Hf, Hq. }
  assert (∀ id, (LIVENESS_RESERVE_PROTECTED_HEADROOM_PCT
                 <= livenessThreshold route candidates id)%Qc
                ∧ (livenessThreshold route candidates id <= LIVENESS_RESERVE_HEADROOM_PCT)%Qc)
    as Hband by (intros id; by destruct (threshold_cases id) as [-> | ->]).
  apply (absorber_lower _ _ _ (proj1 (Hband (acc_id a)))) in Habs as Hlow.
  destruct (liveness cache route candidates now m p) eqn:Hlp; [|by exists p; auto].
  destruct (liveness_peer p Hlp) as (q & Hq & _ & Hqabs).
  assert (livenessThreshold route candidates (acc_id p) = LIVENESS_RESERVE_HEADROOM_PCT) as Htp.
  { destruct (threshold_cases (acc_id p)) as [Ht|]; [|done].
    rewrite (absorber_liveness _ _ Hlow) in Hlp; [done|]. rewrite Ht. apply Qcle_refl. }
  rewrite Htp in Hqabs. exists q.
  assert (LIVENESS_RESERVE_PROTECTED_HEADROOM_PCT <= LIVENESS_RESERVE_HEADROOM_PCT)%Qc as Htiers
    by done. split_and!; [done| | |].
  - intros Heq. assert (absorber LIVENESS_RESERVE_HEADROOM_PCT a) as Haabs.
    { unfold absorbs in *. by rewrite <-Heq. }
    rewrite (absorber_liveness _ _ Haabs) in Hlive; [done|]. apply Hband.
  - apply Hstays; [exact (absorber_lower _ _ _ Htiers Hqabs)|].
    eapply absorber_liveness; [done|]. apply Hband.
  - exact (absorber_lower _ _ _ Htiers Hqabs).
Qed.
End soft_theory.

(** The soft reorder. The reordered candidates are those with no reason to be held back
    followed by the others, each in the order they came: nobody is dropped, and an entirely
    demoted pool keeps its order. The recorded reasons, the head and the accounts held at
    every tier are those of this order. *)
Theorem soft_reorder_stable cache route candidates now m g :
  NoDup (acc_id <$> candidates) →
  let stays a := demotion_reason cache route candidates now m a = None in
  let '(ordered, g') := applySoftDemotionReorder cache route candidates now m g in
  ordered = filter stays candidates ++ filter (λ a, ¬ stays a) candidates
  ∧ ordered ≡ₚ candidates
  ∧ (∀ a, a ∈ candidates →
       softDemotionReasons g' !! acc_id a = demotion_reason cache route candidates now m a)
  ∧ softDemotionHead g' = head (filter stays candidates)
  ∧ (∀ a, a ∈ candidates → held_at_every_tier cache route candidates now m a = true →
       acc_id a ∈ livenessHeldAtEveryTier g').
Proof.
  intros Hnd. cbv zeta. rewrite soft_reorder_eq. split_and!; [done| | |done|].
  - rewrite Permutation_app_comm.
    apply (filter_both (λ a, demotion_reason cache route candidates now m a = None)).
  - intros a Ha. cbn [softDemotionReasons]. by apply reasons_lookup.
  - intros a Ha Hheld. cbn [livenessHeldAtEveryTier].
    apply list_elem_of_fmap_2, list_elem_of_filter. done.
Qed.

(** C5: The reserve never strands the pool. When an account is held back for pool liveness,
    whatever the tiers of the candidates, the account put first is one that is not held
    back, and some account that is not held back has a tenth of every window left, is not
    reserved for the protected family and owes no recovery probe. *)
Theorem liveness_leaves_absorber cache route candidates now m g a :
  NoDup (acc_id <$> candidates) → a ∈ candidates →
  liveness cache route candidates now m a = true →
  let '(ordered, g') := applySoftDemotionReorder cache route candidates now m g in
  (∃ h, head ordered = Some h ∧ softDemotionHead g' = Some h ∧ h ∈ candidates
        ∧ demotion_reason cache route candidates now m h = None)
  ∧ ∃ p c, p ∈ candidates ∧ acc_id p ≠ acc_id a
      ∧ demotion_reason cache route candidates now m p = None
      ∧ getFreshRoutingCapacity cache (acc_id p) (acc_provider p) now
          FAMILY_WEEKLY_MAX_USAGE_AGE_MS = Some c
      ∧ (Qc_of_Z 10 <= minHeadroom c)%Qc
      ∧ hasCapacityRestoredProbePending (acc_id p) (mod_gate m) = false.
Proof.
  intros Hnd Ha Hlive. rewrite soft_reorder_eq.
  destruct (liveness_keeps_absorber cache route candidates now m a Ha Hlive)
    as (p & Hp & Hne & Hstays & Habs).
  split.
  - destruct (head_filter_elem (λ a, demotion_reason cache route candidates now m a = None)
                candidates p Hp Hstays) as (h & Hh & Hin & Hhs).
    exists h. cbn [softDemotionHead]. split_and!; [|done|done|done].
    destruct (filter _ candidates); [done|]. exact Hh.
  - destruct (absorber_capacity _ _ _ _ _ _ _ Habs) as (c & Hc & Hmin & _ & Hprobe).
    unfold capacityById in Hc. rewrite of_id_candidate in Hc by done.
    exists p, c. split_and!; done.
Qed.

(** * The failure memos *)

Section memo_theory.
Context (route : Account → string) (deps : AdmissionGateDeps) (now : Z).

(** What reading the memos keeps: every answer at this instant *)
Definition same_reads (m m' : modules) : Prop :=
  (∀ id, (getCodexTransientFailureUntil id now (mod_failures m)).1
         = (getCodexTransientFailureUntil id now (mod_failures m')).1)
  ∧ (∀ id f, (getFamilyWeeklyExhaustedUntil id f now (mod_memo m)).1
             = (getFamilyWeeklyExhaustedUntil id f now (mod_memo m')).1).

Lemma failures_read_read id id' (l : failures) :
  (getCodexTransientFailureUntil id' now (getCodexTransientFailureUntil id now l).2).1
  = (getCodexTransientFailureUntil id' now l).1.
Proof.
  unfold getCodexTransientFailureUntil at 2. destruct (l !! id) as [e|] eqn:E; [|done].
  destruct (tr_until e <=? now) eqn:Ee; [|done]. cbn [snd].
  unfold getCodexTransientFailureUntil. destruct (decide (id = id')) as [<-|Hne].
  - by rewrite jlookup_delete_eq, E, Ee.
  - rewrite jlookup_delete_ne by done. destruct (l !! id') as [e'|]; [|done].
    by destruct (tr_until e' <=? now).
Qed.

Lemma memo_read_read id f id' f' (l : memo) :
  (getFamilyWeeklyExhaustedUntil id' f' now (getFamilyWeeklyExhaustedUntil id f now l).2).1
  = (getFamilyWeeklyExhaustedUntil id' f' now l).1.
Proof.
  unfold getFamilyWeeklyExhaustedUntil at 2. destruct (l !! keyFor id f) as [e|] eqn:E; [|done].
  destruct (me_resetAt e <=? now) eqn:Ee; [|done]. cbn [snd].
  unfold getFamilyWeeklyExhaustedUntil.
  destruct (decide (keyFor id f = keyFor id' f')) as [Hk|Hne].
  - by rewrite <-Hk, jlookup_delete_eq, E, Ee.
  - rewrite jlookup_delete_ne by done. destruct (l !! keyFor id' f') as [e'|]; [|done].
    by destruct (me_resetAt e' <=? now).
Qed.

Lemma memo_demotes_same a m : same_reads m (memo_demotes route deps a now m).2.
Proof.
  unfold memo_demotes. split.
  - intros id. pose proof (failures_read_read (acc_id a) id (mod_failures m)) as H.
    destruct (bool_decide _ && _);
      [destruct (getCodexTransientFailureUntil (acc_id a) now (mod_failures m)) as [t l]|];
      (destruct (if bool_decide (acc_provider a = "anthropic"%string) then _ else _) as [g|];
        [destruct (getFamilyWeeklyExhaustedUntil _ g _ _)|]); cbn in *; congruence.
  - intros id f. destruct (if bool_decide _ && _ then _ else _) as [t l].
    destruct (if bool_decide (acc_provider a = "anthropic"%string) then _ else _) as [g|]; [|done].
    pose proof (memo_read_read (acc_id a) g id f (mod_memo m)) as H.
    destruct (getFamilyWeeklyExhaustedUntil (acc_id a) g now (mod_memo m)) as [t' l'].
    cbn in *. congruence.
Qed.

Lemma memo_demotes_ext a m m' :
  same_reads m m' →
  (memo_demotes route deps a now m).1 = (memo_demotes route deps a now m').1.
Proof.
  intros [Hf Hm]. unfold memo_demotes.
  destruct (bool_decide _ && _).
  - specialize (Hf (acc_id a)).
    destruct (getCodexTransientFailureUntil _ _ (mod_failures m)) as [t l],
      (getCodexTransientFailureUntil _ _ (mod_failures m')) as [t' l']. cbn in Hf. subst t'.
    destruct (if bool_decide _ then _ else _) as [g|]; [|done]. specialize (Hm (acc_id a) g).
    destruct (getFamilyWeeklyExhaustedUntil _ _ _ (mod_memo m)),
      (getFamilyWeeklyExhaustedUntil _ _ _ (mod_memo m')). cbn in *. by subst.
  - destruct (if bool_decide _ then _ else _) as [g|]; [|done]. specialize (Hm (acc_id a) g).
    destruct (getFamilyWeeklyExhaustedUntil _ _ _ (mod_memo m)),
      (getFamilyWeeklyExhaustedUntil _ _ _ (mod_memo m')). cbn in *. by subst.
Qed.

Lemma memo_partition_fold l kept demoted m m0 :
  same_reads m0 m →
  let '(k, d, _) :=
    foldl (λ acc a,
      let '(kept, demoted, m) := acc in
      let '(d, m) := memo_demotes route deps a now m in
      if (d : bool) then (kept, demoted ++ [a], m) else (kept ++ [a], demoted, m))
      (kept, demoted, m) l in
  k = kept ++ filter (λ a, ¬ (memo_demotes route deps a now m0).1 = true) l
  ∧ d = demoted ++ filter (λ a, (memo_demotes route deps a now m0).1 = true) l.
Proof.
  revert kept demoted m. induction l as [|a l IH]; intros kept demoted m Hm.
  { cbn. by rewrite !app_nil_r. }
  cbn [foldl]. pose proof (memo_demotes_ext a m0 m Hm) as Ha.
  pose proof (memo_demotes_same a m) as Hm'.
  destruct (memo_demotes route deps a now m) as [d m'] eqn:E. cbn [fst snd] in *.
  assert (same_reads m0 m') as Hnext.
  { destruct Hm as [H1 H2], Hm' as [H3 H4]. split; intros; [by rewrite H1, H3|by rewrite H2, H4]. }
  destruct d; [specialize (IH kept (demoted ++ [a]) m' Hnext)|
    specialize (IH (kept ++ [a]) demoted m' Hnext)];
    destruct (foldl _ _ l) as [[k d] ?]; destruct IH as [-> ->].
  - rewrite filter_cons_False, filter_cons_True by (rewrite Ha; auto). by rewrite <-app_assoc.
  - rewrite filter_cons_True, filter_cons_False by (rewrite Ha; auto). by rewrite <-app_assoc.
Qed.
End memo_theory.

(** The last partition. The accounts a memo remembers a failure of go behind the others,
    both in their order and decided by the memos as they were before the pass, although
    reading them drops what has expired: nobody is dropped and an entirely demoted pool
    keeps its order. *)
Theorem failure_memo_partition route deps candidates now m :
  let demoted a := (memo_demotes route deps a now m).1 = true in
  let r := applyFailureMemoDemotion route deps candidates now m in
  r.1 = filter (λ a, ¬ demoted a) candidates ++ filter demoted candidates
  ∧ r.1 ≡ₚ candidates.
Proof.
  cbv zeta. unfold applyFailureMemoDemotion, memo_partition.
  pose proof (memo_partition_fold route deps now candidates [] [] m m) as H.
  destruct (foldl _ _ candidates) as [[k d] m']. destruct H as [-> ->]; [done|].
  cbn [app fst]. rewrite partition_or_same.
  split; [done|apply (filter_both (λ a, (memo_demotes route deps a now m).1 = true))].
Qed.

(** * The lists a request accumulates *)

Record lists_ok (g : gates) : Prop := {
  context_ids : NoDup ((λ x, acc_id x.1) <$> contextExcludedAccounts g);
  excluded_ids : NoDup ((λ x, acc_id (fx_account x)) <$> familyWeeklyExcludedAccounts g);
  paced_ids : NoDup ((λ x, acc_id (fp_account x)) <$> familyWeeklyPacedAccounts g)
}.

Lemma lists_ok_init : lists_ok gates_init.
Proof. split; apply NoDup_nil; done. Qed.

(** Pushing unless the id is there already *)
Lemma push_new {A} (f : A → string) (x : A) (l : list A) :
  NoDup (f <$> l) →
  let l' := if existsb (λ y, bool_decide (f y = f x)) l then l else l ++ [x] in
  NoDup (f <$> l') ∧ f x ∈ f <$> l' ∧ (∀ y, y ∈ l' → y ∈ l ∨ y = x)
  ∧ (∀ id, id ∈ f <$> l → id ∈ f <$> l').
Proof.
  intros Hnd. cbv zeta. destruct (existsb _ l) eqn:E.
  - apply existsb_exists in E as (y & Hy%list_elem_of_In & Hf%bool_decide_eq_true).
    split_and!; [done| |auto|done]. rewrite <-Hf. by apply list_elem_of_fmap_2.
  - assert (f x ∉ f <$> l) as Hnew.
    { intros (y & Hf & Hy)%list_elem_of_fmap. apply not_true_iff_false in E. apply E, existsb_exists.
      exists y. split; [by apply list_elem_of_In|by apply bool_decide_eq_true]. }
    rewrite fmap_app. split_and!.
    + apply NoDup_app. split; [done|]. split; [|apply NoDup_singleton].
      intros id Hid Hx%list_elem_of_singleton. by subst.
    + apply elem_of_app. right. by left.
    + intros y [?|?%list_elem_of_singleton]%elem_of_app; auto.
    + intros id Hid. apply elem_of_app. by left.
Qed.

Lemma add_excluded_list x g :
  familyWeeklyExcludedAccounts (add_excluded x g)
  = (if existsb (λ y, bool_decide (acc_id (fx_account y) = acc_id (fx_account x)))
          (familyWeeklyExcludedAccounts g) then familyWeeklyExcludedAccounts g
     else familyWeeklyExcludedAccounts g ++ [x])
  ∧ familyWeeklyPacedAccounts (add_excluded x g) = familyWeeklyPacedAccounts g
  ∧ contextExcludedAccounts (add_excluded x g) = contextExcludedAccounts g.
Proof. unfold add_excluded. by destruct (existsb _ _). Qed.

Lemma add_paced_list x g :
  familyWeeklyPacedAccounts (add_paced x g)
  = (if existsb (λ y, bool_decide (acc_id (fp_account y) = acc_id (fp_account x)))
          (familyWeeklyPacedAccounts g) then familyWeeklyPacedAccounts g
     else familyWeeklyPacedAccounts g ++ [x])
  ∧ familyWeeklyExcludedAccounts (add_paced x g) = familyWeeklyExcludedAccounts g
  ∧ contextExcludedAccounts (add_paced x g) = contextExcludedAccounts g.
Proof. unfold add_paced. by destruct (existsb _ _). Qed.

Section family_theory.
Context (cache : UsageFeed) (route : Account → string) (deps : AdmissionGateDeps) (now : Z).

Abbreviation verdict := (λ a, family_verdict cache route deps a now).

Definition passes (a : Account) : bool :=
  match verdict a with (None, None) => true | _ => false end.

(** What one pass adds, from [g] to [g'], over the candidates [l] *)
Record pass_rel (l : list Account) (g g' : gates) : Prop := {
  pass_lists : lists_ok g';
  pass_excluded : ∀ x, x ∈ familyWeeklyExcludedAccounts g' →
    x ∈ familyWeeklyExcludedAccounts g ∨ ∃ a, a ∈ l ∧ (verdict a).1 = Some x;
  pass_paced : ∀ x, x ∈ familyWeeklyPacedAccounts g' →
    x ∈ familyWeeklyPacedAccounts g ∨ ∃ a, a ∈ l ∧ (verdict a).2 = Some x;
  pass_context : contextExcludedAccounts g' = contextExcludedAccounts g;
  pass_keeps : ∀ id,
    id ∈ ((λ x, acc_id (fx_account x)) <$> familyWeeklyExcludedAccounts g)
    ∨ id ∈ ((λ x, acc_id (fp_account x)) <$> familyWeeklyPacedAccounts g) →
    id ∈ ((λ x, acc_id (fx_account x)) <$> familyWeeklyExcludedAccounts g')
    ∨ id ∈ ((λ x, acc_id (fp_account x)) <$> familyWeeklyPacedAccounts g');
  pass_dropped : ∀ a, a ∈ l → passes a = false →
    acc_id a ∈ ((λ x, acc_id (fx_account x)) <$> familyWeeklyExcludedAccounts g')
    ∨ acc_id a ∈ ((λ x, acc_id (fp_account x)) <$> familyWeeklyPacedAccounts g')
}.

Lemma verdict_account a :
  (∀ x, (verdict a).1 = Some x → fx_account x = a)
  ∧ (∀ x, (verdict a).2 = Some x → fp_account x = a).
Proof.
  unfold family_verdict. destruct (negb _); [done|]. cbv zeta.
  destruct (resolveFamilyWeeklyExclusion _ _ _ _ _) as [y|] eqn:E; cbn [fst snd].
  - split; [|done]. intros x [= <-]. unfold resolveFamilyWeeklyExclusion in E.
    destruct (familyOf _); [|done]. cbv zeta in E. destruct (negb _); [done|]. by injection E as <-.
  - split; [done|]. intros x Hx. destruct (negb _ && _); [|done].
    unfold resolveFamilyWeeklyPacing in Hx. destruct (familyOf _); [|done].
    destruct (getFreshPollCapacity _ _ _ _ _); [|done]. destruct (bool_decide _); [done|].
    cbv zeta in Hx. apply fmap_Some in Hx as (? & _ & ->). done.
Qed.

(** One step of the loop *)
Lemma pass_step a g :
  lists_ok g →
  let g' := match verdict a with
            | (Some x, _) => add_excluded x g | (None, Some p) => add_paced p g
            | (None, None) => g end in
  pass_rel [a] g g'.
Proof.
  intros Hg. cbv zeta. destruct (verdict_account a) as [Hx Hp]. pose proof Hg as [Hc He Hpc].
  destruct (verdict a) as [[x|] p] eqn:Ev; [|destruct p as [p|]]; cbn [fst snd] in *.
  - specialize (Hx x eq_refl). destruct (add_excluded_list x g) as (Hl & Hl2 & Hl3).
    destruct (push_new (λ x, acc_id (fx_account x)) x _ He) as (H1 & H2 & H3 & H4).
    cbv zeta in *. cbn beta in *. rewrite <-Hl in *. split; [split| | | | |]; rewrite ?Hl2, ?Hl3; auto.
    + intros y [?| ->]%H3; [by left|right]. exists a. rewrite Ev. split; [by left|done].
    + intros id [?|?]; auto.
    + intros b ->%list_elem_of_singleton _. left. by rewrite <-Hx.
  - specialize (Hp p eq_refl). destruct (add_paced_list p g) as (Hl & Hl2 & Hl3).
    destruct (push_new (λ x, acc_id (fp_account x)) p _ Hpc) as (H1 & H2 & H3 & H4).
    cbv zeta in *. cbn beta in *. rewrite <-Hl in *. split; [split| | | | |]; rewrite ?Hl2, ?Hl3; auto.
    + intros y [?| ->]%H3; [by left|right]. exists a. rewrite Ev. split; [by left|done].
    + intros id [?|?]; auto.
    + intros b ->%list_elem_of_singleton _. right. by rewrite <-Hp.
  - split; auto. intros b ->%list_elem_of_singleton. unfold passes. by rewrite Ev.
Qed.

Lemma pass_trans l1 l2 g g1 g2 :
  pass_rel l1 g g1 → pass_rel l2 g1 g2 → pass_rel (l1 ++ l2) g g2.
Proof.
  intros [] []. split; auto.
  - intros x [Hx|(a & ? & ?)]%pass_excluded1; [|right; exists a; rewrite elem_of_app; auto].
    apply pass_excluded0 in Hx as [?|(a & ? & ?)]; [by left|right; exists a; rewrite elem_of_app; auto].
  - intros x [Hx|(a & ? & ?)]%pass_paced1; [|right; exists a; rewrite elem_of_app; auto].
    apply pass_paced0 in Hx as [?|(a & ? & ?)]; [by left|right; exists a; rewrite elem_of_app; auto].
  - congruence.
  - intros a [Ha|Ha]%elem_of_app; auto.
Qed.

Lemma family_gate_fold l passed g :
  lists_ok g →
  let r := foldl (λ acc a,
    match verdict a with
    | (Some x, _) => (acc.1, add_excluded x acc.2)
    | (None, Some p) => (acc.1, add_paced p acc.2)
    | (None, None) => (acc.1 ++ [a], acc.2)
    end) (passed, g) l in
  r.1 = passed ++ filter (λ a, passes a = true) l ∧ pass_rel l g r.2.
Proof.
  cbv zeta. revert passed g. induction l as [|a l IH]; intros passed g Hg.
  { cbn. rewrite app_nil_r. split; [done|]. split; auto; intros ? []%elem_of_nil. }
  cbn [foldl fst snd]. pose proof (pass_step a g Hg) as Hstep. cbv zeta in Hstep.
  assert (passes a = match verdict a with (None, None) => true | _ => false end) as Hpa by done.
  destruct (verdict a) as [[x|] p]; [|destruct p as [p|]].
  - destruct (IH passed _ (pass_lists _ _ _ Hstep)) as [-> Hrel].
    rewrite filter_cons_False by congruence. split; [done|]. by apply (pass_trans [a] l g _ _ Hstep).
  - destruct (IH passed _ (pass_lists _ _ _ Hstep)) as [-> Hrel].
    rewrite filter_cons_False by congruence. split; [done|]. by apply (pass_trans [a] l g _ _ Hstep).
  - destruct (IH (passed ++ [a]) _ (pass_lists _ _ _ Hstep)) as [-> Hrel].
    rewrite filter_cons_True by done. rewrite <-app_assoc. split; [done|].
    by apply (pass_trans [a] l g _ _ Hstep).
Qed.
End family_theory.

(** The family-weekly gate over the passes of a request. A pass keeps exactly the accounts
    with no verdict against them, among them every account that is not Anthropic's, in
    their order; each account it drops is in one of the two lists, which hold an account
    once whatever the passes before, lose nothing and gain only verdicts on candidates. *)
Theorem family_gate_lists cache route deps candidates now g :
  lists_ok g →
  let r := applyFamilyWeeklyGate cache route deps candidates now g in
  r.1 = filter (λ a, passes cache route deps now a = true) candidates
  ∧ (∀ a, a ∈ candidates → acc_provider a ≠ "anthropic"%string → a ∈ r.1)
  ∧ pass_rel cache route deps now candidates g r.2.
Proof.
  intros Hg. cbv zeta. unfold applyFamilyWeeklyGate.
  destruct (family_gate_fold cache route deps now candidates [] g Hg) as [Hl Hrel].
  rewrite Hl. split_and!; [done| |done].
  intros a Ha Hprov. apply list_elem_of_filter. split; [|done].
  unfold passes, family_verdict. by rewrite bool_decide_eq_false_2.
Qed.

(** * Overload *)

Lemma overloaded_future st p now model t :
  getProviderOverloadUntil st p now model = Some t → now < t.
Proof.
  unfold getProviderOverloadUntil. intros H.
  by destruct (max_until_fold_Some _ _ _ _ _ H) as [?|(k & b & _ & _ & _ & Hlt)].
Qed.

Lemma overload_fold route now m l av ov :
  0 <= now →
  let over a := isProviderOverloaded (mod_breaker m) (acc_provider a) now (Some (route a)) in
  let r := foldl (λ acc a,
    match truthy_instant (getProviderOverloadUntil (mod_breaker m) (acc_provider a) now
                            (Some (modelForAccount route a))) with
    | Some t => (acc.1, acc.2 ++ [(a, t)])
    | None => (acc.1 ++ [a], acc.2)
    end) (av, ov) l in
  r.1 = av ++ filter (λ a, over a = false) l
  ∧ r.2.*1 = ov.*1 ++ filter (λ a, over a = true) l
  ∧ (∀ a t, (a, t) ∈ r.2 → (a, t) ∈ ov ∨
       getProviderOverloadUntil (mod_breaker m) (acc_provider a) now (Some (route a)) = Some t).
Proof.
  intros Hnow. cbv zeta. unfold modelForAccount, isProviderOverloaded. revert av ov.
  induction l as [|a l IH]; intros av ov; cbn [foldl fst snd].
  { cbn. rewrite !app_nil_r. auto. }
  destruct (getProviderOverloadUntil _ _ now (Some (route a))) as [t|] eqn:E;
    cbn [truthy_instant mbind option_bind].
  - apply overloaded_future in E as Hlt. destruct (t =? 0) eqn:E0; [prop_bools; lia|].
    destruct (IH av (ov ++ [(a, t)])) as (-> & -> & Hin).
    rewrite filter_cons_False, filter_cons_True by (rewrite E; done).
    split_and!; [done|by rewrite fmap_app, <-app_assoc|].
    intros b u [[?|Hb%list_elem_of_singleton]%elem_of_app|?]%Hin; [by left| |by right].
    injection Hb as -> ->. by right.
  - destruct (IH (av ++ [a]) ov) as (-> & -> & Hin).
    rewrite filter_cons_True, filter_cons_False by (rewrite E; done).
    split_and!; [by rewrite <-app_assoc|done|done].
Qed.

(** The overload gate splits the candidates, in their order, into those the breaker does
    not find overloaded for the model they would be sent and the others, each with the
    instant in the future its block ends. A real 529 is forwarded for an official account
    exactly when no candidate behind it is another provider's and open, and an attempt is
    the last realistic one exactly when each candidate behind it is unavailable, owes its
    probe to another request or is overloaded. *)
Theorem overload_gate_partition route candidates now m :
  0 <= now →
  let over a := isProviderOverloaded (mod_breaker m) (acc_provider a) now (Some (route a)) in
  let r := applyProviderOverloadGate route candidates now m in
  r.1 = filter (λ a, over a = false) candidates
  ∧ r.2.*1 = filter (λ a, over a = true) candidates
  ∧ (∀ a t, (a, t) ∈ r.2 → now < t
       ∧ getProviderOverloadUntil (mod_breaker m) (acc_provider a) now (Some (route a)) = Some t)
  ∧ (∀ i, everyRemainingCandidateUnattemptable route candidates i now m = true ↔
       ∀ a, a ∈ drop (S i) candidates →
         isAccountAvailable a now = false ∨ wouldSuppressProbe a now (mod_gate m) = true
         ∨ over a = true)
  ∧ (∀ i, shouldForwardProviderOverloadIfNoCrossProviderFallback route candidates i now m = true ↔
       ∃ a, candidates !! i = Some a
         ∧ getProviderOverloadKey (acc_provider a) = ANTHROPIC_UPSTREAM_OVERLOAD_KEY
         ∧ ∀ b, b ∈ drop (S i) candidates →
             getProviderOverloadKey (acc_provider b) = ANTHROPIC_UPSTREAM_OVERLOAD_KEY
             ∨ over b = true).
Proof.
  intros Hnow. cbv zeta. unfold applyProviderOverloadGate.
  destruct (overload_fold route now m candidates [] [] Hnow) as (H1 & H2 & H3).
  rewrite H1, H2. split_and!; [done|done| | |].
  - intros a t [?%elem_of_nil|Ht]%H3; [done|]. split; [by eapply overloaded_future|done].
  - intros i. unfold everyRemainingCandidateUnattemptable. rewrite forallb_forall.
    setoid_rewrite <-list_elem_of_In. unfold modelForAccount.
    setoid_rewrite orb_true_iff. setoid_rewrite orb_true_iff. setoid_rewrite negb_true_iff.
    split; intros H a Ha; specialize (H a Ha); tauto.
  - intros i. unfold shouldForwardProviderOverloadIfNoCrossProviderFallback, modelForAccount.
    destruct (candidates !! i) as [a|]; [|split; [done|by intros (? & [=] & _)]]. cbv zeta.
    destruct (bool_decide _) eqn:Ek; prop_bools; cbn [negb];
      [|split; [done|intros (? & [= <-] & ? & _); done]].
    rewrite negb_true_iff, <-not_true_iff_false, existsb_exists. split.
    + intros Hno. exists a. split_and!; [done|done|]. intros b Hb.
      destruct (decide (getProviderOverloadKey (acc_provider b) = ANTHROPIC_UPSTREAM_OVERLOAD_KEY))
        as [|Hne]; [by left|right]. apply not_false_iff_true. intros Hover. apply Hno. exists b.
      split; [by apply list_elem_of_In|].
      by rewrite Hover, bool_decide_eq_false_2 by congruence.
    + intros (? & [= <-] & _ & Hall) (b & Hb%list_elem_of_In & Hopen).
      rewrite andb_true_iff, !negb_true_iff, bool_decide_eq_false in Hopen.
      destruct (Hall b Hb) as [?|?]; [destruct Hopen; congruence|destruct Hopen; congruence].
Qed.

(** * Throttling *)

Definition throttle_step {A} (over : A → option Qc) (now : Z) (acc : list A * list A) (a : A)
    : list A * list A :=
  match over a with
  | Some t => if negb (bool_decide (t = 0%Qc)) && bool_decide (Qc_of_Z now < t)%Qc
              then (acc.1, acc.2 ++ [a]) else (acc.1 ++ [a], acc.2)
  | None => (acc.1 ++ [a], acc.2)
  end.

Lemma throttling_fold {A} (over : A → option Qc) (now : Z) (l av th : list A) :
  let r := foldl (throttle_step over now) (av, th) l in
  0 <= now → (∀ a t, over a = Some t → (Qc_of_Z now < t)%Qc) →
  r.1 = av ++ filter (λ a, over a = None) l ∧ r.2 = th ++ filter (λ a, ¬ over a = None) l.
Proof.
  cbv zeta. intros Hnow Hfut. revert av th.
  induction l as [|a l IH]; intros av th; cbn [foldl]; [cbn; by rewrite !app_nil_r|].
  unfold throttle_step at 2 4. cbn [fst snd].
  destruct (over a) as [t|] eqn:E.
  - assert ((Qc_of_Z now < t)%Qc) as Ht by by eapply Hfut.
    assert (t ≠ 0%Qc) as Hne.
    { intros ->. apply (Qclt_not_le _ _ Ht). rewrite <-Z2Qc_inj_0.
      exact (proj1 (Z2Qc_inj_le 0 now) Hnow). }
    rewrite bool_decide_eq_false_2, bool_decide_eq_true_2 by done. cbn [negb andb].
    destruct (IH av (th ++ [a])) as [-> ->].
    rewrite filter_cons_False, filter_cons_True by (rewrite E; auto). by rewrite <-app_assoc.
  - destruct (IH (av ++ [a]) th) as [-> ->].
    rewrite filter_cons_True, filter_cons_False by (rewrite E; auto). by rewrite <-app_assoc.
Qed.

(** The throttling gate. A synthetic probe is never throttled; otherwise the gate holds
    back exactly the accounts with an enabled window ahead of its even burn, paced to the
    end of a subscription that will not renew, and lets the others through, none of them
    lost. *)
Theorem throttling_gate_exact cache deps accounts now :
  0 <= now →
  let r := applyUsageThrottling cache deps accounts now in
  let windows a :=
    collectWindows (routing_usage cache (acc_id a) (acc_provider a) now USAGE_CACHE_TTL_MS) now
      (acc_provider a) in
  let held a := isSyntheticProbeRequest deps = false
    ∧ ∃ w, w ∈ windows a
        ∧ ahead (throttling deps) now (nonRenewingSubscriptionEnd a now) w in
  r.1 ++ r.2 ≡ₚ accounts
  ∧ (∀ a, a ∈ r.1 ↔ a ∈ accounts ∧ ¬ held a)
  ∧ (∀ a, a ∈ r.2 ↔ a ∈ accounts ∧ held a).
Proof.
  intros Hnow. cbv zeta. unfold applyUsageThrottling.
  destruct (isSyntheticProbeRequest deps); cbn [fst snd].
  { rewrite app_nil_r. split_and!; [done| |]; intros a; rewrite ?elem_of_nil; naive_solver. }
  destruct (negb _ && negb _) eqn:Eoff; cbn [fst snd].
  { rewrite app_nil_r. apply andb_true_iff in Eoff as [E1%negb_true_iff E2%negb_true_iff].
    assert (∀ w b, ¬ ahead (throttling deps) now b w) as Hno.
    { intros w b [Hen _]. unfold isWindowThrottlingEnabled in Hen.
      destruct (isWeeklyPacedWindow _); congruence. }
    split_and!; [done| |]; intros a; rewrite ?elem_of_nil; naive_solver. }
  set (over := λ a, getUsageThrottleUntil
    (routing_usage cache (acc_id a) (acc_provider a) now USAGE_CACHE_TTL_MS)
    (throttling deps) now (acc_provider a) (nonRenewingSubscriptionEnd a now)).
  pose proof (λ a, getUsageThrottleUntil_ahead
    (routing_usage cache (acc_id a) (acc_provider a) now USAGE_CACHE_TTL_MS)
    (throttling deps) now (acc_provider a) (nonRenewingSubscriptionEnd a now)) as Hover.
  change (∀ a, match over a with
    | Some t => (Qc_of_Z now < t)%Qc ∧ ∃ w,
        w ∈ collectWindows (routing_usage cache (acc_id a) (acc_provider a) now USAGE_CACHE_TTL_MS)
              now (acc_provider a)
        ∧ ahead (throttling deps) now (nonRenewingSubscriptionEnd a now) w
    | None => ∀ w,
        w ∈ collectWindows (routing_usage cache (acc_id a) (acc_provider a) now USAGE_CACHE_TTL_MS)
              now (acc_provider a) →
        ¬ ahead (throttling deps) now (nonRenewingSubscriptionEnd a now) w
    end) in Hover.
  change (foldl _ ([], []) accounts) with (foldl (throttle_step over now) ([], []) accounts).
  clearbody over.
  destruct (throttling_fold over now accounts [] [] Hnow) as [H1 H2].
  { intros a t Ht. specialize (Hover a). rewrite Ht in Hover. tauto. }
  cbv zeta. rewrite H1, H2. cbn [app]. split_and!.
  - rewrite Permutation_app_comm. apply (filter_both (λ a, over a = None)).
  - intros a. rewrite list_elem_of_filter. specialize (Hover a).
    destruct (over a) as [t|]; [destruct Hover as [_ Hw]; intuition congruence|].
    split; [intros [_ Ha]; split; [done|]; intros (_ & w & Hw & Hahead); by eapply Hover|tauto].
  - intros a. rewrite list_elem_of_filter. specialize (Hover a).
    destruct (over a) as [t|]; [destruct Hover as [_ Hw]; intuition congruence|].
    split; [intros [[] _]; done|intros (_ & _ & w & Hw & Hahead); by destruct (Hover w Hw)].
Qed.

(** * The pin *)

(** Rebinding. Reconciling changes nothing unless the account the conversation is routed
    to is no candidate and this request's lists name it for a durable reason; then the
    conversation is rebound to the first candidate. *)
Theorem rebind_only_when_durable deps sha d store meta candidates now g w :
  reconcileAffinity deps sha d store meta candidates now g w ≠ w →
  ∃ r original first rest,
    w_routing w = Some r ∧ rt_strategy r = "session"%string
    ∧ isSyntheticProbeRequest deps = false
    ∧ routed_account r = Some original
    ∧ candidates = first :: rest
    ∧ (∀ a, a ∈ candidates → acc_id a ≠ original)
    ∧ ((∃ x, x ∈ contextExcludedAccounts g ∧ acc_id x.1 = original)
       ∨ ∃ x, x ∈ familyWeeklyExcludedAccounts g ∧ acc_id (fx_account x) = original)
    ∧ reconcileAffinity deps sha d store meta candidates now g w
      = reassignAffinity sha d store meta first now w.
Proof.
  unfold reconcileAffinity. destruct (w_routing w) as [r|]; [|done].
  destruct (isSyntheticProbeRequest deps); cbn [orb]; [done|].
  destruct (bool_decide (rt_strategy r = _)) eqn:Es; cbn [negb]; [|done].
  destruct (truthy_string (routed_account r)) as [original|] eqn:Eo; [|done].
  destruct candidates as [|first rest]; [done|].
  destruct (existsb _ (first :: rest)) eqn:Ein; [done|].
  destruct (durably_excluded original g) eqn:Ed; [|done]. intros _. prop_bools.
  exists r, original, first, rest. split_and!; try done.
  - unfold truthy_string in Eo. destruct (routed_account r) as [[|c s]|]; congruence.
  - intros a Ha Heq. apply not_true_iff_false in Ein. apply Ein, existsb_exists.
    exists a. split; [by apply list_elem_of_In|by apply bool_decide_eq_true].
  - unfold durably_excluded in Ed. rewrite orb_true_iff, !existsb_exists in Ed.
    destruct Ed as [(x & Hx%list_elem_of_In & Hid%bool_decide_eq_true)|
                    (x & Hx%list_elem_of_In & Hid%bool_decide_eq_true)]; [left|right]; eauto.
Qed.

(** Following. After a soft reorder of candidates with distinct ids, the pin may follow
    only from an account that was held back to one that was not, of the same provider and
    at the front, and a conversation's own pin only from one held back for liveness alone,
    at every tier; it moves only once that account has served. *)
Theorem follow_sound cache route deps sha d meta pool now m g0 candidates w pinned hd :
  NoDup (acc_id <$> pool) → candidates ⊆ pool →
  let g := (applySoftDemotionReorder cache route pool now m g0).2 in
  prepareSoftDemotionFollow deps meta candidates g w = Some (pinned, hd) →
  pinned ∈ pool ∧ hd ∈ pool ∧ acc_id hd ≠ acc_id pinned
  ∧ acc_id <$> head candidates = Some (acc_id hd)
  ∧ acc_provider hd = acc_provider pinned
  ∧ demotion_reason cache route pool now m hd = None
  ∧ (∃ reason, demotion_reason cache route pool now m pinned = Some reason
      ∧ (getAffinityModel meta = None →
         reason = "pool liveness"%string ∧ held_at_every_tier cache route pool now m pinned = true))
  ∧ ∀ served w', acc_id served ≠ acc_id hd → follow sha d meta served (pinned, hd) now w' = w'.
Proof.
  intros Hnd Hsub. cbv zeta. rewrite soft_reorder_eq. unfold prepareSoftDemotionFollow.
  destruct (w_routing w) as [r|]; [|done]. destruct (_ || _ || _ || _); [done|].
  cbn [snd softDemotionReasons softDemotionHead livenessHeldAtEveryTier].
  destruct (List.find _ candidates) as [p|] eqn:Ep; [|done].
  apply find_some in Ep as [Hp%list_elem_of_In%Hsub _].
  destruct (head (filter _ pool)) as [h|] eqn:Eh; [|done].
  rewrite reasons_lookup by done.
  destruct (demotion_reason cache route pool now m p) as [reason|] eqn:Er; [|done].
  destruct (truthy_string (Some reason)) as [reason'|] eqn:Et; [|done].
  assert (reason' = reason) as -> by (destruct reason; [done|by injection Et]).
  destruct (_ || _) eqn:Econd; [done|]. intros [= <- <-].
  rewrite !orb_false_iff in Econd. destruct Econd as [[[E1 E2] E3] E4].
  rewrite negb_false_iff in E1, E3. apply bool_decide_eq_true in E1, E3.
  apply bool_decide_eq_false in E2.
  assert (h ∈ pool ∧ demotion_reason cache route pool now m h = None) as [Hh Hstays].
  { destruct (filter _ pool) as [|h' t] eqn:Ef; [done|]. injection Eh as ->.
    assert (h ∈ h :: t) as Hin by by left. rewrite <-Ef in Hin.
    apply list_elem_of_filter in Hin. tauto. }
  split_and!; try done.
  - exists reason. split; [done|]. intros Hmodel. rewrite Hmodel in E4.
    change (negb (bool_decide (is_Some None))) with true in E4. cbn [andb] in E4.
    apply orb_false_iff in E4 as [E4 E5]. apply negb_false_iff in E4, E5.
    apply bool_decide_eq_true in E4, E5. split; [done|].
    apply list_elem_of_fmap in E5 as (q & Hq & Hin). apply list_elem_of_filter in Hin as [Hheld Hin].
    by rewrite (NoDup_fmap_elem_inj acc_id pool p q Hnd Hp Hin Hq).
  - intros served w' Hne. unfold follow. by rewrite bool_decide_eq_false_2.
Qed.

(** * Examples *)

Definition demo_reading (weekly : Z) : AnyUsageData :=
  AnthropicShape
    {| five_hour := Some (Some {| utilization := Some (Qc_of_Z 20);
                                  resets_at := Some (Some (HOUR_MS)) |});
       seven_day := Some (Some {| utilization := Some (Qc_of_Z weekly);
                                  resets_at := Some (Some (5 * DAY_MS)) |});
       seven_day_oauth_apps := None; limits := limits demo_usage; extra_usage := None |}.

(** Account [a] has 5% of its week left, [b] 70%. *)
Definition demo_feed : UsageFeed :=
  let reading id := if bool_decide (id = "a"%string) then demo_reading 95 else demo_reading 30 in
  {| peek := λ id, Some (reading id); peekPollFreshAt := λ _ now, Some now;
     routing_usage := λ id _ _ _, Some (reading id) |}.

Definition demo_route (a : Account) : string := "claude-fable-5".

Definition demo_deps : AdmissionGateDeps :=
  {| dep_path := "/v1/messages"; gateTokenEstimate := 1000; isSyntheticProbeRequest := false;
     throttling := demo_settings |}.

Definition demo_modules : modules :=
  {| mod_breaker := breaker_init; mod_gate := gate_init; mod_memo := demo_memo;
     mod_failures := ∅; mod_demand := ∅; mod_slopes := ∅ |}.

Definition demo_pool : list Account := [demo_row "a" 0; demo_row "b" 0]%string.

Lemma demo_pool_ids : NoDup (acc_id <$> demo_pool).
Proof. apply (bool_decide_unpack _). vm_compute. exact I. Qed.

Example demo_reordered :
  acc_id <$> (applySoftDemotionReorder demo_feed demo_route demo_pool 10 demo_modules
                gates_init).1 = ["b"; "a"]%string.
Proof. vm_compute. reflexivity. Qed.

Example demo_memo_moved :
  acc_id <$> (applyFailureMemoDemotion demo_route demo_deps demo_pool 200 demo_modules).1
  = ["b"; "a"]%string.
Proof. vm_compute. reflexivity. Qed.

Example demo_window :
  resolveModelMaxContextWindow "gpt-5.6-sol-2026-05-13" = Some 272000
  ∧ resolveModelMaxContextWindow "gpt-6-astra" = Some 872000
  ∧ resolveModelMaxContextWindow "gpt-5.6-sol-latest" = None
  ∧ admitted_tokens 872000 = 845840.
Proof. vm_compute. auto. Qed.

Lemma soft_reorder_stable_witness :
  (applySoftDemotionReorder demo_feed demo_route demo_pool 10 demo_modules gates_init).1
  ≡ₚ demo_pool.
Proof.
  pose proof (soft_reorder_stable demo_feed demo_route demo_pool 10 demo_modules gates_init
                demo_pool_ids) as H. cbv zeta in H.
  destruct (applySoftDemotionReorder _ _ _ _ _ _) as [o g]. exact (proj1 (proj2 H)).
Defined.

Lemma liveness_leaves_absorber_witness :
  liveness demo_feed demo_route demo_pool 10 demo_modules (demo_row "a" 0) = true
  ∧ ∃ p, p ∈ demo_pool ∧ acc_id p ≠ "a"%string
         ∧ demotion_reason demo_feed demo_route demo_pool 10 demo_modules p = None.
Proof.
  assert (liveness demo_feed demo_route demo_pool 10 demo_modules (demo_row "a" 0) = true) as Hl
    by (vm_compute; reflexivity).
  split; [exact Hl|].
  pose proof (liveness_leaves_absorber demo_feed demo_route demo_pool 10 demo_modules gates_init
                (demo_row "a" 0) demo_pool_ids (list_elem_of_here _ _) Hl) as H.
  destruct (applySoftDemotionReorder _ _ _ _ _ _) as [o g].
  destruct H as [_ (p & c & Hp & Hne & Hr & _)]. exists p. auto.
Defined.

Lemma family_gate_lists_witness :
  (applyFamilyWeeklyGate demo_feed (λ _, "claude-opus-5") demo_deps demo_pool 10 gates_init).1
  = filter (λ a, passes demo_feed (λ _, "claude-opus-5") demo_deps 10 a = true) demo_pool.
Proof.
  exact (proj1 (family_gate_lists demo_feed (λ _, "claude-opus-5")%string demo_deps demo_pool 10
                  gates_init lists_ok_init)).
Defined.

Lemma overload_gate_partition_witness :
  (applyProviderOverloadGate demo_route demo_pool 10 demo_modules).1
  = filter (λ a, isProviderOverloaded breaker_init (acc_provider a) 10
                   (Some (demo_route a)) = false) demo_pool.
Proof.
  assert (0 <= 10) as H by lia.
  exact (proj1 (overload_gate_partition demo_route demo_pool 10 demo_modules H)).
Defined.

(** The conversation was routed to [a], which the family-weekly gate has excluded. *)
Definition demo_routed (decision : string) : Strategy.world :=
  w_set_routing
    {| rt_strategy := "session"; rt_decision := decision; rt_affinityScope := None;
       rt_affinityKey := None; rt_selectedAccountId := Some "a"; rt_previousAccountId := None;
       rt_candidatesCount := 2; rt_failoverReason := None; rt_heldAccountId := None |}%string
    demo_world.

Definition demo_excluded : gates :=
  add_excluded {| fx_account := demo_row "a" 0; fx_family := Fable; fx_resetAt := 5000 |} gates_init.

Lemma rebind_only_when_durable_witness :
  reconcileAffinity demo_deps demo_sha 18000000 None demo_meta [demo_row "b" 0] 10 demo_excluded
    (demo_routed "affinity_hit")
  = reassignAffinity demo_sha 18000000 None demo_meta (demo_row "b" 0) 10
      (demo_routed "affinity_hit").
Proof.
  assert (reconcileAffinity demo_deps demo_sha 18000000 None demo_meta [demo_row "b" 0] 10
            demo_excluded (demo_routed "affinity_hit") ≠ demo_routed "affinity_hit") as Hne.
  { intros H. apply (f_equal (λ w, rt_decision <$> w_routing w)) in H. vm_compute in H.
    discriminate H. }
  destruct (rebind_only_when_durable _ _ _ _ _ _ _ _ _ Hne)
    as (r & o & f & rest & _ & _ & _ & _ & Hc & _ & _ & Heq).
  injection Hc as <- _. exact Heq.
Defined.

Lemma follow_sound_witness :
  prepareSoftDemotionFollow demo_deps demo_meta [demo_row "b" 0; demo_row "a" 0]
    (applySoftDemotionReorder demo_feed demo_route demo_pool 10 demo_modules gates_init).2
    (demo_routed "affinity_hit")
  = Some (demo_row "a" 0, demo_row "b" 0)
  ∧ demotion_reason demo_feed demo_route demo_pool 10 demo_modules (demo_row "b" 0) = None.
Proof.
  assert (prepareSoftDemotionFollow demo_deps demo_meta [demo_row "b" 0; demo_row "a" 0]
    (applySoftDemotionReorder demo_feed demo_route demo_pool 10 demo_modules gates_init).2
    (demo_routed "affinity_hit")
    = Some (demo_row "a" 0, demo_row "b" 0)) as H by (vm_compute; reflexivity).
  split; [exact H|].
  assert ([demo_row "b" 0; demo_row "a" 0] ⊆ demo_pool) as Hsub.
  { intros x. unfold demo_pool. rewrite !elem_of_cons. tauto. }
  eapply (follow_sound demo_feed demo_route demo_deps demo_sha 18000000) in H as
    (_ & _ & _ & _ & _ & Hr & _); [exact Hr|exact demo_pool_ids|exact Hsub].
Defined.

Lemma throttling_gate_exact_witness :
  (applyUsageThrottling demo_feed demo_deps demo_pool 10).1
  ++ (applyUsageThrottling demo_feed demo_deps demo_pool 10).2 ≡ₚ demo_pool.
Proof.
  assert (0 <= 10) as H by lia.
  exact (proj1 (throttling_gate_exact demo_feed demo_deps demo_pool 10 H)).
Defined.
