(* ===== verification/CreditLedger.v ===== *)
(** The ledger of banked-reset redemptions:
    [packages/database/src/repositories/codex-reset-credit-event.repository.ts] with the
    table and the unique index of [migrations.ts].

    Each statement is one step. A claim is three of them (read the latest attempt, insert,
    read again), and any other statement may run in between: a [claimer] is at the insert or
    at the second read. Rows are in the order of their insertion. *)

From S2P Require Import Prelude StableSort.
From stdpp Require Import pretty.
Open Scope Z_scope.

(** * Rows *)

(** [CodexResetCreditEventStatus] *)
Inductive EventStatus : Type :=
  | EvPending | EvReset | EvNothingToReset | EvNoCredit | EvAlreadyRedeemed | EvFailed.
#[export] Instance EventStatus_eq_dec : EqDecision EventStatus.
Proof. solve_decision. Defined.

Inductive EventTrigger : Type := Manual | Auto.
#[export] Instance EventTrigger_eq_dec : EqDecision EventTrigger.
Proof. solve_decision. Defined.

(** [ResetCreditApplyCause] *)
Inductive ApplyCause : Type := Expiry | WeeklyLimit.
#[export] Instance ApplyCause_eq_dec : EqDecision ApplyCause.
Proof. solve_decision. Defined.

Record CodexResetCreditEventRow := {
  ev_id : string;
  ev_account_id : string;
  ev_account_name : string;
  ev_credit_id : option string;
  ev_trigger : EventTrigger;
  ev_cause : option ApplyCause;
  ev_attempt_seq : option Z;
  ev_idempotency_key : string;
  ev_status : EventStatus;
  ev_windows_reset : option Z;
  ev_error_message : option string;
  ev_credit_expires_at : option Z;
  ev_created_at : Z;
  ev_resolved_at : option Z
}.

Abbreviation row := CodexResetCreditEventRow.

Record CodexResetCreditAutoClaim := {
  cl_id : string;
  cl_idempotencyKey : string;
  cl_attemptSeq : Z;
  cl_reused : bool
}.

Record ClaimInput := {
  in_accountId : string;
  in_accountName : string;
  in_creditId : string;
  in_creditExpiresAt : option Z;
  in_cause : ApplyCause;
  in_now : Z
}.

(** * Queries *)

Definition is_auto (a : string) (r : row) : bool :=
  bool_decide (ev_trigger r = Auto) && bool_decide (ev_account_id r = a).
Definition is_auto_of (a c : string) (r : row) : bool :=
  is_auto a r && bool_decide (ev_credit_id r = Some c).
Definition is_pending (r : row) : bool := bool_decide (ev_status r = EvPending).

(** The row an [ORDER BY ... LIMIT 1] picks; [before x y]: [x] sorts first. *)
Definition better (before : row → row → bool) (best : option row) (r : row) : option row :=
  match best with
  | Some b => if before r b then Some r else Some b
  | None => Some r
  end.
Definition first_by (before : row → row → bool) (rows : list row) : option row :=
  foldl (better before) None rows.

(** NULL sorts last in descending order. *)
Definition seq_gt (x y : option Z) : bool :=
  match x, y with Some m, Some n => n <? m | Some _, None => true | None, _ => false end.

Definition latestAutoRow (accountId creditId : string) (rows : list row) : option row :=
  first_by (λ x y, seq_gt (ev_attempt_seq x) (ev_attempt_seq y))
    (List.filter (is_auto_of accountId creditId) rows).

(** [created_at ASC, id ASC] *)
Definition older (x y : row) : bool :=
  (ev_created_at x <? ev_created_at y)
  || (ev_created_at x =? ev_created_at y) && String.ltb (ev_id x) (ev_id y).

Definition findPendingForAccount (accountId : string) (rows : list row) : option row :=
  first_by older (List.filter (λ r, is_auto accountId r && is_pending r) rows).

(** The statuses after which automation leaves a credit alone *)
Definition terminal (s : EventStatus) : bool :=
  match s with
  | EvReset | EvAlreadyRedeemed | EvNoCredit | EvFailed => true
  | EvPending | EvNothingToReset => false
  end.

Definition getTerminallyResolvedCreditIds (accountId : string) (rows : list row) : gset string :=
  list_to_set (omap ev_credit_id
    (List.filter (λ r, is_auto accountId r && terminal (ev_status r)) rows)).

Definition anchors_cooldown (s : EventStatus) : bool :=
  match s with EvReset | EvAlreadyRedeemed | EvNothingToReset => true | _ => false end.

(** SQL's [MAX]: NULLs are left out, NULL for no value *)
Definition sql_max (l : list (option Z)) : option Z :=
  foldl (λ m x, match m, x with
                | Some m, Some x => Some (Z.max m x)
                | None, x => x
                | m, None => m
                end) None l.

Definition getLatestAutoApplyCooldownAnchorAt (accountId : string) (rows : list row) : option Z :=
  sql_max (map ev_resolved_at
    (List.filter (λ r, is_auto accountId r && anchors_cooldown (ev_status r)) rows)).

(** Newest first; equal instants in an order the query leaves open (here as stored) *)
Definition findRecentForAccount (accountId : string) (limit : nat) (rows : list row) : list row :=
  take limit (stable_sort (λ x y, ev_created_at y <=? ev_created_at x)
    (List.filter (λ r, bool_decide (ev_account_id r = accountId)) rows)).

(** * Statements *)

Definition attempt_id (accountId creditId : string) (attemptSeq : Z) : string :=
  accountId +:+ ":" +:+ creditId +:+ ":" +:+ pretty attemptSeq.
Definition attempt_key (id : string) : string := "codex-reset-auto:" +:+ id.

(** The primary key, and the unique index on (account, credit, attempt) of the automatic
    rows *)
Definition conflict (r r' : row) : bool :=
  bool_decide (ev_id r' = ev_id r)
  || (bool_decide (ev_trigger r = Auto) && bool_decide (ev_trigger r' = Auto)
      && bool_decide (is_Some (ev_credit_id r)) && bool_decide (is_Some (ev_attempt_seq r))
      && bool_decide (ev_account_id r' = ev_account_id r)
      && bool_decide (ev_credit_id r' = ev_credit_id r)
      && bool_decide (ev_attempt_seq r' = ev_attempt_seq r)).

Definition conflicts (r : row) (rows : list row) : bool := existsb (conflict r) rows.

(** [INSERT OR IGNORE ... SELECT ... WHERE guard]: the rows, and whether one was added *)
Definition insert_or_ignore (guard : bool) (r : row) (rows : list row) : list row * bool :=
  if guard && negb (conflicts r rows) then (rows ++ [r], true) else (rows, false).

Definition claim_row (i : ClaimInput) (attemptSeq : Z) : row :=
  let id := attempt_id (in_accountId i) (in_creditId i) attemptSeq in
  {| ev_id := id; ev_account_id := in_accountId i; ev_account_name := in_accountName i;
     ev_credit_id := Some (in_creditId i); ev_trigger := Auto; ev_cause := Some (in_cause i);
     ev_attempt_seq := Some attemptSeq; ev_idempotency_key := attempt_key id;
     ev_status := EvPending; ev_windows_reset := None; ev_error_message := None;
     ev_credit_expires_at := in_creditExpiresAt i; ev_created_at := in_now i;
     ev_resolved_at := None |}.

Definition claim_guard (i : ClaimInput) (rows : list row) : bool :=
  match in_cause i with
  | Expiry => true
  | WeeklyLimit => negb (existsb (λ r, is_auto (in_accountId i) r && is_pending r) rows)
  end.

Definition reuse (r : row) : CodexResetCreditAutoClaim :=
  {| cl_id := ev_id r; cl_idempotencyKey := ev_idempotency_key r;
     cl_attemptSeq := default 0 (ev_attempt_seq r); cl_reused := true |}.

(** Where a call of [claimAutoAttempt] stands *)
Inductive claim_pc : Type :=
  | ClInsert (attemptSeq : Z)
  | ClReread
  | ClDone (c : option CodexResetCreditAutoClaim).

(** After the first read *)
Definition claim_first (latest : option row) : claim_pc :=
  match latest with
  | Some r =>
      match ev_status r with
      | EvPending => ClDone (Some (reuse r))
      | EvNothingToReset => ClInsert (default 0 (ev_attempt_seq r) + 1)
      | _ => ClDone None
      end
  | None => ClInsert 1
  end.

(** The insert *)
Definition claim_insert (i : ClaimInput) (attemptSeq : Z) (rows : list row)
    : list row * claim_pc :=
  let r := claim_row i attemptSeq in
  match insert_or_ignore (claim_guard i rows) r rows with
  | (rows', true) =>
      (rows', ClDone (Some {| cl_id := ev_id r; cl_idempotencyKey := ev_idempotency_key r;
                              cl_attemptSeq := attemptSeq; cl_reused := false |}))
  | (rows', false) => (rows', ClReread)
  end.

(** The second read *)
Definition claim_reread (winner : option row) : claim_pc :=
  match winner with
  | Some r => if is_pending r then ClDone (Some (reuse r)) else ClDone None
  | None => ClDone None
  end.

(** A claim nothing interleaves with *)
Definition claimAutoAttempt (i : ClaimInput) (rows : list row)
    : list row * option CodexResetCreditAutoClaim :=
  match claim_first (latestAutoRow (in_accountId i) (in_creditId i) rows) with
  | ClDone c => (rows, c)
  | ClInsert n =>
      match claim_insert i n rows with
      | (rows', ClDone c) => (rows', c)
      | (rows', _) =>
          match claim_reread (latestAutoRow (in_accountId i) (in_creditId i) rows') with
          | ClDone c => (rows', c)
          | _ => (rows', None)
          end
      end
  | ClReread => (rows, None)
  end.

Definition resolved (s : EventStatus) (windows : option Z) (message : option string) (now : Z)
    (r : row) : row :=
  {| ev_id := ev_id r; ev_account_id := ev_account_id r; ev_account_name := ev_account_name r;
     ev_credit_id := ev_credit_id r; ev_trigger := ev_trigger r; ev_cause := ev_cause r;
     ev_attempt_seq := ev_attempt_seq r; ev_idempotency_key := ev_idempotency_key r;
     ev_status := s; ev_windows_reset := windows; ev_error_message := message;
     ev_credit_expires_at := ev_credit_expires_at r; ev_created_at := ev_created_at r;
     ev_resolved_at := Some now |}.

Definition pending_with (id : string) (r : row) : bool :=
  bool_decide (ev_id r = id) && is_pending r.

(** [UPDATE ... WHERE id = ? AND status = 'pending'] *)
Definition resolveAttempt (id : string) (s : EventStatus) (windows : option Z)
    (message : option string) (now : Z) (rows : list row) : list row :=
  map (λ r, if pending_with id r then resolved s windows message now r else r) rows.

Definition withdrawPendingAttempt (id : string) (rows : list row) : list row * bool :=
  (List.filter (λ r, negb (pending_with id r)) rows, existsb (pending_with id) rows).

Record ManualInput := {
  man_accountId : string; man_accountName : string; man_creditId : option string;
  man_idempotencyKey : string; man_status : EventStatus; man_windowsReset : option Z;
  man_errorMessage : option string; man_now : Z
}.

Definition manual_row (uuid : string) (i : ManualInput) : row :=
  {| ev_id := uuid; ev_account_id := man_accountId i; ev_account_name := man_accountName i;
     ev_credit_id := man_creditId i; ev_trigger := Manual; ev_cause := None;
     ev_attempt_seq := None; ev_idempotency_key := man_idempotencyKey i;
     ev_status := man_status i; ev_windows_reset := man_windowsReset i;
     ev_error_message := man_errorMessage i; ev_credit_expires_at := None;
     ev_created_at := man_now i; ev_resolved_at := Some (man_now i) |}.

(** A plain INSERT throws on a conflict and leaves the table. *)
Definition recordManual (uuid : string) (i : ManualInput) (rows : list row) : list row * bool :=
  insert_or_ignore true (manual_row uuid i) rows.

(** * Interleavings *)

Record ledger := {
  lg_rows : list row;
  lg_claims : gmap Z (ClaimInput * claim_pc)
}.

Definition ledger_init : ledger := {| lg_rows := []; lg_claims := ∅ |}.

Inductive lg_event : Type :=
  | LClaim (k : Z) (i : ClaimInput)
  | LInsert (k : Z)
  | LReread (k : Z)
  | LThrow (k : Z)
  | LResolve (id : string) (s : EventStatus) (windows : option Z) (message : option string) (now : Z)
  | LWithdraw (id : string)
  | LManual (uuid : string) (i : ManualInput)
  | LCrash.

Definition set_rows (rows : list row) (l : ledger) : ledger :=
  {| lg_rows := rows; lg_claims := lg_claims l |}.

Definition lg_step (ev : lg_event) (l : ledger) : option ledger :=
  match ev with
  | LClaim k i =>
      match lg_claims l !! k with
      | Some _ => None
      | None =>
          let pc := claim_first (latestAutoRow (in_accountId i) (in_creditId i) (lg_rows l)) in
          Some {| lg_rows := lg_rows l; lg_claims := <[k := (i, pc)]> (lg_claims l) |}
      end
  | LInsert k =>
      match lg_claims l !! k with
      | Some (i, ClInsert n) =>
          let '(rows, pc) := claim_insert i n (lg_rows l) in
          Some {| lg_rows := rows; lg_claims := <[k := (i, pc)]> (lg_claims l) |}
      | _ => None
      end
  | LReread k =>
      match lg_claims l !! k with
      | Some (i, ClReread) =>
          let pc := claim_reread (latestAutoRow (in_accountId i) (in_creditId i) (lg_rows l)) in
          Some {| lg_rows := lg_rows l; lg_claims := <[k := (i, pc)]> (lg_claims l) |}
      | _ => None
      end
  | LThrow k => Some {| lg_rows := lg_rows l; lg_claims := delete k (lg_claims l) |}
  | LResolve id s windows message now =>
      if bool_decide (s = EvPending) then None
      else Some (set_rows (resolveAttempt id s windows message now (lg_rows l)) l)
  | LWithdraw id => Some (set_rows (withdrawPendingAttempt id (lg_rows l)).1 l)
  | LManual uuid i =>
      if bool_decide (man_status i = EvPending) then None
      else Some (set_rows (recordManual uuid i (lg_rows l)).1 l)
  | LCrash => Some {| lg_rows := lg_rows l; lg_claims := ∅ |}
  end.

Fixpoint lg_run (evs : list lg_event) (l : ledger) : option ledger :=
  match evs with
  | [] => Some l
  | ev :: evs => l ← lg_step ev l; lg_run evs l
  end.

(** * The shape of the table *)

Lemma elem_of_lfilter {A} (f : A → bool) x l : x ∈ List.filter f l ↔ f x = true ∧ x ∈ l.
Proof. rewrite !list_elem_of_In, filter_In. tauto. Qed.

(** [r] is attempt [n] of automation on the credit [c] of [a]. *)
Definition attempt (a c : string) (n : Z) (r : row) : Prop :=
  ev_trigger r = Auto ∧ ev_account_id r = a ∧ ev_credit_id r = Some c ∧ ev_attempt_seq r = Some n.

Record rows_wf (rows : list row) : Prop := {
  rw_ids : NoDup (ev_id <$> rows);
  rw_auto r : r ∈ rows → ev_trigger r = Auto → ∃ c n, attempt (ev_account_id r) c n r ∧ 1 <= n ∧
    ev_id r = attempt_id (ev_account_id r) c n ∧ ev_idempotency_key r = attempt_key (ev_id r);
  rw_older a c n n' r r' : r ∈ rows → r' ∈ rows → attempt a c n r → attempt a c n' r' → n < n' →
    ev_status r = EvNothingToReset;
  rw_prev a c n r : r ∈ rows → attempt a c n r → 1 < n → ∃ r', r' ∈ rows ∧ attempt a c (n - 1) r';
  rw_weekly l1 l2 l3 r r' : rows = l1 ++ r :: l2 ++ r' :: l3 → ev_trigger r = Auto → ev_trigger r' = Auto →
    ev_account_id r = ev_account_id r' → ev_status r = EvPending → ev_status r' = EvPending →
    ev_cause r' ≠ Some WeeklyLimit
}.

Lemma wf_nil : rows_wf [].
Proof. split; try (intros *; set_solver); [constructor|]. intros [|? ?]; discriminate. Qed.

Lemma attempt_seq_pos rows a c n r : rows_wf rows → r ∈ rows → attempt a c n r → 1 <= n.
Proof.
  intros Hwf Hr (Ht & <- & Hc & Hn). destruct (rw_auto _ Hwf r Hr Ht) as (c' & n' & (_ & _ & _ & Hn') & ? & _).
  congruence.
Qed.

Lemma attempt_id_eq rows a c n r : rows_wf rows → r ∈ rows → attempt a c n r → ev_id r = attempt_id a c n.
Proof.
  intros Hwf Hr (Ht & <- & Hc & Hn).
  destruct (rw_auto _ Hwf r Hr Ht) as (c' & n' & (_ & _ & Hc' & Hn') & _ & -> & _). congruence.
Qed.

Lemma attempt_unique rows a c n r r' :
  rows_wf rows → r ∈ rows → r' ∈ rows → attempt a c n r → attempt a c n r' → r = r'.
Proof.
  intros Hwf Hr Hr' Ha Ha'. apply (NoDup_fmap_elem_inj ev_id rows); [apply Hwf|done|done|].
  by rewrite (attempt_id_eq _ _ _ _ _ Hwf Hr Ha), (attempt_id_eq _ _ _ _ _ Hwf Hr' Ha').
Qed.

(** The attempts of a credit are numbered without a gap. *)
Lemma attempts_down rows a c n m r :
  rows_wf rows → r ∈ rows → attempt a c n r → 1 <= m <= n → ∃ r', r' ∈ rows ∧ attempt a c m r'.
Proof.
  intros Hwf Hr Ha [Hm Hn]. remember (Z.to_nat (n - m)) as d eqn:Hd. revert n r Hr Ha Hn Hd.
  induction d as [|d IH]; intros n r Hr Ha Hn Hd.
  - assert (n = m) as -> by lia. by exists r.
  - destruct (rw_prev _ Hwf a c n r Hr Ha ltac:(lia)) as (r' & Hr' & Ha'). eapply (IH (n - 1)); [done..|lia|lia].
Qed.

Lemma conflict_attempt r r' a c n : attempt a c n r → attempt a c n r' → conflict r r' = true.
Proof.
  intros (H1 & H2 & H3 & H4) (H1' & H2' & H3' & H4'). unfold conflict.
  apply orb_true_iff. right. rewrite !andb_true_iff, !bool_decide_eq_true.
  rewrite H1, H2, H3, H4, H1', H2', H3', H4'. by repeat split; eexists.
Qed.

Lemma no_conflict r r' rows : conflicts r rows = false → r' ∈ rows → conflict r r' = false.
Proof.
  intros Hc Hr. unfold conflicts in Hc. destruct (conflict r r') eqn:E; [|done].
  assert (existsb (conflict r) rows = true) as Ht; [|congruence].
  apply existsb_exists. exists r'. by rewrite <-list_elem_of_In.
Qed.

Lemma no_conflict_id r r' : conflict r r' = false → ev_id r' ≠ ev_id r.
Proof. unfold conflict. intros H He. by rewrite bool_decide_eq_true_2 in H. Qed.

Lemma better_elem before l best r :
  foldl (better before) best l = Some r → r ∈ l ∨ best = Some r.
Proof.
  revert best. induction l as [|x l IH]; intros best Hf; simpl in Hf; [by right|].
  apply IH in Hf as [?|Hb]; [left; by right|]. unfold better in Hb.
  destruct best as [b|]; [destruct (before x b)|]; [injection Hb as ->; left; left|by right|injection Hb as ->; left; left].
Qed.

Lemma first_by_elem before l r : first_by before l = Some r → r ∈ l.
Proof. intros H. by destruct (better_elem _ _ _ _ H). Qed.

(** What [ORDER BY ... LIMIT 1] finds, for a strict weak order *)
Section first_by.
Context (before : row → row → bool).
Context (Hasym : ∀ x y, before x y = true → before y x = false).
Context (Htrans : ∀ x y z, before x y = false → before y z = false → before x z = false).

Lemma first_by_min l r x : first_by before l = Some r → x ∈ l → before x r = false.
Proof.
  assert (∀ z, before z z = false) as Hirr.
  { intros z. pose proof (Hasym z z) as H. destruct (before z z); [|reflexivity]. exact (H eq_refl). }
  unfold first_by. assert (∀ best, foldl (better before) best l = Some r →
    (∀ b, best = Some b → before b r = false) ∧ ∀ x, x ∈ l → before x r = false) as H;
    [|intros Hf; by apply (H None)].
  clear x. induction l as [|y l IH]; intros best Hf; simpl in Hf.
  - subst. split; [by intros ? [= <-]|set_solver].
  - apply IH in Hf as [Hb Hl]. unfold better in Hb. destruct best as [b|].
    + assert (before b r = false ∧ before y r = false) as [? ?].
      { destruct (before y b) eqn:E; specialize (Hb _ eq_refl).
        - split; [|done]. by apply (Htrans _ y); [apply Hasym|].
        - split; [done|]. by apply (Htrans _ b). }
      split; [by intros ? [= <-]|]. intros x [->|?]%elem_of_cons; [done|]. by apply Hl.
    + split; [done|]. intros x [->|?]%elem_of_cons; [by apply Hb|by apply Hl].
Qed.
End first_by.

Lemma seq_gt_asym x y : seq_gt x y = true → seq_gt y x = false.
Proof. destruct x, y; simpl; [|done..]. intros ?%Z.ltb_lt. apply Z.ltb_ge. lia. Qed.
Lemma seq_gt_trans x y z : seq_gt x y = false → seq_gt y z = false → seq_gt x z = false.
Proof.
  destruct x, y, z; simpl; try done. rewrite !Z.ltb_ge. lia.
Qed.

Lemma auto_attempt rows a c r :
  rows_wf rows → r ∈ List.filter (is_auto_of a c) rows ↔ r ∈ rows ∧ ∃ n, attempt a c n r.
Proof.
  intros Hwf. rewrite elem_of_lfilter. unfold is_auto_of, is_auto. rewrite !andb_true_iff, !bool_decide_eq_true.
  split; [|intros [? (n & H1 & H2 & H3 & H4)]; done]. intros [[[Ht Ha] Hc] Hr]. split; [done|].
  destruct (rw_auto _ Hwf r Hr Ht) as (c' & n & (_ & _ & Hc' & Hn) & _). exists n. by repeat split.
Qed.

(** The latest attempt *)
Lemma latest_spec rows a c r :
  rows_wf rows → latestAutoRow a c rows = Some r →
  r ∈ rows ∧ ∃ n, attempt a c n r ∧ ∀ r' n', r' ∈ rows → attempt a c n' r' → n' <= n.
Proof.
  intros Hwf Hl. unfold latestAutoRow in Hl. pose proof (first_by_elem _ _ _ Hl) as Hr.
  apply auto_attempt in Hr as [Hr [n Hn]]; [|done]. split; [done|]. exists n. split; [done|].
  intros r' n' Hr' Hn'.
  assert (seq_gt (ev_attempt_seq r') (ev_attempt_seq r) = false) as Hs.
  { refine (first_by_min _ _ _ _ _ _ Hl _); [intros *; apply seq_gt_asym|intros *; apply seq_gt_trans|].
    apply auto_attempt; eauto. }
  destruct Hn as (_ & _ & _ & En), Hn' as (_ & _ & _ & En'). rewrite En, En' in Hs.
  by apply Z.ltb_ge in Hs.
Qed.

Lemma latest_None rows a c r n :
  rows_wf rows → latestAutoRow a c rows = None → r ∈ rows → ¬ attempt a c n r.
Proof.
  intros Hwf Hl Hr Hn. assert (r ∈ List.filter (is_auto_of a c) rows) as Hin by (apply auto_attempt; eauto).
  unfold latestAutoRow in Hl. destruct (List.filter _ rows) as [|x l]; [set_solver|]. clear Hin.
  unfold first_by in Hl. simpl in Hl.
  assert (∀ f l b, foldl (better f) (Some b) l ≠ None) as H; [|by apply H in Hl].
  clear. intros f. induction l as [|y l IH]; intros b; simpl; [done|]. by destruct (f y b).
Qed.

(** An unresolved attempt is the latest. *)
Lemma latest_pending rows a c n r :
  rows_wf rows → r ∈ rows → attempt a c n r → ev_status r = EvPending → latestAutoRow a c rows = Some r.
Proof.
  intros Hwf Hr Ha Hp. destruct (latestAutoRow a c rows) as [r'|] eqn:E; [|by edestruct (latest_None _ a c r n Hwf E)].
  destruct (latest_spec _ _ _ _ Hwf E) as (Hr' & m & Hm & Hmax). f_equal.
  specialize (Hmax _ _ Hr Ha). destruct (decide (n = m)) as [->|Hne]; [by eapply attempt_unique|].
  pose proof (rw_older _ Hwf a c n m r r' Hr Hr' Ha Hm ltac:(lia)). congruence.
Qed.

(** * Every statement keeps it *)

(** The attempt before one that is to be inserted came back with nothing to reset. *)
Definition insertable (a c : string) (n : Z) (rows : list row) : Prop :=
  n = 1 ∨ 1 < n ∧ ∃ r, r ∈ rows ∧ attempt a c (n - 1) r ∧ ev_status r = EvNothingToReset.

Lemma claim_row_attempt i n : attempt (in_accountId i) (in_creditId i) n (claim_row i n).
Proof. by repeat split. Qed.

Lemma claim_first_insertable i n rows :
  rows_wf rows → claim_first (latestAutoRow (in_accountId i) (in_creditId i) rows) = ClInsert n →
  insertable (in_accountId i) (in_creditId i) n rows.
Proof.
  intros Hwf. destruct (latestAutoRow _ _ rows) as [r|] eqn:E; simpl; [|intros [= <-]; by left].
  destruct (latest_spec _ _ _ _ Hwf E) as (Hr & m & Hm & _). pose proof Hm as (_ & _ & _ & Hs).
  destruct (ev_status r) eqn:Es; try done. intros [= <-]. rewrite Hs. simpl. right.
  pose proof (attempt_seq_pos _ _ _ _ _ Hwf Hr Hm). split; [lia|]. exists r.
  by replace (m + 1 - 1) with m by lia.
Qed.

Lemma app_split (rows l1 l2 l3 : list row) x r r' :
  rows ++ [x] = l1 ++ r :: l2 ++ r' :: l3 →
  (∃ l4, l3 = l4 ++ [x] ∧ rows = l1 ++ r :: l2 ++ r' :: l4) ∨ l3 = [] ∧ r' = x ∧ rows = l1 ++ r :: l2.
Proof.
  intros H. destruct l3 as [|y l3] using rev_ind.
  - right. change (r :: l2 ++ [r']) with ((r :: l2) ++ [r']) in H. rewrite app_assoc in H.
    apply app_inj_tail in H as [-> ->]. done.
  - left. clear IHl3. exists l3.
    assert (l1 ++ r :: l2 ++ r' :: l3 ++ [y] = (l1 ++ r :: l2 ++ r' :: l3) ++ [y]) as E
      by (rewrite <-app_assoc; simpl; by rewrite <-app_assoc).
    rewrite E in H. by apply app_inj_tail in H as [-> ->].
Qed.

Lemma attempt_inj a c m a' c' m' r : attempt a c m r → attempt a' c' m' r → a = a' ∧ c = c' ∧ m = m'.
Proof. intros (_ & H1 & H2 & H3) (_ & H4 & H5 & H6). split; [congruence|]. split; congruence. Qed.

(** A claim's insert *)
Lemma insert_wf i n rows rows' b :
  rows_wf rows → insertable (in_accountId i) (in_creditId i) n rows →
  insert_or_ignore (claim_guard i rows) (claim_row i n) rows = (rows', b) → rows_wf rows'.
Proof.
  intros Hwf Hins. unfold insert_or_ignore. destruct (claim_guard i rows) eqn:Eg; simpl; [|by intros [= <- _]].
  destruct (conflicts (claim_row i n) rows) eqn:Ec; simpl; intros [= <- _]; [done|].
  pose proof (claim_row_attempt i n) as Hnew. set (x := claim_row i n) in *.
  set (a := in_accountId i) in *. set (c := in_creditId i) in *.
  assert (∀ r m, r ∈ rows → attempt a c m r → m < n) as Hlt.
  { intros r m Hr Hm. destruct (Z.lt_ge_cases m n) as [|Hge]; [done|]. exfalso.
    assert (1 <= n) by (destruct Hins as [->|[? _]]; lia).
    destruct (attempts_down rows a c m n r Hwf Hr Hm) as (r' & Hr' & Hn'); [lia|].
    pose proof (no_conflict _ _ _ Ec Hr') as Hf. by rewrite (conflict_attempt _ _ a c n) in Hf. }
  assert (∀ r, r ∈ rows ++ [x] → r ∈ rows ∨ r = x) as Hin by (intros r; set_solver).
  split.
  - rewrite fmap_app. apply NoDup_app. split; [apply Hwf|]. split; [|apply NoDup_singleton].
    intros id (r & -> & Hr)%list_elem_of_fmap Hx%list_elem_of_singleton.
    by apply (no_conflict_id x r); [by apply (no_conflict _ _ rows)|].
  - intros r [Hr| ->]%Hin Ht; [by apply (rw_auto _ Hwf)|]. exists c, n. split; [done|].
    split; [destruct Hins as [->|[? _]]; lia|done].
  - intros a' c' m m' r r' [Hr| ->]%Hin [Hr'| ->]%Hin Hm Hm' Hmm.
    + by eapply (rw_older _ Hwf a' c' m m' r r').
    + destruct (attempt_inj _ _ _ _ _ _ _ Hm' Hnew) as (-> & -> & ->).
      destruct Hins as [->|(_ & l & Hl & Hln & Hls)].
      { pose proof (attempt_seq_pos _ _ _ _ _ Hwf Hr Hm). lia. }
      destruct (decide (m = n - 1)) as [->|]; [by rewrite (attempt_unique _ _ _ _ _ _ Hwf Hr Hl Hm Hln)|].
      eapply (rw_older _ Hwf a c m (n - 1) r l); try done. lia.
    + destruct (attempt_inj _ _ _ _ _ _ _ Hm Hnew) as (-> & -> & ->).
      specialize (Hlt _ _ Hr' Hm'). lia.
    + destruct (attempt_inj _ _ _ _ _ _ _ Hm Hm'). lia.
  - intros a' c' m r [Hr| ->]%Hin Hm Hm1.
    + destruct (rw_prev _ Hwf _ _ _ _ Hr Hm Hm1) as (r' & Hr' & ?). exists r'. set_solver.
    + destruct (attempt_inj _ _ _ _ _ _ _ Hm Hnew) as (-> & -> & ->).
      destruct Hins as [->|(_ & l & Hl & Hln & _)]; [lia|]. exists l. set_solver.
  - intros l1 l2 l3 r r' [(l4 & -> & Hrows)|(-> & -> & Hrows)]%app_split Ht Ht' Ha Hs Hs'.
    + by eapply (rw_weekly _ Hwf l1 l2 l4 r r').
    + intros Hw. unfold claim_guard in Eg. change (ev_cause x) with (Some (in_cause i)) in Hw. injection Hw as Hw.
      rewrite Hw in Eg. apply negb_true_iff in Eg.
      assert (existsb (λ r, is_auto a r && is_pending r) rows = true) as Hex; [|unfold a in Hex; congruence].
      apply existsb_exists. exists r. split; [apply list_elem_of_In; rewrite Hrows; set_solver|].
      unfold is_auto, is_pending. rewrite !andb_true_iff, !bool_decide_eq_true. done.
Qed.

(** A resolution keeps who, which and when of every row, and settles only what is pending. *)
Lemma resolve_elem id s w msg now rows r' :
  r' ∈ resolveAttempt id s w msg now rows ↔
  ∃ r, r ∈ rows ∧ r' = if pending_with id r then resolved s w msg now r else r.
Proof. unfold resolveAttempt. rewrite list_elem_of_fmap. naive_solver. Qed.

Lemma resolved_attempt id s w msg now a c n r :
  attempt a c n (if pending_with id r then resolved s w msg now r else r) ↔ attempt a c n r.
Proof. by destruct (pending_with id r). Qed.

Lemma resolved_fields {A} (f : row → A) id s w msg now r :
  f (resolved s w msg now r) = f r → f (if pending_with id r then resolved s w msg now r else r) = f r.
Proof. by destruct (pending_with id r). Qed.

Lemma resolved_pending id s w msg now r :
  s ≠ EvPending →
  ev_status (if pending_with id r then resolved s w msg now r else r) = EvPending → ev_status r = EvPending.
Proof. by destruct (pending_with id r). Qed.

Lemma resolved_settled id s w msg now r :
  ev_status r ≠ EvPending → (if pending_with id r then resolved s w msg now r else r) = r.
Proof.
  intros H. unfold pending_with, is_pending. rewrite (bool_decide_eq_false_2 (ev_status r = EvPending)) by done.
  by rewrite andb_false_r.
Qed.

Lemma map_split {A B} (f : A → B) (l : list A) (l1 l2 : list B) y :
  map f l = l1 ++ y :: l2 → ∃ k1 x k2, l = k1 ++ x :: k2 ∧ map f k1 = l1 ∧ f x = y ∧ map f k2 = l2.
Proof.
  revert l. induction l1 as [|z l1 IH]; intros [|x l] H; try done; injection H as H0 H.
  - by exists [], x, l.
  - destruct (IH _ H) as (k1 & x' & k2 & -> & <- & <- & <-). exists (x :: k1), x', k2. by rewrite <-H0.
Qed.

Lemma resolve_wf id s w msg now rows :
  s ≠ EvPending → rows_wf rows → rows_wf (resolveAttempt id s w msg now rows).
Proof.
  intros Hs Hwf. split.
  - unfold resolveAttempt. rewrite <-list_fmap_compose.
    erewrite list_fmap_ext; [apply (rw_ids _ Hwf)|]. intros i r _. simpl. by apply (resolved_fields ev_id).
  - intros r' (r & Hr & ->)%resolve_elem Ht. rewrite (resolved_fields ev_trigger) in Ht by done.
    rewrite !(resolved_fields ev_account_id), !(resolved_fields ev_id), (resolved_fields ev_idempotency_key) by done.
    destruct (rw_auto _ Hwf r Hr Ht) as (c & n & ? & ?). exists c, n. by rewrite resolved_attempt.
  - intros a c n n' r1' r2' (r1 & Hr1 & ->)%resolve_elem (r2 & Hr2 & ->)%resolve_elem.
    rewrite !resolved_attempt. intros H1 H2 Hn. pose proof (rw_older _ Hwf _ _ _ _ _ _ Hr1 Hr2 H1 H2 Hn) as Hst.
    rewrite resolved_settled; congruence.
  - intros a c n r' (r & Hr & ->)%resolve_elem. rewrite resolved_attempt. intros Hm Hn.
    destruct (rw_prev _ Hwf _ _ _ _ Hr Hm Hn) as (r1 & Hr1 & H1).
    eexists. split; [apply resolve_elem; by exists r1|]. by rewrite resolved_attempt.
  - unfold resolveAttempt. intros l1 l2 l3 r r' Hrows Ht Ht' Ha Hp Hp'.
    apply map_split in Hrows as (k1 & x & k2 & -> & <- & <- & Hk2).
    apply map_split in Hk2 as (k3 & x' & k4 & -> & <- & <- & <-).
    rewrite (resolved_fields ev_trigger) in Ht, Ht' by done. rewrite !(resolved_fields ev_account_id) in Ha by done.
    apply resolved_pending in Hp, Hp'; [|done..]. rewrite (resolved_fields ev_cause) by done.
    by eapply (rw_weekly _ Hwf k1 k3 k4 x x').
Qed.

(** A withdrawal removes one unresolved attempt, the latest of its credit. *)
Lemma withdraw_elem id rows r :
  r ∈ (withdrawPendingAttempt id rows).1 ↔ r ∈ rows ∧ (ev_id r = id → ev_status r ≠ EvPending).
Proof.
  simpl. rewrite elem_of_lfilter, negb_true_iff. unfold pending_with, is_pending.
  rewrite andb_false_iff, !bool_decide_eq_false. destruct (decide (ev_id r = id)); naive_solver.
Qed.

Lemma filter_split {A} (f : A → bool) (l l1 l2 : list A) y :
  List.filter f l = l1 ++ y :: l2 →
  ∃ k1 k2, l = k1 ++ y :: k2 ∧ List.filter f k2 = l2.
Proof.
  revert l1. induction l as [|x l IH]; intros l1 H; simpl in H; [by destruct l1|].
  destruct (f x) eqn:E.
  - destruct l1 as [|z l1]; simplify_eq/=.
    + by exists [], l.
    + destruct (IH l1) as (k1 & k2 & -> & <-); [done|]. by exists (z :: k1), k2.
  - destruct (IH l1 H) as (k1 & k2 & -> & <-). by exists (x :: k1), k2.
Qed.

Lemma withdraw_wf id rows : rows_wf rows → rows_wf (withdrawPendingAttempt id rows).1.
Proof.
  intros Hwf. split.
  - simpl. pose proof (rw_ids _ Hwf) as Hnd. clear Hwf. induction rows as [|r rows IH]; simpl; [constructor|].
    apply NoDup_cons in Hnd as [Hr Hnd]. destruct (negb _); simpl; [|auto]. constructor; [|auto].
    intros (r' & E & Hr')%list_elem_of_fmap. apply Hr. apply list_elem_of_fmap. exists r'. split; [done|].
    by apply elem_of_lfilter in Hr' as [_ ?].
  - intros r [Hr _]%withdraw_elem. by apply (rw_auto _ Hwf).
  - intros a c n n' r r' [Hr _]%withdraw_elem [Hr' _]%withdraw_elem. by apply (rw_older _ Hwf).
  - intros a c n r [Hr _]%withdraw_elem Hm Hn. destruct (rw_prev _ Hwf _ _ _ _ Hr Hm Hn) as (r1 & Hr1 & H1).
    exists r1. split; [|done]. apply withdraw_elem. split; [done|]. intros _.
    rewrite (rw_older _ Hwf a c (n - 1) n r1 r); [done..|lia].
  - simpl. intros l1 l2 l3 r r' Hrows. apply filter_split in Hrows as (k1 & k2 & -> & Hk2).
    apply filter_split in Hk2 as (k3 & k4 & -> & _). by apply (rw_weekly _ Hwf k1 k3 k4).
Qed.

Lemma manual_wf uuid i rows :
  man_status i ≠ EvPending → rows_wf rows → rows_wf (recordManual uuid i rows).1.
Proof.
  intros Hs Hwf. unfold recordManual, insert_or_ignore. simpl.
  destruct (conflicts _ rows) eqn:Ec; simpl; [done|]. set (x := manual_row uuid i) in *.
  assert (∀ r, r ∈ rows ++ [x] → ev_trigger r = Auto → r ∈ rows) as Hin.
  { intros r [?|Hr%list_elem_of_singleton]%elem_of_app Ht; [done|]. by subst r. }
  split.
  - rewrite fmap_app. apply NoDup_app. split; [apply Hwf|]. split; [|apply NoDup_singleton].
    intros id (r & -> & Hr)%list_elem_of_fmap Hx%list_elem_of_singleton.
    by apply (no_conflict_id x r); [by apply (no_conflict _ _ rows)|].
  - intros r Hr Ht. apply (rw_auto _ Hwf); auto.
  - intros a c n n' r r' Hr Hr' Hm Hm'. apply (rw_older _ Hwf a c n n' r r'); try done; apply Hin; try done; [apply Hm|apply Hm'].
  - intros a c n r Hr Hm Hn. destruct (rw_prev _ Hwf a c n r) as (r1 & ? & ?); [apply Hin; [done|apply Hm]|done..|].
    exists r1. set_solver.
  - intros l1 l2 l3 r r' [(l4 & -> & Hrows)|(-> & -> & Hrows)]%app_split Ht Ht' Ha; [|done].
    by apply (rw_weekly _ Hwf l1 l2 l4).
Qed.

(** * Every interleaving *)

Record ledger_ok (l : ledger) : Prop := {
  lo_rows : rows_wf (lg_rows l);
  lo_claims k i n : lg_claims l !! k = Some (i, ClInsert n) →
    insertable (in_accountId i) (in_creditId i) n (lg_rows l)
}.

(** A row that came back with nothing to reset stays. *)
Definition keeps_settled (rows rows' : list row) : Prop :=
  ∀ r, r ∈ rows → ev_status r ≠ EvPending → r ∈ rows'.

Lemma insertable_keeps a c n rows rows' :
  keeps_settled rows rows' → insertable a c n rows → insertable a c n rows'.
Proof.
  intros Hk [->|(Hn & r & Hr & Ha & Hs)]; [by left|]. right. split; [done|]. exists r.
  split; [apply Hk; [done|congruence]|done].
Qed.

Lemma ok_rows l rows :
  ledger_ok l → rows_wf rows → keeps_settled (lg_rows l) rows → ledger_ok (set_rows rows l).
Proof. intros [H1 H2] Hwf Hk. split; [done|]. intros k i n Hc. eapply insertable_keeps; [done|by eapply H2]. Qed.

Lemma ok_claim l k i pc rows :
  ledger_ok l → rows_wf rows → keeps_settled (lg_rows l) rows →
  (∀ n, pc = ClInsert n → insertable (in_accountId i) (in_creditId i) n rows) →
  ledger_ok {| lg_rows := rows; lg_claims := <[k := (i, pc)]> (lg_claims l) |}.
Proof.
  intros [H1 H2] Hwf Hk Hpc. split; [done|]. simpl. intros j i' n Hj.
  rewrite lookup_insert in Hj. case_decide; simplify_eq; [by apply Hpc|]. eapply insertable_keeps; [done|by eapply H2].
Qed.

Lemma keeps_insert guard r rows : keeps_settled rows (insert_or_ignore guard r rows).1.
Proof. intros x Hx _. unfold insert_or_ignore. case_match; simpl; set_solver. Qed.

Lemma claim_insert_not_again i n rows m : (claim_insert i n rows).2 ≠ ClInsert m.
Proof. unfold claim_insert. by destruct (insert_or_ignore _ _ _) as [? []]. Qed.

Lemma claim_insert_rows i n rows :
  (claim_insert i n rows).1 = (insert_or_ignore (claim_guard i rows) (claim_row i n) rows).1.
Proof. unfold claim_insert. by destruct (insert_or_ignore _ _ _) as [? []]. Qed.

Lemma lg_step_ok ev l l' : ledger_ok l → lg_step ev l = Some l' → ledger_ok l'.
Proof.
  intros Hok Hs. pose proof (lo_rows _ Hok) as Hwf.
  assert (keeps_settled (lg_rows l) (lg_rows l)) as Hrefl by by intros r Hr _.
  destruct ev as [k i|k|k|k|id s w msg now|id|uuid i|]; simpl in Hs.
  - destruct (lg_claims l !! k); [done|]. injection Hs as <-. apply ok_claim; try done.
    intros n. by apply claim_first_insertable.
  - destruct (lg_claims l !! k) as [[i [n| |c]]|] eqn:Ek; try done.
    destruct (claim_insert i n (lg_rows l)) as [rows pc] eqn:E. injection Hs as <-.
    assert (rows = (insert_or_ignore (claim_guard i (lg_rows l)) (claim_row i n) (lg_rows l)).1) as ->
      by (by rewrite <-claim_insert_rows, E).
    apply ok_claim; [done| |apply keeps_insert|].
    + destruct (insert_or_ignore (claim_guard i (lg_rows l)) (claim_row i n) (lg_rows l)) as [rows b] eqn:Ei. eapply insert_wf; [done| |done]. by eapply lo_claims.
    + intros m ->. by destruct (claim_insert_not_again i n (lg_rows l) m); rewrite E.
  - destruct (lg_claims l !! k) as [[i [n| |c]]|]; try done. injection Hs as <-.
    apply ok_claim; try done. intros n Hn. unfold claim_reread in Hn. by repeat case_match.
  - injection Hs as <-. split; [done|]. intros j i n Hj. simpl in Hj. apply lookup_delete_Some in Hj as [_ Hj].
    by apply (lo_claims _ Hok j).
  - case_bool_decide as Hsp; [done|]. injection Hs as <-. apply ok_rows; [done|by apply resolve_wf|].
    intros r Hr Hst. apply resolve_elem. exists r. split; [done|]. by rewrite resolved_settled.
  - injection Hs as <-. apply ok_rows; [done|by apply withdraw_wf|].
    intros r Hr Hst. apply withdraw_elem. done.
  - case_bool_decide as Hsp; [done|]. injection Hs as <-. apply ok_rows; [done|by apply manual_wf|apply keeps_insert].
  - injection Hs as <-. split; [done|]. intros k i n Hk. simpl in Hk. by rewrite lookup_empty in Hk.
Qed.

Lemma lg_run_invariant (P : ledger → Prop) (ok : lg_event → Prop) evs l l' :
  (∀ ev l l', ok ev → P l → lg_step ev l = Some l' → P l') →
  Forall ok evs → P l → lg_run evs l = Some l' → P l'.
Proof.
  intros Hstep Hok. revert l. induction Hok as [|ev evs Hev Hok IH]; intros l Hp Hr; simpl in Hr; [congruence|].
  destruct (lg_step ev l) as [l1|] eqn:E; [|done]. simpl in Hr. eapply IH; [|done]. by eapply Hstep.
Qed.

Lemma ledger_reached evs l : lg_run evs ledger_init = Some l → ledger_ok l.
Proof.
  intros Hr. eapply (lg_run_invariant ledger_ok (λ _, True)); [|by apply Forall_true| |exact Hr].
  - intros ev l1 l2 _. apply lg_step_ok.
  - split; [apply wf_nil|]. intros k i n Hk. simpl in Hk. by rewrite lookup_empty in Hk.
Qed.

(** The attempts on one credit are serial. In every interleaving of claims, resolutions,
    withdrawals, manual entries and crashes: two automatic rows never share an idempotency
    key; a credit has at most one unresolved attempt; and wherever a later attempt on a
    credit exists, each earlier one has come back with nothing to reset, that is, provably
    without spending the credit. *)
Theorem credit_attempts_serial evs l r r' :
  lg_run evs ledger_init = Some l → r ∈ lg_rows l → r' ∈ lg_rows l →
  ev_trigger r = Auto → ev_trigger r' = Auto →
  (ev_idempotency_key r = ev_idempotency_key r' → r = r') ∧
  (ev_account_id r = ev_account_id r' → ev_credit_id r = ev_credit_id r' →
     (ev_status r = EvPending → ev_status r' = EvPending → r = r') ∧
     (∀ n n', ev_attempt_seq r = Some n → ev_attempt_seq r' = Some n' → n < n' →
        ev_status r = EvNothingToReset)).
Proof.
  intros Hr%ledger_reached. destruct Hr as [Hwf _]. intros Hin Hin' Ht Ht'.
  destruct (rw_auto _ Hwf r Hin Ht) as (c & n & Ha & _ & Hid & Hkey).
  destruct (rw_auto _ Hwf r' Hin' Ht') as (c' & n' & Ha' & _ & Hid' & Hkey'). split.
  - rewrite Hkey, Hkey'. intros Hk%string_app_inj_l. by apply (NoDup_fmap_elem_inj ev_id _ _ _ (rw_ids _ Hwf)).
  - intros Eacc Ec. rewrite Eacc in Ha. assert (c = c') as -> by (destruct Ha as (_ & _ & ? & _), Ha' as (_ & _ & ? & _); congruence).
    split.
    + intros Hp Hp'. pose proof (latest_pending _ _ _ _ _ Hwf Hin Ha Hp) as E1.
      pose proof (latest_pending _ _ _ _ _ Hwf Hin' Ha' Hp') as E2. congruence.
    + intros m m' Em Em' Hlt. destruct Ha as (? & ? & ? & En), Ha' as (? & ? & ? & En').
      apply (rw_older _ Hwf (ev_account_id r') c' m m' r r'); by repeat split.
Qed.

(** C40: Every reachable table is well formed: no two rows share their identity; an automatic row
    names its credit and its attempt number, from 1, carries the identity and the idempotency
    key derived from them, and every earlier attempt on its credit is still there. *)
Theorem table_well_formed evs l :
  lg_run evs ledger_init = Some l →
  NoDup (ev_id <$> lg_rows l)
  ∧ ∀ r, r ∈ lg_rows l → ev_trigger r = Auto →
      ∃ c n, ev_credit_id r = Some c ∧ ev_attempt_seq r = Some n ∧ 1 <= n
      ∧ ev_id r = attempt_id (ev_account_id r) c n ∧ ev_idempotency_key r = attempt_key (ev_id r)
      ∧ ∀ m, 1 <= m <= n → ∃ r', r' ∈ lg_rows l ∧ ev_trigger r' = Auto
          ∧ ev_account_id r' = ev_account_id r ∧ ev_credit_id r' = Some c ∧ ev_attempt_seq r' = Some m.
Proof.
  intros Hr%ledger_reached. destruct Hr as [Hwf _]. split; [apply (rw_ids _ Hwf)|].
  intros r Hin Ht. destruct (rw_auto _ Hwf r Hin Ht) as (c & n & Ha & Hn & Hid & Hkey).
  exists c, n. split_and!; try done; [apply Ha|apply Ha|]. intros m Hm.
  destruct (attempts_down _ _ _ _ _ _ Hwf Hin Ha Hm) as (r' & Hr' & Ha'). by exists r'.
Qed.

(** At most one weekly attempt under way, and none beside another. Among the unresolved
    automatic attempts of an account only the one claimed first can be for the weekly limit:
    a weekly claim is refused while the outcome of any other attempt is uncertain, in every
    interleaving. *)
Theorem weekly_attempt_alone evs l l1 l2 l3 r r' :
  lg_run evs ledger_init = Some l → lg_rows l = l1 ++ r :: l2 ++ r' :: l3 →
  ev_trigger r = Auto → ev_trigger r' = Auto → ev_account_id r = ev_account_id r' →
  ev_status r = EvPending → ev_status r' = EvPending → ev_cause r' ≠ Some WeeklyLimit.
Proof. intros Hr%ledger_reached. apply (rw_weekly _ (lo_rows _ Hr)). Qed.

(** * A retry finds its attempt *)

(** The event neither resolves nor withdraws the row [id]. *)
Definition spares (id : string) (ev : lg_event) : Prop :=
  match ev with LResolve i _ _ _ _ | LWithdraw i => i ≠ id | _ => True end.

(** Every claim of the credit has found [r]. *)
Definition found (c : string) (r : row) (l : ledger) : Prop :=
  r ∈ lg_rows l ∧ ∀ k i pc, lg_claims l !! k = Some (i, pc) →
    in_accountId i = ev_account_id r → in_creditId i = c → pc = ClDone (Some (reuse r)).

Lemma found_claims c r rows claims k i pc :
  r ∈ rows →
  (∀ k i pc, claims !! k = Some (i, pc) → in_accountId i = ev_account_id r → in_creditId i = c →
     pc = ClDone (Some (reuse r))) →
  (in_accountId i = ev_account_id r → in_creditId i = c → pc = ClDone (Some (reuse r))) →
  found c r {| lg_rows := rows; lg_claims := <[k := (i, pc)]> claims |}.
Proof.
  intros Hr Hold Hnew. split; [done|]. simpl. intros j i' pc' Hj. rewrite lookup_insert in Hj.
  case_decide; simplify_eq; [done|by eapply Hold].
Qed.

Lemma found_step c n r ev l l' :
  attempt (ev_account_id r) c n r → ev_status r = EvPending → spares (ev_id r) ev →
  ledger_ok l ∧ found c r l → lg_step ev l = Some l' → ledger_ok l' ∧ found c r l'.
Proof.
  intros Ha Hp Hsp [Hok [Hr Hall]] Hs. split; [by eapply lg_step_ok|].
  destruct ev as [k i|k|k|k|id s w msg now|id|uuid i|]; simpl in Hs, Hsp.
  - destruct (lg_claims l !! k); [done|]. injection Hs as <-. apply found_claims; [done|done|].
    intros Ea Ec. rewrite Ea, Ec, (latest_pending _ _ _ _ _ (lo_rows _ Hok) Hr Ha Hp). simpl. by rewrite Hp.
  - destruct (lg_claims l !! k) as [[i [m| |c']]|] eqn:Ek; try done.
    destruct (claim_insert i m (lg_rows l)) as [rows pc] eqn:E. injection Hs as <-.
    apply found_claims; [|done|intros Ea Ec; by specialize (Hall _ _ _ Ek Ea Ec)].
    assert (rows = (claim_insert i m (lg_rows l)).1) as -> by by rewrite E.
    rewrite claim_insert_rows. unfold insert_or_ignore. case_match; simpl; set_solver.
  - destruct (lg_claims l !! k) as [[i [m| |c']]|] eqn:Ek; try done. injection Hs as <-.
    apply found_claims; [done..|]. intros Ea Ec. by specialize (Hall _ _ _ Ek Ea Ec).
  - injection Hs as <-. split; [done|]. intros j i pc Hj. simpl in Hj. apply lookup_delete_Some in Hj as [_ Hj].
    by eapply Hall.
  - case_bool_decide; [done|]. injection Hs as <-. split; [|done]. apply resolve_elem. exists r. split; [done|].
    unfold pending_with. by rewrite bool_decide_eq_false_2.
  - injection Hs as <-. split; [|done]. apply withdraw_elem. split; [done|]. congruence.
  - case_bool_decide; [done|]. injection Hs as <-. split; [|done]. simpl. unfold recordManual, insert_or_ignore.
    case_match; simpl; set_solver.
  - injection Hs as <-. split; [done|]. intros k i pc Hk. simpl in Hk. by rewrite lookup_empty in Hk.
Qed.

(** A retry uses the same key. Once an attempt on a credit has been claimed and neither
    resolved nor withdrawn, whatever runs in between, server crashes included, every later
    claim for that credit ends in that very attempt with its idempotency key, so the request
    sent again is the one the provider has perhaps already carried out. *)
Theorem unresolved_attempt_reused evs0 l c r evs l' k i pc :
  lg_run evs0 ledger_init = Some l →
  r ∈ lg_rows l → ev_trigger r = Auto → ev_credit_id r = Some c → ev_status r = EvPending →
  (∀ k i pc, lg_claims l !! k = Some (i, pc) → in_accountId i = ev_account_id r → in_creditId i = c →
     pc = ClDone (Some (reuse r))) →
  Forall (spares (ev_id r)) evs → lg_run evs l = Some l' →
  lg_claims l' !! k = Some (i, ClDone pc) → in_accountId i = ev_account_id r → in_creditId i = c →
  pc = Some {| cl_id := ev_id r; cl_idempotencyKey := ev_idempotency_key r;
               cl_attemptSeq := default 0 (ev_attempt_seq r); cl_reused := true |} ∧
  r ∈ lg_rows l'.
Proof.
  intros Hr%ledger_reached Hin Ht Hc Hp Hcl Hev Hrun Hk Ea Ec.
  destruct (rw_auto _ (lo_rows _ Hr) r Hin Ht) as (c' & n & Ha & _).
  assert (c' = c) as -> by (destruct Ha as (_ & _ & ? & _); congruence).
  assert (ledger_ok l' ∧ found c r l') as [_ [Hin' Hall]].
  { eapply (lg_run_invariant (λ l, ledger_ok l ∧ found c r l)); [|exact Hev| |exact Hrun]; [|done].
    intros ev l1 l2 Hs. by eapply found_step. }
  split; [|done]. specialize (Hall _ _ _ Hk Ea Ec). by injection Hall.
Qed.

(** * A claim alone *)

(** What a claim does when nothing interleaves: an unresolved attempt is handed out
    again; a credit whose latest attempt spent it, found it spent or gone, or failed for good
    is refused; otherwise the next attempt is written and handed out, unless the claim is for
    the weekly limit and another attempt of the account is unresolved, which leaves the table
    alone. *)
Theorem claim_exact evs l i :
  lg_run evs ledger_init = Some l →
  (∀ r n, r ∈ lg_rows l → ev_id r = attempt_id (in_accountId i) (in_creditId i) n →
     attempt (in_accountId i) (in_creditId i) n r) →
  let rows := lg_rows l in
  claimAutoAttempt i rows =
    match latestAutoRow (in_accountId i) (in_creditId i) rows with
    | Some r =>
        match ev_status r with
        | EvPending => (rows, Some (reuse r))
        | EvNothingToReset =>
            let n := default 0 (ev_attempt_seq r) + 1 in
            if claim_guard i rows then
              (rows ++ [claim_row i n],
               Some {| cl_id := ev_id (claim_row i n); cl_idempotencyKey := ev_idempotency_key (claim_row i n);
                       cl_attemptSeq := n; cl_reused := false |})
            else (rows, None)
        | _ => (rows, None)
        end
    | None =>
        if claim_guard i rows then
          (rows ++ [claim_row i 1],
           Some {| cl_id := ev_id (claim_row i 1); cl_idempotencyKey := ev_idempotency_key (claim_row i 1);
                   cl_attemptSeq := 1; cl_reused := false |})
        else (rows, None)
    end.
Proof.
  intros Hr%ledger_reached Hfree rows. pose proof (lo_rows _ Hr) as Hwf. fold rows in Hwf, Hfree.
  set (a := in_accountId i) in *. set (c := in_creditId i) in *.
  assert (∀ n, (∀ r, r ∈ rows → ¬ attempt a c n r) → conflicts (claim_row i n) rows = false) as Hno.
  { intros n Hn. unfold conflicts. destruct (existsb _ rows) eqn:E; [|done].
    apply existsb_exists in E as (r & Hin & Hc). apply list_elem_of_In in Hin. exfalso.
    apply (Hn r Hin). unfold conflict in Hc. apply orb_true_iff in Hc as [Hc|Hc].
    - apply bool_decide_eq_true in Hc. by apply Hfree.
    - rewrite !andb_true_iff, !bool_decide_eq_true in Hc. by destruct Hc as [[[[[[? ?] ?] ?] ?] ?] ?]. }
  unfold claimAutoAttempt. fold a c. destruct (latestAutoRow a c rows) as [r|] eqn:E; simpl.
  - destruct (latest_spec _ _ _ _ Hwf E) as (Hin & n & Hn & Hmax). pose proof Hn as (_ & _ & _ & En).
    destruct (ev_status r) eqn:Es; try done. rewrite En. simpl. unfold claim_insert, insert_or_ignore.
    rewrite Hno by (intros r' Hr' Hm; specialize (Hmax _ _ Hr' Hm); lia).
    destruct (claim_guard i rows); simpl; [done|]. rewrite E. simpl. unfold is_pending. by rewrite Es.
  - unfold claim_insert, insert_or_ignore. rewrite Hno by (intros r Hin; by eapply latest_None).
    destruct (claim_guard i rows); simpl; [done|]. by rewrite E.
Qed.

(** * Concrete runs *)

Definition demo_claim (credit : string) (cause : ApplyCause) (now : Z) : ClaimInput :=
  {| in_accountId := "a1"; in_accountName := "one"; in_creditId := credit;
     in_creditExpiresAt := None; in_cause := cause; in_now := now |}.

(** The first attempt came back with nothing to reset; a second one is under way. *)
Definition demo_attempts : list lg_event :=
  [LClaim 1 (demo_claim "c1" WeeklyLimit 10); LInsert 1;
   LResolve "a1:c1:1" EvNothingToReset (Some 0) None 20;
   LClaim 2 (demo_claim "c1" WeeklyLimit 30); LInsert 2].

Definition demo_row (n : Z) : row := claim_row (demo_claim "c1" WeeklyLimit (20 * n - 10)) n.
Definition demo_row1 : row := resolved EvNothingToReset (Some 0) None 20 (demo_row 1).

Lemma demo_attempts_rows : lg_rows <$> lg_run demo_attempts ledger_init = Some [demo_row1; demo_row 2].
Proof. vm_compute. reflexivity. Qed.

Lemma credit_attempts_serial_witness :
  ∃ l, lg_run demo_attempts ledger_init = Some l ∧ lg_rows l = [demo_row1; demo_row 2] ∧
    ev_attempt_seq demo_row1 = Some 1 ∧ ev_attempt_seq (demo_row 2) = Some 2 ∧
    ev_status demo_row1 = EvNothingToReset.
Proof.
  pose proof demo_attempts_rows as H. apply fmap_Some in H as (l & E & Hl). exists l.
  split; [done|]. split; [done|]. split; [done|]. split; [done|].
  destruct (credit_attempts_serial demo_attempts l demo_row1 (demo_row 2) E) as [_ Hs];
    [rewrite <-Hl; by left|rewrite <-Hl; by right; left|done|done|].
  by apply (Hs eq_refl eq_refl) with (n := 1) (n' := 2).
Defined.

Lemma table_well_formed_witness :
  ∃ l, lg_run demo_attempts ledger_init = Some l ∧ NoDup (ev_id <$> lg_rows l)
  ∧ ev_id (demo_row 2) = "a1:c1:2"%string.
Proof.
  pose proof demo_attempts_rows as H. apply fmap_Some in H as (l & E & Hl). exists l.
  split; [done|]. split; [exact (proj1 (table_well_formed demo_attempts l E))|by vm_compute].
Defined.

(** A weekly attempt, then a credit about to expire *)
Definition demo_two : list lg_event :=
  [LClaim 1 (demo_claim "c1" WeeklyLimit 10); LInsert 1;
   LClaim 2 (demo_claim "c2" Expiry 20); LInsert 2;
   LClaim 3 (demo_claim "c3" WeeklyLimit 30); LInsert 3; LReread 3].

Definition demo_c1 : row := claim_row (demo_claim "c1" WeeklyLimit 10) 1.
Definition demo_c2 : row := claim_row (demo_claim "c2" Expiry 20) 1.

Lemma demo_two_attempts :
  (λ l, (lg_rows l, snd <$> lg_claims l !! 3)) <$> lg_run demo_two ledger_init =
    Some ([demo_c1; demo_c2], Some (ClDone None)).
Proof. vm_compute. reflexivity. Qed.

Lemma weekly_attempt_alone_witness :
  ∃ l, lg_run demo_two ledger_init = Some l ∧ lg_rows l = [demo_c1; demo_c2] ∧
    ev_cause demo_c2 ≠ Some WeeklyLimit.
Proof.
  pose proof demo_two_attempts as H. apply fmap_Some in H as (l & E & [= Hl _]). exists l.
  split; [done|]. split; [by rewrite <-Hl|].
  by apply (weekly_attempt_alone demo_two l [] [] [] demo_c1 demo_c2 E).
Defined.

(** A crash, then another claim of the same credit *)
Definition demo_crash : list lg_event :=
  [LClaim 1 (demo_claim "c1" WeeklyLimit 10); LInsert 1; LCrash].
Definition demo_again : list lg_event := [LClaim 7 (demo_claim "c1" Expiry 90)].

Lemma unresolved_attempt_reused_witness :
  ∃ l l' pc, lg_run demo_crash ledger_init = Some l ∧ lg_run demo_again l = Some l' ∧
    lg_claims l' !! 7 = Some (demo_claim "c1" Expiry 90, ClDone pc) ∧
    pc = Some {| cl_id := "a1:c1:1"; cl_idempotencyKey := "codex-reset-auto:a1:c1:1";
                 cl_attemptSeq := 1; cl_reused := true |} ∧ demo_c1 ∈ lg_rows l'.
Proof.
  assert ((λ l, (lg_rows l, map_to_list (lg_claims l))) <$> lg_run demo_crash ledger_init = Some ([demo_c1], []))
    as H by (vm_compute; reflexivity).
  apply fmap_Some in H as (l & E & H). apply pair_equal_spec in H as [Hl Hm].
  symmetry in Hm. apply map_to_list_empty_iff in Hm.
  assert (lg_run demo_again l = Some {| lg_rows := [demo_c1]; lg_claims :=
    {[7 := (demo_claim "c1" Expiry 90, claim_first (latestAutoRow "a1" "c1" [demo_c1]))]} |}) as E'.
  { cbn [lg_run demo_again lg_step]. rewrite Hm, <-Hl. reflexivity. }
  eexists l, _, _. split; [done|]. split; [exact E'|]. split; [reflexivity|].
  apply (unresolved_attempt_reused demo_crash l "c1" demo_c1 demo_again
           {| lg_rows := [demo_c1]; lg_claims :=
    {[7 := (demo_claim "c1" Expiry 90, claim_first (latestAutoRow "a1" "c1" [demo_c1]))]} |}
           7 (demo_claim "c1" Expiry 90) _ E); try done.
  - rewrite <-Hl. by left.
  - intros k i pc Hk. by rewrite Hm, lookup_empty in Hk.
  - repeat constructor.
Defined.

Lemma claim_exact_witness :
  claimAutoAttempt (demo_claim "c1" Expiry 40) [demo_row1; demo_row 2] =
    ([demo_row1; demo_row 2], Some (reuse (demo_row 2))).
Proof.
  pose proof demo_attempts_rows as H. apply fmap_Some in H as (l & E & Hl).
  pose proof (claim_exact demo_attempts l (demo_claim "c1" Expiry 40) E) as Hc. rewrite <-Hl in Hc.
  rewrite Hc; [vm_compute; reflexivity|].
  intros r n Hr Hid.
  apply elem_of_cons in Hr as [->|Hr%list_elem_of_singleton]; [|subst r]; repeat split.
  - change (ev_id demo_row1) with (attempt_id "a1" "c1" 1) in Hid. unfold attempt_id in Hid.
    do 4 apply string_app_inj_l in Hid. apply (inj pretty) in Hid. by subst n.
  - change (ev_id (demo_row 2)) with (attempt_id "a1" "c1" 2) in Hid. unfold attempt_id in Hid.
    do 4 apply string_app_inj_l in Hid. apply (inj pretty) in Hid. by subst n.
Defined.
