(* ===== verification/CodexSpend.v ===== *)
(** Reads and spends of Codex quota: [packages/proxy/src/codex-spend-coordinator.ts] with the
    fence of [codex-observation-fence.ts] and what the applicator of
    [handlers/codex-observation.ts] stores.

    Calls, shared spends, reads and redemptions are tasks that stop at each [await]; the
    answer of what they await (the account row, a token, the provider) is given by the
    environment, so every interleaving and every delay is a run. What they do is a trace of
    effects: requests sent, spend rows booked, ledger entries, observations applied.
    [cx_tick] counts the steps: it dates the issue of every request and is not part of the
    program, nor is [cx_restored]. The contents of an observation, messages and the capture
    of the subscription period are left out. *)

From S2P Require Import Prelude Accounts CreditLedger.
Open Scope Z_scope.

Inductive CodexSpendCause : Type := ScheduledPrime | ManualRefresh.
#[export] Instance CodexSpendCause_eq_dec : EqDecision CodexSpendCause.
Proof. solve_decision. Defined.

Inductive CodexSpendResult : Type :=
  | SpendCompleted (status : Z) (applied : bool)
  | SpendSkipped
  | SpendFailed
  | SpendThrew.

Record ConsumeRequest := {
  rq_idempotencyKey : string;
  rq_creditId : option string;
  rq_ledgerRowId : option string   (* [autoApply] *)
}.

(** [CodexRateLimitResetCreditConsumeOutcome] *)
Inductive ConsumeOutcome : Type := OcReset | OcNothingToReset | OcNoCredit | OcAlreadyRedeemed.
#[export] Instance ConsumeOutcome_eq_dec : EqDecision ConsumeOutcome.
Proof. solve_decision. Defined.

Record ConsumeResult := { cr_outcome : ConsumeOutcome; cr_windowsReset : Z }.

Definition outcome_status (o : ConsumeOutcome) : EventStatus :=
  match o with
  | OcReset => EvReset
  | OcNothingToReset => EvNothingToReset
  | OcNoCredit => EvNoCredit
  | OcAlreadyRedeemed => EvAlreadyRedeemed
  end.

(** [CodexResetCreditConsumeDispatchOutcome] *)
Inductive DispatchOutcome : Type :=
  | Completed (r : ConsumeResult) (metadataRefreshed : bool) (stateCleared : bool)
  | DispatchFailed (notSent : bool).

(** * The metadata cache: [providers/codex/rate-limit-reset-credits.ts] *)

Definition CODEX_RESET_CREDITS_REFRESH_MS : Z := 15 * 60 * 1000.
Definition CODEX_RESET_CREDITS_RETRY_MS : Z := 5 * 60 * 1000.

(** [CodexRateLimitResetCreditStatus] *)
Inductive CreditStatus : Type := CsAvailable | CsRedeeming | CsRedeemed | CsUnknown.
#[export] Instance CreditStatus_eq_dec : EqDecision CreditStatus.
Proof. solve_decision. Defined.

Record Credit := {
  credit_id : string;
  credit_status : CreditStatus;
  credit_expiresAt : option Z    (* unix seconds *)
}.

Record CreditsSummary := { sum_availableCount : Z; sum_credits : option (list Credit) }.
Record CreditsEntry := { ce_summary : CreditsSummary; ce_fetchedAt : Z }.

Record credits_cache := { cc_entries : gmap string CreditsEntry; cc_lastAttemptAt : gmap string Z }.

Definition credits_set (id : string) (summary : CreditsSummary) (now : Z) (c : credits_cache)
    : credits_cache :=
  {| cc_entries := <[id := {| ce_summary := summary; ce_fetchedAt := now |}]> (cc_entries c);
     cc_lastAttemptAt := <[id := now]> (cc_lastAttemptAt c) |}.

Definition markAttempt (id : string) (now : Z) (c : credits_cache) : credits_cache :=
  {| cc_entries := cc_entries c; cc_lastAttemptAt := <[id := now]> (cc_lastAttemptAt c) |}.

(** Some available credit has expired by [now]. *)
Definition some_expired (now : Z) (s : CreditsSummary) : bool :=
  existsb (λ c, bool_decide (credit_status c = CsAvailable)
                && match credit_expiresAt c with Some e => e * 1000 <=? now | None => false end)
    (default [] (sum_credits s)).

Definition needsRefresh (id : string) (now : Z) (c : credits_cache) : bool :=
  match cc_entries c !! id with
  | Some e =>
      (CODEX_RESET_CREDITS_REFRESH_MS <=? now - ce_fetchedAt e) || some_expired now (ce_summary e)
  | None =>
      match cc_lastAttemptAt c !! id with
      | Some t => CODEX_RESET_CREDITS_RETRY_MS <=? now - t
      | None => true
      end
  end.

(** * Effects *)

Inductive effect : Type :=
  | EPing (k : Z) (id : string) (seq : Z)          (* the native request *)
  | EPingFailed (k : Z)
  | EBook (k : Z) (status : Z)                     (* [recordNativePingSpend] *)
  | EGet (k : Z) (id : string) (seq : Z)           (* the free usage read *)
  | ERetryGet (k : Z)
  | EApply (k : Z) (id : string) (seq : Z)         (* an observation is applied *)
  | EPost (k : Z) (id key : string)                (* the redemption *)
  | ERestored (k : Z) (id : string) (seq : Z)      (* older observations are fenced off *)
  | EResolve (k : Z) (row : string) (s : EventStatus) (windows : Z)
  | EManual (k : Z) (key : string) (s : EventStatus)
  | EForceReset (k : Z) (id : string)
  | EResume (k : Z) (id : string)                  (* [resumeAccountIfOveragePaused] *)
  | ECredits (k : Z) (id : string).                (* the metadata read *)

Definition effect_task (e : effect) : Z :=
  match e with
  | EPing k _ _ | EPingFailed k | EBook k _ | EGet k _ _ | ERetryGet k | EApply k _ _
  | EPost k _ _ | ERestored k _ _ | EResolve k _ _ _ | EManual k _ _ | EForceReset k _
  | EResume k _ | ECredits k _ => k
  end.

(** * Tasks *)

Inductive spend_pc : Type :=
  | SpToken
  | SpGate
  | SpPing (seq issued : Z)
  | SpEnd (r : CodexSpendResult).

Inductive observe_pc : Type := ObLoad | ObWait (spend : Z) | ObEnd (r : CodexSpendResult).

(** What a usage read carries: its sequence, the cache entry it is to replace, the instant
    of its issue, the access tokens it spans *)
Record read_ctx := {
  rc_token : string;
  rc_reauth : bool;
  rc_seq : Z;
  rc_writtenBefore : option Z;
  rc_issued : Z;
  rc_generations : list (option string)
}.

Record UsageStatus := {
  us_ok : bool;
  us_status : option Z;
  us_windows : bool;     (* some usable window *)
  us_limited : bool
}.

Inductive read_outcome : Type :=
  | ReadFailed | ReadSuperseded | ReadCredentialChange | ReadNoWindows | ReadRefreshed (limited : bool)
  | ReadThrew.

Inductive read_pc : Type :=
  | RdRow
  | RdToken (a : Account)
  | RdGet (x : read_ctx)
  | RdRefresh (x : read_ctx)
  | RdRetry (x : read_ctx)
  | RdRecheck (x : read_ctx) (st : UsageStatus) (persist : bool)
  | RdEnd (o : read_outcome).

Inductive consume_pc : Type :=
  | CoRow
  | CoToken
  | CoMeta (read : Z)
  | CoPost
  | CoFailing
  | CoLedger (r : ConsumeResult)
  | CoClear (r : ConsumeResult)
  | CoResume (r : ConsumeResult) (cleared : bool)
  | CoMetadata (r : ConsumeResult) (cleared : bool)
  | CoEnd (o : DispatchOutcome)
  | CoThrew.

Inductive credits_pc : Type :=
  | CrRow | CrToken | CrGet (token : string) | CrRefresh (token : string) | CrRetry
  | CrEnd (ok : bool).

Inductive task : Type :=
  | TObserve (cause : CodexSpendCause) (pc : observe_pc)
  | TSpend (causes : list CodexSpendCause) (pc : spend_pc)
  | TRead (pc : read_pc)
  | TConsume (r : ConsumeRequest) (pc : consume_pc)
  | TCredits (pc : credits_pc)
  | TAttempt (epoch issued : Z) (ended : bool).   (* a request of real traffic *)

(** The answer to what a task awaits *)
Inductive answer : Type :=
  | AThrow
  | AUnit
  | ARow (r : option Account)
  | AToken (t : string)
  | APing (status : Z) (windows persist : bool)
  | AUsage (st : UsageStatus) (persist : bool)
  | AConsumed (r : ConsumeResult)
  | ABool (b : bool)
  | ASummary (s : option CreditsSummary) (status : option Z).

(** * The coordinator *)

(** A stored observation: when the request it comes from was issued, when it was written *)
Record stored := { st_issued : Z; st_writtenAt : Z }.

(** A queued write of a snapshot: its epoch fences it. *)
Record job := { job_id : string; job_epoch : Z; job_issued : Z }.

(** The sequence counters, the epochs of the fence; [restored]: when the last redemption that
    restored the windows was known *)
Record sequences := {
  applicationSeqCounter : gmap string Z;
  lastAppliedSeq : gmap string Z;
  epochs : gmap string Z;
  restored : gmap string Z
}.

Record flights := {
  inflight : gmap string Z;
  readInflight : gmap string Z;
  resetCreditsInflight : gmap string Z
}.

Record storage := {
  usageCache : gmap string stored;
  creditsCache : credits_cache;
  queue : list job;
  column : gmap string stored      (* [codex_usage_json]; [st_writtenAt] counts steps here *)
}.

Record coord := {
  cx_seqs : sequences;
  cx_flights : flights;
  cx_storage : storage;
  cx_tasks : gmap Z (string * task);
  cx_nextTask : Z;
  cx_trace : list effect;
  cx_tick : Z
}.

Definition coord_init : coord :=
  {| cx_seqs := {| applicationSeqCounter := ∅; lastAppliedSeq := ∅; epochs := ∅; restored := ∅ |};
     cx_flights := {| inflight := ∅; readInflight := ∅; resetCreditsInflight := ∅ |};
     cx_storage := {| usageCache := ∅; creditsCache := {| cc_entries := ∅; cc_lastAttemptAt := ∅ |};
                      queue := []; column := ∅ |};
     cx_tasks := ∅; cx_nextTask := 0; cx_trace := []; cx_tick := 0 |}.

Definition with_seqs (f : sequences → sequences) (s : coord) : coord :=
  {| cx_seqs := f (cx_seqs s); cx_flights := cx_flights s; cx_storage := cx_storage s;
     cx_tasks := cx_tasks s; cx_nextTask := cx_nextTask s; cx_trace := cx_trace s;
     cx_tick := cx_tick s |}.
Definition with_flights (f : flights → flights) (s : coord) : coord :=
  {| cx_seqs := cx_seqs s; cx_flights := f (cx_flights s); cx_storage := cx_storage s;
     cx_tasks := cx_tasks s; cx_nextTask := cx_nextTask s; cx_trace := cx_trace s;
     cx_tick := cx_tick s |}.
Definition with_storage (f : storage → storage) (s : coord) : coord :=
  {| cx_seqs := cx_seqs s; cx_flights := cx_flights s; cx_storage := f (cx_storage s);
     cx_tasks := cx_tasks s; cx_nextTask := cx_nextTask s; cx_trace := cx_trace s;
     cx_tick := cx_tick s |}.
Definition with_tasks (m : gmap Z (string * task)) (s : coord) : coord :=
  {| cx_seqs := cx_seqs s; cx_flights := cx_flights s; cx_storage := cx_storage s;
     cx_tasks := m; cx_nextTask := cx_nextTask s; cx_trace := cx_trace s; cx_tick := cx_tick s |}.
Definition emit (e : effect) (s : coord) : coord :=
  {| cx_seqs := cx_seqs s; cx_flights := cx_flights s; cx_storage := cx_storage s;
     cx_tasks := cx_tasks s; cx_nextTask := cx_nextTask s; cx_trace := cx_trace s ++ [e];
     cx_tick := cx_tick s |}.
Definition tick (s : coord) : coord :=
  {| cx_seqs := cx_seqs s; cx_flights := cx_flights s; cx_storage := cx_storage s;
     cx_tasks := cx_tasks s; cx_nextTask := cx_nextTask s; cx_trace := cx_trace s;
     cx_tick := cx_tick s + 1 |}.

(** A new task, with the next identity *)
Definition spawn (id : string) (t : task) (s : coord) : coord :=
  {| cx_seqs := cx_seqs s; cx_flights := cx_flights s; cx_storage := cx_storage s;
     cx_tasks := <[cx_nextTask s := (id, t)]> (cx_tasks s); cx_nextTask := cx_nextTask s + 1;
     cx_trace := cx_trace s; cx_tick := cx_tick s |}.

Definition goto (k : Z) (id : string) (t : task) (s : coord) : coord :=
  with_tasks (<[k := (id, t)]> (cx_tasks s)) s.

(** * Sequences and the fence *)

Definition at_id (id : string) (m : gmap string Z) : Z := default 0 (m !! id).

(** [reserveApplicationSeq]: the next sequence of the account *)
Definition reserve (id : string) (q : sequences) : sequences :=
  {| applicationSeqCounter :=
       <[id := at_id id (applicationSeqCounter q) + 1]> (applicationSeqCounter q);
     lastAppliedSeq := lastAppliedSeq q; epochs := epochs q; restored := restored q |}.
Definition reserveApplicationSeq (id : string) (s : coord) : Z * coord :=
  (at_id id (applicationSeqCounter (cx_seqs s)) + 1, with_seqs (reserve id) s).

Definition set_applied (id : string) (seq : Z) (q : sequences) : sequences :=
  {| applicationSeqCounter := applicationSeqCounter q;
     lastAppliedSeq := <[id := seq]> (lastAppliedSeq q); epochs := epochs q;
     restored := restored q |}.
Definition claimApplication (id : string) (seq : Z) (s : coord) : bool * coord :=
  if seq <=? at_id id (lastAppliedSeq (cx_seqs s)) then (false, s)
  else (true, with_seqs (set_applied id seq) s).

(** [invalidateCodexObservations], and the date of the redemption *)
Definition invalidate (id : string) (now : Z) (q : sequences) : sequences :=
  {| applicationSeqCounter := applicationSeqCounter q; lastAppliedSeq := lastAppliedSeq q;
     epochs := <[id := at_id id (epochs q) + 1]> (epochs q);
     restored := <[id := now]> (restored q) |}.

Definition getCodexObservationEpoch (id : string) (s : coord) : Z := at_id id (epochs (cx_seqs s)).
Definition isCodexObservationCurrent (id : string) (epoch : Z) (s : coord) : bool :=
  getCodexObservationEpoch id s =? epoch.

Definition set_usage (m : gmap string stored) (t : storage) : storage :=
  {| usageCache := m; creditsCache := creditsCache t; queue := queue t; column := column t |}.
Definition set_credits (c : credits_cache) (t : storage) : storage :=
  {| usageCache := usageCache t; creditsCache := c; queue := queue t; column := column t |}.
Definition set_queue (q : list job) (t : storage) : storage :=
  {| usageCache := usageCache t; creditsCache := creditsCache t; queue := q; column := column t |}.
Definition set_column (m : gmap string stored) (t : storage) : storage :=
  {| usageCache := usageCache t; creditsCache := creditsCache t; queue := queue t; column := m |}.

(** What the applicators store of an observation issued at [issued]: with [windows], the
    usage cache and, unless the memo knows it already, a queued snapshot *)
Definition store_observation (id : string) (issued : Z) (windows persist : bool) (now : Z)
    (s : coord) : coord :=
  if windows then
    let s := with_storage (λ t, set_usage
               (<[id := {| st_issued := issued; st_writtenAt := now |}]> (usageCache t)) t) s in
    if persist then
      let j := {| job_id := id; job_epoch := getCodexObservationEpoch id s; job_issued := issued |} in
      with_storage (λ t, set_queue (queue t ++ [j]) t) s
    else s
  else s.

Definition usageCacheWrittenAt (id : string) (s : coord) : option Z :=
  st_writtenAt <$> usageCache (cx_storage s) !! id.

(** [-Infinity] for no entry *)
Definition advanced (now before : option Z) : bool :=
  match now, before with
  | Some n, Some b => b <? n
  | Some _, None => true
  | None, _ => false
  end.

(** * Accounts *)

Definition has_tokens (a : Account) : bool :=
  bool_decide (is_Some (truthy_string (acc_access_token a)))
  || bool_decide (is_Some (truthy_string (acc_refresh_token a))).

(** The checks every operation begins with *)
Definition usable_codex (row : option Account) : option Account :=
  a ← row;
  if acc_disabled a || negb (bool_decide (acc_provider a = "codex"%string)) || negb (has_tokens a)
  then None else Some a.

Definition needsReauth (a : Account) : bool :=
  acc_paused a && bool_decide (acc_pause_reason a = Some PAUSE_REASON_NEEDS_REAUTH).

Definition auto_refresh (a : Account) : bool := prof_auto_refresh_enabled (acc_profile a).

(** * A spend *)

(** [runSharedSpend] from the issue of the ping to its [await] *)
Definition issue_ping (k : Z) (id : string) (causes : list CodexSpendCause) (s : coord) : coord :=
  let '(seq, s) := reserveApplicationSeq id s in
  goto k id (TSpend causes (SpPing seq (cx_tick s))) (emit (EPing k id seq) s).

Definition spend_step (k : Z) (id : string) (causes : list CodexSpendCause) (pc : spend_pc)
    (ans : answer) (now : Z) (s : coord) : option coord :=
  let stop r s := Some (goto k id (TSpend causes (SpEnd r)) s) in
  match pc, ans with
  | SpToken, AThrow => stop SpendFailed s
  | SpToken, AToken _ =>
      if bool_decide (ManualRefresh ∈ causes) then Some (issue_ping k id causes s)
      else Some (goto k id (TSpend causes SpGate) s)
  | SpGate, AThrow => stop SpendThrew s
  | SpGate, ARow fresh =>
      if from_option (λ a, negb (acc_disabled a) && auto_refresh a) false fresh
      then Some (issue_ping k id causes s) else stop SpendSkipped s
  | SpPing seq issued, AThrow => stop SpendFailed (emit (EPingFailed k) s)
  | SpPing seq issued, APing status windows persist =>
      let s := emit (EBook k status) s in
      match claimApplication id seq s with
      | (false, s) => stop (SpendCompleted status false) s
      | (true, s) =>
          stop (SpendCompleted status true)
            (store_observation id issued windows persist now (emit (EApply k id seq) s))
      end
  | _, _ => None
  end.

(** A call of [observe] joins the spend in flight or starts one. *)
Definition join_spend (k : Z) (id : string) (cause : CodexSpendCause) (s : coord) : coord :=
  match inflight (cx_flights s) !! id with
  | Some p =>
      let add e := match e with
                   | (id, TSpend causes pc) =>
                       (id, TSpend (if bool_decide (cause ∈ causes) then causes else causes ++ [cause]) pc)
                   | e => e
                   end in
      goto k id (TObserve cause (ObWait p)) (with_tasks (alter add p (cx_tasks s)) s)
  | None =>
      let p := cx_nextTask s in
      let s := spawn id (TSpend [cause] SpToken) s in
      goto k id (TObserve cause (ObWait p))
        (with_flights (λ f, {| inflight := <[id := p]> (inflight f); readInflight := readInflight f;
                               resetCreditsInflight := resetCreditsInflight f |}) s)
  end.

Definition observe_step (k : Z) (id : string) (cause : CodexSpendCause) (pc : observe_pc)
    (ans : answer) (s : coord) : option coord :=
  let stop r := Some (goto k id (TObserve cause (ObEnd r)) s) in
  match pc, ans with
  | ObLoad, AThrow => stop SpendThrew
  | ObLoad, ARow row =>
      match usable_codex row with
      | None => stop SpendSkipped
      | Some a =>
          if bool_decide (cause = ScheduledPrime) && negb (auto_refresh a) then stop SpendSkipped
          else Some (join_spend k id cause s)
      end
  | ObWait p, AUnit =>
      match cx_tasks s !! p with
      | Some (_, TSpend _ (SpEnd r)) => stop r
      | _ => None
      end
  | _, _ => None
  end.

(** * A free read *)

Definition issue_get (k : Z) (id : string) (a : Account) (token : string) (s : coord) : coord :=
  let '(seq, s) := reserveApplicationSeq id s in
  let x := {| rc_token := token; rc_reauth := needsReauth a; rc_seq := seq;
              rc_writtenBefore := usageCacheWrittenAt id s; rc_issued := cx_tick s;
              rc_generations := [acc_access_token a; Some token] |} in
  goto k id (TRead (RdGet x)) (emit (EGet k id seq) s).

(** The status is in: the supersession guards up to the re-read of the row *)
Definition read_guards (k : Z) (id : string) (x : read_ctx) (st : UsageStatus) (persist : bool)
    (s : coord) : coord :=
  if negb (us_ok st) then goto k id (TRead (RdEnd ReadFailed)) s
  else if advanced (usageCacheWrittenAt id s) (rc_writtenBefore x)
  then goto k id (TRead (RdEnd ReadSuperseded)) s
  else
    match claimApplication id (rc_seq x) s with
    | (false, s) => goto k id (TRead (RdEnd ReadSuperseded)) s
    | (true, s) => goto k id (TRead (RdRecheck x st persist)) s
    end.

Definition with_generation (t : string) (x : read_ctx) : read_ctx :=
  {| rc_token := rc_token x; rc_reauth := rc_reauth x; rc_seq := rc_seq x;
     rc_writtenBefore := rc_writtenBefore x; rc_issued := rc_issued x;
     rc_generations := rc_generations x ++ [Some t] |}.

(** [forceTokenRefreshAfter401]: a token other than the rejected one *)
Definition fresh_token (t rejected : string) : option string :=
  t ← truthy_string (Some t); if bool_decide (t = rejected) then None else Some t.

Definition read_step (k : Z) (id : string) (pc : read_pc) (ans : answer) (now : Z) (s : coord)
    : option coord :=
  let stop o s := Some (goto k id (TRead (RdEnd o)) s) in
  match pc, ans with
  | RdRow, AThrow => stop ReadThrew s
  | RdRow, ARow row =>
      match usable_codex row with
      | None => stop ReadFailed s
      | Some a => Some (goto k id (TRead (RdToken a)) s)
      end
  | RdToken a, AThrow => stop ReadFailed s
  | RdToken a, AToken t => Some (issue_get k id a t s)
  | (RdGet _ | RdRetry _), AThrow => stop ReadThrew s
  | RdGet x, AUsage st persist =>
      if negb (us_ok st) && bool_decide (us_status st = Some 401) && negb (rc_reauth x)
      then Some (goto k id (TRead (RdRefresh x)) s)
      else Some (read_guards k id x st persist s)
  | RdRefresh x, AThrow => stop ReadFailed s
  | RdRefresh x, AToken t =>
      match fresh_token t (rc_token x) with
      | Some t => Some (goto k id (TRead (RdRetry (with_generation t x))) (emit (ERetryGet k) s))
      | None => stop ReadFailed s
      end
  | RdRetry x, AUsage st persist => Some (read_guards k id x st persist s)
  | RdRecheck x st persist, AThrow => stop ReadThrew s
  | RdRecheck x st persist, ARow row =>
      if from_option (λ a, negb (acc_disabled a)
                           && bool_decide (acc_access_token a ∈ rc_generations x)) false row
      then
        if at_id id (lastAppliedSeq (cx_seqs s)) =? rc_seq x then
          stop (if us_windows st then ReadRefreshed (us_limited st) else ReadNoWindows)
            (store_observation id (rc_issued x) (us_windows st) persist now
               (emit (EApply k id (rc_seq x)) s))
        else stop ReadSuperseded s
      else stop ReadCredentialChange s
  | _, _ => None
  end.

(** * A redemption *)

Definition windowsRestored (r : ConsumeResult) : bool :=
  match cr_outcome r with OcReset | OcAlreadyRedeemed => true | _ => false end.

Definition set_reads (m : gmap string Z) (f : flights) : flights :=
  {| inflight := inflight f; readInflight := m; resetCreditsInflight := resetCreditsInflight f |}.
Definition set_credit_reads (m : gmap string Z) (f : flights) : flights :=
  {| inflight := inflight f; readInflight := readInflight f; resetCreditsInflight := m |}.

(** The windows changed upstream: whatever was issued before is fenced off. *)
Definition restore_windows (k : Z) (id : string) (s : coord) : coord :=
  let '(seq, s) := reserveApplicationSeq id s in
  let '(_, s) := claimApplication id seq s in
  let s := with_seqs (invalidate id (cx_tick s)) s in
  emit (ERestored k id seq)
    (with_storage (λ t, set_usage (delete id (usageCache t)) t) s).

(** [recordResetCreditLedger]: a failed automatic attempt writes nothing *)
Definition record_ledger (k : Z) (r : ConsumeRequest) (st : EventStatus) (windows : Z) (s : coord)
    : coord :=
  match rq_ledgerRowId r with
  | Some row => if bool_decide (st = EvFailed) then s else emit (EResolve k row st windows) s
  | None => emit (EManual k (rq_idempotencyKey r) st) s
  end.

Definition fail_consume (k : Z) (id : string) (r : ConsumeRequest) (s : coord) : coord :=
  goto k id (TConsume r CoFailing) (record_ledger k r EvFailed 0 s).

Definition post (k : Z) (id : string) (r : ConsumeRequest) (s : coord) : coord :=
  goto k id (TConsume r CoPost) (emit (EPost k id (rq_idempotencyKey r)) s).

(** The metadata read that ends a redemption *)
Definition read_metadata (k : Z) (id : string) (r : ConsumeRequest) (o : ConsumeResult)
    (cleared : bool) (now : Z) (s : coord) : coord :=
  goto k id (TConsume r (CoMetadata o cleared))
    (emit (ECredits k id) (with_storage (λ t, set_credits (markAttempt id now (creditsCache t)) t) s)).

Definition resume_or_metadata (k : Z) (id : string) (r : ConsumeRequest) (o : ConsumeResult)
    (cleared : bool) (now : Z) (s : coord) : coord :=
  if bool_decide (cr_outcome o = OcReset)
  then goto k id (TConsume r (CoResume o cleared)) (emit (EResume k id) s)
  else read_metadata k id r o cleared now s.

Definition consume_step (k : Z) (id : string) (r : ConsumeRequest) (pc : consume_pc) (ans : answer)
    (now : Z) (s : coord) : option coord :=
  match pc, ans with
  | CoRow, AThrow => Some (goto k id (TConsume r CoThrew) s)
  | CoRow, ARow row =>
      match usable_codex row with
      | None => Some (fail_consume k id r s)
      | Some _ => Some (goto k id (TConsume r CoToken) s)
      end
  | CoToken, AThrow => Some (fail_consume k id r s)
  | CoToken, AToken _ =>
      match resetCreditsInflight (cx_flights s) !! id with
      | Some p => Some (goto k id (TConsume r (CoMeta p)) s)
      | None => Some (post k id r s)
      end
  | CoMeta p, AUnit =>
      match cx_tasks s !! p with
      | Some (_, TCredits (CrEnd _)) => Some (post k id r s)
      | _ => None
      end
  | CoPost, AThrow => Some (fail_consume k id r s)
  | CoPost, AConsumed o =>
      let s := if windowsRestored o then restore_windows k id s else s in
      Some (goto k id (TConsume r (CoLedger o))
              (record_ledger k r (outcome_status (cr_outcome o)) (cr_windowsReset o) s))
  | CoFailing, (AUnit | AThrow) => Some (goto k id (TConsume r (CoEnd (DispatchFailed false))) s)
  | CoLedger o, (AUnit | AThrow) =>
      if windowsRestored o
      then Some (goto k id (TConsume r (CoClear o)) (emit (EForceReset k id) s))
      else Some (read_metadata k id r o false now s)
  | CoClear o, ABool b => Some (resume_or_metadata k id r o b now s)
  | CoClear o, AThrow => Some (resume_or_metadata k id r o false now s)
  | CoResume o cleared, (ABool _ | AThrow) => Some (read_metadata k id r o cleared now s)
  | CoMetadata o cleared, ASummary (Some sm) _ =>
      Some (goto k id (TConsume r (CoEnd (Completed o true cleared)))
              (with_storage (λ t, set_credits (credits_set id sm now (creditsCache t)) t) s))
  | CoMetadata o cleared, (ASummary None _ | AThrow) =>
      Some (goto k id (TConsume r (CoEnd (Completed o false cleared))) s)
  | _, _ => None
  end.

(** * A metadata read *)

Definition credits_done (k : Z) (id : string) (sm : CreditsSummary) (now : Z) (s : coord) : coord :=
  goto k id (TCredits (CrEnd true))
    (with_storage (λ t, set_credits (credits_set id sm now (creditsCache t)) t) s).

Definition credits_step (k : Z) (id : string) (pc : credits_pc) (ans : answer) (now : Z) (s : coord)
    : option coord :=
  let stop := Some (goto k id (TCredits (CrEnd false)) s) in
  match pc, ans with
  | CrRow, AThrow => stop
  | CrRow, ARow row =>
      match usable_codex row with
      | None => stop
      | Some a => if needsReauth a then stop else Some (goto k id (TCredits CrToken) s)
      end
  | CrToken, AThrow => stop
  | CrToken, AToken t =>
      Some (goto k id (TCredits (CrGet t))
              (emit (ECredits k id)
                 (with_storage (λ t, set_credits (markAttempt id now (creditsCache t)) t) s)))
  | CrGet t, AThrow => stop
  | CrGet t, ASummary (Some sm) _ => Some (credits_done k id sm now s)
  | CrGet t, ASummary None status =>
      if bool_decide (status = Some 401) then Some (goto k id (TCredits (CrRefresh t)) s) else stop
  | CrRefresh t, AThrow => stop
  | CrRefresh t, AToken t' =>
      match fresh_token t' t with
      | Some _ => Some (goto k id (TCredits CrRetry) (emit (ECredits k id) s))
      | None => stop
      end
  | CrRetry, ASummary (Some sm) _ => Some (credits_done k id sm now s)
  | CrRetry, (ASummary None _ | AThrow) => stop
  | _, _ => None
  end.

(** * Events *)

Inductive cevent : Type :=
  | CObserve (id : string) (cause : CodexSpendCause)
  | CRead (id : string)
  | CConsume (id : string) (r : ConsumeRequest)
  | CCredits (id : string) (force : bool) (now : Z)
  | CAttempt (id : string)
  | CStep (k : Z) (ans : answer) (now : Z)
  | CCleanup (k : Z)               (* [settleInflight] *)
  | CEvict (id : string)           (* another writer deletes the cache entry *)
  | CWrite (cas : bool).           (* the oldest queued snapshot is written *)

Definition step_task (k : Z) (id : string) (t : task) (ans : answer) (now : Z) (s : coord)
    : option coord :=
  match t with
  | TObserve cause pc => observe_step k id cause pc ans s
  | TSpend causes pc => spend_step k id causes pc ans now s
  | TRead pc => read_step k id pc ans now s
  | TConsume r pc => consume_step k id r pc ans now s
  | TCredits pc => credits_step k id pc ans now s
  | TAttempt epoch issued false =>
      match ans with
      | APing _ windows persist =>
          let s := goto k id (TAttempt epoch issued true) s in
          Some (if isCodexObservationCurrent id epoch s
                then store_observation id issued windows persist now s else s)
      | _ => None
      end
  | TAttempt _ _ true => None
  end.

(** An ended task leaves the map of its kind, if it is still the one registered. *)
Definition drop_flight (k : Z) (id : string) (m : gmap string Z) : gmap string Z :=
  if bool_decide (m !! id = Some k) then delete id m else m.

Definition cleanup (k : Z) (id : string) (t : task) (s : coord) : option coord :=
  match t with
  | TSpend _ (SpEnd _) =>
      Some (with_flights (λ f, {| inflight := drop_flight k id (inflight f);
                                  readInflight := readInflight f;
                                  resetCreditsInflight := resetCreditsInflight f |}) s)
  | TRead (RdEnd _) => Some (with_flights (λ f, set_reads (drop_flight k id (readInflight f)) f) s)
  | TCredits (CrEnd _) =>
      Some (with_flights (λ f, set_credit_reads (drop_flight k id (resetCreditsInflight f)) f) s)
  | _ => None
  end.

Definition write_snapshot (cas : bool) (s : coord) : option coord :=
  match queue (cx_storage s) with
  | [] => None
  | j :: rest =>
      let s := with_storage (set_queue rest) s in
      Some (if isCodexObservationCurrent (job_id j) (job_epoch j) s && cas
            then with_storage (λ t, set_column
                   (<[job_id j := {| st_issued := job_issued j; st_writtenAt := cx_tick s |}]>
                      (column t)) t) s
            else s)
  end.

Definition cstep (ev : cevent) (s : coord) : option coord :=
  tick <$>
  match ev with
  | CObserve id cause => Some (spawn id (TObserve cause ObLoad) s)
  | CRead id =>
      match readInflight (cx_flights s) !! id with
      | Some _ => Some s
      | None =>
          let k := cx_nextTask s in
          Some (with_flights (λ f, set_reads (<[id := k]> (readInflight f)) f)
                  (spawn id (TRead RdRow) s))
      end
  | CConsume id r => Some (spawn id (TConsume r CoRow) s)
  | CCredits id force now =>
      match resetCreditsInflight (cx_flights s) !! id with
      | Some _ => Some s
      | None =>
          if force || needsRefresh id now (creditsCache (cx_storage s)) then
            let k := cx_nextTask s in
            Some (with_flights (λ f, set_credit_reads (<[id := k]> (resetCreditsInflight f)) f)
                    (spawn id (TCredits CrRow) s))
          else Some s
      end
  | CAttempt id => Some (spawn id (TAttempt (getCodexObservationEpoch id s) (cx_tick s) false) s)
  | CStep k ans now => '(id, t) ← cx_tasks s !! k; step_task k id t ans now s
  | CCleanup k => '(id, t) ← cx_tasks s !! k; cleanup k id t s
  | CEvict id => Some (with_storage (λ t, set_usage (delete id (usageCache t)) t) s)
  | CWrite cas => write_snapshot cas s
  end.

Fixpoint crun (evs : list cevent) (s : coord) : option coord :=
  match evs with
  | [] => Some s
  | ev :: evs => s ← cstep ev s; crun evs s
  end.
