(* ===== verification/CodexSafety.v ===== *)
(** What the coordinator of Codex reads and spends ([CodexSpend]) keeps, whatever the
    interleaving: every step is one of a few moves of an abstract fence ([move]); the fence
    keeps stale observations out of the cache, of the queue and of the database; the effects
    of each task follow the word its kind allows. *)

From Stdlib Require Import Sorting.Sorted.
From S2P Require Import Prelude Accounts CreditLedger CodexSpend.
Open Scope Z_scope.

(** * The abstract fence *)

(** The observation a task has on the wire: its sequence and the instant of its issue *)
Definition wire (t : task) : option (Z * Z) :=
  match t with
  | TSpend _ (SpPing seq issued) => Some (seq, issued)
  | TRead (RdGet x | RdRefresh x | RdRetry x | RdRecheck x _ _) => Some (rc_seq x, rc_issued x)
  | _ => None
  end.

(** A request of real traffic under way: the epoch it carries, the instant of its issue *)
Definition attempt (t : task) : option (Z * Z) :=
  match t with TAttempt epoch issued false => Some (epoch, issued) | _ => None end.

Definition task_at (f : task → option (Z * Z)) (k : Z) (s : coord) : option (string * Z * Z) :=
  '(id, t) ← cx_tasks s !! k; '(n, issued) ← f t; Some (id, n, issued).
Abbreviation wire_at := (task_at wire).
Abbreviation attempt_at := (task_at attempt).

Definition applied (e : effect) : option (string * Z) :=
  match e with
  | EApply _ id seq | ERestored _ id seq => Some (id, seq)
  | _ => None
  end.

(** The applications, in order *)
Definition log (s : coord) : list (string * Z) := omap applied (cx_trace s).

Definition counter (s : coord) (id : string) : Z := at_id id (applicationSeqCounter (cx_seqs s)).
Definition lastApplied (s : coord) (id : string) : Z := at_id id (lastAppliedSeq (cx_seqs s)).
Definition epoch (s : coord) (id : string) : Z := at_id id (epochs (cx_seqs s)).

(** What [s'] has on the wire and among the attempts, [s] had, but for task [k]. *)
Definition wires_but (k : Z) (s s' : coord) : Prop :=
  ∀ k', k' ≠ k → wire_at k' s' = wire_at k' s ∧ attempt_at k' s' = attempt_at k' s.
Definition wires_sub (s s' : coord) : Prop :=
  ∀ k, (wire_at k s' = None ∨ wire_at k s' = wire_at k s)
       ∧ (attempt_at k s' = None ∨ attempt_at k s' = attempt_at k s).

(** The storage changes at most by an observation of [id] issued at [issued]. *)
Definition stores (o : option (string * Z)) (s s' : coord) : Prop :=
  column (cx_storage s') = column (cx_storage s)
  ∧ (∀ id st, usageCache (cx_storage s') !! id = Some st →
       usageCache (cx_storage s) !! id = Some st ∨ o = Some (id, st_issued st))
  ∧ (∀ j, j ∈ queue (cx_storage s') →
       j ∈ queue (cx_storage s)
       ∨ (o = Some (job_id j, job_issued j) ∧ job_epoch j = epoch s (job_id j))).

(** The moves of the fence *)
Inductive move (s s' : coord) : Prop :=
  | mv_quiet :
      cx_seqs s' = cx_seqs s → wires_sub s s' → stores None s s' → log s' = log s → move s s'
  | mv_issue k id :
      cx_seqs s' = reserve id (cx_seqs s) → wires_but k s s' → wire_at k s = None →
      wire_at k s' = Some (id, counter s id + 1, cx_tick s) →
      attempt_at k s' = None → stores None s s' → log s' = log s → move s s'
  | mv_claim k id seq issued :
      wire_at k s = Some (id, seq, issued) → lastApplied s id < seq →
      cx_seqs s' = set_applied id seq (cx_seqs s) → wires_sub s s' → stores None s s' →
      log s' = log s → move s s'
  | mv_apply k id seq issued :
      wire_at k s = Some (id, seq, issued) → wire_at k s' = None →
      (cx_seqs s' = set_applied id seq (cx_seqs s) ∧ lastApplied s id < seq
       ∨ cx_seqs s' = cx_seqs s ∧ lastApplied s id = seq) →
      wires_sub s s' → stores (Some (id, issued)) s s' → log s' = log s ++ [(id, seq)] → move s s'
  | mv_restore id seq :
      seq = counter s id + 1 →
      cx_seqs s' = invalidate id (cx_tick s) (set_applied id seq (reserve id (cx_seqs s))) →
      wires_sub s s' → stores None s s' → usageCache (cx_storage s') !! id = None →
      log s' = log s ++ [(id, seq)] → move s s'
  | mv_begin k id :
      cx_seqs s' = cx_seqs s → wires_but k s s' → wire_at k s' = None →
      attempt_at k s' = Some (id, epoch s id, cx_tick s) → stores None s s' → log s' = log s →
      move s s'
  | mv_attempt k id issued :
      attempt_at k s = Some (id, epoch s id, issued) → cx_seqs s' = cx_seqs s → wires_sub s s' →
      stores (Some (id, issued)) s s' → log s' = log s → move s s'
  | mv_write j :
      j ∈ queue (cx_storage s) → job_epoch j = epoch s (job_id j) → cx_seqs s' = cx_seqs s →
      wires_sub s s' → usageCache (cx_storage s') = usageCache (cx_storage s) →
      (∀ j, j ∈ queue (cx_storage s') → j ∈ queue (cx_storage s)) →
      column (cx_storage s')
        = <[job_id j := {| st_issued := job_issued j; st_writtenAt := cx_tick s |}]>
            (column (cx_storage s)) →
      log s' = log s → move s s'.

(** ** What the primitives do to the fence *)

Lemma task_at_insert f k p s s' k' :
  cx_tasks s' = <[k := p]> (cx_tasks s) →
  task_at f k' s'
  = if decide (k' = k) then '(n, issued) ← f p.2; Some (p.1, n, issued) else task_at f k' s.
Proof.
  intros Hs. unfold task_at. rewrite Hs. case_decide as Hk; [subst k'|].
  - rewrite lookup_insert_eq. by destruct p.
  - by rewrite lookup_insert_ne.
Qed.

Lemma task_at_insert_eq f k id t s s' :
  cx_tasks s' = <[k := (id, t)]> (cx_tasks s) →
  task_at f k s' = '(n, issued) ← f t; Some (id, n, issued).
Proof. intros Hs. by rewrite (task_at_insert _ _ _ _ _ _ Hs), decide_True. Qed.

Lemma task_at_lookup f k id t s :
  cx_tasks s !! k = Some (id, t) → task_at f k s = '(n, issued) ← f t; Some (id, n, issued).
Proof. intros Hk. unfold task_at. by rewrite Hk. Qed.

Lemma sub_same s s' : cx_tasks s' = cx_tasks s → wires_sub s s'.
Proof. intros Hs k. unfold task_at. rewrite Hs. auto. Qed.

(** A task moves on and keeps at most what it has on the wire. *)
Lemma sub_goto k id t t' s s' :
  cx_tasks s !! k = Some (id, t) → cx_tasks s' = <[k := (id, t')]> (cx_tasks s) →
  wire t' = None ∨ wire t' = wire t → attempt t' = None → wires_sub s s'.
Proof.
  intros Hk Hs Hw Ha k'. rewrite !(task_at_insert _ _ _ _ _ _ Hs).
  case_decide as Hk'; [subst k'|by auto]. cbn. rewrite Ha. split; [|by left].
  destruct Hw as [-> | ->]; [by left|right]. unfold task_at. by rewrite Hk.
Qed.

(** A new task has nothing on the wire. *)
Lemma sub_spawn k id t s s' :
  cx_tasks s' = <[k := (id, t)]> (cx_tasks s) → wire t = None → attempt t = None → wires_sub s s'.
Proof.
  intros Hs Hw Ha k'. rewrite !(task_at_insert _ _ _ _ _ _ Hs).
  case_decide; [|by auto]. cbn. rewrite Hw, Ha. auto.
Qed.

Lemma but_insert k p s s' : cx_tasks s' = <[k := p]> (cx_tasks s) → wires_but k s s'.
Proof.
  intros Hs k' Hk'. rewrite !(task_at_insert _ _ _ _ _ _ Hs). by rewrite !decide_False.
Qed.

(** A task changes in place, but not what it has on the wire. *)
Lemma sub_alter (g : string * task → string * task) k s :
  (∀ e, (g e).1 = e.1 ∧ wire (g e).2 = wire e.2 ∧ attempt (g e).2 = attempt e.2) →
  wires_sub s (with_tasks (alter g k (cx_tasks s)) s).
Proof.
  intros Hg k'. unfold task_at; cbn. destruct (decide (k' = k)) as [->|];
    [|rewrite lookup_alter_ne by done; auto].
  rewrite lookup_alter_eq. destruct (cx_tasks s !! k) as [e|]; cbn; [|auto].
  destruct (Hg e) as (H1 & Hw & Ha). destruct e as [id t], (g (id, t)) as [id' t']; simplify_eq/=.
  rewrite Hw, Ha. auto.
Qed.

Lemma sub_trans s1 s2 s3 : wires_sub s1 s2 → wires_sub s2 s3 → wires_sub s1 s3.
Proof.
  intros H12 H23 k. destruct (H12 k) as [Hw12 Ha12], (H23 k) as [Hw23 Ha23].
  destruct Hw23 as [->| ->], Ha23 as [->| ->]; auto.
Qed.

Lemma stores_none s s' :
  column (cx_storage s') = column (cx_storage s) →
  queue (cx_storage s') = queue (cx_storage s) →
  usageCache (cx_storage s') = usageCache (cx_storage s) → stores None s s'.
Proof. intros Hc Hq Hu. split_and!; [done| |]; [rewrite Hu|rewrite Hq]; auto. Qed.

Lemma stores_evict id s s' :
  column (cx_storage s') = column (cx_storage s) →
  queue (cx_storage s') = queue (cx_storage s) →
  usageCache (cx_storage s') = delete id (usageCache (cx_storage s)) → stores None s s'.
Proof.
  intros Hc Hq Hu. split_and!; [done| |rewrite Hq; auto].
  intros id' st. rewrite Hu, lookup_delete_Some. intros [_ H]; auto.
Qed.

Lemma stores_observation id issued windows persist now s s1 :
  column (cx_storage s1) = column (cx_storage s) →
  queue (cx_storage s1) = queue (cx_storage s) →
  usageCache (cx_storage s1) = usageCache (cx_storage s) →
  epochs (cx_seqs s1) = epochs (cx_seqs s) →
  stores (Some (id, issued)) s (store_observation id issued windows persist now s1).
Proof.
  intros Hc Hq Hu He. unfold store_observation, stores, epoch.
  destruct windows; [destruct persist|]; cbn; rewrite ?Hc, ?Hq, ?Hu, ?He; split_and!; auto.
  all: try (intros id' st; rewrite lookup_insert_Some; intros [[<- <-]|[_ H]]; auto).
  intros j [Hj|Hj%list_elem_of_singleton]%elem_of_app; [by left|right].
  subst j. cbn. split; [done|]. unfold getCodexObservationEpoch. cbn. by rewrite He.
Qed.

(** A store touches neither the tasks nor the sequences nor the trace. *)
Lemma store_observation_frame id issued windows persist now s :
  let s' := store_observation id issued windows persist now s in
  cx_tasks s' = cx_tasks s ∧ cx_seqs s' = cx_seqs s ∧ cx_trace s' = cx_trace s
  ∧ cx_flights s' = cx_flights s ∧ cx_nextTask s' = cx_nextTask s ∧ cx_tick s' = cx_tick s.
Proof. unfold store_observation. by destruct windows, persist. Qed.

Lemma log_app s s' es : cx_trace s' = cx_trace s ++ es → log s' = log s ++ omap applied es.
Proof. unfold log. intros ->. apply omap_app. Qed.

Lemma log_emit e s : log (emit e s) = log s ++ omap applied [e].
Proof. by apply log_app. Qed.

Lemma log_quiet s s' es :
  cx_trace s' = cx_trace s ++ es → omap applied es = [] → log s' = log s.
Proof. intros Hs Hes. by rewrite (log_app _ _ _ Hs), Hes, app_nil_r. Qed.

(** ** Every step is a move *)

Ltac log_same := first [reflexivity | eapply log_quiet; [cbn; reflexivity|reflexivity]].
(** A task moves on, with at most what it had on the wire. *)
Ltac quiet :=
  eapply mv_quiet;
    [reflexivity | eapply sub_goto; [|reflexivity|..]; [eassumption|cbn; auto..]
    |by apply stores_none|log_same].
Ltac leaf := simplify_eq/=; try quiet.

Lemma issue_ping_move k id causes pc s :
  cx_tasks s !! k = Some (id, TSpend causes pc) → wire (TSpend causes pc) = None →
  move s (issue_ping k id causes s).
Proof.
  intros Hk Hw. eapply (mv_issue _ _ k id).
  - done.
  - by eapply but_insert.
  - by erewrite task_at_lookup, Hw by done.
  - by erewrite task_at_insert_eq by reflexivity.
  - by erewrite task_at_insert_eq by reflexivity.
  - by apply stores_none.
  - unfold issue_ping. log_same.
Qed.

Lemma claim_move k id t t' seq issued windows persist now s s1 :
  cx_tasks s !! k = Some (id, t) → wire t = Some (seq, issued) → wire t' = None →
  attempt t' = None →
  cx_tasks s1 = cx_tasks s → cx_storage s1 = cx_storage s →
  log s1 = log s ++ [(id, seq)] →
  cx_seqs s1 = set_applied id seq (cx_seqs s) ∧ lastApplied s id < seq
    ∨ cx_seqs s1 = cx_seqs s ∧ lastApplied s id = seq →
  move s (goto k id t' (store_observation id issued windows persist now s1)).
Proof.
  intros Hk Hw Hw' Ha' Ht Hst Hl Hs.
  destruct (store_observation_frame id issued windows persist now s1) as (Hft & Hfs & Hftr & _).
  assert (Hins : cx_tasks (goto k id t' (store_observation id issued windows persist now s1))
                 = <[k := (id, t')]> (cx_tasks s)) by (cbn; by rewrite Hft, Ht).
  eapply (mv_apply _ _ k id seq issued).
  - by erewrite task_at_lookup, Hw by done.
  - by erewrite task_at_insert_eq, Hw' by exact Hins.
  - cbn. by rewrite Hfs.
  - eapply sub_goto; eauto.
  - unfold stores. cbn. change (stores (Some (id, issued)) s (store_observation id issued windows persist now s1)).
    apply stores_observation; rewrite ?Hst; try done.
    by destruct Hs as [[-> _]|[-> _]].
  - rewrite <- Hl. unfold log. cbn. by rewrite Hftr.
Qed.

Lemma spend_move k id causes pc ans now s s' :
  cx_tasks s !! k = Some (id, TSpend causes pc) → spend_step k id causes pc ans now s = Some s' →
  move s s'.
Proof.
  intros Hk. destruct pc, ans; cbn; intros [= Hs]; try done; subst; try quiet.
  - case_bool_decide; leaf. by eapply issue_ping_move.
  - destruct r as [a|]; cbn in *; [case_match|]; leaf. by eapply issue_ping_move.
  - unfold claimApplication in *; cbn in *.
    destruct (seq <=? _) eqn:Hc; simplify_eq/=; [quiet|].
    eapply claim_move; try done.
    + unfold log; cbn. rewrite !omap_app. cbn. by rewrite app_nil_r.
    + left. split; [done|]. cbn in Hc. unfold lastApplied. lia.
Qed.

Lemma observe_move k id cause pc ans s s' :
  cx_tasks s !! k = Some (id, TObserve cause pc) → observe_step k id cause pc ans s = Some s' →
  move s s'.
Proof.
  intros Hk. destruct pc, ans; cbn; intros Hs; try done; leaf.
  - case_match; [case_match|]; leaf. unfold join_spend. case_match.
    + eapply mv_quiet; [reflexivity| |by apply stores_none|log_same].
      eapply sub_trans; [|by eapply sub_spawn]. apply sub_alter. intros [id' t']; cbn.
      by destruct t' as [|? []| | | |].
    + eapply mv_quiet; [reflexivity| |by apply stores_none|log_same].
      by eapply (sub_trans _ (spawn id (TSpend [cause] SpToken) s)); eapply sub_spawn.
  - repeat case_match; leaf.
Qed.

Lemma issue_get_move k id a token pc s :
  cx_tasks s !! k = Some (id, TRead pc) → wire (TRead pc) = None →
  move s (issue_get k id a token s).
Proof.
  intros Hk Hw. eapply (mv_issue _ _ k id).
  - done.
  - by eapply but_insert.
  - by erewrite task_at_lookup, Hw by done.
  - by erewrite task_at_insert_eq by reflexivity.
  - by erewrite task_at_insert_eq by reflexivity.
  - by apply stores_none.
  - log_same.
Qed.

Lemma read_guards_move k id x st persist pc s :
  cx_tasks s !! k = Some (id, TRead pc) → wire (TRead pc) = Some (rc_seq x, rc_issued x) →
  move s (read_guards k id x st persist s).
Proof.
  intros Hk Hw. unfold read_guards, claimApplication. destruct (negb _); [quiet|].
  destruct (advanced _ _); [quiet|]. destruct (_ <=? _) eqn:Hc; [quiet|].
  eapply (mv_claim _ _ k id (rc_seq x) (rc_issued x)).
  - by erewrite task_at_lookup, Hw by done.
  - unfold lastApplied. lia.
  - done.
  - eapply sub_goto; [eassumption|reflexivity|right; by rewrite Hw|done].
  - by apply stores_none.
  - log_same.
Qed.

Lemma read_move k id pc ans now s s' :
  cx_tasks s !! k = Some (id, TRead pc) → read_step k id pc ans now s = Some s' → move s s'.
Proof.
  intros Hk. destruct pc, ans; cbn; intros [= Hs]; try done; subst; try quiet.
  - case_match; leaf.
  - by eapply issue_get_move.
  - case_match; leaf. by eapply read_guards_move.
  - case_match; leaf.
  - by eapply read_guards_move.
  - destruct (from_option _ _ _); leaf. destruct (_ =? _) eqn:Hc; leaf.
    eapply claim_move; try done.
    + by rewrite log_emit.
    + right. split; [done|]. unfold lastApplied. cbn in Hc. lia.
Qed.

Lemma record_ledger_frame k r st windows s :
  let s' := record_ledger k r st windows s in
  cx_tasks s' = cx_tasks s ∧ cx_seqs s' = cx_seqs s ∧ cx_storage s' = cx_storage s
  ∧ cx_flights s' = cx_flights s ∧ cx_nextTask s' = cx_nextTask s ∧ cx_tick s' = cx_tick s
  ∧ log s' = log s.
Proof.
  unfold record_ledger. destruct (rq_ledgerRowId r); [case_bool_decide|];
    split_and!; try done; log_same.
Qed.


(** A redemption moves on; whatever its last writes were, they are not of the fence. *)
Lemma quiet_goto k id t t' s s1 :
  cx_tasks s !! k = Some (id, t) → wire t' = None → attempt t' = None →
  cx_tasks s1 = cx_tasks s → cx_seqs s1 = cx_seqs s → stores None s s1 → log s1 = log s →
  move s (goto k id t' s1).
Proof.
  intros Hk Hw Ha Ht Hs Hst Hl. apply mv_quiet; [exact Hs| |exact Hst|exact Hl].
  eapply sub_goto; [eassumption|cbn; by rewrite Ht|by left|done].
Qed.

Lemma restore_windows_eq k id s :
  lastApplied s id <= counter s id →
  restore_windows k id s =
  emit (ERestored k id (counter s id + 1))
    (with_storage (λ t, set_usage (delete id (usageCache t)) t)
       (with_seqs (λ q, invalidate id (cx_tick s) (set_applied id (counter s id + 1) (reserve id q))) s)).
Proof.
  intros Hle. unfold restore_windows, reserveApplicationSeq, claimApplication. cbn.
  destruct (_ <=? _) eqn:Hc; [|done]. unfold lastApplied, counter in *. cbn in Hc. lia.
Qed.

Lemma restore_move k id r o pc st windows s :
  lastApplied s id <= counter s id → cx_tasks s !! k = Some (id, TConsume r pc) →
  move s (goto k id (TConsume r (CoLedger o)) (record_ledger k r st windows (restore_windows k id s))).
Proof.
  intros Hle Hk. rewrite restore_windows_eq by done.
  set (s1 := emit _ _).
  destruct (record_ledger_frame k r st windows s1) as (Ht & Hs & Hst & _ & _ & _ & Hl).
  eapply (mv_restore _ _ id (counter s id + 1)); [done|..].
  - cbn. by rewrite Hs.
  - eapply sub_goto; [eassumption|cbn; by rewrite Ht|by left|done].
  - apply stores_evict with id; cbn; by rewrite Hst.
  - cbn. rewrite Hst. apply lookup_delete_eq.
  - change (log (record_ledger k r st windows s1) = log s ++ [(id, counter s id + 1)]).
    rewrite Hl. unfold s1. by rewrite log_emit.
Qed.

Lemma consume_move k id r pc ans now s s' :
  (∀ id, lastApplied s id <= counter s id) →
  cx_tasks s !! k = Some (id, TConsume r pc) → consume_step k id r pc ans now s = Some s' →
  move s s'.
Proof.
  intros Hle Hk. assert (Hfail : ∀ st w t', wire t' = None → attempt t' = None →
    move s (goto k id t' (record_ledger k r st w s))).
  { intros st w t' Hw Ha. destruct (record_ledger_frame k r st w s) as (Ht & Hs & Hst & _ & _ & _ & Hl).
    eapply quiet_goto; try done. apply stores_none; by rewrite Hst. }
  assert (Hmeta : ∀ o c e, applied e = None → move s (read_metadata k id r o c now (emit e s))).
  { intros o c e He. eapply quiet_goto; try done; [by apply stores_none|].
    eapply (log_quiet _ _ [e; ECredits k id]); [cbn; by rewrite <- app_assoc|].
    cbn. by rewrite He. }
  unfold consume_step, fail_consume, post, resume_or_metadata, read_metadata.
  destruct pc, ans; intros [= Hs]; try done; subst; try quiet; try by apply Hfail.
  - case_match; leaf. by apply Hfail.
  - case_match; leaf.
  - repeat case_match; leaf.
  - destruct (windowsRestored _); [by eapply restore_move|by apply Hfail].
  - case_match; leaf.
  - case_match; leaf.
  - case_match; leaf.
  - case_match; leaf.
  - case_match; leaf.
Qed.

Lemma credits_move k id pc ans now s s' :
  cx_tasks s !! k = Some (id, TCredits pc) → credits_step k id pc ans now s = Some s' → move s s'.
Proof.
  intros Hk. unfold credits_done.
  destruct pc, ans; cbn; intros [= Hs]; try done; subst; try quiet; repeat case_match; leaf.
Qed.

Lemma attempt_move k id e issued ended ans now s s' :
  cx_tasks s !! k = Some (id, TAttempt e issued ended) →
  step_task k id (TAttempt e issued ended) ans now s = Some s' → move s s'.
Proof.
  intros Hk. destruct ended, ans; cbn; intros [= Hs]; try done.
  assert (Hsub : ∀ s'', cx_tasks s'' = <[k := (id, TAttempt e issued true)]> (cx_tasks s) →
    wires_sub s s'') by (intros s'' Ht; eapply sub_goto; [eassumption|exact Ht|by left|done]).
  destruct (isCodexObservationCurrent _ _ _) eqn:He; subst s'.
  - apply Z.eqb_eq in He. change (epoch s id = e) in He. subst e.
    destruct (store_observation_frame id issued windows persist now
      (goto k id (TAttempt (epoch s id) issued true) s)) as (Ht & Hs & Htr & _).
    apply (mv_attempt _ _ k id issued).
    + by erewrite task_at_lookup by done.
    + by rewrite Hs.
    + apply Hsub. by rewrite Ht.
    + by apply stores_observation.
    + unfold log. by rewrite Htr.
  - apply mv_quiet; [done|by apply Hsub|by apply stores_none|done].
Qed.

Lemma write_move cas s s' : write_snapshot cas s = Some s' → move s s'.
Proof.
  unfold write_snapshot. destruct (queue (cx_storage s)) as [|j rest] eqn:Hq; [done|].
  intros [= <-]. destruct (_ && _) eqn:Hc.
  - prop_bools. unfold isCodexObservationCurrent in *. prop_bools.
    apply (mv_write _ _ j); try done.
    + rewrite Hq. left.
    + by apply sub_same.
    + intros j'. cbn. rewrite Hq. by right.
  - apply mv_quiet; [done|by apply sub_same| |done]. split_and!; [done|by auto|].
    intros j'. cbn. rewrite Hq. left. by right.
Qed.

Lemma move_tick s s' : move s s' → move s (tick s').
Proof.
  destruct 1; [eapply mv_quiet|eapply mv_issue|eapply mv_claim|eapply mv_apply
              |eapply mv_restore|eapply mv_begin|eapply mv_attempt|eapply mv_write]; eassumption.
Qed.

Lemma spawn_move id t s s' :
  cx_seqs s' = cx_seqs s → cx_storage s' = cx_storage s → cx_trace s' = cx_trace s →
  cx_tasks s' = <[cx_nextTask s := (id, t)]> (cx_tasks s) → wire t = None → attempt t = None →
  move s s'.
Proof.
  intros Hs Hst Htr Ht Hw Ha.
  apply mv_quiet; [done|by eapply sub_spawn|by apply stores_none; rewrite Hst|unfold log; by rewrite Htr].
Qed.

Lemma flights_move s s' :
  cx_seqs s' = cx_seqs s → cx_storage s' = cx_storage s → cx_trace s' = cx_trace s →
  cx_tasks s' = cx_tasks s → move s s'.
Proof.
  intros Hs Hst Htr Ht.
  apply mv_quiet; [done|by apply sub_same|by apply stores_none; rewrite Hst|unfold log; by rewrite Htr].
Qed.

Lemma cstep_tick ev s s' : cstep ev s = Some s' → ∃ s1, s' = tick s1.
Proof. unfold cstep. intros (s1 & _ & ->)%fmap_Some. eauto. Qed.

(** Every step of the coordinator is a move of the fence. *)
Lemma cstep_move ev s s' :
  (∀ id, lastApplied s id <= counter s id) → cstep ev s = Some s' → move s s'.
Proof.
  intros Hle. unfold cstep. intros (s1 & Hs & ->)%fmap_Some. apply move_tick.
  destruct ev as [id cause|id|id r|id force now|id|k ans now|k|id|cas].
  - injection Hs as <-. by eapply spawn_move.
  - case_match; simplify_eq/=; [by apply flights_move|by eapply spawn_move].
  - injection Hs as <-. by eapply spawn_move.
  - repeat case_match; simplify_eq/=; first [by apply flights_move|by eapply spawn_move].
  - injection Hs as <-. eapply (mv_begin _ _ (cx_nextTask s) id); try done.
    + by eapply but_insert.
    + by erewrite task_at_insert_eq by reflexivity.
    + by erewrite task_at_insert_eq by reflexivity.
    + by apply stores_none.
  - apply bind_Some in Hs as ((id & t) & Hk & Hs).
    destruct t; [by eapply observe_move|by eapply spend_move|by eapply read_move
                |by eapply consume_move|by eapply credits_move|by eapply attempt_move].
  - apply bind_Some in Hs as ((id & t) & Hk & Hs). unfold cleanup in Hs.
    repeat case_match; simplify_eq/=; by apply flights_move.
  - injection Hs as <-. apply mv_quiet; [done|by apply sub_same|by eapply stores_evict|done].
  - by apply write_move in Hs.
Qed.

(** ** What a step of a task leaves alone *)

(** All but a call of [observe] that starts a spend leave the flights and the identities. *)
Definition same_frame (s s' : coord) : Prop :=
  cx_tick s' = cx_tick s ∧ cx_flights s' = cx_flights s ∧ cx_nextTask s' = cx_nextTask s.

Lemma frame_goto k id t s s1 : same_frame s s1 → same_frame s (goto k id t s1).
Proof. done. Qed.

Lemma frame_store id issued windows persist now s s1 :
  same_frame s s1 → same_frame s (store_observation id issued windows persist now s1).
Proof.
  intros (Ht & Hf & Hn). destruct (store_observation_frame id issued windows persist now s1)
    as (_ & _ & _ & Hf' & Hn' & Ht'). repeat split; cbn; congruence.
Qed.

Lemma frame_ledger k r st windows s s1 :
  same_frame s s1 → same_frame s (record_ledger k r st windows s1).
Proof.
  intros (Ht & Hf & Hn). destruct (record_ledger_frame k r st windows s1)
    as (_ & _ & _ & Hf' & Hn' & Ht' & _). repeat split; cbn; congruence.
Qed.

Lemma frame_restore k id s : same_frame s (restore_windows k id s).
Proof.
  unfold restore_windows, reserveApplicationSeq, claimApplication. cbn. by destruct (_ <=? _).
Qed.

Lemma step_frame k id t ans now s s' :
  (∀ cause pc, t ≠ TObserve cause pc) → step_task k id t ans now s = Some s' → same_frame s s'.
Proof.
  intros Ht. destruct t as [| | | | |]; [by edestruct Ht|..]; clear Ht; cbn;
    unfold spend_step, read_step, consume_step, credits_step, read_guards, claimApplication,
      fail_consume, resume_or_metadata; intros Hs;
    repeat (case_match; simplify_eq/=); try done;
    try apply frame_goto; first [by apply frame_store|by apply frame_ledger; try apply frame_restore].
Qed.

Lemma cstep_clock ev s s' : cstep ev s = Some s' → cx_tick s' = cx_tick s + 1.
Proof.
  intros (s1 & Hs & ->)%fmap_Some. cbn. f_equal.
  destruct ev as [id cause|id|id r|id force now|id|k ans now|k|id|cas]; simplify_eq/=; try done.
  - case_match; by simplify_eq/=.
  - repeat case_match; by simplify_eq/=.
  - apply bind_Some in Hs as ((id & t) & Hk & Hs). destruct t; try (by eapply step_frame in Hs as [? _]).
    cbn in Hs. unfold observe_step, join_spend in Hs.
    repeat (case_match; simplify_eq/=); done.
  - apply bind_Some in Hs as ((id & t) & Hk & Hs). unfold cleanup in Hs.
    repeat (case_match; simplify_eq/=); done.
  - unfold write_snapshot in Hs. repeat (case_match; simplify_eq/=); done.
Qed.

(** * The sequences *)

(** The sequences applied for an account, in order *)
Definition applications (id : string) (s : coord) : list Z :=
  omap (λ p : string * Z, if decide (p.1 = id) then Some p.2 else None) (log s).

(** Sequences are reserved once and applied in order. *)
Record seqs_ok (s : coord) : Prop := {
  so_applied : ∀ id, 0 <= lastApplied s id <= counter s id;
  so_wire : ∀ k id seq issued, wire_at k s = Some (id, seq, issued) → seq <= counter s id;
  so_unique : ∀ k k' id seq issued issued',
    wire_at k s = Some (id, seq, issued) → wire_at k' s = Some (id, seq, issued') → k = k';
  so_fresh : ∀ k id seq issued, wire_at k s = Some (id, seq, issued) → seq ∉ applications id s;
  so_last : ∀ id seq, seq ∈ applications id s → seq <= lastApplied s id;
  so_sorted : ∀ id, StronglySorted Z.lt (applications id s)
}.

Lemma applications_app id p s s' :
  log s' = log s ++ [p] →
  applications id s' = applications id s ++ (if decide (p.1 = id) then [p.2] else []).
Proof.
  unfold applications. intros ->. rewrite omap_app. cbn. by case_decide.
Qed.

Lemma sorted_snoc l n : StronglySorted Z.lt l → (∀ m, m ∈ l → m < n) → StronglySorted Z.lt (l ++ [n]).
Proof.
  induction 1 as [|m l Hl IH Hm]; intros Hn; cbn; [by repeat constructor|].
  constructor; [apply IH; intros; apply Hn; by right|].
  apply Forall_app. split; [done|]. constructor; [|done]. apply Hn. left.
Qed.

Lemma at_id_insert id id' n m : at_id id' (<[id := n]> m) = if decide (id' = id) then n else at_id id' m.
Proof.
  unfold at_id. case_decide as H; [subst; by rewrite lookup_insert_eq|by rewrite lookup_insert_ne].
Qed.

(** What a move leaves on the wire: something old, or the observation just issued *)
Lemma sub_wire s s' k x : wires_sub s s' → wire_at k s' = Some x → wire_at k s = Some x.
Proof. intros H Hx. destruct (H k) as [[Hw|Hw] _]; congruence. Qed.
Lemma sub_attempt s s' k x : wires_sub s s' → attempt_at k s' = Some x → attempt_at k s = Some x.
Proof. intros H Hx. destruct (H k) as [_ [Hw|Hw]]; congruence. Qed.

Lemma counter_reserve s s' id id' :
  applicationSeqCounter (cx_seqs s') = applicationSeqCounter (reserve id (cx_seqs s)) →
  counter s' id' = if decide (id' = id) then counter s id + 1 else counter s id'.
Proof. unfold counter. intros ->. apply at_id_insert. Qed.

Lemma lastApplied_set s s' id seq id' :
  lastAppliedSeq (cx_seqs s') = <[id := seq]> (lastAppliedSeq (cx_seqs s)) →
  lastApplied s' id' = if decide (id' = id) then seq else lastApplied s id'.
Proof. unfold lastApplied. intros ->. apply at_id_insert. Qed.

(** Nothing is reserved; the last applied sequence of each account can only grow, up to its
    counter. *)
Lemma seqs_claimed s s' :
  seqs_ok s → (∀ id, counter s' id = counter s id) →
  (∀ id, lastApplied s id <= lastApplied s' id <= counter s id) →
  (∀ k x, wire_at k s' = Some x → wire_at k s = Some x) → log s' = log s → seqs_ok s'.
Proof.
  intros [Ha Hw Hu Hf Hl Hs] Hc Hle Hsub Hlog.
  assert (Happ : ∀ id, applications id s' = applications id s) by (unfold applications; by rewrite Hlog).
  split; intros *; rewrite ?Happ, ?Hc; eauto.
  - specialize (Ha id). specialize (Hle id). lia.
  - intros Hin%Hl. specialize (Hle id). lia.
Qed.

(** The sequence of an application, above all that went before, is recorded. *)
Lemma seqs_logged s s' id seq :
  seqs_ok s' → log s' = log s → ∀ s'',
  cx_seqs s'' = cx_seqs s' → (∀ k x, wire_at k s'' = Some x → wire_at k s' = Some x) →
  log s'' = log s ++ [(id, seq)] → seq ∉ applications id s → lastApplied s' id = seq →
  (∀ k issued, wire_at k s'' ≠ Some (id, seq, issued)) → seqs_ok s''.
Proof.
  intros [Ha Hw Hu Hf Hl Hs] Hlog s'' Hq Hsub Hlog' Hnew Hlast Hoff.
  assert (Heq : ∀ id, applications id s' = applications id s) by (unfold applications; by rewrite Hlog).
  assert (Happ := λ id', applications_app id' _ _ _ Hlog'). cbn in Happ.
  assert (Hc : counter s'' = counter s') by (unfold counter; by rewrite Hq).
  assert (Hla : lastApplied s'' = lastApplied s') by (unfold lastApplied; by rewrite Hq).
  split; intros *; rewrite ?Happ, ?Hc, ?Hla; eauto.
  - intros Hwk. rewrite elem_of_app, <- Heq. intros [Hin|Hin]; [by eapply Hf; eauto|].
    case_decide as Hid; [|by apply not_elem_of_nil in Hin].
    apply list_elem_of_singleton in Hin. subst. by eapply Hoff.
  - rewrite elem_of_app, <- Heq. intros [Hin|Hin]; [by apply Hl|].
    case_decide as Hid; [|by apply not_elem_of_nil in Hin].
    apply list_elem_of_singleton in Hin. subst. lia.
  - rewrite <- Heq. case_decide as Hid; [subst id0|by rewrite app_nil_r].
    apply sorted_snoc; [done|]. intros m Hm. specialize (Hl _ _ Hm).
    destruct (decide (m = seq)) as [->|]; [|lia]. by rewrite Heq in Hm.
Qed.

(** A sequence is reserved, maybe for task [k]. *)
Lemma seqs_reserved s s' id k :
  seqs_ok s → applicationSeqCounter (cx_seqs s') = applicationSeqCounter (reserve id (cx_seqs s)) →
  lastAppliedSeq (cx_seqs s') = lastAppliedSeq (cx_seqs s) → log s' = log s →
  (∀ k' x, wire_at k' s' = Some x →
     wire_at k' s = Some x ∨ k' = k ∧ x.1 = (id, counter s id + 1)) → seqs_ok s'.
Proof.
  intros [Ha Hw Hu Hf Hl Hs] Hq Hla Hlog Hsub.
  assert (Happ : ∀ id, applications id s' = applications id s) by (unfold applications; by rewrite Hlog).
  assert (Hc := λ id', counter_reserve _ _ _ id' Hq).
  assert (Hla' : lastApplied s' = lastApplied s) by (unfold lastApplied; by rewrite Hla).
  split; intros *; rewrite ?Happ, ?Hc, ?Hla'; eauto.
  - specialize (Ha id0). case_decide; subst; lia.
  - intros [Hk|[-> Hk]]%Hsub; [apply Hw in Hk|]; simplify_eq/=; case_decide; subst; try done; lia.
  - intros [H1|[-> H1]]%Hsub [H2|[-> H2]]%Hsub; simplify_eq/=; [by eauto| | |done].
    + apply Hw in H1. lia.
    + apply Hw in H2. lia.
  - intros [Hk|[-> Hk]]%Hsub; [by eauto|]. simplify_eq/=. intros Hin%Hl. specialize (Ha id). lia.
Qed.

Lemma wire_restrict s s' k id seq issued :
  seqs_ok s → wire_at k s = Some (id, seq, issued) → wire_at k s' = None → wires_sub s s' →
  ∀ k' issued', wire_at k' s' ≠ Some (id, seq, issued').
Proof.
  intros Hok Hk Hk' Hsub k' issued' Hw.
  assert (k' = k) as -> by (eapply so_unique; [done|by eapply sub_wire|done]). congruence.
Qed.

Lemma seqs_apply s s' k id seq issued :
  seqs_ok s → wire_at k s = Some (id, seq, issued) → wire_at k s' = None →
  cx_seqs s' = set_applied id seq (cx_seqs s) ∧ lastApplied s id < seq
    ∨ cx_seqs s' = cx_seqs s ∧ lastApplied s id = seq →
  wires_sub s s' → log s' = log s ++ [(id, seq)] → seqs_ok s'.
Proof.
  intros Hok Hk Hk' [[Hq Hlt]|[Hq Heq]] Hsub Hlog.
  - set (mid := with_seqs (set_applied id seq) s).
    assert (Hmid : seqs_ok mid).
    { eapply (seqs_claimed s); eauto. intros id'. rewrite (lastApplied_set s mid id seq) by done.
      assert (Hle := so_applied s Hok id').
      case_decide; [subst|lia]. apply (so_wire s Hok) in Hk. lia. }
    eapply (seqs_logged s mid); [exact Hmid|reflexivity|done|eauto using sub_wire|done|..].
    + by eapply so_fresh.
    + by rewrite (lastApplied_set s mid id seq), decide_True.
    + by eapply wire_restrict.
  - eapply (seqs_logged s s); eauto using sub_wire, so_fresh. by eapply wire_restrict.
Qed.

Lemma seqs_restore s s' id n :
  seqs_ok s → n = counter s id + 1 →
  cx_seqs s' = invalidate id (cx_tick s) (set_applied id n (reserve id (cx_seqs s))) →
  wires_sub s s' → log s' = log s ++ [(id, n)] → seqs_ok s'.
Proof.
  intros Hok Hn Hq Hsub Hlog. assert (Hle := so_applied s Hok).
  assert (Hres : seqs_ok (with_seqs (reserve id) s))
    by (eapply (seqs_reserved s _ id 0); try done; intros; by left).
  set (mid := with_seqs (λ q, invalidate id (cx_tick s) (set_applied id n (reserve id q))) s).
  assert (Hmid : seqs_ok mid).
  { eapply seqs_claimed; [exact Hres|done| |done|done]. intros id'.
    rewrite (lastApplied_set s mid id n id' eq_refl).
    rewrite (counter_reserve s (with_seqs (reserve id) s) id id' eq_refl).
    specialize (Hle id'). change (lastApplied (with_seqs (reserve id) s)) with (lastApplied s).
    case_decide; subst; lia. }
  eapply (seqs_logged s mid); [exact Hmid|reflexivity|done|eauto using sub_wire|done|..].
  - intros Hin%(so_last s Hok). specialize (Hle id). lia.
  - by rewrite (lastApplied_set s mid id n id eq_refl), decide_True.
  - intros k issued Hw%(sub_wire _ _ _ _ Hsub). apply (so_wire s Hok) in Hw. lia.
Qed.

Lemma move_seqs s s' : seqs_ok s → move s s' → seqs_ok s'.
Proof.
  intros Hok Hm. assert (Hle := so_applied _ Hok).
  assert (Hquiet : cx_seqs s' = cx_seqs s → (∀ k x, wire_at k s' = Some x → wire_at k s = Some x) →
    log s' = log s → seqs_ok s').
  { intros Hq Hsub Hlog. eapply seqs_claimed; eauto; intros id; unfold counter, lastApplied; rewrite Hq;
      [done|]. specialize (Hle id). unfold counter, lastApplied in Hle. lia. }
  destruct Hm as [Hq Hsub _ Hlog|k id Hq Hbut Hk Hk' _ _ Hlog|k id seq issued Hk Hlt Hq Hsub _ Hlog
    |k id seq issued Hk Hk' Hcase Hsub _ Hlog|id seq Hseq Hq Hsub _ _ Hlog
    |k id Hq Hbut Hk Hk' _ Hlog|k id issued Hk Hq Hsub _ Hlog|j Hj He Hq Hsub _ _ _ Hlog].
  - apply Hquiet; eauto using sub_wire.
  - eapply (seqs_reserved s s' id k); [done|by rewrite Hq|by rewrite Hq|done|].
    intros k' x Hx. destruct (decide (k' = k)) as [->|Hne]; [right|left].
    + rewrite Hk' in Hx. by simplify_eq.
    + by rewrite (proj1 (Hbut k' Hne)) in Hx.
  - eapply seqs_claimed; eauto using sub_wire; intros id'; [unfold counter; by rewrite Hq|].
    rewrite (lastApplied_set s s' id seq) by (by rewrite Hq). specialize (Hle id').
    case_decide; [subst|lia]. apply so_wire in Hk; [lia|done].
  - by eapply seqs_apply.
  - by eapply seqs_restore.
  - apply Hquiet; try done. intros k' x Hx. destruct (decide (k' = k)) as [->|Hne]; [congruence|].
    by rewrite (proj1 (Hbut k' Hne)) in Hx.
  - apply Hquiet; eauto using sub_wire.
  - apply Hquiet; eauto using sub_wire.
Qed.

(** * The fence *)

(** An instant is past every redemption of the account known so far. *)
Definition current (s : coord) (id : string) (issued : Z) : Prop :=
  ∀ r, restored (cx_seqs s) !! id = Some r → r < issued.

(** What was issued before the last redemption carries a fenced sequence or epoch. *)
Record fence_ok (s : coord) : Prop := {
  fo_restored : ∀ id r, restored (cx_seqs s) !! id = Some r → r < cx_tick s;
  fo_wire : ∀ k id seq issued, wire_at k s = Some (id, seq, issued) →
    current s id issued ∨ seq < lastApplied s id;
  fo_attempt : ∀ k id e issued, attempt_at k s = Some (id, e, issued) →
    e <= epoch s id ∧ (current s id issued ∨ e < epoch s id);
  fo_cache : ∀ id st, usageCache (cx_storage s) !! id = Some st → current s id (st_issued st);
  fo_queue : ∀ j, j ∈ queue (cx_storage s) →
    job_epoch j <= epoch s (job_id j)
    ∧ (current s (job_id j) (job_issued j) ∨ job_epoch j < epoch s (job_id j));
  fo_column : ∀ id st, column (cx_storage s) !! id = Some st →
    st_writtenAt st < cx_tick s
    ∧ ∀ r, restored (cx_seqs s) !! id = Some r → r < st_writtenAt st → r < st_issued st
}.

(** No redemption: the parts of the invariant that concern what is stored *)
Lemma fence_kept s s' o :
  fence_ok s → cx_tick s < cx_tick s' →
  restored (cx_seqs s') = restored (cx_seqs s) → epochs (cx_seqs s') = epochs (cx_seqs s) →
  stores o s s' → (∀ id issued, o = Some (id, issued) → current s id issued) →
  (∀ k id seq issued, wire_at k s' = Some (id, seq, issued) →
     current s id issued ∨ seq < lastApplied s' id) →
  (∀ k id e issued, attempt_at k s' = Some (id, e, issued) →
     e <= epoch s id ∧ (current s id issued ∨ e < epoch s id)) →
  fence_ok s'.
Proof.
  intros [Hr Hw Ha Hc Hq Hcol] Ht Hres Hep (Hcol' & Hc' & Hq') Ho Hwire Hatt.
  assert (Hcur : ∀ id i, current s' id i ↔ current s id i) by (unfold current; by rewrite Hres).
  assert (He : ∀ id, epoch s' id = epoch s id) by (unfold epoch; by rewrite Hep).
  split; intros *; rewrite ?Hcur, ?He, ?Hres, ?Hcol'; eauto.
  - intros Hid%Hr. lia.
  - intros [Hst|Hst]%Hc'; [by apply Hc|by apply Ho].
  - intros [Hj|[Hj Hej]]%Hq'; [by apply Hq|]. rewrite Hej. split; [done|left]. by apply Ho.
  - intros [H1 H2]%Hcol. split; [lia|]. apply H2.
Qed.

Lemma current_now s id : fence_ok s → current s id (cx_tick s).
Proof. intros Hf r Hr. by eapply fo_restored. Qed.

Lemma fence_wires s s' :
  fence_ok s → wires_sub s s' → (∀ id, lastApplied s id <= lastApplied s' id) →
  ∀ k id seq issued, wire_at k s' = Some (id, seq, issued) →
    current s id issued ∨ seq < lastApplied s' id.
Proof.
  intros Hf Hsub Hle k id seq issued Hw%(sub_wire _ _ _ _ Hsub).
  apply fo_wire in Hw as [|]; [by left|right|done]. specialize (Hle id). lia.
Qed.

Lemma fence_attempts s s' :
  fence_ok s → wires_sub s s' → ∀ k id e issued, attempt_at k s' = Some (id, e, issued) →
    e <= epoch s id ∧ (current s id issued ∨ e < epoch s id).
Proof. intros Hf Hsub k id e issued Hw%(sub_attempt _ _ _ _ Hsub). by eapply fo_attempt. Qed.

(** A redemption fences everything that is under way. *)
Lemma fence_restore s s' id seq :
  seqs_ok s → fence_ok s → cx_tick s < cx_tick s' → seq = counter s id + 1 →
  cx_seqs s' = invalidate id (cx_tick s) (set_applied id seq (reserve id (cx_seqs s))) →
  wires_sub s s' → stores None s s' → usageCache (cx_storage s') !! id = None → fence_ok s'.
Proof.
  intros Hok Hf Ht -> Hq Hsub (Hcol & Hc & Hqu) Hnone.
  assert (Hep : ∀ id', epoch s' id' = if decide (id' = id) then epoch s id + 1 else epoch s id').
  { intros id'. unfold epoch. rewrite Hq. apply at_id_insert. }
  assert (Hla : ∀ id', lastApplied s' id'
                = if decide (id' = id) then counter s id + 1 else lastApplied s id').
  { intros id'. apply lastApplied_set. by rewrite Hq. }
  assert (Hcur : ∀ id' i, id' ≠ id → current s' id' i ↔ current s id' i).
  { intros id' i Hne. unfold current. rewrite Hq. cbn. by rewrite lookup_insert_ne. }
  split; intros *.
  - rewrite Hq. cbn. rewrite lookup_insert_Some. intros [[<- <-]|[_ Hr]]; [done|].
    apply (fo_restored s Hf) in Hr. lia.
  - intros Hw%(sub_wire _ _ _ _ Hsub). rewrite Hla.
    case_decide as Hid; [subst|rewrite Hcur by done; by eapply fo_wire].
    right. apply (so_wire s Hok) in Hw. lia.
  - intros Hw%(sub_attempt _ _ _ _ Hsub). apply (fo_attempt s Hf) in Hw as [H1 H2]. rewrite Hep.
    case_decide as Hid; [subst; split; [lia|right; lia]|by rewrite Hcur].
  - intros Hst. destruct (decide (id0 = id)) as [->|Hne]; [congruence|]. rewrite Hcur by done.
    apply Hc in Hst as [Hst|?]; [by eapply fo_cache|done].
  - intros [Hj|[? _]]%Hqu; [|done]. apply (fo_queue s Hf) in Hj as [H1 H2]. rewrite Hep.
    case_decide as Hid; [rewrite Hid in *; split; [lia|right; lia]|by rewrite Hcur].
  - rewrite Hcol. intros [H1 H2]%(fo_column s Hf). split; [lia|]. intros r. rewrite Hq. cbn.
    rewrite lookup_insert_Some. intros [[<- <-]|[_ Hr]]; [lia|by apply H2].
Qed.

Lemma lastApplied_grows s s' : seqs_ok s → move s s' → ∀ id, lastApplied s id <= lastApplied s' id.
Proof.
  intros Hok Hm id. assert (Hsame : cx_seqs s' = cx_seqs s → lastApplied s id <= lastApplied s' id)
    by (unfold lastApplied; by intros ->).
  assert (Hset : ∀ id' seq, lastApplied s id' < seq →
    lastAppliedSeq (cx_seqs s') = <[id' := seq]> (lastAppliedSeq (cx_seqs s)) →
    lastApplied s id <= lastApplied s' id).
  { intros id' seq Hlt Hq. rewrite (lastApplied_set _ _ _ _ id Hq). case_decide; subst; lia. }
  destruct Hm as [Hq|k id' Hq|k id' seq i Hk Hlt Hq|k id' seq i Hk Hk' [[Hq Hlt]|[Hq _]]|id' seq Hn Hq
    |k id' Hq|k id' i Hk Hq|j Hj He Hq]; eauto.
  - unfold lastApplied. by rewrite Hq.
  - eapply Hset; [done|by rewrite Hq].
  - eapply Hset; [done|by rewrite Hq].
  - eapply Hset; [|by rewrite Hq]. pose proof (so_applied s Hok id'). lia.
Qed.

(** A queued snapshot of the current epoch is written. *)
Lemma fence_write s s' j :
  fence_ok s → cx_tick s < cx_tick s' → j ∈ queue (cx_storage s) →
  job_epoch j = epoch s (job_id j) → cx_seqs s' = cx_seqs s → wires_sub s s' →
  usageCache (cx_storage s') = usageCache (cx_storage s) →
  (∀ j, j ∈ queue (cx_storage s') → j ∈ queue (cx_storage s)) →
  column (cx_storage s')
    = <[job_id j := {| st_issued := job_issued j; st_writtenAt := cx_tick s |}]>
        (column (cx_storage s)) → fence_ok s'.
Proof.
  intros Hf Ht Hj He Hq Hsub Hc Hqu Hcol.
  assert (Hcur : ∀ id i, current s' id i ↔ current s id i) by (unfold current; by rewrite Hq).
  assert (Hep : ∀ id, epoch s' id = epoch s id) by (unfold epoch; by rewrite Hq).
  assert (Hla : lastApplied s' = lastApplied s) by (unfold lastApplied; by rewrite Hq).
  split; intros *; rewrite ?Hcur, ?Hep, ?Hla, ?Hq, ?Hc.
  - intros Hr%(fo_restored s Hf). lia.
  - intros Hw%(sub_wire _ _ _ _ Hsub). by eapply fo_wire.
  - intros Hw%(sub_attempt _ _ _ _ Hsub). by eapply fo_attempt.
  - by apply fo_cache.
  - intros Hj'%Hqu. by apply fo_queue.
  - rewrite Hcol, lookup_insert_Some. intros [[<- <-]|[_ [H1 H2]%(fo_column s Hf)]]; cbn;
      [|split; [lia|done]].
    split; [lia|]. intros r Hr _. apply (fo_queue s Hf) in Hj as [_ [H|H]]; [by apply H|lia].
Qed.

Lemma move_fence s s' :
  seqs_ok s → fence_ok s → cx_tick s < cx_tick s' → move s s' → fence_ok s'.
Proof.
  intros Hok Hf Ht Hm. assert (Hgrow := lastApplied_grows _ _ Hok Hm).
  destruct Hm as [Hq Hsub Hst _|k id Hq Hbut Hk Hk' Hatt Hst _|k id seq issued Hk Hlt Hq Hsub Hst _
    |k id seq issued Hk Hk' Hcase Hsub Hst _|id seq Hseq Hq Hsub Hst Hnone _
    |k id Hq Hbut Hk Hk' Hst _|k id issued Hk Hq Hsub Hst _|j Hj He Hq Hsub Hc Hqu Hcol _].
  - eapply (fence_kept s); eauto using fence_wires, fence_attempts; by rewrite ?Hq.
  - eapply (fence_kept s); eauto; try by rewrite ?Hq.
    + intros k' id' seq i Hw. destruct (decide (k' = k)) as [->|Hne].
      * left. rewrite Hk' in Hw. simplify_eq. by apply current_now.
      * rewrite (proj1 (Hbut k' Hne)) in Hw. apply (fo_wire s Hf) in Hw as [|]; [by left|right].
        specialize (Hgrow id'). lia.
    + intros k' id' e i Ha. destruct (decide (k' = k)) as [->|Hne]; [congruence|].
      rewrite (proj2 (Hbut k' Hne)) in Ha. by eapply fo_attempt.
  - eapply (fence_kept s); eauto using fence_wires, fence_attempts; by rewrite ?Hq.
  - eapply (fence_kept s); eauto using fence_wires, fence_attempts.
    + by destruct Hcase as [[-> _]|[-> _]].
    + by destruct Hcase as [[-> _]|[-> _]].
    + intros ? ? [= <- <-]. apply (fo_wire s Hf) in Hk as [|]; [done|].
      destruct Hcase as [[_ ?]|[_ ?]]; lia.
  - by eapply fence_restore.
  - eapply (fence_kept s); eauto; try by rewrite ?Hq.
    + intros k' id' seq i Hw. destruct (decide (k' = k)) as [->|Hne]; [congruence|].
      rewrite (proj1 (Hbut k' Hne)) in Hw. apply (fo_wire s Hf) in Hw as [|]; [by left|right].
      specialize (Hgrow id'). lia.
    + intros k' id' e i Ha. destruct (decide (k' = k)) as [->|Hne].
      * rewrite Hk' in Ha. simplify_eq. split; [lia|left]. by apply current_now.
      * rewrite (proj2 (Hbut k' Hne)) in Ha. by eapply fo_attempt.
  - eapply (fence_kept s); eauto using fence_wires, fence_attempts; try by rewrite Hq.
    intros ? ? [= <- <-]. apply (fo_attempt s Hf) in Hk as [_ [|]]; [done|lia].
  - by eapply fence_write.
Qed.

(** * Runs *)

Lemma seqs_ok_init : seqs_ok coord_init.
Proof.
  split; unfold lastApplied, counter, applications, task_at; cbn; intros *; rewrite ?lookup_empty;
    cbn; try done; try by intros ?%not_elem_of_nil.
  constructor.
Qed.

Lemma fence_ok_init : fence_ok coord_init.
Proof.
  split; unfold task_at; cbn; intros *; rewrite ?lookup_empty; cbn; try done.
  by intros ?%not_elem_of_nil.
Qed.

Lemma crun_ind (P : coord → Prop) evs s s' :
  (∀ ev s s', P s → cstep ev s = Some s' → P s') → P s → crun evs s = Some s' → P s'.
Proof.
  intros Hstep. revert s. induction evs as [|ev evs IH]; cbn; intros s Hs Hrun; [by simplify_eq|].
  apply bind_Some in Hrun as (s1 & H1 & Hrun). eauto.
Qed.

Lemma crun_fence evs s : crun evs coord_init = Some s → seqs_ok s ∧ fence_ok s.
Proof.
  apply (crun_ind (λ s, seqs_ok s ∧ fence_ok s)); [|split; [apply seqs_ok_init|apply fence_ok_init]].
  intros ev s1 s2 [Hok Hf] Hs.
  assert (Hm : move s1 s2) by (eapply cstep_move; [|done]; intros id; apply so_applied with (id := id) in Hok; lia).
  apply cstep_clock in Hs. split; [by eapply move_seqs|eapply move_fence; eauto; lia].
Qed.

(** * The effects of a task *)

Definition effects_of (k : Z) (s : coord) : list effect :=
  filter (λ e, effect_task e = k) (cx_trace s).

(** The effects of a spend: booked exactly when it was answered, applied at most once *)
Definition spend_word (k : Z) (id : string) (pc : spend_pc) (es : list effect) : Prop :=
  match pc with
  | SpToken | SpGate | SpEnd SpendSkipped | SpEnd SpendThrew => es = []
  | SpPing seq _ => es = [EPing k id seq]
  | SpEnd SpendFailed => es = [] ∨ ∃ seq, es = [EPing k id seq; EPingFailed k]
  | SpEnd (SpendCompleted st false) => ∃ seq, es = [EPing k id seq; EBook k st]
  | SpEnd (SpendCompleted st true) => ∃ seq, es = [EPing k id seq; EBook k st; EApply k id seq]
  end.

(** The requests of a read: one, or two with the retry *)
Definition gets (k : Z) (id : string) (seq : Z) (es : list effect) : Prop :=
  es = [EGet k id seq] ∨ es = [EGet k id seq; ERetryGet k].

Definition read_word (k : Z) (id : string) (pc : read_pc) (es : list effect) : Prop :=
  match pc with
  | RdRow | RdToken _ => es = []
  | RdGet x | RdRefresh x => es = [EGet k id (rc_seq x)]
  | RdRetry x => es = [EGet k id (rc_seq x); ERetryGet k]
  | RdRecheck x _ _ => gets k id (rc_seq x) es
  | RdEnd (ReadNoWindows | ReadRefreshed _) =>
      ∃ seq w, gets k id seq w ∧ es = w ++ [EApply k id seq]
  | RdEnd _ => es = [] ∨ ∃ seq, gets k id seq es
  end.

(** The ledger entry of a redemption *)
Definition ledger_entry (k : Z) (r : ConsumeRequest) (st : EventStatus) (windows : Z) : list effect :=
  match rq_ledgerRowId r with
  | Some row => if bool_decide (st = EvFailed) then [] else [EResolve k row st windows]
  | None => [EManual k (rq_idempotencyKey r) st]
  end.

(** Up to the ledger entry of an answered redemption: the older observations are fenced off
    first when the windows were restored. *)
Definition answered (k : Z) (id : string) (r : ConsumeRequest) (o : ConsumeResult) (es : list effect)
    : Prop :=
  ∃ seq, es = [EPost k id (rq_idempotencyKey r)]
              ++ (if windowsRestored o then [ERestored k id seq] else [])
              ++ ledger_entry k r (outcome_status (cr_outcome o)) (cr_windowsReset o).

Definition cleared_effects (k : Z) (id : string) (o : ConsumeResult) : list effect :=
  (if windowsRestored o then [EForceReset k id] else [])
  ++ (if bool_decide (cr_outcome o = OcReset) then [EResume k id] else []).

Definition consume_word (k : Z) (id : string) (r : ConsumeRequest) (pc : consume_pc)
    (es : list effect) : Prop :=
  match pc with
  | CoRow | CoToken | CoMeta _ | CoThrew => es = []
  | CoPost => es = [EPost k id (rq_idempotencyKey r)]
  | CoFailing | CoEnd (DispatchFailed false) =>
      es = ledger_entry k r EvFailed 0
      ∨ es = EPost k id (rq_idempotencyKey r) :: ledger_entry k r EvFailed 0
  | CoEnd (DispatchFailed true) => False
  | CoLedger o => answered k id r o es
  | CoClear o => windowsRestored o = true ∧ ∃ w, answered k id r o w ∧ es = w ++ [EForceReset k id]
  | CoResume o _ =>
      cr_outcome o = OcReset ∧ ∃ w, answered k id r o w ∧ es = w ++ [EForceReset k id; EResume k id]
  | CoMetadata o _ | CoEnd (Completed o _ _) =>
      ∃ w, answered k id r o w ∧ es = w ++ cleared_effects k id o ++ [ECredits k id]
  end.

Definition credits_word (k : Z) (id : string) (pc : credits_pc) (es : list effect) : Prop :=
  match pc with
  | CrRow | CrToken => es = []
  | CrGet _ | CrRefresh _ => es = [ECredits k id]
  | CrRetry => es = [ECredits k id; ECredits k id]
  | CrEnd _ => ∃ n, (n <= 2)%nat ∧ es = replicate n (ECredits k id)
  end.

Definition task_word (k : Z) (id : string) (t : task) (es : list effect) : Prop :=
  match t with
  | TObserve _ _ | TAttempt _ _ _ => es = []
  | TSpend _ pc => spend_word k id pc es
  | TRead pc => read_word k id pc es
  | TConsume r pc => consume_word k id r pc es
  | TCredits pc => credits_word k id pc es
  end.

(** The kind of a task that is under way and registered in flight *)
Inductive kind : Type := KSpend | KRead | KCredits.
#[export] Instance kind_eq_dec : EqDecision kind.
Proof. solve_decision. Defined.

Definition flying (t : task) : option kind :=
  match t with
  | TSpend _ (SpEnd _) | TRead (RdEnd _) | TCredits (CrEnd _) => None
  | TSpend _ _ => Some KSpend
  | TRead _ => Some KRead
  | TCredits _ => Some KCredits
  | _ => None
  end.

Definition flight (kd : kind) (f : flights) : gmap string Z :=
  match kd with
  | KSpend => inflight f
  | KRead => readInflight f
  | KCredits => resetCreditsInflight f
  end.

Definition spending (t : task) : bool := match t with TSpend _ _ => true | _ => false end.

(** A step of task [k] changes this task alone; what it adds to the trace continues its word. *)
Definition local_step (k : Z) (id : string) (t : task) (s s' : coord) : Prop :=
  ∃ t' es, cx_tasks s' = <[k := (id, t')]> (cx_tasks s) ∧ cx_trace s' = cx_trace s ++ es
  ∧ Forall (λ e, effect_task e = k) es
  ∧ (spending t' = spending t ∧ (flying t' = None ∨ flying t' = flying t))
  ∧ ∀ w, task_word k id t w → task_word k id t' (w ++ es).

Lemma local_goto es k id t t' s s1 :
  cx_tasks s1 = cx_tasks s → cx_trace s1 = cx_trace s ++ es →
  Forall (λ e, effect_task e = k) es →
  spending t' = spending t ∧ (flying t' = None ∨ flying t' = flying t) →
  (∀ w, task_word k id t w → task_word k id t' (w ++ es)) → local_step k id t s (goto k id t' s1).
Proof. intros Ht Htr Hes Hf Hw. exists t', es. cbn. by rewrite Ht. Qed.

Ltac local es :=
  apply (local_goto es);
    [reflexivity|cbn; rewrite <- ?app_assoc, ?app_nil_r; reflexivity|repeat constructor|cbn; auto|
     cbn; intros ?w ?Hw; rewrite ?app_nil_r; cbn; try solve [subst; cbn; eauto]].

Lemma spend_local k id causes pc ans now s s' :
  spend_step k id causes pc ans now s = Some s' → local_step k id (TSpend causes pc) s s'.
Proof.
  destruct pc, ans; cbn; intros [= Hs]; try done; subst.
  - local (@nil effect).
  - case_bool_decide; simplify_eq; [|local (@nil effect)].
    local [EPing k id (at_id id (applicationSeqCounter (cx_seqs s)) + 1)].
  - local (@nil effect).
  - destruct r as [a|]; cbn in *; [case_match|]; simplify_eq; try local (@nil effect).
    local [EPing k id (at_id id (applicationSeqCounter (cx_seqs s)) + 1)].
  - local [EPingFailed k].
  - unfold claimApplication in *; cbn in *. destruct (seq <=? _); simplify_eq/=; [local [EBook k status]|].
    set (s1 := emit _ _). destruct (store_observation_frame id issued windows persist now s1) as (Ht & _ & Htr & _).
    apply (local_goto [EBook k status; EApply k id seq]); [exact Ht| |repeat constructor|by auto|].
    + rewrite Htr. cbn. by rewrite <- app_assoc.
    + cbn. intros w ->. eauto.
Qed.

Lemma read_guards_local k id x st persist pc s :
  (∀ w, task_word k id (TRead pc) w → gets k id (rc_seq x) w) → flying (TRead pc) = Some KRead →
  local_step k id (TRead pc) s (read_guards k id x st persist s).
Proof.
  intros Hw Hf. unfold read_guards, claimApplication.
  destruct (negb _); [local (@nil effect); eauto|].
  destruct (advanced _ _); [local (@nil effect); eauto|].
  destruct (_ <=? _); [local (@nil effect); eauto|].
  apply (local_goto []); [done|by rewrite app_nil_r|constructor|by auto|].
  intros w Hww. rewrite app_nil_r. by apply Hw.
Qed.

Lemma read_local k id pc ans now s s' :
  read_step k id pc ans now s = Some s' → local_step k id (TRead pc) s s'.
Proof.
  unfold gets. destruct pc, ans; cbn; intros [= Hs]; try done; subst; try local (@nil effect).
  - case_match; simplify_eq; local (@nil effect).
  - local [EGet k id (at_id id (applicationSeqCounter (cx_seqs s)) + 1)].
  - right. exists (rc_seq x). by left.
  - case_match; simplify_eq; [local (@nil effect)|].
    apply read_guards_local; [|done]. intros w ->. by left.
  - right. exists (rc_seq x). by left.
  - case_match; simplify_eq; [local [ERetryGet k]|local (@nil effect)].
    right. exists (rc_seq x). by left.
  - right. exists (rc_seq x). by right.
  - apply read_guards_local; [|done]. intros w ->. by right.
  - destruct (from_option _ _ _); simplify_eq; [|local (@nil effect)].
    destruct (_ =? _); simplify_eq; [|local (@nil effect)].
    set (s1 := emit _ _).
    destruct (store_observation_frame id (rc_issued x) (us_windows st) persist now s1) as (Ht & _ & Htr & _).
    apply (local_goto [EApply k id (rc_seq x)]); [exact Ht|exact Htr|repeat constructor|by auto|].
    cbn. intros w Hw. destruct (us_windows st); eauto.
Qed.

Lemma record_ledger_trace k r st windows s :
  cx_trace (record_ledger k r st windows s) = cx_trace s ++ ledger_entry k r st windows.
Proof.
  unfold record_ledger, ledger_entry. destruct (rq_ledgerRowId r); [case_bool_decide|]; cbn;
    by rewrite ?app_nil_r.
Qed.

Lemma ledger_entry_task k r st windows : Forall (λ e, effect_task e = k) (ledger_entry k r st windows).
Proof. unfold ledger_entry. repeat case_match; by repeat constructor. Qed.

Lemma fail_local k id r pc s :
  (∀ w, consume_word k id r pc w → w = [] ∨ w = [EPost k id (rq_idempotencyKey r)]) →
  local_step k id (TConsume r pc) s (fail_consume k id r s).
Proof.
  intros Hw. destruct (record_ledger_frame k r EvFailed 0 s) as (Ht & _).
  apply (local_goto (ledger_entry k r EvFailed 0)); [done|apply record_ledger_trace
    |apply ledger_entry_task|by auto|].
  intros w [-> | ->]%Hw; cbn; auto.
Qed.

Lemma answered_local k id r o now s s' :
  consume_step k id r CoPost (AConsumed o) now s = Some s' →
  local_step k id (TConsume r CoPost) s s'.
Proof.
  cbn. intros [= <-]. set (st := outcome_status _). set (n := cr_windowsReset o).
  assert (Hr : ∃ seq, cx_tasks (if windowsRestored o then restore_windows k id s else s) = cx_tasks s
    ∧ cx_trace (if windowsRestored o then restore_windows k id s else s)
      = cx_trace s ++ (if windowsRestored o then [ERestored k id seq] else [])).
  { destruct (windowsRestored o); [|by exists 0; rewrite app_nil_r].
    unfold restore_windows, reserveApplicationSeq, claimApplication. cbn.
    eexists. by destruct (_ <=? _). }
  destruct Hr as (seq & Ht & Htr). set (s1 := if windowsRestored o then _ else _) in *.
  destruct (record_ledger_frame k r st n s1) as (Ht1 & _).
  apply (local_goto ((if windowsRestored o then [ERestored k id seq] else [])
                       ++ ledger_entry k r st n)).
  - by rewrite Ht1.
  - by rewrite record_ledger_trace, Htr, app_assoc.
  - apply Forall_app. split; [case_match; by repeat constructor|apply ledger_entry_task].
  - by auto.
  - intros w ->. by exists seq.
Qed.

Lemma metadata_local k id r o cleared pc now pre s s1 :
  cx_tasks s1 = cx_tasks s → cx_trace s1 = cx_trace s ++ pre →
  Forall (λ e, effect_task e = k) pre →
  (∀ w, consume_word k id r pc w →
     ∃ w', answered k id r o w' ∧ w ++ pre = w' ++ cleared_effects k id o) →
  local_step k id (TConsume r pc) s (read_metadata k id r o cleared now s1).
Proof.
  intros Ht Htr Hpre Hw. apply (local_goto (pre ++ [ECredits k id])); [done| | |by auto|].
  - cbn. by rewrite Htr, app_assoc.
  - apply Forall_app. split; [done|by repeat constructor].
  - intros w (w' & Ha & Heq)%Hw. exists w'. split; [done|]. by rewrite !app_assoc, Heq.
Qed.

Lemma cleared_local k id r o cleared now s :
  local_step k id (TConsume r (CoClear o)) s (resume_or_metadata k id r o cleared now s).
Proof.
  unfold resume_or_metadata. case_bool_decide as Ho.
  - local [EResume k id]. destruct Hw as (_ & w' & Ha & ->). split; [done|].
    exists w'. by rewrite <- app_assoc.
  - eapply (metadata_local _ _ _ _ _ _ _ []); [done|by rewrite app_nil_r|done|].
    cbn. intros w (Hr & w' & Ha & ->). exists w'. rewrite app_nil_r. split; [done|].
    unfold cleared_effects. by rewrite Hr, bool_decide_false.
Qed.

Lemma recorded_local k id r o now s s' :
  consume_step k id r (CoLedger o) AUnit now s = Some s' →
  local_step k id (TConsume r (CoLedger o)) s s'.
Proof.
  cbn. destruct (windowsRestored o) eqn:Hr; intros [= <-].
  - local [EForceReset k id].
  - eapply (metadata_local _ _ _ _ _ _ _ []); [done|by rewrite app_nil_r|done|].
    intros w Hw. exists w. split; [done|]. unfold cleared_effects. rewrite Hr, bool_decide_false; [done|].
    unfold windowsRestored in Hr. by destruct (cr_outcome o).
Qed.

Lemma resumed_local k id r o cleared now s :
  local_step k id (TConsume r (CoResume o cleared)) s (read_metadata k id r o cleared now s).
Proof.
  eapply (metadata_local _ _ _ _ _ _ _ []); [done|by rewrite app_nil_r|done|].
  cbn. intros w (Ho & w' & Ha & ->). exists w'. split; [done|]. rewrite app_nil_r.
  unfold cleared_effects, windowsRestored. by rewrite Ho.
Qed.

Lemma consume_local k id r pc ans now s s' :
  consume_step k id r pc ans now s = Some s' → local_step k id (TConsume r pc) s s'.
Proof.
  destruct pc, ans; try done; try (by apply answered_local);
    try (by apply recorded_local); cbn; intros [= Hs]; subst;
    try local (@nil effect); try (apply fail_local; cbn; by auto); try apply cleared_local; try apply resumed_local.
  - case_match; simplify_eq; [local (@nil effect)|apply fail_local; cbn; by auto].
  - case_match; simplify_eq; [local (@nil effect)|local [EPost k id (rq_idempotencyKey r)]].
  - repeat case_match; simplify_eq; local [EPost k id (rq_idempotencyKey r)].
  - case_match; simplify_eq; local (@nil effect).
Qed.

Lemma credits_local k id pc ans now s s' :
  credits_step k id pc ans now s = Some s' → local_step k id (TCredits pc) s s'.
Proof.
  assert (Hend : ∀ n, (n <= 2)%nat → ∃ m, (m <= 2)%nat
    ∧ replicate n (ECredits k id) = replicate m (ECredits k id)) by eauto.
  unfold credits_done. destruct pc, ans; cbn; intros [= Hs]; try done; subst;
    repeat (case_match; simplify_eq/=);
    first [local (@nil effect)|local [ECredits k id]]; subst;
    first [by apply (Hend 0%nat); lia|by apply (Hend 1%nat); lia|by apply (Hend 2%nat); lia].
Qed.

Lemma step_local k id t ans now s s' :
  (∀ cause pc, t ≠ TObserve cause pc) → step_task k id t ans now s = Some s' →
  local_step k id t s s'.
Proof.
  intros Ht. destruct t as [| | | | |epoch issued ended]; [by edestruct Ht|eapply spend_local
    |eapply read_local|eapply consume_local|eapply credits_local|].
  destruct ended, ans; cbn; intros [= <-]. exists (TAttempt epoch issued true), [].
  assert (Hs : ∀ b, cx_tasks (if b : bool then store_observation id issued windows persist now
      (goto k id (TAttempt epoch issued true) s) else goto k id (TAttempt epoch issued true) s)
    = <[k := (id, TAttempt epoch issued true)]> (cx_tasks s)
    ∧ cx_trace (if b : bool then store_observation id issued windows persist now
      (goto k id (TAttempt epoch issued true) s) else goto k id (TAttempt epoch issued true) s)
    = cx_trace s).
  { intros []; [|done]. by destruct (store_observation_frame id issued windows persist now
      (goto k id (TAttempt epoch issued true) s)) as (-> & _ & -> & _). }
  destruct (Hs (isCodexObservationCurrent id epoch (goto k id (TAttempt epoch issued true) s)))
    as [-> ->]. rewrite app_nil_r. split_and!; auto. intros w Hw. by rewrite app_nil_r.
Qed.

(** What the tasks keep: identities in use are below the next one, the effects of each task are
    a word of its kind, a task under way is the one registered. *)
Record tasks_ok (s : coord) : Prop := {
  to_next : ∀ k e, cx_tasks s !! k = Some e → k < cx_nextTask s;
  to_trace : ∀ e, e ∈ cx_trace s → effect_task e < cx_nextTask s;
  to_word : ∀ k id t, cx_tasks s !! k = Some (id, t) → task_word k id t (effects_of k s);
  to_flying : ∀ k id t kd, cx_tasks s !! k = Some (id, t) → flying t = Some kd →
    flight kd (cx_flights s) !! id = Some k
}.

Lemma effects_other k k' s s' es :
  cx_trace s' = cx_trace s ++ es → Forall (λ e, effect_task e = k) es → k' ≠ k →
  effects_of k' s' = effects_of k' s.
Proof.
  rewrite Forall_forall. intros Hs Hes Hne. unfold effects_of. rewrite Hs, filter_app.
  rewrite (filter_none _ es), app_nil_r; [done|]. intros e He%Hes. congruence.
Qed.

Lemma effects_own k s s' es :
  cx_trace s' = cx_trace s ++ es → Forall (λ e, effect_task e = k) es →
  effects_of k s' = effects_of k s ++ es.
Proof.
  rewrite Forall_forall. intros Hs Hes. unfold effects_of. by rewrite Hs, filter_app, (filter_all _ es).
Qed.

Lemma local_tasks k id t s s' :
  tasks_ok s → cx_tasks s !! k = Some (id, t) → local_step k id t s s' → same_frame s s' →
  tasks_ok s'.
Proof.
  intros [Hn Htr Hw Hf] Hk (t' & es & Ht & Hes & Hall & [_ Hfl] & Hword) (_ & Hflights & Hnext).
  split; intros *; rewrite ?Ht, ?Hnext, ?Hflights, ?lookup_insert_Some.
  - intros [[<- _]|[_ H]]; eauto.
  - rewrite Hes. intros [H|H]%elem_of_app; [by apply Htr|].
    rewrite Forall_forall in Hall. rewrite (Hall _ H). eauto.
  - intros [[<- [= <- <-]]|[Hne H]].
    + rewrite (effects_own _ _ _ _ Hes Hall). by eapply Hword, Hw.
    + rewrite (effects_other _ _ _ _ _ Hes Hall) by done. by apply Hw.
  - intros [[<- [= <- <-]]|[Hne H]] Hkd; [|by eapply Hf].
    destruct Hfl as [|Hfl]; [congruence|]. rewrite Hfl in Hkd. by eapply Hf.
Qed.

(** A new task begins with no effect; if it is registered in flight, none was. *)
Lemma spawn_tasks id t s s' :
  tasks_ok s → cx_tasks s' = <[cx_nextTask s := (id, t)]> (cx_tasks s) →
  cx_nextTask s' = cx_nextTask s + 1 → cx_trace s' = cx_trace s →
  task_word (cx_nextTask s) id t [] →
  (∀ kd, flying t = Some kd → flight kd (cx_flights s) !! id = None) →
  (∀ kd, flight kd (cx_flights s')
         = if bool_decide (flying t = Some kd) then <[id := cx_nextTask s]> (flight kd (cx_flights s))
           else flight kd (cx_flights s)) →
  tasks_ok s'.
Proof.
  intros [Hn Htr Hw Hf] Ht Hnext Htrace Hnil Hfree Hfl.
  assert (Heff : ∀ k, effects_of k s' = effects_of k s) by (intros; unfold effects_of; by rewrite Htrace).
  split; intros *; rewrite ?Ht, ?Hnext, ?Htrace, ?Heff, ?lookup_insert_Some.
  - intros [[<- _]|[_ H%Hn]]; lia.
  - intros H%Htr. lia.
  - intros [[<- [= <- <-]]|[_ H]]; [|by apply Hw].
    replace (effects_of (cx_nextTask s) s) with (@nil effect); [done|].
    symmetry. apply filter_none. intros e He%Htr. lia.
  - rewrite Hfl. intros [[<- [= <- <-]]|[Hne H]] Hkd.
    + by rewrite bool_decide_true, lookup_insert_eq.
    + case_bool_decide as Hb; [|by eapply Hf].
      rewrite lookup_insert_ne; [by eapply Hf|]. intros ->.
      apply Hf with (kd := kd) in H; [|done]. by rewrite (Hfree _ Hb) in H.
Qed.

(** Nothing but the storage, the clock and the sequences changes. *)
Lemma same_tasks s s' :
  tasks_ok s → cx_tasks s' = cx_tasks s → cx_nextTask s' = cx_nextTask s →
  cx_trace s' = cx_trace s → cx_flights s' = cx_flights s → tasks_ok s'.
Proof.
  intros [Hn Htr Hw Hf] Ht Hnext Htrace Hfl.
  split; intros *; unfold effects_of; rewrite ?Ht, ?Hnext, ?Htrace, ?Hfl; eauto.
Qed.

(** An ended task leaves the flights. *)
Lemma landed_tasks k id t s s' kd :
  tasks_ok s → cx_tasks s !! k = Some (id, t) → flying t = None →
  cx_tasks s' = cx_tasks s → cx_nextTask s' = cx_nextTask s → cx_trace s' = cx_trace s →
  (∀ kd', flight kd' (cx_flights s')
          = if bool_decide (kd' = kd) then drop_flight k id (flight kd' (cx_flights s))
            else flight kd' (cx_flights s)) → tasks_ok s'.
Proof.
  intros [Hn Htr Hw Hf] Hk Hend Ht Hnext Htrace Hfl.
  split; intros *; unfold effects_of; rewrite ?Ht, ?Hnext, ?Htrace, ?Hfl; eauto.
  intros Hk' Hkd. specialize (Hf _ _ _ _ Hk' Hkd). case_bool_decide; [|done].
  unfold drop_flight. case_bool_decide as Hd; [|done]. rewrite lookup_delete_ne; [done|].
  intros ->. rewrite Hf in Hd. injection Hd as ->. by simplify_eq.
Qed.

(** A cause joins a spend: its effects do not depend on who asked for it. *)
Lemma joined_tasks g p s :
  (∀ k e es, (g e).1 = e.1 ∧ flying (g e).2 = flying e.2 ∧ (task_word k e.1 e.2 es → task_word k (g e).1 (g e).2 es)) →
  tasks_ok s → tasks_ok (with_tasks (alter g p (cx_tasks s)) s).
Proof.
  intros Hg [Hn Htr Hw Hf]. split; intros *; cbn; rewrite ?lookup_alter_Some; eauto.
  - intros [(-> & e' & He & _)|[_ He]]; eauto.
  - intros [(-> & [id' t'] & He & Heq)|[_ He]]; [|by eapply Hw].
    destruct (Hg k (id', t') (effects_of k s)) as (H1 & _ & H3). rewrite <- Heq in *. cbn in *.
    by apply H3, Hw.
  - intros [(-> & [id' t'] & He & Heq)|[_ He]] Hkd; [|by eapply Hf].
    destruct (Hg k (id', t') []) as (H1 & H2 & _). rewrite <- Heq in *. cbn in *. subst.
    eapply Hf; [done|congruence].
Qed.

Lemma observe_goto_tasks k id cause pc pc' s :
  tasks_ok s → cx_tasks s !! k = Some (id, TObserve cause pc) →
  tasks_ok (goto k id (TObserve cause pc') s).
Proof.
  intros Hok Hk. eapply local_tasks; [done|exact Hk| |done]. by local (@nil effect).
Qed.

Lemma observe_tasks k id cause pc ans s s' :
  tasks_ok s → cx_tasks s !! k = Some (id, TObserve cause pc) →
  observe_step k id cause pc ans s = Some s' → tasks_ok s'.
Proof.
  intros Hok Hk. unfold observe_step. intros Hs.
  repeat (case_match; simplify_eq/=); try by eapply observe_goto_tasks.
  unfold join_spend. case_match eqn:Hfl.
  - set (g := λ e : string * task, _).
    assert (Hg : g (id, TObserve cause ObLoad) = (id, TObserve cause ObLoad)) by done.
    eapply observe_goto_tasks; [eapply joined_tasks; [|done]|].
    + intros k' [id' t'] es. by destruct t' as [|? []| | | |].
    + cbn. destruct (decide (z = k)) as [->|]; [|by rewrite lookup_alter_ne].
      by rewrite lookup_alter_eq, Hk.
  - assert (Hne : k ≠ cx_nextTask s) by (apply (to_next s Hok) in Hk; lia).
    eapply observe_goto_tasks; [eapply (spawn_tasks id (TSpend [cause] SpToken)); try done|].
    + by intros kd [= <-].
    + by intros [].
    + cbn. by rewrite lookup_insert_ne.
Qed.

Lemma cstep_tasks ev s s' : tasks_ok s → cstep ev s = Some s' → tasks_ok s'.
Proof.
  intros Hok. intros (s1 & Hs & ->)%fmap_Some. eapply (same_tasks s1); try done.
  destruct ev as [id cause|id|id r|id force now|id|k ans now|k|id|cas].
  - injection Hs as <-. by eapply spawn_tasks.
  - case_match eqn:Hfl; simplify_eq/=; [done|]. eapply spawn_tasks; try done.
    + by intros kd [= <-].
    + by intros [].
  - injection Hs as <-. by eapply spawn_tasks.
  - case_match eqn:Hfl; simplify_eq/=; [done|]. case_match; simplify_eq/=; [|done].
    eapply spawn_tasks; try done.
    + by intros kd [= <-].
    + by intros [].
  - injection Hs as <-. by eapply spawn_tasks.
  - apply bind_Some in Hs as ((id & t) & Hk & Hs).
    assert ((∃ cause pc, t = TObserve cause pc) ∨ ∀ cause pc, t ≠ TObserve cause pc) as
      [(cause & pc & ->)|Ht] by (destruct t; eauto; by right).
    + by eapply observe_tasks.
    + eapply local_tasks; [done|exact Hk|by eapply step_local|by eapply step_frame].
  - apply bind_Some in Hs as ((id & t) & Hk & Hs). unfold cleanup in Hs.
    repeat (case_match; simplify_eq/=);
      [eapply (landed_tasks _ _ _ _ _ KSpend)|eapply (landed_tasks _ _ _ _ _ KRead)
      |eapply (landed_tasks _ _ _ _ _ KCredits)]; try done; by intros [].
  - injection Hs as <-. by eapply same_tasks.
  - unfold write_snapshot in Hs. repeat (case_match; simplify_eq/=); by eapply same_tasks.
Qed.

Lemma crun_tasks evs s : crun evs coord_init = Some s → tasks_ok s.
Proof.
  apply (crun_ind tasks_ok); [intros ????; by eapply cstep_tasks|].
  split; cbn; intros *; rewrite ?lookup_empty; try done. by intros ?%not_elem_of_nil.
Qed.


(** An account answered by the last read of the row lets a scheduled spend go. *)
Definition still_scheduled (ans : answer) : Prop :=
  ∃ a, ans = ARow (Some a) ∧ acc_disabled a = false ∧ auto_refresh a = true.

(** Who may issue a ping: a spend a manual cause has joined, or one whose row was just read *)
Definition authorised (causes : list CodexSpendCause) (pc : spend_pc) (ans : answer) : Prop :=
  (pc = SpToken ∧ ManualRefresh ∈ causes) ∨ (pc = SpGate ∧ still_scheduled ans).

Lemma spend_ping k id causes pc ans now s s' es k' id' seq :
  spend_step k id causes pc ans now s = Some s' → cx_trace s' = cx_trace s ++ es →
  EPing k' id' seq ∈ es → k' = k ∧ id' = id ∧ authorised causes pc ans.
Proof.
  assert (Hsame : cx_trace s = cx_trace s ++ es → EPing k' id' seq ∉ es).
  { rewrite <- (app_nil_r (cx_trace s)) at 1. intros <-%app_inv_head. apply not_elem_of_nil. }
  assert (Hone : ∀ e, cx_trace s ++ [e] = cx_trace s ++ es → EPing k' id' seq ∈ es → e = EPing k' id' seq).
  { intros e <-%app_inv_head. by intros <-%list_elem_of_singleton. }
  unfold authorised, still_scheduled.
  destruct pc, ans; cbn; intros [= Hs] Hes Hin; try done; subst; try by destruct (Hsame Hes).
  - case_bool_decide; simplify_eq/=; [|by destruct (Hsame Hes)].
    eapply Hone in Hin; [|done]. simplify_eq. split_and!; auto.
  - destruct r as [a|]; cbn in *; [|simplify_eq; by destruct (Hsame Hes)].
    case_match; simplify_eq/=; [|by destruct (Hsame Hes)]. prop_bools.
    eapply Hone in Hin; [|done]. simplify_eq. split_and!; auto. right. split; [done|]. by exists a.
  - by apply (Hone (EPingFailed k)) in Hin.
  - unfold claimApplication in *; cbn in *. destruct (seq0 <=? _); simplify_eq/=;
      [by apply (Hone (EBook k status)) in Hin|].
    set (s1 := emit _ _) in *.
    destruct (store_observation_frame id issued windows persist now s1) as (_ & _ & Htr & _).
    rewrite Htr in Hes. cbn in Hes. rewrite <- app_assoc in Hes. apply app_inv_head in Hes. subst es.
    apply elem_of_cons in Hin as [|Hin]; [done|]. by apply list_elem_of_singleton in Hin.
Qed.


Definition is_ping (e : effect) : bool := match e with EPing _ _ _ => true | _ => false end.
Abbreviation no_ping := (Forall (λ e, is_ping e = false)).

Lemma gets_no_ping k id seq es : gets k id seq es → no_ping es.
Proof. intros [-> | ->]; by repeat constructor. Qed.

Lemma ledger_no_ping k r st windows : no_ping (ledger_entry k r st windows).
Proof. unfold ledger_entry. repeat case_match; by repeat constructor. Qed.

Lemma answered_no_ping k id r o es : answered k id r o es → no_ping es.
Proof.
  intros (seq & ->). constructor; [done|]. apply Forall_app. split; [|apply ledger_no_ping].
  case_match; by repeat constructor.
Qed.

Lemma cleared_no_ping k id o : no_ping (cleared_effects k id o).
Proof. unfold cleared_effects. apply Forall_app. split; case_match; by repeat constructor. Qed.

(** Only a spend pings. *)
Lemma word_no_ping k id t es : spending t = false → task_word k id t es → no_ping es.
Proof.
  intros Hsp Hw. destruct t as [cause pc|causes pc|pc|r pc|pc|e i b]; cbn in Hw; try done.
  - by subst.
  - destruct pc as [| | | | | |[]]; cbn in Hw; naive_solver eauto using gets_no_ping, Forall_app_2.
  - assert (Hfail : es = ledger_entry k r EvFailed 0
      ∨ es = EPost k id (rq_idempotencyKey r) :: ledger_entry k r EvFailed 0 → no_ping es).
    { intros [-> | ->]; [|constructor; [done|]]; apply ledger_no_ping. }
    assert (Hans : ∀ o l, no_ping l → (∃ w, answered k id r o w ∧ es = w ++ l) → no_ping es).
    { intros o l Hl (w & Ha & ->). apply Forall_app. split; [by eapply answered_no_ping|done]. }
    assert (Hmeta : ∀ o, no_ping (cleared_effects k id o ++ [ECredits k id])).
    { intros o. apply Forall_app. split; [apply cleared_no_ping|by repeat constructor]. }
    destruct pc as [| | | | |o|o|o c|o c|[o m c|[]]|]; cbn in Hw; subst; try done;
      try (by apply Hfail); try (by eapply Hans; [apply Hmeta|]).
    + by repeat constructor.
    + by eapply answered_no_ping.
    + destruct Hw as [_ Hw]. eapply Hans; [|done]. by repeat constructor.
    + destruct Hw as [_ Hw]. eapply Hans; [|done]. by repeat constructor.
  - destruct pc; cbn in Hw; subst; try by repeat constructor.
    destruct Hw as (n & _ & ->). apply Forall_replicate. done.
  - by subst.
Qed.

(** * The properties *)

(** C32: no observation that was on the wire when a redemption restored the windows outlives it:
    the cached reading, the queued snapshots still allowed to be written and the column once
    written after the redemption all come from requests issued after it, whatever the order in
    which reads, spends, real traffic and the writer ran. *)
Theorem observations_fenced evs s id r :
  crun evs coord_init = Some s → restored (cx_seqs s) !! id = Some r →
  (∀ st, usageCache (cx_storage s) !! id = Some st → r < st_issued st)
  ∧ (∀ j, j ∈ queue (cx_storage s) → job_id j = id →
       isCodexObservationCurrent id (job_epoch j) s = true → r < job_issued j)
  ∧ (∀ st, column (cx_storage s) !! id = Some st → r < st_writtenAt st → r < st_issued st).
Proof.
  intros [_ Hf]%crun_fence Hr. split_and!.
  - intros st Hst. by apply (fo_cache s Hf) in Hst; apply Hst.
  - intros j Hj <- He%Z.eqb_eq. apply (fo_queue s Hf) in Hj as [_ [Hj|Hj]]; [by apply Hj|].
    unfold epoch in Hj. unfold getCodexObservationEpoch in He. lia.
  - intros st Hst. apply (fo_column s Hf) in Hst as [_ Hst]. by apply Hst.
Qed.

(** the observations applied for an account, by reads, spends and redemptions, carry
    strictly increasing issue sequences: none is applied twice and none after a later one. *)
Theorem applications_ordered evs s id :
  crun evs coord_init = Some s → StronglySorted Z.lt (applications id s).
Proof. intros [Hok _]%crun_fence. by apply so_sorted. Qed.

Lemma observe_trace k id cause pc ans s s' :
  observe_step k id cause pc ans s = Some s' → cx_trace s' = cx_trace s.
Proof. unfold observe_step, join_spend. intros Hs. by repeat (case_match; simplify_eq/=). Qed.

Lemma other_task_no_ping k id t ans now s s' es :
  tasks_ok s → cx_tasks s !! k = Some (id, t) → step_task k id t ans now s = Some s' →
  spending t = false → cx_trace s' = cx_trace s ++ es → no_ping es.
Proof.
  intros Hok Hk Hs Hsp Hes.
  assert ((∃ cause pc, t = TObserve cause pc) ∨ ∀ cause pc, t ≠ TObserve cause pc) as
      [(cause & pc & ->)|Ht] by (destruct t; eauto; by right).
  - apply observe_trace in Hs. rewrite Hs, <- (app_nil_r (cx_trace s)) in Hes at 1.
    by apply app_inv_head in Hes as <-.
  - apply step_local in Hs as (t' & es' & _ & Hes' & _ & [Hsp' _] & Hw); [|done].
    rewrite Hes' in Hes. apply app_inv_head in Hes as <-.
    apply (to_word s Hok), Hw, word_no_ping in Hk; [|by rewrite Hsp'].
    by apply Forall_app in Hk as [_ Hk].
Qed.

(** C35: a ping leaves only for a spend that a manual cause has joined, or whose account row,
    just read again, is enabled and scheduled; and that spend is the only one of its account
    under way. No read, redemption or metadata refresh ever pings. *)
Theorem spend_authorised evs s ev s' es k id seq :
  crun evs coord_init = Some s → cstep ev s = Some s' → cx_trace s' = cx_trace s ++ es →
  EPing k id seq ∈ es →
  ∃ ans now causes pc, ev = CStep k ans now
  ∧ cx_tasks s !! k = Some (id, TSpend causes pc) ∧ authorised causes pc ans
  ∧ ∀ k' causes' pc', cx_tasks s !! k' = Some (id, TSpend causes' pc') →
      k' = k ∨ ∃ r, pc' = SpEnd r.
Proof.
  intros Hok%crun_tasks (s1 & Hs & ->)%fmap_Some Hes Hin. cbn in Hes.
  assert (Hsame : cx_trace s1 ≠ cx_trace s).
  { intros Heq. rewrite Heq, <- (app_nil_r (cx_trace s)) in Hes at 1.
    apply app_inv_head in Hes as <-. by apply elem_of_nil in Hin. }
  destruct ev as [id' cause|id'|id' r|id' force now|id'|k' ans now|k'|id'|cas];
    try by (exfalso; apply Hsame; repeat case_match; simplify_eq/=).
  - apply bind_Some in Hs as ((id' & t) & Hk & Hs). destruct (spending t) eqn:Hsp.
    + destruct t as [|causes pc| | | |]; try done. cbn in Hs.
      destruct (spend_ping _ _ _ _ _ _ _ _ _ _ _ _ Hs Hes Hin) as (-> & -> & Ha).
      exists ans, now, causes, pc. split_and!; try done. intros k causes' pc' Hk'.
      assert (Hfl := to_flying s Hok). destruct (flying (TSpend causes' pc')) eqn:Hf'.
      * left. pose proof (Hfl _ _ _ KSpend Hk') as H1. pose proof (Hfl _ _ _ KSpend Hk) as H2.
        rewrite H1 in H2; [|by destruct pc']. injection H2 as ->; [done|].
        by destruct Ha as [[-> _]|[-> _]].
      * right. destruct pc'; try done. eauto.
    + eapply other_task_no_ping in Hs; [|done..]. rewrite Forall_forall in Hs.
      by apply Hs in Hin.
  - apply bind_Some in Hs as ((id' & t) & Hk & Hs). exfalso. apply Hsame. unfold cleanup in Hs.
    by repeat (case_match; simplify_eq/=).
  - exfalso. apply Hsame. unfold write_snapshot in Hs. by repeat (case_match; simplify_eq/=).
Qed.

(** a spend books its row exactly when its ping was answered, before anything reads the
    answer, and applies it at most once; a ping that was not answered books nothing. *)
Theorem spend_booked_once evs s k id causes pc :
  crun evs coord_init = Some s → cx_tasks s !! k = Some (id, TSpend causes pc) →
  spend_word k id pc (effects_of k s).
Proof. intros Hok%crun_tasks Hk. by apply (to_word s Hok) in Hk. Qed.

(** a redemption posts at most once; older observations are fenced off as soon as its
    outcome is known, before the ledger is written; the ledger is resolved with that outcome
    before the local rate limit is cleared; only an outcome of reset resumes the account; a
    failed automatic attempt leaves its ledger row pending. *)
Theorem redemption_word evs s k id r pc :
  crun evs coord_init = Some s → cx_tasks s !! k = Some (id, TConsume r pc) →
  consume_word k id r pc (effects_of k s).
Proof. intros Hok%crun_tasks Hk. by apply (to_word s Hok) in Hk. Qed.

(** ** Runs *)

Definition demo_scheduled (auto : bool) (p : AccountProfile) : AccountProfile :=
  {| prof_api_key := prof_api_key p; prof_created_at := prof_created_at p;
     prof_last_used := prof_last_used p; prof_request_count := prof_request_count p;
     prof_total_requests := prof_total_requests p; prof_auto_refresh_enabled := auto;
     prof_peak_hours_pause_enabled := prof_peak_hours_pause_enabled p;
     prof_codex_auto_apply_reset_credits_enabled := prof_codex_auto_apply_reset_credits_enabled p;
     prof_codex_auto_apply_reset_on_weekly_limit_enabled :=
       prof_codex_auto_apply_reset_on_weekly_limit_enabled p;
     prof_codex_fast_mode_enabled := prof_codex_fast_mode_enabled p;
     prof_anthropic_auto_apply_banked_resets_enabled :=
       prof_anthropic_auto_apply_banked_resets_enabled p;
     prof_anthropic_auto_apply_banked_reset_on_weekly_limit_enabled :=
       prof_anthropic_auto_apply_banked_reset_on_weekly_limit_enabled p;
     prof_billing_type := prof_billing_type p; prof_notes := prof_notes p;
     prof_refresh_token_issued_at := prof_refresh_token_issued_at p;
     prof_refresh_token_expires_at := prof_refresh_token_expires_at p;
     prof_renewal := prof_renewal p; prof_identity := prof_identity p;
     prof_subscription := prof_subscription p;
     prof_identity_captured_at := prof_identity_captured_at p;
     prof_identity_profile_fetched_at := prof_identity_profile_fetched_at p |}.

Definition demo_codex (auto : bool) : Account :=
  {| acc_id := "a"; acc_name := "one"; acc_provider := "codex";
     acc_refresh_token := Some "rt"; acc_access_token := Some "t"; acc_expires_at := None;
     acc_session_start := None; acc_session_request_count := 0;
     acc_paused := false; acc_disabled := false; acc_pause_reason := None;
     acc_priority := 0; acc_auto_fallback_enabled := true;
     acc_auto_pause_on_overage_enabled := true; acc_custom_endpoint := None;
     acc_rate_limited_until := None; acc_rate_limited_reason := None;
     acc_rate_limited_at := None; acc_consecutive_rate_limits := 0;
     acc_rate_limit_status := None; acc_rate_limit_reset := None;
     acc_rate_limit_remaining := None; acc_profile := demo_scheduled auto demo_profile |}%string.

Definition demo_status : UsageStatus :=
  {| us_ok := true; us_status := Some 200; us_windows := true; us_limited := false |}.
Definition demo_consume : ConsumeRequest :=
  {| rq_idempotencyKey := "key"; rq_creditId := Some "c1"; rq_ledgerRowId := Some "row" |}%string.
Definition demo_reset : ConsumeResult := {| cr_outcome := OcReset; cr_windowsReset := 2 |}.

(** The read [k], from its row to the answer *)
Definition demo_read (k : Z) : list cevent :=
  [CStep k (ARow (Some (demo_codex true))) 0; CStep k (AToken "t") 0].
Definition demo_answer (k now : Z) : list cevent :=
  [CStep k (AUsage demo_status true) now; CStep k (ARow (Some (demo_codex true))) now].

(** A read is answered after a redemption; another one is issued after it and written. *)
Definition demo_fenced : list cevent :=
  ([CRead "a"] ++ demo_read 0
   ++ [CConsume "a" demo_consume; CStep 1 (ARow (Some (demo_codex true))) 10; CStep 1 (AToken "t") 20;
       CStep 1 (AConsumed demo_reset) 30; CStep 0 (AUsage demo_status true) 40; CCleanup 0; CRead "a"]
   ++ demo_read 2 ++ demo_answer 2 50 ++ [CWrite true]).

Definition demo_fenced_end : coord := default coord_init (crun demo_fenced coord_init).

Lemma observations_fenced_witness :
  restored (cx_seqs demo_fenced_end) !! "a"%string = Some 6
  ∧ ∃ st, usageCache (cx_storage demo_fenced_end) !! "a"%string = Some st ∧ 6 < st_issued st.
Proof.
  split; [by vm_compute|]. exists {| st_issued := 11; st_writtenAt := 50 |}. split; [by vm_compute|].
  apply (proj1 (observations_fenced demo_fenced demo_fenced_end "a" 6
                  ltac:(by vm_compute) ltac:(by vm_compute))). by vm_compute.
Defined.

Lemma applications_ordered_witness :
  applications "a" demo_fenced_end = [2; 3] ∧ StronglySorted Z.lt (applications "a" demo_fenced_end).
Proof. split; [by vm_compute|]. apply (applications_ordered demo_fenced). by vm_compute. Defined.

(** A scheduled spend, up to the read of the row that lets it go *)
Definition demo_prime : list cevent :=
  ([CObserve "a" ScheduledPrime; CStep 0 (ARow (Some (demo_codex true))) 0; CStep 1 (AToken "t") 0]).
Definition demo_primed : coord := default coord_init (crun demo_prime coord_init).
Definition demo_ping : cevent := CStep 1 (ARow (Some (demo_codex true))) 0.
Definition demo_pinged : coord := default coord_init (cstep demo_ping demo_primed).

Lemma spend_authorised_witness :
  EPing 1 "a" 1 ∈ [EPing 1 "a" 1]
  ∧ ∃ ans now causes pc, demo_ping = CStep 1 ans now
    ∧ cx_tasks demo_primed !! 1 = Some ("a"%string, TSpend causes pc) ∧ authorised causes pc ans
    ∧ ∀ k' causes' pc', cx_tasks demo_primed !! k' = Some ("a"%string, TSpend causes' pc') →
        k' = 1 ∨ ∃ r, pc' = SpEnd r.
Proof.
  split; [left|].
  apply (spend_authorised demo_prime demo_primed demo_ping demo_pinged [EPing 1 "a" 1] 1 "a" 1);
    [by vm_compute|by vm_compute|by vm_compute|left].
Defined.

Lemma spend_booked_once_witness :
  spend_word 1 "a" (SpPing 1 3) (effects_of 1 demo_pinged).
Proof.
  apply (spend_booked_once (demo_prime ++ [demo_ping]) demo_pinged 1 "a" [ScheduledPrime]);
    by vm_compute.
Defined.

Lemma redemption_word_witness :
  consume_word 1 "a" demo_consume (CoLedger demo_reset) (effects_of 1 demo_fenced_end).
Proof. apply (redemption_word demo_fenced); by vm_compute. Defined.

(** A read claims its sequence, then waits for the row; a request of real traffic, issued
    later, is observed meanwhile; the row is in and the read is applied over it. *)
Definition demo_overtaken : list cevent :=
  ([CRead "a"] ++ demo_read 0
   ++ [CStep 0 (AUsage demo_status true) 10; CAttempt "a"; CStep 1 (APing 200 true true) 20]).

(** a read checks that no newer observation was cached only before its last wait: what real
    traffic observes while the row is read again, from a request issued later, is replaced by
    the older reading, with no redemption in sight. *)
Theorem newer_traffic_overwritten :
  ∃ s s' newer older, crun demo_overtaken coord_init = Some s
  ∧ cstep (CStep 0 (ARow (Some (demo_codex true))) 30) s = Some s'
  ∧ usageCache (cx_storage s) !! "a"%string = Some newer
  ∧ usageCache (cx_storage s') !! "a"%string = Some older
  ∧ st_issued older < st_issued newer
  ∧ restored (cx_seqs s') !! "a"%string = None.
Proof.
  set (s := default coord_init (crun demo_overtaken coord_init)).
  exists s, (default coord_init (cstep (CStep 0 (ARow (Some (demo_codex true))) 30) s)).
  exists {| st_issued := 4; st_writtenAt := 20 |}, {| st_issued := 2; st_writtenAt := 30 |}.
  split_and!; by vm_compute.
Qed.

(** Auto-refresh is turned off while the scheduled spend reads its row again; a manual cause
    joins it before the answer. *)
Definition demo_joined : list cevent :=
  (demo_prime ++ [CObserve "a" ManualRefresh; CStep 2 (ARow (Some (demo_codex false))) 0;
                  CStep 1 (ARow (Some (demo_codex false))) 0; CStep 2 AUnit 0]).

(** a manual cause that joins while the last read of the row is under way does not
    authorise the request: it ends skipped with the scheduled one, and nothing was sent. *)
Theorem late_consent_skipped :
  ∃ s, crun demo_joined coord_init = Some s
  ∧ cx_tasks s !! 1 = Some ("a"%string, TSpend [ScheduledPrime; ManualRefresh] (SpEnd SpendSkipped))
  ∧ cx_tasks s !! 2 = Some ("a"%string, TObserve ManualRefresh (ObEnd SpendSkipped))
  ∧ cx_trace s = [].
Proof.
  exists (default coord_init (crun demo_joined coord_init)). split_and!; by vm_compute.
Qed.
