(* ===== verification/CreditApplier.v ===== *)
(** The automatic redemption of Codex reset credits:
    [packages/proxy/src/codex-reset-credit-applier.ts] with [banked-reset-alternative.ts] and
    the dispatcher [consumeCodexResetCreditForAccount] of [handlers/token-manager.ts].

    The scheduler's dependencies are a record of operations over an arbitrary world, each of
    which may throw; its code is a computation in a state monad with exceptions, which also
    keeps the trail of what it did. Log messages and the interval that calls [tick] are left
    out. *)

From S2P Require Import Prelude Rationals Accounts StableSort Strategy Usage CreditLedger CodexSpend.
Open Scope Z_scope.

Definition RESET_CREDIT_AUTO_APPLY_LEAD_MS : Z := 10 * 60 * 1000.
Definition RESET_CREDIT_AUTO_APPLY_TICK_MS : Z := 60000.
Definition RESET_CREDIT_WEEKLY_LIMIT_COOLDOWN_MS : Z := 60 * 60 * 1000.
Definition RESET_CREDIT_WEEKLY_LIMIT_MIN_GAIN_MS : Z := 12 * 60 * 60 * 1000.

(** * The decision *)

Inductive SkipReason : Type :=
  | AccountDisabled | ToggleDisabled | NotCodex | NeedsReauth | NoTokens | NoCreditNearExpiry
  | WeeklyNotExhausted | WeeklyResetUnknown | NaturalResetSoon | OtherAccountAvailable
  | PendingAttempt | SkipPaused | Cooldown | NoCreditAvailable | AlreadyResolved.
#[export] Instance SkipReason_eq_dec : EqDecision SkipReason.
Proof. solve_decision. Defined.

Inductive ApplyDecision : Type :=
  | Consume (creditId : string) (expiresAt : option Z) (cause : ApplyCause)
  | Skip (reason : SkipReason).

Definition weeklyResetCanLiftPause (a : Account) : bool :=
  if negb (acc_paused a) then true
  else acc_auto_pause_on_overage_enabled a
       && (bool_decide (acc_pause_reason a = None)
           || bool_decide (acc_pause_reason a = Some "overage"%string)).

Definition expiryEnabled (a : Account) : bool :=
  prof_codex_auto_apply_reset_credits_enabled (acc_profile a).
Definition weeklyEnabled (a : Account) : bool :=
  prof_codex_auto_apply_reset_on_weekly_limit_enabled (acc_profile a).
Definition has_refresh_token (a : Account) : bool :=
  bool_decide (is_Some (truthy_string (acc_refresh_token a))).

(** The comparator of the credits: no expiry is infinity, and two infinities are equal. *)
Definition sooner (x y : Credit) : bool :=
  match credit_expiresAt x, credit_expiresAt y with
  | Some e, Some e' => e <=? e'
  | Some _, None | None, None => true
  | None, Some _ => false
  end.

Definition unexpired (now : Z) (c : Credit) : bool :=
  match credit_expiresAt c with Some e => now <? e * 1000 | None => true end.

Definition available_credits (credits : option (list Credit)) (now : Z) : list Credit :=
  stable_sort sooner
    (List.filter (λ c, bool_decide (credit_status c = CsAvailable) && unexpired now c)
       (default [] credits)).

Definition near_expiry (now : Z) (c : Credit) : bool :=
  match credit_expiresAt c with
  | Some e => e * 1000 - now <=? RESET_CREDIT_AUTO_APPLY_LEAD_MS
  | None => false
  end.

(** The first credit the ledger has not settled *)
Definition survivor (settled : gset string) (l : list Credit) : option Credit :=
  List.find (λ c, bool_decide (credit_id c ∉ settled)) l.

Record DecisionInputs := {
  di_account : Account;
  di_credits : option (list Credit);
  di_terminal : gset string;
  di_weeklyUsedPercent : option Qc;
  di_weeklyResetsAt : option Z;
  di_cooldownAnchorAt : option Z;
  di_now : Z
}.

Definition consume_credit (cause : ApplyCause) (c : Credit) : ApplyDecision :=
  Consume (credit_id c) (credit_expiresAt c) cause.

Definition expiry_trigger (i : DecisionInputs) : ApplyDecision :=
  match List.filter (near_expiry (di_now i)) (available_credits (di_credits i) (di_now i)) with
  | [] => Skip NoCreditNearExpiry
  | near => from_option (consume_credit Expiry) (Skip AlreadyResolved) (survivor (di_terminal i) near)
  end.

Definition weekly_trigger (i : DecisionInputs) : ApplyDecision :=
  if negb (weeklyResetCanLiftPause (di_account i)) then Skip SkipPaused
  else if from_option (λ p : Qc, bool_decide (p < hundred)%Qc) true (di_weeklyUsedPercent i)
  then Skip WeeklyNotExhausted
  else
    match di_weeklyResetsAt i with
    | None => Skip WeeklyResetUnknown
    | Some resetsAt =>
        if resetsAt - di_now i <? RESET_CREDIT_WEEKLY_LIMIT_MIN_GAIN_MS then Skip NaturalResetSoon
        else if from_option (λ t, di_now i - t <? RESET_CREDIT_WEEKLY_LIMIT_COOLDOWN_MS) false
                  (di_cooldownAnchorAt i)
        then Skip Cooldown
        else
          match available_credits (di_credits i) (di_now i) with
          | [] => Skip NoCreditAvailable
          | l => from_option (consume_credit WeeklyLimit) (Skip AlreadyResolved)
                   (survivor (di_terminal i) l)
          end
    end.

(** The triggers that are enabled, expiry first, and the most informative reason to skip *)
Definition run_triggers (i : DecisionInputs) : ApplyDecision :=
  let a := di_account i in
  let expiry := if expiryEnabled a then Some (expiry_trigger i) else None in
  match expiry with
  | Some (Consume c e cause) => Consume c e cause
  | _ =>
      let weekly := if weeklyEnabled a then Some (weekly_trigger i) else None in
      match weekly with
      | Some (Consume c e cause) => Consume c e cause
      | _ =>
          match expiry, weekly with
          | Some (Skip r), Some w => if bool_decide (r = AlreadyResolved) then Skip r else w
          | Some e, _ => e
          | None, Some w => w
          | None, None => Skip ToggleDisabled
          end
      end
  end.

Definition decideResetCreditAction (i : DecisionInputs) : ApplyDecision :=
  let a := di_account i in
  if acc_disabled a then Skip AccountDisabled
  else if negb (expiryEnabled a) && negb (weeklyEnabled a) then Skip ToggleDisabled
  else if negb (bool_decide (acc_provider a = "codex"%string)) then Skip NotCodex
  else if bool_decide (acc_pause_reason a = Some PAUSE_REASON_NEEDS_REAUTH) then Skip NeedsReauth
  else if negb (has_refresh_token a) then Skip NoTokens
  else run_triggers i.

Record candidate := { cand_id : string; cand_name : string }.
Record WeeklyWindowReading := { usedPercent : option Qc; resetsAt : option Z }.

Record WeeklyProposal := {
  wp_candidate : candidate;
  wp_pending : option row;
  wp_weeklyResetsAt : Z;
  wp_creditExpiresAt : option Z
}.

Definition expiry_cmp (a b : option Z) : comparison :=
  match a, b with
  | None, None => Eq
  | None, Some _ => Gt
  | Some _, None => Lt
  | Some x, Some y => x ?= y
  end.
Definition compareWeeklyProposals (a b : WeeklyProposal) : comparison :=
  then_compare (wp_weeklyResetsAt b ?= wp_weeklyResetsAt a)
    (expiry_cmp (wp_creditExpiresAt a) (wp_creditExpiresAt b)).

(** * The scheduler *)

(** What the scheduler did, in order *)
Inductive trail : Type :=
  | ApPending (id : string) (r : option row)
  | ApRefresh (id : string) (force ok : bool)
  | ApDecided (id : string) (d : ApplyDecision)
  | ApReplay (id : string) (r : row)     (* the pending attempt may be sent again *)
  | ApClaim (i : ClaimInput) (c : option CodexResetCreditAutoClaim)
  | ApDispatch (id : string) (cause : ApplyCause) (rq : ConsumeRequest) (reused : bool)
  | ApOutcome (o : option DispatchOutcome)
  | ApWithdraw (rowId : string).

(** An operation of the environment: it may throw, and it may change the world. *)
Definition op (W A : Type) : Type := W → option A * W.

(** A computation over the world and a state of its own; [None] is an exception *)
Definition comp (W T A : Type) : Type := W * T → option A * (W * T).

#[export] Instance comp_ret {W T} : MRet (comp W T) := λ A x s, (Some x, s).
#[export] Instance comp_bind {W T} : MBind (comp W T) := λ A B f m s,
  match m s with
  | (Some x, s') => f x s'
  | (None, s') => (None, s')
  end.

Definition call {W T A} (o : op W A) : comp W T A := λ '(w, t), let '(r, w') := o w in (r, (w', t)).
Definition update {W T} (f : T → T) : comp W T unit := λ '(w, t), (Some tt, (w, f t)).
Definition read {W T A} (f : T → A) : comp W T A := λ '(w, t), (Some (f t), (w, t)).
Definition throw {W T A} : comp W T A := λ s, (None, s).
(** [try m catch h] *)
Definition catch {W T A} (m h : comp W T A) : comp W T A := λ s,
  match m s with
  | (Some x, s') => (Some x, s')
  | (None, s') => h s'
  end.
(** An awaited operation that has started whatever the fate of the others *)
Definition settle {W T A} (m : comp W T A) : comp W T (option A) := λ s,
  let '(r, s') := m s in (Some r, s').

Section Scheduler.
Context {W : Type}.
Abbreviation op := (op W).
Abbreviation M := (comp W (list trail)).

Record ApplyDeps := {
  listCandidateAccounts : op (list candidate);
  getAccount : string → op (option Account);
  getCachedCredits : string → op (option CreditsEntry);
  refreshCredits : string → bool → op bool;
  getPendingAttempt : string → op (option row);
  getTerminallyResolved : string → op (gset string);
  getWeeklyWindow : string → op WeeklyWindowReading;
  hasOtherAvailableCodexAccount : string → op bool;
  getAutoApplyCooldownAnchorAt : string → op (option Z);
  claimAttempt : ClaimInput → op (option CodexResetCreditAutoClaim);
  dispatchConsume : string → ConsumeRequest → op DispatchOutcome;
  withdrawPending : string → op bool;
  clock : op Z
}.

Definition note (e : trail) : M unit := update (λ tr, tr ++ [e]).

Context (deps : ApplyDeps).

Definition refresh (id : string) (force : bool) : M bool :=
  ok ← call (refreshCredits deps id force); note (ApRefresh id force ok);; mret ok.

Record evaluation := { ev_decision : ApplyDecision; ev_weeklyResetsAt : option Z }.

Definition decided (id : string) (d : ApplyDecision) (resetsAt : option Z) : M (option evaluation) :=
  note (ApDecided id d);; mret (Some {| ev_decision := d; ev_weeklyResetsAt := resetsAt |}).

(** The three reads of [Promise.all] *)
Definition read_inputs (id : string) : M (gset string * WeeklyWindowReading * option Z) :=
  terminal ← settle (call (getTerminallyResolved deps id));
  window ← settle (call (getWeeklyWindow deps id));
  anchor ← settle (call (getAutoApplyCooldownAnchorAt deps id));
  match terminal, window, anchor with
  | Some t, Some w, Some a => mret (t, w, a)
  | _, _, _ => throw
  end.

Definition without (replayed : option string) (c : CreditsEntry) : option (list Credit) :=
  List.filter (λ c, negb (bool_decide (Some (credit_id c) = replayed)))
    <$> sum_credits (ce_summary c).

Definition evaluate (id : string) (replayed : option string) : M (option evaluation) :=
  account ← call (getAccount deps id);
  match account with
  | None => mret None
  | Some a =>
      cached ← call (getCachedCredits deps id);
      '(terminal, window, anchor) ← read_inputs id;
      now ← call (clock deps);
      let d := decideResetCreditAction
        {| di_account := a; di_credits := cached ≫= without replayed; di_terminal := terminal;
           di_weeklyUsedPercent := usedPercent window; di_weeklyResetsAt := resetsAt window;
           di_cooldownAnchorAt := anchor; di_now := now |} in
      match d with
      | Consume _ _ WeeklyLimit =>
          if bool_decide (is_Some replayed) then decided id (Skip PendingAttempt) (resetsAt window)
          else
            other ← call (hasOtherAvailableCodexAccount deps id);
            if other : bool then decided id (Skip OtherAccountAvailable) (resetsAt window)
            else decided id d (resetsAt window)
      | _ => decided id d (resetsAt window)
      end
  end.

Definition withdrawUnsentClaim (claim : CodexResetCreditAutoClaim) : M bool :=
  catch (note (ApWithdraw (cl_id claim));; call (withdrawPending deps (cl_id claim))) (mret false).

Definition dispatchAttempt (id creditId : string) (cause : ApplyCause)
    (claim : CodexResetCreditAutoClaim) : M unit :=
  let rq := {| rq_idempotencyKey := cl_idempotencyKey claim; rq_creditId := Some creditId;
               rq_ledgerRowId := Some (cl_id claim) |} in
  note (ApDispatch id cause rq (cl_reused claim));;
  outcome ← settle (call (dispatchConsume deps id rq));
  note (ApOutcome outcome);;
  match outcome with
  | Some (DispatchFailed notSent) =>
      if notSent && negb (cl_reused claim) then withdrawUnsentClaim claim;; mret () else mret ()
  | _ => mret ()
  end.

Definition confirmAndDispatch (c : candidate) (pending : option row) (replayed : option string)
    : M bool :=
  let id := cand_id c in
  ok ← refresh id true;
  if negb ok then mret false
  else
    evaluated ← evaluate id replayed;
    match ev_decision <$> evaluated with
    | Some (Consume creditId expiresAt cause) =>
        if bool_decide (is_Some pending) && bool_decide (cause = WeeklyLimit) then mret false
        else
          now ← call (clock deps);
          let i := {| in_accountId := id; in_accountName := cand_name c; in_creditId := creditId;
                      in_creditExpiresAt := expiresAt; in_cause := cause; in_now := now |} in
          claim ← call (claimAttempt deps i);
          note (ApClaim i claim);;
          match claim with
          | None => mret false
          | Some claim => dispatchAttempt id creditId cause claim;; mret (bool_decide (cause = WeeklyLimit))
          end
    | _ => mret false
    end.

Inductive pass : Type := PassProposal (p : WeeklyProposal) | PassHeld | PassNull.

(** Whether the toggle and the pause of the account still allow the replay *)
Definition may_replay (cause : option ApplyCause) (a : Account) : bool :=
  match cause with
  | Some WeeklyLimit => weeklyEnabled a && weeklyResetCanLiftPause a
  | _ => expiryEnabled a
  end.

Definition reuse_pending (r : row) : CodexResetCreditAutoClaim :=
  {| cl_id := ev_id r; cl_idempotencyKey := ev_idempotency_key r;
     cl_attemptSeq := default 1 (ev_attempt_seq r); cl_reused := true |}.

(** What becomes of the pending attempt: nothing more to do for the account, or the credit
    left out of discovery and whether the weekly slot is held *)
Definition replay_pending (id : string) (pending : row) : M (option (option string * bool)) :=
  before ← call (getAccount deps id);
  if negb (from_option (λ a, negb (acc_disabled a)) false before) then mret None
  else
    reconciled ← refresh id true;
    account ← call (getAccount deps id);
    match account, truthy_string (ev_credit_id pending) with
    | Some a, Some creditId =>
        if acc_disabled a || negb (bool_decide (acc_provider a = "codex"%string))
           || negb (has_refresh_token a)
           || bool_decide (acc_pause_reason a = Some PAUSE_REASON_NEEDS_REAUTH)
        then mret None
        else if may_replay (ev_cause pending) a then
          note (ApReplay id pending);;
          (if reconciled : bool
           then dispatchAttempt id creditId (default Expiry (ev_cause pending)) (reuse_pending pending)
           else mret ());;
          mret (Some (Some creditId, bool_decide (ev_cause pending = Some WeeklyLimit)))
        else mret (Some (if reconciled then None else Some creditId, false))
    | _, _ => mret None
    end.

(** Discovery; an expiry is confirmed here, a weekly redemption is proposed. *)
Definition discover (c : candidate) (pending : option row) (replayed : option string) (held : pass)
    : M pass :=
  let id := cand_id c in
  _ ← refresh id false;
  evaluated ← evaluate id replayed;
  match evaluated with
  | None => mret held
  | Some e =>
      match ev_decision e, ev_weeklyResetsAt e with
      | Skip _, _ => mret held
      | Consume _ expiresAt WeeklyLimit, Some resetsAt =>
          mret (PassProposal {| wp_candidate := c; wp_pending := pending;
                                wp_weeklyResetsAt := resetsAt; wp_creditExpiresAt := expiresAt |})
      | Consume _ _ _, _ => confirmAndDispatch c pending replayed;; mret held
      end
  end.

Definition processAccount (c : candidate) : M pass :=
  let id := cand_id c in
  pending ← call (getPendingAttempt deps id);
  note (ApPending id pending);;
  replay ← match pending with
           | None => mret (Some (None, false))
           | Some r => replay_pending id r
           end;
  match replay with
  | None => mret PassNull
  | Some (replayed, weeklyHeld) =>
      let held := if weeklyHeld : bool then PassHeld else PassNull in
      catch (discover c pending replayed held) (mret held)
  end.

(** The account loop: the proposals, and whether the weekly slot is held *)
Fixpoint process_all (l : list candidate) : M (list WeeklyProposal * bool) :=
  match l with
  | [] => mret ([], false)
  | c :: l =>
      p ← catch (processAccount c) (mret PassNull);
      '(weekly, held) ← process_all l;
      mret match p with
           | PassProposal p => (p :: weekly, held)
           | PassHeld => (weekly, true)
           | PassNull => (weekly, held)
           end
  end.

(** The ranked proposals, until one is dispatched *)
Fixpoint confirm_first (l : list WeeklyProposal) : M unit :=
  match l with
  | [] => mret ()
  | p :: l =>
      done ← catch (confirmAndDispatch (wp_candidate p) (wp_pending p) None) (mret false);
      if done : bool then mret () else confirm_first l
  end.

Definition tick_body : M unit :=
  candidates ← settle (call (listCandidateAccounts deps));
  match candidates with
  | None => mret ()
  | Some candidates =>
      '(weekly, held) ← process_all candidates;
      if held : bool then mret ()
      else confirm_first (stable_sort (λ x y, not_gt (compareWeeklyProposals x y)) weekly)
  end.

(** A tick in the world [w]: the world after it and its trail *)
Definition tick (w : W) : W * list trail := (tick_body (w, [])).2.

End Scheduler.

(** * The wiring: [createCodexResetCreditApplyScheduler] *)

Definition cooldownRulesOutAlternative (a : Account) (now : Z) : bool :=
  bool_decide (acc_rate_limited_reason a = Some "org_permission_denied"%string)
  || (bool_decide (acc_rate_limited_reason a = Some "out_of_credits"%string)
      && from_option (λ u, now <? u) false (acc_rate_limited_until a)).

Definition reachable (a : Account) (now : Z) : bool :=
  bool_decide (acc_provider a = "codex"%string) && negb (acc_disabled a)
  && negb (cooldownRulesOutAlternative a now)
  && negb (bool_decide (acc_pause_reason a = Some PAUSE_REASON_NEEDS_REAUTH))
  && (has_refresh_token a
      || (bool_decide (is_Some (truthy_string (acc_access_token a)))
          && match toNumOrNull (acc_expires_at a) with Some e => now <? e | None => true end)).
Definition usable (a : Account) (now : Z) : bool := reachable a now && negb (acc_paused a).

Definition is_candidate (a : Account) : bool :=
  negb (acc_disabled a) && bool_decide (acc_provider a = "codex"%string)
  && (expiryEnabled a || weeklyEnabled a).

(** The weekly window of a cached reading; a reset that does not parse is unknown. *)
Definition weekly_window (data : option AnyUsageData) : WeeklyWindowReading :=
  let week := mjoin (seven_day (as_anthropic data)) in
  {| usedPercent := week ≫= utilization; resetsAt := week ≫= λ w, mjoin (resets_at w) |}.

(** What the signal says: known to serve, known not to, or unknown *)
Inductive capacity_state : Type := CapServes | CapExhausted | CapUnknown.
Definition capacity_of (data : option AnyUsageData) (now : Z) : capacity_state :=
  match getAccountCapacitySignal data "codex" now with
  | Some c => if bool_decide (0 < minHeadroom c)%Qc then CapServes else CapExhausted
  | None => CapUnknown
  end.

Section Pool.
Context {W : Type}.

Record PoolDeps := {
  allAccounts : op W (list Account);
  activePins : op W (list (option string));    (* [pinnedAccountId] of the active keys *)
  pendingOf : string → op W (option row);
  usageOf : string → op W (option AnyUsageData);
  readUsage : string → op W bool;
  accountOf : string → op W (option Account);
  poolClock : op W Z
}.

Context (deps : PoolDeps).

(** [usageRefreshAttempts] is the state. *)
Abbreviation P := (comp W (gmap string Z)).

(** An unresolved attempt matters while the account could serve once it is settled. *)
Definition unresolved (a : Account) : P (option row) :=
  if weeklyResetCanLiftPause a then call (pendingOf deps (acc_id a)) else mret None.

(** The first round: some account can serve or has an unresolved attempt ([None]), or these
    could not be told *)
Fixpoint scan_known (accountId : string) (now : Z) (l : list Account) : P (option (list Account)) :=
  match l with
  | [] => mret (Some [])
  | a :: l =>
      if bool_decide (acc_id a = accountId) || negb (reachable a now) then scan_known accountId now l
      else
        pending ← unresolved a;
        if bool_decide (is_Some pending) then mret None
        else if negb (usable a now) then scan_known accountId now l
        else
          data ← call (usageOf deps (acc_id a));
          match capacity_of data now with
          | CapServes => mret None
          | CapExhausted => scan_known accountId now l
          | CapUnknown => unknown ← scan_known accountId now l; mret (cons a <$> unknown)
          end
  end.

(** The free read of an account that could not be told, once per tick *)
Definition read_once (id : string) : P unit :=
  attempted ← read (λ m : gmap string Z, bool_decide (is_Some (m !! id)));
  if attempted : bool then mret ()
  else
    now ← call (poolClock deps);
    update (insert id now);;
    settle (call (readUsage deps id));;
    mret ().

(** The second round: usage still unknown counts as able to serve. *)
Fixpoint scan_unknown (l : list Account) : P bool :=
  match l with
  | [] => mret false
  | a :: l =>
      read_once (acc_id a);;
      current ← call (accountOf deps (acc_id a));
      match current with
      | Some c =>
          now ← call (poolClock deps);
          if negb (usable c now) then scan_unknown l
          else
            data ← call (usageOf deps (acc_id a));
            now ← call (poolClock deps);
            match capacity_of data now with
            | CapExhausted => scan_unknown l
            | _ => mret true
            end
      | None => scan_unknown l
      end
  end.

Definition forget_attempts (now : Z) (m : gmap string Z) : gmap string Z :=
  filter (λ p, now - p.2 < RESET_CREDIT_AUTO_APPLY_TICK_MS) m.

Definition hasOther (accountId : string) : P bool :=
  accounts ← settle (call (allAccounts deps));
  pins ← settle (call (activePins deps));
  match accounts, pins with
  | Some accounts, Some pins =>
      if bool_decide (Some accountId ∈ pins) then mret false
      else
        now ← call (poolClock deps);
        update (forget_attempts now);;
        unknown ← scan_known accountId now accounts;
        match unknown with
        | None => mret true
        | Some unknown => scan_unknown unknown
        end
  | _, _ => throw
  end.
End Pool.

(** * The dispatcher: [consumeCodexResetCreditForAccount] *)

(** Each registered server in order, until one completes; a consumer that throws failed. With
    the number of consumers that were called. *)
Fixpoint try_consumers (last : option DispatchOutcome) (l : list (option DispatchOutcome))
    : DispatchOutcome * nat :=
  match l with
  | [] => (default (DispatchFailed false) last, O)
  | Some (Completed r m c) :: _ => (Completed r m c, 1%nat)
  | o :: l => let '(r, n) := try_consumers (Some (default (DispatchFailed false) o)) l in (r, S n)
  end.

Inductive dispatch_start : Type :=
  | Joined                                (* the attempt in flight has the same key *)
  | Refused                               (* another key is in flight *)
  | Started (o : DispatchOutcome) (calls : nat).

Definition consumeCodexResetCreditForAccount (inflight : gmap string string) (accountId : string)
    (rq : ConsumeRequest) (consumers : list (option DispatchOutcome)) : dispatch_start :=
  match inflight !! accountId with
  | Some key => if bool_decide (key = rq_idempotencyKey rq) then Joined else Refused
  | None =>
      match consumers with
      | [] => Started (DispatchFailed true) 0
      | _ => let '(o, n) := try_consumers None consumers in Started o n
      end
  end.

(** What the caller that did not join is given *)
Definition start_outcome (d : dispatch_start) : option DispatchOutcome :=
  match d with
  | Joined => None
  | Refused => Some (DispatchFailed true)
  | Started o _ => Some o
  end.

(** * The decision: correctness *)

Lemma sooner_total : TotalPreorder sooner.
Proof.
  split; unfold sooner; intros; repeat case_match; try done; try (by left); try (by right); lia.
Qed.

(** A credit either trigger may act on *)
Definition eligible (i : DecisionInputs) (c : Credit) : Prop :=
  c ∈ default [] (di_credits i) ∧ credit_status c = CsAvailable ∧ unexpired (di_now i) c = true.

Lemma elem_of_available i c :
  c ∈ available_credits (di_credits i) (di_now i) ↔ eligible i c.
Proof.
  unfold available_credits, eligible. rewrite elem_of_stable_sort, elem_of_lfilter.
  rewrite andb_true_iff, bool_decide_eq_true. tauto.
Qed.

Lemma find_first {A} (f : A → bool) (R : A → A → Prop) (l : list A) x :
  StronglySorted R l → List.find f l = Some x →
  x ∈ l ∧ f x = true ∧ ∀ y, y ∈ l → f y = true → y = x ∨ R x y.
Proof.
  induction 1 as [|z l Hl IH Hz]; cbn; [done|]. destruct (f z) eqn:Hf.
  - intros [= ->]. split_and!; [left|done|]. intros y [->|Hy]%elem_of_cons Hfy; [by left|right].
    rewrite Forall_forall in Hz. by apply Hz.
  - intros (Hx & Hfx & Hall)%IH. split_and!; [by right|done|].
    intros y [->|Hy]%elem_of_cons Hfy; [congruence|by apply Hall].
Qed.

(** The account may be acted on at all. *)
Definition may_act (a : Account) : Prop :=
  acc_disabled a = false ∧ acc_provider a = "codex"%string
  ∧ acc_pause_reason a ≠ Some PAUSE_REASON_NEEDS_REAUTH ∧ has_refresh_token a = true.

Definition unsettled (i : DecisionInputs) (c : Credit) : Prop :=
  eligible i c ∧ credit_id c ∉ di_terminal i.

(** No credit still open expires before this one. *)
Definition soonest (i : DecisionInputs) (c : Credit) : Prop :=
  unsettled i c ∧ ∀ c', unsettled i c' → sooner c c' = true.

Definition expiry_due (i : DecisionInputs) : Prop :=
  expiryEnabled (di_account i) = true ∧ ∃ c, unsettled i c ∧ near_expiry (di_now i) c = true.

(** The week is known to be spent, its natural reset known to be far, the cooldown over. *)
Definition weekly_due (i : DecisionInputs) : Prop :=
  weeklyEnabled (di_account i) = true ∧ weeklyResetCanLiftPause (di_account i) = true
  ∧ (∃ p, di_weeklyUsedPercent i = Some p ∧ (hundred <= p)%Qc)
  ∧ (∃ r, di_weeklyResetsAt i = Some r ∧ di_now i + RESET_CREDIT_WEEKLY_LIMIT_MIN_GAIN_MS <= r)
  ∧ (∀ t, di_cooldownAnchorAt i = Some t → t + RESET_CREDIT_WEEKLY_LIMIT_COOLDOWN_MS <= di_now i)
  ∧ ∃ c, unsettled i c.


Lemma lfilter_sorted {A} (R : A → A → Prop) (f : A → bool) (l : list A) :
  StronglySorted R l → StronglySorted R (List.filter f l).
Proof.
  induction 1 as [|x l Hl IH Hx]; cbn; [constructor|]. destruct (f x); [|done]. constructor; [done|].
  rewrite Forall_forall in *. intros y [_ Hy]%elem_of_lfilter. by apply Hx.
Qed.

(** The survivor of the credits a trigger looks at, when the others expire later *)
Lemma survivor_spec i (f : Credit → bool) (l : list Credit) :
  StronglySorted (λ x y, sooner x y = true) l → (∀ c, c ∈ l ↔ eligible i c ∧ f c = true) →
  (∀ c c', f c = true → f c' = false → sooner c c' = true) →
  match survivor (di_terminal i) l with
  | Some c => soonest i c ∧ f c = true
  | None => ∀ c, unsettled i c → f c = false
  end.
Proof.
  intros Hs Hl Hf. unfold survivor. destruct (List.find _ _) as [c|] eqn:Hfind.
  - eapply find_first in Hfind as (Hc & Hset & Hfirst); [|done]. prop_bools.
    apply Hl in Hc as [Hc Hfc]. split; [|done]. split; [done|]. intros c' [Hc' Hset'].
    destruct (f c') eqn:Hfc'; [|by apply Hf].
    destruct (Hfirst c') as [->|]; [by apply Hl|by apply bool_decide_eq_true| |done].
    unfold sooner. case_match; [lia|done].
  - intros c [He Hns]. destruct (f c) eqn:Hfc; [|done].
    eapply find_none in Hfind; [|apply list_elem_of_In, Hl; done].
    by apply bool_decide_eq_false in Hfind.
Qed.

Lemma available_sorted i :
  StronglySorted (λ x y, sooner x y = true) (available_credits (di_credits i) (di_now i)).
Proof. apply stable_sort_sorted, sooner_total. Qed.

Lemma expiry_trigger_spec i :
  match expiry_trigger i with
  | Consume c e cause => ∃ cr, soonest i cr ∧ near_expiry (di_now i) cr = true
                         ∧ Consume c e cause = consume_credit Expiry cr
  | Skip _ => ∀ c, unsettled i c → near_expiry (di_now i) c = false
  end.
Proof.
  assert (Hspec := survivor_spec i (near_expiry (di_now i))
    (List.filter (near_expiry (di_now i)) (available_credits (di_credits i) (di_now i)))).
  unfold expiry_trigger. set (l := List.filter _ _) in *.
  assert (H : match survivor (di_terminal i) l with
              | Some c => soonest i c ∧ near_expiry (di_now i) c = true
              | None => ∀ c, unsettled i c → near_expiry (di_now i) c = false
              end).
  { apply Hspec; clear Hspec.
    - apply lfilter_sorted, available_sorted.
    - intros c. unfold l. rewrite elem_of_lfilter, elem_of_available. tauto.
    - unfold near_expiry, sooner. intros c c'. repeat case_match; lia || done. }
  destruct l as [|c l']; [exact H|]. destruct (survivor _ _) as [c'|]; [|exact H].
  exists c'. tauto.
Qed.

Lemma weekly_trigger_spec i :
  weeklyEnabled (di_account i) = true →
  match weekly_trigger i with
  | Consume c e cause => weekly_due i ∧ ∃ cr, soonest i cr
                         ∧ Consume c e cause = consume_credit WeeklyLimit cr
  | Skip _ => ¬ weekly_due i
  end.
Proof.
  intros Hen. unfold weekly_trigger.
  destruct (weeklyResetCanLiftPause _) eqn:Hlift; cbn [negb]; [|intros (_ & ? & _); congruence].
  destruct (di_weeklyUsedPercent i) as [p|] eqn:Hpct; cbn [from_option];
    [|intros (_ & _ & (p & ? & _) & _); congruence].
  case_bool_decide as Hp.
  { intros (_ & _ & (p' & Hp' & Hle) & _). simplify_eq. by apply Qcle_not_lt in Hle. }
  apply Qcnot_lt_le in Hp.
  destruct (di_weeklyResetsAt i) as [r|] eqn:Hres;
    [|intros (_ & _ & _ & (r & ? & _) & _); congruence].
  destruct (r - di_now i <? _) eqn:Hr.
  { intros (_ & _ & _ & (r' & Hr' & Hle) & _). simplify_eq. lia. }
  destruct (from_option _ _ (di_cooldownAnchorAt i)) eqn:Ha.
  { intros (_ & _ & _ & _ & Ht & _). destruct (di_cooldownAnchorAt i) as [t|]; cbn in Ha; [|done].
    specialize (Ht t eq_refl). lia. }
  assert (Hspec := survivor_spec i (λ _, true) (available_credits (di_credits i) (di_now i))
    (available_sorted i)).
  assert (H : match survivor (di_terminal i) (available_credits (di_credits i) (di_now i)) with
              | Some c => soonest i c ∧ true = true
              | None => ∀ c, unsettled i c → true = false
              end) by (apply Hspec; [intros c; rewrite elem_of_available; tauto|done]).
  assert (Hdue : ∀ c, soonest i c → weekly_due i).
  { intros c [Hc _]. split_and!; eauto.
    - exists r. split; [done|lia].
    - intros t Ht. rewrite Ht in Ha. cbn in Ha. lia. }
  assert (Hnone : (∀ c, unsettled i c → true = false) → ¬ weekly_due i).
  { intros Hn (_ & _ & _ & _ & _ & c & Hc). by apply Hn in Hc. }
  clear Hspec. destruct (available_credits _ _) as [|c0 l']; [by apply Hnone|].
  destruct (survivor _ _) as [c'|]; [|by apply Hnone]. split; [by eapply Hdue, H|]. exists c'. tauto.
Qed.


Lemma decide_gate i :
  (may_act (di_account i)
   ∧ (decideResetCreditAction i = run_triggers i
      ∨ expiryEnabled (di_account i) = false ∧ weeklyEnabled (di_account i) = false
        ∧ decideResetCreditAction i = Skip ToggleDisabled))
  ∨ (¬ may_act (di_account i) ∧ ∃ r, decideResetCreditAction i = Skip r).
Proof.
  unfold decideResetCreditAction, may_act. set (a := di_account i).
  destruct (acc_disabled a); [right; naive_solver|].
  destruct (bool_decide (acc_provider a = "codex"%string)) eqn:Hp; prop_bools;
    [|right; split; [naive_solver|destruct (_ && _); eauto]].
  destruct (bool_decide (acc_pause_reason a = _)) eqn:Hr; prop_bools;
    [right; split; [naive_solver|destruct (_ && _); eauto]|].
  destruct (has_refresh_token a); [left|right; split; [naive_solver|destruct (_ && _); eauto]].
  split; [done|]. destruct (expiryEnabled a), (weeklyEnabled a); auto.
Qed.

(** C33: the decision redeems the soonest-expiring open credit, for expiry when one is about to
    lapse, else for the week when the week is known to be spent, its natural reset far and the
    cooldown over; in every other case, an unknown reading included, it redeems nothing. *)
Theorem decision_correct i :
  (may_act (di_account i) → expiry_due i →
     ∃ c, soonest i c ∧ near_expiry (di_now i) c = true
          ∧ decideResetCreditAction i = consume_credit Expiry c)
  ∧ (may_act (di_account i) → ¬ expiry_due i → weekly_due i →
     ∃ c, soonest i c ∧ decideResetCreditAction i = consume_credit WeeklyLimit c)
  ∧ (¬ may_act (di_account i) ∨ (¬ expiry_due i ∧ ¬ weekly_due i) →
     ∃ r, decideResetCreditAction i = Skip r).
Proof.
  assert (He := expiry_trigger_spec i). assert (Hw := weekly_trigger_spec i).
  assert (Hexp : expiryEnabled (di_account i) = true → ¬ expiry_due i → ∃ r, expiry_trigger i = Skip r).
  { intros Hen Hno. destruct (expiry_trigger i) as [c e cause|r]; [|eauto]. destruct Hno. split; [done|].
    destruct He as (cr & [Hc _] & Hn & _). eauto. }
  destruct (decide_gate i) as [[Hact [->|(H1 & H2 & ->)]]|[Hno [r ->]]].
  - unfold run_triggers. split_and!.
    + intros _ [-> (c & Hc & Hn)]. destruct (expiry_trigger i) as [c' e cause|r];
        [|rewrite He in Hn by done; done].
      destruct He as (cr & Hs & Hn' & ->). eauto.
    + intros _ Hno Hdue. assert (Hen : weeklyEnabled (di_account i) = true) by apply Hdue.
      specialize (Hw Hen). rewrite Hen.
      assert (∃ c, soonest i c ∧ weekly_trigger i = consume_credit WeeklyLimit c) as (c & Hc & Heq).
      { destruct (weekly_trigger i) as [c' e cause|r]; [|done]. destruct Hw as [_ (cr & Hs & ->)]. eauto. }
      exists c. split; [done|]. rewrite Heq.
      destruct (expiryEnabled _) eqn:Hee; [|done]. by destruct (Hexp eq_refl Hno) as [r ->].
    + intros [?|[Hno Hnw]]; [done|].
      destruct (weeklyEnabled _) eqn:Hen;
        [specialize (Hw eq_refl); destruct (weekly_trigger i) as [|rw]; [tauto|]|];
        (destruct (expiryEnabled _) eqn:Hee; [destruct (Hexp eq_refl Hno) as [r ->]|]);
        try case_bool_decide; eauto.
  - split_and!; [intros _ [He' _]; congruence|intros _ _ [Hw' _]; congruence|eauto].
  - split_and!; [done|done|eauto].
Qed.

Lemma weekly_needs_reset i c e :
  decideResetCreditAction i = Consume c e WeeklyLimit → is_Some (di_weeklyResetsAt i).
Proof.
  assert (He := expiry_trigger_spec i). assert (Hw := weekly_trigger_spec i).
  destruct (decide_gate i) as [[_ [->|(_ & _ & ->)]]|[_ [r ->]]]; [|done..].
  unfold run_triggers. intros Hd.
  assert (weeklyEnabled (di_account i) = true ∧ weekly_trigger i = Consume c e WeeklyLimit) as [Hen Heq].
  { destruct (weeklyEnabled _); destruct (expiryEnabled _);
      destruct (expiry_trigger i) as [c' e' cause'|r] eqn:Hexp; try done;
      try (destruct He as (cr & _ & _ & Heq); unfold consume_credit in Heq; simplify_eq; done);
      destruct (weekly_trigger i) as [cw ew causew|rw]; simplify_eq; try done;
      try (by case_bool_decide). }
  specialize (Hw Hen). rewrite Heq in Hw. destruct Hw as [(_ & _ & _ & (r & Hr & _) & _) _].
  by rewrite Hr.
Qed.

(** * What a computation leaves on the trail *)

(** What backs an entry of the trail by what comes before it: a request leaves right after a
    forced read that succeeded and a claim that was granted for what was decided on it, or to
    replay the pending row; a row is withdrawn right after its fresh request was not sent. *)
Definition request_of (creditId : string) (claim : CodexResetCreditAutoClaim) : ConsumeRequest :=
  {| rq_idempotencyKey := cl_idempotencyKey claim; rq_creditId := Some creditId;
     rq_ledgerRowId := Some (cl_id claim) |}.

Definition backed (pre : list trail) (e : trail) : Prop :=
  match e with
  | ApDispatch id cause rq reused =>
      (∃ pre' creditId expiresAt i claim,
         pre = pre' ++ [ApRefresh id true true; ApDecided id (Consume creditId expiresAt cause);
                        ApClaim i (Some claim)]
         ∧ in_accountId i = id ∧ in_creditId i = creditId ∧ in_cause i = cause
         ∧ rq = request_of creditId claim ∧ reused = cl_reused claim)
      ∨ (∃ pre' r creditId,
           pre = pre' ++ [ApPending id (Some r); ApRefresh id true true; ApReplay id r]
           ∧ ev_credit_id r = Some creditId ∧ cause = default Expiry (ev_cause r)
           ∧ rq = request_of creditId (reuse_pending r) ∧ reused = true)
  | ApWithdraw rowId =>
      ∃ pre' id cause rq, pre = pre' ++ [ApDispatch id cause rq false;
                                         ApOutcome (Some (DispatchFailed true))]
      ∧ rq_ledgerRowId rq = Some rowId
  | _ => True
  end.

Fixpoint backed_from (pre seg : list trail) : Prop :=
  match seg with
  | [] => True
  | e :: seg => backed pre e ∧ backed_from (pre ++ [e]) seg
  end.

Lemma backed_left l pre e : backed pre e → backed (l ++ pre) e.
Proof.
  destruct e; cbn; try done.
  - intros [(pre' & c & x & i & cl & -> & H)|(pre' & r & c & -> & H)]; [left|right].
    + exists (l ++ pre'), c, x, i, cl. by rewrite <- app_assoc.
    + exists (l ++ pre'), r, c. by rewrite <- app_assoc.
  - intros (pre' & id & cause & rq & -> & H). exists (l ++ pre'), id, cause, rq.
    by rewrite <- app_assoc.
Qed.

Lemma backed_from_left l pre seg : backed_from pre seg → backed_from (l ++ pre) seg.
Proof.
  revert pre. induction seg as [|e seg IH]; intros pre; cbn; [done|].
  intros [H1 H2]. split; [by apply backed_left|]. rewrite <- app_assoc. by apply IH.
Qed.

Lemma backed_from_app pre s1 s2 :
  backed_from pre s1 → backed_from (pre ++ s1) s2 → backed_from pre (s1 ++ s2).
Proof.
  revert pre. induction s1 as [|e s1 IH]; intros pre; cbn; [by rewrite app_nil_r|].
  intros [H1 H2] H3. split; [done|]. apply IH; [done|]. by rewrite <- app_assoc.
Qed.

(** Segments that are backed by themselves compose. *)
Lemma backed_seq s1 s2 : backed_from [] s1 → backed_from [] s2 → backed_from [] (s1 ++ s2).
Proof.
  intros H1 H2. apply backed_from_app; [done|]. cbn.
  rewrite <- (app_nil_r s1). by apply backed_from_left.
Qed.

Lemma backed_split pre0 seg pre e post :
  backed_from pre0 seg → seg = pre ++ e :: post → backed (pre0 ++ pre) e.
Proof.
  revert pre0 pre. induction seg as [|e' seg IH]; intros pre0 pre; cbn.
  { intros _ H. by destruct pre. }
  intros [H1 H2] Heq. destruct pre as [|x pre]; cbn in Heq; simplify_eq.
  - by rewrite app_nil_r.
  - replace (pre0 ++ x :: pre) with ((pre0 ++ [x]) ++ pre) by by rewrite <- app_assoc.
    by apply IH.
Qed.

(** A weekly claim that was granted *)
Definition weekly_claim (e : trail) : bool :=
  match e with ApClaim i (Some _) => bool_decide (in_cause i = WeeklyLimit) | _ => false end.
(** A decision to redeem for expiry *)
Definition expiry_decision (e : trail) : bool :=
  match e with ApDecided _ (Consume _ _ Expiry) => true | _ => false end.
(** A pending weekly attempt that may be replayed *)
Definition weekly_replay (e : trail) : bool :=
  match e with ApReplay _ r => bool_decide (ev_cause r = Some WeeklyLimit) | _ => false end.

Definition count (f : trail → bool) (l : list trail) : nat := length (List.filter f l).

Lemma count_app f l1 l2 : count f (l1 ++ l2) = (count f l1 + count f l2)%nat.
Proof. unfold count. by rewrite List.filter_app, length_app. Qed.

Section Trails.
Context {W : Type}.
Abbreviation M := (comp W (list trail)).

(** Whatever the world, [m] appends a segment that [Q] allows with its result. *)
Definition emits {A} (m : M A) (Q : option A → list trail → Prop) : Prop :=
  ∀ w tr, ∃ seg, (m (w, tr)).2.2 = tr ++ seg ∧ Q (m (w, tr)).1 seg.

Lemma emits_mono {A} (m : M A) (Q R : option A → list trail → Prop) :
  emits m R → (∀ r seg, R r seg → Q r seg) → emits m Q.
Proof. intros Hm HQ w tr. destruct (Hm w tr) as (seg & H1 & H2). eauto. Qed.

Lemma emits_ret {A} (x : A) Q : Q (Some x) [] → emits (mret x : M A) Q.
Proof. intros HQ w tr. exists []. by rewrite app_nil_r. Qed.

Lemma emits_throw {A} Q : Q None [] → emits (throw : M A) Q.
Proof. intros HQ w tr. exists []. by rewrite app_nil_r. Qed.

Lemma emits_call {A} (o : op W A) Q : (∀ r, Q r []) → emits (call o : M A) Q.
Proof.
  intros HQ w tr. exists []. unfold call. rewrite app_nil_r. by destruct (o w).
Qed.

Lemma emits_note e Q : Q (Some tt) [e] → emits (note e : M unit) Q.
Proof. intros HQ w tr. by exists [e]. Qed.

Lemma emits_settle {A} (m : M A) Q : emits m (λ r, Q (Some r)) → emits (settle m) Q.
Proof.
  intros Hm w tr. destruct (Hm w tr) as (seg & H1 & H2). exists seg. unfold settle.
  by destruct (m (w, tr)) as [r [w' tr']].
Qed.

Lemma emits_bind {A B} (m : M A) (f : A → M B) R Q :
  emits m R → (∀ seg, R None seg → Q None seg) →
  (∀ x seg, R (Some x) seg → emits (f x) (λ r seg', Q r (seg ++ seg'))) → emits (m ≫= f) Q.
Proof.
  intros Hm Hnone Hf w tr. destruct (Hm w tr) as (seg & H1 & H2).
  unfold mbind, comp_bind. destruct (m (w, tr)) as [[x|] [w' tr']]; cbn in *; subst.
  - destruct (Hf x seg H2 w' (tr ++ seg)) as (seg' & H3 & H4). exists (seg ++ seg').
    by rewrite H3, app_assoc.
  - eauto.
Qed.

Lemma emits_catch {A} (m h : M A) R Q :
  emits m R → (∀ x seg, R (Some x) seg → Q (Some x) seg) →
  (∀ seg, R None seg → emits h (λ r seg', Q r (seg ++ seg'))) → emits (catch m h) Q.
Proof.
  intros Hm Hsome Hh w tr. destruct (Hm w tr) as (seg & H1 & H2).
  unfold catch. destruct (m (w, tr)) as [[x|] [w' tr']]; cbn in *; subst.
  - eauto.
  - destruct (Hh seg H2 w' (tr ++ seg)) as (seg' & H3 & H4). exists (seg ++ seg').
    by rewrite H3, app_assoc.
Qed.

(** A call of the environment leaves nothing itself. *)
Lemma emits_call_bind {A B} (o : op W A) (f : A → M B) Q :
  Q None [] → (∀ x, emits (f x) Q) → emits (call o ≫= f) Q.
Proof.
  intros Hn Hf. eapply emits_bind; [apply (emits_call _ (λ _ seg, seg = [])); done|by intros ? ->|].
  intros x seg ->. apply Hf.
Qed.

Lemma emits_note_bind {B} e (f : unit → M B) Q :
  emits (f tt) (λ r seg, Q r (e :: seg)) → emits (note e ≫= f) Q.
Proof.
  intros Hf. eapply emits_bind; [apply (emits_note _ (λ r seg, r = Some tt ∧ seg = [e])); done| |].
  - by intros ? [? _].
  - by intros [] seg [_ ->].
Qed.

Lemma emits_settle_bind {A B} (o : op W A) (f : option A → M B) Q :
  (∀ x, emits (f x) Q) → emits (settle (call o) ≫= f) Q.
Proof.
  intros Hf w tr. unfold mbind, comp_bind, settle, call. destruct (o w) as [r w']. apply Hf.
Qed.

Context (deps : ApplyDeps (W := W)).

Lemma refresh_emits id force :
  emits (refresh deps id force) (λ r seg,
    seg = match r with Some ok => [ApRefresh id force ok] | None => [] end).
Proof.
  unfold refresh. apply emits_call_bind; [done|]. intros ok. apply emits_note_bind.
  by apply emits_ret.
Qed.

(** An evaluation leaves its decision; a weekly one knows the natural reset and follows no
    replay. *)
Definition evaluated (id : string) (replayed : option string) (r : option (option evaluation))
    (seg : list trail) : Prop :=
  match r with
  | Some (Some e) =>
      seg = [ApDecided id (ev_decision e)]
      ∧ match ev_decision e with
        | Consume _ _ WeeklyLimit => is_Some (ev_weeklyResetsAt e) ∧ replayed = None
        | _ => True
        end
  | _ => seg = []
  end.

Lemma decided_emits id replayed d resetsAt :
  match d with Consume _ _ WeeklyLimit => is_Some resetsAt ∧ replayed = None | _ => True end →
  emits (decided id d resetsAt : M _) (evaluated id replayed).
Proof. intros Hd. unfold decided. apply emits_note_bind. by apply emits_ret. Qed.

Lemma evaluate_emits id replayed : emits (evaluate deps id replayed) (evaluated id replayed).
Proof.
  unfold evaluate, read_inputs. apply emits_call_bind; [done|]. intros [a|]; [|by apply emits_ret].
  apply emits_call_bind; [done|]. intros cached.
  eapply (emits_bind _ _ (λ _ seg, seg = [])); [|by intros ? ->|].
  - repeat (apply emits_settle_bind; intros ?). repeat case_match; by (apply emits_ret || apply emits_throw).
  - intros [[terminal window] anchor] seg ->. apply emits_call_bind; [done|]. intros now. cbn zeta.
    destruct (decideResetCreditAction _) as [c e []|r] eqn:Hd; try by apply decided_emits.
    apply weekly_needs_reset in Hd. cbn in Hd.
    case_bool_decide as Hr; [by apply decided_emits|]. apply emits_call_bind; [done|].
    assert (replayed = None) by (destruct replayed; [by destruct Hr|done]).
    intros []; by apply decided_emits.
Qed.

(** The environment says that nothing was sent. *)
Definition unsent (o : option DispatchOutcome) : bool :=
  match o with Some (DispatchFailed true) => true | _ => false end.

(** A dispatch never throws; an unsent fresh claim is withdrawn. *)
Definition dispatched (id creditId : string) (cause : ApplyCause) (claim : CodexResetCreditAutoClaim)
    (seg : list trail) : Prop :=
  ∃ o, seg = [ApDispatch id cause (request_of creditId claim) (cl_reused claim); ApOutcome o]
             ++ (if unsent o && negb (cl_reused claim) then [ApWithdraw (cl_id claim)] else []).

Lemma withdraw_emits claim :
  emits (withdrawUnsentClaim deps claim)
    (λ r seg, is_Some r ∧ seg = [ApWithdraw (cl_id claim)]).
Proof.
  unfold withdrawUnsentClaim.
  eapply (emits_catch _ _ (λ r seg, seg = [ApWithdraw (cl_id claim)])); [|by eauto|].
  - apply emits_note_bind. by apply emits_call.
  - intros seg ->. apply emits_ret. by rewrite app_nil_r.
Qed.

Lemma dispatch_emits id creditId cause claim :
  emits (dispatchAttempt deps id creditId cause claim)
    (λ r seg, r = Some tt ∧ dispatched id creditId cause claim seg).
Proof.
  unfold dispatchAttempt. cbn zeta. apply emits_note_bind, emits_settle_bind. intros o.
  apply emits_note_bind. unfold dispatched.
  assert (Hsent : unsent o = false → emits (mret () : M unit) (λ r seg, r = Some tt ∧ ∃ o',
    [ApDispatch id cause (request_of creditId claim) (cl_reused claim); ApOutcome o] ++ seg
    = [ApDispatch id cause (request_of creditId claim) (cl_reused claim); ApOutcome o']
      ++ (if unsent o' && negb (cl_reused claim) then [ApWithdraw (cl_id claim)] else []))).
  { intros Ho. apply emits_ret. split; [done|]. exists o. by rewrite Ho. }
  destruct o as [[r m c|[]]|]; try by apply Hsent. clear Hsent. cbn [andb].
  destruct (negb (cl_reused claim)) eqn:Hn.
  - eapply emits_bind; [apply withdraw_emits|by intros ? [[] _]|].
    intros x seg [_ ->]. apply emits_ret. split; [done|]. exists (Some (DispatchFailed true)).
    done.
  - apply emits_ret. split; [done|]. by exists (Some (DispatchFailed true)).
Qed.

(** A confirmation: what it read and decided, and the dispatch if a claim was granted *)
Inductive confirmed (c : candidate) (pending : option row) : option bool → list trail → Prop :=
  | cf_none r seg :
      r ≠ Some true →
      (seg = [] ∨ (∃ ok, seg = [ApRefresh (cand_id c) true ok])
       ∨ (∃ ok d, seg = [ApRefresh (cand_id c) true ok; ApDecided (cand_id c) d])
       ∨ (∃ ok d i, seg = [ApRefresh (cand_id c) true ok; ApDecided (cand_id c) d; ApClaim i None])) →
      confirmed c pending r seg
  | cf_dispatched creditId expiresAt cause now claim seg :
      pending = None ∨ cause = Expiry →
      dispatched (cand_id c) creditId cause claim seg →
      confirmed c pending (Some (bool_decide (cause = WeeklyLimit)))
        ([ApRefresh (cand_id c) true true; ApDecided (cand_id c) (Consume creditId expiresAt cause);
          ApClaim {| in_accountId := cand_id c; in_accountName := cand_name c;
                     in_creditId := creditId; in_creditExpiresAt := expiresAt; in_cause := cause;
                     in_now := now |} (Some claim)] ++ seg).

Lemma confirm_emits c pending replayed :
  emits (confirmAndDispatch deps c pending replayed) (confirmed c pending).
Proof.
  unfold confirmAndDispatch. cbn zeta.
  eapply emits_bind; [apply refresh_emits|intros ? ->; by apply cf_none; auto|].
  intros ok seg ->. destruct (negb ok) eqn:Hok; [apply emits_ret, cf_none; eauto|].
  destruct ok; [|done].
  eapply emits_bind; [apply evaluate_emits|cbn; intros ? ->; apply cf_none; eauto|].
  intros x seg Hseg. destruct x as [e|]; cbn in Hseg |- *; [destruct Hseg as [Hseg _]|]; subst seg;
    [|apply emits_ret, cf_none; eauto].
  destruct (ev_decision e) as [creditId expiresAt cause|r];
    [|apply emits_ret, cf_none; eauto 6].
  destruct (bool_decide (is_Some pending) && bool_decide (cause = WeeklyLimit)) eqn:Hg;
    [apply emits_ret, cf_none; eauto 6|].
  apply emits_call_bind; [apply cf_none; eauto 6|]. intros now.
  apply emits_call_bind; [apply cf_none; eauto 6|]. intros claim. apply emits_note_bind.
  destruct claim as [claim|]; [|apply emits_ret, cf_none; eauto 10].
  eapply emits_bind; [apply dispatch_emits|by intros ? [? _]|].
  intros [] seg [_ Hd]. apply emits_ret. rewrite app_nil_r.
  apply (cf_dispatched c pending creditId expiresAt cause now claim seg); [|done].
  destruct pending; [right; by destruct cause|by left].
Qed.

Lemma dispatched_backed id creditId cause claim seg pre :
  backed pre (ApDispatch id cause (request_of creditId claim) (cl_reused claim)) →
  dispatched id creditId cause claim seg → backed_from pre seg.
Proof.
  intros Hpre (o & ->). cbn. split_and!; [done|done|].
  destruct (unsent o && negb (cl_reused claim)) eqn:Hu; cbn; [|done]. split; [|done].
  apply andb_true_iff in Hu as [Ho Hr]. destruct o as [[|[]]|]; try done.
  destruct (cl_reused claim) eqn:Hcl; [done|].
  exists pre, id, cause, (request_of creditId claim). by rewrite <- app_assoc.
Qed.

Lemma dispatched_counts id creditId cause claim seg :
  dispatched id creditId cause claim seg →
  count weekly_claim seg = 0%nat ∧ count expiry_decision seg = 0%nat ∧ count weekly_replay seg = 0%nat.
Proof. intros (o & ->). by destruct (_ && _). Qed.

(** A confirmation claims for the week at most once, and says so. *)
Lemma confirmed_spec c pending r seg :
  confirmed c pending r seg →
  backed_from [] seg ∧ count weekly_replay seg = 0%nat
  ∧ count weekly_claim seg = (if bool_decide (r = Some true) then 1 else 0)%nat.
Proof.
  intros [r' seg' Hr Hseg|creditId expiresAt cause now claim seg' _ Hd].
  - rewrite bool_decide_false by done.
    destruct Hseg as [->|[[ok ->]|[(ok & d & ->)|(ok & d & i & ->)]]]; done.
  - rewrite !count_app. destruct (dispatched_counts _ _ _ _ _ Hd) as (-> & _ & ->).
    split_and!; [|done|].
    + cbn. split_and!; try done. eapply dispatched_backed; [|done]. left.
      exists [], creditId, expiresAt. do 2 eexists. done.
    + unfold count; cbn. by destruct cause.
Qed.

(** What becomes of a pending attempt *)
Inductive replayed (id : string) (r : row)
    : option (option (option string * bool)) → list trail → Prop :=
  | rp_none res seg :
      (∀ c, res ≠ Some (Some (c, true))) → (seg = [] ∨ ∃ ok, seg = [ApRefresh id true ok]) →
      replayed id r res seg
  | rp_replay creditId ok seg :
      ev_credit_id r = Some creditId →
      (if ok : bool then dispatched id creditId (default Expiry (ev_cause r)) (reuse_pending r) seg
       else seg = []) →
      replayed id r (Some (Some (Some creditId, bool_decide (ev_cause r = Some WeeklyLimit))))
        ([ApRefresh id true ok; ApReplay id r] ++ seg).

Lemma truthy_string_Some o x : truthy_string o = Some x → o = Some x.
Proof. destruct o as [[]|]; cbn; [done|intros [= <-]; done|done]. Qed.

Lemma replay_emits id r : emits (replay_pending deps id r) (replayed id r).
Proof.
  unfold replay_pending. apply emits_call_bind; [by apply rp_none; auto|]. intros before.
  destruct (negb _); [by apply emits_ret, rp_none; auto|].
  eapply emits_bind; [apply refresh_emits|intros ? ->; by apply rp_none; auto|].
  intros ok seg ->. apply emits_call_bind; [by apply rp_none; eauto|]. intros [a|];
    [|by apply emits_ret, rp_none; eauto].
  destruct (truthy_string (ev_credit_id r)) as [creditId|] eqn:Hc;
    [|by apply emits_ret, rp_none; eauto].
  destruct (_ || _); [by apply emits_ret, rp_none; eauto|].
  destruct (may_replay _ _); [|by apply emits_ret, rp_none; eauto].
  apply emits_note_bind. apply truthy_string_Some in Hc.
  eapply (emits_bind _ _ (λ r' seg, r' = Some tt ∧
    if ok then dispatched id creditId (default Expiry (ev_cause r)) (reuse_pending r) seg
    else seg = [])).
  - destruct ok; [apply dispatch_emits|by apply emits_ret].
  - by intros ? [? _].
  - intros [] seg [_ Hseg]. apply emits_ret. rewrite app_nil_r. by apply (rp_replay _ _ _ ok).
Qed.

Lemma replayed_spec id r res seg :
  replayed id r res seg →
  backed_from [ApPending id (Some r)] seg ∧ count weekly_claim seg = 0%nat
  ∧ (count weekly_replay seg ≠ 0%nat → ∃ c, res = Some (Some (Some c, true))).
Proof.
  intros [res' seg' Hres Hseg|creditId ok seg' Hc Hd].
  - by destruct Hseg as [->|[ok ->]].
  - rewrite !count_app. assert (Hn : count weekly_claim seg' = 0%nat ∧ count weekly_replay seg' = 0%nat).
    { destruct ok; [by destruct (dispatched_counts _ _ _ _ _ Hd) as (-> & _ & ->)|by subst]. }
    destruct Hn as [-> ->]. split_and!; [|done|].
    + cbn. split_and!; [done|done|]. destruct ok; [|by subst].
      eapply dispatched_backed; [|done]. right. by exists [], r, creditId.
    + unfold count; cbn. case_bool_decide; [|done]. intros _. by exists creditId.
Qed.

(** Discovery never replays, and only an expiry leads to a claim in the account loop. *)
Definition discovered (held : pass) (r : option pass) (seg : list trail) : Prop :=
  backed_from [] seg ∧ count weekly_replay seg = 0%nat
  ∧ (count weekly_claim seg <= count expiry_decision seg)%nat
  ∧ (held = PassHeld → r = None ∨ r = Some PassHeld).

Lemma discovered_confirm c id ok creditId expiresAt pending held r r' seg :
  confirmed c pending r seg → (held = PassHeld → r' = None ∨ r' = Some PassHeld) →
  discovered held r'
    ([ApRefresh id false ok] ++ [ApDecided id (Consume creditId expiresAt Expiry)] ++ seg).
Proof.
  intros (Hb & Hr & Hw)%confirmed_spec Hh. unfold discovered. rewrite !count_app, Hr, Hw.
  split_and!; [|done| |done].
  - apply backed_seq; [done|]. by apply backed_seq.
  - unfold count; cbn. case_bool_decide; lia.
Qed.

Lemma discovered_skip id ok d held r :
  (held = PassHeld → r = None ∨ r = Some PassHeld) →
  discovered held r ([ApRefresh id false ok] ++ [ApDecided id d]).
Proof.
  intros Hh. unfold discovered, count; cbn. split_and!; try done. lia.
Qed.

Lemma discover_emits c pending replayed held :
  (held = PassHeld → is_Some replayed) →
  emits (discover deps c pending replayed held) (discovered held).
Proof.
  intros Hheld. assert (Hstay : held = PassHeld → Some held = None ∨ Some held = Some PassHeld)
    by (intros ->; by right).
  assert (Hshort : ∀ r l, (held = PassHeld → r = None ∨ r = Some PassHeld) →
    (l = [] ∨ ∃ ok, l = [ApRefresh (cand_id c) false ok]) → discovered held r l)
    by (intros r l Hr [->|[ok ->]]; by unfold discovered).
  unfold discover. cbn zeta.
  eapply emits_bind; [apply refresh_emits|intros ? ->; apply Hshort; auto|]. intros ok seg ->.
  eapply emits_bind; [apply evaluate_emits|cbn; intros ? ->; apply Hshort; eauto|].
  intros [e|] seg Hseg; cbn in Hseg;
    [destruct Hseg as [-> He]|subst; apply emits_ret, Hshort; by eauto].
  destruct (ev_decision e) as [creditId expiresAt []|r] eqn:Hd.
  - eapply emits_bind; [apply confirm_emits|..].
    + intros seg' Hc. eapply discovered_confirm; [done|by left].
    + intros b seg' Hc. apply emits_ret. rewrite app_nil_r. by eapply discovered_confirm.
  - destruct He as [[resetsAt ->] ->]. apply emits_ret, discovered_skip.
    intros Hh. by destruct (Hheld Hh).
  - apply emits_ret. by apply discovered_skip.
Qed.

(** What an account leaves: a replayed weekly attempt holds the slot of the tick. *)
Definition processed (r : option pass) (seg : list trail) : Prop :=
  backed_from [] seg ∧ (count weekly_claim seg <= count expiry_decision seg)%nat
  ∧ (count weekly_replay seg ≠ 0%nat → r = Some PassHeld).

Lemma processed_after id pending seg (replayed : option string) (held : bool) r seg' :
  let h := if held then PassHeld else PassNull in
  backed_from [ApPending id pending] seg → count weekly_claim seg = 0%nat →
  (count weekly_replay seg ≠ 0%nat → held = true) → discovered h r seg' →
  processed (Some (default h r)) (ApPending id pending :: seg ++ seg').
Proof.
  cbn zeta. intros Hb Hw Hr (Hb' & Hr' & Hc' & Hh).
  change (ApPending id pending :: seg ++ seg') with (([ApPending id pending] ++ seg) ++ seg').
  split_and!.
  - apply backed_seq; [|done]. by apply backed_from_app.
  - rewrite !count_app, Hw. unfold count in *; cbn. lia.
  - rewrite !count_app, Hr'. intros Hne.
    assert (held = true) as -> by (apply Hr; unfold count in *; cbn in *; lia).
    by destruct (Hh eq_refl) as [-> | ->].
Qed.

Lemma process_emits c : emits (processAccount deps c) processed.
Proof.
  unfold processAccount. cbn zeta. apply emits_call_bind; [by unfold processed|]. intros pending.
  apply emits_note_bind.
  eapply (emits_bind _ _ (λ res seg, backed_from [ApPending (cand_id c) pending] seg
    ∧ count weekly_claim seg = 0%nat
    ∧ (count weekly_replay seg ≠ 0%nat → ∃ c, res = Some (Some (Some c, true)))
    ∧ (∀ o, res = Some (Some (o, true)) → is_Some o))).
  - destruct pending as [r|]; [|by apply emits_ret].
    eapply emits_mono; [apply replay_emits|]. intros res seg Hres.
    destruct (replayed_spec _ _ _ _ Hres) as (H1 & H2 & H3). split_and!; try done.
    intros o ->. inversion Hres as [? ? Hno|]; subst; [by edestruct Hno|done].
  - intros seg (Hb & Hw & Hr & _). split_and!; [done|unfold count in *; cbn; lia|].
    intros Hne. by destruct Hr as [? ?].
  - intros [[replayed held]|] seg (Hb & Hw & Hr & Ho); cbn in *.
    + assert (Hheld : count weekly_replay seg ≠ 0%nat → held = true)
        by (intros Hne; destruct (Hr Hne) as [? Heq]; by simplify_eq).
      eapply emits_catch; [apply (discover_emits c pending replayed)| |].
      * intros Hh. apply Ho. by destruct held.
      * intros x seg' Hd. by apply (processed_after _ _ _ replayed held (Some x)).
      * intros seg' Hd. apply emits_ret. rewrite app_nil_r.
        by apply (processed_after _ _ _ replayed held None).
    + apply emits_ret. rewrite app_nil_r. split_and!; [done|unfold count in *; cbn; lia|].
      intros Hne. by destruct Hr as [? ?].
Qed.

Lemma process_all_emits l :
  emits (process_all deps l) (λ r seg,
    backed_from [] seg ∧ (count weekly_claim seg <= count expiry_decision seg)%nat
    ∧ (count weekly_replay seg ≠ 0%nat → ∃ weekly, r = Some (weekly, true)) ∧ is_Some r).
Proof.
  induction l as [|c l IH]; cbn; [by apply emits_ret; eauto|].
  eapply (emits_bind _ _ (λ r seg, processed r seg ∧ is_Some r)).
  - eapply emits_catch; [apply process_emits|by eauto|]. intros seg (Hb & Hc & Hr).
    apply emits_ret. rewrite app_nil_r. split; [|done]. split_and!; try done.
    intros Hne. by apply Hr in Hne.
  - by intros seg [_ []].
  - intros p seg [(Hb & Hc & Hr) _]. eapply emits_bind; [apply IH|by intros seg' (_ & _ & _ & [])|].
    intros [weekly held] seg' (Hb' & Hc' & Hr' & _). apply emits_ret. rewrite app_nil_r, !count_app.
    split_and!; [by apply backed_seq|lia| |done]. intros Hne.
    destruct (decide (count weekly_replay seg = 0%nat)) as [Hz|Hz].
    + destruct Hr' as [w ?]; [lia|]. simplify_eq. destruct p; eauto.
    + apply Hr in Hz. simplify_eq. eauto.
Qed.

Lemma confirm_first_emits l :
  emits (confirm_first deps l) (λ r seg,
    backed_from [] seg ∧ (count weekly_claim seg <= 1)%nat ∧ count weekly_replay seg = 0%nat).
Proof.
  induction l as [|p l IH]; cbn; [apply emits_ret; split_and!; [done|cbn; lia|done]|].
  eapply (emits_bind _ _ (λ r seg, backed_from [] seg ∧ count weekly_replay seg = 0%nat
    ∧ count weekly_claim seg = (if bool_decide (r = Some true) then 1 else 0)%nat ∧ is_Some r)).
  - eapply emits_catch; [apply confirm_emits|..].
    + intros x seg (? & ? & ?)%confirmed_spec. by eauto.
    + intros seg (? & ? & ?)%confirmed_spec. apply emits_ret. by rewrite app_nil_r.
  - by intros seg (_ & _ & _ & []).
  - intros [] seg (Hb & Hr & Hc & _).
    + apply emits_ret. rewrite app_nil_r. split_and!; [done|by rewrite Hc|done].
    + eapply emits_mono; [apply IH|]. intros r seg' (Hb' & Hc' & Hr'). rewrite !count_app, Hc, Hr.
      split_and!; [by apply backed_seq|done|done].
Qed.

Lemma tick_emits :
  emits (tick_body deps) (λ _ seg,
    backed_from [] seg
    ∧ (count weekly_claim seg
       <= count expiry_decision seg + (if decide (count weekly_replay seg = 0) then 1 else 0))%nat).
Proof.
  unfold tick_body. apply emits_settle_bind. intros [l|]; [|apply emits_ret; split; [done|apply Nat.le_0_l]].
  eapply emits_bind; [apply process_all_emits|by intros seg (_ & _ & _ & [])|].
  intros [weekly held] seg (Hb & Hc & Hr & _). destruct held.
  - apply emits_ret. rewrite app_nil_r. split; [done|lia].
  - eapply emits_mono; [apply confirm_first_emits|]. intros r seg' (Hb' & Hc' & Hr').
    rewrite !count_app. split; [by apply backed_seq|].
    destruct (decide (count weekly_replay seg = 0%nat)) as [Hz|Hz].
    + rewrite Hz, Hr', decide_True by done. lia.
    + destruct Hr as [w ?]; [done|]. by simplify_eq.
Qed.
End Trails.

(** * The pool check *)

(** The check over the accounts, the pins, the pending attempts and the cached readings of a
    world. The clock stands still; a free read may change the reading of its account only. *)
Section PoolCheck.
Context {W : Type}.
Context (accounts : W → list Account) (pins : W → list (option string))
  (pending : W → string → option row) (usage : W → string → option AnyUsageData) (now : Z)
  (get : string → op W bool).
Hypothesis get_only : ∀ id w r w', get id w = (r, w') →
  accounts w' = accounts w ∧ pending w' = pending w
  ∧ ∀ id', id' ≠ id → usage w' id' = usage w id'.

Definition find_account (id : string) (l : list Account) : option Account :=
  List.find (λ a, bool_decide (acc_id a = id)) l.

Definition pool_deps : PoolDeps (W := W) :=
  {| allAccounts := λ w, (Some (accounts w), w);
     activePins := λ w, (Some (pins w), w);
     pendingOf := λ id w, (Some (pending w id), w);
     usageOf := λ id w, (Some (usage w id), w);
     readUsage := get;
     accountOf := λ id w, (Some (find_account id (accounts w)), w);
     poolClock := λ w, (Some now, w) |}.

Lemma find_account_elem l a : NoDup (acc_id <$> l) → a ∈ l → find_account (acc_id a) l = Some a.
Proof.
  intros Hnd Ha. unfold find_account. destruct (List.find _ l) as [b|] eqn:Hf.
  - apply find_some in Hf as [Hb Heq]. apply list_elem_of_In in Hb. prop_bools.
    f_equal. by eapply NoDup_fmap_elem_inj.
  - apply list_elem_of_In in Ha. eapply find_none in Hf; [|done]. cbn in Hf. by prop_bools.
Qed.

(** What the first round leaves undecided *)
Definition passes (id : string) (w : W) (unknown : list Account) (a : Account) : Prop :=
  acc_id a ≠ id → reachable a now = true →
  (weeklyResetCanLiftPause a = true → pending w (acc_id a) = None)
  ∧ (acc_paused a = false → capacity_of (usage w (acc_id a)) now = CapExhausted ∨ a ∈ unknown).

Lemma scan_known_spec id l w m :
  ∃ r, scan_known pool_deps id now l (w, m) = (Some r, (w, m))
  ∧ ∀ u, r = Some u → sublist u l ∧ ∀ a, a ∈ l → passes id w u a.
Proof.
  induction l as [|a l IH]; cbn.
  { eexists. split; [done|]. intros u [= <-]. split; [done|]. by intros a ?%elem_of_nil. }
  destruct IH as (r & Hr & Hu).
  assert (Hskip : (acc_id a ≠ id → reachable a now = true →
      (weeklyResetCanLiftPause a = true → pending w (acc_id a) = None)
      ∧ (acc_paused a = false → capacity_of (usage w (acc_id a)) now = CapExhausted)) →
    ∃ r0, scan_known pool_deps id now l (w, m) = (Some r0, (w, m))
    ∧ ∀ u, r0 = Some u → sublist u (a :: l) ∧ ∀ b, b ∈ a :: l → passes id w u b).
  { intros Ha. exists r. split; [done|]. intros u Hru. destruct (Hu u Hru) as [Hsub Hl].
    split; [by apply sublist_cons|]. intros b [->|Hb]%elem_of_cons; [|by apply Hl].
    intros Hne Hre. destruct (Ha Hne Hre). split; auto. }
  destruct (bool_decide (acc_id a = id) || negb (reachable a now)) eqn:Hskip1.
  { apply Hskip. intros Hne Hre. rewrite Hre, orb_false_r in Hskip1. by prop_bools. }
  clear Hskip1. unfold mbind, comp_bind.
  assert (Hp : unresolved pool_deps a (w, m)
    = (Some (if weeklyResetCanLiftPause a then pending w (acc_id a) else None), (w, m)))
    by (unfold unresolved; by destruct (weeklyResetCanLiftPause a)).
  rewrite Hp. clear Hp. case_bool_decide as Hpend; [by eexists|].
  assert (Hnone : weeklyResetCanLiftPause a = true → pending w (acc_id a) = None).
  { intros Hl. rewrite Hl in Hpend. destruct (pending w (acc_id a)); [|done]. by destruct Hpend. }
  destruct (negb (usable a now)) eqn:Hus.
  { apply Hskip. intros _ Hre. split; [done|]. intros Hpa. unfold usable in Hus.
    by rewrite Hre, Hpa in Hus. }
  cbn. destruct (capacity_of (usage w (acc_id a)) now) eqn:Hcap; [by eexists|by apply Hskip|].
  rewrite Hr. eexists. split; [done|]. intros u Hru. destruct r as [u'|]; [|done].
  injection Hru as <-. destruct (Hu u' eq_refl) as [Hsub Hl]. split; [by apply sublist_skip|].
  intros b [->|Hb]%elem_of_cons Hne Hre; (split; [auto|intros Hpa]).
  - right. left.
  - by apply Hl.
  - destruct (Hl b Hb Hne Hre) as [_ [|]]; auto. right. by right.
Qed.

Lemma read_once_spec id w m :
  ∃ w1 m1, read_once pool_deps id (w, m) = (Some tt, (w1, m1))
  ∧ accounts w1 = accounts w ∧ ∀ id', id' ≠ id → usage w1 id' = usage w id'.
Proof.
  unfold read_once, mbind, comp_bind; cbn. case_bool_decide; [by eauto|]. unfold settle; cbn.
  destruct (get id w) as [r w1] eqn:Hg. apply get_only in Hg as (Ha & _ & Hu). eauto 6.
Qed.

Lemma scan_unknown_spec u w m r w' m' :
  NoDup (acc_id <$> u) → (∀ a, a ∈ u → find_account (acc_id a) (accounts w) = Some a) →
  scan_unknown pool_deps u (w, m) = (Some r, (w', m')) →
  (∀ id', id' ∉ acc_id <$> u → usage w' id' = usage w id')
  ∧ (r = false → ∀ a, a ∈ u → usable a now = true →
       capacity_of (usage w' (acc_id a)) now = CapExhausted).
Proof.
  revert w m. induction u as [|a u IH]; intros w m Hnd Hfind.
  { intros [= -> -> ->]. split; [done|]. by intros _ a ?%elem_of_nil. }
  apply NoDup_cons in Hnd as [Hnin Hnd].
  destruct (read_once_spec (acc_id a) w m) as (w1 & m1 & Hread & Hacc & Hus).
  assert (Hfa : find_account (acc_id a) (accounts w1) = Some a) by (rewrite Hacc; apply Hfind; left).
  cbn [scan_unknown]. unfold mbind, comp_bind at 1. rewrite Hread. cbn. rewrite Hfa. cbn.
  assert (Hrest : scan_unknown pool_deps u (w1, m1) = (Some r, (w', m')) →
    (usable a now = true → capacity_of (usage w1 (acc_id a)) now = CapExhausted) →
    (∀ id', id' ∉ acc_id <$> a :: u → usage w' id' = usage w id')
    ∧ (r = false → ∀ b, b ∈ a :: u → usable b now = true →
         capacity_of (usage w' (acc_id b)) now = CapExhausted)).
  { intros Hs Ha. apply IH in Hs as [H1 H2]; [|done|].
    - split.
      + intros id' [Hne Hid]%not_elem_of_cons. by rewrite H1, Hus.
      + intros Hr b [->|Hb]%elem_of_cons Hb'; [|by apply H2]. rewrite H1 by done. by apply Ha.
    - intros b Hb. rewrite Hacc. apply Hfind. by right. }
  destruct (negb (usable a now)) eqn:Hn; [intros Hs; apply Hrest; [done|]; by destruct (usable a now)|].
  cbn. destruct (capacity_of (usage w1 (acc_id a)) now) eqn:Hcap; [|by intros Hs; apply Hrest|].
  all: intros [= <- -> ->]; (split; [|done]); by intros id' [Hne _]%not_elem_of_cons; apply Hus.
Qed.

(** the check before a weekly redemption lets it through only when an active key pins the
    account, or when no other reachable account has an unresolved attempt that could restore
    it and every other usable one is known to be exhausted, by the readings cached at the end:
    an account whose usage is still unknown after its free read counts as able to serve. *)
Theorem pool_check_sound id w m w' m' :
  NoDup (acc_id <$> accounts w) → hasOther pool_deps id (w, m) = (Some false, (w', m')) →
  Some id ∈ pins w
  ∨ ∀ a, a ∈ accounts w → acc_id a ≠ id → reachable a now = true →
      (weeklyResetCanLiftPause a = true → pending w (acc_id a) = None)
      ∧ (usable a now = true → capacity_of (usage w' (acc_id a)) now = CapExhausted).
Proof.
  intros Hnd. unfold hasOther, mbind, comp_bind, settle; cbn. case_bool_decide as Hpin; [by left|].
  cbn. destruct (scan_known_spec id (accounts w) w (forget_attempts now m)) as (r & Hr & Hu).
  rewrite Hr. destruct r as [u|]; [|done]. intros Hs. right. intros a Ha Hne Hre.
  destruct (Hu u eq_refl) as [Hsub Hl]. destruct (Hl a Ha Hne Hre) as [Hp Hcap].
  split; [done|]. intros Hus.
  assert (Hndu : NoDup (acc_id <$> u)) by (eapply sublist_NoDup; [done|by apply fmap_sublist]).
  apply scan_unknown_spec in Hs as [Hkeep Hall]; [|done|].
  - assert (acc_paused a = false) as Hpa
      by (unfold usable in Hus; rewrite Hre in Hus; by destruct (acc_paused a)).
    destruct (decide (acc_id a ∈ acc_id <$> u)) as [(b & Heq & Hb)%list_elem_of_fmap|Hnin].
    + assert (b = a) as ->; [|by apply Hall].
      apply (NoDup_fmap_elem_inj acc_id (accounts w)); [done| |done|done]. by eapply elem_of_sublist.
    + rewrite Hkeep by done. destruct (Hcap Hpa) as [|Hin]; [done|].
      destruct Hnin. by apply list_elem_of_fmap_2.
  - intros b Hb. apply find_account_elem; [done|]. by eapply elem_of_sublist.
Qed.
End PoolCheck.

(** * The properties of a tick *)

(** C34: whatever the environment answers or throws, a tick sends a request only right after a
    forced metadata read that succeeded, either for the credit decided on that read and with
    the row and key of the claim just granted, or to replay the pending attempt just found with
    its own row, key and credit; and it deletes a row only right after its own fresh request
    was reported as not sent. *)
Theorem dispatches_backed {W} (deps : ApplyDeps (W := W)) w pre e post :
  (tick deps w).2 = pre ++ e :: post → backed pre e.
Proof.
  unfold tick. destruct (tick_emits deps w []) as (seg & -> & Hb & _). cbn. intros Hs.
  by apply (backed_split [] seg pre e post).
Qed.

(** a tick is granted at most one claim for a spent week, none when it may replay a pending
    weekly attempt, beside those of the accounts whose discovery chose an expiring credit and
    whose confirmation found that only the week is left to redeem for. *)
Theorem weekly_claims_bounded {W} (deps : ApplyDeps (W := W)) w :
  let tr := (tick deps w).2 in
  (count weekly_claim tr
   <= count expiry_decision tr + (if decide (count weekly_replay tr = 0) then 1 else 0))%nat.
Proof. unfold tick. by destruct (tick_emits deps w []) as (seg & -> & _ & Hc). Qed.

(** ** A scripted world *)

Definition demo_toggles (p : AccountProfile) : AccountProfile :=
  {| prof_api_key := prof_api_key p; prof_created_at := prof_created_at p;
     prof_last_used := prof_last_used p; prof_request_count := prof_request_count p;
     prof_total_requests := prof_total_requests p;
     prof_auto_refresh_enabled := prof_auto_refresh_enabled p;
     prof_peak_hours_pause_enabled := prof_peak_hours_pause_enabled p;
     prof_codex_auto_apply_reset_credits_enabled := true;
     prof_codex_auto_apply_reset_on_weekly_limit_enabled := true;
     prof_codex_fast_mode_enabled := prof_codex_fast_mode_enabled p;
     prof_anthropic_auto_apply_banked_resets_enabled :=
       prof_anthropic_auto_apply_banked_resets_enabled p;
     prof_anthropic_auto_apply_banked_reset_on_weekly_limit_enabled :=
       prof_anthropic_auto_apply_banked_reset_on_weekly_limit_enabled p;
     prof_billing_type := prof_billing_type p; prof_notes := prof_notes p;
     prof_refresh_token_issued_at := prof_refresh_token_issued_at p;
     prof_refresh_token_expires_at := prof_refresh_token_expires_at p;
     prof_renewal := prof_renewal p; prof_identity := prof_identity p;
     prof_subscription := prof_subscription p;
     prof_identity_captured_at := prof_identity_captured_at p;
     prof_identity_profile_fetched_at := prof_identity_profile_fetched_at p |}.

Definition demo_holder (id : string) : Account :=
  {| acc_id := id; acc_name := id; acc_provider := "codex";
     acc_refresh_token := Some "rt"; acc_access_token := Some "t"; acc_expires_at := None;
     acc_session_start := None; acc_session_request_count := 0;
     acc_paused := false; acc_disabled := false; acc_pause_reason := None;
     acc_priority := 0; acc_auto_fallback_enabled := true;
     acc_auto_pause_on_overage_enabled := true; acc_custom_endpoint := None;
     acc_rate_limited_until := None; acc_rate_limited_reason := None;
     acc_rate_limited_at := None; acc_consecutive_rate_limits := 0;
     acc_rate_limit_status := None; acc_rate_limit_reset := None;
     acc_rate_limit_remaining := None; acc_profile := demo_toggles demo_profile |}%string.

(** The accounts whose metadata a forced read has refreshed, and the ledger *)
Record demo_state := { forced : list string; demo_rows : list row }.

Definition demo_now : Z := 1000000.
Definition demo_credit (id : string) (s : CreditStatus) (expiresAt : option Z) : Credit :=
  {| credit_id := id; credit_status := s; credit_expiresAt := expiresAt |}.

(** The expiring credit of [a] turns out to be redeemed already on a forced read. *)
Definition demo_credits (id : string) (w : demo_state) : list Credit :=
  if bool_decide (id = "a"%string) then
    [demo_credit "a1" (if bool_decide (id ∈ forced w) then CsRedeemed else CsAvailable) (Some 1100);
     demo_credit "a2" CsAvailable None]
  else [demo_credit "b1" CsAvailable None].

Section Demo.
Context (pins : list (option string)) (spent : string → option AnyUsageData).

Definition demo_pool_deps : PoolDeps :=
  pool_deps (λ _ : demo_state, [demo_holder "a"; demo_holder "b"]) (λ _, pins)
    (λ w id, findPendingForAccount id (demo_rows w)) (λ _, spent) demo_now
    (λ _ w, (Some true, w)).

Definition demo_deps : ApplyDeps :=
  {| listCandidateAccounts := λ w : demo_state,
       (Some [{| cand_id := "a"; cand_name := "a" |}; {| cand_id := "b"; cand_name := "b" |}], w);
     getAccount := λ id w, (Some (find_account id [demo_holder "a"; demo_holder "b"]), w);
     getCachedCredits := λ id w,
       (Some (Some {| ce_summary := {| sum_availableCount := 1; sum_credits := Some (demo_credits id w) |};
                      ce_fetchedAt := 0 |}), w);
     refreshCredits := λ id force w,
       (Some true, if force then {| forced := id :: forced w; demo_rows := demo_rows w |} else w);
     getPendingAttempt := λ id w, (Some (findPendingForAccount id (demo_rows w)), w);
     getTerminallyResolved := λ id w, (Some (getTerminallyResolvedCreditIds id (demo_rows w)), w);
     getWeeklyWindow := λ id w,
       (Some {| usedPercent := Some hundred; resetsAt := Some (demo_now + 100 * 3600 * 1000) |}, w);
     hasOtherAvailableCodexAccount := λ id w, ((hasOther demo_pool_deps id (w, ∅)).1, w);
     getAutoApplyCooldownAnchorAt := λ id w,
       (Some (getLatestAutoApplyCooldownAnchorAt id (demo_rows w)), w);
     claimAttempt := λ i w,
       let '(rows, c) := claimAutoAttempt i (demo_rows w) in
       (Some c, {| forced := forced w; demo_rows := rows |});
     dispatchConsume := λ id rq w,
       (Some (Completed {| cr_outcome := OcReset; cr_windowsReset := 2 |} true true),
        {| forced := forced w;
           demo_rows := resolveAttempt (default "" (rq_ledgerRowId rq)) EvReset (Some 2) None
                          demo_now (demo_rows w) |});
     withdrawPending := λ id w,
       let '(rows, b) := withdrawPendingAttempt id (demo_rows w) in
       (Some b, {| forced := forced w; demo_rows := rows |});
     clock := λ w, (Some demo_now, w) |}.
End Demo.

Definition demo_start : demo_state := {| forced := []; demo_rows := [] |}.
Definition demo_pinned : ApplyDeps := demo_deps [Some "a"; Some "b"]%string (λ _, None).

(** the bound is met: when the expiring credit found in discovery is gone by the
    confirmation, the account is redeemed for its week in the account loop, beside the ranking
    and although another account wins the weekly slot of the same tick. *)
Theorem two_weekly_claims_in_a_tick :
  count weekly_claim (tick demo_pinned demo_start).2 = 2%nat
  ∧ count expiry_decision (tick demo_pinned demo_start).2 = 1%nat
  ∧ count weekly_replay (tick demo_pinned demo_start).2 = 0%nat.
Proof. split_and!; by vm_compute. Qed.

Definition demo_trail : list trail := (tick demo_pinned demo_start).2.
Definition demo_request : trail :=
  ApDispatch "a" WeeklyLimit
    {| rq_idempotencyKey := "codex-reset-auto:a:a2:1"; rq_creditId := Some "a2";
       rq_ledgerRowId := Some "a:a2:1" |}%string false.

Lemma dispatches_backed_witness :
  demo_trail = take 6 demo_trail ++ demo_request :: drop 7 demo_trail
  ∧ backed (take 6 demo_trail) demo_request.
Proof.
  split; [by vm_compute|].
  apply (dispatches_backed demo_pinned demo_start (take 6 demo_trail) demo_request (drop 7 demo_trail)).
  by vm_compute.
Defined.

(** A reading whose week is spent *)
Definition demo_spent : AnyUsageData :=
  AnthropicShape
    {| five_hour := Some None;
       seven_day := Some (Some {| utilization := Some hundred;
                                  resets_at := Some (Some (demo_now + 100 * 3600 * 1000)) |});
       seven_day_oauth_apps := None; limits := []; extra_usage := None |}.

Definition demo_known (id : string) : option AnyUsageData := Some demo_spent.
Definition demo_get (id : string) : op demo_state bool := λ w, (Some true, w).

Definition demo_no_pins : list (option string) := [].

Lemma pool_check_sound_witness :
  bool_decide (Some "a"%string ∈ demo_no_pins) = false
  ∧ (hasOther (demo_pool_deps [] demo_known) "a" (demo_start, ∅)).1 = Some false
  ∧ ((Some "a"%string ∈ demo_no_pins)
     ∨ ∀ a, a ∈ [demo_holder "a"; demo_holder "b"] → acc_id a ≠ "a"%string →
         reachable a demo_now = true →
         (weeklyResetCanLiftPause a = true → findPendingForAccount (acc_id a) [] = None)
         ∧ (usable a demo_now = true → capacity_of (demo_known (acc_id a)) demo_now = CapExhausted)).
Proof.
  split; [by vm_compute|]. split; [by vm_compute|].
  refine (pool_check_sound (λ _ : demo_state, [demo_holder "a"; demo_holder "b"]) (λ _, demo_no_pins)
    (λ w id, findPendingForAccount id (demo_rows w)) (λ _, demo_known) demo_now demo_get
    _ "a" demo_start ∅ demo_start ∅ _ _).
  - by intros id w r w' [= <- <-].
  - eapply bool_decide_unpack. by vm_compute.
  - by vm_compute.
Defined.

(** * The dispatcher: what a caller learns *)

Lemma try_consumers_unsent last l n :
  try_consumers last l = (DispatchFailed true, n) →
  last = Some (DispatchFailed true) ∨ Some (DispatchFailed true) ∈ l.
Proof.
  revert last n. induction l as [|o l IH]; intros last n; cbn.
  - destruct last as [d|]; cbn; [|done]. intros [= -> _]. by left.
  - destruct o as [[r m c|b]|]; [done|..].
    all: destruct (try_consumers _ l) as [r' n'] eqn:Hr; intros [= -> _].
    all: apply IH in Hr as [Hl|Hl]; cbn in Hl; simplify_eq; right; by (left || right).
Qed.

Lemma try_consumers_calls last l : l ≠ [] → (0 < (try_consumers last l).2)%nat.
Proof.
  destruct l as [|o l]; [done|]. intros _. cbn. destruct o as [[r m c|b]|]; cbn; [lia|..];
    destruct (try_consumers _ l); cbn; lia.
Qed.

(** a caller told that nothing was sent can rely on it: no consumer was called for its
    request, because another key was in flight or no server is registered; a request that
    joins the attempt in flight has that attempt's key. *)
Theorem unsent_means_uncalled inflight id rq consumers :
  (∀ o, o ∈ consumers → o ≠ Some (DispatchFailed true)) →
  match consumeCodexResetCreditForAccount inflight id rq consumers with
  | Joined => inflight !! id = Some (rq_idempotencyKey rq)
  | Refused => ∃ key, inflight !! id = Some key ∧ key ≠ rq_idempotencyKey rq
  | Started o calls => inflight !! id = None ∧ (o = DispatchFailed true ↔ calls = O)
  end.
Proof.
  intros Hc. unfold consumeCodexResetCreditForAccount.
  destruct (inflight !! id) as [key|]; [case_bool_decide; naive_solver|].
  destruct consumers as [|c l]; [done|].
  assert (Hn : (0 < (try_consumers None (c :: l)).2)%nat) by by apply try_consumers_calls.
  destruct (try_consumers None (c :: l)) as [o n] eqn:Ht. cbn in Hn. split; [done|]. split; [|lia].
  intros ->. apply try_consumers_unsent in Ht as [?|Hin]; [done|]. by apply Hc in Hin.
Qed.

Definition demo_outcomes : list (option DispatchOutcome) := [None; Some (DispatchFailed false)].

Lemma unsent_means_uncalled_witness :
  consumeCodexResetCreditForAccount ∅ "a" (request_of "a1" (reuse_pending (claim_row
    {| in_accountId := "a"; in_accountName := "a"; in_creditId := "a1"; in_creditExpiresAt := None;
       in_cause := Expiry; in_now := 0 |}%string 1))) demo_outcomes
  = Started (DispatchFailed false) 2
  ∧ ((∅ : gmap string string) !! "a"%string = None ∧ (DispatchFailed false = DispatchFailed true ↔ 2%nat = O)).
Proof.
  split; [by vm_compute|].
  refine (unsent_means_uncalled ∅ "a" (request_of "a1" (reuse_pending (claim_row
    {| in_accountId := "a"; in_accountName := "a"; in_creditId := "a1"; in_creditExpiresAt := None;
       in_cause := Expiry; in_now := 0 |}%string 1))) demo_outcomes _).
  intros o Ho ->. unfold demo_outcomes in Ho. set_solver.
Defined.
