(* ===== verification/PayloadFrame.v ===== *)
(** Stored request payloads: [packages/database/src/payload-frame.ts] (the binary frame) and
    the binary form of [packages/database/src/payload-encryption.ts] (flags, zstd,
    AES-GCM).

    Bytes are integers from 0 to 255; a JavaScript string is the list of its UTF-16 code
    units, so that its UTF-8 length and encoding are computed as the platform computes
    them, lone surrogates included. Not under [src/] and parameters here: the JSON parser,
    Bun's zstd, Web Crypto's AES-GCM and random source. A thrown error is the left side of
    a sum. The legacy text form is not modelled. *)

From S2P Require Import Prelude.
Open Scope Z_scope.

#[warnings="-notation-for-abbreviation"]
Notation bytes := (list Z) (only parsing).
Definition is_byte (b : Z) : Prop := 0 <= b < 256.
Definition zlen {A} (l : list A) : Z := Z.of_nat (length l).

(** * UTF-8 of a JavaScript string *)

Definition js_string : Type := list Z.

Definition is_high (u : Z) : bool := (55296 <=? u) && (u <=? 56319).
Definition is_low (u : Z) : bool := (56320 <=? u) && (u <=? 57343).

Definition utf8_3 (u : Z) : bytes := [224 + u / 4096; 128 + u / 64 mod 64; 128 + u mod 64].
Definition utf8_4 (h l : Z) : bytes :=
  let c := 65536 + (h - 55296) * 1024 + (l - 56320) in
  [240 + c / 262144; 128 + c / 4096 mod 64; 128 + c / 64 mod 64; 128 + c mod 64].

(** [TextEncoder]: a lone surrogate becomes U+FFFD. *)
Fixpoint utf8_encode (s : js_string) : bytes :=
  match s with
  | [] => []
  | u :: s' =>
      if u <? 128 then u :: utf8_encode s'
      else if u <? 2048 then 192 + u / 64 :: 128 + u mod 64 :: utf8_encode s'
      else if is_high u then
        match s' with
        | l :: s'' => if is_low l then utf8_4 u l ++ utf8_encode s''
                      else [239; 191; 189] ++ utf8_encode s'
        | [] => [239; 191; 189]
        end
      else if is_low u then [239; 191; 189] ++ utf8_encode s'
      else utf8_3 u ++ utf8_encode s'
  end.

(** [Buffer.byteLength(s, "utf8")], counted without encoding. *)
Fixpoint byteLength (s : js_string) : Z :=
  match s with
  | [] => 0
  | u :: s' =>
      if u <? 128 then 1 + byteLength s'
      else if u <? 2048 then 2 + byteLength s'
      else if is_high u then
        match s' with
        | l :: s'' => if is_low l then 4 + byteLength s'' else 3 + byteLength s'
        | [] => 3
        end
      else 3 + byteLength s'
  end.

(** * Base64 *)

Definition base64_char (n : Z) : Ascii.ascii :=
  Ascii.ascii_of_N (Z.to_N
    (if n <? 26 then 65 + n else if n <? 52 then 71 + n else if n <? 62 then n - 4
     else if n =? 62 then 43 else 47)).

Definition base64_value (c : Ascii.ascii) : option Z :=
  let n := Z.of_N (Ascii.N_of_ascii c) in
  if (65 <=? n) && (n <=? 90) then Some (n - 65)
  else if (97 <=? n) && (n <=? 122) then Some (n - 71)
  else if (48 <=? n) && (n <=? 57) then Some (n + 4)
  else if n =? 43 then Some 62 else if n =? 47 then Some 63 else None.

(** [Buffer.from(b).toString("base64")] *)
Fixpoint base64_encode (b : bytes) : string :=
  match b with
  | [] => EmptyString
  | [x] => String (base64_char (x / 4)) (String (base64_char (x mod 4 * 16)) "==")
  | [x; y] =>
      String (base64_char (x / 4)) (String (base64_char (x mod 4 * 16 + y / 16))
        (String (base64_char (y mod 16 * 4)) "="))
  | x :: y :: z :: b =>
      String (base64_char (x / 4)) (String (base64_char (x mod 4 * 16 + y / 16))
        (String (base64_char (y mod 16 * 4 + z / 64)) (String (base64_char (z mod 64))
          (base64_encode b))))
  end.

(** What readers do with a body: four characters at a time, padding at the end. *)
Fixpoint base64_decode (s : string) : option bytes :=
  match s with
  | EmptyString => Some []
  | String c1 (String c2 (String c3 (String c4 s'))) =>
      match base64_value c1, base64_value c2 with
      | Some v1, Some v2 =>
          match base64_value c3, base64_value c4 with
          | Some v3, Some v4 =>
              b ← base64_decode s';
              Some (v1 * 4 + v2 / 16 :: v2 mod 16 * 16 + v3 / 4 :: v3 mod 4 * 64 + v4 :: b)
          | Some v3, None => Some [v1 * 4 + v2 / 16; v2 mod 16 * 16 + v3 / 4]
          | None, _ => Some [v1 * 4 + v2 / 16]
          end
      | _, _ => None
      end
  | _ => None
  end.

(** * Errors and JSON values *)

Inductive PayloadError : Type :=
  | FrameTooShort
  | FrameLengthMismatch
  | FrameZeroLengthBody
  | SkeletonSyntax
  | SkeletonNotEnvelope
  | SkeletonLengthMismatch
  | BlobEmpty
  | BlobUnknownFlags
  | ZstdError
  | EncryptError
  | PayloadDecryptError.

Definition result (A : Type) : Type := PayloadError + A.

Definition then_ {A B} (r : result A) (k : A → result B) : result B :=
  match r with inl e => inl e | inr a => k a end.

(** Parsed JSON; the keys of an object are unique and in their order. *)
Inductive json : Type :=
  | JNull
  | JBool (b : bool)
  | JNumber (digits : string)
  | JString (s : string)
  | JArray (l : list json)
  | JObject (fields : list (string * json)).

Definition isPlainObject (v : json) : bool := match v with JObject _ => true | _ => false end.

(** [value.key] *)
Definition json_field (key : string) (v : json) : option json :=
  match v with JObject fields => alist_get key fields | _ => None end.

(** [value.key = x] on an object *)
Definition set_field (key : string) (x v : json) : json :=
  match v with JObject fields => JObject (alist_set key x fields) | _ => v end.

Definition is_null (v : option json) : bool := match v with Some JNull => true | _ => false end.

Definition isEnvelopeSkeleton (v : json) : bool :=
  if negb (isPlainObject v) then false
  else
    match json_field "request" v, json_field "response" v with
    | Some request, Some response =>
        isPlainObject request && isPlainObject response
        && is_null (json_field "body" request) && is_null (json_field "body" response)
    | _, _ => false
    end.

(** [skeleton.part.body = b] *)
Definition set_body (part : string) (b : json) (v : json) : json :=
  match json_field part v with
  | Some p => set_field part (set_field "body" b p) v
  | None => v
  end.

(** * The frame *)

Definition HEADER_BYTES : Z := 12.
Definition NULL_BODY : Z := 4294967295.

(** [setUint32(_, n, true)], which keeps [n] modulo 2^32, and [getUint32(_, true)]. *)
Definition put_u32le (n : Z) : bytes :=
  [n mod 256; n / 256 mod 256; n / 65536 mod 256; n / 16777216 mod 256].

Definition get_u32le (offset : nat) (frame : bytes) : Z :=
  let b i := default 0 (frame !! (offset + i)%nat) in
  b 0%nat + 256 * b 1%nat + 65536 * b 2%nat + 16777216 * b 3%nat.

Definition slice (offset n : Z) (l : bytes) : bytes := take (Z.to_nat n) (drop (Z.to_nat offset) l).

Definition chunksBytes (chunks : list bytes) : Z :=
  foldl (λ total chunk, total + zlen chunk) 0 chunks.

Definition body_bytes (body : option bytes) : Z := match body with Some b => zlen b | None => 0 end.

Definition payloadFrameBytes (skeleton : js_string) (requestBody : option bytes)
    (responseChunks : list bytes) : Z :=
  HEADER_BYTES + byteLength skeleton + body_bytes requestBody + chunksBytes responseChunks.

(** [encodeInto] writes the encoding into a window of [skeletonBytes]: the encoding that
    fits, whole characters at a time; a window of exactly its length takes all of it. *)
Definition buildPayloadFrame (skeleton : js_string) (requestBody : option bytes)
    (responseChunks : list bytes) : result bytes :=
  let skeletonBytes := byteLength skeleton in
  let requestBytes := body_bytes requestBody in
  let responseBytes := chunksBytes responseChunks in
  let header :=
    put_u32le skeletonBytes
    ++ put_u32le (if 0 <? requestBytes then requestBytes else NULL_BODY)
    ++ put_u32le (if 0 <? responseBytes then responseBytes else NULL_BODY) in
  if negb (zlen (utf8_encode skeleton) =? skeletonBytes) then inl SkeletonLengthMismatch
  else inr (header ++ utf8_encode skeleton
            ++ (if 0 <? requestBytes then default [] requestBody else [])
            ++ concat responseChunks).

Section envelope.
Context (parseJSON : bytes → option json).

Definition body_json (n : Z) (body : bytes) : json :=
  if n =? NULL_BODY then JNull else JString (base64_encode body).

Definition envelopeFromPayloadFrame (frame : bytes) : result json :=
  if zlen frame <? HEADER_BYTES then inl FrameTooShort
  else
    let skeletonBytes := get_u32le 0 frame in
    let requestBytes := get_u32le 4 frame in
    let responseBytes := get_u32le 8 frame in
    let requestLen := if requestBytes =? NULL_BODY then 0 else requestBytes in
    let responseLen := if responseBytes =? NULL_BODY then 0 else responseBytes in
    if negb (HEADER_BYTES + skeletonBytes + requestLen + responseLen =? zlen frame)
    then inl FrameLengthMismatch
    else if (requestBytes =? 0) || (responseBytes =? 0) then inl FrameZeroLengthBody
    else
      match parseJSON (slice HEADER_BYTES skeletonBytes frame) with
      | None => inl SkeletonSyntax
      | Some skeleton =>
          if negb (isEnvelopeSkeleton skeleton) then inl SkeletonNotEnvelope
          else
            let offset := HEADER_BYTES + skeletonBytes in
            let v := set_body "request" (body_json requestBytes (slice offset requestLen frame))
                              skeleton in
            let offset := offset + requestLen in
            inr (set_body "response" (body_json responseBytes (slice offset responseLen frame)) v)
      end.
End envelope.

(** * The stored blob *)

Definition IV_LENGTH : Z := 12.
Definition FLAG_ZSTD : Z := 1.
Definition FLAG_ENCRYPTED : Z := 2.
Definition KNOWN_FLAGS : Z := Z.lor FLAG_ZSTD FLAG_ENCRYPTED.
Definition MIN_COMPRESS_BYTES : Z := 512.

Section blob.
Context (parseJSON : bytes → option json).
(** Bun's zstd; [None] is a throw. *)
Context (zstdCompress zstdDecompress : bytes → option bytes).
(** Web Crypto's AES-GCM; [None] is a rejection. *)
Context {Key : Type} (encrypt decrypt : Key → bytes → bytes → option bytes).

(** [iv]: the random bytes of this call. *)
Definition encryptBytes (key : option Key) (iv plaintext : bytes) : result (option bytes) :=
  match key with
  | None => inr None
  | Some k =>
      match encrypt k iv plaintext with
      | Some ciphertext => inr (Some (iv ++ ciphertext))
      | None => inl EncryptError
      end
  end.

Definition decryptBytes (key : option Key) (combined : bytes) : result bytes :=
  match key with
  | None => inl PayloadDecryptError
  | Some k =>
      if zlen combined <=? IV_LENGTH then inl PayloadDecryptError
      else
        match decrypt k (take (Z.to_nat IV_LENGTH) combined) (drop (Z.to_nat IV_LENGTH) combined) with
        | Some plaintext => inr plaintext
        | None => inl PayloadDecryptError
        end
  end.

(** The optional compression: the flags and the body. *)
Definition compress_frame (frame : bytes) : Z * bytes :=
  if MIN_COMPRESS_BYTES <=? zlen frame then
    match zstdCompress frame with
    | Some compressed =>
        if zlen compressed <? zlen frame then (Z.lor 0 FLAG_ZSTD, compressed) else (0, frame)
    | None => (0, frame)
    end
  else (0, frame).

Definition encodePayloadBlob (key : option Key) (iv frame : bytes) : result bytes :=
  let '(flags, body) := compress_frame frame in
  then_ (encryptBytes key iv body) (λ encrypted,
    match encrypted with
    | Some e => inr (Z.lor flags FLAG_ENCRYPTED :: e)
    | None => inr (flags :: body)
    end).

Definition decodePayloadBlob (key : option Key) (blob : bytes) : result json :=
  match blob with
  | [] => inl BlobEmpty
  | flags :: body =>
      if negb (Z.land flags (Z.lnot KNOWN_FLAGS) =? 0) then inl BlobUnknownFlags
      else
        then_ (if negb (Z.land flags FLAG_ENCRYPTED =? 0) then decryptBytes key body else inr body)
          (λ body,
             then_ (if negb (Z.land flags FLAG_ZSTD =? 0)
                    then match zstdDecompress body with
                         | Some d => inr d
                         | None => inl ZstdError
                         end
                    else inr body)
               (λ body, envelopeFromPayloadFrame parseJSON body))
  end.
End blob.

(** * Lemmas *)

(** Linear arithmetic with quotients and remainders by constants. *)
Ltac div_lia := Z.to_euclidean_division_equations; lia.

(** The encoding has the length counted, so the length check never fails. *)
Lemma utf8_length s : zlen (utf8_encode s) = byteLength s.
Proof.
  assert (∀ n, (length s <= n)%nat → zlen (utf8_encode s) = byteLength s) as H; [|by apply (H (length s))].
  intros n. revert s. induction n as [|n IH]; intros s Hn; destruct s as [|u s]; simpl in Hn; try lia; [done|done|].
  unfold zlen in *. cbn [utf8_encode byteLength]. destruct (u <? 128).
  { cbn [length]. rewrite <-(IH s) by lia. lia. }
  destruct (u <? 2048); [cbn [length]; rewrite <-(IH s) by lia; lia|].
  destruct (is_high u).
  - destruct s as [|l s]; [done|]. simpl in Hn. destruct (is_low l).
    + rewrite length_app, <-(IH s) by lia. simpl. lia.
    + rewrite length_app, <-(IH (l :: s)) by (simpl; lia). simpl. lia.
  - destruct (is_low u); rewrite length_app, <-(IH s) by lia; simpl; lia.
Qed.

Lemma base64_value_char n : 0 <= n < 64 → base64_value (base64_char n) = Some n.
Proof.
  intros Hn. unfold base64_value, base64_char.
  set (k := if n <? 26 then _ else _).
  assert (0 <= k < 256) as Hk by (unfold k; repeat case_match; prop_bools; lia).
  rewrite Ascii.N_ascii_embedding by lia. rewrite Z2N.id by lia. subst k.
  repeat case_match; prop_bools; try (f_equal; lia); exfalso;
    repeat match goal with H : (_ && _) = false |- _ => apply andb_false_iff in H as [H|H] end;
    prop_bools; lia.
Qed.

(** Reading a body back gives the bytes that were stored. *)
Lemma base64_roundtrip b : Forall is_byte b → base64_decode (base64_encode b) = Some b.
Proof.
  assert (∀ n, (length b <= n)%nat → Forall is_byte b → base64_decode (base64_encode b) = Some b) as H;
    [|by apply (H (length b))].
  intros n. revert b. induction n as [|n IH]; intros b Hn Hb; destruct b as [|x b]; simpl in Hn; try lia; try done.
  apply Forall_cons in Hb as [Hx Hb]. unfold is_byte in Hx.
  destruct b as [|y b].
  { cbn [base64_encode base64_decode]. rewrite !base64_value_char by div_lia. cbn. do 2 f_equal. div_lia. }
  apply Forall_cons in Hb as [Hy Hb]. unfold is_byte in Hy. destruct b as [|z b].
  { cbn [base64_encode base64_decode]. rewrite !base64_value_char by div_lia. cbn. do 2 f_equal; [|f_equal]; div_lia. }
  apply Forall_cons in Hb as [Hz Hb]. unfold is_byte in Hz. simpl in Hn.
  cbn [base64_encode base64_decode]. rewrite !base64_value_char by div_lia. rewrite IH by (done || lia).
  cbn [mbind option_bind]. do 2 f_equal; [div_lia|]. f_equal; [div_lia|]. f_equal. div_lia.
Qed.

Lemma put_u32le_byte n : Forall is_byte (put_u32le n).
Proof. unfold put_u32le, is_byte. repeat constructor; apply Z.mod_pos_bound; lia. Qed.

Lemma u32le_value n :
  0 <= n < 4294967296 →
  n mod 256 + 256 * (n / 256 mod 256) + 65536 * (n / 65536 mod 256)
    + 16777216 * (n / 16777216 mod 256) = n.
Proof.
  intros Hn. replace (n / 65536) with (n / 256 / 256) by (rewrite Z.div_div by lia; reflexivity).
  replace (n / 16777216) with (n / 256 / 256 / 256) by (rewrite !Z.div_div by lia; reflexivity).
  div_lia.
Qed.

Lemma get_put_u32le pre n post :
  0 <= n < 4294967296 → get_u32le (length pre) (pre ++ put_u32le n ++ post) = n.
Proof.
  intros Hn. unfold get_u32le. cbv beta zeta.
  assert (∀ i (l : bytes), (pre ++ l) !! (length pre + i)%nat = l !! i) as Hi.
  { intros i l. rewrite lookup_app_r by lia. f_equal. lia. }
  rewrite !Hi. exact (u32le_value n Hn).
Qed.

Lemma put_get_u32le offset frame :
  Forall is_byte frame → (offset + 4 <= length frame)%nat →
  put_u32le (get_u32le offset frame) = take 4 (drop offset frame) ∧
  0 <= get_u32le offset frame < 4294967296.
Proof.
  intros Hb Hl. unfold get_u32le. cbv beta zeta.
  assert (∀ i, (i < 4)%nat → ∃ b, frame !! (offset + i)%nat = Some b ∧ is_byte b) as Hget.
  { intros i Hi. destruct (lookup_lt_is_Some_2 frame (offset + i)) as [b Hf]; [lia|]. exists b.
    split; [done|]. by eapply Forall_lookup_1. }
  destruct (Hget 0%nat) as (b0 & E0 & H0), (Hget 1%nat) as (b1 & E1 & H1),
    (Hget 2%nat) as (b2 & E2 & H2), (Hget 3%nat) as (b3 & E3 & H3); try lia.
  rewrite E0, E1, E2, E3. unfold is_byte in *. simpl. split; [|lia].
  assert (take 4 (drop offset frame) = [b0; b1; b2; b3]) as ->.
  { apply list_eq. intros i. destruct (decide (i < 4)%nat) as [Hi|Hi].
    - rewrite lookup_take_lt, lookup_drop by lia.
      destruct i as [|[|[|[|i]]]]; simpl; [done..|lia].
    - rewrite lookup_take_ge by lia. symmetry. apply lookup_ge_None_2. simpl. lia. }
  unfold put_u32le. repeat (f_equal; [div_lia|]). f_equal. div_lia.
Qed.

Lemma slice_mid pre mid post : slice (zlen pre) (zlen mid) (pre ++ mid ++ post) = mid.
Proof. unfold slice, zlen. by rewrite !Nat2Z.id, drop_app_length, take_app_length. Qed.

Lemma zlen_app {A} (l k : list A) : zlen (l ++ k) = zlen l + zlen k.
Proof. unfold zlen. rewrite length_app. lia. Qed.

Lemma zlen_nonneg {A} (l : list A) : 0 <= zlen l.
Proof. unfold zlen. lia. Qed.

Lemma zlen_zero {A} (l : list A) : zlen l = 0 ↔ l = [].
Proof. unfold zlen. destruct l; simpl; split; done || lia. Qed.

Lemma chunksBytes_concat chunks : chunksBytes chunks = zlen (concat chunks).
Proof.
  unfold chunksBytes. enough (∀ t, foldl (λ total chunk, total + zlen chunk) t chunks
    = t + zlen (concat chunks)) as H by (rewrite H; lia).
  induction chunks as [|c cs IH]; intros t; simpl; [unfold zlen; simpl; lia|].
  rewrite IH, zlen_app. lia.
Qed.

(** The layout of a frame with these parts. *)
Definition length_field (body : bytes) : Z := if 0 <? zlen body then zlen body else NULL_BODY.

Definition frame_layout (skeleton request response : bytes) : bytes :=
  put_u32le (zlen skeleton) ++ put_u32le (length_field request) ++ put_u32le (length_field response)
  ++ skeleton ++ request ++ response.

Lemma build_layout skeleton req chunks :
  buildPayloadFrame skeleton req chunks =
    inr (frame_layout (utf8_encode skeleton) (default [] req) (concat chunks)).
Proof.
  unfold buildPayloadFrame. rewrite utf8_length, Z.eqb_refl. simpl negb. cbv iota. f_equal.
  unfold frame_layout, length_field. rewrite <-utf8_length, chunksBytes_concat, !app_assoc.
  assert (body_bytes req = zlen (default [] req)) as -> by (by destruct req).
  destruct (0 <? zlen (default [] req)) eqn:E; [done|].
  assert (default [] req = []) as ->; [|done]. apply zlen_zero. prop_bools. pose proof (zlen_nonneg (default [] req)). lia.
Qed.

Lemma length_field_ok body : zlen body < NULL_BODY → 0 < length_field body < 4294967296 ∧
  (if length_field body =? NULL_BODY then 0 else length_field body) = zlen body ∧
  (length_field body =? NULL_BODY) = bool_decide (body = []).
Proof.
  intros Hl. unfold length_field. pose proof (zlen_nonneg body). pose proof (zlen_zero body) as Hz.
  destruct (0 <? zlen body) eqn:E; prop_bools.
  - unfold NULL_BODY in *. destruct (zlen body =? 4294967295) eqn:E2; prop_bools; [lia|].
    rewrite bool_decide_eq_false_2; [lia|]. intros ->. unfold zlen in E. simpl in E. lia.
  - rewrite bool_decide_eq_true_2 by (apply Hz; lia). unfold NULL_BODY. rewrite Z.eqb_refl.
    split_and!; lia || done.
Qed.

Section parsing.
Context (parseJSON : bytes → option json).

(** The JSON value stored for a body. *)
Definition body_value (body : bytes) : json :=
  if bool_decide (body = []) then JNull else JString (base64_encode body).

(** Parsing a well laid out frame. *)
Lemma parse_layout sk req resp :
  zlen sk < 4294967296 → zlen req < NULL_BODY → zlen resp < NULL_BODY →
  envelopeFromPayloadFrame parseJSON (frame_layout sk req resp) =
    match parseJSON sk with
    | None => inl SkeletonSyntax
    | Some v =>
        if isEnvelopeSkeleton v
        then inr (set_body "response" (body_value resp) (set_body "request" (body_value req) v))
        else inl SkeletonNotEnvelope
    end.
Proof.
  intros Hs Hq Hr. destruct (length_field_ok req Hq) as (Hq1 & Hq2 & Hq3).
  destruct (length_field_ok resp Hr) as (Hr1 & Hr2 & Hr3). pose proof (zlen_nonneg sk).
  set (h1 := put_u32le (zlen sk)). set (h2 := put_u32le (length_field req)).
  set (h3 := put_u32le (length_field resp)).
  assert (get_u32le 0 (frame_layout sk req resp) = zlen sk) as G1.
  { apply (get_put_u32le [] (zlen sk)). lia. }
  assert (get_u32le 4 (frame_layout sk req resp) = length_field req) as G2.
  { apply (get_put_u32le h1 (length_field req)). lia. }
  assert (get_u32le 8 (frame_layout sk req resp) = length_field resp) as G3.
  { unfold frame_layout. rewrite app_assoc. apply (get_put_u32le (h1 ++ h2) (length_field resp)). lia. }
  assert (frame_layout sk req resp = (h1 ++ h2 ++ h3) ++ sk ++ req ++ resp) as Hlay
    by (unfold frame_layout; by rewrite <-!app_assoc).
  assert (zlen (h1 ++ h2 ++ h3) = 12) as Hh by done.
  assert (zlen (frame_layout sk req resp) = 12 + zlen sk + zlen req + zlen resp) as Hlen.
  { rewrite Hlay, zlen_app, Hh, !zlen_app. lia. }
  unfold envelopeFromPayloadFrame. rewrite G1, G2, G3, Hq2, Hr2, Hlen.
  pose proof (zlen_nonneg req). pose proof (zlen_nonneg resp). unfold HEADER_BYTES.
  rewrite (proj2 (Z.ltb_ge _ _)) by lia. rewrite Z.eqb_refl. simpl negb. cbv iota.
  rewrite !(proj2 (Z.eqb_neq (length_field _) 0)) by lia. simpl orb. cbv iota.
  replace (slice 12 (zlen sk) (frame_layout sk req resp)) with sk.
  2: { rewrite Hlay, <-Hh. symmetry. apply slice_mid. }
  destruct (parseJSON sk) as [v|]; [|done]. destruct (isEnvelopeSkeleton v); [|done].
  simpl negb. cbv iota. unfold body_json, body_value. rewrite Hq3, Hr3.
  replace (slice (12 + zlen sk) (zlen req) (frame_layout sk req resp)) with req.
  2: { rewrite Hlay, app_assoc, <-Hh, <-zlen_app. symmetry. apply slice_mid. }
  replace (slice (12 + zlen sk + zlen req) (zlen resp) (frame_layout sk req resp)) with resp.
  2: { pose proof (slice_mid ((h1 ++ h2 ++ h3) ++ sk ++ req) resp []) as Hm.
       rewrite app_nil_r, zlen_app, Hh, zlen_app, Z.add_assoc in Hm. rewrite Hlay.
       rewrite <-!app_assoc in *. by rewrite Hm. }
  by do 2 case_bool_decide.
Qed.
End parsing.

Lemma split_header (frame : bytes) :
  (12 <= length frame)%nat →
  frame = take 4 (drop 0 frame) ++ take 4 (drop 4 frame) ++ take 4 (drop 8 frame) ++ drop 12 frame.
Proof.
  intros Hl. do 12 (destruct frame as [|? frame]; [simpl in Hl; lia|]). done.
Qed.

(** A frame that parses is laid out by its own parts. *)
Lemma parsed_layout parseJSON frame env :
  Forall is_byte frame → envelopeFromPayloadFrame parseJSON frame = inr env →
  ∃ sk req resp, frame = frame_layout sk req resp ∧ zlen sk < 4294967296 ∧
    zlen req < NULL_BODY ∧ zlen resp < NULL_BODY.
Proof.
  intros Hb. unfold envelopeFromPayloadFrame.
  destruct (zlen frame <? HEADER_BYTES) eqn:El; [done|]. prop_bools. unfold HEADER_BYTES, zlen in El.
  destruct (put_get_u32le 0 frame Hb) as [P1 R1]; [lia|].
  destruct (put_get_u32le 4 frame Hb) as [P2 R2]; [lia|].
  destruct (put_get_u32le 8 frame Hb) as [P3 R3]; [lia|].
  set (n1 := get_u32le 0 frame) in *. set (n2 := get_u32le 4 frame) in *. set (n3 := get_u32le 8 frame) in *.
  set (l2 := if n2 =? NULL_BODY then 0 else n2). set (l3 := if n3 =? NULL_BODY then 0 else n3).
  destruct (HEADER_BYTES + n1 + l2 + l3 =? zlen frame) eqn:Elen; [|done]. prop_bools.
  destruct ((n2 =? 0) || (n3 =? 0)) eqn:Ez; [done|]. prop_bools. intros _.
  assert (∀ n, n ≠ 0 → 0 <= n < 4294967296 → let l := if n =? NULL_BODY then 0 else n in
    0 <= l < NULL_BODY ∧ ∀ body, zlen body = l → length_field body = n) as Hfield.
  { intros n Hn Hr. unfold NULL_BODY, length_field in *. destruct (n =? 4294967295) eqn:E; prop_bools.
    - split; [lia|]. intros body Hl. rewrite Hl. symmetry. exact E.
    - split; [lia|]. intros body Hl. rewrite Hl. by rewrite (proj2 (Z.ltb_lt 0 n)) by lia. }
  destruct (Hfield n2) as [B2 F2]; [lia|lia|]. destruct (Hfield n3) as [B3 F3]; [lia|lia|].
  fold l2 in B2, F2. fold l3 in B3, F3. unfold HEADER_BYTES, zlen in Elen.
  assert (∀ k (l : bytes), (k <= length l)%nat → zlen (take k l) = Z.of_nat k) as Htake.
  { intros k l Hk. unfold zlen. rewrite length_take. lia. }
  set (body := drop 12 frame).
  assert (length body = length frame - 12)%nat as Hbody by apply length_drop.
  exists (take (Z.to_nat n1) body), (take (Z.to_nat l2) (drop (Z.to_nat n1) body)),
    (drop (Z.to_nat l2) (drop (Z.to_nat n1) body)).
  assert (zlen (take (Z.to_nat n1) body) = n1) as L1 by (rewrite Htake; lia).
  assert (zlen (take (Z.to_nat l2) (drop (Z.to_nat n1) body)) = l2) as L2
    by (rewrite Htake; rewrite ?length_drop; lia).
  assert (zlen (drop (Z.to_nat l2) (drop (Z.to_nat n1) body)) = l3) as L3
    by (unfold zlen; rewrite !length_drop; lia).
  split_and!; [|lia|lia|lia]. unfold frame_layout. rewrite L1, (F2 _ L2), (F3 _ L3), P1, P2, P3.
  rewrite !take_drop. apply split_header. lia.
Qed.

(** ** The rebuilt envelope *)

Lemma field_set_field k k' x v :
  isPlainObject v = true →
  json_field k (set_field k' x v) = if decide (k' = k) then Some x else json_field k v.
Proof. destruct v; try done. intros _. simpl. apply alist_get_set. Qed.

Lemma plain_set_field k x v : isPlainObject (set_field k x v) = isPlainObject v.
Proof. by destruct v. Qed.

Lemma envelope_spec v :
  isEnvelopeSkeleton v = true →
  isPlainObject v = true ∧
  ∀ part, part = "request"%string ∨ part = "response"%string →
    ∃ p, json_field part v = Some p ∧ isPlainObject p = true ∧ json_field "body" p = Some JNull.
Proof.
  unfold isEnvelopeSkeleton. destruct (isPlainObject v); [|done]. simpl.
  destruct (json_field "request" v) as [rq|] eqn:Eq; [|done].
  destruct (json_field "response" v) as [rs|] eqn:Er; [|done]. intros H. prop_bools.
  assert (∀ o, is_null o = true → o = Some JNull) as Hn by (intros [[]|]; done).
  split; [done|]. intros part [->| ->]; [exists rq|exists rs]; auto.
Qed.

(** A field of a part of an envelope. *)
Definition part_field (part key : string) (env : json) : option json :=
  json_field part env ≫= json_field key.

Lemma set_body_spec part b v p :
  isPlainObject v = true → json_field part v = Some p → isPlainObject p = true →
  part_field part "body" (set_body part b v) = Some b ∧
  (∀ k, k ≠ "body"%string → part_field part k (set_body part b v) = part_field part k v) ∧
  (∀ k, k ≠ part → json_field k (set_body part b v) = json_field k v) ∧
  isPlainObject (set_body part b v) = true.
Proof.
  intros Hv Hp Hpl. unfold part_field, set_body. rewrite Hp. cbn [mbind option_bind]. split_and!.
  - rewrite field_set_field, decide_True by done. cbn [mbind option_bind].
    by rewrite field_set_field, decide_True.
  - intros k Hk. rewrite field_set_field, decide_True by done. cbn [mbind option_bind].
    by rewrite field_set_field, decide_False.
  - intros k Hk. by rewrite field_set_field, decide_False.
  - by rewrite plain_set_field.
Qed.

(** The envelope a parse returns: the skeleton with its two bodies filled in. *)
Definition filled_with (v : json) (request response : json) (env : json) : Prop :=
  part_field "request" "body" env = Some request ∧
  part_field "response" "body" env = Some response ∧
  (∀ part k, part = "request"%string ∨ part = "response"%string → k ≠ "body"%string →
     part_field part k env = part_field part k v) ∧
  (∀ k, k ≠ "request"%string → k ≠ "response"%string → json_field k env = json_field k v).

Lemma filled_ok v rq rs :
  isEnvelopeSkeleton v = true →
  filled_with v rq rs (set_body "response" rs (set_body "request" rq v)).
Proof.
  intros [Hv Hparts]%envelope_spec.
  destruct (Hparts "request"%string) as (p & Hp & Hpl & _); [by left|].
  destruct (Hparts "response"%string) as (q & Hq & Hql & _); [by right|].
  destruct (set_body_spec "request" rq v p Hv Hp Hpl) as (A1 & A2 & A3 & A4).
  destruct (set_body_spec "response" rs (set_body "request" rq v) q A4) as (B1 & B2 & B3 & B4);
    [by rewrite A3|done|].
  assert (∀ k, part_field "request" k (set_body "response" rs (set_body "request" rq v)) =
               part_field "request" k (set_body "request" rq v)) as Hreq
    by (intros k; unfold part_field; by rewrite B3).
  split_and!.
  - by rewrite Hreq.
  - done.
  - intros part k [->| ->] Hk; [by rewrite Hreq, A2|]. rewrite B2 by done. unfold part_field. by rewrite A3.
  - intros k H1 H2. by rewrite B3, A3.
Qed.

(** What a reader makes of a stored body. *)
Definition read_body (v : option json) : option bytes :=
  match v with
  | Some JNull => Some []
  | Some (JString s) => base64_decode s
  | _ => None
  end.

Lemma read_body_value b : Forall is_byte b → read_body (Some (body_value b)) = Some b.
Proof.
  intros Hb. unfold body_value. case_bool_decide as H; [by rewrite H|]. by apply base64_roundtrip.
Qed.

(** Bytes with the header of a frame that parses, and another length. *)
Lemma length_mismatch parseJSON frame env other :
  envelopeFromPayloadFrame parseJSON frame = inr env →
  (∀ i, (i < 12)%nat → other !! i = frame !! i) → length other ≠ length frame →
  (12 <= length other)%nat →
  envelopeFromPayloadFrame parseJSON other = inl FrameLengthMismatch.
Proof.
  intros He Hsame Hlen H12. unfold envelopeFromPayloadFrame in *.
  assert (∀ o, (o <= 8)%nat → get_u32le o other = get_u32le o frame) as Hg.
  { intros o Ho. unfold get_u32le. cbv beta zeta. by rewrite !Hsame by lia. }
  rewrite !Hg by lia. rewrite (proj2 (Z.ltb_ge (zlen other) _)) by (unfold zlen, HEADER_BYTES; lia).
  destruct (zlen frame <? HEADER_BYTES); [done|].
  destruct (_ =? zlen frame) eqn:E1 in He; [|done]. prop_bools.
  destruct (_ =? zlen other) eqn:E2; [|done]. prop_bools. unfold zlen in *. lia.
Qed.

(** * Properties *)

(** C36: a frame gives its parts back. For any skeleton that parses to an envelope with null
    bodies and bodies below 4 GiB, the builder succeeds (the UTF-8 length it allocates is
    the length it writes), the frame has the size that was reserved for it, and parsing it
    returns the skeleton unchanged but for its two bodies, each of which reads back as
    exactly the bytes given: null for an absent or empty body, and the response chunks in
    order. *)
Theorem frame_roundtrip parseJSON skeleton v requestBody responseChunks :
  parseJSON (utf8_encode skeleton) = Some v → isEnvelopeSkeleton v = true →
  Forall is_byte (default [] requestBody) → Forall is_byte (concat responseChunks) →
  byteLength skeleton < 4294967296 → body_bytes requestBody < NULL_BODY →
  chunksBytes responseChunks < NULL_BODY →
  ∃ frame env rq rs,
    buildPayloadFrame skeleton requestBody responseChunks = inr frame ∧
    zlen frame = payloadFrameBytes skeleton requestBody responseChunks ∧
    envelopeFromPayloadFrame parseJSON frame = inr env ∧
    filled_with v rq rs env ∧
    read_body (Some rq) = Some (default [] requestBody) ∧
    read_body (Some rs) = Some (concat responseChunks) ∧
    (rq = JNull ↔ default [] requestBody = []) ∧ (rs = JNull ↔ concat responseChunks = []).
Proof.
  intros Hp Hv Hbq Hbr Hs Hq Hr. rewrite chunksBytes_concat in Hr.
  assert (body_bytes requestBody = zlen (default [] requestBody)) as Hbody by (by destruct requestBody).
  rewrite Hbody in Hq. rewrite <-utf8_length in Hs.
  assert (∀ b, body_value b = JNull ↔ b = []) as Hnull
    by (intros b; unfold body_value; case_bool_decide; done).
  eexists _, _, (body_value (default [] requestBody)), (body_value (concat responseChunks)). split_and!.
  - apply build_layout.
  - unfold payloadFrameBytes, frame_layout. rewrite chunksBytes_concat, Hbody, <-utf8_length, !zlen_app.
    change (zlen (put_u32le _)) with 4. unfold HEADER_BYTES. lia.
  - rewrite parse_layout by done. rewrite Hp, Hv. reflexivity.
  - by apply filled_ok.
  - by apply read_body_value.
  - by apply read_body_value.
  - apply Hnull.
  - apply Hnull.
Qed.

(** only intact frames parse. A frame that parses is, byte for byte, the layout the
    builder writes for some skeleton and bodies, whose envelope it returns; cutting any
    bytes off its end, or appending any, makes it fail with a length error rather than
    yield another envelope. *)
Theorem frame_canonical parseJSON frame env :
  Forall is_byte frame → envelopeFromPayloadFrame parseJSON frame = inr env →
  (∃ sk v req resp, frame = frame_layout sk req resp ∧ parseJSON sk = Some v ∧
     isEnvelopeSkeleton v = true ∧ filled_with v (body_value req) (body_value resp) env) ∧
  (∀ extra, extra ≠ [] → envelopeFromPayloadFrame parseJSON (frame ++ extra) = inl FrameLengthMismatch) ∧
  (∀ n, (n < length frame)%nat →
     envelopeFromPayloadFrame parseJSON (take n frame) = inl FrameTooShort ∨
     envelopeFromPayloadFrame parseJSON (take n frame) = inl FrameLengthMismatch).
Proof.
  intros Hb He. destruct (parsed_layout _ _ _ Hb He) as (sk & req & resp & Hf & Hs & Hq & Hr).
  split; [|split].
  - subst frame. rewrite parse_layout in He by done.
    destruct (parseJSON sk) as [v|] eqn:Ep; [|done]. destruct (isEnvelopeSkeleton v) eqn:Ev; [|done].
    injection He as <-. exists sk, v, req, resp. split_and!; try done. by apply filled_ok.
  - assert (12 <= length frame)%nat as H12.
    { unfold envelopeFromPayloadFrame in He. destruct (zlen frame <? HEADER_BYTES) eqn:El; [done|].
      prop_bools. unfold zlen, HEADER_BYTES in El. lia. }
    intros extra Hx. apply (length_mismatch parseJSON frame env); [done|..].
    + intros i Hi. apply lookup_app_l. lia.
    + rewrite length_app. destruct extra; [done|]. simpl. lia.
    + rewrite length_app. lia.
  - intros n Hn. destruct (decide (n < 12)%nat) as [Hlt|Hge].
    + left. unfold envelopeFromPayloadFrame. rewrite (proj2 (Z.ltb_lt _ _)); [done|].
      unfold zlen, HEADER_BYTES. rewrite length_take. lia.
    + right. apply (length_mismatch parseJSON frame env); [done|..].
      * intros i Hi. apply lookup_take_lt. lia.
      * rewrite length_take. lia.
      * rewrite length_take. lia.
Qed.


#[local] Arguments decryptBytes {Key} decrypt key combined : simpl never.

(** a stored blob decodes to the envelope of its frame, whatever was configured. With
    zstd that inverts and AES-GCM that inverts under the same key and IV, encoding a frame
    that parses either fails because the encryption itself was refused, or yields a blob
    that decodes to the frame's envelope. With a key configured the blob is flagged as
    encrypted, holds the IV and the ciphertext only, and without the key reads as a
    decryption error, never as other data; without one it is never more than one byte
    longer than the frame. Empty blobs and unknown flags are errors. *)
Theorem blob_roundtrip {Key} parseJSON zstdCompress zstdDecompress
    (encrypt decrypt : Key → bytes → bytes → option bytes) (key : option Key) iv frame env :
  (∀ f c, zstdCompress f = Some c → zstdDecompress c = Some f) →
  (∀ k iv p c, encrypt k iv p = Some c → c ≠ [] ∧ decrypt k iv c = Some p) →
  zlen iv = IV_LENGTH → envelopeFromPayloadFrame parseJSON frame = inr env →
  let decode := decodePayloadBlob parseJSON zstdDecompress decrypt in
  match encodePayloadBlob zstdCompress encrypt key iv frame with
  | inl e => e = EncryptError ∧ is_Some key
  | inr blob =>
      decode key blob = inr env ∧
      match key with
      | Some k =>
          (∃ flags plain c, blob = flags :: iv ++ c ∧ encrypt k iv plain = Some c ∧
             Z.testbit flags 1 = true) ∧
          decode None blob = inl PayloadDecryptError
      | None => zlen blob <= zlen frame + 1
      end
  end ∧
  decode key [] = inl BlobEmpty ∧
  (∀ flags body, Z.land flags (Z.lnot 3) ≠ 0 → decode key (flags :: body) = inl BlobUnknownFlags).
Proof.
  intros Hz Ha Hiv He decode. split_and!; [|done|].
  2: { intros flags body Hfl. unfold decode, decodePayloadBlob.
       change KNOWN_FLAGS with 3. by rewrite (proj2 (Z.eqb_neq _ _)) by done. }
  assert (∃ flags body, compress_frame zstdCompress frame = (flags, body) ∧ zlen body <= zlen frame ∧
    ((flags = 0 ∧ body = frame) ∨ (flags = 1 ∧ zstdDecompress body = Some frame)))
    as (flags & body & Hc & Hle & Hfl).
  { unfold compress_frame. destruct (_ <=? zlen frame); [|by exists 0, frame; split_and!; auto with lia].
    destruct (zstdCompress frame) as [c|] eqn:Ec; [|by exists 0, frame; split_and!; auto with lia].
    destruct (zlen c <? zlen frame) eqn:El; prop_bools; [|by exists 0, frame; split_and!; auto with lia].
    exists 1, c. split_and!; [done|lia|right; split; [done|by apply Hz]]. }
  assert (then_ (if negb (Z.land flags FLAG_ZSTD =? 0)
                 then match zstdDecompress body with Some d => inr d | None => inl ZstdError end
                 else inr body) (λ b, envelopeFromPayloadFrame parseJSON b) = inr env) as Htail.
  { destruct Hfl as [[-> ->]|[-> Hd]]; simpl; [done|]. by rewrite Hd. }
  unfold encodePayloadBlob. rewrite Hc. destruct key as [k|]; simpl.
  - destruct (encrypt k iv body) as [c|] eqn:Ee; simpl; [|by split].
    destruct (Ha k iv body c Ee) as [Hne Hd].
    assert (decryptBytes decrypt (Some k) (iv ++ c) = inr body) as Hdec.
    { unfold decryptBytes. rewrite zlen_app, Hiv. pose proof (zlen_nonneg c).
      destruct (zlen c =? 0) eqn:Ez; prop_bools; [by apply zlen_zero in Ez|].
      rewrite (proj2 (Z.leb_gt _ _)) by lia.
      replace (Z.to_nat IV_LENGTH) with (length iv) by (unfold zlen in Hiv; lia).
      by rewrite take_app_length, drop_app_length, Hd. }
    destruct Hfl as [[-> Hb]|[-> Hb]]; unfold decode, decodePayloadBlob; simpl in Htail |- *;
      (split; [rewrite Hdec; exact Htail|split; [|done]]); by eexists _, body, c.
  - destruct Hfl as [[-> Hb]|[-> Hb]]; (split; [exact Htail|]); unfold zlen in *; simpl; lia.
Qed.

(** * Witnesses *)

(** A parser that knows one skeleton, and a cipher that adds a byte. *)
Definition demo_skeleton : js_string := [123; 125].
Definition demo_envelope : json :=
  JObject [("id", JString "r1"); ("request", JObject [("body", JNull); ("m", JString "x")]);
           ("response", JObject [("body", JNull)])]%string.
Definition demo_parse (b : bytes) : option json :=
  if bool_decide (b = [123; 125]) then Some demo_envelope else None.
Definition demo_frame : bytes := frame_layout [123; 125] [104; 105] [].
Definition demo_encrypt (k : Z) (iv p : bytes) : option bytes := Some (k :: p).
Definition demo_decrypt (k : Z) (iv c : bytes) : option bytes :=
  match c with b :: p => if b =? k then Some p else None | [] => None end.
Definition demo_iv : bytes := replicate 12 7.
Definition demo_filled : json :=
  JObject [("id", JString "r1"); ("request", JObject [("body", JString "aGk="); ("m", JString "x")]);
           ("response", JObject [("body", JNull)])]%string.

Lemma frame_roundtrip_witness :
  buildPayloadFrame demo_skeleton (Some [104; 105]) [] = inr demo_frame ∧
  ∃ rq, read_body (Some rq) = Some [104; 105].
Proof.
  split; [vm_compute; reflexivity|].
  destruct (frame_roundtrip demo_parse demo_skeleton demo_envelope (Some [104; 105]) [])
    as (f & e & rq & rs & _ & _ & _ & _ & H & _).
  1-2: vm_compute; reflexivity.
  1: repeat constructor; done.
  1: constructor.
  1-3: vm_compute; reflexivity.
  exists rq. exact H.
Defined.

Lemma frame_canonical_witness :
  envelopeFromPayloadFrame demo_parse demo_frame = inr demo_filled ∧
  envelopeFromPayloadFrame demo_parse (demo_frame ++ [0]) = inl FrameLengthMismatch.
Proof.
  assert (Forall is_byte demo_frame) as Hb.
  { apply (bool_decide_unpack _). vm_compute. exact I. }
  destruct (frame_canonical demo_parse demo_frame demo_filled Hb eq_refl) as (_ & H & _).
  split; [vm_compute; reflexivity|]. by apply H.
Defined.

Lemma blob_roundtrip_witness :
  encodePayloadBlob (λ _, None) demo_encrypt (Some 9) demo_iv demo_frame
    = inr (2 :: demo_iv ++ 9 :: demo_frame) ∧
  decodePayloadBlob demo_parse (λ _, None) demo_decrypt None (2 :: demo_iv ++ 9 :: demo_frame)
    = inl PayloadDecryptError.
Proof.
  split; [vm_compute; reflexivity|].
  destruct (blob_roundtrip demo_parse (λ _, None) (λ _, None) demo_encrypt demo_decrypt (Some 9) demo_iv
    demo_frame demo_filled) as (H & _).
  - done.
  - intros k iv p c [= <-]. split; [done|]. simpl. by rewrite Z.eqb_refl.
  - vm_compute. reflexivity.
  - vm_compute. reflexivity.
  - apply H.
Defined.
