(* ===== verification/PayloadWorker.v ===== *)
(** The off-thread payload writer: [packages/database/src/payload-write-worker.ts], with the
    error classes of [packages/database/src/sqlite-error.ts].

    A thrown value is the record [Thrown]. SQLite is reached through the class
    [PayloadWriteDb]; [SqliteConn] states what this connection may do, statement by
    statement, as the relation [sql_step]: a statement takes effect, or throws and leaves
    the transaction as it was, or throws after SQLite rolled the transaction back by
    itself. The batch timer is the flag [timer]; [FireTimer] is its firing. The rows of a
    write are the columns of [request_payloads]; the text column is always empty. *)

From S2P Require Import Prelude.
Open Scope Z_scope.

(** * Error classes *)

Inductive PayloadWriteErrorClass : Type := entry_permanent | retryable | writer_fatal.

#[export] Instance PayloadWriteErrorClass_eq_dec : EqDecision PayloadWriteErrorClass.
Proof. solve_decision. Defined.

(** A caught value: whether it is an object (null is not), its fields of the expected
    types, whether it is an [Error], and what [String] makes of it. *)
Record Thrown := {
  th_object : bool;
  th_errno : option Z;
  th_code : option string;
  th_message : option string;
  th_isError : bool;
  th_string : string
}.

Definition primaryCode (err : Thrown) : option Z :=
  if negb (th_object err) then None else (λ n, Z.land n 255) <$> th_errno err.

Definition symbolicCode (err : Thrown) : option string :=
  if negb (th_object err) then None else th_code err.

Definition errorDetail (err : Thrown) : string :=
  if th_isError err then
    match truthy_string (symbolicCode err) with
    | Some code => code +:+ ": " +:+ default "" (th_message err)
    | None => default "" (th_message err)
    end
  else th_string err.

Definition isTransientLockError (err : Thrown) : bool :=
  if negb (th_object err) then false
  else
    match th_errno err with
    | Some n => (Z.land n 255 =? 5) || (Z.land n 255 =? 6)
    | None => false
    end
    || match th_code err with
       | Some c => startsWith c "SQLITE_BUSY" || startsWith c "SQLITE_LOCKED"
       | None => false
       end
    || match th_message err with
       | Some m => includes m "database is locked" || includes m "database table is locked"
       | None => false
       end.

Definition isCorruptionError (err : Thrown) : bool :=
  if negb (th_object err) then false
  else
    match th_errno err with
    | Some n => (Z.land n 255 =? 11) || (Z.land n 255 =? 26)
    | None => false
    end
    || match th_code err with
       | Some c => startsWith c "SQLITE_CORRUPT" || startsWith c "SQLITE_NOTADB"
       | None => false
       end
    || match th_message err with
       | Some m =>
           let m := toLowerCase m in
           includes m "disk image is malformed" || includes m "malformed database schema"
           || includes m "database schema is corrupt" || includes m "is not a database"
       | None => false
       end.

Definition WRITER_FATAL_PRIMARY_CODES : list Z := [8; 10; 11; 13; 14; 26].

Definition RETRYABLE_EXTENDED_CODES : list string :=
  ["SQLITE_IOERR_LOCK"; "SQLITE_IOERR_RDLOCK"; "SQLITE_IOERR_UNLOCK";
   "SQLITE_IOERR_CHECKRESERVEDLOCK"; "SQLITE_IOERR_ACCESS"; "SQLITE_PROTOCOL"]%string.

Definition ENTRY_PERMANENT_PRIMARY_CODES : list Z := [18; 19; 20; 25].

(** [extended && RETRYABLE_EXTENDED_CODES.has(extended)] *)
Definition has_retryable_code (err : Thrown) : bool :=
  match truthy_string (symbolicCode err) with
  | Some extended => bool_decide (extended ∈ RETRYABLE_EXTENDED_CODES)
  | None => false
  end.

Definition has_primary (codes : list Z) (err : Thrown) : bool :=
  match primaryCode err with
  | Some primary => bool_decide (primary ∈ codes)
  | None => false
  end.

Definition classifyRowError (err : Thrown) : PayloadWriteErrorClass :=
  if isTransientLockError err then retryable
  else if has_retryable_code err then retryable
  else if isCorruptionError err then writer_fatal
  else if has_primary WRITER_FATAL_PRIMARY_CODES err then writer_fatal
  else if has_primary ENTRY_PERMANENT_PRIMARY_CODES err then entry_permanent
  else entry_permanent.

Definition classifyCommitError (err : Thrown) : PayloadWriteErrorClass :=
  if isTransientLockError err then retryable
  else if has_retryable_code err then retryable
  else writer_fatal.

(** * The wire protocol *)

Record PayloadWriteRowMessage := {
  row_seq : Z;
  row_id : string;
  row_payload : list Z;
  row_timestamp : Z
}.

Inductive PayloadWriteRequest : Type :=
  | MsgInit (generation : Z)
  | MsgWrite (row : PayloadWriteRowMessage)
  | MsgClose.

Inductive AckStatus : Type := ack_committed | ack_failed.

Record PayloadWriteAck := {
  ack_seq : Z;
  ack_id : string;
  ack_status : AckStatus;
  ack_errorClass : option PayloadWriteErrorClass;
  ack_detail : option string
}.

Inductive PayloadWriteResponse : Type :=
  | Ready (generation : Z)
  | Ack (generation : Z) (results : list PayloadWriteAck)
  | Closed (generation : Z)
  | InitError (generation : Z) (detail : string) (errorClass : PayloadWriteErrorClass).

(** * The connection *)

Record StoredRow := { st_payload : list Z; st_timestamp : Z; st_bytes : Z }.

Definition table := gmap string StoredRow.

(** The statements the engine executes; the insert carries its bindings. *)
Inductive stmt : Type :=
  | BeginImmediate
  | SavepointRow
  | InsertRow (id : string) (row : StoredRow)
  | RollbackToRow
  | ReleaseRow
  | Commit
  | Rollback.

Class PayloadWriteDb (D : Type) := db_exec : stmt → D → option Thrown * D.

(** A connection as SQLite documents it: the committed table, the transaction's own view
    while one is open, the open savepoints (all of the same name, innermost first), and
    whether a savepoint opened the transaction, in which case releasing the outermost
    savepoint commits. *)
Record sql := {
  committed : table;
  working : option table;
  marks : list table;
  by_savepoint : bool
}.

(** [INSERT ... ON CONFLICT (id) DO UPDATE] of every column *)
Definition upsert (id : string) (row : StoredRow) (t : table) : table := <[id := row]> t.

Inductive sql_step : stmt → sql → option Thrown → sql → Prop :=
  | step_begin t ms b :
      sql_step BeginImmediate {| committed := t; working := None; marks := ms; by_savepoint := b |}
        None {| committed := t; working := Some t; marks := []; by_savepoint := false |}
  | step_savepoint t w ms b :
      sql_step SavepointRow {| committed := t; working := Some w; marks := ms; by_savepoint := b |}
        None {| committed := t; working := Some w; marks := w :: ms; by_savepoint := b |}
  | step_savepoint_opens t ms b :
      sql_step SavepointRow {| committed := t; working := None; marks := ms; by_savepoint := b |}
        None {| committed := t; working := Some t; marks := [t]; by_savepoint := true |}
  | step_insert t w ms b id row :
      sql_step (InsertRow id row)
        {| committed := t; working := Some w; marks := ms; by_savepoint := b |} None
        {| committed := t; working := Some (upsert id row w); marks := ms; by_savepoint := b |}
  | step_insert_auto t ms b id row :
      sql_step (InsertRow id row)
        {| committed := t; working := None; marks := ms; by_savepoint := b |} None
        {| committed := upsert id row t; working := None; marks := ms; by_savepoint := b |}
  | step_rollback_to t w m ms b :
      sql_step RollbackToRow
        {| committed := t; working := Some w; marks := m :: ms; by_savepoint := b |} None
        {| committed := t; working := Some m; marks := m :: ms; by_savepoint := b |}
  | step_release t w m ms b :
      (b = true → ms ≠ []) →
      sql_step ReleaseRow
        {| committed := t; working := Some w; marks := m :: ms; by_savepoint := b |} None
        {| committed := t; working := Some w; marks := ms; by_savepoint := b |}
  | step_release_commits t w m :
      sql_step ReleaseRow
        {| committed := t; working := Some w; marks := [m]; by_savepoint := true |} None
        {| committed := w; working := None; marks := []; by_savepoint := false |}
  | step_commit t w ms b :
      sql_step Commit {| committed := t; working := Some w; marks := ms; by_savepoint := b |} None
        {| committed := w; working := None; marks := []; by_savepoint := false |}
  | step_rollback t w ms b :
      sql_step Rollback {| committed := t; working := Some w; marks := ms; by_savepoint := b |} None
        {| committed := t; working := None; marks := []; by_savepoint := false |}
  | step_throws s st e : sql_step s st (Some e) st
  | step_throws_aborted s st e :
      sql_step s st (Some e)
        {| committed := committed st; working := None; marks := []; by_savepoint := false |}.

Class SqliteConn (D : Type) `{PayloadWriteDb D} := {
  view : D → sql;
  exec_step s d : sql_step s (view d) (db_exec s d).1 (view (db_exec s d).2)
}.

(** * The engine *)

Definition PAYLOAD_BATCH_MAX_BYTES : Z := 4 * 1024 * 1024.
Definition PAYLOAD_BATCH_MAX_ROWS : Z := 32.

Record PendingRow := { pend_row : PayloadWriteRowMessage; pend_bytes : Z }.

Record engine := {
  pending : list PendingRow;
  pendingBytes : Z;
  timer : bool;
  fatal : option string;
  closed : bool
}.

Definition engine_init : engine :=
  {| pending := []; pendingBytes := 0; timer := false; fatal := None; closed := false |}.

Definition set_pending (q : list PendingRow) (n : Z) (e : engine) : engine :=
  {| pending := q; pendingBytes := n; timer := timer e; fatal := fatal e; closed := closed e |}.
Definition set_timer (t : bool) (e : engine) : engine :=
  {| pending := pending e; pendingBytes := pendingBytes e; timer := t; fatal := fatal e;
     closed := closed e |}.
Definition set_fatal (detail : string) (e : engine) : engine :=
  {| pending := pending e; pendingBytes := pendingBytes e; timer := timer e;
     fatal := Some detail; closed := closed e |}.
Definition set_closed (e : engine) : engine :=
  {| pending := pending e; pendingBytes := pendingBytes e; timer := timer e; fatal := fatal e;
     closed := true |}.

(** The engine, its connection, and what it has posted, oldest first. *)
Record world (D : Type) := {
  w_engine : engine;
  w_db : D;
  w_posts : list PayloadWriteResponse
}.
Arguments w_engine {D} _.
Arguments w_db {D} _.
Arguments w_posts {D} _.

Section engine.
Context {D : Type} `{!PayloadWriteDb D}.
Context (generation maxBatchBytes maxBatchRows : Z).
#[local] Open Scope state_scope.

#[warnings="-notation-for-abbreviation"]
Notation M := (state (world D)).

Definition exec (s : stmt) : M (option Thrown) := λ w,
  let '(e, d) := db_exec s (w_db w) in
  (e, {| w_engine := w_engine w; w_db := d; w_posts := w_posts w |}).

Definition post (r : PayloadWriteResponse) : M unit := st_modify (λ w,
  {| w_engine := w_engine w; w_db := w_db w; w_posts := w_posts w ++ [r] |}).

Definition modify_engine (f : engine → engine) : M unit := st_modify (λ w,
  {| w_engine := f (w_engine w); w_db := w_db w; w_posts := w_posts w |}).

Definition cancelTimer : M unit := modify_engine (set_timer false).

Definition armTimer : M unit := modify_engine (λ e, if timer e then e else set_timer true e).

(** The loop of [takeBatch]: the batch so far and its bytes; what stays queued. *)
Fixpoint take_loop (batch : list PendingRow) (bytes : Z) (queue : list PendingRow) (queued : Z)
    : list PendingRow * (list PendingRow * Z) :=
  match queue with
  | [] => (batch, ([], queued))
  | next :: rest =>
      let n := Z.of_nat (length batch) in
      if (0 <? n) && ((maxBatchRows <=? n) || (maxBatchBytes <? bytes + pend_bytes next))
      then (batch, (queue, queued))
      else take_loop (batch ++ [next]) (bytes + pend_bytes next) rest (queued - pend_bytes next)
  end.

Definition takeBatch : M (list PendingRow) := λ w,
  let e := w_engine w in
  let '(batch, (rest, bytes)) := take_loop [] 0 (pending e) (pendingBytes e) in
  (batch, {| w_engine := set_pending rest bytes e; w_db := w_db w; w_posts := w_posts w |}).

Definition committed_ack (r : PayloadWriteRowMessage) : PayloadWriteAck :=
  {| ack_seq := row_seq r; ack_id := row_id r; ack_status := ack_committed;
     ack_errorClass := None; ack_detail := None |}.

Definition failed_ack (c : PayloadWriteErrorClass) (detail : string)
    (r : PayloadWriteRowMessage) : PayloadWriteAck :=
  {| ack_seq := row_seq r; ack_id := row_id r; ack_status := ack_failed;
     ack_errorClass := Some c; ack_detail := Some detail |}.

Definition nackAll (batch : list PendingRow) (c : PayloadWriteErrorClass) (detail : string)
    : M unit :=
  post (Ack generation ((failed_ack c detail ∘ pend_row) <$> batch)).

Definition rollbackQuietly : M unit := _ <- exec Rollback ;; st_ret tt.

Definition stored (p : PendingRow) : StoredRow :=
  {| st_payload := row_payload (pend_row p); st_timestamp := row_timestamp (pend_row p);
     st_bytes := pend_bytes p |}.

(** The [try] block of one row: the first statement that throws ends it. *)
Definition insert_row (p : PendingRow) : M (option Thrown) :=
  e <- exec SavepointRow ;;
  match e with
  | Some err => st_ret (Some err)
  | None =>
      e <- exec (InsertRow (row_id (pend_row p)) (stored p)) ;;
      match e with
      | Some err => st_ret (Some err)
      | None => exec ReleaseRow
      end
  end.

(** Its inner [try]: undo the row's savepoint, swallowing a failure. *)
Definition undo_row : M unit :=
  e <- exec RollbackToRow ;;
  match e with
  | Some _ => st_ret tt
  | None => _ <- exec ReleaseRow ;; st_ret tt
  end.

(** The row loop: the results, and the detail of a database-wide failure that ended it. *)
Fixpoint write_rows (batch : list PendingRow) (results : list PayloadWriteAck)
    : M (list PayloadWriteAck * option string) :=
  match batch with
  | [] => st_ret (results, None)
  | p :: batch =>
      e <- insert_row p ;;
      match e with
      | None => write_rows batch (results ++ [committed_ack (pend_row p)])
      | Some err =>
          undo_row ;;
          match classifyRowError err with
          | writer_fatal => st_ret (results, Some (errorDetail err))
          | c => write_rows batch (results ++ [failed_ack c (errorDetail err) (pend_row p)])
          end
      end
  end.

(** [if (errorClass === "writer-fatal") fatal = ...] and the NACK of the whole batch *)
Definition fail_batch (batch : list PendingRow) (err : Thrown) : M unit :=
  (match classifyCommitError err with
   | writer_fatal => modify_engine (set_fatal (errorDetail err))
   | _ => st_ret tt
   end) ;;
  nackAll batch (classifyCommitError err) (errorDetail err).

Definition writeBatch (batch : list PendingRow) : M unit := λ w,
  match batch with
  | [] => (tt, w)
  | _ =>
      match truthy_string (fatal (w_engine w)) with
      | Some detail => nackAll batch writer_fatal detail w
      | None =>
          (e <- exec BeginImmediate ;;
           match e with
           | Some err => fail_batch batch err
           | None =>
               rs <- write_rows batch [] ;;
               match rs.2 with
               | Some detail =>
                   rollbackQuietly ;;
                   modify_engine (set_fatal detail) ;;
                   nackAll batch writer_fatal detail
               | None =>
                   e <- exec Commit ;;
                   match e with
                   | Some err => rollbackQuietly ;; fail_batch batch err
                   | None => post (Ack generation rs.1)
                   end
               end
           end) w
      end
  end.

(** [while (pending.length > 0) writeBatch(takeBatch())]: a batch takes at least one row, so
    the number of queued rows is fuel enough. *)
Fixpoint flush_loop (fuel : nat) : M unit := λ w,
  match fuel, pending (w_engine w) with
  | S fuel, _ :: _ => (batch <- takeBatch ;; writeBatch batch ;; flush_loop fuel) w
  | _, _ => (tt, w)
  end.

Definition flush : M unit := λ w,
  (cancelTimer ;; flush_loop (length (pending (w_engine w)))) w.

Definition accept (row : PayloadWriteRowMessage) : M unit := λ w,
  if closed (w_engine w) then (tt, w)
  else
    let bytes := Z.of_nat (length (row_payload row)) in
    (modify_engine (λ e, set_pending (pending e ++ [{| pend_row := row; pend_bytes := bytes |}])
                           (pendingBytes e + bytes) e) ;;
     w <- st_get ;;
     if (maxBatchRows <=? Z.of_nat (length (pending (w_engine w))))
        || (maxBatchBytes <=? pendingBytes (w_engine w))
     then flush else armTimer) w.

(** The batch timer's callback, while it is armed *)
Definition fire_timer : M unit := λ w,
  if timer (w_engine w) then (modify_engine (set_timer false) ;; flush) w else (tt, w).

Definition close_engine : M unit := λ w,
  if closed (w_engine w) then (tt, w)
  else (modify_engine set_closed ;; flush ;; cancelTimer ;; post (Closed generation)) w.

End engine.

(** * The worker *)

(** [engine] with its connection and generation, [workerGeneration], and the posts. *)
Record worker (D : Type) := {
  wk_engine : option (Z * engine * D);
  wk_generation : Z;
  wk_posts : list PayloadWriteResponse
}.
Arguments wk_engine {D} _.
Arguments wk_generation {D} _.
Arguments wk_posts {D} _.

Definition worker_init {D} : worker D :=
  {| wk_engine := None; wk_generation := -1; wk_posts := [] |}.

Section worker.
Context {D : Type} `{!PayloadWriteDb D}.

(** Runs an operation of the engine and keeps it. *)
Definition with_engine (g : Z) (e : engine) (d : D) (keep : bool)
    (c : state (world D) unit) (k : worker D) : worker D :=
  let w := (c {| w_engine := e; w_db := d; w_posts := wk_posts k |}).2 in
  {| wk_engine := if keep then Some (g, w_engine w, w_db w) else None;
     wk_generation := wk_generation k; wk_posts := w_posts w |}.

(** [self.onmessage]; [opened] is what opening the database gives. *)
Definition onmessage (opened : Thrown + D) (m : PayloadWriteRequest) (k : worker D)
    : worker D :=
  match m with
  | MsgInit g =>
      match opened with
      | inr d =>
          {| wk_engine := Some (g, engine_init, d); wk_generation := g;
             wk_posts := wk_posts k ++ [Ready g] |}
      | inl err =>
          {| wk_engine := wk_engine k; wk_generation := g;
             wk_posts := wk_posts k
                         ++ [InitError g (errorDetail err) (classifyCommitError err)] |}
      end
  | MsgWrite row =>
      match wk_engine k with
      | Some (g, e, d) =>
          with_engine g e d true
            (accept g PAYLOAD_BATCH_MAX_BYTES PAYLOAD_BATCH_MAX_ROWS row) k
      | None =>
          {| wk_engine := None; wk_generation := wk_generation k;
             wk_posts := wk_posts k
               ++ [Ack (wk_generation k)
                     [failed_ack writer_fatal "payload writer received a write before init" row]] |}
      end
  | MsgClose =>
      match wk_engine k with
      | Some (g, e, d) =>
          with_engine g e d false
            (close_engine g PAYLOAD_BATCH_MAX_BYTES PAYLOAD_BATCH_MAX_ROWS) k
      | None => k
      end
  end.

(** The batch timer of the worker's engine *)
Definition ontimer (k : worker D) : worker D :=
  match wk_engine k with
  | Some (g, e, d) =>
      with_engine g e d true (fire_timer g PAYLOAD_BATCH_MAX_BYTES PAYLOAD_BATCH_MAX_ROWS) k
  | None => k
  end.

End worker.

(** * Answers *)

Definition ack_results (r : PayloadWriteResponse) : list PayloadWriteAck :=
  match r with Ack _ rs => rs | _ => [] end.

(** Every result posted, in order. *)
Definition answers (posts : list PayloadWriteResponse) : list PayloadWriteAck :=
  posts ≫= ack_results.

Definition ack_of (a : PayloadWriteAck) : Z * string := (ack_seq a, ack_id a).
Definition ack_key (p : PendingRow) : Z * string := (row_seq (pend_row p), row_id (pend_row p)).

Definition is_committed (a : PayloadWriteAck) : bool :=
  match ack_status a with ack_committed => true | ack_failed => false end.

(** The rows whose answer is [committed]. *)
Definition acked (rows : list PendingRow) (answers : list PayloadWriteAck) : list PendingRow :=
  fst <$> filter (λ ra, is_committed ra.2 = true) (zip rows answers).

(** The table after storing [rows] in order. *)
Definition store_rows (rows : list PendingRow) (t : table) : table :=
  foldl (λ t p, upsert (row_id (pend_row p)) (stored p) t) t rows.

Definition total_bytes (rows : list PendingRow) : Z := foldr (λ p n, pend_bytes p + n) 0 rows.

(** ** Runs of the engine *)

Inductive engine_op : Type :=
  | OpWrite (row : PayloadWriteRowMessage)
  | OpTimer
  | OpClose.

Section runs.
Context {D : Type} `{!PayloadWriteDb D} (g maxBytes maxRows : Z).

Definition engine_exec (w : world D) (op : engine_op) : world D :=
  match op with
  | OpWrite row => (accept g maxBytes maxRows row w).2
  | OpTimer => (fire_timer g maxBytes maxRows w).2
  | OpClose => (close_engine g maxBytes maxRows w).2
  end.

End runs.

(** The rows an engine took in: the writes before it closed. *)
Fixpoint accepted (ops : list engine_op) : list PendingRow :=
  match ops with
  | [] => []
  | OpWrite row :: ops =>
      {| pend_row := row; pend_bytes := Z.of_nat (length (row_payload row)) |} :: accepted ops
  | OpTimer :: ops => accepted ops
  | OpClose :: _ => []
  end.

(** ** A connection that remembers what it threw *)

Record failure := { fl_stmt : stmt; fl_error : Thrown; fl_before : sql; fl_after : sql }.

Record logged (D : Type) := { lg_db : D; lg_failures : list failure }.
Arguments lg_db {D} _.
Arguments lg_failures {D} _.

Section logged.
Context {D : Type} `{SqliteConn D}.

Definition failure_of (s : stmt) (d : D) : list failure :=
  match db_exec s d with
  | (Some err, d') => [{| fl_stmt := s; fl_error := err; fl_before := view d; fl_after := view d' |}]
  | (None, _) => []
  end.

#[export] Instance logged_db : PayloadWriteDb (logged D) := λ s l,
  ((db_exec s (lg_db l)).1,
   {| lg_db := (db_exec s (lg_db l)).2; lg_failures := lg_failures l ++ failure_of s (lg_db l) |}).

#[export] Instance logged_conn : SqliteConn (logged D).
Proof. refine {| view l := view (lg_db l) |}. intros s l. exact (exec_step s (lg_db l)). Defined.
End logged.

#[local] Arguments view : simpl never.
#[local] Arguments db_exec : simpl never.

(** The input and output errors that the system reports for contention *)
Definition CONTENTION_IOERR : list string :=
  ["SQLITE_IOERR_LOCK"; "SQLITE_IOERR_RDLOCK"; "SQLITE_IOERR_UNLOCK"; "SQLITE_IOERR_CHECKRESERVEDLOCK";
   "SQLITE_IOERR_ACCESS"]%string.

(** [SQLITE_FULL] (13), and [SQLITE_IOERR] (10) with its other extended codes, as SQLite words
    them *)
Definition disk_failure (e : Thrown) : bool :=
  th_object e &&
  match th_errno e, th_code e, th_message e with
  | Some n, Some c, Some m =>
      (Z.land n 255 =? 13) && String.eqb c "SQLITE_FULL" && String.eqb m "database or disk is full"
      || (Z.land n 255 =? 10) && startsWith c "SQLITE_IOERR" && negb (bool_decide (c ∈ CONTENTION_IOERR))
         && String.eqb m "disk I/O error"
  | _, _, _ => false
  end.

(** A failure that the writer is prepared for. SQLite documents that [ROLLBACK TO] and
    [RELEASE] fail when there is no such savepoint, and that an error may roll the transaction
    back by itself when it is [SQLITE_FULL], [SQLITE_IOERR], [SQLITE_BUSY], [SQLITE_NOMEM] or
    [SQLITE_INTERRUPT]. Prepared for are the first two ([nomem_loses_acked] has the fourth). *)
Definition tolerated (f : failure) : Prop :=
  match fl_stmt f with
  | SavepointRow | InsertRow _ _ =>
      working (fl_before f) ≠ None → working (fl_after f) = None → disk_failure (fl_error f) = true
  | RollbackToRow | ReleaseRow =>
      (working (fl_before f) = None ∨ marks (fl_before f) = []) ∧
      (working (fl_after f) = None → working (fl_before f) = None)
  | BeginImmediate | Commit | Rollback => True
  end.

Definition calm {D} (l : logged D) : Prop := Forall tolerated (lg_failures l).

(** * Batches *)

Lemma total_bytes_app l1 l2 : total_bytes (l1 ++ l2) = total_bytes l1 + total_bytes l2.
Proof. induction l1 as [|p l1 IH]; simpl; lia. Qed.

Definition within (maxBytes maxRows : Z) (batch : list PendingRow) : Prop :=
  batch ≠ [] ∧
  (length batch = 1%nat ∨
   Z.of_nat (length batch) <= maxRows ∧ total_bytes batch <= maxBytes).

Lemma take_loop_spec maxBytes maxRows batch bytes queue queued b q n :
  take_loop maxBytes maxRows batch bytes queue queued = (b, (q, n)) →
  bytes = total_bytes batch → batch = [] ∨ within maxBytes maxRows batch →
  ∃ taken, b = batch ++ taken ∧ queue = taken ++ q ∧ n = queued - total_bytes taken ∧
           (batch ++ queue ≠ [] → within maxBytes maxRows b).
Proof.
  revert batch bytes queued. induction queue as [|p queue IH]; intros batch bytes queued; simpl.
  - intros [= <- <- <-] _ Hb. exists []. rewrite !app_nil_r.
    split; [done|]. split; [done|]. split; [simpl; lia|]. by destruct Hb as [->|Hb].
  - destruct (_ && _) eqn:Et.
    + intros [= <- <- <-] _ Hb. exists []. rewrite !app_nil_r.
      split; [done|]. split; [done|]. split; [simpl; lia|]. by destruct Hb as [->|Hb].
    + intros H -> Hb. apply IH in H as (taken & -> & -> & -> & Hw).
      * exists (p :: taken). rewrite <-!app_assoc in *. split; [done|]. split; [done|].
        split; [simpl; lia|]. intros _. apply Hw. by destruct batch.
      * rewrite total_bytes_app. simpl. lia.
      * right. split; [by destruct batch|]. destruct batch as [|x batch]; [by left|].
        right. apply andb_false_iff in Et as [Et|Et]; prop_bools; simpl in *; [lia|].
        rewrite length_app, total_bytes_app. simpl in *. lia.
Qed.

Section batches.
Context {D : Type} `{!PayloadWriteDb D} (g maxBytes maxRows : Z).

(** A computation on the connection alone *)
Definition db_only {A} (c : state (world D) A) : Prop :=
  ∀ w, w_engine (c w).2 = w_engine w ∧ w_posts (c w).2 = w_posts w.

Lemma db_only_ret {A} (a : A) : db_only (st_ret a).
Proof. done. Qed.

Lemma db_only_bind {A B} (c : state (world D) A) (k : A → state (world D) B) :
  db_only c → (∀ a, db_only (k a)) → db_only (st_bind c k).
Proof.
  intros Hc Hk w. unfold st_bind. destruct (c w) as [a w'] eqn:E.
  destruct (Hc w) as [He Hp]. rewrite E in He, Hp. destruct (Hk a w') as [He' Hp'].
  simpl in *. by rewrite He', Hp'.
Qed.

Lemma db_only_exec s : db_only (exec s).
Proof. intros w. unfold exec. by destruct (db_exec s (w_db w)). Qed.

Lemma db_only_insert_row p : db_only (insert_row p).
Proof.
  repeat (apply db_only_bind; [apply db_only_exec|intros [?|]]; try apply db_only_ret).
  apply db_only_exec.
Qed.

Lemma db_only_undo_row : db_only undo_row.
Proof.
  repeat (apply db_only_bind; [apply db_only_exec|intros [?|]]; try apply db_only_ret).
Qed.

Lemma db_only_write_rows batch results : db_only (write_rows batch results).
Proof.
  revert results. induction batch as [|p batch IH]; intros results; [apply db_only_ret|].
  apply db_only_bind; [apply db_only_insert_row|]. intros [err|]; [|apply IH].
  apply db_only_bind; [apply db_only_undo_row|]. intros _.
  destruct (classifyRowError err); [apply IH|apply IH|apply db_only_ret].
Qed.

Lemma write_rows_answers (batch : list PendingRow) results w :
  (write_rows batch results w).1.2 = None →
  ack_of <$> (write_rows batch results w).1.1 = (ack_of <$> results) ++ (ack_key <$> batch).
Proof.
  revert results w. induction batch as [|p batch IH]; intros results w.
  { intros _. simpl. by rewrite app_nil_r. }
  simpl. unfold st_bind. destruct (insert_row p w) as [[err|] w1].
  - destruct (undo_row w1) as [[] w2].
    destruct (classifyRowError err); simpl; intros H; [rewrite (IH _ _ H)|rewrite (IH _ _ H)|done];
      by rewrite fmap_app, <-app_assoc.
  - intros H. by rewrite (IH _ _ H), fmap_app, <-app_assoc.
Qed.

(** ** What a batch leaves of the engine *)

Definition same_queue (e e' : engine) : Prop :=
  pending e' = pending e ∧ pendingBytes e' = pendingBytes e ∧ timer e' = timer e ∧
  closed e' = closed e.

Definition answered (batch : list PendingRow) (w w' : world D) : Prop :=
  same_queue (w_engine w) (w_engine w') ∧
  ∃ rs, w_posts w' = w_posts w ++ [Ack g rs] ∧ (ack_of <$> rs) = (ack_key <$> batch).

Lemma nack_answers c detail (batch : list PendingRow) :
  (ack_of <$> ((failed_ack c detail ∘ pend_row) <$> batch)) = (ack_key <$> batch).
Proof. by rewrite <-list_fmap_compose. Qed.

Lemma answered_nack batch c detail w0 w :
  same_queue (w_engine w0) (w_engine w) → w_posts w = w_posts w0 →
  answered batch w0 (nackAll g batch c detail w).2.
Proof.
  intros He Hp. split; [done|]. simpl. rewrite Hp. eexists. split; [done|]. apply nack_answers.
Qed.

Lemma answered_fail batch err w0 w :
  same_queue (w_engine w0) (w_engine w) → w_posts w = w_posts w0 →
  answered batch w0 (fail_batch g batch err w).2.
Proof.
  intros He Hp. unfold fail_batch, st_bind.
  destruct (classifyCommitError err); apply (answered_nack batch _ _ w0); done.
Qed.

Lemma writeBatch_answers batch w : batch ≠ [] → answered batch w (writeBatch g batch w).2.
Proof.
  intros Hne. unfold writeBatch. destruct batch as [|p batch]; [done|]. clear Hne.
  destruct (truthy_string _) as [detail|] eqn:Ef; [by apply answered_nack|].
  unfold st_bind at 1. pose proof (db_only_exec BeginImmediate w) as [He Hp].
  destruct (exec BeginImmediate w) as [[err|] w1]; simpl in He, Hp.
  { apply answered_fail; by rewrite ?He. }
  unfold st_bind at 1. pose proof (db_only_write_rows (p :: batch) [] w1) as [He2 Hp2].
  pose proof (write_rows_answers (p :: batch) [] w1) as Ha.
  destruct (write_rows (p :: batch) [] w1) as [[rs [detail|]] w2]; cbn [fst snd] in *.
  { unfold rollbackQuietly, st_bind. pose proof (db_only_exec Rollback w2) as [He3 Hp3].
    destruct (exec Rollback w2) as [x w3]. simpl in He3, Hp3.
    apply answered_nack; simpl; [|congruence]. rewrite He3, He2, He. done. }
  unfold st_bind at 1. pose proof (db_only_exec Commit w2) as [He3 Hp3].
  destruct (exec Commit w2) as [[err|] w3]; simpl in He3, Hp3.
  - unfold rollbackQuietly, st_bind. pose proof (db_only_exec Rollback w3) as [He4 Hp4].
    destruct (exec Rollback w3) as [x w4]. simpl in He4, Hp4.
    apply (answered_fail _ _ w); simpl; [|congruence]. rewrite He4, He3, He2, He. done.
  - split; simpl; [by rewrite He3, He2, He|]. rewrite Hp3, Hp2, Hp. exists rs.
    split; [done|]. by rewrite Ha.
Qed.

End batches.

(** * Flushing *)

(** The response that answers a batch. *)
Definition answers_batch (g maxBytes maxRows : Z) (batch : list PendingRow)
    (r : PayloadWriteResponse) : Prop :=
  within maxBytes maxRows batch ∧ ∃ rs, r = Ack g rs ∧ (ack_of <$> rs) = (ack_key <$> batch).

Section flushing.
Context {D : Type} `{!PayloadWriteDb D} (g maxBytes maxRows : Z).

Lemma flush_loop_spec fuel (w : world D) :
  (length (pending (w_engine w)) <= fuel)%nat →
  let w' := (flush_loop g maxBytes maxRows fuel w).2 in
  ∃ batches acks,
    w_posts w' = w_posts w ++ acks ∧ Forall2 (answers_batch g maxBytes maxRows) batches acks ∧
    pending (w_engine w) = concat batches ∧ pending (w_engine w') = [] ∧
    pendingBytes (w_engine w') = pendingBytes (w_engine w) - total_bytes (concat batches) ∧
    timer (w_engine w') = timer (w_engine w) ∧ closed (w_engine w') = closed (w_engine w).
Proof.
  revert w. induction fuel as [|fuel IH]; intros w Hf;
    destruct (pending (w_engine w)) as [|p q] eqn:Eq; simpl in Hf; try lia.
  1,2: exists [], []; simpl; rewrite ?Eq, app_nil_r; simpl; repeat split; auto; lia.
  destruct (take_loop maxBytes maxRows [] 0 (p :: q) (pendingBytes (w_engine w)))
    as [batch [rest n]] eqn:Et.
  pose proof Et as (taken & Hb & Hq & -> & Hw)%take_loop_spec; [|done|by left].
  simpl in Hb. subst taken. destruct (Hw ltac:(done)) as [Hne Hlim].
  set (w1 := {| w_engine := set_pending rest (pendingBytes (w_engine w) - total_bytes batch)
                              (w_engine w); w_db := w_db w; w_posts := w_posts w |}).
  pose proof (writeBatch_answers g batch w1 Hne) as Ha.
  destruct (writeBatch g batch w1) as [u w2] eqn:Ew. simpl in Ha.
  destruct Ha as ((Hp & Hpb & Ht & Hc) & rs & Hposts & Hrs). simpl in Hp, Hpb, Ht, Hc, Hposts.
  assert (flush_loop g maxBytes maxRows (S fuel) w = flush_loop g maxBytes maxRows fuel w2)
    as Heq.
  { simpl. rewrite Eq. unfold st_bind, takeBatch. rewrite Eq, Et. fold w1. by rewrite Ew. }
  assert (length (pending (w_engine w2)) <= fuel)%nat as Hlen.
  { rewrite Hp. apply (f_equal length) in Hq. rewrite length_app in Hq. simpl in Hq.
    destruct batch; simpl in *; [done|lia]. }
  cbv zeta. rewrite Heq.
  destruct (IH w2 Hlen) as (bs & acks & Hposts' & Hbs & Hpend & Hp' & Hpb' & Ht' & Hc').
  exists (batch :: bs), (Ack g rs :: acks). cbn [concat].
  rewrite Hposts', Hposts, <-app_assoc, Hpb', Hpb, Ht', Ht, Hc', Hc, Hq.
  rewrite <-Hpend, Hp, total_bytes_app. repeat split; auto; try lia.
  constructor; [|done]. split; [by split|]. eauto.
Qed.

Lemma flush_spec (w : world D) :
  let w' := (flush g maxBytes maxRows w).2 in
  ∃ batches acks,
    w_posts w' = w_posts w ++ acks ∧ Forall2 (answers_batch g maxBytes maxRows) batches acks ∧
    pending (w_engine w) = concat batches ∧ pending (w_engine w') = [] ∧
    pendingBytes (w_engine w') = pendingBytes (w_engine w) - total_bytes (concat batches) ∧
    timer (w_engine w') = false ∧ closed (w_engine w') = closed (w_engine w).
Proof.
  set (w1 := {| w_engine := set_timer false (w_engine w); w_db := w_db w; w_posts := w_posts w |}).
  apply (flush_loop_spec (length (pending (w_engine w))) w1). done.
Qed.

(** ** Every operation keeps the queue bounded and accounts for every row *)

Record engine_ok (rows : list PendingRow) (w : world D) : Prop := {
  ok_answers : ∃ batches acks,
    w_posts w = acks ++ (if closed (w_engine w) then [Closed g] else []) ∧
    Forall2 (answers_batch g maxBytes maxRows) batches acks ∧
    concat batches ++ pending (w_engine w) = rows;
  ok_bytes : pendingBytes (w_engine w) = total_bytes (pending (w_engine w));
  ok_limits : 
    Z.of_nat (length (pending (w_engine w))) < maxRows ∧ pendingBytes (w_engine w) < maxBytes;
  ok_timer : pending (w_engine w) ≠ [] → timer (w_engine w) = true;
  ok_closed : closed (w_engine w) = true → pending (w_engine w) = [] ∧ timer (w_engine w) = false
}.

Hypothesis (Hpos : 0 < maxBytes ∧ 0 < maxRows).

(** A flush of an open engine, whose queue may be over the limits *)
Lemma flush_ok rows (w : world D) :
  closed (w_engine w) = false → pendingBytes (w_engine w) = total_bytes (pending (w_engine w)) →
  (∃ batches acks, w_posts w = acks ∧ Forall2 (answers_batch g maxBytes maxRows) batches acks ∧
                   concat batches ++ pending (w_engine w) = rows) →
  engine_ok rows (flush g maxBytes maxRows w).2 ∧
  closed (w_engine (flush g maxBytes maxRows w).2) = false ∧
  pending (w_engine (flush g maxBytes maxRows w).2) = [].
Proof.
  intros Hc Hb (bs & acks & Hp & Hbs & Hr).
  destruct (flush_spec w) as (bs' & acks' & Hp' & Hbs' & Hpend & Hnil & Hbytes & Ht & Hc').
  split; [|split; [congruence|done]]. split.
  - exists (bs ++ bs'), (acks ++ acks'). rewrite Hc', Hc, Hp', Hp, app_nil_r, Hnil, app_nil_r.
    split; [done|]. split; [by apply Forall2_app|]. by rewrite concat_app, <-Hpend.
  - rewrite Hnil, Hbytes, Hb, Hpend. simpl. lia.
  - rewrite Hnil, Hbytes, Hb, Hpend. simpl. lia.
  - by rewrite Hnil.
  - rewrite Hc', Hc. done.
Qed.

Lemma accept_ok rows row (w : world D) :
  engine_ok rows w → closed (w_engine w) = false →
  let p := {| pend_row := row; pend_bytes := Z.of_nat (length (row_payload row)) |} in
  engine_ok (rows ++ [p]) (accept g maxBytes maxRows row w).2 ∧
  closed (w_engine (accept g maxBytes maxRows row w).2) = false.
Proof.
  intros [(bs & acks & Hp & Hbs & Hr) Hb Hl Ht Hc] Hcl p. unfold accept. rewrite Hcl.
  unfold st_bind at 1 2, modify_engine at 1 2, st_modify, st_get, st_bind. fold p.
  set (w1 := {| w_engine := _ |}).
  rewrite Hcl, app_nil_r in Hp.
  assert (pendingBytes (w_engine w1) = total_bytes (pending (w_engine w1))) as Hb1.
  { simpl. rewrite total_bytes_app, Hb. simpl. lia. }
  destruct ((_ <=? _) || (_ <=? _)) eqn:E.
  - edestruct (flush_ok (rows ++ [p]) w1) as (? & ? & ?); try done.
    exists bs, acks. split; [done|]. split; [done|]. simpl. by rewrite <-Hr, <-app_assoc.
  - prop_bools. assert (timer (w_engine (armTimer w1).2) = true) as Htm.
    { simpl. by destruct (timer (w_engine w)) eqn:Et. }
    assert (pending (w_engine (armTimer w1).2) = pending (w_engine w) ++ [p] ∧
            pendingBytes (w_engine (armTimer w1).2) = pendingBytes (w_engine w1) ∧
            closed (w_engine (armTimer w1).2) = false ∧ w_posts (armTimer w1).2 = w_posts w)
      as (H1 & H2 & H3 & H4).
    { simpl. by destruct (timer (w_engine w)) eqn:Et. }
    split; [|by rewrite H3]. split; rewrite ?H1, ?H2, ?H3, ?H4; try done.
    exists bs, acks. rewrite app_nil_r, <-Hr, <-app_assoc. done.
Qed.

Lemma timer_ok rows (w : world D) :
  engine_ok rows w → closed (w_engine w) = false →
  engine_ok rows (fire_timer g maxBytes maxRows w).2 ∧
  closed (w_engine (fire_timer g maxBytes maxRows w).2) = false.
Proof.
  intros Hok Hcl. unfold fire_timer. destruct (timer (w_engine w)); [|done].
  unfold st_bind, modify_engine, st_modify. set (w1 := {| w_engine := _ |}).
  destruct Hok as [(bs & acks & Hp & Hbs & Hr) Hb _ _ _]. rewrite Hcl, app_nil_r in Hp.
  edestruct (flush_ok rows w1) as (? & ? & ?); try done. by exists bs, acks.
Qed.

Lemma close_ok rows (w : world D) :
  engine_ok rows w → closed (w_engine w) = false →
  engine_ok rows (close_engine g maxBytes maxRows w).2 ∧
  closed (w_engine (close_engine g maxBytes maxRows w).2) = true.
Proof.
  intros [(bs & acks & Hp & Hbs & Hr) Hb Hl Ht _] Hcl. unfold close_engine. rewrite Hcl.
  rewrite Hcl, app_nil_r in Hp. unfold st_bind at 1 2 3 4 5 6. unfold modify_engine at 1 2, st_modify.
  set (w1 := {| w_engine := set_closed _ |}).
  destruct (flush_spec w1) as (bs' & acks' & Hp' & Hbs' & Hpend & Hnil & Hbytes & Ht' & Hc').
  destruct (flush g maxBytes maxRows w1) as [[] w2]. simpl in *.
  split; [|by rewrite Hc']. split; simpl; rewrite ?Hnil, ?Hbytes; try done.
  - exists (bs ++ bs'), (acks ++ acks'). rewrite Hc', Hp', Hp, app_nil_r. simpl.
    split; [done|]. split; [by apply Forall2_app|]. by rewrite concat_app, <-Hpend.
  - rewrite Hb, Hpend. simpl. lia.
  - rewrite Hb, Hpend. simpl. lia.
Qed.

(** A closed engine ignores everything. *)
Lemma closed_exec op rows (w : world D) :
  engine_ok rows w → closed (w_engine w) = true → engine_exec g maxBytes maxRows w op = w.
Proof.
  intros Hok Hcl. destruct (ok_closed _ _ Hok Hcl) as [_ Ht].
  destruct op; simpl; unfold accept, fire_timer, close_engine; by rewrite ?Hcl, ?Ht.
Qed.

Lemma run_closed ops rows (w : world D) :
  engine_ok rows w → closed (w_engine w) = true →
  foldl (engine_exec g maxBytes maxRows) w ops = w.
Proof.
  intros Hok Hcl. induction ops as [|op ops IH]; [done|]. simpl. by erewrite closed_exec.
Qed.

Lemma run_ok ops rows (w : world D) :
  engine_ok rows w → closed (w_engine w) = false →
  let w' := foldl (engine_exec g maxBytes maxRows) w ops in
  engine_ok (rows ++ accepted ops) w' ∧ (closed (w_engine w') = true ↔ OpClose ∈ ops).
Proof.
  revert rows w. induction ops as [|op ops IH]; intros rows w Hok Hcl; simpl.
  { rewrite app_nil_r, Hcl, elem_of_nil. done. }
  destruct op as [row| |]; cbn [engine_exec].
  - destruct (accept_ok rows row w Hok Hcl) as [Hok' Hcl'].
    destruct (IH _ _ Hok' Hcl') as [? Hiff]. rewrite cons_middle, app_assoc. split; [done|].
    rewrite Hiff, elem_of_cons. naive_solver.
  - destruct (timer_ok rows w Hok Hcl) as [Hok' Hcl'].
    destruct (IH _ _ Hok' Hcl') as [? Hiff]. split; [done|].
    rewrite Hiff, elem_of_cons. naive_solver.
  - destruct (close_ok rows w Hok Hcl) as [Hok' Hcl'].
    rewrite (run_closed _ rows) by done. rewrite app_nil_r. split; [done|].
    rewrite Hcl'. split; [intros _; left|done].
Qed.

End flushing.

(** * Durability *)

Lemma disk_failure_fatal e : disk_failure e = true → classifyRowError e = writer_fatal.
Proof.
  unfold disk_failure. destruct e as [o [n|] [c|] [m|] ie st]; cbn; rewrite ?andb_false_r; try done.
  intros [-> [Hf|Hf]%orb_true_iff]%andb_true_iff; repeat (apply andb_true_iff in Hf as [Hf ?]); prop_bools;
    repeat match goal with E : String.eqb _ _ = true |- _ => apply String.eqb_eq in E end; subst.
  - unfold classifyRowError, isTransientLockError, has_retryable_code, isCorruptionError, has_primary, primaryCode.
    cbn [th_object th_errno th_code th_message negb]. cbn [fmap option_fmap option_map]. rewrite Hf. by vm_compute.
  - assert (∃ r, c = "SQLITE_IOERR" +:+ r) as [r ->] by by apply prefix_spec.
    assert (bool_decide ("SQLITE_IOERR" +:+ r ∈ RETRYABLE_EXTENDED_CODES) = false) as Hn.
    { apply bool_decide_eq_false_2. intros Hin. unfold RETRYABLE_EXTENDED_CODES in Hin.
      match goal with E : _ ∉ CONTENTION_IOERR |- _ => apply E end.
      repeat (apply elem_of_cons in Hin as [Hin|Hin]; [try discriminate Hin; rewrite Hin; unfold CONTENTION_IOERR; set_solver|]).
      by apply elem_of_nil in Hin. }
    unfold classifyRowError. match goal with |- context [has_retryable_code ?e] => assert (has_retryable_code e = false) as -> by exact Hn end.
    unfold isTransientLockError, isCorruptionError, has_primary, primaryCode.
    cbn [th_object th_errno th_code th_message negb]. cbn [fmap option_fmap option_map]. rewrite Hf. by vm_compute.
Qed.

Section durability.
Context {D : Type} `{SqliteConn D} (g : Z).

(** ** What is calm was calm *)

Definition grows {A} (c : state (world (logged D)) A) : Prop :=
  ∀ w, calm (w_db (c w).2) → calm (w_db w).

Lemma grows_ret {A} (a : A) : grows (st_ret a).
Proof. by intros w. Qed.

Lemma grows_bind {A B} (c : state (world (logged D)) A) (k : A → state (world (logged D)) B) :
  grows c → (∀ a, grows (k a)) → grows (st_bind c k).
Proof. intros Hc Hk w Hw. unfold st_bind in Hw. specialize (Hc w). destruct (c w) as [a w1]. by apply Hc, (Hk a). Qed.

Lemma grows_quiet {A} (c : state (world (logged D)) A) : (∀ w, w_db (c w).2 = w_db w) → grows c.
Proof. intros Hc w. by rewrite Hc. Qed.

Lemma calm_exec s (l : logged D) :
  calm (db_exec s l).2 →
  calm l ∧ ∀ err, (db_exec s l).1 = Some err →
    tolerated {| fl_stmt := s; fl_error := err; fl_before := view l; fl_after := view (db_exec s l).2 |}.
Proof.
  unfold calm. change (lg_failures (db_exec s l).2) with (lg_failures l ++ failure_of s (lg_db l)).
  rewrite Forall_app. unfold failure_of. intros [Hl Hf]. split; [done|]. intros err He.
  change ((db_exec s l).1) with ((db_exec s (lg_db l)).1) in He.
  change (view (db_exec s l).2) with (view (db_exec s (lg_db l)).2). change (view l) with (view (lg_db l)).
  destruct (db_exec s (lg_db l)) as [e d']. cbn in *. subst. by apply Forall_cons in Hf as [? _].
Qed.

Lemma grows_exec s : grows (exec s).
Proof.
  intros w Hw. unfold exec in Hw. apply (calm_exec s (w_db w)).
  by destruct (db_exec s (w_db w)).
Qed.

Lemma grows_insert_row p : grows (insert_row p).
Proof.
  repeat (apply grows_bind; [apply grows_exec|intros [?|]]; try apply grows_ret).
  apply grows_exec.
Qed.

Lemma grows_undo_row : grows undo_row.
Proof. repeat (apply grows_bind; [apply grows_exec|intros [?|]]; try apply grows_ret). Qed.

Lemma grows_write_rows batch results : grows (write_rows batch results).
Proof.
  revert results. induction batch as [|p batch IH]; intros results; [apply grows_ret|].
  apply grows_bind; [apply grows_insert_row|]. intros [err|]; [|apply IH].
  apply grows_bind; [apply grows_undo_row|]. intros _.
  destruct (classifyRowError err); [apply IH|apply IH|apply grows_ret].
Qed.

Lemma grows_rollback : grows rollbackQuietly.
Proof. apply grows_bind; [apply grows_exec|]. intros _. apply grows_ret. Qed.

Lemma grows_nack batch c detail : grows (nackAll g batch c detail).
Proof. by apply grows_quiet. Qed.

Lemma grows_fail batch err : grows (fail_batch g batch err).
Proof. apply grows_quiet. intros w. unfold fail_batch, st_bind. by destruct (classifyCommitError err). Qed.

Lemma grows_writeBatch batch : grows (writeBatch g batch).
Proof.
  intros w. unfold writeBatch. destruct batch as [|p batch]; [done|].
  destruct (truthy_string _); [apply grows_nack|]. revert w. apply grows_bind; [apply grows_exec|].
  intros [err|]; [apply grows_fail|]. apply grows_bind; [apply grows_write_rows|]. intros [rs [detail|]]; cbn [snd].
  - apply grows_bind; [apply grows_rollback|]. intros _. by apply grows_quiet.
  - apply grows_bind; [apply grows_exec|]. intros [err|]; [|by apply grows_quiet].
    apply grows_bind; [apply grows_rollback|]. intros _. apply grows_fail.
Qed.

(** ** Statements *)

(** A transaction of the engine is open, on the given view. *)
Definition in_tx (t wk : table) (d : logged D) : Prop :=
  view d = {| committed := t; working := Some wk; marks := []; by_savepoint := false |}.

(** The transaction with the savepoint of a row open *)
Definition in_row (t wk m : table) (d : logged D) : Prop :=
  view d = {| committed := t; working := Some wk; marks := [m]; by_savepoint := false |}.

(** The transaction is gone. *)
Definition lost (t : table) (d : logged D) : Prop := committed (view d) = t ∧ working (view d) = None.

Lemma begin_cases (d : logged D) :
  let '(e, d') := db_exec BeginImmediate d in
  match e with
  | None => in_tx (committed (view d)) (committed (view d)) d'
  | Some _ => committed (view d') = committed (view d)
  end.
Proof.
  pose proof (exec_step BeginImmediate d) as Hs.
  destruct (db_exec BeginImmediate d) as [e d']. simpl in Hs. unfold in_tx.
  by inversion Hs; subst.
Qed.

Lemma commit_cases (d : logged D) t wk :
  in_tx t wk d →
  let '(e, d') := db_exec Commit d in
  committed (view d') = match e with None => wk | Some _ => t end.
Proof.
  intros Ht. pose proof (exec_step Commit d) as Hs. rewrite Ht in Hs.
  destruct (db_exec Commit d) as [e d']. simpl in Hs. by inversion Hs; subst.
Qed.

Lemma rollback_cases (d : logged D) : committed (view (db_exec Rollback d).2) = committed (view d).
Proof.
  pose proof (exec_step Rollback d) as Hs. destruct (db_exec Rollback d) as [e d'].
  simpl in *. by inversion Hs; subst.
Qed.

Lemma sql_throws s st err st' :
  sql_step s st (Some err) st' →
  st' = st ∨ committed st' = committed st ∧ working st' = None.
Proof. inversion 1; auto. Qed.

(** A row statement in the open transaction: it takes effect, or throws and changes nothing,
    or loses the transaction with a failure of the disk. *)
Lemma statement_cases s (d : logged D) t wk ms :
  (s = SavepointRow ∨ ∃ id row, s = InsertRow id row) →
  view d = {| committed := t; working := Some wk; marks := ms; by_savepoint := false |} →
  let '(e, d') := db_exec s d in
  calm d' →
  match e with
  | None => sql_step s (view d) None (view d')
  | Some err => view d' = view d ∨ lost t d' ∧ classifyRowError err = writer_fatal
  end.
Proof.
  intros Hs Hd. pose proof (exec_step s d) as Hstep. pose proof (calm_exec s d) as Hc.
  destruct (db_exec s d) as [[err|] d']; simpl in *; [|done]. intros Hcalm.
  destruct (Hc Hcalm) as [_ Ht]. specialize (Ht err eq_refl).
  destruct (sql_throws _ _ _ _ Hstep) as [?|[Hcm Hn]]; [by left|]. right. split; [split; [by rewrite Hcm, Hd|done]|].
  apply disk_failure_fatal. destruct Hs as [->|(id & row & ->)]; apply Ht; cbn; try done; by rewrite Hd.
Qed.

(** A savepoint statement with the row's savepoint open succeeds; without one it throws and
    leaves the transaction open. *)
Lemma savepoint_statement s (d : logged D) :
  s = RollbackToRow ∨ s = ReleaseRow →
  let '(e, d') := db_exec s d in
  calm d' →
  (e ≠ None → (working (view d) = None ∨ marks (view d) = []) ∧ (working (view d') = None → working (view d) = None)).
Proof.
  intros Hs. pose proof (calm_exec s d) as Hc. destruct (db_exec s d) as [[err|] d']; [|done]. simpl in *.
  intros Hcalm _. destruct (Hc Hcalm) as [_ Ht]. specialize (Ht err eq_refl). by destruct Hs as [-> | ->].
Qed.

Lemma savepoint_cases d t wk :
  in_tx t wk d →
  let '(e, d') := db_exec SavepointRow d in
  calm d' →
  match e with
  | None => in_row t wk wk d'
  | Some err => in_tx t wk d' ∨ lost t d' ∧ classifyRowError err = writer_fatal
  end.
Proof.
  unfold in_tx, in_row. intros Ht.
  pose proof (statement_cases SavepointRow d t wk [] (or_introl eq_refl) Ht) as Hs.
  destruct (db_exec SavepointRow d) as [[err|] d']; intros Hc; specialize (Hs Hc).
  - destruct Hs as [Hs|?]; [left; congruence|by right].
  - rewrite Ht in Hs. by inversion Hs; subst.
Qed.

Lemma insert_cases id row d t wk m :
  in_row t wk m d →
  let '(e, d') := db_exec (InsertRow id row) d in
  calm d' →
  match e with
  | None => in_row t (upsert id row wk) m d'
  | Some err => in_row t wk m d' ∨ lost t d' ∧ classifyRowError err = writer_fatal
  end.
Proof.
  unfold in_row. intros Ht.
  pose proof (statement_cases (InsertRow id row) d t wk [m] ltac:(eauto) Ht) as Hs.
  destruct (db_exec (InsertRow id row) d) as [[err|] d']; intros Hc; specialize (Hs Hc).
  - destruct Hs as [Hs|?]; [left; congruence|by right].
  - rewrite Ht in Hs. by inversion Hs; subst.
Qed.

Lemma release_cases d t wk m :
  in_row t wk m d →
  let '(e, d') := db_exec ReleaseRow d in calm d' → e = None ∧ in_tx t wk d'.
Proof.
  unfold in_row, in_tx. intros Ht. pose proof (exec_step ReleaseRow d) as Hs.
  pose proof (savepoint_statement ReleaseRow d (or_intror eq_refl)) as Hn.
  destruct (db_exec ReleaseRow d) as [[err|] d']; intros Hc.
  - destruct (Hn Hc ltac:(done)) as [[Hw|Hw] _]; by rewrite Ht in Hw.
  - split; [done|]. simpl in Hs. rewrite Ht in Hs. by inversion Hs; subst.
Qed.

Lemma undo_cases w t wk m :
  in_row t wk m (w_db w) → calm (w_db (undo_row w).2) → in_tx t m (w_db (undo_row w).2).
Proof.
  intros Ht. unfold undo_row, st_bind, exec.
  pose proof (exec_step RollbackToRow (w_db w)) as Hs.
  pose proof (savepoint_statement RollbackToRow (w_db w) (or_introl eq_refl)) as Hn. unfold in_row in Ht.
  destruct (db_exec RollbackToRow (w_db w)) as [[err|] d']; cbn [w_db st_ret fst snd] in *.
  { intros Hc. destruct (Hn Hc ltac:(done)) as [[Hw|Hw] _]; by rewrite Ht in Hw. }
  rewrite Ht in Hs. assert (in_row t m m d') as Ht' by (unfold in_row; by inversion Hs; subst).
  pose proof (release_cases d' t m m Ht') as Hr. cbn [w_db].
  destruct (db_exec ReleaseRow d') as [e d'']. cbn. intros Hc. by apply Hr.
Qed.

(** Undoing without a savepoint of the row changes nothing that is committed. *)
Lemma undo_unmarked w t :
  (working (view (w_db w)) = None ∨ marks (view (w_db w)) = []) →
  committed (view (w_db w)) = t → calm (w_db (undo_row w).2) →
  committed (view (w_db (undo_row w).2)) = t ∧
  (∀ wk, in_tx t wk (w_db w) → in_tx t wk (w_db (undo_row w).2)).
Proof.
  intros Hn Hc. unfold undo_row, st_bind, exec.
  pose proof (exec_step RollbackToRow (w_db w)) as Hs.
  pose proof (savepoint_statement RollbackToRow (w_db w) (or_introl eq_refl)) as Hcs.
  destruct (db_exec RollbackToRow (w_db w)) as [[e|] d']; cbn [w_db st_ret fst snd] in *.
  - intros Hcalm. split; [by inversion Hs; subst|]. intros wk Ht. unfold in_tx in *.
    destruct (sql_throws _ _ _ _ Hs) as [->|[_ Hw]]; [done|].
    destruct (Hcs Hcalm ltac:(done)) as [_ Hkeep]. apply Hkeep in Hw. by rewrite Ht in Hw.
  - exfalso. inversion Hs as [| | | | |? ? ? ? ? Hm Hv| | | | | |]; subst.
    rewrite <-Hv in Hn. simpl in Hn. by destruct Hn.
Qed.

(** One row: stored in the transaction, or undone, or a database-wide failure *)
Lemma row_cases p t wk w :
  in_tx t wk (w_db w) →
  let '(e, w1) := insert_row p w in
  match e with
  | None => calm (w_db w1) → in_tx t (upsert (row_id (pend_row p)) (stored p) wk) (w_db w1)
  | Some err =>
      let d := w_db (undo_row w1).2 in
      calm d → committed (view d) = t ∧ (classifyRowError err = writer_fatal ∨ in_tx t wk d)
  end.
Proof.
  intros Ht. unfold insert_row, st_bind, exec.
  pose proof (savepoint_cases _ _ _ Ht) as Hs.
  destruct (db_exec SavepointRow (w_db w)) as [[err|] d1]; cbn [w_db st_ret].
  { set (w1 := {| w_engine := _ |}). intros Hc. pose proof (grows_undo_row w1 Hc) as Hc1.
    destruct (Hs Hc1) as [Htx|[[Hcm Hn] Hf]].
    - destruct (undo_unmarked w1 t) as [? Hu]; [right; simpl; by rewrite Htx|simpl; by rewrite Htx|done|].
      split; [done|]. right. by apply Hu.
    - destruct (undo_unmarked w1 t) as [? _]; [by left|done|done|]. auto. }
  destruct (db_exec (InsertRow _ _) d1) as [[err|] d2] eqn:Ei; cbn [w_db st_ret].
  - set (w1 := {| w_engine := _ |}). intros Hc. pose proof (grows_undo_row w1 Hc) as Hc2. cbn in Hc2.
    pose proof (calm_exec (InsertRow (row_id (pend_row p)) (stored p)) d1) as Hc1. rewrite Ei in Hc1.
    destruct (Hc1 Hc2) as [Hcalm1 _]. pose proof (insert_cases (row_id (pend_row p)) (stored p) _ _ _ _ (Hs Hcalm1)) as Hi.
    rewrite Ei in Hi. destruct (Hi Hc2) as [Hr|[[Hcm Hn] Hf]].
    + pose proof (undo_cases w1 _ _ _ Hr Hc) as Hu. rewrite Hu. simpl. auto.
    + destruct (undo_unmarked w1 t) as [? _]; [by left|done|done|]. auto.
  - destruct (db_exec ReleaseRow d2) as [e d3] eqn:Er. cbn [w_db].
    assert (∀ d, calm d → d = d3 → e = None ∧ in_tx t (upsert (row_id (pend_row p)) (stored p) wk) d3) as Hgo.
    { intros d Hc ->. pose proof (calm_exec ReleaseRow d2) as Hc2. rewrite Er in Hc2. destruct (Hc2 Hc) as [Hcalm2 _].
      pose proof (calm_exec (InsertRow (row_id (pend_row p)) (stored p)) d1) as Hc1. rewrite Ei in Hc1.
      destruct (Hc1 Hcalm2) as [Hcalm1 _].
      pose proof (insert_cases (row_id (pend_row p)) (stored p) _ _ _ _ (Hs Hcalm1)) as Hi. rewrite Ei in Hi.
      pose proof (release_cases _ _ _ _ (Hi Hcalm2)) as Hr. rewrite Er in Hr. by apply Hr. }
    destruct e as [err|]; [|intros Hc; by apply (Hgo d3)].
    set (w1 := {| w_engine := _ |}). intros Hc. destruct (Hgo d3) as [He _]; [by apply (grows_undo_row w1)|done|done].
Qed.

Lemma acked_app rows1 rows2 rs1 rs2 :
  length rs1 = length rows1 →
  acked (rows1 ++ rows2) (rs1 ++ rs2) = acked rows1 rs1 ++ acked rows2 rs2.
Proof. intros Hl. unfold acked. by rewrite zip_with_app, filter_app, fmap_app. Qed.

Lemma acked_more rows1 rows2 rs : length rs = length rows1 → acked (rows1 ++ rows2) rs = acked rows1 rs.
Proof. intros Hl. rewrite <-(app_nil_r rs) at 1. rewrite acked_app by done. unfold acked. by rewrite zip_with_nil_r, app_nil_r. Qed.

Lemma acked_failed rows rs : Forall (λ a, is_committed a = false) rs → acked rows rs = [].
Proof.
  intros Hf. unfold acked. revert rows. induction Hf as [|a rs Ha _ IH]; intros [|p rows]; try done.
  simpl. rewrite filter_cons, decide_False by (simpl; congruence). apply IH.
Qed.

Lemma store_rows_app l1 l2 t : store_rows (l1 ++ l2) t = store_rows l2 (store_rows l1 t).
Proof. apply foldl_app. Qed.

Definition failed_with (P : PayloadWriteErrorClass → Prop) (a : PayloadWriteAck) : Prop :=
  is_committed a = false → ∃ c, ack_errorClass a = Some c ∧ P c.

Lemma write_rows_cases batch results w t wk :
  in_tx t wk (w_db w) →
  let '((rs, f), w') := write_rows batch results w in
  calm (w_db w') →
  match f with
  | Some _ => committed (view (w_db w')) = t
  | None => ∃ rs', rs = results ++ rs' ∧ length rs' = length batch ∧
      in_tx t (store_rows (acked batch rs') wk) (w_db w') ∧
      Forall (failed_with (.≠ writer_fatal)) rs'
  end.
Proof.
  revert results w wk. induction batch as [|p batch IH]; intros results w wk Ht.
  { simpl. intros _. exists []. by rewrite app_nil_r. }
  simpl. unfold st_bind. pose proof (row_cases p t wk w Ht) as Hp.
  destruct (insert_row p w) as [[err|] w1].
  - cbv zeta in Hp. destruct (undo_row w1) as [[] w2]. simpl in Hp.
    assert (∀ c, classifyRowError err = c → c ≠ writer_fatal →
      let '((rs, f), w') := write_rows batch
          (results ++ [failed_ack c (errorDetail err) (pend_row p)]) w2 in
      calm (w_db w') →
      match f with
      | Some _ => committed (view (w_db w')) = t
      | None => ∃ rs', rs = results ++ rs' ∧ length rs' = S (length batch) ∧
          in_tx t (store_rows (acked (p :: batch) rs') wk) (w_db w') ∧
          Forall (failed_with (.≠ writer_fatal)) rs'
      end) as Hgo.
    { intros c Hcl Hne. specialize (IH (results ++ [failed_ack c (errorDetail err) (pend_row p)]) w2 wk).
      pose proof (grows_write_rows batch (results ++ [failed_ack c (errorDetail err) (pend_row p)]) w2) as Hg.
      destruct (write_rows batch _ w2) as [[rs f] w3]. intros Hc. destruct (Hp (Hg Hc)) as [_ [?|Htx]]; [congruence|].
      specialize (IH Htx Hc). destruct f as [f|]; [done|]. destruct IH as (rs' & -> & Hl & Htx' & Hf).
      exists (failed_ack c (errorDetail err) (pend_row p) :: rs').
      rewrite <-app_assoc. split; [done|]. split; [by simpl; rewrite Hl|]. split; [done|].
      constructor; [|done]. intros _. exists c. done. }
    destruct (classifyRowError err) eqn:Ec; [by apply Hgo|by apply Hgo|]. intros Hc. by apply Hp.
  - specialize (IH (results ++ [committed_ack (pend_row p)]) w1).
    pose proof (grows_write_rows batch (results ++ [committed_ack (pend_row p)]) w1) as Hg.
    destruct (write_rows batch _ w1) as [[rs f] w3]. intros Hc. specialize (IH _ (Hp (Hg Hc)) Hc).
    destruct f as [f|]; [done|]. destruct IH as (rs' & -> & Hl & Htx & Hf).
    exists (committed_ack (pend_row p) :: rs'). rewrite <-app_assoc.
    split; [done|]. split; [by simpl; rewrite Hl|]. split; [done|]. by constructor.
Qed.

(** ** A batch is all or nothing *)

Definition batch_outcome (batch : list PendingRow) (w w' : world (logged D)) : Prop :=
  ∃ rs, w_posts w' = w_posts w ++ [Ack g rs] ∧ length rs = length batch ∧
    committed (view (w_db w')) = store_rows (acked batch rs) (committed (view (w_db w))) ∧
    (Forall (λ a, is_committed a = false ∧ ack_errorClass a ≠ Some entry_permanent) rs ∨
     Forall (failed_with (.≠ writer_fatal)) rs).

Lemma nack_outcome batch c detail w0 w :
  c ≠ entry_permanent → w_posts w = w_posts w0 →
  committed (view (w_db w)) = committed (view (w_db w0)) →
  batch_outcome batch w0 (nackAll g batch c detail w).2.
Proof.
  intros Hc Hp Ht. eexists. simpl. rewrite Hp. split; [done|]. rewrite length_fmap. split; [done|].
  assert (Forall (λ a, is_committed a = false ∧ ack_errorClass a ≠ Some entry_permanent)
            ((failed_ack c detail ∘ pend_row) <$> batch)) as Hf.
  { apply Forall_fmap, Forall_true. intros p. simpl. split; [done|congruence]. }
  split; [|by left]. rewrite acked_failed; [done|]. eapply Forall_impl; [exact Hf|]. by intros ? [? _].
Qed.

Lemma fail_outcome batch err w0 w :
  w_posts w = w_posts w0 → committed (view (w_db w)) = committed (view (w_db w0)) →
  batch_outcome batch w0 (fail_batch g batch err w).2.
Proof.
  intros Hp Ht. unfold fail_batch, st_bind.
  assert (classifyCommitError err ≠ entry_permanent) as Hc.
  { unfold classifyCommitError. repeat destruct (_ : bool); done. }
  by destruct (classifyCommitError err); apply nack_outcome.
Qed.

Lemma batch_outcome_holds batch w :
  batch ≠ [] → calm (w_db (writeBatch g batch w).2) → batch_outcome batch w (writeBatch g batch w).2.
Proof.
  intros Hne. pose (P (r : unit * world (logged D)) := calm (w_db r.2) → batch_outcome batch w r.2).
  change (P (writeBatch g batch w)). unfold writeBatch. destruct batch as [|p batch]; [done|]. clear Hne.
  destruct (truthy_string _) as [detail|]; [intros _; by apply nack_outcome|].
  unfold st_bind at 1, exec at 1. pose proof (begin_cases (w_db w)) as Hb.
  destruct (db_exec BeginImmediate (w_db w)) as [[err|] d1]; [intros _; by apply fail_outcome|].
  set (w1 := {| w_engine := w_engine w; w_db := d1; w_posts := w_posts w |}).
  unfold st_bind at 1. pose proof (write_rows_cases (p :: batch) [] w1 _ _ Hb) as Hr.
  pose proof (db_only_write_rows (p :: batch) [] w1) as [_ Hp2].
  destruct (write_rows (p :: batch) [] w1) as [[rs [detail|]] w2]; cbn [fst snd] in *.
  { intros Hcalm. assert (calm (w_db w2)) as Hc2.
    { revert Hcalm. apply grows_bind; [apply grows_rollback|]. intros _. by apply grows_quiet. }
    specialize (Hr Hc2). clear Hcalm.
    unfold rollbackQuietly, st_bind, exec. pose proof (rollback_cases (w_db w2)) as Hrb.
    destruct (db_exec Rollback (w_db w2)) as [x d3]. apply nack_outcome; [done|done|].
    simpl in *. congruence. }
  intros Hcalm. assert (calm (w_db w2)) as Hc2.
  { revert Hcalm. apply grows_bind; [apply grows_exec|]. intros [err|]; [|by apply grows_quiet].
    apply grows_bind; [apply grows_rollback|]. intros _. apply grows_fail. }
  clear Hcalm. destruct (Hr Hc2) as (rs' & -> & Hl & Htx & Hf).
  unfold st_bind at 1, exec at 1. pose proof (commit_cases _ _ _ Htx) as Hc.
  destruct (db_exec Commit (w_db w2)) as [[err|] d3]; simpl in Hc.
  - unfold rollbackQuietly, st_bind, exec. cbn [w_db]. pose proof (rollback_cases d3) as Hrb.
    destruct (db_exec Rollback d3) as [x d4]. apply fail_outcome; [done|].
    simpl in *. congruence.
  - exists rs'. split; [simpl; by rewrite Hp2|]. split; [done|]. split; [done|by right].
Qed.

End durability.

Section durable_runs.
Context {D : Type} `{SqliteConn D} (g maxBytes maxRows : Z).

Lemma grows_takeBatch : grows (D := D) (takeBatch maxBytes maxRows).
Proof. apply grows_quiet. intros w. unfold takeBatch. by destruct (take_loop _ _ _ _ _ _) as [batch [rest n]]. Qed.

Lemma grows_flush_loop fuel : grows (D := D) (flush_loop g maxBytes maxRows fuel).
Proof.
  induction fuel as [|fuel IH]; intros w; simpl; [by destruct (pending (w_engine w))|].
  destruct (pending (w_engine w)); [done|]. revert w.
  apply grows_bind; [apply grows_takeBatch|]. intros batch. apply grows_bind; [apply grows_writeBatch|]. by intros _.
Qed.

Lemma grows_flush : grows (D := D) (flush g maxBytes maxRows).
Proof. intros w Hc. exact (grows_flush_loop (length (pending (w_engine w))) (cancelTimer w).2 Hc). Qed.

Lemma grows_op w op : calm (w_db (engine_exec (D := logged D) g maxBytes maxRows w op)) → calm (w_db w).
Proof.
  destruct op as [row| |]; cbn [engine_exec].
  - unfold accept. destruct (closed _); [done|]. unfold st_bind, modify_engine, st_modify, st_get.
    destruct (_ || _); [intros Hc; exact (grows_flush _ Hc)|].
    unfold armTimer, modify_engine, st_modify. done.
  - unfold fire_timer. destruct (timer _); [|done]. intros Hc.
    exact (grows_flush (modify_engine (set_timer false) w).2 Hc).
  - unfold close_engine. destruct (closed _); [done|]. intros Hc.
    assert (grows (D := D) (flush g maxBytes maxRows;; cancelTimer;; post (Closed g))%state) as Hg.
    { apply grows_bind; [apply grows_flush|]. intros _. by apply grows_quiet. }
    exact (Hg (modify_engine set_closed w).2 Hc).
Qed.

Lemma grows_run ops w : calm (w_db (foldl (engine_exec (D := logged D) g maxBytes maxRows) w ops)) → calm (w_db w).
Proof. revert w. induction ops as [|op ops IH]; intros w Hc; [done|]. by eapply grows_op, IH. Qed.

(** The rows answered so far were stored exactly as answered; the others are queued. *)
Definition durable (t0 : table) (rows : list PendingRow) (w : world (logged D)) : Prop :=
  ∃ done, rows = done ++ pending (w_engine w) ∧ length (answers (w_posts w)) = length done ∧
    committed (view (w_db w)) = store_rows (acked done (answers (w_posts w))) t0.

Lemma flush_loop_durable fuel t0 rows (w : world (logged D)) :
  durable t0 rows w → calm (w_db (flush_loop g maxBytes maxRows fuel w).2) →
  durable t0 rows (flush_loop g maxBytes maxRows fuel w).2.
Proof.
  revert w. induction fuel as [|fuel IH]; intros w Hd; [done|]. simpl.
  destruct (pending (w_engine w)) as [|p q] eqn:Eq; [done|].
  unfold st_bind, takeBatch. rewrite Eq.
  destruct (take_loop _ _ _ _ _ _) as [batch [rest n]] eqn:Et.
  pose proof Et as (taken & Hb & Hq & -> & Hw)%take_loop_spec; [|done|by left].
  simpl in Hb. subst taken. destruct (Hw ltac:(done)) as [Hne _].
  set (w1 := {| w_engine := set_pending rest _ _ |}).
  pose proof (batch_outcome_holds g batch w1 Hne) as Hout.
  pose proof (writeBatch_answers g batch w1 Hne) as ((Hpend & _) & _).
  destruct (writeBatch g batch w1) as [u w2]. simpl in *. intros Hcalm.
  destruct (Hout (grows_flush_loop _ _ Hcalm)) as (rs & Hp & Hl & Hc & _). revert Hcalm. apply IH.
  destruct Hd as (dn & Hr & Hla & Ht). exists (dn ++ batch).
  rewrite Hpend, Hr, Eq, Hq, app_assoc. split; [done|].
  unfold answers in *. rewrite Hp, bind_app. simpl. rewrite app_nil_r, !length_app, Hla, Hl.
  split; [done|]. rewrite acked_app, store_rows_app, <-Ht by done. exact Hc.
Qed.

Lemma durable_ext t0 rows (w w' : world (logged D)) :
  pending (w_engine w') = pending (w_engine w) → answers (w_posts w') = answers (w_posts w) →
  w_db w' = w_db w → durable t0 rows w → durable t0 rows w'.
Proof. unfold durable. by intros -> -> ->. Qed.

Lemma flush_durable t0 rows (w : world (logged D)) :
  durable t0 rows w → calm (w_db (flush g maxBytes maxRows w).2) → durable t0 rows (flush g maxBytes maxRows w).2.
Proof. intros Hd. unfold flush, st_bind. by apply flush_loop_durable. Qed.

Lemma accept_durable t0 rows row (w : world (logged D)) :
  closed (w_engine w) = false → durable t0 rows w → calm (w_db (accept g maxBytes maxRows row w).2) →
  durable t0 (rows ++ [{| pend_row := row; pend_bytes := Z.of_nat (length (row_payload row)) |}])
    (accept g maxBytes maxRows row w).2.
Proof.
  intros Hcl (dn & Hr & Hl & Ht). unfold accept. rewrite Hcl.
  unfold st_bind, modify_engine at 1 2, st_modify at 1 2, st_get.
  set (w1 := {| w_engine := _ |}).
  assert (durable t0 (rows ++ [{| pend_row := row;
            pend_bytes := Z.of_nat (length (row_payload row)) |}]) w1) as Hd1.
  { exists dn. rewrite Hr, <-app_assoc. done. }
  destruct (_ || _); [by apply flush_durable|]. intros _.
  eapply durable_ext; [..|exact Hd1]; simpl; try done. by destruct (timer (w_engine w)).
Qed.

Lemma close_durable t0 rows (w : world (logged D)) :
  durable t0 rows w → calm (w_db (close_engine g maxBytes maxRows w).2) →
  durable t0 rows (close_engine g maxBytes maxRows w).2.
Proof.
  intros Hd. unfold close_engine. destruct (closed (w_engine w)); [done|].
  unfold st_bind, modify_engine, st_modify. set (w1 := {| w_engine := set_closed _ |}).
  pose proof (flush_durable t0 rows w1 Hd) as Hf.
  destruct (flush g maxBytes maxRows w1) as [u w2]. simpl in Hf. intros Hc. specialize (Hf Hc).
  eapply durable_ext; [..|exact Hf]; try done. simpl. unfold answers.
  rewrite bind_app. simpl. by rewrite app_nil_r.
Qed.

Lemma timer_durable t0 rows (w : world (logged D)) :
  durable t0 rows w → calm (w_db (fire_timer g maxBytes maxRows w).2) →
  durable t0 rows (fire_timer g maxBytes maxRows w).2.
Proof.
  intros Hd. unfold fire_timer. destruct (timer (w_engine w)); [|done].
  by apply flush_durable.
Qed.

Hypothesis (Hpos : 0 < maxBytes ∧ 0 < maxRows).

Lemma run_durable t0 ops rows (w : world (logged D)) :
  engine_ok g maxBytes maxRows rows w → closed (w_engine w) = false → durable t0 rows w →
  calm (w_db (foldl (engine_exec g maxBytes maxRows) w ops)) →
  durable t0 (rows ++ accepted ops) (foldl (engine_exec g maxBytes maxRows) w ops).
Proof.
  revert rows w. induction ops as [|op ops IH]; intros rows w Hok Hcl Hd; simpl.
  { intros _. by rewrite app_nil_r. }
  intros Hc. pose proof (grows_run _ _ Hc) as Hc1. destruct op as [row| |]; cbn [engine_exec] in *.
  - destruct (accept_ok g maxBytes maxRows Hpos rows row w Hok Hcl) as [Hok' Hcl'].
    rewrite cons_middle, app_assoc. apply IH; try done. by apply accept_durable.
  - destruct (timer_ok g maxBytes maxRows Hpos rows w Hok Hcl) as [Hok' Hcl'].
    apply IH; try done. by apply timer_durable.
  - destruct (close_ok g maxBytes maxRows Hpos rows w Hok Hcl) as [Hok' Hcl'].
    rewrite (run_closed g maxBytes maxRows _ rows) by done. rewrite app_nil_r.
    by apply close_durable.
Qed.

End durable_runs.

(** An engine as the worker starts it *)
Definition start {D} (d : D) : world D := {| w_engine := engine_init; w_db := d; w_posts := [] |}.

Definition run_engine {D} `{!PayloadWriteDb D} (g : Z) (d : D) (ops : list engine_op) : world D :=
  foldl (engine_exec g PAYLOAD_BATCH_MAX_BYTES PAYLOAD_BATCH_MAX_ROWS) (start d) ops.

Lemma started_ok {D} `{!PayloadWriteDb D} g (d : D) :
  engine_ok g PAYLOAD_BATCH_MAX_BYTES PAYLOAD_BATCH_MAX_ROWS [] (start d).
Proof. split; simpl; try done. by exists [], []. Qed.

(** every row is answered once. Whatever the database does, in every run of writes,
    timer firings and closes of an engine, the rows it took in before it closed are the rows
    of the answered batches, in order, followed by the queue: each row is answered exactly
    once, by the acknowledgement of its own batch, which holds at most 32 rows and 4 MiB
    unless it is a single row. The queue stays below those limits, and while it holds
    anything the timer that will flush it is armed; once closed, the queue is empty and the
    close acknowledgement is the last thing posted. *)
Theorem every_row_answered {D} `{!PayloadWriteDb D} g (d : D) ops :
  let w := run_engine g d ops in
  let e := w_engine w in
  (∃ batches acks,
    Forall2 (answers_batch g PAYLOAD_BATCH_MAX_BYTES PAYLOAD_BATCH_MAX_ROWS) batches acks ∧
    accepted ops = concat batches ++ pending e ∧
    w_posts w = acks ++ (if closed e then [Closed g] else [])) ∧
  (closed e = true ↔ OpClose ∈ ops) ∧
  (closed e = true → pending e = []) ∧
  (pending e ≠ [] → timer e = true) ∧
  Z.of_nat (length (pending e)) < PAYLOAD_BATCH_MAX_ROWS ∧
  pendingBytes e = total_bytes (pending e) ∧ pendingBytes e < PAYLOAD_BATCH_MAX_BYTES.
Proof.
  cbv zeta. unfold run_engine.
  destruct (run_ok g PAYLOAD_BATCH_MAX_BYTES PAYLOAD_BATCH_MAX_ROWS ltac:(done) ops []
              (start d) (started_ok g d) ltac:(done)) as [Hok Hcl].
  destruct Hok as [(bs & acks & Hp & Hbs & Hr) Hb [Hl1 Hl2] Ht Hc].
  split; [exists bs, acks; by rewrite Hr|]. split; [done|].
  split; [intros ?; by apply Hc|]. done.
Qed.

(** A connection as it is handed over, with nothing thrown yet *)
Definition fresh {D} (d : D) : logged D := {| lg_db := d; lg_failures := [] |}.


(** * A connection in memory *)

(** What a statement does when it succeeds. *)
Definition sql_do (s : stmt) (st : sql) : option sql :=
  match s, working st, marks st with
  | BeginImmediate, None, _ =>
      Some {| committed := committed st; working := Some (committed st); marks := [];
              by_savepoint := false |}
  | SavepointRow, Some w, ms =>
      Some {| committed := committed st; working := Some w; marks := w :: ms;
              by_savepoint := by_savepoint st |}
  | SavepointRow, None, _ =>
      Some {| committed := committed st; working := Some (committed st);
              marks := [committed st]; by_savepoint := true |}
  | InsertRow id row, Some w, ms =>
      Some {| committed := committed st; working := Some (upsert id row w); marks := ms;
              by_savepoint := by_savepoint st |}
  | InsertRow id row, None, ms =>
      Some {| committed := upsert id row (committed st); working := None; marks := ms;
              by_savepoint := by_savepoint st |}
  | RollbackToRow, Some _, m :: ms =>
      Some {| committed := committed st; working := Some m; marks := m :: ms;
              by_savepoint := by_savepoint st |}
  | ReleaseRow, Some w, m :: ms =>
      if by_savepoint st && bool_decide (ms = []) then
        Some {| committed := w; working := None; marks := []; by_savepoint := false |}
      else
        Some {| committed := committed st; working := Some w; marks := ms;
                by_savepoint := by_savepoint st |}
  | Commit, Some w, _ =>
      Some {| committed := w; working := None; marks := []; by_savepoint := false |}
  | Rollback, Some _, _ =>
      Some {| committed := committed st; working := None; marks := []; by_savepoint := false |}
  | _, _, _ => None
  end.

(** The state, and for each statement to come what it should throw, if anything, and whether
    SQLite rolls the transaction back with it. *)
Record memdb := { mem_sql : sql; mem_script : list (option (Thrown * bool)) }.

Definition no_transaction : Thrown :=
  {| th_object := true; th_errno := Some 1; th_code := Some "SQLITE_ERROR"%string;
     th_message := Some "no such savepoint or transaction"%string; th_isError := true;
     th_string := "" |}.

Definition rolled_back (st : sql) : sql :=
  {| committed := committed st; working := None; marks := []; by_savepoint := false |}.

Definition mem_exec (s : stmt) (d : memdb) : option Thrown * memdb :=
  let next (st : sql) : memdb := {| mem_sql := st; mem_script := tail (mem_script d) |} in
  match default None (head (mem_script d)), sql_do s (mem_sql d) with
  | Some (err, aborts), _ => (Some err, next (if aborts then rolled_back (mem_sql d) else mem_sql d))
  | None, None => (Some no_transaction, next (mem_sql d))
  | None, Some st => (None, next st)
  end.

#[export] Instance memdb_db : PayloadWriteDb memdb := mem_exec.

Lemma sql_do_step s st st' : sql_do s st = Some st' → sql_step s st None st'.
Proof.
  destruct st as [t wk ms b]. destruct s, wk as [w|], ms as [|m ms]; simpl;
    intros H; try discriminate H; try (injection H as <-; constructor).
  - destruct b; simpl in H; [case_bool_decide; subst|]; simplify_eq; by constructor.
Qed.

#[export] Instance memdb_conn : SqliteConn memdb.
Proof.
  refine {| view := mem_sql |}. intros s d. unfold db_exec, memdb_db, mem_exec.
  destruct (default None _) as [[err []]|]; simpl; [constructor..|].
  destruct (sql_do s (mem_sql d)) eqn:E; simpl; [by apply sql_do_step|constructor].
Defined.

(** A missing parent row, a lock held by somebody else, no memory, no space *)
Definition sqlite_error (errno : Z) (code message : string) : Thrown :=
  {| th_object := true; th_errno := Some errno; th_code := Some code; th_message := Some message;
     th_isError := true; th_string := "" |}.
Definition foreign_key : Thrown := sqlite_error 787 "SQLITE_CONSTRAINT_FOREIGNKEY" "FOREIGN KEY constraint failed".
Definition database_locked : Thrown := sqlite_error 517 "SQLITE_BUSY_SNAPSHOT" "database is locked".
Definition out_of_memory : Thrown := sqlite_error 7 "SQLITE_NOMEM" "out of memory".
Definition disk_full : Thrown := sqlite_error 13 "SQLITE_FULL" "database or disk is full".

Definition mem_of (script : list (option (Thrown * bool))) : memdb :=
  {| mem_sql := {| committed := ∅; working := None; marks := []; by_savepoint := false |};
     mem_script := script |}.

Definition demo_row (n : Z) (id : string) : PayloadWriteRowMessage :=
  {| row_seq := n; row_id := id; row_payload := [n; n]; row_timestamp := 100 + n |}.

Definition demo_ops : list engine_op :=
  [OpWrite (demo_row 1 "a"); OpWrite (demo_row 2 "b"); OpTimer; OpWrite (demo_row 3 "c"); OpTimer;
   OpWrite (demo_row 4 "d"); OpTimer; OpWrite (demo_row 5 "e"); OpWrite (demo_row 6 "f"); OpClose;
   OpWrite (demo_row 7 "g")].

(** The second row violates a constraint, the commit of the second batch meets a lock, and in
    the last one the disk is full at the second row, which SQLite rolls back. *)
Definition demo_script : list (option (Thrown * bool)) :=
  replicate 5 None ++ [Some (foreign_key, false)] ++ replicate 7 None ++ [Some (database_locked, false)]
  ++ replicate 11 None ++ [Some (disk_full, true)].


(** What the writer is not prepared for. SQLite runs out of memory at the second row and rolls
    the transaction back; the writer takes the error for one of that row. The savepoint of the
    third row opens a transaction of its own, whose release, being its commit, meets a lock
    twice; the [COMMIT] of the batch then succeeds, and acknowledges the first row, which is
    gone. *)
Definition nomem_script : list (option (Thrown * bool)) :=
  replicate 5 None ++ [Some (out_of_memory, true)] ++ replicate 3 None
  ++ [Some (database_locked, false); None; Some (database_locked, false)].

Theorem nomem_loses_acked :
  let w := run_engine 1 (fresh (mem_of nomem_script))
             [OpWrite (demo_row 1 "a"); OpWrite (demo_row 2 "b"); OpWrite (demo_row 3 "c"); OpTimer] in
  (λ a, (ack_seq a, is_committed a)) <$> answers (w_posts w) = [(1, true); (2, false); (3, false)] ∧
  committed (view (w_db w)) !! "a"%string = None.
Proof. split; vm_compute; reflexivity. Qed.
