(* ===== verification/PayloadClient.v ===== *)
(** The main-thread controller of the payload writer:
    [packages/database/src/payload-write-client.ts].

    Registry entries and generations are objects with unique numbers; the model keeps both
    in maps by that number, generations after their death too, since suspended code still
    looks at them: [this.generations] is the generations that are not dead. A timer is the
    delay it was armed with. An awaiting function is explicit state: a suspended [rotate] is
    the frame [rotation], a suspended [doDispose] the phase [disposing], and a settled
    promise queues a [task], which runs before the next event. [Date.now()] is the argument
    [now]. Whether the [n]th [postMessage] and the spawn of a generation throw are functions
    of the environment, as is the retention window ([None] is infinite). [wire] is what the
    live workers hold: the writes handed to a generation that it has not answered. Log lines
    are left out. *)

From S2P Require Import Prelude PayloadWorker.
Open Scope Z_scope.

(** * Constants *)

Definition PAYLOAD_ROTATION_DEADLINE_MS : Z := 10000.
Definition PAYLOAD_READY_TIMEOUT_MS : Z := 10000.
Definition PAYLOAD_NO_PROGRESS_UNHEALTHY_MS : Z := 30000.
Definition PAYLOAD_NO_PROGRESS_FENCE_MS : Z := 60000.
Definition PAYLOAD_WATCHDOG_INTERVAL_MS : Z := 1000.
Definition PAYLOAD_RETRY_BASE_MS : Z := 100.
Definition PAYLOAD_RETRY_MAX_MS : Z := 5000.
Definition PAYLOAD_RESPAWN_BASE_MS : Z := 250.
Definition PAYLOAD_RESPAWN_MAX_MS : Z := 30000.

(** * Data *)

Record PayloadEntryInput := {
  in_requestId : string;
  in_payload : list Z;
  in_timestamp : Z;
  in_transportBytes : Z;
  in_payloadBytes : Z
}.

Inductive PayloadSettlementOutcome : Type :=
  | out_committed | out_dropped | out_expired | out_abandoned.

#[export] Instance outcome_eq_dec : EqDecision PayloadSettlementOutcome.
Proof. solve_decision. Defined.

(** A settlement, with the registry number of its entry. *)
Record PayloadSettlement := {
  set_seq : Z;
  set_requestId : string;
  set_transportBytes : Z;
  set_payloadBytes : Z;
  set_outcome : PayloadSettlementOutcome;
  set_errorClass : option PayloadWriteErrorClass;
  set_detail : option string
}.

Inductive EntryState : Type := buffered | sent | retry_wait.

#[export] Instance EntryState_eq_dec : EqDecision EntryState.
Proof. solve_decision. Defined.

Record RegistryEntry := {
  e_input : PayloadEntryInput;
  e_seq : Z;
  e_state : EntryState;
  e_generation : option Z;
  e_attempts : Z;
  e_everSent : bool;
  e_publishedAt : Z;
  e_sentAt : Z;
  e_retryTimer : option Z
}.

Inductive GenerationStatus : Type := starting | gen_ready | closing | dead.

#[export] Instance GenerationStatus_eq_dec : EqDecision GenerationStatus.
Proof. solve_decision. Defined.

(** Who awaits a spawn: [ensureActiveGeneration] or [rotate]. *)
Inductive spawn_waiter : Type := for_initial | for_rotation.

(** Who awaits a close: [rotate] or [doDispose]. *)
Inductive close_waiter : Type := for_cutover | for_dispose.

(** [g_settled] is [finished] of the spawn's closure; [g_onClosed] is the close waiter whose
    promise is not settled. *)
Record GenerationState := {
  g_status : GenerationStatus;
  g_publishedBytes : Z;
  g_spawnedFor : spawn_waiter;
  g_settled : bool;
  g_readyTimer : option Z;
  g_onClosed : option close_waiter;
  g_closeTimer : option Z
}.

(** A settled promise whose continuation has not run. *)
Inductive task : Type :=
  | TaskSpawned (w : spawn_waiter) (generation : option Z)
  | TaskClosed (w : close_waiter).

(** A suspended [rotate]: before the spawn settled there is no replacement yet. *)
Record rotate_frame := { rf_outgoing : Z; rf_replacement : option Z }.

(** A suspended [doDispose], with its deadline. *)
Inductive dispose_phase : Type :=
  | AwaitSpawn (deadlineMs : Z)
  | AwaitRotation (deadlineMs : Z)
  | AwaitClose
  | Disposed.

Record lifecycle := {
  active : option Z;
  spawning : bool;
  spawnInFlight : bool;
  rotation : option rotate_frame;
  rotationSuppressed : bool;
  disposed : bool;
  disposing : option dispose_phase
}.

Record timers := {
  respawnAttempts : Z;
  respawnTimer : option Z;
  watchdogTimer : option Z
}.

Record health := {
  lastAckAt : Z;
  admissionSuspended : bool;
  watchdogUnhealthy : bool;
  writerFatal : option string
}.

Record counters := {
  n_committed : Z;
  n_droppedPermanent : Z;
  n_expired : Z;
  n_abandoned : Z;
  n_retries : Z;
  n_replays : Z;
  n_rotations : Z;
  n_spawnFailures : Z;
  n_fences : Z
}.

Record client := {
  unacked : jmap Z RegistryEntry;
  generations : jmap Z GenerationState;
  nextSeq : Z;
  nextGeneration : Z;
  life : lifecycle;
  tmr : timers;
  hlt : health;
  cnt : counters;
  wire : list (Z * Z);
  posts : nat;
  settlements : list PayloadSettlement;
  tasks : list task
}.

Definition client_init (now : Z) : client :=
  {| unacked := ∅; generations := ∅; nextSeq := 1; nextGeneration := 1;
     life := {| active := None; spawning := false; spawnInFlight := false; rotation := None;
                rotationSuppressed := false; disposed := false; disposing := None |};
     tmr := {| respawnAttempts := 0; respawnTimer := None; watchdogTimer := None |};
     hlt := {| lastAckAt := now; admissionSuspended := false; watchdogUnhealthy := false;
               writerFatal := None |};
     cnt := {| n_committed := 0; n_droppedPermanent := 0; n_expired := 0; n_abandoned := 0;
               n_retries := 0; n_replays := 0; n_rotations := 0; n_spawnFailures := 0;
               n_fences := 0 |};
     wire := []; posts := 0; settlements := []; tasks := [] |}.

(** ** Field updates *)

Definition with_unacked (m : jmap Z RegistryEntry) (c : client) : client :=
  {| unacked := m; generations := generations c; nextSeq := nextSeq c;
     nextGeneration := nextGeneration c; life := life c; tmr := tmr c; hlt := hlt c;
     cnt := cnt c; wire := wire c; posts := posts c; settlements := settlements c;
     tasks := tasks c |}.
Definition with_generations (m : jmap Z GenerationState) (c : client) : client :=
  {| unacked := unacked c; generations := m; nextSeq := nextSeq c;
     nextGeneration := nextGeneration c; life := life c; tmr := tmr c; hlt := hlt c;
     cnt := cnt c; wire := wire c; posts := posts c; settlements := settlements c;
     tasks := tasks c |}.
Definition with_life (f : lifecycle → lifecycle) (c : client) : client :=
  {| unacked := unacked c; generations := generations c; nextSeq := nextSeq c;
     nextGeneration := nextGeneration c; life := f (life c); tmr := tmr c; hlt := hlt c;
     cnt := cnt c; wire := wire c; posts := posts c; settlements := settlements c;
     tasks := tasks c |}.
Definition with_tmr (f : timers → timers) (c : client) : client :=
  {| unacked := unacked c; generations := generations c; nextSeq := nextSeq c;
     nextGeneration := nextGeneration c; life := life c; tmr := f (tmr c); hlt := hlt c;
     cnt := cnt c; wire := wire c; posts := posts c; settlements := settlements c;
     tasks := tasks c |}.
Definition with_hlt (f : health → health) (c : client) : client :=
  {| unacked := unacked c; generations := generations c; nextSeq := nextSeq c;
     nextGeneration := nextGeneration c; life := life c; tmr := tmr c; hlt := f (hlt c);
     cnt := cnt c; wire := wire c; posts := posts c; settlements := settlements c;
     tasks := tasks c |}.
Definition with_cnt (f : counters → counters) (c : client) : client :=
  {| unacked := unacked c; generations := generations c; nextSeq := nextSeq c;
     nextGeneration := nextGeneration c; life := life c; tmr := tmr c; hlt := hlt c;
     cnt := f (cnt c); wire := wire c; posts := posts c; settlements := settlements c;
     tasks := tasks c |}.
Definition with_net (w : list (Z * Z)) (n : nat) (c : client) : client :=
  {| unacked := unacked c; generations := generations c; nextSeq := nextSeq c;
     nextGeneration := nextGeneration c; life := life c; tmr := tmr c; hlt := hlt c;
     cnt := cnt c; wire := w; posts := n; settlements := settlements c; tasks := tasks c |}.
Definition with_tasks (ts : list task) (c : client) : client :=
  {| unacked := unacked c; generations := generations c; nextSeq := nextSeq c;
     nextGeneration := nextGeneration c; life := life c; tmr := tmr c; hlt := hlt c;
     cnt := cnt c; wire := wire c; posts := posts c; settlements := settlements c;
     tasks := ts |}.
Definition with_settlement (s : PayloadSettlement) (c : client) : client :=
  {| unacked := unacked c; generations := generations c; nextSeq := nextSeq c;
     nextGeneration := nextGeneration c; life := life c; tmr := tmr c; hlt := hlt c;
     cnt := cnt c; wire := wire c; posts := posts c; settlements := settlements c ++ [s];
     tasks := tasks c |}.
Definition with_next (seq gen : Z) (c : client) : client :=
  {| unacked := unacked c; generations := generations c; nextSeq := seq;
     nextGeneration := gen; life := life c; tmr := tmr c; hlt := hlt c; cnt := cnt c;
     wire := wire c; posts := posts c; settlements := settlements c; tasks := tasks c |}.
Definition set_active (a : option Z) (l : lifecycle) : lifecycle :=
  {| active := a; spawning := spawning l; spawnInFlight := spawnInFlight l;
     rotation := rotation l; rotationSuppressed := rotationSuppressed l;
     disposed := disposed l; disposing := disposing l |}.
Definition set_spawning (b : bool) (l : lifecycle) : lifecycle :=
  {| active := active l; spawning := b; spawnInFlight := spawnInFlight l;
     rotation := rotation l; rotationSuppressed := rotationSuppressed l;
     disposed := disposed l; disposing := disposing l |}.
Definition set_spawnInFlight (b : bool) (l : lifecycle) : lifecycle :=
  {| active := active l; spawning := spawning l; spawnInFlight := b; rotation := rotation l;
     rotationSuppressed := rotationSuppressed l; disposed := disposed l;
     disposing := disposing l |}.
Definition set_rotation (r : option rotate_frame) (l : lifecycle) : lifecycle :=
  {| active := active l; spawning := spawning l; spawnInFlight := spawnInFlight l;
     rotation := r; rotationSuppressed := rotationSuppressed l; disposed := disposed l;
     disposing := disposing l |}.
Definition set_suppressed (l : lifecycle) : lifecycle :=
  {| active := active l; spawning := spawning l; spawnInFlight := spawnInFlight l;
     rotation := rotation l; rotationSuppressed := true; disposed := disposed l;
     disposing := disposing l |}.
Definition set_disposed (l : lifecycle) : lifecycle :=
  {| active := active l; spawning := spawning l; spawnInFlight := spawnInFlight l;
     rotation := rotation l; rotationSuppressed := rotationSuppressed l; disposed := true;
     disposing := disposing l |}.
Definition set_disposing (p : dispose_phase) (l : lifecycle) : lifecycle :=
  {| active := active l; spawning := spawning l; spawnInFlight := spawnInFlight l;
     rotation := rotation l; rotationSuppressed := rotationSuppressed l;
     disposed := disposed l; disposing := Some p |}.
Definition set_respawn (n : Z) (t : option Z) (t0 : timers) : timers :=
  {| respawnAttempts := n; respawnTimer := t; watchdogTimer := watchdogTimer t0 |}.
Definition set_watchdog (t : option Z) (t0 : timers) : timers :=
  {| respawnAttempts := respawnAttempts t0; respawnTimer := respawnTimer t0;
     watchdogTimer := t |}.
Definition set_lastAckAt (z : Z) (h : health) : health :=
  {| lastAckAt := z; admissionSuspended := admissionSuspended h;
     watchdogUnhealthy := watchdogUnhealthy h; writerFatal := writerFatal h |}.
Definition set_suspended (b : bool) (h : health) : health :=
  {| lastAckAt := lastAckAt h; admissionSuspended := b;
     watchdogUnhealthy := watchdogUnhealthy h; writerFatal := writerFatal h |}.
Definition set_unhealthy (b : bool) (h : health) : health :=
  {| lastAckAt := lastAckAt h; admissionSuspended := admissionSuspended h;
     watchdogUnhealthy := b; writerFatal := writerFatal h |}.
Definition set_writerFatal (s : string) (h : health) : health :=
  {| lastAckAt := lastAckAt h; admissionSuspended := admissionSuspended h;
     watchdogUnhealthy := watchdogUnhealthy h; writerFatal := Some s |}.
Definition count (committed dropped expired abandoned retries replays rotations spawnFailures fences : Z) (n : counters) : counters :=
  {| n_committed := n_committed n + committed;
     n_droppedPermanent := n_droppedPermanent n + dropped;
     n_expired := n_expired n + expired; n_abandoned := n_abandoned n + abandoned;
     n_retries := n_retries n + retries; n_replays := n_replays n + replays;
     n_rotations := n_rotations n + rotations;
     n_spawnFailures := n_spawnFailures n + spawnFailures; n_fences := n_fences n + fences |}.
Definition set_place (s : EntryState) (g : option Z) (e : RegistryEntry) : RegistryEntry :=
  {| e_input := e_input e; e_seq := e_seq e; e_state := s; e_generation := g;
     e_attempts := e_attempts e; e_everSent := e_everSent e;
     e_publishedAt := e_publishedAt e; e_sentAt := e_sentAt e;
     e_retryTimer := e_retryTimer e |}.
Definition set_sent (g now : Z) (ever : bool) (e : RegistryEntry) : RegistryEntry :=
  {| e_input := e_input e; e_seq := e_seq e; e_state := sent; e_generation := Some g;
     e_attempts := e_attempts e + 1; e_everSent := ever; e_publishedAt := e_publishedAt e;
     e_sentAt := now; e_retryTimer := e_retryTimer e |}.
Definition set_retryTimer (t : option Z) (e : RegistryEntry) : RegistryEntry :=
  {| e_input := e_input e; e_seq := e_seq e; e_state := e_state e;
     e_generation := e_generation e; e_attempts := e_attempts e; e_everSent := e_everSent e;
     e_publishedAt := e_publishedAt e; e_sentAt := e_sentAt e; e_retryTimer := t |}.
Definition set_status (s : GenerationStatus) (g : GenerationState) : GenerationState :=
  {| g_status := s; g_publishedBytes := g_publishedBytes g; g_spawnedFor := g_spawnedFor g;
     g_settled := g_settled g; g_readyTimer := g_readyTimer g; g_onClosed := g_onClosed g;
     g_closeTimer := g_closeTimer g |}.
Definition add_published (n : Z) (g : GenerationState) : GenerationState :=
  {| g_status := g_status g; g_publishedBytes := g_publishedBytes g + n;
     g_spawnedFor := g_spawnedFor g; g_settled := g_settled g;
     g_readyTimer := g_readyTimer g; g_onClosed := g_onClosed g;
     g_closeTimer := g_closeTimer g |}.
Definition set_settled (g : GenerationState) : GenerationState :=
  {| g_status := g_status g; g_publishedBytes := g_publishedBytes g;
     g_spawnedFor := g_spawnedFor g; g_settled := true; g_readyTimer := None;
     g_onClosed := g_onClosed g; g_closeTimer := g_closeTimer g |}.
Definition set_readyTimer (t : option Z) (g : GenerationState) : GenerationState :=
  {| g_status := g_status g; g_publishedBytes := g_publishedBytes g;
     g_spawnedFor := g_spawnedFor g; g_settled := g_settled g; g_readyTimer := t;
     g_onClosed := g_onClosed g; g_closeTimer := g_closeTimer g |}.
Definition set_closing (w : option close_waiter) (t : option Z) (g : GenerationState) : GenerationState :=
  {| g_status := g_status g; g_publishedBytes := g_publishedBytes g;
     g_spawnedFor := g_spawnedFor g; g_settled := g_settled g;
     g_readyTimer := g_readyTimer g; g_onClosed := w; g_closeTimer := t |}.
Definition set_dead (g : GenerationState) : GenerationState :=
  {| g_status := dead; g_publishedBytes := g_publishedBytes g;
     g_spawnedFor := g_spawnedFor g; g_settled := g_settled g; g_readyTimer := None;
     g_onClosed := g_onClosed g; g_closeTimer := None |}.
Section client.
Context (spawnThrows : Z → bool) (postThrows : nat → bool) (getRetentionMs : Z → option Z).
Context (rotationByteBudget : Z).

(** * Reading the state *)

Definition is_fatal (c : client) : bool := bool_decide (is_Some (writerFatal (hlt c))).
Definition rotating (c : client) : bool := bool_decide (is_Some (rotation (life c))).
Definition is_disposed (c : client) : bool := disposed (life c).

Definition status_of (g : Z) (c : client) : GenerationStatus :=
  match generations c !! g with Some st => g_status st | None => dead end.

Definition acceptsWork (c : client) : bool :=
  negb (is_disposed c) && negb (admissionSuspended (hlt c)) && negb (is_fatal c).

Definition update_entry (seq : Z) (f : RegistryEntry → RegistryEntry) (c : client) : client :=
  match unacked c !! seq with
  | Some e => with_unacked (<[seq := f e]> (unacked c)) c
  | None => c
  end.

Definition update_generation (g : Z) (f : GenerationState → GenerationState) (c : client)
    : client :=
  match generations c !! g with
  | Some st => with_generations (<[g := f st]> (generations c)) c
  | None => c
  end.

Definition push_task (t : task) (c : client) : client := with_tasks (tasks c ++ [t]) c.

(** [transport.postMessage]: false when it throws *)
Definition post_write (g seq : Z) (c : client) : bool * client :=
  if postThrows (posts c) then (false, with_net (wire c) (S (posts c)) c)
  else (true, with_net (wire c ++ [(g, seq)]) (S (posts c)) c).

Definition post_control (c : client) : bool * client :=
  (negb (postThrows (posts c)), with_net (wire c) (S (posts c)) c).

(** * Generations *)

Definition killGeneration (g : Z) (c : client) : client :=
  match generations c !! g with
  | None => c
  | Some st =>
      if bool_decide (g_status st = dead) then c
      else
        let c := with_generations (<[g := set_dead st]> (generations c)) c in
        let c := with_net (filter (λ p, p.1 ≠ g) (wire c)) (posts c) c in
        if bool_decide (active (life c) = Some g) then with_life (set_active None) c else c
  end.

Definition respawn_delay (attempts : Z) : Z :=
  Z.min PAYLOAD_RESPAWN_MAX_MS (PAYLOAD_RESPAWN_BASE_MS * 2 ^ attempts).

Definition scheduleRespawn (c : client) : client :=
  if is_disposed c || is_fatal c then c
  else
    match respawnTimer (tmr c) with
    | Some _ => c
    | None =>
        with_tmr (λ t, set_respawn (respawnAttempts t + 1)
                         (Some (respawn_delay (respawnAttempts t))) t) c
    end.

Definition onGenerationDied (g : Z) (c : client) : client :=
  let wasActive := bool_decide (active (life c) = Some g) in
  let c := killGeneration g c in
  if is_disposed c || negb wasActive then c else scheduleRespawn c.

Definition onSpawnFailure (c : client) : client :=
  scheduleRespawn (with_cnt (count 0 0 0 0 0 0 0 1 0) c).

Definition onWriterFatal (detail : string) (c : client) : client :=
  if is_fatal c then c
  else with_hlt (set_suspended true ∘ set_writerFatal detail) c.

(** [finish] of a spawn *)
Definition finish (g : Z) (ok : bool) (detail : option string)
    (errorClass : option PayloadWriteErrorClass) (c : client) : client :=
  match generations c !! g with
  | None => c
  | Some st =>
      if g_settled st then c
      else
        let c := update_generation g set_settled c in
        let c := with_life (set_spawning false) c in
        if ok then
          push_task (TaskSpawned (g_spawnedFor st) (Some g))
            (with_tmr (λ t, set_respawn 0 (respawnTimer t) t) c)
        else
          let c := killGeneration g c in
          let c := if bool_decide (errorClass = Some writer_fatal)
                   then onWriterFatal (default "payload writer init failed"%string detail) c
                   else onSpawnFailure c in
          push_task (TaskSpawned (g_spawnedFor st) None) c
  end.

Definition spawnGeneration (w : spawn_waiter) (c : client) : client :=
  let g := nextGeneration c in
  let c := with_life (set_spawning true) (with_next (nextSeq c) (g + 1) c) in
  if spawnThrows g then
    push_task (TaskSpawned w None) (onSpawnFailure (with_life (set_spawning false) c))
  else
    let st := {| g_status := starting; g_publishedBytes := 0; g_spawnedFor := w;
                 g_settled := false; g_readyTimer := Some PAYLOAD_READY_TIMEOUT_MS;
                 g_onClosed := None; g_closeTimer := None |} in
    let c := with_generations (<[g := st]> (generations c)) c in
    let '(posted, c) := post_control c in
    if posted then c else finish g false (Some "init postMessage failed"%string) None c.

Definition ensureActiveGeneration (c : client) : client :=
  if is_disposed c || is_fatal c then c
  else if bool_decide (is_Some (active (life c))) || spawning (life c) || rotating c then c
  else if bool_decide (is_Some (respawnTimer (tmr c))) then c
  else spawnGeneration for_initial (with_life (set_spawnInFlight true) c).

(** [rotate] up to its first [await] *)
Definition rotate (outgoing : Z) (c : client) : client :=
  if rotating c then c
  else
    spawnGeneration for_rotation
      (with_life (set_active None
                  ∘ set_rotation (Some {| rf_outgoing := outgoing; rf_replacement := None |})) c).

Definition maybeRotate (c : client) : client :=
  if is_disposed c || rotating c || rotationSuppressed (life c) then c
  else if bool_decide (is_Some (respawnTimer (tmr c))) then c
  else
    match active (life c) with
    | None => c
    | Some g =>
        match generations c !! g with
        | Some st => if g_publishedBytes st <? rotationByteBudget then c else rotate g c
        | None => c
        end
    end.

(** [done] of a close: settles its waiter once *)
Definition close_done (g : Z) (c : client) : client :=
  match generations c !! g ≫= g_onClosed with
  | None => c
  | Some w =>
      push_task (TaskClosed w) (killGeneration g (update_generation g (set_closing None None) c))
  end.

Definition closeGeneration (g : Z) (deadlineMs : Z) (w : close_waiter) (c : client) : client :=
  if bool_decide (status_of g c = dead) then push_task (TaskClosed w) c
  else if deadlineMs <=? 0 then push_task (TaskClosed w) (killGeneration g c)
  else
    let c := update_generation g (set_closing (Some w) (Some deadlineMs) ∘ set_status closing) c in
    let '(posted, c) := post_control c in
    if posted then c else close_done g c.

(** * Sending *)

Definition settle (seq : Z) (outcome : PayloadSettlementOutcome)
    (errorClass : option PayloadWriteErrorClass) (detail : option string) (c : client)
    : client :=
  match unacked c !! seq with
  | None => c
  | Some e =>
      with_settlement
        {| set_seq := seq; set_requestId := in_requestId (e_input e);
           set_transportBytes := in_transportBytes (e_input e);
           set_payloadBytes := in_payloadBytes (e_input e); set_outcome := outcome;
           set_errorClass := errorClass; set_detail := detail |}
        (with_unacked (delete seq (unacked c)) c)
  end.

(** Whether the entry was dropped, and the state after that. *)
Definition dropIfExpired (seq now : Z) (c : client) : bool * client :=
  match unacked c !! seq, getRetentionMs now with
  | Some e, Some retentionMs =>
      if retentionMs <=? 0 then (false, c)
      else if now - in_timestamp (e_input e) <=? retentionMs then (false, c)
      else (true, settle seq out_expired None None (with_cnt (count 0 0 1 0 0 0 0 0 0) c))
  | _, _ => (false, c)
  end.

Definition trySend (seq now : Z) (c : client) : client :=
  match unacked c !! seq with
  | None => c
  | Some e =>
      if is_disposed c || is_fatal c then c
      else
        match active (life c) with
        | None => update_entry seq (λ e, set_place buffered (e_generation e) e) c
        | Some g =>
            if negb (bool_decide (status_of g c = gen_ready)) || rotating c then
              update_entry seq (λ e, set_place buffered (e_generation e) e) c
            else
              let c := update_entry seq (set_sent g now true) c in
              let '(posted, c) := post_write g seq c in
              if posted then
                maybeRotate
                  (update_generation g (add_published (in_transportBytes (e_input e))) c)
              else onGenerationDied g (update_entry seq (set_place buffered None) c)
        end
  end.

Definition sendOrReplay (seq now : Z) (c : client) : client :=
  match unacked c !! seq with
  | None => c
  | Some e =>
      trySend seq now (if e_everSent e then with_cnt (count 0 0 0 0 0 1 0 0 0) c else c)
  end.

(** One entry of the loop of [flushBuffered] *)
Definition flush_entry (now g : Z) (c : client) (seq : Z) : client :=
  match unacked c !! seq with
  | None => c
  | Some e =>
      if bool_decide (e_state e = sent) && bool_decide (e_generation e = Some g) then c
      else if bool_decide (e_state e = retry_wait) then c
      else
        let '(dropped, c) := dropIfExpired seq now c in
        if dropped then c else sendOrReplay seq now c
  end.

Definition flushBuffered (now : Z) (c : client) : client :=
  if is_disposed c || is_fatal c then c
  else
    match active (life c) with
    | None => c
    | Some g =>
        if negb (bool_decide (status_of g c = gen_ready)) || rotating c then c
        else foldl (flush_entry now g) c (jkeys (unacked c))
    end.

(** [entry.generation === this.active?.id] *)
Definition on_active (e : RegistryEntry) (c : client) : bool :=
  match active (life c) with
  | Some g => bool_decide (e_generation e = Some g)
  | None => false
  end.

(** One entry of the loop of [replayToActive] *)
Definition replay_entry (now : Z) (c : client) (seq : Z) : client :=
  match unacked c !! seq with
  | None => c
  | Some e =>
      if bool_decide (e_state e = sent) && on_active e c then c
      else
        let c := update_entry seq (set_retryTimer None) c in
        let '(dropped, c) := dropIfExpired seq now c in
        if dropped then c
        else sendOrReplay seq now (update_entry seq (set_place buffered None) c)
  end.

Definition replayToActive (now : Z) (c : client) : client :=
  foldl (replay_entry now) c (jkeys (unacked c)).

(** * Admission *)

Definition startWatchdog (c : client) : client :=
  if bool_decide (is_Some (watchdogTimer (tmr c))) || is_disposed c then c
  else with_tmr (set_watchdog (Some PAYLOAD_WATCHDOG_INTERVAL_MS)) c.

Definition register (entry : PayloadEntryInput) (now : Z) (c : client) : client :=
  let seq := nextSeq c in
  let e := {| e_input := entry; e_seq := seq; e_state := buffered; e_generation := None;
              e_attempts := 0; e_everSent := false; e_publishedAt := now; e_sentAt := now;
              e_retryTimer := None |} in
  startWatchdog
    (with_unacked (<[seq := e]> (unacked c)) (with_next (seq + 1) (nextGeneration c) c)).

Definition publish (entry : PayloadEntryInput) (now : Z) (c : client) : bool * client :=
  if negb (acceptsWork c) then (false, c)
  else
    let seq := nextSeq c in
    (true, trySend seq now (ensureActiveGeneration (register entry now c))).

Definition publishReserved (entry : PayloadEntryInput) (now : Z) (c : client) : bool * client :=
  if is_disposed c then (false, c)
  else
    let seq := nextSeq c in
    let c := register entry now c in
    if admissionSuspended (hlt c) || is_fatal c then (true, c)
    else (true, trySend seq now (ensureActiveGeneration c)).

(** ** Statistics *)

Record PayloadWriterStats := {
  unackedEntries : Z;
  unackedTransportBytes : Z;
  unackedPayloadBytes : Z;
  oldestUnackedAgeMs : Z;
  stat_counters : counters;
  activeGeneration : option Z;
  liveGenerations : Z;
  healthy : bool;
  stat_admissionSuspended : bool;
  stat_writerFatal : option string;
  stat_disposed : bool
}.

(** [oldestPublishedAt] *)
Definition oldest_published (c : client) : option Z :=
  foldl (λ m e,
    match m with
    | None => Some (e_publishedAt e)
    | Some o => if e_publishedAt e <? o then Some (e_publishedAt e) else m
    end) None (jvalues (unacked c)).

(** Times are whole milliseconds, so the age is not rounded. *)
Definition getStats (now : Z) (c : client) : PayloadWriterStats :=
  let es := jvalues (unacked c) in
  {| unackedEntries := jsize (unacked c);
     unackedTransportBytes := foldl (λ n e, n + in_transportBytes (e_input e)) 0 es;
     unackedPayloadBytes := foldl (λ n e, n + in_payloadBytes (e_input e)) 0 es;
     oldestUnackedAgeMs :=
       match oldest_published c with None => 0 | Some o => Z.max 0 (now - o) end;
     stat_counters := cnt c;
     activeGeneration := active (life c);
     liveGenerations :=
       Z.of_nat (length (filter (λ g, g_status g ≠ dead) (jvalues (generations c))));
     healthy := negb (watchdogUnhealthy (hlt c)) && negb (is_fatal c) && negb (is_disposed c);
     stat_admissionSuspended := admissionSuspended (hlt c);
     stat_writerFatal := writerFatal (hlt c);
     stat_disposed := is_disposed c |}.

(** * Messages *)

Definition retry_delay (attempts : Z) : Z :=
  Z.min PAYLOAD_RETRY_MAX_MS (PAYLOAD_RETRY_BASE_MS * 2 ^ Z.max 0 (attempts - 1)).

Definition scheduleRetry (seq : Z) (c : client) : client :=
  update_entry seq
    (λ e, set_retryTimer (Some (retry_delay (e_attempts e))) (set_place retry_wait None e))
    (with_cnt (count 0 0 0 0 1 0 0 0 0) c).

(** One result of [handleAck], from generation [g], tagged [tag] *)
Definition ack_result (g tag : Z) (c : client) (r : PayloadWriteAck) : client :=
  match unacked c !! ack_seq r with
  | None => c
  | Some e =>
      if negb (bool_decide (e_generation e = Some tag)) || negb (tag =? g) then c
      else
        match ack_status r, ack_errorClass r with
        | ack_committed, _ =>
            settle (ack_seq r) out_committed None None (with_cnt (count 1 0 0 0 0 0 0 0 0) c)
        | ack_failed, Some retryable => scheduleRetry (ack_seq r) c
        | ack_failed, Some writer_fatal =>
            update_entry (ack_seq r) (set_place buffered None)
              (onWriterFatal (default "unclassified writer failure"%string (ack_detail r)) c)
        | ack_failed, cls =>
            settle (ack_seq r) out_dropped cls (ack_detail r)
              (with_cnt (count 0 1 0 0 0 0 0 0 0) c)
        end
  end.

Definition handleAck (g tag : Z) (results : list PayloadWriteAck) (now : Z) (c : client)
    : client :=
  let c := with_hlt (set_lastAckAt now) c in
  let unhealthy := watchdogUnhealthy (hlt c) in
  let resumed := unhealthy && negb (is_fatal c) in
  let c := if unhealthy then with_hlt (set_unhealthy false) c else c in
  let c := if resumed then with_hlt (set_suspended false) c else c in
  let c := foldl (ack_result g tag) c results in
  if resumed then flushBuffered now c else c.

Definition handleMessage (g : Z) (m : PayloadWriteResponse) (now : Z) (c : client) : client :=
  match m with
  | Ready _ =>
      if bool_decide (status_of g c = starting)
      then finish g true None None (update_generation g (set_status gen_ready) c)
      else c
  | InitError _ detail cls => finish g false (Some detail) (Some cls) c
  | Closed _ => close_done g c
  | Ack tag results => handleAck g tag results now c
  end.

(** [transport.onError] *)
Definition onTransportError (g : Z) (detail : string) (c : client) : client :=
  match generations c !! g with
  | None => c
  | Some st => if negb (g_settled st) then finish g false (Some detail) None c
               else onGenerationDied g c
  end.

(** * Timers *)

Definition onReadyTimeout (g : Z) (c : client) : client :=
  match generations c !! g ≫= g_readyTimer with
  | None => c
  | Some _ =>
      finish g false (Some "payload writer did not report ready in time"%string) None
        (update_generation g (set_readyTimer None) c)
  end.

Definition onCloseTimeout (g : Z) (c : client) : client :=
  match generations c !! g ≫= g_closeTimer with
  | None => c
  | Some _ => close_done g c
  end.

Definition onRetryTimer (seq now : Z) (c : client) : client :=
  match unacked c !! seq ≫= e_retryTimer with
  | None => c
  | Some _ =>
      let c := update_entry seq (set_retryTimer None) c in
      let '(dropped, c) := dropIfExpired seq now c in
      if dropped then c
      else
        trySend seq now
          (ensureActiveGeneration
             (update_entry seq (λ e, set_place buffered (e_generation e) e) c))
  end.

Definition onRespawnTimer (c : client) : client :=
  match respawnTimer (tmr c) with
  | None => c
  | Some _ =>
      let c := with_tmr (λ t, set_respawn (respawnAttempts t) None t) c in
      let over :=
        match active (life c) ≫= λ g, generations c !! g with
        | Some st => rotationByteBudget <=? g_publishedBytes st
        | None => false
        end in
      if over then maybeRotate c else ensureActiveGeneration c
  end.

(** * The watchdog *)

(** [oldestSentAt] *)
Definition oldest_sent (c : client) : option Z :=
  foldl (λ m e,
    if bool_decide (e_state e = sent) then
      match m with
      | None => Some (e_sentAt e)
      | Some o => if e_sentAt e <? o then Some (e_sentAt e) else m
      end
    else m) None (jvalues (unacked c)).

(** The loop of [fence] over the registry *)
Definition unsend (c : client) (seq : Z) : client :=
  update_entry seq
    (λ e, if bool_decide (e_state e = sent) then set_place buffered None e else e) c.

Definition fence (now : Z) (c : client) : client :=
  match active (life c) with
  | None => c
  | Some g =>
      let c := with_cnt (count 0 0 0 0 0 0 0 0 1) c in
      let c := killGeneration g c in
      let c := foldl unsend c (jkeys (unacked c)) in
      scheduleRespawn
        (with_hlt (set_suspended true ∘ set_unhealthy true ∘ set_lastAckAt now) c)
  end.

Definition runWatchdog (now : Z) (c : client) : client :=
  if is_disposed c || is_fatal c then c
  else
    match oldest_sent c with
    | None =>
        let c := with_hlt (set_lastAckAt now) c in
        if watchdogUnhealthy (hlt c)
        then flushBuffered now (with_hlt (set_suspended false ∘ set_unhealthy false) c)
        else c
    | Some oldest =>
        let noProgressMs := Z.min (now - oldest) (now - lastAckAt (hlt c)) in
        if PAYLOAD_NO_PROGRESS_FENCE_MS <=? noProgressMs then fence now c
        else if (PAYLOAD_NO_PROGRESS_UNHEALTHY_MS <=? noProgressMs)
                && negb (watchdogUnhealthy (hlt c))
        then with_hlt (set_suspended true ∘ set_unhealthy true) c
        else c
    end.

Definition onWatchdogTimer (now : Z) (c : client) : client :=
  match watchdogTimer (tmr c) with
  | None => c
  | Some _ =>
      let c := runWatchdog now (with_tmr (set_watchdog None) c) in
      if is_disposed c then c
      else with_tmr (set_watchdog (Some PAYLOAD_WATCHDOG_INTERVAL_MS)) c
  end.

(** * Disposal *)

Definition beginDisposeDrain (c : client) : client := with_life set_suppressed c.

(** The [finally] of [doDispose]: the loops over the generations and the registry *)
Definition abandon (c : client) (seq : Z) : client :=
  settle seq out_abandoned None None (with_cnt (count 0 0 0 1 0 0 0 0 0) c).

Definition dispose_finish (c : client) : client :=
  let c := foldl (λ c g, killGeneration g c) c (jkeys (generations c)) in
  let c := with_life (set_active None) c in
  with_life (set_disposing Disposed) (foldl abandon c (jkeys (unacked c))).

Definition sendDuringDispose (g seq now : Z) (c : client) : client :=
  let c := update_entry seq (λ e, set_sent g now (e_everSent e) e) c in
  let '(posted, c) := post_write g seq c in
  if posted then c else update_entry seq (set_place buffered None) c.

Definition dispose_entry (g now : Z) (c : client) (seq : Z) : client :=
  match unacked c !! seq with
  | None => c
  | Some e =>
      if bool_decide (e_state e = sent) && bool_decide (e_generation e = Some g) then c
      else sendDuringDispose g seq now (update_entry seq (set_place buffered None) c)
  end.

(** From the read of [active] to the close of its generation *)
Definition dispose_handover (deadlineMs now : Z) (c : client) : client :=
  match active (life c) with
  | Some g =>
      if bool_decide (status_of g c = gen_ready) && negb (is_fatal c) then
        closeGeneration g deadlineMs for_dispose
          (foldl (dispose_entry g now) (with_life (set_disposing AwaitClose) c)
             (jkeys (unacked c)))
      else dispose_finish c
  | None => dispose_finish c
  end.

Definition dispose_rotation (deadlineMs now : Z) (c : client) : client :=
  if rotating c && negb (deadlineMs <=? 0)
  then with_life (set_disposing (AwaitRotation deadlineMs)) c
  else dispose_handover deadlineMs now c.

Definition dispose (deadlineMs now : Z) (c : client) : client :=
  match disposing (life c) with
  | Some _ => c
  | None =>
      let c := with_life set_disposed c in
      let c := with_hlt (set_suspended true) c in
      let c := with_tmr (set_watchdog None ∘ λ t, set_respawn (respawnAttempts t) None t) c in
      let c := foldl (λ c seq, update_entry seq (set_retryTimer None) c) c
                 (jkeys (unacked c)) in
      if spawnInFlight (life c) && (0 <? jsize (unacked c)) && negb (deadlineMs <=? 0)
      then with_life (set_disposing (AwaitSpawn deadlineMs)) c
      else dispose_rotation deadlineMs now c
  end.

(** A wait of [doDispose] ends: its promise settled or its deadline passed. *)
Definition dispose_resume (now : Z) (c : client) : client :=
  match disposing (life c) with
  | Some (AwaitSpawn d) => dispose_rotation d now c
  | Some (AwaitRotation d) => dispose_handover d now c
  | _ => c
  end.

(** * Continuations *)

(** The [finally] of [rotate] *)
Definition rotate_finally (now : Z) (c : client) : client :=
  let c := with_life (set_rotation None) c in
  if bool_decide (is_Some (active (life c))) then replayToActive now c else c.

Definition rotate_spawned (replacement : option Z) (now : Z) (c : client) : client :=
  match rotation (life c), replacement with
  | None, _ => c
  | Some f, None =>
      rotate_finally now
        (if bool_decide (status_of (rf_outgoing f) c = dead) then c
         else with_life (set_active (Some (rf_outgoing f))) c)
  | Some f, Some g =>
      closeGeneration (rf_outgoing f) PAYLOAD_ROTATION_DEADLINE_MS for_cutover
        (with_life (set_rotation
          (Some {| rf_outgoing := rf_outgoing f; rf_replacement := Some g |})) c)
  end.

Definition rotate_closed (now : Z) (c : client) : client :=
  match rotation (life c) ≫= rf_replacement with
  | None => c
  | Some g =>
      rotate_finally now
        (if bool_decide (status_of g c = gen_ready)
         then with_cnt (count 0 0 0 0 0 0 1 0 0) (with_life (set_active (Some g)) c)
         else scheduleRespawn (with_life (set_active None) c))
  end.

Definition run_task (now : Z) (t : task) (c : client) : client :=
  match t with
  | TaskSpawned for_initial r =>
      with_life (set_spawnInFlight false)
        (match r with
         | None => c
         | Some g => flushBuffered now (with_life (set_active (Some g)) c)
         end)
  | TaskSpawned for_rotation r => rotate_spawned r now c
  | TaskClosed for_cutover => rotate_closed now c
  | TaskClosed for_dispose => dispose_finish c
  end.

(** * Events *)

Inductive event : Type :=
  | Publish (entry : PayloadEntryInput)
  | PublishReserved (entry : PayloadEntryInput)
  | Message (g : Z) (m : PayloadWriteResponse)
  | TransportError (g : Z) (detail : string)
  | ReadyTimeout (g : Z)
  | CloseTimeout (g : Z)
  | RetryTimer (seq : Z)
  | RespawnTimer
  | WatchdogTimer
  | BeginDisposeDrain
  | Dispose (deadlineMs : Z)
  | DisposeResume.

Definition handle (now : Z) (e : event) (c : client) : client :=
  match e with
  | Publish entry => (publish entry now c).2
  | PublishReserved entry => (publishReserved entry now c).2
  | Message g m => handleMessage g m now c
  | TransportError g detail => onTransportError g detail c
  | ReadyTimeout g => onReadyTimeout g c
  | CloseTimeout g => onCloseTimeout g c
  | RetryTimer seq => onRetryTimer seq now c
  | RespawnTimer => onRespawnTimer c
  | WatchdogTimer => onWatchdogTimer now c
  | BeginDisposeDrain => beginDisposeDrain c
  | Dispose deadlineMs => dispose deadlineMs now c
  | DisposeResume => dispose_resume now c
  end.

End client.

(** * Runs *)

(** What the results of an acknowledgement take off the wire. *)
Definition answered_by (g : Z) (results : list PayloadWriteAck) (c : client) : client :=
  with_net (filter (λ p, ¬ (p.1 = g ∧ p.2 ∈ (ack_seq <$> results))) (wire c)) (posts c) c.

Definition deliver (e : event) (c : client) : client :=
  match e with Message g (Ack _ results) => answered_by g results c | _ => c end.

(** A live worker answers the writes it holds, each once, under its own generation
    ([PayloadWorker.every_row_answered]). Of a terminated one anything may still be queued. *)
Definition truthful (e : event) (c : client) : Prop :=
  match e with
  | Message g (Ack tag results) =>
      status_of g c ≠ dead →
      tag = g ∧ NoDup (ack_seq <$> results) ∧ ∀ s, s ∈ (ack_seq <$> results) → (g, s) ∈ wire c
  | _ => True
  end.

#[export] Instance truthful_dec e c : Decision (truthful e c).
Proof.
  destruct e as [| |g m| | | | | | | | |]; try (by left). destruct m as [|tag rs| |]; try (by left).
  simpl. destruct (decide (status_of g c = dead)); [by left|].
  destruct (decide (tag = g ∧ NoDup (ack_seq <$> rs) ∧
                    Forall (λ s, (g, s) ∈ wire c) (ack_seq <$> rs))) as [Hd|Hd].
  - left. intros _. rewrite <-Forall_forall. done.
  - right. intros Hn. apply Hd. rewrite Forall_forall. by apply Hn.
Defined.

Section steps.
Context (spawnThrows : Z → bool) (postThrows : nat → bool) (getRetentionMs : Z → option Z).
Context (rotationByteBudget : Z).

(** Queued continuations run first; then the next event is handled. *)
Inductive step : client → option event → client → Prop :=
  | step_task c now t ts :
      tasks c = t :: ts →
      step c None
        (run_task spawnThrows postThrows getRetentionMs rotationByteBudget now t
           (with_tasks ts c))
  | step_event c now e :
      tasks c = [] → truthful e c →
      step c (Some e)
        (handle spawnThrows postThrows getRetentionMs rotationByteBudget now e (deliver e c)).

Inductive run : client → list event → client → Prop :=
  | run_nil c : run c [] c
  | run_task_step c c' c'' es : step c None c' → run c' es c'' → run c es c''
  | run_event_step c c' c'' e es :
      step c (Some e) c' → run c' es c'' → run c (e :: es) c''.

End steps.

(** ** Schedules *)

(** Every queued continuation runs ([n] bounds their number). *)
Fixpoint drain (spawnThrows : Z → bool) (postThrows : nat → bool) (getRetentionMs : Z → option Z)
    (rotationByteBudget : Z) (n : nat) (now : Z) (c : client) : client :=
  match n, tasks c with
  | S n, t :: ts =>
      drain spawnThrows postThrows getRetentionMs rotationByteBudget n now
        (run_task spawnThrows postThrows getRetentionMs rotationByteBudget now t (with_tasks ts c))
  | _, _ => c
  end.

(** Timed events, each handled with the continuations it queues; whether that is a run *)
Fixpoint drive (spawnThrows : Z → bool) (postThrows : nat → bool) (getRetentionMs : Z → option Z)
    (rotationByteBudget : Z) (es : list (Z * event)) (c : client) : bool * client :=
  match es with
  | [] => (true, c)
  | (now, e) :: es =>
      let c' := drain spawnThrows postThrows getRetentionMs rotationByteBudget 4 now
                  (handle spawnThrows postThrows getRetentionMs rotationByteBudget now e
                     (deliver e c)) in
      let '(ok, c'') := drive spawnThrows postThrows getRetentionMs rotationByteBudget es c' in
      (bool_decide (tasks c = []) && bool_decide (truthful e c) && ok, c'')
  end.

Section schedules.
Context (spawnThrows : Z → bool) (postThrows : nat → bool) (getRetentionMs : Z → option Z).
Context (rotationByteBudget : Z).

Lemma drain_run n now c es c' :
  run spawnThrows postThrows getRetentionMs rotationByteBudget
    (drain spawnThrows postThrows getRetentionMs rotationByteBudget n now c) es c' →
  run spawnThrows postThrows getRetentionMs rotationByteBudget c es c'.
Proof.
  revert c. induction n as [|n IH]; intros c; simpl; [done|].
  destruct (tasks c) as [|t ts] eqn:E; [done|]. intros H.
  eapply run_task_step; [by apply (step_task _ _ _ _ c now t ts)|]. by apply IH.
Qed.

Lemma drive_run es c :
  (drive spawnThrows postThrows getRetentionMs rotationByteBudget es c).1 = true →
  run spawnThrows postThrows getRetentionMs rotationByteBudget c (snd <$> es)
    (drive spawnThrows postThrows getRetentionMs rotationByteBudget es c).2.
Proof.
  revert c. induction es as [|[now e] es IH]; intros c; [intros _; apply run_nil|].
  rewrite fmap_cons. cbn [drive snd].
  set (c1 := handle _ _ _ _ now e _).
  set (c' := drain _ _ _ _ 4 now c1). specialize (IH c').
  destruct (drive _ _ _ _ es c') as [ok c2]. cbn [fst snd] in *.
  intros [[Ht%bool_decide_eq_true Htr%bool_decide_eq_true]%andb_true_iff Hok]%andb_true_iff.
  eapply run_event_step; [exact (step_event _ _ _ _ c now e Ht Htr)|].
  apply (drain_run 4 now). exact (IH Hok).
Qed.
End schedules.

(** * Accounting *)

Definition settled_as (o : PayloadSettlementOutcome) (c : client) : Z :=
  Z.of_nat (length (filter (λ s, set_outcome s = o) (settlements c))).

(** Each entry registered is in the registry or was settled once, the counters say how, and
    what was settled as committed is among the acknowledged entries [K]. *)
Record accounted (K : list Z) (c : client) : Prop := {
  acc_nodup : NoDup (jkeys (unacked c) ++ (set_seq <$> settlements c));
  acc_all s : s ∈ jkeys (unacked c) ++ (set_seq <$> settlements c) ↔ 1 <= s < nextSeq c;
  acc_next : 1 <= nextSeq c;
  acc_committed : n_committed (cnt c) = settled_as out_committed c;
  acc_dropped : n_droppedPermanent (cnt c) = settled_as out_dropped c;
  acc_expired : n_expired (cnt c) = settled_as out_expired c;
  acc_abandoned : n_abandoned (cnt c) = settled_as out_abandoned c;
  acc_acked s : s ∈ settlements c → set_outcome s = out_committed → set_seq s ∈ K
}.

(** What an operation that neither registers nor settles leaves alone. *)
Definition quiet (c c' : client) : Prop :=
  jkeys (unacked c') = jkeys (unacked c) ∧ settlements c' = settlements c ∧
  nextSeq c' = nextSeq c ∧ n_committed (cnt c') = n_committed (cnt c) ∧
  n_droppedPermanent (cnt c') = n_droppedPermanent (cnt c) ∧
  n_expired (cnt c') = n_expired (cnt c) ∧ n_abandoned (cnt c') = n_abandoned (cnt c).

Lemma quiet_accounted (K : list Z) c c' : quiet c c' → accounted K c → accounted K c'.
Proof.
  intros (Hk & Hs & Hn & H1 & H2 & H3 & H4) [].
  split; unfold settled_as; rewrite ?Hk, ?Hs, ?Hn, ?H1, ?H2, ?H3, ?H4; done.
Qed.

#[export] Instance quiet_refl : Reflexive quiet.
Proof. by intros c. Qed.
#[export] Instance quiet_trans : Transitive quiet.
Proof.
  intros c1 c2 c3 (?&?&?&?&?&?&?) (?&?&?&?&?&?&?). repeat split; congruence.
Qed.

Create HintDb quiet.

(** Peels the operations off the right-hand side, outermost first. *)
Ltac quiet_step := etrans; [|solve [eauto 2 with quiet]].
Ltac quiet_solve :=
  repeat first
    [ reflexivity
    | done
    | quiet_step
    | progress cbv zeta
    | break_match ].

Lemma update_entry_keys s f c : jkeys (unacked (update_entry s f c)) = jkeys (unacked c).
Proof.
  unfold update_entry. destruct (unacked c !! s) eqn:E; [|done]. simpl.
  apply jkeys_insert_present. eauto.
Qed.

Lemma quiet_update_entry s f c : quiet c (update_entry s f c).
Proof.
  split; [apply update_entry_keys|]. unfold update_entry. by destruct (unacked c !! s).
Qed.

Lemma quiet_update_generation g f c : quiet c (update_generation g f c).
Proof. unfold update_generation. by destruct (generations c !! g). Qed.

Lemma quiet_with_life f c : quiet c (with_life f c). Proof. done. Qed.
Lemma quiet_with_tmr f c : quiet c (with_tmr f c). Proof. done. Qed.
Lemma quiet_with_hlt f c : quiet c (with_hlt f c). Proof. done. Qed.
Lemma quiet_with_net w n c : quiet c (with_net w n c). Proof. done. Qed.
Lemma quiet_with_generations m c : quiet c (with_generations m c). Proof. done. Qed.
Lemma quiet_with_tasks ts c : quiet c (with_tasks ts c). Proof. done. Qed.
Lemma quiet_push_task t c : quiet c (push_task t c). Proof. done. Qed.
Lemma quiet_count r1 r2 r3 r4 r5 c :
  quiet c (with_cnt (count 0 0 0 0 r1 r2 r3 r4 r5) c).
Proof. repeat split; simpl; lia. Qed.
Lemma quiet_with_next n c : quiet c (with_next (nextSeq c) n c). Proof. done. Qed.

#[local] Hint Resolve quiet_update_entry quiet_update_generation quiet_with_life quiet_with_tmr
  quiet_with_hlt quiet_with_net quiet_with_generations quiet_with_tasks quiet_push_task
  quiet_count quiet_with_next : quiet.

Lemma quiet_scheduleRespawn c : quiet c (scheduleRespawn c).
Proof. unfold scheduleRespawn. quiet_solve. Qed.
Lemma quiet_killGeneration g c : quiet c (killGeneration g c).
Proof. unfold killGeneration. quiet_solve. Qed.
#[local] Hint Resolve quiet_scheduleRespawn quiet_killGeneration : quiet.

Lemma quiet_onGenerationDied g c : quiet c (onGenerationDied g c).
Proof. unfold onGenerationDied. quiet_solve. Qed.
Lemma quiet_onSpawnFailure c : quiet c (onSpawnFailure c).
Proof. unfold onSpawnFailure. quiet_solve. Qed.
Lemma quiet_onWriterFatal d c : quiet c (onWriterFatal d c).
Proof. unfold onWriterFatal. quiet_solve. Qed.
#[local] Hint Resolve quiet_onGenerationDied quiet_onSpawnFailure quiet_onWriterFatal : quiet.

Lemma quiet_finish g ok d cls c : quiet c (finish g ok d cls c).
Proof. unfold finish. quiet_solve. Qed.
Lemma quiet_close_done g c : quiet c (close_done g c).
Proof. unfold close_done. quiet_solve. Qed.
#[local] Hint Resolve quiet_finish quiet_close_done : quiet.

Section quiet.
Context (spawnThrows : Z → bool) (postThrows : nat → bool) (getRetentionMs : Z → option Z).
Context (rotationByteBudget : Z).

Lemma quiet_spawnGeneration w c : quiet c (spawnGeneration spawnThrows postThrows w c).
Proof. unfold spawnGeneration, post_control. quiet_solve. Qed.
#[local] Hint Resolve quiet_spawnGeneration : quiet.

Lemma quiet_ensureActive c : quiet c (ensureActiveGeneration spawnThrows postThrows c).
Proof. unfold ensureActiveGeneration. quiet_solve. Qed.
Lemma quiet_rotate g c : quiet c (rotate spawnThrows postThrows g c).
Proof. unfold rotate. quiet_solve. Qed.
#[local] Hint Resolve quiet_ensureActive quiet_rotate : quiet.
Lemma quiet_maybeRotate c :
  quiet c (maybeRotate spawnThrows postThrows rotationByteBudget c).
Proof. unfold maybeRotate. quiet_solve. Qed.
Lemma quiet_closeGeneration g d w c : quiet c (closeGeneration postThrows g d w c).
Proof. unfold closeGeneration, post_control. quiet_solve. Qed.
#[local] Hint Resolve quiet_maybeRotate quiet_closeGeneration : quiet.

Lemma quiet_trySend s now c :
  quiet c (trySend spawnThrows postThrows rotationByteBudget s now c).
Proof. unfold trySend, post_write. quiet_solve. Qed.
#[local] Hint Resolve quiet_trySend : quiet.
Lemma quiet_sendOrReplay s now c :
  quiet c (sendOrReplay spawnThrows postThrows rotationByteBudget s now c).
Proof. unfold sendOrReplay. quiet_solve. Qed.
Lemma quiet_startWatchdog c : quiet c (startWatchdog c).
Proof. unfold startWatchdog. quiet_solve. Qed.
Lemma quiet_scheduleRetry s c : quiet c (scheduleRetry s c).
Proof. unfold scheduleRetry. quiet_solve. Qed.
Lemma quiet_fold {A} (f : client → A → client) l c :
  (∀ c a, quiet c (f c a)) → quiet c (foldl f c l).
Proof. intros Hf. revert c. induction l as [|a l IH]; intros c; simpl; [done|]. etrans; [apply Hf|apply IH]. Qed.
Lemma quiet_fence now c : quiet c (fence now c).
Proof.
  unfold fence. destruct (active (life c)); [|done]. quiet_step. quiet_step.
  etrans; [|apply quiet_fold; intros; apply quiet_update_entry]. quiet_solve.
Qed.
Lemma quiet_onTransportError g d c : quiet c (onTransportError g d c).
Proof. unfold onTransportError. quiet_solve. Qed.
Lemma quiet_onReadyTimeout g c : quiet c (onReadyTimeout g c).
Proof. unfold onReadyTimeout. quiet_solve. Qed.
Lemma quiet_onCloseTimeout g c : quiet c (onCloseTimeout g c).
Proof. unfold onCloseTimeout. quiet_solve. Qed.
Lemma quiet_onRespawnTimer c :
  quiet c (onRespawnTimer spawnThrows postThrows rotationByteBudget c).
Proof. unfold onRespawnTimer. quiet_solve. Qed.
End quiet.

#[export] Hint Resolve quiet_update_entry quiet_update_generation quiet_with_life quiet_with_tmr
  quiet_with_hlt quiet_with_net quiet_with_tasks quiet_push_task quiet_count
  quiet_scheduleRespawn quiet_killGeneration quiet_onGenerationDied quiet_onWriterFatal
  quiet_finish quiet_close_done quiet_ensureActive quiet_closeGeneration quiet_trySend
  quiet_sendOrReplay quiet_startWatchdog quiet_scheduleRetry quiet_fence
  quiet_onTransportError quiet_onReadyTimeout quiet_onCloseTimeout quiet_onRespawnTimer : quiet.

(** ** Registering and settling *)

Definition count_as (o : PayloadSettlementOutcome) : counters → counters :=
  match o with
  | out_committed => count 1 0 0 0 0 0 0 0 0
  | out_dropped => count 0 1 0 0 0 0 0 0 0
  | out_expired => count 0 0 1 0 0 0 0 0 0
  | out_abandoned => count 0 0 0 1 0 0 0 0 0
  end.

Lemma accounted_settle (K : list Z) s o cls d c :
  is_Some (unacked c !! s) → (o = out_committed → s ∈ K) → accounted K c →
  accounted K (settle s o cls d (with_cnt (count_as o) c)).
Proof.
  intros [e He] Ho [Hnd Hall Hn H1 H2 H3 H4 Hk]. unfold settle. simpl. rewrite He.
  assert (Permutation (jkeys (unacked c)) (s :: filter (.≠ s) (jkeys (unacked c)))) as Hp.
  { apply NoDup_app in Hnd as (Hnd & _ & _). apply NoDup_Permutation; [done|..].
    - apply NoDup_cons. split; [by intros [? _]%list_elem_of_filter|by apply NoDup_filter].
    - intros x. rewrite elem_of_cons, list_elem_of_filter.
      assert (s ∈ jkeys (unacked c)) by (apply jelem_of_keys; eauto).
      destruct (decide (x = s)); naive_solver. }
  assert (Permutation (jkeys (delete s (unacked c)) ++ (set_seq <$> settlements c) ++ [s])
            (jkeys (unacked c) ++ (set_seq <$> settlements c))) as Hq.
  { rewrite jkeys_delete, Hp at 1. rewrite filter_cons, decide_False by (intros ?; done).
    rewrite list_filter_filter_l by done. rewrite Hp at 2. simpl. by rewrite app_assoc, Permutation_app_comm. }
  split; unfold settled_as in *; simpl.
  - rewrite fmap_app. simpl. by rewrite Hq.
  - intros x. rewrite fmap_app. simpl. rewrite Hq. apply Hall.
  - done.
  - rewrite filter_app, length_app, filter_cons, filter_nil. simpl.
    destruct o; simpl; rewrite ?H1; lia.
  - rewrite filter_app, length_app, filter_cons, filter_nil. simpl.
    destruct o; simpl; rewrite ?H2; lia.
  - rewrite filter_app, length_app, filter_cons, filter_nil. simpl.
    destruct o; simpl; rewrite ?H3; lia.
  - rewrite filter_app, length_app, filter_cons, filter_nil. simpl.
    destruct o; simpl; rewrite ?H4; lia.
  - intros st [Hst|Hst]%elem_of_app; [by apply Hk|].
    apply list_elem_of_singleton in Hst as ->. simpl. auto.
Qed.

Lemma accounted_register (K : list Z) entry now c : accounted K c → accounted K (register entry now c).
Proof.
  intros [Hnd Hall Hn H1 H2 H3 H4 Hk]. unfold register.
  eapply quiet_accounted; [apply quiet_startWatchdog|].
  assert (unacked c !! nextSeq c = None) as Hnew.
  { apply jlookup_None. intros Hin. assert (1 <= nextSeq c < nextSeq c); [|lia].
    apply Hall, elem_of_app. by left. }
  split; unfold settled_as in *; simpl; try done; [| |lia].
  - rewrite jkeys_insert_absent by done. rewrite <-app_assoc, (Permutation_app_comm [_]), app_assoc.
    apply NoDup_app. split; [done|]. split; [|by apply NoDup_singleton].
    intros x Hx ->%list_elem_of_singleton. apply Hall in Hx. lia.
  - intros x. rewrite jkeys_insert_absent by done.
    rewrite !elem_of_app, list_elem_of_singleton. specialize (Hall x). rewrite elem_of_app in Hall.
    destruct (decide (x = nextSeq c)); [subst; split; [lia|naive_solver]|]. split; [|].
    + intros [[?|?]|?]; [| done|]; assert (1 <= x < nextSeq c) by (apply Hall; auto); lia.
    + intros ?. assert (1 <= x < nextSeq c) as Hx by lia. apply Hall in Hx. tauto.
Qed.

(** Disposal settles what is left. *)
Lemma abandon_keys c s : jkeys (unacked (abandon c s)) = filter (.≠ s) (jkeys (unacked c)).
Proof.
  unfold abandon, settle. simpl. destruct (unacked c !! s) eqn:E; simpl; [apply jkeys_delete|].
  symmetry. apply filter_all. intros x Hx ->. apply jelem_of_keys in Hx as [? ?]. congruence.
Qed.

Lemma abandon_all_keys l c :
  jkeys (unacked (foldl abandon c l)) = filter (.∉ l) (jkeys (unacked c)).
Proof.
  revert c. induction l as [|s l IH]; intros c; simpl.
  { symmetry. apply filter_all. intros. apply not_elem_of_nil. }
  rewrite IH, abandon_keys, list_filter_filter. apply list_filter_iff.
  intros x. rewrite not_elem_of_cons. naive_solver.
Qed.

Lemma abandon_all c : unacked (foldl abandon c (jkeys (unacked c))) = ∅.
Proof.
  apply jkeys_nil. rewrite abandon_all_keys. apply filter_none. intros x Hx Hn. by apply Hn.
Qed.

Section accounting.
Context (spawnThrows : Z → bool) (postThrows : nat → bool) (getRetentionMs : Z → option Z).
Context (rotationByteBudget : Z).

Ltac quietly := eapply quiet_accounted; [solve [eauto 2 with quiet]|].

Lemma accounted_dropIfExpired (K : list Z) s now c :
  accounted K c → accounted K (dropIfExpired getRetentionMs s now c).2.
Proof.
  intros Ha. unfold dropIfExpired. destruct (unacked c !! s) eqn:E; [|done].
  destruct (getRetentionMs now); [|done]. do 2 (destruct (_ <=? _); [done|]).
  by apply (accounted_settle K _ out_expired).
Qed.

Lemma accounted_flush_entry (K : list Z) now g c s :
  accounted K c →
  accounted K (flush_entry spawnThrows postThrows getRetentionMs rotationByteBudget now g c s).
Proof.
  intros Ha. unfold flush_entry. destruct (unacked c !! s); [|done].
  destruct (_ && _); [done|]. destruct (bool_decide _); [done|].
  pose proof (accounted_dropIfExpired K s now c Ha) as Hd.
  destruct (dropIfExpired _ _ _ _) as [[] c1]; [done|]. by quietly.
Qed.

Lemma accounted_replay_entry (K : list Z) now c s :
  accounted K c →
  accounted K (replay_entry spawnThrows postThrows getRetentionMs rotationByteBudget now c s).
Proof.
  intros Ha. unfold replay_entry. destruct (unacked c !! s); [|done].
  destruct (_ && _); [done|].
  pose proof (accounted_dropIfExpired K s now (update_entry s (set_retryTimer None) c)) as Hd.
  destruct (dropIfExpired _ _ _ _) as [[] c1]; simpl in Hd;
    [|quietly; quietly]; apply Hd; by quietly.
Qed.

Lemma accounted_fold {A} (K : list Z) (f : client → A → client) l c :
  (∀ c a, accounted K c → accounted K (f c a)) → accounted K c → accounted K (foldl f c l).
Proof. intros Hf. revert c. induction l as [|a l IH]; intros c Hc; simpl; auto. Qed.

Lemma accounted_flushBuffered (K : list Z) now c :
  accounted K c →
  accounted K (flushBuffered spawnThrows postThrows getRetentionMs rotationByteBudget now c).
Proof.
  intros Ha. unfold flushBuffered. destruct (_ || _); [done|]. destruct (active _); [|done].
  destruct (_ || _); [done|]. apply accounted_fold; [|done]. intros. by apply accounted_flush_entry.
Qed.

Lemma accounted_replayToActive (K : list Z) now c :
  accounted K c →
  accounted K (replayToActive spawnThrows postThrows getRetentionMs rotationByteBudget now c).
Proof. intros Ha. apply accounted_fold; [|done]. intros. by apply accounted_replay_entry. Qed.

Lemma accounted_ack_result (K : list Z) g tag c r :
  (ack_status r = ack_committed → ack_seq r ∈ K) → accounted K c →
  accounted K (ack_result g tag c r).
Proof.
  intros Hack Ha. unfold ack_result. destruct (unacked c !! ack_seq r) eqn:E; [|done].
  destruct (_ || _); [done|].
  destruct (ack_status r), (ack_errorClass r) as [[]|];
    try (apply (accounted_settle K _ out_committed); [eauto|auto|done]);
    try (apply (accounted_settle K _ out_dropped); [eauto|done|done]).
  - by quietly.
  - quietly. by quietly.
Qed.

Lemma accounted_handleAck (K : list Z) g tag rs now c :
  (∀ r, r ∈ rs → ack_status r = ack_committed → ack_seq r ∈ K) → accounted K c →
  accounted K (handleAck spawnThrows postThrows getRetentionMs rotationByteBudget g tag rs now c).
Proof.
  intros Hack Ha. unfold handleAck. cbv zeta.
  set (c1 := if _ && _ then with_hlt (set_suspended false) _ else _).
  assert (accounted K (foldl (ack_result g tag) c1 rs)) as Hr; [|by destruct (_ && _);
    [apply accounted_flushBuffered|]].
  assert (accounted K c1) as Hc1.
  { unfold c1. by destruct (_ && _), (watchdogUnhealthy _); repeat quietly. }
  clearbody c1. revert c1 Hc1. induction rs as [|r rs IH]; intros c1 Hc1; [done|]. simpl.
  apply IH; [intros r' Hr'; apply Hack; by right|].
  apply accounted_ack_result; [|done]. apply Hack. left.
Qed.

Lemma accounted_abandon (K : list Z) l c :
  NoDup l → l ⊆ jkeys (unacked c) → accounted K c → accounted K (foldl abandon c l).
Proof.
  revert c. induction l as [|s l IH]; intros c; simpl; [done|].
  intros [Hs Hl]%NoDup_cons Hsub Ha. apply IH; [done| |].
  - rewrite abandon_keys. intros x Hx. apply list_elem_of_filter. split; [by intros ->|].
    apply Hsub. by right.
  - apply (accounted_settle K s out_abandoned); [|done|done]. apply jelem_of_keys, Hsub. left.
Qed.

Lemma accounted_dispose_finish (K : list Z) c :
  accounted K c → accounted K (dispose_finish c) ∧ unacked (dispose_finish c) = ∅.
Proof.
  intros Ha. unfold dispose_finish. set (c1 := with_life (set_active None) _).
  assert (accounted K c1) as Ha1.
  { quietly. eapply quiet_accounted; [|exact Ha]. apply quiet_fold. intros. apply quiet_killGeneration. }
  pose proof (acc_nodup _ _ Ha1) as (Hnd & _ & _)%NoDup_app.
  split; [|apply abandon_all]. quietly. by apply accounted_abandon.
Qed.

Lemma accounted_dispose_handover (K : list Z) d now c :
  accounted K c → accounted K (dispose_handover postThrows d now c).
Proof.
  intros Ha. unfold dispose_handover. destruct (active (life c)) as [g|];
    [|by apply accounted_dispose_finish].
  destruct (_ && _); [|by apply accounted_dispose_finish].
  quietly. eapply (quiet_accounted K (with_life (set_disposing AwaitClose) c)); [|by quietly].
  apply quiet_fold. intros c1 s. unfold dispose_entry, sendDuringDispose, post_write. quiet_solve.
Qed.

Lemma accounted_dispose_rotation (K : list Z) d now c :
  accounted K c → accounted K (dispose_rotation postThrows d now c).
Proof.
  intros Ha. unfold dispose_rotation. destruct (_ && _); [by quietly|].
  by apply accounted_dispose_handover.
Qed.

Lemma accounted_dispose (K : list Z) d now c : accounted K c → accounted K (dispose postThrows d now c).
Proof.
  intros Ha. unfold dispose. destruct (disposing _); [done|]. cbv zeta.
  set (c1 := foldl _ _ _). assert (accounted K c1) as Ha1.
  { eapply quiet_accounted; [apply quiet_fold; intros; apply quiet_update_entry|].
    repeat quietly. done. }
  destruct (_ && _); [by quietly|]. by apply accounted_dispose_rotation.
Qed.

(** The entries an event acknowledges as committed. *)
Definition acknowledged (e : event) : list Z :=
  match e with
  | Message _ (Ack _ rs) =>
      ack_seq <$> filter (λ r, is_committed r = true) rs
  | _ => []
  end.

Lemma accounted_handle (K : list Z) now e c :
  (∀ s, s ∈ acknowledged e → s ∈ K) → accounted K c →
  accounted K (handle spawnThrows postThrows getRetentionMs rotationByteBudget now e (deliver e c)).
Proof.
  intros HK Ha. assert (accounted K (deliver e c)) as Hd.
  { destruct e as [| |g m| | | | | | | | |]; try done. destruct m; try done. by quietly. }
  generalize dependent (deliver e c). clear c Ha. intros c Ha.
  destruct e as [entry|entry|g m|g d|g|g|s| | | |d|]; cbn [handle handleMessage] in *.
  - unfold publish. destruct (negb _); [done|]. cbn [snd]. quietly. quietly.
    by apply accounted_register.
  - unfold publishReserved. destruct (is_disposed c); [done|]. cbv zeta.
    destruct (_ || _); cbn [snd]; [by apply accounted_register|]. quietly. quietly.
    by apply accounted_register.
  - destruct m as [g'|tag rs|g'|g' dt cls]; cbn [handleMessage] in *.
    + destruct (bool_decide _); [|done]. quietly. by quietly.
    + apply accounted_handleAck; [|done]. intros r Hr Hs. apply HK.
      apply list_elem_of_fmap. exists r. split; [done|]. apply list_elem_of_filter. unfold is_committed. by rewrite Hs.
    + by quietly.
    + by quietly.
  - by quietly.
  - by quietly.
  - by quietly.
  - unfold onRetryTimer. destruct (_ ≫= _); [|done].
    pose proof (accounted_dropIfExpired K s now (update_entry s (set_retryTimer None) c)) as Hx.
    destruct (dropIfExpired _ _ _ _) as [[] c1]; simpl in Hx.
    + apply Hx. by quietly.
    + quietly. quietly. quietly. apply Hx. by quietly.
  - by quietly.
  - unfold onWatchdogTimer. destruct (watchdogTimer _); [|done].
    assert (accounted K (runWatchdog spawnThrows postThrows getRetentionMs rotationByteBudget now
              (with_tmr (set_watchdog None) c))) as Hw.
    { unfold runWatchdog. destruct (_ || _); [by quietly|]. destruct (oldest_sent _).
      - cbv zeta. destruct (_ <=? _); [by quietly; quietly|]. destruct (_ && _); by repeat quietly.
      - cbv zeta. destruct (watchdogUnhealthy _); [apply accounted_flushBuffered|]; by repeat quietly. }
    cbv zeta. destruct (is_disposed _); [done|]. by quietly.
  - by quietly.
  - by apply accounted_dispose.
  - unfold dispose_resume. destruct (disposing _) as [[]|]; try done.
    + by apply accounted_dispose_rotation.
    + by apply accounted_dispose_handover.
Qed.

Lemma accounted_task (K : list Z) now t c :
  accounted K c →
  accounted K (run_task spawnThrows postThrows getRetentionMs rotationByteBudget now t c).
Proof.
  intros Ha. assert (∀ c, accounted K c → accounted K (rotate_finally spawnThrows postThrows
    getRetentionMs rotationByteBudget now c)) as Hf.
  { intros c1 H1. unfold rotate_finally. cbv zeta.
    destruct (bool_decide _); [apply accounted_replayToActive|]; by quietly. }
  destruct t as [[] r|[]]; simpl.
  - quietly. destruct r; [|done]. apply accounted_flushBuffered. by quietly.
  - unfold rotate_spawned. destruct (rotation _), r; try done.
    + quietly. by quietly.
    + apply Hf. destruct (bool_decide _); [done|]. by quietly.
  - unfold rotate_closed. destruct (_ ≫= _); [|done]. apply Hf.
    destruct (bool_decide _); quietly; by quietly.
  - by apply accounted_dispose_finish.
Qed.

Lemma accounted_weaken K K' c : (∀ s, s ∈ K → s ∈ K') → accounted K c → accounted K' c.
Proof. intros HK []. split; auto. Qed.

Lemma accounted_run c es c' K :
  run spawnThrows postThrows getRetentionMs rotationByteBudget c es c' →
  accounted K c → accounted (K ++ (es ≫= acknowledged)) c'.
Proof.
  intros Hr. revert K. induction Hr as [c|c c1 c2 es Hs _ IH|c c1 c2 e es Hs _ IH]; intros K Ha.
  - simpl. by rewrite app_nil_r.
  - apply IH. inversion Hs; subst. apply accounted_task.
    eapply quiet_accounted; [apply quiet_with_tasks|done].
  - simpl. rewrite app_assoc. apply IH. inversion Hs; subst.
    apply accounted_handle; [intros s ?; apply elem_of_app; by right|].
    eapply accounted_weaken; [|done]. intros s ?. apply elem_of_app. by left.
Qed.

Lemma accounted_init now : accounted [] (client_init now).
Proof.
  split; try done.
  - apply NoDup_nil_2.
  - intros s. simpl. rewrite elem_of_nil. lia.
  - intros s. simpl. by rewrite elem_of_nil.
Qed.

(** C37: nothing published is lost or settled twice. In every run of the client, the entries it
    registered, numbered from 1, are exactly those in the registry and those settled, and
    none is in both or settled twice; the four settlement counters count the settlements of
    their kind; an entry settled as committed was acknowledged as committed by a worker's
    message of that run. The end of disposal empties the registry, so then every entry was
    settled. *)
Theorem every_payload_settled_once now es c :
  run spawnThrows postThrows getRetentionMs rotationByteBudget (client_init now) es c →
  (∀ s, 1 <= s < nextSeq c ↔ is_Some (unacked c !! s) ∨ s ∈ (set_seq <$> settlements c)) ∧
  (∀ s, is_Some (unacked c !! s) → s ∉ (set_seq <$> settlements c)) ∧
  NoDup (set_seq <$> settlements c) ∧
  n_committed (cnt c) = settled_as out_committed c ∧
  n_droppedPermanent (cnt c) = settled_as out_dropped c ∧
  n_expired (cnt c) = settled_as out_expired c ∧
  n_abandoned (cnt c) = settled_as out_abandoned c ∧
  (∀ st, st ∈ settlements c → set_outcome st = out_committed → set_seq st ∈ es ≫= acknowledged) ∧
  unacked (dispose_finish c) = ∅.
Proof.
  intros Hr. pose proof (accounted_run _ _ _ [] Hr (accounted_init now)) as Ha.
  pose proof Ha as [(Hk & Hd & Hs)%NoDup_app Hall Hn H1 H2 H3 H4 HK].
  split; [intros s; rewrite <-Hall, elem_of_app, jelem_of_keys; done|].
  split; [intros s ?; apply Hd; by apply jelem_of_keys|].
  repeat (split; [done|]). by eapply accounted_dispose_finish.
Qed.
End accounting.

(** ** A day of a client *)

Definition demo_entry (id : string) (bytes : Z) : PayloadEntryInput :=
  {| in_requestId := id; in_payload := []; in_timestamp := 0; in_transportBytes := bytes;
     in_payloadBytes := bytes |}.

Definition demo_committed (s : Z) : PayloadWriteAck :=
  {| ack_seq := s; ack_id := ""; ack_status := ack_committed; ack_errorClass := None;
     ack_detail := None |}.

Definition demo_busy (s : Z) : PayloadWriteAck :=
  {| ack_seq := s; ack_id := ""; ack_status := ack_failed; ack_errorClass := Some retryable;
     ack_detail := None |}.

(** Two payloads fill the first worker, which is retired for a second one; the third meets a
    lock and is retried; disposal abandons nothing but the payload that could not be acked. *)
Definition demo_events : list (Z * event) :=
  [(0, Publish (demo_entry "a" 60)); (1, Message 1 (Ready 1)); (2, Publish (demo_entry "b" 60));
   (3, Publish (demo_entry "c" 10)); (4, Message 2 (Ready 2));
   (5, Message 1 (Ack 1 [demo_committed 1; demo_committed 2])); (6, Message 1 (Closed 1));
   (7, Message 2 (Ack 2 [demo_busy 3])); (107, RetryTimer 3); (108, Publish (demo_entry "d" 5));
   (109, Dispose 1000); (110, Message 2 (Ack 2 [demo_committed 3])); (111, Message 2 (Closed 2))].

Definition demo_client : client :=
  (drive (λ _, false) (λ _, false) (λ _, None) 100 demo_events (client_init 0)).2.

Lemma every_payload_settled_once_witness :
  run (λ _, false) (λ _, false) (λ _, None) 100 (client_init 0) (snd <$> demo_events) demo_client ∧
  (λ s, (set_seq s, set_outcome s)) <$> settlements demo_client =
    [(1, out_committed); (2, out_committed); (3, out_committed); (4, out_abandoned)] ∧
  n_committed (cnt demo_client) = settled_as out_committed demo_client ∧
  NoDup (set_seq <$> settlements demo_client).
Proof.
  assert (run (λ _, false) (λ _, false) (λ _, None) 100 (client_init 0) (snd <$> demo_events)
            demo_client) as Hr by (apply drive_run; vm_compute; reflexivity).
  split; [exact Hr|]. split; [vm_compute; reflexivity|].
  destruct (every_payload_settled_once (λ _, false) (λ _, false) (λ _, None) 100 _ _ _ Hr)
    as (_ & _ & H1 & H2 & _).
  split; [exact H2|exact H1].
Defined.
