(* ===== verification/PayloadSafety.v ===== *)
(** One writer at a time: the safety of [PayloadClient.v].

    The invariant [inv] of the client's states, its preservation by every operation, and
    what it says of a run: no write is in the hands of two workers. *)

From S2P Require Import Prelude PayloadWorker PayloadClient.
Open Scope Z_scope.

(** * The invariant *)

(** The generation that may hold writes: the active one, or the one a rotation retires. *)
Definition owner (g : Z) (c : client) : Prop :=
  active (life c) = Some g ∨ ∃ f, rotation (life c) = Some f ∧ rf_outgoing f = g.

(** Until disposal has handed everything over, the registry follows what is in flight. *)
Definition tracking (c : client) : Prop := disposing (life c) ≠ Some AwaitClose.

Definition wire_entry (c : client) (p : Z * Z) : Prop :=
  status_of p.1 c ≠ dead ∧ owner p.1 c ∧
  (tracking c →
   ∃ e, unacked c !! p.2 = Some e ∧ e_state e = sent ∧ e_generation e = Some p.1).

(** Only an entry waiting with no generation has a retry timer. *)
Definition timer_ok (e : RegistryEntry) : Prop :=
  is_Some (e_retryTimer e) → e_state e = retry_wait ∧ e_generation e = None.

(** A failed spawn left a reason not to try again at once. *)
Definition blocked (c : client) : Prop :=
  is_Some (respawnTimer (tmr c)) ∨ is_Some (writerFatal (hlt c)) ∨ disposed (life c) = true.

Definition task_ok (c : client) (t : task) : Prop :=
  match t with
  | TaskSpawned for_initial None => True
  | TaskSpawned for_initial (Some g) =>
      active (life c) = None ∧ rotation (life c) = None ∧ spawning (life c) = false ∧
      status_of g c = gen_ready
  | TaskSpawned for_rotation r =>
      active (life c) = None ∧ spawning (life c) = false ∧
      (∀ f, rotation (life c) = Some f → rf_replacement f = None) ∧ (r = None → blocked c)
  | TaskClosed for_cutover =>
      active (life c) = None ∧
      ∃ f, rotation (life c) = Some f ∧ is_Some (rf_replacement f) ∧
           status_of (rf_outgoing f) c = dead ∧
           ∀ st, generations c !! rf_outgoing f = Some st → g_onClosed st ≠ Some for_cutover
  | TaskClosed for_dispose => disposed (life c) = true
  end.

(** What a spawn that has not settled says. *)
Definition unsettled_ok (c : client) (g : Z) (st : GenerationState) : Prop :=
  g_settled st = false →
  (g_status st = starting ∨ g_status st = dead ∧ disposed (life c) = true) ∧
  spawning (life c) = true ∧ g_onClosed st = None ∧
  (g_spawnedFor st = for_initial → rotation (life c) = None) ∧
  ∀ g' st', generations c !! g' = Some st' → g_settled st' = false → g' = g.

Record inv (c : client) : Prop := {
  i_fresh_g g : nextGeneration c <= g → generations c !! g = None;
  i_fresh_s s : nextSeq c <= s → unacked c !! s = None;
  i_nodup : NoDup (wire c).*2;
  i_wire p : p ∈ wire c → wire_entry c p;
  i_rotation : is_Some (rotation (life c)) → active (life c) = None;
  i_closer g st : generations c !! g = Some st → g_onClosed st = Some for_cutover →
    ∃ f, rotation (life c) = Some f ∧ rf_outgoing f = g ∧ is_Some (rf_replacement f);
  i_dispose_closer g st : generations c !! g = Some st → g_onClosed st = Some for_dispose →
    disposed (life c) = true;
  i_unsettled g st : generations c !! g = Some st → unsettled_ok c g st;
  i_settled g st : generations c !! g = Some st → g_settled st = true → g_status st ≠ starting;
  i_spawning : spawning (life c) = true → active (life c) = None ∧
    ∀ f, rotation (life c) = Some f → rf_replacement f = None;
  i_active g : active (life c) = Some g →
    ∃ st, generations c !! g = Some st ∧ g_settled st = true ∧ g_status st ≠ dead;
  i_outgoing f : rotation (life c) = Some f →
    ∃ st, generations c !! rf_outgoing f = Some st ∧ g_settled st = true;
  i_tasks : (length (tasks c) <= 1)%nat;
  i_tasks_active : tasks c ≠ [] → active (life c) = None ∨ disposed (life c) = true;
  i_task t : t ∈ tasks c → task_ok c t;
  i_disposing : is_Some (disposing (life c)) → disposed (life c) = true;
  i_wf : jwf (unacked c);
  i_timer s e : tracking c → unacked c !! s = Some e → timer_ok e;
  i_await_close : disposing (life c) = Some AwaitClose → rotation (life c) = None;
  i_done : disposing (life c) = Some Disposed → wire c = [] ∧ unacked c = ∅
}.

(** A continuation stays sound when nothing becomes active, changes hands or comes alive. *)
Lemma task_ok_mono c c' t :
  (active (life c) = None → active (life c') = None) →
  rotation (life c') = rotation (life c) → spawning (life c') = spawning (life c) →
  disposed (life c') = disposed (life c) → (blocked c → blocked c') →
  (∀ g st', generations c' !! g = Some st' →
     ∃ st, generations c !! g = Some st ∧
           (g_onClosed st' = g_onClosed st ∨ g_onClosed st' = None)) →
  (∀ g, status_of g c = dead → status_of g c' = dead) →
  (∀ g, t = TaskSpawned for_initial (Some g) → status_of g c' = status_of g c) →
  task_ok c t → task_ok c' t.
Proof.
  intros Ha Hr Hs Hd Hb Hoc Hdead Hg. destruct t as [[] [g|]|[]]; simpl; rewrite ?Hr, ?Hs, ?Hd.
  - intros (? & ? & ? & ?). rewrite Hg by done. auto.
  - done.
  - intros (? & ? & ? & ?). repeat split; auto.
  - intros (? & ? & ? & ?). repeat split; auto.
  - intros [? (f & ? & ? & ? & Hn)]. split; [auto|]. exists f. repeat split; auto.
    intros st' (st & E & [->| ->])%Hoc; auto.
  - done.
Qed.

(** Two states that differ at most in timers, counters, health and settlements *)
Definition same_core (c c' : client) : Prop :=
  unacked c' = unacked c ∧ generations c' = generations c ∧ nextSeq c' = nextSeq c ∧
  nextGeneration c' = nextGeneration c ∧ life c' = life c ∧ wire c' = wire c ∧
  tasks c' = tasks c ∧ (blocked c → blocked c').

Lemma inv_same_core c c' : same_core c c' → inv c → inv c'.
Proof.
  intros (Hu & Hg & Hs & Hn & Hl & Hw & Ht & Hb) [].
  assert (∀ g, status_of g c' = status_of g c) as Hst by (intros; unfold status_of; by rewrite Hg).
  split; unfold wire_entry, owner, unsettled_ok, tracking in *;
    rewrite ?Hu, ?Hg, ?Hs, ?Hn, ?Hl, ?Hw, ?Ht in *; eauto.
  - intros p. rewrite Hst. auto.
  - intros t Hin. apply (task_ok_mono c); rewrite ?Hl, ?Hg; eauto; intros; by rewrite Hst.
Qed.

#[export] Instance same_core_refl : Reflexive same_core.
Proof. by intros c. Qed.
#[export] Instance same_core_trans : Transitive same_core.
Proof. intros c1 c2 c3 (?&?&?&?&?&?&?&?) (?&?&?&?&?&?&?&?). repeat split; try congruence. auto. Qed.

(** ** Changing an entry *)

(** Entries in flight keep their place. *)
Lemma inv_update_entry s f c :
  (∀ e, tracking c → unacked c !! s = Some e →
     ((∃ g, (g, s) ∈ wire c) → e_state (f e) = e_state e ∧ e_generation (f e) = e_generation e) ∧
     (timer_ok e → timer_ok (f e))) →
  inv c → inv (update_entry s f c).
Proof.
  intros Hf Hi. unfold update_entry. destruct (unacked c !! s) as [e|] eqn:He; [|done].
  destruct Hi. split; simpl; try done.
  - intros s' Hs'. rewrite jlookup_insert_ne; [auto|]. intros <-. rewrite i_fresh_s0 in He by done. done.
  - intros [g s'] Hp. destruct (i_wire0 _ Hp) as (H1 & H2 & H3).
    split; [done|]. split; [done|]. intros Htr. destruct (H3 Htr) as (e' & H4 & H5 & H6).
    simpl in *. rewrite jlookup_insert.
    destruct (decide (s = s')) as [<-|]; [|eauto]. simplify_eq.
    exists (f e). destruct (Hf e Htr eq_refl) as [[-> ->] _]; eauto.
  - auto with jmap.
  - intros s' e' Htr. rewrite jlookup_insert. destruct (decide (s = s')) as [<-|]; [|eauto].
    intros [= <-]. destruct (Hf e Htr eq_refl) as [_ Ht]. eauto.
  - intros Hd. destruct (i_done0 Hd) as [? Hn]. by rewrite Hn in He.
Qed.

Lemma inv_update_entry_off s f c :
  (tracking c → s ∉ (wire c).*2) →
  (∀ e, tracking c → unacked c !! s = Some e → timer_ok e → timer_ok (f e)) →
  inv c → inv (update_entry s f c).
Proof.
  intros Hs Ht. apply inv_update_entry. intros e Htr He. split; [|auto]. intros (g & Hg).
  destruct (Hs Htr). apply list_elem_of_fmap. by exists (g, s).
Qed.

(** Clearing a retry timer *)
Lemma inv_clear_retryTimer s c : inv c → inv (update_entry s (set_retryTimer None) c).
Proof. apply inv_update_entry. intros e _ _. split; [done|]. by intros _ [? ?]. Qed.

Lemma inv_settle s o cls d c :
  (tracking c → s ∉ (wire c).*2) → inv c → inv (settle s o cls d c).
Proof.
  intros Hs Hi. unfold settle. destruct (unacked c !! s) as [e|] eqn:He; [|done].
  destruct Hi. split; simpl; try done.
  - intros s' Hs'. rewrite jlookup_delete. case_decide; auto.
  - intros [g s'] Hp. destruct (i_wire0 _ Hp) as (H1 & H2 & H3).
    split; [done|]. split; [done|]. intros Htr. simpl in *. rewrite jlookup_delete_ne; [auto|].
    intros <-. apply (Hs Htr). apply list_elem_of_fmap. by exists (g, s).
  - auto with jmap.
  - intros s' e' Htr. rewrite jlookup_delete. case_decide; [done|]. eauto.
  - intros Hd. destruct (i_done0 Hd) as [? Hn]. by rewrite Hn in He.
Qed.

(** ** Changing a generation *)

Definition no_initial (c : client) : Prop := ∀ g, TaskSpawned for_initial (Some g) ∉ tasks c.

Lemma no_initial_active c : inv c → is_Some (active (life c)) → no_initial c.
Proof. intros Hi [a Ha] g Hin. destruct (i_task _ Hi _ Hin) as [? _]. congruence. Qed.

Lemma no_initial_rotation c : inv c → is_Some (rotation (life c)) → no_initial c.
Proof. intros Hi [a Ha] g Hin. destruct (i_task _ Hi _ Hin) as (_ & ? & _). congruence. Qed.

Lemma no_initial_spawning c : inv c → spawning (life c) = true → no_initial c.
Proof. intros Hi Ha g Hin. destruct (i_task _ Hi _ Hin) as (_ & _ & ? & _). congruence. Qed.

Lemma no_initial_none c : tasks c = [] → no_initial c.
Proof. intros Ht g. rewrite Ht. apply not_elem_of_nil. Qed.

Lemma status_update_generation g f g' c :
  status_of g' (update_generation g f c) =
    if decide (g = g') then
      match generations c !! g with Some st => g_status (f st) | None => dead end
    else status_of g' c.
Proof.
  unfold status_of, update_generation. destruct (generations c !! g) as [st|] eqn:E; simpl.
  - rewrite jlookup_insert. by destruct (decide (g = g')).
  - destruct (decide (g = g')) as [<-|]; [by rewrite E|done].
Qed.

(** A change of a generation that keeps its control part *)
Lemma inv_update_generation g f c :
  (∀ st, generations c !! g = Some st →
     g_status (f st) = g_status st ∧ g_settled (f st) = g_settled st ∧
     g_spawnedFor (f st) = g_spawnedFor st ∧
     (g_onClosed (f st) = g_onClosed st ∨ g_onClosed (f st) = None)) →
  inv c → inv (update_generation g f c).
Proof.
  intros Hf Hi. assert (∀ g', status_of g' (update_generation g f c) = status_of g' c) as Hst.
  { intros g'. rewrite status_update_generation. case_decide as Hg; [subst g'|done].
    unfold status_of. destruct (generations c !! g) as [st|] eqn:E; [|done]. by apply Hf. }
  revert Hst. unfold update_generation. destruct (generations c !! g) as [st|] eqn:E; [|done].
  destruct (Hf st eq_refl) as (H1 & H2 & H3 & H4). intros Hst.
  set (c' := with_generations _ c) in *.
  assert (∀ g' st', generations c' !! g' = Some st' → ∃ st0, generations c !! g' = Some st0 ∧
    g_status st' = g_status st0 ∧ g_settled st' = g_settled st0 ∧
    g_spawnedFor st' = g_spawnedFor st0 ∧
    (g_onClosed st' = g_onClosed st0 ∨ g_onClosed st' = None)) as Hinv.
  { intros g' st'. unfold c'. simpl. rewrite jlookup_insert.
    destruct (decide (g = g')) as [<-|]; [intros [= <-]|]; eauto 10. }
  assert (∀ g' st0, generations c !! g' = Some st0 → ∃ st', generations c' !! g' = Some st' ∧
    g_status st' = g_status st0 ∧ g_settled st' = g_settled st0) as Hex.
  { intros g' st0 H0. unfold c'. simpl. rewrite jlookup_insert.
    destruct (decide (g = g')) as [<-|]; simplify_eq; eauto. }
  destruct Hi. split; try done.
  - intros g' Hg'. unfold c'. simpl. rewrite jlookup_insert_ne; [auto|]. intros <-.
    specialize (i_fresh_g0 _ Hg'). congruence.
  - intros p Hp. destruct (i_wire0 p Hp) as (? & ? & ?). split; [by rewrite Hst|done].
  - intros g' st' (st0 & H0 & _ & _ & _ & [->| ->])%Hinv; [by apply i_closer0|done].
  - intros g' st' (st0 & H0 & _ & _ & _ & [->| ->])%Hinv; [by eapply i_dispose_closer0|done].
  - intros g' st' (st0 & H0 & Hs & Hu & Hf0 & Hc)%Hinv. unfold unsettled_ok.
    rewrite Hs, Hu, Hf0. intros Hun. destruct (i_unsettled0 _ _ H0 Hun) as (?&?&?&?&Huq).
    split; [done|]. split; [done|]. split; [by destruct Hc as [->| ->]|]. split; [done|]. intros g2 st2 (st3 & H3' & _ & Hu3 & _)%Hinv. rewrite Hu3. by apply Huq.
  - intros g' st' (st0 & H0 & Hs & Hu & _)%Hinv. rewrite Hs, Hu. by eapply i_settled0.
  - intros a Ha. destruct (i_active0 a Ha) as (st0 & H0 & ? & ?).
    destruct (Hex _ _ H0) as (st' & ? & E1 & E2). exists st'. by rewrite E1, E2.
  - intros fr Hfr. destruct (i_outgoing0 fr Hfr) as (st0 & H0 & ?).
    destruct (Hex _ _ H0) as (st' & ? & _ & E2). exists st'. by rewrite E2.
  - intros t Ht. apply (task_ok_mono c); auto; [|intros; by rewrite Hst..].
    intros g' st' (st0 & ? & _ & _ & _ & ?)%Hinv. eauto.
Qed.

Lemma generations_kill g c :
  generations (killGeneration g c) =
    match generations c !! g with
    | Some st => if bool_decide (g_status st = dead) then generations c
                 else <[g := set_dead st]> (generations c)
    | None => generations c
    end.
Proof.
  unfold killGeneration. destruct (generations c !! g) as [st|]; [|done].
  destruct (bool_decide _); [done|]. simpl. by destruct (bool_decide _).
Qed.

Lemma status_kill g g' c :
  status_of g' (killGeneration g c) = if decide (g = g') then dead else status_of g' c.
Proof.
  unfold status_of. rewrite generations_kill.
  destruct (generations c !! g) as [st|] eqn:E.
  - destruct (bool_decide (g_status st = dead)) eqn:Ed; prop_bools.
    + case_decide as Hg; [subst g'; by rewrite E|done].
    + rewrite jlookup_insert. by case_decide.
  - case_decide as Hg; [subst g'; by rewrite E|done].
Qed.

(** What killing leaves of a generation *)
Lemma lookup_kill g g' st' c :
  generations (killGeneration g c) !! g' = Some st' →
  ∃ st, generations c !! g' = Some st ∧ g_settled st' = g_settled st ∧
        g_onClosed st' = g_onClosed st ∧ g_spawnedFor st' = g_spawnedFor st ∧
        (g_status st' = g_status st ∨ g = g' ∧ g_status st' = dead).
Proof.
  rewrite generations_kill. destruct (generations c !! g) as [st|] eqn:E; [|eauto 10].
  destruct (bool_decide _); [eauto 10|]. rewrite jlookup_insert.
  destruct (decide (g = g')) as [<-|]; [intros [= <-]|]; eauto 10.
Qed.

Lemma lookup_kill_inv g g' st c :
  generations c !! g' = Some st →
  ∃ st', generations (killGeneration g c) !! g' = Some st' ∧ g_settled st' = g_settled st ∧
         (g ≠ g' → st' = st).
Proof.
  intros Hst. rewrite generations_kill. destruct (generations c !! g) as [st0|] eqn:E; [|eauto].
  destruct (bool_decide _); [eauto|]. rewrite jlookup_insert.
  destruct (decide (g = g')) as [<-|]; simplify_eq; [exists (set_dead st)|exists st]; done.
Qed.

Lemma active_kill g c :
  inv c →
  active (life (killGeneration g c)) = (if bool_decide (active (life c) = Some g) then None
                                        else active (life c)).
Proof.
  intros Hi. unfold killGeneration.
  destruct (bool_decide (active (life c) = Some g)) eqn:Ea; prop_bools.
  - destruct (i_active _ Hi _ Ea) as (st & -> & _ & Hd). rewrite bool_decide_false by done.
    simpl. by rewrite bool_decide_true.
  - destruct (generations c !! g); [|done]. destruct (bool_decide _); [done|]. simpl.
    by rewrite bool_decide_false.
Qed.

Lemma life_kill g c :
  (life (killGeneration g c)) = life c ∨
  (life (killGeneration g c)) = set_active None (life c).
Proof.
  unfold killGeneration. destruct (generations c !! g); [|by left].
  destruct (bool_decide _); [by left|]. simpl. destruct (bool_decide _); [by right|by left].
Qed.

(** The rest of the state *)
Lemma kill_frame g c :
  let c' := killGeneration g c in
  unacked c' = unacked c ∧ nextSeq c' = nextSeq c ∧ nextGeneration c' = nextGeneration c ∧
  tmr c' = tmr c ∧ hlt c' = hlt c ∧ tasks c' = tasks c ∧
  rotation (life c') = rotation (life c) ∧ spawning (life c') = spawning (life c) ∧
  disposed (life c') = disposed (life c) ∧ disposing (life c') = disposing (life c).
Proof.
  unfold killGeneration. destruct (generations c !! g); [|done].
  destruct (bool_decide _); [done|]. simpl. by destruct (bool_decide _).
Qed.

Lemma wire_kill g c p :
  inv c → p ∈ wire (killGeneration g c) ↔ p ∈ wire c ∧ p.1 ≠ g.
Proof.
  intros Hi. unfold killGeneration. destruct (generations c !! g) as [st|] eqn:E.
  - destruct (bool_decide (g_status st = dead)) eqn:Ed; prop_bools.
    + split; [|tauto]. intros Hp. split; [done|]. intros <-.
      destruct (i_wire _ Hi p Hp) as [Hl _]. apply Hl. unfold status_of. by rewrite E.
    + destruct (bool_decide _); simpl; rewrite list_elem_of_filter; tauto.
  - split; [|tauto]. intros Hp. split; [done|]. intros <-.
    destruct (i_wire _ Hi p Hp) as [Hl _]. apply Hl. unfold status_of. by rewrite E.
Qed.

Lemma wire_kill_NoDup g c : NoDup (wire c).*2 → NoDup (wire (killGeneration g c)).*2.
Proof.
  intros Hnd. unfold killGeneration. destruct (generations c !! g); [|done].
  destruct (bool_decide _); [done|].
  destruct (bool_decide _); simpl; (eapply sublist_NoDup; [exact Hnd|]);
    apply fmap_sublist, sublist_filter.
Qed.

Lemma inv_kill g c :
  no_initial c →
  (∀ st, generations c !! g = Some st → g_settled st = true ∨ disposed (life c) = true) →
  inv c → inv (killGeneration g c).
Proof.
  intros Hno Hset Hi. pose proof (kill_frame g c) as (F1 & F2 & F3 & F4 & F5 & F6 & F7 & F8 & F9 & F10).
  pose proof (active_kill g c Hi) as Ha.
  pose proof (λ g', status_kill g g' c) as Hst. pose proof (λ p, wire_kill g c p Hi) as Hw.
  set (c' := killGeneration g c) in *.
  assert (∀ g', active (life c') = Some g' → active (life c) = Some g' ∧ g ≠ g') as Hact.
  { intros g'. rewrite Ha. destruct (bool_decide _) eqn:E; prop_bools; [done|].
    intros ?. split; congruence. }
  assert (active (life c) = None → active (life c') = None) as Hnone.
  { rewrite Ha. destruct (bool_decide _); done. }
  destruct Hi. split; rewrite ?F1, ?F2, ?F3, ?F6, ?F7, ?F8, ?F9, ?F10; try done.
  - intros g' Hg'. destruct (generations c' !! g') as [st'|] eqn:E; [|done].
    apply lookup_kill in E as (st & E & _). by rewrite i_fresh_g0 in E.
  - by apply wire_kill_NoDup.
  - intros p (Hp & Hne)%Hw. destruct (i_wire0 p Hp) as (H1 & H2 & H3).
    split; [by rewrite Hst, decide_False by congruence|]. unfold owner, tracking. rewrite F7, F1, F10.
    split; [|done]. destruct H2 as [H2|H2]; [left|by right]. rewrite Ha.
    rewrite bool_decide_false; congruence.
  - auto.
  - intros g' st' (st & E & _ & -> & _)%lookup_kill. by apply i_closer0.
  - intros g' st' (st & E & _ & -> & _)%lookup_kill. by eapply i_dispose_closer0.
  - intros g' st' (st & E & Hs & Ho & Hf & Hd)%lookup_kill. unfold unsettled_ok.
    rewrite Hs, Ho, Hf, F8, F7, F9. intros Hun.
    destruct (i_unsettled0 _ _ E Hun) as (H1 & H2 & H3 & H4 & H5).
    split; [|repeat (split; [done|]); intros g2 st2 (st3 & E3 & -> & _)%lookup_kill; by apply H5].
    destruct Hd as [->|[<- ->]]; [done|]. right. split; [done|].
    destruct (Hset st E); congruence.
  - intros g' st' (st & E & -> & _ & _ & Hd)%lookup_kill Hs.
    destruct Hd as [->|[_ ->]]; [by eapply i_settled0|done].
  - intros Hs. destruct (i_spawning0 Hs). auto.
  - intros a [Ha' Hne]%Hact. destruct (i_active0 a Ha') as (st & E & ? & ?).
    destruct (lookup_kill_inv g a st c E) as (st' & ? & _ & Heq). specialize (Heq Hne). subst. eauto.
  - intros f Hf. destruct (i_outgoing0 f Hf) as (st & E & ?).
    destruct (lookup_kill_inv g _ st c E) as (st' & ? & ? & _). exists st'. split; [done|congruence].
  - intros Hts. destruct (i_tasks_active0 Hts); auto.
  - intros t Ht. apply (task_ok_mono c); auto.
    + unfold blocked. by rewrite F4, F5, F9.
    + intros g' st' (st & ? & _ & ? & _)%lookup_kill. eauto.
    + intros g' Hg'. rewrite Hst. destruct (decide (g = g')); done.
    + intros g' ->. by destruct (Hno g').
  - intros s e Htr. unfold tracking in Htr. rewrite F10 in Htr. eauto.
  - intros Hd. destruct (i_done0 Hd) as [E1 E2]. split; [|done].
    destruct (wire c') as [|p l] eqn:El; [done|]. exfalso.
    destruct (proj1 (Hw p)) as [Hp _]; [left|]. rewrite E1 in Hp.
    by apply not_elem_of_nil in Hp.
Qed.

(** ** Control operations *)

Lemma same_core_tmr f c : (blocked c → blocked (with_tmr f c)) → same_core c (with_tmr f c).
Proof. by repeat split. Qed.
Lemma same_core_cnt f c : same_core c (with_cnt f c).
Proof. by repeat split. Qed.
Lemma same_core_hlt f c :
  (∀ h, is_Some (writerFatal h) → is_Some (writerFatal (f h))) → same_core c (with_hlt f c).
Proof. intros Hf. repeat split. unfold blocked. simpl. intros [?|[?|?]]; auto. Qed.

Lemma same_core_scheduleRespawn c : same_core c (scheduleRespawn c).
Proof.
  unfold scheduleRespawn. destruct (_ || _); [done|]. destruct (respawnTimer (tmr c)); [done|].
  repeat split. intros _. left. simpl. eauto.
Qed.

(** After an attempt to schedule it, something stands in the way of an immediate spawn. *)
Lemma blocked_scheduleRespawn c : blocked (scheduleRespawn c).
Proof.
  unfold scheduleRespawn, blocked. destruct (is_disposed c || is_fatal c) eqn:E.
  - apply orb_true_iff in E as [?|?]; [by right; right|]. right; left.
    unfold is_fatal in *. by prop_bools.
  - destruct (respawnTimer (tmr c)) eqn:Et; left; simpl; rewrite ?Et; eauto.
Qed.

Lemma same_core_onSpawnFailure c : same_core c (onSpawnFailure c).
Proof. unfold onSpawnFailure. etrans; [apply same_core_cnt|apply same_core_scheduleRespawn]. Qed.

Lemma same_core_onWriterFatal d c : same_core c (onWriterFatal d c).
Proof.
  unfold onWriterFatal. destruct (is_fatal c); [done|]. apply same_core_hlt. simpl. eauto.
Qed.

Lemma blocked_onWriterFatal d c : blocked (onWriterFatal d c).
Proof.
  unfold onWriterFatal, blocked. destruct (is_fatal c) eqn:E; right; left; simpl; [|eauto].
  unfold is_fatal in E. by prop_bools.
Qed.

Lemma inv_push_task t c :
  tasks c = [] → (active (life c) = None ∨ disposed (life c) = true) → task_ok c t →
  inv c → inv (push_task t c).
Proof.
  intros Ht Ha Hok []. split; try done; simpl; rewrite ?Ht; simpl; try done; try lia.
  intros t' Hin. apply list_elem_of_singleton in Hin as ->. by destruct t as [[] []|[]].
Qed.

(** A generation that has not settled holds no writes. *)
Lemma unsettled_not_owner c g st :
  inv c → generations c !! g = Some st → g_settled st = false → ¬ owner g c.
Proof.
  intros Hi Hg Hs [Ha|(f & Hf & <-)].
  - destruct (i_active _ Hi _ Ha) as (st' & ? & ? & _). congruence.
  - destruct (i_outgoing _ Hi _ Hf) as (st' & ? & ?). congruence.
Qed.

(** Settling a spawn: the generation is ready or dead, and nothing is being spawned. *)
Lemma inv_settle_spawn g st st' c c' :
  inv c → tasks c = [] → generations c !! g = Some st → g_settled st = false →
  g_settled st' = true → g_status st' ≠ starting → g_onClosed st' = None →
  generations c' = <[g := st']> (generations c) → life c' = set_spawning false (life c) →
  wire c' = wire c → tasks c' = tasks c → unacked c' = unacked c → nextSeq c' = nextSeq c →
  nextGeneration c' = nextGeneration c →
  inv c'.
Proof.
  intros Hi Ht Hg Hun Hs' Hns Hoc Eg El Ew Et Eu Es En.
  pose proof (unsettled_not_owner c g st Hi Hg Hun) as Hno.
  destruct (i_unsettled _ Hi _ _ Hg Hun) as (_ & Hsp & _ & _ & Huniq).
  destruct (i_spawning _ Hi Hsp) as [Hact Hrep]. destruct Hi.
  assert (∀ g', g ≠ g' → status_of g' c' = status_of g' c) as Hst.
  { intros g' Hne. unfold status_of. by rewrite Eg, jlookup_insert_ne. }
  split; rewrite ?Ew, ?Et, ?Eu, ?Es, ?En, ?El; simpl; try done.
  - intros g' Hge. rewrite Eg, jlookup_insert. destruct (decide (g = g')) as [<-|]; [|auto].
    rewrite i_fresh_g0 in Hg; done.
  - intros p Hp. destruct (i_wire0 p Hp) as (H1 & H2 & H3).
    unfold wire_entry, owner, tracking in *. rewrite El, Eu. simpl.
    split; [|done]. rewrite Hst; [done|]. intros ->. by apply Hno.
  - intros g' st2. rewrite Eg, jlookup_insert. destruct (decide (g = g')) as [<-|];
      [intros [= <-]; congruence|]. apply i_closer0.
  - intros g' st2. rewrite Eg, jlookup_insert. destruct (decide (g = g')) as [<-|];
      [intros [= <-]; congruence|]. apply i_dispose_closer0.
  - intros g' st2. rewrite Eg, jlookup_insert. unfold unsettled_ok.
    destruct (decide (g = g')) as [<-|Hne]; [intros [= <-]; congruence|].
    intros Hg' Hun'. exfalso. apply Hne. symmetry. by eapply Huniq.
  - intros g' st2. rewrite Eg, jlookup_insert. destruct (decide (g = g')) as [<-|];
      [by intros [= <-]|]. apply i_settled0.
  - intros a Ha. congruence.
  - intros f Hf. destruct (i_outgoing0 f Hf) as (so & Ho & ?). rewrite Eg, jlookup_insert.
    destruct (decide (g = rf_outgoing f)); eauto.
  - intros t Hin. rewrite Ht in Hin. by apply not_elem_of_nil in Hin.
  - intros s e Htr. unfold tracking in Htr. rewrite El in Htr. eauto.
Qed.

Lemma inv_finish_failed g d cls c : tasks c = [] → inv c → inv (finish g false d cls c).
Proof.
  intros Ht Hi. unfold finish. destruct (generations c !! g) as [st|] eqn:Hg; [|done].
  destruct (g_settled st) eqn:Hun; [done|].
  pose proof (unsettled_not_owner c g st Hi Hg Hun) as Hno.
  destruct (i_unsettled _ Hi _ _ Hg Hun) as (_ & Hsp & Hoc & _ & _).
  destruct (i_spawning _ Hi Hsp) as [Hact Hrep].
  set (c2 := with_life (set_spawning false) (update_generation g set_settled c)).
  assert (generations c2 = <[g := set_settled st]> (generations c)) as Eg2.
  { unfold c2, update_generation. by rewrite Hg. }
  assert (wire c2 = wire c ∧ tasks c2 = tasks c ∧ unacked c2 = unacked c ∧ nextSeq c2 = nextSeq c ∧
          nextGeneration c2 = nextGeneration c ∧ life c2 = set_spawning false (life c))
    as (W & T & U & S & N & L).
  { unfold c2, update_generation. by rewrite Hg. }
  clearbody c2.
  assert (∃ st', g_settled st' = true ∧ g_status st' ≠ starting ∧ g_onClosed st' = None ∧
    generations (killGeneration g c2) = <[g := st']> (generations c)) as (st' & H1 & H2 & H3 & H4).
  { rewrite generations_kill, Eg2, jlookup_insert_eq.
    destruct (bool_decide _) eqn:E; prop_bools.
    - exists (set_settled st). simpl. simpl in E. rewrite E. done.
    - exists (set_dead (set_settled st)). by rewrite jinsert_insert. }
  assert (wire (killGeneration g c2) = wire c ∧ life (killGeneration g c2) = life c2) as [W3 L3].
  { unfold killGeneration. rewrite Eg2, jlookup_insert_eq. destruct (bool_decide _); [done|].
    simpl. rewrite L. simpl. rewrite bool_decide_false by congruence. simpl. rewrite L, W.
    split; [|done]. apply filter_all. intros p Hp Heq. apply Hno. rewrite <-Heq.
    by destruct (i_wire _ Hi p Hp) as (_ & ? & _). }
  pose proof (kill_frame g c2) as (F1 & F2 & F3 & F4 & F5 & F6 & _).
  assert (inv (killGeneration g c2)) as Hi3.
  { apply (inv_settle_spawn g st st' c); try done; congruence. }
  set (c4 := if bool_decide _ then _ else _).
  assert (same_core (killGeneration g c2) c4 ∧ blocked c4) as [Hsc Hb].
  { unfold c4. destruct (bool_decide _); split; auto using same_core_onWriterFatal,
      blocked_onWriterFatal, same_core_onSpawnFailure. unfold onSpawnFailure.
    apply blocked_scheduleRespawn. }
  pose proof (inv_same_core _ _ Hsc Hi3) as Hi4.
  destruct Hsc as (_ & _ & _ & _ & L4 & _ & T4 & _).
  assert (life c4 = set_spawning false (life c)) as L5 by congruence.
  apply inv_push_task; [congruence| | |done].
  - left. by rewrite L5.
  - simpl. destruct (g_spawnedFor st); [done|]. rewrite L5. auto.
Qed.

(** A worker reports ready. *)
Lemma inv_ready g c :
  tasks c = [] → status_of g c = starting → inv c →
  inv (finish g true None None (update_generation g (set_status gen_ready) c)).
Proof.
  intros Ht Es Hi.
  unfold status_of in Es. destruct (generations c !! g) as [st|] eqn:Hg; [|done].
  assert (g_settled st = false) as Hun.
  { destruct (g_settled st) eqn:E; [|done]. by destruct (i_settled _ Hi _ _ Hg E). }
  destruct (i_unsettled _ Hi _ _ Hg Hun) as (_ & Hsp & Hoc & Hrot & _).
  destruct (i_spawning _ Hi Hsp) as [Hact Hrep].
  unfold finish, update_generation. rewrite Hg. cbn [generations with_generations].
  rewrite jlookup_insert_eq. cbn [g_settled set_status]. rewrite Hun.
  set (c2 := with_tmr _ _).
  assert (inv c2) as Hi2.
  { eapply (inv_settle_spawn g st (set_settled (set_status gen_ready st)) c); try done.
    simpl. by rewrite jinsert_insert. }
  apply inv_push_task; [done|by left| |done]. simpl.
  destruct (g_spawnedFor st); simpl; [|done]. split; [done|]. split; [by apply Hrot|].
  split; [done|]. unfold status_of, c2. cbn. by rewrite jlookup_insert_eq.
Qed.

(** A generation that does not exist yet *)
Lemma fresh_dead c g : inv c → nextGeneration c <= g → status_of g c = dead.
Proof. intros Hi Hg. unfold status_of. by rewrite (i_fresh_g _ Hi). Qed.

Lemma spawning_unsettled c : inv c → spawning (life c) = false →
  ∀ g st, generations c !! g = Some st → g_settled st = true.
Proof.
  intros Hi Hs g st Hg. destruct (g_settled st) eqn:E; [done|].
  destruct (i_unsettled _ Hi _ _ Hg E) as (_ & ? & _). congruence.
Qed.

(** The state with a freshly spawned generation *)
Lemma inv_insert_spawn w c c' :
  inv c → tasks c = [] → spawning (life c) = false → active (life c) = None →
  (∀ f, rotation (life c) = Some f → rf_replacement f = None) →
  (w = for_initial → rotation (life c) = None) →
  generations c' = <[nextGeneration c :=
    {| g_status := starting; g_publishedBytes := 0; g_spawnedFor := w; g_settled := false;
       g_readyTimer := Some PAYLOAD_READY_TIMEOUT_MS; g_onClosed := None;
       g_closeTimer := None |}]> (generations c) →
  life c' = set_spawning true (life c) → wire c' = wire c → tasks c' = [] →
  unacked c' = unacked c → nextSeq c' = nextSeq c → nextGeneration c' = nextGeneration c + 1 →
  inv c'.
Proof.
  intros Hi Ht Hsp Hact Hrep Hw Eg El Ew Et Eu Es En.
  pose proof (spawning_unsettled c Hi Hsp) as Hall.
  assert (generations c !! nextGeneration c = None) as Hnew by (apply (i_fresh_g _ Hi); lia).
  destruct Hi. split; rewrite ?Ew, ?Et, ?Eu, ?Es, ?En, ?El; simpl; try done.
  - intros g Hg. rewrite Eg, jlookup_insert_ne by lia. apply i_fresh_g0. lia.
  - intros p Hp. destruct (i_wire0 p Hp) as (H1 & H2 & H3).
    unfold wire_entry, owner, tracking in *. rewrite El, Eu. simpl. split; [|done].
    unfold status_of in *. rewrite Eg, jlookup_insert_ne; [done|]. intros E. by rewrite <-E, Hnew in H1.
  - intros g st. rewrite Eg, jlookup_insert. destruct (decide _); [by intros [= <-]|]. apply i_closer0.
  - intros g st. rewrite Eg, jlookup_insert. destruct (decide _); [by intros [= <-]|].
    apply i_dispose_closer0.
  - intros g st. rewrite Eg, jlookup_insert. unfold unsettled_ok. rewrite El. simpl.
    destruct (decide (nextGeneration c = g)) as [<-|Hne].
    + intros [= <-] _. simpl. split; [by left|]. repeat (split; [done|]).
      intros g' st'. rewrite Eg, jlookup_insert. destruct (decide _) as [<-|]; [done|].
      intros Hg' Hun. rewrite (Hall g' st' Hg') in Hun. done.
    + intros Hg Hun. rewrite (Hall g st Hg) in Hun. done.
  - intros g st. rewrite Eg, jlookup_insert. destruct (decide _); [by intros [= <-]|]. apply i_settled0.
  - intros g Hg. congruence.
  - intros f Hf. destruct (i_outgoing0 f Hf) as (st & Hg & ?). exists st.
    rewrite Eg, jlookup_insert_ne; [done|]. intros E. by rewrite <-E, Hnew in Hg.
  - lia.
  - intros t Hin. by apply not_elem_of_nil in Hin.
  - intros s e Htr. unfold tracking in Htr. rewrite El in Htr. eauto.
Qed.

(** Numbers may be skipped. *)
Lemma inv_next c c' :
  generations c' = generations c → life c' = life c → wire c' = wire c → tasks c' = tasks c →
  unacked c' = unacked c → nextSeq c' = nextSeq c → nextGeneration c <= nextGeneration c' →
  (blocked c → blocked c') → inv c → inv c'.
Proof.
  intros Eg El Ew Et Eu Es En Hb Hi.
  assert (∀ g, status_of g c' = status_of g c) as Hst by (intros; unfold status_of; by rewrite Eg).
  destruct Hi. split; unfold wire_entry, owner, unsettled_ok, tracking in *;
    rewrite ?Eu, ?Eg, ?Es, ?El, ?Ew, ?Et in *; eauto.
  - intros g Hg. apply i_fresh_g0. lia.
  - intros p. rewrite Hst. auto.
  - intros t Hin. apply (task_ok_mono c); rewrite ?El, ?Eg; eauto; intros; by rewrite Hst.
Qed.

Lemma set_spawning_id b l : spawning l = b → set_spawning b l = l.
Proof. destruct l. simpl. by intros ->. Qed.

Section control.
Context (spawnThrows : Z → bool) (postThrows : nat → bool) (getRetentionMs : Z → option Z).
Context (rotationByteBudget : Z).

Lemma inv_spawnGeneration w c :
  inv c → tasks c = [] → spawning (life c) = false → active (life c) = None →
  (∀ f, rotation (life c) = Some f → rf_replacement f = None) →
  (w = for_initial → rotation (life c) = None) →
  inv (spawnGeneration spawnThrows postThrows w c).
Proof.
  intros Hi Ht Hsp Hact Hrep Hw. unfold spawnGeneration.
  destruct (spawnThrows (nextGeneration c)).
  - set (c1 := with_life (set_spawning false) _).
    assert (life c1 = life c) as El.
    { unfold c1. simpl. rewrite <-(set_spawning_id false (life c) Hsp) at 2. done. }
    assert (inv c1) as Hi1.
    { apply (inv_next c); try done. simpl. lia. }
    pose proof (same_core_onSpawnFailure c1) as Hsc.
    pose proof (inv_same_core _ _ Hsc Hi1) as Hi2.
    assert (blocked (onSpawnFailure c1)) as Hb by apply blocked_scheduleRespawn.
    destruct Hsc as (_ & _ & _ & _ & L & _ & T & _). rewrite El in L.
    apply inv_push_task; [by rewrite T|left; by rewrite L| |done].
    simpl. destruct w; [done|]. rewrite L. auto.
  - unfold post_control. set (st := {| g_status := starting |}). set (c2 := with_net _ _ _).
    assert (inv c2) as Hi2.
    { apply (inv_insert_spawn w c); try done. }
    destruct (negb _); [done|]. by apply inv_finish_failed.
Qed.

Lemma inv_ensureActive c :
  inv c → tasks c = [] → inv (ensureActiveGeneration spawnThrows postThrows c).
Proof.
  intros Hi Ht. unfold ensureActiveGeneration. destruct (_ || _); [done|].
  destruct (_ || rotating c) eqn:E; [done|].
  destruct (bool_decide (is_Some (respawnTimer _))); [done|]. unfold rotating in E. prop_bools.
  assert (inv (with_life (set_spawnInFlight true) c)) as Hi1.
  { by destruct Hi. }
  apply inv_spawnGeneration; try done; simpl.
  - by apply eq_None_not_Some.
  - intros f Hf. exfalso. rewrite Hf in *. eauto.
  - intros _. by apply eq_None_not_Some.
Qed.

Lemma inv_rotate g c :
  inv c → tasks c = [] → active (life c) = Some g → disposed (life c) = false →
  inv (rotate spawnThrows postThrows g c).
Proof.
  intros Hi Ht Ha Hd. unfold rotate. destruct (rotating c) eqn:Er; [done|].
  unfold rotating in Er. prop_bools. apply eq_None_not_Some in Er.
  assert (spawning (life c) = false) as Hsp.
  { destruct (spawning (life c)) eqn:E; [|done]. destruct (i_spawning _ Hi E). congruence. }
  pose proof (spawning_unsettled c Hi Hsp) as Hall.
  set (c1 := with_life _ c).
  assert (inv c1) as Hi1.
  { destruct Hi. split; try done; simpl.
    - intros p Hp. destruct (i_wire0 p Hp) as (H1 & H2 & H3). split; [done|]. split; [|done].
      right. simpl. eexists. split; [done|]. simpl. destruct H2 as [H2|(f & Hf & _)]; congruence.
    - intros g' st Hg Hc. destruct (i_closer0 _ _ Hg Hc) as (f & ? & _). congruence.
    - intros g' st Hg Hun. rewrite (Hall g' st Hg) in Hun. done.
    - congruence.
    - intros f [= <-]. simpl. destruct (i_active0 g Ha) as (st & ? & ? & _). eauto.
    - intros t Hin. rewrite Ht in Hin. by apply not_elem_of_nil in Hin.
    - intros Hac. rewrite Hac in *. rewrite i_disposing0 in Hd by eauto. done. }
  apply inv_spawnGeneration; try done. simpl. by intros f [= <-].
Qed.

Lemma inv_maybeRotate c :
  inv c → inv (maybeRotate spawnThrows postThrows rotationByteBudget c).
Proof.
  intros Hi. unfold maybeRotate. destruct (_ || _) eqn:E; [done|].
  destruct (bool_decide _); [done|]. destruct (active (life c)) as [g|] eqn:Ha; [|done].
  destruct (generations c !! g); [|done]. destruct (_ <? _); [done|].
  unfold is_disposed in E. prop_bools. apply inv_rotate; try done.
  destruct (tasks c) eqn:Et; [done|]. exfalso.
  destruct (i_tasks_active _ Hi) as [?|Hd]; congruence.
Qed.

End control.

(** ** What sending one entry may do to the others *)

(** No writes and no owners appear. *)
Definition shrinks (c c' : client) : Prop :=
  (∀ p, p ∈ wire c' → p ∈ wire c) ∧ (∀ g, owner g c' → owner g c) ∧
  disposing (life c') = disposing (life c).

#[export] Instance shrinks_refl : Reflexive shrinks.
Proof. by intros c. Qed.
#[export] Instance shrinks_trans : Transitive shrinks.
Proof. intros c1 c2 c3 (? & ? & ?) (? & ? & ?). split; [auto|]. split; [auto|congruence]. Qed.

Lemma shrinks_same c c' : wire c' = wire c → life c' = life c → shrinks c c'.
Proof. intros Hw Hl. split; [by rewrite Hw|]. unfold owner. by rewrite Hl. Qed.

Lemma shrinks_core c c' : same_core c c' → shrinks c c'.
Proof. intros (_ & _ & _ & _ & ? & ? & _). by apply shrinks_same. Qed.

Lemma shrinks_kill g c : shrinks c (killGeneration g c).
Proof.
  unfold killGeneration. destruct (generations c !! g); [|done]. destruct (bool_decide _); [done|].
  simpl. destruct (bool_decide _); (split; [by intros p [_ ?]%list_elem_of_filter|]);
    unfold owner; simpl; [|done]. split; [|done]. intros g' [?|?]; [done|by right].
Qed.

Lemma shrinks_spawning b c : shrinks c (with_life (set_spawning b) c).
Proof. done. Qed.
Lemma shrinks_update_generation g f c : shrinks c (update_generation g f c).
Proof. unfold update_generation. by destruct (generations c !! g). Qed.
Lemma shrinks_update_entry s f c : shrinks c (update_entry s f c).
Proof. unfold update_entry. by destruct (unacked c !! s). Qed.

Lemma shrinks_push_task t c : shrinks c (push_task t c).
Proof. done. Qed.
Lemma shrinks_tmr f c : shrinks c (with_tmr f c).
Proof. done. Qed.
Lemma shrinks_hlt f c : shrinks c (with_hlt f c).
Proof. done. Qed.
Lemma shrinks_cnt f c : shrinks c (with_cnt f c).
Proof. done. Qed.
Lemma shrinks_posts n c : shrinks c (with_net (wire c) n c).
Proof. done. Qed.
Lemma shrinks_next n m c : shrinks c (with_next n m c).
Proof. done. Qed.
Lemma shrinks_generations m c : shrinks c (with_generations m c).
Proof. done. Qed.

Create HintDb shrinks.
#[export] Hint Resolve shrinks_push_task shrinks_tmr shrinks_hlt shrinks_cnt shrinks_posts
  shrinks_next shrinks_generations : shrinks.
#[export] Hint Resolve shrinks_kill shrinks_spawning shrinks_update_generation
  shrinks_update_entry : shrinks.
#[export] Hint Extern 2 (shrinks _ (scheduleRespawn _)) =>
  apply shrinks_core, same_core_scheduleRespawn : shrinks.
#[export] Hint Extern 2 (shrinks _ (onSpawnFailure _)) =>
  apply shrinks_core, same_core_onSpawnFailure : shrinks.
#[export] Hint Extern 2 (shrinks _ (onWriterFatal _ _)) =>
  apply shrinks_core, same_core_onWriterFatal : shrinks.

Ltac shrinks_step := etrans; [|solve [eauto 2 with shrinks]].

Lemma shrinks_finish g ok d cls c : shrinks c (finish g ok d cls c).
Proof.
  unfold finish. destruct (generations c !! g) as [st|]; [|done].
  destruct (g_settled st); [done|]. cbv zeta. destruct ok; [by repeat shrinks_step|].
  shrinks_step. destruct (bool_decide _); by repeat shrinks_step.
Qed.

Lemma shrinks_onGenerationDied g c : shrinks c (onGenerationDied g c).
Proof. unfold onGenerationDied. destruct (_ || _); repeat shrinks_step; done. Qed.
#[export] Hint Resolve shrinks_finish shrinks_onGenerationDied : shrinks.

Section sending.
Context (spawnThrows : Z → bool) (postThrows : nat → bool) (getRetentionMs : Z → option Z).
Context (rotationByteBudget : Z).

Lemma shrinks_spawnGeneration w c : shrinks c (spawnGeneration spawnThrows postThrows w c).
Proof.
  unfold spawnGeneration, post_control. destruct (spawnThrows _); [by repeat shrinks_step|].
  destruct (negb _); by repeat shrinks_step.
Qed.

Lemma shrinks_maybeRotate c :
  shrinks c (maybeRotate spawnThrows postThrows rotationByteBudget c).
Proof.
  unfold maybeRotate. destruct (_ || _); [done|]. destruct (bool_decide _); [done|].
  destruct (active (life c)) as [g|] eqn:Ha; [|done]. destruct (generations c !! g); [|done].
  destruct (_ <? _); [done|]. unfold rotate. destruct (rotating c); [done|].
  etrans; [|apply shrinks_spawnGeneration]. split; [done|]. split; [|done].
  unfold owner. simpl. intros g' [?|(f & [= <-] & <-)]; [done|by left].
Qed.

(** A closed door for rotations stays closed. *)
Lemma maybeRotate_blocked c :
  blocked c → ¬ is_Some (writerFatal (hlt c)) →
  maybeRotate spawnThrows postThrows rotationByteBudget c = c.
Proof.
  intros Hb Hf. unfold maybeRotate. destruct Hb as [Hb|[Hb|Hb]]; [|done|].
  - destruct (_ || _); [done|]. by rewrite bool_decide_true.
  - unfold is_disposed. by rewrite Hb.
Qed.

Definition sends (s : Z) (c c' : client) : Prop :=
  inv c' ∧ (∀ p, p ∈ wire c' → p ∈ wire c ∨ p.2 = s) ∧ (∀ g, owner g c' → owner g c) ∧
  disposing (life c') = disposing (life c) ∧
  (blocked c → blocked c' ∧ rotation (life c') = rotation (life c)).

Lemma sends_refl s c : inv c → sends s c c.
Proof. intros Hi. split; [done|]. auto. Qed.

Lemma inv_post_write g s c c' :
  inv c → owner g c → status_of g c ≠ dead → s ∉ (wire c).*2 →
  (∃ e, unacked c !! s = Some e ∧ e_state e = sent ∧ e_generation e = Some g) →
  c' = with_net (wire c ++ [(g, s)]) (S (posts c)) c → inv c'.
Proof.
  intros [] Ho Hd Hs (e & He) ->. split; try done; simpl.
  - rewrite fmap_app. apply NoDup_app. split; [done|]. simpl. split; [|apply NoDup_singleton].
    intros x Hx ->%list_elem_of_singleton. done.
  - intros p [Hp| ->%list_elem_of_singleton]%elem_of_app; [by apply i_wire0|].
    split; [done|]. split; [done|]. eauto.
  - intros Hdone. destruct (i_done0 Hdone) as [_ Hn]. destruct He as [He _]. by rewrite Hn in He.
Qed.

Lemma inv_onGenerationDied g c :
  no_initial c →
  (∀ st, generations c !! g = Some st → g_settled st = true ∨ disposed (life c) = true) →
  inv c → inv (onGenerationDied g c).
Proof.
  intros Hno Hset Hi. unfold onGenerationDied. pose proof (inv_kill g c Hno Hset Hi) as Hk.
  destruct (_ || _); [done|]. eapply inv_same_core; [apply same_core_scheduleRespawn|done].
Qed.

Lemma life_update_entry s f c : life (update_entry s f c) = life c.
Proof. unfold update_entry. by destruct (unacked c !! s). Qed.
Lemma wire_update_entry s f c : wire (update_entry s f c) = wire c.
Proof. unfold update_entry. by destruct (unacked c !! s). Qed.
Lemma generations_update_entry s f c : generations (update_entry s f c) = generations c.
Proof. unfold update_entry. by destruct (unacked c !! s). Qed.
Lemma lookup_update_entry s f c e :
  unacked c !! s = Some e → unacked (update_entry s f c) !! s = Some (f e).
Proof. intros He. unfold update_entry. rewrite He. simpl. by rewrite jlookup_insert_eq. Qed.
Lemma rest_update_entry s f c :
  tmr (update_entry s f c) = tmr c ∧ hlt (update_entry s f c) = hlt c ∧
  tasks (update_entry s f c) = tasks c ∧ posts (update_entry s f c) = posts c.
Proof. unfold update_entry. by destruct (unacked c !! s). Qed.

(** Setting an entry that no worker holds aside *)
Lemma sends_update_entry s f c :
  inv c → s ∉ (wire c).*2 →
  (∀ e, unacked c !! s = Some e → timer_ok e → timer_ok (f e)) →
  sends s c (update_entry s f c).
Proof.
  intros Hi Hs Ht. split; [apply inv_update_entry_off; auto|].
  rewrite wire_update_entry. unfold owner, blocked.
  pose proof (rest_update_entry s f c) as (-> & -> & _ & _). rewrite life_update_entry. auto.
Qed.

Lemma sends_shrinks s c c1 c2 :
  sends s c c1 → shrinks c1 c2 → inv c2 →
  (blocked c1 → blocked c2 ∧ rotation (life c2) = rotation (life c1)) → sends s c c2.
Proof.
  intros (_ & Hw & Ho & Hd & Hb) (Hw2 & Ho2 & Hd2) Hi Hb2. split; [done|]. split; [auto|].
  split; [auto|]. split; [congruence|].
  intros Hbl. destruct (Hb Hbl) as [Hb1 <-]. auto.
Qed.

Lemma blocked_onGenerationDied g c :
  blocked c → blocked (onGenerationDied g c) ∧
              rotation (life (onGenerationDied g c)) = rotation (life c).
Proof.
  intros Hb. pose proof (kill_frame g c) as (_ & _ & _ & F4 & F5 & _ & F7 & _ & F9 & _).
  assert (blocked (killGeneration g c)) as Hk by (unfold blocked; by rewrite F4, F5, F9).
  unfold onGenerationDied. destruct (_ || _); [done|].
  split; [apply blocked_scheduleRespawn|].
  pose proof (same_core_scheduleRespawn (killGeneration g c)) as (_ & _ & _ & _ & -> & _). done.
Qed.

(** The entry waits for no retry. *)
Definition untimed (s : Z) (c : client) : Prop :=
  ∀ e, unacked c !! s = Some e → e_retryTimer e = None.

Lemma untimed_update s f c :
  (∀ e, e_retryTimer (f e) = e_retryTimer e) → untimed s c → untimed s (update_entry s f c).
Proof.
  intros Hf Hu e. unfold update_entry. destruct (unacked c !! s) as [e0|] eqn:E; [|congruence].
  simpl. rewrite jlookup_insert_eq. intros [= <-]. rewrite Hf. by apply Hu.
Qed.

Lemma sends_place s f c :
  inv c → s ∉ (wire c).*2 → untimed s c → (∀ e, e_retryTimer (f e) = e_retryTimer e) →
  sends s c (update_entry s f c).
Proof.
  intros Hi Hs Hu Hf. apply sends_update_entry; [done|done|].
  intros e He _ [t Ht]. rewrite Hf, (Hu e He) in Ht. done.
Qed.

(** The write posted *)
Lemma sends_posted s now g e c :
  inv c → s ∉ (wire c).*2 → untimed s c → unacked c !! s = Some e → active (life c) = Some g →
  status_of g c = gen_ready → ¬ is_Some (writerFatal (hlt c)) →
  let c1 := update_entry s (set_sent g now true) c in
  let c2 := with_net (wire c1 ++ [(g, s)]) (S (posts c1)) c1 in
  sends s c (maybeRotate spawnThrows postThrows rotationByteBudget
               (update_generation g (add_published (in_transportBytes (e_input e))) c2)).
Proof.
  intros Hi Hs Hu He Ha Hst Hf c1 c2.
  pose proof (sends_place s (set_sent g now true) c Hi Hs Hu ltac:(done)) as (Hi1 & _).
  assert (inv c2) as Hi2.
  { apply (inv_post_write g s c1); try done; unfold c1.
    - left. by rewrite life_update_entry.
    - unfold status_of in *. rewrite generations_update_entry. by rewrite Hst.
    - by rewrite wire_update_entry.
    - rewrite (lookup_update_entry _ _ _ _ He). simpl. eauto. }
  set (c3 := update_generation _ _ c2).
  assert (inv c3) as Hi3 by (apply inv_update_generation; [by repeat split; auto|done]).
  assert (sends s c c3) as H3.
  { split; [done|]. split.
    - intros p Hp. apply shrinks_update_generation in Hp. simpl in Hp.
      unfold c1 in Hp. rewrite wire_update_entry in Hp.
      apply elem_of_app in Hp as [?| ->%list_elem_of_singleton]; [by left|by right].
    - assert (life c3 = life c ∧ tmr c3 = tmr c ∧ hlt c3 = hlt c) as (El & Et & Eh).
      { unfold c3, update_generation. destruct (generations c2 !! g); simpl; unfold c1;
          rewrite life_update_entry; destruct (rest_update_entry s (set_sent g now true) c) as (?&?&_); done. }
      unfold owner, blocked. rewrite El, Et, Eh. auto. }
  apply (sends_shrinks s c c3); [done|apply shrinks_maybeRotate|by apply inv_maybeRotate|].
  intros Hb. rewrite maybeRotate_blocked; [done|done|].
  unfold c3, update_generation. destruct (generations c2 !! g); simpl; unfold c1;
    by destruct (rest_update_entry s (set_sent g now true) c) as (_ & -> & _).
Qed.

Lemma sends_trySend s now c :
  inv c → s ∉ (wire c).*2 → untimed s c →
  sends s c (trySend spawnThrows postThrows rotationByteBudget s now c).
Proof.
  intros Hi Hs Hu. unfold trySend. destruct (unacked c !! s) as [e|] eqn:He; [|by apply sends_refl].
  destruct (is_disposed c || is_fatal c) eqn:Ed; [by apply sends_refl|].
  destruct (active (life c)) as [g|] eqn:Ha; [|by apply sends_place].
  destruct (_ || rotating c) eqn:Er; [by apply sends_place|].
  prop_bools. cbv zeta. unfold post_write. destruct (postThrows _).
  - set (c1 := update_entry s (set_sent g now true) c).
    set (c2 := with_net _ _ c1). set (c3 := update_entry s _ c2).
    pose proof (sends_place s (set_sent g now true) c Hi Hs Hu ltac:(done)) as S1. fold c1 in S1.
    assert (sends s c c2) as S2.
    { eapply sends_shrinks; [exact S1|apply shrinks_posts| |done].
      apply (inv_same_core c1); [by repeat split|apply S1]. }
    assert (wire c2 = wire c) as Hw2 by apply wire_update_entry.
    assert (sends s c c3) as S3.
    { pose proof (sends_update_entry s (set_place buffered None) c2 (proj1 S2)) as S3.
      rewrite Hw2 in S3. specialize (S3 Hs). ospecialize (S3 _); [|].
      { intros e' He' _ [t Ht]. simpl in Ht.
        rewrite (untimed_update s (set_sent g now true) c ltac:(done) Hu e' He') in Ht. done. }
      eapply sends_shrinks; [exact S2|apply shrinks_update_entry|apply S3|apply S3]. }
    assert (life c3 = life c) as L3.
    { unfold c3. rewrite life_update_entry. apply life_update_entry. }
    assert (active (life c3) = Some g) as Ha3 by (by rewrite L3).
    eapply sends_shrinks; [exact S3|apply shrinks_onGenerationDied| |apply blocked_onGenerationDied].
    apply inv_onGenerationDied; [|intros st Hg|apply S3].
    + apply no_initial_active; [apply S3|eauto].
    + left. destruct (i_active _ (proj1 S3) _ Ha3) as (st' & ? & ? & _). congruence.
  - apply sends_posted; try done. unfold is_fatal in *. by prop_bools.
Qed.

Lemma sends_sendOrReplay s now c :
  inv c → s ∉ (wire c).*2 → untimed s c →
  sends s c (sendOrReplay spawnThrows postThrows rotationByteBudget s now c).
Proof.
  intros Hi Hs Hu. unfold sendOrReplay. destruct (unacked c !! s) as [e|]; [|by apply sends_refl].
  destruct (e_everSent e); [|by apply sends_trySend].
  apply (sends_trySend s now (with_cnt (count 0 0 0 0 0 1 0 0 0) c)); [|done|done].
  eapply inv_same_core; [apply same_core_cnt|done].
Qed.

(** ** The loops *)

Lemma sends_dropIfExpired s now c :
  inv c → s ∉ (wire c).*2 → sends s c (dropIfExpired getRetentionMs s now c).2.
Proof.
  intros Hi Hs. unfold dropIfExpired. destruct (unacked c !! s) as [e|] eqn:He; [|by apply sends_refl].
  destruct (getRetentionMs now); [|by apply sends_refl].
  do 2 (destruct (_ <=? _); [by apply sends_refl|]). cbn [snd].
  set (c1 := with_cnt _ c).
  assert (inv c1) as Hi1 by (eapply inv_same_core; [apply same_core_cnt|done]).
  split; [by apply inv_settle; auto|]. unfold settle. simpl. rewrite He. simpl. auto.
Qed.

Lemma sends_trans s c1 c2 c3 : sends s c1 c2 → sends s c2 c3 → sends s c1 c3.
Proof.
  intros (_ & Hw & Ho & Hd & Hb) (Hi & Hw2 & Ho2 & Hd2 & Hb2). split; [done|]. split.
  - intros p Hp. destruct (Hw2 p Hp); auto.
  - split; [auto|]. split; [congruence|]. intros Hbl. destruct (Hb Hbl) as [Hb1 <-]. auto.
Qed.

(** An entry that is not in flight on the only possible owner is on no wire. *)
Lemma off_wire g s e c :
  tracking c → inv c → (∀ g', owner g' c → g' = g) → unacked c !! s = Some e →
  (bool_decide (e_state e = sent) && bool_decide (e_generation e = Some g) = false) →
  s ∉ (wire c).*2.
Proof.
  intros Htr Hi Ho He Hb ([g' s'] & -> & Hp)%list_elem_of_fmap.
  destruct (i_wire _ Hi _ Hp) as (_ & Hown & Ht). destruct (Ht Htr) as (e' & H1 & H2 & H3).
  simpl in *.
  simplify_eq. rewrite H2, H3, (Ho g' Hown) in Hb.
  by rewrite !bool_decide_true in Hb.
Qed.

Lemma drop_then_send s now c (k : client → client) :
  inv c → s ∉ (wire c).*2 → sends s c (k c) →
  sends s c (let '(dropped, c1) := dropIfExpired getRetentionMs s now c in
             if dropped then c1 else k c1).
Proof.
  intros Hi Hs Hk. pose proof (sends_dropIfExpired s now c Hi Hs) as Hd.
  destruct (dropIfExpired getRetentionMs s now c) as [[] c1] eqn:E; simpl in Hd; [done|].
  assert (c1 = c) as ->.
  { revert E. unfold dropIfExpired. destruct (unacked c !! s), (getRetentionMs now); try congruence.
    do 2 (destruct (_ <=? _); [congruence|]). congruence. }
  done.
Qed.

Lemma sends_flush_entry now g c s :
  tracking c → inv c → (∀ g', owner g' c → g' = g) →
  sends s c (flush_entry spawnThrows postThrows getRetentionMs rotationByteBudget now g c s).
Proof.
  intros Htr Hi Ho. unfold flush_entry. destruct (unacked c !! s) as [e|] eqn:He; [|by apply sends_refl].
  destruct (_ && _) eqn:Eb; [by apply sends_refl|].
  destruct (bool_decide (e_state e = retry_wait)) eqn:Er; [by apply sends_refl|]. prop_bools.
  pose proof (off_wire g s e c Htr Hi Ho He Eb) as Hs.
  apply drop_then_send; [done|done|]. apply sends_sendOrReplay; [done|done|].
  intros e' He'. destruct (e_retryTimer e') eqn:Et; [|done].
  pose proof (i_timer _ Hi s e' Htr He') as Htm. assert (e' = e) as -> by congruence. destruct Er. apply Htm. eauto.
Qed.

Lemma inv_flush_loop now g l c :
  tracking c → inv c → (∀ g', owner g' c → g' = g) →
  inv (foldl (flush_entry spawnThrows postThrows getRetentionMs rotationByteBudget now g) c l).
Proof.
  revert c. induction l as [|s l IH]; intros c Htr Hi Ho; [done|]. simpl.
  destruct (sends_flush_entry now g c s Htr Hi Ho) as (Hi1 & _ & Ho1 & Hd & _).
  apply IH; [unfold tracking; by rewrite Hd|auto..].
Qed.

Lemma inv_flushBuffered now c :
  inv c → inv (flushBuffered spawnThrows postThrows getRetentionMs rotationByteBudget now c).
Proof.
  intros Hi. unfold flushBuffered. destruct (is_disposed c || _) eqn:Ed; [done|].
  destruct (active (life c)) as [g|] eqn:Ha; [|done]. destruct (_ || rotating c) eqn:E; [done|].
  unfold rotating, is_disposed in *. prop_bools. apply inv_flush_loop; [|done|].
  { intros Htr. rewrite (i_disposing _ Hi) in *; [done|]. by rewrite Htr. }
  intros g' [?|(f & Hf & _)]; [congruence|]. exfalso. rewrite Hf in *. eauto.
Qed.

Lemma sends_replay_entry now c s :
  tracking c → inv c →
  (∀ g, (g, s) ∈ wire c → active (life c) = Some g) →
  sends s c (replay_entry spawnThrows postThrows getRetentionMs rotationByteBudget now c s).
Proof.
  intros Htr Hi Ha. unfold replay_entry.
  destruct (unacked c !! s) as [e|] eqn:He; [|by apply sends_refl].
  destruct (_ && _) eqn:Eb; [by apply sends_refl|].
  assert (s ∉ (wire c).*2) as Hs.
  { intros ([g' s'] & -> & Hp)%list_elem_of_fmap. simpl in *.
    destruct (i_wire _ Hi _ Hp) as (_ & _ & Ht). destruct (Ht Htr) as (e' & H1 & H2 & H3).
    simpl in *. simplify_eq.
    unfold on_active in Eb. rewrite (Ha _ Hp), H2, H3 in Eb. by rewrite !bool_decide_true in Eb. }
  assert (sends s c (update_entry s (set_retryTimer None) c)) as H1.
  { apply sends_update_entry; [done|done|]. by intros e' _ _ [? ?]. }
  assert (untimed s (update_entry s (set_retryTimer None) c)) as Hu.
  { intros e'. rewrite (lookup_update_entry _ _ _ _ He). by intros [= <-]. }
  eapply sends_trans; [exact H1|].
  apply drop_then_send; [apply H1|by rewrite wire_update_entry|].
  set (c1 := update_entry s (set_retryTimer None) c) in *.
  assert (s ∉ (wire c1).*2) as Hs1 by (unfold c1; by rewrite wire_update_entry).
  pose proof (sends_place s (set_place buffered None) c1 (proj1 H1) Hs1 Hu ltac:(done)) as H3.
  eapply sends_trans; [exact H3|]. apply sends_sendOrReplay; [apply H3|by rewrite wire_update_entry|].
  by apply untimed_update.
Qed.

(** Replaying with nothing in flight: no entry is met twice. *)
Lemma inv_replay_fresh now l c :
  tracking c → inv c → NoDup l → (∀ s, s ∈ l → s ∉ (wire c).*2) →
  inv (foldl (replay_entry spawnThrows postThrows getRetentionMs rotationByteBudget now) c l).
Proof.
  revert c. induction l as [|s l IH]; intros c Htr Hi Hnd Hl; [done|]. simpl.
  apply NoDup_cons in Hnd as [Hsl Hnd].
  destruct (sends_replay_entry now c s Htr Hi) as (Hi1 & Hw1 & _ & Hd1 & _).
  { intros g Hg. destruct (Hl s ltac:(left)). apply list_elem_of_fmap. by exists (g, s). }
  apply IH; [unfold tracking; by rewrite Hd1|done|done|].
  intros s' Hs' ([g' s2] & -> & Hp)%list_elem_of_fmap. simpl in *.
  destruct (Hw1 _ Hp) as [Hp'|Hp']; simpl in Hp'; [|congruence].
  destruct (Hl s2 ltac:(by right)). apply list_elem_of_fmap. by exists (g', s2).
Qed.

(** Replaying on the generation that already holds the writes, when no rotation can start *)
Lemma inv_replay_blocked now l c :
  tracking c → inv c → blocked c → rotation (life c) = None →
  inv (foldl (replay_entry spawnThrows postThrows getRetentionMs rotationByteBudget now) c l).
Proof.
  revert c. induction l as [|s l IH]; intros c Htr Hi Hb Hr; [done|]. simpl.
  destruct (sends_replay_entry now c s Htr Hi) as (Hi1 & _ & _ & Hd1 & Hb1).
  { intros g Hg. destruct (i_wire _ Hi _ Hg) as (_ & [Ha|(f & Hf & _)] & _); [done|congruence]. }
  destruct (Hb1 Hb) as [? ?]. apply IH; [unfold tracking; by rewrite Hd1|done|done|congruence].
Qed.

End sending.

(** ** Closing a generation *)

Lemma inv_close_done g c : inv c → tasks c = [] → inv (close_done g c).
Proof.
  intros Hi Ht. unfold close_done.
  destruct (generations c !! g) as [st|] eqn:Hg; simpl; [|done].
  destruct (g_onClosed st) as [w|] eqn:Hw; [|done].
  set (c1 := update_generation g _ c).
  assert (inv c1) as Hi1 by (apply inv_update_generation; [by repeat split; auto|done]).
  assert (tasks c1 = [] ∧ life c1 = life c ∧
          generations c1 = <[g := set_closing None None st]> (generations c)) as (T1 & L1 & G1).
  { unfold c1, update_generation. by rewrite Hg. }
  assert (match w with
          | for_cutover => active (life c) = None ∧ g_settled st = true ∧
              ∃ f, rotation (life c) = Some f ∧ rf_outgoing f = g ∧ is_Some (rf_replacement f)
          | for_dispose => disposed (life c) = true
          end) as Hq.
  { destruct w; [|by eapply i_dispose_closer].
    destruct (i_closer _ Hi _ _ Hg Hw) as (f & Hf & <- & Hr).
    destruct (i_outgoing _ Hi _ Hf) as (st' & Hg' & ?). split; [by eapply i_rotation|].
    split; [congruence|eauto]. }
  pose proof (kill_frame g c1) as (_ & _ & _ & _ & _ & T2 & R2 & _ & D2 & _).
  assert (inv (killGeneration g c1)) as Hi2.
  { apply inv_kill; [by apply no_initial_none| |done]. rewrite G1, jlookup_insert_eq.
    intros ? [= <-]. simpl. destruct w; [left; apply Hq|right; congruence]. }
  assert (w = for_cutover → active (life (killGeneration g c1)) = None) as Ha.
  { intros ->. rewrite (active_kill _ _ Hi1), L1. destruct (bool_decide _); [done|apply Hq]. }
  apply inv_push_task; [congruence| | |done].
  - destruct w; [auto|right; by rewrite D2, L1].
  - destruct w; [|by simpl; rewrite D2, L1]. destruct Hq as (_ & _ & f & Hf & <- & Hr).
    split; [auto|]. exists f. rewrite R2, L1. split; [done|]. split; [done|].
    split; [by rewrite status_kill, decide_True|].
    intros st' (st1 & E & _ & -> & _)%lookup_kill. rewrite G1, jlookup_insert_eq in E. by simplify_eq.
Qed.

(** What the caller of [closeGeneration] knows *)
Definition may_close (g : Z) (w : close_waiter) (c : client) : Prop :=
  (∃ st, generations c !! g = Some st ∧ g_settled st = true) ∧
  match w with
  | for_cutover => active (life c) = None ∧ (∃ f, rotation (life c) = Some f ∧ rf_outgoing f = g ∧
      is_Some (rf_replacement f)) ∧
      ∀ st, generations c !! g = Some st → g_onClosed st ≠ Some for_cutover
  | for_dispose => disposed (life c) = true
  end.

Lemma inv_start_closing g w t c :
  inv c → tasks c = [] → may_close g w c → status_of g c ≠ dead →
  inv (update_generation g (set_closing (Some w) t ∘ set_status closing) c).
Proof.
  intros Hi Ht [(st & Hg & Hs) Hw] Hd. unfold update_generation. rewrite Hg.
  set (c' := with_generations _ c).
  assert (∀ g' st', generations c' !! g' = Some st' → ∃ st0, generations c !! g' = Some st0 ∧
    g_settled st' = g_settled st0 ∧ g_spawnedFor st' = g_spawnedFor st0 ∧
    (g_status st' = g_status st0 ∧ g_onClosed st' = g_onClosed st0 ∨
     g = g' ∧ g_status st' = closing ∧ g_onClosed st' = Some w)) as Hinv.
  { intros g' st'. unfold c'. simpl. rewrite jlookup_insert.
    destruct (decide (g = g')) as [<-|]; [intros [= <-]|]; eauto 10. }
  assert (∀ g', status_of g' c ≠ dead → status_of g' c' ≠ dead) as Hst.
  { intros g'. unfold status_of, c'. simpl. rewrite jlookup_insert. by destruct (decide _). }
  destruct Hi. split; try done.
  - intros g' Hg'. unfold c'. simpl. rewrite jlookup_insert_ne; [auto|]. intros <-.
    specialize (i_fresh_g0 _ Hg'). congruence.
  - intros p Hp. destruct (i_wire0 p Hp) as (? & ? & ?). split; [by apply Hst|done].
  - intros g' st' (st0 & H0 & _ & _ & [[_ ->]|(<- & _ & ->)])%Hinv; [by apply i_closer0|].
    intros [= ->]. apply Hw.
  - intros g' st' (st0 & H0 & _ & _ & [[_ ->]|(<- & _ & ->)])%Hinv; [by eapply i_dispose_closer0|].
    by intros [= ->].
  - intros g' st' (st0 & H0 & Hs0 & Hf0 & Hc)%Hinv. unfold unsettled_ok. rewrite Hs0, Hf0.
    intros Hun. destruct (i_unsettled0 _ _ H0 Hun) as (Hx&?&?&?&Huq).
    destruct Hc as [[-> ->]|(<- & _)]; [|congruence].
    repeat (split; [done|]). intros g2 st2 (st3 & H3' & Hu3 & _)%Hinv. rewrite Hu3. by apply Huq.
  - intros g' st' (st0 & H0 & Hs0 & _ & [[-> _]|(_ & -> & _)])%Hinv; [|done].
    rewrite Hs0. by eapply i_settled0.
  - intros a Ha. destruct (i_active0 a Ha) as (st0 & H0 & H1 & H2). unfold c'. simpl.
    rewrite jlookup_insert. destruct (decide (g = a)) as [<-|]; [|eauto].
    eexists; split; [done|]. by simpl.
  - intros fr Hfr. destruct (i_outgoing0 fr Hfr) as (st0 & H0 & ?). unfold c'. simpl.
    rewrite jlookup_insert. destruct (decide (g = _)); eauto.
  - intros t' Hin. change (tasks c') with (tasks c) in Hin. rewrite Ht in Hin.
    by apply not_elem_of_nil in Hin.
Qed.

Lemma inv_closeGeneration postThrows g d w c :
  inv c → tasks c = [] → may_close g w c → inv (closeGeneration postThrows g d w c).
Proof.
  intros Hi Ht Hm. unfold closeGeneration.
  assert (∀ c', inv c' → tasks c' = [] → (active (life c) = None → active (life c') = None) →
    disposed (life c') = disposed (life c) → rotation (life c') = rotation (life c) →
    status_of g c' = dead →
    (∀ st', generations c' !! g = Some st' → ∃ st, generations c !! g = Some st ∧
       g_onClosed st' = g_onClosed st) →
    inv (push_task (TaskClosed w) c')) as Hdead.
  { intros c' Hi' Ht' Ha' Hd' Hr' Hs' Ho'. destruct Hm as [_ Hw].
    apply inv_push_task; [done| | |done].
    - destruct w; [left; apply Ha', Hw|right; congruence].
    - destruct w; [|simpl; congruence]. destruct Hw as (Ha & (f & Hf & <- & Hr) & Hc).
      split; [auto|]. exists f. rewrite Hr'. repeat (split; [done|]).
      intros st' (st & Hg & ->)%Ho'. auto. }
  destruct (bool_decide _) eqn:Ed; prop_bools; [apply Hdead; eauto|].
  destruct (d <=? 0).
  - pose proof (kill_frame g c) as (_ & _ & _ & _ & _ & T2 & R2 & _ & D2 & _).
    apply Hdead; try done; [| congruence| | |].
    + apply inv_kill; [by apply no_initial_none| |done]. destruct Hm as [(st & -> & ?) _].
      intros ? [= <-]. auto.
    + rewrite (active_kill _ _ Hi). by destruct (bool_decide _).
    + by rewrite status_kill, decide_True.
    + intros st' (st & ? & _ & ? & _)%lookup_kill. eauto.
  - set (c1 := update_generation g _ c). unfold post_control. set (c2 := with_net _ _ c1).
    assert (inv c2) as Hi2.
    { apply (inv_same_core c1); [by repeat split|]. by apply inv_start_closing. }
    destruct (negb _); [done|]. apply inv_close_done; [done|].
    unfold c2, c1, update_generation. simpl. by destruct (generations c !! g).
Qed.

(** ** Activating a generation *)

(** The end of a spawn or of a rotation: the writes in flight are the new active one's. *)
Lemma inv_activate a c c' :
  inv c → tasks c = [] → spawning (life c) = false →
  (∀ g st, generations c !! g = Some st → g_onClosed st ≠ Some for_cutover) →
  (∀ p, p ∈ wire c → a = Some p.1) →
  (∀ g, a = Some g → ∃ st, generations c !! g = Some st ∧ g_settled st = true ∧ g_status st ≠ dead) →
  active (life c') = a → rotation (life c') = None → spawning (life c') = false →
  disposed (life c') = disposed (life c) → disposing (life c') = disposing (life c) →
  generations c' = generations c → wire c' = wire c → tasks c' = [] → unacked c' = unacked c →
  nextSeq c' = nextSeq c → nextGeneration c' = nextGeneration c →
  inv c'.
Proof.
  intros Hi Ht Hsp Hoc Hw Ha Ea Er Es Ed Edg Eg Ew Et Eu Ens Eng.
  pose proof (spawning_unsettled c Hi Hsp) as Hall.
  destruct Hi. split; unfold wire_entry, owner, unsettled_ok, tracking in *;
    rewrite ?Ea, ?Er, ?Es, ?Ed, ?Edg, ?Eg, ?Ew, ?Et, ?Eu, ?Ens, ?Eng; try done.
  - intros p Hp. destruct (i_wire0 p Hp) as (H1 & _ & H3).
    split; [unfold status_of in *; by rewrite Eg|]. split; [left; by apply Hw|done].
  - intros g st Hg Hc. by destruct (Hoc _ _ Hg).
  - intros g st Hg Hun. rewrite (Hall g st Hg) in Hun. done.
  - simpl. lia.
  - intros t Hin. by apply not_elem_of_nil in Hin.
Qed.

(** With nothing active and no rotation nothing is in flight. *)
Lemma no_owner_no_wire c : inv c → (∀ g, owner g c → status_of g c = dead) → wire c = [].
Proof.
  intros Hi Ho. destruct (wire c) as [|p l] eqn:E; [done|].
  destruct (i_wire _ Hi p) as (Hd & Hown & _); [rewrite E; left|]. by destruct Hd; apply Ho.
Qed.

Lemma ready_settled g c : inv c → status_of g c = gen_ready →
  ∃ st, generations c !! g = Some st ∧ g_settled st = true ∧ g_status st ≠ dead.
Proof.
  intros Hi. unfold status_of. destruct (generations c !! g) as [st|] eqn:E; [|done]. intros Hs.
  exists st. split; [done|]. split; [|congruence]. destruct (g_settled st) eqn:Eu; [done|].
  destruct (i_unsettled _ Hi _ _ E Eu) as ([?|[? _]] & _); congruence.
Qed.

Lemma rotation_tracking c : inv c → is_Some (rotation (life c)) → tracking c.
Proof. intros Hi [f Hf] Hd. rewrite (i_await_close _ Hi Hd) in Hf. done. Qed.

Lemma no_cutover c :
  inv c → (∀ f, rotation (life c) = Some f → rf_replacement f = None) →
  ∀ g st, generations c !! g = Some st → g_onClosed st ≠ Some for_cutover.
Proof.
  intros Hi Hr g st Hg Hc. destruct (i_closer _ Hi _ _ Hg Hc) as (f & Hf & _ & Hs).
  rewrite (Hr f Hf) in Hs. by destruct Hs.
Qed.

Section continuations.
Context (spawnThrows : Z → bool) (postThrows : nat → bool) (getRetentionMs : Z → option Z).
Context (rotationByteBudget : Z).

Lemma inv_initial_spawned g now c :
  inv c → tasks c = [] → task_ok c (TaskSpawned for_initial (Some g)) →
  inv (flushBuffered spawnThrows postThrows getRetentionMs rotationByteBudget now
         (with_life (set_active (Some g)) c)).
Proof.
  intros Hi Ht (Ha & Hr & Hsp & Hst). apply inv_flushBuffered.
  apply (inv_activate (Some g) c); try done.
  - apply no_cutover; [done|]. congruence.
  - intros p. rewrite (no_owner_no_wire c Hi); [by intros ?%not_elem_of_nil|].
    intros g' [?|(? & ? & _)]; congruence.
  - intros ? [= <-]. by apply ready_settled.
Qed.

Lemma inv_rotate_spawned r now c :
  inv c → tasks c = [] → task_ok c (TaskSpawned for_rotation r) →
  inv (rotate_spawned spawnThrows postThrows getRetentionMs rotationByteBudget r now c).
Proof.
  intros Hi Ht (Ha & Hsp & Hrep & Hb). unfold rotate_spawned.
  destruct (rotation (life c)) as [f|] eqn:Hf; [|done].
  pose proof (rotation_tracking c Hi ltac:(eauto)) as Htr.
  destruct (i_outgoing _ Hi _ Hf) as (st & Hg & Hs).
  pose proof (no_cutover c Hi) as Hoc. rewrite Hf in Hoc. specialize (Hoc Hrep).
  destruct r as [g|].
  - apply inv_closeGeneration; [|done|].
    + destruct Hi. split; try done; simpl.
      * intros p Hp. destruct (i_wire0 p Hp) as (H1 & H2 & H3). split; [done|]. split; [|done].
        destruct H2 as [?|(f' & Hf' & <-)]; [by left|right]. simpl. eexists; split; [done|].
        simpl. congruence.
      * intros g' st' Hg' Hc. by destruct (Hoc _ _ Hg').
      * intros g' st' Hg' Hun. destruct (i_unsettled0 g' st' Hg' Hun) as (_ & Hsp' & _). congruence.
      * intros Hsp'. congruence.
      * intros f' [= <-]. simpl. eauto.
      * intros t Hin. rewrite Ht in Hin. by apply not_elem_of_nil in Hin.
    + split; [exists st; done|]. simpl. split; [done|]. split; [|by apply Hoc].
      eexists; split; [done|]. simpl. eauto.
  - specialize (Hb eq_refl). unfold rotate_finally. cbv zeta.
    set (c1 := with_life (set_rotation None) _).
    assert (inv c1 ∧ tracking c1 ∧ blocked c1 ∧ rotation (life c1) = None) as (Hi1 & Htr1 & Hb1 & Hr1).
    { unfold c1, tracking, blocked. destruct (bool_decide _) eqn:Ed; prop_bools.
      - split; [|done]. apply (inv_activate None c); try done.
        intros p. rewrite (no_owner_no_wire c Hi); [by intros ?%not_elem_of_nil|].
        intros g' [?|(f' & ? & <-)]; [congruence|]. rewrite Hf in *. by simplify_eq.
      - split; [|done]. apply (inv_activate (Some (rf_outgoing f)) c); try done.
        + intros p Hp. destruct (i_wire _ Hi _ Hp) as (_ & [?|(f' & ? & <-)] & _); congruence.
        + intros ? [= <-]. exists st. split; [done|]. split; [done|].
          unfold status_of in Ed. by rewrite Hg in Ed. }
    clearbody c1. destruct (bool_decide _); [|done]. by apply inv_replay_blocked.
Qed.

Lemma inv_rotate_closed now c :
  inv c → tasks c = [] → task_ok c (TaskClosed for_cutover) →
  inv (rotate_closed spawnThrows postThrows getRetentionMs rotationByteBudget now c).
Proof.
  intros Hi Ht (Ha & f & Hf & [g Hr] & Hd & Hoc0). unfold rotate_closed. rewrite Hf. simpl.
  rewrite Hr. pose proof (rotation_tracking c Hi ltac:(eauto)) as Htr.
  assert (wire c = []) as Hw.
  { apply (no_owner_no_wire c Hi). intros g' [?|(f' & ? & <-)]; congruence. }
  assert (∀ g st, generations c !! g = Some st → g_onClosed st ≠ Some for_cutover) as Hoc.
  { intros g' st' Hg' Hc. destruct (i_closer _ Hi _ _ Hg' Hc) as (f' & Hf' & <- & _).
    rewrite Hf in Hf'. simplify_eq. by apply (Hoc0 st'). }
  assert (spawning (life c) = false) as Hsp.
  { destruct (spawning _) eqn:E; [|done]. destruct (i_spawning _ Hi E) as [_ Hn].
    rewrite (Hn f Hf) in Hr. done. }
  unfold rotate_finally. cbv zeta. set (c1 := with_life (set_rotation None) _).
  assert (inv c1 ∧ tracking c1 ∧ wire c1 = []) as (Hi1 & Htr1 & Hw1).
  { unfold c1, tracking. destruct (bool_decide _) eqn:Ed; prop_bools.
    - split; [|done]. apply (inv_activate (Some g) c); try done.
      + rewrite Hw. by intros p ?%not_elem_of_nil.
      + intros ? [= <-]. by apply ready_settled.
    - pose proof (same_core_scheduleRespawn (with_life (set_active None) c))
        as (E1 & E2 & E3 & E4 & E5 & E6 & E7 & _).
      cbn [life with_life]. rewrite E5. split; [|split; [done|]]; [|cbn; by rewrite E6].
      apply (inv_activate None c); try done; cbn; rewrite ?E5; try done.
      + rewrite Hw. by intros p ?%not_elem_of_nil.
      + by rewrite E7. }
  clearbody c1. destruct (bool_decide _); [|done]. apply inv_replay_fresh; [done|done|apply (i_wf _ Hi1)|].
  rewrite Hw1. intros s _. apply not_elem_of_nil.
Qed.
End continuations.

(** ** Disposal *)

Lemma inv_kill_all l c :
  tasks c = [] → disposed (life c) = true → inv c →
  let c' := foldl (λ c g, killGeneration g c) c l in
  inv c' ∧ tasks c' = [] ∧ disposed (life c') = true ∧
  disposing (life c') = disposing (life c) ∧
  (∀ g, g ∈ l ∨ status_of g c = dead → status_of g c' = dead).
Proof.
  revert c. induction l as [|g l IH]; intros c Ht Hd Hi; simpl.
  { repeat (split; [done|]). by intros g [?%not_elem_of_nil|?]. }
  pose proof (kill_frame g c) as (_ & _ & _ & _ & _ & T & _ & _ & D & DD).
  destruct (IH (killGeneration g c)) as (H1 & H2 & H3 & H4 & H5); [congruence..| |].
  { apply inv_kill; [by apply no_initial_none|by right|done]. }
  repeat (split; [congruence|]). intros g' Hg'. apply H5.
  rewrite status_kill. destruct Hg' as [[->|?]%elem_of_cons|?]; [right|by left|right];
    by case_decide.
Qed.

(** The core of the state after disposal *)
Lemma inv_disposed c c' :
  inv c → wire c = [] → disposed (life c) = true →
  generations c' = generations c → nextSeq c' = nextSeq c → nextGeneration c' = nextGeneration c →
  tasks c' = [] → wire c' = [] → unacked c' = ∅ →
  life c' = set_disposing Disposed (set_active None (life c)) → inv c'.
Proof.
  intros Hi Hw Hd Eg Es En Et Ew Eu El. destruct Hi.
  split; rewrite ?Eg, ?Es, ?En, ?Et, ?Ew, ?Eu, ?El; simpl; try done.
  - apply NoDup_nil_2.
  - by intros p ?%not_elem_of_nil.
  - intros g st Hg. specialize (i_unsettled0 g st Hg). unfold unsettled_ok in *.
    rewrite Eg, El. exact i_unsettled0.
  - intros Hs. destruct (i_spawning0 Hs). auto.
  - lia.
  - by intros t ?%not_elem_of_nil.
  - apply jwf_empty.
Qed.

Lemma abandon_frame l c :
  let c' := foldl abandon c l in
  generations c' = generations c ∧ nextSeq c' = nextSeq c ∧
  nextGeneration c' = nextGeneration c ∧ tasks c' = tasks c ∧ wire c' = wire c ∧ life c' = life c.
Proof.
  revert c. induction l as [|s l IH]; intros c; [done|]. simpl.
  destruct (IH (abandon c s)) as (-> & -> & -> & -> & -> & ->).
  unfold abandon, settle. simpl. by destruct (unacked c !! s).
Qed.

Lemma inv_dispose_finish c :
  inv c → tasks c = [] → disposed (life c) = true → inv (dispose_finish c).
Proof.
  intros Hi Ht Hd. unfold dispose_finish. cbv zeta.
  destruct (inv_kill_all (jkeys (generations c)) c Ht Hd Hi) as (Hi1 & Ht1 & Hd1 & _ & Hdead).
  set (c1 := foldl _ c _) in *.
  assert (wire c1 = []) as Hw1.
  { apply no_owner_no_wire; [done|]. intros g _. apply Hdead.
    destruct (generations c !! g) eqn:E; [left|right; unfold status_of; by rewrite E].
    apply jelem_of_keys. eauto. }
  set (c2 := with_life (set_active None) c1).
  destruct (abandon_frame (jkeys (unacked c2)) c2) as (F1 & F2 & F3 & F4 & F5 & F6).
  apply (inv_disposed c1); cbn [generations nextSeq nextGeneration tasks wire unacked life with_life];
    rewrite ?F1, ?F2, ?F3, ?F4, ?F5, ?F6; try done. apply abandon_all.
Qed.

(** While disposal hands entries over, an entry is untouched or in flight. *)
Definition handing (g : Z) (rest : list Z) (c : client) : Prop :=
  inv c ∧ tasks c = [] ∧ disposed (life c) = true ∧ disposing (life c) = Some AwaitClose ∧
  active (life c) = Some g ∧ status_of g c ≠ dead ∧
  ∀ s, s ∈ rest → s ∈ (wire c).*2 →
    ∃ e, unacked c !! s = Some e ∧ e_state e = sent ∧ e_generation e = Some g.

Lemma lookup_update_entry_ne s s' f c :
  s ≠ s' → unacked (update_entry s f c) !! s' = unacked c !! s'.
Proof.
  intros Hne. unfold update_entry. destruct (unacked c !! s); [|done]. simpl.
  by rewrite jlookup_insert_ne.
Qed.

Lemma handing_update g s f rest c :
  s ∉ rest → handing g rest c → handing g rest (update_entry s f c).
Proof.
  intros Hs (Hi & Ht & Hd & Hdd & Ha & Hst & Hr). unfold handing.
  pose proof (rest_update_entry s f c) as (_ & _ & -> & _). rewrite life_update_entry, wire_update_entry.
  split; [apply inv_update_entry; [|done]; intros e Htr; unfold tracking in *; congruence|].
  repeat (split; [done|]). split; [unfold status_of in *; by rewrite generations_update_entry|].
  intros s' Hs' Hw. rewrite lookup_update_entry_ne by set_solver. auto.
Qed.

Lemma handing_dispose_entry postThrows g now s rest c :
  s ∉ rest → handing g (s :: rest) c → handing g rest (dispose_entry postThrows g now c s).
Proof.
  intros Hs (Hi & Ht & Hd & Hdd & Ha & Hst & Hr).
  assert (handing g rest c) as H0.
  { repeat (split; [done|]). intros s' Hs'. apply Hr. by right. }
  unfold dispose_entry. destruct (unacked c !! s) as [e|] eqn:He; [|done].
  destruct (_ && _) eqn:Eb; [done|].
  assert (s ∉ (wire c).*2) as Hw.
  { intros (e' & He' & H1 & H2)%Hr; [|left]. simplify_eq. rewrite H1, H2 in Eb.
    by rewrite !bool_decide_true in Eb. }
  set (c1 := update_entry s (set_place buffered None) c).
  pose proof (handing_update g s (set_place buffered None) rest c Hs H0) as H1. fold c1 in H1.
  unfold sendDuringDispose. cbv zeta. set (c2 := update_entry s _ c1).
  pose proof (handing_update g s (λ e, set_sent g now (e_everSent e) e) rest c1 Hs H1) as H2.
  fold c2 in H2. unfold post_write. destruct (postThrows _).
  - apply handing_update; [done|]. destruct H2 as (Hi2 & H2). split; [|done].
    apply (inv_same_core c2); [by repeat split|done].
  - destruct H2 as (Hi2 & Ht2 & Hd2 & Hdd2 & Ha2 & Hst2 & Hr2).
    assert (wire c2 = wire c) as Ew by (unfold c2, c1; by rewrite !wire_update_entry).
    split; [|repeat (split; [done|])].
    + apply (inv_post_write g s c2); try done; [by left|by rewrite Ew|].
      unfold c2, c1. rewrite (lookup_update_entry s _ _ (set_place buffered None e));
        [eexists; done|]. by apply lookup_update_entry.
    + intros s' Hs'. simpl. rewrite fmap_app, elem_of_app. simpl.
      rewrite list_elem_of_singleton. intros [?| ->]; [by apply Hr2|done].
Qed.

Lemma handing_loop postThrows g now l c :
  NoDup l → handing g l c → handing g [] (foldl (dispose_entry postThrows g now) c l).
Proof.
  revert c. induction l as [|s l IH]; intros c; [done|]. intros [? ?]%NoDup_cons ?. simpl.
  apply IH; [done|]. by apply handing_dispose_entry.
Qed.

Lemma inv_dispose_handover postThrows d now c :
  inv c → tasks c = [] → disposed (life c) = true → tracking c →
  inv (dispose_handover postThrows d now c).
Proof.
  intros Hi Ht Hd Htr. unfold dispose_handover.
  destruct (active (life c)) as [g|] eqn:Ha; [|by apply inv_dispose_finish].
  destruct (_ && _) eqn:E; [|by apply inv_dispose_finish]. prop_bools.
  assert (rotation (life c) = None) as Hr.
  { apply eq_None_not_Some. intros Hr. rewrite (i_rotation _ Hi Hr) in Ha. done. }
  assert (handing g (jkeys (unacked c)) (with_life (set_disposing AwaitClose) c)) as Hh.
  { unfold handing. split.
    { destruct Hi. split; try done; try (by intros s e []).
      intros p Hp. destruct (i_wire0 p Hp) as (? & ? & _). split; [done|]. split; [done|]. by intros []. }
    simpl. repeat (split; [done|]).
    split; [unfold status_of in *; simpl; congruence|].
    intros s _ ([g' s'] & -> & Hp)%list_elem_of_fmap.
    destruct (i_wire _ Hi _ Hp) as (_ & [Ho|(f & Hf & _)] & He); [|congruence].
    destruct (He Htr) as (e & ? & ? & ?). exists e. simpl in *. split; [done|]. split; congruence. }
  apply handing_loop with (postThrows := postThrows) (now := now) in Hh; [|apply (i_wf _ Hi)].
  destruct Hh as (Hi1 & Ht1 & Hd1 & _ & Ha1 & _). apply inv_closeGeneration; [done|done|].
  split; [|done]. destruct (i_active _ Hi1 _ Ha1) as (st & ? & ? & _). eauto.
Qed.

Lemma inv_set_disposing p c :
  inv c → disposed (life c) = true → tracking c → p ≠ AwaitClose → p ≠ Disposed →
  inv (with_life (set_disposing p) c).
Proof.
  intros [] Hd Htr H1 H2. split; try done; simpl; try (intros; congruence).
  - intros q Hq. destruct (i_wire0 q Hq) as (? & ? & H3). split; [done|]. split; [done|]. auto.
  - eauto.
Qed.

Lemma inv_dispose_rotation postThrows d now c :
  inv c → tasks c = [] → disposed (life c) = true → tracking c →
  inv (dispose_rotation postThrows d now c).
Proof.
  intros. unfold dispose_rotation. destruct (_ && _); [by apply inv_set_disposing|].
  by apply inv_dispose_handover.
Qed.

Lemma inv_set_disposed c : inv c → tasks c = [] → inv (with_life set_disposed c).
Proof.
  intros Hi Ht. destruct Hi. split; try done; simpl.
  - intros g st Hg Hun. destruct (i_unsettled0 g st Hg Hun) as ([?|[? _]] & ? & ? & ? & ?);
      (split; [|done]); simpl; auto.
  - intros t Hin. rewrite Ht in Hin. by apply not_elem_of_nil in Hin.
Qed.

Lemma inv_clear_timers l c :
  inv c → let c' := foldl (λ c seq, update_entry seq (set_retryTimer None) c) c l in
  inv c' ∧ tasks c' = tasks c ∧ life c' = life c.
Proof.
  revert c. induction l as [|s l IH]; intros c Hi; [done|]. simpl.
  destruct (IH (update_entry s (set_retryTimer None) c)) as (? & -> & ->);
    [by apply inv_clear_retryTimer|].
  split; [done|]. split; [apply rest_update_entry|apply life_update_entry].
Qed.

Lemma inv_dispose postThrows d now c :
  inv c → tasks c = [] → inv (dispose postThrows d now c).
Proof.
  intros Hi Ht. unfold dispose. destruct (disposing (life c)) eqn:Hp; [done|]. cbv zeta.
  set (c0 := with_tmr _ _).
  assert (inv c0) as Hi0.
  { apply (inv_same_core (with_life set_disposed c)); [|by apply inv_set_disposed].
    repeat split. intros _. by right; right. }
  destruct (inv_clear_timers (jkeys (unacked c0)) c0 Hi0) as (Hi1 & Ht1 & L1).
  set (c1 := foldl _ c0 _) in *.
  assert (disposed (life c1) = true ∧ tracking c1) as [Hd1 Htr1].
  { unfold tracking. rewrite L1. simpl. by rewrite Hp. }
  destruct (_ && negb (d <=? 0)); [by apply inv_set_disposing|].
  apply inv_dispose_rotation; [done|by rewrite Ht1|done|done].
Qed.

Lemma inv_dispose_resume postThrows now c :
  inv c → tasks c = [] → inv (dispose_resume postThrows now c).
Proof.
  intros Hi Ht. unfold dispose_resume. destruct (disposing (life c)) as [[]|] eqn:Hp; try done;
    (assert (disposed (life c) = true) by (apply (i_disposing _ Hi); rewrite Hp; eauto));
    (assert (tracking c) by (unfold tracking; congruence));
    [by apply inv_dispose_rotation|by apply inv_dispose_handover].
Qed.

(** ** Acknowledgements *)

Lemma inv_wire_filter (P : Z * Z → Prop) `{!∀ p, Decision (P p)} n c :
  inv c → inv (with_net (filter P (wire c)) n c).
Proof.
  intros []. split; try done; simpl.
  - eapply sublist_NoDup; [exact i_nodup0|]. apply fmap_sublist, sublist_filter.
  - intros p [_ Hp]%list_elem_of_filter. by apply i_wire0.
  - intros Hd. by destruct (i_done0 Hd) as [-> ->].
Qed.

Lemma ack_off_wire g tag s e c :
  inv c → tracking c → (g, s) ∉ wire c → unacked c !! s = Some e →
  negb (bool_decide (e_generation e = Some tag)) || negb (tag =? g) = false →
  s ∉ (wire c).*2.
Proof.
  intros Hi Htr Hs He Hb ([g' s'] & -> & Hp)%list_elem_of_fmap. prop_bools. simpl in *.
  destruct (i_wire _ Hi _ Hp) as (_ & _ & Ht). destruct (Ht Htr) as (e' & He' & _ & Hg').
  simpl in *. assert (g' = g) by congruence. congruence.
Qed.

Lemma inv_ack_result g tag c r :
  inv c → (g, ack_seq r) ∉ wire c → inv (ack_result g tag c r).
Proof.
  intros Hi Hs. unfold ack_result. destruct (unacked c !! ack_seq r) as [e|] eqn:He; [|done].
  destruct (_ || _) eqn:Hb; [done|].
  assert (tracking c → ack_seq r ∉ (wire c).*2) as Hoff by eauto using ack_off_wire.
  assert (∀ f c', same_core c c' → (∀ o cls d, inv (settle (ack_seq r) o cls d c')) ∧
    ((∀ e', timer_ok e' → e_generation e' = Some tag → timer_ok (f e')) →
     inv (update_entry (ack_seq r) f c'))) as Hk.
  { intros f c' Hc. pose proof (inv_same_core _ _ Hc Hi) as Hi'.
    destruct Hc as (Eu & _ & _ & _ & El & Ew & _).
    assert (tracking c' → ack_seq r ∉ (wire c').*2) as Hoff'.
    { unfold tracking. by rewrite El, Ew. }
    split; [intros; by apply inv_settle|]. intros Hf. apply inv_update_entry_off; [done| |done].
    intros e' Htr He' Ht. rewrite Eu, He in He'. simplify_eq. prop_bools. by apply Hf. }
  destruct (ack_status r), (ack_errorClass r) as [[]|];
    try (apply Hk; [exact id|apply same_core_cnt]).
  - apply (Hk (λ e, set_retryTimer (Some (retry_delay (e_attempts e))) (set_place retry_wait None e)));
      [apply same_core_cnt|]. by intros e' _ _ _.
  - apply (Hk (set_place buffered None)); [apply same_core_onWriterFatal|].
    intros e' Ht Hg Hs'. destruct (Ht Hs') as [_ Hn]. congruence.
Qed.

Lemma ack_result_frame g tag c r :
  wire (ack_result g tag c r) = wire c ∧ tasks (ack_result g tag c r) = tasks c.
Proof.
  unfold ack_result. destruct (unacked c !! ack_seq r) eqn:He; [|done].
  destruct (_ || _); [done|].
  assert (∀ d, unacked (onWriterFatal d c) = unacked c ∧ wire (onWriterFatal d c) = wire c ∧
            tasks (onWriterFatal d c) = tasks c) as Hf.
  { intros d. unfold onWriterFatal. by destruct (is_fatal c). }
  destruct (ack_status r), (ack_errorClass r) as [[]|]; unfold scheduleRetry, settle, update_entry;
    simpl; rewrite ?He; try done.
  destruct (Hf (default "unclassified writer failure"%string (ack_detail r))) as (-> & W & T).
  rewrite He. simpl. by rewrite W, T.
Qed.

Section events.
Context (spawnThrows : Z → bool) (postThrows : nat → bool) (getRetentionMs : Z → option Z).
Context (rotationByteBudget : Z).

Lemma inv_handleAck g tag rs now c :
  inv c → (∀ r, r ∈ rs → (g, ack_seq r) ∉ wire c) →
  inv (handleAck spawnThrows postThrows getRetentionMs rotationByteBudget g tag rs now c).
Proof.
  intros Hi Hrs. unfold handleAck. cbv zeta.
  set (c1 := if _ && _ then with_hlt (set_suspended false) _ else _).
  assert (same_core c c1) as Hc1.
  { unfold c1. destruct (_ && _), (watchdogUnhealthy _);
      repeat (etrans; [|apply same_core_hlt; done]); done. }
  assert (inv (foldl (ack_result g tag) c1 rs)) as Hr.
  { apply (inv_same_core _ _ Hc1) in Hi. destruct Hc1 as (_ & _ & _ & _ & _ & Ew & _).
    rewrite <-Ew in Hrs. clear Ew. clearbody c1. revert c1 Hi Hrs.
    induction rs as [|r rs IH]; intros c1 Hi Hrs; [done|]. simpl.
    destruct (ack_result_frame g tag c1 r) as [Ew _].
    apply IH; [apply inv_ack_result; [done|apply Hrs; left]|].
    intros r' Hr'. rewrite Ew. apply Hrs. by right. }
  destruct (_ && _); [by apply inv_flushBuffered|done].
Qed.

Lemma inv_fence now c : inv c → tasks c = [] → inv (fence now c).
Proof.
  intros Hi Ht. unfold fence. destruct (active (life c)) as [g|] eqn:Ha; [|done]. cbv zeta.
  set (c0 := with_cnt _ c). set (c1 := killGeneration g c0).
  assert (inv c0) as Hi0 by (apply (inv_same_core c); [apply same_core_cnt|done]).
  destruct (i_active _ Hi _ Ha) as (st & Hg & Hs & _).
  assert (inv c1) as Hi1.
  { apply inv_kill; [by apply no_initial_none| |done]. simpl. rewrite Hg. intros ? [= <-]. auto. }
  assert (wire c1 = []) as Hw.
  { apply no_owner_no_wire; [done|]. intros g' [Ha'|(f & Hf & _)].
    - unfold c1 in Ha'. rewrite active_kill in Ha' by done. simpl in Ha'.
      by rewrite bool_decide_true in Ha'.
    - pose proof (kill_frame g c0) as (_ & _ & _ & _ & _ & _ & R & _). fold c1 in R.
      rewrite R in Hf. simpl in Hf. rewrite (i_rotation _ Hi) in Ha; [done|eauto]. }
  assert (∀ l c, inv c → wire c = [] → inv (foldl unsend c l)) as Hloop.
  { intros l. induction l as [|s l IH]; intros c2 Hi2 Hw2; [done|]. simpl. apply IH.
    - apply inv_update_entry_off; [rewrite Hw2; intros _; apply not_elem_of_nil| |done].
      intros e _ _ Htm. destruct (bool_decide _) eqn:Eb; prop_bools; [|done].
      intros Hs'. simpl in Hs'. destruct (Htm Hs'). congruence.
    - unfold unsend. by rewrite wire_update_entry. }
  eapply inv_same_core; [apply same_core_scheduleRespawn|].
  eapply inv_same_core; [by apply same_core_hlt|]. by apply Hloop.
Qed.

Lemma inv_watchdog now c :
  inv c → tasks c = [] →
  inv (onWatchdogTimer spawnThrows postThrows getRetentionMs rotationByteBudget now c).
Proof.
  intros Hi Ht. unfold onWatchdogTimer. destruct (watchdogTimer (tmr c)); [|done]. cbv zeta.
  set (c0 := with_tmr _ c).
  assert (inv c0) as Hi0 by (apply (inv_same_core c); [by apply same_core_tmr|done]).
  assert (inv (runWatchdog spawnThrows postThrows getRetentionMs rotationByteBudget now c0)) as Hr.
  { unfold runWatchdog. destruct (_ || _); [done|].
    assert (∀ f, (∀ h, is_Some (writerFatal h) → is_Some (writerFatal (f h))) →
      ∀ c, inv c → inv (with_hlt f c)) as Hh.
    { intros f Hf c1 H1. eapply inv_same_core; [by apply same_core_hlt|done]. }
    destruct (oldest_sent c0); cbv zeta.
    - destruct (_ <=? _); [by apply inv_fence|]. destruct (_ && _); [|done]. by apply Hh.
    - destruct (watchdogUnhealthy _); [apply inv_flushBuffered|]; repeat apply Hh; done. }
  destruct (is_disposed _); [done|].
  eapply inv_same_core; [by apply same_core_tmr|done].
Qed.

(** Clearing the respawn timer unblocks spawns: no failed spawn may be pending. *)
Lemma inv_tmr f c : tasks c = [] → inv c → inv (with_tmr f c).
Proof.
  intros Ht []. split; try done. simpl. intros t Hin. rewrite Ht in Hin.
  by apply not_elem_of_nil in Hin.
Qed.

Lemma inv_respawnTimer c :
  inv c → tasks c = [] → inv (onRespawnTimer spawnThrows postThrows rotationByteBudget c).
Proof.
  intros Hi Ht. unfold onRespawnTimer. destruct (respawnTimer (tmr c)); [|done]. cbv zeta.
  assert (inv (with_tmr (λ t, set_respawn (respawnAttempts t) None t) c)) by by apply inv_tmr.
  destruct (match _ with Some st => _ | None => false end);
    [by apply inv_maybeRotate|by apply inv_ensureActive].
Qed.

Lemma inv_register entry now c : disposed (life c) = false → inv c → inv (register entry now c).
Proof.
  intros Hd Hi. unfold register. set (c1 := with_unacked _ _).
  assert (inv c1) as Hi1.
  { assert (unacked c !! nextSeq c = None) as Hnew by (apply (i_fresh_s _ Hi); lia).
    destruct Hi. split; try done; simpl.
    - intros s Hs. rewrite jlookup_insert_ne by lia. apply i_fresh_s0. lia.
    - intros [g s] Hp. destruct (i_wire0 _ Hp) as (H1 & H2 & H3). split; [done|].
      split; [done|]. intros Htr. destruct (H3 Htr) as (e & He & ?). simpl in *.
      rewrite jlookup_insert_ne; [eauto|]. intros E. by rewrite <-E, Hnew in He.
    - auto with jmap.
    - intros s e Htr. rewrite jlookup_insert. destruct (decide _); [intros [= <-]; by intros [? ?]|].
      by apply i_timer0.
    - intros Hdone. rewrite i_disposing0 in Hd; [done|]. rewrite Hdone. eauto. }
  unfold startWatchdog. destruct (_ || _); [done|].
  eapply inv_same_core; [by apply same_core_tmr|done].
Qed.

Lemma register_frame entry now c :
  let c' := register entry now c in
  wire c' = wire c ∧ tasks c' = tasks c ∧ life c' = life c ∧
  ∃ e, unacked c' !! nextSeq c = Some e ∧ e_retryTimer e = None.
Proof.
  unfold register, startWatchdog. set (c1 := with_unacked _ _).
  assert (∃ e, unacked c1 !! nextSeq c = Some e ∧ e_retryTimer e = None) as He.
  { unfold c1. simpl. rewrite jlookup_insert_eq. eauto. }
  by destruct (_ || _).
Qed.

Lemma unacked_finish g ok d cls c : unacked (finish g ok d cls c) = unacked c.
Proof.
  unfold finish. destruct (generations c !! g) as [st|] eqn:Hg; [|done].
  destruct (g_settled st); [done|]. cbv zeta.
  assert (∀ f c, unacked (update_generation g f c) = unacked c) as Hu.
  { intros f c1. unfold update_generation. by destruct (generations c1 !! g). }
  destruct ok; simpl; [apply Hu|].
  pose proof (λ c, kill_frame g c) as Hk.
  destruct (bool_decide _);
    [destruct (same_core_onWriterFatal (default "payload writer init failed"%string d)
       (killGeneration g (with_life (set_spawning false) (update_generation g set_settled c)))) as [-> _]
    |destruct (same_core_onSpawnFailure
       (killGeneration g (with_life (set_spawning false) (update_generation g set_settled c)))) as [-> _]];
    destruct (Hk (with_life (set_spawning false) (update_generation g set_settled c))) as [-> _]; apply Hu.
Qed.

Lemma unacked_ensureActive c :
  unacked (ensureActiveGeneration spawnThrows postThrows c) = unacked c.
Proof.
  unfold ensureActiveGeneration. destruct (_ || _); [done|]. destruct (_ || rotating c); [done|].
  destruct (bool_decide (is_Some (respawnTimer _))); [done|]. unfold spawnGeneration, post_control.
  destruct (spawnThrows _).
  - set (c1 := with_life (set_spawning false) _).
    by destruct (same_core_onSpawnFailure c1) as [E _].
  - destruct (negb _); [done|]. by rewrite unacked_finish.
Qed.

Lemma shrinks_ensureActive c : shrinks c (ensureActiveGeneration spawnThrows postThrows c).
Proof.
  unfold ensureActiveGeneration. destruct (_ || _); [done|]. destruct (_ || rotating c); [done|].
  destruct (bool_decide (is_Some (respawnTimer _))); [done|].
  etrans; [|apply shrinks_spawnGeneration]. done.
Qed.

(** Making sure of a generation, then sending an entry no worker holds *)
Lemma inv_ensure_send s now c :
  inv c → tasks c = [] → s ∉ (wire c).*2 → untimed s c →
  inv (trySend spawnThrows postThrows rotationByteBudget s now
         (ensureActiveGeneration spawnThrows postThrows c)).
Proof.
  intros Hi Ht Hs Hu. apply sends_trySend; [by apply inv_ensureActive| |].
  - intros (p & -> & Hp)%list_elem_of_fmap. apply shrinks_ensureActive in Hp.
    apply Hs. by apply list_elem_of_fmap_2.
  - unfold untimed. by rewrite unacked_ensureActive.
Qed.

Lemma inv_publish_entry entry now c :
  inv c → tasks c = [] → disposed (life c) = false →
  inv (trySend spawnThrows postThrows rotationByteBudget (nextSeq c) now
         (ensureActiveGeneration spawnThrows postThrows (register entry now c))).
Proof.
  intros Hi Ht Hd. destruct (register_frame entry now c) as (Ew & Et & _ & e & He & Hn).
  apply inv_ensure_send; [by apply inv_register|by rewrite Et| |].
  - rewrite Ew. intros ([g s] & Es & Hp)%list_elem_of_fmap. simpl in Es. subst s.
    destruct (i_wire _ Hi _ Hp) as (_ & _ & Htr). destruct Htr as (e' & He' & _).
    { intros Hx. rewrite (i_disposing _ Hi) in Hd; [done|]. rewrite Hx. eauto. }
    simpl in He'. rewrite (i_fresh_s _ Hi) in He'; [done|lia].
  - intros e' He'. rewrite He in He'. by simplify_eq.
Qed.

Lemma inv_drop_then s now c (k : client → client) :
  inv c → (tracking c → s ∉ (wire c).*2) → inv (k c) →
  inv (let '(dropped, c1) := dropIfExpired getRetentionMs s now c in
       if dropped then c1 else k c1).
Proof.
  intros Hi Hs Hk. unfold dropIfExpired.
  destruct (unacked c !! s), (getRetentionMs now); try done. do 2 (destruct (_ <=? _); [done|]).
  apply inv_settle; [done|]. eapply inv_same_core; [apply same_core_cnt|done].
Qed.

#[export] Instance tracking_dec c : Decision (tracking c).
Proof. unfold tracking. destruct (disposing (life c)) as [[]|]; ((by left) || (right; by intros [])). Defined.

Lemma inv_retryTimer s now c :
  inv c → tasks c = [] →
  inv (onRetryTimer spawnThrows postThrows getRetentionMs rotationByteBudget s now c).
Proof.
  intros Hi Ht. unfold onRetryTimer. destruct (unacked c !! s) as [e|] eqn:He; [|done].
  simpl. destruct (e_retryTimer e) as [t|] eqn:Hr; [|done]. cbv zeta.
  pose proof (inv_clear_retryTimer s c Hi) as Hi1.
  set (c1 := update_entry s (set_retryTimer None) c) in *.
  pose proof (rest_update_entry s (set_retryTimer None) c) as (_ & _ & T1 & _). fold c1 in T1.
  assert (tracking c → s ∉ (wire c).*2) as Hs.
  { intros Htr ([g s'] & -> & Hp)%list_elem_of_fmap.
    destruct (i_wire _ Hi _ Hp) as (_ & _ & Hx). destruct (Hx Htr) as (e' & He' & Hst & _).
    simpl in *. assert (e' = e) as -> by congruence.
    destruct (i_timer _ Hi _ _ Htr He); [eauto|congruence]. }
  assert (life c1 = life c ∧ wire c1 = wire c) as [L1 W1].
  { split; [apply life_update_entry|apply wire_update_entry]. }
  apply inv_drop_then; [done|unfold tracking; by rewrite L1, W1|].
  set (c2 := update_entry s _ c1).
  assert (untimed s c2) as Hu.
  { apply untimed_update; [done|]. intros e'. unfold c1.
    rewrite (lookup_update_entry _ _ _ _ He). by intros [= <-]. }
  assert (inv c2) as Hi2.
  { apply inv_update_entry_off; [unfold tracking; by rewrite L1, W1| |done].
    intros e' _ He' _ [x Hx]. simpl in Hx. unfold c1 in He'.
    rewrite (lookup_update_entry _ _ _ _ He) in He'. by simplify_eq. }
  assert (life c2 = life c ∧ wire c2 = wire c ∧ tasks c2 = tasks c) as (L2 & W2 & T2).
  { unfold c2. rewrite life_update_entry, wire_update_entry. split; [done|]. split; [done|].
    destruct (rest_update_entry s (λ e, set_place buffered (e_generation e) e) c1) as (_ & _ & -> & _). done. }
  destruct (decide (tracking c)) as [Htr|Htr].
  - apply inv_ensure_send; [done|congruence|rewrite W2; auto|done].
  - assert (is_disposed c2 = true) as Hd2.
    { unfold is_disposed. rewrite L2. apply (i_disposing _ Hi). unfold tracking in Htr.
      destruct (disposing (life c)); [eauto|by destruct Htr]. }
    unfold ensureActiveGeneration. rewrite Hd2. simpl. unfold trySend.
    destruct (unacked c2 !! s); [|done]. by rewrite Hd2.
Qed.
End events.

(** ** Every step *)

Lemma inv_pop t ts c :
  inv c → tasks c = t :: ts →
  inv (with_tasks ts c) ∧ ts = [] ∧ task_ok (with_tasks ts c) t.
Proof.
  intros Hi Ht. assert (ts = []) as ->.
  { pose proof (i_tasks _ Hi) as Hl. rewrite Ht in Hl. destruct ts; [done|simpl in Hl; lia]. }
  split; [|split; [done|]].
  - destruct Hi. split; try done; simpl; [lia|]. by intros t' ?%not_elem_of_nil.
  - assert (task_ok c t) as Hok by (apply (i_task _ Hi); rewrite Ht; left).
    by destruct t as [[] []|[]].
Qed.

Section runs.
Context (spawnThrows : Z → bool) (postThrows : nat → bool) (getRetentionMs : Z → option Z).
Context (rotationByteBudget : Z).

Lemma inv_task now t c :
  inv c → tasks c = [] → task_ok c t →
  inv (run_task spawnThrows postThrows getRetentionMs rotationByteBudget now t c).
Proof.
  intros Hi Ht Hok. destruct t as [[] r|[]]; simpl.
  - assert (∀ b c, inv c → inv (with_life (set_spawnInFlight b) c)) as Hs.
    { intros b c1 H1. by destruct H1. }
    apply Hs. destruct r as [g|]; [|done]. by apply inv_initial_spawned.
  - by apply inv_rotate_spawned.
  - by apply inv_rotate_closed.
  - by apply inv_dispose_finish.
Qed.

Lemma inv_message g m now c :
  inv c → tasks c = [] →
  inv (handleMessage spawnThrows postThrows getRetentionMs rotationByteBudget g m now
         (deliver (Message g m) c)).
Proof.
  intros Hi Ht. destruct m as [g'|tag rs|g'|g' dt cls]; simpl.
  - destruct (bool_decide _) eqn:E; [|done]. prop_bools. by apply inv_ready.
  - apply inv_handleAck; [by apply inv_wire_filter|]. intros r Hr. simpl.
    rewrite list_elem_of_filter. intros [Hn _]. apply Hn. split; [done|].
    apply list_elem_of_fmap. eauto.
  - by apply inv_close_done.
  - by apply inv_finish_failed.
Qed.

Lemma settled_or_disposed c g :
  inv c → ∀ st, generations c !! g = Some st → g_settled st = true →
  ∀ st', generations c !! g = Some st' → g_settled st' = true ∨ disposed (life c) = true.
Proof. intros Hi st Hg Hs st' Hg'. left. congruence. Qed.

Lemma inv_handle now e c :
  inv c → tasks c = [] →
  inv (handle spawnThrows postThrows getRetentionMs rotationByteBudget now e (deliver e c)).
Proof.
  intros Hi Ht. destruct e as [entry|entry|g m|g d|g|g|s| | | |d|]; cbn [handle].
  - unfold publish. destruct (negb _) eqn:E; [done|]. cbn [snd deliver].
    unfold acceptsWork, is_disposed in E. prop_bools. by apply inv_publish_entry.
  - unfold publishReserved. cbn [deliver]. destruct (is_disposed c) eqn:E; [done|]. cbv zeta.
    destruct (_ || _); cbn [snd]; [by apply inv_register|by apply inv_publish_entry].
  - by apply inv_message.
  - cbn [deliver]. unfold onTransportError. destruct (generations c !! g) as [st|] eqn:Hg; [|done].
    destruct (g_settled st) eqn:Es; simpl; [|by apply inv_finish_failed].
    apply inv_onGenerationDied; [by apply no_initial_none| |done]. by eapply settled_or_disposed.
  - cbn [deliver]. unfold onReadyTimeout. destruct (_ ≫= _); [|done].
    apply inv_finish_failed; [|by apply inv_update_generation; [repeat split; auto|]].
    unfold update_generation. by destruct (generations c !! g).
  - cbn [deliver]. unfold onCloseTimeout. destruct (_ ≫= _); [|done]. by apply inv_close_done.
  - by apply inv_retryTimer.
  - by apply inv_respawnTimer.
  - by apply inv_watchdog.
  - by destruct Hi.
  - by apply inv_dispose.
  - by apply inv_dispose_resume.
Qed.

Lemma inv_run c es c' :
  run spawnThrows postThrows getRetentionMs rotationByteBudget c es c' → inv c → inv c'.
Proof.
  induction 1 as [c|c c1 c2 es Hs _ IH|c c1 c2 e es Hs _ IH]; intros Hi; [done|..];
    apply IH; inversion Hs; subst.
  - destruct (inv_pop _ _ _ Hi ltac:(eassumption)) as (H1 & -> & H2). by apply inv_task.
  - by apply inv_handle.
Qed.

Lemma client_inv_init now : inv (client_init now).
Proof.
  split; try done.
  - apply NoDup_nil_2.
  - by intros p ?%not_elem_of_nil.
  - simpl. lia.
  - by intros t ?%not_elem_of_nil.
  - by intros [? ?].
  - apply jwf_empty.
Qed.

(** C2: one writer at a time. In every run no write is in the hands of two workers, or twice in
    the hands of one; all writes in flight are held by the same worker, alive, which is the
    active one or the one a rotation is retiring; until disposal has handed the registry
    over, each of them is registered as sent to that worker; after disposal nothing is in
    flight or registered. *)
Theorem single_writer now es c :
  run spawnThrows postThrows getRetentionMs rotationByteBudget (client_init now) es c →
  NoDup (wire c).*2 ∧
  (∀ p q, p ∈ wire c → q ∈ wire c → p.1 = q.1) ∧
  (∀ g s, (g, s) ∈ wire c →
     status_of g c ≠ dead ∧
     (active (life c) = Some g ∨ ∃ f, rotation (life c) = Some f ∧ rf_outgoing f = g) ∧
     (disposing (life c) ≠ Some AwaitClose →
      ∃ e, unacked c !! s = Some e ∧ e_state e = sent ∧ e_generation e = Some g)) ∧
  (disposing (life c) = Some Disposed → wire c = [] ∧ unacked c = ∅).
Proof.
  intros Hr. pose proof (inv_run _ _ _ Hr (client_inv_init now)) as Hi.
  split; [apply (i_nodup _ Hi)|]. split; [|split; [|apply (i_done _ Hi)]].
  - intros p q Hp Hq. destruct (i_wire _ Hi _ Hp) as (_ & Ho & _).
    destruct (i_wire _ Hi _ Hq) as (_ & Ho' & _).
    destruct Ho as [Ha|(f & Hf & <-)], Ho' as [Ha'|(f' & Hf' & <-)]; try congruence;
      rewrite (i_rotation _ Hi) in *; by eauto.
  - intros g s Hp. exact (i_wire _ Hi _ Hp).
Qed.
End runs.

(** * A worker lost while it is being retired *)

(** A [rotate] that waits for the close of [out], with [out] already terminated *)
Record wedged (out rep : Z) (c : client) : Prop := {
  w_rotation : rotation (life c) = Some {| rf_outgoing := out; rf_replacement := Some rep |};
  w_active : active (life c) = None;
  w_spawning : spawning (life c) = false;
  w_tasks : tasks c = [];
  w_disposed : disposed (life c) = false;
  w_disposing : disposing (life c) = None;
  w_wire : wire c = [];
  w_settled g st : generations c !! g = Some st → g_settled st = true ∧ g_status st ≠ starting ∧
    (is_Some (g_onClosed st) → g = out);
  w_out : ∃ st, generations c !! out = Some st ∧ g_status st = dead ∧ g_closeTimer st = None
}.

(** What an operation on entries, counters and health leaves alone *)
Definition calm (c c' : client) : Prop :=
  generations c' = generations c ∧ life c' = life c ∧ tasks c' = tasks c ∧ wire c' = wire c ∧
  posts c' = posts c ∧ nextGeneration c' = nextGeneration c.

#[export] Instance calm_refl : Reflexive calm.
Proof. by intros c. Qed.
#[export] Instance calm_trans : Transitive calm.
Proof. intros c1 c2 c3 (?&?&?&?&?&?) (?&?&?&?&?&?). repeat split; congruence. Qed.

Lemma calm_update_entry s f c : calm c (update_entry s f c).
Proof. unfold update_entry. by destruct (unacked c !! s). Qed.
Lemma calm_tmr f c : calm c (with_tmr f c). Proof. done. Qed.
Lemma calm_hlt f c : calm c (with_hlt f c). Proof. done. Qed.
Lemma calm_cnt f c : calm c (with_cnt f c). Proof. done. Qed.
Lemma calm_settle s o cls d c : calm c (settle s o cls d c).
Proof. unfold settle. by destruct (unacked c !! s). Qed.
Lemma calm_onWriterFatal d c : calm c (onWriterFatal d c).
Proof. unfold onWriterFatal. by destruct (is_fatal c). Qed.
Lemma calm_register entry now c : calm c (register entry now c).
Proof. unfold register, startWatchdog. by destruct (_ || _). Qed.

Create HintDb calm.
#[export] Hint Resolve calm_update_entry calm_tmr calm_hlt calm_cnt calm_settle
  calm_onWriterFatal calm_register : calm.
Ltac calm_step := etrans; [|solve [eauto 2 with calm]].

Lemma calm_dropIfExpired getRetentionMs s now c :
  calm c (dropIfExpired getRetentionMs s now c).2.
Proof.
  unfold dropIfExpired. destruct (unacked c !! s), (getRetentionMs now); try done.
  do 2 (destruct (_ <=? _); [done|]). cbn [snd]. by repeat calm_step.
Qed.

Lemma calm_ack_result g tag c r : calm c (ack_result g tag c r).
Proof.
  unfold ack_result, scheduleRetry. destruct (unacked c !! ack_seq r); [|done].
  destruct (_ || _); [done|].
  destruct (ack_status r), (ack_errorClass r) as [[]|]; by repeat calm_step.
Qed.

Lemma wedged_calm out rep c c' : calm c c' → wedged out rep c → wedged out rep c'.
Proof. intros (Eg & El & Et & Ew & _) []. split; rewrite ?Eg, ?El, ?Et, ?Ew; done. Qed.

Lemma wedged_kill out rep g c : wedged out rep c → wedged out rep (killGeneration g c).
Proof.
  intros Hw. pose proof (kill_frame g c) as (_ & _ & _ & _ & _ & T & R & S & D & DD).
  pose proof (lookup_kill g) as Hl. pose proof (λ st, lookup_kill_inv g out st c) as Hli.
  assert (active (life (killGeneration g c)) = None) as Ha.
  { destruct (life_kill g c) as [->| ->]; [apply (w_active _ _ _ Hw)|done]. }
  assert (wire (killGeneration g c) = []) as Ww.
  { unfold killGeneration. destruct (generations c !! g); [|apply (w_wire _ _ _ Hw)].
    destruct (bool_decide _); [apply (w_wire _ _ _ Hw)|].
    destruct (bool_decide _); simpl; by rewrite (w_wire _ _ _ Hw). }
  destruct Hw. split; rewrite ?T, ?R, ?S, ?D, ?DD; try done.
  - intros g' st' (st & E & -> & -> & _ & Hs)%Hl. destruct (w_settled0 g' st E) as (? & ? & ?).
    split; [done|]. split; [|done]. destruct Hs as [->|[_ ->]]; done.
  - destruct w_out0 as (st & E & Hd & Hc). exists st. split; [|done].
    rewrite generations_kill. destruct (generations c !! g) as [st0|] eqn:E0; [|done].
    destruct (bool_decide _) eqn:Eb; [done|]. prop_bools. rewrite jlookup_insert_ne; [done|].
    intros ->. congruence.
Qed.

Section wedge.
Context (spawnThrows : Z → bool) (postThrows : nat → bool) (getRetentionMs : Z → option Z).
Context (rotationByteBudget : Z).

Lemma wedged_ensureActive out rep c :
  wedged out rep c → ensureActiveGeneration spawnThrows postThrows c = c.
Proof.
  intros []. unfold ensureActiveGeneration, rotating. rewrite w_rotation0, orb_true_r.
  by destruct (_ || _).
Qed.

Lemma calm_trySend s now c :
  active (life c) = None → calm c (trySend spawnThrows postThrows rotationByteBudget s now c).
Proof.
  intros Ha. unfold trySend. destruct (unacked c !! s); [|done]. destruct (_ || _); [done|].
  rewrite Ha. apply calm_update_entry.
Qed.

Lemma calm_flushBuffered now c :
  active (life c) = None →
  flushBuffered spawnThrows postThrows getRetentionMs rotationByteBudget now c = c.
Proof. intros Ha. unfold flushBuffered. rewrite Ha. by destruct (_ || _). Qed.

Lemma calm_ensure_send out rep s now c :
  wedged out rep c →
  calm c (trySend spawnThrows postThrows rotationByteBudget s now
            (ensureActiveGeneration spawnThrows postThrows c)).
Proof.
  intros Hw. rewrite (wedged_ensureActive _ _ _ Hw). apply calm_trySend, (w_active _ _ _ Hw).
Qed.

Lemma calm_handleAck g tag rs now c :
  active (life c) = None →
  calm c (handleAck spawnThrows postThrows getRetentionMs rotationByteBudget g tag rs now c).
Proof.
  intros Ha. unfold handleAck. cbv zeta.
  set (c1 := if _ && _ then with_hlt (set_suspended false) _ else _).
  assert (calm c c1) as H1 by (unfold c1; destruct (_ && _), (watchdogUnhealthy _); by repeat calm_step).
  assert (calm c1 (foldl (ack_result g tag) c1 rs)) as H2.
  { generalize c1. induction rs as [|r rs IH]; intros c2; [done|]. simpl.
    etrans; [apply calm_ack_result|apply IH]. }
  pose proof (calm_trans _ _ _ H1 H2) as H3.
  destruct (_ && _); [|done]. rewrite calm_flushBuffered; [done|].
  destruct H3 as (_ & -> & _). done.
Qed.

Lemma calm_watchdog now c :
  active (life c) = None →
  calm c (onWatchdogTimer spawnThrows postThrows getRetentionMs rotationByteBudget now c).
Proof.
  intros Ha. unfold onWatchdogTimer. destruct (watchdogTimer _); [|done]. cbv zeta.
  assert (calm c (runWatchdog spawnThrows postThrows getRetentionMs rotationByteBudget now
            (with_tmr (set_watchdog None) c))) as Hr.
  { unfold runWatchdog, fence. destruct (_ || _); [done|]. destruct (oldest_sent _); cbv zeta.
    - cbn [life with_tmr]. rewrite Ha. destruct (_ <=? _); [done|]. by destruct (_ && _).
    - destruct (watchdogUnhealthy _); [|done]. by rewrite calm_flushBuffered. }
  destruct (is_disposed _); [done|]. by calm_step.
Qed.

Lemma calm_retryTimer out rep s now c :
  wedged out rep c →
  calm c (onRetryTimer spawnThrows postThrows getRetentionMs rotationByteBudget s now c).
Proof.
  intros Hw. unfold onRetryTimer. destruct (_ ≫= _); [|done]. cbv zeta.
  set (c1 := update_entry s _ c). pose proof (calm_dropIfExpired getRetentionMs s now c1) as Hd.
  assert (calm c c1) as H1 by apply calm_update_entry.
  destruct (dropIfExpired _ _ _ _) as [[] c2]; cbn [snd] in Hd; [by etrans|].
  assert (calm c (update_entry s (λ e, set_place buffered (e_generation e) e) c2)) as H2.
  { calm_step. by etrans. }
  etrans; [exact H2|]. eapply calm_ensure_send. by eapply wedged_calm.
Qed.

(** The close that [rotate] awaits, and the end of the client *)
Definition unwedges (out : Z) (e : event) : Prop :=
  match e with Message g (Closed _) => g = out | Dispose _ => True | _ => False end.

(** Same worker traffic: no spawn, no message posted *)
Definition silent (c c' : client) : Prop :=
  posts c' = posts c ∧ nextGeneration c' = nextGeneration c.

Lemma kill_silent g c : silent c (killGeneration g c).
Proof.
  unfold killGeneration. destruct (generations c !! g); [|done].
  destruct (bool_decide _); [done|]. by destruct (bool_decide _).
Qed.

Lemma wedged_message out rep g m now c :
  wedged out rep c → ¬ unwedges out (Message g m) →
  let c' := handleMessage spawnThrows postThrows getRetentionMs rotationByteBudget g m now
              (deliver (Message g m) c) in
  wedged out rep c' ∧ silent c c'.
Proof.
  intros Hw Hn. destruct m as [g'|tag rs|g'|g' dt cls]; cbn [handleMessage deliver].
  - destruct (bool_decide _) eqn:E; [|done]. prop_bools. unfold status_of in E.
    destruct (generations c !! g) eqn:Eg; [|done]. by destruct (w_settled _ _ _ Hw _ _ Eg) as (_ & ? & _).
  - assert (answered_by g rs c = with_net (wire c) (posts c) c) as ->.
    { unfold answered_by. by rewrite (w_wire _ _ _ Hw). }
    pose proof (calm_handleAck g tag rs now (with_net (wire c) (posts c) c) (w_active _ _ _ Hw)) as Hc.
    split; [apply (wedged_calm _ _ _ _ Hc); by destruct Hw|by destruct Hc as (_&_&_&_&?&?)].
  - unfold close_done. destruct (generations c !! g) as [st|] eqn:Eg; simpl; [|done].
    destruct (g_onClosed st) eqn:Eo; [|done]. destruct Hn. simpl.
    eapply (w_settled _ _ _ Hw); [done|]. by rewrite Eo.
  - unfold finish. destruct (generations c !! g) as [st|] eqn:Eg; [|done].
    by destruct (w_settled _ _ _ Hw _ _ Eg) as (-> & _).
Qed.

Lemma wedged_update_generation out rep g c :
  wedged out rep c → wedged out rep (update_generation g (set_readyTimer None) c).
Proof.
  intros Hw. unfold update_generation. destruct (generations c !! g) as [st|] eqn:E; [|done].
  destruct Hw. split; try done; simpl.
  - intros g' st'. rewrite jlookup_insert. destruct (decide (g = g')) as [<-|]; [|eauto].
    intros [= <-]. simpl. eauto.
  - rewrite jlookup_insert. destruct (decide (g = out)) as [->|]; [|done].
    destruct w_out0 as (st0 & ? & ? & ?). simplify_eq. eexists. split; [done|]. done.
Qed.

Lemma wedged_handle out rep now e c :
  wedged out rep c → ¬ unwedges out e →
  let c' := handle spawnThrows postThrows getRetentionMs rotationByteBudget now e (deliver e c) in
  wedged out rep c' ∧ silent c c'.
Proof.
  intros Hw Hn. cbv zeta. pose proof Hw as [].
  assert (∀ c', calm c c' → wedged out rep c' ∧ silent c c') as Hcalm.
  { intros c' Hc. split; [by eapply wedged_calm|by destruct Hc as (_&_&_&_&?&?)]. }
  destruct e as [entry|entry|g m|g d|g|g|s| | | |d|]; cbn [handle]; cbn [deliver].
  - apply Hcalm. unfold publish. destruct (negb _); [done|]. cbn [snd].
    etrans; [apply calm_register|]. eapply calm_ensure_send, wedged_calm; [apply calm_register|done].
  - apply Hcalm. unfold publishReserved. destruct (is_disposed c); [done|]. cbv zeta.
    destruct (_ || _); cbn [snd]; [apply calm_register|].
    etrans; [apply calm_register|]. eapply calm_ensure_send, wedged_calm; [apply calm_register|done].
  - by apply wedged_message.
  - unfold onTransportError. destruct (generations c !! g) as [st|] eqn:Eg; [|done].
    destruct (w_settled0 _ _ Eg) as (-> & _). simpl. unfold onGenerationDied.
    rewrite w_active0. simpl. rewrite orb_true_r.
    split; [by apply wedged_kill|apply kill_silent].
  - unfold onReadyTimeout. destruct (_ ≫= _); [|done].
    pose proof (wedged_update_generation out rep g c Hw) as Hw1.
    assert (silent c (update_generation g (set_readyTimer None) c)) as Hs.
    { unfold update_generation. by destruct (generations c !! g). }
    unfold finish. destruct (generations (update_generation _ _ c) !! g) as [st|] eqn:Eg; [|done].
    by destruct (w_settled _ _ _ Hw1 _ _ Eg) as (-> & _).
  - unfold onCloseTimeout. destruct (generations c !! g) as [st|] eqn:Eg; [|done]. simpl.
    destruct (g_closeTimer st) eqn:Ec; [|done]. unfold close_done. rewrite Eg. simpl.
    destruct (g_onClosed st) eqn:Eo; [|done]. destruct w_out0 as (st' & E' & _ & Hc).
    destruct (w_settled0 _ _ Eg) as (_ & _ & Hg). rewrite Hg in Eg by (rewrite Eo; eauto). congruence.
  - apply Hcalm. by eapply calm_retryTimer.
  - apply Hcalm. unfold onRespawnTimer. destruct (respawnTimer _); [|done]. cbv zeta.
    cbn [life with_tmr]. rewrite w_active0. simpl.
    rewrite (wedged_ensureActive out rep); [done|]. by eapply wedged_calm.
  - apply Hcalm. by apply calm_watchdog.
  - split; [|done]. by split.
  - by destruct Hn.
  - unfold dispose_resume. by rewrite w_disposing0.
Qed.

Lemma wedged_run out rep c es c' :
  run spawnThrows postThrows getRetentionMs rotationByteBudget c es c' →
  wedged out rep c → (∀ e, e ∈ es → ¬ unwedges out e) → wedged out rep c' ∧ silent c c'.
Proof.
  induction 1 as [c|c c1 c2 es Hs _ IH|c c1 c2 e es Hs _ IH]; intros Hw He; [done|..].
  - inversion Hs; subst. rewrite (w_tasks _ _ _ Hw) in *. done.
  - inversion Hs; subst.
    edestruct (wedged_handle out rep) as [Hw1 [Hp1 Hg1]]; [done|apply He; left|].
    destruct (IH Hw1) as [Hw2 [Hp2 Hg2]]; [intros e' ?; apply He; by right|].
    split; [exact Hw2|]. split; [by rewrite Hp2|by rewrite Hg2].
Qed.

(** The state after the loss *)
Lemma lost_wedges out rep d c :
  inv c → tasks c = [] → disposed (life c) = false →
  rotation (life c) = Some {| rf_outgoing := out; rf_replacement := Some rep |} →
  status_of out c ≠ dead → wedged out rep (onTransportError out d c).
Proof.
  intros Hi Ht Hd Hr Hnd.
  destruct (i_outgoing _ Hi _ Hr) as (st & Hg & Hs). simpl in Hg.
  assert (active (life c) = None) as Ha by (apply (i_rotation _ Hi); eauto).
  assert (spawning (life c) = false) as Hsp.
  { destruct (spawning _) eqn:E; [|done]. destruct (i_spawning _ Hi E) as [_ Hn].
    by specialize (Hn _ Hr). }
  unfold onTransportError. rewrite Hg, Hs. simpl. unfold onGenerationDied. rewrite Ha. simpl.
  rewrite orb_true_r. pose proof (kill_frame out c) as (_ & _ & _ & _ & _ & T & R & S & D & DD).
  split; rewrite ?T, ?R, ?S, ?D, ?DD; try done.
  - rewrite (active_kill _ _ Hi), Ha. done.
  - destruct (disposing (life c)) eqn:E; [|done]. by rewrite (i_disposing _ Hi) in Hd; [|rewrite E].
  - apply no_owner_no_wire.
    + apply inv_kill; [by apply no_initial_none| |done]. intros ? ?. left. congruence.
    + intros g [E|(f & E & <-)].
      * rewrite (active_kill _ _ Hi), Ha in E. done.
      * rewrite R, Hr in E. simplify_eq. by rewrite status_kill, decide_True.
  - intros g st' (st0 & E & -> & -> & _ & Hst)%lookup_kill.
    pose proof (spawning_unsettled c Hi Hsp g st0 E) as Hs0. split; [done|]. split.
    + destruct Hst as [->|[_ ->]]; [by eapply i_settled|done].
    + intros [w Hw]. destruct w.
      * destruct (i_closer _ Hi _ _ E Hw) as (f & Hf & <- & _). by simplify_eq.
      * rewrite (i_dispose_closer _ Hi _ _ E Hw) in Hd. done.
  - rewrite generations_kill, Hg. destruct (bool_decide _) eqn:Eb; prop_bools.
    + destruct Hnd. unfold status_of. by rewrite Hg.
    + exists (set_dead st). by rewrite jlookup_insert_eq.
Qed.

End wedge.

(** The day of [demo_events], up to the retirement of its first worker *)
Definition retiring_client : client :=
  (drive (λ _, false) (λ _, false) (λ _, None) 100 (take 5 demo_events) (client_init 0)).2.

Definition afterwards : list (Z * event) :=
  [(5, Publish (demo_entry "d" 5)); (1004, WatchdogTimer); (10005, CloseTimeout 1);
   (40000, RespawnTimer); (70000, WatchdogTimer); (70001, Publish (demo_entry "e" 5))].

Definition wedged_client : client :=
  (drive (λ _, false) (λ _, false) (λ _, None) 100 afterwards
     (onTransportError 1 "worker closed"%string retiring_client)).2.


Lemma single_writer_witness :
  wire retiring_client = [(1, 1); (1, 2)] ∧
  rotation (life retiring_client) = Some {| rf_outgoing := 1; rf_replacement := Some 2 |} ∧
  NoDup (wire retiring_client).*2.
Proof.
  split; [vm_compute; reflexivity|]. split; [vm_compute; reflexivity|].
  apply (single_writer (λ _, false) (λ _, false) (λ _, None) 100 0 (snd <$> take 5 demo_events)
           retiring_client).
  apply drive_run. vm_compute. reflexivity.
Defined.
