(* ===== verification/Json.v ===== *)
(** JSON: JavaScript values, [JSON.parse] and [JSON.stringify]

    The adapters read untyped upstream events, so what they do with a value of an
    unexpected shape is part of their behaviour. A [json] is a value [JSON.parse] can
    return; a [value] may also be [undefined]. Strings are the UTF-8 encodings of the
    code's strings and numbers the rationals that the literals denote, which is what the
    code sees up to the precision of a double. [parse] reads the whole JSON grammar;
    [stringify] prints a fraction without an exponent. *)

From Stdlib Require Export Ascii.
From Stdlib Require Import QArith_base.
From Stdlib Require Strings.String.
From S2P Require Import Prelude.
From S2P Require Import Rationals.
Open Scope Z_scope.

Inductive json : Type :=
  | JNull
  | JBool (b : bool)
  | JNum (q : Qc)
  | JStr (s : string)
  | JArr (l : list json)
  | JObj (m : list (string * json)).

Definition JInt (z : Z) : json := JNum (Qc_of_Z z).

Section json_ind.
Context (P : json → Prop) (Hnull : P JNull) (Hbool : ∀ b, P (JBool b)) (Hnum : ∀ q, P (JNum q))
  (Hstr : ∀ s, P (JStr s)) (Harr : ∀ l, Forall P l → P (JArr l))
  (Hobj : ∀ m, Forall (λ kv, P kv.2) m → P (JObj m)).

Fixpoint json_rect' (v : json) : P v :=
  match v with
  | JNull => Hnull
  | JBool b => Hbool b
  | JNum q => Hnum q
  | JStr s => Hstr s
  | JArr l => Harr l ((fix go (l : list json) : Forall P l :=
      match l with [] => Forall_nil_2 _ | v :: l => Forall_cons_2 _ _ _ (json_rect' v) (go l) end) l)
  | JObj m => Hobj m ((fix go (m : list (string * json)) : Forall (λ kv, P kv.2) m :=
      match m with
      | [] => Forall_nil_2 _
      | kv :: m => Forall_cons_2 _ _ _ (json_rect' kv.2) (go m)
      end) m)
  end.
End json_ind.

(** * Values *)

(** [None] is [undefined]. *)
Definition value : Type := option json.

(** An own property. The names the code reads are those of no built-in property. *)
Definition own (k : string) (v : json) : value :=
  match v with JObj m => alist_get k m | _ => None end.

(** [v?.k] *)
Definition opt_prop (v : value) (k : string) : value := v ≫= own k.

(** [v?.[0]] *)
Definition opt_first (v : value) : value :=
  match v with
  | Some (JArr (x :: _)) => Some x
  | Some (JStr (String c _)) => Some (JStr (String c EmptyString))
  | Some (JObj m) => alist_get "0"%string m
  | _ => None
  end.

(** [v.k] throws exactly on these. *)
Definition nullish (v : value) : bool :=
  match v with None | Some JNull => true | _ => false end.

Definition truthy (v : value) : bool :=
  match v with
  | None | Some JNull | Some (JBool false) | Some (JStr EmptyString) => false
  | Some (JNum q) => negb (bool_decide (q = 0%Qc))
  | _ => true
  end.

(** [a ?? b] *)
Definition coalesce (a b : value) : value := if nullish a then b else a.
(** [a || b] *)
Definition either (a b : value) : value := if truthy a then a else b.

Definition as_string (v : value) : option string :=
  match v with Some (JStr s) => Some s | _ => None end.
Definition as_number (v : value) : option Qc :=
  match v with Some (JNum q) => Some q | _ => None end.
Definition as_integer (q : Qc) : option Z :=
  if (Qden (this q) =? 1)%positive then Some (Qnum (this q)) else None.

Definition MAX_SAFE_INTEGER : Z := 9007199254740991.

(** [Number.isSafeInteger(v)] *)
Definition safe_integer (v : value) : option Z :=
  q ← as_number v; z ← as_integer q; if Z.abs z <=? MAX_SAFE_INTEGER then Some z else None.

(** * Printing *)

Abbreviation text := (list ascii).
Definition to_text (s : string) : text := Strings.String.list_ascii_of_string s.
Definition of_text (t : text) : string := Strings.String.string_of_list_ascii t.

Definition chr (n : nat) : ascii := ascii_of_nat n.
Definition code (c : ascii) : nat := nat_of_ascii c.
Definition QUOTE : ascii := chr 34.
Definition BACKSLASH : ascii := chr 92.

(** [s.length], in UTF-16 units: a byte that continues a character adds none, the lead of a
    character outside of the first plane two. *)
Fixpoint units (s : string) : Z :=
  match s with
  | EmptyString => 0
  | String c s =>
      (if (code c <? 128)%nat then 1 else if (code c <? 192)%nat then 0
       else if (code c <? 240)%nat then 1 else 2) + units s
  end.

Definition digit_char (d : Z) : ascii := chr (48 + Z.to_nat d).
Definition char_digit (c : ascii) : option Z :=
  if (48 <=? code c)%nat && (code c <=? 57)%nat then Some (Z.of_nat (code c) - 48) else None.

(** The decimal digits of [z], at least one; [n] bounds their number. *)
Fixpoint digits_go (n : nat) (z : Z) (acc : text) : text :=
  match n with
  | O => acc
  | S n =>
      let acc := digit_char (z mod 10) :: acc in
      if z <? 10 then acc else digits_go n (z / 10) acc
  end.
Definition digits (z : Z) : text := digits_go (S (Z.to_nat (Z.log2 z))) z [].

(** The least number of decimals that writes a denominator exactly, of the 400 a double
    can need at most *)
Fixpoint decimals (n : nat) (den scale : Z) : nat :=
  match n with
  | O => O
  | S n => if scale mod den =? 0 then O else S (decimals n den (scale * 10))
  end.

Definition pad (n : nat) (t : text) : text := replicate (n - length t) (digit_char 0) ++ t.

Definition print_number (q : Qc) : text :=
  let num := Qnum (this q) in
  let den := Zpos (Qden (this q)) in
  let k := decimals 400 den 1 in
  let m := Z.abs num * 10 ^ Z.of_nat k / den in
  (if num <? 0 then [chr 45] else [])
    ++ digits (m / 10 ^ Z.of_nat k)
    ++ match k with O => [] | _ => chr 46 :: pad k (digits (m mod 10 ^ Z.of_nat k)) end.

Definition hex_digit (d : nat) : ascii :=
  if (d <? 10)%nat then chr (48 + d) else chr (87 + d).

Definition print_char (c : ascii) : text :=
  let n := code c in
  if (n =? 34)%nat then [BACKSLASH; QUOTE]
  else if (n =? 92)%nat then [BACKSLASH; BACKSLASH]
  else if (n =? 8)%nat then [BACKSLASH; chr 98]
  else if (n =? 9)%nat then [BACKSLASH; chr 116]
  else if (n =? 10)%nat then [BACKSLASH; chr 110]
  else if (n =? 12)%nat then [BACKSLASH; chr 102]
  else if (n =? 13)%nat then [BACKSLASH; chr 114]
  else if (n <? 32)%nat then BACKSLASH :: map chr [117; 48; 48]%nat ++ [hex_digit (n / 16); hex_digit (n mod 16)]
  else [c].

Definition print_string (s : string) : text := QUOTE :: (to_text s ≫= print_char) ++ [QUOTE].

(** [parts.join(",")] *)
Fixpoint commas (l : list text) : text :=
  match l with
  | [] => []
  | [x] => x
  | x :: l => x ++ chr 44 :: commas l
  end.

(** [JSON.stringify(v)] *)
Fixpoint print (v : json) : text :=
  match v with
  | JNull => to_text "null"
  | JBool b => to_text (if b then "true" else "false")
  | JNum q => print_number q
  | JStr s => print_string s
  | JArr l => chr 91 :: commas (map print l) ++ [chr 93]
  | JObj m => chr 123 :: commas (map (λ kv, print_string kv.1 ++ chr 58 :: print kv.2) m) ++ [chr 125]
  end.
Definition stringify (v : json) : string := of_text (print v).

(** [String(v)], which string concatenation applies too *)
Fixpoint js_string (v : json) : string :=
  match v with
  | JNull => "null"
  | JBool b => if b then "true" else "false"
  | JNum q => of_text (print_number q)
  | JStr s => s
  | JArr l => of_text (commas (map (λ x, match x with JNull => [] | _ => to_text (js_string x) end) l))
  | JObj _ => "[object Object]"
  end.

(** * Parsing *)

Definition is_code (n : nat) (c : ascii) : bool := (code c =? n)%nat.
Definition is_ws (c : ascii) : bool := is_code 32 c || is_code 9 c || is_code 10 c || is_code 13 c.

Fixpoint skip_ws (t : text) : text :=
  match t with
  | c :: r => if is_ws c then skip_ws r else t
  | [] => []
  end.

Definition hex_value (c : ascii) : option nat :=
  let n := code c in
  if (48 <=? n)%nat && (n <=? 57)%nat then Some (n - 48)%nat
  else if (97 <=? n)%nat && (n <=? 102)%nat then Some (n - 87)%nat
  else if (65 <=? n)%nat && (n <=? 70)%nat then Some (n - 55)%nat
  else None.

Definition hex4 (a b c d : ascii) : option Z :=
  a ← hex_value a; b ← hex_value b; c ← hex_value c; d ← hex_value d;
  Some (Z.of_nat a * 4096 + Z.of_nat b * 256 + Z.of_nat c * 16 + Z.of_nat d).

Definition byte_char (z : Z) : ascii := chr (Z.to_nat z).

(** The UTF-8 encoding of a code point; a lone surrogate is replaced as an encoder does. *)
Definition utf8_point (u : Z) : text :=
  if u <? 128 then [byte_char u]
  else if u <? 2048 then [byte_char (192 + u / 64); byte_char (128 + u mod 64)]
  else if (55296 <=? u) && (u <=? 57343) then map byte_char [239; 191; 189]
  else if u <? 65536 then
    map byte_char [224 + u / 4096; 128 + u / 64 mod 64; 128 + u mod 64]
  else map byte_char [240 + u / 262144; 128 + u / 4096 mod 64; 128 + u / 64 mod 64; 128 + u mod 64].

Definition escape_char (c : ascii) : option ascii :=
  match code c with
  | 34%nat => Some QUOTE | 92%nat => Some BACKSLASH | 47%nat => Some (chr 47)
  | 98%nat => Some (chr 8) | 102%nat => Some (chr 12) | 110%nat => Some (chr 10)
  | 114%nat => Some (chr 13) | 116%nat => Some (chr 9)
  | _ => None
  end.

(** What an escape [\uXXXX] followed by [r] stands for: its value, and the value of the low
    surrogate after a high one *)
Definition low_surrogate (u : Z) (r : text) : option Z :=
  if (55296 <=? u) && (u <=? 56319) then
    match r with
    | b :: e :: a1 :: a2 :: a3 :: a4 :: _ =>
        if is_code 92 b && is_code 117 e
        then l ← hex4 a1 a2 a3 a4; if (56320 <=? l) && (l <=? 57343) then Some l else None
        else None
    | _ => None
    end
  else None.

Definition prepend (x : text) (o : option (text * text)) : option (text * text) :=
  '(s, r) ← o; Some (x ++ s, r).

(** A string after its opening quote: its contents and what follows its closing quote *)
Fixpoint parse_chars (t : text) : option (text * text) :=
  match t with
  | [] => None
  | c :: r =>
      if is_code 34 c then Some ([], r)
      else if (code c <? 32)%nat then None
      else if is_code 92 c then
        match r with
        | [] => None
        | e :: r =>
            if is_code 117 e then
              match r with
              | a1 :: a2 :: a3 :: a4 :: r =>
                  u ← hex4 a1 a2 a3 a4;
                  match low_surrogate u r, r with
                  | Some l, _ :: _ :: _ :: _ :: _ :: _ :: r =>
                      prepend (utf8_point (65536 + (u - 55296) * 1024 + (l - 56320))) (parse_chars r)
                  | _, _ => prepend (utf8_point u) (parse_chars r)
                  end
              | _ => None
              end
            else x ← escape_char e; prepend [x] (parse_chars r)
        end
      else prepend [c] (parse_chars r)
  end.

Fixpoint span_digits (t : text) : list Z * text :=
  match t with
  | c :: r =>
      match char_digit c with
      | Some d => let '(ds, r) := span_digits r in (d :: ds, r)
      | None => ([], t)
      end
  | [] => ([], [])
  end.

Definition digits_value (ds : list Z) : Z := foldl (λ a d, 10 * a + d) 0 ds.

(** The fraction's digits *)
Definition parse_fraction (t : text) : option (list Z * text) :=
  match t with
  | c :: r =>
      if is_code 46 c
      then match span_digits r with ([], _) => None | p => Some p end
      else Some ([], t)
  | [] => Some ([], [])
  end.

Definition parse_exponent (t : text) : option (Z * text) :=
  match t with
  | c :: r =>
      if is_code 101 c || is_code 69 c then
        let '(sign, r) := match r with
                          | s :: r' => if is_code 43 s then (1, r')
                                       else if is_code 45 s then (-1, r') else (1, r)
                          | [] => (1, [])
                          end in
        match span_digits r with ([], _) => None | (ds, r) => Some (sign * digits_value ds, r) end
      else Some (0, t)
  | [] => Some (0, [])
  end.

(** [m] times ten to the [e] *)
Definition decimal (m e : Z) : Qc :=
  if 0 <=? e then Qc_of_Z (m * 10 ^ e) else Q2Qc (m # Z.to_pos (10 ^ (- e))).

Definition parse_number (t : text) : option (Qc * text) :=
  let '(sign, t) := match t with
                    | c :: r => if is_code 45 c then (-1, r) else (1, t)
                    | [] => (1, [])
                    end in
  let '(int, t) := span_digits t in
  match int with
  | [] | 0 :: _ :: _ => None
  | _ =>
      '(frac, t) ← parse_fraction t;
      '(e, t) ← parse_exponent t;
      Some (decimal (sign * digits_value (int ++ frac)) (e - Z.of_nat (length frac)), t)
  end.

Fixpoint strip (p t : text) : option text :=
  match p, t with
  | [], _ => Some t
  | a :: p, b :: t => if decide (a = b) then strip p t else None
  | _ :: _, [] => None
  end.

Definition parse_literal (t : text) : option (json * text) :=
  match strip (to_text "null") t with
  | Some r => Some (JNull, r)
  | None =>
      match strip (to_text "true") t with
      | Some r => Some (JBool true, r)
      | None => r ← strip (to_text "false") t; Some (JBool false, r)
      end
  end.

(** The first character after white space *)
Definition next_char (t : text) : option (ascii * text) :=
  match skip_ws t with c :: r => Some (c, r) | [] => None end.

(** Each call consumes a character before it calls, so a text's length bounds [n]. *)
Fixpoint parse_value (n : nat) (t : text) : option (json * text) :=
  match n with
  | O => None
  | S n =>
      '(c, r) ← next_char t;
      if is_code 123 c then
        match next_char r with
        | Some (c', r') => if is_code 125 c' then Some (JObj [], r') else
            '(m, r) ← parse_members n [] r; Some (JObj m, r)
        | None => None
        end
      else if is_code 91 c then
        match next_char r with
        | Some (c', r') => if is_code 93 c' then Some (JArr [], r') else
            '(l, r) ← parse_elements n r; Some (JArr l, r)
        | None => None
        end
      else if is_code 34 c then '(s, r) ← parse_chars r; Some (JStr (of_text s), r)
      else if is_code 45 c || bool_decide (is_Some (char_digit c))
      then '(q, r) ← parse_number (c :: r); Some (JNum q, r)
      else parse_literal (c :: r)
  end
with parse_members (n : nat) (acc : list (string * json)) (t : text)
    : option (list (string * json) * text) :=
  match n with
  | O => None
  | S n =>
      '(c, r) ← next_char t;
      if is_code 34 c then
        '(k, r) ← parse_chars r;
        '(c, r) ← next_char r;
        if is_code 58 c then
          '(v, r) ← parse_value n r;
          let acc := alist_set (of_text k) v acc in
          '(c, r) ← next_char r;
          if is_code 44 c then parse_members n acc r
          else if is_code 125 c then Some (acc, r) else None
        else None
      else None
  end
with parse_elements (n : nat) (t : text) : option (list json * text) :=
  match n with
  | O => None
  | S n =>
      '(v, r) ← parse_value n t;
      '(c, r) ← next_char r;
      if is_code 44 c then '(l, r) ← parse_elements n r; Some (v :: l, r)
      else if is_code 93 c then Some ([v], r) else None
  end.

(** [JSON.parse(t)]; [None] is its [SyntaxError]. *)
Definition parse (t : text) : option json :=
  '(v, r) ← parse_value (S (length t)) t;
  match skip_ws r with [] => Some v | _ => None end.

Definition parse_string (s : string) : option json := parse (to_text s).

Example parse_sample :
  parse (map chr [32; 123; 34; 97; 92; 117; 48; 48; 101; 57; 34; 58; 91; 45; 49; 46; 53; 101; 50; 44; 116; 114; 117; 101; 93; 125]%nat) = Some (JObj [(of_text (map chr [97; 195; 169]%nat), JArr [JNum (Qc_of_Z (-150)); JBool true])]).
Proof. vm_compute. repeat f_equal. Qed.

(** * What is printed is read back *)

Lemma code_chr n : (n < 256)%nat → code (chr n) = n.
Proof. apply nat_ascii_embedding. Qed.

Lemma char_digit_char d : 0 ≤ d < 10 → char_digit (digit_char d) = Some d.
Proof.
  intros Hd. unfold char_digit, digit_char. rewrite code_chr by lia.
  rewrite (proj2 (Nat.leb_le 48 (48 + Z.to_nat d))) by lia.
  rewrite (proj2 (Nat.leb_le (48 + Z.to_nat d) 57)) by lia. cbn [andb]. f_equal. lia.
Qed.

Lemma digits_value_snoc ds d : digits_value (ds ++ [d]) = 10 * digits_value ds + d.
Proof. unfold digits_value. by rewrite foldl_app. Qed.

(** The digits of a number: canonical, and of that value *)
Definition digits_of (z : Z) (ds : list Z) : Prop :=
  Forall (λ d, 0 ≤ d < 10) ds ∧ digits_value ds = z ∧ ds ≠ [] ∧ (head ds = Some 0 → ds = [0]).

Lemma digits_go_spec n z acc :
  0 ≤ z < 10 ^ Z.of_nat n → n ≠ O →
  ∃ ds, digits_go n z acc = map digit_char ds ++ acc ∧ digits_of z ds.
Proof.
  revert z acc. induction n as [|n IH]; intros z acc Hz Hn; [done|]. cbn [digits_go].
  pose proof (Z.mod_pos_bound z 10 ltac:(lia)) as Hm.
  pose proof (Z.div_mod z 10 ltac:(lia)) as Hdm.
  destruct (Z.ltb_spec z 10) as [Hlt|Hge].
  - exists [z mod 10]. rewrite Z.mod_small by lia. split; [done|]. split_and!; try done.
    + apply Forall_singleton. lia.
    + cbn. by intros [= ->].
  - assert (1 ≤ z / 10 < 10 ^ Z.of_nat n) as Hq.
    { rewrite Nat2Z.inj_succ, Z.pow_succ_r in Hz by lia. split.
      - apply Z.div_le_lower_bound; lia.
      - apply Z.div_lt_upper_bound; lia. }
    destruct n as [|n]; [cbn in Hq; lia|].
    destruct (IH (z / 10) (digit_char (z mod 10) :: acc)) as (ds & -> & Hall & Hv & Hne & Hhd); [lia|done|].
    exists (ds ++ [z mod 10]). rewrite map_app, <-app_assoc. split; [done|]. split_and!.
    + apply Forall_app. split; [done|]. by apply Forall_singleton.
    + rewrite digits_value_snoc. lia.
    + by destruct ds.
    + destruct ds as [|d ds]; [done|]. cbn. intros [= ->]. specialize (Hhd eq_refl).
      simplify_eq. cbn in Hv. lia.
Qed.

Lemma digits_spec z : 0 ≤ z → ∃ ds, digits z = map digit_char ds ∧ digits_of z ds.
Proof.
  intros Hz. unfold digits. destruct (digits_go_spec (S (Z.to_nat (Z.log2 z))) z []) as (ds & -> & H).
  - split; [done|]. rewrite Nat2Z.inj_succ, Z2Nat.id by apply Z.log2_nonneg.
    destruct (Z.eq_dec z 0) as [->|]; [by vm_compute|].
    eapply Z.lt_le_trans; [apply Z.log2_spec; lia|].
    apply Z.pow_le_mono_l. lia.
  - done.
  - exists ds. by rewrite app_nil_r.
Qed.

(** What follows a number does not extend it. *)
Definition stops (t : text) : Prop :=
  match t with
  | [] => True
  | c :: _ => char_digit c = None ∧ is_code 46 c = false ∧ is_code 101 c = false ∧ is_code 69 c = false
  end.

Lemma span_digits_app ds t :
  Forall (λ d, 0 ≤ d < 10) ds → stops t → span_digits (map digit_char ds ++ t) = (ds, t).
Proof.
  intros Hds Ht. induction Hds as [|d ds Hd Hds IH]; cbn.
  - destruct t as [|c t]; [done|]. cbn. by destruct Ht as [-> _].
  - by rewrite char_digit_char, IH.
Qed.

Lemma Qc_of_Z_parts z : Qnum (this (Qc_of_Z z)) = z ∧ Qden (this (Qc_of_Z z)) = 1%positive.
Proof. done. Qed.

Lemma print_integer z :
  print_number (Qc_of_Z z) = (if z <? 0 then [chr 45] else []) ++ digits (Z.abs z).
Proof.
  unfold print_number. destruct (Qc_of_Z_parts z) as [-> ->]. cbn [decimals].
  rewrite Z.mod_same by done. cbn [Z.eqb Z.of_nat]. change (10 ^ 0) with 1.
  by rewrite Z.mul_1_r, !Z.div_1_r, app_nil_r.
Qed.

Lemma parse_digits sign ds t z :
  digits_of z ds → stops t →
  (let '(int, t) := span_digits (map digit_char ds ++ t) in
   match int with
   | [] | 0 :: _ :: _ => None
   | _ =>
       '(frac, t) ← parse_fraction t;
       '(e, t) ← parse_exponent t;
       Some (decimal (sign * digits_value (int ++ frac)) (e - Z.of_nat (length frac)), t)
   end) = Some (Qc_of_Z (sign * z), t).
Proof.
  intros (Hds & Hv & Hne & Hhd) Ht. rewrite span_digits_app by done.
  assert (parse_fraction t = Some ([], t)) as Hf.
  { destruct t as [|c t]; [done|]. cbn. by destruct Ht as (_ & -> & _). }
  assert (parse_exponent t = Some (0, t)) as He.
  { destruct t as [|c t]; [done|]. cbn. by destruct Ht as (_ & _ & -> & ->). }
  assert (('(frac, t) ← parse_fraction t;
       '(e, t) ← parse_exponent t;
       Some (decimal (sign * digits_value (ds ++ frac)) (e - Z.of_nat (length frac)), t))
       = Some (Qc_of_Z (sign * z), t)) as H.
  { rewrite Hf. cbn. rewrite He. cbn. rewrite app_nil_r, Hv. unfold decimal. cbn.
    by rewrite Z.mul_1_r. }
  destruct ds as [|d [|d' ds]]; [done|by destruct d|].
  destruct d; [by specialize (Hhd eq_refl)|done..].
Qed.

Lemma parse_print_integer z t :
  stops t → parse_number (print_number (Qc_of_Z z) ++ t) = Some (Qc_of_Z z, t).
Proof.
  intros Ht. rewrite print_integer. destruct (digits_spec (Z.abs z)) as (ds & -> & Hds); [lia|].
  pose proof Hds as (Hall & Hv & Hne & _).
  destruct (Z.ltb_spec z 0) as [Hz|Hz]; unfold parse_number; cbn [app].
  - change (is_code 45 (chr 45)) with true. cbn [fst snd].
    rewrite (parse_digits (-1) ds t (Z.abs z)) by done. do 3 f_equal. lia.
  - destruct ds as [|d ds]; [done|]. cbn [map app].
    assert (is_code 45 (digit_char d) = false) as ->.
    { apply Forall_cons in Hall as [Hd _]. unfold is_code, digit_char. rewrite code_chr by lia.
      apply Nat.eqb_neq. lia. }
    change (digit_char d :: map digit_char ds ++ t) with (map digit_char (d :: ds) ++ t).
    rewrite (parse_digits 1 (d :: ds) t (Z.abs z)) by done. do 3 f_equal. lia.
Qed.

Lemma parse_print_char c t : parse_chars (print_char c ++ t) = prepend [c] (parse_chars t).
Proof. destruct c as [[] [] [] [] [] [] [] []]; reflexivity. Qed.

Lemma parse_print_chars s t : parse_chars ((s ≫= print_char) ++ QUOTE :: t) = Some (s, t).
Proof.
  induction s as [|c s IH]; [done|]. rewrite bind_cons, <-app_assoc, parse_print_char, IH. done.
Qed.

(** Values the code prints: counts are integers, and an object has each key once. *)
Fixpoint plain (v : json) : bool :=
  match v with
  | JNum q => bool_decide (Qden (this q) = 1%positive)
  | JArr l => forallb plain l
  | JObj m => bool_decide (NoDup m.*1) && forallb (λ '(_, v), plain v) m
  | _ => true
  end.

Lemma integer_Qc q : Qden (this q) = 1%positive → q = Qc_of_Z (Qnum (this q)).
Proof. intros H. apply Qc_is_canon. destruct q as [[a b] Hq]. cbn in *. by subst. Qed.

Lemma next_char_cons c t : is_ws c = false → next_char (c :: t) = Some (c, t).
Proof. intros H. unfold next_char. cbn. by rewrite H. Qed.

Lemma stops_comma t : stops (chr 44 :: t). Proof. done. Qed.
Lemma stops_bracket t : stops (chr 93 :: t). Proof. done. Qed.
Lemma stops_brace t : stops (chr 125 :: t). Proof. done. Qed.
#[local] Hint Resolve stops_comma stops_bracket stops_brace : core.

Lemma print_integer_head z :
  ∃ c r, print_number (Qc_of_Z z) = c :: r ∧ is_ws c = false ∧ is_code 123 c = false ∧
    is_code 91 c = false ∧ is_code 34 c = false ∧ is_code 93 c = false ∧
    is_code 45 c || bool_decide (is_Some (char_digit c)) = true.
Proof.
  rewrite print_integer. destruct (digits_spec (Z.abs z)) as (ds & -> & Hds); [lia|].
  destruct Hds as (Hall & _ & Hne & _). destruct (z <? 0); [cbn; eauto 12|].
  destruct ds as [|d ds]; [done|]. apply Forall_cons in Hall as [Hd _].
  exists (digit_char d), (map digit_char ds). split; [done|].
  rewrite char_digit_char by done. unfold is_ws, is_code, digit_char. rewrite code_chr by lia.
  repeat rewrite (proj2 (Nat.eqb_neq _ _)) by lia. done.
Qed.

Lemma parse_value_number n z t :
  stops t → parse_value (S n) (print_number (Qc_of_Z z) ++ t) = Some (JInt z, t).
Proof.
  intros Ht. cbn [parse_value].
  destruct (print_integer_head z) as (c & r & E & Hw & H1 & H2 & H3 & _ & H4).
  assert (print_number (Qc_of_Z z) ++ t = c :: r ++ t) as -> by (by rewrite E).
  rewrite next_char_cons by done. cbn [mbind option_bind]. rewrite H1, H2, H3, H4.
  change (c :: r ++ t) with ((c :: r) ++ t). rewrite <-E, parse_print_integer by done. done.
Qed.

Lemma parse_value_string n s t : parse_value (S n) (print_string s ++ t) = Some (JStr s, t).
Proof.
  unfold print_string. cbn [parse_value app]. rewrite next_char_cons by done. cbn.
  rewrite <-app_assoc. cbn [app]. rewrite parse_print_chars. cbn. do 3 f_equal.
  apply Strings.String.string_of_list_ascii_of_string.
Qed.

Lemma print_string_length s : (2 ≤ length (print_string s))%nat.
Proof. unfold print_string. cbn. rewrite length_app. cbn. lia. Qed.

Definition reads (v : json) : Prop :=
  ∀ n t, (length (print v) < n)%nat → stops t → parse_value n (print v ++ t) = Some (v, t).

Lemma commas_cons x l : commas (x :: l) = x ++ match l with [] => [] | _ => chr 44 :: commas l end.
Proof. destruct l; cbn; [by rewrite app_nil_r|done]. Qed.

Lemma parse_elements_print l n t :
  Forall reads l → l ≠ [] → (length (commas (map print l)) + 1 < n)%nat →
  parse_elements n (commas (map print l) ++ chr 93 :: t) = Some (l, t).
Proof.
  intros Hl. revert n. induction Hl as [|v l Hv Hl IH]; intros n Hne Hn; [done|].
  destruct n as [|n]; [lia|]. cbn [map] in *. rewrite commas_cons in *.
  cbn [parse_elements]. rewrite <-app_assoc. destruct l as [|w l].
  - cbn [map app] in *. rewrite Hv; [|rewrite app_nil_r in Hn; lia|done].
    cbn. rewrite next_char_cons by done. done.
  - cbn [map app] in *. rewrite length_app in Hn. cbn in Hn.
    rewrite Hv; [|cbn in *; lia|done].
    cbn [mbind option_bind]. rewrite next_char_cons by done. cbn [mbind option_bind].
    change (is_code 44 (chr 44)) with true. cbv iota.
    rewrite IH; [done|done|cbn; lia].
Qed.

Definition print_member (kv : string * json) : text := print_string kv.1 ++ chr 58 :: print kv.2.

Lemma alist_set_fresh {K V} `{!EqDecision K} (k : K) (v : V) l : k ∉ l.*1 → alist_set k v l = l ++ [(k, v)].
Proof.
  induction l as [|[k' v'] l IH]; [done|]. intros Hk%not_elem_of_cons. cbn in *.
  destruct Hk as [Hne Hk]. rewrite decide_False by done. by rewrite IH.
Qed.

Lemma parse_members_print m n acc t :
  Forall (λ kv, reads kv.2) m → m ≠ [] → NoDup (acc.*1 ++ m.*1) →
  (length (commas (map print_member m)) + 1 < n)%nat →
  parse_members n acc (commas (map print_member m) ++ chr 125 :: t) = Some (acc ++ m, t).
Proof.
  intros Hm. revert n acc. induction Hm as [|[k v] m Hv Hm IH]; intros n acc Hne Hnd Hn; [done|].
  destruct n as [|n]; [lia|]. cbn [map] in *. rewrite commas_cons in *.
  change (print_member (k, v)) with (print_string k ++ chr 58 :: print v) in *.
  cbn [fst snd] in *. pose proof (print_string_length k) as Hk.
  rewrite !length_app in Hn. cbn [length] in Hn.
  cbn [parse_members]. rewrite <-!app_assoc. unfold print_string at 1. cbn [app].
  rewrite next_char_cons by done. cbn [mbind option_bind]. change (is_code 34 QUOTE) with true. cbv iota.
  rewrite <-!app_assoc. cbn [app]. rewrite parse_print_chars. cbn [mbind option_bind].
  rewrite next_char_cons by done. cbn [mbind option_bind]. change (is_code 58 (chr 58)) with true. cbv iota.
  assert (of_text (to_text k) = k) as -> by apply Strings.String.string_of_list_ascii_of_string.
  assert (k ∉ acc.*1) as Hfresh.
  { apply NoDup_app in Hnd as (_ & Hd & _). intros Hin. apply (Hd k Hin). by left. }
  destruct m as [|w m].
  - cbn [map app] in *. rewrite Hv; [|lia|done].
    cbn [mbind option_bind]. rewrite alist_set_fresh, next_char_cons by done. done.
  - cbn [map app] in *. cbn [length] in Hn. rewrite Hv; [|cbn in *; lia|done].
    cbn [mbind option_bind]. rewrite alist_set_fresh by done. rewrite next_char_cons by done. cbn [mbind option_bind].
    change (is_code 44 (chr 44)) with true. cbv iota.
    rewrite IH; [by rewrite <-app_assoc|done| |cbn [map length] in *; lia].
    rewrite fmap_app, <-app_assoc. done.
Qed.

Lemma print_head v :
  plain v = true → ∃ c r, print v = c :: r ∧ is_ws c = false ∧ is_code 93 c = false.
Proof.
  destruct v as [|b|q|s|l|m]; intros Hp; cbn [print]; try by repeat eexists.
  - destruct b; by repeat eexists.
  - apply bool_decide_eq_true in Hp. rewrite (integer_Qc q Hp).
    destruct (print_integer_head (Qnum (this q))) as (c & r & -> & Hw & _ & _ & _ & Hc & _). eauto.
Qed.

Lemma reads_array l : Forall reads l → forallb plain l = true → reads (JArr l).
Proof.
  intros Hl Hp n t Hn Ht. cbn [print] in *. cbn [length app] in *.
  destruct n as [|n]; [lia|]. rewrite length_app in Hn. cbn in Hn.
  cbn [parse_value]. rewrite next_char_cons by done. cbn [mbind option_bind].
  change (is_code 123 (chr 91)) with false. change (is_code 91 (chr 91)) with true. cbv iota.
  rewrite <-app_assoc. cbn [app]. destruct l as [|v l]; [cbn [map commas app]; by rewrite next_char_cons|].
  cbn [forallb] in Hp. apply andb_true_iff in Hp as [Hv _].
  destruct (print_head v Hv) as (c & r & E & Hw & Hc).
  assert (∃ r', commas (map print (v :: l)) ++ chr 93 :: t = c :: r') as (r' & E').
  { cbn [map]. rewrite commas_cons, E. cbn. eauto. }
  rewrite E', next_char_cons by done. cbn [mbind option_bind]. rewrite Hc, <-E'.
  rewrite parse_elements_print; [done|done|done|lia].
Qed.

Lemma reads_object m : Forall (λ kv, reads kv.2) m → NoDup m.*1 → reads (JObj m).
Proof.
  intros Hm Hnd n t Hn Ht. cbn [print] in *.
  change (λ kv, print_string kv.1 ++ chr 58 :: print kv.2) with print_member in *.
  cbn [length app] in *.
  destruct n as [|n]; [lia|]. rewrite length_app in Hn. cbn in Hn.
  cbn [parse_value]. rewrite next_char_cons by done. cbn [mbind option_bind].
  change (is_code 123 (chr 123)) with true. cbv iota.
  rewrite <-app_assoc. cbn [app]. destruct m as [|kv m]; [cbn [map commas app]; by rewrite next_char_cons|].
  assert (∃ r', commas (map print_member (kv :: m)) ++ chr 125 :: t = QUOTE :: r') as (r' & E').
  { cbn [map]. rewrite commas_cons. cbn. eauto. }
  rewrite E', next_char_cons by done. cbn [mbind option_bind].
  change (is_code 125 QUOTE) with false. cbv iota. rewrite <-E'.
  rewrite parse_members_print; [done|done|done|done|lia].
Qed.

Lemma reads_plain v : plain v = true → reads v.
Proof.
  induction v as [|b|q|s|l IH|m IH] using json_rect'; intros Hp; cbn [plain] in Hp.
  - intros [|n] t Hn Ht; [lia|done].
  - intros [|n] t Hn Ht; [lia|]. by destruct b.
  - intros [|n] t Hn Ht; [lia|]. apply bool_decide_eq_true in Hp. rewrite (integer_Qc q Hp).
    cbn [print]. by apply parse_value_number.
  - intros [|n] t Hn Ht; [lia|]. apply parse_value_string.
  - apply reads_array; [|done]. rewrite forallb_forall in Hp. rewrite Forall_forall in IH |- *.
    intros v Hv. apply IH; [done|]. apply Hp. by apply list_elem_of_In.
  - apply andb_true_iff in Hp as [Hnd%bool_decide_eq_true Hp]. apply reads_object; [|done].
    rewrite forallb_forall in Hp. rewrite Forall_forall in IH |- *. intros [k v] Hv.
    apply IH; [done|]. apply (Hp (k, v)). by apply list_elem_of_In.
Qed.

(** Parsing what was printed gives the value back. *)
Theorem parse_print v : plain v = true → parse (print v) = Some v.
Proof.
  intros Hv. unfold parse. rewrite <-(app_nil_r (print v)) at 2.
  rewrite (reads_plain v Hv) by (done || lia). done.
Qed.

(** What is printed has no control character: it fits on a line. *)
Definition one_line (t : text) : Prop := Forall (λ c, (32 <= code c)%nat) t.

Lemma one_line_app t u : one_line (t ++ u) ↔ one_line t ∧ one_line u.
Proof. apply Forall_app. Qed.

Lemma one_line_digits_go n z acc : one_line acc → one_line (digits_go n z acc).
Proof.
  revert z acc. induction n as [|n IH]; intros z acc Hacc; cbn; [done|].
  assert (one_line (digit_char (z mod 10) :: acc)) as Hacc'.
  { apply Forall_cons. split; [|done]. pose proof (Z.mod_pos_bound z 10 ltac:(lia)).
    unfold digit_char. rewrite code_chr by lia. lia. }
  destruct (z <? 10); auto.
Qed.

Lemma one_line_digits z : one_line (digits z).
Proof. by apply one_line_digits_go, Forall_nil. Qed.
#[local] Hint Resolve one_line_digits : core.

Lemma one_line_number q : one_line (print_number q).
Proof.
  unfold print_number. rewrite !one_line_app. split_and!; [|done|].
  - destruct (_ <? 0); [|by constructor]. apply Forall_singleton. by apply Nat.leb_le.
  - destruct (decimals _ _ _); [by constructor|]. apply Forall_cons. split; [by apply Nat.leb_le|].
    apply Forall_app. split; [|apply one_line_digits]. apply Forall_replicate. by apply Nat.leb_le.
Qed.

Lemma one_line_string s : one_line (print_string s).
Proof.
  unfold print_string. apply Forall_cons. split; [by apply Nat.leb_le|].
  apply one_line_app. split; [|apply Forall_singleton; by apply Nat.leb_le].
  apply Forall_bind. apply Forall_true. intros c. unfold one_line. apply Forall_forall. intros x Hx.
  assert (forallb (λ c, 32 <=? code c)%nat (print_char c) = true) as H
    by (destruct c as [[] [] [] [] [] [] [] []]; reflexivity).
  rewrite forallb_forall in H. apply Nat.leb_le, H. by apply list_elem_of_In.
Qed.

Lemma one_line_commas l : Forall one_line l → one_line (commas l).
Proof.
  induction 1 as [|x l Hx Hl IH]; [by constructor|]. rewrite commas_cons, one_line_app. split; [done|].
  destruct l; [by constructor|]. apply Forall_cons. split; [by apply Nat.leb_le|done].
Qed.

Lemma one_line_print v : one_line (print v).
Proof.
  induction v as [|b|q|s|l IH|m IH] using json_rect'; cbn [print];
    [repeat constructor; by apply Nat.leb_le|destruct b; repeat constructor; by apply Nat.leb_le
    |apply one_line_number|apply one_line_string| |];
    (apply Forall_cons; split; [by apply Nat.leb_le|]; apply one_line_app;
     split; [apply one_line_commas|apply Forall_singleton; by apply Nat.leb_le]).
  - by apply Forall_fmap.
  - apply Forall_fmap. eapply Forall_impl; [exact IH|]. intros [k v] Hv.
    apply Forall_app. split; [apply one_line_string|]. apply Forall_cons. split; [by apply Nat.leb_le|done].
Qed.

Lemma of_text_app t u : of_text (t ++ u) = of_text t +:+ of_text u.
Proof. induction t as [|c t IH]; [done|]. unfold of_text in *. cbn. by rewrite IH. Qed.

Lemma string_app_nil_r s : s +:+ "" = s.
Proof. induction s as [|c s IH]; [done|]. change (String c (s +:+ "") = String c s). by rewrite IH. Qed.

Lemma parse_stringify d : plain d = true → parse_string (stringify d) = Some d.
Proof.
  intros Hp. unfold parse_string, stringify, to_text, of_text.
  rewrite Strings.String.list_ascii_of_string_of_list_ascii. by apply parse_print.
Qed.
