(* ===== verification/Programs.v ===== *)
(** Programs that mutate a state and may throw

    A handler of the code mutates objects in place and may throw in the middle, leaving
    what it did so far behind. Such code is written in the monad below: the state survives
    an exception, and [attempt] is a [try] whose [catch] does nothing. *)

From S2P Require Import Prelude.

Definition prog (S A : Type) : Type := S → option A * S.

#[export] Instance prog_ret {S} : MRet (prog S) := λ A x s, (Some x, s).
#[export] Instance prog_bind {S} : MBind (prog S) := λ A B f m s,
  match m s with
  | (Some x, s') => f x s'
  | (None, s') => (None, s')
  end.

Definition throw {S A} : prog S A := λ s, (None, s).
Definition gets {S A} (f : S → A) : prog S A := λ s, (Some (f s), s).
Definition modify {S} (f : S → S) : prog S unit := λ s, (Some tt, f s).
Definition when {S} (b : bool) (p : prog S unit) : prog S unit := if b then p else mret tt.
Definition attempt {S} (p : prog S unit) : prog S unit := λ s, (Some tt, (p s).2).
(** A value that the code reads where its absence throws *)
Definition require {S A} (x : option A) : prog S A := match x with Some x => mret x | None => throw end.

Fixpoint for_each {S A} (l : list A) (f : A → prog S unit) : prog S unit :=
  match l with
  | [] => mret tt
  | x :: l => f x;; for_each l f
  end.

Definition final {S A} (p : prog S A) (s : S) : S := (p s).2.

(** * What a program keeps

    [relates R p]: the states before and after [p] are related, whether it throws or not. *)

Section keeps.
Context {S : Type} (R : relation S) `{!Reflexive R, !Transitive R}.

Definition relates {A} (p : prog S A) : Prop := ∀ s, R s (final p s).

Lemma relates_ret {A} (x : A) : relates (mret x).
Proof. intros s. reflexivity. Qed.
Lemma relates_throw {A} : relates (@throw S A).
Proof. intros s. reflexivity. Qed.
Lemma relates_gets {A} (f : S → A) : relates (gets f).
Proof. intros s. reflexivity. Qed.
Lemma relates_bind {A B} (p : prog S A) (f : A → prog S B) :
  relates p → (∀ x, relates (f x)) → relates (p ≫= f).
Proof.
  intros Hp Hf s. unfold final, mbind, prog_bind. specialize (Hp s). unfold final in Hp.
  destruct (p s) as [[x|] s']; [|done]. cbn in Hp. etrans; [exact Hp|]. apply Hf.
Qed.
Lemma relates_modify f : (∀ s, R s (f s)) → relates (modify f).
Proof. intros Hf s. apply Hf. Qed.
Lemma relates_when b p : relates p → relates (when b p).
Proof. destruct b; [done|]. intros _. apply relates_ret. Qed.
Lemma relates_attempt p : relates p → relates (attempt p).
Proof. intros Hp s. apply Hp. Qed.
Lemma relates_require {A} (x : option A) : relates (require x).
Proof. destruct x; [apply relates_ret|apply relates_throw]. Qed.
Lemma relates_for_each {A} (l : list A) f : (∀ x, relates (f x)) → relates (for_each l f).
Proof.
  intros Hf. induction l; cbn; [apply relates_ret|]. by apply relates_bind.
Qed.
End keeps.

(** An invariant is kept by a program that relates states by implication. *)
Definition keeps {S A} (P : S → Prop) (p : prog S A) : Prop := ∀ s, P s → P (final p s).

Section invariants.
Context {S : Type} (P : S → Prop).

Lemma keeps_ret {A} (x : A) : keeps P (mret x : prog S A).
Proof. intros s Hs. exact Hs. Qed.
Lemma keeps_throw {A} : keeps P (@throw S A).
Proof. intros s Hs. exact Hs. Qed.
Lemma keeps_gets {A} (f : S → A) : keeps P (gets f).
Proof. intros s Hs. exact Hs. Qed.
Lemma keeps_bind {A B} (p : prog S A) (f : A → prog S B) :
  keeps P p → (∀ x, keeps P (f x)) → keeps P (p ≫= f).
Proof.
  intros Hp Hf s Hs. unfold final, mbind, prog_bind. specialize (Hp s Hs). unfold final in Hp.
  destruct (p s) as [[x|] s']; [|done]. by apply Hf.
Qed.
Lemma keeps_modify f : (∀ s, P s → P (f s)) → keeps P (modify f).
Proof. intros Hf s. apply Hf. Qed.
Lemma keeps_when b p : keeps P p → keeps P (when b p).
Proof. intros Hp. destruct b; [done|]. apply keeps_ret. Qed.
Lemma keeps_attempt p : keeps P p → keeps P (attempt p).
Proof. intros Hp s. apply Hp. Qed.
Lemma keeps_require {A} (x : option A) : keeps P (require x).
Proof. destruct x; [apply keeps_ret|apply keeps_throw]. Qed.
Lemma keeps_for_each {A} (l : list A) f : (∀ x, keeps P (f x)) → keeps P (for_each l f).
Proof. intros Hf. induction l; cbn; [apply keeps_ret|]. by apply keeps_bind. Qed.
End invariants.

Create HintDb programs.
#[export] Hint Resolve relates_ret relates_throw relates_gets relates_bind relates_when
  relates_attempt relates_require relates_for_each : programs.
#[export] Hint Resolve keeps_ret keeps_throw keeps_gets keeps_bind keeps_when
  keeps_attempt keeps_require keeps_for_each : programs.

(** A program that reads its state branches on what it reads. *)
Lemma keeps_get {S A} (P : S → Prop) (f : S → prog S A) :
  (∀ s, P s → P (final (f s) s)) → keeps P (gets id ≫= f).
Proof. intros Hf s Hs. by apply Hf. Qed.

(** * Running one program after another *)

Lemma final_bind {S A B} (p : prog S A) (f : A → prog S B) s x :
  (p s).1 = Some x → final (p ≫= f) s = final (f x) (final p s).
Proof. unfold final, mbind, prog_bind. destruct (p s) as [[y|] s']; cbn; intros; by simplify_eq. Qed.
