(* ===== verification/Messages.v ===== *)
(** The Messages event stream, as a protocol

    The provider adapters produce Anthropic Messages events and the client adapters consume
    them; nothing else passes between the two. This file states that contract: what an event
    says ([view]), which sequences of events are a message ([p_step]), and what message a
    sequence is ([p_blocks]). The producers are proved to keep to it and the consumers to
    work on it. Events of other types are outside of it. *)

From S2P Require Import Prelude.
From S2P Require Import Rationals.
From S2P Require Import Json.
Open Scope Z_scope.

(** A server-sent event: its name and its data *)
Definition frame : Type := string * json.

Definition LF : ascii := chr 10.
Definition CR : ascii := chr 13.

(** [event: <name>\ndata: <JSON>\n\n] *)
Definition render (f : frame) : text :=
  to_text "event: " ++ to_text f.1 ++ LF :: to_text "data: " ++ print f.2 ++ [LF; LF].

(** * Events *)

Inductive block : Type :=
  | TextBlock
  | ThinkingBlock
  | ToolBlock (id name : string).

Inductive delta_kind : Type := TextDelta | ThinkingDelta | InputJsonDelta.

Inductive mevent : Type :=
  | MMessageStart (model : value)
  | MPing
  | MBlockStart (i : Z) (b : block)
  | MBlockDelta (i : Z) (d : delta_kind) (s : string)
  | MBlockStop (i : Z)
  | MMessageDelta (stop_reason : string) (usage : value)
  | MMessageStop
  | MError
  | MOther.

Definition index_of (v : json) : option Z := as_number (own "index" v) ≫= as_integer.

Definition is_empty_string (v : value) : bool :=
  match v with Some (JStr EmptyString) => true | _ => false end.
Definition is_empty_object (v : value) : bool :=
  match v with Some (JObj []) => true | _ => false end.

(** A block starts empty; what it holds comes in deltas. *)
Definition view_block (v : value) : option block :=
  t ← as_string (opt_prop v "type");
  if String.eqb t "text" then if is_empty_string (opt_prop v "text") then Some TextBlock else None
  else if String.eqb t "thinking" then
    if is_empty_string (opt_prop v "thinking") then Some ThinkingBlock else None
  else if String.eqb t "tool_use" then
    id ← as_string (opt_prop v "id"); name ← as_string (opt_prop v "name");
    if is_empty_object (opt_prop v "input") then Some (ToolBlock id name) else None
  else None.

Definition view_delta (v : value) : option (delta_kind * string) :=
  t ← as_string (opt_prop v "type");
  if String.eqb t "text_delta" then s ← as_string (opt_prop v "text"); Some (TextDelta, s)
  else if String.eqb t "thinking_delta" then s ← as_string (opt_prop v "thinking"); Some (ThinkingDelta, s)
  else if String.eqb t "input_json_delta" then
    s ← as_string (opt_prop v "partial_json"); Some (InputJsonDelta, s)
  else None.

(** Whatever its type, an event with an [error] is one. *)
Definition view_data (v : json) : option mevent :=
  t ← as_string (own "type" v);
  if truthy (own "error" v) then Some MError
  else if String.eqb t "message_start" then Some (MMessageStart (opt_prop (own "message" v) "model"))
  else if String.eqb t "ping" then Some MPing
  else if String.eqb t "content_block_start" then
    i ← index_of v; b ← view_block (own "content_block" v); Some (MBlockStart i b)
  else if String.eqb t "content_block_delta" then
    i ← index_of v; '(d, s) ← view_delta (own "delta" v); Some (MBlockDelta i d s)
  else if String.eqb t "content_block_stop" then i ← index_of v; Some (MBlockStop i)
  else if String.eqb t "message_delta" then
    r ← as_string (opt_prop (own "delta" v) "stop_reason"); Some (MMessageDelta r (own "usage" v))
  else if String.eqb t "message_stop" then Some MMessageStop
  else if String.eqb t "error" then Some MError
  else None.

Definition view (f : frame) : mevent := default MOther (view_data f.2).

(** * Messages *)

(** A block so far: what was announced, its deltas put together, whether it is open *)
Record bstate := { b_kind : block; b_text : string; b_open : bool }.

Record proto := {
  p_started : bool;
  p_blocks : list bstate;
  p_stop : option string;
  p_usage : value;
  p_ended : bool }.

Definition p_init : proto :=
  {| p_started := false; p_blocks := []; p_stop := None; p_usage := None; p_ended := false |}.

Definition fits (b : block) (d : delta_kind) : bool :=
  match b, d with
  | TextBlock, TextDelta | ThinkingBlock, ThinkingDelta | ToolBlock _ _, InputJsonDelta => true
  | _, _ => false
  end.

Definition set_blocks (bs : list bstate) (p : proto) : proto :=
  {| p_started := p_started p; p_blocks := bs; p_stop := p_stop p; p_usage := p_usage p;
     p_ended := p_ended p |}.

Definition append_text (s : string) (b : bstate) : bstate :=
  {| b_kind := b_kind b; b_text := b_text b +:+ s; b_open := b_open b |}.
Definition shut (b : bstate) : bstate :=
  {| b_kind := b_kind b; b_text := b_text b; b_open := false |}.

Definition block_at (i : Z) (p : proto) : option bstate :=
  if 0 <=? i then p_blocks p !! Z.to_nat i else None.

(** Blocks are opened in the order of their indices; a delta goes to an open block of its
    kind; a message ends with all its blocks closed and a stop reason. *)
Definition p_step (p : proto) (e : mevent) : option proto :=
  match e with
  | MPing => Some p
  | MMessageStart _ =>
      if p_started p then None
      else Some {| p_started := true; p_blocks := []; p_stop := None; p_usage := None; p_ended := false |}
  | MError | MOther => None
  | _ =>
      if negb (p_started p) || p_ended p then None else
      match e with
      | MBlockStart i b =>
          if i =? Z.of_nat (length (p_blocks p))
          then Some (set_blocks (p_blocks p ++ [{| b_kind := b; b_text := ""; b_open := true |}]) p)
          else None
      | MBlockDelta i d s =>
          b ← block_at i p;
          if b_open b && fits (b_kind b) d
          then Some (set_blocks (alter (append_text s) (Z.to_nat i) (p_blocks p)) p) else None
      | MBlockStop i =>
          b ← block_at i p;
          if b_open b then Some (set_blocks (alter shut (Z.to_nat i) (p_blocks p)) p) else None
      | MMessageDelta r u =>
          if forallb (λ b, negb (b_open b)) (p_blocks p)
          then Some {| p_started := true; p_blocks := p_blocks p; p_stop := Some r; p_usage := u;
                       p_ended := false |}
          else None
      | _ =>
          if bool_decide (is_Some (p_stop p)) && forallb (λ b, negb (b_open b)) (p_blocks p)
          then Some {| p_started := true; p_blocks := p_blocks p; p_stop := p_stop p;
                       p_usage := p_usage p; p_ended := true |}
          else None
      end
  end.

Fixpoint p_run (p : proto) (es : list mevent) : option proto :=
  match es with
  | [] => Some p
  | e :: es => p ← p_step p e; p_run p es
  end.

(** The frames are a message, whole or cut off: [p] is what they say. *)
Definition says (fs : list frame) (p : proto) : Prop := p_run p_init (view <$> fs) = Some p.

Lemma p_run_app p es es' : p_run p (es ++ es') = p ← p_run p es; p_run p es'.
Proof.
  revert p. induction es as [|e es IH]; intros p; cbn; [done|]. by destruct (p_step p e); cbn.
Qed.

Lemma says_app fs fs' p p' : says fs p → p_run p (view <$> fs') = Some p' → says (fs ++ fs') p'.
Proof. unfold says. intros Hp Hp'. by rewrite fmap_app, p_run_app, Hp. Qed.
