(* ===== verification/OpenAiFormats.v ===== *)
(** Conversion between the OpenAI and the Anthropic formats

    [packages/openai-formats/src]: token usage ([usage.ts]), the helpers of [utils.ts] and the
    conversion of whole responses ([converters.ts]). The values converted are untyped JSON;
    [None] is an exception that leaves the converter. [OpenAiStream] converts streams. *)

From S2P Require Import Prelude.
From S2P Require Import Rationals.
From S2P Require Import Json.
From S2P Require Import Messages.
Open Scope Z_scope.

(** An object literal: a field whose value is [undefined] is not serialised. *)
Definition obj (fields : list (string * value)) : json :=
  JObj (omap (λ '(k, v), pair k <$> v) fields).

(** * [usage.ts] *)

Record DisjointInputUsage := {
  inputTokens : Qc;
  cacheReadInputTokens : Qc;
  cacheCreationInputTokens : Qc;
  clamped : bool }.

Definition count (v : value) : Qc :=
  match as_number v with Some q => if bool_decide (0 < q)%Qc then q else 0%Qc | None => 0%Qc end.

Definition normalizeCacheInclusiveInput (totalInputTokens read creation : value) : DisjointInputUsage :=
  let total := count totalInputTokens in
  let wantedRead := count read in
  let wantedCreation := count creation in
  let read := Qc_min wantedRead total in
  let creation := Qc_min wantedCreation (total - read) in
  {| inputTokens := total - read - creation;
     cacheReadInputTokens := read;
     cacheCreationInputTokens := creation;
     clamped := negb (bool_decide (read = wantedRead)) || negb (bool_decide (creation = wantedCreation)) |}.

Definition reported (v : value) : option Qc :=
  q ← as_number v; if bool_decide (0 <= q)%Qc then Some q else None.

(** The reads and the writes [prompt_tokens_details] reports *)
Definition readPromptTokensDetails (details : value) : option Qc * option Qc :=
  (reported (opt_prop details "cached_tokens"),
   reported (opt_prop details "cache_creation_input_tokens")).

(** * [utils.ts] *)

Definition REPAIRS : list text :=
  [[QUOTE; chr 125]; [chr 125]; [QUOTE]; [QUOTE; chr 125; chr 125]].

(** The suffix that repairs a tool call's truncated JSON, empty when there is none *)
Definition repairTruncatedToolJson (accumulated : string) : string :=
  if String.eqb (trim accumulated) "" then ""
  else if bool_decide (is_Some (parse_string accumulated)) then ""
  else from_option of_text ""%string
         (list_find (λ suffix, is_Some (parse (to_text accumulated ++ suffix))) REPAIRS ≫= λ p, Some p.2).

(** [format: "uri"] of a string schema, and [$schema] *)
Definition unsupported_key (m : list (string * json)) (k : string) : bool :=
  String.eqb k "$schema"
  || (String.eqb k "format"
      && match as_string (alist_get "type"%string m), as_string (alist_get k m) with
         | Some t, Some f => String.eqb t "string" && String.eqb f "uri"
         | _, _ => false
         end).

Fixpoint removeUriFormat (schema : json) : json :=
  match schema with
  | JArr l => JArr (map removeUriFormat l)
  | JObj m => JObj (concat (map (λ kv,
      if unsupported_key m kv.1 then [] else [(kv.1, removeUriFormat kv.2)]) m))
  | _ => schema
  end.

Definition mapOpenAIFinishReason (reason : value) : string :=
  match as_string reason with
  | Some r =>
      if String.eqb r "length" then "max_tokens"
      else if String.eqb r "function_call" || String.eqb r "tool_calls" then "tool_use"
      else "end_turn"
  | None => "end_turn"
  end.

Definition convertAnthropicPathToOpenAI (path : string) : string :=
  if String.eqb path "/v1/messages" then "/v1/chat/completions" else path.

(** * Whole responses *)

Definition safeParseJSON (s : string) : json := default (JObj []) (parse_string s).

(** The cache counts upstream stated, as parts of its total *)
Definition cache_fields (read creation : option Qc) (input : DisjointInputUsage)
    : list (string * value) :=
  [("cache_read_input_tokens", (λ _, JNum (cacheReadInputTokens input)) <$> read);
   ("cache_creation_input_tokens", (λ _, JNum (cacheCreationInputTokens input)) <$> creation)]%string.

Definition or_zero (v : value) : json := default (JInt 0) (either v (Some (JInt 0))).
Definition or_number (q : option Qc) : value := Some (JNum (default 0%Qc q)).

(** A total that its own parts do not fit is reported as stated, without them. *)
Definition normalizedInput (usage : value) : list (string * value) :=
  let '(read, creation) := readPromptTokensDetails (opt_prop usage "prompt_tokens_details") in
  let prompt := or_zero (opt_prop usage "prompt_tokens") in
  let input := normalizeCacheInclusiveInput (Some prompt) (or_number read) (or_number creation) in
  if clamped input then [("input_tokens"%string, Some prompt)]
  else ("input_tokens"%string, Some (JNum (inputTokens input))) :: cache_fields read creation input.

Definition error_response (type message : json) : json :=
  JObj [("type"%string, JStr "error");
        ("error"%string, JObj [("type"%string, type); ("message"%string, message)])].

(** [v || s] *)
Definition or_string (v : value) (s : string) : json := default (JStr s) (either v (Some (JStr s))).

(** The elements a [for ... of] visits; [None] when [v] is not iterable *)
Definition iterable (v : json) : option (list json) :=
  match v with
  | JArr l => Some l
  | JStr s => Some (map (λ c, JStr (String c EmptyString)) (to_text s))
  | _ => None
  end.

Definition text_block (type field : string) (v : json) : json :=
  JObj [("type"%string, JStr type); (field, v)].

Definition tool_use_block (toolCall : json) : option json :=
  if nullish (Some toolCall) then None else
  let function := own "function" toolCall in
  if nullish function then None else
  Some (obj [("type", Some (JStr "tool_use"));
             ("id", own "id" toolCall);
             ("name", opt_prop function "name");
             ("input", Some (safeParseJSON (js_string (or_string (opt_prop function "arguments") "{}"))))]%string).

Definition msg_id (now : Z) : string := "msg_" +:+ js_string (JInt now).

Definition convertOpenAIResponseToAnthropic (now : Z) (openaiData : json) (sentModel : option string)
    : option json :=
  if nullish (Some openaiData) then None else
  let error := own "error" openaiData in
  if truthy error then
    Some (error_response (or_string (opt_prop error "type") "api_error")
                         (or_string (opt_prop error "message") "An error occurred"))
  else
    let choice := opt_first (own "choices" openaiData) in
    if negb (truthy choice) then
      Some (error_response (JStr "invalid_response") (JStr "Invalid response format from OpenAI provider"))
    else
      let message := opt_prop choice "message" in
      let part type field v := if truthy v then option_list (text_block type field <$> v) else [] in
      let toolCalls := opt_prop message "tool_calls" in
      calls ← (if truthy toolCalls then toolCalls ≫= iterable else Some []);
      tools ← mapM tool_use_block calls;
      Some (obj [("id", either (own "id" openaiData) (Some (JStr (msg_id now))));
                 ("type", Some (JStr "message"));
                 ("role", Some (JStr "assistant"));
                 ("content", Some (JArr (part "thinking" "thinking" (opt_prop message "reasoning_content")
                                         ++ part "text" "text" (opt_prop message "content") ++ tools)));
                 ("model", either (own "model" openaiData) (JStr <$> sentModel));
                 ("stop_reason", Some (JStr (mapOpenAIFinishReason (opt_prop choice "finish_reason"))));
                 ("usage", Some (obj (normalizedInput (own "usage" openaiData)
                    ++ [("output_tokens"%string,
                         Some (or_zero (opt_prop (own "usage" openaiData) "completion_tokens")))])))]%string).

(** * Schemas *)

Lemma as_string_remove v : as_string (removeUriFormat <$> v) = as_string v.
Proof. by destruct v as [[]|]. Qed.

Definition kept (m : list (string * json)) : list (string * json) :=
  concat (map (λ kv, if unsupported_key m kv.1 then [] else [(kv.1, removeUriFormat kv.2)]) m).

Lemma kept_get (p : string → bool) k (m : list (string * json)) :
  alist_get k (concat (map (λ kv, if p kv.1 then [] else [(kv.1, removeUriFormat kv.2)]) m))
  = if p k then None else removeUriFormat <$> alist_get k m.
Proof.
  induction m as [|[k' v] m IH]; cbn; [by destruct (p k)|]. destruct (p k') eqn:E; cbn; rewrite IH.
  - case_decide as Hk; [subst; by rewrite E|done].
  - case_decide as Hk; [subst; by rewrite E|done].
Qed.

Lemma kept_supported m k : unsupported_key m k = false → unsupported_key (kept m) k = false.
Proof.
  unfold unsupported_key, kept. rewrite !(kept_get (unsupported_key m)).
  intros H. apply orb_false_iff in H as [Hs Hf]. rewrite Hs. cbn.
  destruct (String.eqb_spec k "format") as [->|]; [|done]. cbn in *.
  rewrite as_string_remove. destruct (as_string (alist_get "type"%string m)) as [t|]; [|done].
  destruct (as_string (alist_get "format"%string m)) as [f|] eqn:Ef; [rewrite Hf|];
    by rewrite as_string_remove, Ef.
Qed.

(** No object of the schema has a key that the upstream rejects. *)
Fixpoint supported (schema : json) : bool :=
  match schema with
  | JArr l => forallb supported l
  | JObj m => forallb (λ kv, negb (unsupported_key m kv.1) && supported kv.2) m
  | _ => true
  end.

(** a tool's schema is stripped of every key that the upstream rejects, at any depth;
    a schema without such keys is left as it is. *)
Theorem removeUriFormat_strips schema :
  supported (removeUriFormat schema) = true
  ∧ (supported schema = true → removeUriFormat schema = schema).
Proof.
  induction schema as [|b|q|s|l IH|m IH] using json_rect'; try done; cbn [removeUriFormat supported].
  - split.
    + apply forallb_forall. intros x Hx. apply in_map_iff in Hx as (y & <- & Hy).
      rewrite Forall_forall in IH. apply IH. by apply list_elem_of_In.
    + intros Hs. f_equal. induction IH as [|x l [_ Hx] Hl IHl]; [done|]. cbn in *. prop_bools.
      by rewrite Hx, IHl.
  - split.
    + fold (kept m). apply forallb_forall. intros [k v] Hk.
      apply in_concat in Hk as (t & Ht & Hk). apply in_map_iff in Ht as ([k' v'] & <- & Hin). cbn in *.
      destruct (unsupported_key m k') eqn:E; cbn in Hk; [done|]. destruct Hk as [[= <- <-]|[]].
      rewrite (kept_supported _ _ E). cbn. rewrite Forall_forall in IH.
      apply (IH (k', v')). by apply list_elem_of_In.
    + intros Hs. f_equal. rewrite forallb_forall in Hs.
      assert (∀ n, (∀ x, x ∈ n → x ∈ m) →
        concat (map (λ kv, if unsupported_key m kv.1 then [] else [(kv.1, removeUriFormat kv.2)]) n) = n) as Hn.
      { rewrite Forall_forall in IH. induction n as [|[k v] n IHn]; intros Hsub; [done|]. cbn.
        assert ((k, v) ∈ m) as Hin by (apply Hsub; by left).
        pose proof (Hs (k, v) (proj1 (list_elem_of_In _ _) Hin)) as Hk. cbn in Hk. prop_bools.
        destruct (unsupported_key m k); [done|]. cbn. destruct (IH _ Hin) as [_ Hv]. cbn in Hv.
        rewrite Hv by done. rewrite IHn; [done|]. intros x Hx. apply Hsub. by right. }
      by apply Hn.
Qed.
