(* ===== verification/OpenAiStream.v ===== *)
(** The OpenAI stream as a Messages stream

    [packages/openai-formats/src/stream.ts]: the transformer that reads chat-completion
    chunks and writes Messages events. Its context is the record [context]; a chunk of text
    is split into lines, each data line is parsed and handled, and an exception in a handler
    is dropped after what it did so far. *)

From Stdlib Require Import QArith_base.
From S2P Require Import Prelude.
From S2P Require Import Rationals.
From S2P Require Import Json.
From S2P Require Import Programs.
From S2P Require Import StableSort.
From S2P Require Import Messages.
From S2P Require Import OpenAiFormats.
Open Scope Z_scope.

(** * State *)

(** [TransformStreamContext]. Tool calls are kept by their upstream index, any number. *)
Record context := {
  buffer : text;
  hasStarted : bool;
  extractedModel : json;
  requestId : option string;
  hasSentStart : bool;
  hasSentContentBlockStart : bool;
  hasSentThinkingBlockStart : bool;
  thinkingBlockClosed : bool;
  textBlockClosed : bool;
  thinkingBlockIndex : Z;
  textBlockIndex : Z;
  promptTokens : json;
  completionTokens : json;
  cacheReadInput : option Qc;
  cacheCreationInput : option Qc;
  sawUsage : bool;
  finishReason : option string;
  encounteredToolCall : bool;
  toolCallAccumulators : jmap Qc string;
  nextBlockIndex : Z;
  toolCallBlockIndices : jmap Qc Z }.

Definition maxToolCallLength : Z := 1000000.
Definition maxToolCallIndex : Z := 100.

(** [start]: the model and the request id come from the response's headers. *)
Definition start (resolvedModel requestId : option string) : context :=
  {| buffer := []; hasStarted := false; extractedModel := JStr (default "unknown"%string resolvedModel);
     requestId := requestId; hasSentStart := false; hasSentContentBlockStart := false;
     hasSentThinkingBlockStart := false; thinkingBlockClosed := false; textBlockClosed := false;
     thinkingBlockIndex := 0; textBlockIndex := 0; promptTokens := JInt 0; completionTokens := JInt 0;
     cacheReadInput := None; cacheCreationInput := None; sawUsage := false; finishReason := None;
     encounteredToolCall := false; toolCallAccumulators := ∅; nextBlockIndex := 0;
     toolCallBlockIndices := ∅ |}.

(** The transformer: its context, whether [this.context] still holds it, what was enqueued,
    and the requests marked as having no usage reported *)
Record stream := {
  ctx : context;
  live : bool;
  out : list frame;
  unreported : list (option string) }.

Definition init (resolvedModel requestId : option string) : stream :=
  {| ctx := start resolvedModel requestId; live := true; out := []; unreported := [] |}.

Definition with_ctx (f : context → context) (s : stream) : stream :=
  {| ctx := f (ctx s); live := live s; out := out s; unreported := unreported s |}.

Abbreviation run := (prog stream).

Definition update (f : context → context) : run unit := modify (with_ctx f).
Definition emit (f : frame) : run unit :=
  modify (λ s, {| ctx := ctx s; live := live s; out := out s ++ [f]; unreported := unreported s |}).
Definition markUpstreamReportedNoUsage (id : option string) : run unit :=
  modify (λ s, {| ctx := ctx s; live := live s; out := out s; unreported := unreported s ++ [id] |}).
Definition clear_context : run unit :=
  modify (λ s, {| ctx := ctx s; live := false; out := out s; unreported := unreported s |}).

(** ** Assignments *)

Definition set_buffer (t : text) (c : context) : context :=
  {| buffer := t; hasStarted := hasStarted c; extractedModel := extractedModel c; requestId := requestId c;
     hasSentStart := hasSentStart c; hasSentContentBlockStart := hasSentContentBlockStart c;
     hasSentThinkingBlockStart := hasSentThinkingBlockStart c; thinkingBlockClosed := thinkingBlockClosed c;
     textBlockClosed := textBlockClosed c; thinkingBlockIndex := thinkingBlockIndex c;
     textBlockIndex := textBlockIndex c; promptTokens := promptTokens c; completionTokens := completionTokens c;
     cacheReadInput := cacheReadInput c; cacheCreationInput := cacheCreationInput c; sawUsage := sawUsage c;
     finishReason := finishReason c; encounteredToolCall := encounteredToolCall c;
     toolCallAccumulators := toolCallAccumulators c; nextBlockIndex := nextBlockIndex c;
     toolCallBlockIndices := toolCallBlockIndices c |}.

(** The model, the finish reason and the usage: what never decides which events are sent *)
Definition set_report (model : json) (started : bool) (finish : option string) (saw : bool)
    (prompt completion : json) (read creation : option Qc) (c : context) : context :=
  {| buffer := buffer c; hasStarted := started; extractedModel := model; requestId := requestId c;
     hasSentStart := hasSentStart c; hasSentContentBlockStart := hasSentContentBlockStart c;
     hasSentThinkingBlockStart := hasSentThinkingBlockStart c; thinkingBlockClosed := thinkingBlockClosed c;
     textBlockClosed := textBlockClosed c; thinkingBlockIndex := thinkingBlockIndex c;
     textBlockIndex := textBlockIndex c; promptTokens := prompt; completionTokens := completion;
     cacheReadInput := read; cacheCreationInput := creation; sawUsage := saw;
     finishReason := finish; encounteredToolCall := encounteredToolCall c;
     toolCallAccumulators := toolCallAccumulators c; nextBlockIndex := nextBlockIndex c;
     toolCallBlockIndices := toolCallBlockIndices c |}.

(** The flags and indices of the message, of its thinking and of its text block *)
Definition set_blocks (sent text thinking textClosed thinkingClosed : bool) (textIndex thinkingIndex next : Z)
    (c : context) : context :=
  {| buffer := buffer c; hasStarted := hasStarted c; extractedModel := extractedModel c; requestId := requestId c;
     hasSentStart := sent; hasSentContentBlockStart := text; hasSentThinkingBlockStart := thinking;
     thinkingBlockClosed := thinkingClosed; textBlockClosed := textClosed;
     thinkingBlockIndex := thinkingIndex; textBlockIndex := textIndex;
     promptTokens := promptTokens c; completionTokens := completionTokens c;
     cacheReadInput := cacheReadInput c; cacheCreationInput := cacheCreationInput c; sawUsage := sawUsage c;
     finishReason := finishReason c; encounteredToolCall := encounteredToolCall c;
     toolCallAccumulators := toolCallAccumulators c; nextBlockIndex := next;
     toolCallBlockIndices := toolCallBlockIndices c |}.

Definition set_tools (encountered : bool) (acc : jmap Qc string) (next : Z) (indices : jmap Qc Z)
    (c : context) : context :=
  {| buffer := buffer c; hasStarted := hasStarted c; extractedModel := extractedModel c; requestId := requestId c;
     hasSentStart := hasSentStart c; hasSentContentBlockStart := hasSentContentBlockStart c;
     hasSentThinkingBlockStart := hasSentThinkingBlockStart c; thinkingBlockClosed := thinkingBlockClosed c;
     textBlockClosed := textBlockClosed c; thinkingBlockIndex := thinkingBlockIndex c;
     textBlockIndex := textBlockIndex c; promptTokens := promptTokens c; completionTokens := completionTokens c;
     cacheReadInput := cacheReadInput c; cacheCreationInput := cacheCreationInput c; sawUsage := sawUsage c;
     finishReason := finishReason c; encounteredToolCall := encountered;
     toolCallAccumulators := acc; nextBlockIndex := next; toolCallBlockIndices := indices |}.

Definition set_sent (c : context) : context :=
  set_blocks true (hasSentContentBlockStart c) (hasSentThinkingBlockStart c) (textBlockClosed c)
    (thinkingBlockClosed c) (textBlockIndex c) (thinkingBlockIndex c) (nextBlockIndex c) c.
Definition close_text_flag (c : context) : context :=
  set_blocks (hasSentStart c) (hasSentContentBlockStart c) (hasSentThinkingBlockStart c) true
    (thinkingBlockClosed c) (textBlockIndex c) (thinkingBlockIndex c) (nextBlockIndex c) c.
Definition close_thinking_flag (c : context) : context :=
  set_blocks (hasSentStart c) (hasSentContentBlockStart c) (hasSentThinkingBlockStart c) (textBlockClosed c)
    true (textBlockIndex c) (thinkingBlockIndex c) (nextBlockIndex c) c.
Definition sent_text (c : context) : context :=
  set_blocks (hasSentStart c) true (hasSentThinkingBlockStart c) (textBlockClosed c)
    (thinkingBlockClosed c) (nextBlockIndex c) (thinkingBlockIndex c) (nextBlockIndex c + 1) c.
Definition sent_thinking (c : context) : context :=
  set_blocks (hasSentStart c) (hasSentContentBlockStart c) true (textBlockClosed c)
    (thinkingBlockClosed c) (textBlockIndex c) (thinkingBlockIndex c) (nextBlockIndex c) c.
Definition place_thinking (c : context) : context :=
  set_blocks (hasSentStart c) (hasSentContentBlockStart c) (hasSentThinkingBlockStart c) (textBlockClosed c)
    (thinkingBlockClosed c) (textBlockIndex c) (nextBlockIndex c) (nextBlockIndex c + 1) c.
Definition encounter (c : context) : context :=
  set_tools true (toolCallAccumulators c) (nextBlockIndex c) (toolCallBlockIndices c) c.
Definition open_slot (idx : Qc) (c : context) : context :=
  set_tools (encounteredToolCall c) (<[idx := ""%string]> (toolCallAccumulators c)) (nextBlockIndex c + 1)
    (<[idx := nextBlockIndex c]> (toolCallBlockIndices c)) c.
(** [(toolCallAccumulators[idx] || "") + newArgs] *)
Definition buffer_slot (idx : Qc) (newArgs : string) (c : context) : context :=
  set_tools (encounteredToolCall c)
    (<[idx := default ""%string (toolCallAccumulators c !! idx) +:+ newArgs]> (toolCallAccumulators c))
    (nextBlockIndex c) (toolCallBlockIndices c) c.

(** * Events *)

Definition event (name : string) (fields : list (string * value)) : frame :=
  (name, obj (("type"%string, Some (JStr name)) :: fields)).

Definition ev_message_start (now : Z) (model : json) : frame :=
  event "message_start"
    [("message", Some (obj [("id", Some (JStr (msg_id now))); ("type", Some (JStr "message"));
                            ("role", Some (JStr "assistant")); ("content", Some (JArr []));
                            ("model", Some model); ("stop_reason", Some JNull);
                            ("stop_sequence", Some JNull);
                            ("usage", Some (obj [("input_tokens", Some (JInt 0));
                                                 ("output_tokens", Some (JInt 0))]))]))]%string.
Definition ev_ping : frame := event "ping" [].
Definition ev_block_start (i : Z) (block : json) : frame :=
  event "content_block_start" [("index", Some (JInt i)); ("content_block", Some block)]%string.
Definition ev_delta (i : Z) (type field : string) (v : json) : frame :=
  event "content_block_delta"
    [("index", Some (JInt i)); ("delta", Some (text_block type field v))]%string.
Definition ev_block_stop (i : Z) : frame := event "content_block_stop" [("index", Some (JInt i))]%string.
Definition ev_message_stop : frame := event "message_stop" [].

Definition ev_message_delta (stop_reason : string) (usage : list (string * value)) : frame :=
  event "message_delta"
    [("delta", Some (obj [("stop_reason", Some (JStr stop_reason)); ("stop_sequence", Some JNull)]));
     ("usage", Some (obj usage))]%string.

Definition stream_usage (c : context) : list (string * value) :=
  let input := normalizeCacheInclusiveInput (Some (promptTokens c)) (or_number (cacheReadInput c))
                 (or_number (cacheCreationInput c)) in
  if clamped input
  then [("input_tokens", Some (promptTokens c)); ("output_tokens", Some (completionTokens c))]%string
  else ("input_tokens"%string, Some (JNum (inputTokens input)))
       :: ("output_tokens"%string, Some (completionTokens c))
       :: cache_fields (cacheReadInput c) (cacheCreationInput c) input.

(** * The end of a stream *)

(** [Object.entries]: the integer keys in ascending order, then the others as inserted *)
Definition key_leb {V} (x y : Qc * V) : bool := bool_decide (x.1 <= y.1)%Qc.
Definition object_entries {V} (m : jmap Qc V) : list (Qc * V) :=
  stable_sort key_leb (filter (λ e, is_Some (as_integer e.1)) (entries m))
  ++ filter (λ e, ¬ is_Some (as_integer e.1)) (entries m).

(** The first digit that is not zero of a number below one *)
Fixpoint leading_digit (n : nat) (num den : Z) : Z :=
  match n with
  | O => 0
  | S n => if den <=? num then num / den else leading_digit n (num * 10) den
  end.

(** [Number.parseInt(String(idx), 10)]; a number below [1e-6] prints with an exponent. *)
Definition parse_int (idx : Qc) : Qc :=
  let num := Qnum (this idx) in
  let den := Zpos (Qden (this idx)) in
  Qc_of_Z (if (0 <? num) && (num * 1000000 <? den) then leading_digit 400 num den else num / den).

Definition emitToolCallJson (index : Z) (accumulated : string) : run unit :=
  emit (ev_delta index "input_json_delta" "partial_json"
          (JStr (accumulated +:+ repairTruncatedToolJson accumulated))).

Definition lengthStopReason (c : context) : option string :=
  if bool_decide (finishReason c = Some "length"%string)
  then Some (mapOpenAIFinishReason (JStr <$> finishReason c)) else None.

Inductive stop_reason := tool_use | end_turn.
Definition stop_string (r : stop_reason) : string :=
  match r with tool_use => "tool_use" | end_turn => "end_turn" end.

Definition emitStreamEnd (stopReason : stop_reason) (toolIndices : option (list Z))
    (endTurnBlockIndex : option Z) (reported : option string) : run unit :=
  c ← gets ctx;
  when (negb (sawUsage c)) (markUpstreamReportedNoUsage (requestId c));;
  match toolIndices, stopReason, endTurnBlockIndex with
  | Some l, _, _ => for_each l (λ i, emit (ev_block_stop i))
  | None, end_turn, Some i => emit (ev_block_stop i)
  | None, _, _ => mret tt
  end;;
  emit (ev_message_delta (default (stop_string stopReason) reported) (stream_usage c));;
  emit ev_message_stop.

(** Every tool call's arguments, then the stops *)
Definition end_tools (lengthStop : option string) : run unit :=
  c ← gets ctx;
  for_each (object_entries (toolCallBlockIndices c)) (λ '(idx, block),
    emitToolCallJson block (default ""%string (toolCallAccumulators c !! parse_int idx)));;
  emitStreamEnd tool_use (Some (object_entries (toolCallBlockIndices c)).*2) None lengthStop.

Definition last_block (c : context) : Z :=
  if textBlockClosed c then thinkingBlockIndex c else textBlockIndex c.

Definition handle_done : run unit :=
  c ← gets ctx;
  let lengthStop := lengthStopReason c in
  (if encounteredToolCall c then end_tools lengthStop
   else if hasSentContentBlockStart c then emitStreamEnd end_turn None (Some (last_block c)) lengthStop
   else if hasSentThinkingBlockStart c
   then emitStreamEnd end_turn None (Some (thinkingBlockIndex c)) lengthStop
   else when (hasSentStart c) (emitStreamEnd end_turn None None lengthStop));;
  clear_context.

Definition flush_context : run unit :=
  c ← gets ctx;
  let lengthStop := lengthStopReason c in
  (if encounteredToolCall c && bool_decide (entries (toolCallAccumulators c) ≠ [])
   then end_tools lengthStop
   else if hasSentContentBlockStart c && negb (encounteredToolCall c)
   then emitStreamEnd end_turn None (Some (last_block c)) lengthStop
   else if hasSentThinkingBlockStart c
   then emitStreamEnd end_turn None (Some (thinkingBlockIndex c)) lengthStop
   else when (hasSentStart c && bool_decide (is_Some (finishReason c)))
     (emitStreamEnd end_turn None
        (if hasSentContentBlockStart c && negb (textBlockClosed c) then Some (textBlockIndex c) else None)
        lengthStop));;
  clear_context.

(** * A chunk *)

Definition first_choice (data : json) : value := opt_first (own "choices" data).

(** [if (details.x !== undefined) context.x = details.x] *)
Definition prefer {A} (x y : option A) : option A := match x with Some _ => x | None => y end.
Definition replace_if (v : value) (x : json) : json := if truthy v then default x v else x.

(** The model of the first chunk that names one, the last finish reason, the usage *)
Definition note_report (data : json) (c : context) : context :=
  let named := negb (hasStarted c) && truthy (own "model" data) in
  let finish := match as_string (opt_prop (first_choice data) "finish_reason") with
                | Some (String _ _ as r) => Some r
                | _ => finishReason c
                end in
  let usage := own "usage" data in
  let model := if named then default (extractedModel c) (own "model" data) else extractedModel c in
  if truthy usage then
    let details := opt_prop usage "prompt_tokens_details" in
    let '(read, creation) := if truthy details then readPromptTokensDetails details else (None, None) in
    set_report model (hasStarted c || named) finish true
      (replace_if (opt_prop usage "prompt_tokens") (promptTokens c))
      (replace_if (opt_prop usage "completion_tokens") (completionTokens c))
      (prefer read (cacheReadInput c)) (prefer creation (cacheCreationInput c)) c
  else set_report model (hasStarted c || named) finish (sawUsage c)
      (promptTokens c) (completionTokens c) (cacheReadInput c) (cacheCreationInput c) c.

Definition send_start (now : Z) : run unit :=
  c ← gets ctx;
  when (negb (hasSentStart c))
    (update set_sent;; emit (ev_message_start now (extractedModel c));; emit ev_ping).

Definition close_thinking : run unit :=
  c ← gets ctx;
  when (hasSentThinkingBlockStart c && negb (thinkingBlockClosed c))
    (update close_thinking_flag;; emit (ev_block_stop (thinkingBlockIndex c))).

Definition close_text : run unit :=
  c ← gets ctx;
  when (hasSentContentBlockStart c && negb (textBlockClosed c))
    (update close_text_flag;; emit (ev_block_stop (textBlockIndex c))).

(** Before the first tool block, both *)
Definition close_lead : run unit := close_thinking;; close_text.

Definition tool_start (toolCall : json) : json :=
  obj [("type", Some (JStr "tool_use")); ("id", own "id" toolCall);
       ("name", opt_prop (own "function" toolCall) "name"); ("input", Some (JObj []))]%string.

Definition open_tool (idx : Qc) (toolCall : json) : run unit :=
  close_lead;;
  c ← gets ctx;
  update (open_slot idx);;
  emit (ev_block_start (nextBlockIndex c) (tool_start toolCall)).

(** [v.length], where it is a number *)
Definition js_length (v : json) : option Qc :=
  match v with
  | JStr s => Some (Qc_of_Z (units s))
  | JArr l => Some (Qc_of_Z (Z.of_nat (length l)))
  | _ => as_number (own "length" v)
  end.

Definition buffer_arguments (idx : Qc) (toolCall : json) : run unit :=
  let newArgs := or_string (opt_prop (own "function" toolCall) "arguments") "" in
  if from_option (λ n, bool_decide (Qc_of_Z maxToolCallLength < n)%Qc) false (js_length newArgs)
  then mret tt
  else update (buffer_slot idx (js_string newArgs)).

Definition tool_call (toolCall : json) : run unit :=
  update encounter;;
  if nullish (Some toolCall) then throw else
  match as_number (own "index" toolCall) with
  | None => mret tt
  | Some idx =>
      if bool_decide (idx < 0)%Qc || bool_decide (Qc_of_Z maxToolCallIndex <= idx)%Qc then mret tt else
      c ← gets ctx;
      match toolCallAccumulators c !! idx with
      | Some _ => buffer_arguments idx toolCall
      | None =>
          if negb (truthy (own "id" toolCall))
             || negb (truthy (opt_prop (own "function" toolCall) "name"))
          then mret tt
          else open_tool idx toolCall;; buffer_arguments idx toolCall
      end
  end.

Definition reasoning_delta (v : json) : run unit :=
  c ← gets ctx;
  when (negb (hasSentThinkingBlockStart c))
    (update sent_thinking;; close_text;;
     c ← gets ctx;
     update place_thinking;;
     emit (ev_block_start (nextBlockIndex c) (text_block "thinking" "thinking" (JStr ""))));;
  c ← gets ctx;
  emit (ev_delta (thinkingBlockIndex c) "thinking_delta" "thinking" v).

Definition content_delta (v : json) : run unit :=
  c ← gets ctx;
  when (negb (hasSentContentBlockStart c))
    (update sent_text;; close_thinking;;
     emit (ev_block_start (nextBlockIndex c) (text_block "text" "text" (JStr ""))));;
  c ← gets ctx;
  emit (ev_delta (textBlockIndex c) "text_delta" "text" v).

(** [if (v) f(v)] *)
Definition if_truthy (v : value) (f : json → run unit) : run unit :=
  match v with Some x => when (truthy v) (f x) | None => mret tt end.

Definition handle_chunk (now : Z) (data : json) : run unit :=
  if nullish (Some data) then throw else
  update (note_report data);;
  send_start now;;
  let delta := opt_prop (first_choice data) "delta" in
  let tool_calls := opt_prop delta "tool_calls" in
  if truthy tool_calls then
    l ← require (tool_calls ≫= iterable);
    for_each l tool_call
  else
    if_truthy (opt_prop delta "reasoning_content") reasoning_delta;;
    if_truthy (opt_prop delta "content") content_delta.

(** * Text *)

(** [s.split("\n")], its last element apart *)
Fixpoint split_lines (t : text) : list text * text :=
  match t with
  | [] => ([], [])
  | c :: r =>
      let '(ls, rest) := split_lines r in
      if is_code 10 c then ([] :: ls, rest)
      else match ls with
           | [] => ([], c :: rest)
           | l :: ls => ((c :: l) :: ls, rest)
           end
  end.

(** The data of a line, or [None] *)
Definition data_of (line : text) : option string :=
  let trimmed := trim (of_text line) in
  if startsWith trimmed "data:" then Some (trim (slice_from 5 trimmed)) else None.

Definition handle_line (now : Z) (line : text) : run unit :=
  match data_of line with
  | None => mret tt
  | Some d =>
      if String.eqb d "[DONE]" then handle_done
      else match parse_string d with
           | Some data => attempt (handle_chunk now data)
           | None => mret tt
           end
  end.

(** [transform(chunk)], decoded. The context it works on is the one it found: the rest of a
    chunk after [[DONE]] is still handled. *)
Definition transform (now : Z) (chunk : text) : run unit :=
  l ← gets live;
  when l
    (c ← gets ctx;
     let '(lines, rest) := split_lines (buffer c ++ chunk) in
     update (set_buffer rest);;
     for_each lines (handle_line now)).

Definition flush : run unit :=
  l ← gets live;
  when l flush_context.

(** The whole body, in the chunks it arrived in *)
Definition translate (now : Z) (chunks : list text) (s : stream) : stream :=
  final (for_each chunks (transform now);; flush) s.

Definition sample (lines : list string) : list text :=
  map (λ l, to_text l ++ [LF; LF]) lines.

(** * What an upstream message is

    The parts of a reply in the order they may come in: thinking and text once each, in
    either order, then tool calls. A delta that goes back to an earlier part, or a tool call
    that never says what it calls, has no place in a Messages stream. *)

Inductive lead : Type :=
  | LNone
  | LThinking (r : string)
  | LText (c : string)
  | LThinkingText (r c : string)
  | LTextThinking (c r : string).

Record tool := { t_id : string; t_name : string; t_args : string }.

Record upstream := {
  u_lead : lead;
  u_tools : list (Z * tool);
  u_finish : option string }.

Definition u_init : upstream := {| u_lead := LNone; u_tools := []; u_finish := None |}.

Definition add_thinking (s : string) (l : lead) : option lead :=
  match l with
  | LNone => Some (LThinking s)
  | LThinking r => Some (LThinking (r +:+ s))
  | LText c => Some (LTextThinking c s)
  | LTextThinking c r => Some (LTextThinking c (r +:+ s))
  | LThinkingText _ _ => None
  end.

Definition add_text (s : string) (l : lead) : option lead :=
  match l with
  | LNone => Some (LText s)
  | LText c => Some (LText (c +:+ s))
  | LThinking r => Some (LThinkingText r s)
  | LThinkingText r c => Some (LThinkingText r (c +:+ s))
  | LTextThinking _ _ => None
  end.

(** An absent or empty part, or a string *)
Definition part (v : value) : option (option string) :=
  if truthy v then s ← as_string v; Some (Some s) else Some None.

Definition absorb_part (add : string → lead → option lead) (v : value) (u : upstream) : option upstream :=
  p ← part v;
  match p with
  | None => Some u
  | Some s =>
      if bool_decide (u_tools u = []) then
        l ← add s (u_lead u); Some {| u_lead := l; u_tools := []; u_finish := u_finish u |}
      else None
  end.

Definition nonempty (v : value) : option string := if truthy v then as_string v else None.

Fixpoint tool_at (idx : Z) (l : list (Z * tool)) : option tool :=
  match l with
  | [] => None
  | (i, t) :: l => if i =? idx then Some t else tool_at idx l
  end.

Fixpoint more_args (idx : Z) (args : string) (l : list (Z * tool)) : list (Z * tool) :=
  match l with
  | [] => []
  | (i, t) :: l =>
      if i =? idx then (i, {| t_id := t_id t; t_name := t_name t; t_args := t_args t +:+ args |}) :: l
      else (i, t) :: more_args idx args l
  end.

Definition absorb_tool (u : upstream) (toolCall : json) : option upstream :=
  idx ← as_number (own "index" toolCall) ≫= as_integer;
  args ← part (opt_prop (own "function" toolCall) "arguments");
  let args := default ""%string args in
  if (0 <=? idx) && (idx <? maxToolCallIndex) && (units args <=? maxToolCallLength) then
    tools ← match tool_at idx (u_tools u) with
            | Some _ => Some (more_args idx args (u_tools u))
            | None =>
                id ← nonempty (own "id" toolCall);
                name ← nonempty (opt_prop (own "function" toolCall) "name");
                Some (u_tools u ++ [(idx, {| t_id := id; t_name := name; t_args := args |})])
            end;
    Some {| u_lead := u_lead u; u_tools := tools; u_finish := u_finish u |}
  else None.

Definition finish_of (data : json) (old : option string) : option string :=
  match as_string (opt_prop (first_choice data) "finish_reason") with
  | Some (String _ _ as r) => Some r
  | _ => old
  end.

Definition absorb (u : upstream) (data : json) : option upstream :=
  if nullish (Some data) then None else
  let u := {| u_lead := u_lead u; u_tools := u_tools u; u_finish := finish_of data (u_finish u) |} in
  let delta := opt_prop (first_choice data) "delta" in
  let tool_calls := opt_prop delta "tool_calls" in
  if truthy tool_calls then
    match tool_calls with
    | Some (JArr l) =>
        if truthy (opt_prop delta "reasoning_content") || truthy (opt_prop delta "content") then None
        else foldl (λ u t, u ≫= λ u, absorb_tool u t) (Some u) l
    | _ => None
    end
  else
    u ← absorb_part add_thinking (opt_prop delta "reasoning_content") u;
    absorb_part add_text (opt_prop delta "content") u.

Definition absorb_all (ds : list json) : option upstream :=
  foldl (λ u d, u ≫= λ u, absorb u d) (Some u_init) ds.

(** The blocks of the reply *)
Definition closed_block (b : block) (s : string) : bstate := {| b_kind := b; b_text := s; b_open := false |}.
Definition lead_blocks (last_open : bool) (l : lead) : list bstate :=
  let last b s := {| b_kind := b; b_text := s; b_open := last_open |} in
  match l with
  | LNone => []
  | LThinking r => [last ThinkingBlock r]
  | LText c => [last TextBlock c]
  | LThinkingText r c => [closed_block ThinkingBlock r; last TextBlock c]
  | LTextThinking c r => [closed_block TextBlock c; last ThinkingBlock r]
  end.

Definition tool_block (t : tool) : block := ToolBlock (t_id t) (t_name t).
Definition repaired (args : string) : string := args +:+ repairTruncatedToolJson args.

Definition reply_blocks (u : upstream) : list bstate :=
  lead_blocks false (u_lead u)
  ++ map (λ t, closed_block (tool_block t.2) (repaired (t_args t.2))) (u_tools u).

Definition reply_stop (u : upstream) : string :=
  if bool_decide (u_finish u = Some "length"%string) then "max_tokens"
  else if bool_decide (u_tools u = []) then "end_turn" else "tool_use".

(** ** The events say what they were built from *)

Lemma view_start now m : view (ev_message_start now m) = MMessageStart (Some m). Proof. done. Qed.
Lemma view_ping : view ev_ping = MPing. Proof. done. Qed.
Lemma view_block_stop i : view (ev_block_stop i) = MBlockStop i. Proof. done. Qed.
Lemma view_text i s : view (ev_delta i "text_delta" "text" (JStr s)) = MBlockDelta i TextDelta s.
Proof. done. Qed.
Lemma view_thinking i s :
  view (ev_delta i "thinking_delta" "thinking" (JStr s)) = MBlockDelta i ThinkingDelta s.
Proof. done. Qed.
Lemma view_json i s :
  view (ev_delta i "input_json_delta" "partial_json" (JStr s)) = MBlockDelta i InputJsonDelta s.
Proof. done. Qed.
Lemma view_message_delta r u : view (ev_message_delta r u) = MMessageDelta r (Some (obj u)).
Proof. done. Qed.
Lemma view_message_stop : view ev_message_stop = MMessageStop. Proof. done. Qed.

Lemma says_snoc o f p p' : says o p → p_step p (view f) = Some p' → says (o ++ [f]) p'.
Proof. intros Ho Hp. eapply says_app; [done|]. cbn. by rewrite Hp. Qed.

(** ** The context of a message under construction *)

Definition lead_count (l : lead) : Z :=
  match l with LNone => 0 | LThinking _ | LText _ => 1 | _ => 2 end.

(** The flags of the thinking and the text block; a tool call closes both. *)
Definition lead_flags (l : lead) (tools : bool) (c : context) : Prop :=
  hasSentThinkingBlockStart c
    = match l with LThinking _ | LThinkingText _ _ | LTextThinking _ _ => true | _ => false end
  ∧ hasSentContentBlockStart c
    = match l with LText _ | LThinkingText _ _ | LTextThinking _ _ => true | _ => false end
  ∧ thinkingBlockClosed c
    = match l with LThinking _ | LTextThinking _ _ => tools | LThinkingText _ _ => true | _ => false end
  ∧ textBlockClosed c
    = match l with LText _ | LThinkingText _ _ => tools | LTextThinking _ _ => true | _ => false end
  ∧ match l with
    | LNone => True
    | LThinking _ => thinkingBlockIndex c = 0
    | LText _ => textBlockIndex c = 0
    | LThinkingText _ _ => thinkingBlockIndex c = 0 ∧ textBlockIndex c = 1
    | LTextThinking _ _ => textBlockIndex c = 0 ∧ thinkingBlockIndex c = 1
    end.

Definition has_tools (u : upstream) : bool := negb (bool_decide (u_tools u = [])).

(** [shut]: the lead is closed, as it is once there is a tool call. *)
Record tracks (shut : bool) (u : upstream) (c : context) : Prop := {
  tr_lead : lead_flags (u_lead u) shut c;
  tr_next : nextBlockIndex c = lead_count (u_lead u) + Z.of_nat (length (u_tools u));
  tr_accumulators : entries (toolCallAccumulators c) = map (λ t, (Qc_of_Z t.1, t_args t.2)) (u_tools u);
  tr_indices : entries (toolCallBlockIndices c)
    = imap (λ k t, (Qc_of_Z t.1, lead_count (u_lead u) + Z.of_nat k)) (u_tools u);
  tr_finish : finishReason c = u_finish u }.

(** The blocks while the reply goes on: tool arguments are held back. *)
Definition open_blocks (shut : bool) (u : upstream) : list bstate :=
  lead_blocks (negb shut) (u_lead u)
  ++ map (λ t, {| b_kind := tool_block t.2; b_text := ""; b_open := true |}) (u_tools u).

Definition proto_at (bs : list bstate) : proto :=
  {| p_started := true; p_blocks := bs; p_stop := None; p_usage := None; p_ended := false |}.

Record ready (shut : bool) (u : upstream) (s : stream) : Prop := {
  rd_tracks : tracks shut u (ctx s);
  rd_sent : hasSentStart (ctx s) = true;
  rd_says : says (out s) (proto_at (open_blocks shut u)) }.

Definition with_lead (l : lead) (u : upstream) : upstream :=
  {| u_lead := l; u_tools := u_tools u; u_finish := u_finish u |}.

(** The events sent since [H] *)
Ltac says_by H :=
  first [exact H | rewrite <-?app_assoc; eapply says_app; [exact H|reflexivity]].

Lemma bind_update {A} f (k : unit → run A) s : (update f ≫= k) s = k tt (with_ctx f s).
Proof. done. Qed.
Lemma bind_gets {A B} (f : stream → A) (k : A → run B) s : (gets f ≫= k) s = k (f s) s.
Proof. done. Qed.
Lemma bind_ok {A B} (p : run A) (k : A → run B) s x s' : p s = (Some x, s') → (p ≫= k) s = k x s'.
Proof. unfold mbind, prog_bind. by intros ->. Qed.

(** Runs the operations on an explicit state. *)
Ltac exec :=
  cbv [final content_delta reasoning_delta close_text close_thinking open_tool send_start
       mbind prog_bind mret prog_ret gets modify when emit update with_ctx
       close_text_flag close_thinking_flag sent_text sent_thinking place_thinking set_blocks set_sent
       open_slot set_tools negb andb orb
       ctx live out unreported buffer hasStarted extractedModel requestId hasSentStart
       hasSentContentBlockStart hasSentThinkingBlockStart thinkingBlockClosed textBlockClosed
       thinkingBlockIndex textBlockIndex promptTokens completionTokens cacheReadInput cacheCreationInput
       sawUsage finishReason encounteredToolCall toolCallAccumulators nextBlockIndex
       toolCallBlockIndices fst snd].

Ltac ready_cases H Hsays :=
  let Ht := fresh in let Hsent := fresh in let c := fresh "c" in let l := fresh "l" in
  destruct H as [Ht Hsent Hsays];
  match goal with s : stream, u : upstream |- _ =>
    destruct s as [c ? ? ?], u as [l ? ?], c;
    destruct Ht as [(? & ? & ? & ? & ?) ? ? ? ?]; cbn in *; subst;
    destruct l; simplify_eq/=; destruct_and?; subst
  end.

Lemma content_ready u s v l' :
  ready false u s → u_tools u = [] → add_text v (u_lead u) = Some l' →
  ready false (with_lead l' u) (final (content_delta (JStr v)) s).
Proof.
  intros H Hnil Hadd. ready_cases H Hsays; exec; (split; [split; cbn; repeat split; lia || done|done|]);
    cbn [out]; says_by Hsays.
Qed.

Lemma reasoning_ready u s v l' :
  ready false u s → u_tools u = [] → add_thinking v (u_lead u) = Some l' →
  ready false (with_lead l' u) (final (reasoning_delta (JStr v)) s).
Proof.
  intros H Hnil Hadd. ready_cases H Hsays; exec; (split; [split; cbn; repeat split; lia || done|done|]);
    cbn [out]; says_by Hsays.
Qed.

Lemma close_lead_ready shut u s : ready shut u s → ready true u (final close_lead s).
Proof.
  intros H. unfold close_lead. ready_cases H Hsays; destruct shut; exec;
    (split; [split; cbn; repeat split; lia || done|done|]); cbn [out]; says_by Hsays.
Qed.

(** ** Tool calls *)

Lemma as_integer_Qc q z : as_integer q = Some z → q = Qc_of_Z z.
Proof.
  unfold as_integer. destruct (_ =? 1)%positive eqn:E; [|done]. intros [= <-].
  by apply integer_Qc, Pos.eqb_eq.
Qed.

Lemma truthy_nonempty v s : nonempty v = Some s → truthy v = true ∧ v = Some (JStr s).
Proof.
  unfold nonempty. destruct (truthy v) eqn:E; [|done]. destruct v as [[]|]; cbn; intros; by simplify_eq.
Qed.

Lemma part_or_string v a : part v = Some a → or_string v "" = JStr (default ""%string a).
Proof.
  unfold part, or_string, either. destruct (truthy v) eqn:E.
  - destruct v as [[]|]; cbn; intros; by simplify_eq/=.
  - intros [= <-]. done.
Qed.

Lemma accumulators_at i ts :
  alist_get (Qc_of_Z i) (map (λ t, (Qc_of_Z t.1, t_args t.2)) ts) = t_args <$> tool_at i ts.
Proof.
  induction ts as [|[j t] ts IH]; [done|]. cbn. destruct (Z.eqb_spec j i) as [->|Hne].
  - by rewrite decide_True.
  - rewrite decide_False; [done|]. by intros ?%Z2Qc_inj.
Qed.

Lemma tool_at_keys i ts : tool_at i ts = None ↔ i ∉ ts.*1.
Proof.
  induction ts as [|[j t] ts IH]; cbn; [split; [intros _; apply not_elem_of_nil|done]|].
  rewrite not_elem_of_cons. destruct (Z.eqb_spec j i); naive_solver.
Qed.

Lemma more_args_accumulators i args ts t :
  tool_at i ts = Some t →
  alist_set (Qc_of_Z i) (t_args t +:+ args) (map (λ t, (Qc_of_Z t.1, t_args t.2)) ts)
  = map (λ t, (Qc_of_Z t.1, t_args t.2)) (more_args i args ts).
Proof.
  induction ts as [|[j t'] ts IH]; cbn; [done|]. destruct (Z.eqb_spec j i) as [->|Hne].
  - intros [= ->]. by rewrite decide_True.
  - intros Ht. rewrite decide_False by (by intros ?%Z2Qc_inj). cbn. by rewrite IH.
Qed.

Lemma more_args_keeps {A} (f : Z → tool → A) i args ts :
  (∀ k t, f k {| t_id := t_id t; t_name := t_name t; t_args := t_args t +:+ args |} = f k t) →
  map (λ t, f t.1 t.2) (more_args i args ts) = map (λ t, f t.1 t.2) ts.
Proof.
  intros Hf. induction ts as [|[j t'] ts IH]; cbn; [done|]. destruct (Z.eqb_spec j i); cbn; [by rewrite Hf|].
  by rewrite IH.
Qed.

Lemma more_args_keys i args ts : map fst (more_args i args ts) = map fst ts.
Proof. exact (more_args_keeps (λ k _, k) i args ts (λ _ _, eq_refl)). Qed.

Lemma imap_keys {A B} (f : nat → A → B) (ts ts' : list (A * tool)) :
  map fst ts = map fst ts' → imap (λ k t, f k t.1) ts = imap (λ k t, f k t.1) ts'.
Proof.
  revert ts' f. induction ts as [|t ts IH]; intros [|t' ts'] f; cbn; try done.
  intros [= H1 H2]. rewrite H1. f_equal. by apply (IH ts' (λ k, f (S k))).
Qed.

Lemma entries_insert {V} (k : Qc) (v : V) (m : jmap Qc V) :
  entries (<[k:=v]> m) = alist_set k v (entries m).
Proof. done. Qed.
Lemma lookup_entries {V} (k : Qc) (m : jmap Qc V) : m !! k = alist_get k (entries m).
Proof. done. Qed.

(** The arguments of a known tool call are added to it. *)
Lemma buffer_arguments_eq idx toolCall a s :
  part (opt_prop (own "function" toolCall) "arguments") = Some a →
  units (default ""%string a) <= maxToolCallLength →
  buffer_arguments idx toolCall s = (Some tt, with_ctx (buffer_slot idx (default ""%string a)) s).
Proof.
  intros Ha Hlen. unfold buffer_arguments. rewrite (part_or_string _ _ Ha). cbn [js_length js_string].
  cbn [from_option]. rewrite bool_decide_eq_false_2; [done|].
  intros H%Z2Qc_inj_lt. lia.
Qed.

Lemma buffer_known u s idx args t :
  ready true u s → tool_at idx (u_tools u) = Some t →
  ready true {| u_lead := u_lead u; u_tools := more_args idx args (u_tools u); u_finish := u_finish u |}
    (with_ctx (buffer_slot (Qc_of_Z idx) args) s).
Proof.
  intros [[Hl Hn Ha Hi Hf] Hsent Hsays] Ht. split; [split|done|]; cbn.
  - exact Hl.
  - rewrite Hn. f_equal. f_equal. by rewrite <-(length_map fst), <-(more_args_keys idx args), length_map.
  - rewrite entries_insert, lookup_entries, Ha, accumulators_at, Ht. cbn. by apply more_args_accumulators.
  - rewrite Hi. apply (imap_keys (λ k i, (Qc_of_Z i, lead_count (u_lead u) + Z.of_nat k))).
    by rewrite more_args_keys.
  - exact Hf.
  - unfold open_blocks in *. cbn. rewrite (more_args_keeps (λ _ t, {| b_kind := tool_block t; b_text := ""; b_open := true |})); done.
Qed.

Lemma alist_set_snoc {K V} `{!EqDecision K} (k : K) (v w : V) l :
  k ∉ l.*1 → alist_set k v (l ++ [(k, w)]) = l ++ [(k, v)].
Proof.
  induction l as [|[k' v'] l IH]; cbn; [by rewrite decide_True|].
  intros [Hne Hk]%not_elem_of_cons. rewrite decide_False by done. by rewrite IH.
Qed.

Definition new_tool (idx : Z) (t : tool) (u : upstream) : upstream :=
  {| u_lead := u_lead u; u_tools := u_tools u ++ [(idx, t)]; u_finish := u_finish u |}.

Lemma open_blocks_length shut u :
  Z.of_nat (length (open_blocks shut u)) = lead_count (u_lead u) + Z.of_nat (length (u_tools u)).
Proof. unfold open_blocks. rewrite length_app, length_map. destruct (u_lead u); cbn; lia. Qed.

Lemma view_tool_start i toolCall id name :
  own "id" toolCall = Some (JStr id) → opt_prop (own "function" toolCall) "name" = Some (JStr name) →
  view (ev_block_start i (tool_start toolCall)) = MBlockStart i (ToolBlock id name).
Proof. intros Hid Hname. unfold tool_start. by rewrite Hid, Hname. Qed.

Lemma open_slot_ready u s idx toolCall id name args :
  ready true u s → tool_at idx (u_tools u) = None →
  own "id" toolCall = Some (JStr id) → opt_prop (own "function" toolCall) "name" = Some (JStr name) →
  ready true (new_tool idx {| t_id := id; t_name := name; t_args := args |} u)
    (with_ctx (buffer_slot (Qc_of_Z idx) args)
      {| ctx := open_slot (Qc_of_Z idx) (ctx s); live := live s;
         out := out s ++ [ev_block_start (nextBlockIndex (ctx s)) (tool_start toolCall)];
         unreported := unreported s |}).
Proof.
  intros [[Hl Hn Ha Hi Hf] Hsent Hsays] Ht Hid Hname. split; [split|done|]; cbn.
  - exact Hl.
  - rewrite Hn, length_app. cbn. lia.
  - rewrite entries_insert, lookup_entries, entries_insert, Ha, map_app.
    assert (Qc_of_Z idx ∉ (map (λ t, (Qc_of_Z t.1, t_args t.2)) (u_tools u)).*1) as Hfresh
      by (apply alist_get_None; by rewrite accumulators_at, Ht).
    rewrite alist_get_set, decide_True by done. cbn [default from_option].
    rewrite (alist_set_fresh _ ""%string _ Hfresh). by apply alist_set_snoc.
  - rewrite entries_insert, Hi, imap_app, Hn. cbn. rewrite Nat.add_0_r. apply alist_set_fresh.
    rewrite fmap_imap. apply tool_at_keys in Ht. contradict Ht.
    apply elem_of_lookup_imap_1 in Ht as (k & [j t] & Heq & Hk). cbn in Heq.
    apply Z2Qc_inj in Heq as ->. apply list_elem_of_lookup_2 in Hk.
    apply list_elem_of_fmap. by exists (j, t).
  - exact Hf.
  - eapply says_snoc; [exact Hsays|]. rewrite (view_tool_start _ _ id name), Hn by done. cbn [p_step].
    change (p_blocks (proto_at (open_blocks true u))) with (open_blocks true u).
    rewrite open_blocks_length, Z.eqb_refl. cbn. unfold open_blocks, new_tool. cbn.
    by rewrite map_app, app_assoc.
Qed.

Lemma close_lead_ok s : close_lead s = (Some tt, final close_lead s).
Proof.
  destruct s as [c lv o un], c as [? ? ? ? ? ht hr hc hk]. by destruct ht, hr, hc, hk.
Qed.

Lemma close_lead_encountered s :
  encounteredToolCall (ctx (final close_lead s)) = encounteredToolCall (ctx s).
Proof.
  destruct s as [c lv o un], c as [? ? ? ? ? ht hr hc hk]. by destruct ht, hr, hc, hk.
Qed.

Lemma ready_encounter shut u s : ready shut u s → ready shut u (with_ctx encounter s).
Proof. intros [[Hl Hn Ha Hi Hf] Hsent Hsays]. split; [by split|done|exact Hsays]. Qed.

Lemma has_tools_at u i t : tool_at i (u_tools u) = Some t → has_tools u = true.
Proof. unfold has_tools. by destruct (u_tools u). Qed.

Lemma tool_call_ready u s toolCall u' :
  ready (has_tools u) u s → absorb_tool u toolCall = Some u' →
  ∃ s', tool_call toolCall s = (Some tt, s') ∧ ready true u' s' ∧ has_tools u' = true
    ∧ encounteredToolCall (ctx s') = true.
Proof.
  intros Hr Ha. unfold absorb_tool in Ha.
  destruct (as_number (own "index" toolCall)) as [q|] eqn:Eq; cbn in Ha; [|done].
  destruct (as_integer q) as [idx|] eqn:Ez; cbn in Ha; [|done].
  destruct (part (opt_prop (own "function" toolCall) "arguments")) as [a|] eqn:Ep; cbn in Ha; [|done].
  destruct ((0 <=? idx) && _ && _) eqn:Eb; [|done]. prop_bools.
  apply as_integer_Qc in Ez. subst q.
  assert (nullish (Some toolCall) = false) as Hn by (by destruct toolCall).
  unfold tool_call. rewrite bind_update, Hn, Eq.
  rewrite !bool_decide_eq_false_2 by (intros Hq; first [apply Z2Qc_inj_lt in Hq|apply Z2Qc_inj_le in Hq]; lia).
  cbn [orb]. rewrite bind_gets. apply ready_encounter in Hr.
  set (s1 := with_ctx encounter s) in *. pose proof (tr_accumulators _ _ _ (rd_tracks _ _ _ Hr)) as Hacc.
  rewrite lookup_entries, Hacc, accumulators_at.
  destruct (tool_at idx (u_tools u)) as [t|] eqn:Et; cbn [fmap option_fmap option_map] in *; simplify_eq/=.
  - rewrite (has_tools_at _ _ _ Et) in Hr. eexists. rewrite (buffer_arguments_eq _ _ a) by done.
    split; [done|]. split; [by eapply buffer_known|]. split; [|done].
    unfold has_tools. cbn. destruct (u_tools u) as [|[j t'] ts]; [done|]. cbn. by destruct (j =? idx).
  - destruct (nonempty (own "id" toolCall)) as [id|] eqn:Eid; cbn in Ha; [|done].
    destruct (nonempty (opt_prop _ "name")) as [name|] eqn:En; cbn in Ha; [|done]. simplify_eq.
    apply truthy_nonempty in Eid as [Hid Hid'], En as [Hname Hname'].
    rewrite Hid, Hname. cbn [negb orb]. unfold open_tool.
    apply close_lead_ready in Hr. set (s2 := final close_lead s1) in *.
    assert (encounteredToolCall (ctx s2) = true) as Henc.
      by (unfold s2; rewrite close_lead_encountered; done).
    eexists. split.
    + erewrite bind_ok; [by apply (buffer_arguments_eq _ _ a)|].
      rewrite (bind_ok _ _ _ _ _ (close_lead_ok s1)). fold s2. reflexivity.
    + split; [by apply (open_slot_ready u s2)|]. split; [|exact Henc].
      unfold has_tools. cbn. by destruct (u_tools u).
Qed.

Definition with_finish (f : option string) (u : upstream) : upstream :=
  {| u_lead := u_lead u; u_tools := u_tools u; u_finish := f |}.

(** What the stream has sent, and what its context remembers of it *)
Record built (u : upstream) (s : stream) : Prop := {
  bt_tracks : tracks (has_tools u) u (ctx s);
  bt_encountered : encounteredToolCall (ctx s) = has_tools u;
  bt_says : if hasSentStart (ctx s) then says (out s) (proto_at (open_blocks (has_tools u) u))
            else out s = [] ∧ u_lead u = LNone ∧ u_tools u = [] }.

Lemma built_ready u s :
  ready (has_tools u) u s → encounteredToolCall (ctx s) = has_tools u → built u s.
Proof. intros [Ht Hs Hsays] He. split; [done|done|]. by rewrite Hs. Qed.

Lemma note_report_keeps data c :
  let c' := note_report data c in
  hasSentStart c' = hasSentStart c ∧ encounteredToolCall c' = encounteredToolCall c ∧
  ∀ u shut, tracks shut u c → tracks shut (with_finish (finish_of data (u_finish u)) u) c'.
Proof.
  cbv zeta. unfold note_report. repeat case_match; (split; [done|]; split; [done|]).
  all: intros u shut [Hl Hn Ha Hi Hf]; split; try done; cbn; unfold finish_of; rewrite <-Hf.
  all: by repeat case_match; simplify_eq.
Qed.

Lemma start_ready now u s :
  tracks (has_tools u) u (ctx s) →
  (if hasSentStart (ctx s) then says (out s) (proto_at (open_blocks (has_tools u) u))
   else out s = [] ∧ u_lead u = LNone ∧ u_tools u = []) →
  ∃ s', send_start now s = (Some tt, s') ∧ ready (has_tools u) u s'
    ∧ encounteredToolCall (ctx s') = encounteredToolCall (ctx s).
Proof.
  intros Ht Hsays. unfold send_start. rewrite bind_gets. destruct (hasSentStart (ctx s)) eqn:E; cbn [negb when].
  - exists s. by split_and!.
  - destruct Hsays as (Hout & Hl & Hts). eexists. split; [reflexivity|]. split; [|done].
    split; [|done|].
    + destruct Ht as [Hlead Hn Ha Hi Hf]. by split.
    + cbn. rewrite Hout. unfold open_blocks. rewrite Hl, Hts. done.
Qed.

Lemma tool_calls_ready l u s u' :
  ready (has_tools u) u s → encounteredToolCall (ctx s) = has_tools u →
  foldl (λ u t, u ≫= λ u, absorb_tool u t) (Some u) l = Some u' →
  ∃ s', for_each l tool_call s = (Some tt, s') ∧ ready (has_tools u') u' s'
    ∧ encounteredToolCall (ctx s') = has_tools u'.
Proof.
  revert u s. induction l as [|t l IH]; intros u s Hr He Hf; cbn in *.
  - simplify_eq. by exists s.
  - destruct (absorb_tool u t) as [u1|] eqn:E.
    2: { exfalso. clear -Hf. induction l; done. }
    destruct (tool_call_ready u s t u1 Hr E) as (s1 & Hs1 & Hr1 & Ht1 & He1).
    rewrite (bind_ok _ _ _ _ _ Hs1). apply (IH u1); [by rewrite Ht1|by rewrite Ht1|done].
Qed.

Lemma content_encountered v s :
  encounteredToolCall (ctx (final (content_delta v) s)) = encounteredToolCall (ctx s)
  ∧ content_delta v s = (Some tt, final (content_delta v) s).
Proof. destruct s as [c lv o un], c as [? ? ? ? ? ht hr hc hk]. by destruct ht, hr, hc, hk. Qed.

Lemma reasoning_encountered v s :
  encounteredToolCall (ctx (final (reasoning_delta v) s)) = encounteredToolCall (ctx s)
  ∧ reasoning_delta v s = (Some tt, final (reasoning_delta v) s).
Proof. destruct s as [c lv o un], c as [? ? ? ? ? ht hr hc hk]. by destruct ht, hr, hc, hk. Qed.

Lemma part_ready add op v u s u' :
  (∀ u s v l, ready false u s → u_tools u = [] → add v (u_lead u) = Some l →
     ready false (with_lead l u) (final (op (JStr v)) s)) →
  (∀ v s, encounteredToolCall (ctx (final (op v) s)) = encounteredToolCall (ctx s)
     ∧ op v s = (Some tt, final (op v) s)) →
  ready (has_tools u) u s → encounteredToolCall (ctx s) = has_tools u →
  absorb_part add v u = Some u' →
  ∃ s', if_truthy v op s = (Some tt, s') ∧ ready (has_tools u') u' s'
    ∧ encounteredToolCall (ctx s') = has_tools u'.
Proof.
  intros Hop Hok Hr He Ha. unfold absorb_part, part in Ha. destruct (truthy v) eqn:Ev.
  - destruct v as [x|]; [|done]. destruct x as [| | |str| |]; cbn in Ha; try done.
    case_bool_decide as Hnil; [|done]. destruct (add str (u_lead u)) as [l|] eqn:El; cbn in Ha; simplify_eq.
    assert (has_tools u = false) as Hh by (unfold has_tools; by rewrite Hnil).
    cbn [if_truthy]. rewrite Ev. cbn [when].
    destruct (Hok (JStr str) s) as [Henc Heq]. rewrite Hh in Hr.
    exists (final (op (JStr str)) s). split; [done|].
    pose proof (Hop u s str l Hr Hnil El) as H. unfold with_lead in H. rewrite Hnil in H.
    split; [done|]. by rewrite Henc, He, Hh.
  - cbn in Ha. simplify_eq. exists s. unfold if_truthy. destruct v; [|by split_and!].
    rewrite Ev. by split_and!.
Qed.

Lemma handle_chunk_built now data u s u' :
  built u s → absorb u data = Some u' →
  ∃ s', handle_chunk now data s = (Some tt, s') ∧ ready (has_tools u') u' s'
    ∧ encounteredToolCall (ctx s') = has_tools u'.
Proof.
  intros [Ht He Hsays] Ha. unfold absorb in Ha. unfold handle_chunk.
  destruct (nullish (Some data)); [done|]. rewrite bind_update.
  destruct (note_report_keeps data (ctx s)) as (Hsent & Henc & Htr).
  set (u0 := with_finish (finish_of data (u_finish u)) u) in *.
  change {| u_lead := u_lead u; u_tools := u_tools u; u_finish := finish_of data (u_finish u) |}
    with u0 in Ha.
  destruct (start_ready now u0 (with_ctx (note_report data) s)) as (s1 & Hs1 & Hr1 & He1).
  { by apply Htr. }
  { cbn [ctx with_ctx out]. by rewrite Hsent. }
  cbn [ctx with_ctx] in He1. rewrite Henc, He in He1. change (has_tools u) with (has_tools u0) in He1.
  rewrite (bind_ok _ _ _ _ _ Hs1).
  destruct (truthy (opt_prop _ "tool_calls")).
  - destruct (opt_prop _ "tool_calls") as [[]|]; try done. destruct (_ || _); [done|].
    by apply (tool_calls_ready l u0 s1 u').
  - destruct (absorb_part add_thinking _ u0) as [u1|] eqn:E1; cbn [mbind option_bind] in Ha; [|done].
    destruct (part_ready _ reasoning_delta _ _ _ _ reasoning_ready reasoning_encountered Hr1 He1 E1)
      as (s2 & Hs2 & Hr2 & He2).
    rewrite (bind_ok _ _ _ _ _ Hs2).
    by apply (part_ready _ content_delta _ _ _ _ content_ready content_encountered Hr2 He2).
Qed.

Definition handle_chunks (now : Z) (ds : list json) : run unit :=
  for_each ds (λ d, attempt (handle_chunk now d)).

Lemma handle_chunks_built now ds u s u' :
  built u s → foldl (λ u d, u ≫= λ u, absorb u d) (Some u) ds = Some u' →
  ∃ s', handle_chunks now ds s = (Some tt, s') ∧ built u' s'
    ∧ hasSentStart (ctx s') = hasSentStart (ctx s) || negb (bool_decide (ds = [])).
Proof.
  revert u s. induction ds as [|d ds IH]; intros u s Hb Hf; cbn in *.
  - simplify_eq. exists s. by rewrite orb_false_r.
  - destruct (absorb u d) as [u1|] eqn:E.
    2: { exfalso. clear -Hf. induction ds; done. }
    destruct (handle_chunk_built now d u s u1 Hb E) as (s1 & Hs1 & Hr1 & He1).
    assert (attempt (handle_chunk now d) s = (Some tt, s1)) as Hat by (unfold attempt; by rewrite Hs1).
    destruct (IH u1 s1) as (s' & Hs' & Hb' & Hsent'); [by apply built_ready|done|].
    exists s'. unfold handle_chunks. cbn. rewrite (bind_ok _ _ _ _ _ Hat). split; [exact Hs'|].
    split; [done|]. rewrite Hsent', (rd_sent _ _ _ Hr1). by rewrite orb_true_r.
Qed.

Lemma built_init m r : built u_init (init m r).
Proof. split; [by split; cbn|done|done]. Qed.

(** ** The end of the message *)

Lemma for_each_emit {A} (l : list A) (f : A → frame) s :
  for_each l (λ x, emit (f x)) s
  = (Some tt, {| ctx := ctx s; live := live s; out := out s ++ map f l; unreported := unreported s |}).
Proof.
  revert s. induction l as [|x l IH]; intros s; cbn; [rewrite app_nil_r; by destruct s|].
  erewrite bind_ok by reflexivity. rewrite IH. cbn. by rewrite <-app_assoc.
Qed.

(** Each of some blocks is changed once. *)
Definition alter_all {A} (f : A → bstate → bstate) (l : list (Z * A)) (bs : list bstate) : list bstate :=
  foldl (λ bs x, alter (f x.2) (Z.to_nat x.1) bs) bs l.

Section alter_all.
Context {A : Type} (f : A → bstate → bstate).
Implicit Types (l : list (Z * A)) (bs : list bstate).

Lemma alter_all_cons x l bs :
  alter_all f (x :: l) bs = alter_all f l (alter (f x.2) (Z.to_nat x.1) bs).
Proof. done. Qed.

Lemma alter_all_other l bs k : (∀ x, x ∈ l → Z.to_nat x.1 ≠ k) → alter_all f l bs !! k = bs !! k.
Proof.
  revert bs. induction l as [|x l IH]; intros bs Hk; [done|]. rewrite alter_all_cons.
  rewrite (IH _) by (intros y Hy; apply Hk; by right).
  apply list_lookup_alter_ne. apply Hk. by left.
Qed.

Lemma alter_all_at l bs i a :
  NoDup (l.*1) → Forall (λ x, 0 <= x.1) l → (i, a) ∈ l →
  alter_all f l bs !! Z.to_nat i = f a <$> bs !! Z.to_nat i.
Proof.
  revert bs. induction l as [|[j b] l IH]; intros bs Hnd Hpos Hin; [by apply not_elem_of_nil in Hin|].
  cbn in Hnd. apply NoDup_cons in Hnd as [Hj Hnd]. apply Forall_cons in Hpos as [Hj0 Hpos].
  rewrite alter_all_cons. cbn [fst snd]. apply elem_of_cons in Hin as [[= -> ->]|Hin].
  - rewrite alter_all_other; [by rewrite list_lookup_alter_eq|].
    intros [k c] Hk Heq. apply Hj. apply list_elem_of_fmap. exists (k, c). split; [|done].
    rewrite Forall_forall in Hpos. specialize (Hpos _ Hk). cbn in *. lia.
  - rewrite IH by done. f_equal. apply list_lookup_alter_ne. intros Heq. apply Hj.
    apply list_elem_of_fmap. exists (i, a). split; [|done].
    rewrite Forall_forall in Hpos. specialize (Hpos _ Hin). cbn in *. lia.
Qed.

Lemma alter_all_run (ev : Z * A → mevent) (ok : A → bstate → Prop) l bs :
  (∀ x b bs, 0 <= x.1 → bs !! Z.to_nat x.1 = Some b → ok x.2 b →
     p_step (proto_at bs) (ev x) = Some (proto_at (alter (f x.2) (Z.to_nat x.1) bs))) →
  NoDup (l.*1) → Forall (λ x, 0 <= x.1) l →
  (∀ x, x ∈ l → ∃ b, bs !! Z.to_nat x.1 = Some b ∧ ok x.2 b) →
  p_run (proto_at bs) (map ev l) = Some (proto_at (alter_all f l bs)).
Proof.
  intros Hev. revert bs. induction l as [|x l IH]; intros bs Hnd Hpos Hok; [done|].
  cbn in Hnd. apply NoDup_cons in Hnd as [Hx Hnd]. apply Forall_cons in Hpos as [Hx0 Hpos]. cbn.
  destruct (Hok x) as (b & Hb & Hokb); [by left|]. rewrite (Hev x b) by done. cbn.
  rewrite IH; [done|done|done|]. intros y Hy. destruct (Hok y) as (b' & Hb' & Hokb'); [by right|].
  exists b'. split; [|done]. rewrite list_lookup_alter_ne; [done|]. intros Heq. apply Hx.
  apply list_elem_of_fmap. exists y. split; [|done].
  rewrite Forall_forall in Hpos. specialize (Hpos _ Hy). cbn in *. lia.
Qed.
End alter_all.

Lemma step_json x b bs :
  0 <= x.1 → bs !! Z.to_nat x.1 = Some b → (b_open b = true ∧ ∃ i n, b_kind b = ToolBlock i n) →
  p_step (proto_at bs) (MBlockDelta x.1 InputJsonDelta x.2)
  = Some (proto_at (alter (append_text x.2) (Z.to_nat x.1) bs)).
Proof.
  intros H0 Hb (Hopen & i & n & Hk). cbn. unfold block_at. cbn.
  rewrite (proj2 (Z.leb_le _ _) H0), Hb. cbn. by rewrite Hopen, Hk.
Qed.

Lemma step_stop (x : Z * string) b bs :
  0 <= x.1 → bs !! Z.to_nat x.1 = Some b → b_open b = true →
  p_step (proto_at bs) (MBlockStop x.1) = Some (proto_at (alter shut (Z.to_nat x.1) bs)).
Proof.
  intros H0 Hb Hopen. cbn. unfold block_at. cbn.
  rewrite (proj2 (Z.leb_le _ _) H0), Hb. cbn. by rewrite Hopen.
Qed.

(** The blocks of the tool calls and the arguments each ends with *)
Definition tool_ends (u : upstream) : list (Z * string) :=
  imap (λ j t, (lead_count (u_lead u) + Z.of_nat j, repaired (t_args t.2))) (u_tools u).

Lemma lead_count_nat l : Z.to_nat (lead_count l) = length (lead_blocks false l).
Proof. by destruct l. Qed.
Lemma lead_count_nonneg l : 0 <= lead_count l.
Proof. by destruct l. Qed.

Lemma elem_of_tool_ends u x :
  x ∈ tool_ends u ↔
  ∃ j t, u_tools u !! j = Some t ∧ x = (lead_count (u_lead u) + Z.of_nat j, repaired (t_args t.2)).
Proof.
  unfold tool_ends. split.
  - intros (j & t & -> & Hj)%elem_of_lookup_imap_1. eauto.
  - intros (j & t & Hj & ->). apply list_elem_of_lookup. exists j. by rewrite list_lookup_imap, Hj.
Qed.

Lemma tool_ends_NoDup u : NoDup (tool_ends u).*1.
Proof.
  apply NoDup_alt. intros i j z Hi Hj. unfold tool_ends in *.
  rewrite list_lookup_fmap, list_lookup_imap in Hi, Hj.
  destruct (u_tools u !! i); [|done]. destruct (u_tools u !! j); [|done]. simplify_eq/=. lia.
Qed.

Lemma open_blocks_tool u j t :
  u_tools u !! j = Some t →
  open_blocks true u !! Z.to_nat (lead_count (u_lead u) + Z.of_nat j)
  = Some {| b_kind := tool_block t.2; b_text := ""; b_open := true |}.
Proof.
  intros Hj. unfold open_blocks. pose proof (lead_count_nonneg (u_lead u)).
  rewrite lookup_app_r; rewrite Z2Nat.inj_add, Nat2Z.id, lead_count_nat by lia; [|cbn; lia].
  rewrite Nat.add_comm, Nat.add_sub, list_lookup_fmap. by rewrite Hj.
Qed.

Lemma reply_blocks_tool u j t :
  u_tools u !! j = Some t →
  reply_blocks u !! Z.to_nat (lead_count (u_lead u) + Z.of_nat j)
  = Some (closed_block (tool_block t.2) (repaired (t_args t.2))).
Proof.
  intros Hj. unfold reply_blocks. pose proof (lead_count_nonneg (u_lead u)).
  rewrite lookup_app_r; rewrite Z2Nat.inj_add, Nat2Z.id, lead_count_nat by lia; [|lia].
  rewrite Nat.add_comm, Nat.add_sub, list_lookup_fmap. by rewrite Hj.
Qed.

Lemma ended_blocks u l :
  l ≡ₚ tool_ends u →
  alter_all (λ _, shut) l (alter_all append_text l (open_blocks true u)) = reply_blocks u.
Proof.
  intros Hl. assert (NoDup l.*1) as Hnd by (rewrite Hl; apply tool_ends_NoDup).
  assert (Forall (λ x, 0 <= x.1) l) as Hpos.
  { apply Forall_forall. intros x. rewrite Hl. intros (j & t & _ & ->)%elem_of_tool_ends. cbn.
    pose proof (lead_count_nonneg (u_lead u)). lia. }
  apply list_eq. intros k.
  destruct (decide (k < length (lead_blocks false (u_lead u)))%nat) as [Hk|Hk].
  - assert (∀ x, x ∈ l → Z.to_nat x.1 ≠ k) as Hne.
    { intros x. rewrite Hl. intros (j & t & _ & ->)%elem_of_tool_ends. cbn.
      pose proof (lead_count_nonneg (u_lead u)). rewrite <-lead_count_nat in Hk. lia. }
    rewrite !alter_all_other by done. unfold open_blocks, reply_blocks.
    by rewrite !lookup_app_l by done.
  - assert (∃ j, k = Z.to_nat (lead_count (u_lead u) + Z.of_nat j)) as [j ->].
    { pose proof (lead_count_nonneg (u_lead u)). exists (k - length (lead_blocks false (u_lead u)))%nat.
      rewrite Z2Nat.inj_add, Nat2Z.id, lead_count_nat by lia. lia. }
    destruct (u_tools u !! j) as [t|] eqn:Et.
    + assert ((lead_count (u_lead u) + Z.of_nat j, repaired (t_args t.2)) ∈ l) as Hin.
      { rewrite Hl. apply elem_of_tool_ends. eauto. }
      rewrite (alter_all_at _ l _ _ _ Hnd Hpos Hin), (alter_all_at _ l _ _ _ Hnd Hpos Hin).
      rewrite (open_blocks_tool _ _ _ Et), (reply_blocks_tool _ _ _ Et). done.
    + rewrite !alter_all_other.
      * unfold open_blocks, reply_blocks. pose proof (lead_count_nonneg (u_lead u)).
        apply lookup_ge_None in Et.
        rewrite !lookup_ge_None_2; [done|rewrite length_app, length_map, Z2Nat.inj_add, Nat2Z.id, lead_count_nat by lia; cbn; lia..].
      * intros x. rewrite Hl. intros (j' & t & Hj' & ->)%elem_of_tool_ends. cbn. intros Heq.
        pose proof (lead_count_nonneg (u_lead u)). assert (j' = j) as -> by lia. congruence.
      * intros x. rewrite Hl. intros (j' & t & Hj' & ->)%elem_of_tool_ends. cbn. intros Heq.
        pose proof (lead_count_nonneg (u_lead u)). assert (j' = j) as -> by lia. congruence.
Qed.

Lemma tool_end_run u l :
  l ≡ₚ tool_ends u →
  p_run (proto_at (open_blocks true u))
    (map (λ x, MBlockDelta x.1 InputJsonDelta x.2) l ++ map (λ x, MBlockStop x.1) l)
  = Some (proto_at (reply_blocks u)).
Proof.
  intros Hl. assert (NoDup l.*1) as Hnd by (rewrite Hl; apply tool_ends_NoDup).
  assert (Forall (λ x, 0 <= x.1) l) as Hpos.
  { apply Forall_forall. intros x. rewrite Hl. intros (j & t & _ & ->)%elem_of_tool_ends. cbn.
    pose proof (lead_count_nonneg (u_lead u)). lia. }
  rewrite p_run_app.
  rewrite (alter_all_run append_text _ (λ _ b, b_open b = true ∧ ∃ i n, b_kind b = ToolBlock i n)); [|exact step_json|done|done|].
  2: { intros x. rewrite Hl. intros (j & t & Hj & ->)%elem_of_tool_ends. cbn.
       eexists. split; [by apply open_blocks_tool|]. cbn. unfold tool_block. eauto. }
  cbn [mbind option_bind].
  rewrite (alter_all_run (λ _, shut) _ (λ _ b, b_open b = true)); [|exact step_stop|done|done|].
  2: { intros x Hx. pose proof Hx as Hx'. rewrite Hl in Hx.
       apply elem_of_tool_ends in Hx as (j & t & Hj & ->). cbn.
       eexists. split; [rewrite (alter_all_at _ l _ _ _ Hnd Hpos Hx')|].
       - rewrite (open_blocks_tool _ _ _ Hj). reflexivity.
       - done. }
  by rewrite ended_blocks.
Qed.

Lemma emitStreamEnd_eq r tools last rep s :
  emitStreamEnd r tools last rep s
  = (Some tt,
     {| ctx := ctx s; live := live s;
        out := out s ++ map ev_block_stop
                 (match tools, r, last with
                  | Some l, _, _ => l | None, end_turn, Some i => [i] | None, _, _ => []
                  end)
               ++ [ev_message_delta (default (stop_string r) rep) (stream_usage (ctx s)); ev_message_stop];
        unreported := unreported s ++ (if sawUsage (ctx s) then [] else [requestId (ctx s)]) |}).
Proof.
  unfold emitStreamEnd. rewrite bind_gets. destruct s as [c lv o un]. cbn [ctx].
  set (s1 := {| ctx := c; live := lv; out := o;
                unreported := un ++ (if sawUsage c then [] else [requestId c]) |}).
  rewrite (bind_ok _ _ _ tt s1) by (unfold s1; destruct (sawUsage c); cbn; by rewrite ?app_nil_r).
  destruct tools as [l|].
  - rewrite (bind_ok _ _ _ _ _ (for_each_emit l ev_block_stop s1)).
    cbv [emit mbind prog_bind modify]. cbn. by rewrite <-!app_assoc.
  - destruct r, last; cbv [emit mbind prog_bind mret prog_ret modify]; cbn; by rewrite <-?app_assoc.
Qed.

Lemma object_entries_integers {V} (m : jmap Qc V) :
  (∀ e, e ∈ entries m → is_Some (as_integer e.1)) → object_entries m ≡ₚ entries m.
Proof.
  intros H. unfold object_entries. rewrite stable_sort_perm.
  rewrite filter_all by done. rewrite filter_none by (intros e He; specialize (H e He); tauto).
  by rewrite app_nil_r.
Qed.

Lemma parse_int_integer z : parse_int (Qc_of_Z z) = Qc_of_Z z.
Proof.
  unfold parse_int. destruct (Qc_of_Z_parts z) as [-> ->]. rewrite Z.div_1_r.
  destruct (0 <? z) eqn:E; [|done]. prop_bools. cbn [andb].
  destruct (Z.ltb_spec (z * 1000000) 1); [lia|done].
Qed.

Lemma tool_at_lookup ts j t : NoDup ts.*1 → ts !! j = Some t → tool_at t.1 ts = Some t.2.
Proof.
  revert j. induction ts as [|[i t0] ts IH]; intros [|j] Hnd Hj; cbn in *; simplify_eq/=.
  - by rewrite Z.eqb_refl.
  - apply NoDup_cons in Hnd as [Hi Hnd]. destruct (Z.eqb_spec i t.1) as [->|]; [|by eapply IH].
    exfalso. apply Hi. apply list_elem_of_fmap. exists t. split; [done|by eapply list_elem_of_lookup_2].
Qed.

(** What is sent for the entries of [toolCallBlockIndices] *)
Definition entry_end (c : context) (e : Qc * Z) : Z * string :=
  (e.2, repaired (default ""%string (toolCallAccumulators c !! parse_int e.1))).

Lemma entry_ends shut u c :
  tracks shut u c → NoDup (u_tools u).*1 →
  map (entry_end c) (object_entries (toolCallBlockIndices c)) ≡ₚ tool_ends u.
Proof.
  intros [_ _ Ha Hi _] Hnd. rewrite object_entries_integers.
  - rewrite Hi. unfold tool_ends.
    change (map (entry_end c)) with (fmap (M := list) (entry_end c)). rewrite fmap_imap.
    apply reflexive_eq, imap_ext. intros j t Hj. cbn. unfold entry_end. cbn.
    rewrite parse_int_integer, lookup_entries, Ha, accumulators_at.
    by rewrite (tool_at_lookup _ _ _ Hnd Hj).
  - intros e. rewrite Hi. intros (j & t & -> & _)%elem_of_lookup_imap_1. cbn. eauto.
Qed.

Lemma for_each_ends c l s :
  for_each l (λ '(idx, block),
    emitToolCallJson block (default ""%string (toolCallAccumulators c !! parse_int idx))) s
  = (Some tt,
     {| ctx := ctx s; live := live s;
        out := out s ++ map (λ e, ev_delta e.2 "input_json_delta" "partial_json" (JStr (entry_end c e).2)) l;
        unreported := unreported s |}).
Proof.
  rewrite <-(for_each_emit l (λ e, ev_delta e.2 "input_json_delta" "partial_json" (JStr (entry_end c e).2))).
  revert s. induction l as [|[i b] l IH]; intros s; [done|]. cbn [for_each].
  erewrite bind_ok by reflexivity. symmetry. erewrite bind_ok by reflexivity. by rewrite IH.
Qed.

Lemma end_tools_eq lengthStop s :
  end_tools lengthStop s
  = (Some tt,
     let l := map (entry_end (ctx s)) (object_entries (toolCallBlockIndices (ctx s))) in
     {| ctx := ctx s; live := live s;
        out := out s ++ map (λ x, ev_delta x.1 "input_json_delta" "partial_json" (JStr x.2)) l
               ++ map (λ x, ev_block_stop x.1) l
               ++ [ev_message_delta (default "tool_use"%string lengthStop) (stream_usage (ctx s)); ev_message_stop];
        unreported := unreported s ++ (if sawUsage (ctx s) then [] else [requestId (ctx s)]) |}).
Proof.
  unfold end_tools. rewrite bind_gets.
  rewrite (bind_ok _ _ _ _ _ (for_each_ends (ctx s) _ s)), emitStreamEnd_eq. cbv zeta. cbn.
  rewrite !map_map, <-!app_assoc. done.
Qed.

Definition ended (bs : list bstate) (r : string) (usage : list (string * value)) : proto :=
  {| p_started := true; p_blocks := bs; p_stop := Some r; p_usage := Some (obj usage); p_ended := true |}.

Lemma says_ended o bs r usage :
  says o (proto_at bs) → forallb (λ b, negb (b_open b)) bs = true →
  says (o ++ [ev_message_delta r usage; ev_message_stop]) (ended bs r usage).
Proof.
  intros Ho Hbs. eapply says_app; [exact Ho|]. cbn [fmap list_fmap p_run].
  rewrite view_message_delta, view_message_stop. cbn. rewrite Hbs. cbn. by rewrite Hbs.
Qed.

Lemma reply_closed u : forallb (λ b, negb (b_open b)) (reply_blocks u) = true.
Proof.
  unfold reply_blocks. rewrite forallb_app. apply andb_true_iff. split; [by destruct (u_lead u)|].
  apply forallb_forall. intros b Hb. apply in_map_iff in Hb as (t & <- & _). done.
Qed.

Lemma stop_reason_eq u c :
  finishReason c = u_finish u →
  reply_stop u = default (if has_tools u then "tool_use"%string else "end_turn"%string) (lengthStopReason c).
Proof.
  intros Hf. unfold reply_stop, lengthStopReason. rewrite Hf.
  case_bool_decide as H; [by rewrite H|]. unfold has_tools. by case_bool_decide.
Qed.

Definition reply (u : upstream) (c : context) : proto :=
  ended (reply_blocks u) (reply_stop u) (stream_usage c).

Lemma end_tools_says u s :
  ready true u s → has_tools u = true → NoDup (u_tools u).*1 →
  says (out (final (end_tools (lengthStopReason (ctx s))) s)) (reply u (ctx s)).
Proof.
  intros [Ht _ Hsays] Hh Hnd. unfold final. rewrite end_tools_eq. cbv zeta. cbn [out snd].
  pose proof (entry_ends _ _ _ Ht Hnd) as Hl.
  rewrite !app_assoc. unfold reply. rewrite (stop_reason_eq u (ctx s)), Hh by (apply (tr_finish _ _ _ Ht)).
  apply says_ended; [|apply reply_closed].
  rewrite <-app_assoc. eapply says_app; [exact Hsays|].
  rewrite <-(tool_end_run u _ Hl), fmap_app. f_equal.
  change (fmap (M := list) view) with (map view). rewrite !map_map. done.
Qed.

Lemma end_turn_says u s last :
  ready false u s → has_tools u = false →
  last = match u_lead u with
         | LNone => None
         | LThinking _ => Some (thinkingBlockIndex (ctx s))
         | _ => Some (last_block (ctx s))
         end →
  says (out (final (emitStreamEnd end_turn None last (lengthStopReason (ctx s))) s)) (reply u (ctx s)).
Proof.
  intros [Ht _ Hsays] Hh Hlast. unfold final. rewrite emitStreamEnd_eq. cbn [out snd].
  unfold reply. rewrite (stop_reason_eq u (ctx s)), Hh by (apply (tr_finish _ _ _ Ht)).
  rewrite app_assoc. apply says_ended; [|apply reply_closed].
  assert (u_tools u = []) as Hts by (unfold has_tools in Hh; by case_bool_decide).
  destruct (tr_lead _ _ _ Ht) as (_ & _ & _ & Htc & Hi). unfold last_block in Hlast.
  unfold open_blocks, reply_blocks in *. rewrite Hts in *. rewrite app_nil_r in *.
  destruct (u_lead u); subst last; cbn [map] in *;
    rewrite ?app_nil_r; [exact Hsays|..]; destruct_and?;
    (eapply says_app; [exact Hsays|]); rewrite ?Htc in *; cbn;
    repeat match goal with H : _ = _ |- _ => rewrite H end; done.
Qed.

(** The message can be ended when the body stops without a word. *)
Definition finished (u : upstream) : bool :=
  match u_lead u with LNone => has_tools u || bool_decide (is_Some (u_finish u)) | _ => true end.

Lemma end_built (done : bool) u s :
  built u s → hasSentStart (ctx s) = true → NoDup (u_tools u).*1 → done || finished u = true →
  let s' := final (if done then handle_done else flush_context) s in
  says (out s') (reply u (ctx s)) ∧ live s' = false ∧ ctx s' = ctx s.
Proof.
  intros [Ht He Hsays] Hsent Hnd Hfin. cbv zeta. rewrite Hsent in Hsays.
  destruct (has_tools u) eqn:Hh.
  - assert (final (if done then handle_done else flush_context) s
            = final clear_context (final (end_tools (lengthStopReason (ctx s))) s)) as ->.
    { assert (bool_decide (entries (toolCallAccumulators (ctx s)) ≠ []) = true) as Hacc.
      { apply bool_decide_eq_true. rewrite (tr_accumulators _ _ _ Ht). unfold has_tools in Hh.
        by destruct (u_tools u). }
      destruct done; unfold final, handle_done, flush_context; rewrite bind_gets, He, ?Hacc; cbn [andb];
        rewrite (bind_ok _ _ _ _ _ (end_tools_eq _ s)); by rewrite end_tools_eq. }
    split; [|split; [done|]].
    + by apply end_tools_says.
    + unfold final. by rewrite end_tools_eq.
  - set (last := match u_lead u with
                 | LNone => None
                 | LThinking _ => Some (thinkingBlockIndex (ctx s))
                 | _ => Some (last_block (ctx s))
                 end).
    assert (final (if done then handle_done else flush_context) s
            = final clear_context (final (emitStreamEnd end_turn None last (lengthStopReason (ctx s))) s)) as ->.
    { pose proof (tr_lead _ _ _ Ht) as (Hl1 & Hl2 & _). pose proof (tr_finish _ _ _ Ht) as Hf.
      unfold finished in Hfin. rewrite Hh in Hfin.
      destruct done; unfold final, handle_done, flush_context; rewrite bind_gets, He, Hsent, Hl1, Hl2, ?Hf;
        unfold last; destruct (u_lead u); cbn [andb negb when orb] in *;
        rewrite ?Hfin; cbn [when];
        rewrite (bind_ok _ _ _ _ _ (emitStreamEnd_eq _ _ _ _ s)); by rewrite emitStreamEnd_eq. }
    split; [|split; [done|]].
    + by apply end_turn_says.
    + unfold final. by rewrite emitStreamEnd_eq.
Qed.

Lemma absorb_tool_NoDup u t u' :
  NoDup (u_tools u).*1 → absorb_tool u t = Some u' → NoDup (u_tools u').*1.
Proof.
  intros Hnd. unfold absorb_tool. destruct (as_number _ ≫= as_integer) as [idx|]; cbn; [|done].
  destruct (part _) as [a|]; cbn; [|done]. destruct (_ && _); [|done].
  destruct (tool_at idx (u_tools u)) as [t0|] eqn:Et.
  - intros [= <-]. cbn. change (fmap fst) with (map (@fst Z tool)). by rewrite more_args_keys.
  - destruct (nonempty (own "id" t)); cbn; [|done]. destruct (nonempty _); cbn; [|done].
    intros [= <-]. cbn. rewrite fmap_app. apply NoDup_app. split; [done|]. split.
    + intros x Hx [-> | []%not_elem_of_nil]%elem_of_cons. by apply tool_at_keys in Et.
    + apply NoDup_singleton.
Qed.

Lemma foldl_bind_None {A B} (f : A → B → option A) l :
  foldl (λ u t, u ≫= λ u, f u t) None l = None.
Proof. by induction l. Qed.

Lemma absorb_NoDup u d u' : NoDup (u_tools u).*1 → absorb u d = Some u' → NoDup (u_tools u').*1.
Proof.
  assert (∀ add v u u', NoDup (u_tools u).*1 → absorb_part add v u = Some u' → NoDup (u_tools u').*1) as Hpart.
  { intros add v u0 u0' Hnd. unfold absorb_part. destruct (part v) as [[s|]|]; cbn; [|intros; by simplify_eq|done].
    case_bool_decide; [|done]. destruct (add s (u_lead u0)); cbn; intros; simplify_eq/=. constructor. }
  intros Hnd. unfold absorb. destruct (nullish _); [done|]. destruct (truthy _).
  - destruct (opt_prop _ "tool_calls") as [[]|]; try done. destruct (_ || _); [done|].
    set (u0 := {| u_lead := _ |}). assert (NoDup (u_tools u0).*1) as Hnd0 by done. clearbody u0.
    revert u0 Hnd0. induction l as [|t l IH]; intros u0 Hnd0; cbn; [by intros [= <-]|].
    destruct (absorb_tool u0 t) as [u1|] eqn:E; [|by rewrite foldl_bind_None].
    apply IH. by eapply absorb_tool_NoDup.
  - destruct (absorb_part add_thinking _ _) as [u1|] eqn:E; cbn; [|done]. apply Hpart. by apply Hpart in E.
Qed.

Lemma absorb_all_NoDup ds u : absorb_all ds = Some u → NoDup (u_tools u).*1.
Proof.
  unfold absorb_all. assert (NoDup (u_tools u_init).*1) as H by constructor. revert H.
  generalize u_init as u0. induction ds as [|d ds IH]; intros u0 Hnd; cbn; [by intros [= <-]|].
  destruct (absorb u0 d) as [u1|] eqn:E; [|by rewrite foldl_bind_None].
  apply IH. by eapply absorb_NoDup.
Qed.

(** An upstream reply in chunks is the message of its parts. *)
Lemma chunks_translated now m r ds u (done : bool) :
  absorb_all ds = Some u → ds ≠ [] → done || finished u = true →
  let s' := final (handle_chunks now ds;; if done then handle_done else flush_context) (init m r) in
  ∃ c, says (out s') (reply u c) ∧ live s' = false.
Proof.
  intros Ha Hne Hfin. cbv zeta.
  destruct (handle_chunks_built now ds u_init (init m r) u) as (s & Hs & Hb & Hsent); [apply built_init|done|].
  unfold final. rewrite (bind_ok _ _ _ _ _ Hs). exists (ctx s).
  rewrite bool_decide_eq_false_2 in Hsent by done. cbn in Hsent.
  destruct (end_built done u s Hb Hsent (absorb_all_NoDup _ _ Ha) Hfin) as (H1 & H2 & _). done.
Qed.

(** * Chunks of text

    Where the body is cut does not matter: nothing but [transform] looks at the buffer. *)

Definition blind {A} (p : run A) : Prop :=
  ∀ b s, p (with_ctx (set_buffer b) s) = let '(x, s') := p s in (x, with_ctx (set_buffer b) s').

Lemma blind_ret {A} (x : A) : blind (mret x).
Proof. done. Qed.
Lemma blind_throw {A} : blind (@throw stream A).
Proof. done. Qed.
Lemma blind_bind {A B} (p : run A) (f : A → run B) : blind p → (∀ x, blind (f x)) → blind (p ≫= f).
Proof.
  intros Hp Hf b s. unfold mbind, prog_bind. rewrite Hp. destruct (p s) as [[x|] s']; [apply Hf|done].
Qed.
Lemma blind_get {A} (k : context → run A) :
  (∀ b c, k (set_buffer b c) = k c) → (∀ c, blind (k c)) → blind (gets ctx ≫= k).
Proof. intros Hk Hb b s. rewrite !bind_gets. cbn [ctx with_ctx]. rewrite Hk. apply Hb. Qed.
Lemma blind_update f : (∀ b c, f (set_buffer b c) = set_buffer b (f c)) → blind (update f).
Proof. intros Hf b s. unfold update, modify, with_ctx. cbn [ctx live out unreported]. by rewrite Hf. Qed.
Lemma blind_emit f : blind (emit f).
Proof. done. Qed.
Lemma blind_when b p : blind p → blind (when b p).
Proof. by destruct b. Qed.
Lemma blind_attempt p : blind p → blind (attempt p).
Proof. intros Hp b s. unfold attempt. rewrite Hp. by destruct (p s). Qed.
Lemma blind_require {A} (x : option A) : blind (require x).
Proof. by destruct x. Qed.
Lemma blind_for_each {A} (l : list A) f : (∀ x, blind (f x)) → blind (for_each l f).
Proof. intros Hf. induction l; cbn; [apply blind_ret|]. by apply blind_bind. Qed.
Lemma blind_mark id : blind (markUpstreamReportedNoUsage id).
Proof. done. Qed.
Lemma blind_clear : blind clear_context.
Proof. done. Qed.

Create HintDb blind.
#[local] Hint Resolve blind_ret blind_throw blind_bind blind_get blind_update blind_emit blind_when
  blind_attempt blind_require blind_for_each blind_mark blind_clear : blind.

Ltac blind :=
  repeat match goal with
  | |- blind (match ?x with _ => _ end) => destruct x
  | |- blind _ => first
      [ solve [auto with blind] | apply blind_get; [by intros|intros ?] | apply blind_update; by intros
      | apply blind_bind; [|intros ?] | apply blind_for_each; intros ?
      | apply blind_when | apply blind_attempt ]
  end.

Lemma blind_note data : blind (update (note_report data)).
Proof. apply blind_update. intros b c. unfold note_report. cbn. by repeat case_match. Qed.
Lemma blind_start now : blind (send_start now).
Proof. unfold send_start. blind. Qed.
Lemma blind_close : blind close_lead.
Proof. unfold close_lead, close_thinking, close_text. blind. Qed.
Lemma blind_buffer idx t : blind (buffer_arguments idx t).
Proof. unfold buffer_arguments. blind. Qed.
#[local] Hint Resolve blind_note blind_start blind_close blind_buffer : blind.
Lemma blind_open idx t : blind (open_tool idx t).
Proof. unfold open_tool. blind. Qed.
#[local] Hint Resolve blind_open : blind.
Lemma blind_tool t : blind (tool_call t).
Proof. unfold tool_call. blind. Qed.
Lemma blind_reasoning v : blind (reasoning_delta v).
Proof. unfold reasoning_delta, close_text. blind. Qed.
Lemma blind_content v : blind (content_delta v).
Proof. unfold content_delta, close_thinking. blind. Qed.
#[local] Hint Resolve blind_tool blind_reasoning blind_content : blind.
Lemma blind_truthy v f : (∀ x, blind (f x)) → blind (if_truthy v f).
Proof. intros Hf. unfold if_truthy. destruct v; [|apply blind_ret]. apply blind_when, Hf. Qed.
#[local] Hint Resolve blind_truthy : blind.
Lemma blind_chunk now d : blind (handle_chunk now d).
Proof. unfold handle_chunk. blind. Qed.
Lemma blind_end r l i rep : blind (emitStreamEnd r l i rep).
Proof. unfold emitStreamEnd. blind. Qed.
#[local] Hint Resolve blind_chunk blind_end : blind.
Lemma blind_tools r : blind (end_tools r).
Proof. unfold end_tools, emitToolCallJson. blind. Qed.
#[local] Hint Resolve blind_tools : blind.
Lemma blind_flush : blind flush_context.
Proof. unfold flush_context. blind. Qed.
Lemma blind_done : blind handle_done.
Proof. unfold handle_done. blind. Qed.
#[local] Hint Resolve blind_done : blind.
Lemma blind_line now l : blind (handle_line now l).
Proof. unfold handle_line. blind. Qed.

(** A handler returns, and [[DONE]] clears the context. *)
Lemma handle_done_ok s :
  handle_done s = (Some tt, final handle_done s) ∧ live (final handle_done s) = false.
Proof.
  unfold final, handle_done. rewrite bind_gets.
  destruct (encounteredToolCall (ctx s)); [by rewrite (bind_ok _ _ _ _ _ (end_tools_eq _ s))|].
  destruct (hasSentContentBlockStart (ctx s)); [by rewrite (bind_ok _ _ _ _ _ (emitStreamEnd_eq _ _ _ _ s))|].
  destruct (hasSentThinkingBlockStart (ctx s)); [by rewrite (bind_ok _ _ _ _ _ (emitStreamEnd_eq _ _ _ _ s))|].
  destruct (hasSentStart (ctx s)); cbn [when]; [|done].
  by rewrite (bind_ok _ _ _ _ _ (emitStreamEnd_eq _ _ _ _ s)).
Qed.

Lemma handle_line_ok now l s : handle_line now l s = (Some tt, final (handle_line now l) s).
Proof.
  unfold final, handle_line. destruct (data_of l) as [d|]; [|done].
  destruct (String.eqb d "[DONE]"); [apply handle_done_ok|]. by destruct (parse_string d).
Qed.

Lemma handle_lines_ok now ls s :
  for_each ls (handle_line now) s = (Some tt, final (for_each ls (handle_line now)) s).
Proof.
  revert s. induction ls as [|l ls IH]; intros s; [done|]. unfold final. cbn [for_each].
  rewrite (bind_ok _ _ _ _ _ (handle_line_ok now l s)). apply IH.
Qed.

Lemma handle_lines_cons now l ls s :
  final (for_each (l :: ls) (handle_line now)) s
  = final (for_each ls (handle_line now)) (final (handle_line now l) s).
Proof. unfold final at 1. cbn [for_each]. by rewrite (bind_ok _ _ _ _ _ (handle_line_ok now l s)). Qed.

Lemma handle_lines_app now ls ls' s :
  final (for_each (ls ++ ls') (handle_line now)) s
  = final (for_each ls' (handle_line now)) (final (for_each ls (handle_line now)) s).
Proof.
  revert s. induction ls as [|l ls IH]; intros s; [done|]. cbn [app]. by rewrite !handle_lines_cons.
Qed.

Definition is_done (l : text) : bool := bool_decide (data_of l = Some "[DONE]"%string).
Definition is_quiet (l : text) : bool := bool_decide (data_of l = None).

Definition same_live : relation stream := λ s s', live s = live s'.
#[local] Instance same_live_refl : Reflexive same_live. Proof. done. Qed.
#[local] Instance same_live_trans : Transitive same_live. Proof. intros ???. unfold same_live. congruence. Qed.

Create HintDb keeps_live.
Ltac keeps_live :=
  repeat match goal with
  | |- relates _ (match ?x with _ => _ end) => destruct x
  | |- relates _ _ => first
      [ solve [auto with keeps_live nocore] | apply relates_ret, _ | apply relates_throw, _ | apply relates_gets, _
      | apply relates_require, _ | apply relates_modify; done
      | apply relates_bind; [apply _| |intros ?] | apply relates_for_each; [apply _..|intros ?]
      | apply relates_when; [apply _|] | apply relates_attempt ]
  end.

Lemma live_tool t : relates same_live (tool_call t).
Proof. unfold tool_call, buffer_arguments. keeps_live. Qed.
Lemma live_reasoning v : relates same_live (reasoning_delta v).
Proof. unfold reasoning_delta, close_text. keeps_live. Qed.
Lemma live_content v : relates same_live (content_delta v).
Proof. unfold content_delta, close_thinking. keeps_live. Qed.
#[local] Hint Resolve live_tool live_reasoning live_content : keeps_live.
Lemma live_chunk now d : relates same_live (handle_chunk now d).
Proof. unfold handle_chunk, if_truthy. keeps_live. Qed.

Lemma live_chunks now ds : relates same_live (handle_chunks now ds).
Proof.
  apply relates_for_each; [apply _..|]. intros d. apply relates_attempt, live_chunk.
Qed.

Lemma handle_chunks_ok now ds s : handle_chunks now ds s = (Some tt, final (handle_chunks now ds) s).
Proof.
  revert s. induction ds as [|d ds IH]; intros s; [done|]. unfold handle_chunks, final. cbn [for_each].
  erewrite bind_ok by reflexivity. apply IH.
Qed.

(** Only [[DONE]] clears the context. *)
Lemma line_live now l s :
  live (final (handle_line now l) s) = live s && negb (is_done l).
Proof.
  unfold is_done, final, handle_line. destruct (data_of l) as [d|]; [|by rewrite andb_true_r].
  destruct (String.eqb_spec d "[DONE]") as [->|Hd].
  - rewrite bool_decide_eq_true_2 by done. rewrite andb_false_r. apply handle_done_ok.
  - rewrite bool_decide_eq_false_2 by (intros [= ?]; done). rewrite andb_true_r.
    destruct (parse_string d); [|done]. symmetry. apply (live_chunk now j s).
Qed.

Lemma blind_lines now ls b s :
  final (for_each ls (handle_line now)) (with_ctx (set_buffer b) s)
  = with_ctx (set_buffer b) (final (for_each ls (handle_line now)) s).
Proof.
  unfold final. rewrite (blind_for_each ls _ (blind_line now) b s).
  by destruct (for_each ls (handle_line now) s).
Qed.

Lemma quiet_lines now ls s :
  forallb is_quiet ls = true → final (for_each ls (handle_line now)) s = s.
Proof.
  induction ls as [|l ls IH]; [done|]. cbn [forallb]. intros [Hl Hls]%andb_true_iff.
  rewrite handle_lines_cons. unfold is_quiet in Hl. apply bool_decide_eq_true in Hl.
  unfold final at 2, handle_line. rewrite Hl. by apply IH.
Qed.

Lemma split_lines_app t u :
  split_lines (t ++ u)
  = let '(ls, r) := split_lines t in let '(ls', r') := split_lines (r ++ u) in (ls ++ ls', r').
Proof.
  induction t as [|c t IH]; cbn; [by destruct (split_lines u)|].
  rewrite IH. destruct (split_lines t) as [ls r]. destruct (is_code 10 c) eqn:Ec; cbn.
  - by destruct (split_lines (r ++ u)).
  - destruct ls as [|l ls]; cbn; [|by destruct (split_lines (r ++ u))].
    rewrite Ec. by destruct (split_lines (r ++ u)) as [[|l ls'] r'].
Qed.

(** Nothing but quiet lines follows the first [[DONE]]. *)
Fixpoint done_last (ls : list text) : bool :=
  match ls with
  | [] => true
  | l :: ls => if is_done l then forallb is_quiet ls else done_last ls
  end.

Lemma done_last_app ls ls' :
  done_last (ls ++ ls') = true →
  (forallb (λ l, negb (is_done l)) ls = true ∧ done_last ls' = true)
  ∨ (forallb (λ l, negb (is_done l)) ls = false ∧ forallb is_quiet ls' = true).
Proof.
  induction ls as [|l ls IH]; cbn; [by left|]. destruct (is_done l); cbn; [|done].
  rewrite forallb_app. intros [_ ?]%andb_true_iff. by right.
Qed.

Lemma lines_live now ls s :
  live (final (for_each ls (handle_line now)) s) = live s && forallb (λ l, negb (is_done l)) ls.
Proof.
  revert s. induction ls as [|l ls IH]; intros s; [by rewrite andb_true_r|].
  rewrite handle_lines_cons, IH, line_live. cbn. by rewrite andb_assoc.
Qed.

Lemma transform_eq now chunk s :
  live s = true →
  transform now chunk s
  = (Some tt,
     let '(ls, rest) := split_lines (buffer (ctx s) ++ chunk) in
     with_ctx (set_buffer rest) (final (for_each ls (handle_line now)) s)).
Proof.
  intros Hl. unfold transform. rewrite bind_gets, Hl. cbn [when]. rewrite bind_gets.
  destruct (split_lines _) as [ls rest]. rewrite bind_update, handle_lines_ok. by rewrite blind_lines.
Qed.

Lemma transform_dead now chunks s : live s = false → for_each chunks (transform now) s = (Some tt, s).
Proof.
  intros Hl. revert s Hl. induction chunks as [|c chunks IH]; intros s Hl; [done|]. cbn [for_each].
  assert (transform now c s = (Some tt, s)) as Ht by (unfold transform; by rewrite bind_gets, Hl).
  rewrite (bind_ok _ _ _ _ _ Ht). by apply IH.
Qed.

(** The chunks of a body are handled as its lines. *)
Lemma transform_lines now chunks s :
  live s = true →
  let ls := (split_lines (buffer (ctx s) ++ concat chunks)).1 in
  done_last ls = true → (chunks = [] → split_lines (buffer (ctx s)) = ([], buffer (ctx s))) →
  ∃ b, for_each chunks (transform now) s
       = (Some tt, with_ctx (set_buffer b) (final (for_each ls (handle_line now)) s)).
Proof.
  cbv zeta. revert s. induction chunks as [|c chunks IH]; intros s Hl Hd Hbuf.
  { exists (buffer (ctx s)). rewrite app_nil_r, Hbuf by done. destruct s as [c lv o un], c. done. }
  cbn [concat] in *. rewrite app_assoc, split_lines_app in *.
  destruct (split_lines (buffer (ctx s) ++ c)) as [ls1 rest] eqn:E1.
  destruct (split_lines (rest ++ concat chunks)) as [ls2 rest2] eqn:E2. cbn [fst] in *.
  pose proof (transform_eq now c s Hl) as Ht. rewrite E1 in Ht. cbn [for_each].
  rewrite (bind_ok _ _ _ _ _ Ht), handle_lines_app.
  set (s1 := final (for_each ls1 (handle_line now)) s).
  assert (live s1 = forallb (λ l, negb (is_done l)) ls1) as Hl1 by (unfold s1; by rewrite lines_live, Hl).
  destruct (done_last_app ls1 ls2 Hd) as [[H1 H2]|[H1 H2]].
  - destruct (IH (with_ctx (set_buffer rest) s1)) as [b Hb].
    + cbn. by rewrite Hl1, H1.
    + cbn [ctx with_ctx buffer set_buffer]. by rewrite E2.
    + intros ->. cbn [ctx with_ctx buffer set_buffer concat] in *. rewrite app_nil_r in E2.
      pose proof (split_lines_app (buffer (ctx s) ++ c) []) as Happ.
      rewrite app_nil_r, E1, app_nil_r, E2 in Happ. injection Happ as Happ Hrest.
      apply (f_equal length) in Happ. rewrite length_app in Happ.
      destruct ls2; [by rewrite E2, Hrest|cbn in Happ; lia].
    + exists b. rewrite Hb. cbn [ctx with_ctx buffer set_buffer]. rewrite E2. cbn [fst].
      rewrite blind_lines. done.
  - exists rest. rewrite transform_dead by (cbn; by rewrite Hl1, H1). by rewrite (quiet_lines _ ls2).
Qed.

(** ** Bodies *)

Lemma trim_end_snoc s c : is_space c = false → trim_end (s +:+ String c "") = s +:+ String c "".
Proof.
  intros Hc. induction s as [|c' s IH].
  { change (trim_end (String c "") = String c ""). cbn [trim_end]. by rewrite Hc. }
  change (trim_end (String c' (s +:+ String c "")) = String c' (s +:+ String c "")).
  cbn [trim_end]. rewrite IH. destruct (s +:+ String c "") eqn:E; [by destruct s|done].
Qed.

(** What is printed begins and ends with a visible character. *)
Lemma print_ends v :
  plain v = true →
  ∃ a c b d, print v = a :: b ∧ print v = c ++ [d] ∧ is_space a = false ∧ is_space d = false.
Proof.
  assert (∀ t : text, ∀ a d, is_space a = false → is_space d = false →
    ∃ a' c b d', a :: t ++ [d] = a' :: b ∧ a :: t ++ [d] = c ++ [d'] ∧ is_space a' = false ∧ is_space d' = false)
    as Hends by (intros t a d Ha Hd; exists a, (a :: t), (t ++ [d]), d; done).
  destruct v as [|b|q|s|l|m]; intros Hp; cbn [print]; try by apply Hends.
  - by apply (Hends (to_text "ul") (chr 110) (chr 108)).
  - destruct b; [by apply (Hends (to_text "ru") (chr 116) (chr 101))|].
    by apply (Hends (to_text "als") (chr 102) (chr 101)).
  - apply bool_decide_eq_true in Hp. rewrite (integer_Qc q Hp), print_integer.
    destruct (digits_spec (Z.abs (Qnum (this q)))) as (ds & -> & Hall & _ & Hne & _); [lia|].
    assert (∀ d, 0 <= d < 10 → is_space (digit_char d) = false) as Hsp.
    { intros d Hd. assert (d = 0 ∨ d = 1 ∨ d = 2 ∨ d = 3 ∨ d = 4 ∨ d = 5 ∨ d = 6 ∨ d = 7 ∨ d = 8 ∨ d = 9)
        as Hc by lia. by repeat destruct Hc as [->|Hc]; [..|subst d]. }
    destruct (exists_last Hne) as (ds' & d & ->). apply Forall_app in Hall as [Hall' Hd].
    apply Forall_cons in Hd as [Hd _]. rewrite map_app. cbn [map].
    destruct (_ <? 0); [exact (Hends (map digit_char ds') (chr 45) _ eq_refl (Hsp d Hd))|].
    destruct ds' as [|d0 ds']; cbn [map app].
    + exists (digit_char d), [], [], (digit_char d). auto.
    + apply Forall_cons in Hall' as [Hd0 _]. by apply Hends; apply Hsp.
Qed.

Definition data_line (d : json) : text := to_text "data: " ++ print d.
Definition done_line : text := to_text "data: [DONE]".

Lemma data_of_line d : plain d = true → data_of (data_line d) = Some (stringify d).
Proof.
  intros Hp. destruct (print_ends d Hp) as (a & c & b & e & Ha & He & Hsa & Hse).
  assert (trim (of_text (data_line d)) = "data: " +:+ stringify d) as Ht.
  { unfold data_line, stringify, trim. rewrite of_text_app.
    change (of_text (to_text "data: ")) with "data: "%string.
    change (trim_start ("data: " +:+ of_text (print d))) with ("data: " +:+ of_text (print d)).
    rewrite He, of_text_app. change (of_text [e]) with (String e EmptyString).
    rewrite <-string_app_assoc. by apply trim_end_snoc. }
  unfold data_of. rewrite Ht. cbn [startsWith]. unfold startsWith.
  change ("data: " +:+ stringify d) with ("data:" +:+ (" " +:+ stringify d)) at 1.
  rewrite Prelude.prefix_app. f_equal.
  change (slice_from 5 ("data: " +:+ stringify d)) with (" " +:+ stringify d).
  unfold trim. change (trim_start (" " +:+ stringify d)) with (trim_start (stringify d)).
  assert (trim_start (stringify d) = stringify d) as ->.
  { unfold stringify. rewrite Ha. change (of_text (a :: b)) with (String a (of_text b)).
    cbn [trim_start]. by rewrite Hsa. }
  unfold stringify. rewrite He, of_text_app. by apply trim_end_snoc.
Qed.

(** A body: its data lines, each followed by an empty one, and [[DONE]] if it came *)
Definition body (ds : list json) (done : bool) : text :=
  concat (map (λ l, l ++ [LF; LF]) (map data_line ds ++ if done then [done_line] else [])).

Definition body_lines (ds : list json) (done : bool) : list text :=
  (map data_line ds ++ if done then [done_line] else []) ≫= (λ l : text, [l; ([] : text)]).

Lemma split_line l t :
  one_line l → split_lines (l ++ LF :: t) = (l :: (split_lines t).1, (split_lines t).2).
Proof.
  induction 1 as [|c l Hc Hl IH]; [by cbn; destruct (split_lines t)|].
  cbn [app split_lines]. rewrite IH.
  assert (is_code 10 c = false) as -> by (apply Nat.eqb_neq; lia). done.
Qed.

Lemma split_bodies ls :
  Forall one_line ls →
  split_lines (concat (map (λ l, l ++ [LF; LF]) ls)) = (ls ≫= (λ l : text, [l; ([] : text)]), []).
Proof.
  induction 1 as [|l ls Hl Hls IH]; [done|]. cbn [map concat]. rewrite bind_cons.
  rewrite <-app_assoc. cbn [app]. rewrite split_line by done.
  change (LF :: concat (map (λ l, l ++ [LF; LF]) ls)) with ([] ++ LF :: concat (map (λ l, l ++ [LF; LF]) ls)).
  rewrite split_line by constructor. by rewrite IH.
Qed.

Lemma one_line_text s : forallb (λ c, 32 <=? code c)%nat (to_text s) = true → one_line (to_text s).
Proof.
  rewrite forallb_forall. intros H. apply Forall_forall. intros c Hc. apply Nat.leb_le, H.
  by apply list_elem_of_In.
Qed.

Lemma body_one_line ds (done : bool) : Forall one_line (map data_line ds ++ if done then [done_line] else []).
Proof.
  apply Forall_app. split.
  - apply Forall_fmap, Forall_true. intros d. apply one_line_app. split; [by apply one_line_text|apply one_line_print].
  - destruct done; [|constructor]. apply Forall_singleton. by apply one_line_text.
Qed.

Lemma data_not_done d : plain d = true → String.eqb (stringify d) "[DONE]" = false.
Proof.
  intros Hp. apply String.eqb_neq. intros Heq. pose proof (parse_stringify d Hp) as H.
  by rewrite Heq in H.
Qed.

Lemma handle_data_line now d s :
  plain d = true → handle_line now (data_line d) s = attempt (handle_chunk now d) s.
Proof.
  intros Hp. unfold handle_line. rewrite (data_of_line d Hp), (data_not_done d Hp).
  by rewrite (parse_stringify d Hp).
Qed.

Lemma handle_body now ds (done : bool) s :
  forallb plain ds = true →
  final (for_each (body_lines ds done) (handle_line now)) s
  = final (handle_chunks now ds;; when done handle_done) s.
Proof.
  unfold body_lines, handle_chunks. revert s. induction ds as [|d ds IH]; intros s Hp.
  - destruct done; [|done]. cbn [map app]. rewrite bind_cons. cbn [app].
    rewrite handle_lines_cons, handle_lines_cons. done.
  - cbn [forallb] in Hp. apply andb_true_iff in Hp as [Hd Hp]. cbn [map app for_each]. rewrite bind_cons.
    cbn [app]. rewrite handle_lines_cons, handle_lines_cons.
    change (final (handle_line now []) ?x) with x.
    rewrite IH by done. unfold final at 2. rewrite (handle_data_line now d s Hd). cbn [snd].
    unfold final. cbn [attempt]. unfold mbind, prog_bind. cbn. by destruct (for_each ds _ _).
Qed.

Lemma body_done_last ds (done : bool) : forallb plain ds = true → done_last (body_lines ds done) = true.
Proof.
  unfold body_lines. induction ds as [|d ds IH]; intros Hp; [by destruct done|].
  cbn [forallb] in Hp. apply andb_true_iff in Hp as [Hd Hp]. cbn [map app]. rewrite bind_cons. cbn [app done_last].
  assert (is_done (data_line d) = false) as ->.
  { unfold is_done. rewrite (data_of_line d Hd). apply bool_decide_eq_false. intros [= Heq].
    pose proof (data_not_done d Hd) as H. by rewrite Heq in H. }
  by apply IH.
Qed.

Lemma translated now m r chunks ds (done : bool) u :
  concat chunks = body ds done → forallb plain ds = true → ds ≠ [] →
  absorb_all ds = Some u → done || finished u = true →
  ∃ c, says (out (translate now chunks (init m r))) (reply u c).
Proof.
  intros Hc Hp Hne Ha Hfin.
  pose proof (split_bodies _ (body_one_line ds done)) as Hsplit.
  change (concat _) with (body ds done) in Hsplit. fold (body_lines ds done) in Hsplit.
  destruct (transform_lines now chunks (init m r)) as [b Hb]; [done| |done|].
  { cbn [buffer ctx init start app]. rewrite Hc, Hsplit. by apply body_done_last. }
  cbn [buffer ctx init start app] in Hb. rewrite Hc, Hsplit in Hb. cbn [fst] in Hb.
  rewrite (handle_body now ds done _ Hp) in Hb.
  destruct (chunks_translated now m r ds u done Ha Hne Hfin) as (c & Hsays & Hlive).
  exists c. unfold translate. unfold final at 1.
  rewrite (bind_ok _ _ _ _ _ Hb). clear Hb. unfold flush. rewrite bind_gets.
  destruct done; cbn [when] in *.
  - cbn [live with_ctx]. by rewrite Hlive.
  - rewrite (final_bind _ _ _ tt) in Hsays by (by rewrite handle_chunks_ok).
    rewrite (final_bind _ _ _ tt) by (by rewrite handle_chunks_ok).
    set (s1 := final (handle_chunks now ds) (init m r)) in *.
    change (final (mret tt) s1) with s1. cbn [live with_ctx].
    rewrite <-(live_chunks now ds (init m r) : live (init m r) = live s1). cbn [live init when].
    rewrite blind_flush. unfold final in Hsays. by destruct (flush_context s1).
Qed.

(** C11: a reply whose parts come in an order that Messages can carry, cut into chunks
    anywhere, is translated into one complete Messages stream: each part a block, in that
    order, with all of its text; each tool call's arguments whole and repaired; all blocks
    closed; and the stop reason it had. *)
Theorem translated_stream now m r chunks ds (done : bool) u :
  concat chunks = body ds done → forallb plain ds = true → ds ≠ [] →
  absorb_all ds = Some u → done || finished u = true →
  ∃ p, says (out (translate now chunks (init m r))) p ∧ p_ended p = true
    ∧ p_blocks p = reply_blocks u ∧ p_stop p = Some (reply_stop u).
Proof.
  intros Hc Hp Hne Ha Hfin. destruct (translated now m r chunks ds done u Hc Hp Hne Ha Hfin) as [c Hsays].
  by exists (reply u c).
Qed.

(** ** A body *)

Definition choice (delta : list (string * value)) (finish : value) : json :=
  JObj [("choices"%string, JArr [obj [("delta", Some (obj delta)); ("finish_reason", finish)]%string])].
Definition call_delta (i : Z) (id name : value) (args : string) : value :=
  Some (JArr [obj [("index", Some (JInt i)); ("id", id);
                   ("function", Some (obj [("name", name); ("arguments", Some (JStr args))]))]])%string.

Definition sample_chunks : list json :=
  [choice [("role", Some (JStr "assistant")); ("reasoning_content", Some (JStr "so"))] None;
   choice [("reasoning_content", Some (JStr " be it")); ("content", Some (JStr "He"))] None;
   choice [("content", Some (JStr "llo"))] None;
   choice [("tool_calls", call_delta 0 (Some (JStr "call_1")) (Some (JStr "ls")) "{")] None;
   choice [("tool_calls", call_delta 0 None None "}")] None;
   choice [] (Some (JStr "tool_calls"))]%string.

Example translated_stream_witness :
  let chunks := [take 100 (body sample_chunks true); drop 100 (body sample_chunks true)] in
  ∃ p, says (out (translate 5 chunks (init (Some "m"%string) None))) p ∧ p_ended p = true
    ∧ p_blocks p = [closed_block ThinkingBlock "so be it"; closed_block TextBlock "Hello";
                    closed_block (ToolBlock "call_1" "ls") "{}"]
    ∧ p_stop p = Some "tool_use"%string.
Proof.
  cbv zeta.
  refine (translated_stream 5 (Some "m"%string) None _ sample_chunks true
    {| u_lead := LThinkingText "so be it" "Hello";
       u_tools := [(0, {| t_id := "call_1"; t_name := "ls"; t_args := "{}" |})];
       u_finish := Some "tool_calls"%string |} _ _ _ _ _).
  - cbn [concat]. rewrite app_nil_r. apply take_drop.
  - vm_compute. reflexivity.
  - discriminate.
  - vm_compute. reflexivity.
  - reflexivity.
Defined.

(** where a body is cut into chunks does not matter: two ways to cut one body in which
    nothing follows [[DONE]] give the same events. *)
Theorem chunking_irrelevant now m r chunks chunks' :
  concat chunks = concat chunks' → done_last (split_lines (concat chunks)).1 = true →
  out (translate now chunks (init m r)) = out (translate now chunks' (init m r)).
Proof.
  intros Heq Hd.
  destruct (transform_lines now chunks (init m r)) as [b Hb]; [done|done|done|].
  destruct (transform_lines now chunks' (init m r)) as [b' Hb']; [done|by cbn; rewrite <-Heq|done|].
  cbn [buffer ctx init start app] in Hb, Hb'. rewrite <-Heq in Hb'. unfold translate.
  rewrite !(final_bind _ _ _ tt) by (by rewrite ?Hb, ?Hb'). unfold final at 2 4.
  rewrite Hb, Hb'. cbn [snd].
  set (s1 := final (for_each _ _) _). unfold final, flush. rewrite !bind_gets. cbn [live with_ctx].
  destruct (live s1); [|done]. cbn [when]. rewrite !blind_flush. by destruct (flush_context s1).
Qed.

Example chunking_irrelevant_witness :
  let b := body [choice [("content", Some (JStr "a"))] None]%string true in
  out (translate 5 [b] (init None None)) = out (translate 5 (map (λ c, [c]) b) (init None None)).
Proof. cbv zeta. apply chunking_irrelevant; vm_compute; reflexivity. Defined.

(** C13: a reply that goes back to text after thinking that followed text loses the stream:
    the text is sent to the block that is already closed, and no Messages stream begins so. *)
Theorem late_text_misplaced now data u s v :
  built u s → u_tools u = [] → (∃ c r, u_lead u = LTextThinking c r) →
  let delta := opt_prop (first_choice data) "delta" in
  nullish (Some data) = false → truthy (opt_prop delta "tool_calls") = false →
  truthy (opt_prop delta "reasoning_content") = false →
  opt_prop delta "content" = Some (JStr v) → v ≠ ""%string →
  let s' := final (handle_chunk now data) s in
  out s' = out s ++ [ev_delta 0 "text_delta" "text" (JStr v)] ∧ ¬ ∃ p, says (out s') p.
Proof.
  cbv zeta. intros [Ht He Hsays] Hts (c & r & Hl) Hn Htc Hr Hv Hne.
  assert (hasSentStart (ctx s) = true) as Hsent by (destruct (hasSentStart (ctx s)); [done|destruct Hsays as (_ & Hl' & _); congruence]).
  rewrite Hsent in Hsays. destruct (note_report_keeps data (ctx s)) as (Hs' & _ & Htr).
  pose proof (tr_lead _ _ _ (Htr _ _ Ht)) as Hflags. cbn [u_lead with_finish] in Hflags.
  rewrite Hl in Hflags. destruct Hflags as (_ & Htext & _ & _ & Hi & _).
  assert (out (final (handle_chunk now data) s) = out s ++ [ev_delta 0 "text_delta" "text" (JStr v)]) as ->.
  { unfold handle_chunk, final. rewrite Hn, bind_update, Htc. unfold if_truthy.
    set (s1 := with_ctx (note_report data) s).
    assert (send_start now s1 = (Some tt, s1)) as Hst.
    { unfold send_start. rewrite bind_gets. cbn [ctx s1 with_ctx]. by rewrite Hs', Hsent. }
    rewrite (bind_ok _ _ _ _ _ Hst). rewrite (bind_ok _ _ _ tt s1).
    2: { destruct (opt_prop _ "reasoning_content"); [by rewrite Hr|done]. }
    rewrite Hv. destruct v; [done|]. cbn [truthy when]. unfold content_delta.
    rewrite bind_gets. cbn [ctx s1 with_ctx]. rewrite Htext. cbn [negb when].
    erewrite bind_ok by reflexivity. rewrite bind_gets. cbn [ctx s1 with_ctx]. rewrite Hi. done. }
  split; [done|]. intros [p Hp]. unfold says in Hp, Hsays. rewrite fmap_app, p_run_app, Hsays in Hp.
  cbn in Hp. unfold block_at, open_blocks in Hp. cbn in Hp. rewrite Hl in Hp. done.
Qed.

Definition thinking_back : list json :=
  [choice [("content", Some (JStr "a"))] None; choice [("reasoning_content", Some (JStr "b"))] None]%string.

Example late_text_misplaced_witness :
  let data := choice [("content"%string, Some (JStr "c"))] None in
  let s := final (handle_chunks 5 thinking_back) (init None None) in
  out (final (handle_chunk 5 data) s) = out s ++ [ev_delta 0 "text_delta" "text" (JStr "c")]
  ∧ ¬ ∃ p, says (out (final (handle_chunk 5 data) s)) p.
Proof.
  cbv zeta. apply (late_text_misplaced 5 _ {| u_lead := LTextThinking "a" "b"; u_tools := []; u_finish := None |});
    try done. by eexists _, _.
Defined.
