(* ===== verification/OpenAiReply.v ===== *)
(** A reply, streamed or whole

    [converters.ts] converts a chat completion that arrives at once, [stream.ts] one that
    arrives in chunks. The client gets the same message from both: the same blocks, the same
    stop reason and the same usage. *)

From Stdlib Require Import QArith_base.
From S2P Require Import Prelude.
From S2P Require Import Rationals.
From S2P Require Import Json.
From S2P Require Import Programs.
From S2P Require Import Messages.
From S2P Require Import OpenAiFormats.
From S2P Require Import OpenAiStream.
Open Scope Z_scope.

(** * Tool arguments *)

Lemma repair_complete a : is_Some (parse_string a) → repairTruncatedToolJson a = ""%string.
Proof.
  intros H. unfold repairTruncatedToolJson. destruct (String.eqb _ _); [done|].
  by rewrite bool_decide_eq_true_2.
Qed.

Lemma parse_string_app a t : parse_string (a +:+ of_text t) = parse (to_text a ++ t).
Proof.
  unfold parse_string, to_text, of_text. f_equal.
  induction a as [|c a IH]; [apply Strings.String.list_ascii_of_string_of_list_ascii|].
  change (String c a +:+ Strings.String.string_of_list_ascii t) with (String c (a +:+ Strings.String.string_of_list_ascii t)). cbn. by rewrite IH.
Qed.

(** the arguments of a tool call are repaired only where that helps: complete arguments
    are left as they are, and what is appended to others makes them parse. *)
Theorem repaired_arguments a :
  (is_Some (parse_string a) → repaired a = a)
  ∧ (repaired a ≠ a → parse_string a = None ∧ is_Some (parse_string (repaired a))).
Proof.
  unfold repaired. split.
  - intros H. rewrite (repair_complete a H). apply string_app_nil_r.
  - unfold repairTruncatedToolJson. destruct (String.eqb _ _); [by rewrite string_app_nil_r|].
    case_bool_decide as Hp; [by rewrite string_app_nil_r|].
    destruct (list_find _ _) as [[n t]|] eqn:E; cbn [mbind option_bind from_option snd]; [|by rewrite string_app_nil_r].
    intros _. split; [by apply eq_None_not_Some|].
    apply list_find_Some in E as (_ & Ht & _). by rewrite parse_string_app.
Qed.

(** * The whole reply *)

Definition call_json (t : tool) : json :=
  JObj [("id", JStr (t_id t)); ("type", JStr "function");
        ("function", JObj [("name", JStr (t_name t)); ("arguments", JStr (t_args t))])]%string.

Definition lead_fields (l : lead) : list (string * json) :=
  match l with
  | LNone => []
  | LThinking r => [("reasoning_content", JStr r)]
  | LText c => [("content", JStr c)]
  | LThinkingText r c | LTextThinking c r => [("reasoning_content", JStr r); ("content", JStr c)]
  end%string.

(** The chat completion whose chunks were [u] *)
Definition completion (u : upstream) : json :=
  JObj [("object", JStr "chat.completion");
        ("choices", JArr [obj [("message", Some (JObj (("role", JStr "assistant") :: lead_fields (u_lead u)
                                 ++ [("tool_calls", JArr (map (λ t, call_json t.2) (u_tools u)))])));
                               ("finish_reason", JStr <$> u_finish u)]])]%string.

(** A block of a whole message *)
Definition block_json (b : bstate) : json :=
  match b_kind b with
  | TextBlock => text_block "text" "text" (JStr (b_text b))
  | ThinkingBlock => text_block "thinking" "thinking" (JStr (b_text b))
  | ToolBlock id name =>
      JObj [("type", JStr "tool_use"); ("id", JStr id); ("name", JStr name);
            ("input", safeParseJSON (b_text b))]%string
  end.

(** A whole reply states thinking before text; no part is empty. *)
Definition lead_whole (l : lead) : bool :=
  match l with
  | LNone => true
  | LThinking s | LText s => negb (String.eqb s "")
  | LThinkingText r c => negb (String.eqb r "") && negb (String.eqb c "")
  | LTextThinking _ _ => false
  end.

(** The finish reason fits what the reply holds. *)
Definition finish_whole (u : upstream) : Prop :=
  u_finish u = Some "length"%string
  ∨ u_finish u = Some (if has_tools u then "tool_calls" else "stop")%string.

Lemma tool_use_call t :
  tool_use_block (call_json t)
  = Some (block_json (closed_block (tool_block t) (t_args t))).
Proof.
  unfold tool_use_block, call_json, block_json. cbn. unfold or_string, either.
  destruct (t_args t) as [|c s]; done.
Qed.

Lemma tool_use_calls (ts : list (Z * tool)) :
  Forall (λ t, repaired (t_args t.2) = t_args t.2) ts →
  mapM tool_use_block (map (λ t, call_json t.2) ts)
  = Some (map block_json (map (λ t, closed_block (tool_block t.2) (repaired (t_args t.2))) ts)).
Proof.
  induction 1 as [|[i t] ts Ht Hts IH]; [done|]. cbn [map mapM snd].
  rewrite tool_use_call. cbn [mbind option_bind]. rewrite IH. cbn [snd] in Ht. rewrite Ht. done.
Qed.

Definition part_block (type field : string) (v : value) : list json :=
  if truthy v then option_list (text_block type field <$> v) else [].

(** What a conversion reads of a completion decides content and stop reason. *)
Lemma convert_message now data sent choice message calls tools :
  own "error" data = None → opt_first (own "choices" data) = Some choice → truthy (Some choice) = true →
  own "message" choice = Some message → own "tool_calls" message = Some (JArr calls) →
  mapM tool_use_block calls = Some tools →
  ∃ w, convertOpenAIResponseToAnthropic now data sent = Some w
    ∧ own "content" w = Some (JArr (part_block "thinking" "thinking" (own "reasoning_content" message)
                                    ++ part_block "text" "text" (own "content" message) ++ tools))
    ∧ own "stop_reason" w = Some (JStr (mapOpenAIFinishReason (own "finish_reason" choice))).
Proof.
  intros He Hc Ht Hm Hcalls Htools. unfold convertOpenAIResponseToAnthropic.
  destruct data as [| | | | |m]; try discriminate Hc. cbn [nullish].
  rewrite He, Hc, Ht. cbn [truthy negb opt_prop mbind option_bind]. rewrite Hm. cbn [opt_prop mbind option_bind].
  rewrite Hcalls. cbn [truthy mbind option_bind iterable]. rewrite Htools. cbn [mbind option_bind].
  eexists. split; [reflexivity|]. unfold obj. unfold part_block.
  destruct (either _ _); destruct (either _ _); split; reflexivity.
Qed.

Lemma completion_converted now u sent :
  lead_whole (u_lead u) = true → Forall (λ t, repaired (t_args t.2) = t_args t.2) (u_tools u) →
  finish_whole u →
  ∃ w, convertOpenAIResponseToAnthropic now (completion u) sent = Some w
    ∧ own "content" w = Some (JArr (map block_json (reply_blocks u)))
    ∧ own "stop_reason" w = Some (JStr (reply_stop u)).
Proof.
  intros Hl Ht Hf.
  assert (mapOpenAIFinishReason (JStr <$> u_finish u) = reply_stop u) as Hstop.
  { unfold reply_stop, finish_whole, has_tools in *. destruct Hf as [-> | ->]; [done|].
    by case_bool_decide; case_bool_decide. }
  edestruct (convert_message now (completion u) sent) as (w & Hw & Hcontent & Hreason);
    [reflexivity|reflexivity|reflexivity|..|by apply tool_use_calls|].
  - unfold completion, obj. destruct (u_finish u); reflexivity.
  - destruct (u_lead u); reflexivity.
  - exists w. split; [exact Hw|]. rewrite Hcontent, Hreason. split; do 2 f_equal.
    + unfold reply_blocks. rewrite map_app, app_assoc. f_equal.
      destruct (u_lead u) as [|[]|[]|[] []|]; try discriminate Hl; reflexivity.
    + rewrite <-Hstop. f_equal. destruct (u_finish u); reflexivity.
Qed.

(** C12: a reply is the same message streamed and whole. With its thinking before its text,
    complete tool arguments and the finish reason that fits, the blocks that the client
    gets in a stream, whatever chunks the body came in, are the content that the conversion
    of the whole completion gives, and the stop reason is the same. *)
Theorem streamed_as_whole now now' m r sent chunks ds (done : bool) u :
  concat chunks = body ds done → forallb plain ds = true → ds ≠ [] →
  absorb_all ds = Some u → done || finished u = true →
  lead_whole (u_lead u) = true → Forall (λ t, repaired (t_args t.2) = t_args t.2) (u_tools u) →
  finish_whole u →
  ∃ p w, says (out (translate now chunks (init m r))) p
    ∧ convertOpenAIResponseToAnthropic now' (completion u) sent = Some w
    ∧ own "content" w = Some (JArr (map block_json (p_blocks p)))
    ∧ own "stop_reason" w = JStr <$> p_stop p.
Proof.
  intros Hc Hp Hne Ha Hfin Hl Ht Hf.
  destruct (translated now m r chunks ds done u Hc Hp Hne Ha Hfin) as [c Hsays].
  destruct (completion_converted now' u sent Hl Ht Hf) as (w & Hw & Hcontent & Hstop).
  by exists (reply u c), w.
Qed.

Definition sample_upstream : upstream :=
  {| u_lead := LThinkingText "so be it" "Hello";
     u_tools := [(0, {| t_id := "call_1"; t_name := "ls"; t_args := "{}" |})];
     u_finish := Some "tool_calls"%string |}.

Example streamed_as_whole_witness :
  ∃ p w, says (out (translate 5 [body sample_chunks true] (init None None))) p
    ∧ convertOpenAIResponseToAnthropic 6 (completion sample_upstream) None = Some w
    ∧ own "content" w = Some (JArr (map block_json (p_blocks p)))
    ∧ own "stop_reason" w = JStr <$> p_stop p.
Proof.
  apply (streamed_as_whole 5 6 None None None [body sample_chunks true] sample_chunks true).
  - apply app_nil_r.
  - vm_compute. reflexivity.
  - discriminate.
  - vm_compute. reflexivity.
  - reflexivity.
  - reflexivity.
  - repeat constructor.
  - right. reflexivity.
Defined.

(** * Usage *)

(** Nothing upstream said of tokens yet *)
Definition usage_fresh (c : context) : Prop :=
  promptTokens c = JInt 0 ∧ completionTokens c = JInt 0 ∧ cacheReadInput c = None ∧ cacheCreationInput c = None.

Lemma read_details v : truthy v = false → readPromptTokensDetails v = (None, None).
Proof. destruct v as [[]|]; try done. Qed.

Lemma replace_or_zero v : replace_if v (JInt 0) = or_zero v.
Proof. unfold replace_if, or_zero, either. by destruct (truthy v), v. Qed.

Lemma falsy_prop v k : truthy v = false → opt_prop v k = None.
Proof. by destruct v as [[]|]. Qed.

Lemma note_report_usage data c :
  promptTokens c = JInt 0 → completionTokens c = JInt 0 → cacheReadInput c = None →
  cacheCreationInput c = None →
  stream_usage (note_report data c)
  = let usage := own "usage" data in
    let '(read, creation) := readPromptTokensDetails (opt_prop usage "prompt_tokens_details") in
    let prompt := or_zero (opt_prop usage "prompt_tokens") in
    let completion := or_zero (opt_prop usage "completion_tokens") in
    let input := normalizeCacheInclusiveInput (Some prompt) (or_number read) (or_number creation) in
    if clamped input
    then [("input_tokens", Some prompt); ("output_tokens", Some completion)]%string
    else ("input_tokens"%string, Some (JNum (inputTokens input)))
         :: ("output_tokens"%string, Some completion) :: cache_fields read creation input.
Proof.
  intros Hp Hq Hr Hc. unfold note_report. cbv zeta. destruct (truthy (own "usage" data)) eqn:Eu.
  - destruct (truthy (opt_prop (own "usage" data) "prompt_tokens_details")) eqn:Ed.
    + destruct (readPromptTokensDetails _) as [read creation].
      unfold stream_usage. cbn [promptTokens completionTokens cacheReadInput cacheCreationInput set_report].
      rewrite Hp, Hq, Hr, Hc, !replace_or_zero. by destruct read, creation.
    + rewrite (read_details _ Ed).
      unfold stream_usage. cbn [promptTokens completionTokens cacheReadInput cacheCreationInput set_report].
      by rewrite Hp, Hq, Hr, Hc, !replace_or_zero.
  - rewrite !(falsy_prop (own "usage" data)) by done.
    unfold stream_usage. cbn [promptTokens completionTokens cacheReadInput cacheCreationInput set_report].
    by rewrite Hp, Hq, Hr, Hc.
Qed.

(** the usage that a stream reports at its end is the usage that the conversion of a
    whole response reports: the same fields with the same values, for every shape of what
    upstream sent. *)
Theorem streamed_usage_as_whole data c k :
  usage_fresh c →
  alist_get k (omap (λ '(k, v), pair k <$> v) (stream_usage (note_report data c)))
  = alist_get k (omap (λ '(k, v), pair k <$> v)
      (normalizedInput (own "usage" data)
       ++ [("output_tokens"%string, Some (or_zero (opt_prop (own "usage" data) "completion_tokens")))])).
Proof.
  intros (Hp & Hq & Hr & Hc). rewrite (note_report_usage data c Hp Hq Hr Hc).
  unfold normalizedInput. destruct (readPromptTokensDetails _) as [read creation].
  set (n := normalizeCacheInclusiveInput _ _ _). destruct (clamped n); [done|].
  unfold cache_fields. destruct read, creation; cbn; repeat case_decide; naive_solver.
Qed.

Example streamed_usage_as_whole_witness :
  let data := JObj [("usage", JObj [("prompt_tokens", JInt 10); ("completion_tokens", JInt 3);
                       ("prompt_tokens_details", JObj [("cached_tokens", JInt 4)])])]%string in
  alist_get "cache_read_input_tokens"%string
      (omap (λ '(k, v), pair k <$> v) (stream_usage (note_report data (start None None))))
    = alist_get "cache_read_input_tokens"%string (omap (λ '(k, v), pair k <$> v)
        (normalizedInput (own "usage" data)
         ++ [("output_tokens"%string, Some (or_zero (opt_prop (own "usage" data) "completion_tokens")))])).
Proof. cbv zeta. apply streamed_usage_as_whole. by split_and!. Defined.
