(* ===== verification/Routing.v ===== *)
(** The routing table: [packages/core/src/routing.ts], [model-alias.ts], [api-key-pin.ts],
    [chat-capabilities.ts], [effort-variants.ts] and [messages-server-tools.ts], with the model ids of
    [packages/types/src/sdk-bridge-transport.ts].

    Which rule decides for a request, which model it sends, and which accounts may serve it.
    Rules and aliases arrive as untyped JSON and are validated here; [None] is an exception
    that the validator throws. *)

From stdpp Require Import strings.
From S2P Require Import Prelude.
From S2P Require Import Models.
From S2P Require Import Providers.
From S2P Require Import StableSort.
From S2P Require Import Rationals.
From S2P Require Import Json.
Open Scope Z_scope.

(** * Model ids *)

Definition ends_with (s suffix : string) : bool :=
  let n := (String.length s - String.length suffix)%nat in
  (String.length suffix <=? String.length s)%nat && String.eqb (slice_from n s) suffix.
Definition drop_end (n : nat) (s : string) : string := String.substring 0 (String.length s - n) s.

(** [upstreamModel.replace(/\[1m\]$/i, "")] *)
Definition sdkBridgeWireModel (upstreamModel : string) : string :=
  if ends_with (toLowerCase upstreamModel) "[1m]" then drop_end 4 upstreamModel else upstreamModel.

Definition ONE_MILLION_CONTEXT_MODELS : list string :=
  ["claude-opus-5-5"; "claude-fable-5-1"; "claude-sonnet-5"]%string.

Definition oneMillionContextBase (model : string) : option string :=
  if ends_with model "[1m]" then
    let base := drop_end 4 model in
    if bool_decide (base ∈ ONE_MILLION_CONTEXT_MODELS) then Some base else None
  else None.

Definition isModelAliasId (model : string) : bool := startsWith model "alias:".

Definition is_digit (c : ascii) : bool := (48 <=? code c)%nat && (code c <=? 57)%nat.
Definition is_separator (c : ascii) : bool := (code c =? 45)%nat || (code c =? 46)%nat.

(** [\d+(?:[.-]\d+)*], to the end; [after] says that a digit came last *)
Fixpoint numbers (after : bool) (s : string) : bool :=
  match s with
  | EmptyString => after
  | String c s => if is_digit c then numbers true s else is_separator c && after && numbers false s
  end.

(** [(?:-latest)?$] *)
Definition before_latest (s : string) : string :=
  if ends_with s "-latest" then drop_end 7 s else s.

Definition strip_prefix (p s : string) : option string :=
  if startsWith s p then Some (slice_from (String.length p) s) else None.

(** The first of the names that [s] begins with, and the rest *)
Fixpoint strip_name (names : list string) (s : string) : option (string * string) :=
  match names with
  | [] => None
  | n :: names =>
      match strip_prefix n s with Some r => Some (n, r) | None => strip_name names s end
  end.

(** The longest beginning of digits and separators *)
Fixpoint span_numbers (s : string) : string * string :=
  match s with
  | EmptyString => (EmptyString, EmptyString)
  | String c r =>
      if is_digit c || is_separator c then let '(p, q) := span_numbers r in (String c p, q)
      else (EmptyString, s)
  end.

Inductive RoutingModelFamily : Type := RFOpus | RFSonnet | RFHaiku | RFFable.
#[export] Instance RoutingModelFamily_eq_dec : EqDecision RoutingModelFamily.
Proof. solve_decision. Defined.

Definition ROUTING_MODEL_FAMILIES : list RoutingModelFamily := [RFOpus; RFSonnet; RFHaiku; RFFable].

Definition routing_family_name (f : RoutingModelFamily) : string :=
  match f with
  | RFOpus => "anthropic:opus" | RFSonnet => "anthropic:sonnet"
  | RFHaiku => "anthropic:haiku" | RFFable => "anthropic:fable"
  end.

Definition family_of_name (name : string) : option RoutingModelFamily :=
  if String.eqb name "opus" then Some RFOpus
  else if String.eqb name "sonnet" then Some RFSonnet
  else if String.eqb name "haiku" then Some RFHaiku
  else if String.eqb name "fable" || String.eqb name "mythos" then Some RFFable
  else None.

(** [^claude-(opus|sonnet|haiku|fable|mythos)-\d+(?:[.-]\d+)*(?:-latest)?$] *)
Definition name_first (s : string) : option string :=
  r ← strip_prefix "claude-" s;
  '(name, r) ← strip_name ["opus"; "sonnet"; "haiku"; "fable"; "mythos"]%string r;
  r ← strip_prefix "-" r;
  if numbers false (before_latest r) then Some name else None.

(** [^claude-\d+(?:[.-]\d+)*-(opus|sonnet|haiku)(?:-\d+)?(?:-latest)?$] *)
Definition name_last (s : string) : option string :=
  r ← strip_prefix "claude-" s;
  let '(version, r) := span_numbers r in
  '(name, r) ← strip_name ["opus"; "sonnet"; "haiku"]%string r;
  let r := before_latest r in
  if ends_with version "-" && numbers false (drop_end 1 version)
     && (String.eqb r ""
         || match strip_prefix "-" r with
            | Some d => negb (String.eqb d "") && forallb is_digit (to_text d)
            | None => false
            end)
  then Some name else None.

Definition getRoutingModelFamily (requested : string) : option RoutingModelFamily :=
  let model := toLowerCase (sdkBridgeWireModel requested) in
  match name_first model with
  | Some name => family_of_name name
  | None => name_last model ≫= family_of_name
  end.

(** * Rules *)

Inductive MatchModel := MatchAny | MatchExact (model : string) | MatchFamily (f : RoutingModelFamily).
Inductive RulePool := PoolInherit | PoolProvider (provider : string) | PoolAccounts (ids : list string).
Inductive RuleTarget := TargetRequested | TargetLiteral (model : string).
#[export] Instance RuleTarget_eq_dec : EqDecision RuleTarget.
Proof. solve_decision. Defined.

(** A rule as [validateRoutingRule] leaves it: each kind with the value it needs *)
Record RoutingRule := {
  rule_id : string;
  rule_name : string;
  rule_enabled : bool;
  rule_position : Z;
  match_api_key_id : option string;
  match_model : MatchModel;
  rule_pool : RulePool;
  rule_target : RuleTarget }.

Definition rule_leb (a b : RoutingRule) : bool := rule_position a <=? rule_position b.

Definition rule_matches (apiKeyId : option string) (requestedModel : string) (rule : RoutingRule) : bool :=
  rule_enabled rule
  && match match_api_key_id rule with None => true | Some k => bool_decide (apiKeyId = Some k) end
  && match match_model rule with
     | MatchAny => true
     | MatchExact model => String.eqb model requestedModel
     | MatchFamily f => bool_decide (getRoutingModelFamily requestedModel = Some f)
     end.

Definition matchRoutingRule (rules : list RoutingRule) (apiKeyId : option string) (requestedModel : string)
    : option RoutingRule :=
  List.find (rule_matches apiKeyId requestedModel) (stable_sort rule_leb rules).

Inductive TargetSource := FromLiteral | FromRequested | FromIdentity.

Record ResolvedRoutingTarget := { upstreamModel : string; targetSource : TargetSource }.

Definition resolveRoutingTarget (rule : option RoutingRule) (requestedModel : string) : ResolvedRoutingTarget :=
  match rule_target <$> rule with
  | Some (TargetLiteral model) => {| upstreamModel := model; targetSource := FromLiteral |}
  | Some TargetRequested => {| upstreamModel := requestedModel; targetSource := FromRequested |}
  | None => {| upstreamModel := requestedModel; targetSource := FromIdentity |}
  end.

(** * Permissions *)

Inductive Completeness := Unknown | KnownComplete | KnownEmpty.
#[export] Instance Completeness_eq_dec : EqDecision Completeness.
Proof. solve_decision. Defined.

Record ModelPermissionSet := {
  completeness : Completeness;
  discovered_ids : list string;
  manual_ids : list string }.

Definition listed (ids : list string) (id : string) : bool := bool_decide (id ∈ ids).

Definition pools_account (rule : RoutingRule) (id : string) : bool :=
  match rule_pool rule with PoolAccounts ids => listed ids id | _ => false end.

(** An account of the rule's pool is granted the rule's literal model while its list is unknown. *)
Definition granted_by_rule (winningRule : option RoutingRule) (id model : string) : bool :=
  match winningRule with
  | Some r => rule_enabled r && pools_account r id && bool_decide (rule_target r = TargetLiteral model)
  | None => false
  end.

Definition permission_ids (provider model : string) : list string :=
  model :: if isOfficialAnthropicProvider provider then option_list (oneMillionContextBase model) else [].

Definition isModelPermitted (permissions : option ModelPermissionSet) (id provider model : string)
    (winningRule : option RoutingRule) : bool :=
  let ids := permission_ids provider model in
  match permissions with
  | Some p =>
      existsb (listed (manual_ids p)) ids
      || if bool_decide (completeness p = Unknown) then granted_by_rule winningRule id model
         else existsb (listed (discovered_ids p)) ids
  | None => granted_by_rule winningRule id model
  end.

(** * Pins of an API key *)

Record RoutingPin := {
  pin_accountId : option string;
  pin_providers : option (list string);
  pin_excludedProviders : option (list string) }.

Definition nonempty_list {A} (l : option (list A)) : bool :=
  match l with Some (_ :: _) => true | _ => false end.

Definition isPinActive (pin : option RoutingPin) : bool :=
  match pin with
  | None => false
  | Some p =>
      bool_decide (is_Some (truthy_string (pin_accountId p)))
      || nonempty_list (pin_providers p) || nonempty_list (pin_excludedProviders p)
  end.

Definition present {A} (o : option A) : Z := match o with Some _ => 1 | None => 0 end.

Definition isRoutingPinValid (pin : RoutingPin) : bool :=
  if 1 <? present (pin_accountId pin) + present (pin_providers pin) + present (pin_excludedProviders pin)
  then false
  else if from_option (λ id, String.eqb (trim id) "") false (pin_accountId pin) then false
  else forallb (λ l, match l with
                     | None => true
                     | Some l => negb (bool_decide (l = [])) && forallb isKnownProvider l
                     end) [pin_providers pin; pin_excludedProviders pin].

Definition isAccountAllowedByPin (pin : option RoutingPin) (id provider : string) : bool :=
  match pin with
  | None => true
  | Some p =>
      if bool_decide (is_Some (pin_excludedProviders p)) && negb (isRoutingPinValid p) then false
      else if negb (isPinActive pin) then true
      else if from_option (λ l, listed l provider) false (pin_excludedProviders p) then false
      else match truthy_string (pin_accountId p) with
           | Some a => String.eqb id a
           | None => match pin_providers p with None => true | Some l => listed l provider end
           end
  end.

(** * Chat fields *)

Inductive ChatField := max_tokens | temperature | top_p | stop | reasoning_content | response_format.
#[export] Instance ChatField_eq_dec : EqDecision ChatField.
Proof. solve_decision. Defined.
Inductive ChatFieldTreatment := passed | ignored | refused.
#[export] Instance ChatFieldTreatment_eq_dec : EqDecision ChatFieldTreatment.
Proof. solve_decision. Defined.

Definition ChatFieldCapability : Type := ChatField → ChatFieldTreatment.

Definition CODEX : ChatFieldCapability := λ f,
  match f with
  | max_tokens | temperature | top_p => ignored
  | stop | reasoning_content => refused
  | response_format => passed
  end.
Definition OPENROUTER : ChatFieldCapability := λ _, passed.
Definition SDK_BRIDGE : ChatFieldCapability := λ f,
  match f with temperature | top_p => ignored | _ => passed end.

Definition chatFieldCapability (provider : string) (viaSdkBridge : bool) : option ChatFieldCapability :=
  if viaSdkBridge then Some SDK_BRIDGE
  else if String.eqb provider "codex" then Some CODEX
  else if String.eqb provider "openrouter" then Some OPENROUTER
  else None.

Definition refusedChatField (capability : ChatFieldCapability) (fields : list ChatField) : option ChatField :=
  List.find (λ f, bool_decide (capability f = refused)) fields.

Definition ignoredChatFields (capability : ChatFieldCapability) (fields : list ChatField) : list ChatField :=
  List.filter (λ f, bool_decide (capability f = ignored)) fields.

Definition REFUSES_MESSAGES_SERVER_TOOLS : list string :=
  ["codex"; "openai-compatible"; "kilo"; "qwen"; "devin"]%string.

Definition refusesMessagesServerTools (provider : string) : bool :=
  listed REFUSES_MESSAGES_SERVER_TOOLS provider.

(** * Validation of what the operator stores *)

(** A string that is neither empty nor padded nor too long *)
Definition valid_string (v : value) : option string :=
  s ← as_string v;
  if negb (String.eqb (trim s) "") && String.eqb s (trim s) && (units s <=? 256) then Some s else None.

Definition absent (v : value) : option unit :=
  match v with Some JNull => Some tt | _ => None end.

Definition as_bool (v : value) : option bool :=
  match v with Some (JBool b) => Some b | _ => None end.

Definition as_array (v : value) : option (list json) :=
  match v with Some (JArr l) => Some l | _ => None end.

Definition nullable_string (v : value) : option (option string) :=
  match v with Some JNull => Some None | _ => Some <$> valid_string v end.

(** A list of at most [n] account ids, not empty and without repetitions *)
Definition account_ids (n : nat) (v : value) : option (list string) :=
  l ← as_array v;
  ids ← mapM (λ x, valid_string (Some x)) l;
  if negb (bool_decide (ids = [])) && (length ids <=? n)%nat && bool_decide (NoDup ids) then Some ids else None.

Definition validate_match (kind : string) (v : value) : option MatchModel :=
  if String.eqb kind "any" then absent v;; Some MatchAny
  else if String.eqb kind "exact" then MatchExact <$> valid_string v
  else if String.eqb kind "family" then
    name ← as_string v;
    MatchFamily <$> List.find (λ f, String.eqb (routing_family_name f) name) ROUTING_MODEL_FAMILIES
  else None.

Definition validate_pool (kind : string) (provider ids : value) : option RulePool :=
  if String.eqb kind "inherit" then absent provider;; absent ids;; Some PoolInherit
  else if String.eqb kind "provider" then p ← valid_string provider; absent ids;; Some (PoolProvider p)
  else if String.eqb kind "accounts" then absent provider;; PoolAccounts <$> account_ids 1000 ids
  else None.

(** The retired kind [default] means [requested]. *)
Definition validate_target (kind : string) (model : value) : option RuleTarget :=
  if String.eqb kind "literal" then TargetLiteral <$> valid_string model
  else if String.eqb kind "default" || String.eqb kind "requested" then absent model;; Some TargetRequested
  else None.

Definition validateRoutingRule (v : json) : option RoutingRule :=
  id ← valid_string (own "id" v);
  name ← valid_string (own "name" v);
  enabled ← as_bool (own "enabled" v);
  position ← safe_integer (own "position" v);
  key ← nullable_string (own "match_api_key_id" v);
  match_kind ← as_string (own "match_model_kind" v);
  model ← validate_match match_kind (own "match_model_value" v);
  pool_kind ← as_string (own "pool_kind" v);
  pool ← validate_pool pool_kind (own "pool_provider" v) (own "pool_account_ids" v);
  target_kind ← as_string (own "target_kind" v);
  target ← validate_target target_kind (own "target_model" v);
  if 0 <=? position then
    Some {| rule_id := id; rule_name := name; rule_enabled := enabled; rule_position := position;
            match_api_key_id := key; match_model := model; rule_pool := pool; rule_target := target |}
  else None.

(** ** Aliases *)

Record ModelAliasTarget := { at_model : string; at_accountIds : option (list string) }.

Record ModelAlias := {
  alias_id : string;
  displayName : string;
  targets : list ModelAliasTarget;
  revision : Z }.

Definition is_alnum (c : ascii) : bool :=
  is_digit c || (97 <=? code c)%nat && (code c <=? 122)%nat || (65 <=? code c)%nat && (code c <=? 90)%nat.

(** [^alias:[a-zA-Z0-9][a-zA-Z0-9._-]{0,119}$] *)
Definition valid_alias_id (s : string) : bool :=
  match to_text <$> strip_prefix "alias:" s with
  | Some (c :: l) =>
      is_alnum c && forallb (λ c, is_alnum c || is_separator c || (code c =? 95)%nat) l
      && (length l <=? 119)%nat
  | _ => false
  end.

Definition validate_alias_target (v : json) : option ModelAliasTarget :=
  model ← valid_string (own "model" v);
  ids ← match own "accountIds" v with
        | Some JNull => Some None
        | ids => Some <$> account_ids 1000 ids
        end;
  if isModelAliasId model then None else Some {| at_model := model; at_accountIds := ids |}.

Definition validateModelAlias (v : json) : option ModelAlias :=
  id ← as_string (own "id" v);
  name ← valid_string (own "displayName" v);
  rev ← safe_integer (own "revision" v);
  l ← as_array (own "targets" v);
  ts ← mapM validate_alias_target l;
  if valid_alias_id id && (0 <=? rev) && (rev <? MAX_SAFE_INTEGER)
     && negb (bool_decide (ts = [])) && (length ts <=? 16)%nat && bool_decide (NoDup (at_model <$> ts))
  then Some {| alias_id := id; displayName := name; targets := ts; revision := rev |} else None.

(** * Effort variants: [packages/core/src/effort-variants.ts] *)

Definition EFFORT_ORDER : list string :=
  ["none"; "minimal"; "low"; "medium"; "high"; "xhigh"; "max"]%string.

Fixpoint letters (s : string) : string :=
  match s with
  | EmptyString => EmptyString
  | String c s => if (97 <=? code c)%nat && (code c <=? 122)%nat then String c (letters s) else letters s
  end.

Definition variantEffort (name : option string) : option string :=
  n ← name; List.find (String.eqb (letters (toLowerCase n))) EFFORT_ORDER.

Record ModelVariant := {
  v_family : string;
  v_effort : option string;
  v_dimensions : string }.

(** [EFFORT_ORDER.indexOf(effort)] *)
Definition effort_rank (effort : string) : Z :=
  match list_find (λ e, e = effort) EFFORT_ORDER with Some (i, _) => Z.of_nat i | None => -1 end.

Section variants.
(** [a.localeCompare(b) <= 0] of the host's collation *)
Context (locale_leb : string → string → bool).

Definition sibling_leb (a b : string * Z) : bool :=
  (a.2 <? b.2) || ((a.2 =? b.2) && locale_leb a.1 b.1).

Definition siblings (want : string) (base : ModelVariant) (variants : jmap string ModelVariant)
    : list (string * Z) :=
  stable_sort sibling_leb
    (omap (λ '(id, v),
       if String.eqb (v_family v) (v_family base) && String.eqb (v_dimensions v) (v_dimensions base) then
         e ← v_effort v; if negb (String.eqb e "none") || String.eqb want "none" then Some (id, effort_rank e) else None
       else None) (entries variants)).

Definition selectEffortVariant (target : string) (requested : option string)
    (variants : jmap string ModelVariant) : string :=
  match variantEffort requested, variants !! target with
  | Some want, Some base =>
      match truthy_string (v_effort base) with
      | None => target
      | Some _ =>
          let l := siblings want base variants in
          match last (List.filter (λ s, s.2 <=? effort_rank want) l) with
          | Some s => s.1
          | None => from_option fst target (head l)
          end
      end
  | _, _ => target
  end.
End variants.
