(* ===== verification/ResolvedRoute.v ===== *)
(** Where a request may go: [packages/proxy/src/resolved-route.ts], with the scope of
    [account-model-permissions.ts] and the exclusions of [request-model-exclusions.ts].

    A route is built once, from the operator's restrictions, the winning rule and what each
    account permits, and never widened after. The texts of rejections are left out: an
    exclusion and an error are the data they are made of. *)

From stdpp Require Import strings gmap.
From S2P Require Import Prelude.
From S2P Require Import Models.
From S2P Require Import Accounts.
From S2P Require Import Rationals.
From S2P Require Import Json.
From S2P Require Import OpenAiFormats.
From S2P Require Import Routing.
Open Scope Z_scope.

(** * The scope of an account *)

(** [packages/core/src/model-mappings.ts]: the endpoint that the column names. The trimmed text
    is JSON or the endpoint itself. *)
Definition parseCustomEndpointData (customEndpoint : option string) : option (option string) :=
  match truthy_string customEndpoint with
  | None => None
  | Some c =>
      let trimmed := trim c in
      if startsWith trimmed "{" then
        match parse_string trimmed with
        | Some v => Some <$> as_string (own "endpoint" v)
        | None => Some (Some trimmed)
        end
      else Some (Some trimmed)
  end.

Definition or_null (s : option string) : json := from_option JStr JNull s.

Section scope.
(** SHA-256, in hexadecimal *)
Context (sha256 : string → string).

Definition modelPermissionScope (a : Account) : string :=
  let i := prof_identity (acc_profile a) in
  sha256 (stringify (JArr
    [JStr (acc_provider a);
     or_null (mjoin (parseCustomEndpointData (acc_custom_endpoint a)));
     or_null (prof_api_key (acc_profile a));
     JStr (default (acc_id a) (identity_external_id i));
     or_null (identity_email i);
     or_null (identity_organization_name i);
     or_null (identity_plan_tier i)])).

(** * Building a route *)

Record SdkBridgeVersionFloor := {
  floor_model : string;
  requiredVersion : string;
  rejectedVersion : string }.

Inductive Purpose := AutoRefresh | Keepalive.
#[export] Instance Purpose_eq_dec : EqDecision Purpose.
Proof using. solve_decision. Defined.

Record AliasRouteEvidence := { ev_id : string; ev_revision : Z; targetIndex : nat }.

(** [accountId, upstreamModel] *)
Abbreviation pair := (string * string)%type.

Record BuildRouteInput := {
  in_alias : option AliasRouteEvidence;
  in_accounts : list Account;
  in_rules : list RoutingRule;
  requestedModel : string;
  routingModel : option string;
  in_apiKeyId : option string;
  in_pin : option RoutingPin;
  permissions : gmap string ModelPermissionSet;
  priorExclusions : nat;
  suppressedPairs : gset pair;
  substitutedPairs : gset pair;
  headerAccountId : option string;
  officialAnthropicExclusion : option string;
  bridgesOfficialAnthropic : bool;
  sdkBridgeRefusal : option string;
  sdkBridgeVersionFloor : string → option SdkBridgeVersionFloor;
  chatRequirements : option (list ChatField);
  serverToolType : option string;
  maintenance : option (string * Purpose) }.

(** Why an account is no destination *)
Inductive Exclusion :=
  | Disabled
  | ByPin
  | ByOfficialAnthropic (reason : string)
  | ByHeader
  | ByMaintenance
  | ByRuleProvider
  | ByRuleAccounts
  | NotPermitted (model : string)
  | Substituted (model : string)
  | Suppressed (model : string)
  | NoChatIngress
  | RefusesChatField (field : ChatField)
  | RefusesServerTool (type : string)
  | BridgeRefuses (field : string)
  | BridgeTooOld (floor : SdkBridgeVersionFloor)
  | NeedsBridge (model : string).

Record AuthorizedTarget := {
  t_upstreamModel : string;
  t_source : TargetSource;
  t_provider : string;
  t_scope : string }.

Definition destinationExclusionReason (a : Account) (i : BuildRouteInput) (rule : option RoutingRule)
    : option Exclusion :=
  if acc_disabled a then Some Disabled
  else if negb (isAccountAllowedByPin (in_pin i) (acc_id a) (acc_provider a)) then Some ByPin
  else match truthy_string (officialAnthropicExclusion i) with
  | Some r => if isOfficialAnthropicProvider (acc_provider a) then Some (ByOfficialAnthropic r) else None
  | None => None
  end ∪
  (if from_option (λ h, negb (String.eqb h (acc_id a))) false (truthy_string (headerAccountId i)) then Some ByHeader
   else if from_option (λ m, negb (String.eqb m.1 (acc_id a))) false (maintenance i) then Some ByMaintenance
   else match rule_pool <$> rule with
        | Some (PoolProvider p) => if String.eqb p (acc_provider a) then None else Some ByRuleProvider
        | Some (PoolAccounts ids) => if listed ids (acc_id a) then None else Some ByRuleAccounts
        | _ => None
        end).

Definition winning_rule (i : BuildRouteInput) : option RoutingRule :=
  match maintenance i with
  | Some _ => None
  | None => matchRoutingRule (in_rules i) (in_apiKeyId i) (default (requestedModel i) (routingModel i))
  end.

(** What the route sends, to every account the same *)
Definition resolved_target (i : BuildRouteInput) : ResolvedRoutingTarget :=
  match maintenance i with
  | Some (_, Keepalive) => {| upstreamModel := requestedModel i; targetSource := FromRequested |}
  | _ => resolveRoutingTarget (winning_rule i) (default (requestedModel i) (routingModel i))
  end.

Definition bridged (i : BuildRouteInput) (a : Account) : bool :=
  bridgesOfficialAnthropic i && isOfficialAnthropicProvider (acc_provider a).

Definition chat_exclusion (i : BuildRouteInput) (a : Account) : option Exclusion :=
  fields ← chatRequirements i;
  match chatFieldCapability (acc_provider a) (bridged i a) with
  | None => Some NoChatIngress
  | Some capability => RefusesChatField <$> refusedChatField capability fields
  end.

(** The checks of one account, in the order of the code *)
Definition exclusion (i : BuildRouteInput) (a : Account) : option Exclusion :=
  let rule := winning_rule i in
  let model := upstreamModel (resolved_target i) in
  destinationExclusionReason a i rule ∪
  (if negb (bool_decide (is_Some (maintenance i)))
      && negb (isModelPermitted (permissions i !! acc_id a) (acc_id a) (acc_provider a) model rule)
   then Some (NotPermitted model)
   else if bool_decide ((acc_id a, model) ∈ suppressedPairs i)
   then Some (if bool_decide ((acc_id a, model) ∈ substitutedPairs i) then Substituted model else Suppressed model)
   else chat_exclusion i a ∪
   (if bool_decide (is_Some (serverToolType i)) && refusesMessagesServerTools (acc_provider a)
    then RefusesServerTool <$> serverToolType i
    else if bridged i a && bool_decide (is_Some (sdkBridgeRefusal i)) then BridgeRefuses <$> sdkBridgeRefusal i
    else (if bridged i a then BridgeTooOld <$> sdkBridgeVersionFloor i model else None) ∪
    (if negb (bridgesOfficialAnthropic i) && isOfficialAnthropicProvider (acc_provider a)
        && negb (String.eqb (sdkBridgeWireModel model) model)
     then Some (NeedsBridge model) else None))).

Definition authorized (i : BuildRouteInput) (a : Account) : AuthorizedTarget :=
  let r := resolved_target i in
  {| t_upstreamModel := upstreamModel r; t_source := targetSource r; t_provider := acc_provider a;
     t_scope := modelPermissionScope a |}.

(** What the loop over the accounts leaves: targets and exclusions, in pool order *)
Record admission := {
  ad_targets : jmap string AuthorizedTarget;
  ad_exclusions : list (string * Exclusion) }.

Definition admit_account (i : BuildRouteInput) (acc : admission) (a : Account) : admission :=
  match exclusion i a with
  | Some e =>
      {| ad_targets := ad_targets acc; ad_exclusions := ad_exclusions acc ++ [(acc_id a, e)] |}
  | None =>
      {| ad_targets := <[acc_id a := authorized i a]> (ad_targets acc); ad_exclusions := ad_exclusions acc |}
  end.

Definition admissions (i : BuildRouteInput) : admission :=
  foldl (admit_account i) {| ad_targets := ∅; ad_exclusions := [] |} (in_accounts i).

Inductive RouteError :=
  | ModelRequired
  | InvalidDestinations
  | SdkBridgeFieldError (field : string)
  | ServerToolRouteError (type : string)
  | SdkBridgeVersionRouteError (floor : SdkBridgeVersionFloor)
  | ModelSuffixRouteError (model : string)
  | ChatCapabilityError (field : ChatField)
  | ModelSubstitutionRouteError
  | NoChatDestination
  | NoDestination (exclusions : list (string * Exclusion)).

Definition statusCode (e : RouteError) : Z :=
  match e with
  | ModelRequired | InvalidDestinations | NoChatDestination | NoDestination _ => 403
  | ModelSubstitutionRouteError => 503
  | _ => 400
  end.

(** The last exclusion of a kind, or the first *)
Definition last_of {A} (f : Exclusion → option A) (l : list (string * Exclusion)) : option A :=
  last (omap (λ e, f e.2) l).
Definition first_of {A} (f : Exclusion → option A) (l : list (string * Exclusion)) : option A :=
  head (omap (λ e, f e.2) l).

Definition is_substituted (e : Exclusion) : bool := match e with Substituted _ => true | _ => false end.
Definition no_chat_ingress (e : Exclusion) : bool := match e with NoChatIngress => true | _ => false end.

(** Why a route is empty *)
Definition empty_error (i : BuildRouteInput) (l : list (string * Exclusion)) : RouteError :=
  let substituted := length (List.filter (λ e, is_substituted e.2) l) in
  match last_of (λ e, match e with BridgeRefuses f => Some f | _ => None end) l with
  | Some f => SdkBridgeFieldError f
  | None =>
  match last_of (λ e, match e with RefusesServerTool t => Some t | _ => None end) l with
  | Some t => ServerToolRouteError t
  | None =>
  match last_of (λ e, match e with BridgeTooOld f => Some f | _ => None end) l with
  | Some f => SdkBridgeVersionRouteError f
  | None =>
  match last_of (λ e, match e with NeedsBridge m => Some m | _ => None end) l with
  | Some m => ModelSuffixRouteError m
  | None =>
  match first_of (λ e, match e with RefusesChatField f => Some f | _ => None end) l with
  | Some f => ChatCapabilityError f
  | None =>
      if (0 <? substituted)%nat && (substituted =? length l + priorExclusions i)%nat then ModelSubstitutionRouteError
      else if existsb (λ e, no_chat_ingress e.2) l then NoChatDestination
      else NoDestination l
  end end end end end.

Record ResolvedRoute := {
  r_requestedModel : string;
  r_admissionError : option RouteError;
  r_rule : option RoutingRule;
  r_alias : option AliasRouteEvidence;
  r_maintenance : option (string * Purpose);
  r_targets : jmap string AuthorizedTarget }.

Definition resolved_route (i : BuildRouteInput) (targets : jmap string AuthorizedTarget) (e : option RouteError)
    : ResolvedRoute :=
  {| r_requestedModel := requestedModel i; r_admissionError := e; r_rule := winning_rule i;
     r_alias := in_alias i; r_maintenance := maintenance i; r_targets := targets |}.

(** An alias keeps the stage that nothing admits, with the reason; else the request fails. *)
Definition buildResolvedRoute (i : BuildRouteInput) : RouteError + ResolvedRoute :=
  if String.eqb (trim (requestedModel i)) "" then inl ModelRequired
  else if from_option (λ p, negb (isRoutingPinValid p)) false (in_pin i) then inl InvalidDestinations
  else
    let '{| ad_targets := targets; ad_exclusions := l |} := admissions i in
    if bool_decide (entries targets = []) then
      let e := empty_error i l in
      if bool_decide (is_Some (in_alias i)) then inr (resolved_route i targets (Some e)) else inl e
    else inr (resolved_route i targets None).

(** ** The route *)

(** The model every target sends, when they agree *)
Definition route_upstreamModel (r : ResolvedRoute) : option string :=
  match remove_dups (t_upstreamModel <$> (entries (r_targets r)).*2) with
  | [m] => Some m
  | _ => None
  end.

Definition target (r : ResolvedRoute) (a : Account) : option AuthorizedTarget :=
  t ← r_targets r !! acc_id a;
  if String.eqb (t_provider t) (acc_provider a) && String.eqb (t_scope t) (modelPermissionScope a)
  then Some t else None.

Definition accountIds (r : ResolvedRoute) : list string := (entries (r_targets r)).*1.

Definition permits (r : ResolvedRoute) (a : Account) (p : option ModelPermissionSet) : bool :=
  match target r a with
  | None => false
  | Some t =>
      bool_decide (is_Some (r_maintenance r))
      || isModelPermitted p (acc_id a) (acc_provider a) (t_upstreamModel t) (r_rule r)
  end.

(** * The route of a request *)

(** What the weak maps hold of one request. A stage is its place in the frozen plan. *)
Record routing := {
  installed : option ResolvedRoute;
  plan : list ResolvedRoute;
  aliasReason : option string;
  excluded : gset pair }.

Definition routing_init : routing :=
  {| installed := None; plan := []; aliasReason := None; excluded := ∅ |}.

Inductive PolicyError :=
  | AlreadyInstalled | NoRoute | NoPlan | StageRejected (e : RouteError) | OutsidePlan | OutsideRoute
  | NoPermittedAccount.

Definition installResolvedRoute (r : ResolvedRoute) (q : routing) : PolicyError + routing :=
  match installed q with
  | Some _ => inl AlreadyInstalled
  | None =>
      inr {| installed := Some r; plan := plan q; aliasReason := aliasReason q; excluded := excluded q |}
  end.

Definition admissible (r : ResolvedRoute) : bool := negb (bool_decide (is_Some (r_admissionError r))).

Definition admissibleAliasStages (stages : list ResolvedRoute) : list ResolvedRoute :=
  List.filter admissible stages.

Definition installAliasRoutes (stages : list ResolvedRoute) (q : routing) : PolicyError + routing :=
  match stages with
  | [] => inl NoPlan
  | s :: _ =>
      match admissibleAliasStages stages with
      | [] => inl (from_option StageRejected NoPlan (r_admissionError s))
      | first :: _ =>
          match installResolvedRoute first q with
          | inl e => inl e
          | inr q =>
              inr {| installed := installed q; plan := stages; aliasReason := aliasReason q; excluded := excluded q |}
          end
      end
  end.

(** The stage at place [k] of the plan becomes the route. *)
Definition selectAliasRoute (k : nat) (reason : option string) (q : routing) : PolicyError + routing :=
  match plan q !! k with
  | None => inl OutsidePlan
  | Some r =>
      match r_admissionError r with
      | Some e => inl (StageRejected e)
      | None =>
          inr {| installed := Some r; plan := plan q; aliasReason := reason; excluded := excluded q |}
      end
  end.

Definition getAttemptTarget (a : Account) (q : routing) : PolicyError + AuthorizedTarget :=
  match installed q with
  | None => inl NoRoute
  | Some r => match target r a with Some t => inr t | None => inl OutsideRoute end
  end.

Definition excludeModelForRequest (accountId model : string) (q : routing) : routing :=
  {| installed := installed q; plan := plan q; aliasReason := aliasReason q;
     excluded := {[ (accountId, model) ]} ∪ excluded q |}.

Definition isModelExcludedForRequest (accountId model : string) (q : routing) : bool :=
  bool_decide ((accountId, model) ∈ excluded q).

(** ** At selection: [packages/proxy/src/routing-service.ts] *)

(** The ids a suppression may be recorded under *)
Definition suppressionIds (a : Account) (model : string) : list string :=
  let wire := sdkBridgeWireModel model in
  if isOfficialAnthropicProvider (acc_provider a) && negb (String.eqb wire model) then [model; wire] else [model].

(** The rows read now: the accounts, each account's permissions ([None] when its identity
    changed since) and whether a pair is suppressed *)
Record reads := {
  rd_accounts : list Account;
  rd_permissions : Account → option ModelPermissionSet;
  rd_suppressed : string → string → string → bool }.

Definition isModelSuppressedFor (w : reads) (a : Account) (scope model : string) : bool :=
  existsb (rd_suppressed w (acc_id a) scope) (suppressionIds a model).

Definition still_eligible (w : reads) (r : ResolvedRoute) (q : routing) (a : Account) : bool :=
  match target r a with
  | None => false
  | Some t =>
      bool_decide (is_Some (r_maintenance r))
      || match rd_permissions w a with
         | None => false
         | Some p =>
             permits r a (Some p) && negb (isModelExcludedForRequest (acc_id a) (t_upstreamModel t) q)
             && negb (isModelSuppressedFor w a (t_scope t) (t_upstreamModel t))
         end
  end.

Definition eligibleRouteAccounts (w : reads) (q : routing) : PolicyError + list Account :=
  match installed q with
  | None => inl NoRoute
  | Some r => inr (List.filter (still_eligible w r q) (rd_accounts w))
  end.
End scope.
