(* ===== verification/RouteSafety.v ===== *)
(** What a route guarantees ([Routing], [ResolvedRoute]): the rule that decides, the model that
    is sent, the accounts that may serve, and the answer when none may. *)

From stdpp Require Import strings gmap.
From S2P Require Import Prelude.
From S2P Require Import Models.
From S2P Require Import Accounts.
From S2P Require Import StableSort.
From S2P Require Import Rationals.
From S2P Require Import Json.
From S2P Require Import OpenAiFormats.
From S2P Require Import Routing.
From S2P Require Import ResolvedRoute.
Open Scope Z_scope.

(** * Rules *)

#[local] Instance rule_leb_order : TotalPreorder rule_leb.
Proof. split; unfold rule_leb; intros; rewrite ?Z.leb_le in *; lia. Qed.

Lemma find_sorted {A} (R : A → A → Prop) `{!Reflexive R} (p : A → bool) l x :
  StronglySorted R l → List.find p l = Some x → ∀ y, y ∈ l → p y = true → R x y.
Proof.
  induction 1 as [|z l Hs IH Hz]; cbn; [done|]. destruct (p z) eqn:Ep.
  - intros [= ->] y [->|Hy]%elem_of_cons Hp; [done|]. by eapply Forall_forall in Hz.
  - intros Hf y [->|Hy]%elem_of_cons Hp; [congruence|]. by apply IH.
Qed.

Lemma find_head_filter {A} (p : A → bool) (Q : A → Prop) `{!∀ x, Decision (Q x)} l x :
  List.find p l = Some x → Q x → head (filter (λ y, p y = true ∧ Q y) l) = Some x.
Proof.
  induction l as [|z l IH]; [done|]. cbn [List.find]. rewrite filter_cons. destruct (p z) eqn:Ep.
  - intros [= ->] HQ. by rewrite decide_True.
  - intros. rewrite decide_False by naive_solver. by apply IH.
Qed.

Lemma matchRoutingRule_find rules k m r :
  matchRoutingRule rules k m = Some r → r ∈ rules ∧ rule_matches k m r = true.
Proof.
  unfold matchRoutingRule. intros [Hr Hm]%List.find_some. split; [|done].
  apply (elem_of_stable_sort rule_leb). by apply list_elem_of_In.
Qed.

Lemma filter_position_sorted rules r (P : RoutingRule → Prop) `{!∀ x, Decision (P x)} :
  filter (λ r', P r' ∧ rule_position r' = rule_position r) (stable_sort rule_leb rules)
  = filter (λ r', P r' ∧ rule_position r' = rule_position r) rules.
Proof.
  assert (∀ l : list RoutingRule, filter (λ r', P r' ∧ rule_position r' = rule_position r) l
               = filter P (filter (λ y, tied rule_leb r y = true) l)) as Heq.
  { intros l. rewrite list_filter_filter. apply list_filter_iff. intros r'.
    unfold tied, rule_leb. rewrite andb_true_iff, !Z.leb_le. intuition lia. }
  by rewrite !Heq, (stable_sort_stable rule_leb).
Qed.

(** the rule that decides for a request is the first enabled rule that matches its key and
    model in the order of positions, and among rules of one position the one listed first;
    no rule decides exactly when none matches. *)
Theorem rule_decides rules k m :
  match matchRoutingRule rules k m with
  | Some r =>
      r ∈ rules ∧ rule_matches k m r = true
      ∧ (∀ r', r' ∈ rules → rule_matches k m r' = true → rule_position r <= rule_position r')
      ∧ head (filter (λ r', rule_matches k m r' = true ∧ rule_position r' = rule_position r) rules) = Some r
  | None => ∀ r, r ∈ rules → rule_matches k m r = false
  end.
Proof.
  destruct (matchRoutingRule rules k m) as [r|] eqn:E.
  - destruct (matchRoutingRule_find _ _ _ _ E) as [Hr Hm]. unfold matchRoutingRule in E.
    split_and!; [done..| |].
    + intros r' Hr' Hm'. apply Z.leb_le. change (rule_leb r r' = true).
      assert (Reflexive (λ x y, rule_leb x y = true)) by (intros ?; apply leb_refl, _).
      eapply (find_sorted (λ x y, rule_leb x y = true)); [apply stable_sort_sorted, _|done| |done].
      by apply (elem_of_stable_sort rule_leb).
    + rewrite <-filter_position_sorted. by apply find_head_filter.
  - intros r Hr. unfold matchRoutingRule in E. eapply List.find_none in E; [done|].
    apply list_elem_of_In. by apply (elem_of_stable_sort rule_leb).
Qed.

(** ** Stored rules *)

(** The stored form of a rule *)
Definition match_json (m : MatchModel) : string * json :=
  match m with
  | MatchAny => ("any", JNull)
  | MatchExact m => ("exact", JStr m)
  | MatchFamily f => ("family", JStr (routing_family_name f))
  end%string.
Definition pool_json (p : RulePool) : string * json * json :=
  match p with
  | PoolInherit => ("inherit", JNull, JNull)
  | PoolProvider p => ("provider", JStr p, JNull)
  | PoolAccounts l => ("accounts", JNull, JArr (map JStr l))
  end%string.
Definition target_json (t : RuleTarget) : string * json :=
  match t with
  | TargetRequested => ("requested", JNull)
  | TargetLiteral m => ("literal", JStr m)
  end%string.

Definition rule_json (r : RoutingRule) : json :=
  let model := match_json (match_model r) in
  let pool := pool_json (rule_pool r) in
  let target := target_json (rule_target r) in
  JObj [("id", JStr (rule_id r)); ("name", JStr (rule_name r)); ("enabled", JBool (rule_enabled r));
        ("position", JInt (rule_position r)); ("match_api_key_id", or_null (match_api_key_id r));
        ("match_model_kind", JStr model.1); ("match_model_value", model.2);
        ("pool_kind", JStr pool.1.1); ("pool_provider", pool.1.2); ("pool_account_ids", pool.2);
        ("target_kind", JStr target.1); ("target_model", target.2)]%string.

Lemma valid_string_again v s : valid_string v = Some s → valid_string (Some (JStr s)) = Some s.
Proof.
  unfold valid_string. destruct (as_string v) as [s'|]; cbn; [|done].
  destruct (negb _ && _ && _) eqn:E; [|done]. intros [= <-]. by rewrite E.
Qed.

Lemma valid_ids_again l ids :
  mapM (λ x, valid_string (Some x)) l = Some ids → mapM (λ x, valid_string (Some x)) (map JStr ids) = Some ids.
Proof.
  intros H%mapM_Some. induction H as [|x s l ids Hx Hl IH]; [done|].
  cbn [map mapM]. rewrite (valid_string_again _ _ Hx). cbn [mbind option_bind]. by rewrite IH.
Qed.

Lemma account_ids_again n v ids : account_ids n v = Some ids → account_ids n (Some (JArr (map JStr ids))) = Some ids.
Proof.
  unfold account_ids. destruct (as_array v) as [l|]; cbn [mbind option_bind as_array]; [|done].
  destruct (mapM _ l) as [ids'|] eqn:E; cbn [mbind option_bind]; [|done].
  destruct (negb _ && _ && _) eqn:Ec; [|done]. intros [= ->].
  rewrite (valid_ids_again _ _ E). cbn [mbind option_bind]. by rewrite Ec.
Qed.

Lemma nullable_again v k : nullable_string v = Some k → nullable_string (Some (or_null k)) = Some k.
Proof.
  unfold nullable_string. destruct v as [v|].
  - assert (v = JNull ∨ v ≠ JNull) as [->|Hne] by (destruct v; auto); [by intros [= <-]|].
    intros H. assert (Some <$> valid_string (Some v) = Some k) as H' by (by destruct v). clear H.
    destruct (valid_string (Some v)) as [s|] eqn:E; [|done]. cbn in H'. simplify_eq.
    cbn [or_null from_option]. by rewrite (valid_string_again _ _ E).
  - cbn. done.
Qed.

Lemma safe_integer_again v z : safe_integer v = Some z → safe_integer (Some (JInt z)) = Some z.
Proof.
  unfold safe_integer. destruct (as_number v) as [q|]; cbn [mbind option_bind]; [|done].
  destruct (as_integer q) as [z'|] eqn:E; cbn [mbind option_bind]; [|done].
  destruct (Z.abs z' <=? MAX_SAFE_INTEGER) eqn:Ez; [|done]. intros [= ->].
  unfold JInt. cbn [as_number mbind option_bind]. change (as_integer (Qc_of_Z z)) with (Some z).
  cbn [mbind option_bind]. by rewrite Ez.
Qed.

Lemma match_again kind v m :
  validate_match kind v = Some m → validate_match (match_json m).1 (Some (match_json m).2) = Some m.
Proof.
  unfold validate_match. destruct (String.eqb kind "any"); [by destruct (absent v); intros [= <-]|].
  destruct (String.eqb kind "exact").
  { destruct (valid_string v) as [s|] eqn:E; [|done]. intros [= <-]. cbn [match_json fst snd].
    by rewrite (valid_string_again _ _ E). }
  destruct (String.eqb kind "family"); [|done]. destruct (as_string v) as [n|]; [|done]. cbn [mbind option_bind].
  destruct (List.find _ _) as [f|]; [|done]. intros [= <-]. by destruct f.
Qed.

Lemma pool_again kind provider ids p :
  validate_pool kind provider ids = Some p →
  validate_pool (pool_json p).1.1 (Some (pool_json p).1.2) (Some (pool_json p).2) = Some p.
Proof.
  unfold validate_pool. destruct (String.eqb kind "inherit").
  { destruct (absent provider), (absent ids); try done. by intros [= <-]. }
  destruct (String.eqb kind "provider").
  { destruct (valid_string provider) as [s|] eqn:E; [|done]. destruct (absent ids); [|done].
    intros [= <-]. cbn [pool_json fst snd]. by rewrite (valid_string_again _ _ E). }
  destruct (String.eqb kind "accounts"); [|done]. destruct (absent provider); [|done]. cbn [mbind option_bind].
  destruct (account_ids 1000 ids) as [l|] eqn:E; [|done]. intros [= <-]. cbn [pool_json fst snd].
  by rewrite (account_ids_again _ _ _ E).
Qed.

Lemma target_again kind v t :
  validate_target kind v = Some t → validate_target (target_json t).1 (Some (target_json t).2) = Some t.
Proof.
  unfold validate_target. destruct (String.eqb kind "literal").
  { destruct (valid_string v) as [s|] eqn:E; [|done]. intros [= <-]. cbn [target_json fst snd].
    by rewrite (valid_string_again _ _ E). }
  destruct (_ || _); [|done]. destruct (absent v); [|done]. by intros [= <-].
Qed.

(** what the validator accepts it stores in one form: validating the stored rule again
    gives the same rule, so a rule read back is the rule that was written, and the retired
    target kind is gone after one pass. *)
Theorem stored_rule_stable v r : validateRoutingRule v = Some r → validateRoutingRule (rule_json r) = Some r.
Proof.
  unfold validateRoutingRule. intros H.
  repeat match type of H with
  | mbind _ ?o = Some _ => destruct o eqn:?; cbn [mbind option_bind] in H; [|discriminate H]
  end.
  destruct (0 <=? _) eqn:Ep; [|discriminate H]. injection H as <-.
  set (f := rule_json _).
  change (own "id" f) with (Some (JStr s)). rewrite (valid_string_again _ s) by eassumption. cbn [mbind option_bind].
  change (own "name" f) with (Some (JStr s0)). rewrite (valid_string_again _ s0) by eassumption. cbn [mbind option_bind].
  change (as_bool (own "enabled" f)) with (Some b). cbn [mbind option_bind].
  change (own "position" f) with (Some (JInt z)). rewrite (safe_integer_again _ z) by eassumption. cbn [mbind option_bind].
  change (own "match_api_key_id" f) with (Some (or_null o)). rewrite (nullable_again _ o) by eassumption. cbn [mbind option_bind].
  change (as_string (own "match_model_kind" f)) with (Some (match_json m).1). cbn [mbind option_bind].
  change (own "match_model_value" f) with (Some (match_json m).2).
  rewrite (match_again _ _ m) by eassumption. cbn [mbind option_bind].
  change (as_string (own "pool_kind" f)) with (Some (pool_json r0).1.1). cbn [mbind option_bind].
  change (own "pool_provider" f) with (Some (pool_json r0).1.2).
  change (own "pool_account_ids" f) with (Some (pool_json r0).2).
  rewrite (pool_again _ _ _ r0) by eassumption. cbn [mbind option_bind].
  change (as_string (own "target_kind" f)) with (Some (target_json r1).1). cbn [mbind option_bind].
  change (own "target_model" f) with (Some (target_json r1).2).
  rewrite (target_again _ _ r1) by eassumption. cbn [mbind option_bind]. by rewrite Ep.
Qed.

Example stored_rule_stable_witness :
  let r := {| rule_id := "r"; rule_name := "all"; rule_enabled := true; rule_position := 1; match_api_key_id := None;
              match_model := MatchFamily RFOpus; rule_pool := PoolAccounts ["a"; "b"];
              rule_target := TargetRequested |}%string in
  validateRoutingRule (rule_json r) = Some r.
Proof.
  cbv zeta. apply (stored_rule_stable (JObj
    [("id", JStr "r"); ("name", JStr "all"); ("enabled", JBool true); ("position", JInt 1);
     ("match_api_key_id", JNull); ("match_model_kind", JStr "family"); ("match_model_value", JStr "anthropic:opus");
     ("pool_kind", JStr "accounts"); ("pool_provider", JNull); ("pool_account_ids", JArr [JStr "a"; JStr "b"]);
     ("target_kind", JStr "default"); ("target_model", JNull)]%string)).
  vm_compute. reflexivity.
Defined.

(** * Routes *)

Section routes.
Implicit Types (i : BuildRouteInput) (a : Account).

(** What a destination has to satisfy, whatever the order of the checks *)
Definition pooled (rule : option RoutingRule) (a : Account) : bool :=
  match rule_pool <$> rule with
  | Some (PoolProvider p) => String.eqb p (acc_provider a)
  | Some (PoolAccounts ids) => listed ids (acc_id a)
  | _ => true
  end.

Definition chat_served (i : BuildRouteInput) (a : Account) : bool :=
  match chatRequirements i with
  | None => true
  | Some fields =>
      match chatFieldCapability (acc_provider a) (bridged i a) with
      | None => false
      | Some c => forallb (λ f, negb (bool_decide (c f = refused))) fields
      end
  end.

(** An official Anthropic account behind the bridge takes what the bridge takes; one that is
    sent to directly takes no id that only the bridge serves. *)
Definition bridge_serves (i : BuildRouteInput) (a : Account) (model : string) : bool :=
  if isOfficialAnthropicProvider (acc_provider a) then
    if bridgesOfficialAnthropic i then
      bool_decide (sdkBridgeRefusal i = None) && bool_decide (sdkBridgeVersionFloor i model = None)
    else String.eqb (sdkBridgeWireModel model) model
  else true.

Record admitted (i : BuildRouteInput) (a : Account) : Prop := {
  am_enabled : acc_disabled a = false;
  am_pin : isAccountAllowedByPin (in_pin i) (acc_id a) (acc_provider a) = true;
  am_anthropic : is_Some (truthy_string (officialAnthropicExclusion i)) →
    isOfficialAnthropicProvider (acc_provider a) = false;
  am_header : ∀ h, truthy_string (headerAccountId i) = Some h → h = acc_id a;
  am_maintenance : ∀ m, maintenance i = Some m → m.1 = acc_id a;
  am_pool : pooled (winning_rule i) a = true;
  am_permitted : maintenance i = None →
    isModelPermitted (permissions i !! acc_id a) (acc_id a) (acc_provider a)
      (upstreamModel (resolved_target i)) (winning_rule i) = true;
  am_suppressed : (acc_id a, upstreamModel (resolved_target i)) ∉ suppressedPairs i;
  am_chat : chat_served i a = true;
  am_tools : is_Some (serverToolType i) → refusesMessagesServerTools (acc_provider a) = false;
  am_bridge : bridge_serves i a (upstreamModel (resolved_target i)) = true }.

Lemma union_None_iff {A} (x y : option A) : x ∪ y = None ↔ x = None ∧ y = None.
Proof. destruct x, y; naive_solver. Qed.

Lemma if_some_None {A} (b : bool) (x : A) (y : option A) :
  (if b then Some x else y) = None ↔ b = false ∧ y = None.
Proof. destruct b; naive_solver. Qed.

Lemma refusedChatField_None c fields :
  refusedChatField c fields = None ↔ forallb (λ f, negb (bool_decide (c f = refused))) fields = true.
Proof.
  unfold refusedChatField. induction fields as [|f l IH]; cbn; [done|].
  destruct (bool_decide (c f = refused)); cbn; [naive_solver|exact IH].
Qed.

Lemma destination_iff i a rule :
  destinationExclusionReason a i rule = None ↔
  acc_disabled a = false ∧ isAccountAllowedByPin (in_pin i) (acc_id a) (acc_provider a) = true
  ∧ (is_Some (truthy_string (officialAnthropicExclusion i)) → isOfficialAnthropicProvider (acc_provider a) = false)
  ∧ (∀ h, truthy_string (headerAccountId i) = Some h → h = acc_id a)
  ∧ (∀ m, maintenance i = Some m → m.1 = acc_id a) ∧ pooled rule a = true.
Proof.
  unfold destinationExclusionReason. rewrite if_some_None, if_some_None, union_None_iff, if_some_None, if_some_None.
  rewrite negb_false_iff.
  assert (match rule_pool <$> rule with
          | Some (PoolProvider p) => if String.eqb p (acc_provider a) then None else Some ByRuleProvider
          | Some (PoolAccounts ids) => if listed ids (acc_id a) then None else Some ByRuleAccounts
          | _ => None
          end = None ↔ pooled rule a = true) as ->.
  { unfold pooled. destruct (rule_pool <$> rule) as [[]|]; try done; [by destruct (String.eqb _ _)|by destruct (listed _ _)]. }
  assert (from_option (λ h, negb (String.eqb h (acc_id a))) false (truthy_string (headerAccountId i)) = false
          ↔ ∀ h, truthy_string (headerAccountId i) = Some h → h = acc_id a) as ->.
  { destruct (truthy_string (headerAccountId i)) as [h|]; cbn; [|naive_solver].
    rewrite negb_false_iff, String.eqb_eq. naive_solver. }
  assert (from_option (λ m, negb (String.eqb m.1 (acc_id a))) false (maintenance i) = false
          ↔ ∀ m, maintenance i = Some m → m.1 = acc_id a) as ->.
  { destruct (maintenance i) as [m|]; cbn; [|naive_solver].
    rewrite negb_false_iff, String.eqb_eq. naive_solver. }
  destruct (truthy_string (officialAnthropicExclusion i)) as [r|].
  - destruct (isOfficialAnthropicProvider (acc_provider a)); naive_solver.
  - assert (¬ is_Some (@None string)) by (intros []; done). naive_solver.
Qed.

Lemma chat_iff i a : chat_exclusion i a = None ↔ chat_served i a = true.
Proof.
  unfold chat_exclusion, chat_served. destruct (chatRequirements i) as [fields|]; [|done]. cbn [mbind option_bind].
  destruct (chatFieldCapability _ _) as [c|]; [|done]. rewrite <-refusedChatField_None, fmap_None. done.
Qed.

Lemma bridge_iff i a m :
  (if bridged i a && bool_decide (is_Some (sdkBridgeRefusal i)) then BridgeRefuses <$> sdkBridgeRefusal i
   else (if bridged i a then BridgeTooOld <$> sdkBridgeVersionFloor i m else None) ∪
     (if negb (bridgesOfficialAnthropic i) && isOfficialAnthropicProvider (acc_provider a)
         && negb (String.eqb (sdkBridgeWireModel m) m)
      then Some (NeedsBridge m) else None)) = None ↔ bridge_serves i a m = true.
Proof.
  unfold bridge_serves, bridged.
  destruct (isOfficialAnthropicProvider (acc_provider a)), (bridgesOfficialAnthropic i); cbn; try done.
  - destruct (sdkBridgeRefusal i); cbn; [done|]. by destruct (sdkBridgeVersionFloor i m).
  - by destruct (String.eqb _ m).
Qed.

Lemma exclusion_iff i a : exclusion i a = None ↔ admitted i a.
Proof.
  unfold exclusion. rewrite union_None_iff, destination_iff, if_some_None.
  assert (∀ (b c : bool) (x y : option Exclusion),
    (if b then Some (if c then Substituted (upstreamModel (resolved_target i))
                     else Suppressed (upstreamModel (resolved_target i))) else y) = None
    ↔ b = false ∧ y = None) as Hif by (intros []; naive_solver).
  rewrite Hif, union_None_iff, chat_iff by exact None.
  assert (∀ b : bool, ∀ x y : option Exclusion, (b = true → x ≠ None) →
    (if b then x else y) = None ↔ b = false ∧ y = None) as Hif' by (intros []; naive_solver).
  rewrite (Hif' (bool_decide (is_Some (serverToolType i)) && _)), bridge_iff.
  2: { intros [Ht _]%andb_true_iff. apply bool_decide_eq_true in Ht as [t ->]. done. }
  rewrite bool_decide_eq_false, !andb_false_iff, !negb_false_iff, bool_decide_eq_true, bool_decide_eq_false.
  split.
  - intros ((? & ? & ? & ? & ? & ?) & Hp & ? & ? & Ht & ?). split; try done.
    + intros Hm. destruct Hp as [[? Hp]|Hp]; [congruence|done].
    + intros ?. destruct Ht; tauto.
  - intros [? ? ? ? ? ? Hp ? ? Ht ?]. split_and!; try done.
    + destruct (maintenance i) as [x|]; [left; eauto|]. right. by apply Hp.
    + destruct (serverToolType i) as [t|]; [right; apply Ht; eauto|left]. by intros [].
Qed.

Context (sha256 : string → string).

(** The targets and the exclusions of the pool, in its order *)
Definition admitted_targets (i : BuildRouteInput) (l : list Account) : list (string * AuthorizedTarget) :=
  omap (λ a, match exclusion i a with Some _ => None | None => Some (acc_id a, authorized sha256 i a) end) l.
Definition pool_exclusions (i : BuildRouteInput) (l : list Account) : list (string * Exclusion) :=
  omap (λ a, pair (acc_id a) <$> exclusion i a) l.

Lemma set_entries {V} (k : string) (v : V) (m : jmap string V) : entries (<[k := v]> m) = alist_set k v (entries m).
Proof. done. Qed.

Lemma admissions_from i l acc :
  NoDup ((entries (ad_targets acc)).*1 ++ (acc_id <$> l)) →
  foldl (admit_account sha256 i) acc l
  = {| ad_targets := JMap (entries (ad_targets acc) ++ admitted_targets i l);
       ad_exclusions := ad_exclusions acc ++ pool_exclusions i l |}.
Proof.
  revert acc. induction l as [|a l IH]; intros acc Hnd; cbn [foldl].
  { unfold admitted_targets, pool_exclusions. cbn. rewrite !app_nil_r. by destruct acc as [[]]. }
  cbn [fmap list_fmap] in Hnd. unfold admitted_targets, pool_exclusions, admit_account at 2. cbn [omap list_omap].
  destruct (exclusion i a) as [e|] eqn:E; cbn [fmap option_fmap option_map]; rewrite IH; cbn [ad_targets ad_exclusions]; rewrite ?set_entries.
  - by rewrite <-app_assoc.
  - apply NoDup_app in Hnd as (H1 & H2 & H3). apply NoDup_app. split; [done|]. split.
    + intros x Hx Hl. apply (H2 x Hx). by right.
    + by apply NoDup_cons in H3 as [_ H3].
  - rewrite alist_set_fresh, <-app_assoc; [done|]. apply NoDup_app in Hnd as (_ & H2 & _).
    intros Hin. apply (H2 _ Hin). by left.
  - rewrite alist_set_fresh by (apply NoDup_app in Hnd as (_ & H2 & _); intros Hin; apply (H2 _ Hin); by left).
    rewrite fmap_app. cbn. by rewrite <-app_assoc.
Qed.

Lemma admissions_eq i :
  NoDup (acc_id <$> in_accounts i) →
  admissions sha256 i
  = {| ad_targets := JMap (admitted_targets i (in_accounts i)); ad_exclusions := pool_exclusions i (in_accounts i) |}.
Proof. intros Hnd. unfold admissions. by rewrite admissions_from. Qed.

Lemma elem_of_admitted i l id t :
  (id, t) ∈ admitted_targets i l ↔ ∃ a, a ∈ l ∧ acc_id a = id ∧ admitted i a ∧ t = authorized sha256 i a.
Proof.
  unfold admitted_targets. rewrite list_elem_of_omap. split.
  - intros (a & Ha & He). destruct (exclusion i a) eqn:E; [done|]. simplify_eq.
    exists a. split_and!; [done..| |done]. by apply exclusion_iff.
  - intros (a & Ha & <- & Had & ->). exists a. split; [done|]. apply exclusion_iff in Had. by rewrite Had.
Qed.

Lemma admitted_keys i l : (admitted_targets i l).*1 = acc_id <$> filter (λ a, exclusion i a = None) l.
Proof.
  unfold admitted_targets. induction l as [|a l IH]; [done|]. rewrite filter_cons. cbn [omap list_omap].
  destruct (exclusion i a) eqn:E; [by rewrite decide_False|]. rewrite decide_True by done. cbn. by rewrite <-IH.
Qed.

Lemma build_targets i r :
  NoDup (acc_id <$> in_accounts i) → buildResolvedRoute sha256 i = inr r →
  entries (r_targets r) = admitted_targets i (in_accounts i).
Proof.
  intros Hnd. unfold buildResolvedRoute. destruct (String.eqb _ _); [done|].
  destruct (from_option _ false (in_pin i)); [done|]. rewrite (admissions_eq i Hnd).
  case_bool_decide as Hnil; [|by intros [= <-]]. case_bool_decide; [|done]. by intros [= <-].
Qed.
End routes.

(** C28: a route authorises exactly the accounts of the pool that every restriction admits: the
    account is enabled, within the key's destinations, the header's account and the rule's
    pool, permits the model, is not suppressed for it, and can carry the request's chat fields,
    tools and model id; what is recorded for it is the model of the route and the account's
    own provider and scope. *)
Theorem route_authorises sha256 i r :
  NoDup (acc_id <$> in_accounts i) → buildResolvedRoute sha256 i = inr r →
  ∀ id t, r_targets r !! id = Some t ↔
    ∃ a, a ∈ in_accounts i ∧ acc_id a = id ∧ admitted i a
      ∧ t = {| t_upstreamModel := upstreamModel (resolved_target i); t_source := targetSource (resolved_target i);
               t_provider := acc_provider a; t_scope := modelPermissionScope sha256 a |}.
Proof.
  intros Hnd Hb id t. pose proof (build_targets sha256 i r Hnd Hb) as He.
  rewrite <-(elem_of_admitted sha256 i). rewrite <-He. split; [apply alist_get_In|].
  apply alist_In_get. rewrite He, admitted_keys. eapply sublist_NoDup; [exact Hnd|].
  apply fmap_sublist, sublist_filter.
Qed.

(** ** One model *)

Lemma targets_model sha256 i l t : t ∈ (admitted_targets sha256 i l).*2 → t_upstreamModel t = upstreamModel (resolved_target i).
Proof.
  intros ([id t'] & -> & Ht)%list_elem_of_fmap. by apply elem_of_admitted in Ht as (a & _ & _ & _ & ->).
Qed.

Lemma remove_dups_const {A} `{EqDecision A} (x : A) l :
  l ≠ [] → (∀ y, y ∈ l → y = x) → remove_dups l = [x].
Proof.
  induction l as [|y l IH]; [done|]. intros _ Hall. assert (y = x) as -> by (apply Hall; by left). cbn.
  destruct l as [|z l]; [done|].
  assert (z = x) as -> by (apply Hall; right; by left).
  destruct (decide_rel _ x (x :: l)) as [_|Hx]; [|by destruct Hx; left].
  apply IH; [done|]. intros y Hy. apply Hall. by right.
Qed.

(** a route sends one model: every target names it, the route reports it whenever it has a
    target, and it is the model the request routes as unless the deciding rule, or a stage's
    own rule, literally names another. *)
Theorem route_one_model sha256 i r :
  NoDup (acc_id <$> in_accounts i) → buildResolvedRoute sha256 i = inr r →
  let model := upstreamModel (resolved_target i) in
  (∀ id t, r_targets r !! id = Some t → t_upstreamModel t = model)
  ∧ (entries (r_targets r) ≠ [] → route_upstreamModel r = Some model)
  ∧ (model = default (requestedModel i) (routingModel i) ∨ model = requestedModel i
     ∨ ∃ rule, maintenance i = None ∧ rule ∈ in_rules i ∧ rule_target rule = TargetLiteral model
         ∧ rule_matches (in_apiKeyId i) (default (requestedModel i) (routingModel i)) rule = true).
Proof.
  intros Hnd Hb. cbv zeta. pose proof (build_targets sha256 i r Hnd Hb) as He. split_and!.
  - intros id t Ht. apply alist_get_In in Ht. rewrite He in Ht.
    apply (targets_model sha256 i (in_accounts i)). apply list_elem_of_fmap. by exists (id, t).
  - intros Hne. unfold route_upstreamModel. rewrite He in *.
    rewrite (remove_dups_const (upstreamModel (resolved_target i))); [done| |].
    + destruct (admitted_targets _ _ _); [done|]. discriminate.
    + intros m (t & -> & Ht)%list_elem_of_fmap. by eapply targets_model.
  - unfold resolved_target, winning_rule. destruct (maintenance i) as [[id []]|]; cbn; [by left|by right; left|].
    destruct (matchRoutingRule _ _ _) as [rule|] eqn:E; cbn; [|by left].
    unfold resolveRoutingTarget. cbn. destruct (rule_target rule) as [|m] eqn:Et; cbn; [by left|].
    right. right. exists rule. destruct (matchRoutingRule_find _ _ _ _ E) as [? ?]. done.
Qed.

(** ** No destination *)

Lemma last_of_None {A} (f : Exclusion → option A) l : last_of f l = None ↔ ∀ e, e ∈ l → f e.2 = None.
Proof.
  unfold last_of. rewrite last_None. split.
  - intros Hn e He. destruct (f e.2) as [x|] eqn:E; [|done].
    assert (x ∈ omap (λ e, f e.2) l) as Hx by (apply list_elem_of_omap; eauto).
    rewrite Hn in Hx. by apply not_elem_of_nil in Hx.
  - intros Hl. destruct (omap _ l) as [|x l'] eqn:E; [done|].
    assert (x ∈ omap (λ e, f e.2) l) as Hx by (rewrite E; by left).
    apply list_elem_of_omap in Hx as (e & He & Hf). by rewrite Hl in Hf.
Qed.

Lemma all_substituted l :
  (length (List.filter (λ e : string * Exclusion, is_substituted e.2) l) = length l)%nat ↔
  ∀ e, e ∈ l → is_substituted e.2 = true.
Proof.
  induction l as [|e l IH]; cbn; [split; [intros _ e He; by apply not_elem_of_nil in He|done]|].
  pose proof (List.filter_length_le (λ e : string * Exclusion, is_substituted e.2) l) as Hle.
  destruct (is_substituted e.2) eqn:Ee; cbn.
  - split.
    + intros [= H] e' [->|He']%elem_of_cons; [done|]. by apply IH.
    + intros H. f_equal. apply IH. intros e' He'. apply H. by right.
  - split; [lia|]. intros H. rewrite H in Ee by (by left). done.
Qed.

Lemma empty_error_503 i l :
  statusCode (empty_error i l) = 503 ↔
  l ≠ [] ∧ priorExclusions i = 0%nat ∧ ∀ e, e ∈ l → is_substituted e.2 = true.
Proof.
  unfold empty_error. split.
  - repeat case_match; try done. intros _. prop_bools. rewrite ?Nat.ltb_lt, ?Nat.eqb_eq in *.
    pose proof (List.filter_length_le (λ e : string * Exclusion, is_substituted e.2) l) as Hle.
    split; [destruct l; cbn in *; [lia|done]|]. split; [lia|]. apply all_substituted. lia.
  - intros (Hne & Hp & Hall).
    assert (∀ A (f : Exclusion → option A), (∀ m, f (Substituted m) = None) → last_of f l = None) as Hlast.
    { intros A f Hf. apply last_of_None. intros e He. specialize (Hall e He). by destruct (e.2). }
    rewrite !Hlast by done. unfold first_of.
    assert (∀ A (f : Exclusion → option A), (∀ m, f (Substituted m) = None) → omap (λ e, f e.2) l = []) as Hfirst.
    { intros A f Hf. specialize (Hlast A f Hf). unfold last_of in Hlast. by apply last_None in Hlast. }
    rewrite (Hfirst _ (λ e, match e with RefusesChatField f => Some f | _ => None end)) by done.
    cbn [head]. apply all_substituted in Hall. rewrite Hall, Hp, Nat.add_0_r, Nat.eqb_refl.
    destruct l; [done|]. done.
Qed.

(** a request that no account may serve is told to retry (503) exactly when the provider's
    substituting the model is what left out every account of the pool, and no account was
    dropped before; any other way of ending up with no destination is a final answer. *)
Theorem retry_only_for_substitution sha256 i e :
  NoDup (acc_id <$> in_accounts i) → buildResolvedRoute sha256 i = inl e →
  statusCode e = 503 ↔
  trim (requestedModel i) ≠ ""%string ∧ from_option isRoutingPinValid true (in_pin i) = true
  ∧ in_accounts i ≠ [] ∧ priorExclusions i = 0%nat
  ∧ ∀ a, a ∈ in_accounts i → ∃ m, exclusion i a = Some (Substituted m).
Proof.
  intros Hnd. unfold buildResolvedRoute.
  destruct (String.eqb_spec (trim (requestedModel i)) "") as [Hm|Hm].
  { intros [= <-]. cbn. split; [done|tauto]. }
  destruct (from_option _ false (in_pin i)) eqn:Ep.
  { intros [= <-]. cbn. split; [done|]. destruct (in_pin i); [|done]. cbn in *. prop_bools.
    intros (_ & Hp & _). congruence. }
  rewrite (admissions_eq _ i Hnd). case_bool_decide as Hnil; [|done]. case_bool_decide; [done|].
  intros [= <-]. rewrite empty_error_503. cbn in Hnil.
  assert (from_option isRoutingPinValid true (in_pin i) = true) as Hp.
  { destruct (in_pin i); [|done]. cbn in *. by prop_bools. }
  assert (∀ a, a ∈ in_accounts i → is_Some (exclusion i a)) as Hex.
  { intros a Ha. destruct (exclusion i a) eqn:E; [by eexists|]. apply exclusion_iff in E.
    assert ((acc_id a, authorized sha256 i a) ∈ admitted_targets sha256 i (in_accounts i)) as Hin
      by (apply elem_of_admitted; eauto). rewrite Hnil in Hin. by apply not_elem_of_nil in Hin. }
  unfold pool_exclusions. split.
  - intros (Hne & Hprior & Hall). split_and!; try done.
    + intros Heq. by rewrite Heq in Hne.
    + intros a Ha. destruct (Hex a Ha) as [x Hx]. specialize (Hall (acc_id a, x)).
      rewrite list_elem_of_omap in Hall. destruct x; try (exfalso; apply diff_false_true, Hall; exists a; by rewrite Hx).
      by eexists.
  - intros (_ & _ & Hne & Hprior & Hall). split_and!; [|done|].
    + destruct (in_accounts i) as [|a l]; [done|]. destruct (Hall a) as [m Hm']; [by left|]. cbn. by rewrite Hm'.
    + intros e (a & Ha & He)%list_elem_of_omap. destruct (Hall a Ha) as [m Hm']. rewrite Hm' in He.
      cbn in He. by simplify_eq.
Qed.

(** * During the request *)

Inductive routing_op :=
  | OpInstall (r : ResolvedRoute)
  | OpInstallAlias (stages : list ResolvedRoute)
  | OpSelectStage (k : nat) (reason : option string)
  | OpExclude (accountId model : string).

Definition routing_step (q : routing) (o : routing_op) : PolicyError + routing :=
  match o with
  | OpInstall r => installResolvedRoute r q
  | OpInstallAlias l => installAliasRoutes l q
  | OpSelectStage k reason => selectAliasRoute k reason q
  | OpExclude a m => inr (excludeModelForRequest a m q)
  end.

(** A rejected operation throws and changes nothing. *)
Definition routing_run : routing → list routing_op → routing :=
  foldl (λ q o, match routing_step q o with inl _ => q | inr q' => q' end).

Lemma routing_step_frozen q o q' r :
  installed q = Some r → routing_step q o = inr q' →
  plan q' = plan q ∧ excluded q ⊆ excluded q'
  ∧ ∃ r', installed q' = Some r' ∧ (r' = r ∨ r' ∈ plan q ∧ r_admissionError r' = None).
Proof.
  intros Hr. destruct o as [r0|[|s l]|k reason|a m]; cbn [routing_step];
    unfold installResolvedRoute, selectAliasRoute.
  - by rewrite Hr.
  - done.
  - unfold installAliasRoutes. destruct (admissibleAliasStages _); [done|].
    unfold installResolvedRoute. by rewrite Hr.
  - destruct (plan q !! k) as [s|] eqn:E; [|done]. destruct (r_admissionError s) eqn:Es; [done|].
    intros [= <-]. split; [done|]. split; [done|]. exists s. split; [done|].
    right. split; [by eapply list_elem_of_lookup_2|done].
  - intros [= <-]. split; [done|]. split; [cbn; set_solver|]. exists r. auto.
Qed.

(** once a request has a route, nothing it does widens it: the route stays what it was or
    becomes a stage of the frozen plan that admission accepted, the plan never changes, and
    an exclusion lasts for the rest of the request. *)
Theorem route_frozen q r ops :
  installed q = Some r →
  let q' := routing_run q ops in
  plan q' = plan q ∧ excluded q ⊆ excluded q'
  ∧ ∃ r', installed q' = Some r' ∧ (r' = r ∨ r' ∈ plan q ∧ r_admissionError r' = None).
Proof.
  cbv zeta. revert q r. induction ops as [|o ops IH]; intros q r Hr; cbn.
  { split; [done|]. split; [done|]. eauto. }
  destruct (routing_step q o) as [e|q1] eqn:E; [by apply IH|].
  destruct (routing_step_frozen q o q1 r Hr E) as (Hp & He & r1 & Hr1 & Hin).
  destruct (IH q1 r1 Hr1) as (Hp' & He' & r2 & Hr2 & Hin2). rewrite Hp in Hp', Hin2.
  split; [done|]. split; [by etrans|]. exists r2. split; [done|]. naive_solver.
Qed.

Definition demo_route (m : string) (e : option RouteError) : ResolvedRoute :=
  {| r_requestedModel := m; r_admissionError := e; r_rule := None; r_alias := None; r_maintenance := None;
     r_targets := ∅ |}.

Example route_frozen_witness :
  let q := routing_run routing_init [OpInstallAlias [demo_route "a" None; demo_route "b" None]] in
  let q' := routing_run q [OpInstall (demo_route "c" None); OpExclude "x" "a"; OpSelectStage 1 None] in
  plan q' = plan q ∧ excluded q ⊆ excluded q'
  ∧ ∃ r', installed q' = Some r' ∧ (r' = demo_route "a" None ∨ r' ∈ plan q ∧ r_admissionError r' = None).
Proof. cbv zeta. apply route_frozen. reflexivity. Defined.

Lemma sublist_filter_bool {A} (f : A → bool) (l : list A) : List.filter f l `sublist_of` l.
Proof. induction l as [|x l IH]; cbn; [done|]. destruct (f x); by constructor. Qed.

Lemma not_suppressed w a scope model :
  isModelSuppressedFor w a scope model = false ↔
  ∀ id, id ∈ suppressionIds a model → rd_suppressed w (acc_id a) scope id = false.
Proof.
  unfold isModelSuppressedFor. rewrite <-not_true_iff_false, existsb_exists. setoid_rewrite <-not_true_iff_false.
  setoid_rewrite <-list_elem_of_In. naive_solver.
Qed.

(** C29: selection returns, in their order, exactly the accounts of the pool that are still the
    destination that was authorised (same provider, endpoint, credential and identity) and, on
    a route that is not one of maintenance, whose permissions could be read and still permit
    the model under the rule that was frozen, and whose pair with the model is neither excluded
    in this request nor suppressed under any id it goes out as. A maintenance route, which is
    for one account's upkeep, checks the destination alone. The attempt then finds the target
    that was authorised. *)
Theorem selection_narrows sha256 w q l :
  eligibleRouteAccounts sha256 w q = inr l →
  ∃ r, installed q = Some r ∧ l `sublist_of` rd_accounts w
    ∧ (∀ a, a ∈ l → ∃ t, getAttemptTarget sha256 a q = inr t ∧ r_targets r !! acc_id a = Some t)
    ∧ ∀ a, a ∈ l ↔ a ∈ rd_accounts w ∧ ∃ t,
        r_targets r !! acc_id a = Some t ∧ t_provider t = acc_provider a ∧ t_scope t = modelPermissionScope sha256 a
        ∧ (r_maintenance r = None →
             (∃ p, rd_permissions w a = Some p ∧
                isModelPermitted (Some p) (acc_id a) (acc_provider a) (t_upstreamModel t) (r_rule r) = true)
             ∧ ((acc_id a, t_upstreamModel t) ∉ excluded q)
             ∧ ∀ id, id ∈ suppressionIds a (t_upstreamModel t) → rd_suppressed w (acc_id a) (t_scope t) id = false).
Proof.
  unfold eligibleRouteAccounts, getAttemptTarget. destruct (installed q) as [r|]; [|done]. intros [= <-].
  assert (∀ a t, target sha256 r a = Some t ↔
    r_targets r !! acc_id a = Some t ∧ t_provider t = acc_provider a ∧ t_scope t = modelPermissionScope sha256 a) as Htarget.
  { intros a t. unfold target. destruct (r_targets r !! acc_id a) as [t'|]; cbn; [|naive_solver].
    destruct (String.eqb_spec (t_provider t') (acc_provider a)), (String.eqb_spec (t_scope t') (modelPermissionScope sha256 a));
      cbn; naive_solver. }
  exists r. split; [done|]. split; [apply sublist_filter_bool|]. split.
  - intros a. rewrite list_elem_of_In, List.filter_In. intros [_ He]. unfold still_eligible in He.
    destruct (target sha256 r a) as [t|] eqn:Et; [|done]. exists t. split; [done|]. by apply Htarget in Et as [? _].
  - intros a. rewrite list_elem_of_In, List.filter_In, <-list_elem_of_In. apply and_iff_compat_l.
    assert (still_eligible sha256 w r q a = true ↔ ∃ t, target sha256 r a = Some t ∧ (r_maintenance r = None →
        (∃ p, rd_permissions w a = Some p ∧
           isModelPermitted (Some p) (acc_id a) (acc_provider a) (t_upstreamModel t) (r_rule r) = true)
        ∧ ((acc_id a, t_upstreamModel t) ∉ excluded q)
        ∧ ∀ id, id ∈ suppressionIds a (t_upstreamModel t) → rd_suppressed w (acc_id a) (t_scope t) id = false)) as ->;
      [|setoid_rewrite Htarget; naive_solver].
    unfold still_eligible. destruct (target sha256 r a) as [t|] eqn:Et; [|naive_solver].
    destruct (r_maintenance r) as [m|] eqn:Em; cbn; [naive_solver|].
    transitivity ((∃ p, rd_permissions w a = Some p ∧
        isModelPermitted (Some p) (acc_id a) (acc_provider a) (t_upstreamModel t) (r_rule r) = true)
        ∧ ((acc_id a, t_upstreamModel t) ∉ excluded q)
        ∧ ∀ id, id ∈ suppressionIds a (t_upstreamModel t) → rd_suppressed w (acc_id a) (t_scope t) id = false); [|naive_solver].
    rewrite <-not_suppressed. destruct (rd_permissions w a) as [p|] eqn:Ep; [|naive_solver].
    unfold permits. rewrite Et, Em. cbn. unfold isModelExcludedForRequest.
    rewrite !andb_true_iff, !negb_true_iff, bool_decide_eq_false. naive_solver.
Qed.

(** ** A pool *)

Definition with_id (id provider : string) (a : Account) : Account :=
  {| acc_id := id; acc_name := acc_name a; acc_provider := provider;
     acc_refresh_token := acc_refresh_token a; acc_access_token := acc_access_token a;
     acc_expires_at := acc_expires_at a; acc_session_start := acc_session_start a;
     acc_session_request_count := acc_session_request_count a; acc_paused := acc_paused a;
     acc_disabled := acc_disabled a; acc_pause_reason := acc_pause_reason a; acc_priority := acc_priority a;
     acc_auto_fallback_enabled := acc_auto_fallback_enabled a;
     acc_auto_pause_on_overage_enabled := acc_auto_pause_on_overage_enabled a;
     acc_custom_endpoint := acc_custom_endpoint a; acc_rate_limited_until := acc_rate_limited_until a;
     acc_rate_limited_reason := acc_rate_limited_reason a; acc_rate_limited_at := acc_rate_limited_at a;
     acc_consecutive_rate_limits := acc_consecutive_rate_limits a;
     acc_rate_limit_status := acc_rate_limit_status a; acc_rate_limit_reset := acc_rate_limit_reset a;
     acc_rate_limit_remaining := acc_rate_limit_remaining a; acc_profile := acc_profile a |}.

Definition demo_pool : list Account :=
  [with_id "a1" "anthropic" demo_account; with_id "c1" "codex" demo_account].

Definition demo_permission : ModelPermissionSet :=
  {| completeness := KnownComplete; discovered_ids := ["claude-opus-5-5"]; manual_ids := [] |}%string.

Definition demo_input (suppressed : gset (string * string)) : BuildRouteInput :=
  {| in_alias := None; in_accounts := demo_pool; in_rules := []; requestedModel := "claude-opus-5-5";
     routingModel := None; in_apiKeyId := None; in_pin := None;
     permissions := {[ "a1" := demo_permission; "c1" := demo_permission ]}; priorExclusions := 0;
     suppressedPairs := suppressed; substitutedPairs := suppressed; headerAccountId := None;
     officialAnthropicExclusion := None; bridgesOfficialAnthropic := false; sdkBridgeRefusal := None;
     sdkBridgeVersionFloor := λ _, None; chatRequirements := None; serverToolType := None; maintenance := None |}%string.

Definition demo_resolved : ResolvedRoute :=
  match buildResolvedRoute id (demo_input {[ ("c1", "claude-opus-5-5") ]}%string) with
  | inr r => r
  | inl _ => demo_route "" None
  end.

Lemma route_pool_ids : NoDup (acc_id <$> demo_pool).
Proof. apply (bool_decide_unpack _). vm_compute. done. Qed.

Example route_authorises_witness :
  r_targets demo_resolved !! "a1"%string ≠ None ∧
  ∃ a, a ∈ demo_pool ∧ acc_id a = "a1"%string ∧ admitted (demo_input {[ ("c1", "claude-opus-5-5") ]}%string) a.
Proof.
  split; [vm_compute; discriminate|].
  destruct (r_targets demo_resolved !! "a1"%string) as [t|] eqn:E; [|vm_compute in E; discriminate].
  apply (route_authorises id (demo_input {[ ("c1", "claude-opus-5-5") ]}%string)) in E as (a & Ha & Hid & Had & _).
  - by exists a.
  - exact route_pool_ids.
  - vm_compute. reflexivity.
Defined.

Example route_one_model_witness :
  route_upstreamModel demo_resolved = Some "claude-opus-5-5"%string.
Proof.
  apply (route_one_model id (demo_input {[ ("c1", "claude-opus-5-5") ]}%string) demo_resolved).
  - exact route_pool_ids.
  - vm_compute. reflexivity.
  - vm_compute. discriminate.
Defined.

Definition demo_suppressed : gset (string * string) :=
  {[ ("a1", "claude-opus-5-5"); ("c1", "claude-opus-5-5") ]}%string.

Example retry_only_for_substitution_witness :
  statusCode ModelSubstitutionRouteError = 503 ∧ ∀ a, a ∈ demo_pool →
    ∃ m, exclusion (demo_input demo_suppressed) a = Some (Substituted m).
Proof.
  split; [done|].
  apply (retry_only_for_substitution id (demo_input demo_suppressed) ModelSubstitutionRouteError); [..|reflexivity].
  - exact route_pool_ids.
  - vm_compute. reflexivity.
Defined.

Definition demo_reads : reads :=
  {| rd_accounts := demo_pool; rd_permissions := λ _, Some demo_permission; rd_suppressed := λ _ _ _, false |}.

Example selection_narrows_witness :
  let q := routing_run routing_init [OpInstall demo_resolved] in
  let a := with_id "a1" "anthropic" demo_account in
  a ∈ demo_pool ∧ ∃ t, r_targets demo_resolved !! "a1"%string = Some t ∧ t_provider t = "anthropic"%string.
Proof.
  cbv zeta. set (q := routing_run routing_init [OpInstall demo_resolved]).
  destruct (selection_narrows id demo_reads q [with_id "a1" "anthropic" demo_account]) as (r & Hr & _ & _ & Hl).
  - vm_compute. reflexivity.
  - destruct (proj1 (Hl (with_id "a1" "anthropic" demo_account))) as (Ha & t & Ht & Hp & _); [left|].
    split; [exact Ha|]. assert (r = demo_resolved) as -> by (injection Hr; done). by exists t.
Defined.
