(* ===== verification/AliasRouting.v ===== *)
(** Model aliases: [packages/proxy/src/model-alias-routing.ts].

    An alias is a plan of stages, each a frozen route; the request is tried stage by stage, and
    a conversation stays with the stage that served it. [remember] is the affinity of the
    module; [handleAliasProxy] the loop. What other requests, upstreams and the clock do
    between two steps is the argument [env]: the accounts a selection returns, the state that
    the admission gates read, and the answer of every attempt, a refusal of the SDK bridge
    ([packages/proxy/src/sdk-bridge-refusal.ts]) included. The admission of a stage is
    [Admission]'s. The loop leaves the trail of what it did. The callbacks that tell an attempt
    whether it is the last, the recording of the answer and the staged request body are left
    out. *)

From stdpp Require Import strings gmap.
From S2P Require Import Prelude.
From S2P Require Import Models.
From S2P Require Import Rationals.
From S2P Require Import Accounts.
From S2P Require Import Affinity.
From S2P Require Import Strategy.
From S2P Require Import Gates.
From S2P Require Import Admission.
From S2P Require Import Routing.
From S2P Require Import ResolvedRoute.
Open Scope Z_scope.

(** * Which stage a conversation stays with *)

Definition AFFINITY_TTL_MS : Z := 60 * 60 * 1000.
Definition MAX_AFFINITIES : nat := 5000.

Record alias_pin := { ap_target : nat; ap_expires : Z }.

(** The key is the JSON of the partition, the scope, the conversation, the alias and its
    revision: here the tuple. *)
Definition alias_key : Type := option string * string * string * string * Z.

Definition affinityKey (partition key scope : option string) (alias : AliasRouteEvidence) : option alias_key :=
  match truthy_string key, truthy_string scope with
  | Some k, Some s =>
      if String.eqb s "project" then None else Some (partition, s, k, ev_id alias, ev_revision alias)
  | _, _ => None
  end.

Abbreviation pins := (jmap alias_key alias_pin).

Definition drop_expired (now : Z) (m : pins) : pins :=
  JMap (filter (λ e, ¬ (ap_expires e.2 <= now)) (entries m)).

Definition drop_oldest (m : pins) : pins :=
  match entries m with
  | (k, _) :: _ => delete k m
  | [] => m
  end.

Definition remember (key : option alias_key) (index : nat) (now : Z) (m : pins) : pins :=
  match key with
  | None => m
  | Some k =>
      let m := delete k (drop_expired now m) in
      let m := if (MAX_AFFINITIES <=? length (entries m))%nat then drop_oldest m else m in
      <[k := {| ap_target := index; ap_expires := now + AFFINITY_TTL_MS |}]> m
  end.

(** The target the conversation is held to *)
Definition held_target (key : option alias_key) (now : Z) (m : pins) : option nat :=
  k ← key; p ← m !! k; if now <? ap_expires p then Some (ap_target p) else None.

(** * When a failure lets the next target try *)

Inductive OutcomeKind :=
  | hard_429 | model_quota_exhausted | retryable_429 | overload_529 | overload_suppressed | server_error
  | sdk_bridge_unavailable | sdk_bridge_extra_usage | sdk_bridge_version_too_old
  | network_error (beforeDispatch : bool)
  | other_outcome.

Definition aliasFallbackReason (o : OutcomeKind) : option string :=
  match o with
  | hard_429 | model_quota_exhausted => Some "quota_exhausted"
  | retryable_429 => Some "rate_limited"
  | overload_529 | overload_suppressed => Some "provider_overloaded"
  | server_error | sdk_bridge_unavailable => Some "temporarily_unavailable"
  | sdk_bridge_extra_usage => Some "extra_usage_exhausted"
  | sdk_bridge_version_too_old => Some "claude_code_version_too_old"
  | network_error before => if before then None else Some "temporarily_unavailable"
  | other_outcome => None
  end%string.

(** * Refusals of the SDK bridge *)

(** A [SdkBridgeRefusalError], by its class *)
Inductive SdkBridgeRefusal := bridge_capacity | bridge_extra_usage | bridge_version_too_old | bridge_refused.

Definition sdkBridgeRefusalLabel (r : SdkBridgeRefusal) : string :=
  match r with
  | bridge_capacity => "sdk_bridge_capacity"
  | bridge_extra_usage => "sdk_bridge_extra_usage"
  | bridge_version_too_old => "sdk_bridge_version_too_old"
  | bridge_refused => "sdk_bridge_refused"
  end.

(** What is kept of a request's refusals: the latest, and whether the latest attempt was it *)
Record RefusalState := { rf_rejection : SdkBridgeRefusal; rf_last : bool }.

Definition noteAttemptStarted (st : option RefusalState) : option RefusalState :=
  (λ r, {| rf_rejection := rf_rejection r; rf_last := false |}) <$> st.
Definition noteSdkBridgeRefusal (r : SdkBridgeRefusal) (st : option RefusalState) : option RefusalState :=
  Some {| rf_rejection := r; rf_last := true |}.
Definition sdkBridgeRefusalTerminal (st : option RefusalState) : option SdkBridgeRefusal :=
  r ← st; if rf_last r then Some (rf_rejection r) else None.

(** * The environment *)

(** What an attempt through the probe gate comes to; a failed one may have been a refusal of
    the bridge. *)
Inductive answer :=
  | Answered (ok : bool)
  | ProbeSuppressed
  | Failed (outcome : option OutcomeKind) (refusal : option SdkBridgeRefusal)
  | AttemptThrows.

Record attempt_env := {
  ae_aborted : bool;
  ae_row : Account → Account;
  ae_now : Z;
  ae_burst : bool;
  ae_answer : answer }.

Inductive selection := NothingPermitted | SelectionThrows | Selected (l : list Account).

Record stage_env := {
  se_aborted : bool;
  se_selection : selection;
  se_now : Z;
  se_modules : modules;
  se_feed : UsageFeed;
  se_deps : AdmissionGateDeps;
  se_attempt : nat → attempt_env }.

(** * One stage's admission *)

Record stage_admission := {
  sa_accounts : list Account;
  sa_context_excluded : bool;
  sa_reason : string }.

(** [provider], [throttle], [family], [context], [soft demotion], [failure memo], in this order *)
Definition admit_stage (e : stage_env) (model : string) (selected : list Account) : stage_admission :=
  let route := λ _ : Account, model in
  let now := se_now e in
  let '(available, overloaded) := applyProviderOverloadGate route selected now (se_modules e) in
  let '(available, throttled) := applyUsageThrottling (se_feed e) (se_deps e) available now in
  let '(family, g) := applyFamilyWeeklyGate (se_feed e) route (se_deps e) available now gates_init in
  let '(fitting, g) := applyContextWindowGate route (se_deps e) family g in
  let '(reordered, g) := applySoftDemotionReorder (se_feed e) route fitting now (se_modules e) g in
  let '(accounts, _) := applyFailureMemoDemotion route (se_deps e) reordered now (se_modules e) in
  {| sa_accounts := accounts;
     sa_context_excluded := negb (bool_decide (contextExcludedAccounts g = []));
     sa_reason := if negb (bool_decide (familyWeeklyExcludedAccounts g = [])) || negb (bool_decide (throttled = []))
                  then "quota_exhausted"
                  else if negb (bool_decide (overloaded = [])) then "provider_overloaded" else "pool_unavailable" |}%string.

(** * The loop *)

Inductive event :=
  | AuditRejected (place : nat) (reason : option string)
  | SelectStage (place : nat) (reason : option string)
  | Attempt (place i : nat) (account : string) (oauth : bool)
  | NotAttempted (place : nat) (account : string)
  | Stayed (index : nat)
  | Follow (account : string).

Inductive terminal :=
  | ClientAborted
  | Thrown
  | Response (ok : bool)
  | NoPermission (place : nat)
  | ExceedsContext
  | BridgeRefusal (r : SdkBridgeRefusal)
  | Unavailable (retryable : bool).

Record loop := {
  lp_reason : option string;
  lp_unaudited : list nat;
  lp_unservable : option (nat * option string * bool);
  lp_servable : bool;
  lp_attempts : nat;
  lp_oauth : bool;
  lp_refusal : option RefusalState;
  lp_trace : list event }.

Definition log (e : event) (s : loop) : loop :=
  {| lp_reason := lp_reason s; lp_unaudited := lp_unaudited s; lp_unservable := lp_unservable s;
     lp_servable := lp_servable s; lp_attempts := lp_attempts s; lp_oauth := lp_oauth s; lp_refusal := lp_refusal s;
     lp_trace := lp_trace s ++ [e] |}.
Definition set_reason (r : option string) (s : loop) : loop :=
  {| lp_reason := r; lp_unaudited := lp_unaudited s; lp_unservable := lp_unservable s;
     lp_servable := lp_servable s; lp_attempts := lp_attempts s; lp_oauth := lp_oauth s; lp_refusal := lp_refusal s;
     lp_trace := lp_trace s |}.
Definition audited (k : nat) (s : loop) : loop :=
  {| lp_reason := lp_reason s; lp_unaudited := filter (λ j, j ≠ k) (lp_unaudited s);
     lp_unservable := lp_unservable s; lp_servable := lp_servable s; lp_attempts := lp_attempts s;
     lp_oauth := lp_oauth s; lp_refusal := lp_refusal s; lp_trace := lp_trace s |}.
(** [unservable ??= ...] *)
Definition note_unservable (k : nat) (permission : bool) (s : loop) : loop :=
  {| lp_reason := lp_reason s; lp_unaudited := lp_unaudited s;
     lp_unservable := match lp_unservable s with Some u => Some u | None => Some (k, lp_reason s, permission) end;
     lp_servable := lp_servable s; lp_attempts := lp_attempts s; lp_oauth := lp_oauth s; lp_refusal := lp_refusal s;
     lp_trace := lp_trace s |}.
Definition reach_servable (s : loop) : loop :=
  {| lp_reason := lp_reason s; lp_unaudited := lp_unaudited s; lp_unservable := lp_unservable s;
     lp_servable := true; lp_attempts := lp_attempts s; lp_oauth := lp_oauth s; lp_refusal := lp_refusal s;
     lp_trace := lp_trace s |}.
(** An attempt begins: it is counted here, and [proxyWithAccount] notes that it started. *)
Definition count_attempt (oauth : bool) (s : loop) : loop :=
  {| lp_reason := lp_reason s; lp_unaudited := lp_unaudited s; lp_unservable := lp_unservable s;
     lp_servable := lp_servable s; lp_attempts := S (lp_attempts s); lp_oauth := lp_oauth s || oauth;
     lp_refusal := noteAttemptStarted (lp_refusal s); lp_trace := lp_trace s |}.
Definition note_refusal (r : option SdkBridgeRefusal) (s : loop) : loop :=
  {| lp_reason := lp_reason s; lp_unaudited := lp_unaudited s; lp_unservable := lp_unservable s;
     lp_servable := lp_servable s; lp_attempts := lp_attempts s; lp_oauth := lp_oauth s;
     lp_refusal := match r with Some r => noteSdkBridgeRefusal r (lp_refusal s) | None => lp_refusal s end;
     lp_trace := lp_trace s |}.

Abbreviation placed := (nat * ResolvedRoute)%type.

(** [auditRejected(only)]: a rejected stage is audited once. *)
Definition audit_stage (s : loop) (x : placed) : loop :=
  if admissible x.2 || negb (bool_decide (x.1 ∈ lp_unaudited s)) then s
  else log (AuditRejected x.1 (lp_reason s)) (audited x.1 s).
Definition auditRejected (l : list placed) (s : loop) : loop := foldl audit_stage s l.

Section alias_loop.
Context (oauthAccountIds : list string) (env : nat → stage_env).

Definition burstSuppressed (s : loop) (e : attempt_env) (id : string) : bool :=
  lp_oauth s && bool_decide (id ∈ oauthAccountIds) && ae_burst e.

(** The accounts of a stage, from place [i] on: the answer that ends the request, or whether
    the next stage may try and why *)
Fixpoint try_accounts (place : nat) (stage : ResolvedRoute) (e : stage_env) (accounts : list Account) (i : nat)
    (mayAdvance : bool) (stageReason : string) (s : loop) : (terminal + bool * string) * loop :=
  match accounts with
  | [] => (inr (mayAdvance, stageReason), s)
  | a :: rest =>
      let ae := se_attempt e i in
      if ae_aborted ae then (inl ClientAborted, s)
      else if negb (isAccountAvailable (ae_row ae a) (ae_now ae))
      then try_accounts place stage e rest (S i) mayAdvance stageReason s
      else if burstSuppressed s ae (acc_id a)
      then try_accounts place stage e rest (S i) mayAdvance "rate_limited" s
      else
        match ae_answer ae with
        | ProbeSuppressed =>
            try_accounts place stage e rest (S i) mayAdvance "temporarily_unavailable"
              (log (NotAttempted place (acc_id a)) s)
        | Answered ok =>
            let oauth := isOAuthAnthropicAccount a in
            let s := log (Attempt place i (acc_id a) oauth) (count_attempt oauth s) in
            (inl (Response ok),
             if ok then log (Follow (acc_id a))
                         (match r_alias stage with Some x => log (Stayed (targetIndex x)) s | None => s end)
             else s)
        | AttemptThrows =>
            let oauth := isOAuthAnthropicAccount a in
            (inl Thrown, log (Attempt place i (acc_id a) oauth) (count_attempt oauth s))
        | Failed outcome refusal =>
            let oauth := isOAuthAnthropicAccount a in
            let s := note_refusal refusal (log (Attempt place i (acc_id a) oauth) (count_attempt oauth s)) in
            match outcome ≫= aliasFallbackReason with
            | None => try_accounts place stage e rest (S i) false stageReason s
            | Some f => try_accounts place stage e rest (S i) mayAdvance f s
            end
        end
  end.

Definition AliasNotRetryable : terminal := Unavailable false.

(** The stages still to come, in the order the request tries them; [ordered] is all of them. *)
Fixpoint try_stages (ordered : list placed) (stages : list placed) (s : loop) : option terminal * loop :=
  match stages with
  | [] => (None, s)
  | (k, stage) :: rest =>
      let e := env k in
      if se_aborted e then (Some ClientAborted, s)
      else if negb (admissible stage) then try_stages ordered rest (audit_stage s (k, stage))
      else
        let s := log (SelectStage k (lp_reason s)) s in
        match se_selection e with
        | SelectionThrows => (Some Thrown, s)
        | NothingPermitted =>
            try_stages ordered rest (set_reason (Some "pool_unavailable"%string) (note_unservable k true s))
        | Selected l =>
            let a := admit_stage e (default ""%string (route_upstreamModel stage)) l in
            if bool_decide (sa_accounts a = []) && sa_context_excluded a then
              try_stages ordered rest (set_reason (Some "pool_unavailable"%string) (note_unservable k false s))
            else
              let '(r, s) := try_accounts k stage e (sa_accounts a) 0 true (sa_reason a) (reach_servable s) in
              match r with
              | inl (Response false) => (Some (Response false), auditRejected ordered s)
              | inl t => (Some t, s)
              | inr (true, reason) => try_stages ordered rest (set_reason (Some reason) s)
              | inr (false, _) => (Some AliasNotRetryable, s)
              end
        end
  end.

(** The stage the conversation is held to comes first. *)
Definition preferred_stage (held : option nat) (stages : list ResolvedRoute) : option nat :=
  h ← held;
  fst <$> list_find (λ r, admissible r = true ∧ (targetIndex <$> r_alias r) = Some h) stages.

Definition indexed (stages : list ResolvedRoute) : list placed := imap (λ k r, (k, r)) stages.

Definition ordered_stages (held : option nat) (stages : list ResolvedRoute) : list placed :=
  match preferred_stage held stages with
  | Some k => filter (λ x, x.1 = k) (indexed stages) ++ filter (λ x, x.1 ≠ k) (indexed stages)
  | None => indexed stages
  end.

(** The answer when no target answered: the bridge's own refusal, when the last attempt was
    one. *)
Definition gave_up (t : option terminal) (s : loop) : terminal :=
  match sdkBridgeRefusalTerminal (lp_refusal s) with
  | Some r => BridgeRefusal r
  | None => default (Unavailable true) t
  end.

(** The whole request; [aborted] is the client's signal once the stages are through. *)
Definition handleAliasProxy (stages : list ResolvedRoute) (held : option nat) (aborted : bool) : terminal * loop :=
  let ordered := ordered_stages held stages in
  let s := {| lp_reason := if bool_decide (is_Some (preferred_stage held stages))
                           then Some "conversation_affinity"%string else None;
              lp_unaudited := fst <$> filter (λ x, admissible x.2 = false) ordered;
              lp_unservable := None; lp_servable := false; lp_attempts := 0; lp_oauth := false;
              lp_refusal := None; lp_trace := [] |} in
  let '(t, s) := try_stages ordered ordered s in
  match t with
  | Some (Unavailable _) | None =>
      if aborted then (ClientAborted, s)
      else
        let s := auditRejected ordered s in
        match lp_unservable s with
        | Some (k, reason, permission) =>
            if lp_servable s then (gave_up t s, s)
            else if (permission : bool) then (NoPermission k, log (SelectStage k reason) s)
            else (ExceedsContext, s)
        | None => (gave_up t s, s)
        end
  | Some t => (t, s)
  end.
End alias_loop.

(** * A conversation stays *)

Lemma length_alist_delete {K V} `{!EqDecision K} (k : K) (l : list (K * V)) :
  (length (alist_delete k l) ≤ length l)%nat.
Proof. induction l as [|[k' v] l IH]; cbn; [done|]. case_decide; cbn; lia. Qed.

Lemma length_alist_set {K V} `{!EqDecision K} (k : K) (v : V) (l : list (K * V)) :
  (length (alist_set k v l) ≤ S (length l))%nat.
Proof. induction l as [|[k' v'] l IH]; cbn; [done|]. case_decide; cbn; lia. Qed.

Lemma length_delete_head {K V} `{!EqDecision K} (k : K) (v : V) (l : list (K * V)) :
  (length (alist_delete k ((k, v) :: l)) ≤ length l)%nat.
Proof. cbn. rewrite decide_True by done. apply length_alist_delete. Qed.

Lemma drop_expired_get now (m : pins) k :
  jwf m → alist_get k (entries (drop_expired now m)) =
    p ← m !! k; if ap_expires p <=? now then None else Some p.
Proof.
  intros Hwf. destruct (m !! k) as [p|] eqn:E; cbn [mbind option_bind].
  - assert ((k, p) ∈ entries m) as Hin by (by apply jelem_of_entries).
    destruct (Z.leb_spec (ap_expires p) now) as [Hle|Hlt].
    + apply alist_get_None. intros ([k' p'] & Hk & Hp)%list_elem_of_fmap. cbn in Hk. subst k'.
      apply list_elem_of_filter in Hp as [Hex Hp]. apply (jelem_of_entries k p' m Hwf) in Hp.
      cbn in Hex. simplify_eq. lia.
    + apply alist_In_get.
      * eapply sublist_NoDup; [exact Hwf|]. apply fmap_sublist, sublist_filter.
      * apply list_elem_of_filter. split; [cbn; lia|done].
  - apply alist_get_None. intros ([k' p'] & Hk & Hp)%list_elem_of_fmap. cbn in Hk. subst k'.
    apply list_elem_of_filter in Hp as [_ Hp]. apply (jelem_of_entries k p' m Hwf) in Hp. congruence.
Qed.

Lemma length_drop_oldest (m : pins) : (length (entries (drop_oldest m)) ≤ pred (length (entries m)))%nat.
Proof.
  unfold drop_oldest. destruct m as [[|[k p] l]]; cbn [entries]; [done|].
  change (entries (delete k (JMap ((k, p) :: l)))) with (alist_delete k ((k, p) :: l)).
  pose proof (length_delete_head k p l). cbn [length pred]. lia.
Qed.

Lemma length_set_entry k (p : alias_pin) (m : pins) : (length (entries (<[k := p]> m)) ≤ S (length (entries m)))%nat.
Proof. apply length_alist_set. Qed.

(** the conversations held to an alias stage are a bounded map with a lifetime: a stage that
    served is found again for an hour, at most 5000 are kept, and while fewer are alive
    remembering one forgets none of the others. *)
Theorem conversation_stays k index now (m : pins) :
  jwf m →
  let m' := remember (Some k) index now m in
  ((length (entries m) ≤ MAX_AFFINITIES)%nat → (length (entries m') ≤ MAX_AFFINITIES)%nat)
  ∧ (∀ now', now' < now + AFFINITY_TTL_MS → held_target (Some k) now' m' = Some index)
  ∧ (∀ k' now', k' ≠ k → now <= now' → (length (entries (drop_expired now m)) < MAX_AFFINITIES)%nat →
       held_target (Some k') now' m' = held_target (Some k') now' m).
Proof.
  intros Hwf. cbv zeta. unfold remember. set (m1 := delete k (drop_expired now m)).
  assert (length (entries m1) ≤ length (entries (drop_expired now m)))%nat as Hm1 by apply length_alist_delete.
  split_and!.
  - intros Hlen.
    assert (length (entries (drop_expired now m)) ≤ length (entries m))%nat as Hd by apply length_filter.
    destruct (Nat.leb_spec MAX_AFFINITIES (length (entries m1))).
    + pose proof (length_drop_oldest m1). pose proof (length_set_entry k {| ap_target := index; ap_expires := now + AFFINITY_TTL_MS |} (drop_oldest m1)).
      assert (MAX_AFFINITIES ≠ 0)%nat by done. lia.
    + pose proof (length_set_entry k {| ap_target := index; ap_expires := now + AFFINITY_TTL_MS |} m1). lia.
  - intros now' Hnow. unfold held_target. cbn [mbind option_bind]. rewrite jlookup_insert_eq. cbn [mbind option_bind ap_expires].
    by rewrite (proj2 (Z.ltb_lt _ _) Hnow).
  - intros k' now' Hk Hnow Hlive. rewrite (proj2 (Nat.leb_gt _ _)) by lia.
    unfold held_target. cbn [mbind option_bind]. rewrite jlookup_insert_ne by done.
    unfold m1. rewrite jlookup_delete_ne by done.
    change (drop_expired now m !! k') with (alist_get k' (entries (drop_expired now m))).
    rewrite drop_expired_get by done. destruct (m !! k') as [p|]; [|done]. cbn [mbind option_bind].
    destruct (Z.leb_spec (ap_expires p) now); cbn; [|done].
    by destruct (Z.ltb_spec now' (ap_expires p)); [lia|].
Qed.

Definition demo_pins : pins := JMap [((None, "session", "c1", "sonnet-pool", 1)%string, {| ap_target := 1; ap_expires := 50 |});
                                     ((None, "session", "c2", "sonnet-pool", 1)%string, {| ap_target := 0; ap_expires := 900 |})].

Example conversation_stays_witness :
  let m' := remember (Some (None, "session", "c3", "sonnet-pool", 1)%string) 2 100 demo_pins in
  (length (entries m') ≤ MAX_AFFINITIES)%nat
  ∧ held_target (Some (None, "session", "c3", "sonnet-pool", 1)%string) 500 m' = Some 2%nat
  ∧ held_target (Some (None, "session", "c2", "sonnet-pool", 1)%string) 500 m' = Some 0%nat.
Proof.
  assert (jwf demo_pins) as Hwf by (by apply (bool_decide_unpack _)).
  destruct (conversation_stays (None, "session", "c3", "sonnet-pool", 1)%string 2 100 demo_pins Hwf) as (H1 & H2 & H3).
  split_and!.
  - apply H1, Nat.leb_le. by vm_compute.
  - apply H2. unfold AFFINITY_TTL_MS. lia.
  - rewrite H3; [by vm_compute|by intros [=]|lia|]. apply Nat.ltb_lt. by vm_compute.
Defined.
