(* ===== verification/AliasSafety.v ===== *)
(** What the alias loop guarantees ([AliasRouting]): when a later target may be tried, what the
    answer of the request says of the attempts, and what is audited. *)

From stdpp Require Import strings gmap.
From S2P Require Import Prelude.
From S2P Require Import Accounts.
From S2P Require Import Affinity.
From S2P Require Import Strategy.
From S2P Require Import Gates.
From S2P Require Import Admission.
From S2P Require Import ResolvedRoute.
From S2P Require Import AliasRouting.
Open Scope Z_scope.

(** * The trail *)

Record tried := { td_place : nat; td_index : nat; td_account : string; td_oauth : bool }.

Definition attempt_of (e : event) : option tried :=
  match e with
  | Attempt k i a o => Some {| td_place := k; td_index := i; td_account := a; td_oauth := o |}
  | _ => None
  end.
Definition stay_of (e : event) : option nat := match e with Stayed i => Some i | _ => None end.
Definition audit_of (e : event) : option nat := match e with AuditRejected k _ => Some k | _ => None end.
Definition attempts (l : list event) : list tried := omap attempt_of l.
Definition stays (l : list event) : list nat := omap stay_of l.
Definition audits (l : list event) : list nat := omap audit_of l.

Lemma attempts_app l l' : attempts (l ++ l') = attempts l ++ attempts l'.
Proof. apply omap_app. Qed.
Lemma stays_app l l' : stays (l ++ l') = stays l ++ stays l'.
Proof. apply omap_app. Qed.
Lemma audits_app l l' : audits (l ++ l') = audits l ++ audits l'.
Proof. apply omap_app. Qed.

(** The stages are a reordering of the plan *)
Lemma elem_of_ordered held l x : x ∈ ordered_stages held l ↔ x ∈ indexed l.
Proof.
  unfold ordered_stages. destruct (preferred_stage held l) as [k|]; [|done].
  rewrite elem_of_app, !list_elem_of_filter. destruct (decide (x.1 = k)); tauto.
Qed.

Lemma elem_of_indexed l k r : (k, r) ∈ indexed l ↔ l !! k = Some r.
Proof.
  unfold indexed. rewrite elem_of_lookup_imap. split; [|by eauto]. by intros (i & y & [= -> ->] & H).
Qed.

(** * Audits *)

Definition rejected (l : list placed) (k : nat) : Prop := ∃ r, (k, r) ∈ l ∧ admissible r = false.
Definition sendable (l : list placed) (k : nat) : Prop := ∃ r, (k, r) ∈ l ∧ admissible r = true.

(** The stage an event sends the request to *)
Definition sent_to (e : event) : option nat :=
  match e with SelectStage k _ | Attempt k _ _ _ | NotAttempted k _ => Some k | _ => None end.

Record account (l : list placed) (s : loop) : Prop := {
  ac_nodup : NoDup (audits (lp_trace s));
  ac_all : ∀ k, rejected l k ↔ k ∈ audits (lp_trace s) ∨ k ∈ lp_unaudited s;
  ac_once : ∀ k, k ∈ audits (lp_trace s) → k ∉ lp_unaudited s;
  ac_sent : ∀ k, k ∈ omap sent_to (lp_trace s) → sendable l k;
  ac_unservable : ∀ k r p, lp_unservable s = Some (k, r, p) → sendable l k }.

Lemma account_quiet l s s' :
  account l s → lp_unaudited s' = lp_unaudited s → lp_trace s' = lp_trace s → lp_unservable s' = lp_unservable s →
  account l s'.
Proof. intros [] Hu Ht Hv. by split; rewrite ?Hu, ?Ht, ?Hv. Qed.

Lemma account_log l e s :
  account l s → audit_of e = None → (∀ k, sent_to e = Some k → sendable l k) → account l (log e s).
Proof.
  intros [Hn Ha Ho Hs Hv] He Hk.
  assert (audits (lp_trace (log e s)) = audits (lp_trace s)) as E
    by (cbn; rewrite audits_app; cbn; rewrite He; cbn; by rewrite app_nil_r).
  split; rewrite ?E; try done. intros k. cbn. rewrite omap_app, elem_of_app. intros [?|Hin]; [by apply Hs|].
  cbn in Hin. destruct (sent_to e) as [k'|] eqn:Ek; [|by apply elem_of_nil in Hin].
  apply list_elem_of_singleton in Hin as ->. by apply Hk.
Qed.

Lemma account_audit l s x : account l s → account l (audit_stage s x).
Proof.
  intros Hac. unfold audit_stage. destruct (admissible x.2) eqn:Ex; [done|].
  destruct (decide (x.1 ∈ lp_unaudited s)) as [Hin|Hin]; [rewrite bool_decide_true by done|by rewrite bool_decide_false].
  cbn [negb orb]. destruct Hac as [Hn Ha Ho Hs Hv].
  assert (audits (lp_trace (log (AuditRejected x.1 (lp_reason s)) (audited x.1 s))) = audits (lp_trace s) ++ [x.1]) as E
    by (cbn; by rewrite audits_app).
  assert (∀ k, k ∈ lp_unaudited (log (AuditRejected x.1 (lp_reason s)) (audited x.1 s)) ↔ k ≠ x.1 ∧ k ∈ lp_unaudited s) as Eu
    by (intros k; cbn; by rewrite list_elem_of_filter).
  split; rewrite ?E; [|intros k; rewrite Ha, Eu, elem_of_app, list_elem_of_singleton|intros k; rewrite Eu, elem_of_app, list_elem_of_singleton| |done].
  - apply NoDup_app. split_and!; [done| |apply NoDup_singleton]. intros k Hk ->%list_elem_of_singleton. by apply (Ho x.1).
  - destruct (decide (k = x.1)) as [->|]; tauto.
  - intros [Hk|Hk]; [|tauto]. intros [_ ?]. by apply (Ho k).
  - intros k. cbn. rewrite omap_app, elem_of_app. intros [?|Hk]; [by apply Hs|]. by apply elem_of_nil in Hk.
Qed.

Lemma account_audits l xs s : account l s → account l (auditRejected xs s).
Proof. revert s. induction xs as [|x xs IH]; intros s Hs; [done|]. cbn. by apply IH, account_audit. Qed.

Lemma unaudited_after xs s k : k ∈ lp_unaudited (auditRejected xs s) → k ∈ lp_unaudited s ∧ ¬ rejected xs k.
Proof.
  revert s. induction xs as [|x xs IH]; intros s; cbn.
  - intros H. split; [done|]. intros (r & []%elem_of_nil & _).
  - intros [Hk Hr]%IH. unfold audit_stage in Hk. destruct (admissible x.2) eqn:Ex.
    + split; [done|]. intros (r & [<-|Hin]%elem_of_cons & Hf); [cbn in Ex; congruence|]. apply Hr. by exists r.
    + case_bool_decide as Hin; cbn in Hk.
      * apply list_elem_of_filter in Hk as [Hne Hk]. split; [done|].
        intros (r & [<-|Hi]%elem_of_cons & Hf); [done|]. apply Hr. by exists r.
      * split; [done|]. intros (r & [<-|Hi]%elem_of_cons & Hf); [done|]. apply Hr. by exists r.
Qed.

Lemma audited_all l s : account l s → ∀ k, k ∈ audits (lp_trace (auditRejected l s)) ↔ rejected l k.
Proof.
  intros Hs k. pose proof (ac_all _ _ (account_audits l l s Hs) k) as Ha. split; [tauto|]. intros Hr.
  apply Ha in Hr as [?|Hu]; [done|]. apply unaudited_after in Hu as [? Hn].
  exfalso. apply Hn. apply (ac_all _ _ Hs). by right.
Qed.

Lemma account_refusal l r s : account l s → account l (note_refusal r s).
Proof. intros Hs. by eapply account_quiet. Qed.

Lemma account_attempt l k i a o s :
  account l s → sendable l k → account l (log (Attempt k i a o) (count_attempt o s)).
Proof. intros Hs Hk. apply account_log; [by eapply account_quiet|done|]. by intros ? [= <-]. Qed.

Lemma account_skip l k r p s : account l s → sendable l k → account l (set_reason r (note_unservable k p s)).
Proof.
  intros [] Hk. split; cbn; try done. intros k' r' p'. destruct (lp_unservable s) as [[[??]?]|] eqn:E; [|by intros [= <- _ _]].
  intros [= -> -> ->]. by eapply ac_unservable0.
Qed.

Section loop.
Context (oauthAccountIds : list string) (env : nat → stage_env).

(** What the environment answered *)
Definition at_attempt (x : tried) : attempt_env := se_attempt (env (td_place x)) (td_index x).
Definition failed (x : tried) : Prop := ∃ o f, ae_answer (at_attempt x) = Failed o f.
Definition retryable (x : tried) : Prop :=
  ∃ o f r, ae_answer (at_attempt x) = Failed (Some o) f ∧ aliasFallbackReason o = Some r.
Definition refusal_of (x : tried) : option SdkBridgeRefusal :=
  match ae_answer (at_attempt x) with Failed _ f => f | _ => None end.

(** [x] may follow [y]. *)
Definition may_follow (x y : tried) : Prop :=
  failed y ∧ (td_place y ≠ td_place x → retryable y)
  ∧ (td_oauth y = true → td_account x ∈ oauthAccountIds → ae_burst (at_attempt x) = false).
Definition disciplined (l : list tried) : Prop :=
  ∀ l1 x l2, l = l1 ++ x :: l2 → Forall (may_follow x) l1.

Lemma disciplined_nil : disciplined [].
Proof. by intros [|] ? ?. Qed.

Lemma disciplined_snoc l x : disciplined l → Forall (may_follow x) l → disciplined (l ++ [x]).
Proof.
  intros Hl Hx l1 y l2 E. destruct l2 as [|z l2 _] using rev_ind.
  - by apply app_inj_tail in E as [-> ->].
  - rewrite app_comm_cons, app_assoc in E. apply app_inj_tail in E as [-> _]. by apply (Hl l1 y l2).
Qed.

(** ** The accounts of one stage *)

(** While no attempt has been answered *)
Record searching (s : loop) : Prop := {
  sr_disciplined : disciplined (attempts (lp_trace s));
  sr_failed : Forall failed (attempts (lp_trace s));
  sr_oauth : lp_oauth s = existsb td_oauth (attempts (lp_trace s));
  sr_refusal : sdkBridgeRefusalTerminal (lp_refusal s) = last (attempts (lp_trace s)) ≫= refusal_of;
  sr_stays : stays (lp_trace s) = [] }.

(** While stage [k] is tried; [may] is [mayAdvance]. *)
Record in_stage (k : nat) (may : bool) (s : loop) : Prop := {
  is_searching : searching s;
  is_elsewhere : ∀ y, y ∈ attempts (lp_trace s) → td_place y ≠ k → retryable y;
  is_may : if may then Forall retryable (attempts (lp_trace s)) else Exists (λ y, ¬ retryable y) (attempts (lp_trace s)) }.

Definition answered (ok : bool) (k : nat) (stage : ResolvedRoute) (s : loop) : Prop :=
  ∃ l x, attempts (lp_trace s) = l ++ [x] ∧ disciplined (l ++ [x]) ∧ td_place x = k
    ∧ ae_answer (at_attempt x) = Answered ok
    ∧ stays (lp_trace s) = if ok then option_list (targetIndex <$> r_alias stage) else [].

(** The last attempt threw. *)
Definition threw (s : loop) : Prop :=
  ∃ l x, attempts (lp_trace s) = l ++ [x] ∧ disciplined (l ++ [x]) ∧ ae_answer (at_attempt x) = AttemptThrows
    ∧ stays (lp_trace s) = [].

Lemma may_follow_next k i a s may :
  in_stage k may s → burstSuppressed oauthAccountIds s (se_attempt (env k) i) a = false →
  ∀ o, Forall (may_follow {| td_place := k; td_index := i; td_account := a; td_oauth := o |}) (attempts (lp_trace s)).
Proof.
  intros [[_ Hf Ho _ _] He _] Hb o. apply Forall_forall. intros y Hy. split_and!.
  - by eapply Forall_forall in Hf.
  - cbn. intros Hne. by apply He.
  - cbn. intros Hoauth Hin. unfold burstSuppressed in Hb. rewrite Ho in Hb.
    assert (existsb td_oauth (attempts (lp_trace s)) = true) as Hex.
    { apply List.existsb_exists. exists y. by split; [apply list_elem_of_In|]. }
    rewrite Hex, bool_decide_true in Hb by done. done.
Qed.

Lemma searching_log k i a o s :
  searching s → Forall (may_follow {| td_place := k; td_index := i; td_account := a; td_oauth := o |}) (attempts (lp_trace s)) →
  let s' := log (Attempt k i a o) (count_attempt o s) in
  disciplined (attempts (lp_trace s')) ∧ lp_oauth s' = existsb td_oauth (attempts (lp_trace s')).
Proof.
  intros [Hd _ Ho _ _] Hf. cbn. rewrite attempts_app. cbn. split; [by apply disciplined_snoc|].
  by rewrite Ho, existsb_app; cbn; rewrite orb_false_r.
Qed.

Lemma refusal_noted k i a o s oc f :
  ae_answer (se_attempt (env k) i) = Failed oc f →
  let s' := note_refusal f (log (Attempt k i a o) (count_attempt o s)) in
  sdkBridgeRefusalTerminal (lp_refusal s') = last (attempts (lp_trace s')) ≫= refusal_of.
Proof.
  intros Ha. cbn. rewrite attempts_app. cbn. rewrite last_snoc. cbn. unfold refusal_of, at_attempt. cbn. rewrite Ha.
  destruct f; [done|]. by destruct (lp_refusal s).
Qed.

Lemma in_stage_failed k i a o may s oc f :
  in_stage k may s → Forall (may_follow {| td_place := k; td_index := i; td_account := a; td_oauth := o |}) (attempts (lp_trace s)) →
  ae_answer (se_attempt (env k) i) = Failed oc f →
  in_stage k (may && bool_decide (is_Some (oc ≫= aliasFallbackReason)))
    (note_refusal f (log (Attempt k i a o) (count_attempt o s))).
Proof.
  intros [Hs He Hm] Hf Ha. pose proof (searching_log k i a o s Hs Hf) as [Hd Ho]. destruct Hs as [_ Hfl _ _ Hst].
  pose proof (refusal_noted k i a o s oc f Ha) as Hnoted. cbv zeta in Hnoted.
  set (x := {| td_place := k; td_index := i; td_account := a; td_oauth := o |}) in *.
  assert (retryable x ↔ is_Some (oc ≫= aliasFallbackReason)) as Hr.
  { unfold retryable, at_attempt. cbn. rewrite Ha. split.
    - intros (o' & f' & r & [= -> ->] & Hr). by exists r.
    - destruct oc as [oc|]; cbn; [|by intros []]. intros [r Hr]. by exists oc, f, r. }
  assert (attempts (lp_trace (log (Attempt k i a o) (count_attempt o s))) = attempts (lp_trace s) ++ [x]) as HA
    by (cbn; by rewrite attempts_app).
  assert (attempts (lp_trace (note_refusal f (log (Attempt k i a o) (count_attempt o s)))) = attempts (lp_trace s) ++ [x]) as HA'
    by exact HA.
  split; [split| |]; rewrite ?HA', ?HA in *; try done.
  - apply Forall_app. split; [done|]. apply Forall_singleton. by exists oc, f.
  - cbn. rewrite stays_app, Hst. done.
  - intros y [Hy|Hy]%elem_of_app Hne; [by apply He|]. by apply list_elem_of_singleton in Hy as ->.
  - case_bool_decide as Hsome; rewrite ?andb_true_r, ?andb_false_r.
    + destruct may; [apply Forall_app; split; [done|]; apply Forall_singleton; by apply Hr|apply Exists_app; by left].
    + apply Exists_app. right. apply Exists_cons. left. tauto.
Qed.

Lemma try_accounts_outcome k stage accounts i may reason s r s' :
  in_stage k may s →
  try_accounts oauthAccountIds k stage (env k) accounts i may reason s = (r, s') →
  match r with
  | inr (may', _) => in_stage k may' s'
  | inl ClientAborted => searching s'
  | inl Thrown => threw s'
  | inl (Response ok) => answered ok k stage s'
  | inl _ => False
  end.
Proof.
  revert i may reason s. induction accounts as [|a accounts IH]; intros i may reason s Hin; cbn [try_accounts].
  { by intros [= <- <-]. }
  destruct (ae_aborted _); [intros [= <- <-]; apply Hin|].
  destruct (negb (isAccountAvailable _ _)); [by apply IH|].
  destruct (burstSuppressed _ _ _ _) eqn:Eb; [by apply IH|].
  pose proof (may_follow_next k i (acc_id a) s may Hin Eb (isOAuthAnthropicAccount a)) as Hf.
  destruct (ae_answer _) as [ok| |oc f|] eqn:Ea.
  - intros [= <- <-]. pose proof (searching_log k i _ _ s (is_searching _ _ _ Hin) Hf) as [Hd _].
    pose proof (sr_stays _ (is_searching _ _ _ Hin)) as Hst. cbn in Hd. rewrite attempts_app in Hd. cbn in Hd.
    eexists _, _. split_and!; [|exact Hd|done|exact Ea|]; destruct ok, (r_alias stage); cbn;
      rewrite ?attempts_app, ?stays_app, ?Hst; cbn; by rewrite ?app_nil_r.
  - apply IH. destruct Hin as [[] ? ?]. by split; [split|..]; cbn; rewrite ?attempts_app, ?stays_app; cbn; rewrite ?app_nil_r.
  - pose proof (in_stage_failed k i _ _ may s oc f Hin Hf Ea) as Hnext.
    destruct (oc ≫= aliasFallbackReason) as [w|]; cbn in Hnext; [rewrite andb_true_r in Hnext|rewrite andb_false_r in Hnext];
      by apply IH.
  - intros [= <- <-]. pose proof (searching_log k i _ _ s (is_searching _ _ _ Hin) Hf) as [Hd _].
    pose proof (sr_stays _ (is_searching _ _ _ Hin)) as Hst. cbn in Hd. rewrite attempts_app in Hd. cbn in Hd.
    eexists _, _. split_and!; [|exact Hd|exact Ea|]; cbn; rewrite ?attempts_app, ?stays_app, ?Hst; done.
Qed.

(** ** The stages *)

(** Between two stages *)
Record between (s : loop) : Prop := {
  bt_searching : searching s;
  bt_retryable : Forall retryable (attempts (lp_trace s));
  bt_servable : lp_servable s = false → attempts (lp_trace s) = [] }.

(** The steps that neither attempt nor answer *)
Record quiet (s s' : loop) : Prop := {
  qt_attempts : attempts (lp_trace s') = attempts (lp_trace s);
  qt_stays : stays (lp_trace s') = stays (lp_trace s);
  qt_oauth : lp_oauth s' = lp_oauth s;
  qt_refusal : lp_refusal s' = lp_refusal s;
  qt_servable : lp_servable s' = lp_servable s }.

#[export] Instance quiet_preorder : PreOrder quiet.
Proof. split; [by split|]. intros ??? [] []. split; congruence. Qed.

Lemma quiet_searching s s' : quiet s s' → searching s → searching s'.
Proof. intros [Ha Hs Ho Hf Hv] []. split; by rewrite ?Ha, ?Hs, ?Ho, ?Hf. Qed.

Lemma quiet_between s s' : quiet s s' → between s → between s'.
Proof.
  intros Hq [Hs Hr Hv]. split; [by eapply quiet_searching| |]; destruct Hq as [Ha _ _ _ Hserv]; by rewrite ?Ha, ?Hserv.
Qed.

Lemma quiet_keeps_answer ok k stage s s' : quiet s s' → answered ok k stage s → answered ok k stage s'.
Proof. intros [Ha Hs _ _ _] (l & x & H). exists l, x. by rewrite Ha, Hs. Qed.

Lemma quiet_audit s x : quiet s (audit_stage s x).
Proof.
  unfold audit_stage. destruct (_ || _); [done|]. split; cbn; rewrite ?attempts_app, ?stays_app; cbn; by rewrite ?app_nil_r.
Qed.

Lemma quiet_audits l s : quiet s (auditRejected l s).
Proof.
  revert s. induction l as [|x l IH]; intros s; [done|]. transitivity (audit_stage s x); [apply quiet_audit|apply IH].
Qed.

Lemma quiet_select k r s : quiet s (log (SelectStage k r) s).
Proof. split; cbn; rewrite ?attempts_app, ?stays_app; cbn; by rewrite ?app_nil_r. Qed.

Lemma quiet_skip r k p s : quiet s (set_reason r (note_unservable k p s)).
Proof. by split. Qed.

Lemma between_in_stage k s : between s → in_stage k true (reach_servable s).
Proof.
  intros [[] Hr _]. split; [by split| |done]. intros y Hy _. eapply Forall_forall in Hr; [|exact Hy]. done.
Qed.

(** What the end of the stages means *)
Definition stages_outcome (stages : list placed) (t : option terminal) (s : loop) : Prop :=
  match t with
  | None => between s
  | Some (Response ok) => ∃ k stage, (k, stage) ∈ stages ∧ admissible stage = true ∧ answered ok k stage s
  | Some (Unavailable false) => searching s ∧ Exists (λ y, ¬ retryable y) (attempts (lp_trace s)) ∧ lp_servable s = true
  | Some ClientAborted => searching s
  | Some Thrown => searching s ∨ threw s
  | Some _ => False
  end.

Lemma stages_outcome_mono x stages t s : stages_outcome stages t s → stages_outcome (x :: stages) t s.
Proof.
  destruct t as [[| |ok| | | |]|]; try done. intros (k & stage & Hin & H). exists k, stage. split; [by right|done].
Qed.

Lemma try_accounts_servable k stage e accounts i may reason s r s' :
  try_accounts oauthAccountIds k stage e accounts i may reason s = (r, s') → lp_servable s' = lp_servable s.
Proof.
  revert i may reason s. induction accounts as [|a accounts IH]; intros i may reason s; cbn [try_accounts]; [by intros [= _ <-]|].
  destruct (ae_aborted _); [by intros [= _ <-]|]. destruct (negb _); [apply IH|].
  destruct (burstSuppressed _ _ _ _); [apply IH|]. destruct (ae_answer _) as [ok| |oc f|].
  - intros [= _ <-]. by destruct ok, (r_alias stage).
  - intros H. by rewrite (IH _ _ _ _ H).
  - destruct (oc ≫= aliasFallbackReason); intros H; by rewrite (IH _ _ _ _ H).
  - by intros [= _ <-].
Qed.

Lemma try_stages_outcome ordered stages s t s' :
  between s → try_stages oauthAccountIds env ordered stages s = (t, s') → stages_outcome stages t s'.
Proof.
  revert s. induction stages as [|[k stage] stages IH]; intros s Hs; cbn [try_stages]; [by intros [= <- <-]|].
  destruct (se_aborted _); [intros [= <- <-]; apply Hs|].
  destruct (admissible stage) eqn:Ead; cbn [negb].
  2: { intros H. eapply stages_outcome_mono, IH, H. eapply quiet_between; [apply quiet_audit|done]. }
  assert (between (log (SelectStage k (lp_reason s)) s)) as Hsel by (eapply quiet_between; [apply quiet_select|done]).
  destruct (se_selection _) as [| |l].
  - intros H. eapply stages_outcome_mono, IH, H. eapply quiet_between; [apply quiet_skip|done].
  - intros [= <- <-]. left. apply Hsel.
  - destruct (_ && _).
    { intros H. eapply stages_outcome_mono, IH, H. eapply quiet_between; [apply quiet_skip|done]. }
    destruct (try_accounts _ _ _ _ _ _ _ _ _) as [r s1] eqn:Et.
    pose proof (try_accounts_outcome _ _ _ _ _ _ _ _ _ (between_in_stage k _ Hsel) Et) as Hr.
    apply try_accounts_servable in Et. cbn in Et.
    destruct r as [[| |[]| | | |]|[[] reason]]; try done.
    + intros [= <- <-]. done.
    + intros [= <- <-]. by right.
    + intros [= <- <-]. exists k, stage. split; [by left|done].
    + intros [= <- <-]. exists k, stage. split; [by left|]. split; [done|].
      eapply quiet_keeps_answer; [apply quiet_audits|done].
    + destruct Hr as [Hsr _ Hm]. intros H. eapply stages_outcome_mono, IH, H. apply (quiet_between s1); [by split|].
      split; [done..|]. by rewrite Et.
    + destruct Hr as [Hsr _ Hm]. intros [= <- <-]. done.
Qed.

(** ** What is audited *)

Lemma account_accounts l k stage e accounts i may reason s r s' :
  account l s → sendable l k →
  try_accounts oauthAccountIds k stage e accounts i may reason s = (r, s') → account l s'.
Proof.
  intros Hs Hk. revert i may reason s Hs. induction accounts as [|a accounts IH]; intros i may reason s Hs; cbn [try_accounts];
    [by intros [= _ <-]|].
  destruct (ae_aborted _); [by intros [= _ <-]|]. destruct (negb _); [by apply IH|].
  destruct (burstSuppressed _ _ _ _); [by apply IH|]. destruct (ae_answer _) as [ok| |oc f|].
  - intros [= _ <-]. pose proof (account_attempt l k i (acc_id a) (isOAuthAnthropicAccount a) s Hs Hk).
    destruct ok; [|done]. apply account_log; [|done..]. destruct (r_alias stage); [|done]. by apply account_log.
  - apply IH. apply account_log; [done..|]. by intros ? [= <-].
  - pose proof (account_refusal l f _ (account_attempt l k i (acc_id a) (isOAuthAnthropicAccount a) s Hs Hk)).
    destruct (oc ≫= aliasFallbackReason); by apply IH.
  - intros [= _ <-]. by apply account_attempt.
Qed.

Lemma account_stages l stages s t s' :
  account l s → stages ⊆ l → try_stages oauthAccountIds env l stages s = (t, s') →
  account l s' ∧ (t = Some (Response false) → ∀ k, k ∈ audits (lp_trace s') ↔ rejected l k).
Proof.
  revert s. induction stages as [|[k stage] stages IH]; intros s Hs Hsub; cbn [try_stages]; [by intros [= <- <-]|].
  assert (stages ⊆ l) as Hsub' by set_solver.
  destruct (se_aborted _); [by intros [= <- <-]|].
  destruct (admissible stage) eqn:Ead; cbn [negb]; [|by apply IH; [apply account_audit|]].
  assert (sendable l k) as Hk by (exists stage; set_solver).
  assert (account l (log (SelectStage k (lp_reason s)) s)) as Hsel by (apply account_log; [done..|]; by intros ? [= <-]).
  destruct (se_selection _) as [| |acs]; [by apply IH; [apply account_skip|]|by intros [= <- <-]|].
  destruct (_ && _); [by apply IH; [apply account_skip|]|].
  destruct (try_accounts _ _ _ _ _ _ _ _ _) as [r s1] eqn:Et.
  assert (account l s1) as H1 by (eapply account_accounts; [|exact Hk|exact Et]; by eapply account_quiet).
  destruct r as [[| |[]| | | |]|[[] reason]]; try (by intros [= <- <-]).
  - intros [= <- <-]. split; [by apply account_audits|]. intros _. by apply audited_all.
  - apply IH; [by eapply account_quiet|done].
Qed.

End loop.

(** * The request *)

Section request.
Context (oauthAccountIds : list string) (env : nat → stage_env).

Lemma initial_between held stages :
  let s := {| lp_reason := if bool_decide (is_Some (preferred_stage held stages))
                           then Some "conversation_affinity"%string else None;
              lp_unaudited := fst <$> filter (λ x, admissible x.2 = false) (ordered_stages held stages);
              lp_unservable := None; lp_servable := false; lp_attempts := 0; lp_oauth := false;
              lp_refusal := None; lp_trace := [] |} in
  between oauthAccountIds env s ∧ account (ordered_stages held stages) s.
Proof.
  split; [split; [split|..]|split]; cbn; try done; [| | |by intros ? ?%elem_of_nil..].
  - by intros [|] ? ?.
  - apply NoDup_nil_2.
  - intros k. rewrite list_elem_of_fmap. split.
    + intros (r & Hin & Hr). right. exists (k, r). split; [done|]. by apply list_elem_of_filter.
    + intros [[]%elem_of_nil|([k' r] & -> & [Hr Hin]%list_elem_of_filter)]. by exists r.
Qed.

(** The end of the request, from the end of the stages *)
Lemma handle_from_stages stages held aborted t s :
  handleAliasProxy oauthAccountIds env stages held aborted = (t, s) →
  ∃ t1 s1, stages_outcome oauthAccountIds env (ordered_stages held stages) t1 s1
    ∧ account (ordered_stages held stages) s1
    ∧ (t1 = Some (Response false) → ∀ k, k ∈ audits (lp_trace s1) ↔ rejected (ordered_stages held stages) k)
    ∧ let s2 := auditRejected (ordered_stages held stages) s1 in
      (t1 = Some t ∧ s = s1 ∧ (∀ b, t ≠ Unavailable b)
       ∨ (t1 = None ∨ ∃ b, t1 = Some (Unavailable b))
         ∧ (t = ClientAborted ∧ s = s1
            ∨ t = gave_up t1 s2 ∧ s = s2
            ∨ lp_servable s2 = false
              ∧ (t = ExceedsContext ∧ s = s2
                 ∨ ∃ k reason, lp_unservable s2 = Some (k, reason, true) ∧ t = NoPermission k ∧ s = log (SelectStage k reason) s2))).
Proof.
  unfold handleAliasProxy. destruct (initial_between held stages) as [Hb Ha].
  destruct (try_stages _ _ _ _ _) as [t1 s1] eqn:E. intros H. exists t1, s1.
  destruct (account_stages _ _ _ _ _ _ _ Ha (reflexivity _) E) as [Hac Haud].
  split_and!; [by eapply try_stages_outcome|done..|]. cbv zeta.
  destruct t1 as [[| |ok| | |r|b]|]; simplify_eq;
    try (left; by split_and!); right; (split; [by eauto|]); destruct aborted; simplify_eq; [by eauto| |by eauto|].
  all: destruct (lp_unservable _) as [[[k reason] p]|] eqn:Eu; simplify_eq; [|by eauto].
  all: destruct (lp_servable _) eqn:Es; simplify_eq; [by eauto|].
  all: destruct p; simplify_eq; right; right; (split; [done|]); [right; by eauto|by left].
Qed.

Lemma rejected_plan held stages k :
  rejected (ordered_stages held stages) k ↔ ∃ r, stages !! k = Some r ∧ admissible r = false.
Proof. setoid_rewrite <-elem_of_indexed. by setoid_rewrite <-(elem_of_ordered held). Qed.

Lemma sendable_plan held stages k :
  sendable (ordered_stages held stages) k ↔ ∃ r, stages !! k = Some r ∧ admissible r = true.
Proof. setoid_rewrite <-elem_of_indexed. by setoid_rewrite <-(elem_of_ordered held). Qed.

Lemma outcome_disciplined l t s : stages_outcome oauthAccountIds env l t s → disciplined oauthAccountIds env (attempts (lp_trace s)).
Proof.
  destruct t as [[| |ok| | | |[]]|]; cbn; try tauto.
  - intros H. apply H.
  - intros [H|(a & x & -> & Hd & _)]; [apply H|done].
  - intros (k & stage & _ & _ & a & x & -> & Hd & _). done.
  - intros [H _]. apply H.
  - intros H. apply H.
Qed.

(** C26: the fallback of an alias is disciplined. Before any attempt every earlier one failed, none
    was answered; those for another target failed for a reason that [aliasFallbackReason] accepts;
    and once an account on an Anthropic subscription was tried, no account that the pool lists
    as one is tried while the burst marker is up. *)
Theorem alias_fallback_disciplined stages held aborted :
  let l := attempts (lp_trace (handleAliasProxy oauthAccountIds env stages held aborted).2) in
  ∀ before x after, l = before ++ x :: after → ∀ y, y ∈ before →
    failed env y ∧ (td_place y ≠ td_place x → retryable env y)
    ∧ (td_oauth y = true → td_account x ∈ oauthAccountIds → ae_burst (at_attempt env x) = false).
Proof.
  cbv zeta. destruct (handleAliasProxy _ _ _ _ _) as [t s] eqn:E. cbn [snd].
  apply handle_from_stages in E as (t1 & s1 & Ho & _ & _ & Hend).
  apply outcome_disciplined in Ho.
  assert (attempts (lp_trace s) = attempts (lp_trace s1)) as ->.
  { pose proof (qt_attempts _ _ (quiet_audits (ordered_stages held stages) s1)) as Hq. cbv zeta in Hend.
    destruct Hend as [(_ & -> & _)|(_ & [(_ & ->)|[(_ & ->)|(_ & [(_ & ->)|(k & r & _ & _ & ->)])]])]; try done.
    by rewrite (qt_attempts _ _ (quiet_select k r _)). }
  intros before x after Hl y Hy. specialize (Ho before x after Hl). rewrite Forall_forall in Ho. by apply Ho.
Qed.

(** What an answer says of the attempts and of the conversation *)
Definition answer_means (stages : list ResolvedRoute) (t : terminal) (tr : list event) : Prop :=
  match t with
  | Response ok => ∃ l x stage,
      attempts tr = l ++ [x] ∧ Forall (failed env) l ∧ ae_answer (at_attempt env x) = Answered ok
      ∧ stages !! td_place x = Some stage ∧ admissible stage = true
      ∧ stays tr = if ok then option_list (targetIndex <$> r_alias stage) else []
  | BridgeRefusal r =>
      stays tr = [] ∧ Forall (failed env) (attempts tr)
      ∧ ∃ x outcome, last (attempts tr) = Some x ∧ ae_answer (at_attempt env x) = Failed outcome (Some r)
  | Unavailable again =>
      stays tr = [] ∧ Forall (failed env) (attempts tr)
      ∧ (if again then Forall (retryable env) (attempts tr) else Exists (λ y, ¬ retryable env y) (attempts tr))
      ∧ (∀ x, last (attempts tr) = Some x → ∃ outcome, ae_answer (at_attempt env x) = Failed outcome None)
  | NoPermission _ | ExceedsContext => stays tr = [] ∧ attempts tr = []
  | ClientAborted => stays tr = [] ∧ Forall (failed env) (attempts tr)
  | Thrown =>
      stays tr = [] ∧ ∃ l, Forall (failed env) l ∧
        (attempts tr = l ∨ ∃ x, attempts tr = l ++ [x] ∧ ae_answer (at_attempt env x) = AttemptThrows)
  end.

Lemma answer_means_quiet stages t s s' :
  quiet s s' → answer_means stages t (lp_trace s) → answer_means stages t (lp_trace s').
Proof. intros [Ha Hs _ _ _]. unfold answer_means. by rewrite Ha, Hs. Qed.

Lemma outcome_means held stages t s :
  stages_outcome oauthAccountIds env (ordered_stages held stages) (Some t) s → (∀ b, t ≠ Unavailable b) →
  answer_means stages t (lp_trace s).
Proof.
  destruct t as [| |ok| | | |b]; cbn; try done.
  - by intros [].
  - intros [[]|(l & x & HA & Hd & Hx & Hst)] _; split; try done.
    + eexists. split; [done|]. by left.
    + exists l. split; [|by eauto]. eapply Forall_impl; [by apply (Hd l x [])|]. by intros y [].
  - intros (k & stage & Hin & Had & l & x & HA & Hd & Hk & Hans & Hst) _. apply elem_of_ordered, elem_of_indexed in Hin.
    exists l, x, stage. subst k. split_and!; try done.
    eapply Forall_impl; [by apply (Hd l x [])|]. by intros y [].
  - intros _ H. by destruct (H b).
Qed.

(** Giving up says whether the last attempt was a refusal of the bridge. *)
Lemma gave_up_means stages t s :
  searching oauthAccountIds env s →
  match t with
  | None => Forall (retryable env) (attempts (lp_trace s))
  | Some t => t = Unavailable false ∧ Exists (λ y, ¬ retryable env y) (attempts (lp_trace s))
  end → answer_means stages (gave_up t s) (lp_trace s).
Proof.
  intros [_ Hf _ Hr Hst] Ht. unfold gave_up. rewrite Hr. set (l := attempts (lp_trace s)) in *.
  assert (∀ x, last l = Some x → ∃ o f, ae_answer (at_attempt env x) = Failed o f ∧ refusal_of env x = f) as Hlast.
  { intros x Hx. assert (failed env x) as (o & f & Hof) by (eapply Forall_forall; [exact Hf|]; by apply last_Some_elem_of).
    exists o, f. split; [done|]. unfold refusal_of. by rewrite Hof. }
  destruct (last l ≫= refusal_of env) as [r|] eqn:E.
  - apply bind_Some in E as (x & Hx & Hrx). destruct (Hlast x Hx) as (o & f & Hof & Hfr).
    split_and!; [done..|]. exists x, o. split; [done|]. congruence.
  - assert (∀ x, last l = Some x → ∃ outcome, ae_answer (at_attempt env x) = Failed outcome None) as Hnone.
    { intros x Hx. rewrite Hx in E. cbn in E. destruct (Hlast x Hx) as (o & f & Hof & Hfr). exists o. congruence. }
    destruct t as [t|]; [destruct Ht as [-> Ht]|]; by split_and!.
Qed.

(** C27: a request to an alias is answered by its last attempt, at a stage that admission accepted
    and after nothing but failures, and only then, when the answer is good, the conversation
    stays with that stage. When no target answered, the SDK bridge's own refusal is the answer
    exactly if the last attempt was one; "unavailable" says that every attempt failed, the last
    for another reason than such a refusal, and in its retryable form that none failed for
    another reason than those that let the next target try; the permission and context errors
    say that nothing was tried; an error thrown is a selection's or the last attempt's. *)
Theorem alias_answer_means_what_it_says stages held aborted :
  let '(t, s) := handleAliasProxy oauthAccountIds env stages held aborted in
  answer_means stages t (lp_trace s).
Proof.
  destruct (handleAliasProxy _ _ _ _ _) as [t s] eqn:E.
  apply handle_from_stages in E as (t1 & s1 & Ho & _ & _ & Hend). cbv zeta in Hend.
  set (s2 := auditRejected _ s1) in *. assert (quiet s1 s2) as Hq by apply quiet_audits.
  destruct Hend as [(-> & -> & Hnot)|[Ht Hend]]; [by eapply outcome_means|].
  assert (searching oauthAccountIds env s1) as Hs.
  { destruct Ht as [->|[[] ->]]; cbn in Ho; [apply Ho|done|apply Ho]. }
  destruct Hend as [[-> ->]|[[-> ->]|[Hv Hend]]]; [by split; apply Hs| |].
  - apply gave_up_means; [by eapply quiet_searching|]. rewrite (qt_attempts _ _ Hq).
    destruct Ht as [->|[[] ->]]; cbn in Ho; [apply Ho|done|]. split; [done|apply Ho].
  - rewrite (qt_servable _ _ Hq) in Hv.
    assert (attempts (lp_trace s1) = []) as Hnone.
    { destruct Ht as [->|[[] ->]]; cbn in Ho; [by apply Ho|done|]. destruct Ho as (_ & _ & Ho). congruence. }
    destruct Hend as [[-> ->]|(k & r & _ & -> & ->)].
    + apply (answer_means_quiet _ _ s1 s2 Hq). by split; [apply Hs|].
    + apply (answer_means_quiet _ _ s1); [|by split; [apply Hs|]].
      etransitivity; [exact Hq|apply quiet_select].
Qed.

(** a stage that admission rejected is never selected nor sent to; it is audited at most
    once, and when the request ends with no stage having served, every one of them was. *)
Theorem alias_rejections_audited stages held aborted :
  let '(t, s) := handleAliasProxy oauthAccountIds env stages held aborted in
  let is_rejected k := ∃ r, stages !! k = Some r ∧ admissible r = false in
  (∀ k, k ∈ omap sent_to (lp_trace s) → ∃ r, stages !! k = Some r ∧ admissible r = true)
  ∧ NoDup (audits (lp_trace s)) ∧ (∀ k, k ∈ audits (lp_trace s) → is_rejected k)
  ∧ (t ≠ Response true → t ≠ ClientAborted → t ≠ Thrown → ∀ k, is_rejected k → k ∈ audits (lp_trace s)).
Proof.
  destruct (handleAliasProxy _ _ _ _ _) as [t s] eqn:E. cbv zeta.
  apply handle_from_stages in E as (t1 & s1 & Ho & Hac & Haud & Hend). cbv zeta in Hend.
  set (ordered := ordered_stages held stages) in *. set (s2 := auditRejected _ s1) in *.
  assert (account ordered s2) as Hac2 by (by apply account_audits).
  pose proof (audited_all ordered s1 Hac) as Hall. fold s2 in Hall.
  assert (account ordered s ∧ (t ≠ Response true → t ≠ ClientAborted → t ≠ Thrown →
    ∀ k, rejected ordered k → k ∈ audits (lp_trace s))) as [Hacs Hk].
  { destruct Hend as [(-> & -> & Hu)|[Ht [[-> ->]|[[-> ->]|[Hv [[-> ->]|(k & r & Hun & -> & ->)]]]]]]; try (by split).
    - split; [done|]. intros H1 H2 H3 k. destruct t as [| |[]| | |r|b]; try done; [|by destruct (Hu b)].
      by apply Haud.
    - split; [done|]. intros _ _ _ k. apply Hall.
    - split; [done|]. intros _ _ _ k. apply Hall.
    - split.
      + apply account_log; [done..|]. intros k' [= <-]. by eapply ac_unservable.
      + intros _ _ _ k' Hr. cbn. rewrite audits_app, elem_of_app. left. by apply Hall. }
  destruct Hacs as [Hn Ha Hone Hsent _]. split_and!.
  - intros k Hin. by apply (sendable_plan held), Hsent.
  - done.
  - intros k Hin. apply (rejected_plan held), Ha. by left.
  - intros H1 H2 H3 k Hr. apply Hk; [done..|]. by apply (rejected_plan held).
Qed.

End request.

(** * A request *)

(** Three stages; the second was rejected. The first stage's account meets its quota, and the
    third stage's answers. *)
Definition demo_stage (i : nat) (e : option RouteError) : ResolvedRoute :=
  {| r_requestedModel := "pool"; r_admissionError := e; r_rule := None;
     r_alias := Some {| ev_id := "pool"; ev_revision := 1; targetIndex := i |}; r_maintenance := None;
     r_targets := ∅ |}.

Definition demo_plan : list ResolvedRoute :=
  [demo_stage 0 None; demo_stage 1 (Some ModelSubstitutionRouteError); demo_stage 2 None].

(** No account has reported its usage. *)
Definition silent_feed : UsageFeed :=
  {| peek := λ _, None; peekPollFreshAt := λ _ _, None; routing_usage := λ _ _ _ _, None |}.

Definition demo_env (reason : OutcomeKind) (k : nat) : stage_env :=
  {| se_aborted := false; se_selection := Selected [demo_row (if decide (k = 0%nat) then "a" else "b") 0]%string;
     se_now := 10; se_modules := demo_modules; se_feed := silent_feed; se_deps := demo_deps;
     se_attempt := λ _, {| ae_aborted := false; ae_row := id; ae_now := 10; ae_burst := false;
                           ae_answer := if decide (k = 0%nat) then Failed (Some reason) None else Answered true |} |}.

Example demo_request_falls_back :
  let '(t, s) := handleAliasProxy [] (demo_env hard_429) demo_plan None false in
  t = Response true
  ∧ lp_trace s = [SelectStage 0 None; Attempt 0 0 "a" false; AuditRejected 1 (Some "quota_exhausted");
                  SelectStage 2 (Some "quota_exhausted"); Attempt 2 0 "b" false; Stayed 2; Follow "b"]%string.
Proof. by vm_compute. Qed.

Example demo_request_stops :
  let '(t, s) := handleAliasProxy [] (demo_env other_outcome) demo_plan None false in
  t = Unavailable false ∧ audits (lp_trace s) = [1]%nat ∧ length (attempts (lp_trace s)) = 1%nat.
Proof. by vm_compute. Qed.

Example demo_request_stays_first :
  let '(t, s) := handleAliasProxy [] (demo_env hard_429) demo_plan (Some 2%nat) false in
  t = Response true
  ∧ lp_trace s = [SelectStage 2 (Some "conversation_affinity"); Attempt 2 0 "b" false; Stayed 2; Follow "b"]%string.
Proof. by vm_compute. Qed.

Example alias_fallback_disciplined_witness :
  let env := demo_env hard_429 in
  let y := {| td_place := 0; td_index := 0; td_account := "a"; td_oauth := false |} in
  let x := {| td_place := 2; td_index := 0; td_account := "b"; td_oauth := false |} in
  attempts (lp_trace (handleAliasProxy [] env demo_plan None false).2) = [y; x] ∧ failed env y ∧ retryable env y.
Proof.
  cbv zeta.
  set (y := {| td_place := 0; td_index := 0; td_account := "a"; td_oauth := false |}).
  set (x := {| td_place := 2; td_index := 0; td_account := "b"; td_oauth := false |}).
  destruct (alias_fallback_disciplined [] (demo_env hard_429) demo_plan None false [y] x []) with (y := y)
    as (Hf & Hr & _); [vm_compute; reflexivity|by left|].
  split; [vm_compute; reflexivity|]. split; [exact Hf|]. apply Hr. discriminate.
Defined.

(** Out of targets after a refusal of the bridge, the request is answered with it. *)
Example demo_request_refused :
  let env k := {| se_aborted := false; se_selection := Selected [demo_row "a" 0]%string;
                  se_now := 10; se_modules := demo_modules; se_feed := silent_feed; se_deps := demo_deps;
                  se_attempt := λ _, {| ae_aborted := false; ae_row := id; ae_now := 10; ae_burst := false;
                    ae_answer := Failed (Some sdk_bridge_unavailable)
                                   (if decide (k = 0%nat) then None else Some bridge_capacity) |} |} in
  (handleAliasProxy [] env demo_plan None false).1 = BridgeRefusal bridge_capacity
  ∧ (handleAliasProxy [] env (take 2 demo_plan) None false).1 = Unavailable true.
Proof. by vm_compute. Qed.
