(* ===== verification/ChatStream.v ===== *)
(** A Messages stream as a chat completion

    [packages/openai-chat-adapter/src/stream.ts] with the errors of [errors.ts], and the two
    answers that [handler.ts] makes of it, streamed and whole. The bytes arrive decoded; an
    error carries its status, its code and its type. What the proxy records in the context of
    a request while it runs is read once, so the context is an argument. *)

From S2P Require Import Prelude.
From S2P Require Import Rationals.
From S2P Require Import Json.
From S2P Require Import Messages.
From S2P Require Import OpenAiFormats.
Open Scope Z_scope.

(** * Errors *)

Record ChatError := {
  ce_message : string;
  ce_param : option string;
  ce_status : Z;
  ce_code : string;
  ce_type : option string;
  ce_retryAfter : option string }.

Definition upstreamFailure (message : string) : ChatError :=
  {| ce_message := message; ce_param := None; ce_status := 502; ce_code := "invalid_upstream_response";
     ce_type := None; ce_retryAfter := None |}.

Definition DEFAULT_RETRY_AFTER_SECONDS : string := "30".
Definition MAX_ERROR_LABEL : Z := 128.
Definition CLIENT_STATUSES : list Z := [400; 413; 429; 529].

(** [packages/types/src/upstream-error.ts] *)
Definition ANTHROPIC_ERROR_STATUS : list (string * Z) :=
  [("invalid_request_error", 400); ("authentication_error", 401); ("billing_error", 402);
   ("permission_error", 403); ("not_found_error", 404); ("request_too_large", 413);
   ("rate_limit_error", 429); ("api_error", 500); ("timeout_error", 504); ("overloaded_error", 529)]%string.
Definition anthropicErrorStatus (type : string) : option Z := alist_get type ANTHROPIC_ERROR_STATUS.

(** [s.slice(0, n)]: the characters that fit. A character cut in two leaves a lone surrogate;
    a string of UTF-8 has the replacement character for it. *)
Fixpoint slice_to (n : Z) (s : string) : string :=
  match s with
  | EmptyString => EmptyString
  | String c s =>
      let w := units (String c EmptyString) in
      if w <=? n then String c (slice_to (n - w) s)
      else if 0 <? n then of_text (map byte_char [239; 191; 189]) else EmptyString
  end.

Definition label (v : value) : option string :=
  s ← as_string v;
  if String.eqb (trim s) "" then None else Some (slice_to MAX_ERROR_LABEL (trim s)).

Definition upstreamStreamError (e : value) : ChatError :=
  let type := default "api_error"%string (label (opt_prop e "type")) in
  let status := match anthropicErrorStatus type with
                | Some n => if bool_decide (n ∈ CLIENT_STATUSES) then n else 502
                | None => 502
                end in
  {| ce_message := match as_string (opt_prop e "message") with
                   | Some m => slice_to 512 m
                   | None => "Upstream stream failed"
                   end;
     ce_param := None; ce_status := status;
     ce_code := default type (label (opt_prop e "code")); ce_type := Some type;
     ce_retryAfter := if (status =? 429) || (status =? 529) then Some DEFAULT_RETRY_AFTER_SECONDS else None |}.

(** What may throw *)
Abbreviation fallible := (sum ChatError).
#[export] Instance fallible_ret : MRet fallible := λ A, inr.
#[export] Instance fallible_bind : MBind fallible := λ A B f m,
  match m with inl e => inl e | inr x => f x end.

Definition fail {A} (message : string) : fallible A := inl (upstreamFailure message).
(** [if (b) throw upstreamFailure(message)] *)
Definition refuse (b : bool) (message : string) : fallible unit := if b then fail message else mret tt.

(** * Chunks *)

Record ChatToolDelta := {
  td_index : nat;
  td_id : option string;
  td_type : bool;
  td_name : option string;
  td_arguments : option string }.

Record ChatDelta := {
  d_role : bool;
  d_content : option string;
  d_reasoning : option string;
  d_tool_calls : list ChatToolDelta }.

Record ChatUsage := {
  prompt_tokens : Z;
  completion_tokens : Z;
  total_tokens : Z;
  cached_tokens : option Z;
  cache_write_tokens : option Z }.

(** [reasons[reason]] also finds what every object inherits: a function, which JSON leaves
    out, or, as [__proto__], an object with nothing of its own. *)
Inductive finish := Finish (reason : string) | Inherited (name : string).

(** [id], [object] and [created] are the same in every chunk of a stream. *)
Record ChatChunk := {
  ch_model : string;
  ch_delta : ChatDelta;
  ch_finish : option finish;
  ch_usage : option ChatUsage }.

Definition no_delta : ChatDelta :=
  {| d_role := false; d_content := None; d_reasoning := None; d_tool_calls := [] |}.
Definition role_delta : ChatDelta :=
  {| d_role := true; d_content := None; d_reasoning := None; d_tool_calls := [] |}.
Definition content_delta (s : string) : ChatDelta :=
  {| d_role := false; d_content := Some s; d_reasoning := None; d_tool_calls := [] |}.
Definition reasoning_delta (s : string) : ChatDelta :=
  {| d_role := false; d_content := None; d_reasoning := Some s; d_tool_calls := [] |}.
Definition call_delta (i : nat) (id name : string) : ChatDelta :=
  {| d_role := false; d_content := None; d_reasoning := None;
     d_tool_calls := [{| td_index := i; td_id := Some id; td_type := true; td_name := Some name;
                         td_arguments := Some ""%string |}] |}.
Definition arguments_delta (i : nat) (s : string) : ChatDelta :=
  {| d_role := false; d_content := None; d_reasoning := None;
     d_tool_calls := [{| td_index := i; td_id := None; td_type := false; td_name := None;
                         td_arguments := Some s |}] |}.

Definition MAX_FRAME : Z := 1024 * 1024.
(** Of [handler.ts] *)
Definition BODY_LIMIT : Z := 16 * 1024 * 1024.
Definition MAX_BLOCKS : nat := 1024.

(** [Number.isSafeInteger(v) && v >= 0] *)
Definition count (v : value) : option Z := z ← safe_integer v; if 0 <=? z then Some z else None.

(** [v === t] *)
Definition is_string (v : value) (t : string) : bool :=
  match as_string v with Some s => String.eqb s t | None => false end.

(** * State *)

Record ChatIngressContext := {
  outgoingModel : option string;
  reportedModel : option string;
  usageObserved : option bool;
  structuredOutput : bool }.

Record cblock := {
  cb_kind : string;
  cb_tool : option nat;
  cb_args : string;
  cb_closed : bool;
  cb_initial : value }.

Record chat := {
  c_model : string;
  c_started : bool;
  c_stop : option finish;
  c_terminal : bool;
  c_input : option Z;
  c_output : option Z;
  c_cached : option Z;
  c_creation : option Z;
  c_blocks : jmap Z cblock;
  c_tools : nat }.

Definition chat_init : chat :=
  {| c_model := ""; c_started := false; c_stop := None; c_terminal := false; c_input := None; c_output := None;
     c_cached := None; c_creation := None; c_blocks := ∅; c_tools := 0 |}.

Definition set_blocks (bs : jmap Z cblock) (tools : nat) (s : chat) : chat :=
  {| c_model := c_model s; c_started := c_started s; c_stop := c_stop s; c_terminal := c_terminal s;
     c_input := c_input s; c_output := c_output s; c_cached := c_cached s; c_creation := c_creation s;
     c_blocks := bs; c_tools := tools |}.
Definition set_started (model : string) (s : chat) : chat :=
  {| c_model := model; c_started := true; c_stop := c_stop s; c_terminal := c_terminal s;
     c_input := c_input s; c_output := c_output s; c_cached := c_cached s; c_creation := c_creation s;
     c_blocks := c_blocks s; c_tools := c_tools s |}.
Definition set_stop (f : finish) (s : chat) : chat :=
  {| c_model := c_model s; c_started := c_started s; c_stop := Some f; c_terminal := c_terminal s;
     c_input := c_input s; c_output := c_output s; c_cached := c_cached s; c_creation := c_creation s;
     c_blocks := c_blocks s; c_tools := c_tools s |}.
Definition set_terminal (s : chat) : chat :=
  {| c_model := c_model s; c_started := c_started s; c_stop := c_stop s; c_terminal := true;
     c_input := c_input s; c_output := c_output s; c_cached := c_cached s; c_creation := c_creation s;
     c_blocks := c_blocks s; c_tools := c_tools s |}.

(** [if (count(x)) y = x] *)
Definition newer (v : value) (old : option Z) : option Z :=
  match count v with Some z => Some z | None => old end.

Definition read_usage (v : value) (s : chat) : chat :=
  {| c_model := c_model s; c_started := c_started s; c_stop := c_stop s; c_terminal := c_terminal s;
     c_input := newer (opt_prop v "input_tokens") (c_input s);
     c_output := newer (opt_prop v "output_tokens") (c_output s);
     c_cached := newer (opt_prop v "cache_read_input_tokens") (c_cached s);
     c_creation := newer (opt_prop v "cache_creation_input_tokens") (c_creation s);
     c_blocks := c_blocks s; c_tools := c_tools s |}.

Definition chunk (s : chat) (d : ChatDelta) : ChatChunk :=
  {| ch_model := c_model s; ch_delta := d; ch_finish := None; ch_usage := None |}.

(** A step: the new state and what is yielded; [None] is a keepalive. *)
Abbreviation step := (chat * list (option ChatChunk))%type.
Definition quiet (s : chat) : fallible step := mret (s, []).
Definition yield (s : chat) (d : ChatDelta) : fallible step := mret (s, [Some (chunk s d)]).
(** [typeof v === "string" && v ? [chunk(...)] : []] *)
Definition yield_initial (s : chat) (v : value) (d : string → ChatDelta) : fallible step :=
  match truthy_string (as_string v) with Some t => yield s (d t) | None => quiet s end.

Section stream.
Context (ctx : ChatIngressContext) (names : jmap string string).

(** * Events *)

(** The model of [message_start], when it says one *)
Definition start_model (v : value) : string :=
  match as_string v with
  | Some m => if String.eqb (trim m) "" || String.eqb m "unknown" then default ""%string (outgoingModel ctx) else m
  | None => default ""%string (outgoingModel ctx)
  end.

Definition message_start (e : json) (s : chat) : fallible step :=
  refuse (c_started s) "Duplicate upstream message_start";;
  let model := start_model (opt_prop (own "message" e) "model") in
  refuse (String.eqb model "") "Missing verified response model";;
  let s := read_usage (opt_prop (own "message" e) "usage") (set_started (default model (reportedModel ctx)) s) in
  yield s role_delta.

Definition put_block (i : Z) (kind : string) (tool : option nat) (initial : value) (s : chat) : chat :=
  set_blocks (<[i := {| cb_kind := kind; cb_tool := tool; cb_args := ""; cb_closed := false; cb_initial := initial |}]>
                (c_blocks s))
    (match tool with Some _ => S (c_tools s) | None => c_tools s end) s.

Definition content_block_start (e : json) (s : chat) : fallible step :=
  match count (own "index" e) with
  | None => fail "Invalid upstream content block index"
  | Some i =>
      refuse (bool_decide (is_Some (c_blocks s !! i)) || (MAX_BLOCKS <=? length (entries (c_blocks s)))%nat)
        "Invalid upstream content block index";;
      let b := own "content_block" e in
      let kind := from_option js_string "undefined"%string (opt_prop b "type") in
      let s' := put_block i kind None (opt_prop b "input") s in
      if String.eqb kind "text" then yield_initial s' (opt_prop b "text") content_delta
      else if String.eqb kind "thinking" then yield_initial s' (opt_prop b "thinking") reasoning_delta
      else if String.eqb kind "redacted_thinking" then quiet s'
      else
        match truthy_string (as_string (opt_prop b "id")), as_string (opt_prop b "name") ≫= (λ n, names !! n) with
        | Some id, Some name =>
            if String.eqb kind "tool_use"
            then yield (put_block i kind (Some (c_tools s)) (opt_prop b "input") s) (call_delta (c_tools s) id name)
            else fail "Unsupported upstream content or function"
        | _, _ => fail "Unsupported upstream content or function"
        end
  end.

(** An open block *)
Definition open_block (e : json) (s : chat) : option (Z * cblock) :=
  i ← count (own "index" e); b ← c_blocks s !! i; if cb_closed b then None else Some (i, b).

Definition with_args (args : string) (b : cblock) : cblock :=
  {| cb_kind := cb_kind b; cb_tool := cb_tool b; cb_args := args; cb_closed := cb_closed b; cb_initial := cb_initial b |}.
Definition close_block (b : cblock) : cblock :=
  {| cb_kind := cb_kind b; cb_tool := cb_tool b; cb_args := cb_args b; cb_closed := true; cb_initial := cb_initial b |}.
Definition change_block (i : Z) (b : cblock) (s : chat) : chat := set_blocks (<[i := b]> (c_blocks s)) (c_tools s) s.

Definition content_block_delta (e : json) (s : chat) : fallible step :=
  match open_block e s with
  | None => fail "Delta for missing or closed content block"
  | Some (i, b) =>
      let d := own "delta" e in
      let ty := is_string (opt_prop d "type") in
      match as_string (opt_prop d "text"), as_string (opt_prop d "thinking"), as_string (opt_prop d "partial_json"),
            cb_tool b with
      | text, thinking, json, tool =>
          if ty "text_delta"%string && String.eqb (cb_kind b) "text" && bool_decide (is_Some text)
          then yield s (content_delta (default ""%string text))
          else if ty "thinking_delta"%string && String.eqb (cb_kind b) "thinking" && bool_decide (is_Some thinking)
          then yield s (reasoning_delta (default ""%string thinking))
          else if ty "signature_delta"%string && String.eqb (cb_kind b) "thinking" then quiet s
          else if ty "input_json_delta"%string then
            match tool, json with
            | Some t, Some j =>
                refuse (MAX_FRAME <? units (cb_args b +:+ j)) "Tool arguments exceeded the size limit";;
                yield (change_block i (with_args (cb_args b +:+ j) b) s) (arguments_delta t j)
            | _, _ => fail "Unsupported upstream content delta"
            end
          else fail "Unsupported upstream content delta"
      end
  end.

Definition content_block_stop (e : json) (s : chat) : fallible step :=
  match open_block e s with
  | None => fail "Invalid content block stop"
  | Some (i, b) =>
      let b := close_block b in
      match cb_tool b with
      | Some t =>
          if String.eqb (cb_args b) "" then
            match cb_initial b with
            | Some (JObj m) =>
                let args := stringify (JObj m) in
                yield (change_block i (with_args args b) s) (arguments_delta t args)
            | _ => fail "Missing tool arguments"
            end
          else quiet (change_block i b s)
      | None => quiet (change_block i b s)
      end
  end.

Definition REASONS : list (string * string) :=
  [("end_turn", "stop"); ("stop_sequence", "stop"); ("max_tokens", "length");
   ("model_context_window_exceeded", "length"); ("tool_use", "tool_calls"); ("refusal", "content_filter")]%string.
(** What every object inherits *)
Definition INHERITED : list string :=
  ["constructor"; "__defineGetter__"; "__defineSetter__"; "hasOwnProperty"; "__lookupGetter__"; "__lookupSetter__";
   "isPrototypeOf"; "propertyIsEnumerable"; "toString"; "valueOf"; "__proto__"; "toLocaleString"]%string.
Definition lookup_reason (r : string) : option finish :=
  match alist_get r REASONS with
  | Some f => Some (Finish f)
  | None => if bool_decide (r ∈ INHERITED) then Some (Inherited r) else None
  end.

Definition message_delta (e : json) (s : chat) : fallible step :=
  let s := read_usage (own "usage" e) s in
  let reason := opt_prop (own "delta" e) "stop_reason" in
  if nullish reason then quiet s
  else match as_string reason ≫= lookup_reason with
       | Some f => quiet (set_stop f s)
       | None => fail "Unsupported upstream finish reason"
       end.

(** A JSON object *)
Definition parses_to_object (args : string) : bool :=
  match parse_string args with Some (JObj _) => true | _ => false end.
Definition checked (f : finish) : bool := match f with Finish "length" | Finish "content_filter" => false | _ => true end.

(** Usage in Messages is additive. *)
Definition final_usage (s : chat) : option ChatUsage :=
  match usageObserved ctx, c_input s, c_output s with
  | Some false, _, _ => None
  | _, Some input, Some output =>
      let prompt := input + default 0 (c_cached s) + default 0 (c_creation s) in
      Some {| prompt_tokens := prompt; completion_tokens := output; total_tokens := prompt + output;
              cached_tokens := c_cached s; cache_write_tokens := c_creation s |}
  | _, _, _ => None
  end.

Definition message_stop (s : chat) : fallible step :=
  match c_stop s with
  | None => fail "Upstream ended without a finish reason"
  | Some f =>
      let blocks := (entries (c_blocks s)).*2 in
      refuse (existsb (λ b, negb (cb_closed b)) blocks) "Upstream ended with an open content block";;
      refuse (match f with Finish "tool_calls" => (c_tools s =? 0)%nat | _ => false end) "Tool finish without tool calls";;
      refuse (checked f && existsb (λ b, bool_decide (is_Some (cb_tool b)) && negb (parses_to_object (cb_args b))) blocks)
        "Malformed upstream tool arguments";;
      mret (set_terminal s,
            [Some {| ch_model := c_model s; ch_delta := no_delta; ch_finish := Some f; ch_usage := final_usage s |}])
  end.

Definition handle_event (e : json) (type : value) (s : chat) : fallible step :=
  let ty := is_string type in
  if ty "error"%string || truthy (own "error" e) then inl (upstreamStreamError (own "error" e))
  else if ty "ping"%string then mret (s, [None])
  else if ty "message_start"%string then message_start e s
  else if negb (c_started s) then fail "Upstream content preceded message_start"
  else if ty "content_block_start"%string then content_block_start e s
  else if ty "content_block_delta"%string then content_block_delta e s
  else if ty "content_block_stop"%string then content_block_stop e s
  else if ty "message_delta"%string then message_delta e s
  else if ty "message_stop"%string then message_stop s
  else fail "Unsupported upstream SSE event".

(** * Frames *)

(** [\r?\n] *)
Definition eat_newline (t : text) : option text :=
  match t with
  | c :: r =>
      if is_code 10 c then Some r
      else if is_code 13 c then match r with c' :: r' => if is_code 10 c' then Some r' else None | [] => None end
      else None
  | [] => None
  end.

(** The frame before the first [\r?\n\r?\n], and what follows it *)
Fixpoint split_frame (t : text) : option (text * text) :=
  match eat_newline t ≫= eat_newline with
  | Some r => Some ([], r)
  | None => match t with [] => None | c :: t => '(f, r) ← split_frame t; Some (c :: f, r) end
  end.

(** [eventText.split(/\r?\n/)] *)
Fixpoint split_crlf (t : text) : list text :=
  match t with
  | [] => [[]]
  | c :: r =>
      let rest := split_crlf r in
      if is_code 10 c then [] :: rest
      else match rest with
           | l :: ls =>
               match l, ls, r with
               | [], _ :: _, n :: _ => if is_code 13 c && is_code 10 n then rest else (c :: l) :: ls
               | _, _, _ => (c :: l) :: ls
               end
           | [] => [[c]]
           end
  end.

Definition line_data (line : text) : option text :=
  r ← strip (to_text "data:") line; Some (match r with c :: r' => if is_code 32 c then r' else r | [] => r end).

Fixpoint join_lines (ls : list text) : text :=
  match ls with
  | [] => []
  | [l] => l
  | l :: ls => l ++ LF :: join_lines ls
  end.

Definition line_event (line : text) : option string :=
  r ← strip (to_text "event:") line; Some (trim (of_text r)).

Definition process (eventText : text) (s : chat) : fallible step :=
  if c_terminal s then quiet s else
  let lines := split_crlf eventText in
  match join_lines (omap line_data lines) with
  | [] => if existsb (λ l, bool_decide (is_Some (strip [chr 58] l))) lines then mret (s, [None]) else quiet s
  | data =>
      match parse data with
      | None => fail "Malformed upstream SSE event"
      | Some e =>
          handle_event e (coalesce (own "type" e) (JStr <$> head (omap line_event lines))) s
      end
  end.

(** * The stream *)

(** A read: what the decoder made of it, if it could; the end; an error of the reader, or of
    the decoder at the end *)
Inductive read := RData (decoded : option text) | REnd | RThrow.

(** How the generator ended: [Threw None] is an error that is not a [ChatError]. *)
Inductive outcome := Completed | Threw (e : option ChatError).

Record gen := {
  g_chat : chat;
  g_buffer : text;
  g_out : list (option ChatChunk);
  g_end : option outcome }.

Definition gen_init : gen := {| g_chat := chat_init; g_buffer := []; g_out := []; g_end := None |}.

Definition stop_with (o : outcome) (g : gen) : gen :=
  {| g_chat := g_chat g; g_buffer := g_buffer g; g_out := g_out g; g_end := Some o |}.
Definition throw_failure (message : string) : gen → gen := stop_with (Threw (Some (upstreamFailure message))).
Definition with_buffer (t : text) (g : gen) : gen :=
  {| g_chat := g_chat g; g_buffer := t; g_out := g_out g; g_end := g_end g |}.

(** One frame processed, its chunks yielded *)
Definition take_frame (frame : text) (rest : text) (g : gen) : gen :=
  match process frame (g_chat g) with
  | inl e => stop_with (Threw (Some e)) (with_buffer rest g)
  | inr (s, out) =>
      {| g_chat := s; g_buffer := rest; g_out := g_out g ++ out;
         g_end := if c_terminal s then Some Completed else None |}
  end.

(** The loop over the frames of the buffer; [n] bounds their number, and the buffer's length
    bounds that. *)
Fixpoint drain (n : nat) (g : gen) : gen :=
  match g_end g, n, split_frame (g_buffer g) with
  | None, S n, Some (frame, rest) =>
      if MAX_FRAME <? units (of_text frame) then throw_failure "Upstream SSE frame exceeded the size limit" g
      else drain n (take_frame frame rest g)
  | None, _, _ =>
      if MAX_FRAME <? units (of_text (g_buffer g)) then throw_failure "Upstream SSE frame exceeded the size limit" g else g
  | Some _, _, _ => g
  end.

Definition on_read (r : read) (g : gen) : gen :=
  match g_end g with
  | Some _ => g
  | None =>
      match r with
      | RData (Some t) => let g := with_buffer (g_buffer g ++ t) g in drain (S (length (g_buffer g))) g
      | RData None | RThrow => stop_with (Threw None) g
      | REnd => throw_failure "Upstream ended without a terminal message_stop" g
      end
  end.

Definition chatChunks (reads : list read) : gen := foldl (λ g r, on_read r g) gen_init reads.

(** * The whole answer *)

Record call := { cl_id : option string; cl_type : bool; cl_name : option string; cl_arguments : option string }.
Definition call_init : call := {| cl_id := None; cl_type := false; cl_name := None; cl_arguments := None |}.

Record collected := {
  k_content : string;
  k_reasoning : string;
  k_calls : list (option call);
  k_final : option ChatChunk;
  k_usage : option ChatUsage }.

Definition collected_init : collected :=
  {| k_content := ""; k_reasoning := ""; k_calls := []; k_final := None; k_usage := None |}.

(** [if (x) y = x] *)
Definition prefer_truthy (x y : option string) : option string :=
  match truthy_string x with Some _ => x | None => y end.

Definition merge_call (d : ChatToolDelta) (c : call) : call :=
  {| cl_id := prefer_truthy (td_id d) (cl_id c); cl_type := td_type d || cl_type c;
     cl_name := prefer_truthy (td_name d) (cl_name c);
     cl_arguments := match td_arguments d with
                     | Some a => Some (default ""%string (cl_arguments c) +:+ a)
                     | None => cl_arguments c
                     end |}.

(** An array assigned at an index past its end grows. *)
Definition assign {A} (i : nat) (x : A) (l : list (option A)) : list (option A) :=
  if (i <? length l)%nat then <[i := Some x]> l else l ++ replicate (i - length l) None ++ [Some x].

Definition collect_call (l : list (option call)) (d : ChatToolDelta) : list (option call) :=
  assign (td_index d) (merge_call d (default call_init (mjoin (l !! td_index d)))) l.

Definition collect (k : collected) (c : option ChatChunk) : collected :=
  match c with
  | None => k
  | Some c =>
      let d := ch_delta c in
      {| k_content := k_content k +:+ default ""%string (d_content d);
         k_reasoning := k_reasoning k +:+ default ""%string (d_reasoning d);
         k_calls := foldl collect_call (k_calls k) (d_tool_calls d);
         k_final := Some c;
         k_usage := match ch_usage c with Some u => Some u | None => k_usage k end |}
  end.

Record completion := {
  cm_model : string;
  cm_content : option string;
  cm_reasoning : option string;
  cm_calls : list (option call);
  cm_finish : finish;
  cm_usage : option ChatUsage }.

(** What [jsonResponse] makes of the chunks it has collected *)
Definition completion_of (k : collected) : fallible completion :=
  match k_final k with
  | Some f =>
      match ch_finish f with
      | Some r =>
          let content := if structuredOutput ctx && match r with Finish "content_filter" => true | _ => false end
                         then ""%string else k_content k in
          mret {| cm_model := default (ch_model f) (reportedModel ctx);
                  cm_content := if String.eqb content "" && negb (bool_decide (k_calls k = [])) then None else Some content;
                  cm_reasoning := truthy_string (Some (k_reasoning k)); cm_calls := k_calls k; cm_finish := r;
                  cm_usage := k_usage k |}
      | None => fail "Missing terminal completion"
      end
  | None => fail "Missing terminal completion"
  end.

(** The answer of a stream whose chunks are all within the limit. [None]: the upstream has not
    ended yet. [inl None]: an error of another kind *)
Definition gather (reads : list read) : option (option ChatError + completion) :=
  let g := chatChunks reads in
  match g_end g with
  | None => None
  | Some (Threw e) => Some (inl e)
  | Some Completed =>
      Some match completion_of (foldl collect collected_init (g_out g)) with
           | inl e => inl (Some e)
           | inr c => inr c
           end
  end.

(** * The streamed answer *)

Definition finish_json (f : option finish) : value :=
  match f with
  | Some (Finish r) => Some (JStr r)
  | Some (Inherited name) => if String.eqb name "__proto__" then Some (JObj []) else None
  | None => Some JNull
  end.

Definition tool_json (d : ChatToolDelta) : json :=
  obj [("index", Some (JInt (Z.of_nat (td_index d)))); ("id", JStr <$> td_id d);
       ("type", if td_type d then Some (JStr "function") else None);
       ("function", Some (obj [("name", JStr <$> td_name d); ("arguments", JStr <$> td_arguments d)]))]%string.

Definition delta_json (d : ChatDelta) : json :=
  obj [("role", if d_role d then Some (JStr "assistant") else None); ("content", JStr <$> d_content d);
       ("reasoning_content", JStr <$> d_reasoning d);
       ("tool_calls", match d_tool_calls d with [] => None | l => Some (JArr (map tool_json l)) end)]%string.

Definition usage_json (u : ChatUsage) : json :=
  obj [("prompt_tokens", Some (JInt (prompt_tokens u))); ("completion_tokens", Some (JInt (completion_tokens u)));
       ("total_tokens", Some (JInt (total_tokens u)));
       ("prompt_tokens_details",
         match cached_tokens u, cache_write_tokens u with
         | None, None => None
         | a, b => Some (obj [("cached_tokens", JInt <$> a); ("cache_write_tokens", JInt <$> b)])
         end)]%string.

Section response.
Context (id : string) (created : Z) (includeUsage : bool).

Definition chunk_json (choices : list json) (c : ChatChunk) (usage : value) : json :=
  obj [("id", Some (JStr id)); ("object", Some (JStr "chat.completion.chunk")); ("created", Some (JInt created));
       ("model", Some (JStr (ch_model c))); ("choices", Some (JArr choices)); ("usage", usage)]%string.

Definition choice_json (c : ChatChunk) : json :=
  obj [("index", Some (JInt 0)); ("delta", Some (delta_json (ch_delta c))); ("finish_reason", finish_json (ch_finish c))]%string.

(** ** The limit of a whole answer *)

(** The chunks a whole answer is made of exceed the limit at one of them. *)
Fixpoint over_limit (size : Z) (out : list (option ChatChunk)) : bool :=
  match out with
  | [] => false
  | None :: out => over_limit size out
  | Some c :: out =>
      let size := size + units (stringify (chunk_json [choice_json c] c (usage_json <$> ch_usage c))) in
      (BODY_LIMIT <? size) || over_limit size out
  end.

Definition completion_too_large : ChatError := upstreamFailure "Non-stream completion exceeds the size limit".

(** [jsonResponse]: the stream is read until it ends or its chunks exceed the limit. *)
Definition jsonResponse (reads : list read) : option (option ChatError + completion) :=
  if over_limit 0 (g_out (chatChunks reads)) then Some (inl (Some completion_too_large)) else gather reads.

(** ** Lines *)

Definition data_line (t : text) : text := to_text "data: " ++ t ++ [LF; LF].

Definition send (c : option ChatChunk) : list text :=
  match c with
  | None => [to_text ": keepalive" ++ [LF; LF]]
  | Some c =>
      data_line (print (chunk_json [choice_json c] c (if includeUsage then Some JNull else None)))
      :: match ch_finish c with
         | Some _ =>
             (if includeUsage
              then [data_line (print (chunk_json [] c (Some (from_option usage_json JNull (ch_usage c)))))] else [])
             ++ [data_line (to_text "[DONE]")]
         | None => []
         end
  end.

Definition errorEnvelope (message type code : string) (param : option string) : json :=
  obj [("error", Some (obj [("message", Some (JStr message)); ("type", Some (JStr type));
                            ("param", Some (from_option JStr JNull param)); ("code", Some (JStr code))]))]%string.

Definition send_error (e : option ChatError) : text :=
  data_line (print match e with
                   | Some e => errorEnvelope (ce_message e) (default "api_error"%string (ce_type e)) (ce_code e) None
                   | None => errorEnvelope "Upstream stream failed" "api_error" "invalid_upstream_response" None
                   end).

(** [streamResponse]: what the client is sent, as long as it does not go away *)
Definition streamResponse (reads : list read) : list text :=
  let g := chatChunks reads in
  (g_out g ≫= send) ++ match g_end g with Some (Threw e) => [send_error e] | _ => [] end.
End response.
End stream.
