(* ===== verification/ChatRelay.v ===== *)
(** A Messages stream relayed to the chat client, event by event

    [relays]: what [ChatStream] knows and has sent after some events is what the protocol of
    [Messages] says they mean. Every event of the protocol keeps it ([relay_step]). *)

From Stdlib Require Import QArith_base.
From S2P Require Import Prelude.
From S2P Require Import Rationals.
From S2P Require Import Json.
From S2P Require Import Messages.
From S2P Require Import OpenAiFormats.
From S2P Require Import ChatStream.
Open Scope Z_scope.

(** * Strings *)

Lemma units_cons c s : units (String c s) = units (String c EmptyString) + units s.
Proof. cbn. lia. Qed.

Lemma units_app s t : units (s +:+ t) = units s + units t.
Proof.
  induction s as [|c s IH]; [done|]. change (String c s +:+ t) with (String c (s +:+ t)).
  rewrite (units_cons c (s +:+ t)), (units_cons c s). lia.
Qed.

Lemma units_nonneg s : 0 <= units s.
Proof.
  induction s as [|c s IH]; [done|]. cbn [units].
  destruct (code c <? 128)%nat, (code c <? 192)%nat, (code c <? 240)%nat; lia.
Qed.

(** * The protocol *)

(** The deltas of a kind, put together in the order of their arrival *)
Fixpoint said (d : delta_kind) (es : list mevent) : string :=
  match es with
  | [] => ""
  | MBlockDelta _ d' s :: es =>
      match d, d' with
      | TextDelta, TextDelta | ThinkingDelta, ThinkingDelta | InputJsonDelta, InputJsonDelta => s +:+ said d es
      | _, _ => said d es
      end
  | _ :: es => said d es
  end.

Lemma said_app d es es' : said d (es ++ es') = said d es +:+ said d es'.
Proof.
  induction es as [|e es IH]; cbn; [done|]. destruct e; try done. destruct d, d0; rewrite IH; try done;
    by rewrite string_app_assoc.
Qed.

(** A block of a longer run: the same kind, more text, and nothing more once it is closed *)
Definition extends (b b' : bstate) : Prop :=
  b_kind b' = b_kind b ∧ (∃ s, b_text b' = b_text b +:+ s) ∧ (b_open b = false → b' = b).

#[export] Instance extends_preorder : PreOrder extends.
Proof.
  split.
  - intros b. split_and!; [done| |done]. exists ""%string. by rewrite string_app_nil_r.
  - intros a b c (Hk & [s Hs] & Ho) (Hk' & [s' Hs'] & Ho'). split_and!; [congruence| |].
    + exists (s +:+ s'). by rewrite Hs', Hs, string_app_assoc.
    + intros Ha. specialize (Ho Ha). subst b. by apply Ho'.
Qed.

Definition grows (p p' : proto) : Prop :=
  ∀ i b, p_blocks p !! i = Some b → ∃ b', p_blocks p' !! i = Some b' ∧ extends b b'.

#[export] Instance grows_preorder : PreOrder grows.
Proof.
  split; [intros p i b Hb; by exists b|]. intros p q r Hpq Hqr i b Hb.
  destruct (Hpq i b Hb) as (b' & Hb' & He). destruct (Hqr i b' Hb') as (b'' & Hb'' & He').
  exists b''. split; [done|]. by transitivity b'.
Qed.

Lemma grows_alter f i p :
  (∀ b, p_blocks p !! i = Some b → extends b (f b)) → grows p (Messages.set_blocks (alter f i (p_blocks p)) p).
Proof.
  intros Hf j b Hb. cbn. destruct (decide (i = j)) as [->|].
  - exists (f b). rewrite list_lookup_alter_eq, Hb. auto.
  - exists b. by rewrite list_lookup_alter_ne.
Qed.

Lemma p_step_grows p e p' : p_step p e = Some p' → p_started p = true → grows p p'.
Proof.
  intros H Hs. destruct e as [m| |i b|i d s|i|r u| | |]; cbn in H; rewrite ?Hs in H; try done;
    try (cbn in H; destruct (p_ended p); [done|]); try by simplify_eq.
  - destruct (i =? _); [|done]. simplify_eq. intros j b' Hb'. exists b'. cbn. by rewrite lookup_app_l by eauto using lookup_lt_Some.
  - unfold block_at in H. destruct (0 <=? i); [|done]. destruct (p_blocks p !! _) as [b|] eqn:E; [|done]. cbn in H.
    destruct (b_open b) eqn:Eo; [|done]. destruct (fits _ _); [|done]. cbn in H. injection H as <-. apply grows_alter.
    intros b' Hb'. rewrite E in Hb'. injection Hb' as <-. split_and!; [done|by exists s|congruence].
  - unfold block_at in H. destruct (0 <=? i); [|done]. destruct (p_blocks p !! _) as [b|] eqn:E; [|done]. cbn in H.
    destruct (b_open b) eqn:Eo; [|done]. injection H as <-. apply grows_alter.
    intros b' Hb'. rewrite E in Hb'. injection Hb' as <-. split_and!; [done| |congruence]. exists ""%string. by rewrite string_app_nil_r.
  - destruct (forallb _ _); [|done]. injection H as <-. by intros j b Hb; exists b.
  - destruct (_ && _); [|done]. injection H as <-. by intros j b Hb; exists b.
Qed.

Lemma p_step_started p e p' : p_step p e = Some p' → p_started p = true → p_started p' = true.
Proof.
  intros H Hs. destruct e as [m| |i b|i d s|i|r u| | |]; cbn in H; rewrite ?Hs in H; try done;
    try (cbn in H; destruct (p_ended p); [done|]); try by simplify_eq.
  - destruct (i =? _); by simplify_eq.
  - destruct (block_at _ _); [|done]. cbn in H. destruct (_ && _); by simplify_eq.
  - destruct (block_at _ _); [|done]. cbn in H. destruct (b_open _); by simplify_eq.
  - destruct (forallb _ _); by simplify_eq.
  - destruct (_ && _); by simplify_eq.
Qed.

(** Nothing precedes [message_start] but pings. *)
Lemma p_step_unstarted p e p' :
  p_step p e = Some p' → p_started p = false → p' = p ∨ p' = {| p_started := true; p_blocks := []; p_stop := None; p_usage := None; p_ended := false |}.
Proof. intros H Hs. destruct e; cbn in H; rewrite ?Hs in H; try done; simplify_eq; auto. Qed.

Definition sane (p : proto) : Prop := p_started p = false → p = p_init.

Lemma p_step_sane p e p' : p_step p e = Some p' → sane p → sane p' ∧ grows p p'.
Proof.
  intros H Hp. destruct (p_started p) eqn:Es.
  - split; [|by eapply p_step_grows]. intros Hf. by rewrite (p_step_started _ _ _ H Es) in Hf.
  - specialize (Hp Es). destruct (p_step_unstarted _ _ _ H Es) as [->| ->]; [by split; [intros _|reflexivity]|]. split; [done|].
    rewrite Hp. by intros i b [=].
Qed.

Lemma p_run_sane p es p' : p_run p es = Some p' → sane p → sane p' ∧ grows p p'.
Proof.
  revert p. induction es as [|e es IH]; intros p; cbn; [by intros [= ->]; split; [|reflexivity]|].
  destruct (p_step p e) as [q|] eqn:E; [|done]. cbn. intros H Hp.
  destruct (p_step_sane _ _ _ E Hp) as [Hq Hg]. destruct (IH q H Hq) as [Hp' Hg'].
  split; [done|]. by transitivity q.
Qed.

(** After its end a message is followed by pings only. *)
Lemma p_run_ended p es p' : p_run p es = Some p' → p_started p = true → p_ended p = true → p' = p ∧ ∀ d, said d es = "".
Proof.
  revert p. induction es as [|e es IH]; intros p; cbn; [by intros [= ->]|].
  destruct (p_step p e) as [q|] eqn:E; [|done]. cbn. intros H Hs He.
  destruct e; cbn in E; rewrite ?Hs, ?He in E; try done. simplify_eq. by apply IH.
Qed.

(** * Lists of tool calls among blocks *)

Section rank.
Context {A B : Type} (f : A → option B).

(** How many elements before [i] give a result *)
Definition rank (l : list A) (i : nat) : nat := length (omap f (take i l)).

Lemma omap_lookup_rank l i x y : l !! i = Some x → f x = Some y → omap f l !! rank l i = Some y.
Proof.
  revert i. induction l as [|z l IH]; intros [|i]; cbn; intros Hx Hy; simplify_eq; [by rewrite Hy|].
  unfold rank. cbn. destruct (f z); cbn; by apply IH.
Qed.

Lemma omap_insert_rank l i x x' y' :
  l !! i = Some x → is_Some (f x) → f x' = Some y' → omap f (<[i := x']> l) = <[rank l i := y']> (omap f l).
Proof.
  revert i. induction l as [|z l IH]; intros [|i]; cbn; intros Hx [y Hy] Hy'; simplify_eq; [by rewrite Hy, Hy'|].
  unfold rank. cbn. destruct (f z); cbn; [f_equal|]; apply IH; by eauto.
Qed.

Lemma omap_insert_none (l : list A) (i : nat) x x' : l !! i = Some x → f x = None → f x' = None → omap f (<[i := x']> l) = omap f l.
Proof.
  revert i. induction l as [|z l IH]; intros [|i]; cbn; intros Hx Hy Hy'; simplify_eq; [by rewrite Hy, Hy'|].
  destruct (f z); [f_equal|]; by eapply IH.
Qed.

Lemma rank_insert l i j x x' :
  l !! i = Some x → (is_Some (f x) ↔ is_Some (f x')) → rank (<[i := x']> l) j = rank l j.
Proof.
  revert i j. induction l as [|z l IH]; intros [|i] [|j]; cbn; intros Hx Hf; simplify_eq; try done; unfold rank; cbn.
  - destruct (f x) eqn:E, (f x') eqn:E'; cbn; try done; destruct Hf as [H1 H2];
      [by destruct (H1 (ex_intro _ _ eq_refl))|by destruct (H2 (ex_intro _ _ eq_refl))].
  - destruct (f z); cbn; [f_equal|]; by eapply IH.
Qed.

Lemma rank_app l l' j : (j <= length l)%nat → rank (l ++ l') j = rank l j.
Proof. intros Hj. unfold rank. by rewrite take_app_le. Qed.

Lemma rank_lt l i x y : l !! i = Some x → f x = Some y → (rank l i < length (omap f l))%nat.
Proof. intros. eapply lookup_lt_Some, omap_lookup_rank; done. Qed.
End rank.

Lemma alter_insert {A} (f : A → A) (i : nat) (l : list A) x : l !! i = Some x → alter f i l = <[i := f x]> l.
Proof.
  revert i. induction l as [|y l IH]; intros [|i]; cbn; intros; simplify_eq; [done|]. f_equal. by apply IH.
Qed.

Lemma assign_end {A} (x : A) l : assign (length l) x l = l ++ [Some x].
Proof. unfold assign. by rewrite Nat.ltb_irrefl, Nat.sub_diag. Qed.

Lemma assign_in {A} i (x : A) l : (i < length l)%nat → assign i x l = <[i := Some x]> l.
Proof. intros H. unfold assign. by rewrite (proj2 (Nat.ltb_lt _ _)). Qed.

(** * A message relayed *)

Section relay.
Context (ctx : ChatIngressContext) (names : jmap string string).

Definition kind_name (b : block) : string :=
  match b with TextBlock => "text" | ThinkingBlock => "thinking" | ToolBlock _ _ => "tool_use" end.
Definition final_args (args : string) : string := if String.eqb args "" then "{}" else args.
Definition args_of (b : bstate) : string := if b_open b then b_text b else final_args (b_text b).

(** The tool calls of a message, as the client knows them *)
Definition call_of (b : bstate) : option call :=
  match b_kind b with
  | ToolBlock id name =>
      Some {| cl_id := Some id; cl_type := true; cl_name := names !! name; cl_arguments := Some (args_of b) |}
  | _ => None
  end.
Definition calls_of (bs : list bstate) : list call := omap call_of bs.
#[local] Arguments calls_of : simpl never.

Record stands_for (bs : list bstate) (i : nat) (b : bstate) (cb : cblock) : Prop := {
  sf_kind : cb_kind cb = kind_name (b_kind b);
  sf_closed : cb_closed cb = negb (b_open b);
  sf_tool : cb_tool cb = match b_kind b with ToolBlock _ _ => Some (rank call_of bs i) | _ => None end;
  sf_args : match b_kind b with
            | ToolBlock _ _ => cb_args cb = args_of b ∧ cb_initial cb = Some (JObj [])
            | _ => True
            end }.

Record mirrors (bs : list bstate) (m : jmap Z cblock) (tools : nat) : Prop := {
  mr_wf : jwf m;
  mr_size : length (entries m) = length bs;
  mr_blocks : ∀ i b, bs !! i = Some b → ∃ cb, m !! Z.of_nat i = Some cb ∧ stands_for bs i b cb;
  mr_keys : ∀ z cb, m !! z = Some cb → ∃ i b, z = Z.of_nat i ∧ bs !! i = Some b;
  mr_tools : tools = length (calls_of bs) }.

Record relays (es : list mevent) (p : proto) (s : chat) (k : collected) : Prop := {
  rl_started : c_started s = p_started p;
  rl_stop : c_stop s = p_stop p ≫= lookup_reason;
  rl_terminal : c_terminal s = p_ended p;
  rl_mirrors : mirrors (p_blocks p) (c_blocks s) (c_tools s);
  rl_calls : k_calls k = Some <$> calls_of (p_blocks p);
  rl_content : k_content k = said TextDelta es;
  rl_reasoning : k_reasoning k = said ThinkingDelta es;
  rl_final : p_ended p = true → ∃ c, k_final k = Some c ∧ ch_finish c = c_stop s }.

Lemma stands_for_insert bs i b j b0 b' cb :
  bs !! i = Some b0 → b_kind b' = b_kind b0 → stands_for bs j b cb → stands_for (<[i := b']> bs) j b cb.
Proof.
  intros Hi Hk [Hkind Hc Ht Ha]. split; try done. rewrite Ht. destruct (b_kind b); [done..|]. f_equal. symmetry.
  eapply rank_insert; [done|]. unfold call_of. rewrite Hk. by destruct (b_kind b0).
Qed.

Lemma length_alist_set_fresh {V} (k : Z) (v : V) l : alist_get k l = None → length (alist_set k v l) = S (length l).
Proof. induction l as [|[k' v'] l IH]; cbn; [done|]. case_decide; cbn; [done|]. intros. by rewrite IH. Qed.

Lemma length_alist_set_in {V} (k : Z) (v v0 : V) l : alist_get k l = Some v0 → length (alist_set k v l) = length l.
Proof. induction l as [|[k' v'] l IH]; cbn; [done|]. case_decide; cbn; [done|]. intros. by rewrite IH. Qed.

Lemma mirrors_fresh bs m n : mirrors bs m n → m !! Z.of_nat (length bs) = None.
Proof.
  intros Hm. destruct (m !! Z.of_nat (length bs)) as [cb|] eqn:E; [|done].
  apply (mr_keys _ _ _ Hm) in E as (i & b & Hi & Hb). apply Nat2Z.inj in Hi. subst i. apply lookup_lt_Some in Hb. lia.
Qed.

Lemma mirrors_push bs m n b cb n' :
  mirrors bs m n → stands_for bs (length bs) b cb → n' = length (calls_of (bs ++ [b])) →
  mirrors (bs ++ [b]) (<[Z.of_nat (length bs) := cb]> m) n'.
Proof.
  intros Hm Hsf Hn. pose proof (mirrors_fresh _ _ _ Hm) as Hfresh. destruct Hm as [Hwf Hs Hb Hk Ht].
  assert (∀ j b' cb', (j <= length bs)%nat → stands_for bs j b' cb' → stands_for (bs ++ [b]) j b' cb') as Happ.
  { intros j b' cb' Hj [? ? Htool ?]. split; try done. rewrite Htool. destruct (b_kind b'); try done. by rewrite rank_app. }
  split; [by apply jwf_insert| | | |done].
  - change (length (alist_set (Z.of_nat (length bs)) cb (entries m)) = length (bs ++ [b])).
    rewrite length_alist_set_fresh by done. rewrite Hs, length_app. cbn. lia.
  - intros j b' [Hj|[Hj Hb']]%lookup_app_Some.
    + destruct (Hb _ _ Hj) as (cb' & Hcb' & Hsf'). exists cb'. apply lookup_lt_Some in Hj.
      split; [rewrite jlookup_insert_ne by lia; done|]. apply Happ; [lia|done].
    + apply list_lookup_singleton_Some in Hb' as [Hj0 <-]. assert (j = length bs) as -> by lia.
      exists cb. rewrite jlookup_insert_eq. split; [done|]. by apply Happ.
  - intros z cb'. destruct (decide (z = Z.of_nat (length bs))) as [->|Hz].
    + intros _. exists (length bs), b. split; [done|]. by rewrite lookup_app_r, Nat.sub_diag by lia.
    + rewrite jlookup_insert_ne by done. intros (i & b' & -> & Hb')%Hk. exists i, b'. split; [done|].
      by rewrite lookup_app_l by eauto using lookup_lt_Some.
Qed.

(** A block changes on both sides. *)
Lemma mirrors_put bs m n i b b' cb' :
  mirrors bs m n → bs !! i = Some b → b_kind b' = b_kind b → stands_for bs i b' cb' →
  mirrors (<[i := b']> bs) (<[Z.of_nat i := cb']> m) n.
Proof.
  intros [Hwf Hs Hb Hk Ht] Hi Hkind Hsf. destruct (Hb i b Hi) as (cb & Hcb & _).
  split; [by apply jwf_insert| | | |].
  - change (length (alist_set (Z.of_nat i) cb' (entries m)) = length (<[i := b']> bs)).
    by rewrite (length_alist_set_in _ _ cb), length_insert by done.
  - intros j b'' Hj. destruct (decide (i = j)) as [<-|Hne].
    + rewrite list_lookup_insert_eq in Hj by eauto using lookup_lt_Some. simplify_eq. exists cb'.
      rewrite jlookup_insert_eq. split; [done|]. by eapply stands_for_insert.
    + rewrite list_lookup_insert_ne in Hj by done. destruct (Hb j b'' Hj) as (cb'' & Hcb'' & Hsf'').
      exists cb''. rewrite jlookup_insert_ne by lia. split; [done|]. by eapply stands_for_insert.
  - intros z cb''. destruct (decide (z = Z.of_nat i)) as [->|Hz].
    + intros _. exists i, b'. split; [done|]. rewrite list_lookup_insert_eq; eauto using lookup_lt_Some.
    + rewrite jlookup_insert_ne by done. intros (j & b'' & -> & Hj)%Hk. exists j, b''. split; [done|].
      rewrite list_lookup_insert_ne; [done|]. lia.
  - rewrite Ht. unfold calls_of. destruct (call_of b) as [c|] eqn:Ec.
    + assert (∃ c', call_of b' = Some c') as [c' Ec'].
      { revert Ec. unfold call_of. rewrite Hkind. destruct (b_kind b); [done..|]. eauto. }
      by rewrite (omap_insert_rank _ _ _ _ _ c' Hi), length_insert by eauto.
    + rewrite (omap_insert_none _ _ _ b); [done..|]. revert Ec. unfold call_of. rewrite Hkind. by destruct (b_kind b).
Qed.

Lemma relays_init : relays [] p_init chat_init collected_init.
Proof. split; try done. split; try done. apply NoDup_nil_2. Qed.

(** What of a message the client can be given *)
Record deliverable (p : proto) : Prop := {
  dl_size : (length (p_blocks p) ≤ MAX_BLOCKS)%nat;
  dl_tools : ∀ i b id name, p_blocks p !! i = Some b → b_kind b = ToolBlock id name →
    id ≠ ""%string ∧ (∃ decoded, names !! name = Some decoded ∧ decoded ≠ ""%string) ∧ units (b_text b) <= MAX_FRAME }.

Lemma deliverable_grows p p' : grows p p' → deliverable p' → deliverable p.
Proof.
  intros Hg [Hs Ht]. split.
  - destruct (decide (length (p_blocks p) ≤ length (p_blocks p')))%nat as [|Hlt]; [lia|].
    destruct (lookup_lt_is_Some_2 (p_blocks p) (length (p_blocks p'))) as [b Hb]; [lia|].
    destruct (Hg _ _ Hb) as (b' & Hb' & _). apply lookup_lt_Some in Hb'. lia.
  - intros i b id name Hb Hk. destruct (Hg _ _ Hb) as (b' & Hb' & Hkind & [s Hs'] & _).
    destruct (Ht i b' id name Hb') as (? & ? & Hu); [congruence|]. split_and!; [done..|].
    rewrite Hs', units_app in Hu. pose proof (units_nonneg s). lia.
Qed.

Definition deliverable_event (e : mevent) : Prop :=
  match e with
  | MMessageStart v => start_model ctx v ≠ ""%string
  | MMessageDelta r _ => is_Some (lookup_reason r)
  | _ => True
  end.

(** How a message may end *)
Definition finishes (p : proto) : Prop :=
  ∃ r f, p_stop p = Some r ∧ lookup_reason r = Some f ∧
    (f = Finish "tool_calls" → calls_of (p_blocks p) ≠ []) ∧
    (checked f = true → ∀ i b id name, p_blocks p !! i = Some b → b_kind b = ToolBlock id name →
       parses_to_object (final_args (b_text b)) = true).

(** ** The events of the protocol *)

Definition type_name (m : mevent) : string :=
  match m with
  | MMessageStart _ => "message_start" | MPing => "ping" | MBlockStart _ _ => "content_block_start"
  | MBlockDelta _ _ _ => "content_block_delta" | MBlockStop _ => "content_block_stop"
  | MMessageDelta _ _ => "message_delta" | MMessageStop => "message_stop" | _ => "error"
  end.

Definition details (m : mevent) (e : json) : Prop :=
  match m with
  | MMessageStart v => v = opt_prop (own "message" e) "model"
  | MBlockStart i b => index_of e = Some i ∧ view_block (own "content_block" e) = Some b
  | MBlockDelta i d s => index_of e = Some i ∧ view_delta (own "delta" e) = Some (d, s)
  | MBlockStop i => index_of e = Some i
  | MMessageDelta r u => as_string (opt_prop (own "delta" e) "stop_reason") = Some r
  | _ => True
  end.

Lemma as_string_Some v s : as_string v = Some s → v = Some (JStr s).
Proof. destruct v as [[]|]; cbn; congruence. Qed.

Lemma view_inv e m :
  view_data e = Some m → m ≠ MError →
  own "type" e = Some (JStr (type_name m)) ∧ truthy (own "error" e) = false ∧ details m e.
Proof.
  unfold view_data. destruct (as_string (own "type" e)) as [t|] eqn:Et; [|done]. apply as_string_Some in Et.
  rewrite Et. cbn [mbind option_bind]. destruct (truthy (own "error" e)); [congruence|].
  repeat (match goal with |- context [String.eqb t ?x] => destruct (String.eqb_spec t x) as [->|_] end;
    [intros H Hm; repeat (apply bind_Some in H as (? & ? & H));
     repeat match goal with x : (_ * _)%type |- _ => destruct x end; simplify_eq; done|]).
  done.
Qed.

(** ** Each event is relayed *)

Lemma alist_set_same {V} (k : Z) (v : V) l : alist_get k l = Some v → alist_set k v l = l.
Proof.
  induction l as [|[k' v'] l IH]; cbn; [done|]. case_decide; intros; [by simplify_eq|]. by rewrite IH.
Qed.

Lemma jinsert_same (m : jmap Z cblock) k v : m !! k = Some v → <[k := v]> m = m.
Proof. intros H. destruct m as [l]. change (JMap (alist_set k v l) = JMap l). by rewrite alist_set_same. Qed.

Lemma count_index e i : index_of e = Some i → 0 <= i <= MAX_SAFE_INTEGER → count (own "index" e) = Some i.
Proof.
  unfold index_of, count, safe_integer. destruct (as_number (own "index" e)) as [q|]; [|done]. cbn [mbind option_bind].
  intros -> Hi. cbn [mbind option_bind]. replace (Z.abs i <=? MAX_SAFE_INTEGER) with true by lia.
  cbn [mbind option_bind]. by replace (0 <=? i) with true by lia.
Qed.

Lemma said_snoc_other d es m : (∀ i d' s, m ≠ MBlockDelta i d' s) → said d (es ++ [m]) = said d es.
Proof. intros Hm. rewrite said_app. destruct m; try apply string_app_nil_r. by destruct (Hm i d0 s). Qed.

Abbreviation relayed es p s k e m :=
  (∃ s' out, handle_event ctx names e (own "type" e) s = inr (s', out) ∧ relays (es ++ [m]) p s' (foldl collect k out)).

Lemma relay_ping es p s k e :
  relays es p s k → own "type" e = Some (JStr "ping") → truthy (own "error" e) = false → relayed es p s k e MPing.
Proof.
  intros Hr Ht He. exists s, [None]. unfold handle_event. rewrite Ht, He. split; [done|].
  cbn. destruct Hr. split; try done; by rewrite said_snoc_other.
Qed.

Lemma relay_start es s k e v :
  relays es p_init s k → own "type" e = Some (JStr "message_start") → truthy (own "error" e) = false →
  v = opt_prop (own "message" e) "model" → start_model ctx v ≠ ""%string →
  relayed es {| p_started := true; p_blocks := []; p_stop := None; p_usage := None; p_ended := false |} s k e (MMessageStart v).
Proof.
  intros [] Ht He -> Hm. unfold handle_event. rewrite Ht, He. cbn [orb is_string as_string].
  change (String.eqb "message_start" _) with false at 1 2. change (String.eqb "message_start" "message_start") with true.
  cbn [orb]. unfold message_start. rewrite rl_started0. cbn.
  rewrite (proj2 (String.eqb_neq _ _) Hm). cbn. eexists _, _. split; [done|].
  split; cbn; try done; rewrite ?said_snoc_other; cbn; rewrite ?string_app_nil_r; by try done.
Qed.

Lemma started_event e m s :
  own "type" e = Some (JStr (type_name m)) → truthy (own "error" e) = false → c_started s = true →
  handle_event ctx names e (own "type" e) s =
    match m with
    | MMessageStart _ => message_start ctx e s
    | MPing => mret (s, [None])
    | MBlockStart _ _ => content_block_start names e s
    | MBlockDelta _ _ _ => content_block_delta e s
    | MBlockStop _ => content_block_stop e s
    | MMessageDelta _ _ => message_delta e s
    | MMessageStop => message_stop ctx s
    | _ => inl (upstreamStreamError (own "error" e))
    end.
Proof. intros Ht He Hs. unfold handle_event. rewrite Ht, He, Hs. by destruct m. Qed.

(** What only appends to the blocks, or changes one *)
Lemma relays_blocks es m p bs s s' out k :
  relays es p s k → p_started p = true → p_ended p = false → (∀ i d t, m ≠ MBlockDelta i d t) →
  c_started s' = c_started s → c_stop s' = c_stop s → c_terminal s' = c_terminal s →
  mirrors bs (c_blocks s') (c_tools s') →
  k_calls (foldl collect k out) = Some <$> calls_of bs →
  k_content (foldl collect k out) = k_content k → k_reasoning (foldl collect k out) = k_reasoning k →
  relays (es ++ [m]) (Messages.set_blocks bs p) s' (foldl collect k out).
Proof.
  intros [] Hst Hen Hm H1 H2 H3 H4 H5 H6 H7. split; cbn; rewrite ?said_snoc_other; try congruence; done.
Qed.

Lemma view_block_inv v b :
  view_block v = Some b →
  opt_prop v "type" = Some (JStr (kind_name b)) ∧
  match b with
  | TextBlock => opt_prop v "text" = Some (JStr "")
  | ThinkingBlock => opt_prop v "thinking" = Some (JStr "")
  | ToolBlock id name =>
      opt_prop v "id" = Some (JStr id) ∧ opt_prop v "name" = Some (JStr name) ∧ opt_prop v "input" = Some (JObj [])
  end.
Proof.
  unfold view_block. destruct (as_string (opt_prop v "type")) as [t|] eqn:Et; [|done]. apply as_string_Some in Et.
  rewrite Et. cbn [mbind option_bind].
  destruct (String.eqb_spec t "text") as [->|_].
  { destruct (opt_prop v "text") as [[| | |[]| |]|]; cbn; intros; by simplify_eq. }
  destruct (String.eqb_spec t "thinking") as [->|_].
  { destruct (opt_prop v "thinking") as [[| | |[]| |]|]; cbn; intros; by simplify_eq. }
  destruct (String.eqb_spec t "tool_use") as [->|_]; [|done].
  destruct (as_string (opt_prop v "id")) as [id|] eqn:E1; [|done]. cbn [mbind option_bind].
  destruct (as_string (opt_prop v "name")) as [name|] eqn:E2; [|done]. cbn [mbind option_bind].
  destruct (opt_prop v "input") as [[| | | | |[]]|] eqn:E3; cbn; intros; simplify_eq.
  split; [done|]. by rewrite (as_string_Some _ _ E1), (as_string_Some _ _ E2).
Qed.

Definition opened (b : block) : bstate := {| b_kind := b; b_text := ""; b_open := true |}.

Lemma calls_of_push bs b :
  calls_of (bs ++ [b]) = calls_of bs ++ match call_of b with Some c => [c] | None => [] end.
Proof. unfold calls_of. rewrite omap_app. cbn. by destruct (call_of b). Qed.

Lemma relay_block_start es p s k e i b :
  relays es p s k → own "type" e = Some (JStr "content_block_start") → truthy (own "error" e) = false →
  p_started p = true → p_ended p = false →
  index_of e = Some i → view_block (own "content_block" e) = Some b → i = Z.of_nat (length (p_blocks p)) →
  deliverable (Messages.set_blocks (p_blocks p ++ [opened b]) p) →
  relayed es (Messages.set_blocks (p_blocks p ++ [opened b]) p) s k e (MBlockStart i b).
Proof.
  intros Hr Ht He Hst Hen Hi Hb -> Hdl. pose proof (rl_mirrors _ _ _ _ Hr) as Hm.
  pose proof (dl_size _ Hdl) as Hsize. cbn in Hsize. rewrite length_app in Hsize. cbn in Hsize.
  rewrite (started_event _ (MBlockStart 0 b)) by (try done; by rewrite (rl_started _ _ _ _ Hr)).
  unfold content_block_start. rewrite (count_index _ _ Hi) by (unfold MAX_BLOCKS, MAX_SAFE_INTEGER in *; lia).
  rewrite (mirrors_fresh _ _ _ Hm), (mr_size _ _ _ Hm).
  rewrite (proj2 (Nat.leb_gt _ _)) by (unfold MAX_BLOCKS in *; lia). cbn [refuse orb mbind fallible_bind mret fallible_ret].
  apply view_block_inv in Hb as [Htype Hb]. rewrite Htype. cbn [from_option js_string].
  assert (∀ cb, stands_for (p_blocks p ++ [opened b]) (length (p_blocks p)) (opened b) cb →
    mirrors (p_blocks p ++ [opened b]) (<[Z.of_nat (length (p_blocks p)) := cb]> (c_blocks s))
      (length (calls_of (p_blocks p ++ [opened b])))) as Hpush.
  { intros cb Hsf. eapply mirrors_push; [done| |done]. destruct Hsf as [? ? Htool ?]. split; try done.
    rewrite Htool. destruct (b_kind _); try done. by rewrite rank_app. }
  pose proof (rl_calls _ _ _ _ Hr) as Hcalls. pose proof (mr_tools _ _ _ Hm) as Htools.
  destruct b as [| |id name]; cbn in Hb.
  - rewrite Hb. eexists _, []. split; [done|]. apply (relays_blocks _ _ _ _ _ _ [] _ Hr); try done; cbn.
    + pose proof (Hpush {| cb_kind := "text"; cb_tool := None; cb_args := ""; cb_closed := false;
        cb_initial := opt_prop (own "content_block" e) "input" |}) as Hp.
      rewrite calls_of_push in Hp. cbn in Hp. rewrite app_nil_r, <-Htools in Hp. by apply Hp.
    + by rewrite calls_of_push, app_nil_r.
  - rewrite Hb. eexists _, []. split; [done|]. apply (relays_blocks _ _ _ _ _ _ [] _ Hr); try done; cbn.
    + pose proof (Hpush {| cb_kind := "thinking"; cb_tool := None; cb_args := ""; cb_closed := false;
        cb_initial := opt_prop (own "content_block" e) "input" |}) as Hp.
      rewrite calls_of_push in Hp. cbn in Hp. rewrite app_nil_r, <-Htools in Hp. by apply Hp.
    + by rewrite calls_of_push, app_nil_r.
  - destruct Hb as (Hid & Hname & Hinput).
    destruct (dl_tools _ Hdl (length (p_blocks p)) (opened (ToolBlock id name)) id name) as (Hne & (dec & Hdec & Hdne) & _); [|done|].
    { cbn. by rewrite lookup_app_r, Nat.sub_diag by lia. }
    rewrite Hid, Hname, Hinput. cbn [as_string mbind option_bind]. rewrite Hdec.
    destruct id as [|c id]; [done|]. cbn [truthy_string]. eexists _, [_]. split; [done|].
    assert (Some <$> calls_of (p_blocks p ++ [opened (ToolBlock (String c id) name)])
            = (Some <$> calls_of (p_blocks p)) ++
              [Some {| cl_id := Some (String c id); cl_type := true; cl_name := Some dec; cl_arguments := Some ""%string |}]) as Hnew.
    { rewrite calls_of_push. cbn. by rewrite fmap_app, Hdec. }
    apply (relays_blocks _ _ _ _ _ _ [_] _ Hr); try done; cbn.
    + pose proof (Hpush {| cb_kind := "tool_use"; cb_tool := Some (c_tools s); cb_args := ""; cb_closed := false;
        cb_initial := Some (JObj []) |}) as Hp.
      rewrite calls_of_push in Hp. cbn in Hp. rewrite length_app, <-Htools, Nat.add_comm in Hp. apply Hp.
      split; try done. cbn. rewrite Htools, rank_app by lia. unfold rank. by rewrite take_ge by lia.
    + rewrite Hnew, Hcalls. unfold collect_call. cbn. rewrite Htools, <-(length_fmap Some), assign_end.
      rewrite lookup_ge_None_2 by lia. by destruct dec.
    + apply string_app_nil_r.
    + apply string_app_nil_r.
Qed.

Lemma block_at_inv i p b : block_at i p = Some b → 0 <= i ∧ p_blocks p !! Z.to_nat i = Some b.
Proof. unfold block_at. destruct (Z.leb_spec 0 i); [|done]. done. Qed.

Lemma open_block_at es p s k e i b :
  relays es p s k → (length (p_blocks p) ≤ MAX_BLOCKS)%nat → index_of e = Some i → block_at i p = Some b →
  b_open b = true →
  ∃ cb, open_block e s = Some (i, cb) ∧ c_blocks s !! i = Some cb ∧ stands_for (p_blocks p) (Z.to_nat i) b cb
        ∧ i = Z.of_nat (Z.to_nat i).
Proof.
  intros Hr Hsize Hi Hb Ho. apply block_at_inv in Hb as [Hpos Hb]. pose proof (lookup_lt_Some _ _ _ Hb).
  destruct (mr_blocks _ _ _ (rl_mirrors _ _ _ _ Hr) _ _ Hb) as (cb & Hcb & Hsf). rewrite Z2Nat.id in Hcb by done.
  exists cb. split_and!; [|done|done|lia]. unfold open_block.
  rewrite (count_index _ _ Hi) by (unfold MAX_BLOCKS, MAX_SAFE_INTEGER in *; lia). cbn. rewrite Hcb. cbn.
  by rewrite (sf_closed _ _ _ _ Hsf), Ho.
Qed.

Lemma view_delta_inv v d t :
  view_delta v = Some (d, t) →
  match d with
  | TextDelta => opt_prop v "type" = Some (JStr "text_delta") ∧ opt_prop v "text" = Some (JStr t)
  | ThinkingDelta => opt_prop v "type" = Some (JStr "thinking_delta") ∧ opt_prop v "thinking" = Some (JStr t)
  | InputJsonDelta => opt_prop v "type" = Some (JStr "input_json_delta") ∧ opt_prop v "partial_json" = Some (JStr t)
  end.
Proof.
  unfold view_delta. destruct (as_string (opt_prop v "type")) as [ty|] eqn:Et; [|done]. apply as_string_Some in Et.
  rewrite Et. cbn [mbind option_bind].
  repeat (match goal with |- context [String.eqb ty ?x] => destruct (String.eqb_spec ty x) as [->|_] end;
    [intros H; apply bind_Some in H as (? & H1 & H2); simplify_eq; by rewrite (as_string_Some _ _ H1)|]).
  done.
Qed.

Lemma calls_of_put bs i b b' :
  bs !! i = Some b → b_kind b' = b_kind b →
  calls_of (<[i := b']> bs) = match call_of b' with Some c => <[rank call_of bs i := c]> (calls_of bs) | None => calls_of bs end.
Proof.
  intros Hi Hk. unfold calls_of. destruct (call_of b') as [c|] eqn:Ec.
  - apply (omap_insert_rank _ _ _ b); [done| |done]. revert Ec. unfold call_of. rewrite Hk. destruct (b_kind b); eauto; done.
  - apply (omap_insert_none _ _ _ b); [done| |done]. revert Ec. unfold call_of. rewrite Hk. by destruct (b_kind b).
Qed.

(** Arguments that arrive are appended to their call. *)
Lemma collect_arguments bs i b id name k c args :
  bs !! i = Some b → b_kind b = ToolBlock id name → k_calls k = Some <$> calls_of bs →
  k_calls (collect k (Some (chunk c (arguments_delta (rank call_of bs i) args))))
  = Some <$> <[rank call_of bs i := {| cl_id := Some id; cl_type := true; cl_name := names !! name;
                                       cl_arguments := Some (args_of b +:+ args) |}]> (calls_of bs).
Proof.
  intros Hi Hk Hc. cbn. unfold collect_call. cbn [td_index]. rewrite Hc.
  assert (call_of b = Some {| cl_id := Some id; cl_type := true; cl_name := names !! name; cl_arguments := Some (args_of b) |})
    as Hcall by (unfold call_of; by rewrite Hk).
  pose proof (omap_lookup_rank _ _ _ _ _ Hi Hcall) as Hl. pose proof (rank_lt _ _ _ _ _ Hi Hcall) as Hlt.
  rewrite list_lookup_fmap. fold (calls_of bs) in *. rewrite Hl. cbn.
  rewrite assign_in by (by rewrite length_fmap). by rewrite list_fmap_insert.
Qed.

Lemma relay_delta es p s k e i d t b :
  relays es p s k → own "type" e = Some (JStr "content_block_delta") → truthy (own "error" e) = false →
  p_started p = true → p_ended p = false →
  index_of e = Some i → view_delta (own "delta" e) = Some (d, t) → block_at i p = Some b →
  b_open b = true → fits (b_kind b) d = true →
  deliverable (Messages.set_blocks (alter (append_text t) (Z.to_nat i) (p_blocks p)) p) →
  relayed es (Messages.set_blocks (alter (append_text t) (Z.to_nat i) (p_blocks p)) p) s k e (MBlockDelta i d t).
Proof.
  intros Hr Ht He Hst Hen Hi Hd Hb Ho Hfit Hdl. pose proof Hb as [_ Hbs]%block_at_inv.
  pose proof (dl_size _ Hdl) as Hsize. cbn in Hsize. rewrite length_alter in Hsize.
  destruct (open_block_at _ _ _ _ _ _ _ Hr Hsize Hi Hb Ho) as (cb & Hopen & Hcb & Hsf & Hin).
  rewrite (started_event _ (MBlockDelta i d t)) by (try done; by rewrite (rl_started _ _ _ _ Hr)).
  unfold content_block_delta. rewrite Hopen. rewrite (alter_insert _ _ _ _ Hbs) in *.
  pose proof (rl_mirrors _ _ _ _ Hr) as Hm. apply view_delta_inv in Hd.
  assert (∀ cb', stands_for (p_blocks p) (Z.to_nat i) (append_text t b) cb' →
    mirrors (<[Z.to_nat i := append_text t b]> (p_blocks p)) (<[i := cb']> (c_blocks s)) (c_tools s)) as Hput.
  { intros cb' Hsf'. rewrite Hin at 2. by eapply mirrors_put. }
  assert (∀ b0, b_kind b = b0 → (∀ x y, b0 ≠ ToolBlock x y) →
    mirrors (<[Z.to_nat i := append_text t b]> (p_blocks p)) (c_blocks s) (c_tools s)
    ∧ calls_of (<[Z.to_nat i := append_text t b]> (p_blocks p)) = calls_of (p_blocks p)) as Hother.
  { intros b0 Hk Hnt. split.
    - rewrite <-(jinsert_same _ _ _ Hcb). apply Hput. destruct Hsf as [? ? Htool _]. split; cbn; try done.
      rewrite Hk. destruct b0; [done..|]. by destruct (Hnt id name).
    - rewrite (calls_of_put _ _ b) by done. unfold call_of. cbn. rewrite Hk. destruct b0; [done..|]. by destruct (Hnt id name). }
  destruct Hr as [H1 H2 H3 H4 H5 H6 H7 H8].
  destruct d; cbn in Hfit; destruct (b_kind b) as [| |id name] eqn:Ek; try done; destruct Hd as [Hty Htext]; rewrite Hty.
  - rewrite (sf_kind _ _ _ _ Hsf), Ek, Htext. cbn.
    eexists _, [_]. split; [done|]. destruct (Hother TextBlock) as [Hm' Hc']; [done..|].
    split; cbn; rewrite ?Hc', ?said_app, ?H5, ?H6, ?H7, ?Hen; cbn; rewrite ?string_app_nil_r; try done; congruence.
  - rewrite (sf_kind _ _ _ _ Hsf), Ek, Htext. cbn.
    eexists _, [_]. split; [done|]. destruct (Hother ThinkingBlock) as [Hm' Hc']; [done..|].
    split; cbn; rewrite ?Hc', ?said_app, ?H5, ?H6, ?H7, ?Hen; cbn; rewrite ?string_app_nil_r; try done; congruence.
  - pose proof (sf_tool _ _ _ _ Hsf) as Htool. rewrite Ek in Htool.
    pose proof (sf_args _ _ _ _ Hsf) as Hargs. rewrite Ek in Hargs. destruct Hargs as [Hargs Hinit].
    rewrite (sf_kind _ _ _ _ Hsf), Ek, Htext, Htool. cbn [is_string as_string String.eqb kind_name andb].
    assert (args_of b = b_text b) as Ha by (unfold args_of; by rewrite Ho).
    destruct (dl_tools _ Hdl (Z.to_nat i) (append_text t b) id name) as (_ & _ & Hu); [|done|].
    { cbn. by rewrite list_lookup_insert_eq by eauto using lookup_lt_Some. }
    cbn in Hu. rewrite Hargs, Ha. replace (MAX_FRAME <? units (b_text b +:+ t)) with false by lia.
    eexists _, [_]. split; [reflexivity|].
    assert (mirrors (<[Z.to_nat i := append_text t b]> (p_blocks p)) (<[i := with_args (b_text b +:+ t) cb]> (c_blocks s)) (c_tools s)) as Hm'.
    { apply Hput. destruct Hsf as [? ? Htl ?]. split; cbn; try done. rewrite Ek. unfold args_of. cbn. by rewrite Ho. }
    split; cbn; rewrite ?said_app, ?Hen; cbn; rewrite ?string_app_nil_r; try done; try congruence.
    pose proof (collect_arguments _ _ _ _ _ k (change_block i (with_args (b_text b +:+ t) cb) s) t Hbs Ek H5) as Hca.
    cbn in Hca. rewrite Hca, (calls_of_put _ _ b) by done. unfold call_of. cbn. rewrite Ek. unfold args_of. cbn. by rewrite Ho.
Qed.

Lemma stringify_empty : stringify (JObj []) = "{}"%string.
Proof. by vm_compute. Qed.

Lemma relay_block_stop es p s k e i b :
  relays es p s k → own "type" e = Some (JStr "content_block_stop") → truthy (own "error" e) = false →
  p_started p = true → p_ended p = false →
  index_of e = Some i → block_at i p = Some b → b_open b = true →
  deliverable (Messages.set_blocks (alter shut (Z.to_nat i) (p_blocks p)) p) →
  relayed es (Messages.set_blocks (alter shut (Z.to_nat i) (p_blocks p)) p) s k e (MBlockStop i).
Proof.
  intros Hr Ht He Hst Hen Hi Hb Ho Hdl. pose proof Hb as [_ Hbs]%block_at_inv.
  pose proof (dl_size _ Hdl) as Hsize. cbn in Hsize. rewrite length_alter in Hsize.
  destruct (open_block_at _ _ _ _ _ _ _ Hr Hsize Hi Hb Ho) as (cb & Hopen & Hcb & Hsf & Hin).
  rewrite (started_event _ (MBlockStop i)) by (try done; by rewrite (rl_started _ _ _ _ Hr)).
  unfold content_block_stop. rewrite Hopen. rewrite (alter_insert _ _ _ _ Hbs).
  pose proof (rl_mirrors _ _ _ _ Hr) as Hm. pose proof (rl_calls _ _ _ _ Hr) as Hcalls.
  assert (∀ cb', stands_for (p_blocks p) (Z.to_nat i) (shut b) cb' →
    mirrors (<[Z.to_nat i := shut b]> (p_blocks p)) (<[i := cb']> (c_blocks s)) (c_tools s)) as Hput.
  { intros cb' Hsf'. rewrite Hin at 2. by eapply mirrors_put. }
  assert (calls_of (<[Z.to_nat i := shut b]> (p_blocks p)) = match call_of (shut b) with
    | Some c => <[rank call_of (p_blocks p) (Z.to_nat i) := c]> (calls_of (p_blocks p)) | None => calls_of (p_blocks p) end) as Hc'
    by (by apply (calls_of_put _ _ b)).
  destruct Hsf as [Hkind Hclosed Htool Hargs]. destruct (b_kind b) as [| |id name] eqn:Ek.
  1,2: cbn [close_block cb_tool]; rewrite Htool; eexists _, []; split; [reflexivity|];
    apply (relays_blocks _ _ _ _ _ _ [] _ Hr); try done; cbn;
    [apply Hput; split; cbn; rewrite ?Ek; done|rewrite Hc'; unfold call_of; cbn; by rewrite Ek].
  destruct Hargs as [Hargs Hinit]. cbn [close_block cb_tool cb_args cb_initial]. rewrite Htool, Hargs, Hinit.
  assert (args_of b = b_text b) as Ha by (unfold args_of; by rewrite Ho).
  assert (args_of (shut b) = final_args (b_text b)) as Hshut by done.
  assert (call_of (shut b) = Some {| cl_id := Some id; cl_type := true; cl_name := names !! name;
                                     cl_arguments := Some (final_args (b_text b)) |}) as Hcall
    by (unfold call_of; cbn; by rewrite Ek).
  rewrite Hcall in Hc'. unfold final_args in *. rewrite Ha. destruct (String.eqb_spec (b_text b) "") as [Hempty|Hne].
  - rewrite stringify_empty. eexists _, [_]. split; [reflexivity|].
    apply (relays_blocks _ _ _ _ _ _ [_] _ Hr); try done; cbn [foldl].
    + apply Hput. by split; cbn; rewrite ?Ek.
    + rewrite (collect_arguments _ _ b id name) by done. by rewrite Hc', Ha, Hempty.
    + cbn. apply string_app_nil_r.
    + cbn. apply string_app_nil_r.
  - eexists _, []. split; [reflexivity|]. apply (relays_blocks _ _ _ _ _ _ [] _ Hr); try done.
    + apply Hput. split; cbn; rewrite ?Ek; try done. rewrite Hargs, Ha. split; [|done].
      unfold args_of, final_args. cbn. by rewrite (proj2 (String.eqb_neq _ _) Hne).
    + cbn [foldl]. rewrite Hcalls, Hc', list_fmap_insert. symmetry. apply list_insert_id.
      rewrite list_lookup_fmap. unfold calls_of. erewrite omap_lookup_rank; [|exact Hbs|unfold call_of; by rewrite Ek].
      by rewrite Ha.
Qed.

Lemma relay_message_delta es p s k e r u :
  relays es p s k → own "type" e = Some (JStr "message_delta") → truthy (own "error" e) = false →
  p_started p = true → p_ended p = false →
  as_string (opt_prop (own "delta" e) "stop_reason") = Some r → is_Some (lookup_reason r) →
  relayed es {| p_started := true; p_blocks := p_blocks p; p_stop := Some r; p_usage := u; p_ended := false |} s k e
    (MMessageDelta r u).
Proof.
  intros Hr Ht He Hst Hen Hre [f Hf]. rewrite (started_event _ (MMessageDelta r u)) by (try done; by rewrite (rl_started _ _ _ _ Hr)).
  unfold message_delta. rewrite (as_string_Some _ _ Hre). cbn [nullish as_string mbind option_bind]. rewrite Hf.
  eexists _, []. split; [reflexivity|]. destruct Hr. split; cbn; rewrite ?said_snoc_other; try done; try congruence.
Qed.

Lemma mirrors_entries bs m n (P : cblock → bool) :
  mirrors bs m n → (∀ i b cb, bs !! i = Some b → stands_for bs i b cb → P cb = false) → existsb P (entries m).*2 = false.
Proof.
  intros Hm HP. destruct (existsb P _) eqn:E; [|done]. apply List.existsb_exists in E as (cb & Hin & Hcb).
  apply list_elem_of_In, list_elem_of_fmap in Hin as ([z cb'] & -> & Hin).
  apply (jelem_of_entries z cb' m (mr_wf _ _ _ Hm)) in Hin.
  destruct (mr_keys _ _ _ Hm _ _ Hin) as (i & b & -> & Hb). destruct (mr_blocks _ _ _ Hm _ _ Hb) as (cb0 & Hcb0 & Hsf).
  rewrite Hin in Hcb0. injection Hcb0 as <-. cbn in Hcb. by rewrite (HP i b cb' Hb Hsf) in Hcb.
Qed.

Lemma relay_message_stop es p s k e :
  relays es p s k → own "type" e = Some (JStr "message_stop") → truthy (own "error" e) = false →
  p_started p = true → p_ended p = false →
  forallb (λ b, negb (b_open b)) (p_blocks p) = true → finishes p →
  relayed es {| p_started := true; p_blocks := p_blocks p; p_stop := p_stop p; p_usage := p_usage p; p_ended := true |} s k e
    MMessageStop.
Proof.
  intros Hr Ht He Hst Hen Hall (r & f & Hstop & Hf & Htools & Hobj). rewrite (started_event _ MMessageStop) by (try done; by rewrite (rl_started _ _ _ _ Hr)).
  unfold message_stop. rewrite (rl_stop _ _ _ _ Hr), Hstop. cbn [mbind option_bind]. rewrite Hf. pose proof (rl_mirrors _ _ _ _ Hr) as Hm.
  assert (∀ i b, p_blocks p !! i = Some b → b_open b = false) as Hclosed.
  { intros i b Hb. rewrite forallb_forall in Hall. apply negb_true_iff, Hall, list_elem_of_In. by eapply list_elem_of_lookup_2. }
  rewrite (mirrors_entries _ _ _ (λ b, negb (cb_closed b)) Hm); [|intros i b cb Hb []; cbn; by rewrite sf_closed0, (Hclosed _ _ Hb)].
  assert ((match f with Finish "tool_calls" => (c_tools s =? 0)%nat | _ => false end) = false) as ->.
  { destruct f as [r'|]; [|done]. destruct (String.eqb_spec r' "tool_calls") as [->|Hne].
    - rewrite (mr_tools _ _ _ Hm). specialize (Htools eq_refl). by destruct (calls_of (p_blocks p)).
    - repeat (match goal with |- context [match ?x with _ => _ end] => destruct x end; try done). }
  assert (checked f && existsb (λ b, bool_decide (is_Some (cb_tool b)) && negb (parses_to_object (cb_args b)))
            (entries (c_blocks s)).*2 = false) as ->.
  { destruct (checked f) eqn:Ec; [|done]. cbn. apply (mirrors_entries _ _ _ _ Hm). intros i b cb Hb [_ _ Htool Hargs].
    rewrite Htool. destruct (b_kind b) as [| |id name] eqn:Ek; [done..|]. destruct Hargs as [-> _].
    unfold args_of. rewrite (Hclosed _ _ Hb). by rewrite (Hobj eq_refl _ _ _ _ Hb Ek). }
  cbn [refuse mbind fallible_bind mret fallible_ret]. eexists _, [_]. split; [reflexivity|].
  destruct Hr. split; cbn; rewrite ?said_snoc_other, ?string_app_nil_r; try done; try congruence.
  - by rewrite rl_stop0, Hstop.
  - intros _. eexists. split; [done|]. cbn. rewrite rl_stop0, Hstop. cbn. by rewrite Hf.
Qed.

Lemma relay_step es p s k e m p' :
  relays es p s k → sane p → p_ended p = false → view_data e = Some m → p_step p m = Some p' →
  deliverable p' → deliverable_event m → (p_ended p' = true → finishes p') →
  relayed es p' s k e m.
Proof.
  intros Hr Hsane Hen Hv Hstep Hdl Hev Hfin.
  assert (m ≠ MError) as Hm by (intros ->; done).
  destruct (view_inv e m Hv Hm) as (Ht & He & Hd).
  destruct (p_started p) eqn:Hst.
  2: { specialize (Hsane Hst). subst p. destruct m; cbn in Hstep; simplify_eq.
       - by apply relay_start. - by apply relay_ping. }
  assert (p_step p m = Some p') as Hs0 by done. revert Hstep.
  destruct m as [v| |i b|i d t|i|r u| | |]; cbn; rewrite ?Hst, ?Hen; cbn; try done.
  - intros [= <-]. by apply relay_ping.
  - destruct (Z.eqb_spec i (Z.of_nat (length (p_blocks p)))) as [Hi|]; [|done]. intros [= <-].
    destruct Hd. by apply relay_block_start.
  - destruct (block_at i p) as [b|] eqn:Eb; [|done]. cbn. destruct (b_open b) eqn:Eo; [|done].
    destruct (fits (b_kind b) d) eqn:Ef; [|done]. intros [= <-]. destruct Hd. by eapply relay_delta.
  - destruct (block_at i p) as [b|] eqn:Eb; [|done]. cbn. destruct (b_open b) eqn:Eo; [|done].
    intros [= <-]. by eapply relay_block_stop.
  - destruct (forallb _ _); [|done]. intros [= <-]. by apply relay_message_delta.
  - destruct (bool_decide _ && _) eqn:E; [|done]. apply andb_true_iff in E as [_ Hall]. intros [= <-].
    apply relay_message_stop; try done. destruct (Hfin eq_refl) as (r & f & H). by exists r, f.
Qed.

End relay.
