(* ===== verification/ChatSafety.v ===== *)
(** What the chat client gets ([ChatStream]): the message that the Messages stream says, or an
    error, and never a part of it passed off as the whole. *)

From S2P Require Import Prelude.
From S2P Require Import Json.
From S2P Require Import Messages.
From S2P Require Import OpenAiFormats.
From S2P Require Import ChatStream.
From S2P Require Import ChatRelay.
Open Scope Z_scope.

(** * Frames *)

(** A frame without the empty line that ends it *)
Definition body (f : frame) : text := to_text "event: " ++ to_text f.1 ++ LF :: to_text "data: " ++ print f.2.

Lemma render_body f : render f = body f ++ [LF; LF].
Proof. unfold render, body. by rewrite <-!app_assoc. Qed.

Lemma one_line_cons c t : one_line (c :: t) ↔ (32 <= code c)%nat ∧ one_line t.
Proof. unfold one_line. by rewrite Forall_cons. Qed.

Lemma printable_not c n : (32 <= code c)%nat → (n < 32)%nat → is_code n c = false.
Proof. intros. apply Nat.eqb_neq. lia. Qed.

Lemma eat_printable c t : (32 <= code c)%nat → eat_newline (c :: t) = None.
Proof. intros. cbn. by rewrite !printable_not by lia. Qed.

Lemma split_crlf_line t : one_line t → split_crlf t = [t].
Proof.
  induction t as [|c t IH]; [done|]. intros [Hc Ht]%one_line_cons. cbn. rewrite IH by done.
  rewrite printable_not by lia. by destruct t.
Qed.

Lemma split_crlf_lines t u : one_line t → split_crlf (t ++ LF :: u) = t :: split_crlf u.
Proof.
  induction t as [|c t IH]; [done|]. intros [Hc Ht]%one_line_cons. cbn [app split_crlf]. rewrite IH by done.
  rewrite !printable_not by lia. cbn [andb]. by destruct t as [|c' t], (split_crlf u).
Qed.

Lemma split_frame_line t u : one_line t → split_frame (t ++ u) = '(f, r) ← split_frame u; Some (t ++ f, r).
Proof.
  induction t as [|c t IH]; cbn [app]; [by destruct (split_frame u) as [[]|]|]. intros [Hc Ht]%one_line_cons.
  cbn [split_frame]. rewrite eat_printable by done. cbn [mbind option_bind]. rewrite IH by done.
  by destruct (split_frame u) as [[]|].
Qed.

Lemma split_frame_newline c u : (32 <= code c)%nat → split_frame (LF :: c :: u) = '(f, r) ← split_frame (c :: u); Some (LF :: f, r).
Proof. intros. cbn [split_frame]. change (eat_newline (LF :: c :: u)) with (Some (c :: u)). cbn [mbind option_bind]. by rewrite eat_printable. Qed.

Lemma split_frame_end u : split_frame (LF :: LF :: u) = Some ([], u).
Proof. done. Qed.

Lemma one_line_bool t : forallb (λ c, 32 <=? code c)%nat t = true → one_line t.
Proof. intros H. apply Forall_forall. intros c Hc. rewrite forallb_forall in H. apply Nat.leb_le, H. by apply list_elem_of_In. Qed.

Section frame.
Context (f : frame) (Hname : one_line (to_text f.1)).

Lemma event_line : one_line (to_text "event: " ++ to_text f.1).
Proof using Hname. apply one_line_app. split; [by apply one_line_bool|done]. Qed.

Lemma data_line_ok : one_line (to_text "data: " ++ print f.2).
Proof. apply one_line_app. split; [by apply one_line_bool|apply one_line_print]. Qed.

Lemma body_two_lines : body f = (to_text "event: " ++ to_text f.1) ++ LF :: (to_text "data: " ++ print f.2).
Proof. unfold body. by rewrite <-app_assoc. Qed.

Lemma split_frame_body u : split_frame (body f ++ LF :: LF :: u) = Some (body f, u).
Proof using Hname.
  rewrite body_two_lines, <-app_assoc. rewrite split_frame_line by apply event_line. cbn [app].
  change (to_text "data: " ++ print f.2) with (chr 100 :: to_text "ata: " ++ print f.2). cbn [app].
  rewrite split_frame_newline by by apply Nat.leb_le.
  change (chr 100 :: (to_text "ata: " ++ print f.2) ++ LF :: LF :: u) with ((to_text "data: " ++ print f.2) ++ LF :: LF :: u).
  rewrite split_frame_line by apply data_line_ok. rewrite split_frame_end. cbn [mbind option_bind].
  by rewrite app_nil_r.
Qed.

(** Nothing ends within a frame. *)
Lemma split_frame_partial t v : t ++ v = body f ++ [LF; LF] → v ≠ [] → split_frame t = None.
Proof using Hname.
  intros Heq Hv. assert (∃ w, t ++ w = body f ++ [LF]) as [w Hw].
  { destruct v as [|c v _] using rev_ind; [done|]. exists v. rewrite app_assoc in Heq.
    change [LF; LF] with ([LF] ++ [LF]) in Heq. rewrite app_assoc in Heq. by apply app_inj_tail in Heq as [-> _]. }
  clear v Hv Heq. rewrite body_two_lines, <-app_assoc in Hw.
  set (a := to_text "event: " ++ to_text f.1) in *. set (b := to_text "data: " ++ print f.2) in *.
  assert (∀ x, one_line x → split_frame x = None) as Hline.
  { intros x Hx. by rewrite <-(app_nil_r x), split_frame_line. }
  apply app_eq_app in Hw as (l & [[-> Hr]|[Ha Hr]]).
  - rewrite split_frame_line by apply event_line. destruct l as [|d l]; [done|]. injection Hr as <- Hr.
    destruct l as [|c l]; [done|].
    assert ((32 <= code c)%nat) as Hc by (cbn in Hr; injection Hr as <- _; by apply Nat.leb_le).
    rewrite split_frame_newline by done. assert ((c :: l) ++ w = b ++ [LF]) as Hr' by (symmetry; exact Hr). clear Hr.
    rename Hr' into Hr.
    apply app_eq_app in Hr as (l' & [[Hl Hr]|[Hl Hr]]).
    + rewrite Hl, split_frame_line by apply data_line_ok. destruct l' as [|c' l']; [done|].
      injection Hr as <- Hr. symmetry in Hr. apply app_nil in Hr as [-> ->]. done.
    + assert (one_line b) as Hb by apply data_line_ok. rewrite Hl in Hb. apply one_line_app in Hb as [Hb _].
      by rewrite Hline.
  - apply Hline. assert (one_line a) as Hl by apply event_line. rewrite Ha in Hl. by apply one_line_app in Hl as [? _].
Qed.
End frame.

Section relay.
Context (ctx : ChatIngressContext) (names : jmap string string).

(** ** A frame of the protocol *)

Lemma process_body f s t :
  one_line (to_text f.1) → plain f.2 = true → own "type" f.2 = Some (JStr t) → c_terminal s = false →
  process ctx names (body f) s = handle_event ctx names f.2 (own "type" f.2) s.
Proof.
  intros Hn Hp Ht Hs. unfold process. rewrite Hs, body_two_lines.
  rewrite split_crlf_lines by by apply event_line. rewrite split_crlf_line by apply data_line_ok.
  assert (omap line_data [to_text "event: " ++ to_text f.1; to_text "data: " ++ print f.2] = [print f.2]) as -> by done.
  cbn [join_lines]. destruct (print_head f.2 Hp) as (c & r & Heq & _). rewrite Heq, <-Heq, parse_print by done.
  unfold coalesce. by rewrite Ht.
Qed.

(** A frame that can be sent *)
Record sendable (f : frame) : Prop := {
  sd_name : one_line (to_text f.1);
  sd_plain : plain f.2 = true;
  sd_size : units (of_text (render f)) <= MAX_FRAME }.

(** What was received so far is served. *)
Definition served (fs : list frame) (g : gen) : Prop :=
  ∃ p, says fs p ∧ relays names (view <$> fs) p (g_chat g) (foldl collect collected_init (g_out g))
    ∧ g_end g = if p_ended p then Some Completed else None.

(** A message that the client can be given *)
Record relayable (fs : list frame) (p : proto) : Prop := {
  rb_says : says fs p;
  rb_ended : p_ended p = true;
  rb_deliverable : deliverable names p;
  rb_finishes : finishes names p;
  rb_events : Forall (deliverable_event ctx) (view <$> fs);
  rb_frames : Forall sendable fs }.

Lemma says_sane fs p : says fs p → sane p ∧ grows p_init p.
Proof. intros H. by apply (p_run_sane p_init (view <$> fs)). Qed.

Lemma says_split fs fs' p : says (fs ++ fs') p → ∃ p', says fs p' ∧ p_run p' (view <$> fs') = Some p.
Proof. unfold says. rewrite fmap_app, p_run_app. intros H. apply bind_Some in H. done. Qed.

Lemma ended_started p : sane p → p_ended p = true → p_started p = true.
Proof. intros Hs He. destruct (p_started p) eqn:E; [done|]. specialize (Hs E). by subst p. Qed.

Lemma take_served done f fs p rest g :
  relayable (done ++ f :: fs) p → served done g → g_end g = None → served (done ++ [f]) (take_frame ctx names (body f) rest g).
Proof.
  intros [Hsays Hended Hdl Hfin Hev Hfr] (p0 & Hp0 & Hr & He) Hend.
  change (f :: fs) with ([f] ++ fs) in Hsays. rewrite app_assoc in Hsays. destruct (says_split _ _ _ Hsays) as (p1 & Hp1 & Hrun).
  destruct (says_sane _ _ Hp1) as [Hsane1 _]. destruct (says_sane _ _ Hp0) as [Hsane0 _].
  destruct (p_run_sane _ _ _ Hrun Hsane1) as [_ Hgrows].
  destruct (says_split _ _ _ Hp1) as (p0' & Hp0' & Hstep). unfold says in Hp0, Hp0'. rewrite Hp0 in Hp0'. injection Hp0' as <-.
  cbn in Hstep. destruct (p_step p0 (view f)) as [q|] eqn:Eq; [|done]. cbn in Hstep. injection Hstep as ->.
  assert (view_data f.2 = Some (view f)) as Hv.
  { unfold view in *. destruct (view_data f.2); [done|]. by destruct (p_started p0), (p_ended p0). }
  rewrite Hend in He. destruct (p_ended p0) eqn:Een; [done|].
  apply Forall_app in Hfr as [_ Hfr]. apply Forall_cons in Hfr as [[Hn Hpl _] _].
  rewrite fmap_app in Hev. apply Forall_app in Hev as [_ Hev]. cbn in Hev. apply Forall_cons in Hev as [Hevf _].
  destruct (relay_step ctx names (view <$> done) p0 (g_chat g) _ f.2 (view f) p1 Hr Hsane0 Een Hv Eq)
    as (s' & out & Hh & Hr'); [by eapply deliverable_grows|done| |].
  { intros Hp1e. destruct (p_run_ended _ _ _ Hrun) as [-> _]; [by apply ended_started|done|done]. }
  unfold take_frame. rewrite (process_body f (g_chat g) (type_name (view f))); try done.
  - rewrite Hh. exists p1. split; [done|]. cbn. rewrite foldl_app, fmap_app. split; [done|].
    by rewrite (rl_terminal _ _ _ _ _ Hr').
  - destruct (view_inv f.2 (view f) Hv) as [Ht _]; [|done]. intros Hm. by rewrite Hm in Eq.
  - by rewrite (rl_terminal _ _ _ _ _ Hr).
Qed.

(** ** The buffer *)

Lemma units_prefix t v : units (of_text t) <= units (of_text (t ++ v)).
Proof. rewrite of_text_app, units_app. pose proof (units_nonneg (of_text v)). lia. Qed.

Lemma render_cons f fs : concat (render <$> f :: fs) = render f ++ concat (render <$> fs).
Proof. done. Qed.

(** What is left of the stream is in the buffer and the chunks to come. *)
Lemma split_buffer t r f fs :
  Forall sendable (f :: fs) → t ++ r = concat (render <$> f :: fs) →
  (∃ t', split_frame t = Some (body f, t') ∧ t' ++ r = concat (render <$> fs) ∧ (length t' < length t)%nat)
  ∨ (split_frame t = None ∧ units (of_text t) <= MAX_FRAME).
Proof.
  intros [[Hn _ Hs] _]%Forall_cons Heq. rewrite render_cons in Heq. apply app_eq_app in Heq as (l & [[-> Hr]|[Hr ->]]).
  - left. exists l. rewrite render_body, <-app_assoc. cbn [app]. rewrite split_frame_body by done. split_and!; [done..|].
    rewrite !length_app. cbn. lia.
  - destruct l as [|c l].
    + rewrite app_nil_r in Hr. subst t. left. exists []. rewrite render_body, split_frame_body by done.
      split_and!; [done..|]. rewrite length_app. cbn. lia.
    + right. split.
      * apply (split_frame_partial f Hn t (c :: l)); [by rewrite <-Hr, render_body|done].
      * rewrite Hr in Hs. pose proof (units_prefix t (c :: l)). lia.
Qed.

Lemma split_nothing t r : t ++ r = concat (render <$> []) → split_frame t = None ∧ units (of_text t) <= MAX_FRAME.
Proof. intros [-> ->]%app_nil. by split. Qed.

(** The state between two reads; [r] is what is still to be read. *)
Definition waiting (fs : list frame) (r : text) (g : gen) : Prop :=
  ∃ done rest, done ++ rest = fs ∧ served done g ∧
    (g_end g = None → g_buffer g ++ r = concat (render <$> rest) ∧ split_frame (g_buffer g) = None).

Lemma drain_waiting fs p r n g done rest :
  relayable fs p → done ++ rest = fs → served done g →
  (g_end g = None → g_buffer g ++ r = concat (render <$> rest)) → (length (g_buffer g) < n)%nat →
  waiting fs r (drain ctx names n g).
Proof.
  intros Hrel. revert g done rest. induction n as [|n IH]; intros g done rest Hfs Hs Hbuf Hlen; [lia|].
  cbn [drain]. destruct (g_end g) as [o|] eqn:Eo.
  { exists done, rest. rewrite Eo. by split_and!. }
  specialize (Hbuf eq_refl). destruct rest as [|f rest].
  - destruct (split_nothing _ _ Hbuf) as [-> Hu]. replace (MAX_FRAME <? _) with false by lia.
    exists done, []. rewrite Eo. split_and!; [done..|]. intros _. split; [done|]. by destruct (split_nothing _ _ Hbuf).
  - assert (Forall sendable (f :: rest)) as Hfr.
    { pose proof (rb_frames _ _ Hrel) as H. rewrite <-Hfs in H. by apply Forall_app in H as [_ H]. }
    destruct (split_buffer _ _ _ _ Hfr Hbuf) as [(t' & Hsp & Ht' & Hlt)|[Hsp Hu]]; rewrite Hsp.
    + assert (units (of_text (body f)) <= MAX_FRAME) as Hu.
      { apply Forall_cons in Hfr as [[_ _ Hu] _]. rewrite render_body in Hu. pose proof (units_prefix (body f) [LF; LF]). lia. }
      replace (MAX_FRAME <? _) with false by lia. apply (IH _ (done ++ [f]) rest).
      * by rewrite <-app_assoc.
      * rewrite <-Hfs in Hrel. by eapply take_served.
      * unfold take_frame. destruct (process _ _ _ _) as [e|[s' out]]; cbn; [done|]. by intros _.
      * unfold take_frame. destruct (process _ _ _ _) as [e|[s' out]]; cbn; lia.
    + replace (MAX_FRAME <? _) with false by lia. exists done, (f :: rest). rewrite Eo. by split_and!.
Qed.

Definition data (chunks : list text) : list read := map (λ t, RData (Some t)) chunks.

Lemma reads_waiting fs p chunks r g :
  relayable fs p → waiting fs (concat chunks ++ r) g →
  waiting fs r (foldl (λ g x, on_read ctx names x g) g (data chunks)).
Proof.
  intros Hrel. revert g. induction chunks as [|t chunks IH]; intros g Hw; cbn; [done|]. apply IH.
  destruct Hw as (done & rest & Hfs & Hs & Hw). destruct (g_end g) as [o|] eqn:Eo.
  { exists done, rest. unfold on_read. rewrite Eo. split_and!; [done..|]. by rewrite Eo. }
  destruct (Hw eq_refl) as [Hbuf _]. cbn in Hbuf. unfold on_read. rewrite Eo.
  eapply (drain_waiting fs p); [done|done| | |cbn; lia].
  - destruct Hs as (p0 & H1 & H2 & H3). by exists p0.
  - cbn. intros _. rewrite <-Hbuf. by rewrite <-!app_assoc.
Qed.

Lemma reads_ended g tail o : g_end g = Some o → foldl (λ g x, on_read ctx names x g) g tail = g.
Proof. intros Ho. induction tail as [|x tail IH]; cbn; [done|]. unfold on_read at 2. by rewrite Ho. Qed.

Lemma waiting_done fs p g : relayable fs p → waiting fs [] g → g_end g = Some Completed ∧ served fs g.
Proof.
  intros [Hsays Hended Hdl Hfin Hev Hfr] (done & rest & <- & (p0 & Hp0 & Hr & He) & Hw).
  destruct (says_split _ _ _ Hsays) as (p0' & Hp0' & Hrun). unfold says in Hp0, Hp0'. rewrite Hp0 in Hp0'. injection Hp0' as <-.
  destruct (p_ended p0) eqn:Een.
  - split; [done|]. destruct (says_sane _ _ Hp0) as [Hsane _].
    destruct (p_run_ended _ _ _ Hrun) as [-> Hsaid]; [by apply ended_started|done|].
    exists p0. split; [done|]. rewrite Een, fmap_app. split; [|done].
    destruct Hr. split; rewrite ?said_app, ?Hsaid, ?string_app_nil_r; done.
  - exfalso. destruct (Hw He) as [Hbuf Hsp]. rewrite app_nil_r in Hbuf. destruct rest as [|f rest].
    + cbn in Hrun. congruence.
    + apply Forall_app in Hfr as [_ Hfr]. apply Forall_cons in Hfr as [[Hn _ _] _].
      rewrite Hbuf, render_cons in Hsp. rewrite render_body, <-app_assoc in Hsp. cbn [app] in Hsp.
      by rewrite split_frame_body in Hsp.
Qed.

(** What a completion says of a message *)
Definition answers (es : list mevent) (p : proto) (c : completion) : Prop :=
  (∃ r, p_stop p = Some r ∧ lookup_reason r = Some (cm_finish c))
  ∧ cm_calls c = Some <$> calls_of names (p_blocks p)
  ∧ cm_reasoning c = truthy_string (Some (said ThinkingDelta es))
  ∧ let content := if structuredOutput ctx && match cm_finish c with Finish "content_filter" => true | _ => false end
                   then ""%string else said TextDelta es in
    cm_content c = if String.eqb content "" && negb (bool_decide (cm_calls c = [])) then None else Some content.

Lemma relayed_message fs p chunks tail :
  relayable fs p → concat chunks = concat (render <$> fs) →
  ∃ c, gather ctx names (data chunks ++ tail) = Some (inr c) ∧ answers (view <$> fs) p c.
Proof.
  intros Hrel Hc.
  assert (waiting fs (concat chunks ++ []) gen_init) as H0.
  { exists [], fs. split; [done|]. split; [|by rewrite app_nil_r, Hc].
    exists p_init. split; [done|]. split; [apply relays_init|done]. }
  pose proof (reads_waiting fs p chunks [] gen_init Hrel H0) as Hw.
  destruct (waiting_done fs p _ Hrel Hw) as [Hend (p1 & Hp1 & Hr & _)].
  pose proof (rb_says _ _ Hrel) as Hp. unfold says in Hp, Hp1. rewrite Hp in Hp1. injection Hp1 as <-.
  unfold gather, chatChunks. rewrite foldl_app, (reads_ended _ _ _ Hend), Hend.
  destruct (rb_finishes _ _ Hrel) as (r & f & Hstop & Hf & _).
  destruct (rl_final _ _ _ _ _ Hr (rb_ended _ _ Hrel)) as (last & Hlast & Hfinish).
  unfold completion_of. rewrite Hlast, Hfinish, (rl_stop _ _ _ _ _ Hr), Hstop. cbn [mbind option_bind]. rewrite Hf.
  eexists. split; [reflexivity|]. unfold answers. cbn.
  rewrite (rl_calls _ _ _ _ _ Hr), (rl_content _ _ _ _ _ Hr), (rl_reasoning _ _ _ _ _ Hr). split_and!; try done.
  by exists r.
Qed.

(** C15: a Messages stream that keeps to the protocol, cut into chunks anywhere, reaches a chat
    client as the message it says: all of its text and of its thinking in order, each tool call
    under the client's own name with its whole arguments, and its stop reason in the client's
    terms, whatever follows the end of the stream; or, exactly when its chunks exceed the limit
    of a whole answer, as the error that says so. *)
Theorem chat_relays_message id created fs p chunks tail :
  relayable fs p → concat chunks = concat (render <$> fs) →
  let reads := data chunks ++ tail in
  ∃ c, answers (view <$> fs) p c ∧
    jsonResponse ctx names id created reads =
      Some (if over_limit id created 0 (g_out (chatChunks ctx names reads))
            then inl (Some completion_too_large) else inr c).
Proof.
  intros Hrel Hc reads. destruct (relayed_message fs p chunks tail Hrel Hc) as (c & Hg & Ha).
  exists c. split; [done|]. unfold jsonResponse. fold reads in Hg. rewrite Hg. by destruct (over_limit _ _ _ _).
Qed.
End relay.

(** * Whatever the upstream sends *)

Section any_stream.
Context (ctx : ChatIngressContext) (names : jmap string string).

(** A call the client can make: an id, a name of its own, arguments *)
Record well_formed_call (c : call) : Prop := {
  wc_id : ∃ id, cl_id c = Some id ∧ id ≠ ""%string;
  wc_type : cl_type c = true;
  wc_name : ∃ n name, names !! n = Some name ∧ cl_name c = truthy_string (Some name) }.

(** The tool blocks are the calls sent, with the arguments sent. *)
Record tracks (s : chat) (k : collected) : Prop := {
  tk_wf : jwf (c_blocks s);
  tk_length : length (k_calls k) = c_tools s;
  tk_calls : ∀ t x, k_calls k !! t = Some x → ∃ c, x = Some c ∧ well_formed_call c;
  tk_block : ∀ z b t, c_blocks s !! z = Some b → cb_tool b = Some t →
    ∃ c, k_calls k !! t = Some (Some c) ∧ cl_arguments c = Some (cb_args b);
  tk_inj : ∀ z z' b b' t, c_blocks s !! z = Some b → c_blocks s !! z' = Some b' →
    cb_tool b = Some t → cb_tool b' = Some t → z = z';
  tk_surj : ∀ t, (t < c_tools s)%nat → ∃ z b, c_blocks s !! z = Some b ∧ cb_tool b = Some t;
  tk_stop : ∀ f, c_stop s = Some f → ∃ r, lookup_reason r = Some f }.

Lemma tracks_init : tracks chat_init collected_init.
Proof. split; try done; [apply NoDup_nil_2|cbn; lia]. Qed.

Lemma tracks_same s k s' k' :
  tracks s k → c_blocks s' = c_blocks s → c_tools s' = c_tools s → k_calls k' = k_calls k →
  c_stop s' = c_stop s → tracks s' k'.
Proof. intros [] Hb Ht Hk Hf. by split; rewrite ?Hb, ?Ht, ?Hk, ?Hf. Qed.

Lemma tracks_reason s k r f : tracks s k → lookup_reason r = Some f → tracks (set_stop f s) k.
Proof. intros [] Hr. split; try done. cbn. intros f' [= <-]. by exists r. Qed.

(** A block that is no tool's is replaced by one that is none. *)
Lemma tracks_other s k z b :
  tracks s k → cb_tool b = None → (∀ b0, c_blocks s !! z = Some b0 → cb_tool b0 = None) →
  tracks (set_blocks (<[z := b]> (c_blocks s)) (c_tools s) s) k.
Proof.
  intros [Hwf Hl Hc Hb Hi Hs Hf0] Hnone Hold. split; cbn; try done.
  - by apply jwf_insert.
  - intros z' b' t. rewrite jlookup_insert. case_decide; [intros; simplify_eq; congruence|]. by apply Hb.
  - intros z1 z2 b1 b2 t. rewrite !jlookup_insert. repeat case_decide; intros; simplify_eq; try congruence. by eapply Hi.
  - intros t Ht. destruct (Hs t Ht) as (z' & b' & Hz' & Ht'). exists z', b'. rewrite jlookup_insert.
    case_decide as Hz; [|done]. subst z'. rewrite (Hold b' Hz') in Ht'. done.
Qed.

Lemma tracks_push s k z b id n name :
  tracks s k → c_blocks s !! z = None → cb_tool b = Some (c_tools s) → cb_args b = ""%string → id ≠ ""%string →
  names !! n = Some name →
  tracks (set_blocks (<[z := b]> (c_blocks s)) (S (c_tools s)) s)
    (collect k (Some (chunk s (call_delta (c_tools s) id name)))).
Proof.
  intros [Hwf Hl Hc Hb Hi Hs Hf0] Hz Ht Ha Hid Hn.
  assert (k_calls (collect k (Some (chunk s (call_delta (c_tools s) id name))))
          = k_calls k ++ [Some {| cl_id := Some id; cl_type := true; cl_name := truthy_string (Some name);
                                  cl_arguments := Some ""%string |}]) as Hk.
  { cbn. unfold collect_call. cbn. rewrite <-Hl, assign_end, lookup_ge_None_2 by lia. unfold merge_call, prefer_truthy. cbn.
    destruct id; [done|]. by destruct name. }
  assert (∀ z' b' t, c_blocks s !! z' = Some b' → cb_tool b' = Some t → t ≠ c_tools s) as Hne.
  { intros z' b' t Hz' Ht'. destruct (Hb _ _ _ Hz' Ht') as (c & Hcall & _). apply lookup_lt_Some in Hcall. lia. }
  split; rewrite ?Hk; cbn.
  - by apply jwf_insert.
  - rewrite length_app. cbn. lia.
  - intros t x [Hx|[_ Hx]]%lookup_app_Some; [by eapply Hc|]. apply list_lookup_singleton_Some in Hx as [_ <-].
    eexists. split; [done|]. split; cbn; eauto.
  - intros z' b' t. rewrite jlookup_insert. case_decide.
    + intros [= <-] Ht'. rewrite Ht in Ht'. injection Ht' as <-. rewrite <-Hl, lookup_app_r, Nat.sub_diag by lia. rewrite Ha. eauto.
    + intros Hz' Ht'. destruct (Hb _ _ _ Hz' Ht') as (c & Hcall & Hargs). exists c.
      by rewrite lookup_app_l by eauto using lookup_lt_Some.
  - intros z1 z2 b1 b2 t. rewrite !jlookup_insert. repeat case_decide; intros; simplify_eq; try done.
    + exfalso. by eapply Hne.
    + exfalso. by eapply Hne.
    + by eapply Hi.
  - intros t Hlt. destruct (decide (t = c_tools s)) as [->|].
    + exists z, b. by rewrite jlookup_insert_eq.
    + destruct (Hs t) as (z' & b' & Hz' & Ht'); [lia|]. exists z', b'. rewrite jlookup_insert_ne; [done|]. congruence.
  - exact Hf0.
Qed.

(** A tool block takes more arguments, or none, and may close. *)
Lemma tracks_args s k z b b' t args :
  tracks s k → c_blocks s !! z = Some b → cb_tool b = Some t → cb_tool b' = Some t → cb_args b' = cb_args b +:+ args →
  tracks (change_block z b' s) (collect k (Some (chunk (change_block z b' s) (arguments_delta t args)))).
Proof.
  intros [Hwf Hl Hc Hb Hi Hs Hf0] Hz Ht Ht' Ha. destruct (Hb _ _ _ Hz Ht) as (c & Hcall & Hargs).
  pose proof (lookup_lt_Some _ _ _ Hcall) as Hlt. destruct (Hc _ _ Hcall) as (c0 & [= <-] & Hgood).
  assert (k_calls (collect k (Some (chunk (change_block z b' s) (arguments_delta t args))))
    = <[t := Some {| cl_id := cl_id c; cl_type := cl_type c; cl_name := cl_name c; cl_arguments := Some (cb_args b') |}]> (k_calls k)) as Hk.
  { cbn. unfold collect_call. cbn. rewrite assign_in by done. rewrite Hcall. cbn. unfold merge_call. cbn. by rewrite Hargs, Ha. }
  split; rewrite ?Hk; cbn.
  - by apply jwf_insert.
  - by rewrite length_insert.
  - intros t' x [(-> & <- & _)|[_ Hx]]%list_lookup_insert_Some; [|by eapply Hc].
    eexists. split; [done|]. by destruct Hgood.
  - intros z' b0 t'. rewrite jlookup_insert. case_decide as Hzz.
    + intros [= <-] Ht0. rewrite Ht' in Ht0. injection Ht0 as <-. rewrite list_lookup_insert_eq by done. eauto.
    + intros Hz' Ht0. destruct (Hb _ _ _ Hz' Ht0) as (c' & Hc' & Ha'). exists c'. rewrite list_lookup_insert_ne; [done|].
      intros ->. apply Hzz. by eapply Hi.
  - intros z1 z2 b1 b2 t0. rewrite !jlookup_insert. repeat case_decide; intros; simplify_eq; try done; by eapply Hi.
  - intros t0 Hlt0. destruct (Hs t0 Hlt0) as (z' & b0 & Hz' & Ht0). destruct (decide (z = z')) as [->|].
    + exists z', b'. rewrite jlookup_insert_eq. split; [done|]. congruence.
    + exists z', b0. by rewrite jlookup_insert_ne.
  - exact Hf0.
Qed.

Lemma tracks_close s k z b b' t :
  tracks s k → c_blocks s !! z = Some b → cb_tool b = Some t → cb_tool b' = Some t → cb_args b' = cb_args b →
  tracks (change_block z b' s) k.
Proof.
  intros [Hwf Hl Hc Hb Hi Hs Hf0] Hz Ht Ht' Ha. split; cbn; try done.
  - by apply jwf_insert.
  - intros z' b0 t'. rewrite jlookup_insert. case_decide as Hzz; [|by apply Hb].
    intros [= <-] Ht0. rewrite Ha. subst z'. apply (Hb z b); [done|congruence].
  - intros z1 z2 b1 b2 t0. rewrite !jlookup_insert. repeat case_decide; intros; simplify_eq; try done; by eapply Hi.
  - intros t0 Hlt0. destruct (Hs t0 Hlt0) as (z' & b0 & Hz' & Ht0). destruct (decide (z = z')) as [->|].
    + exists z', b'. rewrite jlookup_insert_eq. split; [done|]. congruence.
    + exists z', b0. by rewrite jlookup_insert_ne.
Qed.

(** ** One event *)

Definition unfinished (out : list (option ChatChunk)) : Prop := ∀ c, Some c ∈ out → ch_finish c = None.

(** The finish reasons of a chat completion *)
Definition FINISH_REASONS : list string := ["stop"; "length"; "tool_calls"; "content_filter"]%string.

(** What the client is told at the end: one of its reasons, or, when the stop reason of the
    upstream names what every object inherits, none *)
Definition told (f : finish) : Prop :=
  match f with
  | Finish r => r ∈ FINISH_REASONS ∧ finish_json (Some f) = Some (JStr r)
  | Inherited name => name ∈ INHERITED ∧ ∀ r, finish_json (Some f) ≠ Some (JStr r)
  end.

Lemma lookup_reason_told r f : lookup_reason r = Some f → told f.
Proof.
  unfold lookup_reason. destruct (alist_get r REASONS) as [x|] eqn:E.
  - intros [= <-]. split; [|done]. unfold FINISH_REASONS.
    apply alist_get_In in E. unfold REASONS in E. set_solver.
  - case_bool_decide; [|done]. intros [= <-]. split; [done|]. intros x. cbn. by destruct (String.eqb _ _).
Qed.

(** What a finish stands for *)
Definition whole (k : collected) (f : finish) : Prop :=
  (f = Finish "tool_calls" → k_calls k ≠ []) ∧
  (checked f = true → ∀ t c, k_calls k !! t = Some (Some c) → ∃ a, cl_arguments c = Some a ∧ parses_to_object a = true).

Definition steps_to (s : chat) (k : collected) (r : fallible step) : Prop :=
  match r with
  | inl _ => True
  | inr (s', out) =>
      tracks s' (foldl collect k out) ∧
      (c_terminal s' = c_terminal s ∧ unfinished out
       ∨ c_terminal s' = true ∧ ∃ last f, out = [Some last] ∧ ch_finish last = Some f ∧ told f ∧ whole (foldl collect k out) f)
  end.

Lemma steps_quiet s k s' : tracks s' k → c_terminal s' = c_terminal s → steps_to s k (quiet s').
Proof. intros. split; [done|]. left. split; [done|]. by intros c ?%elem_of_nil. Qed.

Lemma steps_yield s k s' d :
  tracks s' (collect k (Some (chunk s' d))) → c_terminal s' = c_terminal s → steps_to s k (yield s' d).
Proof. intros. split; [done|]. left. split; [done|]. intros c Hc. apply list_elem_of_singleton in Hc. by injection Hc as ->. Qed.

Lemma steps_initial s k s' v d :
  tracks s' k → c_terminal s' = c_terminal s → (∀ t, d_tool_calls (d t) = []) → steps_to s k (yield_initial s' v d).
Proof.
  intros Ht Hs Hd. unfold yield_initial. destruct (truthy_string _) as [t|]; [|by apply steps_quiet].
  apply steps_yield; [|done]. eapply tracks_same; try done. cbn. by rewrite Hd.
Qed.

Lemma steps_refuse s k b message r : (b = false → steps_to s k r) → steps_to s k (refuse b message;; r).
Proof. destruct b; [done|]. intros H. by apply H. Qed.

Lemma steps_message_start s k e : tracks s k → steps_to s k (message_start ctx e s).
Proof.
  intros Ht. unfold message_start. apply steps_refuse. intros _. apply steps_refuse. intros _.
  apply steps_yield; [|done]. by eapply tracks_same.
Qed.

Lemma steps_block_start s k e : tracks s k → steps_to s k (content_block_start names e s).
Proof.
  intros Ht. unfold content_block_start. destruct (count _) as [i|]; [|done]. apply steps_refuse.
  intros [Hfresh%bool_decide_eq_false _]%orb_false_iff. apply eq_None_not_Some in Hfresh.
  assert (∀ kind v, tracks (put_block i kind None v s) k) as Hput.
  { intros kind v. by apply tracks_other; [|..|intros b0; rewrite Hfresh]. }
  destruct (String.eqb _ "text"); [by apply steps_initial|]. destruct (String.eqb _ "thinking"); [by apply steps_initial|].
  destruct (String.eqb _ "redacted_thinking"); [by apply steps_quiet|].
  destruct (truthy_string (as_string (opt_prop _ "id"))) as [id|] eqn:Eid; [|done].
  destruct (as_string (opt_prop _ "name")) as [n|]; [|done]. cbn [mbind option_bind].
  destruct (names !! n) as [name|] eqn:En; [|done]. destruct (String.eqb _ "tool_use"); [|done].
  apply steps_yield; [|done]. eapply (tracks_push s k i); try done.
  intros ->. unfold truthy_string in Eid. by destruct (as_string _) as [[]|].
Qed.

Lemma open_block_lookup e s i b : open_block e s = Some (i, b) → c_blocks s !! i = Some b.
Proof.
  unfold open_block. destruct (count _) as [z|]; [|done]. cbn. destruct (c_blocks s !! z) as [b'|] eqn:E; [|done].
  cbn. destruct (cb_closed b'); [done|]. intros. by simplify_eq.
Qed.

Lemma steps_block_delta s k e : tracks s k → steps_to s k (content_block_delta e s).
Proof.
  intros Ht. unfold content_block_delta. destruct (open_block e s) as [[i b]|] eqn:Eo; [|done].
  apply open_block_lookup in Eo.
  destruct (_ && _ && _); [by apply steps_yield; [eapply tracks_same|]|].
  destruct (_ && _ && _); [by apply steps_yield; [eapply tracks_same|]|].
  destruct (_ && _); [by apply steps_quiet|]. destruct (is_string _ _); [|done].
  destruct (cb_tool b) as [t|] eqn:Et; [|done]. destruct (as_string _) as [j|]; [|done].
  apply steps_refuse. intros _. apply steps_yield; [|done]. by eapply tracks_args.
Qed.

Lemma steps_block_stop s k e : tracks s k → steps_to s k (content_block_stop e s).
Proof.
  intros Ht. unfold content_block_stop. destruct (open_block e s) as [[i b]|] eqn:Eo; [|done].
  apply open_block_lookup in Eo. cbn [close_block cb_tool cb_args cb_initial].
  destruct (cb_tool b) as [t|] eqn:Et.
  - destruct (String.eqb_spec (cb_args b) "") as [Ha|_].
    + destruct (cb_initial b) as [[| | | | |m]|]; try done. apply steps_yield; [|done]. eapply tracks_args; [done..|].
      cbn. by rewrite Ha.
    + apply steps_quiet; [|done]. by eapply tracks_close.
  - apply steps_quiet; [|done]. apply tracks_other; [done..|]. intros b0 Hb0. rewrite Eo in Hb0. by injection Hb0 as <-.
Qed.

Lemma steps_message_delta s k e : tracks s k → steps_to s k (message_delta e s).
Proof.
  intros Ht. unfold message_delta. destruct (nullish _); [apply steps_quiet; [by eapply tracks_same|done]|].
  destruct (_ ≫= _) as [f|] eqn:Ef; [|done]. apply bind_Some in Ef as (r & _ & Hr).
  apply steps_quiet; [|done]. eapply tracks_reason; [by eapply tracks_same|exact Hr].
Qed.

Lemma steps_message_stop s k : tracks s k → steps_to s k (message_stop ctx s).
Proof.
  intros Ht. unfold message_stop. destruct (c_stop s) as [f|] eqn:Ef; [|done].
  apply steps_refuse. intros _. apply steps_refuse. intros Htools. apply steps_refuse. intros Hobj.
  split; [by eapply tracks_same|]. right. split; [done|]. eexists _, f.
  destruct Ht as [Hwf Hl Hc Hb Hi Hs Hf0]. destruct (Hf0 f Ef) as [r Hr].
  split_and!; [done..|by eapply lookup_reason_told|]. split.
  - intros -> Hk. cbn in Hk. rewrite Hk in Hl. cbn in Hl. by rewrite <-Hl in Htools.
  - intros Hch t c Hcall. rewrite Hch in Hobj. cbn in Hobj. cbn in Hcall.
    destruct (Hs t) as (z & b & Hz & Htb); [rewrite <-Hl; by eapply lookup_lt_Some|].
    destruct (Hb _ _ _ Hz Htb) as (c' & Hcall' & Ha). rewrite Hcall in Hcall'. injection Hcall' as <-.
    exists (cb_args b). split; [done|]. destruct (parses_to_object (cb_args b)) eqn:Ep; [done|].
    exfalso. apply not_true_iff_false in Hobj. apply Hobj, List.existsb_exists. exists b. split.
    + apply list_elem_of_In, list_elem_of_fmap. exists (z, b). split; [done|]. by apply jelem_of_entries.
    + by rewrite Htb, Ep.
Qed.

Lemma steps_event s k e type : tracks s k → steps_to s k (handle_event ctx names e type s).
Proof.
  intros Ht. unfold handle_event. destruct (_ || _); [done|].
  destruct (is_string _ _). { split; [done|]. left. split; [done|]. by intros c ?%list_elem_of_singleton. }
  destruct (is_string _ _); [by apply steps_message_start|]. destruct (negb _); [done|].
  destruct (is_string _ _); [by apply steps_block_start|]. destruct (is_string _ _); [by apply steps_block_delta|].
  destruct (is_string _ _); [by apply steps_block_stop|]. destruct (is_string _ _); [by apply steps_message_delta|].
  destruct (is_string _ _); [by apply steps_message_stop|done].
Qed.

Lemma steps_process s k t : tracks s k → steps_to s k (process ctx names t s).
Proof.
  intros Ht. unfold process. destruct (c_terminal s); [by apply steps_quiet|].
  destruct (join_lines _).
  - destruct (existsb _ _); [|by apply steps_quiet]. split; [done|]. left. split; [done|].
    by intros c ?%list_elem_of_singleton.
  - destruct (parse _); [|done]. by apply steps_event.
Qed.

(** ** The stream *)

(** Nothing is finished until everything is. *)
Definition sound (g : gen) : Prop :=
  tracks (g_chat g) (foldl collect collected_init (g_out g)) ∧
  match g_end g with
  | Some Completed =>
      ∃ out last f, g_out g = out ++ [Some last] ∧ unfinished out ∧ ch_finish last = Some f
        ∧ told f ∧ whole (foldl collect collected_init (g_out g)) f
  | _ => unfinished (g_out g)
  end.
Definition running (g : gen) : Prop := g_end g = None → c_terminal (g_chat g) = false.

Lemma sound_take frame rest g :
  sound g → running g → g_end g = None → sound (take_frame ctx names frame rest g) ∧ running (take_frame ctx names frame rest g).
Proof.
  intros [Ht Hu] Hrun He. specialize (Hrun He). rewrite He in Hu. unfold take_frame.
  pose proof (steps_process (g_chat g) _ frame Ht) as Hst. destruct (process _ _ _ _) as [e|[s' out]]; [done|].
  destruct Hst as [Ht' Hst]. split.
  - split; cbn; [by rewrite foldl_app|]. destruct Hst as [[Hterm Hout]|(Hterm & last & f & -> & Hf & Htold & Hw)].
    + rewrite Hterm, Hrun. intros c [Hc|Hc]%elem_of_app; [by apply Hu|by apply Hout].
    + rewrite Hterm. exists (g_out g), last, f. split_and!; try done. by rewrite foldl_app.
  - intros Hend. cbn in *. by destruct (c_terminal s').
Qed.

Lemma sound_stop g o : sound g → g_end g = None → o ≠ Completed → sound (stop_with o g).
Proof. intros [Ht Hu] He Ho. rewrite He in Hu. split; [done|]. by destruct o. Qed.

Lemma sound_drain n g : sound g → running g → sound (drain ctx names n g) ∧ running (drain ctx names n g).
Proof.
  revert g. induction n as [|n IH]; intros g Hg Hr; cbn [drain]; destruct (g_end g) as [o|] eqn:Eo; try done.
  - destruct (_ <? _); [|done]. split; [by apply sound_stop|done].
  - destruct (split_frame _) as [[frame rest]|]; (destruct (_ <? _); [split; [by apply sound_stop|done]|]); [|done].
    destruct (sound_take frame rest g Hg Hr Eo). by apply IH.
Qed.

Lemma sound_read r g : sound g → running g → sound (on_read ctx names r g) ∧ running (on_read ctx names r g).
Proof.
  intros Hg Hr. unfold on_read. destruct (g_end g) as [o|] eqn:Eo; [done|].
  destruct r as [[t|]| |]; try (by split; [apply sound_stop|]).
  apply sound_drain.
  - destruct Hg as [Ht Hu]. rewrite Eo in Hu. split; [done|]. cbn. by rewrite Eo.
  - done.
Qed.

Lemma sound_reads reads g :
  sound g → running g → sound (foldl (λ g r, on_read ctx names r g) g reads).
Proof.
  revert g. induction reads as [|r reads IH]; intros g Hg Hr; cbn; [done|].
  destruct (sound_read r g Hg Hr). by apply IH.
Qed.

End any_stream.

(** * A stream *)

Definition demo_context : ChatIngressContext :=
  {| outgoingModel := Some "m"%string; reportedModel := None; structuredOutput := false; usageObserved := None |}.

(** A text block and a call of the client's [list], which the upstream knows as [ls] *)
Definition demo_frames : list frame :=
  let event t fields := (t, JObj (("type", JStr t) :: fields)) in
  [event "message_start" [("message", JObj [("model", JStr "m")])];
   event "content_block_start" [("index", JInt 0); ("content_block", JObj [("type", JStr "text"); ("text", JStr "")])];
   event "content_block_delta" [("index", JInt 0); ("delta", JObj [("type", JStr "text_delta"); ("text", JStr "Hi")])];
   event "content_block_stop" [("index", JInt 0)];
   event "content_block_start"
     [("index", JInt 1);
      ("content_block", JObj [("type", JStr "tool_use"); ("id", JStr "call_1"); ("name", JStr "ls"); ("input", JObj [])])];
   event "content_block_delta"
     [("index", JInt 1); ("delta", JObj [("type", JStr "input_json_delta"); ("partial_json", JStr "{}")])];
   event "content_block_stop" [("index", JInt 1)];
   event "message_delta" [("delta", JObj [("stop_reason", JStr "tool_use")]); ("usage", JObj [])];
   event "message_stop" []]%string.

Definition demo_names : jmap string string := <["ls"%string := "list"%string]> ∅.

Definition demo_message : proto :=
  default p_init (p_run p_init (view <$> demo_frames)).

Lemma demo_relayable : relayable demo_context demo_names demo_frames demo_message.
Proof.
  split; [reflexivity|reflexivity| | | |].
  - split; [vm_compute; lia|]. intros [|[|i]] b id name; cbn; intros; simplify_eq/=.
    split_and!; [done|by exists "list"%string|by vm_compute].
  - exists "tool_use"%string, (Finish "tool_calls"). split_and!; [done..|].
    intros _ [|[|i]] b id name; cbn; intros; by simplify_eq/=.
  - repeat constructor; discriminate || by eexists.
  - repeat constructor; by apply one_line_bool || by vm_compute.
Qed.

Example chat_relays_message_witness :
  let bytes := concat (render <$> demo_frames) in
  ∃ c, jsonResponse demo_context demo_names "id" 0 (data [take 77 bytes; drop 77 bytes] ++ [RThrow]) = Some (inr c)
    ∧ answers demo_context demo_names (view <$> demo_frames) demo_message c.
Proof.
  cbv zeta. set (bytes := concat (render <$> demo_frames)).
  destruct (chat_relays_message demo_context demo_names "id" 0 demo_frames demo_message [take 77 bytes; drop 77 bytes] [RThrow])
    as (c & Ha & Hj); [exact demo_relayable|cbn [concat]; rewrite app_nil_r; apply take_drop|].
  exists c. split; [|exact Ha]. rewrite Hj.
  replace (over_limit _ _ _ _) with false by (vm_compute; reflexivity). reflexivity.
Defined.
