(* ===== verification/ChatThrough.v ===== *)
(** From an OpenAI upstream to a chat client

    The stream transformer of [OpenAiStream] writes Messages events and [ChatStream] reads
    them: the message of the one is the message of the other. *)

From Stdlib Require Import QArith_base.
From S2P Require Import Prelude.
From S2P Require Import Rationals.
From S2P Require Import Json.
From S2P Require Import Programs.
From S2P Require Import StableSort.
From S2P Require Import Messages.
From S2P Require Import OpenAiFormats.
From S2P Require Import ChatStream.
From S2P Require Import ChatRelay.
From S2P Require Import ChatSafety.
From S2P Require Import OpenAiStream.
Open Scope Z_scope.

(** * One block's text *)

#[local] Instance delta_kind_eq_dec : EqDecision delta_kind.
Proof. solve_decision. Defined.

Definition of_kind (d : delta_kind) (b : bstate) : bool := fits (b_kind b) d.

(** The texts of the blocks of a kind, in the order of the blocks *)
Definition texts (d : delta_kind) (bs : list bstate) : string :=
  foldr (λ b t, (if of_kind d b then b_text b else "") +:+ t) ""%string bs.

#[local] Arguments texts : simpl never.

Lemma texts_cons d b bs : texts d (b :: bs) = (if of_kind d b then b_text b else "") +:+ texts d bs.
Proof. done. Qed.

Lemma texts_app d bs bs' : texts d (bs ++ bs') = texts d bs +:+ texts d bs'.
Proof. induction bs as [|b bs IH]; [done|]. cbn [app]. by rewrite !texts_cons, IH, string_app_assoc. Qed.

Lemma texts_none d bs : Forall (λ b, of_kind d b = false) bs → texts d bs = "".
Proof. induction 1 as [|b bs Hb _ IH]; [done|]. by rewrite texts_cons, Hb, IH. Qed.

(** At most one block of the kind *)
Definition single (d : delta_kind) (bs : list bstate) : Prop :=
  ∀ i j b b', bs !! i = Some b → bs !! j = Some b' → of_kind d b = true → of_kind d b' = true → i = j.

Lemma texts_insert_same d bs i b b' :
  bs !! i = Some b → of_kind d b' = of_kind d b → (of_kind d b = true → b_text b' = b_text b) →
  texts d (<[i := b']> bs) = texts d bs.
Proof.
  revert i. induction bs as [|x bs IH]; intros [|i]; cbn; intros Hi Hk Ht; simplify_eq; rewrite !texts_cons; [|f_equal; by apply IH].
  rewrite Hk. destruct (of_kind d b); [by rewrite Ht|done].
Qed.

Lemma texts_insert_append d bs i b b' s :
  bs !! i = Some b → single d bs → of_kind d b = true → of_kind d b' = true → b_text b' = b_text b +:+ s →
  texts d (<[i := b']> bs) = texts d bs +:+ s.
Proof.
  intros Hi Hs Hb Hb' Ht. rewrite <-(take_drop_middle bs i b Hi) at 2.
  rewrite insert_take_drop by by eapply lookup_lt_Some. rewrite !texts_app, !texts_cons.
  rewrite Hb, Hb', Ht. assert (texts d (drop (S i) bs) = "") as ->.
  { apply texts_none, Forall_forall. intros x Hx. apply list_elem_of_lookup in Hx as [j Hj]. rewrite lookup_drop in Hj.
    destruct (of_kind d x) eqn:Ex; [|done]. specialize (Hs i _ b x Hi Hj Hb Ex). lia. }
  by rewrite !string_app_nil_r, string_app_assoc.
Qed.

Lemma single_grows d p p' : grows p p' → single d (p_blocks p') → single d (p_blocks p).
Proof.
  intros Hg Hs i j b b' Hi Hj Hb Hb'. destruct (Hg _ _ Hi) as (c & Hc & Hk & _). destruct (Hg _ _ Hj) as (c' & Hc' & Hk' & _).
  apply (Hs i j c c'); try done; unfold of_kind in *; congruence.
Qed.

Lemma fits_inj b d d' : fits b d = true → fits b d' = true → d = d'.
Proof. by destruct b, d, d'. Qed.

Lemma said_step d p e p' t :
  p_step p e = Some p' → sane p → single d (p_blocks p') → texts d (p_blocks p) = t →
  texts d (p_blocks p') = t +:+ said d [e].
Proof.
  intros Hstep Hsane Hs <-. destruct (p_step_sane _ _ _ Hstep Hsane) as [_ Hg].
  destruct e as [m| |i b|i d' s|i|r u| | |]; cbn in Hstep.
  - destruct (p_started p) eqn:Es; simplify_eq. rewrite (Hsane Es). done.
  - simplify_eq. by rewrite string_app_nil_r.
  - destruct (negb _ || _); [done|]. destruct (i =? _); [|done]. simplify_eq. cbn. rewrite texts_app, texts_cons. cbn.
    by destruct (of_kind _ _).
  - destruct (negb _ || _); [done|]. unfold block_at in Hstep. destruct (0 <=? i); [|done].
    destruct (p_blocks p !! _) as [b|] eqn:E; [|done]. cbn in Hstep. destruct (b_open b); [|done].
    destruct (fits (b_kind b) d') eqn:Ef; [|done]. cbn in Hstep. injection Hstep as <-. cbn.
    rewrite (alter_insert _ _ _ _ E). destruct (decide (d = d')) as [<-|Hne].
    + rewrite (texts_insert_append d _ _ b _ s E); [|by eapply single_grows|done..].
      destruct d; cbn; by rewrite string_app_nil_r.
    + assert (of_kind d b = false) as Hk.
      { destruct (of_kind d b) eqn:Ek; [|done]. exfalso. apply Hne. by eapply fits_inj. }
      rewrite (texts_insert_same d _ _ b); [|done..|by rewrite Hk]. destruct d, d'; try done; by rewrite string_app_nil_r.
  - destruct (negb _ || _); [done|]. unfold block_at in Hstep. destruct (0 <=? i); [|done].
    destruct (p_blocks p !! _) as [b|] eqn:E; [|done]. cbn in Hstep. destruct (b_open b); [|done]. injection Hstep as <-. cbn.
    rewrite (alter_insert _ _ _ _ E). by rewrite (texts_insert_same d _ _ b), string_app_nil_r.
  - destruct (negb _ || _); [done|]. destruct (forallb _ _); [|done]. simplify_eq. by rewrite string_app_nil_r.
  - destruct (negb _ || _); [done|]. destruct (_ && _); [|done]. simplify_eq. by rewrite string_app_nil_r.
  - done.
  - done.
Qed.

(** Where a kind has one block, the deltas in their order are its text. *)
Lemma said_single d es p : p_run p_init es = Some p → single d (p_blocks p) → said d es = texts d (p_blocks p).
Proof.
  revert p. induction es as [|e es IH] using rev_ind; intros p Hrun Hs; [by injection Hrun as <-|].
  rewrite p_run_app in Hrun. apply bind_Some in Hrun as (q & Hq & Hstep). cbn in Hstep.
  destruct (p_step q e) as [q'|] eqn:E; [|done]. injection Hstep as ->.
  destruct (p_run_sane _ _ _ Hq) as [Hsane _]; [done|]. destruct (p_step_sane _ _ _ E Hsane) as [_ Hg].
  rewrite said_app, (IH q Hq) by by eapply single_grows. symmetry. by eapply said_step.
Qed.

(** * What the transformer writes can be sent *)

Definition integral (q : Qc) : Prop := ∃ z, q = Qc_of_Z z.

Lemma integral_plain q : integral q → plain (JNum q) = true.
Proof. intros [z ->]. apply bool_decide_eq_true. apply Qc_of_Z_parts. Qed.

Lemma plain_integral q : plain (JNum q) = true → integral q.
Proof. intros H%bool_decide_eq_true. exists (Qnum (this q)). by apply integer_Qc. Qed.

Lemma Qc_of_Z_sub a b : (Qc_of_Z a - Qc_of_Z b)%Qc = Qc_of_Z (a - b).
Proof. by rewrite Z2Qc_inj_sub. Qed.

Lemma integral_sub p q : integral p → integral q → integral (p - q).
Proof. intros [a ->] [b ->]. exists (a - b). apply Qc_of_Z_sub. Qed.

Lemma integral_min p q : integral p → integral q → integral (Qc_min p q).
Proof. intros Hp Hq. by destruct (Qc_min_cases p q) as [-> | ->]. Qed.

Lemma integral_zero : integral 0%Qc.
Proof. exists 0. by apply Qc_is_canon. Qed.

(** Each value that is there is plain. *)
Definition plain_value (v : value) : Prop := from_option (λ v, plain v = true) True v.

Lemma plain_own k v : plain v = true → plain_value (own k v).
Proof.
  intros Hv. destruct v as [| | | | |m]; try done. cbn. cbn in Hv. apply andb_true_iff in Hv as [_ Hv].
  rewrite forallb_forall in Hv. destruct (alist_get k m) as [x|] eqn:E; [|done]. apply alist_get_In in E.
  apply list_elem_of_In in E. by apply (Hv _ E).
Qed.

Lemma plain_first v : plain_value v → plain_value (opt_first v).
Proof.
  destruct v as [[| | |[|c s]|[|x l]|m]|]; try done; intros Hv.
  - cbn in Hv. by apply andb_true_iff in Hv as [Hv _].
  - by apply (plain_own "0" (JObj m)).
Qed.

Lemma plain_prop v k : plain_value v → plain_value (opt_prop v k).
Proof. destruct v as [v|]; [|done]. apply plain_own. Qed.

Lemma plain_obj fields :
  bool_decide (NoDup fields.*1) = true → Forall (λ kv, plain_value kv.2) fields → plain (obj fields) = true.
Proof.
  intros Hnd%bool_decide_eq_true Hf. unfold obj. cbn. apply andb_true_iff. split.
  - apply bool_decide_eq_true. eapply sublist_NoDup; [exact Hnd|]. clear. induction fields as [|[k [v|]] l IH]; cbn; [done|..].
    + by apply sublist_skip.
    + by apply sublist_cons.
  - clear Hnd. induction Hf as [|[k [v|]] l Hv _ IH]; cbn; [done| |done]. cbn in Hv. by rewrite Hv.
Qed.

Section frames.
Context (cc : ChatIngressContext).

Record good (f : frame) : Prop := {
  gd_name : one_line (to_text f.1);
  gd_plain : plain f.2 = true;
  gd_event : deliverable_event cc (view f) }.

Record good_ctx (c : context) : Prop := {
  gc_model : plain (extractedModel c) = true;
  gc_prompt : plain (promptTokens c) = true;
  gc_completion : plain (completionTokens c) = true;
  gc_read : integral (default 0%Qc (cacheReadInput c));
  gc_creation : integral (default 0%Qc (cacheCreationInput c)) }.

Definition good_stream (s : stream) : Prop := Forall good (out s) ∧ good_ctx (ctx s).

Lemma keeps_get_ctx {A} (f : context → prog stream A) :
  (∀ c, good_ctx c → keeps good_stream (f c)) → keeps good_stream (gets ctx ≫= f).
Proof. intros Hf s Hs. apply Hf; [apply Hs|exact Hs]. Qed.

Lemma keeps_update f : (∀ c, good_ctx c → good_ctx (f c)) → keeps good_stream (update f).
Proof. intros Hf. apply keeps_modify. intros s [Ho Hc]. split; [done|]. by apply Hf. Qed.

Lemma keeps_emit f : good f → keeps good_stream (emit f).
Proof. intros Hf. apply keeps_modify. intros s [Ho Hc]. split; [|done]. cbn. apply Forall_app. by split; [|apply Forall_singleton]. Qed.

Lemma keeps_for_elements {A} (l : list A) f :
  (∀ x, x ∈ l → keeps good_stream (f x)) → keeps good_stream (for_each l f).
Proof.
  induction l as [|x l IH]; intros Hf; cbn; [apply keeps_ret|].
  apply keeps_bind; [apply Hf; by left|]. intros _. apply IH. intros y Hy. apply Hf. by right.
Qed.

(** ** Events *)

Lemma good_event name fields :
  one_line (to_text name) → bool_decide (NoDup ("type"%string :: fields.*1)) = true →
  Forall (λ kv, plain_value kv.2) fields →
  deliverable_event cc (view (OpenAiStream.event name fields)) → good (OpenAiStream.event name fields).
Proof. intros Hn Hnd Hf Hv. split; [done| |done]. apply plain_obj; [done|]. by apply Forall_cons. Qed.

Ltac plain_fields := repeat (apply Forall_cons; split); [..|by apply Forall_nil]; cbn [snd plain_value from_option].

(** Only the start and the end of a message ask for something. *)
Lemma deliverable_other f name :
  own "type" f.2 = Some (JStr name) → name ≠ "message_start"%string → name ≠ "message_delta"%string →
  deliverable_event cc (view f).
Proof.
  intros Ht H1 H2. unfold view. destruct (view_data f.2) as [m|] eqn:E; [|done]. cbn.
  destruct m; try done; (destruct (view_inv _ _ E) as [Ht' _]; [done|]); cbn in Ht'; congruence.
Qed.

Lemma good_other name fields :
  one_line (to_text name) → bool_decide (NoDup ("type"%string :: fields.*1)) = true →
  Forall (λ kv, plain_value kv.2) fields → name ≠ "message_start"%string → name ≠ "message_delta"%string →
  good (OpenAiStream.event name fields).
Proof. intros. apply good_event; [done..|]. by apply (deliverable_other _ name). Qed.

Lemma plain_int z : plain (JInt z) = true.
Proof. apply integral_plain. by exists z. Qed.

Lemma good_block_start i b : plain b = true → good (ev_block_start i b).
Proof.
  intros Hb. apply good_other; [by apply one_line_bool|done| |done..]. plain_fields; [apply plain_int|done].
Qed.

Lemma plain_text_block type field v :
  bool_decide (NoDup ["type"%string; field]) = true → plain v = true → plain (text_block type field v) = true.
Proof. intros Hnd Hv. unfold text_block. cbn [plain forallb fmap list_fmap fst]. by rewrite Hnd, Hv. Qed.

Lemma good_delta i type field v :
  bool_decide (NoDup ["type"%string; field]) = true → plain v = true → good (ev_delta i type field v).
Proof.
  intros Hnd Hv. apply good_other; [by apply one_line_bool|done| |done..]. plain_fields; [apply plain_int|].
  by apply plain_text_block.
Qed.

Lemma good_block_stop i : good (ev_block_stop i).
Proof. apply good_other; [by apply one_line_bool|done| |done..]. plain_fields. apply plain_int. Qed.

Lemma good_stop : good ev_message_stop.
Proof. apply good_other; [by apply one_line_bool|done|by apply Forall_nil|done..]. Qed.

Lemma good_ping : good ev_ping.
Proof. apply good_other; [by apply one_line_bool|done|by apply Forall_nil|done..]. Qed.

Lemma plain_tool_start t : plain t = true → plain (tool_start t) = true.
Proof.
  intros Ht. apply plain_obj; [done|]. plain_fields; try done; [by apply plain_own|].
  by apply plain_prop, plain_own.
Qed.

(** The proxy knows which model it sent. *)
Hypothesis outgoing : default ""%string (outgoingModel cc) ≠ ""%string.

Lemma good_start now model : plain model = true → good (ev_message_start now model).
Proof using outgoing.
  intros Hm. apply good_event; [by apply one_line_bool|done| |].
  - plain_fields. apply plain_obj; [done|]. by plain_fields.
  - change (deliverable_event cc (view (ev_message_start now model))). rewrite view_start. cbn. unfold start_model. destruct (as_string (Some model)) as [m|]; [|done].
    destruct (String.eqb_spec (trim m) "") as [|Ht]; [done|]. destruct (String.eqb m "unknown"); [done|].
    cbn. intros ->. by apply Ht.
Qed.

Lemma good_end r usage :
  is_Some (lookup_reason r) → bool_decide (NoDup usage.*1) = true → Forall (λ kv, plain_value kv.2) usage →
  good (ev_message_delta r usage).
Proof.
  intros Hr Hnd Hu. apply good_event; [by apply one_line_bool|done| |].
  2: { change (deliverable_event cc (view (ev_message_delta r usage))). by rewrite view_message_delta. }
  plain_fields; [|by apply plain_obj]. apply plain_obj; [done|]. by plain_fields.
Qed.

(** ** The transformer *)

Lemma integral_count v : plain_value v → integral (OpenAiFormats.count v).
Proof.
  destruct v as [[| |q| | |]|]; cbn; intros Hv; try apply integral_zero. unfold OpenAiFormats.count. cbn.
  destruct (plain_integral q Hv) as [z ->]. repeat case_match; try apply integral_zero; by eexists.
Qed.

Lemma plain_usage c :
  good_ctx c → bool_decide (NoDup (stream_usage c).*1) = true ∧ Forall (λ kv, plain_value kv.2) (stream_usage c).
Proof.
  intros [_ Hp Hc Hr Hw]. unfold stream_usage. set (n := normalizeCacheInclusiveInput _ _ _).
  assert (integral (inputTokens n) ∧ integral (cacheReadInputTokens n) ∧ integral (cacheCreationInputTokens n)) as (Hi & Hi' & Hi'').
  { assert (integral (OpenAiFormats.count (Some (promptTokens c)))) by by apply integral_count.
    assert (∀ q : option Qc, integral (default 0%Qc q) → integral (OpenAiFormats.count (or_number q))) as Hn.
    { intros q Hq. apply integral_count. by apply integral_plain. }
    pose proof (Hn _ Hr). pose proof (Hn _ Hw). unfold n, normalizeCacheInclusiveInput. cbn.
    split_and!; auto using integral_sub, integral_min. }
  destruct (clamped n); [split; [done|by plain_fields]|].
  split; [by destruct (cacheReadInput c), (cacheCreationInput c)|]. unfold cache_fields.
  plain_fields; try done; try by apply integral_plain.
  - destruct (cacheReadInput c); [by apply integral_plain|done].
  - destruct (cacheCreationInput c); [by apply integral_plain|done].
Qed.

Lemma good_finish r c : good_ctx c → is_Some (lookup_reason r) → good (ev_message_delta r (stream_usage c)).
Proof. intros Hc Hr. destruct (plain_usage c Hc). by apply good_end. Qed.

Lemma keeps_if_truthy v f : plain_value v → (∀ x, plain x = true → keeps good_stream (f x)) → keeps good_stream (if_truthy v f).
Proof. intros Hv Hf. destruct v as [v|]; [|apply keeps_ret]. apply keeps_when. by apply Hf. Qed.

Create HintDb good.
#[local] Hint Resolve good_block_start good_delta good_block_stop good_stop good_ping plain_tool_start
  good_finish good_start gc_model plain_text_block : good.
Ltac good_steps :=
  repeat match goal with
  | |- keeps _ (match ?x with _ => _ end) => destruct x
  | |- keeps _ (gets ctx ≫= _) => apply keeps_get_ctx; intros ? ?
  | |- keeps _ (update _) => apply keeps_update; intros [] []; by constructor
  | |- keeps _ (emit _) => apply keeps_emit; by auto with good
  | |- keeps _ (when _ _) => apply keeps_when
  | |- keeps _ (_ ≫= _) => apply keeps_bind; [|intros []]
  | |- keeps _ (mret _) => apply keeps_ret
  | |- keeps _ throw => apply keeps_throw
  end.

Lemma good_send_start now : keeps good_stream (send_start now).
Proof using outgoing. unfold send_start. good_steps. Qed.

Lemma good_tool_call t : plain t = true → keeps good_stream (tool_call t).
Proof.
  intros Ht. unfold tool_call, open_tool, close_lead, close_thinking, close_text, buffer_arguments. good_steps.
Qed.

Lemma good_reasoning v : plain v = true → keeps good_stream (reasoning_delta v).
Proof. intros Hv. unfold reasoning_delta, close_text. good_steps. Qed.

Lemma good_content v : plain v = true → keeps good_stream (content_delta v).
Proof. intros Hv. unfold content_delta, close_thinking. good_steps. Qed.

Lemma good_note_report data c : plain data = true → good_ctx c → good_ctx (note_report data c).
Proof.
  intros Hd [Hm Hp Hc Hr Hw].
  assert (∀ k, plain_value (own k data)) as Hown by (intros k; by apply plain_own).
  assert (∀ v x, plain_value v → plain x = true → plain (replace_if v x) = true) as Hreplace.
  { intros [v|] x Hv Hx; unfold replace_if; [by destruct (truthy _)|done]. }
  assert (∀ b, plain (if b : bool then default (extractedModel c) (own "model" data) else extractedModel c) = true) as Hmodel.
  { intros []; [|done]. specialize (Hown "model"%string). by destruct (own "model" data). }
  assert (∀ v k q, plain_value v → integral (default 0%Qc q) → integral (default 0%Qc (prefer (reported (opt_prop v k)) q))) as Hcache.
  { intros v k q Hv Hq. pose proof (plain_prop v k Hv) as Hk. unfold reported.
    destruct (opt_prop v k) as [[| |n| | |]|]; cbn; try done. case_bool_decide; [|done]. exact (plain_integral n Hk). }
  unfold note_report. destruct (truthy (own "usage" data)); [|by constructor; cbn; [apply Hmodel|..]].
  destruct (truthy (opt_prop _ "prompt_tokens_details")); cbn [readPromptTokensDetails]; (constructor; cbn [set_report extractedModel promptTokens completionTokens cacheReadInput cacheCreationInput];
    [apply Hmodel|auto using plain_prop..]); done.
Qed.

Lemma keeps_elements l : plain_value l → keeps good_stream (ls ← require (l ≫= iterable); for_each ls tool_call).
Proof.
  intros Hl. destruct (l ≫= iterable) as [ls|] eqn:E; [|apply keeps_throw].
  apply keeps_for_elements. intros t Ht. apply good_tool_call.
  destruct l as [[| | |s|ls'|]|]; cbn in *; simplify_eq.
  - apply list_elem_of_fmap in Ht as (c & -> & _). done.
  - rewrite forallb_forall in Hl. apply Hl. by apply list_elem_of_In.
Qed.

Lemma good_chunk now data : plain data = true → keeps good_stream (handle_chunk now data).
Proof using outgoing.
  intros Hd. unfold handle_chunk. destruct (nullish _); [apply keeps_throw|].
  assert (plain_value (first_choice data)) as Hchoice.
  { by apply plain_first, plain_own. }
  apply keeps_bind; [apply keeps_update; intros c; by apply good_note_report|intros _].
  apply keeps_bind; [apply good_send_start|intros _].
  destruct (truthy _); [by apply keeps_elements; do 2 apply plain_prop|].
  apply keeps_bind; [|intros _]; (apply keeps_if_truthy; [by do 2 apply plain_prop|]); [apply good_reasoning|apply good_content].
Qed.

Lemma good_end_stream r l i reported :
  is_Some (lookup_reason (default (stop_string r) reported)) → keeps good_stream (emitStreamEnd r l i reported).
Proof.
  intros Hr. unfold emitStreamEnd. apply keeps_get_ctx. intros c Hc.
  apply keeps_bind; [by apply keeps_when, keeps_modify|intros _].
  apply keeps_bind; [|intros _].
  { destruct l as [l|]; [apply keeps_for_each; intros z; apply keeps_emit, good_block_stop|]. by good_steps. }
  apply keeps_bind; [apply keeps_emit; by apply good_finish|intros _]. apply keeps_emit, good_stop.
Qed.

Lemma good_length c r : is_Some (lookup_reason (default (stop_string r) (lengthStopReason c))).
Proof.
  unfold lengthStopReason. case_bool_decide as Hf; [rewrite Hf; by eexists|]. destruct r; by eexists.
Qed.

Lemma good_end_tools c : keeps good_stream (end_tools (lengthStopReason c)).
Proof.
  unfold end_tools. apply keeps_get_ctx. intros c' _. apply keeps_bind.
  - apply keeps_for_each. intros [idx block]. by apply keeps_emit, good_delta.
  - intros _. apply good_end_stream, good_length.
Qed.

Lemma good_clear : keeps good_stream clear_context.
Proof. by apply keeps_modify. Qed.

#[local] Hint Resolve good_end_stream good_length good_end_tools good_clear : good.

Lemma good_done : keeps good_stream handle_done.
Proof.
  unfold handle_done. apply keeps_get_ctx. intros c _. apply keeps_bind; [|intros _; auto with good].
  repeat case_match; try apply keeps_when; auto with good.
Qed.

Lemma good_flush_context : keeps good_stream flush_context.
Proof.
  unfold flush_context. apply keeps_get_ctx. intros c _. apply keeps_bind; [|intros _; auto with good].
  repeat case_match; try apply keeps_when; auto with good.
Qed.

(** A line whose data, if it is JSON, is plain *)
Definition plain_line (l : text) : Prop := ∀ d v, data_of l = Some d → parse_string d = Some v → plain v = true.

Lemma good_line now l : plain_line l → keeps good_stream (handle_line now l).
Proof using outgoing.
  intros Hl. unfold handle_line. destruct (data_of l) as [d|] eqn:E; [|apply keeps_ret].
  destruct (String.eqb d _); [apply good_done|]. destruct (parse_string d) as [v|] eqn:Ev; [|apply keeps_ret].
  apply keeps_attempt, good_chunk. by eapply Hl.
Qed.

Lemma plain_body_lines ds (done : bool) : forallb plain ds = true → Forall plain_line (body_lines ds done).
Proof.
  intros Hp. unfold body_lines. apply Forall_bind, Forall_app. split.
  - apply Forall_fmap, Forall_forall. intros d Hd. rewrite forallb_forall in Hp. apply list_elem_of_In, Hp in Hd.
    apply Forall_cons; split; [|by repeat constructor]. intros s v. rewrite data_of_line by done. intros [= <-]. rewrite parse_stringify by done.
    by intros [= <-].
  - destruct done; repeat constructor; intros s v; [|done]. change (data_of done_line) with (Some "[DONE]"%string). by intros [= <-].
Qed.

Lemma good_init m r : good_stream (init m r).
Proof. split; [done|]. split; try done; apply integral_zero. Qed.

Lemma good_translate now m r chunks ds (done : bool) :
  concat chunks = OpenAiStream.body ds done → forallb plain ds = true → Forall good (out (translate now chunks (init m r))).
Proof using outgoing.
  intros Hc Hp. pose proof (split_bodies _ (body_one_line ds done)) as Hsplit.
  change (concat _) with (OpenAiStream.body ds done) in Hsplit. fold (body_lines ds done) in Hsplit.
  destruct (transform_lines now chunks (init m r)) as [b Hb]; [done| |done|].
  { cbn [buffer ctx init start app]. rewrite Hc, Hsplit. by apply body_done_last. }
  cbn [buffer ctx init start app] in Hb. rewrite Hc, Hsplit in Hb. cbn [fst] in Hb.
  unfold translate. rewrite (final_bind _ _ _ tt) by (by rewrite Hb). unfold final at 2. rewrite Hb. cbn [snd].
  assert (keeps good_stream (for_each (body_lines ds done) (handle_line now))) as Hk.
  { apply keeps_for_elements. intros l Hl. apply good_line. pose proof (plain_body_lines ds done Hp) as H.
    rewrite Forall_forall in H. by apply H. }
  specialize (Hk (init m r) (good_init m r)). set (s1 := final _ (init m r)) in *.
  assert (good_stream (with_ctx (set_buffer b) s1)) as Hs1 by (destruct Hk as [Ho []]; split; [done|by constructor]).
  unfold flush. assert (keeps good_stream (l ← gets live; when l flush_context)) as Hf.
  { apply keeps_bind; [apply keeps_gets|]. intros l. apply keeps_when, good_flush_context. }
  apply (Hf _ Hs1).
Qed.
End frames.

(** * From one end to the other *)

Definition lead_text (l : lead) : string :=
  match l with LText c | LThinkingText _ c | LTextThinking c _ => c | _ => "" end.
Definition lead_thinking (l : lead) : string :=
  match l with LThinking r | LThinkingText r _ | LTextThinking _ r => r | _ => "" end.

Lemma single_app d bs bs' : single d bs → Forall (λ b, of_kind d b = false) bs' → single d (bs ++ bs').
Proof.
  intros Hs Hn. rewrite Forall_forall in Hn.
  assert (∀ i b, (bs ++ bs') !! i = Some b → of_kind d b = true → bs !! i = Some b) as Hl.
  { intros i b [Hi|[_ Hi]]%lookup_app_Some Hb; [done|]. apply list_elem_of_lookup_2, Hn in Hi. congruence. }
  intros i j b b' Hi Hj Hb Hb'. by eapply Hs; eauto.
Qed.

Lemma reply_texts u d s :
  (d, s) = (TextDelta, lead_text (u_lead u)) ∨ (d, s) = (ThinkingDelta, lead_thinking (u_lead u)) →
  single d (reply_blocks u) ∧ texts d (reply_blocks u) = s.
Proof.
  intros Hd. unfold reply_blocks. set (tools := map _ (u_tools u)).
  assert (Forall (λ b, of_kind d b = false) tools) as Ht.
  { apply Forall_fmap, Forall_true. intros t. by destruct Hd as [[= -> ->]|[= -> ->]]. }
  rewrite texts_app, (texts_none _ tools), string_app_nil_r by done. clearbody tools. split.
  - apply single_app; [|done]. destruct (u_lead u), Hd as [[= -> ->]|[= -> ->]];
      intros [|[|i]] [|[|j]] b b'; cbn; intros; simplify_eq/=; done.
  - destruct (u_lead u), Hd as [[= -> ->]|[= -> ->]]; unfold texts; cbn; by rewrite ?string_app_nil_r.
Qed.

Section through.
Context (cc : ChatIngressContext) (names : jmap string string).

(** A tool that the client offered, called with arguments that it can read *)
Record offered (u : upstream) (t : tool) : Prop := {
  of_id : t_id t ≠ ""%string;
  of_name : ∃ decoded, names !! t_name t = Some decoded ∧ decoded ≠ ""%string;
  of_size : units (repaired (t_args t)) <= MAX_FRAME;
  of_object : u_finish u ≠ Some "length"%string → parses_to_object (final_args (repaired (t_args t))) = true }.

Definition chat_call (t : tool) : call :=
  {| cl_id := Some (t_id t); cl_type := true; cl_name := names !! t_name t;
     cl_arguments := Some (final_args (repaired (t_args t))) |}.
Definition chat_finish (u : upstream) : finish :=
  Finish (if bool_decide (u_finish u = Some "length"%string) then "length"
          else if has_tools u then "tool_calls" else "stop").

Lemma reply_lookup u i b id name :
  reply_blocks u !! i = Some b → b_kind b = ToolBlock id name →
  ∃ t, t ∈ (u_tools u).*2 ∧ id = t_id t ∧ name = t_name t ∧ b_text b = repaired (t_args t).
Proof.
  intros [Hi|[_ Hi]]%lookup_app_Some Hk.
  - exfalso. apply list_elem_of_lookup_2 in Hi. destruct (u_lead u); cbn in Hi;
      rewrite ?elem_of_cons, ?elem_of_nil in Hi; naive_solver.
  - apply list_elem_of_lookup_2, list_elem_of_fmap in Hi as ([z t] & -> & Ht). injection Hk as <- <-.
    exists t. split; [by apply (list_elem_of_fmap_2 snd) in Ht|done].
Qed.

Lemma reply_calls u : calls_of names (reply_blocks u) = map chat_call (u_tools u).*2.
Proof.
  unfold calls_of, reply_blocks. rewrite omap_app. replace (omap (call_of names) (lead_blocks false (u_lead u))) with (@nil call)
    by by destruct (u_lead u).
  cbn [app]. induction (u_tools u) as [|[z t] l IH]; [done|]. cbn. by rewrite IH.
Qed.

Lemma reply_reason u : lookup_reason (reply_stop u) = Some (chat_finish u).
Proof. unfold reply_stop, chat_finish, has_tools. by repeat case_bool_decide. Qed.

Lemma not_filtered u b :
  b && match chat_finish u with Finish "content_filter" => true | _ => false end = false.
Proof. unfold chat_finish. destruct b; [|done]. by repeat case_match. Qed.

Lemma reply_relayable u c fs :
  says fs (reply u c) → Forall (good cc) fs → Forall (λ f, units (of_text (render f)) <= MAX_FRAME) fs →
  Forall (offered u) (u_tools u).*2 → (length (reply_blocks u) ≤ MAX_BLOCKS)%nat →
  relayable cc names fs (reply u c).
Proof.
  intros Hs Hg Hsize Hoff Hlen. rewrite Forall_forall in Hoff. split; [done|done| | | |].
  - split; [done|]. intros i b id name Hi Hk. destruct (reply_lookup u i b id name Hi Hk) as (t & Ht & -> & -> & ->).
    destruct (Hoff t Ht). by split_and!.
  - exists (reply_stop u), (chat_finish u). split_and!; [done|apply reply_reason|..].
    + intros Hf. change (p_blocks (reply u c)) with (reply_blocks u). rewrite reply_calls. unfold chat_finish, has_tools in Hf.
      case_bool_decide; [done|]. case_bool_decide; [done|]. by destruct (u_tools u).
    + intros Hf i b id name Hi Hk. destruct (reply_lookup u i b id name Hi Hk) as (t & Ht & _ & _ & ->).
      apply (Hoff t Ht). intros Hl. unfold chat_finish in Hf. by rewrite Hl in Hf.
  - apply Forall_fmap. eapply Forall_impl; [exact Hg|]. by intros f [].
  - rewrite Forall_forall in Hg, Hsize |- *. intros f Hf. destruct (Hg f Hf). split; [done..|]. by apply Hsize.
Qed.

(** C14: a chat client of an OpenAI upstream, between which the stream is translated to Messages
    and back, gets the upstream's own reply: its text and its thinking, its tool calls in order
    under the client's names with their arguments, repaired where they were truncated, and the
    finish reason that fits; however the two streams were cut, and whatever follows. Exactly when
    the chunks exceed the limit of a whole answer, it gets the error that says so instead. *)
Theorem chat_through_messages id created now m r chunks ds (done : bool) u chunks' tail :
  default ""%string (outgoingModel cc) ≠ ""%string →
  concat chunks = OpenAiStream.body ds done → forallb plain ds = true → ds ≠ [] →
  absorb_all ds = Some u → done || finished u = true →
  let fs := out (translate now chunks (init m r)) in
  concat chunks' = concat (render <$> fs) → Forall (λ f, units (of_text (render f)) <= MAX_FRAME) fs →
  Forall (offered u) (u_tools u).*2 → (length (reply_blocks u) ≤ MAX_BLOCKS)%nat →
  let reads := data chunks' ++ tail in
  ∃ c, jsonResponse cc names id created reads =
         Some (if over_limit id created 0 (g_out (chatChunks cc names reads))
               then inl (Some completion_too_large) else inr c)
    ∧ cm_finish c = chat_finish u
    ∧ cm_calls c = Some <$> map chat_call (u_tools u).*2
    ∧ cm_reasoning c = truthy_string (Some (lead_thinking (u_lead u)))
    ∧ cm_content c = if String.eqb (lead_text (u_lead u)) "" && has_tools u then None
                     else Some (lead_text (u_lead u)).
Proof.
  cbv zeta. intros Hmodel Hc Hp Hne Ha Hfin Hcut Hsize Hoff Hlen.
  destruct (translated now m r chunks ds done u Hc Hp Hne Ha Hfin) as [w Hsays].
  pose proof (good_translate cc Hmodel now m r chunks ds done Hc Hp) as Hgood.
  pose proof (reply_relayable u w _ Hsays Hgood Hsize Hoff Hlen) as Hrel.
  destruct (relayed_message cc names _ _ chunks' tail Hrel Hcut) as (c & Hjson & (s & Hs & Hf) & Hcalls & Hr & Hcontent).
  exists c. split; [unfold jsonResponse; rewrite Hjson; by destruct (over_limit _ _ _ _)|].
  injection Hs as <-. rewrite reply_reason in Hf. injection Hf as Hf.
  change (p_blocks (reply u w)) with (reply_blocks u) in Hcalls. rewrite reply_calls in Hcalls.
  assert (∀ d s, (d, s) = (TextDelta, lead_text (u_lead u)) ∨ (d, s) = (ThinkingDelta, lead_thinking (u_lead u)) →
    said d (view <$> out (translate now chunks (init m r))) = s) as Hsaid.
  { intros d s Hd. destruct (reply_texts u d s Hd) as [Hsingle <-]. exact (said_single d _ _ Hsays Hsingle). }
  rewrite (Hsaid ThinkingDelta _ (or_intror eq_refl)) in Hr.
  rewrite (Hsaid TextDelta _ (or_introl eq_refl)), <-Hf in Hcontent.
  split_and!; [done..|]. cbv zeta in Hcontent. rewrite not_filtered, Hcalls in Hcontent. rewrite Hcontent.
  unfold has_tools. by destruct (u_tools u).
Qed.
End through.

(** The whole way of the sample reply, whose [ls] the client knows as [list] *)
Definition through_frames : list frame := out (translate 5 [OpenAiStream.body sample_chunks true] (init None None)).

Example chat_through_messages_witness :
  let bytes := concat (render <$> through_frames) in
  ∃ c, jsonResponse demo_context demo_names "id" 0 (data [take 100 bytes; drop 100 bytes]) = Some (inr c)
    ∧ cm_finish c = Finish "tool_calls" ∧ cm_reasoning c = Some "so be it"%string ∧ cm_content c = Some "Hello"%string.
Proof.
  cbv zeta. set (bytes := concat _).
  destruct (chat_through_messages demo_context demo_names "id" 0 5 None None [OpenAiStream.body sample_chunks true] sample_chunks true
    {| u_lead := LThinkingText "so be it" "Hello";
       u_tools := [(0, {| t_id := "call_1"; t_name := "ls"; t_args := "{}" |})];
       u_finish := Some "tool_calls"%string |} [take 100 bytes; drop 100 bytes] []) as (c & Hj & Hf & _ & Hr & Ht).
  - discriminate.
  - apply app_nil_r.
  - vm_compute. reflexivity.
  - discriminate.
  - vm_compute. reflexivity.
  - reflexivity.
  - cbn [concat]. rewrite app_nil_r. apply take_drop.
  - apply (bool_decide_unpack _). vm_compute. exact I.
  - repeat constructor; [discriminate|by exists "list"%string|by vm_compute].
  - vm_compute. lia.
  - exists c. rewrite app_nil_r in Hj.
    replace (over_limit _ _ _ _) with false in Hj by (vm_compute; reflexivity). by split_and!.
Defined.
