(* ===== verification/UpstreamError.v ===== *)
(** The error text of an upstream's answer ([packages/types/src/upstream-error.ts])

    What is persisted and shown to a client of a failed request: the text of a recognised error
    field, on one line and at most 300 characters long, never other parts of the body. White
    space is ASCII. *)

From S2P Require Import Prelude.
From S2P Require Import Json.
From S2P Require Import OpenAiFormats.
From S2P Require Import ChatStream.
From S2P Require Import ChatRelay.
Open Scope Z_scope.

Definition MAX_UPSTREAM_ERROR_LEN : Z := 300.
Definition SSE_TAIL_SCAN_BYTES : Z := 16 * 1024.
Definition MAX_DETAIL_ENTRIES : nat := 5.

Inductive EnvelopeSource := Body | SseFrame.

Definition nonBlankString (v : value) : option string :=
  s ← as_string v; if String.eqb (trim s) "" then None else Some (trim s).

(** [a ?? b] on text that may be missing *)
Definition or_else (a b : option string) : option string := match a with Some _ => a | None => b end.

Definition is_object (v : value) : bool := match v with Some (JObj _) | Some (JArr _) => true | _ => false end.

Definition extractFromErrorValue (err : value) : option string :=
  if is_object err then
    let type := nonBlankString (opt_prop err "type") in
    let message := nonBlankString (opt_prop err "message") in
    match type, message with
    | Some t, Some m => Some (t +:+ ": " +:+ m)
    | _, _ => or_else message type
    end
  else nonBlankString err.

(** [l.join(sep)] *)
Fixpoint join (sep : string) (l : list string) : string :=
  match l with
  | [] => ""
  | [x] => x
  | x :: l => x +:+ sep +:+ join sep l
  end.

Definition location_segment (v : json) : list string :=
  match v with
  | JNum _ => [js_string v]
  | _ => match nonBlankString (Some v) with Some t => [t] | None => [] end
  end.

Definition renderDetailLocation (loc : value) : option string :=
  match loc with
  | Some (JArr l) => match l ≫= location_segment with [] => None | segments => Some (join "." segments) end
  | _ => None
  end.

Definition renderDetailEntry (entry : value) : option string :=
  match nonBlankString entry with
  | Some direct => Some direct
  | None =>
      if negb (is_object entry) then None else
      message ← or_else (or_else (nonBlankString (opt_prop entry "msg")) (nonBlankString (opt_prop entry "message")))
                  (extractFromErrorValue (opt_prop entry "error"));
      Some match renderDetailLocation (opt_prop entry "loc") with
           | Some location => location +:+ ": " +:+ message
           | None => message
           end
  end.

(** The first [n] entries that render *)
Fixpoint rendered_entries (n : nat) (l : list json) : list string :=
  match n, l with
  | S n', v :: l =>
      match renderDetailEntry (Some v) with
      | Some t => t :: rendered_entries n' l
      | None => rendered_entries n l
      end
  | _, _ => []
  end.

Definition extractFromDetailValue (detail : value) : option string :=
  match nonBlankString detail with
  | Some direct => Some direct
  | None =>
      match detail with
      | Some (JArr l) =>
          match rendered_entries MAX_DETAIL_ENTRIES l with
          | [] => None
          | parts =>
              let omitted := (length l - length parts)%nat in
              Some (join "; " (parts ++ if (0 <? omitted)%nat then ["(+" +:+ pretty omitted +:+ " more)"] else []))
          end
      | Some (JObj _) => renderDetailEntry detail
      | _ => None
      end
  end.

Definition extractErrorFromObject (v : json) (source : EnvelopeSource) : option string :=
  if negb (is_object (Some v)) then None else
  or_else (extractFromErrorValue (own "error" v))
    (or_else (match source with Body => extractFromDetailValue (own "detail" v) | SseFrame => None end)
       (nonBlankString (own "message" v))).

(** [s.replace(/\s+/g, " ")] *)
Fixpoint collapse (s : string) : string :=
  match s with
  | EmptyString => EmptyString
  | String c s =>
      if is_space c
      then match s with
           | String c' _ => if is_space c' then collapse s else String " " (collapse s)
           | EmptyString => " "
           end
      else String c (collapse s)
  end.

Definition ELLIPSIS : string := of_text (map byte_char [226; 128; 166]).

Definition normalizeAndTruncate (s : string) : string :=
  let normalized := trim (collapse s) in
  if MAX_UPSTREAM_ERROR_LEN <? units normalized
  then slice_to (MAX_UPSTREAM_ERROR_LEN - 1) normalized +:+ ELLIPSIS else normalized.

(** [s.slice(n)], in UTF-16 units; what is left of a character cut in two is the replacement
    character. *)
Fixpoint slice_units (n : Z) (s : string) : string :=
  match s with
  | EmptyString => if n <? 0 then of_text (map byte_char [239; 191; 189]) else EmptyString
  | String c r =>
      let w := units (String c EmptyString) in
      if n <=? 0 then
        if (n =? 0) && negb (w =? 0) then s
        else if w =? 0 then slice_units n r
        else of_text (map byte_char [239; 191; 189]) +:+ s
      else slice_units (n - w) r
  end.

(** The payload of a line [data: {...}] *)
Definition frame_payload (line : string) : option json :=
  let line := trim line in
  if negb (startsWith line "data:") then None else
  let payload := trim (slice_from 5 line) in
  if startsWith payload "{" then parse_string payload else None.

Definition parseUpstreamError (body : string) : option string :=
  if String.eqb body "" then None else
  let trimmed := trim_start body in
  if startsWith trimmed "{" then
    v ← parse_string trimmed;
    normalizeAndTruncate <$> extractErrorFromObject v Body
  else if includes trimmed "data:" then
    let tail := if SSE_TAIL_SCAN_BYTES <? units trimmed
                then slice_units (units trimmed - SSE_TAIL_SCAN_BYTES) trimmed else trimmed in
    let found := omap (λ line, v ← frame_payload line; extractErrorFromObject v SseFrame) (split_at (chr 10) tail) in
    normalizeAndTruncate <$> last found
  else None.

(** * One line, not too long *)

(** No white space but single characters of it, the space *)
Definition fits_line (s : string) : Prop := ∀ c, c ∈ to_text s → is_space c = true → c = " "%char.

Lemma to_text_app s t : to_text (s +:+ t) = to_text s ++ to_text t.
Proof. induction s as [|c s IH]; [done|]. change (String c s +:+ t) with (String c (s +:+ t)). unfold to_text in *. cbn. by rewrite IH. Qed.

Lemma collapse_fits s : fits_line (collapse s).
Proof.
  unfold fits_line. induction s as [|c s IH]; intros x Hx Hs; cbn in Hx; [by apply elem_of_nil in Hx|].
  destruct (is_space c) eqn:Hc.
  - destruct s as [|c' s]; [by apply list_elem_of_singleton in Hx|].
    destruct (is_space c'); [by apply IH|]. apply elem_of_cons in Hx as [->|Hx]; [done|by apply IH].
  - apply elem_of_cons in Hx as [->|Hx]; [congruence|by apply IH].
Qed.

Lemma trim_start_sub s c : c ∈ to_text (trim_start s) → c ∈ to_text s.
Proof. induction s as [|x s IH]; [done|]. cbn. destruct (is_space x); [|done]. intros H. right. by apply IH. Qed.

Lemma trim_end_sub s c : c ∈ to_text (trim_end s) → c ∈ to_text s.
Proof.
  induction s as [|x s IH]; [done|]. cbn. destruct (trim_end s) eqn:E.
  - destruct (is_space x); [by intros ?%elem_of_nil|]. intros ->%list_elem_of_singleton. by left.
  - intros [->|H]%elem_of_cons; [by left|]. right. by apply IH.
Qed.

Lemma trim_fits s : fits_line s → fits_line (trim s).
Proof. intros Hs c Hc. by apply Hs, trim_start_sub, trim_end_sub. Qed.

Lemma slice_to_fits n s : fits_line s → fits_line (slice_to n s).
Proof.
  unfold fits_line. revert n. induction s as [|x s IH]; intros n Hs c Hc Hsp; [by apply elem_of_nil in Hc|].
  cbn [slice_to] in Hc. cbv zeta in Hc. destruct (_ <=? n).
  - apply elem_of_cons in Hc as [->|Hc]; [apply Hs; [by left|done]|]. eapply IH; [|done..].
    intros y Hy. apply Hs. by right.
  - destruct (0 <? n); [|by apply elem_of_nil in Hc]. exfalso. revert Hsp.
    repeat (apply elem_of_cons in Hc as [->|Hc]; [done|]). by apply elem_of_nil in Hc.
Qed.

Lemma slice_to_units n s : 0 <= n → units (slice_to n s) <= n.
Proof.
  revert n. induction s as [|c s IH]; intros n Hn; [done|]. cbn [slice_to]. cbv zeta.
  destruct (units (String c "") <=? n) eqn:Hw; prop_bools.
  - specialize (IH (n - units (String c ""))). cbn [units] in *. lia.
  - destruct (0 <? n) eqn:H0; prop_bools; [|done]. change (units (of_text (map byte_char [239; 191; 189]))) with 1. lia.
Qed.

Lemma normalize_spec s :
  fits_line (normalizeAndTruncate s) ∧ units (normalizeAndTruncate s) <= MAX_UPSTREAM_ERROR_LEN.
Proof.
  unfold normalizeAndTruncate. assert (fits_line (trim (collapse s))) as Hf by apply trim_fits, collapse_fits.
  destruct (_ <? _) eqn:Hn; prop_bools; [|by split]. split.
  - intros c. rewrite to_text_app, elem_of_app. intros [Hc|Hc] Hsp; [by eapply slice_to_fits|].
    exfalso. revert Hsp. repeat (apply elem_of_cons in Hc as [->|Hc]; [done|]). by apply elem_of_nil in Hc.
  - rewrite units_app. change (units ELLIPSIS) with 1. pose proof (slice_to_units (MAX_UPSTREAM_ERROR_LEN - 1) (trim (collapse s)) ltac:(done)). lia.
Qed.

(** * Never blank *)

Definition solid (s : string) : Prop := ∃ c, c ∈ to_text s ∧ is_space c = false.

Lemma solid_app s t : solid s ∨ solid t → solid (s +:+ t).
Proof. intros [(c & Hc & Hs)|(c & Hc & Hs)]; exists c; rewrite to_text_app, elem_of_app; auto. Qed.

Lemma solid_ne s : solid s → s ≠ ""%string.
Proof. intros (c & Hc & _) ->. by apply elem_of_nil in Hc. Qed.

Lemma solid_trim_start s : solid s → solid (trim_start s).
Proof.
  induction s as [|x s IH]; intros (c & Hc & Hs); [by apply elem_of_nil in Hc|]. cbn.
  destruct (is_space x) eqn:Hx; [|by exists c]. apply IH. apply elem_of_cons in Hc as [->|Hc]; [congruence|by exists c].
Qed.

Lemma solid_trim_end s : solid s → solid (trim_end s).
Proof.
  induction s as [|x s IH]; intros (c & Hc & Hs); [by apply elem_of_nil in Hc|]. cbn.
  destruct (trim_end s) as [|y t] eqn:E.
  - destruct (is_space x) eqn:Hx; [|exists x; split; [by left|done]]. exfalso.
    apply elem_of_cons in Hc as [->|Hc]; [congruence|]. by apply (solid_ne ""); [apply IH; exists c|].
  - apply elem_of_cons in Hc as [->|Hc]; [exists x; split; [by left|done]|].
    destruct IH as (z & Hz & Hzs); [by exists c|]. exists z. split; [by right|done].
Qed.

Lemma trimmed_solid s : trim s ≠ ""%string → solid (trim s).
Proof.
  unfold trim. generalize (trim_start s). clear s. intros s. induction s as [|x s IH]; [done|]. cbn.
  destruct (trim_end s) as [|y t] eqn:E.
  - destruct (is_space x) eqn:Hx; [done|]. intros _. exists x. split; [by left|done].
  - intros _. destruct IH as (z & Hz & Hzs); [done|]. exists z. split; [by right|done].
Qed.

Lemma solid_collapse s : solid s → solid (collapse s).
Proof.
  induction s as [|x s IH]; intros (c & Hc & Hs); [by apply elem_of_nil in Hc|].
  assert (is_space x = true → solid (collapse s)) as Hrest.
  { intros Hx. apply IH. apply elem_of_cons in Hc as [->|Hc]; [congruence|by exists c]. }
  cbn [collapse]. destruct (is_space x) eqn:Hx.
  - specialize (Hrest eq_refl). destruct s as [|y s]; [by apply solid_ne in Hrest|].
    destruct (is_space y); [done|]. change (solid (" " +:+ collapse (String y s))). apply solid_app. by right.
  - exists x. split; [by left|done].
Qed.

Lemma normalize_ne s : solid s → normalizeAndTruncate s ≠ ""%string.
Proof.
  intros Hs. unfold normalizeAndTruncate. destruct (_ <? _).
  - intros H. apply (f_equal units) in H. rewrite units_app in H. change (units ELLIPSIS) with 1 in H. change (units "") with 0 in H.
    pose proof (units_nonneg (slice_to (MAX_UPSTREAM_ERROR_LEN - 1) (trim (collapse s)))). lia.
  - apply solid_ne. by apply solid_trim_end, solid_trim_start, solid_collapse.
Qed.

Lemma nonBlank_solid v s : nonBlankString v = Some s → solid s.
Proof.
  unfold nonBlankString. intros (t & _ & H)%bind_Some. destruct (String.eqb_spec (trim t) ""); simplify_eq. by apply trimmed_solid.
Qed.

Lemma or_else_Some a b s : or_else a b = Some s → a = Some s ∨ b = Some s.
Proof. destruct a; auto. Qed.

Lemma errorValue_solid v s : extractFromErrorValue v = Some s → solid s.
Proof.
  unfold extractFromErrorValue. destruct (is_object v); [|apply nonBlank_solid].
  destruct (nonBlankString (opt_prop v "type")) as [t|] eqn:Ht, (nonBlankString (opt_prop v "message")) as [m|] eqn:Hm;
    cbn; intros ?; simplify_eq; try by eapply nonBlank_solid. apply solid_app. left. by eapply nonBlank_solid.
Qed.

Lemma entry_solid v s : renderDetailEntry v = Some s → solid s.
Proof.
  unfold renderDetailEntry. destruct (nonBlankString v) eqn:Hn; [intros [= <-]; by eapply nonBlank_solid|].
  destruct (is_object v); [|done]. cbn [negb]. intros (m & Hm & H)%bind_Some.
  assert (solid m) as Hs.
  { apply or_else_Some in Hm as [[Hm|Hm]%or_else_Some|Hm]; [by eapply nonBlank_solid..|by eapply errorValue_solid]. }
  injection H as <-. destruct (renderDetailLocation _); [|done]. apply solid_app. right. apply solid_app. by right.
Qed.

Lemma entries_solid n l s : s ∈ rendered_entries n l → solid s.
Proof.
  revert n. induction l as [|v l IH]; intros [|n] H; cbn in H; try by apply elem_of_nil in H.
  destruct (renderDetailEntry (Some v)) eqn:Hv; [|by eapply IH].
  apply elem_of_cons in H as [->|H]; [by eapply entry_solid|by eapply IH].
Qed.

Lemma join_solid sep x l : solid x → solid (join sep (x :: l)).
Proof. intros Hx. destruct l; [done|]. change (solid (x +:+ sep +:+ join sep (s :: l))). apply solid_app. by left. Qed.

Lemma extract_solid v src s : extractErrorFromObject v src = Some s → solid s.
Proof.
  unfold extractErrorFromObject. destruct (is_object _); [|done]. cbn [negb].
  intros [H|[H|H]%or_else_Some]%or_else_Some; [by eapply errorValue_solid| |by eapply nonBlank_solid].
  destruct src; [|done]. unfold extractFromDetailValue in H.
  destruct (nonBlankString (own "detail" v)) eqn:Hn; [injection H as <-; by eapply nonBlank_solid|].
  destruct (own "detail" v) as [[| | | |l|]|]; try done; [|by eapply entry_solid].
  destruct (rendered_entries _ l) as [|x parts] eqn:Hr; [done|]. injection H as <-.
  apply join_solid, (entries_solid MAX_DETAIL_ENTRIES l). rewrite Hr. by left.
Qed.

(** * Only what is meant as an error *)

(** An object without its other fields *)
Definition only (fields : list (string * (json → json))) (v : json) : json :=
  match v with
  | JObj m => JObj (omap (λ kv, f ← alist_get kv.1 fields; Some (kv.1, f kv.2)) m)
  | v => v
  end.

Definition keep (v : json) : json := v.
Definition redact_error : json → json := only [("type", keep); ("message", keep)]%string.
Definition redact_entry : json → json :=
  only [("msg", keep); ("message", keep); ("error", redact_error); ("loc", keep)]%string.
Definition redact_detail (v : json) : json :=
  match v with JArr l => JArr (map redact_entry l) | v => redact_entry v end.
(** What of a body may be shown *)
Definition redact : json → json :=
  only [("error", redact_error); ("detail", redact_detail); ("message", keep)]%string.

Lemma own_only fields v k : own k (only fields v) = f ← alist_get k fields; f <$> own k v.
Proof.
  destruct v as [| | | | |m]; cbn; try by destruct (alist_get k fields).
  induction m as [|[k' w] m IH]; cbn; [by destruct (alist_get k fields)|].
  destruct (alist_get k' fields) as [f|] eqn:Hf; cbn; destruct (decide (k' = k)) as [->|Hne]; cbn; try done.
  - by rewrite Hf.
  - by rewrite IH, Hf.
Qed.

Lemma is_object_only fields v : is_object (Some (only fields v)) = is_object (Some v).
Proof. by destruct v. Qed.

Lemma nonBlank_only fields v : nonBlankString (Some (only fields v)) = nonBlankString (Some v).
Proof. by destruct v. Qed.

Lemma own_changed k f fields v : alist_get k fields = Some f → own k (only fields v) = f <$> own k v.
Proof. intros H. by rewrite own_only, H. Qed.
Lemma own_kept k fields v : alist_get k fields = Some keep → own k (only fields v) = own k v.
Proof. intros H. rewrite (own_changed _ keep) by done. by destruct (own k v). Qed.

Lemma errorValue_redact v : extractFromErrorValue (redact_error <$> v) = extractFromErrorValue v.
Proof.
  destruct v as [v|]; [|done]. cbn [fmap option_fmap option_map]. unfold extractFromErrorValue, redact_error.
  rewrite is_object_only, nonBlank_only. cbn [opt_prop mbind option_bind]. by rewrite !own_kept.
Qed.

Lemma entry_redact v : renderDetailEntry (redact_entry <$> v) = renderDetailEntry v.
Proof.
  destruct v as [v|]; [|done]. cbn [fmap option_fmap option_map]. unfold renderDetailEntry, redact_entry.
  rewrite is_object_only, nonBlank_only. cbn [opt_prop mbind option_bind]. rewrite !own_kept by done.
  by rewrite (own_changed _ redact_error), errorValue_redact.
Qed.

Lemma entries_redact n l : rendered_entries n (map redact_entry l) = rendered_entries n l.
Proof.
  revert n. induction l as [|v l IH]; intros [|n]; cbn [map rendered_entries]; try done.
  change (Some (redact_entry v)) with (redact_entry <$> Some v). rewrite entry_redact.
  destruct (renderDetailEntry (Some v)); by rewrite IH.
Qed.

Lemma detail_redact v : extractFromDetailValue (redact_detail <$> v) = extractFromDetailValue v.
Proof.
  destruct v as [[| | | |l|m]|]; try done.
  - cbn [fmap option_fmap option_map redact_detail]. unfold extractFromDetailValue. cbn [nonBlankString as_string mbind option_bind].
    by rewrite entries_redact, length_map.
  - unfold extractFromDetailValue. change (redact_detail <$> Some (JObj m)) with (redact_entry <$> Some (JObj m)).
    rewrite entry_redact. done.
Qed.

Lemma extract_redact v src : extractErrorFromObject (redact v) src = extractErrorFromObject v src.
Proof.
  unfold extractErrorFromObject, redact. rewrite is_object_only, (own_kept "message") by done.
  rewrite (own_changed "error" redact_error), errorValue_redact, (own_changed "detail" redact_detail) by done.
  by rewrite detail_redact.
Qed.

(** C21: The error shown for a failed request is one line of 1 to 300 characters, and depends on
    nothing but what the upstream put into recognised error fields: a body without its other
    fields, which may echo the request, gives the same text. *)
Theorem error_text_safe :
  (∀ body m, parseUpstreamError body = Some m → m ≠ ""%string ∧ fits_line m ∧ units m <= MAX_UPSTREAM_ERROR_LEN)
  ∧ ∀ v src, extractErrorFromObject (redact v) src = extractErrorFromObject v src.
Proof.
  split; [|apply extract_redact]. intros body m H. unfold parseUpstreamError in H. destruct (String.eqb body ""); [done|].
  assert (∃ v src s, extractErrorFromObject v src = Some s ∧ m = normalizeAndTruncate s) as (v & src & s & Hs & ->).
  { destruct (startsWith _ "{").
    - apply bind_Some in H as (v & _ & (s & Hs & ->)%fmap_Some). eauto.
    - destruct (includes _ _); [|done]. apply fmap_Some in H as (s & Hlast & ->).
      apply last_Some_elem_of, list_elem_of_omap in Hlast as (line & _ & (v & _ & Hs)%bind_Some). eauto. }
  split; [by eapply normalize_ne, extract_solid|apply normalize_spec].
Qed.

(** A rejected value that the upstream echoes is left out. *)
Example error_text_sample :
  parseUpstreamError (stringify (JObj [("detail", JArr [JObj [("loc", JArr [JStr "body"; JStr "temperature"]); ("msg", JStr "Too
 large");
    ("input", JStr "secret")]])]%string)) = Some "body.temperature: Too large"%string.
Proof. vm_compute. reflexivity. Qed.
