(* ===== verification/ChatRequest.v ===== *)
(** A chat-completions request as a Messages request
    ([packages/openai-chat-adapter/src/request.ts], with the validators of [errors.ts])

    The request is a JSON value of the client's choosing; the first thing wrong with it is the
    answer. The loops over tools, messages and calls thread what the source keeps in local
    variables: the names given to the client's functions, the calls that await a result, the
    turns so far. Of several fields that are not supported, the first in the order of the text
    is named; JavaScript lists names that are array indices first. *)

From S2P Require Import Prelude.
From S2P Require Import Rationals.
From S2P Require Import Json.
From S2P Require Import OpenAiFormats.
From S2P Require Import Routing.
From S2P Require Import ChatStream.
Open Scope Z_scope.

(** * Refusals and validators *)

Definition bad {A} (message : string) (param : string) : fallible A :=
  inl {| ce_message := message; ce_param := Some param; ce_status := 400; ce_code := "invalid_request_error";
         ce_type := None; ce_retryAfter := None |}.
Definition unsupported {A} (message : string) (param : string) : fallible A :=
  inl {| ce_message := message; ce_param := Some param; ce_status := 400; ce_code := "unsupported_parameter";
         ce_type := None; ce_retryAfter := None |}.

(** [if (b) throw e] *)
Definition unless (b : bool) (e : fallible unit) : fallible unit := if b then e else mret tt.

Definition object (v : value) (path : string) : fallible (list (string * json)) :=
  match v with
  | Some (JObj m) => mret m
  | _ => bad (path +:+ ": expected an object") path
  end.

Definition field_path (path key : string) : string := if String.eqb path "" then key else path +:+ "." +:+ key.

Fixpoint keys (m : list (string * json)) (allowed : list string) (path : string) : fallible unit :=
  match m with
  | [] => mret tt
  | (k, _) :: m =>
      if bool_decide (k ∈ allowed) then keys m allowed path
      else unsupported (field_path path k +:+ " is not supported") (field_path path k)
  end.

Definition string_field (v : value) (path : string) (empty : bool) : fallible string :=
  match as_string v with
  | Some s =>
      if negb empty && String.eqb (trim s) ""
      then bad (path +:+ ": expected a nonempty string") path else mret s
  | None => bad (path +:+ ": expected " +:+ if empty then "a string" else "a nonempty string") path
  end.

Definition get (m : list (string * json)) (k : string) : value := alist_get k m.
(** [k in m] *)
Definition present (m : list (string * json)) (k : string) : bool := bool_decide (is_Some (get m k)).
Definition is_bool (v : value) : bool := match v with Some (JBool _) => true | _ => false end.
Definition is_true (v : value) : bool := match v with Some (JBool true) => true | _ => false end.

(** [p[i]] *)
Definition at_index (p : string) (i : nat) : string := p +:+ "[" +:+ pretty i +:+ "]".

(** [l.map((v, i) => f(v, i))], left to right, with what the callback changes *)
Fixpoint map_with {A B T} (f : nat → A → T → fallible (B * T)) (i : nat) (l : list A) (s : T) : fallible (list B * T) :=
  match l with
  | [] => mret ([], s)
  | x :: l =>
      '(y, s) ← f i x s;
      '(ys, s) ← map_with f (S i) l s;
      mret (y :: ys, s)
  end.
(** [for (const [i, v] of l.entries())] *)
Fixpoint each {A T} (f : nat → A → T → fallible T) (i : nat) (l : list A) (s : T) : fallible T :=
  match l with
  | [] => mret s
  | x :: l => s ← f i x s; each f (S i) l s
  end.
(** [l.flatMap((v, i) => f(v, i))] *)
Fixpoint flat_map {A B} (f : nat → A → fallible (list B)) (i : nat) (l : list A) : fallible (list B) :=
  match l with
  | [] => mret []
  | x :: l => y ← f i x; ys ← flat_map f (S i) l; mret (y ++ ys)
  end.

(** * The translated request *)

Inductive ImageSource := Base64Image (media_type data : string) | UrlImage (url : string).
Inductive Block :=
  | TextBlock (text : string)
  | ImageBlock (source : ImageSource)
  | ThinkingBlock (thinking : string)
  | ToolUseBlock (id name : string) (input : list (string * json))
  | ToolResultBlock (tool_use_id content : string).
Inductive Role := user | assistant.
#[export] Instance Role_eq_dec : EqDecision Role.
Proof. solve_decision. Defined.
Record Message := { m_role : Role; m_content : list Block }.

Record Tool := {
  tl_name : string;
  tl_description : option string;
  tl_input_schema : list (string * json) }.
Inductive ToolChoice := ChooseAuto | ChooseNone | ChooseAny | ChooseTool (name : string).

Record MessagesBody := {
  mb_model : string;
  mb_messages : list Message;
  mb_system : option (list string);
  mb_tools : option (list Tool);
  mb_tool_choice : option ToolChoice;
  mb_max_tokens : option Qc;
  mb_temperature : option Qc;
  mb_top_p : option Qc;
  mb_stop_sequences : option (list string);
  mb_schema : option (list (string * json)) }.

Record ChatStructuredOutput := { so_name : string; so_description : option string; so_strict : bool }.

Record TranslatedChat := {
  t_body : MessagesBody;
  t_stream : bool;
  t_includeUsage : bool;
  t_names : jmap string string;
  t_fields : list ChatField;
  t_structuredOutput : option ChatStructuredOutput }.

(** * Options *)

(** [/^[a-zA-Z0-9_-]{1,64}$/] *)
Definition name_char (c : ascii) : bool :=
  let n := code c in
  ((97 <=? n) && (n <=? 122) || (65 <=? n) && (n <=? 90) || (48 <=? n) && (n <=? 57) || (n =? 95) || (n =? 45))%nat.
Definition valid_name (s : string) : bool :=
  forallb name_char (to_text s) && (1 <=? String.length s)%nat && (String.length s <=? 64)%nat.

Definition response_format (req : list (string * json)) : fallible (option (ChatStructuredOutput * list (string * json))) :=
  if negb (present req "response_format") then mret None else
  format ← object (get req "response_format") "response_format";
  if is_string (get format "type") "json_schema" then
    keys format ["type"; "json_schema"] "response_format";;
    let p := "response_format.json_schema"%string in
    spec ← object (get format "json_schema") p;
    keys spec ["name"; "description"; "schema"; "strict"] p;;
    name ← string_field (get spec "name") (p +:+ ".name") false;
    unless (negb (valid_name name))
      (bad "Schema names must contain 1–64 letters, digits, underscores or hyphens" (p +:+ ".name"));;
    unless (negb (nullish (get spec "strict")) && negb (is_bool (get spec "strict")))
      (bad (p +:+ ".strict: expected a boolean") (p +:+ ".strict"));;
    schema ← object (get spec "schema") (p +:+ ".schema");
    description ← (if nullish (get spec "description") then mret None
                   else d ← string_field (get spec "description") (p +:+ ".description") true; mret (Some d));
    mret (Some ({| so_name := name; so_description := description; so_strict := is_true (get spec "strict") |}, schema))
  else
    keys format ["type"] "response_format";;
    unless (negb (is_string (get format "type") "text"))
      (unsupported "Only text and json_schema response_format are supported" "response_format");;
    mret None.

Definition stream_options (req : list (string * json)) : fallible bool :=
  if negb (present req "stream_options") then mret false else
  options ← object (get req "stream_options") "stream_options";
  keys options ["include_usage"] "stream_options";;
  unless (negb (is_true (get req "stream"))
          || (present options "include_usage" && negb (is_bool (get options "include_usage"))))
    (bad "stream_options requires stream:true and boolean include_usage" "stream_options");;
  mret (is_true (get options "include_usage")).

(** One of [max_tokens], [temperature], [top_p] *)
Definition number_field (req : list (string * json)) (name : string) (legal : Qc → bool) : fallible (option Qc) :=
  match get req name with
  | None => mret None
  | Some v =>
      match v with
      | JNum q => if legal q then mret (Some q) else bad ("Invalid " +:+ name) name
      | _ => bad ("Invalid " +:+ name) name
      end
  end.
Definition legal_max_tokens (q : Qc) : bool :=
  match safe_integer (Some (JNum q)) with Some z => 1 <=? z | None => false end.
Definition legal_between (high : Qc) (q : Qc) : bool := bool_decide (0 <= q)%Qc && bool_decide (q <= high)%Qc.

Definition stop_field (req : list (string * json)) : fallible (option (list string)) :=
  match get req "stop" with
  | None => mret None
  | Some v =>
      let stops := match v with JArr l => l | _ => [v] end in
      unless ((length stops =? 0)%nat || (4 <? length stops)%nat) (bad "stop requires 1 to 4 nonempty strings" "stop");;
      '(l, _) ← map_with (λ i s (_ : unit), t ← string_field (Some s) (at_index "stop" i) false; mret (t, tt)) 0 stops tt;
      mret (Some l)
  end.

(** * Tools *)

Section translate.
Context (sha256 : string → string).

(** What a tool of the client's is called upstream *)
Definition encoded_name (name : string) : string := "cmux_chat_" +:+ slice_to 48 (sha256 name).

Definition encode (name : string) (names : jmap string string) : fallible (string * jmap string string) :=
  unless (negb (valid_name name))
    (bad "Function names must contain 1–64 letters, digits, underscores or hyphens" "tools");;
  mret (encoded_name name, <[encoded_name name := name]> names).

Definition is_false (v : value) : bool := match v with Some (JBool false) => true | _ => false end.

(** The names declared so far and what they are called *)
Abbreviation scope := (list string * jmap string string)%type.

Definition tool_of (i : nat) (v : json) (sc : scope) : fallible (Tool * scope) :=
  let '(declared, names) := sc in
  let p := at_index "tools" i in
  t ← object (Some v) p;
  keys t ["type"; "function"] p;;
  unless (negb (is_string (get t "type") "function")) (unsupported "Only function tools are supported" p);;
  let pf := p +:+ ".function" in
  f ← object (get t "function") pf;
  keys f ["name"; "description"; "parameters"; "strict"] pf;;
  unless (present f "strict" && negb (is_false (get f "strict")))
    (unsupported "strict tools are not supported" (pf +:+ ".strict"));;
  name ← string_field (get f "name") (pf +:+ ".name") false;
  unless (bool_decide (name ∈ declared)) (bad "Duplicate function name" (pf +:+ ".name"));;
  '(called, names) ← encode name names;
  description ← match get f "description" with
                | None => mret None
                | v => d ← string_field v (pf +:+ ".description") true; mret (Some d)
                end;
  schema ← match get f "parameters" with
           | None => mret [("type", JStr "object"); ("properties", JObj [])]
           | v => object v (pf +:+ ".parameters")
           end;
  mret ({| tl_name := called; tl_description := description; tl_input_schema := schema |},
        (declared ++ [name], names)).

(** [body.tools] is deleted when it is empty. *)
Definition tools_field (req : list (string * json)) : fallible (option (list Tool) * scope) :=
  match get req "tools" with
  | None => mret (None, ([], ∅))
  | Some (JArr l) =>
      '(tools, sc) ← map_with tool_of 0 l ([], ∅);
      mret (match tools with [] => None | _ => Some tools end, sc)
  | Some _ => bad "tools must be an array" "tools"
  end.

Definition tool_choice (req : list (string * json)) (tools : option (list Tool)) (sc : scope)
    : fallible (option ToolChoice * jmap string string) :=
  let '(declared, names) := sc in
  match get req "tool_choice" with
  | None => mret (None, names)
  | Some c =>
      let plain t := mret (match tools with Some _ => Some t | None => None end, names) in
      if is_string (Some c) "auto" then plain ChooseAuto
      else if is_string (Some c) "none" then plain ChooseNone
      else if is_string (Some c) "required" then
        unless (negb (bool_decide (is_Some tools))) (bad "required tool_choice needs tools" "tool_choice");;
        plain ChooseAny
      else
        choice ← object (Some c) "tool_choice";
        keys choice ["type"; "function"] "tool_choice";;
        f ← object (get choice "function") "tool_choice.function";
        keys f ["name"] "tool_choice.function";;
        name ← string_field (get f "name") "tool_choice.function.name" false;
        unless (negb (is_string (get choice "type") "function") || negb (bool_decide (name ∈ declared)))
          (bad "tool_choice must name a declared function" "tool_choice");;
        '(called, names) ← encode name names;
        mret (Some (ChooseTool called), names)
  end.

(** * Content *)

Definition text_part (p : string) (part : list (string * json)) : fallible (list string) :=
  t ← string_field (get part "text") (p +:+ ".text") true;
  mret (if String.eqb t "" then [] else [t]).

Definition textParts (content : value) (path : string) : fallible (list string) :=
  match content with
  | Some (JStr s) => mret (if String.eqb s "" then [] else [s])
  | Some (JArr l) =>
      flat_map (λ i v,
        let p := at_index path i in
        part ← object (Some v) p;
        keys part ["type"; "text"] p;;
        unless (negb (is_string (get part "type") "text")) (unsupported "Only text content is supported" p);;
        text_part p part) 0 l
  | _ => bad "Expected text content" path
  end.

(** A [data:] URL in base 64, neither the media type nor the data empty: up to the first comma,
    a media type, parameters and [base64], none of them empty. *)
Definition base64_url (url : string) : option (string * string) :=
  '(head, data) ← cut_at ","%char (slice_from 5 url);
  match split_at ";"%char head with
  | media :: params =>
      if negb (String.eqb media "") && forallb (λ p, negb (String.eqb p "")) params
         && bool_decide (last params = Some "base64"%string) && negb (String.eqb data "")
      then Some (media, data) else None
  | [] => None
  end.

Definition imageSource (url : string) (path : string) : fallible ImageSource :=
  if startsWith url "data:" then
    match base64_url url with
    | Some (media, data) => mret (Base64Image media data)
    | None => unsupported "Unsupported image url: expected a base64 data url" path
    end
  else if startsWith url "https://" || startsWith url "http://" then mret (UrlImage url)
  else unsupported "Unsupported image url: expected data:, http: or https:" path.

Definition role_name (r : Role) : string := match r with user => "user" | assistant => "assistant" end.

Definition contentParts (content : value) (path : string) (role : Role) : fallible (list Block) :=
  match content with
  | Some (JArr l) =>
      flat_map (λ i v,
        let p := at_index path i in
        part ← object (Some v) p;
        if is_string (get part "type") "text" then
          keys part ["type"; "text"] p;;
          ts ← text_part p part;
          mret (map TextBlock ts)
        else
          unless (negb (is_string (get part "type") "image_url"))
            (unsupported "Only text and image content is supported" p);;
          unless (negb (bool_decide (role = user)))
            (unsupported ("Image content is only supported on user messages, not " +:+ role_name role) p);;
          keys part ["type"; "image_url"] p;;
          let pi := p +:+ ".image_url" in
          image ← object (get part "image_url") pi;
          keys image ["url"; "detail"] pi;;
          url ← string_field (get image "url") (pi +:+ ".url") false;
          source ← imageSource url (pi +:+ ".url");
          mret [ImageBlock source]) 0 l
  | _ => ts ← textParts content path; mret (map TextBlock ts)
  end.

(** * Messages *)

(** The local variables of the loop over the messages *)
Record conversation := {
  cv_messages : list Message;
  cv_system : option (list string);
  cv_instructionRole : option string;
  cv_pending : list string;
  cv_used : list string;
  cv_fields : list ChatField;
  cv_names : jmap string string }.

Definition push_message (m : Message) (c : conversation) : conversation :=
  {| cv_messages := cv_messages c ++ [m]; cv_system := cv_system c; cv_instructionRole := cv_instructionRole c;
     cv_pending := cv_pending c; cv_used := cv_used c; cv_fields := cv_fields c; cv_names := cv_names c |}.

Definition is_result (b : Block) : bool := match b with ToolResultBlock _ _ => true | _ => false end.
Definition all_results (m : Message) : bool := bool_decide (m_role m = user) && forallb is_result (m_content m).

(** A result joins the message of results before it. *)
Definition push_result (b : Block) (ms : list Message) : list Message :=
  match last ms with
  | Some m =>
      if all_results m then removelast ms ++ [{| m_role := user; m_content := m_content m ++ [b] |}]
      else ms ++ [{| m_role := user; m_content := [b] |}]
  | None => ms ++ [{| m_role := user; m_content := [b] |}]
  end.

Definition instruction_message (p role : string) (m : list (string * json)) (c : conversation) : fallible conversation :=
  unless (negb (bool_decide (cv_messages c = [])) || match truthy_string (cv_instructionRole c) with
                                                     | Some r => negb (String.eqb r role) | None => false end)
    (unsupported "Only one leading instruction role is supported" (p +:+ ".role"));;
  unless (present m "tool_calls" || present m "tool_call_id") (bad "Unexpected tool fields" p);;
  ts ← textParts (get m "content") (p +:+ ".content");
  mret {| cv_messages := cv_messages c; cv_system := Some (default [] (cv_system c) ++ ts);
          cv_instructionRole := Some role; cv_pending := cv_pending c; cv_used := cv_used c;
          cv_fields := cv_fields c; cv_names := cv_names c |}.

Definition tool_message (p : string) (m : list (string * json)) (c : conversation) : fallible conversation :=
  keys m ["role"; "content"; "tool_call_id"] p;;
  id ← string_field (get m "tool_call_id") (p +:+ ".tool_call_id") false;
  unless (negb (bool_decide (id ∈ cv_pending c)))
    (bad "Tool result has no matching pending call" (p +:+ ".tool_call_id"));;
  content ← string_field (get m "content") (p +:+ ".content") true;
  mret {| cv_messages := push_result (ToolResultBlock id content) (cv_messages c); cv_system := cv_system c;
          cv_instructionRole := cv_instructionRole c; cv_pending := filter (.≠ id) (cv_pending c);
          cv_used := cv_used c; cv_fields := cv_fields c; cv_names := cv_names c |}.

(** What the loop over the calls changes: the content of the message and the conversation *)
Abbreviation calling := (list Block * conversation)%type.

Definition add_call (p : string) (j : nat) (v : json) (st : calling) : fallible calling :=
  let '(content, c) := st in
  let q := at_index (p +:+ ".tool_calls") j in
  call ← object (Some v) q;
  keys call ["id"; "type"; "function"] q;;
  id ← string_field (get call "id") (q +:+ ".id") false;
  unless (negb (is_string (get call "type") "function") || bool_decide (id ∈ cv_used c))
    (bad "Invalid or duplicate function call" q);;
  f ← object (get call "function") (q +:+ ".function");
  keys f ["name"; "arguments"] (q +:+ ".function");;
  args ← string_field (get f "arguments") (q +:+ ".function.arguments") true;
  parsed ← match parse_string args with
           | Some v => mret v
           | None => bad "Invalid JSON tool arguments" (q +:+ ".function.arguments")
           end;
  name ← string_field (get f "name") (q +:+ ".function.name") false;
  '(called, names) ← encode name (cv_names c);
  input ← object (Some parsed) (q +:+ ".function.arguments");
  mret (content ++ [ToolUseBlock id called input],
        {| cv_messages := cv_messages c; cv_system := cv_system c; cv_instructionRole := cv_instructionRole c;
           cv_pending := cv_pending c ++ [id]; cv_used := cv_used c ++ [id];
           cv_fields := cv_fields c; cv_names := names |}).

Definition with_reasoning (c : conversation) : conversation :=
  {| cv_messages := cv_messages c; cv_system := cv_system c; cv_instructionRole := cv_instructionRole c;
     cv_pending := cv_pending c; cv_used := cv_used c;
     cv_fields := if bool_decide (reasoning_content ∈ cv_fields c) then cv_fields c
                  else cv_fields c ++ [reasoning_content];
     cv_names := cv_names c |}.

Definition turn_message (p : string) (role : Role) (m : list (string * json)) (c : conversation) : fallible conversation :=
  unless (negb (bool_decide (cv_pending c = []))) (bad "Tool calls require results before the next turn" p);;
  unless (present m "tool_call_id" || (negb (bool_decide (role = assistant)) && present m "tool_calls"))
    (bad "Unexpected tool fields" p);;
  content ← (if nullish (get m "content") then mret [] else contentParts (get m "content") (p +:+ ".content") role);
  '(content, c) ← (if present m "reasoning_content"
                   then thinking ← string_field (get m "reasoning_content") (p +:+ ".reasoning_content") true;
                        mret (ThinkingBlock thinking :: content, with_reasoning c)
                   else mret (content, c));
  '(content, c) ← match get m "tool_calls" with
                  | None => mret (content, c)
                  | Some (JArr ((_ :: _) as l)) => each (add_call p) 0 l (content, c)
                  | Some _ => bad "tool_calls must be nonempty" (p +:+ ".tool_calls")
                  end;
  unless (bool_decide (length content = 0%nat)) (bad "Message must contain text or tool calls" (p +:+ ".content"));;
  mret (push_message {| m_role := role; m_content := content |} c).

Definition add_message (i : nat) (v : json) (c : conversation) : fallible conversation :=
  let p := at_index "messages" i in
  m ← object (Some v) p;
  keys m ["role"; "content"; "tool_calls"; "tool_call_id"; "reasoning_content"] p;;
  role ← string_field (get m "role") (p +:+ ".role") false;
  unless (present m "reasoning_content" && negb (String.eqb role "assistant"))
    (bad "Reasoning replay requires an assistant message" (p +:+ ".reasoning_content"));;
  if String.eqb role "system" || String.eqb role "developer" then instruction_message p role m c
  else if String.eqb role "tool" then tool_message p m c
  else if String.eqb role "user" then turn_message p user m c
  else if String.eqb role "assistant" then turn_message p assistant m c
  else unsupported "Unsupported message role" (p +:+ ".role").

(** * The translation *)

Definition REQUEST_KEYS : list string :=
  ["model"; "messages"; "tools"; "tool_choice"; "stream"; "stream_options"; "n"; "max_tokens"; "temperature";
   "top_p"; "stop"; "response_format"].

Definition note {A} (f : ChatField) (v : option A) : list ChatField := match v with Some _ => [f] | None => [] end.

Definition translateChatRequest (value : json) : fallible TranslatedChat :=
  req ← object (Some value) "body";
  keys req REQUEST_KEYS "";;
  model ← string_field (get req "model") "model" false;
  unless (present req "stream" && negb (is_bool (get req "stream"))) (bad "stream: expected a boolean" "stream");;
  unless (match get req "n" with Some (JNum q) => negb (bool_decide (q = Qc_of_Z 1)) | Some _ => true | None => false end)
    (unsupported "Only n=1 is supported" "n");;
  format ← response_format req;
  includeUsage ← stream_options req;
  max ← number_field req "max_tokens" legal_max_tokens;
  temp ← number_field req "temperature" (legal_between (Qc_of_Z 2));
  top ← number_field req "top_p" (legal_between (Qc_of_Z 1));
  stops ← stop_field req;
  let fields := note Routing.response_format format ++ note max_tokens max ++ note temperature temp
                  ++ note top_p top ++ note stop stops in
  '(tools, sc) ← tools_field req;
  unless (bool_decide (is_Some format) && bool_decide (is_Some tools))
    (unsupported "json_schema response_format cannot be combined with tools" "response_format");;
  '(choice, names) ← tool_choice req tools sc;
  messages ← match get req "messages" with
             | Some (JArr ((_ :: _) as l)) => mret l
             | _ => bad "messages must be a nonempty array" "messages"
             end;
  c ← each add_message 0 messages
        {| cv_messages := []; cv_system := None; cv_instructionRole := None; cv_pending := []; cv_used := [];
           cv_fields := fields; cv_names := names |};
  unless (negb (bool_decide (cv_pending c = []))) (bad "Conversation has unanswered tool calls" "messages");;
  unless (bool_decide (length (cv_messages c) = 0%nat)) (bad "Conversation requires a user or assistant turn" "messages");;
  mret {| t_body := {| mb_model := model; mb_messages := cv_messages c; mb_system := cv_system c; mb_tools := tools;
                       mb_tool_choice := choice; mb_max_tokens := max; mb_temperature := temp; mb_top_p := top;
                       mb_stop_sequences := stops; mb_schema := snd <$> format |};
          t_stream := is_true (get req "stream"); t_includeUsage := includeUsage; t_names := cv_names c;
          t_fields := cv_fields c; t_structuredOutput := fst <$> format |}.
End translate.
