(* ===== verification/ChatRequestSafety.v ===== *)
(** What the translation of a chat request ([ChatRequest]) keeps: the conversation, the tools
    and the options that the client wrote, and the exchange of calls and results that a
    Messages upstream demands. *)

From S2P Require Import Prelude.
From S2P Require Import Rationals.
From S2P Require Import Json.
From S2P Require Import OpenAiFormats.
From S2P Require Import Routing.
From S2P Require Import ChatStream.
From S2P Require Import ChatRequest.
Open Scope Z_scope.

(** * What the client says *)

(** A conversation, read part by part; a call names its function. *)
Inductive utterance :=
  | Turn (r : Role)
  | Says (s : string)
  | Shows (url : string)
  | Thinks (s : string)
  | Calls (id : string) (name : option string) (input : list (string * json))
  | Answers (id content : string).

Definition text_of (v : value) : string := default ""%string (as_string v).
Definition elements_of (v : value) : list json := match v with Some (JArr l) => l | _ => [] end.
Definition nonempty (s : string) : list string := if String.eqb s "" then [] else [s].

(** An image's URL without the parameters of its media type *)
Definition bare_url (url : string) : string :=
  if startsWith url "data:" then
    match cut_at ","%char url with
    | Some (head, data) => default ""%string (hd_error (split_at ";"%char head)) +:+ ";base64," +:+ data
    | None => url
    end
  else url.

Definition spoken_part (part : json) : list utterance :=
  if is_string (own "type" part) "text" then map Says (nonempty (text_of (own "text" part)))
  else [Shows (bare_url (text_of (opt_prop (own "image_url" part) "url")))].
Definition spoken_content (v : value) : list utterance :=
  match v with
  | Some (JStr s) => map Says (nonempty s)
  | _ => elements_of v ≫= spoken_part
  end.
Definition call_name (call : json) : string := text_of (opt_prop (own "function" call) "name").
Definition spoken_call (call : json) : utterance :=
  Calls (text_of (own "id" call)) (Some (call_name call))
    match parse_string (text_of (opt_prop (own "function" call) "arguments")) with
    | Some (JObj m) => m | _ => []
    end.
Definition role_of (m : json) : string := text_of (own "role" m).
Definition instructs (m : json) : bool := String.eqb (role_of m) "system" || String.eqb (role_of m) "developer".
Definition spoken_message (m : json) : list utterance :=
  if instructs m then []
  else if String.eqb (role_of m) "tool"
  then [Answers (text_of (own "tool_call_id" m)) (text_of (own "content" m))]
  else Turn (if String.eqb (role_of m) "user" then user else assistant)
       :: match own "reasoning_content" m with Some v => [Thinks (text_of (Some v))] | None => [] end
       ++ spoken_content (own "content" m) ++ map spoken_call (elements_of (own "tool_calls" m)).
Definition spoken_texts (v : value) : list string :=
  match v with
  | Some (JStr s) => nonempty s
  | _ => elements_of v ≫= λ part, nonempty (text_of (own "text" part))
  end.
Definition instruction (m : json) : list string := if instructs m then spoken_texts (own "content" m) else [].

Definition messages_of (v : json) : list json := elements_of (own "messages" v).
Definition spoken (v : json) : list utterance := messages_of v ≫= spoken_message.
Definition instructions (v : json) : list string := messages_of v ≫= instruction.

(** A tool: its name, its description, the schema of its parameters *)
Definition no_parameters : list (string * json) := [("type", JStr "object"); ("properties", JObj [])]%string.
Definition spoken_tool (t : json) : string * option string * list (string * json) :=
  let f := own "function" t in
  (text_of (opt_prop f "name"), as_string (opt_prop f "description"),
   match opt_prop f "parameters" with Some (JObj m) => m | _ => no_parameters end).
Definition tools_of (v : json) : list json := elements_of (own "tools" v).
Definition chosen_name (v : json) : list string :=
  match own "tool_choice" v with
  | Some (JObj m) => [text_of (opt_prop (own "function" (JObj m)) "name")]
  | _ => []
  end.
(** Every function the request names, in the order of its names' first use *)
Definition called_in (m : json) : list string :=
  if instructs m || String.eqb (role_of m) "tool" then [] else map call_name (elements_of (own "tool_calls" m)).
Definition function_names (v : json) : list string :=
  map (λ t, (spoken_tool t).1.1) (tools_of v) ++ chosen_name v ++ (messages_of v ≫= called_in).

(** * What the upstream is told *)

Definition url_of (s : ImageSource) : string :=
  match s with
  | Base64Image media data => "data:" +:+ media +:+ ";base64," +:+ data
  | UrlImage url => url
  end.
Definition heard_block (b : Block) : utterance :=
  match b with
  | TextBlock s => Says s
  | ImageBlock s => Shows (url_of s)
  | ThinkingBlock s => Thinks s
  | ToolUseBlock id name input => Calls id (Some name) input
  | ToolResultBlock id content => Answers id content
  end.
Definition heard_message (m : Message) : list utterance :=
  if all_results m then map heard_block (m_content m) else Turn (m_role m) :: map heard_block (m_content m).
Definition heard (ms : list Message) : list utterance := ms ≫= heard_message.

(** A conversation whose functions go by other names *)
Definition rename (f : string → option string) (u : utterance) : utterance :=
  match u with Calls id name input => Calls id (name ≫= f) input | u => u end.

(** The names in use *)
Section names.
Context (sha256 : string → string).

Definition naming (names : jmap string string) (l : list string) : jmap string string :=
  foldl (λ m n, <[encoded_name sha256 n := n]> m) names l.

(** No two functions of a request share a digest. *)
Definition distinct_digests (l : list string) : Prop :=
  ∀ a b, a ∈ l → b ∈ l → encoded_name sha256 a = encoded_name sha256 b → a = b.

Lemma naming_app m l l' : naming m (l ++ l') = naming (naming m l) l'.
Proof. apply foldl_app. Qed.

Lemma naming_lookup m l n :
  distinct_digests l → n ∈ l → naming m l !! encoded_name sha256 n = Some n.
Proof.
  unfold distinct_digests. induction l as [|x l IH] using rev_ind; intros Hd Hn; [by apply elem_of_nil in Hn|].
  rewrite naming_app. cbn. rewrite jlookup_insert. case_decide as E.
  - f_equal. symmetry. apply Hd; [done| |by symmetry]. apply elem_of_app. right. by apply list_elem_of_singleton.
  - apply elem_of_app in Hn as [Hn| ->%list_elem_of_singleton]; [|done]. apply IH; [|done].
    intros a b Ha Hb. apply Hd; apply elem_of_app; by left.
Qed.
End names.

(** * Accepted steps *)

Lemma unless_inr b e u : unless b (inl e) = inr u ↔ b = false.
Proof. destruct u, b; by split. Qed.

Lemma object_inr v p m : object v p = inr m ↔ v = Some (JObj m).
Proof. split; [|by intros ->]. destruct v as [[]|]; intros H; by inversion H. Qed.

Lemma keys_inr m allowed p u : keys m allowed p = inr u ↔ m.*1 ⊆ allowed.
Proof.
  destruct u. induction m as [|[k v] m IH]; cbn; [split; [intros _ k Hk; by apply elem_of_nil in Hk|done]|].
  case_bool_decide as Hk; [|split; [done|intros Hs; destruct Hk; apply Hs; by left]].
  rewrite IH. split.
  - intros Hs x [->|Hx]%elem_of_cons; [done|by apply Hs].
  - intros Hs x Hx. apply Hs. by right.
Qed.

Lemma string_field_inr v p e s : string_field v p e = inr s ↔ v = Some (JStr s) ∧ (e = false → trim s ≠ ""%string).
Proof.
  unfold string_field. destruct v as [[| | |t| |]|]; cbn; try by (split; [|intros [? _]]).
  destruct e; cbn; [|destruct (String.eqb_spec (trim t) "") as [Ht|Ht]; cbn].
  - split; [inversion 1; naive_solver|by intros [[= ->] _]].
  - split; [done|]. intros [[= ->] H]. by destruct H.
  - split; [inversion 1; naive_solver|by intros [[= ->] _]].
Qed.

Lemma is_string_true v t : is_string v t = true ↔ v = Some (JStr t).
Proof.
  unfold is_string. destruct v as [[| | |s| |]|]; cbn; try by split.
  rewrite String.eqb_eq. split; intros ?; by simplify_eq.
Qed.

Lemma own_get k m : own k (JObj m) = get m k.
Proof. done. Qed.

Lemma present_get m k : present m k = bool_decide (is_Some (get m k)).
Proof. done. Qed.

(** Takes an accepted computation apart, check by check. *)
Ltac accepted H :=
  repeat (cbv beta zeta in H;
    match type of H with
    | mbind _ ?e = inr _ =>
        let x := fresh "x" in let E := fresh "E" in
        destruct e as [?|x] eqn:E; [discriminate H|]; cbn [mbind fallible_bind] in H
    | context [let '(_, _) := ?p in _] => destruct p
    | (if ?b then _ else _) = inr _ => let E := fresh "E" in destruct b eqn:E; try discriminate H; try discriminate E
    | mret _ = inr _ => injection H as H
    | inr _ = inr _ => injection H as H
    end; try subst);
  repeat match goal with
  | E : unless _ (bad _ _) = inr _ |- _ => apply unless_inr in E
  | E : unless _ (unsupported _ _) = inr _ |- _ => apply unless_inr in E
  | E : object _ _ = inr _ |- _ => apply object_inr in E
  | E : keys _ _ _ = inr _ |- _ => apply keys_inr in E
  | E : string_field _ _ _ = inr _ |- _ => apply string_field_inr in E as [E ?]
  | E : is_string _ _ = true |- _ => apply is_string_true in E
  | E : negb (is_string _ _) = false |- _ => apply negb_false_iff, is_string_true in E
  | E : Some _ = Some (JObj _) |- _ => apply (inj Some) in E; subst
  | E : JObj _ = JObj _ |- _ => injection E as E; subst
  end.

(** * Loops *)

Lemma map_with_spec {A B T C} (f : nat → A → T → fallible (B * T)) (g : A → C) (h : B → C) (R : T → list A → T → Prop) l :
  (∀ s, R s [] s) → (∀ s a s' b s'', R s a s' → R s' b s'' → R s (a ++ b) s'') →
  (∀ i x s y s', x ∈ l → f i x s = inr (y, s') → h y = g x ∧ R s [x] s') →
  ∀ i s ys s', map_with f i l s = inr (ys, s') → map h ys = map g l ∧ R s l s'.
Proof.
  intros Hnil Happ Hf. induction l as [|x l IH]; intros i s ys s' H; cbn in H; [by accepted H|].
  accepted H. edestruct Hf as [Hy HR]; [by left|eassumption|].
  edestruct IH as [Hys HRs]; [intros; eapply Hf; [by right|eassumption]|eassumption|].
  cbn. rewrite Hy, Hys. split; [done|]. by eapply (Happ _ [_]).
Qed.

Lemma each_spec {A T} (f : nat → A → T → fallible T) (R : T → list A → T → Prop) l :
  (∀ s, R s [] s) → (∀ i x s s', x ∈ l → f i x s = inr s' → ∀ l' s0, R s0 l' s → R s0 (l' ++ [x]) s') →
  ∀ i s s', each f i l s = inr s' → R s l s'.
Proof.
  intros Hnil Hf i s s' H.
  assert (∀ l0 i s0 s1 l', l0 ⊆ l → R s0 l' s1 → ∀ s2, each f i l0 s1 = inr s2 → R s0 (l' ++ l0) s2) as Hgen.
  { clear - Hf. induction l0 as [|x l0 IH]; intros i s0 s1 l' Hsub HR s2 H; cbn in H; [accepted H; by rewrite app_nil_r|].
    accepted H. rewrite cons_middle, app_assoc. eapply IH; [set_solver| |eassumption].
    eapply Hf; [apply Hsub; by left|eassumption|done]. }
  by eapply (Hgen l i s s []); auto.
Qed.

Lemma flat_map_spec {A B C} (f : nat → A → fallible (list B)) (g : A → list C) (h : B → C) l :
  (∀ i x ys, x ∈ l → f i x = inr ys → map h ys = g x) →
  ∀ i ys, flat_map f i l = inr ys → map h ys = l ≫= g.
Proof.
  intros Hf. induction l as [|x l IH]; intros i ys H; cbn in H; [by accepted H|].
  accepted H. cbn. rewrite map_app. f_equal; [eapply Hf; [by left|done]|].
  eapply IH; [|eassumption]. intros. eapply Hf; [by right|done].
Qed.

(** * Content *)

Lemma text_part_spec p part ts :
  text_part p part = inr ts → ts = nonempty (text_of (get part "text")).
Proof. unfold text_part. intros H. accepted H. rewrite E. unfold nonempty. cbn. by destruct (String.eqb x ""). Qed.

Lemma textParts_spec v p ts : textParts v p = inr ts → ts = spoken_texts v.
Proof.
  destruct v as [[| | |s|l|]|]; intros H; try by (cbn in H; inversion H).
  cbn [textParts elements_of] in *. rewrite <-(map_id ts). eapply flat_map_spec; [|exact H].
  intros i x ys Hx Hi. accepted Hi. apply text_part_spec in Hi. simplify_eq. by rewrite map_id.
Qed.

Lemma cut_at_slice p c url : (∀ x, x ∈ to_text p → x ≠ c) →
  cut_at c (p +:+ url) = '(a, b) ← cut_at c url; Some (p +:+ a, b).
Proof.
  induction p as [|x p IH]; intros Hp; [change ("" +:+ url) with url; by destruct (cut_at c url) as [[]|]|].
  change (String x p +:+ url) with (String x (p +:+ url)). cbn [cut_at].
  destruct (Ascii.eqb_spec x c) as [->|]; [by destruct (Hp c); [left|]|].
  rewrite IH by (intros; apply Hp; by right). by destruct (cut_at c url) as [[]|].
Qed.

Lemma split_at_app p c s h t : (∀ x, x ∈ to_text p → x ≠ c) →
  split_at c s = h :: t → split_at c (p +:+ s) = (p +:+ h) :: t.
Proof.
  induction p as [|x p IH]; intros Hp Hs; [done|].
  change (String x p +:+ s) with (String x (p +:+ s)). cbn [split_at].
  destruct (Ascii.eqb_spec x c) as [->|]; [by destruct (Hp c); [left|]|].
  rewrite IH; [done| |done]. intros. apply Hp. by right.
Qed.

Lemma imageSource_spec url p s : imageSource url p = inr s → url_of s = bare_url url.
Proof.
  unfold imageSource, bare_url. intros H. destruct (startsWith url "data:") eqn:Hd; [|by accepted H].
  apply prefix_spec in Hd as [rest ->]. destruct (base64_url _) as [[media data]|] eqn:Hb; [|done].
  accepted H. unfold base64_url in Hb. change 5%nat with (String.length "data:") in Hb. rewrite slice_from_app in Hb.
  rewrite cut_at_slice by (intros x Hx ->; cbn in Hx; set_solver).
  destruct (cut_at _ rest) as [[head d]|]; [|done]. cbn [mbind option_bind] in Hb |- *.
  destruct (split_at _ head) as [|m ps] eqn:Hs; [done|]. destruct (_ && _); [|done]. simplify_eq.
  erewrite split_at_app; [|intros x Hx ->; cbn in Hx; set_solver|exact Hs].
  change (hd_error (("data:" +:+ media) :: ps)) with (Some ("data:" +:+ media)). cbn [default url_of].
  unfold id. by rewrite string_app_assoc.
Qed.

Lemma heard_texts ts : map heard_block (map TextBlock ts) = map Says ts.
Proof. by rewrite map_map. Qed.

Lemma contentParts_spec v p role bs : contentParts v p role = inr bs → map heard_block bs = spoken_content v.
Proof.
  intros H. assert (Hstr : ∀ w ts, textParts w p = inr ts → (∀ l, w ≠ Some (JArr l)) → map Says ts = spoken_content w).
  { intros w ts Hw Hne. apply textParts_spec in Hw as ->.
    destruct w as [[| | |s|l|]|]; try done. by destruct (Hne l). }
  destruct v as [[| | |s|l|]|]; try (cbn [contentParts] in H; accepted H; rewrite heard_texts; by apply Hstr).
  cbn [contentParts spoken_content elements_of] in *. eapply flat_map_spec; [|exact H].
  intros i x ys Hx Hi. accepted Hi; simplify_eq; unfold spoken_part; rewrite !own_get.
  - match goal with T : text_part _ _ = _ |- _ => apply text_part_spec in T as -> end.
    rewrite heard_texts. match goal with T : get _ "type" = _ |- _ => rewrite T end. done.
  - match goal with T : is_string _ _ = false |- _ => rewrite T end.
    match goal with T : imageSource _ _ = _ |- _ => apply imageSource_spec in T; cbn [map heard_block]; rewrite T end.
    match goal with T : get _ "image_url" = _ |- _ => rewrite T end. cbn [opt_prop mbind option_bind].
    rewrite own_get. match goal with T : get _ "url" = _ |- _ => rewrite T end. done.
Qed.

(** * Messages *)

Section messages.
Context (sha256 : string → string).

Definition encoded : utterance → utterance := rename (λ n, Some (encoded_name sha256 n)).

Definition call_id (b : Block) : option string := match b with ToolUseBlock id _ _ => Some id | _ => None end.
Definition result_id (b : Block) : option string := match b with ToolResultBlock id _ => Some id | _ => None end.
Definition call_ids (m : Message) : list string := omap call_id (m_content m).
Definition result_ids (m : Message) : list string := omap result_id (m_content m).

(** A conversation in which more functions were called *)
Definition calling_more (ids names : list string) (c : conversation) : conversation :=
  {| cv_messages := cv_messages c; cv_system := cv_system c; cv_instructionRole := cv_instructionRole c;
     cv_pending := cv_pending c ++ ids; cv_used := cv_used c ++ ids; cv_fields := cv_fields c;
     cv_names := naming sha256 (cv_names c) names |}.

Lemma calling_more_nil c : calling_more [] [] c = c.
Proof. destruct c. unfold calling_more. cbn. by rewrite !app_nil_r. Qed.

Lemma calling_more_app ids ids' ns ns' c :
  calling_more ids' ns' (calling_more ids ns c) = calling_more (ids ++ ids') (ns ++ ns') c.
Proof. unfold calling_more. cbn. by rewrite naming_app, <-!app_assoc. Qed.

Lemma add_call_spec p j v content c content' c' :
  add_call sha256 p j v (content, c) = inr (content', c') →
  ∃ b id, content' = content ++ [b] ∧ call_id b = Some id ∧ heard_block b = encoded (spoken_call v)
    ∧ (id ∉ cv_used c) ∧ c' = calling_more [id] [call_name v] c.
Proof.
  intros H. unfold add_call in H. accepted H.
  unfold encode in *. repeat match goal with E : mbind _ _ = inr _ |- _ => accepted E end.
  match goal with P : match parse_string ?a with _ => _ end = inr _ |- _ => destruct (parse_string a) eqn:Hp; [|done]; injection P as -> end.
  apply orb_false_iff in E2 as [_ Hu%bool_decide_eq_false].
  assert (call_name (JObj x) = x7) as Hname.
  { unfold call_name. rewrite !own_get, E3. cbn [opt_prop mbind option_bind]. by rewrite own_get, E7. }
  eexists _, _. split_and!; [done|done| |exact Hu|by rewrite Hname].
  unfold encoded, spoken_call. rewrite Hname, !own_get, E1, E3. cbn [opt_prop mbind option_bind].
  rewrite own_get, E5. cbn [text_of default as_string]. unfold id. by rewrite Hp.
Qed.

(** Calls one after another *)
Definition calls_made (st : list Block * conversation) (l : list json) (st' : list Block * conversation) : Prop :=
  ∃ bs ids, st'.1 = st.1 ++ bs ∧ map heard_block bs = map (encoded ∘ spoken_call) l ∧ map call_id bs = map Some ids
    ∧ NoDup ids ∧ (∀ id, id ∈ ids → id ∉ cv_used st.2) ∧ st'.2 = calling_more ids (map call_name l) st.2.

Lemma add_calls_spec p l st st' : each (add_call sha256 p) 0 l st = inr st' → calls_made st l st'.
Proof.
  apply each_spec.
  - intros s. exists [], []. rewrite app_nil_r, calling_more_nil. split_and!; try done; [constructor|by intros ? ?%elem_of_nil].
  - intros i v [content c] [content' c'] _ H l' s0 (bs & ids & Hc & Hb & Hi & Hn & Hu & Hs). cbn in Hc, Hs. subst.
    apply add_call_spec in H as (b & id & -> & Hid & Hv & Hnew & ->).
    exists (bs ++ [b]), (ids ++ [id]). cbn in Hnew |- *. rewrite app_assoc, !map_app, Hb, Hi. cbn. rewrite Hid, Hv.
    split_and!; try done.
    + apply NoDup_app. split_and!; [done| |apply NoDup_singleton]. intros x Hx ->%list_elem_of_singleton. set_solver.
    + intros x [Hx|Hx]%elem_of_app; [by apply Hu|]. set_solver.
    + by rewrite calling_more_app.
Qed.

(** What one message adds *)
Inductive message_step (v : json) (c : conversation) : conversation → Prop :=
  | step_instruction role :
      cv_messages c = [] → spoken_message v = [] → called_in v = [] → own "reasoning_content" v = None →
      message_step v c
        {| cv_messages := cv_messages c; cv_system := Some (default [] (cv_system c) ++ instruction v);
           cv_instructionRole := Some role; cv_pending := cv_pending c; cv_used := cv_used c;
           cv_fields := cv_fields c; cv_names := cv_names c |}
  | step_result id content :
      spoken_message v = [Answers id content] → instruction v = [] → called_in v = [] →
      own "reasoning_content" v = None → id ∈ cv_pending c →
      message_step v c
        {| cv_messages := push_result (ToolResultBlock id content) (cv_messages c); cv_system := cv_system c;
           cv_instructionRole := cv_instructionRole c; cv_pending := filter (.≠ id) (cv_pending c);
           cv_used := cv_used c; cv_fields := cv_fields c; cv_names := cv_names c |}
  | step_turn m :
      Turn (m_role m) :: map heard_block (m_content m) = map encoded (spoken_message v) →
      instruction v = [] → cv_pending c = [] → m_content m ≠ [] → result_ids m = [] → (m_role m = user → call_ids m = []) →
      NoDup (call_ids m) → (∀ id, id ∈ call_ids m → id ∉ cv_used c) →
      message_step v c
        (push_message m (calling_more (call_ids m) (called_in v)
           (if bool_decide (is_Some (own "reasoning_content" v)) then with_reasoning c else c))).

Definition asked (u : utterance) : option string := match u with Calls id _ _ => Some id | _ => None end.
Definition answered (u : utterance) : option string := match u with Answers id _ => Some id | _ => None end.

Lemma call_ids_heard l : omap call_id l = omap asked (map heard_block l).
Proof. induction l as [|[] l IH]; csimpl; by rewrite ?IH. Qed.
Lemma result_ids_heard l : omap result_id l = omap answered (map heard_block l).
Proof. induction l as [|[] l IH]; csimpl; by rewrite ?IH. Qed.

(** What is neither a call nor a result *)
Definition plain_part (u : utterance) : Prop := asked u = None ∧ answered u = None ∧ encoded u = u.

Lemma plain_parts v : Forall plain_part (spoken_content v).
Proof.
  assert (∀ s, Forall plain_part (map Says (nonempty s))) as Hs.
  { intros s. unfold nonempty. destruct (String.eqb s ""); by repeat constructor. }
  assert (∀ part, Forall plain_part (spoken_part part)) as Hp.
  { intros part. unfold spoken_part. destruct (is_string (own "type" part) "text"); [apply Hs|by repeat constructor]. }
  destruct v as [[| | |s|l|]|]; try (by constructor); [by apply Hs|]. by apply Forall_bind, Forall_true, Hp.
Qed.

Lemma plain_encoded l : Forall plain_part l → map encoded l = l.
Proof. induction 1 as [|u l (_ & _ & Hu) _ IH]; [done|]. cbn. by rewrite Hu, IH. Qed.
Lemma plain_asked l : Forall plain_part l → omap asked l = [].
Proof. induction 1 as [|u l (Hu & _) _ IH]; [done|]. csimpl. by rewrite Hu, IH. Qed.
Lemma plain_answered l : Forall plain_part l → omap answered l = [].
Proof. induction 1 as [|u l (_ & Hu & _) _ IH]; [done|]. csimpl. by rewrite Hu, IH. Qed.

Lemma omap_map_Some {A B} (f : A → option B) l ids : map f l = map Some ids → omap f l = ids.
Proof. revert ids. induction l as [|x l IH]; intros [|i ids] H; csimpl in *; try done. injection H as -> H. by rewrite (IH ids). Qed.

Definition reasoning_part (v : json) : list utterance :=
  match own "reasoning_content" v with Some w => [Thinks (text_of (Some w))] | None => [] end.

Lemma spoken_turn v r :
  role_of v = role_name r →
  spoken_message v = Turn r :: reasoning_part v ++ spoken_content (own "content" v)
                       ++ map spoken_call (elements_of (own "tool_calls" v))
  ∧ instruction v = [] ∧ called_in v = map call_name (elements_of (own "tool_calls" v)).
Proof. intros Hr. unfold spoken_message, instruction, called_in, instructs. rewrite Hr. by destruct r. Qed.

Lemma plain_reasoning v : Forall plain_part (reasoning_part v).
Proof. unfold reasoning_part. destruct (own _ v); by repeat constructor. Qed.

Definition reasoned (v : json) (c : conversation) : conversation :=
  if bool_decide (is_Some (own "reasoning_content" v)) then with_reasoning c else c.

Lemma reasoned_used v c : cv_used (reasoned v c) = cv_used c.
Proof. unfold reasoned. by case_bool_decide. Qed.

Lemma content_spec v p r bs :
  (if nullish v then mret [] else contentParts v p r) = inr bs → map heard_block bs = spoken_content v.
Proof.
  destruct (nullish v) eqn:Hn; intros H; [|by eapply contentParts_spec].
  accepted H. by destruct v as [[]|].
Qed.

Lemma calls_no_results bs ids : map call_id bs = map Some ids → omap result_id bs = [].
Proof. revert ids. induction bs as [|[] bs IH]; intros [|x xs] H; csimpl in *; simplify_eq; eauto. Qed.

(** A turn from its three parts *)
Lemma turn_spec r m c l bs ids :
  role_of (JObj m) = role_name r → cv_pending c = [] →
  map heard_block l = reasoning_part (JObj m) ++ spoken_content (get m "content") →
  map heard_block bs = map (encoded ∘ spoken_call) (elements_of (get m "tool_calls")) →
  map call_id bs = map Some ids → NoDup ids → (∀ id, id ∈ ids → id ∉ cv_used c) →
  (r = user → bs = []) → l ++ bs ≠ [] →
  message_step (JObj m) c
    (push_message {| m_role := r; m_content := l ++ bs |}
       (calling_more ids (map call_name (elements_of (get m "tool_calls"))) (reasoned (JObj m) c))).
Proof.
  intros Hr Hpend Hl Hbs Hids Hnd Hu Huser Hne. destruct (spoken_turn _ _ Hr) as (Hsp & Hin & Hcl). rewrite !own_get in *.
  assert (Forall plain_part (reasoning_part (JObj m) ++ spoken_content (get m "content"))) as Hplain
    by (apply Forall_app; split; [apply plain_reasoning|apply plain_parts]).
  assert (call_ids {| m_role := r; m_content := l ++ bs |} = ids) as Hcalls.
  { unfold call_ids. cbn. rewrite omap_app, call_ids_heard, Hl, plain_asked by done. by apply omap_map_Some. }
  rewrite <-Hcl, <-Hcalls at 1. apply step_turn; rewrite ?Hcalls; try done.
  - cbn. rewrite Hsp, map_app, Hl, Hbs. cbn. rewrite app_assoc, map_app, map_map. by rewrite (plain_encoded _ Hplain).
  - unfold result_ids. cbn. rewrite omap_app, result_ids_heard, Hl, plain_answered by done.
    by eapply calls_no_results.
  - cbn. intros ->. rewrite Huser in Hids by done. by destruct ids.
Qed.

Lemma turn_message_spec p r m c c' :
  turn_message sha256 p r m c = inr c' → role_of (JObj m) = role_name r →
  message_step (JObj m) c c'.
Proof.
  intros H Hr. unfold turn_message in H. accepted H. apply negb_false_iff, bool_decide_eq_true in E.
  apply orb_false_iff in E0 as [_ Hnocalls]. apply content_spec in E1.
  assert (map heard_block l = reasoning_part (JObj m) ++ spoken_content (get m "content") ∧ c0 = reasoned (JObj m) c) as [Hl ->].
  { unfold reasoning_part, reasoned. rewrite own_get, <-E1. unfold present in E2.
    destruct (bool_decide (is_Some (get m "reasoning_content"))) eqn:Hp.
    - accepted E2. by match goal with R : get m "reasoning_content" = _ |- _ => rewrite R end.
    - accepted E2. by destruct (get m "reasoning_content"). }
  assert (calls_made (l, reasoned (JObj m) c) (elements_of (get m "tool_calls")) (l0, c1)) as (bs & ids & Hbs & Hh & Hi & Hnd & Hu & Hc).
  { destruct (get m "tool_calls") as [[| | | |[|v w]|]|]; try done; [by apply add_calls_spec in E3|].
    accepted E3. exists [], []. rewrite app_nil_r, calling_more_nil. split_and!; try done; [constructor|by intros ? ?%elem_of_nil]. }
  cbn in Hbs, Hc, Hu. subst. setoid_rewrite reasoned_used in Hu. apply turn_spec; try done.
  - intros ->. cbn in Hnocalls. unfold present in Hnocalls. apply bool_decide_eq_false in Hnocalls.
    destruct (get m "tool_calls"); [by destruct Hnocalls|]. by destruct bs.
  - intros Hnil. by rewrite Hnil in E4.
Qed.

Lemma no_reasoning m : present m "reasoning_content" && negb (role_of (JObj m) =? "assistant")%string = false →
  role_of (JObj m) ≠ "assistant"%string → own "reasoning_content" (JObj m) = None.
Proof.
  intros H Hr. rewrite own_get. unfold present in H. apply String.eqb_neq in Hr. rewrite Hr, andb_true_r in H.
  apply bool_decide_eq_false in H. destruct (get m "reasoning_content"); [by destruct H|done].
Qed.

Lemma instruction_spec p m c c' :
  instruction_message p (role_of (JObj m)) m c = inr c' → instructs (JObj m) = true →
  own "reasoning_content" (JObj m) = None → message_step (JObj m) c c'.
Proof.
  intros H Hi Hreason. unfold instruction_message in H. accepted H.
  match goal with T : textParts _ _ = _ |- _ => apply textParts_spec in T as -> end.
  match goal with T : orb (negb _) _ = false |- _ => apply orb_false_iff in T as [Hm%negb_false_iff%bool_decide_eq_true _] end.
  rewrite <-(own_get "content" m).
  assert (instruction (JObj m) = spoken_texts (own "content" (JObj m))) as <- by (unfold instruction; by rewrite Hi).
  apply step_instruction; try done; unfold spoken_message, called_in; by rewrite Hi.
Qed.

Lemma tool_spec p m c c' :
  tool_message p m c = inr c' → role_of (JObj m) = "tool"%string →
  own "reasoning_content" (JObj m) = None → message_step (JObj m) c c'.
Proof.
  intros H Hr Hreason. unfold tool_message in H. accepted H.
  match goal with T : negb (bool_decide (_ ∈ _)) = false |- _ => apply negb_false_iff, bool_decide_eq_true in T end.
  apply step_result; try done; unfold spoken_message, instruction, called_in, instructs; rewrite Hr; [|done|done].
  by rewrite !own_get, E0, E2.
Qed.

Lemma add_message_spec i v c c' : add_message sha256 i v c = inr c' → message_step v c c'.
Proof.
  intros H. unfold add_message in H. accepted H.
  all: match goal with E : get ?m "role" = Some (JStr ?r) |- _ => assert (role_of (JObj m) = r) as Hr by (unfold role_of; by rewrite own_get, E) end.
  all: rewrite <-Hr in *.
  - apply instruction_spec in H; [done|done|]. apply no_reasoning; [done|]. intros Hx. by rewrite Hx in *.
  - apply tool_spec in H; [done|by apply String.eqb_eq|]. apply no_reasoning; [done|]. intros Hx. by rewrite Hx in *.
  - eapply turn_message_spec; [exact H|by apply String.eqb_eq].
  - eapply turn_message_spec; [exact H|by apply String.eqb_eq].
Qed.

(** * The conversation *)

Lemma heard_app ms ms' : heard (ms ++ ms') = heard ms ++ heard ms'.
Proof. apply bind_app. Qed.
Lemma heard_one m : heard [m] = heard_message m.
Proof. unfold heard. cbn. apply app_nil_r. Qed.

Lemma turn_not_results m : m_content m ≠ [] → result_ids m = [] → all_results m = false.
Proof.
  intros Hne Hr. unfold all_results, result_ids in *. destruct (m_content m) as [|b l]; [done|].
  destruct b; csimpl in *; try done; by rewrite andb_false_r.
Qed.

Lemma results_message id content : all_results {| m_role := user; m_content := [ToolResultBlock id content] |} = true.
Proof. done. Qed.

Lemma push_result_last b ms : is_result b = true →
  (∃ ms' m, ms = ms' ++ [m] ∧ all_results m = true
     ∧ push_result b ms = ms' ++ [{| m_role := user; m_content := m_content m ++ [b] |}])
  ∨ ((∀ ms' m, ms = ms' ++ [m] → all_results m = false)
     ∧ push_result b ms = ms ++ [{| m_role := user; m_content := [b] |}]).
Proof.
  intros Hb. unfold push_result. destruct ms as [|m ms _] using rev_ind.
  { right. split; [|done]. intros ms' m H. by destruct ms'. }
  rewrite last_snoc. destruct (all_results m) eqn:Hm.
  - left. exists ms, m. by rewrite removelast_last.
  - right. split; [|done]. intros ms' m' [_ [= ->]]%app_inj_2; [done|done].
Qed.

Lemma all_results_more m b : all_results m = true → is_result b = true →
  all_results {| m_role := user; m_content := m_content m ++ [b] |} = true.
Proof. unfold all_results. cbn. rewrite !andb_true_iff, forallb_app. cbn. by intros [_ ->] ->. Qed.

Lemma heard_result b ms : is_result b = true → heard (push_result b ms) = heard ms ++ [heard_block b].
Proof.
  intros Hb. destruct (push_result_last b ms Hb) as [(ms' & m & -> & Hm & ->)|[_ ->]]; rewrite !heard_app, !heard_one.
  - rewrite <-app_assoc. f_equal. unfold heard_message. rewrite all_results_more by done. cbn [m_content]. by rewrite Hm, map_app.
  - f_equal. unfold heard_message, all_results. cbn. by rewrite Hb.
Qed.

Definition uses_reasoning (v : json) : bool := bool_decide (is_Some (own "reasoning_content" v)).

(** What a run over messages keeps of them *)
Record kept (c : conversation) (l : list json) (c' : conversation) : Prop := {
  kept_words : heard (cv_messages c') = heard (cv_messages c) ++ map encoded (l ≫= spoken_message);
  kept_system : default [] (cv_system c') = default [] (cv_system c) ++ (l ≫= instruction);
  kept_names : cv_names c' = naming sha256 (cv_names c) (l ≫= called_in);
  kept_fields f : f ∈ cv_fields c' ↔ f ∈ cv_fields c ∨ (f = reasoning_content ∧ existsb uses_reasoning l = true) }.

Lemma kept_nil c : kept c [] c.
Proof. split; cbn; rewrite ?app_nil_r; try done. naive_solver. Qed.

Lemma with_reasoning_fields c f : f ∈ cv_fields (with_reasoning c) ↔ f ∈ cv_fields c ∨ f = reasoning_content.
Proof. unfold with_reasoning. cbn. case_bool_decide; set_solver. Qed.

Lemma kept_one v c c' : message_step v c c' → kept c [v] c'.
Proof.
  intros H. destruct H as [role Hm Hs Hc Hr|id content Hs Hi Hc Hr Hp|m Hs Hi Hp Hne Hres Hu Hnd Hids].
  - split; cbn; rewrite ?Hs, ?Hc, ?app_nil_r; try done. intros f. unfold uses_reasoning. rewrite Hr. cbn. naive_solver.
  - split; cbn; rewrite ?Hs, ?Hc, ?Hi, ?app_nil_r; try done; [by rewrite heard_result|].
    intros f. unfold uses_reasoning. rewrite Hr. cbn. naive_solver.
  - split; cbn; rewrite ?Hi, ?app_nil_r.
    + destruct (bool_decide _); cbn; rewrite heard_app, heard_one; unfold heard_message;
        by rewrite turn_not_results, Hs.
    + by destruct (bool_decide _).
    + by destruct (bool_decide _).
    + intros f. unfold uses_reasoning. destruct (bool_decide _) eqn:Hb; cbn [cv_fields]; [|cbn; naive_solver].
      rewrite with_reasoning_fields. cbn. naive_solver.
Qed.

Lemma kept_trans c l c' l' c'' : kept c l c' → kept c' l' c'' → kept c (l ++ l') c''.
Proof.
  intros [Hw Hs Hn Hf] [Hw' Hs' Hn' Hf']. split.
  - by rewrite Hw', Hw, bind_app, map_app, app_assoc.
  - by rewrite Hs', Hs, bind_app, app_assoc.
  - by rewrite Hn', Hn, bind_app, naming_app.
  - intros f. rewrite Hf', Hf, existsb_app, orb_true_iff. naive_solver.
Qed.

Lemma messages_kept l c c' : each (add_message sha256) 0 l c = inr c' → kept c l c'.
Proof.
  apply each_spec; [apply kept_nil|]. intros i v s s' _ H l' s0 Hk.
  eapply kept_trans; [exact Hk|]. by eapply kept_one, add_message_spec.
Qed.
End messages.

(** * Calls and results *)

(** A message that answers nothing *)
Definition is_turn (m : Message) : Prop := m_content m ≠ [] ∧ result_ids m = [].

(** What a Messages upstream demands: a turn that calls functions is the assistant's, and the
    message after it holds exactly their results; no other message holds any. *)
Inductive exchanged : list Message → Prop :=
  | exchanged_nil : exchanged []
  | exchanged_turn ms m : exchanged ms → is_turn m → call_ids m = [] → exchanged (ms ++ [m])
  | exchanged_calls ms m r :
      exchanged ms → is_turn m → m_role m = assistant → call_ids m ≠ [] →
      all_results r = true → result_ids r ≡ₚ call_ids m → exchanged (ms ++ [m; r]).

(** ... and on the way there, with the calls that await a result *)
Inductive running : list Message → list string → Prop :=
  | running_done ms : exchanged ms → running ms []
  | running_asked ms m :
      exchanged ms → is_turn m → m_role m = assistant → call_ids m ≠ [] → running (ms ++ [m]) (call_ids m)
  | running_answered ms m r waiting :
      exchanged ms → is_turn m → m_role m = assistant → call_ids m ≠ [] → waiting ≠ [] →
      all_results r = true → result_ids r ++ waiting ≡ₚ call_ids m → running (ms ++ [m; r]) waiting.

Lemma running_results ms m r waiting :
  exchanged ms → is_turn m → m_role m = assistant → call_ids m ≠ [] →
  all_results r = true → result_ids r ++ waiting ≡ₚ call_ids m → running (ms ++ [m; r]) waiting.
Proof.
  intros. destruct waiting as [|w ws]; [|by apply running_answered].
  apply running_done, exchanged_calls; try done. by rewrite <-(app_nil_r (result_ids r)).
Qed.

Lemma filter_out_perm (id : string) l : NoDup l → id ∈ l → id :: filter (.≠ id) l ≡ₚ l.
Proof.
  induction 1 as [|x l Hx Hnd IH]; intros Hid; [by apply elem_of_nil in Hid|].
  destruct (decide (x = id)) as [->|Hne].
  - rewrite filter_cons_False by naive_solver. rewrite filter_all; [done|]. by intros y Hy ->.
  - rewrite filter_cons_True by done. rewrite Permutation_swap. f_equiv. apply IH. set_solver.
Qed.

Lemma running_result id content ms pending :
  running ms pending → NoDup pending → id ∈ pending →
  running (push_result (ToolResultBlock id content) ms) (filter (.≠ id) pending).
Proof.
  intros Hr Hnd Hid. pose proof (filter_out_perm id pending Hnd Hid) as Hp.
  destruct Hr as [ms He|ms m He Hm Ha Hc|ms m r waiting He Hm Ha Hc Hw Hr Hperm]; [by apply elem_of_nil in Hid| |].
  - destruct (push_result_last (ToolResultBlock id content) (ms ++ [m]) eq_refl)
      as [(ms' & m' & [_ [= <-]]%app_inj_2 & Hm' & _)|[_ ->]]; [|done|].
    + destruct Hm as [Hne Hres]. by rewrite (turn_not_results m) in Hm'.
    + rewrite <-app_assoc. by apply running_results.
  - change (ms ++ [m; r]) with (ms ++ ([m] ++ [r])). rewrite app_assoc.
    destruct (push_result_last (ToolResultBlock id content) ((ms ++ [m]) ++ [r]) eq_refl)
      as [(ms' & m' & [<- [= <-]]%app_inj_2 & Hm' & ->)|[Hno _]]; [|done|by rewrite (Hno (ms ++ [m]) r) in Hr].
    rewrite <-app_assoc. apply running_results; try done; [by apply all_results_more|].
    unfold result_ids in *. cbn. rewrite omap_app, <-app_assoc. cbn. by rewrite Hp.
Qed.

(** What holds between two messages *)
Record orderly (c : conversation) : Prop := {
  orderly_running : running (cv_messages c) (cv_pending c);
  orderly_pending : NoDup (cv_pending c);
  orderly_used : NoDup (cv_used c);
  orderly_calls : cv_messages c ≫= call_ids = cv_used c }.

Lemma push_result_calls b ms : is_result b = true → push_result b ms ≫= call_ids = ms ≫= call_ids.
Proof.
  intros Hb. assert (call_id b = None) as Hn by by destruct b.
  destruct (push_result_last b ms Hb) as [(ms' & m & -> & _ & ->)|[_ ->]];
    rewrite !bind_app; cbn; unfold call_ids; cbn; rewrite ?omap_app; csimpl; by rewrite Hn, ?app_nil_r.
Qed.

Lemma message_orderly sha256 v c c' : message_step sha256 v c c' → orderly c → orderly c'.
Proof.
  intros H [Hr Hp Hu Hc]. destruct H as [role|id content Hs Hi Hcl Hre Hin|m Hs Hi Hpend Hne Hres Huser Hnd Hids]; split; cbn; try done.
  - by apply running_result.
  - by apply NoDup_filter.
  - by rewrite push_result_calls.
  - assert (exchanged (cv_messages c)) as He.
    { rewrite Hpend in Hr. by inversion Hr; subst; [|destruct (call_ids _)|]. }
    destruct (bool_decide _); cbn; rewrite Hpend; cbn;
      (destruct (call_ids m) eqn:Hcm; [by apply running_done, exchanged_turn|]; rewrite <-Hcm;
       apply running_asked; [done|done|destruct (m_role m) eqn:Hro; [by specialize (Huser eq_refl)|done]|by rewrite Hcm]).
  - destruct (bool_decide _); cbn; by rewrite Hpend.
  - destruct (bool_decide _); cbn; apply NoDup_app; naive_solver.
  - destruct (bool_decide _); cbn; rewrite bind_app; cbn; by rewrite app_nil_r, Hc.
Qed.

Lemma messages_orderly sha256 l c c' : each (add_message sha256) 0 l c = inr c' → orderly c → orderly c'.
Proof.
  apply (each_spec _ (λ c _ c', orderly c → orderly c')); [done|].
  intros i v s s' _ H l' s0 Hs Ho. by eapply message_orderly; [eapply add_message_spec|auto].
Qed.

(** * Tools and options *)

Definition heard_tool (t : Tool) : string * option string * list (string * json) :=
  (tl_name t, tl_description t, tl_input_schema t).
Definition tool_name (v : json) : string := (spoken_tool v).1.1.

(** A tool under another name *)
Definition call_it (f : string → string) (t : string * option string * list (string * json))
    : string * option string * list (string * json) := (f t.1.1, t.1.2, t.2).

(** What the client wants called; without tools there is nothing to choose from. *)
Definition spoken_choice (v : json) : option ToolChoice :=
  if bool_decide (length (tools_of v) = 0%nat) then None else
  match own "tool_choice" v with
  | Some (JStr s) =>
      if String.eqb s "auto" then Some ChooseAuto
      else if String.eqb s "none" then Some ChooseNone
      else if String.eqb s "required" then Some ChooseAny else None
  | Some (JObj m) => Some (ChooseTool (text_of (opt_prop (own "function" (JObj m)) "name")))
  | _ => None
  end.
Definition choose (f : string → string) (c : ToolChoice) : ToolChoice :=
  match c with ChooseTool n => ChooseTool (f n) | c => c end.

Lemma number_field_inr req name legal q :
  number_field req name legal = inr q →
  q = as_number (get req name) ∧ (is_Some q ↔ is_Some (get req name)) ∧ (∀ z, q = Some z → legal z = true).
Proof.
  unfold number_field. destruct (get req name) as [[| |z| | |]|]; intros H; accepted H; cbn; split_and!; try done; naive_solver.
Qed.

Lemma number_field_given req name legal q :
  number_field req name legal = inr q → get req name = JNum <$> q ∧ (∀ z, q = Some z → legal z = true).
Proof.
  unfold number_field. destruct (get req name) as [[| |z| | |]|]; intros H; accepted H; cbn; split; try done; naive_solver.
Qed.

Lemma legal_between_true high q : legal_between high q = true → (0 <= q)%Qc ∧ (q <= high)%Qc.
Proof. unfold legal_between. intros H. by prop_bools. Qed.

(** What ends the answer, as the client lists it *)
Definition spoken_stop (v : json) : option (list string) :=
  match own "stop" v with
  | Some (JArr l) => Some (map (λ s, text_of (Some s)) l)
  | Some s => Some [text_of (Some s)]
  | None => None
  end.

(** One to four, none of them blank *)
Definition stop_bounds (l : list string) : Prop :=
  (1 <= length l <= 4)%nat ∧ ∀ s, s ∈ l → trim s ≠ ""%string.

Lemma stop_field_bounds req l : stop_field req = inr (Some l) → stop_bounds l.
Proof.
  unfold stop_field. destruct (get req "stop") as [v|]; intros H; [|done]. accepted H.
  match goal with T : map_with _ _ ?stops _ = inr (?ys, _) |- _ =>
    apply (map_with_spec _ (λ s, text_of (Some s)) id
      (λ _ l _, ∀ s, s ∈ l → trim (text_of (Some s)) ≠ ""%string)) in T as [Hm Hne] end.
  - rewrite map_id in Hm. match goal with E : _ || _ = false |- _ => apply orb_false_iff in E as [E1 E2] end.
    apply Nat.eqb_neq in E1. apply Nat.ltb_ge in E2.
    split; [rewrite Hm, length_map; lia|]. rewrite Hm. intros s (y & -> & Hy)%list_elem_of_fmap. by apply Hne.
  - by intros ? ? ?%elem_of_nil.
  - intros _ a _ b _ Ha Hb s [?|?]%elem_of_app; eauto.
  - intros i w s y s' _ Hx. accepted Hx. match goal with T : Some _ = Some (JStr _) |- _ => injection T as -> end.
    split; [done|]. intros s0 ->%list_elem_of_singleton. cbn. auto.
Qed.

Lemma stop_field_inr req l : stop_field req = inr l → l = spoken_stop (JObj req).
Proof.
  unfold stop_field, spoken_stop. rewrite own_get. destruct (get req "stop") as [v|]; intros H; accepted H; [|done].
  match goal with T : map_with _ _ ?stops _ = inr (?ys, _) |- _ =>
    apply (map_with_spec _ (λ s, text_of (Some s)) id (λ _ _ _, True)) in T as [Hm _] end; try done.
  - rewrite map_id in Hm. subst. by destruct v.
  - intros i w s y s' _ Hx. accepted Hx. match goal with T : Some _ = Some (JStr _) |- _ => injection T as -> end. done.
Qed.

Lemma response_format_inr req format :
  ChatRequest.response_format req = inr format →
  is_Some format ↔ opt_prop (own "response_format" (JObj req)) "type" = Some (JStr "json_schema").
Proof.
  unfold ChatRequest.response_format, present. rewrite own_get. intros H.
  destruct (get req "response_format") as [f|] eqn:Hf; [|accepted H; by split; [intros []|]].
  change (negb (bool_decide (is_Some (Some f)))) with false in H. accepted H; cbn [opt_prop mbind option_bind]; rewrite own_get.
  - by split; [|intros _; eexists].
  - split; [by intros []|]. intros Ht. by rewrite (proj2 (is_string_true _ _) Ht) in *.
Qed.

Lemma note_elem {A} f g (v : option A) : f ∈ note g v ↔ f = g ∧ is_Some v.
Proof. destruct v; cbn; [|by split; [intros ?%elem_of_nil|intros [_ []]]]. rewrite list_elem_of_singleton. naive_solver. Qed.

Section tools.
Context (sha256 : string → string).

Lemma encode_inr n names called names' :
  encode sha256 n names = inr (called, names') →
  called = encoded_name sha256 n ∧ names' = naming sha256 names [n] ∧ valid_name n = true.
Proof. unfold encode. intros H. accepted H. by apply negb_false_iff in E. Qed.

Lemma tool_of_spec i v declared names t declared' names' :
  tool_of sha256 i v (declared, names) = inr (t, (declared', names')) →
  heard_tool t = call_it (encoded_name sha256) (spoken_tool v)
  ∧ declared' = declared ++ [tool_name v] ∧ names' = naming sha256 names [tool_name v].
Proof.
  intros H. unfold tool_of in H. accepted H.
  match goal with T : encode _ _ _ = _ |- _ => apply encode_inr in T as (-> & -> & _) end.
  assert (spoken_tool (JObj x) = (x5, x7, x8)) as Hs.
  { unfold spoken_tool. rewrite own_get, E2. cbn [opt_prop mbind option_bind]. rewrite !own_get, E5. f_equal; [f_equal|].
    - destruct (get x2 "description"); [|by accepted E8]. accepted E8. by match goal with T : Some _ = Some _ |- _ => rewrite T end.
    - destruct (get x2 "parameters"); accepted E9; [|done]. by simplify_eq. }
  unfold tool_name. by rewrite Hs.
Qed.

(** What a run over tools leaves behind *)
Definition declared_more (sc : list string * jmap string string) (l : list json) (sc' : list string * jmap string string) : Prop :=
  sc'.1 = sc.1 ++ map tool_name l ∧ sc'.2 = naming sha256 sc.2 (map tool_name l).

Lemma tools_field_spec req tools sc :
  tools_field sha256 req = inr (tools, sc) →
  map heard_tool (default [] tools) = map (call_it (encoded_name sha256) ∘ spoken_tool) (tools_of (JObj req))
  ∧ sc = (map tool_name (tools_of (JObj req)), naming sha256 ∅ (map tool_name (tools_of (JObj req))))
  ∧ (tools = None ↔ tools_of (JObj req) = []).
Proof.
  unfold tools_field, tools_of. rewrite own_get. destruct (get req "tools") as [[| | | |l|]|]; try done; intros H; [|by accepted H].
  accepted H. apply (map_with_spec _ (call_it (encoded_name sha256) ∘ spoken_tool) heard_tool declared_more) in E as [Hm [Hd Hn]].
  - destruct sc as [declared names]. cbn in Hd, Hn. subst. cbn [elements_of]. rewrite <-Hm.
    split_and!; [by destruct l0|done|]. destruct l0, l; split; try done.
  - intros [d n]. split; cbn; by rewrite ?app_nil_r.
  - intros [d n] a [d' n'] b [d'' n''] [Ha Hb] [Ha' Hb']. split; cbn in *; rewrite map_app; [by rewrite Ha', Ha, app_assoc|].
    by rewrite Hb', Hb, naming_app.
  - intros i x [d n] y [d' n'] _ Ht. apply tool_of_spec in Ht as (Hh & -> & ->). by repeat split.
Qed.

Lemma negb_involutive_if {A} b (x y : A) : (if negb b then x else y) = if b then y else x.
Proof. by destruct b. Qed.

Lemma tool_choice_spec req tools choice names declared names0 :
  tool_choice sha256 req tools (declared, names0) = inr (choice, names) →
  (tools = None ↔ tools_of (JObj req) = []) → (tools = None → declared = []) →
  choice = choose (encoded_name sha256) <$> spoken_choice (JObj req)
  ∧ names = naming sha256 names0 (chosen_name (JObj req)).
Proof.
  intros H Htools Hdecl. unfold tool_choice in H. unfold spoken_choice, chosen_name. rewrite !own_get.
  assert (bool_decide (length (tools_of (JObj req)) = 0%nat) = negb (bool_decide (is_Some tools))) as Hlen.
  { destruct tools; cbn; [apply bool_decide_eq_false|apply bool_decide_eq_true].
    - intros Hl%length_zero_iff_nil. by apply Htools in Hl.
    - rewrite (proj1 Htools) by done. done. }
  rewrite Hlen, negb_involutive_if. clear Hlen.
  destruct (get req "tool_choice") as [[| | |s| |m]|]; try done.
  - unfold is_string in H. cbn [as_string] in H.
    destruct (String.eqb s "auto"), (String.eqb s "none"), (String.eqb s "required"), tools; accepted H; done.
  - assert (∀ t, is_string (Some (JObj m)) t = false) as Hno by done. rewrite !Hno in H. accepted H.
    match goal with T : encode _ _ _ = _ |- _ => apply encode_inr in T as (-> & -> & _) end.
    match goal with T : orb _ _ = false |- _ => apply orb_false_iff in T as [_ Hin%negb_false_iff%bool_decide_eq_true] end.
    match goal with T : get _ "function" = _ |- _ => rewrite own_get, T end. cbn [opt_prop mbind option_bind].
    match goal with T : get _ "name" = _ |- _ => rewrite own_get, T end.
    destruct tools; [done|]. rewrite Hdecl in Hin by done. by apply elem_of_nil in Hin.
  - accepted H. by destruct tools.
Qed.

(** * The whole request *)

Definition start (names : jmap string string) (fields : list ChatField) : conversation :=
  {| cv_messages := []; cv_system := None; cv_instructionRole := None; cv_pending := []; cv_used := [];
     cv_fields := fields; cv_names := names |}.

Definition option_fields (v : json) (t : TranslatedChat) : list ChatField :=
  let b := t_body t in
  note Routing.response_format (mb_schema b) ++ note max_tokens (mb_max_tokens b) ++ note temperature (mb_temperature b)
  ++ note top_p (mb_top_p b) ++ note stop (mb_stop_sequences b).

(** An accepted request, part by part *)
Record accepted_request (req : list (string * json)) (t : TranslatedChat) (sc : list string * jmap string string)
    (names : jmap string string) (c : conversation) (format : option (ChatStructuredOutput * list (string * json))) : Prop := {
  ar_keys : req.*1 ⊆ REQUEST_KEYS;
  ar_model : get req "model" = Some (JStr (mb_model (t_body t)));
  ar_format : ChatRequest.response_format req = inr format;
  ar_schema : mb_schema (t_body t) = snd <$> format;
  ar_max : number_field req "max_tokens" legal_max_tokens = inr (mb_max_tokens (t_body t));
  ar_temperature : number_field req "temperature" (legal_between (Qc_of_Z 2)) = inr (mb_temperature (t_body t));
  ar_top : number_field req "top_p" (legal_between (Qc_of_Z 1)) = inr (mb_top_p (t_body t));
  ar_stop : stop_field req = inr (mb_stop_sequences (t_body t));
  ar_tools : tools_field sha256 req = inr (mb_tools (t_body t), sc);
  ar_choice : tool_choice sha256 req (mb_tools (t_body t)) sc = inr (mb_tool_choice (t_body t), names);
  ar_run : each (add_message sha256) 0 (messages_of (JObj req)) (start names (option_fields (JObj req) t)) = inr c;
  ar_pending : cv_pending c = [];
  ar_some : cv_messages c ≠ [];
  ar_messages : mb_messages (t_body t) = cv_messages c;
  ar_system : mb_system (t_body t) = cv_system c;
  ar_names : t_names t = cv_names c;
  ar_fields : t_fields t = cv_fields c;
  ar_named : trim (mb_model (t_body t)) ≠ ""%string }.

Lemma translate_inr v t :
  translateChatRequest sha256 v = inr t →
  ∃ req sc names c format, v = JObj req ∧ accepted_request req t sc names c format.
Proof.
  intros H. unfold translateChatRequest in H. accepted H.
  match goal with R : each _ _ ?l _ = inr ?c |- _ => assert (l = messages_of (JObj x)) as Hl; [|exists x; eexists _, _, c, x4] end.
  { unfold messages_of. rewrite own_get. destruct (get x "messages") as [[| | | |[|w l]|]|]; try done.
    by match goal with T : mret _ = inr _ |- _ => injection T as <- end. }
  split; [done|]. split; cbn; try done; [..|by auto].
  - rewrite <-Hl. unfold option_fields, start. cbn. replace (note Routing.response_format (snd <$> x4)) with (note Routing.response_format x4); [done|].
    by destruct x4.
  - by apply negb_false_iff, bool_decide_eq_true in E15.
  - intros Hn. by rewrite Hn in *.
Qed.

Lemma called_names m id name input : Calls id name input ∈ spoken_message m → ∃ n, name = Some n ∧ n ∈ called_in m.
Proof.
  unfold spoken_message, called_in. destruct (instructs m); [by intros ?%elem_of_nil|].
  destruct (String.eqb _ "tool"); cbn; [by intros [?|?%elem_of_nil]%elem_of_cons|].
  intros [?|[Hin|[Hin|Hin]%elem_of_app]%elem_of_app]%elem_of_cons; [done| | |].
  - destruct (own "reasoning_content" m); [|by apply elem_of_nil in Hin]. by apply list_elem_of_singleton in Hin.
  - pose proof (plain_parts sha256 (own "content" m)) as Hp. rewrite Forall_forall in Hp. by destruct (Hp _ Hin).
  - apply list_elem_of_fmap in Hin as (call & [= -> -> _] & Hc). eexists. split; [done|]. by apply list_elem_of_fmap_2.
Qed.
End tools.

(** * What an accepted request becomes *)

(** The fields that not every destination can honour, as the client uses them *)
Definition asks (f : ChatField) (v : json) : Prop :=
  match f with
  | max_tokens => is_Some (own "max_tokens" v)
  | temperature => is_Some (own "temperature" v)
  | top_p => is_Some (own "top_p" v)
  | stop => is_Some (own "stop" v)
  | reasoning_content => ∃ m, m ∈ messages_of v ∧ is_Some (own "reasoning_content" m)
  | Routing.response_format => opt_prop (own "response_format" v) "type" = Some (JStr "json_schema")
  end.

(** A name that only the upstream sees, read back *)
Definition named_back (names : jmap string string) (c : ToolChoice) : option ToolChoice :=
  match c with ChooseTool n => ChooseTool <$> names !! n | c => Some c end.

Section whole.
Context (sha256 : string → string).

Lemma rename_back (names : jmap string string) (l : list string) us :
  (∀ id name input, Calls id name input ∈ us → ∃ n, name = Some n ∧ n ∈ l) →
  (∀ n, n ∈ l → names !! encoded_name sha256 n = Some n) →
  map (rename (λ n, names !! n)) (map (encoded sha256) us) = us.
Proof.
  intros Hus Hl. rewrite map_map. rewrite <-(map_id us) at 2. apply map_ext_in. intros u Hu%list_elem_of_In.
  destruct u as [| | | |id name input|]; try done. destruct (Hus _ _ _ Hu) as (n & -> & Hn). cbn. by rewrite Hl.
Qed.

Lemma accepted_names req t sc names c format :
  accepted_request sha256 req t sc names c format → t_names t = naming sha256 ∅ (function_names (JObj req)).
Proof.
  intros [_ _ _ _ _ _ _ _ Ht Hc Hr _ _ _ _ Hn _]. apply tools_field_spec in Ht as (_ & -> & Hsome).
  apply tool_choice_spec in Hc as [_ ->]; [|done|by intros ->%Hsome].
  apply messages_kept in Hr. rewrite Hn, (kept_names _ _ _ _ Hr). unfold function_names. cbn. by rewrite !naming_app.
Qed.

Lemma spoken_names v id name input : Calls id name input ∈ spoken v → ∃ n, name = Some n ∧ n ∈ function_names v.
Proof.
  intros (m & Hin & Hm)%list_elem_of_bind. destruct (called_names sha256 _ _ _ _ Hin) as (n & -> & Hn). exists n. split; [done|].
  unfold function_names. rewrite !elem_of_app. right. right. apply list_elem_of_bind. eauto.
Qed.

(** C17: What the upstream is told is what the client said: the instructions, and turn by turn
    every text, image, thought, call and result; the tools with their descriptions and
    schemas, and the choice among them. The functions go by other names, which the table that
    the answer is translated with reads back, unless two of the request's share a digest. *)
Theorem chat_request_says v t :
  translateChatRequest sha256 v = inr t → distinct_digests sha256 (function_names v) →
  map (rename (λ n, t_names t !! n)) (heard (mb_messages (t_body t))) = spoken v
  ∧ default [] (mb_system (t_body t)) = instructions v
  ∧ map (λ l, (t_names t !! tl_name l, tl_description l, tl_input_schema l)) (default [] (mb_tools (t_body t)))
    = map (λ l, (Some l.1.1, l.1.2, l.2)) (map spoken_tool (tools_of v))
  ∧ (mb_tool_choice (t_body t) ≫= named_back (t_names t)) = spoken_choice v.
Proof.
  intros H Hd. apply translate_inr in H as (req & sc & names & c & format & -> & Ha).
  assert (∀ n, n ∈ function_names (JObj req) → t_names t !! encoded_name sha256 n = Some n) as Hback.
  { intros n Hn. rewrite (accepted_names _ _ _ _ _ _ Ha). by apply naming_lookup. }
  destruct Ha as [_ _ _ _ _ _ _ _ Ht Hc Hr _ _ Hm Hs _ _]. apply messages_kept in Hr as [Hw Hsys _ _].
  apply tools_field_spec in Ht as (Htools & -> & Hsome). apply tool_choice_spec in Hc as [Hch _]; [|done|by intros ->%Hsome].
  rewrite Hm, Hs, Hw, Hsys, Hch. cbn. split_and!; [|done| |].
  - apply (rename_back _ (function_names (JObj req))); [apply spoken_names|done].
  - rewrite map_map. transitivity (map (λ l, (t_names t !! l.1.1, l.1.2, l.2)) (map heard_tool (default [] (mb_tools (t_body t)))));
      [by rewrite map_map|]. rewrite Htools, map_map. apply map_ext_in. intros l Hl%list_elem_of_In. cbn.
    rewrite Hback; [done|]. unfold function_names. apply elem_of_app. left. by apply (list_elem_of_fmap_2 (λ t, (spoken_tool t).1.1)).
  - unfold spoken_choice in *. case_bool_decide as Hl; [done|].
    destruct (own "tool_choice" (JObj req)) as [[| | |s| |m]|] eqn:Hchoice; try done;
      [repeat (destruct (String.eqb s _); [done|]); done|]. cbn.
    rewrite Hback; [done|]. unfold function_names, chosen_name. rewrite Hchoice, !elem_of_app. right. left. by left.
Qed.

(** C18: An accepted request reaches the upstream as a conversation that the Messages API takes:
    every turn says something, calls are the assistant's and have ids of their own, and the
    message after a turn with calls holds exactly their results. *)
Theorem chat_request_exchange v t :
  translateChatRequest sha256 v = inr t →
  mb_messages (t_body t) ≠ [] ∧ exchanged (mb_messages (t_body t)) ∧ NoDup (mb_messages (t_body t) ≫= call_ids).
Proof.
  intros H. apply translate_inr in H as (req & sc & names & c & format & -> & Ha).
  destruct Ha as [_ _ _ _ _ _ _ _ _ _ Hr Hp Hne -> _ _ _].
  apply messages_orderly in Hr as [Hrun _ Hnd Hids].
  - split_and!; [done| |by rewrite Hids]. rewrite Hp in Hrun. by inversion Hrun; subst; [|destruct (call_ids _)|].
  - split; cbn; try constructor. constructor.
Qed.

Lemma accepted_asks req t sc names c format f :
  accepted_request sha256 req t sc names c format → f ∈ t_fields t ↔ asks f (JObj req).
Proof.
  intros [_ _ Hf Hs Hmax Htemp Htop Hstop _ _ Hr _ _ _ _ _ ->].
  apply messages_kept in Hr as [_ _ _ ->]. unfold start, option_fields. cbn [cv_fields].
  rewrite !elem_of_app, !note_elem, Hs, fmap_is_Some, (response_format_inr _ _ Hf).
  apply number_field_inr in Hmax as (_ & -> & _). apply number_field_inr in Htemp as (_ & -> & _).
  apply number_field_inr in Htop as (_ & -> & _). apply stop_field_inr in Hstop as ->.
  assert (is_Some (spoken_stop (JObj req)) ↔ is_Some (get req "stop")) as ->.
  { unfold spoken_stop. rewrite own_get. destruct (get req "stop") as [[]|]; cbn; try done; by split; eexists. }
  assert (existsb uses_reasoning (messages_of (JObj req)) = true
          ↔ ∃ m, m ∈ messages_of (JObj req) ∧ is_Some (own "reasoning_content" m)) as ->.
  { rewrite existsb_exists. unfold uses_reasoning. setoid_rewrite bool_decide_eq_true. by setoid_rewrite list_elem_of_In. }
  destruct f; cbn [asks]; rewrite ?own_get; naive_solver.
Qed.

(** C20: The options of an accepted request are the body's, absent where it has none, and within
    the bounds of each: a model that is named, an output limit of at least one token, a
    temperature up to 2, a probability up to 1, one to four stop strings that are not blank.
    What the request demands of a destination is exactly the fields that it uses, so that a
    destination that refuses one of them is refused; and it has no field that is not known. *)
Theorem chat_request_options v t capability :
  translateChatRequest sha256 v = inr t →
  own "model" v = Some (JStr (mb_model (t_body t))) ∧ trim (mb_model (t_body t)) ≠ ""%string
  ∧ own "max_tokens" v = JNum <$> mb_max_tokens (t_body t)
  ∧ own "temperature" v = JNum <$> mb_temperature (t_body t)
  ∧ own "top_p" v = JNum <$> mb_top_p (t_body t)
  ∧ mb_stop_sequences (t_body t) = spoken_stop v
  ∧ (∀ q, mb_max_tokens (t_body t) = Some q → ∃ z, as_integer q = Some z ∧ 1 <= z <= MAX_SAFE_INTEGER)
  ∧ (∀ q, mb_temperature (t_body t) = Some q → (0 <= q)%Qc ∧ (q <= Qc_of_Z 2)%Qc)
  ∧ (∀ q, mb_top_p (t_body t) = Some q → (0 <= q)%Qc ∧ (q <= Qc_of_Z 1)%Qc)
  ∧ (∀ l, mb_stop_sequences (t_body t) = Some l → stop_bounds l)
  ∧ (refusedChatField capability (t_fields t) = None ↔ ∀ f, asks f v → capability f ≠ refused)
  ∧ ∃ req, v = JObj req ∧ req.*1 ⊆ REQUEST_KEYS.
Proof.
  intros H. apply translate_inr in H as (req & sc & names & c & format & -> & Ha).
  pose proof (λ f, accepted_asks _ _ _ _ _ _ f Ha) as Hasks.
  destruct Ha as [Hk Hm _ _ Hmax Htemp Htop Hstop _ _ _ _ _ _ _ _ _ Hnamed].
  apply number_field_given in Hmax as [Hmax Hl1]. apply number_field_given in Htemp as [Htemp Hl2].
  apply number_field_given in Htop as [Htop Hl3].
  split_and!; rewrite ?own_get; try done.
  - by apply stop_field_inr.
  - intros q Hq. specialize (Hl1 q Hq). unfold legal_max_tokens, safe_integer in Hl1. cbn in Hl1.
    destruct (as_integer q) as [z|]; [|done]. cbn in Hl1. exists z. split; [done|].
    destruct (_ <=? _) eqn:Hz; [|done]. prop_bools. lia.
  - intros q Hq. by apply legal_between_true, Hl2.
  - intros q Hq. by apply legal_between_true, Hl3.
  - intros l Hl. rewrite Hl in Hstop. by eapply stop_field_bounds.
  - setoid_rewrite <-Hasks. unfold refusedChatField. split.
    + intros Hfind f Hf Hr. pose proof (find_none _ _ Hfind f) as Hn. cbn in Hn. rewrite bool_decide_eq_false in Hn.
      by apply Hn; [apply list_elem_of_In|].
    + intros Hall. destruct (List.find _ _) as [f|] eqn:Hfind; [|done]. apply find_some in Hfind as [Hin Hr].
      apply bool_decide_eq_true in Hr. by destruct (Hall f); [apply list_elem_of_In|].
  - by eexists.
Qed.
End whole.

(** * A request *)

Definition demo_digest (s : string) : string := s.
Definition demo_call (id name : string) : json :=
  JObj [("id", JStr id); ("type", JStr "function");
        ("function", JObj [("name", JStr name); ("arguments", JStr "{}")])]%string.
Definition demo_result (id content : string) : json :=
  JObj [("role", JStr "tool"); ("tool_call_id", JStr id); ("content", JStr content)]%string.
Definition demo_request : json :=
  JObj [("model", JStr "m"); ("max_tokens", JInt 5);
        ("tools", JArr [JObj [("type", JStr "function"); ("function", JObj [("name", JStr "look")])]]);
        ("tool_choice", JObj [("type", JStr "function"); ("function", JObj [("name", JStr "look")])]);
        ("messages", JArr [
           JObj [("role", JStr "system"); ("content", JStr "Be brief.")];
           JObj [("role", JStr "user"); ("content", JArr [
             JObj [("type", JStr "text"); ("text", JStr "And this?")];
             JObj [("type", JStr "image_url"); ("image_url", JObj [("url", JStr "data:image/png;a=b;base64,xyz")])]])];
           JObj [("role", JStr "assistant"); ("content", JNull); ("reasoning_content", JStr "Hm.");
                 ("tool_calls", JArr [demo_call "1" "look"; demo_call "2" "draw"])];
           demo_result "2" ""; demo_result "1" "a cat";
           JObj [("role", JStr "user"); ("content", JStr "Go on.")]])]%string.

(** The results come in the client's order and share a message. *)
Example demo_exchange :
  match translateChatRequest demo_digest demo_request with
  | inr t => map (λ m, (call_ids m, result_ids m)) (mb_messages (t_body t))
             = [([], []); (["1"; "2"], []); ([], ["2"; "1"]); ([], [])]%string
  | inl _ => False
  end.
Proof. vm_compute. reflexivity. Qed.

(** A call without its result, and a result without its call, are refused. *)
Example demo_unanswered :
  ce_message <$> match translateChatRequest demo_digest
    (JObj [("model", JStr "m"); ("messages", JArr [
       JObj [("role", JStr "assistant"); ("tool_calls", JArr [demo_call "1" "look"])];
       JObj [("role", JStr "user"); ("content", JStr "Go on.")]])]%string) with inl e => Some e | inr _ => None end
  = Some "Tool calls require results before the next turn"%string.
Proof. vm_compute. reflexivity. Qed.

Lemma chat_request_says_witness :
  distinct_digests demo_digest (function_names demo_request)
  ∧ match translateChatRequest demo_digest demo_request with
    | inr t => map (rename (λ n, t_names t !! n)) (heard (mb_messages (t_body t))) = spoken demo_request
    | inl _ => False
    end.
Proof.
  assert (distinct_digests demo_digest (function_names demo_request)) as Hd.
  { change (function_names demo_request) with ["look"; "look"; "look"; "draw"]%string.
    intros a b Ha Hb. repeat (apply elem_of_cons in Ha as [->|Ha]; [|]); try by apply elem_of_nil in Ha.
    all: repeat (apply elem_of_cons in Hb as [->|Hb]; [|]); try (by apply elem_of_nil in Hb); done. }
  split; [exact Hd|]. destruct (translateChatRequest demo_digest demo_request) as [e|t] eqn:E; [vm_compute in E; discriminate E|].
  exact (proj1 (chat_request_says demo_digest demo_request t E Hd)).
Defined.

Lemma chat_request_exchange_witness :
  match translateChatRequest demo_digest demo_request with
  | inr t => exchanged (mb_messages (t_body t))
  | inl _ => False
  end.
Proof.
  destruct (translateChatRequest demo_digest demo_request) as [e|t] eqn:E; [vm_compute in E; discriminate E|].
  exact (proj1 (proj2 (chat_request_exchange demo_digest demo_request t E))).
Defined.

Lemma chat_request_options_witness :
  match translateChatRequest demo_digest demo_request with
  | inr t => own "model" demo_request = Some (JStr (mb_model (t_body t)))
  | inl _ => False
  end.
Proof.
  destruct (translateChatRequest demo_digest demo_request) as [e|t] eqn:E; [vm_compute in E; discriminate E|].
  exact (proj1 (chat_request_options demo_digest demo_request t OPENROUTER E)).
Defined.
