(* ===== verification/ChatHandler.v ===== *)
(** The chat-completions endpoint ([packages/openai-chat-adapter/src/handler.ts]): a request
    read and translated, handed to the proxy, and the proxy's answer translated back.

    Bytes arrive in chunks, after which the stream ends or fails. The proxy, decompression, the
    decoder and whether the client is gone at each of the points where the code looks are
    parameters; the proxy also says what it recorded in the context of the request while it
    ran. Header names are in lower case. [None] is an answer that waits for its upstream. *)

From S2P Require Import Prelude.
From S2P Require Import Rationals.
From S2P Require Import Json.
From S2P Require Import Messages.
From S2P Require Import OpenAiFormats.
From S2P Require Import Routing.
From S2P Require Import ChatStream.
From S2P Require Import ChatRelay.
From S2P Require Import ChatSafety.
From S2P Require Import ChatRequest.
From S2P Require Import ChatRequestSafety.
From S2P Require Import UpstreamError.
Open Scope Z_scope.

(** * Requests and responses *)

Abbreviation headers := (jmap string string).

(** The chunks of a body, and whether reading it fails in the end *)
Record byte_stream := { bs_chunks : list text; bs_fails : bool }.

Record Request := { rq_headers : headers; rq_body : option byte_stream }.

Inductive payload := NoBody | JsonBody (v : json) | EventBody (sent : list text).
Record Response := { rs_status : Z; rs_headers : headers; rs_body : payload }.

(** What the proxy is asked, and what it answers with what it recorded *)
Record ProxyRequest := {
  px_path : string;
  px_headers : headers;
  px_body : MessagesBody;
  px_fields : list ChatField;
  px_structuredOutput : option ChatStructuredOutput;
  px_defaultMaxTokens : Z;
  px_denyDirectOfficialAnthropic : bool }.
Record Proxied := {
  up_status : Z;
  up_headers : headers;
  up_body : option byte_stream;
  up_outgoingModel : option string;
  up_reportedModel : option string;
  up_usageObserved : option bool }.

Inductive moment := AfterReading | AfterProxy | DuringAnswer | AfterError.

(** What may throw: a [ChatError], or something else *)
Abbreviation attempt := (sum (option ChatError)).
#[export] Instance attempt_ret : MRet attempt := λ A, inr.
#[export] Instance attempt_bind : MBind attempt := λ A B f m,
  match m with inl e => inl e | inr x => f x end.
Definition checked_by {A} (r : fallible A) : attempt A :=
  match r with inl e => inl (Some e) | inr x => inr x end.

(** [new ChatError(message, null, status, code)] *)
Definition error_of (message : string) (status : Z) (code : string) : ChatError :=
  {| ce_message := message; ce_param := None; ce_status := status; ce_code := code; ce_type := None; ce_retryAfter := None |}.

Definition body_too_large : ChatError := error_of "Request or response body exceeds the size limit" 413 "body_too_large".

(** The loop of [bounded] *)
Fixpoint read_bounded (chunks : list text) (fails truncate : bool) (limit size : Z) (acc : text) : attempt text :=
  match chunks with
  | [] => if fails then inl None else inr acc
  | c :: chunks =>
      let length := Z.of_nat (length c) in
      let taken := Z.min length (limit - size) in
      let acc := acc ++ take (Z.to_nat taken) c in
      if (taken <? length) || (truncate && (size + taken =? limit))
      then if truncate then inr acc else inl (Some body_too_large)
      else read_bounded chunks fails truncate limit (size + taken) acc
  end.
Definition bounded (body : option byte_stream) (limit : Z) (truncate : bool) : attempt text :=
  match body with
  | None => inr []
  | Some b => read_bounded (bs_chunks b) (bs_fails b) truncate limit 0 []
  end.

(** [Response.json(v, { status, headers })] *)
Definition json_response (status : Z) (v : json) (extra : headers) : Response :=
  {| rs_status := status; rs_headers := JMap (("content-type", "application/json")%string :: entries extra); rs_body := JsonBody v |}.

Definition retry_header (v : option string) : headers :=
  match truthy_string v with Some s => JMap [("retry-after"%string, s)] | None => ∅ end.

Definition chatErrorResponse (e : ChatError) : Response :=
  json_response (ce_status e)
    (errorEnvelope (ce_message e)
       (default (if 500 <=? ce_status e then "api_error"%string else "invalid_request_error"%string) (ce_type e))
       (ce_code e) (ce_param e))
    (retry_header (ce_retryAfter e)).

Section handler.
Context (sha256 : string → string) (decode : text → string) (decompress : string → byte_stream → byte_stream)
  (decode_reads : byte_stream → list read) (proxy : ProxyRequest → option Proxied) (aborted : moment → bool).

Definition readRequest (req : Request) : attempt json :=
  let encoding := toLowerCase <$> (rq_headers req !! "content-encoding"%string) in
  body ← match truthy_string encoding with
         | Some e =>
             if String.eqb e "identity" then mret (rq_body req)
             else if negb (String.eqb e "gzip") && negb (String.eqb e "deflate")
             then inl (Some (error_of "Unsupported request content encoding" 415 "unsupported_encoding"))
             else mret (decompress e <$> rq_body req)
         | None => mret (rq_body req)
         end;
  match bounded body BODY_LIMIT false with
  | inl (Some e) => inl (Some e)
  | r =>
      match r ≫= λ t, from_option inr (inl None) (parse_string (decode t)) with
      | inr v => inr v
      | inl _ =>
          if aborted AfterReading then inl None
          else inl (Some (error_of "Invalid JSON or compressed request body" 400 "invalid_request_error"))
      end
  end.

(** ** An error of the proxy *)

Definition proxyError (resp : Proxied) : Response :=
  let raw := decode match bounded (up_body resp) (64 * 1024) true with inr t => t | inl _ => [] end in
  let e := parse_string raw ≫= own "error" in
  let message := s ← as_string (opt_prop e "message"); if String.eqb (trim s) "" then None else Some (slice_to 512 s) in
  let type := default "api_error"%string (as_string (opt_prop e "type")) in
  let code := default type (as_string (opt_prop e "code")) in
  json_response (up_status resp)
    (errorEnvelope (default "Proxy request failed"%string (or_else message (parseUpstreamError raw))) type code
       (as_string (opt_prop e "param")))
    (retry_header (up_headers resp !! "retry-after"%string)).

(** ** The whole answer *)

Section response.
Context (id : string) (created : Z).

Definition call_json (c : call) : json :=
  obj [("function", Some (obj [("name", JStr <$> cl_name c); ("arguments", JStr <$> cl_arguments c)]));
       ("id", JStr <$> cl_id c); ("type", if cl_type c then Some (JStr "function") else None)]%string.

Definition completion_json (c : completion) : json :=
  obj [("id", Some (JStr id)); ("object", Some (JStr "chat.completion")); ("created", Some (JInt created));
       ("model", Some (JStr (cm_model c)));
       ("choices", Some (JArr [obj [
          ("index", Some (JInt 0));
          ("message", Some (obj [
             ("role", Some (JStr "assistant")); ("content", Some (from_option JStr JNull (cm_content c)));
             ("reasoning_content", JStr <$> cm_reasoning c);
             ("tool_calls", match cm_calls c with
                            | [] => None
                            | l => Some (JArr (map (from_option call_json JNull) l))
                            end)]));
          ("finish_reason", finish_json (Some (cm_finish c)))]]));
       ("usage", usage_json <$> cm_usage c)]%string.

(** [jsonResponse], unless the client has gone; [None] waits for the upstream. *)
Definition whole_answer (ctx : ChatIngressContext) (names : jmap string string) (reads : list read)
    : option (attempt completion) :=
  if aborted DuringAnswer then Some (inl None)
  else jsonResponse ctx names id created reads.

(** ** The handler *)

Definition CARRIED_HEADERS : list string := ["x-clankermux-request-id"; "x-clankermux-sdk-bridge-history"].

(** The headers of the request to the proxy *)
Definition proxy_headers (h : headers) : headers :=
  let h := delete "content-encoding"%string (delete "content-length"%string (<["content-type"%string := "application/json"%string]> h)) in
  if jhas "anthropic-version"%string h then h else <["anthropic-version"%string := "2023-06-01"%string]> h.

Definition event_response (lines : list text) : Response :=
  {| rs_status := 200;
     rs_headers := JMap [("content-type", "text/event-stream"); ("cache-control", "no-cache"); ("x-accel-buffering", "no")]%string;
     rs_body := EventBody lines |}.

Definition gone : Response := {| rs_status := 499; rs_headers := ∅; rs_body := NoBody |}.

(** The [catch] of the handler *)
Definition caught (e : option ChatError) : Response :=
  if aborted AfterError then gone
  else chatErrorResponse (default (error_of "Chat proxy request failed" 502 "api_error") e).

Definition translated_request (req : Request) (defaultMaxTokens : Z) : attempt TranslatedChat :=
  v ← readRequest req;
  t ← checked_by (translateChatRequest sha256 v);
  if (defaultMaxTokens <? 1) || (MAX_SAFE_INTEGER <? defaultMaxTokens)
  then inl (Some (error_of "Invalid configured Chat output limit" 500 "configuration_error"))
  else mret t.

Definition request_of (req : Request) (t : TranslatedChat) (defaultMaxTokens : Z) : ProxyRequest :=
  {| px_path := "/v1/messages"; px_headers := proxy_headers (rq_headers req); px_body := t_body t;
     px_fields := t_fields t; px_structuredOutput := t_structuredOutput t;
     px_defaultMaxTokens := defaultMaxTokens; px_denyDirectOfficialAnthropic := true |}.

Definition context_of (t : TranslatedChat) (up : Proxied) : ChatIngressContext :=
  {| outgoingModel := up_outgoingModel up; reportedModel := up_reportedModel up; usageObserved := up_usageObserved up;
     structuredOutput := bool_decide (is_Some (t_structuredOutput t)) |}.

(** What follows the answer of the proxy *)
Definition answer (t : TranslatedChat) (up : Proxied) : option Response :=
  if aborted AfterProxy then Some gone
  else if negb (up_status up =? 200) then Some (proxyError up)
  else
    match up_body up, up_headers up !! "content-type"%string with
    | Some body, Some type =>
        if includes type "text/event-stream" then
          let reads := decode_reads body in
          if t_stream t
          then Some (event_response (streamResponse (context_of t up) (t_names t) id created (t_includeUsage t) reads))
          else match whole_answer (context_of t up) (t_names t) reads with
               | Some (inr c) => Some (json_response 200 (completion_json c) ∅)
               | Some (inl e) => Some (caught e)
               | None => None
               end
        else Some (caught (Some (upstreamFailure "Expected an upstream Messages event stream")))
    | _, _ => Some (caught (Some (upstreamFailure "Expected an upstream Messages event stream")))
    end.

(** The answer, and what the proxy answered when it was asked *)
Definition respondToChatCompletionsRequest (req : Request) (defaultMaxTokens : Z) : option Response * option Proxied :=
  match translated_request req defaultMaxTokens with
  | inl e => (Some (caught e), None)
  | inr t =>
      match proxy (request_of req t defaultMaxTokens) with
      | None => (Some (caught None), None)
      | Some up => (answer t up, Some up)
      end
  end.

Definition carry (up : option Proxied) (h : headers) : headers :=
  foldl (λ h name, match truthy_string (up ≫= λ u, up_headers u !! name) with Some v => <[name := v]> h | None => h end)
    h CARRIED_HEADERS.

Definition handleChatCompletionsRequest (req : Request) (defaultMaxTokens : Z) : option Response :=
  let '(response, up) := respondToChatCompletionsRequest req defaultMaxTokens in
  r ← response;
  Some {| rs_status := rs_status r; rs_headers := carry up (rs_headers r); rs_body := rs_body r |}.
End response.
End handler.

(** * What the endpoint answers *)

Section answers.
Context (sha256 : string → string) (decode : text → string) (decompress : string → byte_stream → byte_stream)
  (decode_reads : byte_stream → list read) (proxy : ProxyRequest → option Proxied) (aborted : moment → bool)
  (id : string) (created : Z).

Abbreviation endpoint := (handleChatCompletionsRequest sha256 decode decompress decode_reads proxy aborted id created).
Abbreviation asked_proxy := (respondToChatCompletionsRequest sha256 decode decompress decode_reads proxy aborted id created).

(** A request that the endpoint takes and the proxy answers with a Messages stream, read in
    any chunks *)
Record exchange (req : Request) (d : Z) (v : json) (t : TranslatedChat) (up : Proxied)
    (fs : list frame) (p : proto) : Prop := {
  ex_read : readRequest decode decompress aborted req = inr v;
  ex_translated : translateChatRequest sha256 v = inr t;
  ex_limit : 1 <= d <= MAX_SAFE_INTEGER;
  ex_proxied : proxy (request_of req t d) = Some up;
  ex_status : up_status up = 200;
  ex_type : ∃ type, up_headers up !! "content-type"%string = Some type ∧ includes type "text/event-stream" = true;
  ex_body : ∃ b chunks tail, up_body up = Some b ∧ decode_reads b = data chunks ++ tail
              ∧ concat chunks = concat (render <$> fs);
  ex_message : relayable (context_of t up) (t_names t) fs p }.

Lemma responds req d v t up fs p :
  exchange req d v t up fs p → asked_proxy req d = (answer decode decode_reads aborted id created t up, Some up).
Proof.
  intros [Hr Ht Hd Hp _ _ _ _]. unfold respondToChatCompletionsRequest, translated_request. rewrite Hr.
  cbn [mbind attempt_bind]. rewrite Ht. cbn [checked_by mbind attempt_bind].
  destruct (_ || _) eqn:Hl; [apply orb_true_iff in Hl as [Hl|Hl]; prop_bools; lia|].
  cbn [mret attempt_ret]. by rewrite Hp.
Qed.

(** C19: A client that asks for a whole answer gets the message that the proxy streams, in one
    piece: the text, the thinking and the calls, each under the name the client gave the
    function, whatever name the upstream was told. *)
Theorem chat_exchange_answers req d v t up fs p :
  exchange req d v t up fs p → distinct_digests sha256 (function_names v) → t_stream t = false →
  aborted AfterProxy = false → aborted DuringAnswer = false →
  (∀ b, up_body up = Some b → over_limit id created 0 (g_out (chatChunks (context_of t up) (t_names t) (decode_reads b))) = false) →
  ∃ r c, endpoint req d = Some r ∧ rs_status r = 200 ∧ rs_body r = JsonBody (completion_json id created c)
    ∧ answers (context_of t up) (t_names t) (view <$> fs) p c
    ∧ ∀ n, n ∈ function_names v → t_names t !! encoded_name sha256 n = Some n.
Proof.
  intros Hex Hd Hs Hnot Hnot' Hlimit. unfold handleChatCompletionsRequest. rewrite (responds _ _ _ _ _ _ _ Hex).
  destruct Hex as [_ Ht _ _ Hst (type & Htype & Hinc) (b & chunks & tail & Hb & Hreads & Hc) Hm].
  destruct (relayed_message _ _ fs p chunks tail Hm Hc) as (c & Hj & Hans).
  unfold answer. rewrite Hnot, Hst, Hb, Htype, Hinc, Hs. cbn [negb Z.eqb]. unfold whole_answer, jsonResponse.
  rewrite Hnot', Hlimit, Hreads, Hj by done. cbn [mbind option_bind].
  eexists _, c. split_and!; [done|done|done|done|]. intros n Hn.
  apply translate_inr in Ht as (r & sc & ns & cv & format & -> & Ha).
  rewrite (accepted_names _ _ _ _ _ _ _ Ha). by apply naming_lookup.
Qed.

(** ** Whatever happens *)

Definition OWN_HEADERS : list string := ["content-type"; "retry-after"; "cache-control"; "x-accel-buffering"].

Lemma json_response_headers st v h k : k ∈ jkeys (rs_headers (json_response st v h)) → k = "content-type"%string ∨ k ∈ jkeys h.
Proof. unfold json_response, jkeys. cbn. by intros [->|H]%elem_of_cons; auto. Qed.

Lemma retry_headers o k : k ∈ jkeys (retry_header o) → k = "retry-after"%string.
Proof. unfold retry_header. destruct (truthy_string o); cbn; [by intros ->%list_elem_of_singleton|by intros ?%elem_of_nil]. Qed.

Lemma caught_headers e k : k ∈ jkeys (rs_headers (caught aborted e)) → k ∈ OWN_HEADERS.
Proof.
  unfold caught. destruct (aborted AfterError); [by intros ?%elem_of_nil|].
  intros [->|H%retry_headers]%json_response_headers; [by left|subst; by right; left].
Qed.

Lemma answer_headers t up r k :
  answer decode decode_reads aborted id created t up = Some r → k ∈ jkeys (rs_headers r) → k ∈ OWN_HEADERS.
Proof.
  unfold answer. intros H Hk. repeat case_match; simplify_eq; try by apply caught_headers in Hk.
  - by apply elem_of_nil in Hk.
  - apply json_response_headers in Hk as [->| ->%retry_headers]; [by left|by right; left].
  - unfold OWN_HEADERS. cbn in Hk. set_solver.
  - apply json_response_headers in Hk as [->|Hk]; [by left|by apply elem_of_nil in Hk].
Qed.

Lemma insert_keys (h : headers) (name value k : string) : k ∈ jkeys (<[name := value]> h) → k = name ∨ k ∈ jkeys h.
Proof. rewrite !jelem_of_keys, jlookup_insert. case_decide; naive_solver. Qed.

Lemma carry_keys up h k : k ∈ jkeys (carry up h) → k ∈ CARRIED_HEADERS ∨ k ∈ jkeys h.
Proof.
  unfold carry, CARRIED_HEADERS. cbn. intros H.
  repeat (match type of H with context [truthy_string ?x] => destruct (truthy_string x) eqn:? end);
    repeat (apply insert_keys in H as [->|H]; [set_solver|]); by right.
Qed.

Lemma carry_value up h name :
  name ∈ CARRIED_HEADERS →
  carry up h !! name = match truthy_string (up ≫= λ u, up_headers u !! name) with Some v => Some v | None => h !! name end.
Proof.
  unfold carry, CARRIED_HEADERS. cbn. intros [->|[->|H%elem_of_nil]%elem_of_cons]%elem_of_cons; [| |done];
    repeat (match goal with |- context [truthy_string ?x] => destruct (truthy_string x) eqn:? end); jmap_cases; done.
Qed.

(** How an answer may look: one for a client that is gone, an error in the client's format, a
    whole completion, a stream *)
Definition proper (r : Response) : Prop :=
  match rs_body r with
  | NoBody => rs_status r = 499
  | JsonBody v => (∃ m ty co pa, v = errorEnvelope m ty co pa) ∨ (rs_status r = 200 ∧ ∃ c, v = completion_json id created c)
  | EventBody _ => rs_status r = 200
  end.

Lemma caught_proper e : proper (caught aborted e).
Proof. unfold caught, proper. destruct (aborted AfterError); [done|]. left. by do 4 eexists. Qed.

Lemma answer_proper t up r : answer decode decode_reads aborted id created t up = Some r → proper r.
Proof.
  unfold answer. intros H. repeat case_match; simplify_eq; try apply caught_proper; try done.
  - left. by do 4 eexists.
  - right. split; [done|]. by eexists.
Qed.

(** Whatever the client sends and the proxy answers, an answer is an error in the client's
    format, a whole completion, a stream, or nothing to a client that is gone. What the proxy
    answered with another status than 200 keeps its status. Of the proxy's headers exactly the
    request id and the history note are handed on, and none is without the proxy. *)
Theorem chat_handler_outcomes req d r :
  endpoint req d = Some r →
  proper r
  ∧ (∀ up, (asked_proxy req d).2 = Some up → up_status up ≠ 200 → aborted AfterProxy = false → rs_status r = up_status up)
  ∧ (∀ k, k ∈ jkeys (rs_headers r) → k ∈ OWN_HEADERS ∨ (k ∈ CARRIED_HEADERS ∧ is_Some ((asked_proxy req d).2)))
  ∧ (∀ up name, (asked_proxy req d).2 = Some up → name ∈ CARRIED_HEADERS →
       rs_headers r !! name = truthy_string (up_headers up !! name)).
Proof.
  unfold handleChatCompletionsRequest. destruct (asked_proxy req d) as [[r0|] up] eqn:E; [|done]. intros [= <-].
  assert (proper r0 ∧ (∀ k, k ∈ jkeys (rs_headers r0) → k ∈ OWN_HEADERS)
          ∧ ∀ u, up = Some u → ∃ t, answer decode decode_reads aborted id created t u = Some r0) as (Hp & Hk & Hup).
  { unfold respondToChatCompletionsRequest in E. repeat case_match; simplify_eq;
      try (split_and!; [apply caught_proper|by apply caught_headers|done]).
    split_and!; [by eapply answer_proper|intros k; by eapply answer_headers|intros u [= <-]; by eexists]. }
  cbn [rs_status rs_headers rs_body snd]. split_and!.
  - unfold proper in *. cbn. done.
  - intros u -> Hst Hab. destruct (Hup u eq_refl) as [t Ha]. unfold answer in Ha. rewrite Hab in Ha.
    apply Z.eqb_neq in Hst. rewrite Hst in Ha. cbn in Ha. by injection Ha as <-.
  - intros k Hc. destruct up as [u|]; [|left; by apply Hk].
    apply carry_keys in Hc as [Hc|Hc]; [right; split; [done|by eexists]|left; by apply Hk].
  - intros u name -> Hname. rewrite carry_value by done. cbn [mbind option_bind].
    destruct (truthy_string _); [done|]. apply jlookup_None. intros Hin%Hk.
    unfold CARRIED_HEADERS, OWN_HEADERS in *.
    repeat (apply elem_of_cons in Hname as [->|Hname]; [set_solver|]). by apply elem_of_nil in Hname.
Qed.
End answers.

(** * An exchange *)

Definition ask_list : json :=
  JObj [("model", JStr "m"); ("messages", JArr [JObj [("role", JStr "user"); ("content", JStr "What is here?")]]);
        ("tools", JArr [JObj [("type", JStr "function"); ("function", JObj [("name", JStr "list")])]])]%string.
Definition ask_request : Request :=
  {| rq_headers := ∅; rq_body := Some {| bs_chunks := [print ask_list]; bs_fails := false |} |}.
Definition no_decompression (encoding : string) (b : byte_stream) : byte_stream := b.
Definition all_reads (b : byte_stream) : list read := data (bs_chunks b) ++ [if bs_fails b then RThrow else REnd].
Definition present_client (m : moment) : bool := false.

(** The answer calls [list] by the name the upstream was told. *)
Definition list_frames : list frame :=
  let event t fields := (t, JObj (("type", JStr t) :: fields)) in
  [event "message_start" [("message", JObj [("model", JStr "m")])];
   event "content_block_start" [("index", JInt 0);
     ("content_block", JObj [("type", JStr "tool_use"); ("id", JStr "1"); ("name", JStr "cmux_chat_list"); ("input", JObj [])])];
   event "content_block_delta" [("index", JInt 0);
     ("delta", JObj [("type", JStr "input_json_delta"); ("partial_json", JStr "{}")])];
   event "content_block_stop" [("index", JInt 0)];
   event "message_delta" [("delta", JObj [("stop_reason", JStr "tool_use")]); ("usage", JObj [])];
   event "message_stop" []]%string.
Definition list_proxied : Proxied :=
  {| up_status := 200;
     up_headers := JMap [("content-type", "text/event-stream"); ("x-clankermux-request-id", "r1"); ("server", "s")]%string;
     up_body := Some {| bs_chunks := [concat (render <$> list_frames)]; bs_fails := true |};
     up_outgoingModel := Some "m"%string; up_reportedModel := None; up_usageObserved := None |}.
Definition list_proxy (p : ProxyRequest) : option Proxied := Some list_proxied.
Definition list_message : proto := default p_init (p_run p_init (view <$> list_frames)).
Definition ask_translated : TranslatedChat :=
  match translateChatRequest demo_digest ask_list with
  | inr t => t
  | inl _ => {| t_body := {| mb_model := ""; mb_messages := []; mb_system := None; mb_tools := None; mb_tool_choice := None;
                             mb_max_tokens := None; mb_temperature := None; mb_top_p := None; mb_stop_sequences := None;
                             mb_schema := None |};
                t_stream := false; t_includeUsage := false; t_names := ∅; t_fields := []; t_structuredOutput := None |}
  end.

Lemma list_exchange :
  exchange demo_digest of_text no_decompression all_reads list_proxy present_client ask_request 8192 ask_list
    ask_translated list_proxied list_frames list_message.
Proof.
  split; [vm_compute; reflexivity|vm_compute; reflexivity|by vm_compute|done|done|by eexists| |].
  - exists {| bs_chunks := [concat (render <$> list_frames)]; bs_fails := true |}, [concat (render <$> list_frames)], [RThrow].
    split_and!; [done|done|]. cbn [concat]. apply app_nil_r.
  - split; [reflexivity|reflexivity| | | |].
    + split; [vm_compute; lia|]. intros [|i] b id name; cbn; intros; simplify_eq/=.
      split_and!; [done|by exists "list"%string|by vm_compute].
    + exists "tool_use"%string, (Finish "tool_calls"). split_and!; [done..|].
      intros _ [|i] b id name; cbn; intros; by simplify_eq/=.
    + repeat constructor; discriminate || by eexists.
    + repeat constructor; by apply one_line_bool || by vm_compute.
Qed.

Lemma list_within_limit : ∀ b, up_body list_proxied = Some b →
  over_limit "id" 0 0 (g_out (chatChunks (context_of ask_translated list_proxied) (t_names ask_translated) (all_reads b))) = false.
Proof. intros b [= <-]. vm_compute. reflexivity. Qed.

Lemma chat_exchange_answers_witness :
  ∃ r c, handleChatCompletionsRequest demo_digest of_text no_decompression all_reads list_proxy present_client "id" 0
           ask_request 8192 = Some r ∧ rs_status r = 200 ∧ rs_body r = JsonBody (completion_json "id" 0 c)
    ∧ answers (context_of ask_translated list_proxied) (t_names ask_translated) (view <$> list_frames) list_message c
    ∧ ∀ n, n ∈ function_names ask_list → t_names ask_translated !! encoded_name demo_digest n = Some n.
Proof.
  apply (chat_exchange_answers _ _ _ _ _ _ _ _ _ _ _ _ _ _ _ list_exchange).
  - intros a b Ha Hb. apply list_elem_of_singleton in Ha as ->. by apply list_elem_of_singleton in Hb as ->.
  - vm_compute. reflexivity.
  - reflexivity.
  - reflexivity.
  - exact list_within_limit.
Defined.

(** The client reads its own [list], and the request's id; the upstream's other headers stay. *)
Example list_answer :
  (λ r, (rs_status r, jkeys (rs_headers r))) <$>
    handleChatCompletionsRequest demo_digest of_text no_decompression all_reads list_proxy present_client "id" 0
      ask_request 8192 = Some (200, ["content-type"; "x-clankermux-request-id"]%string).
Proof. vm_compute. reflexivity. Qed.

Lemma chat_handler_outcomes_witness :
  ∃ r, handleChatCompletionsRequest demo_digest of_text no_decompression all_reads list_proxy present_client "id" 0
         ask_request 8192 = Some r
    ∧ rs_headers r !! "x-clankermux-request-id"%string = Some "r1"%string.
Proof.
  destruct (handleChatCompletionsRequest demo_digest of_text no_decompression all_reads list_proxy present_client "id" 0
              ask_request 8192) as [r|] eqn:E; [|vm_compute in E; discriminate E].
  exists r. split; [reflexivity|].
  destruct (chat_handler_outcomes _ _ _ _ _ _ _ _ _ _ _ E) as (_ & _ & _ & Hcarried).
  apply (Hcarried list_proxied "x-clankermux-request-id"%string); [vm_compute; reflexivity|left].
Defined.
