(* ===== verification/Login.v ===== *)
(** The management login: [packages/http-api/src/handlers/auth.ts] with
    [services/session-auth-service.ts], [services/setup-code.ts] and
    [services/login-throttle.ts], over the statements of
    [packages/database/src/repositories/auth.repository.ts].

    A request is a task that stops at each [await]; every statement is one step, and the CLI,
    another process, may run one at any time. Whether a statement or a derivation throws, the
    random bytes and the clock are the environment of a step. A session's token is named by
    its digest in the database; [trace] is what happened, in order. The streams that a logout
    closes are left out, and log lines. *)

From S2P Require Import Prelude.
From S2P Require Import Rationals.
From S2P Require Import Json.
Open Scope Z_scope.

(** * The database *)

Record PasswordBinding := { b_verifier : string; b_params : string }.
#[export] Instance PasswordBinding_eq_dec : EqDecision PasswordBinding.
Proof. solve_decision. Defined.

Record StoredPasswordVerifier := { p_binding : PasswordBinding; p_updatedAt : Z }.

Record AuthSessionRecord := { s_createdAt : Z; s_expiresAt : Z; s_lastSeenAt : Z }.

(** [auth_password], which has at most one row, and [auth_sessions] by their token's digest *)
Record auth_db := { password : option StoredPasswordVerifier; sessions : gmap string AuthSessionRecord }.

Definition auth_db_init : auth_db := {| password := None; sessions := ∅ |}.

Definition setPassword (b : PasswordBinding) (updatedAt : Z) (d : auth_db) : auth_db :=
  {| password := Some {| p_binding := b; p_updatedAt := updatedAt |}; sessions := ∅ |}.

Definition setPasswordIfAbsent (b : PasswordBinding) (updatedAt : Z) (d : auth_db) : auth_db * bool :=
  match password d with
  | Some _ => (d, false)
  | None => (setPassword b updatedAt d, true)
  end.

Definition clearPassword (d : auth_db) : auth_db := {| password := None; sessions := ∅ |}.

Definition with_sessions (m : gmap string AuthSessionRecord) (d : auth_db) : auth_db :=
  {| password := password d; sessions := m |}.

(** The password is still the pair. *)
Definition bound_to (b : PasswordBinding) (d : auth_db) : bool :=
  match password d with Some p => bool_decide (p_binding p = b) | None => false end.

(** The rows inserted; [None]: the digest is there already, which the primary key refuses *)
Definition createSession (tokenHash : string) (record : AuthSessionRecord) (b : PasswordBinding) (d : auth_db)
    : option (auth_db * Z) :=
  if bound_to b d then
    match sessions d !! tokenHash with
    | Some _ => None
    | None => Some (with_sessions (<[tokenHash := record]> (sessions d)) d, 1)
    end
  else Some (d, 0).

Definition touch_row (now staleBeforeMs : Z) (r : AuthSessionRecord) : AuthSessionRecord :=
  if s_lastSeenAt r <? staleBeforeMs
  then {| s_createdAt := s_createdAt r; s_expiresAt := s_expiresAt r; s_lastSeenAt := now |} else r.

Definition touchSession (tokenHash : string) (now staleBeforeMs : Z) (d : auth_db) : auth_db :=
  with_sessions (alter (touch_row now staleBeforeMs) tokenHash (sessions d)) d.

Definition deleteSession (tokenHash : string) (d : auth_db) : auth_db * Z :=
  (with_sessions (delete tokenHash (sessions d)) d, match sessions d !! tokenHash with Some _ => 1 | None => 0 end).

Definition expired_row (now idleCutoff : Z) (r : AuthSessionRecord) : bool :=
  (s_expiresAt r <=? now) || (s_lastSeenAt r <=? idleCutoff).

Definition deleteExpiredSessions (now idleCutoff : Z) (d : auth_db) : auth_db :=
  with_sessions (filter (λ e, expired_row now idleCutoff e.2 = false) (sessions d)) d.

(** * Passwords *)

Definition MAX_PASSWORD_BYTES : Z := 1024.
Definition MIN_PASSWORD_LENGTH : Z := 8.
Definition byteLength (s : string) : Z := Z.of_nat (String.length s).

(** Whether a password may be stored *)
Definition validateNewPassword (password : string) : bool :=
  negb (units password <? MIN_PASSWORD_LENGTH) && negb (MAX_PASSWORD_BYTES <? byteLength password).

(** [PasswordHasher]; [None] is a rejected promise, the salt what [hash] draws. *)
Record PasswordHasher := {
  hash : string → string → option PasswordBinding;
  verify : string → string → string → option bool }.

(** ** scrypt *)

Definition nibble_digit (n : nat) : Ascii.ascii := Ascii.ascii_of_nat (if (n <? 10)%nat then 48 + n else 87 + n).
Definition nibble_value (c : Ascii.ascii) : option nat :=
  let n := Ascii.nat_of_ascii c in
  if (48 <=? n)%nat && (n <=? 57)%nat then Some (n - 48)%nat
  else if (97 <=? n)%nat && (n <=? 102)%nat then Some (n - 87)%nat
  else if (65 <=? n)%nat && (n <=? 70)%nat then Some (n - 55)%nat
  else None.

(** [buffer.toString("hex")] and [Buffer.from(s, "hex")], which stops where no byte is *)
Fixpoint toHex (s : string) : string :=
  match s with
  | EmptyString => EmptyString
  | String c s =>
      let n := Ascii.nat_of_ascii c in
      String (nibble_digit (n / 16)) (String (nibble_digit (n mod 16)) (toHex s))
  end.
Fixpoint fromHex (s : string) : string :=
  match s with
  | String a (String b s) =>
      match nibble_value a, nibble_value b with
      | Some x, Some y => String (Ascii.ascii_of_nat (16 * x + y)) (fromHex s)
      | _, _ => EmptyString
      end
  | _ => EmptyString
  end.

(** [CURRENT_SCRYPT_PARAMS], as stored with the salt *)
Definition scrypt_params (salt : string) : json :=
  JObj [("v", JInt 1); ("kdf", JStr "scrypt"); ("n", JInt 16384); ("r", JInt 8); ("p", JInt 1); ("len", JInt 64);
        ("salt", JStr (toHex salt))]%string.

(** The costs a derivation runs at: [n], [r], [p] and [len] *)
Definition scrypt_costs (params : json) : list value :=
  [own "n" params; own "r" params; own "p" params; own "len" params]%string.

(** [scrypt] is Node's: of a password, a salt and the costs; [None] when it fails. *)
Definition scryptPasswordHasher (scrypt : string → string → list value → option string) : PasswordHasher := {|
  hash salt password :=
    derived ← scrypt password salt (scrypt_costs (scrypt_params salt));
    Some {| b_verifier := toHex derived; b_params := stringify (scrypt_params salt) |};
  verify password verifier params :=
    match parse_string params with
    | None => Some false
    | Some parsed =>
        match as_string (own "kdf" parsed), as_string (own "salt" parsed) with
        | Some kdf, Some salt =>
            if String.eqb kdf "scrypt"
            then derived ← scrypt password (fromHex salt) (scrypt_costs parsed);
                 Some (String.eqb (fromHex verifier) derived)
            else Some false
        | _, _ => Some false
        end
    end |}.

(** * Sessions *)

Definition SESSION_ABSOLUTE_MAX_MS : Z := 30 * 24 * 60 * 60 * 1000.
Definition SESSION_IDLE_MAX_MS : Z := 7 * 24 * 60 * 60 * 1000.
Definition SESSION_TOUCH_INTERVAL_MS : Z := 60 * 60 * 1000.

(** A row past either ceiling *)
Definition session_over (now : Z) (r : AuthSessionRecord) : bool :=
  (s_expiresAt r <=? now) || (SESSION_IDLE_MAX_MS <=? now - s_lastSeenAt r).

(** * Cookies *)

Definition SESSION_COOKIE_NAME : string := "cmx_session".

(** The value of the first pair of that name; an empty one is no session. *)
Fixpoint session_pair (parts : list string) : option string :=
  match parts with
  | [] => None
  | p :: parts =>
      match cut_at "="%char (trim p) with
      | Some (name, value) =>
          if String.eqb name SESSION_COOKIE_NAME then truthy_string (Some value) else session_pair parts
      | None => session_pair parts
      end
  end.

Definition readSessionCookie (header : option string) : option string :=
  h ← truthy_string header; session_pair (split_at ";"%char h).

(** The pair that a [Set-Cookie] of [sessionCookieHeader] makes a browser send *)
Definition cookie_pair (token : string) : string := SESSION_COOKIE_NAME +:+ "=" +:+ token.

(** * The throttle *)

Definition LOGIN_MAX_CONCURRENT : Z := 2.
Definition LOGIN_BUCKET_CAPACITY : Z := 10.
Definition LOGIN_BUCKET_REFILL_INTERVAL_MS : Z := 5000.
Definition LOGIN_MAX_BODY_BYTES : Z := 4096.

Record LoginThrottle := { th_tokens : Z; th_lastRefillAt : Z; th_inFlight : Z }.

Inductive rejection := RateLimited | Busy.

Definition new_throttle (now : Z) : LoginThrottle :=
  {| th_tokens := LOGIN_BUCKET_CAPACITY; th_lastRefillAt := now; th_inFlight := 0 |}.

Definition refill (at_ : Z) (t : LoginThrottle) : LoginThrottle :=
  let elapsed := at_ - th_lastRefillAt t in
  if elapsed <? LOGIN_BUCKET_REFILL_INTERVAL_MS then t
  else
    let earned := elapsed / LOGIN_BUCKET_REFILL_INTERVAL_MS in
    {| th_tokens := Z.min LOGIN_BUCKET_CAPACITY (th_tokens t + earned);
       th_lastRefillAt := th_lastRefillAt t + earned * LOGIN_BUCKET_REFILL_INTERVAL_MS;
       th_inFlight := th_inFlight t |}.

Definition ceil_div (a b : Z) : Z := - (- a / b).

(** The reason and [retryAfterSeconds] of a refusal, or a claim. [now] reads the clock a second
    time. *)
Definition tryAcquire (at_ now : Z) (t : LoginThrottle) : option (rejection * Z) * LoginThrottle :=
  let t := refill at_ t in
  if th_tokens t <? 1 then
    (Some (RateLimited,
           Z.max 1 (ceil_div (LOGIN_BUCKET_REFILL_INTERVAL_MS - (now - th_lastRefillAt t)) 1000)), t)
  else if LOGIN_MAX_CONCURRENT <=? th_inFlight t then (Some (Busy, 1), t)
  else (None, {| th_tokens := th_tokens t - 1; th_lastRefillAt := th_lastRefillAt t;
                 th_inFlight := th_inFlight t + 1 |}).

(** A claim is released once. *)
Definition release (t : LoginThrottle) : LoginThrottle :=
  {| th_tokens := th_tokens t; th_lastRefillAt := th_lastRefillAt t; th_inFlight := th_inFlight t - 1 |}.

(** * The setup code *)

Definition SETUP_CODE_ALPHABET : string := "0123456789ABCDEFGHJKMNPQRSTVWXYZ".
Definition SETUP_CODE_LENGTH : nat := 12.
Definition SETUP_CODE_GROUP : nat := 4.

Definition in_alphabet (c : Ascii.ascii) : bool := includes SETUP_CODE_ALPHABET (String c EmptyString).

Fixpoint all_chars (p : Ascii.ascii → bool) (s : string) : bool :=
  match s with EmptyString => true | String c s => p c && all_chars p s end.
Fixpoint without_chars (p : Ascii.ascii → bool) (s : string) : string :=
  match s with
  | EmptyString => EmptyString
  | String c s => if p c then without_chars p s else String c (without_chars p s)
  end.

Fixpoint code_groups (fuel : nat) (s : string) : list string :=
  match fuel, s with
  | S fuel, String _ _ =>
      String.substring 0 SETUP_CODE_GROUP s :: code_groups fuel (slice_from SETUP_CODE_GROUP s)
  | _, _ => []
  end.

Definition formatSetupCode (normalized : string) : string :=
  String.concat "-" (code_groups (String.length normalized) normalized).

(** An active code: the object, and what its promise of a verifier comes to *)
Record ActiveSetupCode := { ac_ref : nat; ac_verifier : option PasswordBinding }.

Record SetupCodeService := { sc_active : option ActiveSetupCode; sc_generation : Z; sc_next : nat }.
Definition setup_init : SetupCodeService := {| sc_active := None; sc_generation := 0; sc_next := 0 |}.

(** [consume] and [revoke] *)
Definition drop_code (s : SetupCodeService) : SetupCodeService :=
  {| sc_active := None; sc_generation := sc_generation s + 1; sc_next := sc_next s |}.

(** * Requests *)

(** A body: what [Number] makes of its declared length, when finite, the chunks that are read,
    and whether the reader throws after them *)
Record request_body := { bd_declared : option Qc; bd_chunks : option (list string * bool) }.

Inductive bounded := BodyOk (m : json) | BodyUnusable | BodyTooLarge.

Inductive request :=
  | RLogin (b : request_body)
  | RSetup (b : request_body)
  | RStatus (cookie : option string)
  | RApi (cookie : option string)
  | RLogout (cookie : option string)
  | RStartup
  | RSweep.

(** * Tasks *)

(** What a check of the session is for: to let a request through, or to report the status *)
Inductive after_check := Gate | Status (generation : Z).

Inductive task :=
  | LoginConfigured (pw : string)
  | LoginStored (pw : string)
  | LoginVerify (pw : string) (b : PasswordBinding)
  | LoginMint (b : PasswordBinding) (token : string) (issuedAt : Z)
  | SetupConfigured (code pw : string)
  | SetupVerifier (candidate pw : string) (active : ActiveSetupCode) (generation : Z)
  | SetupVerify (candidate pw : string) (active : ActiveSetupCode) (generation : Z) (b : PasswordBinding)
  | SetupHash (pw : string)
  | SetupClaim (pw : string) (b : PasswordBinding) (now : Z)
  | SetupClaimed (b : PasswordBinding) (inserted : bool)
  | SetupMint (b : PasswordBinding) (token : string) (issuedAt : Z)
  | CheckConfigured (after : after_check) (token : option string)
  | CheckSession (after : after_check) (tokenHash : string)
  | CheckDelete (after : after_check) (tokenHash : string)
  | LogoutDelete (tokenHash : string)
  | Touch (tokenHash : string) (now staleBefore : Z)
  | StartupConfigured (generation : Z)
  | Sweep (now : Z).

(** What happened; a request is named by its number. *)
Inductive event :=
  | Asked (k : nat) (r : request)
  | Announced (ref : nat) (code : string)
  | CodeDropped
  | CodeMatched (k : nat) (ref : nat) (candidate : string)
  | Verified (k : nat) (pw : string) (b : PasswordBinding)
  | PasswordStored (by_ : option nat) (b : PasswordBinding)
  | PasswordCleared
  | SessionOpened (k : nat) (tokenHash : string) (b : PasswordBinding) (at_ : Z)
  | Seen (tokenHash : string) (at_ : Z)
  | AllowedOpen (k : nat)
  | AllowedSession (k : nat) (tokenHash : string) (at_ : Z)
  | Refused (k : nat)
  | Reported (k : nat) (configured authenticated : bool)
  | Replied (k : nat) (status : Z) (token : option string)
  | Crashed (k : nat).

(** What the environment decides at a step: two readings of the clock, whether the awaited
    statement or derivation throws, random bytes, salt and token, and whether a code could be
    announced *)
Record env := {
  e_now : Z;
  e_now' : Z;
  e_throws : bool;
  e_bytes : list Z;
  e_salt : string;
  e_token : string;
  e_announced : bool }.

Record auth := {
  db : auth_db;
  login_throttle : LoginThrottle;
  setup_throttle : LoginThrottle;
  setup : SetupCodeService;
  touchesInFlight : gset string;
  tasks : gmap nat task;
  next_task : nat;
  trace : list event }.

Definition auth_init (now : Z) (d : auth_db) : auth :=
  {| db := d; login_throttle := new_throttle now; setup_throttle := new_throttle now; setup := setup_init;
     touchesInFlight := ∅; tasks := ∅; next_task := 0; trace := [] |}.

Definition set_db (d : auth_db) (s : auth) : auth :=
  {| db := d; login_throttle := login_throttle s; setup_throttle := setup_throttle s; setup := setup s;
     touchesInFlight := touchesInFlight s; tasks := tasks s; next_task := next_task s; trace := trace s |}.
Definition set_throttles (login setup_ : LoginThrottle) (s : auth) : auth :=
  {| db := db s; login_throttle := login; setup_throttle := setup_; setup := setup s;
     touchesInFlight := touchesInFlight s; tasks := tasks s; next_task := next_task s; trace := trace s |}.
Definition set_setup (c : SetupCodeService) (s : auth) : auth :=
  {| db := db s; login_throttle := login_throttle s; setup_throttle := setup_throttle s; setup := c;
     touchesInFlight := touchesInFlight s; tasks := tasks s; next_task := next_task s; trace := trace s |}.
Definition set_touches (t : gset string) (s : auth) : auth :=
  {| db := db s; login_throttle := login_throttle s; setup_throttle := setup_throttle s; setup := setup s;
     touchesInFlight := t; tasks := tasks s; next_task := next_task s; trace := trace s |}.
Definition set_tasks (t : gmap nat task) (n : nat) (s : auth) : auth :=
  {| db := db s; login_throttle := login_throttle s; setup_throttle := setup_throttle s; setup := setup s;
     touchesInFlight := touchesInFlight s; tasks := t; next_task := n; trace := trace s |}.
Definition emit (e : event) (s : auth) : auth :=
  {| db := db s; login_throttle := login_throttle s; setup_throttle := setup_throttle s; setup := setup s;
     touchesInFlight := touchesInFlight s; tasks := tasks s; next_task := next_task s; trace := trace s ++ [e] |}.

(** The task waits at its next [await], or is over. *)
Definition park (k : nat) (t : task) (s : auth) : auth := set_tasks (<[k := t]> (tasks s)) (next_task s) s.
Definition finish (k : nat) (e : event) (s : auth) : auth := emit e (set_tasks (delete k (tasks s)) (next_task s) s).
Definition reply (k : nat) (status : Z) : auth → auth := finish k (Replied k status None).
(** A task that nobody waits for *)
Definition spawn (t : task) (s : auth) : auth := set_tasks (<[next_task s := t]> (tasks s)) (S (next_task s)) s.

Definition release_login (s : auth) : auth := set_throttles (release (login_throttle s)) (setup_throttle s) s.
Definition release_setup (s : auth) : auth := set_throttles (login_throttle s) (release (setup_throttle s)) s.
Definition revoke (s : auth) : auth := emit CodeDropped (set_setup (drop_code (setup s)) s).

Section service.
Context (hasher : PasswordHasher) (sha256 : string → string) (toUpperCase : string → string) (decode : string → string).

(** ** Bodies *)

Fixpoint read_chunks (maxBytes total : Z) (acc : string) (chunks : list string) (throws : bool) : bounded :=
  match chunks with
  | [] =>
      if throws then BodyUnusable
      else match parse_string (decode acc) with Some (JObj m) => BodyOk (JObj m) | _ => BodyUnusable end
  | c :: chunks =>
      let total := total + byteLength c in
      if maxBytes <? total then BodyTooLarge else read_chunks maxBytes total (acc +:+ c) chunks throws
  end.

Definition readBoundedJson (maxBytes : Z) (b : request_body) : bounded :=
  if from_option (λ n, bool_decide (Qc_of_Z maxBytes < n)%Qc) false (bd_declared b) then BodyTooLarge
  else match bd_chunks b with
       | None => BodyUnusable
       | Some (chunks, throws) => read_chunks maxBytes 0 EmptyString chunks throws
       end.

(** A field that is a string and not empty *)
Definition body_field (r : bounded) (k : string) : option string :=
  match r with BodyOk m => truthy_string (as_string (own k m)) | _ => None end.

(** The password of a login, or the status it is refused with *)
Definition login_password (b : request_body) : Z + string :=
  match readBoundedJson LOGIN_MAX_BODY_BYTES b with
  | BodyTooLarge => inl 413
  | r => match body_field r "password" with
         | None => inl 400
         | Some pw => if MAX_PASSWORD_BYTES <? byteLength pw then inl 400 else inr pw
         end
  end.

Definition setup_fields (b : request_body) : Z + string * string :=
  match readBoundedJson LOGIN_MAX_BODY_BYTES b with
  | BodyTooLarge => inl 413
  | r => match body_field r "code", body_field r "password" with
         | Some code, Some pw => inr (code, pw)
         | _, _ => inl 400
         end
  end.

(** ** The setup code *)

Definition normalizeSetupCode (candidate : string) : option string :=
  let normalized := without_chars (λ c, is_space c || Ascii.eqb c "-"%char) (toUpperCase candidate) in
  if negb (units normalized =? Z.of_nat SETUP_CODE_LENGTH) then None
  else if all_chars in_alphabet normalized then Some normalized else None.

(** [SETUP_CODE_ALPHABET[byte & 31]] for each byte *)
Definition code_of (bytes : list Z) : string :=
  foldr (λ b s, String.substring (Z.to_nat (Z.land b 31)) 1 SETUP_CODE_ALPHABET +:+ s) EmptyString bytes.

(** The service after [ensureIssued], the code announced, and whether the announcement threw *)
Definition ensureIssued (observedGeneration : Z) (e : env) (s : SetupCodeService)
    : SetupCodeService * option (nat * string) * bool :=
  if bool_decide (is_Some (sc_active s)) || negb (observedGeneration =? sc_generation s) then (s, None, false)
  else
    let normalized := code_of (e_bytes e) in
    let active := {| ac_ref := sc_next s;
                     ac_verifier := if e_throws e then None else hash hasher (e_salt e) normalized |} in
    if e_announced e
    then ({| sc_active := Some active; sc_generation := sc_generation s; sc_next := S (sc_next s) |},
          Some (sc_next s, normalized), false)
    else ({| sc_active := None; sc_generation := sc_generation s; sc_next := S (sc_next s) |}, None, true).

Definition ensure_issued (observedGeneration : Z) (e : env) (s : auth) : auth * bool :=
  let '(c, announced, threw) := ensureIssued observedGeneration e (setup s) in
  let s := set_setup c s in
  (match announced with Some (ref, code) => emit (Announced ref code) s | None => s end, threw).

(** The last lines of [matches] *)
Definition still_active (active : ActiveSetupCode) (generation : Z) (c : SetupCodeService) : bool :=
  (generation =? sc_generation c)
  && match sc_active c with Some a => (ac_ref a =? ac_ref active)%nat | None => false end.

(** ** Sessions *)

Definition hashSessionToken : string → string := sha256.

Definition session_record (issuedAt : Z) : AuthSessionRecord :=
  {| s_createdAt := issuedAt; s_expiresAt := issuedAt + SESSION_ABSOLUTE_MAX_MS; s_lastSeenAt := issuedAt |}.

(** The statement of [createSession]: whether a session was opened, [None] when it threw *)
Definition mint (k : nat) (b : PasswordBinding) (token : string) (issuedAt : Z) (e : env) (s : auth)
    : option (auth * bool) :=
  if e_throws e then None else
  let h := hashSessionToken token in
  '(d, n) ← createSession h (session_record issuedAt) b (db s);
  let s := set_db d s in
  Some (if n =? 0 then (s, false) else (emit (SessionOpened k h b issuedAt) s, true)).

Definition touchIfStale (tokenHash : string) (r : AuthSessionRecord) (now : Z) (s : auth) : auth :=
  let staleBefore := now - SESSION_TOUCH_INTERVAL_MS in
  if staleBefore <? s_lastSeenAt r then s
  else if bool_decide (tokenHash ∈ touchesInFlight s) then s
  else spawn (Touch tokenHash now staleBefore) (set_touches ({[tokenHash]} ∪ touchesInFlight s) s).

(** [SessionCheck]; the digest of a live session *)
Inductive check := Unconfigured | Live (tokenHash : string) | Dead.

(** What a check is followed by *)
Definition checked (k : nat) (after : after_check) (c : check) (e : env) (s : auth) : auth :=
  match after with
  | Gate =>
      finish k (match c with Unconfigured => AllowedOpen k | Live h => AllowedSession k h (e_now e) | Dead => Refused k end) s
  | Status generation =>
      let '(s, threw) := match c with
                         | Unconfigured => ensure_issued generation e s
                         | _ => (revoke s, false)
                         end in
      if threw then finish k (Crashed k) s
      else finish k (Reported k (match c with Unconfigured => false | _ => true end)
                              (match c with Live _ => true | _ => false end)) s
  end.

(** ** Steps *)

Definition start (r : request) (e : env) (s : auth) : auth :=
  let k := next_task s in
  let s := emit (Asked k r) (set_tasks (tasks s) (S k) s) in
  match r with
  | RLogin b =>
      match login_password b with
      | inl status => reply k status s
      | inr pw => park k (LoginConfigured pw) s
      end
  | RSetup b =>
      match setup_fields b with
      | inl status => reply k status s
      | inr (code, pw) =>
          match tryAcquire (e_now e) (e_now' e) (setup_throttle s) with
          | (Some _, t) => reply k 429 (set_throttles (login_throttle s) t s)
          | (None, t) => park k (SetupConfigured code pw) (set_throttles (login_throttle s) t s)
          end
      end
  | RStatus cookie => park k (CheckConfigured (Status (sc_generation (setup s))) (readSessionCookie cookie)) s
  | RApi cookie => park k (CheckConfigured Gate (readSessionCookie cookie)) s
  | RLogout cookie =>
      match readSessionCookie cookie with
      | None => reply k 200 s
      | Some token => park k (LogoutDelete (hashSessionToken token)) s
      end
  | RStartup => park k (StartupConfigured (sc_generation (setup s))) s
  | RSweep => park k (Sweep (e_now e)) s
  end.

Definition login_step (k : nat) (t : task) (e : env) (s : auth) : auth :=
  match t with
  | LoginConfigured pw =>
      if e_throws e then finish k (Crashed k) s else
      match password (db s) with
      | None => reply k 409 s
      | Some _ =>
          match tryAcquire (e_now e) (e_now' e) (login_throttle s) with
          | (Some _, t) => reply k 429 (set_throttles t (setup_throttle s) s)
          | (None, t) => park k (LoginStored pw) (set_throttles t (setup_throttle s) s)
          end
      end
  | LoginStored pw =>
      if e_throws e then finish k (Crashed k) (release_login s) else
      match password (db s) with
      | None => reply k 401 (release_login s)
      | Some p => park k (LoginVerify pw (p_binding p)) s
      end
  | LoginVerify pw b =>
      match if e_throws e then None else verify hasher pw (b_verifier b) (b_params b) with
      | None => finish k (Crashed k) (release_login s)
      | Some false => reply k 401 (release_login s)
      | Some true => park k (LoginMint b (e_token e) (e_now e)) (emit (Verified k pw b) (release_login s))
      end
  | LoginMint b token issuedAt =>
      match mint k b token issuedAt e s with
      | None => finish k (Crashed k) s
      | Some (s, false) => reply k 401 s
      | Some (s, true) => finish k (Replied k 200 (Some token)) s
      end
  | _ => s
  end.

Definition setup_step (k : nat) (t : task) (e : env) (s : auth) : auth :=
  match t with
  | SetupConfigured code pw =>
      if e_throws e then finish k (Crashed k) (release_setup s) else
      match password (db s) with
      | Some _ => reply k 409 (release_setup (revoke s))
      | None =>
          match sc_active (setup s), normalizeSetupCode code with
          | Some active, Some candidate => park k (SetupVerifier candidate pw active (sc_generation (setup s))) s
          | _, _ => reply k 403 (release_setup s)
          end
      end
  | SetupVerifier candidate pw active generation =>
      match ac_verifier active with
      | None => reply k 403 (release_setup s)
      | Some b => park k (SetupVerify candidate pw active generation b) s
      end
  | SetupVerify candidate pw active generation b =>
      match if e_throws e then None else verify hasher candidate (b_verifier b) (b_params b) with
      | Some true =>
          if still_active active generation (setup s) then
            let s := emit (CodeMatched k (ac_ref active) candidate) s in
            if validateNewPassword pw then park k (SetupHash pw) s else reply k 400 (release_setup s)
          else reply k 403 (release_setup s)
      | _ => reply k 403 (release_setup s)
      end
  | SetupHash pw =>
      match if e_throws e then None else hash hasher (e_salt e) pw with
      | None => finish k (Crashed k) (release_setup s)
      | Some b => park k (SetupClaim pw b (e_now e)) s
      end
  | SetupClaim pw b now =>
      if e_throws e then finish k (Crashed k) (release_setup s) else
      let '(d, inserted) := setPasswordIfAbsent b now (db s) in
      park k (SetupClaimed b inserted)
        ((if inserted then emit (PasswordStored (Some k) b) else id) (set_db d s))
  | SetupClaimed b inserted =>
      let s := revoke s in
      if inserted then park k (SetupMint b (e_token e) (e_now e)) s else reply k 409 (release_setup s)
  | SetupMint b token issuedAt =>
      match mint k b token issuedAt e s with
      | None => finish k (Crashed k) (release_setup s)
      | Some (s, false) => reply k 409 (release_setup s)
      | Some (s, true) => finish k (Replied k 200 (Some token)) (release_setup s)
      end
  | _ => s
  end.

Definition session_step (k : nat) (t : task) (e : env) (s : auth) : auth :=
  match t with
  | CheckConfigured after token =>
      if e_throws e then finish k (Crashed k) s else
      match password (db s), token with
      | None, _ => checked k after Unconfigured e s
      | Some _, None => checked k after Dead e s
      | Some _, Some token => park k (CheckSession after (hashSessionToken token)) s
      end
  | CheckSession after h =>
      if e_throws e then finish k (Crashed k) s else
      match sessions (db s) !! h with
      | None => checked k after Dead e s
      | Some r =>
          if session_over (e_now e) r then park k (CheckDelete after h) s
          else checked k after (Live h) e (touchIfStale h r (e_now' e) (emit (Seen h (e_now' e)) s))
      end
  | CheckDelete after h =>
      checked k after Dead e (if e_throws e then s else set_db (deleteSession h (db s)).1 s)
  | LogoutDelete h =>
      if e_throws e then finish k (Crashed k) s else reply k 200 (set_db (deleteSession h (db s)).1 s)
  | _ => s
  end.

(** The tasks that nobody waits for leave no answer. *)
Definition background_step (k : nat) (t : task) (e : env) (s : auth) : auth :=
  let over s := set_tasks (delete k (tasks s)) (next_task s) s in
  match t with
  | Touch h now staleBefore =>
      over (set_touches (touchesInFlight s ∖ {[h]})
              (if e_throws e then s else set_db (touchSession h now staleBefore (db s)) s))
  | StartupConfigured generation =>
      over (if e_throws e then s
            else match password (db s) with None => (ensure_issued generation e s).1 | Some _ => s end)
  | Sweep now =>
      over (if e_throws e then s else set_db (deleteExpiredSessions now (now - SESSION_IDLE_MAX_MS) (db s)) s)
  | _ => s
  end.

Definition proceed (k : nat) (e : env) (s : auth) : auth :=
  match tasks s !! k with
  | Some t => match t with
              | LoginConfigured _ | LoginStored _ | LoginVerify _ _ | LoginMint _ _ _ => login_step k t e s
              | CheckConfigured _ _ | CheckSession _ _ | CheckDelete _ _ | LogoutDelete _ => session_step k t e s
              | Touch _ _ _ | StartupConfigured _ | Sweep _ => background_step k t e s
              | _ => setup_step k t e s
              end
  | None => s
  end.

(** The process starts again: what it held in memory is gone. Numbers are not used twice. *)
Definition restart (now : Z) (s : auth) : auth :=
  emit CodeDropped
    {| db := db s; login_throttle := new_throttle now; setup_throttle := new_throttle now;
       setup := {| sc_active := None; sc_generation := 0; sc_next := sc_next (setup s) |};
       touchesInFlight := ∅; tasks := ∅; next_task := next_task s; trace := trace s |}.

(** A request arrives, a task goes on, the CLI changes the password, or the process restarts. *)
Inductive action :=
  | Start (r : request) (e : env)
  | Resume (k : nat) (e : env)
  | CliSet (b : PasswordBinding) (updatedAt : Z)
  | CliClear
  | Restart (now : Z).

Definition step (a : action) (s : auth) : auth :=
  match a with
  | Start r e => start r e s
  | Resume k e => proceed k e s
  | CliSet b updatedAt => emit (PasswordStored None b) (set_db (setPassword b updatedAt (db s)) s)
  | CliClear => emit PasswordCleared (set_db (clearPassword (db s)) s)
  | Restart now => restart now s
  end.

Definition run (actions : list action) (s : auth) : auth := foldl (λ s a, step a s) s actions.
End service.
