(* ===== verification/LoginSafety.v ===== *)
(** What the management login ([Login]) keeps, whatever the interleaving of requests, of the
    CLI and of restarts: who gets through, what a session stands for, who sets the first
    password, and how many passwords are tried. *)

From S2P Require Import Prelude.
From S2P Require Import Rationals.
From S2P Require Import Json.
From S2P Require Import Login.
Open Scope Z_scope.

(** * Traces *)

Definition password_event (e : event) : bool :=
  match e with PasswordStored _ _ | PasswordCleared => true | _ => false end.
Definition drop_event (e : event) : bool := match e with CodeDropped => true | _ => false end.

(** The last change of the password and what followed it *)
Definition this_password (tr : list event) : list event :=
  foldl (λ l e, if password_event e then [e] else l ++ [e]) [] tr.

(** The password there is after a trace *)
Definition stored (tr : list event) : option PasswordBinding :=
  match head (this_password tr) with Some (PasswordStored _ b) => Some b | _ => None end.

(** What happened since a setup code was last dropped *)
Definition this_code (tr : list event) : list event :=
  foldl (λ l e, if drop_event e then [] else l ++ [e]) [] tr.

Lemma this_password_snoc tr e :
  this_password (tr ++ [e]) = if password_event e then [e] else this_password tr ++ [e].
Proof. unfold this_password. by rewrite foldl_app. Qed.

Lemma this_code_snoc tr e : this_code (tr ++ [e]) = if drop_event e then [] else this_code tr ++ [e].
Proof. unfold this_code. by rewrite foldl_app. Qed.

Lemma this_password_sub tr e : e ∈ this_password tr → e ∈ tr.
Proof.
  induction tr as [|x tr IH] using rev_ind; [done|]. rewrite this_password_snoc. destruct (password_event x); set_solver.
Qed.

Lemma this_code_sub tr e : e ∈ this_code tr → e ∈ tr.
Proof.
  induction tr as [|x tr IH] using rev_ind; [done|]. rewrite this_code_snoc. destruct (drop_event x); set_solver.
Qed.

Lemma stored_snoc tr e : password_event e = false → stored (tr ++ [e]) = stored tr.
Proof.
  intros He. unfold stored. rewrite this_password_snoc, He.
  destruct (this_password tr) as [|x l]; [by destruct e|done].
Qed.

Section safety.
Context (hasher : PasswordHasher) (sha256 : string → string) (toUpperCase : string → string) (decode : string → string).

(** * What justifies an event *)

Definition verifies (pw : string) (b : PasswordBinding) : Prop := verify hasher pw (b_verifier b) (b_params b) = Some true.
Definition hash_of (pw : string) (b : PasswordBinding) : Prop := ∃ salt, hash hasher salt pw = Some b.

(** Request [k] is a login with that password. *)
Definition asked_login (tr : list event) (k : nat) (pw : string) : Prop :=
  ∃ body, Asked k (RLogin body) ∈ tr ∧ login_password decode body = inr pw.
(** Request [k] sets up that password with that code. *)
Definition asked_setup (tr : list event) (k : nat) (code pw : string) : Prop :=
  ∃ body, Asked k (RSetup body) ∈ tr ∧ setup_fields decode body = inr (code, pw).
(** Request [k] carries the cookie of that session. *)
Definition asked_with (tr : list event) (k : nat) (token : option string) : Prop :=
  ∃ c, Asked k (RApi c) ∈ tr ∧ readSessionCookie c = token.

(** The one who opens a session is allowed to. *)
Definition authorised (tr : list event) (k : nat) (b : PasswordBinding) : Prop :=
  (∃ pw, Verified k pw b ∈ tr) ∨ PasswordStored (Some k) b ∈ tr.

(** A request that presented the code: the announced one that nothing has dropped yet *)
Definition matched (tr : list event) (k : nat) (pw : string) : Prop :=
  ∃ ref candidate code, CodeMatched k ref candidate ∈ tr ∧ asked_setup tr k code pw
    ∧ normalizeSetupCode toUpperCase code = Some candidate.

Definition justified (pre : list event) (e : event) : Prop :=
  match e with
  | Verified k pw b => verifies pw b ∧ asked_login pre k pw
  | CodeMatched k ref candidate =>
      ∃ code b, Announced ref code ∈ this_code pre ∧ hash_of code b ∧ verifies candidate b
  | PasswordStored (Some k) b =>
      stored pre = None ∧ ∃ pw, matched pre k pw ∧ hash_of pw b ∧ validateNewPassword pw = true
  | SessionOpened k h b _ => stored pre = Some b ∧ authorised pre k b
  | AllowedOpen k => stored pre = None
  | AllowedSession k h at_ =>
      (∃ token, asked_with pre k (Some token) ∧ h = sha256 token) ∧
      ∃ b k' opened, stored pre = Some b ∧ SessionOpened k' h b opened ∈ this_password pre
        ∧ at_ < opened + SESSION_ABSOLUTE_MAX_MS
        ∧ ∃ seen, (seen = opened ∨ Seen h seen ∈ pre) ∧ at_ < seen + SESSION_IDLE_MAX_MS
  | _ => True
  end.

Definition good (tr : list event) : Prop := ∀ pre e post, tr = pre ++ e :: post → justified pre e.

Lemma good_nil : good [].
Proof. by intros [] ? ?. Qed.

Lemma good_snoc tr e : good tr → justified tr e → good (tr ++ [e]).
Proof.
  intros Hg He pre x post Heq. induction post as [|y post' _] using rev_ind.
  - apply app_inj_tail in Heq as [-> ->]. done.
  - rewrite app_comm_cons, app_assoc in Heq. apply app_inj_tail in Heq as [-> _]. by eapply Hg.
Qed.

(** * The invariant *)

(** An announced code, with the verifier of what was announced *)
Definition announced (tr tr' : list event) (a : ActiveSetupCode) : Prop :=
  ∃ code, Announced (ac_ref a) code ∈ tr' ∧ Announced (ac_ref a) code ∈ tr
    ∧ ∀ b, ac_verifier a = Some b → hash_of code b.

Definition task_ok (tr : list event) (k : nat) (t : task) : Prop :=
  match t with
  | LoginConfigured pw | LoginStored pw | LoginVerify pw _ => asked_login tr k pw
  | LoginMint b _ _ => ∃ pw, Verified k pw b ∈ tr
  | SetupConfigured code pw => asked_setup tr k code pw
  | SetupVerifier candidate pw a _ =>
      (∃ code, asked_setup tr k code pw ∧ normalizeSetupCode toUpperCase code = Some candidate) ∧ announced tr tr a
  | SetupVerify candidate pw a _ b =>
      (∃ code, asked_setup tr k code pw ∧ normalizeSetupCode toUpperCase code = Some candidate) ∧ announced tr tr a
      ∧ ac_verifier a = Some b
  | SetupHash pw => matched tr k pw ∧ validateNewPassword pw = true
  | SetupClaim pw b _ => matched tr k pw ∧ validateNewPassword pw = true ∧ hash_of pw b
  | SetupClaimed b inserted => inserted = true → PasswordStored (Some k) b ∈ tr
  | SetupMint b _ _ => PasswordStored (Some k) b ∈ tr
  | CheckConfigured Gate token => asked_with tr k token
  | CheckSession Gate h => ∃ token, asked_with tr k (Some token) ∧ h = sha256 token
  | Touch h now _ => Seen h now ∈ tr
  | _ => True
  end.

(** A row stands for a session opened under the password there is. *)
Definition row_ok (tr : list event) (h : string) (r : AuthSessionRecord) : Prop :=
  ∃ b k, stored tr = Some b ∧ SessionOpened k h b (s_createdAt r) ∈ this_password tr
    ∧ s_expiresAt r = s_createdAt r + SESSION_ABSOLUTE_MAX_MS
    ∧ (s_lastSeenAt r = s_createdAt r ∨ Seen h (s_lastSeenAt r) ∈ tr).

Record db_ok (tr : list event) (d : auth_db) : Prop := {
  do_password : p_binding <$> password d = stored tr;
  do_sessions : ∀ h r, sessions d !! h = Some r → row_ok tr h r }.

Record setup_ok (tr : list event) (c : SetupCodeService) : Prop := {
  so_active : ∀ a, sc_active c = Some a → announced tr (this_code tr) a;
  so_fresh : ∀ ref code, Announced ref code ∈ tr → (ref < sc_next c)%nat;
  so_unique : ∀ ref code code', Announced ref code ∈ tr → Announced ref code' ∈ tr → code = code' }.

Record inv (s : auth) : Prop := {
  iv_trace : good (trace s);
  iv_db : db_ok (trace s) (db s);
  iv_tasks : ∀ k t, tasks s !! k = Some t → task_ok (trace s) k t;
  iv_setup : setup_ok (trace s) (setup s) }.

(** What happened stays so. *)
Lemma matched_mono tr l k pw : matched tr k pw → matched (tr ++ l) k pw.
Proof. intros (ref & c & code & ? & (body & ? & ?) & ?). exists ref, c, code. unfold asked_setup. set_solver. Qed.

Lemma announced_mono tr l a : announced tr tr a → announced (tr ++ l) (tr ++ l) a.
Proof. intros (code & ? & ? & ?). exists code. set_solver. Qed.

Lemma asked_with_mono tr l k token : asked_with tr k token → asked_with (tr ++ l) k token.
Proof. intros (c & ? & ?). exists c. set_solver. Qed.

#[local] Hint Resolve matched_mono announced_mono asked_with_mono : core.

Lemma login_task_mono tr l k t : task_ok tr k t → task_ok (tr ++ l) k t.
Proof.
  destruct t as [pw|pw|pw b|b token at_|code pw|cand pw a g|cand pw a g b|pw|pw b at_|b []|b token at_|[] token|[] h| | |h at_ st| |];
    cbn; try done; try (intros (body & ? & ?); exists body; set_solver); try set_solver.
  - intros [(c & (body & ? & ?) & ?) Ha]. split; [|by auto]. exists c. split; [exists body; set_solver|done].
  - intros [(c & (body & ? & ?) & ?) [Ha ?]]. split; [|by auto]. exists c. split; [exists body; set_solver|done].
  - intros [? ?]. by auto.
  - intros (? & ? & ?). by auto.
Qed.

(** An event of no one but its request *)
Definition neutral (e : event) : bool :=
  negb (password_event e) && negb (drop_event e) && match e with Announced _ _ => false | _ => true end.

Lemma row_ok_snoc tr e h r : password_event e = false → row_ok tr h r → row_ok (tr ++ [e]) h r.
Proof.
  intros He (b & k & Hb & Ho & Hx & Hl). exists b, k. rewrite stored_snoc, this_password_snoc, He by done. set_solver.
Qed.

Lemma db_ok_snoc tr d e : password_event e = false → db_ok tr d → db_ok (tr ++ [e]) d.
Proof. intros He [Hp Hs]. split; [by rewrite stored_snoc|]. intros h r Hr. by apply row_ok_snoc, Hs. Qed.

Lemma setup_ok_snoc tr c e :
  drop_event e = false → match e with Announced _ _ => false | _ => true end = true → setup_ok tr c → setup_ok (tr ++ [e]) c.
Proof.
  intros He Ha [Hs Hf Hu]. split.
  - intros a (code & ? & ? & ?)%Hs. exists code. rewrite this_code_snoc, He. set_solver.
  - intros ref code [?|Heq%list_elem_of_singleton]%elem_of_app; [by eapply Hf|by subst e].
  - intros ref code code' [?|Heq%list_elem_of_singleton]%elem_of_app [?|Heq'%list_elem_of_singleton]%elem_of_app;
      try (by subst e). by eapply Hu.
Qed.

Lemma inv_emit e s : justified (trace s) e → neutral e = true → inv s → inv (emit e s).
Proof.
  intros Hj [[Hp%negb_true_iff Hd%negb_true_iff]%andb_true_iff Ha]%andb_true_iff [Ht Hdb Hk Hs]. split; cbn.
  - by apply good_snoc.
  - by apply db_ok_snoc.
  - intros k t Hkt. by apply login_task_mono, Hk.
  - by apply setup_ok_snoc.
Qed.

Lemma inv_tasks m n s : (∀ k t, m !! k = Some t → task_ok (trace s) k t) → inv s → inv (set_tasks m n s).
Proof. intros Hm [Ht Hdb Hk Hs]. by split. Qed.

Lemma inv_park k t s : task_ok (trace s) k t → inv s → inv (park k t s).
Proof.
  intros Ht Hs. apply inv_tasks; [|done]. intros k' t' [[<- <-]|[_ H]]%lookup_insert_Some; [done|]. by apply (iv_tasks _ Hs).
Qed.

Lemma inv_over k s : inv s → inv (set_tasks (delete k (tasks s)) (next_task s) s).
Proof.
  intros Hs. apply inv_tasks; [|done]. intros k' t' [_ H]%lookup_delete_Some. by apply (iv_tasks _ Hs).
Qed.

Lemma inv_finish k e s : justified (trace s) e → neutral e = true → inv s → inv (finish k e s).
Proof. intros Hj Hn Hs. apply inv_emit; [done|done|]. by apply inv_over. Qed.

Lemma inv_reply k status s : inv s → inv (reply k status s).
Proof. by apply inv_finish. Qed.

Lemma inv_crash k s : inv s → inv (finish k (Crashed k) s).
Proof. by apply inv_finish. Qed.

Lemma inv_throttles a b s : inv s → inv (set_throttles a b s).
Proof. by intros []. Qed.

Lemma inv_touches t s : inv s → inv (set_touches t s).
Proof. by intros []. Qed.

Lemma inv_drop c s :
  sc_active c = None → sc_next c = sc_next (setup s) → inv s → inv (emit CodeDropped (set_setup c s)).
Proof.
  intros Hc Hn [Ht Hdb Hk [_ Hf Hu]]. split; cbn.
  - by apply good_snoc.
  - by apply db_ok_snoc.
  - intros k t Hkt. by apply login_task_mono, Hk.
  - split.
    + intros a Ha. congruence.
    + intros ref code [Hr|Heq%list_elem_of_singleton]%elem_of_app; [|done]. rewrite Hn. by eapply Hf.
    + intros ref code code' [?|?%list_elem_of_singleton]%elem_of_app [?|?%list_elem_of_singleton]%elem_of_app; try done.
      by eapply Hu.
Qed.

Lemma inv_revoke s : inv s → inv (revoke s).
Proof. by apply inv_drop. Qed.

Lemma inv_restart now s : inv s → inv (restart now s).
Proof.
  intros Hs. pose proof (inv_drop {| sc_active := None; sc_generation := 0; sc_next := sc_next (setup s) |} s eq_refl eq_refl Hs)
    as [Ht Hdb Hk Hsetup]. by split.
Qed.

(** ** Statements *)

Lemma inv_db d s :
  password d = password (db s) → (∀ h r, sessions d !! h = Some r → row_ok (trace s) h r) → inv s → inv (set_db d s).
Proof. intros Hp Hr [Ht [Hpw _] Hk Hs]. split; [done| |done|done]. split; [|done]. cbn. by rewrite Hp. Qed.

Lemma inv_password e d s :
  password_event e = true → justified (trace s) e → sessions d = ∅ →
  p_binding <$> password d = stored (trace s ++ [e]) → inv s → inv (emit e (set_db d s)).
Proof.
  intros He Hj Hd Hp [Ht Hdb Hk Hs]. split; cbn.
  - by apply good_snoc.
  - split; [done|]. intros h r. by rewrite Hd.
  - intros k t Hkt. by apply login_task_mono, Hk.
  - apply setup_ok_snoc; [by destruct e|by destruct e|done].
Qed.

Lemma inv_delete h s : inv s → inv (set_db (deleteSession h (db s)).1 s).
Proof.
  intros Hs. apply inv_db; [done| |done]. cbn. intros h' r [_ Hr]%lookup_delete_Some. by apply (do_sessions _ _ (iv_db _ Hs)).
Qed.

Lemma inv_sweep now idle s : inv s → inv (set_db (deleteExpiredSessions now idle (db s)) s).
Proof.
  intros Hs. apply inv_db; [done| |done]. cbn. intros h' r [Hr _]%map_lookup_filter_Some. by apply (do_sessions _ _ (iv_db _ Hs)).
Qed.

Lemma inv_touch h now stale s : Seen h now ∈ trace s → inv s → inv (set_db (touchSession h now stale (db s)) s).
Proof.
  intros Hseen Hs. apply inv_db; [done| |done]. cbn. intros h' r Hr. destruct (decide (h' = h)) as [->|Hne].
  - apply lookup_alter_Some in Hr as [(_ & r0 & Hr0 & ->)|[? _]]; [|done].
    destruct (do_sessions _ _ (iv_db _ Hs) _ _ Hr0) as (b & k & Hb & Ho & Hx & Hl). unfold touch_row.
    destruct (_ <? _); exists b, k; split_and!; try done. by right.
  - rewrite lookup_alter_ne in Hr by done. by apply (do_sessions _ _ (iv_db _ Hs)).
Qed.

Lemma inv_mint k b token at_ e s s' x :
  authorised (trace s) k b → inv s → mint sha256 k b token at_ e s = Some (s', x) → inv s'.
Proof.
  intros Ha Hs. unfold mint, createSession. destruct (e_throws e); [done|]. cbn.
  destruct (bound_to b (db s)) eqn:Hb.
  - destruct (sessions (db s) !! _) eqn:E; cbn; [done|]. intros [= <- <-].
    unfold bound_to in Hb. destruct (password (db s)) as [p|] eqn:Ep; [|done]. apply bool_decide_eq_true in Hb.
    assert (stored (trace s) = Some b) as Hst by (rewrite <-(do_password _ _ (iv_db _ Hs)), Ep; cbn; by rewrite Hb).
    destruct Hs as [Ht [Hpw Hrows] Hk Hsetup]. split; cbn.
    + apply good_snoc; [done|]. by split.
    + split; cbn; [by rewrite stored_snoc by done|]. intros h r [[<- <-]|[_ Hr]]%lookup_insert_Some.
      * exists b, k. rewrite stored_snoc, this_password_snoc by done. cbn. split_and!; [done|set_solver|done|by left].
      * by apply row_ok_snoc, Hrows.
    + intros k' t Hkt. by apply login_task_mono, Hk.
    + by apply setup_ok_snoc.
  - cbn. intros [= <- <-]. apply inv_db; [done| |done]. intros h r. by apply (do_sessions _ _ (iv_db _ Hs)).
Qed.

Lemma inv_issue generation e s : inv s → inv (ensure_issued hasher generation e s).1.
Proof.
  intros Hs. unfold ensure_issued, ensureIssued. destruct (_ || _); [by destruct s|].
  destruct Hs as [Ht Hdb Hk [_ Hf Hu]]. destruct (e_announced e); cbn.
  - split; cbn.
    + by apply good_snoc.
    + by apply db_ok_snoc.
    + intros k' t Hkt. by apply login_task_mono, Hk.
    + split; cbn.
      * intros a [= <-]. exists (code_of (e_bytes e)). cbn. rewrite this_code_snoc. cbn. split_and!; [set_solver..|].
        intros b. destruct (e_throws e); [done|]. intros Hb. by exists (e_salt e).
      * intros ref code [Hr%Hf|Heq%list_elem_of_singleton]%elem_of_app; [lia|]. injection Heq as -> ->. lia.
      * intros ref code code' [Hr|Heq%list_elem_of_singleton]%elem_of_app [Hr'|Heq'%list_elem_of_singleton]%elem_of_app;
          simplify_eq; [by eapply Hu|apply Hf in Hr; lia|apply Hf in Hr'; lia|done].
  - split; cbn; [done..|]. split; cbn; [done| |done]. intros ref code Hr%Hf. lia.
Qed.

Lemma inv_checked k after c e s :
  inv s → (after = Gate → justified (trace s) (match c with Unconfigured => AllowedOpen k
                                                       | Live h => AllowedSession k h (e_now e) | Dead => Refused k end)) →
  inv (checked hasher k after c e s).
Proof.
  intros Hs Hj. destruct after as [|generation]; cbn.
  - apply inv_finish; [by apply Hj|by destruct c|done].
  - destruct c; [|by apply inv_finish, inv_revoke..].
    pose proof (inv_issue generation e s Hs) as Hi. destruct (ensure_issued _ _ _ _) as [s' []]; by apply inv_finish.
Qed.

(** ** Steps *)

Lemma no_password s : inv s → password (db s) = None → stored (trace s) = None.
Proof. intros Hs Hp. by rewrite <-(do_password _ _ (iv_db _ Hs)), Hp. Qed.

#[local] Hint Resolve inv_park inv_reply inv_crash inv_throttles inv_touches inv_revoke inv_over : core.

Lemma inv_start r e s : inv s → inv (start sha256 decode r e s).
Proof.
  intros Hs. unfold start. set (k := next_task s).
  assert (inv (Login.emit (Asked k r) (set_tasks (tasks s) (S k) s))) as Hs1.
  { apply inv_emit; [done|done|]. apply inv_tasks; [|done]. apply (iv_tasks _ Hs). }
  assert (Asked k r ∈ trace (Login.emit (Asked k r) (set_tasks (tasks s) (S k) s))) as Hin by (cbn; set_solver).
  revert Hs1 Hin. set (s1 := Login.emit _ _). intros Hs1 Hin. destruct r as [b|b|c|c|c| |].
  - destruct (login_password decode b) as [n|pw] eqn:E; [auto|]. apply inv_park; [|done]. by exists b.
  - destruct (setup_fields decode b) as [n|[code pw]] eqn:E; [auto|].
    destruct (tryAcquire _ _ _) as [[rej|] t]; [auto|]. apply inv_park; [|by auto]. by exists b.
  - by apply inv_park.
  - apply inv_park; [|done]. by exists c.
  - destruct (readSessionCookie c); [|by auto]. by apply inv_park.
  - by apply inv_park.
  - by apply inv_park.
Qed.

Lemma inv_login k t e s : tasks s !! k = Some t → inv s → inv (login_step hasher sha256 k t e s).
Proof.
  intros Hk Hs. pose proof (iv_tasks _ Hs _ _ Hk) as Ht. destruct t as [pw|pw|pw b|b token at_| | | | | | | | | | | | | |]; try done; cbn [login_step].
  - destruct (e_throws e); [auto|]. destruct (password (db s)); [|auto].
    destruct (tryAcquire _ _ _) as [[rej|] t]; [auto|]. by apply inv_park; [|auto].
  - destruct (e_throws e); [by apply inv_crash, inv_throttles|].
    destruct (password (db s)) as [p|]; [by apply inv_park|by apply inv_reply, inv_throttles].
  - destruct (if e_throws e then None else _) as [[]|] eqn:E; [|by apply inv_reply, inv_throttles|by apply inv_crash, inv_throttles].
    destruct (e_throws e); [done|]. apply inv_park; [exists pw; cbn; set_solver|].
    apply inv_emit; [by split|done|]. by apply inv_throttles.
  - destruct (mint _ _ _ _ _ _ _) as [[s' []]|] eqn:E; [| |by auto].
    + apply inv_finish; [done|done|]. eapply inv_mint; [|done|done]. by left.
    + apply inv_reply. eapply inv_mint; [|done|done]. by left.
Qed.

Lemma inv_setup_step k t e s : tasks s !! k = Some t → inv s → inv (setup_step hasher sha256 toUpperCase k t e s).
Proof.
  intros Hk Hs. pose proof (iv_tasks _ Hs _ _ Hk) as Ht.
  destruct t as [| | | |code pw|cand pw a g|cand pw a g b|pw|pw b at_|b ins|b token at_| | | | | | |]; try done; cbn [setup_step].
  - destruct (e_throws e); [by apply inv_crash, inv_throttles|].
    destruct (password (db s)) as [p|]; [by apply inv_reply, inv_throttles, inv_revoke|].
    destruct (sc_active (setup s)) as [a|] eqn:Ea; [|by apply inv_reply, inv_throttles].
    destruct (normalizeSetupCode toUpperCase code) as [cand|] eqn:Ec; [|by apply inv_reply, inv_throttles].
    apply inv_park; [|done]. split; [by exists code|].
    destruct (so_active _ _ (iv_setup _ Hs) _ Ea) as (c & ? & ? & ?). by exists c.
  - destruct Ht as [Hc Ha]. destruct (ac_verifier a) as [b|] eqn:Eb; [|by apply inv_reply, inv_throttles].
    by apply inv_park.
  - destruct Ht as [(code & Hasked & Hc) [(c & _ & Hann & Hv) Hb]].
    destruct (if e_throws e then None else _) as [[]|] eqn:E; [|by apply inv_reply, inv_throttles..].
    destruct (e_throws e); [done|]. destruct (still_active a g (setup s)) eqn:Es; [|by apply inv_reply, inv_throttles].
    apply andb_true_iff in Es as [_ Es]. destruct (sc_active (setup s)) as [a'|] eqn:Ea; [|done]. apply Nat.eqb_eq in Es.
    assert (inv (Login.emit (CodeMatched k (ac_ref a) cand) s)) as Hs1.
    { apply inv_emit; [|done|done]. destruct (so_active _ _ (iv_setup _ Hs) _ Ea) as (c' & Hin & Hall & _). rewrite Es in Hin, Hall.
      pose proof (so_unique _ _ (iv_setup _ Hs) _ _ _ Hann Hall) as <-. exists c, b. by auto. }
    destruct (validateNewPassword pw) eqn:Ev; [|by apply inv_reply, inv_throttles]. apply inv_park; [|done].
    split; [|done]. exists (ac_ref a), cand, code. destruct Hasked as (body & ? & ?). unfold asked_setup. cbn. set_solver.
  - destruct (if e_throws e then None else _) as [b|] eqn:E; [|by apply inv_crash, inv_throttles].
    destruct (e_throws e); [done|]. destruct Ht. apply inv_park; [|done]. split_and!; [done..|]. by exists (e_salt e).
  - destruct Ht as (Hm & Hv & Hh). destruct (e_throws e); [by apply inv_crash, inv_throttles|].
    unfold setPasswordIfAbsent. destruct (password (db s)) as [p|] eqn:Ep.
    + apply inv_park; [done|]. destruct s. by cbn.
    + apply inv_park; [cbn; set_solver|]. apply inv_password; [done| |done| |done].
      * split; [by apply no_password|]. by exists pw.
      * unfold stored. by rewrite this_password_snoc.
  - destruct ins; [|by apply inv_reply, inv_throttles, inv_revoke]. apply inv_park; [|by apply inv_revoke].
    cbn. specialize (Ht eq_refl). set_solver.
  - destruct (mint _ _ _ _ _ _ _) as [[s' []]|] eqn:E; [| |by apply inv_crash, inv_throttles].
    + apply inv_finish; [done|done|]. apply inv_throttles. eapply inv_mint; [|done|done]. by right.
    + apply inv_reply, inv_throttles. eapply inv_mint; [|done|done]. by right.
Qed.

(** A live row lets its cookie through. *)
Lemma live_justified k h r now s :
  inv s → sessions (db s) !! h = Some r → session_over now r = false →
  (∃ token, asked_with (trace s) k (Some token) ∧ h = sha256 token) → justified (trace s) (AllowedSession k h now).
Proof.
  intros Hs Hr Hover Hasked. split; [done|]. apply orb_false_iff in Hover as [H1%Z.leb_gt H2%Z.leb_gt].
  destruct (do_sessions _ _ (iv_db _ Hs) _ _ Hr) as (b & k' & Hb & Ho & Hx & Hl).
  exists b, k', (s_createdAt r). split_and!; [done|done|lia|]. exists (s_lastSeenAt r). split; [done|lia].
Qed.

Lemma justified_quiet tr e k h now :
  password_event e = false → justified tr (AllowedSession k h now) → justified (tr ++ [e]) (AllowedSession k h now).
Proof.
  intros He [(token & Ha & Hh) (b & k' & o & Hb & Ho & Hlt & seen & Hs & Hi)]. split; [by exists token; auto|].
  exists b, k', o. rewrite stored_snoc, this_password_snoc, He by done. split_and!; [done|set_solver|done|].
  exists seen. set_solver.
Qed.

Lemma inv_spawn t s : task_ok (trace s) (next_task s) t → inv s → inv (spawn t s).
Proof. intros Ht Hs. apply (inv_tasks (<[next_task s := t]> (tasks s)) (S (next_task s))); [|done].
  intros k' t' [[<- <-]|[_ H]]%lookup_insert_Some; [done|]. by apply (iv_tasks _ Hs). Qed.

Lemma inv_touch_if_stale h r now s : Seen h now ∈ trace s → inv s → inv (touchIfStale h r now s) ∧ trace (touchIfStale h r now s) = trace s.
Proof.
  intros Hseen Hs. unfold touchIfStale. destruct (_ <? _); [done|]. case_bool_decide; [done|]. split; [|done].
  apply inv_spawn; [done|]. by apply inv_touches.
Qed.

Lemma inv_session k t e s : tasks s !! k = Some t → inv s → inv (session_step hasher sha256 k t e s).
Proof.
  intros Hk Hs. pose proof (iv_tasks _ Hs _ _ Hk) as Ht.
  destruct t as [| | | | | | | | | | |after token|after h|after h|h| | |]; try done; cbn [session_step].
  - destruct (e_throws e); [by auto|]. destruct (password (db s)) as [p|] eqn:Ep; [destruct token as [token|]|].
    + apply inv_park; [|done]. destruct after; [|done]. by exists token.
    + by apply inv_checked.
    + apply inv_checked; [done|]. intros _. by apply no_password.
  - destruct (e_throws e); [by auto|]. destruct (sessions (db s) !! h) as [r|] eqn:Er; [|by apply inv_checked].
    destruct (session_over (e_now e) r) eqn:Eo; [by apply inv_park|].
    set (s1 := Login.emit (Seen h (e_now' e)) s).
    assert (inv s1) as Hs1 by by apply inv_emit.
    destruct (inv_touch_if_stale h r (e_now' e) s1) as [Hi Htr]; [cbn; set_solver|done|].
    apply inv_checked; [done|]. intros ->. rewrite Htr. apply (justified_quiet (trace s)); [done|]. by eapply live_justified.
  - apply inv_checked; [|done]. destruct (e_throws e); [done|]. by apply inv_delete.
  - destruct (e_throws e); [by auto|]. by apply inv_reply, inv_delete.
Qed.

Lemma inv_background k t e s : tasks s !! k = Some t → inv s → inv (background_step hasher k t e s).
Proof.
  intros Hk Hs. pose proof (iv_tasks _ Hs _ _ Hk) as Ht.
  destruct t as [| | | | | | | | | | | | | | |h now stale|generation|now]; try done; cbn [background_step].
  - apply inv_over, inv_touches. destruct (e_throws e); [done|]. by apply inv_touch.
  - apply inv_over. destruct (e_throws e); [done|]. destruct (password (db s)); [done|]. by apply inv_issue.
  - apply inv_over. destruct (e_throws e); [done|]. by apply inv_sweep.
Qed.

Lemma login_inv_step a s : inv s → inv (step hasher sha256 toUpperCase decode a s).
Proof.
  intros Hs. destruct a as [r e|k e|b at_| |now]; cbn.
  - by apply inv_start.
  - unfold proceed. destruct (tasks s !! k) as [t|] eqn:Ek; [|done].
    destruct t; first [by apply inv_login|by apply inv_setup_step|by apply inv_session|by apply inv_background].
  - apply inv_password; try done. unfold stored. by rewrite this_password_snoc.
  - apply inv_password; try done. unfold stored. by rewrite this_password_snoc.
  - by apply inv_restart.
Qed.

Lemma login_inv_init now : inv (auth_init now auth_db_init).
Proof.
  split; cbn; [apply good_nil|by split| |]; [done|]. split; cbn; [done|set_solver|set_solver].
Qed.

Lemma login_inv_run actions s : inv s → inv (run hasher sha256 toUpperCase decode actions s).
Proof. revert s. induction actions as [|a l IH]; intros s Hs; cbn; [done|]. by apply IH, login_inv_step. Qed.

(** ** Claims of a throttle *)

Definition holds_login (t : task) : bool := match t with LoginStored _ | LoginVerify _ _ => true | _ => false end.
Definition holds_setup (t : task) : bool :=
  match t with
  | SetupConfigured _ _ | SetupVerifier _ _ _ _ | SetupVerify _ _ _ _ _ | SetupHash _ | SetupClaim _ _ _
  | SetupClaimed _ _ | SetupMint _ _ _ => true
  | _ => false
  end.

(** How many tasks satisfy [P] *)
Definition tasks_with (P : task → bool) (m : gmap nat task) : Z :=
  Z.of_nat (size (filter (λ e : nat * task, P e.2 = true) m)).
Definition weight (P : task → bool) (t : task) : Z := if P t then 1 else 0.

Lemma tasks_with_fresh P k t m : m !! k = None → tasks_with P (<[k := t]> m) = tasks_with P m + weight P t.
Proof.
  intros Hk. unfold tasks_with, weight. destruct (P t) eqn:E.
  - rewrite map_filter_insert_True by done. rewrite map_size_insert_None; [lia|].
    apply map_lookup_filter_None. by left.
  - rewrite map_filter_insert_False by (cbn; congruence). rewrite delete_id by done. lia.
Qed.

Lemma tasks_with_delete P k t m : m !! k = Some t → tasks_with P (delete k m) = tasks_with P m - weight P t.
Proof.
  intros Hk. rewrite <-(insert_delete_id m k t Hk) at 2. rewrite tasks_with_fresh by apply lookup_delete_eq. lia.
Qed.

Lemma tasks_with_insert P k t t' m :
  m !! k = Some t → tasks_with P (<[k := t']> m) = tasks_with P m - weight P t + weight P t'.
Proof.
  intros Hk. rewrite <-insert_delete_eq, tasks_with_fresh by apply lookup_delete_eq. by rewrite (tasks_with_delete P k t).
Qed.

(** The throttles count the tasks that hold a claim, up to what a step still owes. *)
Record balanced (dl ds : Z) (s : auth) : Prop := {
  bl_login : th_inFlight (login_throttle s) = tasks_with holds_login (tasks s) + dl;
  bl_setup : th_inFlight (setup_throttle s) = tasks_with holds_setup (tasks s) + ds;
  bl_caps : th_inFlight (login_throttle s) <= LOGIN_MAX_CONCURRENT ∧ th_inFlight (setup_throttle s) <= LOGIN_MAX_CONCURRENT;
  bl_fresh : ∀ k t, tasks s !! k = Some t → (k < next_task s)%nat }.

Lemma balanced_park k t0 t s :
  tasks s !! k = Some t0 →
  balanced (weight holds_login t - weight holds_login t0) (weight holds_setup t - weight holds_setup t0) s →
  balanced 0 0 (park k t s).
Proof.
  intros Hk [Hl Hs Hc Hf]. split; cbn; [rewrite (tasks_with_insert _ k t0) by done; lia..|done|].
  intros k' t' [[<- <-]|[_ H]]%lookup_insert_Some; by eapply Hf.
Qed.

Lemma balanced_over k t0 s :
  tasks s !! k = Some t0 → balanced (- weight holds_login t0) (- weight holds_setup t0) s →
  balanced 0 0 (set_tasks (delete k (tasks s)) (next_task s) s).
Proof.
  intros Hk [Hl Hs Hc Hf]. split; cbn; [rewrite (tasks_with_delete _ k t0) by done; lia..|done|].
  intros k' t' [_ H]%lookup_delete_Some. by eapply Hf.
Qed.

Lemma balanced_finish k t0 e s :
  tasks s !! k = Some t0 → balanced (- weight holds_login t0) (- weight holds_setup t0) s → balanced 0 0 (finish k e s).
Proof. intros Hk Hb. by destruct (balanced_over k t0 s Hk Hb). Qed.

Lemma balanced_emit dl ds e s : balanced dl ds s → balanced dl ds (Login.emit e s).
Proof. by intros []. Qed.
Lemma balanced_db dl ds d s : balanced dl ds s → balanced dl ds (set_db d s).
Proof. by intros []. Qed.
Lemma balanced_setup dl ds c s : balanced dl ds s → balanced dl ds (set_setup c s).
Proof. by intros []. Qed.
Lemma balanced_touches dl ds t s : balanced dl ds s → balanced dl ds (set_touches t s).
Proof. by intros []. Qed.
Lemma balanced_release_login dl ds s : balanced (dl + 1) ds s → balanced dl ds (release_login s).
Proof. intros [? ? []]. split; cbn; try done; lia. Qed.
Lemma balanced_release_setup dl ds s : balanced dl (ds + 1) s → balanced dl ds (release_setup s).
Proof. intros [? ? []]. split; cbn; try done; lia. Qed.

Lemma refill_inFlight now t : th_inFlight (refill now t) = th_inFlight t.
Proof. unfold refill. by destruct (_ <? _). Qed.

Lemma tryAcquire_inFlight now now' t :
  match tryAcquire now now' t with
  | (Some _, t') => th_inFlight t' = th_inFlight t
  | (None, t') => th_inFlight t' = th_inFlight t + 1 ∧ th_inFlight t < LOGIN_MAX_CONCURRENT
  end.
Proof.
  unfold tryAcquire. destruct (_ <? 1); [apply refill_inFlight|]. destruct (_ <=? _) eqn:E; [apply refill_inFlight|].
  cbn. rewrite refill_inFlight in *. lia.
Qed.

Lemma balanced_spawn s t : holds_login t = false → holds_setup t = false → balanced 0 0 s → balanced 0 0 (spawn t s).
Proof.
  intros Hl Hs [H1 H2 Hc Hf].
  assert (tasks s !! next_task s = None) as Hn.
  { destruct (tasks s !! next_task s) eqn:E; [|done]. apply Hf in E. lia. }
  split; cbn; [rewrite tasks_with_fresh by done; unfold weight; rewrite ?Hl, ?Hs; lia..|done|].
  intros k' t' [[<- <-]|[_ H]]%lookup_insert_Some; [lia|]. apply Hf in H. lia.
Qed.

Lemma balanced_new k t s :
  tasks s !! k = None → (k < next_task s)%nat → balanced (weight holds_login t) (weight holds_setup t) s →
  balanced 0 0 (park k t s).
Proof.
  intros Hk Hlt [Hl Hs Hc Hf]. split; cbn; [rewrite tasks_with_fresh by done; lia..|done|].
  intros k' t' [[<- <-]|[_ H]]%lookup_insert_Some; [done|]. by eapply Hf.
Qed.

Lemma balanced_reply_new k e s : tasks s !! k = None → balanced 0 0 s → balanced 0 0 (finish k e s).
Proof. intros Hk [Hl Hs Hc Hf]. split; cbn; rewrite ?delete_id by done; done. Qed.

Lemma balanced_claim_login now now' dl ds s t r :
  tryAcquire now now' (login_throttle s) = (r, t) → balanced dl ds s →
  balanced (match r with None => dl + 1 | Some _ => dl end) ds (set_throttles t (setup_throttle s) s).
Proof.
  intros E [Hl Hs Hc Hf]. pose proof (tryAcquire_inFlight now now' (login_throttle s)) as H. rewrite E in H.
  destruct r; split; cbn; try done; lia.
Qed.

Lemma balanced_claim_setup now now' dl ds s t r :
  tryAcquire now now' (setup_throttle s) = (r, t) → balanced dl ds s →
  balanced dl (match r with None => ds + 1 | Some _ => ds end) (set_throttles (login_throttle s) t s).
Proof.
  intros E [Hl Hs Hc Hf]. pose proof (tryAcquire_inFlight now now' (setup_throttle s)) as H. rewrite E in H.
  destruct r; split; cbn; try done; lia.
Qed.

Lemma mint_same k b token at_ e s s' x :
  mint sha256 k b token at_ e s = Some (s', x) →
  tasks s' = tasks s ∧ (∀ dl ds, balanced dl ds s → balanced dl ds s').
Proof.
  unfold mint. destruct (e_throws e); [done|]. destruct (createSession _ _ _ _) as [[d n]|]; cbn; [|done].
  destruct (n =? 0); intros [= <- <-]; split; try done; intros; by repeat apply balanced_emit; apply balanced_db.
Qed.

Lemma issue_same g e s :
  tasks (ensure_issued hasher g e s).1 = tasks s
  ∧ (∀ dl ds, balanced dl ds s → balanced dl ds (ensure_issued hasher g e s).1).
Proof.
  unfold ensure_issued. destruct (ensureIssued _ _ _ _) as [[c [[ref code]|]] b]; cbn; split; try done; intros;
    [apply balanced_emit|]; by apply balanced_setup.
Qed.

Lemma balanced_checked k t0 after c e s :
  tasks s !! k = Some t0 → balanced (- weight holds_login t0) (- weight holds_setup t0) s →
  balanced 0 0 (checked hasher k after c e s).
Proof.
  intros Hk Hb. destruct after as [|g]; cbn; [by eapply balanced_finish|].
  destruct c; [|by eapply balanced_finish, balanced_emit, balanced_setup..].
  destruct (issue_same g e s) as [Ht Hi]. destruct (ensure_issued _ _ _ _) as [s' []]; cbn in *;
    (eapply balanced_finish; [by rewrite Ht|by apply Hi]).
Qed.

(** Every way out of a step: the task goes on or ends, and gives back what it must. *)
Ltac settle :=
  repeat match goal with
  | |- balanced 0 0 (park _ _ _) => eapply balanced_park; [done|unfold weight; cbn]
  | |- balanced 0 0 (reply _ _ _) => unfold reply
  | |- balanced 0 0 (finish _ _ _) => eapply balanced_finish; [done|unfold weight; cbn]
  | |- balanced _ _ (release_login _) => apply balanced_release_login; cbn
  | |- balanced _ _ (release_setup _) => apply balanced_release_setup; cbn
  | |- balanced _ _ (revoke _) => apply balanced_emit, balanced_setup
  | |- balanced _ _ (Login.emit _ _) => apply balanced_emit
  | |- balanced _ _ (set_db _ _) => apply balanced_db
  | |- balanced _ _ (set_touches _ _) => apply balanced_touches
  | |- balanced _ _ (set_setup _ _) => apply balanced_setup
  end; try done.

Lemma balanced_login k t e s : tasks s !! k = Some t → balanced 0 0 s → balanced 0 0 (login_step hasher sha256 k t e s).
Proof.
  intros Hk Hs. destruct t as [pw|pw|pw b|b token at_| | | | | | | | | | | | | |]; try done; cbn [login_step].
  - destruct (e_throws e); [by settle|]. destruct (password (db s)); [|by settle].
    destruct (tryAcquire _ _ _) as [[rej|] t] eqn:E; apply (balanced_claim_login _ _ 0 0) in E; try done; settle.
  - destruct (e_throws e); [by settle|]. destruct (password (db s)); by settle.
  - destruct (if e_throws e then None else _) as [[]|]; by settle.
  - destruct (mint _ _ _ _ _ _ _) as [[s' []]|] eqn:E; [| |by settle];
      apply mint_same in E as [Ht Hb]; (eapply balanced_finish; [by rewrite Ht|by apply Hb]).
Qed.

Lemma balanced_setup_step k t e s :
  tasks s !! k = Some t → balanced 0 0 s → balanced 0 0 (setup_step hasher sha256 toUpperCase k t e s).
Proof.
  intros Hk Hs. destruct t as [| | | |code pw|cand pw a g|cand pw a g b|pw|pw b at_|b ins|b token at_| | | | | | |]; try done; cbn [setup_step].
  - destruct (e_throws e); [by settle|]. destruct (password (db s)); [by settle|].
    destruct (sc_active (setup s)), (normalizeSetupCode toUpperCase code); by settle.
  - destruct (ac_verifier a); by settle.
  - destruct (if e_throws e then None else _) as [[]|]; [|by settle..]. destruct (still_active _ _ _); [|by settle].
    destruct (validateNewPassword pw); by settle.
  - destruct (if e_throws e then None else _); by settle.
  - destruct (e_throws e); [by settle|]. destruct (setPasswordIfAbsent _ _ _) as [d []]; by settle.
  - destruct ins; by settle.
  - destruct (mint _ _ _ _ _ _ _) as [[s' []]|] eqn:E; [| |by settle];
      apply mint_same in E as [Ht Hb]; (eapply balanced_finish; [cbn; by rewrite Ht|]); apply balanced_release_setup; by apply Hb.
Qed.

Lemma touch_if_stale_same h r now s k t :
  balanced 0 0 s → tasks s !! k = Some t →
  balanced 0 0 (touchIfStale h r now s) ∧ tasks (touchIfStale h r now s) !! k = Some t.
Proof.
  intros Hs Hk. unfold touchIfStale. destruct (_ <? _); [done|]. case_bool_decide; [done|]. split.
  - by apply balanced_spawn, balanced_touches.
  - cbn. rewrite lookup_insert_ne; [done|]. intros <-. apply (bl_fresh _ _ _ Hs) in Hk. lia.
Qed.

Lemma balanced_session k t e s : tasks s !! k = Some t → balanced 0 0 s → balanced 0 0 (session_step hasher sha256 k t e s).
Proof.
  intros Hk Hs. destruct t as [| | | | | | | | | | |after token|after h|after h|h| | |]; try done; cbn [session_step].
  - destruct (e_throws e); [by settle|]. destruct (password (db s)), token; try (by eapply balanced_checked); by settle.
  - destruct (e_throws e); [by settle|]. destruct (sessions (db s) !! h) as [r|]; [|by eapply balanced_checked].
    destruct (session_over _ _); [by settle|]. set (s1 := Login.emit _ s).
    destruct (touch_if_stale_same h r (e_now' e) s1 k (CheckSession after h)) as [Hb Ht]; [by apply balanced_emit|done|].
    by eapply balanced_checked.
  - destruct (e_throws e); eapply balanced_checked; try done. by apply balanced_db.
  - destruct (e_throws e); by settle.
Qed.

Lemma balanced_background k t e s : tasks s !! k = Some t → balanced 0 0 s → balanced 0 0 (background_step hasher k t e s).
Proof.
  intros Hk Hs. destruct t as [| | | | | | | | | | | | | | |h now stale|g|now]; try done; cbn [background_step].
  - destruct (e_throws e); eapply balanced_over; try done; by settle.
  - destruct (e_throws e); [by eapply balanced_over|]. destruct (password (db s)); [by eapply balanced_over|].
    destruct (issue_same g e s) as [Ht Hi]. eapply balanced_over; [by rewrite Ht|]. by apply Hi.
  - destruct (e_throws e); eapply balanced_over; try done; by settle.
Qed.

Lemma balanced_start r e s : balanced 0 0 s → balanced 0 0 (start sha256 decode r e s).
Proof.
  intros Hs. unfold start. set (k := next_task s).
  set (s1 := Login.emit (Asked k r) (set_tasks (tasks s) (S k) s)).
  assert (tasks s1 !! k = None) as Hn.
  { cbn. destruct (tasks s !! k) eqn:E; [|done]. apply (bl_fresh _ _ _ Hs) in E. unfold k in E. lia. }
  assert (balanced 0 0 s1) as Hs1.
  { destruct Hs as [? ? ? Hf]. split; cbn; try done. intros k' t H%Hf. unfold k. lia. }
  assert (k < next_task s1)%nat as Hlt by (cbn; lia). clearbody s1. destruct r as [b|b|c|c|c| |].
  - destruct (login_password _ _); [by apply balanced_reply_new|by apply balanced_new].
  - destruct (setup_fields _ _) as [|[code pw]]; [by apply balanced_reply_new|].
    destruct (tryAcquire _ _ _) as [[rej|] t] eqn:E; apply (balanced_claim_setup _ _ 0 0) in E; try done.
    + by apply balanced_reply_new.
    + by apply balanced_new.
  - by apply balanced_new.
  - by apply balanced_new.
  - destruct (readSessionCookie c); [by apply balanced_new|by apply balanced_reply_new].
  - by apply balanced_new.
  - by apply balanced_new.
Qed.

Lemma balanced_step a s : balanced 0 0 s → balanced 0 0 (step hasher sha256 toUpperCase decode a s).
Proof.
  intros Hs. destruct a as [r e|k e|b at_| |now]; cbn.
  - by apply balanced_start.
  - unfold proceed. destruct (tasks s !! k) as [t|] eqn:Ek; [|done].
    destruct t; first [by apply balanced_login|by apply balanced_setup_step|by apply balanced_session|by apply balanced_background].
  - by settle.
  - by settle.
  - by split.
Qed.

Lemma balanced_run actions s : balanced 0 0 s → balanced 0 0 (run hasher sha256 toUpperCase decode actions s).
Proof. revert s. induction actions as [|a l IH]; intros s Hs; cbn; [done|]. by apply IH, balanced_step. Qed.

(** * Properties *)

Definition history (now : Z) (actions : list action) : list event :=
  trace (run hasher sha256 toUpperCase decode actions (auth_init now auth_db_init)).

Lemma history_good now actions : good (history now actions).
Proof. apply iv_trace, login_inv_run, login_inv_init. Qed.

(** An event of a good trace was justified when it happened, by what is still on record. *)
Lemma good_elem tr e : good tr → e ∈ tr → ∃ pre post, tr = pre ++ e :: post ∧ justified pre e.
Proof. intros Hg (pre & post & ->)%list_elem_of_split. exists pre, post. split; [done|by eapply Hg]. Qed.

Lemma good_prefix pre post : good (pre ++ post) → good pre.
Proof. intros Hg a e b ->. apply (Hg a e (b ++ post)). by rewrite <-app_assoc. Qed.

(** Whoever opened a session had proved the password, or had just set it. *)
Lemma opened_by pre k h b at_ :
  good pre → SessionOpened k h b at_ ∈ pre →
  (∃ pw, verifies pw b ∧ asked_login pre k pw) ∨ PasswordStored (Some k) b ∈ pre.
Proof.
  intros Hg Ho. destruct (good_elem _ _ Hg Ho) as (a & c & -> & _ & [(pw & Hv)|Hp]); [left|right; set_solver].
  destruct (good_elem a _ (good_prefix _ _ Hg) Hv) as (a' & c' & -> & Hver & body & Hin & Hlogin).
  exists pw. split; [done|]. exists body. set_solver.
Qed.

(** C6: in every interleaving of requests, logins, setups, changes of the password by the CLI and
    restarts, a management request gets through only while no password is set, or with the
    cookie of a session that was opened under the very password that is set then, since it was
    set, by a login that proved that password or by the request that set it, not thirty days
    ago, and used within the last seven. *)
Theorem management_gate now actions :
  let tr := history now actions in
  (∀ pre k post, tr = pre ++ AllowedOpen k :: post → stored pre = None)
  ∧ ∀ pre k h at_ post, tr = pre ++ AllowedSession k h at_ :: post →
      (∃ token, asked_with pre k (Some token) ∧ h = sha256 token)
      ∧ ∃ b k' opened, stored pre = Some b ∧ SessionOpened k' h b opened ∈ this_password pre
          ∧ ((∃ pw, verifies pw b ∧ asked_login pre k' pw) ∨ PasswordStored (Some k') b ∈ pre)
          ∧ at_ < opened + SESSION_ABSOLUTE_MAX_MS
          ∧ ∃ seen, (seen = opened ∨ Seen h seen ∈ pre) ∧ at_ < seen + SESSION_IDLE_MAX_MS.
Proof.
  cbv zeta. pose proof (history_good now actions) as Hg. split.
  - intros pre k post Heq. exact (Hg _ _ _ Heq).
  - intros pre k h at_ post Heq. destruct (Hg _ _ _ Heq) as [Ha (b & k' & o & Hb & Ho & Hlt & Hseen)].
    split; [done|]. exists b, k', o. split_and!; try done.
    apply (opened_by pre k' h b o); [|by apply this_password_sub]. rewrite Heq in Hg. by eapply good_prefix.
Qed.

(** C30: over HTTP only the first password can be set, and only with the setup code: a request
    stores a password only while there is none, a hash of the one it asked for, which is neither
    too short nor too long, and after it presented a code that verified against the one
    announced, which nothing had used or revoked since. *)
Theorem first_password now actions pre k b post :
  history now actions = pre ++ PasswordStored (Some k) b :: post →
  stored pre = None
  ∧ ∃ pw code candidate ref, asked_setup pre k code pw ∧ hash_of pw b ∧ validateNewPassword pw = true
      ∧ normalizeSetupCode toUpperCase code = Some candidate
      ∧ ∃ before after announced_code b', pre = before ++ CodeMatched k ref candidate :: after
          ∧ Announced ref announced_code ∈ this_code before ∧ hash_of announced_code b' ∧ verifies candidate b'.
Proof.
  intros Heq. pose proof (history_good now actions) as Hg.
  destruct (Hg _ _ _ Heq) as [Hn (pw & (ref & cand & code & Hm & Hasked & Hc) & Hh & Hv)].
  split; [done|]. exists pw, code, cand, ref. split_and!; try done. rewrite Heq in Hg.
  destruct (good_elem pre _ (good_prefix _ _ Hg) Hm) as (a & c & -> & code' & b' & ?).
  exists a, c, code', b'. naive_solver.
Qed.

(** at most two logins and two setups are between the claim of their throttle and its
    release, which is where passwords are derived, at any time. *)
Theorem derivations_bounded now actions :
  let s := run hasher sha256 toUpperCase decode actions (auth_init now auth_db_init) in
  tasks_with holds_login (tasks s) <= LOGIN_MAX_CONCURRENT ∧ tasks_with holds_setup (tasks s) <= LOGIN_MAX_CONCURRENT
  ∧ th_inFlight (login_throttle s) = tasks_with holds_login (tasks s)
  ∧ th_inFlight (setup_throttle s) = tasks_with holds_setup (tasks s).
Proof.
  cbv zeta. assert (balanced 0 0 (auth_init now auth_db_init)) as H0 by by split.
  destruct (balanced_run actions _ H0) as [Hl Hs [Hc Hc'] _]. lia.
Qed.
End safety.

(** * The rate of the throttle *)

Inductive throttle_op := Attempt (at_ now : Z) | Release.

(** How many attempts of a sequence are granted *)
Fixpoint granted (ops : list throttle_op) (t : LoginThrottle) : Z :=
  match ops with
  | [] => 0
  | Attempt at_ now :: ops =>
      match tryAcquire at_ now t with (None, t) => 1 + granted ops t | (Some _, t) => granted ops t end
  | Release :: ops => granted ops (release t)
  end.

Definition throttle_ok (t : LoginThrottle) : Prop := 0 <= th_tokens t <= LOGIN_BUCKET_CAPACITY.
Definition interval : Z := LOGIN_BUCKET_REFILL_INTERVAL_MS.

Lemma refill_spec at_ t :
  throttle_ok t →
  throttle_ok (refill at_ t) ∧ at_ - th_lastRefillAt (refill at_ t) < interval
  ∧ ∃ earned, 0 <= earned ∧ th_lastRefillAt (refill at_ t) = th_lastRefillAt t + earned * interval
      ∧ th_tokens (refill at_ t) <= th_tokens t + earned ∧ (0 < earned → th_lastRefillAt (refill at_ t) <= at_).
Proof.
  unfold throttle_ok, refill, interval, LOGIN_BUCKET_CAPACITY, LOGIN_BUCKET_REFILL_INTERVAL_MS. intros Ht.
  destruct (Z.ltb_spec (at_ - th_lastRefillAt t) 5000) as [Hlt|Hge]; cbn.
  - split_and!; try lia. exists 0. lia.
  - pose proof (Z.div_mod (at_ - th_lastRefillAt t) 5000). pose proof (Z.mod_pos_bound (at_ - th_lastRefillAt t) 5000).
    split_and!; try lia. exists ((at_ - th_lastRefillAt t) / 5000). lia.
Qed.

(** What is granted up to [t1] is what there is and what is earned till then. *)
Lemma granted_bound ops t t1 :
  throttle_ok t → Forall (λ op, match op with Attempt a _ => a <= t1 | Release => True end) ops →
  granted ops t <= th_tokens t + Z.max 0 ((t1 - th_lastRefillAt t) / interval).
Proof.
  intros Ht Hops. revert t Ht. induction Hops as [|[a n|] ops Ha _ IH]; intros t Ht; cbn [granted].
  - unfold throttle_ok in Ht. lia.
  - destruct (refill_spec a t Ht) as (Hr & _ & earned & He & Hl & Hk & Hle).
    assert (th_tokens (refill a t) + Z.max 0 ((t1 - th_lastRefillAt (refill a t)) / interval)
            <= th_tokens t + Z.max 0 ((t1 - th_lastRefillAt t) / interval)) as Hpot.
    { destruct (decide (earned = 0)) as [->|Hne]; [rewrite Hl; replace (th_lastRefillAt t + 0 * interval) with (th_lastRefillAt t) by lia; lia|].
      specialize (Hle ltac:(lia)).
      assert ((t1 - th_lastRefillAt (refill a t)) / interval = (t1 - th_lastRefillAt t) / interval - earned) as ->.
      { rewrite Hl. replace (t1 - (th_lastRefillAt t + earned * interval)) with (t1 - th_lastRefillAt t + - earned * interval) by lia.
        rewrite Z.div_add by done. lia. }
      assert (earned <= (t1 - th_lastRefillAt t) / interval) by (apply Z.div_le_lower_bound; [done|lia]). lia. }
    unfold tryAcquire. destruct (Z.ltb_spec (th_tokens (refill a t)) 1); [specialize (IH _ Hr); lia|].
    destruct (_ <=? _); [specialize (IH _ Hr); lia|].
    match goal with |- 1 + granted ops ?t' <= _ => assert (throttle_ok t') as Ht' by (unfold throttle_ok in *; cbn; lia) end.
    specialize (IH _ Ht'). cbn in IH. lia.
  - by apply (IH (release t)).
Qed.

Lemma refill_twice at_ t : refill at_ (refill at_ t) = refill at_ t.
Proof.
  unfold refill at 2 3. destruct (Z.ltb_spec (at_ - th_lastRefillAt t) LOGIN_BUCKET_REFILL_INTERVAL_MS) as [H|H].
  - unfold refill. by rewrite (proj2 (Z.ltb_lt _ _) H).
  - unfold refill. cbn. rewrite (proj2 (Z.ltb_lt _ _)); [done|].
    pose proof (Z.mod_pos_bound (at_ - th_lastRefillAt t) LOGIN_BUCKET_REFILL_INTERVAL_MS).
    pose proof (Z.div_mod (at_ - th_lastRefillAt t) LOGIN_BUCKET_REFILL_INTERVAL_MS).
    unfold LOGIN_BUCKET_REFILL_INTERVAL_MS in *. lia.
Qed.

Definition within (t0 t1 : Z) (op : throttle_op) : Prop :=
  match op with Attempt a _ => t0 <= a <= t1 | Release => True end.

Lemma granted_within t t0 t1 ops :
  throttle_ok t → t0 <= t1 → Forall (within t0 t1) ops →
  granted ops t <= LOGIN_BUCKET_CAPACITY + (t1 - t0) / interval + 1.
Proof.
  intros Ht Hle Hops. pose proof (Z.div_pos (t1 - t0) interval) as Hpos.
  induction Hops as [|[a n|] ops Ha Hops IH] in t, Ht |- *.
  - cbn. unfold LOGIN_BUCKET_CAPACITY, interval, LOGIN_BUCKET_REFILL_INTERVAL_MS in *. lia.
  - cbn in Ha. destruct (refill_spec a t Ht) as (Hr & Hlast & _).
    assert (granted (Attempt a n :: ops) t = granted (Attempt a n :: ops) (refill a t)) as ->.
    { cbn. unfold tryAcquire. by rewrite refill_twice. }
    assert (granted (Attempt a n :: ops) (refill a t)
            <= th_tokens (refill a t) + Z.max 0 ((t1 - th_lastRefillAt (refill a t)) / interval)) as Hb.
    { apply granted_bound; [done|]. apply Forall_cons. split; [lia|]. eapply Forall_impl; [exact Hops|]. intros []; cbn; lia. }
    assert ((t1 - th_lastRefillAt (refill a t)) / interval <= (t1 - t0) / interval + 1) as Hdiv.
    { replace ((t1 - t0) / interval + 1) with ((t1 - t0 + 1 * interval) / interval) by (rewrite Z.div_add by done; lia).
      apply Z.div_le_mono; [done|]. lia. }
    unfold throttle_ok in Hr. unfold interval, LOGIN_BUCKET_REFILL_INTERVAL_MS in *. lia.
  - cbn. by apply (IH (release t)).
Qed.

(** The wait that a refusal names earns a token. *)
Lemma wait_earns u now at' :
  throttle_ok u → now + 1000 * Z.max 1 (ceil_div (LOGIN_BUCKET_REFILL_INTERVAL_MS - (now - th_lastRefillAt u)) 1000) <= at' →
  1 <= th_tokens (refill at' u).
Proof.
  unfold ceil_div. intros Hu Hwait. assert (interval <= at' - th_lastRefillAt u) as Hi.
  { pose proof (Z.div_mod (- (LOGIN_BUCKET_REFILL_INTERVAL_MS - (now - th_lastRefillAt u))) 1000).
    pose proof (Z.mod_pos_bound (- (LOGIN_BUCKET_REFILL_INTERVAL_MS - (now - th_lastRefillAt u))) 1000). unfold interval. lia. }
  unfold refill. unfold interval in Hi. rewrite (proj2 (Z.ltb_ge _ _)) by done. cbn.
  assert (1 <= (at' - th_lastRefillAt u) / LOGIN_BUCKET_REFILL_INTERVAL_MS) by (apply Z.div_le_lower_bound; [done|lia]).
  unfold throttle_ok, LOGIN_BUCKET_CAPACITY in *. lia.
Qed.

(** C31: attempts are throttled without a lockout: of those made within a span of time, however
    many and however interleaved with releases, at most ten and one for each five seconds of the
    span, and one more, are granted; a refusal takes no token, and whoever waits as long as a
    refusal for the rate says is not refused for the rate again. *)
Theorem login_rate t t0 t1 ops :
  throttle_ok t → t0 <= t1 → Forall (within t0 t1) ops →
  granted ops t <= LOGIN_BUCKET_CAPACITY + (t1 - t0) / interval + 1
  ∧ ∀ at_ now why wait t', tryAcquire at_ now t = (Some (why, wait), t') →
      th_tokens t' = th_tokens (refill at_ t)
      ∧ (why = RateLimited → ∀ at' now' wait', now + 1000 * wait <= at' →
         (tryAcquire at' now' t').1 ≠ Some (RateLimited, wait')).
Proof.
  intros Ht Hle Hops. split; [by apply granted_within|]. intros at_ now why wait t' E. unfold tryAcquire in E.
  destruct (refill_spec at_ t Ht) as (Hr & _). destruct (Z.ltb_spec (th_tokens (refill at_ t)) 1) as [Hlt|Hge].
  - injection E as <- <- <-. split; [done|]. intros _ at' now' wait' Hwait. cbn in Hwait.
    pose proof (wait_earns _ _ _ Hr Hwait). unfold tryAcquire. rewrite (proj2 (Z.ltb_ge _ _)) by lia.
    by destruct (_ <=? _).
  - destruct (_ <=? _); [|done]. by injection E as <- <- <-.
Qed.

(** * Hashes *)

Lemma nibble_digit_value n : (n < 16)%nat → nibble_value (nibble_digit n) = Some n.
Proof. intros Hn. do 16 (destruct n as [|n]; [done|]). lia. Qed.

Lemma hex_roundtrip s : fromHex (toHex s) = s.
Proof.
  induction s as [|c s IH]; [done|]. cbn [toHex fromHex].
  pose proof (Ascii.nat_ascii_bounded c) as Hb.
  rewrite !nibble_digit_value by (first [apply Nat.Div0.div_lt_upper_bound; lia|apply Nat.mod_upper_bound; lia]).
  rewrite IH. f_equal. rewrite <-(Nat.div_mod_eq (Ascii.nat_of_ascii c) 16). apply Ascii.ascii_nat_embedding.
Qed.

Lemma scrypt_params_plain salt : plain (scrypt_params salt) = true.
Proof. reflexivity. Qed.

(** what is stored for a password verifies against it, and against no other that scrypt
    derives another key from, whatever the salt. *)
Theorem hash_verifies scrypt salt pw b :
  hash (scryptPasswordHasher scrypt) salt pw = Some b →
  ∀ pw', verify (scryptPasswordHasher scrypt) pw' (b_verifier b) (b_params b)
         = derived ← scrypt pw' salt (scrypt_costs (scrypt_params salt));
           Some (bool_decide (scrypt pw salt (scrypt_costs (scrypt_params salt)) = Some derived)).
Proof.
  cbn [hash verify scryptPasswordHasher]. set (costs := scrypt_costs (scrypt_params salt)).
  destruct (scrypt pw salt costs) as [key|] eqn:E; cbn [mbind option_bind]; [|done]. intros [= <-] pw'.
  cbn [b_verifier b_params]. rewrite parse_stringify by apply scrypt_params_plain.
  change (as_string (own "kdf" (scrypt_params salt))) with (Some "scrypt"%string).
  change (as_string (own "salt" (scrypt_params salt))) with (Some (toHex salt)).
  cbv iota. cbn [String.eqb Ascii.eqb Bool.eqb]. rewrite !hex_roundtrip. fold costs.
  destruct (scrypt pw' salt costs) as [key'|]; cbn [mbind option_bind]; [|done]. f_equal.
  destruct (String.eqb_spec key key') as [->|Hne]; [by rewrite bool_decide_eq_true_2|].
  rewrite bool_decide_eq_false_2; [done|]. by intros [= ->].
Qed.

Example hash_verifies_witness :
  let scrypt := λ pw salt (_ : list value), Some (salt +:+ pw) in
  verify (scryptPasswordHasher scrypt) "hunter22" (toHex ("NaCl" +:+ "hunter22")) (stringify (scrypt_params "NaCl")) = Some true.
Proof.
  cbv zeta. exact (hash_verifies (λ pw salt _, Some (salt +:+ pw)) "NaCl" "hunter22" _ eq_refl "hunter22").
Defined.

Example login_rate_witness :
  let t := new_throttle 0 in
  let ops := [Attempt 1 1; Attempt 2 2; Release; Release; Attempt 9000 9000] in
  granted ops t <= 10 + 9000 / interval + 1
  ∧ (tryAcquire 7000 7000 {| th_tokens := 0; th_lastRefillAt := 5000; th_inFlight := 0 |}).1 = Some (RateLimited, 3).
Proof.
  cbv zeta. split; [|reflexivity].
  refine (proj1 (login_rate (new_throttle 0) 0 9000 _ _ _ _)); [by vm_compute|lia|].
  repeat constructor; cbn; lia.
Defined.

(** * A deployment *)

(** A hasher whose verifier is the password; digests and upper case that leave their text *)
Definition plain_hasher : PasswordHasher := {|
  hash salt pw := Some {| b_verifier := pw; b_params := salt |};
  verify pw v _ := Some (String.eqb pw v) |}.
Definition same (s : string) : string := s.

Definition demo_env (now : Z) : env :=
  {| e_now := now; e_now' := now; e_throws := false; e_bytes := repeat 1 12; e_salt := "salt"; e_token := "tok";
     e_announced := true |}.

Definition body_of (fields : list (string * json)) : request_body :=
  {| bd_declared := None; bd_chunks := Some ([stringify (JObj fields)], false) |}.

(** The code is announced at the start, the password is set with it, and the cookie of that
    request lets another one through. *)
Definition demo_actions : list action :=
  let go k n := Resume k (demo_env n) in
  [Start RStartup (demo_env 0); go 0%nat 0;
   Start (RSetup (body_of [("code", JStr "1111-1111-1111"); ("password", JStr "hunter22")])) (demo_env 1);
   go 1%nat 1; go 1%nat 1; go 1%nat 1; go 1%nat 2; go 1%nat 2; go 1%nat 3; go 1%nat 3;
   Start (RApi (Some "theme=dark; cmx_session=tok")) (demo_env 9); go 2%nat 9; go 2%nat 10]%string.

Definition demo_history : list event := history plain_hasher same same same 0 demo_actions.

Example demo_history_is :
  demo_history
  = let b := {| b_verifier := "hunter22"; b_params := "salt" |} in
    [Asked 0 RStartup; Announced 0 "111111111111";
     Asked 1 (RSetup (body_of [("code", JStr "1111-1111-1111"); ("password", JStr "hunter22")]));
     CodeMatched 1 0 "111111111111"; PasswordStored (Some 1%nat) b; CodeDropped; SessionOpened 1 "tok" b 3;
     Replied 1 200 (Some "tok"); Asked 2 (RApi (Some "theme=dark; cmx_session=tok")); Seen "tok" 10;
     AllowedSession 2 "tok" 10]%string.
Proof. vm_compute. reflexivity. Qed.

Example management_gate_witness :
  let pre := take 10 demo_history in
  ∃ b k' opened, stored pre = Some b ∧ SessionOpened k' "tok" b opened ∈ this_password pre
    ∧ 10 < opened + SESSION_ABSOLUTE_MAX_MS.
Proof.
  cbv zeta.
  destruct (proj2 (management_gate plain_hasher same same same 0 demo_actions) (take 10 demo_history) 2%nat "tok"%string 10 [])
    as (_ & b & k' & o & Hb & Ho & _ & Hlt & _); [vm_compute; reflexivity|].
  exists b, k', o. exact (conj Hb (conj Ho Hlt)).
Defined.

Example first_password_witness :
  let pre := take 4 demo_history in
  let b := {| b_verifier := "hunter22"; b_params := "salt" |}%string in
  stored pre = None ∧ ∃ pw code, asked_setup same pre 1 code pw ∧ hash_of plain_hasher pw b.
Proof.
  cbv zeta.
  destruct (first_password plain_hasher same same same 0 demo_actions (take 4 demo_history) 1
    {| b_verifier := "hunter22"; b_params := "salt" |}%string (drop 5 demo_history))
    as (Hn & pw & code & _ & _ & Ha & Hh & _); [vm_compute; reflexivity|].
  split; [exact Hn|]. exists pw, code. exact (conj Ha Hh).
Defined.

(** ** The code as it is printed *)

Lemma in_alphabet_typed c : in_alphabet c = true → is_space c || Ascii.eqb c "-"%char = false.
Proof. destruct c as [[] [] [] [] [] [] [] []]; vm_compute; congruence. Qed.

Lemma in_alphabet_unit c s : in_alphabet c = true → units (String c s) = 1 + units s.
Proof.
  intros Hc. cbn [units]. assert ((Json.code c <? 128)%nat = true) as ->; [|done]. revert Hc. clear s.
  destruct c as [[] [] [] [] [] [] [] []]; vm_compute; congruence.
Qed.

Lemma in_alphabet_units s : all_chars in_alphabet s = true → units s = Z.of_nat (String.length s).
Proof.
  induction s as [|c s IH]; [done|]. cbn [all_chars]. intros [Hc Hs]%andb_true_iff.
  rewrite in_alphabet_unit, IH by done. cbn [String.length]. lia.
Qed.

(** A code typed as it was printed is the code. *)
Lemma printed_code_typed toUpperCase c :
  String.length c = SETUP_CODE_LENGTH → all_chars in_alphabet c = true →
  toUpperCase (formatSetupCode c) = formatSetupCode c →
  normalizeSetupCode toUpperCase (formatSetupCode c) = Some c.
Proof.
  intros Hlen Hall Hup. unfold normalizeSetupCode. rewrite Hup. clear Hup.
  set (squeeze := without_chars _). assert (squeeze (formatSetupCode c) = c) as ->.
  { unfold squeeze. clear squeeze. do 12 (destruct c as [|? c]; [discriminate Hlen|]). destruct c; [|discriminate Hlen].
    cbn [all_chars] in Hall. repeat match goal with H : _ && _ = true |- _ => apply andb_true_iff in H as [? ?] end.
    cbn -[is_space in_alphabet Ascii.eqb orb]. unfold String.append. cbn -[is_space in_alphabet Ascii.eqb orb].
    change (is_space "-"%char || Ascii.eqb "-"%char "-"%char) with true. by rewrite !in_alphabet_typed by assumption. }
  rewrite (in_alphabet_units c Hall), Hlen, Hall. done.
Qed.
